(* ===== verification/_CoqProject ===== *)
-Q . S2P
Prelude.v
Crc64.v
ByteArena.v
Probing.v
MappedVector.v
StringTable.v
IdentitySpace.v
Json.v
Sha256.v
Sha256Standard.v
Sha256Theorems.v
Lexer.v
IncludeDiscovery.v
Construction.v
RuntimeLayout.v
RuntimeLinks.v
ManagedRuntime.v
Graph.v
GraphLookup.v
GraphPublication.v
GraphQueries.v
GraphExamples.v
ByteImage.v
ChangeStateImage.v
ChangeStateBloom.v
ChangeStateRoundTrip.v
ChangeStateTheorems.v
SourceFacts.v
SourceFactsTheorems.v
SourceFactsErrors.v
SourceEnvironment.v
SourceEnvironmentTables.v
SourceEnvironmentInit.v
SourceEnvironmentTheorems.v
SourceEnvironmentAgreement.v
ParserState.v
ParserTypes.v
SourceParser.v
ParserTables.v
ParserRules.v
ParserExamples.v
ParserScans.v
ParserChunks.v
ParserMoves.v
ParserMembers.v
ParserConstruction.v
ParserRecords.v
ParserEnums.v
ParserObjects.v
ParserScopes.v
ParserTheorems.v
ParserEnumValues.v
HeapTables.v
Contribution.v
GenerationBuilder.v
GenerationRules.v
GenerationTypes.v
GenerationTables.v
GenerationReferences.v
GenerationDefinitions.v
GenerationLinks.v
GenerationStages.v
GenerationSpec.v
GenerationGraph.v
ContributionCapture.v
ContributionRebuild.v
GenerationRefusals.v
GenerationTheorems.v
ContributionCache.v
ContributionCacheTheorems.v
GenerationConstruction.v
GenerationExamples.v
ContributionUpdate.v
ContributionPatches.v
ContributionUpdateTheorems.v
ContributionPublication.v
ContributionCommit.v
ContributionStorage.v
ContributionExamples.v
