(* ===== verification/Prelude.v ===== *)
(** * Server Engine: a verification library

    A model of Server Engine (src/server_engine/, C++), in the order in which a project passes
    through it, with the theorems that make each part correct.  Paths below are relative to
    src/server_engine/.

    ** The program

    A server watches the Sources of a project, translates a declarative subset of C++ into a
    graph of types, objects and links, and runs the objects as managed storage.  The path of a
    Source is: text - [lexer] - tokens - [include_discovery] - tokens without directives -
    [source_parser] - a packet of [source_facts] - [validate_source_facts] -
    [source_contribution_cache_update] - [generation_builder] - [graph] - [managed_runtime].
    Names go through two lock-free tables all threads share, the [string_table] and the
    [identity_space], over a concurrent [byte_arena].  What other Sources declare reaches the
    parser through [source_environment].  Arrays that may have a persisted baseline are
    [mapped_vector]s.  Persisted images are written and bound with checksums (CRC-64), and
    contents are hashed (SHA-256).

    ** The parts and their files

    - Prelude: this file; words with their wrap-around, status values ([status.hpp]), the
      mixing function of the hash tables, shared lemmas and automation.
    - Storage.  ByteArena: [project/storage/byte_arena].  Probing, MappedVector:
      [project/storage/mapped_vector.hpp].
    - Names.  StringTable: [project/string/string_table].  IdentitySpace: [project/identity].
    - Codecs.  Crc64: [project/persistence/crc64_ecma.hpp].  Sha256:
      [project/source/source_hash], Sha256Standard the specification it is proved equal to (FIPS
      180-4 on bits), Sha256Theorems the proof.  Json: [json/json_parser].  ByteImage and ChangeState*:
      [project/persistence/change_state_image].
    - Front end.  Lexer: [project/parser/lexer].  IncludeDiscovery:
      [project/frontend/include_discovery].  Construction: [construction_value.hpp] and
      [aggregate_initializer.hpp] in [project/frontend].  SourceFacts*:
      [project/frontend/source_facts] and its validation.  SourceEnvironment*:
      [project/parser/source_environment].  ParserState, ParserTypes and SourceParser:
      [project/parser/source_parser]; the other Parser* files are its theory: tables, rules of
      the methods bottom-up (scans, members, constructions, records, enumerations, objects,
      scopes), and the theorems.
    - Build.  Contribution (full builds), ContributionCache (lookups and comparison),
      ContributionUpdate (sparse updates) and ContributionStorage (image, use and hand-over):
      [project/builder/source_contribution], with the choice of the inputs in
      [project/project_build_orchestrator.cpp].  GenerationBuilder:
      [project/builder/generation_builder].  HeapTables and the other Generation* and
      Contribution* files are their theory.
    - Graph and runtime.  Graph: [project/graph/graph]; GraphLookup, GraphPublication,
      GraphQueries and GraphExamples are its theory.  RuntimeLayout, RuntimeLinks and
      ManagedRuntime: [project/runtime/managed_runtime].

    Each file opens with what it models.  A definition has the name of its C++ counterpart
    where there is one; a lambda, a loop body or a branch that has a definition of its own is
    named after what it does.

    ** How code is modelled

    Sequential code that only fails is a function into [option], a sum with [status_code], or a
    monad of the component ([SourceFacts.check], [ParserState.parse], [Contribution.build],
    [Json]'s results), with early returns and messages as in the code.  The concurrent tables
    (ByteArena, StringTable, IdentitySpace) are machines whose steps are the atomic operations
    of the code; the theorems quantify over all interleavings.  Memory is an environment:
    allocations are answered by an argument, and every catch block is a branch.  Unsigned words
    are [N] with [w32] and [w64] at the operations that can wrap.  A pointer into an image is
    its offset, and a read outside the image or past a vector is an outcome of its own.

    Code that is not in the repository, or that is only reached through an interface here, is a
    parameter: the conversions of floating-point numbers, the images behind baseline-backed
    tables (records of what they answer, with the laws used as hypotheses or fields), the
    semantic services of a parse (a class with its laws, with an instance in ParserExamples).

    Loops without a syntactic measure run on a fuel, and it is shown to be enough: [probe]
    visits every slot of a table once; the JSON parser has twice the text and two, with 64
    levels of nesting; an aggregate initializer 64 levels and 65536 nodes, bounds of the code;
    the loops of the parser the tokens ahead of the cursor, and a nest of scopes the depth the
    code allows (128); an import chain 1024, the bound of the code.  A loop of the code that
    has no bound is an outcome of its own where it would not end ([Stuck], [Endless]), and the
    totality theorems exclude it.

    ** What is shown

    - Names ([resolve_canonical], [intern_canonical] and the theorems next to them): under every
      interleaving, equal names get one identity and different names different ones; what a
      call returned stays readable; a call that runs alone ends.  [allocate_regions_disjoint]:
      the regions of the arena are disjoint under every interleaving.
    - Storage: [mapped_vector_store] refines the update of a sequence, with every cache
      coherent.
    - Codecs: the sliced CRC is polynomial division; the streaming hash is SHA-256 as the
      standard states it, on bits; printing and parsing JSON round-trips and every parse
      returns; an encoded change-state image is bound and answers for its capture, and a bound
      image is read inside its bytes.
    - Lexing and parsing: the lexer decides a relational grammar and always returns; include
      discovery keeps the tokens between the directives; a parse always returns, and the
      packet of an accepted one is valid, exactly where [parse_accepted] says; enumerators
      count on; aggregate initializers round-trip.
    - Facts and interfaces: [validate_source_facts] is equivalent to the declarative
      [well_formed]; an error names a defect; the include environment finds exactly what an
      import path exports; the two constructions of an interface agree, and a persisted one
      answers as before.
    - Full build: [g0_builds_graph] composes capture, build and publication: the published
      graph represents, index by index, the lists that the packets describe; [g0_answers]: a
      build always answers, and one that does not answer ok leaves nothing behind;
      [type_references_canonical]: the references that a build hands out lead to the types
      asked for, and are equal exactly for equal types; aggregation has an inverse; the
      underlying type of an enumeration is the first that fits.
    - Incremental build, the contributions: [builder_inputs_exact]: an update whose
      packets a build accepts replaces exactly those that contribute something else than is
      retained (one that adds a base class, which a build refuses, compares as unchanged:
      [added_base_unrefused]); [sparse_update_retains]: what is published retains the packets of the unchanged Sources with the new ones, so
      that the two apply to each other from a full build on, update after update;
      [publication_allocates_nothing]: after a preparation that answers ok, over a cache with
      or without a baseline, publication returns whatever the memory.
    - Graph: lookups are exact for the lists the graph represents; preparing an update changes
      nothing, and publishing it leaves the updated lists with exact indexes.
    - Runtime: layouts are disjoint and in range; construction returns, and a failed one keeps
      the old runtime; an integer written is read back; linked fields stay equal in every
      reachable state.

    The theorems that state a flaw of the code as it is (a publication that loses a type, an
    image whose section offsets wrap, an added base class that no update refuses, declarations
    the parser refuses in one order only) are kept next to the positive ones, as closed examples.

    ** Not modelled

    The graph half of the incremental build ([prepare_incremental_graph]), which works out the
    patches that Graph publishes; its contribution half is modelled.  The source
    manager, the frontend caches with their block store, and the project manager and context,
    which orchestrate the parts above with threads, files and operating-system services.  The
    change tracker, the file snapshots, the baseline store and the project persistence, which
    are mostly calls of the operating system.  The three large image formats (build cache,
    compiled project, source manager), of which the clients here see a record of answers; the
    change-state image has the same design.  The loaders of the configurations, logging,
    diagnostics descriptors, and the program entry.  Telemetry and statistics with
    floating-point averages are left out of the modelled parts, and so are destructors.
    Concurrency is modelled under sequential consistency. *)

From Stdlib Require Export NArith ZArith Lia.
From stdpp Require Export strings gmap option base tactics list_numbers list.

(** ** Automation shared by the components *)

Create HintDb engine.
Create Rewrite HintDb engine.
Declare Scope engine_scope.
Delimit Scope engine_scope with engine.

(** Case analysis on whatever the goal is stuck on, then cleaning. *)
Ltac case_stuck :=
  match goal with
  | |- context [match ?x with _ => _ end] => destruct x eqn:?
  | H : context [match ?x with _ => _ end] |- _ => destruct x eqn:?
  end; simplify_eq/=.

Ltac case_all := repeat case_stuck.

(** Turn boolean comparisons on [N] and [nat] into propositions. *)
Ltac bools :=
  repeat match goal with
  | H : _ && _ = true |- _ => apply andb_true_iff in H; destruct H
  | H : _ && _ = false |- _ => apply andb_false_iff in H
  | H : _ || _ = true |- _ => apply orb_true_iff in H
  | H : _ || _ = false |- _ => apply orb_false_iff in H; destruct H
  | H : negb _ = true |- _ => apply negb_true_iff in H
  | H : negb _ = false |- _ => apply negb_false_iff in H
  | H : (_ =? _)%N = true |- _ => apply N.eqb_eq in H
  | H : (_ =? _)%N = false |- _ => apply N.eqb_neq in H
  | H : (_ <? _)%N = true |- _ => apply N.ltb_lt in H
  | H : (_ <? _)%N = false |- _ => apply N.ltb_ge in H
  | H : (_ <=? _)%N = true |- _ => apply N.leb_le in H
  | H : (_ <=? _)%N = false |- _ => apply N.leb_gt in H
  | H : (_ =? _)%Z = true |- _ => apply Z.eqb_eq in H
  | H : (_ =? _)%Z = false |- _ => apply Z.eqb_neq in H
  | H : (_ <? _)%Z = true |- _ => apply Z.ltb_lt in H
  | H : (_ <? _)%Z = false |- _ => apply Z.ltb_ge in H
  | H : (_ <=? _)%Z = true |- _ => apply Z.leb_le in H
  | H : (_ <=? _)%Z = false |- _ => apply Z.leb_gt in H
  | H : (_ =? _)%nat = true |- _ => apply Nat.eqb_eq in H
  | H : (_ =? _)%nat = false |- _ => apply Nat.eqb_neq in H
  | H : (_ <? _)%nat = true |- _ => apply Nat.ltb_lt in H
  | H : (_ <? _)%nat = false |- _ => apply Nat.ltb_ge in H
  | H : (_ <=? _)%nat = true |- _ => apply Nat.leb_le in H
  | H : (_ <=? _)%nat = false |- _ => apply Nat.leb_gt in H
  end.

(** ** Status values (server_engine/status.hpp) *)

Inductive status_code : Set :=
| ok | initialization_failed | configuration_failed | io_failed
| invalid_argument | semantic_conflict | not_found | persistence_failed
| artifact_corrupt | rebuild_required | not_available | invalid_state.

#[export] Instance status_code_eq_dec : EqDecision status_code.
Proof. solve_decision. Defined.

(** [status::ok]. *)
Definition status_ok (s : status_code) : bool := bool_decide (s = ok).

(** ** Machine words

    Unsigned words are [N]; an operation that may leave the width is followed by
    [w32] or [w64], which is the C++ wrap-around. *)

Definition two32 : N := 4294967296.
Definition two64 : N := 18446744073709551616.

Definition w8 (n : N) : N := N.land n 0xff.
Definition w32 (n : N) : N := N.land n 0xffffffff.
Definition w64 (n : N) : N := N.land n 0xffffffffffffffff.

Lemma w8_mod n : w8 n = (n mod 256)%N.
Proof. apply (N.land_ones n 8). Qed.
Lemma w32_mod n : w32 n = (n mod two32)%N.
Proof. apply (N.land_ones n 32). Qed.
Lemma w64_mod n : w64 n = (n mod two64)%N.
Proof. apply (N.land_ones n 64). Qed.

Lemma w8_lt n : (w8 n < 256)%N.
Proof. rewrite w8_mod. apply N.mod_lt. lia. Qed.
Lemma w32_lt n : (w32 n < two32)%N.
Proof. rewrite w32_mod. apply N.mod_lt. unfold two32; lia. Qed.
Lemma w64_lt n : (w64 n < two64)%N.
Proof. rewrite w64_mod. apply N.mod_lt. unfold two64; lia. Qed.
Lemma w8_small n : (n < 256)%N → w8 n = n.
Proof. rewrite w8_mod. apply N.mod_small. Qed.
Lemma w32_small n : (n < two32)%N → w32 n = n.
Proof. rewrite w32_mod. apply N.mod_small. Qed.
Lemma w64_small n : (n < two64)%N → w64 n = n.
Proof. rewrite w64_mod. apply N.mod_small. Qed.

#[export] Hint Resolve w8_lt w32_lt w64_lt : engine.
#[export] Hint Rewrite w32_small w64_small using (solve [auto with engine | lia]) : engine.

(** [w64] keeps the low 64 bits. *)
Lemma w64_spec n i : N.testbit (w64 n) i = N.testbit n i && (i <? 64)%N.
Proof.
  rewrite w64_mod. change two64 with (2 ^ 64)%N.
  destruct (N.ltb_spec i 64).
  - by rewrite N.mod_pow2_bits_low, andb_true_r.
  - by rewrite N.mod_pow2_bits_high, andb_false_r.
Qed.

Lemma w8_spec n i : N.testbit (w8 n) i = N.testbit n i && (i <? 8)%N.
Proof.
  rewrite w8_mod. change 256%N with (2 ^ 8)%N.
  destruct (N.ltb_spec i 8).
  - by rewrite N.mod_pow2_bits_low, andb_true_r.
  - by rewrite N.mod_pow2_bits_high, andb_false_r.
Qed.

(** A number below [2 ^ k] has no bit from [k] up. *)
Lemma testbit_above k n i : (n < 2 ^ k)%N → (k <= i)%N → N.testbit n i = false.
Proof.
  intros Hn Hi. rewrite <-(N.mod_small n (2 ^ k)) by done.
  by apply N.mod_pow2_bits_high.
Qed.

(** Putting bits below a shifted number is adding them. *)
Lemma lor_add_low k hi x : (x < 2 ^ k)%N → N.lor (hi * 2 ^ k) x = (hi * 2 ^ k + x)%N.
Proof.
  intros Hx. rewrite <-N.lxor_lor, <-N.add_nocarry_lxor; [done| |];
    apply N.bits_inj; intros i; rewrite N.land_spec, N.bits_0;
    (destruct (N.lt_ge_cases i k); [by rewrite N.mul_pow2_bits_low|
      by rewrite (testbit_above k x), andb_false_r]).
Qed.

Lemma lxor_lt_pow2 k a b : (a < 2 ^ k)%N → (b < 2 ^ k)%N → (N.lxor a b < 2 ^ k)%N.
Proof.
  intros Ha Hb. apply N.lt_nge. intros Hge.
  set (n := N.lxor a b) in *.
  assert (Hn : n ≠ 0%N) by (pose proof (N.pow_nonzero 2 k); lia).
  pose proof (N.bit_log2 n Hn) as Ht. unfold n at 1 in Ht. rewrite N.lxor_spec in Ht.
  assert (k <= N.log2 n)%N by (apply N.log2_le_pow2; lia).
  by rewrite (testbit_above k a), (testbit_above k b) in Ht.
Qed.

Lemma shiftl_lt_pow2 a b n : (n < 2 ^ a)%N → (N.shiftl n b < 2 ^ (a + b))%N.
Proof.
  intros Hn. rewrite N.shiftl_mul_pow2, N.pow_add_r.
  apply N.mul_lt_mono_pos_r; [|done]. apply N.neq_0_lt_0, N.pow_nonzero. done.
Qed.

(** The avalanche function each hashed component carries a copy of. *)
Definition mix64 (value : N) : N :=
  let v1 := N.lxor value (N.shiftr value 30) in
  let v2 := w64 (v1 * 0xbf58476d1ce4e5b9) in
  let v3 := N.lxor v2 (N.shiftr v2 27) in
  let v4 := w64 (v3 * 0x94d049bb133111eb) in
  N.lxor v4 (N.shiftr v4 31).

(** ** Signed views of 64-bit words ([std::bit_cast<std::int64_t>]) *)

Definition two63 : N := 9223372036854775808.
Definition int64_of_bits (bits : N) : Z :=
  if (bits <? two63)%N then Z.of_N bits else (Z.of_N bits - Z.of_N two64)%Z.
Definition bits_of_int64 (value : Z) : N := Z.to_N (value mod Z.of_N two64).

Lemma bits_of_int64_lt v : (bits_of_int64 v < two64)%N.
Proof.
  unfold bits_of_int64. pose proof (Z.mod_pos_bound v (Z.of_N two64) eq_refl). lia.
Qed.

Lemma int64_of_bits_of_int64 v :
  (- Z.of_N two63 <= v < Z.of_N two63)%Z → int64_of_bits (bits_of_int64 v) = v.
Proof.
  unfold int64_of_bits, bits_of_int64. intros Hv.
  assert (Hm : (v mod Z.of_N two64)%Z = (if decide (v < 0) then v + Z.of_N two64 else v)%Z).
  { destruct (decide (v < 0)%Z).
    - rewrite <-(Z_mod_plus_full v 1), Z.mul_1_l. apply Z.mod_small.
      unfold two63, two64 in *. lia.
    - apply Z.mod_small. unfold two63, two64 in *. lia. }
  rewrite Hm. unfold two63, two64 in *.
  destruct (decide (v < 0)%Z), (N.ltb_spec (Z.to_N v) 9223372036854775808);
    try lia; destruct (N.ltb_spec (Z.to_N (v + Z.of_N 18446744073709551616))
      9223372036854775808); lia.
Qed.

Lemma bits_of_int64_of_bits b : (b < two64)%N → bits_of_int64 (int64_of_bits b) = b.
Proof.
  unfold int64_of_bits, bits_of_int64. intros Hb.
  destruct (N.ltb_spec b two63).
  - rewrite Z.mod_small by lia. lia.
  - rewrite <-(Z_mod_plus_full _ 1), Z.mul_1_l, Z.mod_small by lia. lia.
Qed.

#[export] Hint Resolve bits_of_int64_lt : engine.

(** ** Lists *)

Section lists.
Context {A : Type}.
Implicit Types (l : list A) (i : nat).

Lemma lookup_take_Some l n i x : take n l !! i = Some x ↔ i < n ∧ l !! i = Some x.
Proof.
    destruct (decide (i < n)).
    - rewrite lookup_take_lt by done. tauto.
    - rewrite lookup_take_ge by lia. split; [done | lia].
Qed.

Lemma lookup_snoc_Some_inv l i x y :
    (l ++ [x]) !! i = Some y → (i < length l ∧ l !! i = Some y) ∨ (i = length l ∧ y = x).
Proof.
    intros [H | [Hlen H]]%lookup_app_Some.
    - left. eauto using lookup_lt_Some.
    - right. apply list_lookup_singleton_Some in H as [? <-]. split; [lia | done].
Qed.

Lemma NoDup_lookup_inj l i j x :
    NoDup l → l !! i = Some x → l !! j = Some x → i = j.
Proof. intros. by eapply NoDup_lookup. Qed.
End lists.

(** Sums over a list. *)
Fixpoint sumN {A} (f : A → N) (l : list A) : N :=
  match l with [] => 0 | x :: l' => f x + sumN f l' end%N.

Section sumN.
Context {A : Type}.
Implicit Types (f g : A → N) (l : list A).

Lemma sumN_app f l k : sumN f (l ++ k) = (sumN f l + sumN f k)%N.
Proof. induction l; cbn; [done|]. rewrite IHl. lia. Qed.

Lemma sumN_insert f l i x y :
    l !! i = Some x → (sumN f (<[i := y]> l) + f x = sumN f l + f y)%N.
Proof.
    revert i. induction l as [|z l IH]; intros [|i] Hi; simplify_eq/=; [lia|].
    specialize (IH i Hi). lia.
Qed.

Lemma sumN_le f g l : (∀ x, x ∈ l → (f x <= g x)%N) → (sumN f l <= sumN g l)%N.
Proof.
    induction l as [|z l IH]; intros Hle; cbn; [done|].
    pose proof (Hle z ltac:(set_solver)). specialize (IH ltac:(set_solver)). lia.
Qed.

Lemma sumN_ext f g l : (∀ x, x ∈ l → f x = g x) → sumN f l = sumN g l.
Proof.
    intros H. apply N.le_antisymm; apply sumN_le; intros x Hx; rewrite (H x Hx); done.
Qed.

(** A summand that [f] leaves at zero can still be added under the bound [g]. *)
Lemma sumN_room f g l i x :
    l !! i = Some x → (∀ y, y ∈ l → (f y <= g y)%N) → f x = 0%N →
    (sumN f l + g x <= sumN g l)%N.
Proof.
    revert i. induction l as [|z l IH]; intros [|i] Hi Hle Hx; simplify_eq/=.
    - pose proof (sumN_le f g l ltac:(set_solver)). lia.
    - pose proof (Hle z ltac:(set_solver)).
      specialize (IH i Hi ltac:(set_solver) Hx). lia.
Qed.
End sumN.

(** The maximum of a number and a list. *)
Lemma foldl_max l : ∀ a x : N, x = a ∨ x ∈ l → (x <= foldl N.max a l)%N.
Proof.
  induction l as [|y l IH]; intros a x; cbn; [by intros [->|?%not_elem_of_nil]|].
  intros [->|[->|H]%elem_of_cons].
  - etransitivity; [|apply IH; by left]. lia.
  - etransitivity; [|apply IH; by left]. lia.
  - apply IH. by right.
Qed.
