(* ===== verification/Crc64.v ===== *)
(** * CRC-64/ECMA-182 of the persisted image formats

    Models server_engine/project/persistence/crc64_ecma.hpp: the byte table, the
    slicing-by-eight tables, the big-endian load (its constant-evaluated path and
    its memcpy-and-byteswap path on a little-endian host), the incremental update,
    the one-shot checksum and the byte-at-a-time reference.  The specification is
    the bit-by-bit polynomial division [crc_bitwise], which has no table. *)

From S2P Require Import Prelude.
From Stdlib Require Import Strings.Byte.

Local Open Scope N_scope.

Module Crc64.

(** ** The code *)

Definition persistence_crc64_polynomial : N := 0x42f0e1eba9ea3693.

(** One round of the inner loop of the table construction. *)
Definition crc_bit (crc : N) : N :=
  if negb (N.land crc (N.shiftl 1 63) =? 0)
  then N.lxor (w64 (N.shiftl crc 1)) persistence_crc64_polynomial
  else w64 (N.shiftl crc 1).

(** The inner loop, run for [n] bits. *)
Definition adv (n : nat) (crc : N) : N := Nat.iter n crc_bit crc.

Definition make_persistence_crc64_table : list N :=
  (λ index : nat, adv 8 (w64 (N.shiftl (N.of_nat index) 56))) <$> seq 0 256.

Definition persistence_crc64_table : list N := make_persistence_crc64_table.

Definition persistence_crc64_advance_zero (crc : N) : N :=
  N.lxor (w64 (N.shiftl crc 8))
    (persistence_crc64_table !!! N.to_nat (w8 (N.shiftr crc 56))).

(** Row [slice - 1] is row [slice] advanced by one zero byte; row 7 is the byte
    table. *)
Fixpoint slicing_rows (slice : nat) (row : list N) : list (list N) :=
  match slice with
  | O => [row]
  | S slice' => slicing_rows slice' (persistence_crc64_advance_zero <$> row) ++ [row]
  end.

Definition make_persistence_crc64_slicing_table : list (list N) :=
  slicing_rows 7 persistence_crc64_table.

Definition persistence_crc64_slicing_table : list (list N) :=
  make_persistence_crc64_slicing_table.

Definition persistence_crc64_byteswap (value : N) : N :=
  N.lor (N.lor (N.lor (N.lor (N.lor (N.lor (N.lor
    (w64 (N.shiftl (N.land value 0x00000000000000ff) 56))
    (w64 (N.shiftl (N.land value 0x000000000000ff00) 40)))
    (w64 (N.shiftl (N.land value 0x0000000000ff0000) 24)))
    (w64 (N.shiftl (N.land value 0x00000000ff000000) 8)))
    (N.shiftr (N.land value 0x000000ff00000000) 8))
    (N.shiftr (N.land value 0x0000ff0000000000) 24))
    (N.shiftr (N.land value 0x00ff000000000000) 40))
    (N.shiftr (N.land value 0xff00000000000000) 56).

(** The eight bytes at the offset, most significant first. *)
Definition load_be64_constant (b0 b1 b2 b3 b4 b5 b6 b7 : N) : N :=
  N.lor (N.lor (N.lor (N.lor (N.lor (N.lor (N.lor
    (N.shiftl b0 56) (N.shiftl b1 48)) (N.shiftl b2 40)) (N.shiftl b3 32))
    (N.shiftl b4 24)) (N.shiftl b5 16)) (N.shiftl b6 8)) b7.

(** [std::memcpy] of eight bytes into a word of a little-endian host. *)
Definition memcpy_le64 (b0 b1 b2 b3 b4 b5 b6 b7 : N) : N :=
  load_be64_constant b7 b6 b5 b4 b3 b2 b1 b0.

Definition persistence_crc64_load_be64 (constant_evaluated : bool)
    (b0 b1 b2 b3 b4 b5 b6 b7 : N) : N :=
  if constant_evaluated then load_be64_constant b0 b1 b2 b3 b4 b5 b6 b7
  else persistence_crc64_byteswap (memcpy_le64 b0 b1 b2 b3 b4 b5 b6 b7).

Definition slicing (slice : nat) (index : N) : N :=
  (persistence_crc64_slicing_table !!! slice) !!! N.to_nat (w8 index).

(** The body of the eight-byte loop. *)
Definition crc_block (value : N) : N :=
  N.lxor (N.lxor (N.lxor (N.lxor (N.lxor (N.lxor (N.lxor
    (slicing 0 (N.shiftr value 56))
    (slicing 1 (N.shiftr value 48)))
    (slicing 2 (N.shiftr value 40)))
    (slicing 3 (N.shiftr value 32)))
    (slicing 4 (N.shiftr value 24)))
    (slicing 5 (N.shiftr value 16)))
    (slicing 6 (N.shiftr value 8)))
    (slicing 7 value).

(** The body of the byte loop. *)
Definition crc_byte (crc byte : N) : N :=
  N.lxor (w64 (N.shiftl crc 8))
    (persistence_crc64_table !!! N.to_nat (w8 (N.lxor (N.shiftr crc 56) byte))).

(** The two loops, over the bytes from [offset] on: eight at a time while eight are
    left, then one at a time. *)
Section loops.
Context (load : N → N → N → N → N → N → N → N → N).
Context (block : N → N) (step : N → N → N).

Fixpoint crc_loops (crc : N) (bytes : list byte) : N :=
    match bytes with
    | b0 :: b1 :: b2 :: b3 :: b4 :: b5 :: b6 :: b7 :: rest =>
        let value := N.lxor crc (load (to_N b0) (to_N b1) (to_N b2) (to_N b3)
          (to_N b4) (to_N b5) (to_N b6) (to_N b7)) in
        crc_loops (block value) rest
    | _ => fold_left (λ c b, step c (to_N b)) bytes crc
    end.
End loops.

Definition crc_blocks (constant_evaluated : bool) (crc : N) (bytes : list byte) : N :=
  crc_loops (persistence_crc64_load_be64 constant_evaluated) crc_block crc_byte crc bytes.

Definition persistence_crc64_update (constant_evaluated : bool)
    (crc : N) (bytes : list byte) : N :=
  crc_blocks constant_evaluated crc bytes.

Definition persistence_crc64 (constant_evaluated : bool) (bytes : list byte) : N :=
  crc_blocks constant_evaluated 0 bytes.

Definition persistence_crc64_reference (bytes : list byte) : N :=
  fold_left (λ c b, crc_byte c (to_N b)) bytes 0.

(** ** Specification: division by the polynomial, one bit at a time *)

Definition crc_bitwise_byte (crc byte : N) : N :=
  adv 8 (N.lxor crc (N.shiftl byte 56)).

Definition crc_bitwise (crc : N) (bytes : list byte) : N :=
  fold_left (λ c b, crc_bitwise_byte c (to_N b)) bytes crc.

(** ** The division step is linear *)

Lemma adv_S n c : adv (S n) c = crc_bit (adv n c).
Proof. done. Qed.

Lemma crc_bit_alt c :
  crc_bit c = N.lxor (w64 (N.shiftl c 1))
    (if N.testbit c 63 then persistence_crc64_polynomial else 0).
Proof.
  unfold crc_bit. rewrite N.shiftl_1_l.
  destruct (N.eqb_spec (N.land c (2 ^ 63)) 0) as [Hz|Hz]; cbn [negb].
  - replace (N.testbit c 63) with false; [by rewrite N.lxor_0_r|].
    apply (f_equal (λ n, N.testbit n 63)) in Hz.
    by rewrite N.land_spec, N.pow2_bits_true, andb_true_r in Hz.
  - replace (N.testbit c 63) with true; [done|]. symmetry.
    destruct (N.testbit c 63) eqn:E; [done|]. exfalso. apply Hz.
    apply N.bits_inj. intros i. rewrite N.land_spec, N.pow2_bits_eqb, N.bits_0.
    destruct (N.eqb_spec 63 i) as [<-|]; [by rewrite E | by rewrite andb_false_r].
Qed.

Lemma w64_lxor a b : w64 (N.lxor a b) = N.lxor (w64 a) (w64 b).
Proof.
  apply N.bits_inj. intros i. rewrite N.lxor_spec, !w64_spec, N.lxor_spec.
  by destruct (i <? 64), (N.testbit a i), (N.testbit b i).
Qed.

Lemma crc_bit_linear a b : crc_bit (N.lxor a b) = N.lxor (crc_bit a) (crc_bit b).
Proof.
  rewrite !crc_bit_alt, N.lxor_spec, N.shiftl_lxor, w64_lxor.
  apply N.bits_inj. intros i. rewrite !N.lxor_spec.
  destruct (N.testbit a 63), (N.testbit b 63); cbn [xorb];
    rewrite ?N.bits_0;
    destruct (N.testbit (w64 (N.shiftl a 1)) i), (N.testbit (w64 (N.shiftl b 1)) i),
      (N.testbit persistence_crc64_polynomial i); done.
Qed.

Lemma adv_linear n a b : adv n (N.lxor a b) = N.lxor (adv n a) (adv n b).
Proof. induction n as [|n IH]; [done|]. by rewrite !adv_S, IH, crc_bit_linear. Qed.

Lemma adv_add m n c : adv m (adv n c) = adv (n + m)%nat c.
Proof. unfold adv. rewrite (Nat.add_comm n m). by rewrite Nat.iter_add. Qed.

(** While the top bit stays clear, a step is a plain shift. *)
Lemma adv_shift n c : c < 2 ^ (64 - N.of_nat n) → (n <= 64)%nat →
  adv n c = N.shiftl c (N.of_nat n).
Proof.
  induction n as [|n IH]; intros Hc Hn; [by rewrite N.shiftl_0_r|].
  rewrite adv_S.
  assert (H2 : 2 ^ (64 - N.of_nat n) = 2 * 2 ^ (64 - N.of_nat (S n))).
  { rewrite <-N.pow_succ_r'. f_equal. lia. }
  rewrite IH by lia.
  rewrite crc_bit_alt.
  assert (Hb : N.testbit (N.shiftl c (N.of_nat n)) 63 = false).
  { rewrite N.shiftl_spec_high' by lia. eapply testbit_above; [exact Hc | lia]. }
  rewrite Hb, N.lxor_0_r, N.shiftl_shiftl, w64_small.
  - f_equal. lia.
  - change two64 with (2 ^ 64).
    replace 64 with ((64 - N.of_nat (S n)) + (N.of_nat n + 1)) by lia.
    by apply shiftl_lt_pow2.
Qed.

Lemma to_N_lt b : to_N b < 256.
Proof. pose proof (to_N_bounded b). lia. Qed.
#[local] Hint Resolve to_N_lt : core.

(** [byte << (56 - 8 k)], advanced [k] bytes, arrives at the top byte. *)
Lemma adv_byte k b : b < 256 → (k <= 7)%nat →
  adv (8 * k) (N.shiftl b (56 - 8 * N.of_nat k)) = N.shiftl b 56.
Proof.
  intros Hb Hk. rewrite adv_shift; [|  |lia].
  - rewrite N.shiftl_shiftl. f_equal. lia.
  - replace (64 - N.of_nat (8 * k)) with (8 + (56 - 8 * N.of_nat k)) by lia.
    by apply shiftl_lt_pow2.
Qed.

(** ** The tables hold what they are built from *)

Lemma table_lookup i : i < 256 →
  persistence_crc64_table !!! N.to_nat i = adv 8 (N.shiftl i 56).
Proof.
  intros Hi. unfold persistence_crc64_table, make_persistence_crc64_table. apply list_lookup_total_correct.
  rewrite list_lookup_fmap, (lookup_seq_lt _ _ (N.to_nat i)) by lia. cbn [fmap option_fmap option_map].
  do 2 f_equal. rewrite Nat.add_0_l, N2Nat.id. apply w64_small.
  by apply (shiftl_lt_pow2 8 56).
Qed.

(** The byte-table step is eight division steps. *)
Lemma split_top c : c < two64 →
  c = N.lxor (N.shiftl (N.shiftr c 56) 56) (c mod 2 ^ 56).
Proof.
  intros Hc. apply N.bits_inj. intros i.
  rewrite N.lxor_spec. destruct (N.lt_ge_cases i 56).
  - rewrite N.shiftl_spec_low, N.mod_pow2_bits_low by lia. done.
  - rewrite N.shiftl_spec_high', N.shiftr_spec', N.mod_pow2_bits_high by lia.
    rewrite xorb_false_r. f_equal. lia.
Qed.

Lemma shiftl8_low c : w64 (N.shiftl c 8) = N.shiftl (c mod 2 ^ 56) 8.
Proof.
  apply N.bits_inj. intros i. rewrite w64_spec.
  destruct (N.lt_ge_cases i 8).
  - by rewrite !N.shiftl_spec_low.
  - rewrite !N.shiftl_spec_high' by lia. destruct (N.ltb_spec i 64).
    + rewrite N.mod_pow2_bits_low by lia. by rewrite andb_true_r.
    + rewrite N.mod_pow2_bits_high by lia. by rewrite andb_false_r.
Qed.

Lemma shiftr56_lt c : c < two64 → N.shiftr c 56 < 256.
Proof.
  intros Hc. rewrite N.shiftr_div_pow2. apply N.Div0.div_lt_upper_bound.
  unfold two64 in Hc. lia.
Qed.

Lemma adv8_table c : c < two64 →
  adv 8 c = N.lxor (w64 (N.shiftl c 8)) (adv 8 (N.shiftl (N.shiftr c 56) 56)).
Proof.
  intros Hc. rewrite (split_top c Hc) at 1. rewrite adv_linear, N.lxor_comm. f_equal.
  rewrite shiftl8_low. apply adv_shift; [|lia]. apply N.mod_lt. done.
Qed.

Lemma advance_zero_spec c : c < two64 → persistence_crc64_advance_zero c = adv 8 c.
Proof.
  intros Hc. unfold persistence_crc64_advance_zero.
  pose proof (shiftr56_lt c Hc).
  rewrite table_lookup by apply w8_lt.
  rewrite (w8_small (N.shiftr c 56)) by done. symmetry. by apply adv8_table.
Qed.

Lemma lxor_lt64 a b : a < two64 → b < two64 → N.lxor a b < two64.
Proof. apply (lxor_lt_pow2 64). Qed.

Lemma crc_bit_lt c : crc_bit c < two64.
Proof.
  rewrite crc_bit_alt. apply lxor_lt64; [apply w64_lt|]. by destruct (N.testbit c 63).
Qed.

Lemma adv_lt n c : c < two64 → adv n c < two64.
Proof. destruct n; [done|]. intros. rewrite adv_S. apply crc_bit_lt. Qed.

Lemma shiftl56_lt b : b < 256 → N.shiftl b 56 < two64.
Proof. apply (shiftl_lt_pow2 8 56). Qed.

#[local] Hint Resolve lxor_lt64 adv_lt shiftl56_lt crc_bit_lt : core.

Lemma crc_byte_bitwise c b : c < two64 → b < 256 → crc_byte c b = crc_bitwise_byte c b.
Proof.
  intros Hc Hb. unfold crc_byte, crc_bitwise_byte.
  rewrite adv_linear, adv8_table by done.
  rewrite N.lxor_assoc, <-adv_linear, <-N.shiftl_lxor. f_equal.
  assert (N.lxor (N.shiftr c 56) b < 256).
  { apply (lxor_lt_pow2 8); [by apply shiftr56_lt | done]. }
  rewrite table_lookup by apply w8_lt. by rewrite w8_small.
Qed.

Lemma crc_bitwise_byte_lt c b : c < two64 → b < 256 → crc_bitwise_byte c b < two64.
Proof. unfold crc_bitwise_byte. auto. Qed.
#[local] Hint Resolve crc_bitwise_byte_lt : core.

Lemma crc_bytes_bitwise bytes c : c < two64 →
  fold_left (λ c b, crc_byte c (to_N b)) bytes c = crc_bitwise c bytes.
Proof.
  unfold crc_bitwise. revert c. induction bytes as [|b bytes IH]; intros c Hc; [done|].
  cbn [fold_left]. rewrite crc_byte_bitwise by auto. auto.
Qed.

Lemma crc_bitwise_lt bytes c : c < two64 → crc_bitwise c bytes < two64.
Proof.
  unfold crc_bitwise. revert c. induction bytes as [|b bytes IH]; intros c Hc; [done|].
  cbn [fold_left]. auto.
Qed.

(** ** Slicing by eight *)

Lemma slicing_rows_lookup n row k i : (k <= n)%nat → (i < 256)%nat → length row = 256%nat →
  (∀ j, (j < 256)%nat → row !!! j < two64) →
  (slicing_rows n row !!! k) !!! i = adv (8 * (n - k)) (row !!! i).
Proof.
  revert row. induction n as [|n IH]; intros row Hk Hi Hlen Hrow; cbn [slicing_rows].
  { by replace k with 0%nat by lia. }
  assert (Hl : ∀ m r, length (slicing_rows m r) = S m).
  { induction m; intros r; cbn; [done|]. rewrite length_app, IHm. cbn. lia. }
  assert (Hadv : ∀ j, (j < 256)%nat →
    (persistence_crc64_advance_zero <$> row) !!! j = adv 8 (row !!! j)).
  { intros j Hj. rewrite (list_lookup_total_fmap persistence_crc64_advance_zero) by lia. apply advance_zero_spec. auto. }
  destruct (decide (k = S n)) as [->|].
  - rewrite lookup_total_app_r, Hl, Nat.sub_diag by (rewrite Hl; lia).
    by replace (8 * (S n - S n))%nat with 0%nat by lia.
  - rewrite lookup_total_app_l by (rewrite Hl; lia).
    rewrite IH; [|lia|done|by rewrite length_fmap|].
    + rewrite Hadv by done. rewrite adv_add. f_equal. lia.
    + intros j Hj. rewrite Hadv by done. auto.
Qed.

Lemma slicing_spec k i : (k <= 7)%nat →
  slicing k i = adv (8 * (8 - k)) (N.shiftl (w8 i) 56).
Proof.
  intros Hk. unfold slicing. pose proof (w8_lt i).
  unfold persistence_crc64_slicing_table, make_persistence_crc64_slicing_table.
  rewrite slicing_rows_lookup; [|lia|lia|done|].
  - rewrite table_lookup, adv_add by done. f_equal. lia.
  - intros j Hj. rewrite <-(Nat2N.id j), table_lookup by lia.
    apply adv_lt, shiftl56_lt. lia.
Qed.

(** A word is the exclusive or of its bytes in place. *)
Lemma slicing_at k v : (k <= 7)%nat →
  slicing k (N.shiftr v (56 - 8 * N.of_nat k)) =
  adv 64 (N.shiftl (w8 (N.shiftr v (56 - 8 * N.of_nat k))) (56 - 8 * N.of_nat k)).
Proof.
  intros Hk. rewrite slicing_spec by done.
  rewrite <-(adv_byte k) by (apply w8_lt || done). rewrite adv_add. f_equal. lia.
Qed.

Lemma split_bytes v : v < two64 →
  v = N.lxor (N.lxor (N.lxor (N.lxor (N.lxor (N.lxor (N.lxor
    (N.shiftl (w8 (N.shiftr v 56)) 56) (N.shiftl (w8 (N.shiftr v 48)) 48))
    (N.shiftl (w8 (N.shiftr v 40)) 40)) (N.shiftl (w8 (N.shiftr v 32)) 32))
    (N.shiftl (w8 (N.shiftr v 24)) 24)) (N.shiftl (w8 (N.shiftr v 16)) 16))
    (N.shiftl (w8 (N.shiftr v 8)) 8)) (w8 v).
Proof.
  intros Hv. apply N.bits_inj. intros i.
  assert (Hp : ∀ s, N.testbit (N.shiftl (w8 (N.shiftr v s)) s) i =
    N.testbit v i && ((s <=? i) && (i <? s + 8))).
  { intros s. destruct (N.leb_spec s i).
    - rewrite N.shiftl_spec_high', w8_spec, N.shiftr_spec' by lia.
      replace (i - s + s) with i by lia.
      by destruct (N.ltb_spec (i - s) 8), (N.ltb_spec i (s + 8)); try lia.
    - by rewrite N.shiftl_spec_low, andb_false_r by lia. }
  rewrite !N.lxor_spec, !Hp, w8_spec.
  destruct (N.lt_ge_cases i 64) as [Hi|Hi].
  - destruct (N.testbit v i); [|done].
    assert (i < 8 ∨ 8 <= i < 16 ∨ 16 <= i < 24 ∨ 24 <= i < 32 ∨ 32 <= i < 40 ∨
      40 <= i < 48 ∨ 48 <= i < 56 ∨ 56 <= i) as Hc by lia.
    repeat match goal with
    | |- context [?a <=? ?b] => destruct (N.leb_spec a b); try lia
    | |- context [?a <? ?b] => destruct (N.ltb_spec a b); try lia
    end; done.
  - by rewrite (testbit_above 64 v i).
Qed.

Lemma crc_block_spec v : v < two64 → crc_block v = adv 64 v.
Proof.
  intros Hv. unfold crc_block. rewrite (split_bytes v Hv) at 9. rewrite !adv_linear.
  assert (Hs : ∀ k s, (k <= 7)%nat → s = 56 - 8 * N.of_nat k →
    adv 64 (N.shiftl (w8 (N.shiftr v s)) s) = slicing k (N.shiftr v s)).
  { intros k s Hk ->. symmetry. by apply slicing_at. }
  rewrite (Hs 0%nat 56), (Hs 1%nat 48), (Hs 2%nat 40), (Hs 3%nat 32), (Hs 4%nat 24),
    (Hs 5%nat 16), (Hs 6%nat 8) by (done || lia).
  f_equal. pose proof (Hs 7%nat 0 ltac:(lia) eq_refl) as H7.
  by rewrite N.shiftr_0_r, N.shiftl_0_r in H7.
Qed.

(** ** The big-endian load *)

(** Decide every comparison of the goal by [lia], without splitting it. *)
Ltac decide_comparisons :=
  repeat match goal with
  | |- context [?a <=? ?b] =>
      first [ replace (a <=? b) with true by (symmetry; apply N.leb_le; lia)
            | replace (a <=? b) with false by (symmetry; apply N.leb_gt; lia) ]
  | |- context [?a <? ?b] =>
      first [ replace (a <? b) with true by (symmetry; apply N.ltb_lt; lia)
            | replace (a <? b) with false by (symmetry; apply N.ltb_ge; lia) ]
  end; cbn [andb]; rewrite ?andb_false_r, ?andb_true_r, ?orb_false_r, ?orb_false_l.

(** A bit position lies in one of the eight bytes of a word, or above them. *)
Lemma byte_of_bit i :
  i < 8 ∨ 8 <= i < 16 ∨ 16 <= i < 24 ∨ 24 <= i < 32 ∨ 32 <= i < 40 ∨
  40 <= i < 48 ∨ 48 <= i < 56 ∨ 56 <= i < 64 ∨ 64 <= i.
Proof. lia. Qed.

(** A byte moved to bit [s]. *)
Lemma testbit_byte_at b s i : b < 256 →
  N.testbit (N.shiftl b s) i = N.testbit b (i - s) && ((s <=? i) && (i <? s + 8)).
Proof.
  intros Hb. destruct (N.leb_spec s i).
  - rewrite N.shiftl_spec_high' by lia. destruct (N.ltb_spec i (s + 8)); cbn.
    + by rewrite andb_true_r.
    + rewrite andb_false_r. eapply (testbit_above 8); [done | lia].
  - by rewrite N.shiftl_spec_low, andb_false_r by lia.
Qed.

(** A field of eight bits kept by a mask and moved by whole bytes. *)
Lemma testbit_mask_left v s d i : s + d <= 56 →
  N.testbit (w64 (N.shiftl (N.land v (N.shiftl 255 s)) d)) i =
  N.testbit v (i - d) && ((s + d <=? i) && (i <? s + d + 8)).
Proof.
  intros Hs. rewrite w64_spec. destruct (N.lt_ge_cases i d).
  - rewrite N.shiftl_spec_low by done.
    destruct (N.leb_spec (s + d) i); [lia|]. by rewrite andb_false_r.
  - rewrite N.shiftl_spec_high', N.land_spec by done.
    destruct (N.lt_ge_cases (i - d) s).
    + rewrite (N.shiftl_spec_low 255) by done.
      destruct (N.leb_spec (s + d) i); [lia|]. by rewrite !andb_false_r.
    + rewrite (N.shiftl_spec_high' 255) by done. change 255 with (N.ones 8).
      destruct (N.leb_spec (s + d) i), (N.ltb_spec i (s + d + 8)); try lia.
      * rewrite N.ones_spec_low by lia. destruct (N.ltb_spec i 64); [|lia].
        by rewrite !andb_true_r.
      * rewrite N.ones_spec_high by lia. by rewrite !andb_false_r.
Qed.

Lemma testbit_mask_right v s d i : d <= s →
  N.testbit (N.shiftr (N.land v (N.shiftl 255 s)) d) i =
  N.testbit v (i + d) && ((s - d <=? i) && (i <? s - d + 8)).
Proof.
  intros Hs. rewrite N.shiftr_spec', N.land_spec.
  destruct (N.leb_spec (s - d) i).
  - rewrite N.shiftl_spec_high' by lia. change 255 with (N.ones 8).
    destruct (N.ltb_spec i (s - d + 8)).
    + by rewrite N.ones_spec_low by lia.
    + by rewrite N.ones_spec_high by lia.
  - by rewrite N.shiftl_spec_low by lia.
Qed.

Lemma load_be64_constant_spec b0 b1 b2 b3 b4 b5 b6 b7 i :
  b0 < 256 → b1 < 256 → b2 < 256 → b3 < 256 → b4 < 256 → b5 < 256 → b6 < 256 → b7 < 256 →
  N.testbit (load_be64_constant b0 b1 b2 b3 b4 b5 b6 b7) i =
  (if i <? 8 then N.testbit b7 i else if i <? 16 then N.testbit b6 (i - 8)
   else if i <? 24 then N.testbit b5 (i - 16) else if i <? 32 then N.testbit b4 (i - 24)
   else if i <? 40 then N.testbit b3 (i - 32) else if i <? 48 then N.testbit b2 (i - 40)
   else if i <? 56 then N.testbit b1 (i - 48) else if i <? 64 then N.testbit b0 (i - 56)
   else false).
Proof.
  intros. unfold load_be64_constant. rewrite <-(N.shiftl_0_r b7) at 1.
  rewrite !N.lor_spec, !testbit_byte_at by done. rewrite N.sub_0_r.
  destruct (byte_of_bit i) as [?|[?|[?|[?|[?|[?|[?|[?|?]]]]]]]]; by decide_comparisons.
Qed.

Lemma byteswap_load b0 b1 b2 b3 b4 b5 b6 b7 :
  b0 < 256 → b1 < 256 → b2 < 256 → b3 < 256 → b4 < 256 → b5 < 256 → b6 < 256 → b7 < 256 →
  persistence_crc64_byteswap (memcpy_le64 b0 b1 b2 b3 b4 b5 b6 b7) =
  load_be64_constant b0 b1 b2 b3 b4 b5 b6 b7.
Proof.
  intros. apply N.bits_inj. intros i. unfold persistence_crc64_byteswap, memcpy_le64.
  rewrite (load_be64_constant_spec b0) by done. rewrite !N.lor_spec.
  change 0x00000000000000ff with (N.shiftl 255 0). change 0x000000000000ff00 with (N.shiftl 255 8).
  change 0x0000000000ff0000 with (N.shiftl 255 16). change 0x00000000ff000000 with (N.shiftl 255 24).
  change 0x000000ff00000000 with (N.shiftl 255 32). change 0x0000ff0000000000 with (N.shiftl 255 40).
  change 0x00ff000000000000 with (N.shiftl 255 48). change 0xff00000000000000 with (N.shiftl 255 56).
  rewrite !testbit_mask_left, !testbit_mask_right by lia.
  destruct (byte_of_bit i) as [?|[?|[?|[?|[?|[?|[?|[?|?]]]]]]]]; decide_comparisons; try done;
    rewrite load_be64_constant_spec by done; decide_comparisons; f_equal; lia.
Qed.

(** Both load paths agree. *)
Lemma load_be64_agrees e b0 b1 b2 b3 b4 b5 b6 b7 :
  b0 < 256 → b1 < 256 → b2 < 256 → b3 < 256 → b4 < 256 → b5 < 256 → b6 < 256 → b7 < 256 →
  persistence_crc64_load_be64 e b0 b1 b2 b3 b4 b5 b6 b7 =
  load_be64_constant b0 b1 b2 b3 b4 b5 b6 b7.
Proof. intros. destruct e; [done|]. by apply byteswap_load. Qed.

(** ** Eight bytes at once are eight bytes in turn *)

Lemma load_be64_lxor b0 b1 b2 b3 b4 b5 b6 b7 :
  b0 < 256 → b1 < 256 → b2 < 256 → b3 < 256 → b4 < 256 → b5 < 256 → b6 < 256 → b7 < 256 →
  load_be64_constant b0 b1 b2 b3 b4 b5 b6 b7 =
  N.lxor (N.lxor (N.lxor (N.lxor (N.lxor (N.lxor (N.lxor
    (N.shiftl b0 56) (N.shiftl b1 48)) (N.shiftl b2 40)) (N.shiftl b3 32))
    (N.shiftl b4 24)) (N.shiftl b5 16)) (N.shiftl b6 8)) b7.
Proof.
  intros. apply N.bits_inj. intros i. rewrite load_be64_constant_spec by done.
  rewrite <-(N.shiftl_0_r b7) at 2. rewrite !N.lxor_spec, !testbit_byte_at by done.
  rewrite N.sub_0_r.
  destruct (byte_of_bit i) as [?|[?|[?|[?|[?|[?|[?|[?|?]]]]]]]]; decide_comparisons;
    by rewrite ?xorb_false_r, ?xorb_false_l.
Qed.

Lemma load_be64_lt b0 b1 b2 b3 b4 b5 b6 b7 :
  b0 < 256 → b1 < 256 → b2 < 256 → b3 < 256 → b4 < 256 → b5 < 256 → b6 < 256 → b7 < 256 →
  load_be64_constant b0 b1 b2 b3 b4 b5 b6 b7 < two64.
Proof.
  intros. rewrite load_be64_lxor by done.
  assert (Hb : ∀ b s, b < 256 → s <= 56 → N.shiftl b s < two64).
  { intros b s Hb Hs. apply (N.lt_le_trans _ (2 ^ (8 + s))).
    - by apply shiftl_lt_pow2.
    - apply (N.pow_le_mono_r 2 _ 64); lia. }
  rewrite <-(N.shiftl_0_r b7). repeat apply lxor_lt64; apply Hb; lia.
Qed.

Lemma adv64_eight_bytes c b0 b1 b2 b3 b4 b5 b6 b7 :
  b0 < 256 → b1 < 256 → b2 < 256 → b3 < 256 → b4 < 256 → b5 < 256 → b6 < 256 → b7 < 256 →
  adv 64 (N.lxor c (load_be64_constant b0 b1 b2 b3 b4 b5 b6 b7)) =
  fold_left crc_bitwise_byte [b0; b1; b2; b3; b4; b5; b6; b7] c.
Proof.
  intros. rewrite load_be64_lxor by done. cbn [fold_left]. unfold crc_bitwise_byte.
  assert (Hs : ∀ k b s, b < 256 → (k <= 7)%nat → s = 56 - 8 * N.of_nat k →
    N.shiftl b 56 = adv (8 * k) (N.shiftl b s)).
  { intros k b s Hb Hk ->. symmetry. by apply adv_byte. }
  rewrite (Hs 1%nat b1 48), (Hs 2%nat b2 40), (Hs 3%nat b3 32), (Hs 4%nat b4 24),
    (Hs 5%nat b5 16), (Hs 6%nat b6 8), (Hs 7%nat b7 0) by (done || lia).
  rewrite N.shiftl_0_r, !adv_linear, !adv_add, !N.lxor_assoc. done.
Qed.

Lemma crc_blocks_bitwise e n bytes c : (length bytes <= n)%nat → c < two64 →
  crc_blocks e c bytes = crc_bitwise c bytes.
Proof.
  unfold crc_blocks. revert bytes c. induction n as [|n IH]; intros bytes c Hlen Hc.
  { destruct bytes; [done|]. cbn in Hlen. lia. }
  destruct bytes as [|b0 [|b1 [|b2 [|b3 [|b4 [|b5 [|b6 [|b7 rest]]]]]]]];
    try (by apply crc_bytes_bitwise).
  cbn [crc_loops]. rewrite load_be64_agrees by auto.
  rewrite crc_block_spec by (auto using load_be64_lt).
  rewrite IH; [|cbn in Hlen; lia | auto using load_be64_lt].
  rewrite adv64_eight_bytes by auto. done.
Qed.

(** ** Properties *)

(** C22: the sliced checksum, with either load path, is the division by the
    polynomial done one bit at a time, for every byte sequence. *)
Theorem persistence_crc64_is_polynomial_division e bytes :
  persistence_crc64 e bytes = crc_bitwise 0 bytes.
Proof. by apply (crc_blocks_bitwise e (length bytes)). Qed.

(** A checksum is a 64-bit word. *)
Lemma persistence_crc64_lt e bytes : persistence_crc64 e bytes < two64.
Proof.
  replace (persistence_crc64 e bytes) with (crc_bitwise 0 bytes) by (symmetry; by apply (crc_blocks_bitwise e (length bytes))).
  by apply crc_bitwise_lt.
Qed.

(** The byte-at-a-time reference is the same division. *)
Lemma reference_is_polynomial_division bytes :
  persistence_crc64_reference bytes = crc_bitwise 0 bytes.
Proof. by apply crc_bytes_bitwise. Qed.

(** The sliced checksum and the byte-at-a-time reference agree on every input;
    the header only checks one 17-byte input at compile time. *)
Theorem persistence_crc64_agrees_with_reference e bytes :
  persistence_crc64 e bytes = persistence_crc64_reference bytes.
Proof.
  rewrite reference_is_polynomial_division. by apply (crc_blocks_bitwise e (length bytes)).
Qed.

(** Continuing a checksum over a second extent is the checksum of the two
    extents laid end to end, whatever the split, so a scatter/gather section needs no
    assembled copy. *)
Theorem persistence_crc64_update_app e e' crc a b : crc < two64 →
  persistence_crc64_update e' (persistence_crc64_update e crc a) b =
  persistence_crc64_update e crc (a ++ b).
Proof.
  intros Hc. unfold persistence_crc64_update.
  rewrite (crc_blocks_bitwise e (length a)), (crc_blocks_bitwise e (length (a ++ b))) by done.
  rewrite (crc_blocks_bitwise e' (length b)) by auto using crc_bitwise_lt.
  unfold crc_bitwise. by rewrite fold_left_app.
Qed.

Lemma persistence_crc64_update_app_witness :
  persistence_crc64_update true (persistence_crc64_update true 0 [x31; x32; x33])
    [x34; x35; x36; x37; x38; x39] = 0x6c40df5f0b497347.
Proof.
  rewrite (persistence_crc64_update_app true true 0 [x31; x32; x33]
    [x34; x35; x36; x37; x38; x39]) by reflexivity.
  vm_compute. reflexivity.
Defined.

(** The two static assertions of the header. *)
Example ecma_check :
  persistence_crc64 true [x31; x32; x33; x34; x35; x36; x37; x38; x39] = 0x6c40df5f0b497347.
Proof. vm_compute. reflexivity. Qed.

End Crc64.
