(* ===== verification/ByteArena.v ===== *)
(** * The concurrent byte arena

    Models server_engine/project/storage/byte_arena.{hpp,cpp}.  A call of
    [allocate] is a small machine whose steps are the atomic operations of the code
    (load, compare-exchange, fetch-add, ownership push) and its heap allocations;
    calls of different threads interleave at those steps, under sequential
    consistency.  [operator new] is the environment: it answers a step with a fresh
    address, or with failure. *)

From S2P Require Import Prelude.

Local Open Scope N_scope.

Module ByteArena.

(** ** The code *)

Definition default_page_size : N := 64 * 1024.

Definition align_up (value alignment : N) : N :=
  N.ldiff (w64 (value + alignment - 1)) (alignment - 1).

Definition valid_alignment (alignment : N) : bool :=
  negb (alignment =? 0) && (N.land alignment (alignment - 1) =? 0).

(** [byte_arena::page], without its bytes; [next_owned] is the order of
    [owned_pages]. *)
Record page : Set := Page { used : N; capacity : N }.

Record arena : Set := Arena {
  heap : gmap N page;            (* every page object now allocated, by address *)
  current_page : option N;       (* [nullptr] is [None] *)
  owned_pages : list N;
  reserved_bytes : N;
  reserved_pages : N;
}.

Definition arena_init : arena := Arena ∅ None [] 0 0.

(** [make_page], given what [operator new] answered. *)
Definition make_page (alloc : option N) (a : arena) (minimum_capacity : N) :
    option (N * arena) :=
  match alloc with
  | None => None
  | Some address => Some (address,
      Arena (<[address := Page 0 (N.max default_page_size minimum_capacity)]> (heap a))
        (current_page a) (owned_pages a) (reserved_bytes a) (reserved_pages a))
  end.

Definition own_page (a : arena) (value : N) : arena :=
  Arena (heap a) (current_page a) (value :: owned_pages a)
    (reserved_bytes a + default 0 (capacity <$> heap a !! value)) (reserved_pages a + 1).

Definition delete_page (a : arena) (value : N) : arena :=
  Arena (delete value (heap a)) (current_page a) (owned_pages a)
    (reserved_bytes a) (reserved_pages a).

Definition set_current (a : arena) (value : N) : arena :=
  Arena (heap a) (Some value) (owned_pages a) (reserved_bytes a) (reserved_pages a).

(** Where a call stands in the body of [allocate]. *)
Inductive pc : Set :=
| Load                                   (* top of the [for] loop *)
| MakeFirst                              (* no current page: make one *)
| CasFirst (candidate : N)               (* try to install it *)
| OwnFirst (candidate : N)
| FetchAdd (page_value : N)
| MakeNext (page_value : N)              (* the page is full *)
| CasNext (page_value candidate : N)
| OwnNext (candidate : N)
| Finished (result : status_code) (output : option (N * N)). (* page and offset *)

(** [tried] is a history variable: the pages this call has drawn from. *)
Record call : Set := Call { size : N; alignment : N; at_pc : pc; tried : list N }.

Definition reservation (c : call) : N := size c + alignment c - 1.

Definition goto (c : call) (p : pc) : call := Call (size c) (alignment c) p (tried c).

(** Entry of [allocate]: the guards, then the loop. *)
Definition allocate_entry (size alignment : N) : call :=
  Call size alignment
    (if (size =? 0) || negb (valid_alignment alignment) then Finished invalid_argument None
     else if (two64 - 1) - (alignment - 1) <? size then Finished not_available None
     else Load) [].

(** The test after the fetch-add. *)
Definition place (capacity offset size alignment : N) : option N :=
  if offset <=? capacity then
    let aligned := align_up offset alignment in
    if (aligned <=? capacity) && (size <=? capacity - aligned) then Some aligned else None
  else None.

(** One atomic step of a call. *)
Definition step (alloc : option N) (a : arena) (c : call) : arena * call :=
  match at_pc c with
  | Load =>
      match current_page a with
      | None => (a, goto c MakeFirst)
      | Some page_value => (a, goto c (FetchAdd page_value))
      end
  | MakeFirst =>
      match make_page alloc a (reservation c) with
      | None => (a, goto c (Finished initialization_failed None))
      | Some (candidate, a') => (a', goto c (CasFirst candidate))
      end
  | CasFirst candidate =>
      match current_page a with
      | None => (set_current a candidate, goto c (OwnFirst candidate))
      | Some _ => (delete_page a candidate, goto c Load)
      end
  | OwnFirst candidate => (own_page a candidate, goto c (FetchAdd candidate))
  | FetchAdd page_value =>
      match heap a !! page_value with
      | None => (a, c)
      | Some p =>
          let offset := used p in
          let p' := Page (w64 (offset + reservation c)) (capacity p) in
          let a' := Arena (<[page_value := p']> (heap a)) (current_page a) (owned_pages a)
                      (reserved_bytes a) (reserved_pages a) in
          let c' := Call (size c) (alignment c) (at_pc c) (page_value :: tried c) in
          match place (capacity p) offset (size c) (alignment c) with
          | Some aligned => (a', goto c' (Finished ok (Some (page_value, aligned))))
          | None => (a', goto c' (MakeNext page_value))
          end
      end
  | MakeNext page_value =>
      match make_page alloc a (reservation c) with
      | None => (a, goto c (Finished initialization_failed None))
      | Some (candidate, a') => (a', goto c (CasNext page_value candidate))
      end
  | CasNext page_value candidate =>
      if decide (current_page a = Some page_value)
      then (set_current a candidate, goto c (OwnNext candidate))
      else (delete_page a candidate, goto c Load)
  | OwnNext candidate => (own_page a candidate, goto c Load)
  | Finished _ _ => (a, c)
  end.

(** A call running alone. [allocs] answers its heap allocations in order. *)
Definition allocates (p : pc) : bool :=
  match p with MakeFirst | MakeNext _ => true | _ => false end.

Fixpoint run (fuel : nat) (allocs : list (option N)) (a : arena) (c : call) : arena * call :=
  match fuel with
  | O => (a, c)
  | S fuel' =>
      match at_pc c with
      | Finished _ _ => (a, c)
      | p =>
          let '(a', c') := step (default None (head allocs)) a c in
          run fuel' (if allocates p then tail allocs else allocs) a' c'
      end
  end.

Definition allocate (allocs : list (option N)) (a : arena) (size alignment : N) : arena * call :=
  run 12 allocs a (allocate_entry size alignment).

(** Threads: any unfinished call may take the next step. *)
Record config : Set := Config { shared : arena; calls : list call }.

Inductive config_step : config → config → Prop :=
| config_step_intro a cs i c alloc a' c' :
    cs !! i = Some c →
    (∀ address, alloc = Some address → heap a !! address = None) →
    step alloc a c = (a', c') →
    config_step (Config a cs) (Config a' (<[i := c']> cs)).

(** The arena from its creation on, with one machine per call ever made. *)
Definition config_init (requests : list (N * N)) : config :=
  Config arena_init ((λ r, allocate_entry r.1 r.2) <$> requests).

Definition reachable (requests : list (N * N)) : config → Prop :=
  rtc config_step (config_init requests).

(** ** Alignment arithmetic *)

Lemma valid_alignment_pow2 n : valid_alignment n = true → ∃ k, n = 2 ^ k.
Proof.
  unfold valid_alignment. intros H. bools.
  exists (N.log2 n). destruct (N.log2_spec n) as [Hlo Hhi]; [lia|].
  destruct (N.eq_dec n (2 ^ N.log2 n)) as [|Hne]; [done|exfalso].
  assert (Hb : N.testbit (n - 1) (N.log2 n) = true).
  { replace (N.log2 n) with (N.log2 (n - 1)); [apply N.bit_log2; lia|].
    apply N.log2_unique; lia. }
  assert (N.testbit (N.land n (n - 1)) (N.log2 n) = true) as Ht.
  { rewrite N.land_spec, Hb, N.bit_log2 by lia. done. }
  rewrite H0 in Ht. by rewrite N.bits_0 in Ht.
Qed.

Lemma align_up_pow2 v k : v + 2 ^ k <= two64 →
  align_up v (2 ^ k) = (v + 2 ^ k - 1) / 2 ^ k * 2 ^ k.
Proof.
  intros Hv. unfold align_up. rewrite w64_small.
  - replace (2 ^ k - 1) with (N.ones k) by (rewrite N.ones_equiv; lia).
    rewrite N.ldiff_ones_r, N.shiftl_mul_pow2, N.shiftr_div_pow2. done.
  - pose proof (N.pow_nonzero 2 k). lia.
Qed.

Lemma align_up_spec v n : valid_alignment n = true → v + n <= two64 →
  v <= align_up v n ∧ align_up v n + 1 <= v + n ∧ align_up v n mod n = 0.
Proof.
  intros [k ->]%valid_alignment_pow2 Hv. rewrite align_up_pow2 by done.
  pose proof (N.pow_nonzero 2 k ltac:(done)) as Hk.
  set (n := 2 ^ k) in *. set (m := v + n - 1).
  assert (Hm : m + 1 = v + n) by lia.
  pose proof (N.Div0.div_mod m n) as Hdm. pose proof (N.mod_lt m n Hk).
  rewrite N.Div0.mod_mul. rewrite (N.mul_comm (m / n) n).
  generalize dependent (m `mod` n). intros r Hr Hlt. generalize dependent (n * (m / n)).
  intros q Hq. repeat split; lia.
Qed.

(** ** The invariant of interleaved calls *)

Definition good (c : call) : Prop :=
  valid_alignment (alignment c) = true ∧ 0 < size c ∧ reservation c < two64.

(** What a request may draw from a page: its reservation, if it passes the guards. *)
Definition cost (size alignment : N) : N :=
  match at_pc (allocate_entry size alignment) with Load => size + alignment - 1 | _ => 0 end.

Definition call_cost (c : call) : N := cost (size c) (alignment c).

Definition total_cost (requests : list (N * N)) : N := sumN (λ r, cost r.1 r.2) requests.

Definition drawn (p : N) (c : call) : N :=
  if bool_decide (p ∈ tried c) then reservation c else 0.

Definition candidate_of (c : call) : option N :=
  match at_pc c with CasFirst d | CasNext _ d => Some d | _ => None end.

Definition target_of (c : call) : option N :=
  match at_pc c with OwnFirst d | FetchAdd d => Some d | _ => None end.

(** The call has already found page [p] full, or is over. *)
Definition past (c : call) (p : N) : Prop :=
  match at_pc c with
  | MakeNext q | CasNext q _ => q = p
  | Finished _ _ => True
  | _ => False
  end.

Definition granted (c : call) : option (N * N) :=
  match at_pc c with Finished ok (Some r) => Some r | _ => None end.

Record inv (total : N) (cfg : config) : Prop := Inv {
  inv_total : sumN call_cost (calls cfg) = total;
  inv_good i c : calls cfg !! i = Some c →
    good c ∨ (tried c = [] ∧ ∃ s, at_pc c = Finished s None);
  inv_current p : current_page (shared cfg) = Some p → is_Some (heap (shared cfg) !! p);
  inv_candidate i c d : calls cfg !! i = Some c → candidate_of c = Some d →
    is_Some (heap (shared cfg) !! d) ∧ current_page (shared cfg) ≠ Some d ∧
    ∀ j c', calls cfg !! j = Some c' → candidate_of c' = Some d → j = i;
  inv_uses i c p : calls cfg !! i = Some c → p ∈ tried c ∨ target_of c = Some p →
    is_Some (heap (shared cfg) !! p) ∧
    ∀ j c', calls cfg !! j = Some c' → candidate_of c' ≠ Some p;
  inv_target i c p : calls cfg !! i = Some c → target_of c = Some p → p ∉ tried c;
  inv_retired i c p : calls cfg !! i = Some c → p ∈ tried c →
    current_page (shared cfg) = Some p → past c p;
  inv_used p pg : heap (shared cfg) !! p = Some pg →
    used pg = sumN (drawn p) (calls cfg);
  inv_region i c p lo : calls cfg !! i = Some c → granted c = Some (p, lo) →
    p ∈ tried c ∧ lo mod alignment c = 0 ∧ ∃ pg, heap (shared cfg) !! p = Some pg ∧
    lo + size c <= capacity pg ∧ lo + size c <= used pg;
  inv_disjoint i j c c' p lo lo' : i ≠ j →
    calls cfg !! i = Some c → calls cfg !! j = Some c' →
    granted c = Some (p, lo) → granted c' = Some (p, lo') →
    lo + size c <= lo' ∨ lo' + size c' <= lo;
}.

Lemma allocate_entry_good s al c : c = allocate_entry s al →
  good c ∨ (tried c = [] ∧ ∃ st, at_pc c = Finished st None).
Proof.
  intros ->. unfold allocate_entry, good, reservation. cbn.
  destruct (s =? 0) eqn:E1; cbn; [right; eauto|].
  destruct (valid_alignment al) eqn:E2; cbn; [|right; eauto].
  destruct (two64 - 1 - (al - 1) <? s) eqn:E3; [right; eauto|]. left. bools.
  assert (al ≠ 0) by (intros ->; done).
  split; [done|]. unfold two64 in *. lia.
Qed.

Lemma allocate_entry_finished s al st r : at_pc (allocate_entry s al) = Finished st r → r = None.
Proof. unfold allocate_entry. cbn. intros. by case_all. Qed.

Lemma allocate_entry_pc s al :
  at_pc (allocate_entry s al) = Load ∨ ∃ st, at_pc (allocate_entry s al) = Finished st None.
Proof.
  unfold allocate_entry. cbn. destruct (_ || _); [by right; eauto|].
  destruct (_ <? _); [by right; eauto | by left].
Qed.

Lemma sumN_fmap {A B} (g : A → B) (f : B → N) l : sumN f (g <$> l) = sumN (f ∘ g) l.
Proof. induction l; cbn; congruence. Qed.

Lemma inv_init requests : inv (total_cost requests) (config_init requests).
Proof.
  assert (Hc : ∀ i c, ((λ r : N * N, allocate_entry r.1 r.2) <$> requests) !! i = Some c →
    ∃ s al, c = allocate_entry s al).
  { intros i c Hc. rewrite list_lookup_fmap in Hc.
    destruct (requests !! i) as [[s al]|]; simplify_eq/=. eauto. }
  unfold config_init. constructor; cbn.
  - unfold total_cost. rewrite sumN_fmap. by apply sumN_ext.
  - intros i c (s & al & ->)%Hc. by eapply allocate_entry_good.
  - done.
  - intros i c d (s & al & ->)%Hc. unfold candidate_of.
    by destruct (allocate_entry_pc s al) as [->|[? ->]].
  - intros i c p (s & al & ->)%Hc [H|H]; [by apply elem_of_nil in H|].
    unfold target_of in H. by destruct (allocate_entry_pc s al) as [E|[? E]]; rewrite E in H.
  - intros i c p (s & al & ->)%Hc H. apply not_elem_of_nil.
  - intros i c p (s & al & ->)%Hc H. by apply elem_of_nil in H.
  - intros p pg H. by rewrite lookup_empty in H.
  - intros i c p lo (s & al & ->)%Hc H. unfold granted in H.
    by destruct (allocate_entry_pc s al) as [E|[? E]]; rewrite E in H; case_all.
  - intros i j c c' p lo lo' _ (s & al & ->)%Hc _ H. unfold granted in H.
    by destruct (allocate_entry_pc s al) as [E|[? E]]; rewrite E in H; case_all.
Qed.

(** Which call does a lookup in the updated list of calls find? *)
Ltac which_call :=
  repeat match goal with
  | H : <[_ := _]> _ !! _ = Some _ |- _ =>
      apply list_lookup_insert_Some in H as [(? & ? & ?)|(? & H)]
  end; subst.

(** A step that leaves the heap and the current page alone and draws nothing. *)
Lemma inv_local total a a' cs i c c' :
  inv total (Config a cs) → cs !! i = Some c →
  heap a' = heap a → current_page a' = current_page a →
  size c' = size c → alignment c' = alignment c → tried c' = tried c → good c →
  candidate_of c' = None → granted c' = None →
  (∀ p, target_of c' = Some p → is_Some (heap a !! p) ∧ (p ∉ tried c) ∧
    (∀ j x, cs !! j = Some x → candidate_of x ≠ Some p)) →
  (∀ p, p ∈ tried c → current_page a = Some p → past c p → past c' p) →
  inv total (Config a' (<[i := c']> cs)).
Proof.
  intros I Hi Hh Hcur Hs Ha Ht Hgood Hcand Hgr Htgt Hpast. destruct I; cbn in *.
  constructor; cbn; rewrite ?Hh, ?Hcur in *.
  - pose proof (sumN_insert call_cost cs i c c' Hi) as E.
    unfold call_cost in *. rewrite Hs, Ha in E. lia.
  - intros j x Hj. which_call; [left|eauto].
    unfold good, reservation in *. by rewrite Ha, Hs.
  - done.
  - intros j x d Hj Hx. which_call; [congruence|].
    destruct (inv_candidate0 _ _ _ Hj Hx) as (? & ? & Hu). split_and!; [done..|].
    intros k y Hk Hy. which_call; [congruence|eauto].
  - intros j x p Hj Hx. which_call.
    + rewrite Ht in Hx. assert (is_Some (heap a !! p) ∧
        ∀ j x, cs !! j = Some x → candidate_of x ≠ Some p) as [? Hn].
      { destruct Hx as [Hx|Hx]; [by eapply inv_uses0; eauto|].
        destruct (Htgt p Hx) as (? & ? & ?); done. }
      split; [done|]. intros k y Hk. which_call; [congruence|eauto].
    + destruct (inv_uses0 _ _ _ Hj Hx) as [? Hn]. split; [done|].
      intros k y Hk. which_call; [congruence|eauto].
  - intros j x p Hj Hx. which_call; [|eauto]. rewrite Ht. by apply Htgt.
  - intros j x p Hj Hx Hp. which_call; [|eauto]. rewrite Ht in Hx. eauto.
  - intros p pg Hp. rewrite (inv_used0 p pg Hp).
    pose proof (sumN_insert (drawn p) cs i c c' Hi) as E.
    unfold drawn in E at 2 4. unfold reservation in E. rewrite Hs, Ha, Ht in E. lia.
  - intros j x p lo Hj Hx. which_call; [congruence|eauto].
  - intros j k x y p lo lo' Hne Hj Hk Hx Hy. which_call; try congruence. eauto.
Qed.

Lemma sumN_drawn_fresh total a cs p : inv total (Config a cs) → heap a !! p = None →
  sumN (drawn p) cs = 0.
Proof.
  intros I Hp. transitivity (sumN (λ _ : call, 0) cs).
  - apply sumN_ext. intros c [j Hj]%list_elem_of_lookup. unfold drawn.
    case_bool_decide as Ht; [|done]. exfalso.
    destruct (inv_uses _ _ I j c p Hj (or_introl Ht)) as [[? Hs] _]. cbn in Hs. congruence.
  - clear. induction cs; cbn; lia.
Qed.

(** A fresh page becomes this call's candidate. *)
Lemma inv_make total a a' cs i c c' d cap :
  inv total (Config a cs) → cs !! i = Some c → heap a !! d = None →
  heap a' = <[d := Page 0 cap]> (heap a) → current_page a' = current_page a →
  size c' = size c → alignment c' = alignment c → tried c' = tried c → good c →
  candidate_of c = None → candidate_of c' = Some d → target_of c' = None → granted c' = None →
  (∀ p, past c p → past c' p) →
  inv total (Config a' (<[i := c']> cs)).
Proof.
  intros I Hi Hd Hh Hcur Hs Ha Ht Hgood Hcand0 Hcand Htgt Hgr Hpast.
  pose proof (sumN_drawn_fresh _ _ _ d I Hd) as Hz. destruct I; cbn in *.
  assert (Hlive : ∀ p, is_Some (heap a !! p) → is_Some (<[d := Page 0 cap]> (heap a) !! p)).
  { intros p [pg Hp]. rewrite lookup_insert_is_Some'. right; eauto. }
  assert (Hdr : ∀ p, sumN (drawn p) (<[i:=c']> cs) = sumN (drawn p) cs).
  { intros p. pose proof (sumN_insert (drawn p) cs i c c' Hi) as E.
    unfold drawn in E at 2 4. unfold reservation in E. rewrite Hs, Ha, Ht in E. lia. }
  constructor; cbn; rewrite ?Hh, ?Hcur in *.
  - pose proof (sumN_insert call_cost cs i c c' Hi) as E.
    unfold call_cost in *. rewrite Hs, Ha in E. lia.
  - intros j x Hj. which_call; [left|eauto].
    unfold good, reservation in *. by rewrite Ha, Hs.
  - auto.
  - intros j x e Hj Hx. which_call.
    + rewrite Hcand in Hx. simplify_eq. split_and!.
      * rewrite lookup_insert_eq. eauto.
      * intros Hc. destruct (inv_current0 _ Hc). congruence.
      * intros k y Hk Hy. which_call; [done|].
        destruct (inv_candidate0 _ _ _ Hk Hy) as [[? Hs'] _]. congruence.
    + destruct (inv_candidate0 _ _ _ Hj Hx) as (He & ? & Hu). split_and!; [auto..|].
      intros k y Hk Hy. which_call; [|eauto].
      rewrite Hcand in Hy. simplify_eq. destruct He. congruence.
  - intros j x p Hj Hx.
    assert (is_Some (heap a !! p) ∧ ∀ j x, cs !! j = Some x → candidate_of x ≠ Some p)
      as [Hp Hn].
    { which_call; [|eauto]. rewrite Ht, Htgt in Hx. destruct Hx; [|done]. eauto. }
    split; [auto|]. clear Hj. intros k y Hk. which_call; [|eauto].
    rewrite Hcand. intros [= ->]. destruct Hp. congruence.
  - intros j x p Hj Hx. which_call; [congruence|eauto].
  - intros j x p Hj Hx Hp. which_call; [|eauto]. rewrite Ht in Hx. eauto.
  - intros p pg Hp. rewrite Hdr. apply lookup_insert_Some in Hp as [[<- <-]|[? Hp]]; [done|auto].
  - intros j x p lo Hj Hx. which_call; [congruence|].
    destruct (inv_region0 _ _ _ _ Hj Hx) as (? & ? & pg & Hp & ?). split_and!; [done..|].
    exists pg. rewrite lookup_insert_ne by congruence. done.
  - intros j k x y p lo lo' Hne Hj Hk Hx Hy. which_call; try congruence. eauto.
Qed.

(** The compare-exchange succeeds: the candidate is the current page. *)
Lemma inv_publish total a cs i c c' d :
  inv total (Config a cs) → cs !! i = Some c → candidate_of c = Some d →
  size c' = size c → alignment c' = alignment c → tried c' = tried c → good c →
  candidate_of c' = None → granted c' = None → (∀ p, target_of c' = Some p → p = d) →
  inv total (Config (set_current a d) (<[i := c']> cs)).
Proof.
  intros I Hi Hcand Hs Ha Ht Hgood Hcand' Hgr Htgt. destruct I; cbn in *.
  destruct (inv_candidate0 _ _ _ Hi Hcand) as (Hd & Hcur & Huniq).
  assert (Hnew : ∀ j x, cs !! j = Some x → d ∉ tried x).
  { intros j x Hj Hx. destruct (inv_uses0 j x d Hj (or_introl Hx)) as [_ Hn].
    by apply (Hn _ _ Hi). }
  constructor; cbn.
  - pose proof (sumN_insert call_cost cs i c c' Hi) as E.
    unfold call_cost in *. rewrite Hs, Ha in E. lia.
  - intros j x Hj. which_call; [left|eauto].
    unfold good, reservation in *. by rewrite Ha, Hs.
  - by intros p [= <-].
  - intros j x e Hj Hx. which_call; [congruence|].
    destruct (inv_candidate0 _ _ _ Hj Hx) as (? & ? & Hu). split_and!; [done| |].
    + intros [= <-]. by apply (Huniq j x) in Hj.
    + intros k y Hk Hy. which_call; [congruence|eauto].
  - intros j x p Hj Hx.
    assert (p = d ∨ is_Some (heap a !! p) ∧
      ∀ j x, cs !! j = Some x → candidate_of x ≠ Some p) as [->|[? Hn]].
    { which_call; [|right; eauto]. rewrite Ht in Hx.
      destruct Hx as [Hx|Hx]; [right; eauto | left; auto]. }
    + split; [done|]. clear Hj. intros k y Hk. which_call; [congruence|].
      intros Hy. by apply (Huniq k y) in Hk.
    + split; [done|]. clear Hj. intros k y Hk. which_call; [congruence|eauto].
  - intros j x p Hj Hx. which_call; [|eauto]. rewrite Ht, (Htgt p Hx). eauto.
  - intros j x p Hj Hx [= <-]. exfalso. which_call; [rewrite Ht in Hx|]; by eapply Hnew.
  - intros p pg Hp. rewrite (inv_used0 p pg Hp).
    pose proof (sumN_insert (drawn p) cs i c c' Hi) as E.
    unfold drawn in E at 2 4. unfold reservation in E. rewrite Hs, Ha, Ht in E. lia.
  - intros j x p lo Hj Hx. which_call; [congruence|eauto].
  - intros j k x y p lo lo' Hne Hj Hk Hx Hy. which_call; try congruence. eauto.
Qed.

(** The compare-exchange fails: the candidate is deleted, the loop starts over. *)
Lemma inv_discard total a cs i c d :
  inv total (Config a cs) → cs !! i = Some c → candidate_of c = Some d → good c →
  (∀ p, past c p → current_page a ≠ Some p) →
  inv total (Config (delete_page a d) (<[i := goto c Load]> cs)).
Proof.
  intros I Hi Hcand Hgood Hpast. destruct I; cbn in *.
  destruct (inv_candidate0 _ _ _ Hi Hcand) as (Hd & Hcur & Huniq).
  assert (Hlive : ∀ j x p, cs !! j = Some x → p ∈ tried x ∨ target_of x = Some p → p ≠ d).
  { intros j x p Hj Hx ->. destruct (inv_uses0 j x d Hj Hx) as [_ Hn]. by apply (Hn _ _ Hi). }
  assert (Hdr : ∀ p, sumN (drawn p) (<[i:=goto c Load]> cs) = sumN (drawn p) cs).
  { intros p. pose proof (sumN_insert (drawn p) cs i c (goto c Load) Hi) as E.
    unfold drawn in E at 2 4. unfold reservation in E. cbn in E. lia. }
  constructor; cbn.
  - pose proof (sumN_insert call_cost cs i c (goto c Load) Hi) as E.
    unfold call_cost in *. cbn in E. lia.
  - intros j x Hj. which_call; [by left|eauto].
  - intros p Hp. rewrite lookup_delete_ne by congruence. auto.
  - intros j x e Hj Hx. which_call; [done|].
    destruct (inv_candidate0 _ _ _ Hj Hx) as (? & ? & Hu). split_and!; [|done|].
    + rewrite lookup_delete_ne; [done|]. intros ->. by apply (Huniq j x) in Hj.
    + intros k y Hk Hy. which_call; [done|eauto].
  - intros j x p Hj Hx.
    assert (p ≠ d ∧ is_Some (heap a !! p) ∧
      ∀ j x, cs !! j = Some x → candidate_of x ≠ Some p) as (? & ? & Hn).
    { which_call; [|split; eauto]. destruct Hx as [Hx|Hx]; [|done]. split; eauto. }
    split; [by rewrite lookup_delete_ne|]. clear Hj. intros k y Hk. which_call; [done|eauto].
  - intros j x p Hj Hx. which_call; [done|eauto].
  - intros j x p Hj Hx Hp. which_call; [|eauto]. cbn in Hx.
    exfalso. by eapply Hpast; eauto.
  - intros p pg Hp. rewrite Hdr. apply lookup_delete_Some in Hp as [_ Hp]. auto.
  - intros j x p lo Hj Hx. which_call; [done|].
    destruct (inv_region0 _ _ _ _ Hj Hx) as (? & ? & pg & Hp & ?). split_and!; [done..|].
    exists pg. rewrite lookup_delete_ne; [done|]. intros ->. by eapply Hlive; eauto.
  - intros j k x y p lo lo' Hne Hj Hk Hx Hy. which_call; try done. eauto.
Qed.

(** The total bound keeps the fetch-add from wrapping. *)
Lemma drawn_le_cost c : good c ∨ (tried c = [] ∧ ∃ s, at_pc c = Finished s None) →
  ∀ p, drawn p c <= call_cost c ∧ (good c → call_cost c = reservation c).
Proof.
  intros Hc p. unfold drawn, call_cost, cost, reservation.
  assert (Hg : good c → at_pc (allocate_entry (size c) (alignment c)) = Load).
  { intros (Hv & Hp & Hr). unfold allocate_entry. cbn. rewrite Hv.
    unfold reservation in Hr. assert (alignment c ≠ 0) by (intros E; by rewrite E in Hv).
    destruct (N.eqb_spec (size c) 0); [lia|]. cbn.
    destruct (N.ltb_spec (two64 - 1 - (alignment c - 1)) (size c)); [|done].
    unfold two64 in *. lia. }
  destruct Hc as [Hc|[Ht _]].
  - rewrite (Hg Hc). case_bool_decide; split; lia.
  - rewrite Ht. split; [|intros Hc; by rewrite (Hg Hc)].
    rewrite bool_decide_eq_false_2 by apply not_elem_of_nil. lia.
Qed.

Lemma inv_no_wrap total a cs i c p pg :
  inv total (Config a cs) → total < two64 → cs !! i = Some c → good c → p ∉ tried c →
  heap a !! p = Some pg → used pg + reservation c < two64.
Proof.
  intros I Htot Hi Hgood Ht Hp. rewrite (inv_used _ _ I p pg Hp). cbn.
  pose proof (sumN_room (drawn p) call_cost cs i c Hi) as Hr.
  rewrite <-(proj2 (drawn_le_cost c (or_introl Hgood) p) Hgood).
  eapply N.le_lt_trans; [apply Hr|].
  - intros x [j Hx]%list_elem_of_lookup. eapply drawn_le_cost, (inv_good _ _ I); eauto.
  - unfold drawn. by rewrite bool_decide_eq_false_2.
  - pose proof (inv_total _ _ I). cbn in *. lia.
Qed.

Lemma place_spec cap off s al lo :
  place cap off s al = Some lo → valid_alignment al = true → off + al <= two64 →
  off <= lo ∧ lo + 1 <= off + al ∧ lo mod al = 0 ∧ lo + s <= cap.
Proof.
  unfold place. intros Hp Hv Hb. case_all. bools.
  destruct (align_up_spec off al Hv Hb) as (? & ? & ?). repeat split; lia || done.
Qed.

(** The fetch-add and the placement test. *)
Lemma inv_draw total a a' cs i c c' p pg :
  inv total (Config a cs) → total < two64 → cs !! i = Some c → good c →
  at_pc c = FetchAdd p → heap a !! p = Some pg →
  heap a' = <[p := Page (w64 (used pg + reservation c)) (capacity pg)]> (heap a) →
  current_page a' = current_page a →
  size c' = size c → alignment c' = alignment c → tried c' = p :: tried c →
  (at_pc c' = MakeNext p ∨
   ∃ lo, place (capacity pg) (used pg) (size c) (alignment c) = Some lo ∧
     at_pc c' = Finished ok (Some (p, lo))) →
  inv total (Config a' (<[i := c']> cs)).
Proof.
  intros I Htot Hi Hgood Hpc Hp Hh Hcur Hs Ha Ht Hnext.
  assert (Hpn : p ∉ tried c) by (eapply (inv_target _ _ I i c p Hi); unfold target_of; by rewrite Hpc).
  pose proof (inv_no_wrap _ _ _ _ _ _ _ I Htot Hi Hgood Hpn Hp) as Hw.
  rewrite w64_small in Hh by done.
  assert (Hg' : good c') by (unfold good, reservation in *; by rewrite Ha, Hs).
  assert (Hcand' : candidate_of c' = None) by (unfold candidate_of; by destruct Hnext as [->|(?&_&->)]).
  assert (Htgt' : target_of c' = None) by (unfold target_of; by destruct Hnext as [->|(?&_&->)]).
  assert (Hlook : ∀ q qg, heap a !! q = Some qg → ∃ qg',
    <[p := Page (used pg + reservation c) (capacity pg)]> (heap a) !! q = Some qg' ∧
    capacity qg' = capacity qg ∧ used qg <= used qg').
  { intros q qg Hq. destruct (decide (p = q)) as [<-|].
    - rewrite lookup_insert_eq. eexists. split; [done|]. cbn. simplify_eq. split; [done|lia].
    - rewrite lookup_insert_ne by done. eauto. }
  assert (Hnew : ∀ lo, granted c' = Some (p, lo) → used pg <= lo ∧ lo mod alignment c' = 0 ∧
    lo + size c' <= capacity pg ∧ lo + size c' <= used pg + reservation c).
  { unfold granted. intros lo. destruct Hnext as [->|(l & Hl & ->)]; [done|]. intros [= ->].
    destruct Hgood as (Hv & ? & ?). unfold reservation in *.
    apply place_spec in Hl as (? & ? & ? & ?); [|done|lia]. rewrite Hs, Ha. repeat split; lia || done. }
  assert (Hgp : ∀ q lo, granted c' = Some (q, lo) → q = p).
  { unfold granted. intros q lo. by destruct Hnext as [->|(l & Hl & ->)]; intros; simplify_eq. }
  destruct I; cbn in *. constructor; cbn; rewrite ?Hh, ?Hcur in *.
  - pose proof (sumN_insert call_cost cs i c c' Hi) as E.
    unfold call_cost in *. rewrite Hs, Ha in E. lia.
  - intros j x Hj. which_call; [by left|eauto].
  - intros q [qg Hq]%inv_current0. destruct (Hlook _ _ Hq) as (? & -> & _). eauto.
  - intros j x e Hj Hx. which_call; [congruence|].
    destruct (inv_candidate0 _ _ _ Hj Hx) as ([qg Hq] & ? & Hu).
    destruct (Hlook _ _ Hq) as (? & -> & _). split_and!; [eauto|done|].
    intros k y Hk Hy. which_call; [congruence|eauto].
  - intros j x q Hj Hx.
    assert (is_Some (heap a !! q) ∧ ∀ j x, cs !! j = Some x → candidate_of x ≠ Some q)
      as [[qg Hq] Hn].
    { which_call; [|eauto]. rewrite Ht, Htgt' in Hx. destruct Hx as [Hx|]; [|done].
      apply (inv_uses0 j c q Hi). apply elem_of_cons in Hx as [->|]; [|auto].
      right. unfold target_of. by rewrite Hpc. }
    destruct (Hlook _ _ Hq) as (? & -> & _). split; [eauto|]. clear Hj.
    intros k y Hk. which_call; [congruence|eauto].
  - intros j x q Hj Hx. which_call; [congruence|eauto].
  - intros j x q Hj Hx Hq. which_call; [|eauto]. rewrite Ht in Hx.
    assert (Hpast : ∀ r, past c r → False) by (unfold past; by rewrite Hpc).
    apply elem_of_cons in Hx as [->|Hx]; [|by destruct (Hpast q); eauto].
    unfold past. by destruct Hnext as [->|(?&_&->)].
  - intros q qg Hq. pose proof (sumN_insert (drawn q) cs i c c' Hi) as E.
    unfold drawn in E at 2 4. unfold reservation in E. rewrite Hs, Ha, Ht in E.
    apply lookup_insert_Some in Hq as [[<- <-]|[? Hq]]; cbn.
    + rewrite (inv_used0 _ _ Hp). rewrite bool_decide_eq_false_2, bool_decide_eq_true_2 in E
        by (done || apply elem_of_cons; by left). unfold reservation. lia.
    + rewrite (inv_used0 _ _ Hq).
      rewrite (bool_decide_ext (q ∈ p :: tried c) (q ∈ tried c)) in E; [lia|].
      rewrite elem_of_cons. naive_solver.
  - intros j x q lo Hj Hx. which_call.
    + pose proof (Hgp _ _ Hx) as ->. destruct (Hnew lo Hx) as (? & ? & ? & ?).
      split_and!; [rewrite Ht; apply elem_of_cons; by left|done|]. rewrite lookup_insert_eq. eauto.
    + destruct (inv_region0 _ _ _ _ Hj Hx) as (? & ? & qg & Hq & ? & ?). split_and!; [done..|].
      destruct (Hlook _ _ Hq) as (qg' & -> & Hc & Hu). exists qg'. rewrite Hc. split; [done|lia].
  - assert (Hsep : ∀ j x lo lo', cs !! j = Some x → granted x = Some (p, lo) →
      granted c' = Some (p, lo') → lo + size x <= lo').
    { intros j x lo lo' Hj Hx Hc'. destruct (Hnew _ Hc') as [? _].
      destruct (inv_region0 _ _ _ _ Hj Hx) as (_ & _ & qg & Hq & _ & ?). simplify_eq. lia. }
    intros j k x y q lo lo' Hne Hj Hk Hx Hy.
    which_call; [done| | |eauto]; pose proof (Hgp _ _ ltac:(eassumption)); subst; eauto.
Qed.

Lemma good_of_running total a cs i c :
  inv total (Config a cs) → cs !! i = Some c → (∀ s r, at_pc c ≠ Finished s r) → good c.
Proof.
  intros I Hi Hrun. by destruct (inv_good _ _ I i c Hi) as [|(_ & s & E)]; [|by apply Hrun in E].
Qed.

Lemma inv_step total cfg cfg' :
  total < two64 → inv total cfg → config_step cfg cfg' → inv total cfg'.
Proof.
  intros Htot I Hstep. destruct Hstep as [a cs i c alloc a' c' Hi Hfresh Hs].
  pose proof (good_of_running _ _ _ _ _ I Hi) as Hrun.
  unfold step in Hs. destruct (at_pc c) as [| |d|d|p| p|p d|d|st r] eqn:Hpc;
    try pose proof (Hrun ltac:(done)) as Hgood.
  - destruct (current_page a) as [p|] eqn:Hcur; simplify_eq; eapply inv_local; eauto;
      unfold candidate_of, granted, target_of, past; cbn; rewrite ?Hpc; try done.
    intros q [= <-]. split_and!.
    + by eapply (inv_current _ _ I).
    + intros Ht. pose proof (inv_retired _ _ I i c p Hi Ht Hcur) as Hp.
      unfold past in Hp. by rewrite Hpc in Hp.
    + intros j x Hj Hx. by eapply (inv_candidate _ _ I j x p Hj Hx).
  - destruct alloc as [d|]; cbn in Hs; simplify_eq.
    + eapply inv_make with (d := d); eauto;
        unfold candidate_of, granted, target_of, past; cbn; rewrite ?Hpc; done.
    + eapply inv_local; eauto; unfold candidate_of, granted, target_of, past; cbn; done.
  - destruct (current_page a) as [p|] eqn:Hcur; simplify_eq.
    + eapply inv_discard; eauto; unfold candidate_of, past; rewrite ?Hpc; done.
    + eapply inv_publish; eauto; unfold candidate_of, granted, target_of; cbn; rewrite ?Hpc; try done.
      intros p. by intros [= <-].
  - simplify_eq. eapply inv_local; eauto;
      unfold candidate_of, granted, target_of, past; cbn; rewrite ?Hpc; try done.
    intros p [= <-]. assert (Ht : target_of c = Some d) by (unfold target_of; by rewrite Hpc).
    destruct (inv_uses _ _ I i c d Hi (or_intror Ht)) as [? ?].
    split_and!; [done|by eapply (inv_target _ _ I)|done].
  - assert (Ht : target_of c = Some p) by (unfold target_of; by rewrite Hpc).
    destruct (inv_uses _ _ I i c p Hi (or_intror Ht)) as [[pg Hp] _]. cbn in Hp.
    rewrite Hp in Hs. destruct (place _ _ _ _) as [lo|] eqn:Hl; simplify_eq;
      eapply inv_draw; eauto; cbn; eauto.
  - destruct alloc as [d|]; cbn in Hs; simplify_eq.
    + eapply inv_make with (d := d); eauto;
        unfold candidate_of, granted, target_of, past; cbn; rewrite ?Hpc; done.
    + eapply inv_local; eauto; unfold candidate_of, granted, target_of, past; cbn; done.
  - destruct (decide _) as [Hcur|Hcur]; simplify_eq.
    + eapply inv_publish; eauto; unfold candidate_of, granted, target_of; cbn; rewrite ?Hpc; done.
    + eapply inv_discard; eauto; unfold candidate_of, past; rewrite ?Hpc; [done|].
      intros q -> E. done.
  - simplify_eq. eapply inv_local; eauto;
      unfold candidate_of, granted, target_of, past; cbn; rewrite ?Hpc; done.
  - simplify_eq. by rewrite list_insert_id.
Qed.

Lemma inv_reachable requests cfg :
  total_cost requests < two64 → reachable requests cfg → inv (total_cost requests) cfg.
Proof.
  intros Htot Hr. pose proof (inv_init requests) as Hinit. unfold reachable in Hr.
  induction Hr; eauto using inv_step.
Qed.

(** ** Properties *)

(** C23: however the calls of all threads interleave, and whichever
    heap allocations fail, every region handed out lies inside its page at an aligned
    offset, and two regions of one page never overlap - as long as the reservations
    ever requested sum to less than 2^64, so that no page counter wraps. *)
Theorem allocate_regions_disjoint requests cfg i j c c' p lo lo' :
  total_cost requests < two64 → reachable requests cfg →
  calls cfg !! i = Some c → at_pc c = Finished ok (Some (p, lo)) →
  (∃ pg, heap (shared cfg) !! p = Some pg ∧ lo + size c <= capacity pg) ∧
  lo mod alignment c = 0 ∧
  (i ≠ j → calls cfg !! j = Some c' → at_pc c' = Finished ok (Some (p, lo')) →
   lo + size c <= lo' ∨ lo' + size c' <= lo).
Proof.
  intros Htot Hr Hi Hc. pose proof (inv_reachable _ _ Htot Hr) as I.
  assert (Hg : granted c = Some (p, lo)) by (unfold granted; by rewrite Hc).
  destruct (inv_region _ _ I _ _ _ _ Hi Hg) as (_ & ? & pg & ? & ? & _).
  split_and!; [eauto|done|]. intros Hne Hj Hc'.
  eapply (inv_disjoint _ _ I); eauto. unfold granted. by rewrite Hc'.
Qed.

(** Two calls of eight bytes each, interleaved: the second installs its page first. *)
Definition two_calls : list (N * N) := [(8, 8); (8, 8)].

Ltac arena_step i alloc :=
  eapply rtc_l; [eapply (config_step_intro _ _ i _ alloc);
    [reflexivity | intros ? [=]; subst; reflexivity | reflexivity]|]; cbn.

Lemma allocate_regions_disjoint_witness :
  ∃ cfg c c', reachable two_calls cfg ∧ calls cfg !! 0%nat = Some c ∧
    calls cfg !! 1%nat = Some c' ∧ at_pc c = Finished ok (Some (7, 16)) ∧
    at_pc c' = Finished ok (Some (7, 0)) ∧
    (0%nat ≠ 1%nat → 16 + 8 <= 0 ∨ 0 + 8 <= 16).
Proof.
  eexists _, _, _.
  assert (Hr : reachable two_calls (Config
    (Arena {[7 := Page 30 65536]} (Some 7) [7] 65536 1)
    [Call 8 8 (Finished ok (Some (7, 16))) [7]; Call 8 8 (Finished ok (Some (7, 0))) [7]])).
  { unfold reachable, config_init, two_calls. cbn.
    arena_step 0%nat (@None N). arena_step 1%nat (@None N).
    arena_step 0%nat (Some 5). arena_step 1%nat (Some 7).
    arena_step 1%nat (@None N). arena_step 0%nat (@None N).
    arena_step 1%nat (@None N). arena_step 1%nat (@None N).
    arena_step 0%nat (@None N). arena_step 0%nat (@None N).
    apply rtc_refl. }
  split; [exact Hr|]. do 4 (split; [reflexivity|]). intros Hne.
  exact (proj2 (proj2 (allocate_regions_disjoint two_calls _ 0 1
    (Call 8 8 (Finished ok (Some (7, 16))) [7]) (Call 8 8 (Finished ok (Some (7, 0))) [7])
    7 16 0 eq_refl Hr eq_refl eq_refl)) Hne eq_refl eq_refl).
Defined.

(** The region the current page can still give. *)
Definition fits (a : arena) (size alignment : N) : option (N * N) :=
  p ← current_page a;
  pg ← heap a !! p;
  lo ← place (capacity pg) (used pg) size alignment;
  Some (p, lo).

Lemma place_fresh cap s al :
  valid_alignment al = true → 0 < s → s + al - 1 < two64 → s + al - 1 <= cap →
  place cap 0 s al = Some 0.
Proof.
  intros Hv Hs Hb Hc. unfold place. destruct (align_up_spec 0 al Hv) as (_ & Hlt & Hm); [lia|].
  assert (Hal : al ≠ 0) by (intros ->; done).
  assert (align_up 0 al = 0) as ->.
  { rewrite <-(N.mod_small (align_up 0 al) al) by lia. done. }
  rewrite N.sub_0_r. cbn.
  destruct (N.leb_spec 0 cap), (N.leb_spec s cap); cbn; lia || done.
Qed.

Lemma allocate_entry_passes s al :
  valid_alignment al = true → 0 < s → s + al - 1 < two64 →
  allocate_entry s al = Call s al Load [].
Proof.
  intros Hv Hs Hb. unfold allocate_entry. rewrite Hv.
  assert (al ≠ 0) by (intros ->; done).
  destruct (N.eqb_spec s 0); [lia|]. cbn.
  destruct (N.ltb_spec (two64 - 1 - (al - 1)) s); [unfold two64 in *; lia|done].
Qed.

(** The transitions of a call running alone. *)
Section run_alone.
Context (n : nat) (allocs : list (option N)) (a : arena) (s al : N) (t : list N).

Lemma run_finished st r :
    run (S n) allocs a (Call s al (Finished st r) t) = (a, Call s al (Finished st r) t).
Proof. done. Qed.

Lemma run_load_some p : current_page a = Some p →
    run (S n) allocs a (Call s al Load t) = run n allocs a (Call s al (FetchAdd p) t).
Proof. intros H. cbn [run step at_pc]. by rewrite H. Qed.

Lemma run_load_none : current_page a = None →
    run (S n) allocs a (Call s al Load t) = run n allocs a (Call s al MakeFirst t).
Proof. intros H. cbn [run step at_pc]. by rewrite H. Qed.

Lemma run_make_first :
    run (S n) allocs a (Call s al MakeFirst t) =
    match make_page (default None (head allocs)) a (s + al - 1) with
    | None => run n (tail allocs) a (Call s al (Finished initialization_failed None) t)
    | Some (d, a') => run n (tail allocs) a' (Call s al (CasFirst d) t)
    end.
Proof. cbn [run step at_pc]. by destruct (default None (head allocs)). Qed.

Lemma run_make_next p :
    run (S n) allocs a (Call s al (MakeNext p) t) =
    match make_page (default None (head allocs)) a (s + al - 1) with
    | None => run n (tail allocs) a (Call s al (Finished initialization_failed None) t)
    | Some (d, a') => run n (tail allocs) a' (Call s al (CasNext p d) t)
    end.
Proof. cbn [run step at_pc]. by destruct (default None (head allocs)). Qed.

Lemma run_cas_first d : current_page a = None →
    run (S n) allocs a (Call s al (CasFirst d) t) =
    run n allocs (set_current a d) (Call s al (OwnFirst d) t).
Proof. intros H. cbn [run step at_pc]. by rewrite H. Qed.

Lemma run_cas_next p d : current_page a = Some p →
    run (S n) allocs a (Call s al (CasNext p d) t) =
    run n allocs (set_current a d) (Call s al (OwnNext d) t).
Proof. intros H. cbn [run step at_pc]. by rewrite decide_True. Qed.

Lemma run_own_first d : run (S n) allocs a (Call s al (OwnFirst d) t) =
    run n allocs (own_page a d) (Call s al (FetchAdd d) t).
Proof. done. Qed.

Lemma run_own_next d : run (S n) allocs a (Call s al (OwnNext d) t) =
    run n allocs (own_page a d) (Call s al Load t).
Proof. done. Qed.

Lemma run_fetch_add p pg : heap a !! p = Some pg →
    run (S n) allocs a (Call s al (FetchAdd p) t) =
    run n allocs
      (Arena (<[p := Page (w64 (used pg + (s + al - 1))) (capacity pg)]> (heap a))
        (current_page a) (owned_pages a) (reserved_bytes a) (reserved_pages a))
      (Call s al match place (capacity pg) (used pg) s al with
                 | Some lo => Finished ok (Some (p, lo))
                 | None => MakeNext p
                 end (p :: t)).
Proof.
    intros H. cbn [run step at_pc]. rewrite H. cbn [size alignment].
    by destruct (place _ _ _ _).
Qed.
End run_alone.

#[local] Opaque run.

(** A call running alone always returns, within twelve atomic steps: the
    guards reject an empty size or a bad alignment with [invalid_argument] and a size
    whose reservation overflows with [not_available], leaving the arena as it was;
    otherwise it takes the room of the current page if the block fits there, else the
    start of a fresh page, else reports [initialization_failed] when there is no memory. *)
Theorem allocate_alone a s al alloc :
  (∀ p, current_page a = Some p → is_Some (heap a !! p)) →
  (∀ d, alloc = Some d → heap a !! d = None) →
  let '(a', c') := allocate [alloc] a s al in
  if (s =? 0) || negb (valid_alignment al) then at_pc c' = Finished invalid_argument None ∧ a' = a
  else if two64 <=? s + al - 1 then at_pc c' = Finished not_available None ∧ a' = a
  else match fits a s al, alloc with
  | Some (p, lo), _ => at_pc c' = Finished ok (Some (p, lo))
  | None, Some d => at_pc c' = Finished ok (Some (d, 0)) ∧ current_page a' = Some d
  | None, None => at_pc c' = Finished initialization_failed None ∧ current_page a' = current_page a
  end.
Proof.
  intros Hcur Hfresh. destruct (allocate [alloc] a s al) as [a' c'] eqn:E. unfold allocate in E.
  destruct ((s =? 0) || negb (valid_alignment al)) eqn:Eg.
  { unfold allocate_entry in E. rewrite Eg in E. cbn in E.
    rewrite run_finished in E. by simplify_eq/=. }
  destruct (N.leb_spec two64 (s + al - 1)) as [Hbig|Hb].
  { unfold allocate_entry in E. rewrite Eg in E.
    destruct (N.ltb_spec (two64 - 1 - (al - 1)) s); [cbn in E; rewrite run_finished in E; by simplify_eq/=|].
    unfold two64 in *. bools. destruct (N.eq_dec al 0) as [->|]; [done|lia]. }
  bools. rewrite allocate_entry_passes in E by (done || lia).
  assert (Hnew : place (N.max default_page_size (s + al - 1)) 0 s al = Some 0)
    by (apply place_fresh; lia || done).
  unfold fits. destruct (current_page a) as [p|] eqn:Hp; cbn [mbind option_bind].
  - destruct (Hcur p eq_refl) as [pg Hpg]. rewrite Hpg. cbn [mbind option_bind].
    rewrite (run_load_some _ _ _ _ _ _ p), (run_fetch_add _ _ _ _ _ _ p pg) in E by done.
    destruct (place (capacity pg) (used pg) s al) as [lo|].
    { rewrite run_finished in E. by simplify_eq/=. }
    rewrite run_make_next in E. destruct alloc as [d|]; cbn in E;
      [|rewrite run_finished in E; by simplify_eq/=].
    rewrite run_cas_next, run_own_next, (run_load_some _ _ _ _ _ _ d) in E by done.
    erewrite run_fetch_add in E by (exact (lookup_insert_eq _ _ _)).
    cbn [used capacity] in E. rewrite Hnew, run_finished in E. by simplify_eq/=.
  - rewrite run_load_none, run_make_first in E by done. destruct alloc as [d|]; cbn in E;
      [|rewrite run_finished in E; by simplify_eq/=].
    rewrite run_cas_first, run_own_first in E by done.
    erewrite run_fetch_add in E by (exact (lookup_insert_eq _ _ _)).
    cbn [used capacity] in E. rewrite Hnew, run_finished in E. by simplify_eq/=.
Qed.

#[local] Transparent run.

Lemma allocate_alone_witness :
  at_pc (allocate [Some 3] (Arena {[7 := Page 65530 65536]} (Some 7) [7] 65536 1) 24 8).2 =
  Finished ok (Some (3, 0)).
Proof.
  refine (proj1 (allocate_alone (Arena {[7 := Page 65530 65536]} (Some 7) [7] 65536 1) 24 8
    (Some 3) _ _)).
  - intros p [= <-]. eexists. reflexivity.
  - intros d [= <-]. reflexivity.
Defined.

(** Without that bound the counter does wrap: after a block of 64 bytes, one
    request of 2^64 - 50 bytes that fails for lack of memory has already moved the
    page counter from 64 round to 14, and the next eight bytes are handed out inside the
    first block. *)
Theorem allocate_wraps_into_live_region :
  let '(a1, c1) := allocate [Some 7] arena_init 64 1 in
  let '(a2, c2) := allocate [None] a1 (two64 - 50) 1 in
  let '(a3, c3) := allocate [] a2 8 1 in
  at_pc c1 = Finished ok (Some (7, 0)) ∧
  at_pc c2 = Finished initialization_failed None ∧
  at_pc c3 = Finished ok (Some (7, 14)).
Proof. vm_compute. repeat split. Qed.

End ByteArena.
