(* ===== verification/Probing.v ===== *)
(** * Linear probing

    The search loop shared by the open-addressing tables of the program
    ([mapped_vector]'s element index, the Graph's identity, object, link and derived
    indexes): start at [hash & mask], look at a slot, move to [(position + 1) & mask].
    This file models the loop once and proves what every table needs of it: a chained
    table finds each of its entries, an insertion at the first free slot keeps the table
    chained, and a table with a free slot always has an end to the walk. *)

From S2P Require Import Prelude.

Local Open Scope N_scope.

Module Probing.

(** ** The loop *)

(** [for (probe = 0; probe < fuel; ++probe) { visit; position = (position + 1) & mask; }];
    [visit] answers [Some r] where the body returns [r]. *)
Fixpoint probe {R} (visit : N → option R) (mask : N) (fuel : nat) (position : N) : option R :=
  match fuel with
  | O => None
  | S fuel' =>
      match visit position with
      | Some r => Some r
      | None => probe visit mask fuel' (N.land (position + 1) mask)
      end
  end.

(** The position [i] steps on from [p] in a table of [size] slots. *)
Definition ahead (size p : N) (i : nat) : N := (p + N.of_nat i) mod size.

Definition power_of_two (n : N) : Prop := ∃ k, n = 2 ^ k.

Lemma power_of_two_pos n : power_of_two n → 0 < n.
Proof. intros [k ->]. pose proof (N.pow_nonzero 2 k). lia. Qed.

Lemma land_mask n p : power_of_two n → N.land p (n - 1) = p mod n.
Proof.
  intros [k ->]. replace (2 ^ k - 1) with (N.ones k) by (rewrite N.ones_equiv; lia).
  apply N.land_ones.
Qed.

Lemma ahead_lt size p i : 0 < size → ahead size p i < size.
Proof. intros. apply N.mod_lt. lia. Qed.

Lemma ahead_0 size p : p < size → ahead size p 0 = p.
Proof. intros. unfold ahead. rewrite N.add_0_r. by apply N.mod_small. Qed.

Lemma ahead_next size p i : 0 < size → ahead size ((p + 1) mod size) i = ahead size p (S i).
Proof.
  intros. unfold ahead. rewrite N.Div0.add_mod_idemp_l. f_equal. lia.
Qed.

(** Every slot is ahead of every other. *)
Lemma ahead_reaches size p q : p < size → q < size →
  ∃ i, (i < N.to_nat size)%nat ∧ ahead size p i = q.
Proof.
  intros Hp Hq. destruct (N.le_gt_cases p q).
  - exists (N.to_nat (q - p)). split; [lia|]. unfold ahead.
    rewrite N2Nat.id. replace (p + (q - p)) with q by lia. by apply N.mod_small.
  - exists (N.to_nat (size + q - p)). split; [lia|]. unfold ahead.
    rewrite N2Nat.id. replace (p + (size + q - p)) with (q + 1 * size) by lia.
    rewrite N.Div0.mod_add. by apply N.mod_small.
Qed.

Section probe_facts.
Context {R : Type} (visit : N → option R) (size : N).
Context (Hsize : power_of_two size).

Lemma probe_Some fuel p r :
    p < size → probe visit (size - 1) fuel p = Some r ↔
    ∃ i, (i < fuel)%nat ∧ visit (ahead size p i) = Some r ∧
      ∀ j, (j < i)%nat → visit (ahead size p j) = None.
Proof.
    pose proof (power_of_two_pos _ Hsize) as Hpos.
    revert p. induction fuel as [|fuel IH]; intros p Hp; cbn [probe].
    { split; [done|]. intros (i & Hi & _). lia. }
    destruct (visit p) as [r'|] eqn:Hv.
    - split.
      + intros [= ->]. exists 0%nat. rewrite ahead_0 by done. split_and!; [lia|done|lia].
      + intros ([|i] & _ & Hr & Hj); [by rewrite ahead_0, Hv in Hr by done|].
        specialize (Hj 0%nat ltac:(lia)). rewrite ahead_0 in Hj by done. congruence.
    - rewrite land_mask by done. rewrite IH by (by apply N.mod_lt; lia). split.
      + intros (i & Hi & Hr & Hj). exists (S i). rewrite <-ahead_next by done.
        split_and!; [lia|done|]. intros [|j] Hj'; [by rewrite ahead_0|].
        rewrite <-ahead_next by done. apply Hj. lia.
      + intros ([|i] & Hi & Hr & Hj); [rewrite ahead_0 in Hr by done; congruence|].
        exists i. rewrite ahead_next by done. split_and!; [lia|done|].
        intros j Hj'. rewrite ahead_next by done. apply Hj. lia.
Qed.

Lemma probe_None fuel p :
    p < size → probe visit (size - 1) fuel p = None ↔
    ∀ i, (i < fuel)%nat → visit (ahead size p i) = None.
Proof.
    intros Hp. destruct (probe visit (size - 1) fuel p) as [r|] eqn:E.
    - split; [done|]. intros Hn. apply probe_Some in E as (i & Hi & Hr & _); [|done].
      rewrite (Hn i Hi) in Hr. done.
    - split; [|done]. intros _ i. induction i as [i IH] using lt_wf_ind. intros Hi.
      destruct (visit (ahead size p i)) as [r|] eqn:Hv; [|done].
      assert (probe visit (size - 1) fuel p = Some r) as E'; [|congruence].
      apply probe_Some; [done|]. exists i. split_and!; [done|done|].
      intros j Hj. apply IH; lia.
Qed.

(** If some slot stops the walk, the walk stops. *)
Lemma probe_stops p q r :
    p < size → q < size → visit q = Some r →
    is_Some (probe visit (size - 1) (N.to_nat size) p).
Proof.
    intros Hp Hq Hv. destruct (probe visit _ _ p) eqn:E; [done|].
    destruct (ahead_reaches size p q Hp Hq) as (i & Hi & Ha).
    rewrite probe_None in E by done. specialize (E i Hi). rewrite Ha in E. congruence.
Qed.
End probe_facts.

Lemma probe_ext {R} (f g : N → option R) mask fuel p :
  (∀ q, f q = g q) → probe f mask fuel p = probe g mask fuel p.
Proof.
  intros Hfg. revert p. induction fuel as [|fuel IH]; intros p; cbn; [done|].
  rewrite Hfg. destruct (g p); [done|]. apply IH.
Qed.

(** The walk only looks at slots of the table. *)
Lemma probe_ext_lt {R} (f g : N → option R) size fuel p :
  power_of_two size → p < size → (∀ q, q < size → f q = g q) →
  probe f (size - 1) fuel p = probe g (size - 1) fuel p.
Proof.
  intros Hsize Hp Hfg. revert p Hp. induction fuel as [|fuel IH]; intros p Hp; cbn; [done|].
  rewrite Hfg by done. destruct (g p); [done|]. apply IH.
  rewrite land_mask by done. apply N.mod_lt. pose proof (power_of_two_pos _ Hsize). lia.
Qed.

Lemma probe_fmap {R Q} (h : R → Q) (f : N → option R) mask fuel p :
  probe (λ q, h <$> f q) mask fuel p = h <$> probe f mask fuel p.
Proof.
  revert p. induction fuel as [|fuel IH]; intros p; cbn; [done|].
  destruct (f p); cbn; [done|]. apply IH.
Qed.

(** ** Chained tables

    [used p] is the entry in slot [p], if the slot is occupied; [home e] is where a walk
    for [e] starts. *)
Section chained.
Context {E : Type} (size : N) (home : E → N).
Context (Hsize : power_of_two size) (Hhome : ∀ e, home e < size).
Implicit Types (used : N → option E).

Definition chained used : Prop :=
    ∀ p e, p < size → used p = Some e → ∃ d : nat, ahead size (home e) d = p ∧
      (d < N.to_nat size)%nat ∧ ∀ j, (j < d)%nat → is_Some (used (ahead size (home e) j)).

(** The walk that looks for an entry satisfying [matches]. *)
Definition seek used (matches : E → bool) (p : N) : option (option E) :=
    match used p with
    | None => Some None
    | Some e => if matches e then Some (Some e) else None
    end.

Lemma chained_empty : chained (λ _, None).
Proof. by intros p e _ [=]. Qed.

(** An entry that matches, and that is the only one to match, is found. *)
Lemma seek_hit used matches start p e :
    chained used → p < size → used p = Some e → home e = start → matches e = true →
    (∀ q e', q < size → used q = Some e' → matches e' = true → e' = e) →
    probe (seek used matches) (size - 1) (N.to_nat size) start = Some (Some e).
Proof.
    intros Hc Hp Hu <- Hm Huniq. destruct (Hc p e Hp Hu) as (d & Hd & Hlt & Hbefore).
    pose proof (power_of_two_pos _ Hsize) as Hpos.
    assert (Hs : is_Some (probe (seek used matches) (size - 1) (N.to_nat size) (home e))).
    { eapply (probe_stops _ size Hsize _ p); [done|done|]. unfold seek. by rewrite Hu, Hm. }
    destruct Hs as [r Hr]. rewrite Hr. apply probe_Some in Hr as (i & Hi & Hv & Hj); [|done..].
    destruct (decide (d < i)%nat) as [Hdi|Hdi].
    { specialize (Hj d Hdi). unfold seek in Hj. by rewrite Hd, Hu, Hm in Hj. }
    unfold seek in Hv. destruct (used (ahead size (home e) i)) as [e'|] eqn:Hi'.
    - destruct (matches e') eqn:Hm'; simplify_eq. do 2 f_equal.
      exact (Huniq _ _ (ahead_lt size (home e) i Hpos) Hi' Hm').
    - exfalso. destruct (decide (i = d)) as [->|]; [congruence|].
      destruct (Hbefore i) as [? Hs]; [lia|congruence].
Qed.

(** When nothing matches, nothing is found. *)
Lemma seek_miss used matches start :
    start < size → (∀ q e, q < size → used q = Some e → matches e = false) →
    probe (seek used matches) (size - 1) (N.to_nat size) start = Some None ∨
    probe (seek used matches) (size - 1) (N.to_nat size) start = None.
Proof.
    intros Hst Hno. destruct (probe _ _ _ _) as [r|] eqn:Hr; [|by right]. left.
    apply probe_Some in Hr as (i & Hi & Hv & _); [|done..]. unfold seek in Hv.
    destruct (used (ahead size start i)) as [e|] eqn:Hu; [|congruence].
    rewrite (Hno _ _ (ahead_lt size start i (power_of_two_pos _ Hsize)) Hu) in Hv. done.
Qed.

(** Filling the first free slot of the new entry's walk keeps the table chained. *)
Lemma chained_insert used used' e d :
    chained used → used' (ahead size (home e) d) = Some e → (d < N.to_nat size)%nat →
    (∀ q, q < size → q ≠ ahead size (home e) d → used' q = used q) →
    (∀ j, (j < d)%nat → is_Some (used (ahead size (home e) j))) →
    chained used'.
Proof.
    intros Hc Hnew Hd Hold Hbefore p f Hp Hf.
    pose proof (power_of_two_pos _ Hsize) as Hpos.
    assert (Hgrow : ∀ q, q < size → is_Some (used q) → is_Some (used' q)).
    { intros q Hq Hs. destruct (decide (q = ahead size (home e) d)) as [->|]; [by rewrite Hnew|].
      by rewrite Hold. }
    destruct (decide (p = ahead size (home e) d)) as [->|Hne].
    - rewrite Hnew in Hf. simplify_eq. exists d. split_and!; [done|done|].
      intros j Hj. apply Hgrow; [by apply ahead_lt | auto].
    - rewrite Hold in Hf by done. destruct (Hc p f Hp Hf) as (d' & ? & ? & Hb).
      exists d'. split_and!; [done|done|]. intros j Hj. apply Hgrow; [by apply ahead_lt | auto].
Qed.
End chained.

(** ** Counting free slots of a table kept as a list *)
Section free_slots.
Context {S : Type} (P : S → Prop) `{!∀ s, Decision (P s)}.

Definition free_slots (l : list S) : nat := length (filter P l).

Lemma free_slots_insert l i x y :
    l !! i = Some x → P x → ¬ P y → (free_slots l = 1 + free_slots (<[i := y]> l))%nat.
Proof.
    unfold free_slots. intros Hi Hx Hy. rewrite insert_take_drop by eauto using lookup_lt_Some.
    rewrite <-(take_drop_middle l i x Hi) at 1. rewrite !list.filter_app, !list.filter_cons, !length_app.
    rewrite decide_True, decide_False by done. cbn. lia.
Qed.

Lemma free_slots_pos l : (0 < free_slots l)%nat → ∃ i x, l !! i = Some x ∧ P x.
Proof.
    unfold free_slots. intros Hl. destruct (filter P l) as [|x f] eqn:E; [cbn in Hl; lia|].
    assert (x ∈ filter P l) as [Hx Hin]%list_elem_of_filter by (rewrite E; left).
    apply list_elem_of_lookup in Hin as [i ?]. eauto.
Qed.

Lemma free_slots_replicate n x : P x → free_slots (replicate n x) = n.
Proof.
    intros Hx. unfold free_slots. induction n as [|n IH]; [done|]. cbn [replicate].
    rewrite list.filter_cons, decide_True by done. cbn [length]. by rewrite IH.
Qed.
End free_slots.

End Probing.
