(* ===== verification/MappedVector.v ===== *)
(** * Baseline-plus-append storage

    Models server_engine/project/storage/mapped_vector.hpp: an immutable baseline read
    through a callback, an open-addressing cache of materialized (possibly modified)
    baseline records, a cache of contiguous ranges, and an append vector.

    The specification is [contents], the logical sequence of the container: a cached
    record if there is one, else what the reader says, else the append vector.  A call
    that allocates takes what its allocations answer; a failed one is the [catch] branch
    of the code. *)

From S2P Require Import Prelude Probing.
Import Probing.

Local Open Scope N_scope.

Module MappedVector.

(** ** Data *)

Record index_slot : Set := IndexSlot { key : N; position : N }.

#[export] Instance index_slot_eq_dec : EqDecision index_slot.
Proof. solve_decision. Defined.

Definition empty_slot : index_slot := IndexSlot 0 0.

Section mapped_vector.
Context {T : Type} `{!Inhabited T}.

(** [T{}]. *)
Definition initial : T := inhabitant.

(** The callback with its context: the status and the value it writes into [T{}]. *)
Definition reader_type : Type := N → status_code * T.

Record range_block : Type := RangeBlock
  { range_begin : N; range_count : N; range_values : list T }.

Record mapped_vector : Type := MappedVector {
  baseline_count : N;
  reader : option reader_type;
  read_failure : status_code;
  element_cache : list (N * T);       (* element_block: index, value *)
  element_index : list index_slot;
  range_cache : list range_block;
  failure_value : T;
  local : list T;
  local_capacity : N;
}.

Definition mapped_vector_init : mapped_vector :=
  MappedVector 0 None ok [] [] [] initial [] 0.

(** What the allocations of one call answer. *)
Record memory : Set := Memory
  { index_allocated : bool; value_allocated : bool; push_allocated : bool }.
Definition plenty : memory := Memory true true true.

Implicit Types (mv : mapped_vector).

(** ** Size and state *)

Definition bind_baseline mv (count : N) (reader_value : option reader_type) : mapped_vector :=
  MappedVector count reader_value ok [] [] [] (failure_value mv) [] (local_capacity mv).

Definition baseline_backed mv : bool :=
  negb (baseline_count mv =? 0) || match reader mv with Some _ => true | None => false end.

Definition local_size mv : N := N.of_nat (length (local mv)).
Definition size mv : N := baseline_count mv + local_size mv.
Definition empty mv : bool := size mv =? 0.
Definition capacity mv : N := baseline_count mv + local_capacity mv.
Definition materialized_baseline_records mv : N := N.of_nat (length (element_cache mv)).

(** Saturating sum of the record slots held on the heap. *)
Fixpoint add_ranges (result : N) (ranges : list range_block) : N :=
  match ranges with
  | [] => result
  | r :: rest =>
      if (two64 - 1) - result <? range_count r then two64 - 1
      else add_ranges (result + range_count r) rest
  end.

Definition heap_record_capacity mv : N :=
  add_ranges (w64 (local_capacity mv + materialized_baseline_records mv)) (range_cache mv).

(** ** The element cache *)

Definition home (table : list index_slot) (k : N) : N :=
  N.land (mix64 k) (N.of_nat (length table) - 1).

(** The pointer into the cache, as a position of [element_cache]. *)
Definition find_element mv (index : N) : option nat :=
  match element_index mv with
  | [] => None
  | table =>
      let k := w64 (index + 1) in
      let visit p :=
        match table !! N.to_nat p with
        | None => None
        | Some slot =>
            if key slot =? 0 then Some None
            else if key slot =? k then
              let cache_index := N.to_nat (position slot - 1) in
              Some (if bool_decide (cache_index < length (element_cache mv))%nat
                    then Some cache_index else None)
            else None
        end in
      default None (probe visit (N.of_nat (length table) - 1) (length table) (home table k))
  end.

(** [*existing]. *)
Definition find_value mv (index : N) : option T :=
  i ← find_element mv index;
  snd <$> element_cache mv !! i.

(** [while (table[position].key != 0) position = (position + 1) & mask;] followed by the
    store.  [None] is a walk that would not end. *)
Definition insert_slot (table : list index_slot) (slot : index_slot) : option (list index_slot) :=
  let visit p :=
    match table !! N.to_nat p with
    | Some s => if key s =? 0 then Some p else None
    | None => None
    end in
  match probe visit (N.of_nat (length table) - 1) (length table) (home table (key slot)) with
  | Some p => Some (<[N.to_nat p := slot]> table)
  | None => None
  end.

(** The loop that re-inserts the cache into the replacement table. *)
Fixpoint reinsert (cache : list (N * T)) (position : N) (table : list index_slot) :
    option (list index_slot) :=
  match cache with
  | [] => Some table
  | e :: rest =>
      match insert_slot table (IndexSlot (w64 (e.1 + 1)) (position + 1)) with
      | Some table' => reinsert rest (position + 1) table'
      | None => None
      end
  end.

Definition bit_ceil (n : N) : N := 2 ^ N.log2_up n.

(** [None] is an exception: too many records, or no memory. *)
Definition ensure_element_index (allocated : bool) mv : option (list index_slot) :=
  let n := N.of_nat (length (element_cache mv)) in
  let table := element_index mv in
  if negb (bool_decide (table = [])) && ((n + 1) * 2 <? N.of_nat (length table))
  then Some table
  else
    let required := n + 1 in
    if (two64 - 1) / 2 <? required then None
    else if negb allocated then None
    else
      let minimum := if required * 2 <? 8 then 8 else required * 2 in
      reinsert (element_cache mv) 0 (replicate (N.to_nat (bit_ceil minimum)) empty_slot).

(** ** References *)

(** Where a returned reference points. *)
Inductive place : Set := InCache (i : nat) | InLocal (i : nat) | InFailure.

#[export] Instance place_eq_dec : EqDecision place.
Proof. solve_decision. Defined.

Definition deref mv (p : place) : T :=
  match p with
  | InCache i => default initial (snd <$> element_cache mv !! i)
  | InLocal i => default initial (local mv !! i)
  | InFailure => failure_value mv
  end.

Definition assign_place mv (p : place) (v : T) : mapped_vector :=
  match p with
  | InCache i =>
      MappedVector (baseline_count mv) (reader mv) (read_failure mv)
        (alter (λ e, (e.1, v)) i (element_cache mv)) (element_index mv) (range_cache mv)
        (failure_value mv) (local mv) (local_capacity mv)
  | InLocal i =>
      MappedVector (baseline_count mv) (reader mv) (read_failure mv) (element_cache mv)
        (element_index mv) (range_cache mv) (failure_value mv) (<[i := v]> (local mv))
        (local_capacity mv)
  | InFailure =>
      MappedVector (baseline_count mv) (reader mv) (read_failure mv) (element_cache mv)
        (element_index mv) (range_cache mv) v (local mv) (local_capacity mv)
  end.

(** [if (read_failure.ok()) read_failure = s;] *)
Definition note_failure mv (s : status_code) : mapped_vector :=
  MappedVector (baseline_count mv) (reader mv)
    (if status_ok (read_failure mv) then s else read_failure mv)
    (element_cache mv) (element_index mv) (range_cache mv) (failure_value mv) (local mv)
    (local_capacity mv).

Definition clear_failure_value mv : mapped_vector :=
  MappedVector (baseline_count mv) (reader mv) (read_failure mv) (element_cache mv)
    (element_index mv) (range_cache mv) initial (local mv) (local_capacity mv).

Definition set_element_index mv (table : list index_slot) : mapped_vector :=
  MappedVector (baseline_count mv) (reader mv) (read_failure mv) (element_cache mv)
    table (range_cache mv) (failure_value mv) (local mv) (local_capacity mv).

Definition read_baseline mv (index : N) : status_code * T :=
  match reader mv with Some r => r index | None => (invalid_state, initial) end.

(** [None] is a walk of the insertion loop that would not end. *)
Definition materialize_element (mem : memory) mv (index : N) :
    option (mapped_vector * place) :=
  match find_element mv index with
  | Some i => Some (mv, InCache i)
  | None =>
      let out_of_memory mv' :=
        Some (clear_failure_value (note_failure mv' not_available), InFailure) in
      match ensure_element_index (index_allocated mem) mv with
      | None => out_of_memory mv
      | Some table =>
          let mv1 := set_element_index mv table in
          if negb (value_allocated mem) then out_of_memory mv1
          else
            let '(result, value) := read_baseline mv1 index in
            if negb (status_ok result)
            then Some (clear_failure_value (note_failure mv1 result), InFailure)
            else if negb (push_allocated mem) then out_of_memory mv1
            else
              let cache := element_cache mv1 ++ [(index, value)] in
              match insert_slot table
                      (IndexSlot (w64 (index + 1)) (N.of_nat (length cache))) with
              | None => None
              | Some table' =>
                  Some (MappedVector (baseline_count mv1) (reader mv1) (read_failure mv1)
                    cache table' (range_cache mv1) (failure_value mv1) (local mv1)
                    (local_capacity mv1), InCache (length (element_cache mv1)))
              end
      end
  end.

Definition in_range (index : N) (r : range_block) : bool :=
  (range_begin r <=? index) && (index - range_begin r <? range_count r).

Definition invalidate_ranges_containing mv (index : N) : mapped_vector :=
  MappedVector (baseline_count mv) (reader mv) (read_failure mv) (element_cache mv)
    (element_index mv) (filter (λ r, in_range index r = false) (range_cache mv))
    (failure_value mv) (local mv) (local_capacity mv).

(** [operator[](std::size_t) const] and its mutable overload. *)
Definition at_const (mem : memory) mv (index : N) : option (mapped_vector * place) :=
  if baseline_count mv <=? index
  then Some (mv, InLocal (N.to_nat (index - baseline_count mv)))
  else materialize_element mem mv index.

Definition at_mutable (mem : memory) mv (index : N) : option (mapped_vector * place) :=
  if baseline_count mv <=? index
  then Some (mv, InLocal (N.to_nat (index - baseline_count mv)))
  else materialize_element mem (invalidate_ranges_containing mv index) index.

(** [values[index] = v]. *)
Definition store (mem : memory) mv (index : N) (v : T) : option mapped_vector :=
  '(mv', p) ← at_mutable mem mv index;
  Some (assign_place mv' p v).

(** ** Reading *)

Definition read mv (index : N) : status_code * T :=
  if size mv <=? index then (not_found, initial)
  else if baseline_count mv <=? index
  then (ok, default initial (local mv !! N.to_nat (index - baseline_count mv)))
  else
    match find_value mv index with
    | Some v => (ok, v)
    | None => read_baseline mv index
    end.

Definition materialized mv (index : N) : option T :=
  if size mv <=? index then None
  else if baseline_count mv <=? index then local mv !! N.to_nat (index - baseline_count mv)
  else find_value mv index.

(** The copy loop of [span]: the first record that cannot be read stops it. *)
Fixpoint collect mv (index : N) (count : nat) : status_code * list T :=
  match count with
  | O => (ok, [])
  | S count' =>
      let '(result, v) :=
        match find_value mv index with Some v => (ok, v) | None => read_baseline mv index end in
      if status_ok result
      then let '(result', vs) := collect mv (index + 1) count' in (result', v :: vs)
      else (result, [])
  end.

Definition span (mem : memory) mv (begin_value count_value : N) : mapped_vector * list T :=
  if count_value =? 0 then (mv, [])
  else if (size mv <? begin_value) || (size mv - begin_value <? count_value) then (mv, [])
  else if baseline_count mv <=? begin_value
  then (mv, take (N.to_nat count_value) (drop (N.to_nat (begin_value - baseline_count mv)) (local mv)))
  else if baseline_count mv <? begin_value + count_value then (mv, [])
  else
    match list_find (λ r, range_begin r = begin_value ∧ range_count r = count_value)
            (range_cache mv) with
    | Some (_, r) => (mv, range_values r)
    | None =>
        if negb (value_allocated mem) then (note_failure mv not_available, [])
        else
          let '(result, vs) := collect mv begin_value (N.to_nat count_value) in
          if negb (status_ok result) then (note_failure mv result, [])
          else if negb (push_allocated mem) then (note_failure mv not_available, [])
          else
            (MappedVector (baseline_count mv) (reader mv) (read_failure mv) (element_cache mv)
               (element_index mv) (range_cache mv ++ [RangeBlock begin_value count_value vs])
               (failure_value mv) (local mv) (local_capacity mv), vs)
    end.

(** The loop of [copy_all] over the baseline. *)
Fixpoint copy_baseline (mem : N → memory) mv (index : N) (count : nat) :
    option (mapped_vector * list T) :=
  match count with
  | O => Some (mv, [])
  | S count' =>
      '(mv1, p) ← materialize_element (mem index) mv index;
      '(mv2, vs) ← copy_baseline mem mv1 (index + 1) count';
      Some (mv2, deref mv1 p :: vs)
  end.

Definition copy_all (mem : N → memory) (output_allocated : bool) mv :
    option (mapped_vector * status_code * list T) :=
  if negb output_allocated then Some (mv, not_available, [])
  else
    '(mv', vs) ← copy_baseline mem mv 0 (N.to_nat (baseline_count mv));
    Some (mv', read_failure mv', vs ++ local mv').

(** ** Appending and replacing *)

Definition set_local mv (values : list T) (cap : N) : mapped_vector :=
  MappedVector (baseline_count mv) (reader mv) (read_failure mv) (element_cache mv)
    (element_index mv) (range_cache mv) (failure_value mv) values cap.

(** The capacity a [std::vector] of the given capacity has once it must hold [n] elements;
    the growth is the standard library's choice, so the operations that grow take it. *)
Abbreviation growth := (N → N → N).

Definition reserve (grown : growth) mv (requested : N) : mapped_vector :=
  let local_requested :=
    if baseline_count mv <? requested then requested - baseline_count mv else 0 in
  set_local mv (local mv) (grown (local_capacity mv) local_requested).

Definition push_back (grown : growth) mv (v : T) : mapped_vector :=
  set_local mv (local mv ++ [v]) (grown (local_capacity mv) (local_size mv + 1)).

Definition resize_list (n : nat) (l : list T) : list T :=
  take n l ++ replicate (n - length l) initial.

(** [None] is [std::length_error]. *)
Definition resize (grown : growth) mv (requested : N) : option mapped_vector :=
  let to n := set_local mv (resize_list (N.to_nat n) (local mv)) (grown (local_capacity mv) n) in
  if negb (baseline_backed mv) then Some (to requested)
  else if requested <? baseline_count mv then None
  else Some (to (requested - baseline_count mv)).

Definition clear mv : mapped_vector :=
  MappedVector (if baseline_backed mv then baseline_count mv else 0) (reader mv) ok [] [] []
    (failure_value mv) [] (local_capacity mv).

Definition assign (grown : growth) mv (count : N) (v : T) : option mapped_vector :=
  if baseline_backed mv then None
  else Some (set_local mv (replicate (N.to_nat count) v) (grown (local_capacity mv) count)).

(** [swap(std::vector<T>&)]: the new container, and the vector handed back. *)
Definition swap_vector mv (values : list T) (cap : N) : mapped_vector * list T :=
  (MappedVector 0 None ok [] [] [] (failure_value mv) values cap, local mv).

Definition release_local_values mv : mapped_vector * list T :=
  if baseline_backed mv then (mv, [])
  else (MappedVector 0 None ok [] [] [] (failure_value mv) [] 0, local mv).

Definition for_each_materialized mv {A} (f : N → T → A) : list A :=
  (λ e, f e.1 e.2) <$> element_cache mv.

(** [mapped_vector_view::operator[]]. *)
Definition view_at mv (index : N) : T := (read mv index).2.

(** ** Specification *)

(** The cache, read as an association list. *)
Definition cached mv (index : N) : option T :=
  snd <$> (snd <$> list_find (λ e, e.1 = index) (element_cache mv)).

(** The logical sequence; [None] past the end, or where the reader fails. *)
Definition contents mv (index : N) : option T :=
  if baseline_count mv <=? index then local mv !! N.to_nat (index - baseline_count mv)
  else
    match cached mv index with
    | Some v => Some v
    | None => match read_baseline mv index with (ok, v) => Some v | _ => None end
    end.

(** The index table holds exactly the cache. *)
Definition used (table : list index_slot) (p : N) : option index_slot :=
  match table !! N.to_nat p with
  | Some s => if key s =? 0 then None else Some s
  | None => None
  end.

Record index_of (cache : list (N * T)) (table : list index_slot) : Prop := IndexOf {
  io_size : power_of_two (N.of_nat (length table));
  io_chained : chained (N.of_nat (length table)) (λ s, home table (key s)) (used table);
  io_sound p s : table !! p = Some s → key s ≠ 0 →
    ∃ i e, position s = N.of_nat i + 1 ∧ cache !! i = Some e ∧ key s = e.1 + 1;
  io_complete i e : cache !! i = Some e →
    ∃ p, table !! p = Some (IndexSlot (e.1 + 1) (N.of_nat i + 1));
  io_count : (free_slots (λ s, key s = 0%N) table + length cache = length table)%nat;
}.

Record wf mv : Prop := Wf {
  wf_baseline : baseline_count mv < two64;
  wf_keys : NoDup (element_cache mv).*1;
  wf_bound : Forall (λ e, e.1 < baseline_count mv) (element_cache mv);
  wf_index : if decide (element_index mv = []) then element_cache mv = []
             else index_of (element_cache mv) (element_index mv) ∧
                  (2 * length (element_cache mv) <= length (element_index mv))%nat;
  wf_ranges r : r ∈ range_cache mv →
    range_begin r + range_count r <= baseline_count mv ∧
    length (range_values r) = N.to_nat (range_count r) ∧
    ∀ o, (o < N.to_nat (range_count r))%nat →
      range_values r !! o = contents mv (range_begin r + N.of_nat o);
}.

(** ** The index table *)

Lemma home_lt table k : 0 < N.of_nat (length table) → power_of_two (N.of_nat (length table)) →
  home table k < N.of_nat (length table).
Proof. intros Hp Hs. unfold home. rewrite land_mask by done. apply N.mod_lt. lia. Qed.

Lemma index_of_pos (cache : list (N * T)) table :
  index_of cache table → 0 < N.of_nat (length table).
Proof. intros I. apply power_of_two_pos, (io_size _ _ I). Qed.

Lemma index_of_home cache table k : index_of cache table →
  home table k < N.of_nat (length table).
Proof. intros I. apply home_lt; [by eapply index_of_pos|apply (io_size _ _ I)]. Qed.
#[local] Hint Resolve index_of_pos index_of_home : core.

Lemma used_Some table p s : used table p = Some s ↔ table !! N.to_nat p = Some s ∧ key s ≠ 0.
Proof.
  unfold used. destruct (table !! N.to_nat p) as [s'|]; [|naive_solver].
  destruct (N.eqb_spec (key s') 0); naive_solver.
Qed.

Lemma list_find_keys (cache : list (N * T)) i e :
  NoDup cache.*1 → cache !! i = Some e → list_find (λ x, x.1 = e.1) cache = Some (i, e).
Proof.
  intros Hnd Hi. apply list_find_Some. split_and!; [done|done|].
  intros j x Hj Hlt Hx. assert (j = i); [|lia].
  apply (NoDup_lookup_inj cache.*1 _ _ e.1); [done| |]; rewrite list_lookup_fmap.
  - rewrite Hj. cbn. by rewrite Hx.
  - by rewrite Hi.
Qed.

Lemma list_find_key (cache : list (N * T)) i k v :
  NoDup cache.*1 → cache !! i = Some (k, v) → list_find (λ x, x.1 = k) cache = Some (i, (k, v)).
Proof. intros Hnd Hi. exact (list_find_keys cache i (k, v) Hnd Hi). Qed.

Lemma find_in_table (cache : list (N * T)) table n index :
  index_of cache table → NoDup cache.*1 → index + 1 < two64 →
  n = N.of_nat (length table) →
  default None (probe (λ p, match table !! N.to_nat p with
    | None => None
    | Some slot =>
        if key slot =? 0 then Some None
        else if key slot =? w64 (index + 1) then
          Some (if bool_decide (N.to_nat (position slot - 1) < length cache)%nat
                then Some (N.to_nat (position slot - 1)) else None)
        else None
    end) (n - 1) (length table) (home table (w64 (index + 1)))) =
  fst <$> list_find (λ e, e.1 = index) cache.
Proof.
  intros I Hnd Hidx ->. rewrite (w64_small (index + 1)) by lia.
  set (f := λ s : index_slot, N.to_nat (position s - 1)).
  set (matches := λ s, key s =? index + 1).
  assert (Hseek : ∀ p, p < N.of_nat (length table) →
    match table !! N.to_nat p with
    | None => None
    | Some slot =>
        if key slot =? 0 then Some None
        else if key slot =? index + 1 then
          Some (if bool_decide (f slot < length cache)%nat then Some (f slot) else None)
        else None
    end = (λ o : option index_slot, (f <$> o : option nat)) <$> (seek (used table) matches p : option (option index_slot))).
  { intros p Hp. unfold seek, used.
    destruct (lookup_lt_is_Some_2 table (N.to_nat p)) as [s Hs]; [lia|]. rewrite Hs.
    destruct (N.eqb_spec (key s) 0); [done|]. unfold matches.
    destruct (N.eqb_spec (key s) (index + 1)) as [Hk|]; cbn; [|done].
    destruct (io_sound _ _ I _ _ Hs) as (i & e & Hpos & Hi & _); [done|].
    rewrite bool_decide_eq_true_2; [done|]. unfold f. rewrite Hpos.
    apply lookup_lt_Some in Hi. lia. }
  unfold f in Hseek. rewrite (probe_ext_lt _ _ _ _ _ (io_size _ _ I) ltac:(eauto) Hseek), probe_fmap.
  destruct (list_find _ cache) as [[i e]|] eqn:Hfind.
  - apply list_find_Some in Hfind as (Hi & <- & _).
    destruct (io_complete _ _ I i e Hi) as [p Hp].
    assert (Hlt := lookup_lt_Some _ _ _ Hp).
    assert (Hu : used table (N.of_nat p) = Some (IndexSlot (e.1 + 1) (N.of_nat i + 1))).
    { apply used_Some. rewrite Nat2N.id. split; [done|]. cbn. lia. }
    replace (length table) with (N.to_nat (N.of_nat (length table))) at 2 by lia.
    rewrite (seek_hit (N.of_nat (length table)) (λ s, home table (key s)) (io_size _ _ I)
      (λ s, index_of_home _ _ _ I) (used table) matches (home table (e.1 + 1))
      (N.of_nat p) (IndexSlot (e.1 + 1) (N.of_nat i + 1)) (io_chained _ _ I));
      [|lia|done|done|apply N.eqb_refl|].
    { cbn. f_equal. lia. }
    intros q s Hq [Hs Hk]%used_Some Hm. unfold matches in Hm. bools.
    destruct (io_sound _ _ I _ _ Hs Hk) as (i' & e' & Hpos & Hi' & He').
    assert (i' = i) as ->.
    { apply (NoDup_lookup_inj cache.*1 _ _ e.1); [done| |]; rewrite list_lookup_fmap;
        rewrite ?Hi, ?Hi'; cbn; [f_equal; lia|done]. }
    destruct s; cbn in *. by f_equal.
  - apply list_find_None in Hfind. rewrite Forall_forall in Hfind.
    replace (length table) with (N.to_nat (N.of_nat (length table))) at 2 by lia.
    destruct (seek_miss (N.of_nat (length table)) (io_size _ _ I) (used table) matches (home table (index + 1))) as [->| ->]; [eauto| |done|done].
    intros q s Hq [Hs Hk]%used_Some. unfold matches. apply N.eqb_neq. intros Hkey.
    destruct (io_sound _ _ I _ _ Hs Hk) as (i & e & _ & Hi & He).
    apply (Hfind e); [by eapply list_elem_of_lookup_2|]. lia.
Qed.

(** Inserting a new key at the first free slot. *)
Lemma insert_slot_spec (cache : list (N * T)) table e :
  index_of cache table → e.1 ∉ cache.*1 → (0 < free_slots (λ s, key s = 0%N) table)%nat →
  ∃ table', insert_slot table (IndexSlot (e.1 + 1) (N.of_nat (length cache) + 1)) = Some table' ∧
    length table' = length table ∧ index_of (cache ++ [e]) table'.
Proof.
  intros I Hfresh Hfree. set (slot := IndexSlot (e.1 + 1) (N.of_nat (length cache) + 1)).
  pose proof (index_of_pos _ _ I) as Hpos.
  destruct (free_slots_pos _ _ Hfree) as (q & s0 & Hq & Hs0).
  unfold insert_slot. set (visit := λ p : N, match table !! N.to_nat p with
    | Some s => if key s =? 0 then Some p else None
    | None => None
    end).
  destruct (probe_stops visit _ (io_size _ _ I) (home table (key slot)) (N.of_nat q) (N.of_nat q))
    as [p Hp]; [eauto|apply lookup_lt_Some in Hq; lia| |].
  { unfold visit. rewrite Nat2N.id, Hq, Hs0. done. }
  rewrite Nat2N.id in Hp. rewrite Hp. eexists. split; [done|]. split; [apply length_insert|].
  apply probe_Some in Hp as (d & Hd & Hv & Hbefore); [|apply (io_size _ _ I)|eauto].
  unfold visit in Hv. destruct (table !! N.to_nat (ahead _ _ d)) as [s|] eqn:Hs; [|done].
  destruct (N.eqb_spec (key s) 0) as [Hk|]; [|done].
  assert (ahead (N.of_nat (length table)) (home table (key slot)) d = p) as Hv' by congruence.
  clear Hv. rename Hv' into Hv. rewrite Hv in Hs.
  assert (Hused : ∀ r, r ≠ p → used (<[N.to_nat p:=slot]> table) r = used table r).
  { intros r Hr. unfold used. rewrite list_lookup_insert_ne by lia. done. }
  assert (Hlt := lookup_lt_Some _ _ _ Hs). constructor.
  - rewrite length_insert. apply (io_size _ _ I).
  - rewrite length_insert.
    assert (Hh : ∀ k, home (<[N.to_nat p:=slot]> table) k = home table k)
      by (intros k; unfold home; by rewrite length_insert).
    assert (Hc : chained (N.of_nat (length table)) (λ s, home table (key s))
      (used (<[N.to_nat p:=slot]> table))).
    { eapply (chained_insert _ _ (io_size _ _ I)) with (e := slot) (d := d) (used := used table).
      - apply (io_chained _ _ I).
      - rewrite Hv. apply used_Some. rewrite list_lookup_insert_eq by done. cbn. split; [done|lia].
      - lia.
      - intros r _ Hr. apply Hused. congruence.
      - intros j Hj. specialize (Hbefore j Hj). unfold visit in Hbefore. unfold used.
        destruct (lookup_lt_is_Some_2 table
          (N.to_nat (ahead (N.of_nat (length table)) (home table (key slot)) j))) as [s' Hs'].
        { pose proof (ahead_lt (N.of_nat (length table)) (home table (key slot)) j Hpos). lia. }
        rewrite Hs' in *. destruct (key s' =? 0); [done|]. eauto. }
    intros r f Hr Hf. destruct (Hc r f Hr Hf) as (d' & ? & ? & ?). exists d'. by rewrite Hh.
  - intros r f [(<- & <- & _)|[_ Hf]]%list_lookup_insert_Some Hkey.
    + exists (length cache), e. cbn. rewrite lookup_app_r, Nat.sub_diag by lia. done.
    + destruct (io_sound _ _ I _ _ Hf Hkey) as (i & e' & ? & Hi & ?).
      exists i, e'. split_and!; [done| |done]. by apply lookup_app_l_Some.
  - intros i f [[? Hi]|[-> ->]]%lookup_snoc_Some_inv.
    + destruct (io_complete _ _ I i f Hi) as [r Hr]. exists r.
      rewrite list_lookup_insert_ne; [done|]. intros Hne. rewrite <-Hne, Hs in Hr. simplify_eq/=. lia.
    + exists (N.to_nat p). by rewrite list_lookup_insert_eq.
  - pose proof (free_slots_insert (λ s, key s = 0%N) table _ _ slot Hs Hk ltac:(cbn; lia)).
    pose proof (io_count _ _ I). rewrite length_insert, length_app. cbn. lia.
Qed.

Lemma index_of_empty n : power_of_two (N.of_nat n) → index_of [] (replicate n empty_slot).
Proof.
  intros Hn. constructor.
  - by rewrite length_replicate.
  - intros p s _ [Hs Hk]%used_Some. apply lookup_replicate in Hs as [-> _]. done.
  - intros p s Hs Hk. apply lookup_replicate in Hs as [-> _]. done.
  - by intros i e Hi.
  - rewrite free_slots_replicate by done. rewrite length_replicate. cbn. lia.
Qed.

(** The rebuilding loop re-inserts every cached record. *)
Lemma reinsert_spec (rest done : list (N * T)) table :
  index_of done table → NoDup (done ++ rest).*1 →
  Forall (λ e, e.1 + 1 < two64) rest →
  (length rest <= free_slots (λ s, key s = 0%N) table)%nat →
  ∃ table', reinsert rest (N.of_nat (length done)) table = Some table' ∧
    length table' = length table ∧ index_of (done ++ rest) table'.
Proof.
  revert done table. induction rest as [|e rest IH]; intros done table I Hnd Hb Hfree.
  { exists table. by rewrite app_nil_r. }
  inversion Hb as [|? ? He Hrest]; subst. cbn [reinsert]. rewrite w64_small by done.
  rewrite fmap_app, fmap_cons in Hnd.
  assert (e.1 ∉ done.*1) as Hfresh.
  { apply NoDup_app in Hnd as (_ & Hd & _). intros Hin. apply (Hd _ Hin). left. }
  destruct (insert_slot_spec done table e I Hfresh) as (t1 & -> & Hl1 & I1); [cbn in Hfree; lia|].
  replace (N.of_nat (length done) + 1) with (N.of_nat (length (done ++ [e])))
    by (rewrite length_app; cbn; lia).
  destruct (IH (done ++ [e]) t1 I1) as (t2 & -> & Hl2 & I2).
  - rewrite <-app_assoc. cbn. by rewrite fmap_app, fmap_cons.
  - done.
  - pose proof (io_count _ _ I). pose proof (io_count _ _ I1) as Hc.
    rewrite length_app in Hc. cbn in *. lia.
  - exists t2. rewrite <-app_assoc in I2. split_and!; [done|lia|done].
Qed.

Lemma bit_ceil_pow2 n : power_of_two (bit_ceil n).
Proof. by eexists. Qed.

Lemma bit_ceil_ge n : 0 < n → n <= bit_ceil n.
Proof.
  intros. unfold bit_ceil. destruct (N.eq_dec n 1) as [->|]; [done|].
  apply N.log2_up_spec. lia.
Qed.

(** The element index is there, with a free slot for one more record. *)
Lemma ensure_element_index_spec allocated mv table :
  wf mv → ensure_element_index allocated mv = Some table →
  index_of (element_cache mv) table ∧
  (2 * (length (element_cache mv) + 1) <= length table)%nat.
Proof.
  intros W. unfold ensure_element_index. set (n := N.of_nat (length (element_cache mv))).
  destruct (negb _ && _) eqn:E.
  { intros [= <-]. bools. rewrite bool_decide_eq_false in H. pose proof (wf_index _ W) as Hi.
    rewrite decide_False in Hi by done. split; [apply Hi|]. lia. }
  clear E. destruct (_ <? n + 1); [done|]. destruct allocated; [|done]. cbn [negb].
  set (minimum := if (n + 1) * 2 <? 8 then 8 else (n + 1) * 2). intros Hr.
  assert (Hm : 2 * (n + 1) <= minimum) by (unfold minimum; destruct (N.ltb_spec ((n + 1) * 2) 8); lia).
  pose proof (bit_ceil_ge minimum ltac:(lia)) as Hge.
  destruct (reinsert_spec (element_cache mv) [] (replicate (N.to_nat (bit_ceil minimum)) empty_slot))
    as (table' & Hr' & Hl & I).
  - apply index_of_empty. rewrite N2Nat.id. apply bit_ceil_pow2.
  - apply (wf_keys _ W).
  - eapply Forall_impl; [apply (wf_bound _ W)|]. intros e He. cbn in He.
    pose proof (wf_baseline _ W). lia.
  - rewrite free_slots_replicate by done. lia.
  - cbn in Hr'. change (N.of_nat 0) with 0 in Hr'. rewrite Hr in Hr'. simplify_eq.
    split; [done|]. rewrite Hl, length_replicate. lia.
Qed.

(** ** Materializing *)

Lemma status_ok_false (s : status_code) : status_ok s = false ↔ s ≠ ok.
Proof. by destruct s. Qed.

Lemma note_failure_stops mv s : s ≠ ok → status_ok (read_failure (note_failure mv s)) = false.
Proof. intros Hs. cbn. destruct (status_ok (read_failure mv)) eqn:E; [by apply status_ok_false|done]. Qed.

Lemma contents_ext mv mv' index :
  baseline_count mv' = baseline_count mv → reader mv' = reader mv → local mv' = local mv →
  cached mv' index = cached mv index → contents mv' index = contents mv index.
Proof. intros Hb Hr Hl Hc. unfold contents, read_baseline. by rewrite Hb, Hr, Hl, Hc. Qed.

Lemma cached_snoc mv mv' (e : N * T) index : element_cache mv' = element_cache mv ++ [e] →
  cached mv' index =
    match cached mv index with
    | Some v => Some v
    | None => if decide (e.1 = index) then Some e.2 else None
    end.
Proof.
  intros He. unfold cached. rewrite He. destruct (list_find _ (element_cache mv)) as [[i f]|] eqn:E.
  - by rewrite (list_find_app_l _ _ _ _ _ E).
  - rewrite list_find_app_r by done. cbn. by case_decide.
Qed.

Lemma cached_fresh mv (e : N * T) : NoDup (element_cache mv).*1 → cached mv e.1 = None →
  e.1 ∉ (element_cache mv).*1.
Proof.
  intros Hnd Hc Hin. apply list_elem_of_fmap in Hin as (f & He & Hf).
  apply list_elem_of_lookup in Hf as [i Hi]. unfold cached in Hc.
  by rewrite He, (list_find_keys _ i f) in Hc.
Qed.

(** The cache lookup of the code finds exactly the cached record. *)
Lemma find_element_list mv index : wf mv → index < baseline_count mv →
  find_element mv index = fst <$> list_find (λ e, e.1 = index) (element_cache mv).
Proof.
  intros W Hlt. unfold find_element. pose proof (wf_index _ W) as Hi.
  pose proof (wf_baseline _ W). destruct (element_index mv) as [|s l] eqn:E.
  - rewrite decide_True in Hi by done. by rewrite Hi.
  - rewrite decide_False in Hi by done. destruct Hi as [I _].
    apply (find_in_table _ _ _ _ I); [apply (wf_keys _ W)|lia|done].
Qed.

Lemma find_value_cached mv index : wf mv → index < baseline_count mv →
  find_value mv index = cached mv index.
Proof.
  intros W Hlt. unfold find_value, cached. rewrite find_element_list by done.
  destruct (list_find _ _) as [[i e]|] eqn:E; [|done]. cbn.
  apply list_find_Some in E as (Hi & _). by rewrite Hi.
Qed.

(** What no read changes. *)
Record same_frame mv mv' : Prop := SameFrame {
  sf_baseline : baseline_count mv' = baseline_count mv;
  sf_reader : reader mv' = reader mv;
  sf_local : local mv' = local mv;
  sf_contents index : contents mv' index = contents mv index;
}.

Lemma wf_same_frame mv mv' : wf mv → same_frame mv mv' →
  element_cache mv' = element_cache mv → element_index mv' = element_index mv →
  (∀ r, r ∈ range_cache mv' → r ∈ range_cache mv) → wf mv'.
Proof.
  intros W F Hc Hi Hr. constructor; rewrite ?Hc, ?Hi, ?(sf_baseline _ _ F); try apply W.
  intros r Hin. destruct (wf_ranges _ W r (Hr _ Hin)) as (? & ? & Ho). split_and!; [done..|].
  intros o Hlt. rewrite (sf_contents _ _ F). by apply Ho.
Qed.

Lemma same_frame_cache mv mv' :
  baseline_count mv' = baseline_count mv → reader mv' = reader mv → local mv' = local mv →
  element_cache mv' = element_cache mv → same_frame mv mv'.
Proof.
  intros ??? Hc. constructor; [done..|]. intros index. apply contents_ext; [done..|].
  unfold cached. by rewrite Hc.
Qed.

(** How a materialization ends: with the record, or with a noted failure. *)
Definition materialized_at mv mv' index (p : place) : Prop :=
  match p with
  | InCache i => ∃ v, element_cache mv' !! i = Some (index, v) ∧ contents mv index = Some v
  | InLocal _ => False
  | InFailure => status_ok (read_failure mv') = false ∧ failure_value mv' = initial
  end.

(** The new record at the end of the cache. *)
Lemma wf_append mv mv' table index v :
  wf mv → index < baseline_count mv → cached mv index = None →
  read_baseline mv index = (ok, v) →
  baseline_count mv' = baseline_count mv → reader mv' = reader mv → local mv' = local mv →
  range_cache mv' = range_cache mv →
  element_cache mv' = element_cache mv ++ [(index, v)] → element_index mv' = table →
  index_of (element_cache mv') table →
  (2 * length (element_cache mv') <= length table)%nat →
  wf mv' ∧ same_frame mv mv'.
Proof.
  intros W Hlt Hc Hread Hb Hr Hl Hrc He Hi I Hload.
  assert (F : same_frame mv mv').
  { constructor; [done..|]. intros j. unfold contents, read_baseline at 1.
    rewrite Hb, Hr, Hl, (cached_snoc _ _ _ _ He). cbn [fst snd]. case_match; [done|].
    destruct (cached mv j) eqn:Hj; [done|]. destruct (decide (index = j)) as [<-|].
    - by rewrite Hread.
    - done. }
  split; [|done]. pose proof (cached_fresh mv (index, v) (wf_keys _ W) Hc). constructor.
  - rewrite Hb. apply W.
  - rewrite He, fmap_app. apply NoDup_app. split_and!; [apply W|set_solver|apply NoDup_singleton].
  - rewrite He, Hb. apply Forall_app. split; [apply W|by constructor].
  - rewrite Hi, decide_False; [done|]. intros Hn. rewrite Hn, He, length_app in Hload. cbn in Hload. lia.
  - intros r. rewrite Hrc, Hb. intros Hin. destruct (wf_ranges _ W r Hin) as (? & ? & Ho).
    split_and!; [done..|]. intros o Hlto. rewrite (sf_contents _ _ F). by apply Ho.
Qed.

(** The table [ensure_element_index] returns may replace the old one. *)
Lemma wf_set_element_index mv table : wf mv → index_of (element_cache mv) table →
  (2 * (length (element_cache mv) + 1) <= length table)%nat →
  wf (set_element_index mv table) ∧ same_frame mv (set_element_index mv table).
Proof.
  intros W I Hload. assert (F : same_frame mv (set_element_index mv table))
    by by apply same_frame_cache. split; [|done].
  constructor; cbn; try apply W. rewrite decide_False.
  - split; [done|lia].
  - intros ->. cbn in Hload. lia.
Qed.

Lemma wf_failed mv s : wf mv → s ≠ ok →
  let mv' := clear_failure_value (note_failure mv s) in
  wf mv' ∧ same_frame mv mv' ∧ materialized_at mv mv' 0 InFailure.
Proof.
  intros W Hs mv'. assert (F : same_frame mv mv') by by apply same_frame_cache.
  split_and!; [|done|split; [apply (note_failure_stops _ _ Hs)|done]].
  eapply wf_same_frame; [apply W|done..|]. by cbn.
Qed.

Lemma same_frame_trans mv1 mv2 mv3 : same_frame mv1 mv2 → same_frame mv2 mv3 → same_frame mv1 mv3.
Proof.
  intros [H1 H2 H3 H4] [G1 G2 G3 G4]. constructor; [congruence..|]. intros i. by rewrite G4, H4.
Qed.

Lemma materialize_element_ok mem mv index : wf mv → index < baseline_count mv →
  ∃ mv' p, materialize_element mem mv index = Some (mv', p) ∧ wf mv' ∧ same_frame mv mv' ∧
    range_cache mv' = range_cache mv ∧ materialized_at mv mv' index p.
Proof.
  intros W Hlt. unfold materialize_element. rewrite find_element_list by done.
  assert (Hout : ∀ mv1 s, wf mv1 → same_frame mv mv1 → range_cache mv1 = range_cache mv →
    s ≠ ok → ∃ mv' p, Some (clear_failure_value (note_failure mv1 s), InFailure) = Some (mv', p) ∧
      wf mv' ∧ same_frame mv mv' ∧ range_cache mv' = range_cache mv ∧ materialized_at mv mv' index p).
  { intros mv1 s W1 F1 R1 Hs. destruct (wf_failed mv1 s W1 Hs) as (W2 & F2 & M).
    do 2 eexists. split; [done|]. split_and!; [done|by eapply same_frame_trans|done|apply M..]. }
  destruct (list_find _ _) as [[i e]|] eqn:E; cbn [fmap option_fmap option_map fst].
  { apply list_find_Some in E as (Hi & <- & _). do 2 eexists. split; [done|].
    split_and!; [done|by constructor|done|]. exists e.2. split; [by destruct e|].
    unfold contents. destruct (N.leb_spec (baseline_count mv) e.1); [lia|].
    unfold cached. by rewrite (list_find_keys _ i e) by (done || apply W). }
  assert (Hc : cached mv index = None) by (unfold cached; by rewrite E).
  destruct (ensure_element_index _ mv) as [table|] eqn:Et; [|by apply Hout].
  destruct (ensure_element_index_spec _ _ _ W Et) as [I Hload].
  destruct (wf_set_element_index _ _ W I Hload) as [W1 F1]. set (mv1 := set_element_index mv table) in *.
  destruct (value_allocated mem); cbn [negb]; [|by apply Hout].
  change (read_baseline mv1 index) with (read_baseline mv index).
  destruct (read_baseline mv index) as [result v] eqn:Hread.
  destruct (status_ok result) eqn:Hok; cbn [negb]; [|apply Hout; [done..|by apply status_ok_false]].
  assert (result = ok) as -> by (by destruct result).
  destruct (push_allocated mem); cbn [negb]; [|by apply Hout].
  change (element_cache mv1) with (element_cache mv).
  pose proof (cached_fresh mv (index, v) (wf_keys _ W) Hc) as Hfresh.
  pose proof (wf_baseline _ W).
  destruct (insert_slot_spec (element_cache mv) table (index, v) I Hfresh) as (t' & Ht & Hlen & I').
  { pose proof (io_count _ _ I). lia. }
  rewrite length_app, w64_small by lia. cbn [length fst] in *. rewrite Nat2N.inj_add. cbn.
  change (N.of_nat 1) with 1. cbn in Ht. rewrite Ht. do 2 eexists. split; [done|].
  edestruct (wf_append mv) as [W' F'];
    [apply W|apply Hlt|apply Hc|apply Hread| | | | | | | | |split; [exact W'|split_and!; [exact F'|done|]]]; try done.
  - cbn. rewrite length_app. cbn. lia.
  - exists v. cbn. rewrite lookup_app_r, Nat.sub_diag by lia. split; [done|].
    unfold contents. destruct (N.leb_spec (baseline_count mv) index); [lia|]. by rewrite Hc, Hread.
Qed.

(** ** Reading *)

Lemma contents_baseline mv index : index < baseline_count mv →
  contents mv index = match cached mv index with
                      | Some v => Some v
                      | None => match read_baseline mv index with (ok, v) => Some v | _ => None end
                      end.
Proof. intros. unfold contents. by destruct (N.leb_spec (baseline_count mv) index); [lia|]. Qed.

Lemma contents_local mv index : baseline_count mv <= index →
  contents mv index = local mv !! N.to_nat (index - baseline_count mv).
Proof. intros. unfold contents. by destruct (N.leb_spec (baseline_count mv) index); [|lia]. Qed.

(** One record as [read], [span] and the views take it. *)
Lemma record_contents mv index : wf mv → index < baseline_count mv →
  let '(result, v) :=
    match find_value mv index with Some v => (ok, v) | None => read_baseline mv index end in
  contents mv index = if status_ok result then Some v else None.
Proof.
  intros W Hlt. rewrite find_value_cached, contents_baseline by done.
  destruct (cached mv index); [done|]. by destruct (read_baseline mv index) as [[] v].
Qed.

(** [read] answers exactly the logical contents: not_found past the
    end, the record with ok where there is one, the reader's failing status otherwise. *)
Theorem mapped_vector_read mv index : wf mv →
  (status_ok (read mv index).1 = true ↔ is_Some (contents mv index)) ∧
  (∀ v, contents mv index = Some v → read mv index = (ok, v) ∧ view_at mv index = v) ∧
  ((read mv index).1 = not_found ↔
     size mv <= index ∨ (index < baseline_count mv ∧ cached mv index = None ∧
                         (read_baseline mv index).1 = not_found)).
Proof.
  intros W. unfold view_at, read. destruct (N.leb_spec (size mv) index) as [Hs|Hs].
  { unfold size, local_size in Hs. rewrite contents_local, lookup_ge_None_2 by lia.
    split_and!; [|done|by split; [left|]]. split; [done|by intros [? ?]]. }
  destruct (N.leb_spec (baseline_count mv) index) as [Hb|Hb].
  - rewrite contents_local by done. unfold size, local_size in Hs.
    destruct (lookup_lt_is_Some_2 (local mv) (N.to_nat (index - baseline_count mv))) as [v Hv]; [lia|].
    rewrite Hv. split_and!; [by split; [eauto|]|by intros ? [= ->]|].
    split; [done|]. unfold size, local_size. intros [?|[? _]]; lia.
  - pose proof (record_contents mv index W Hb) as Hc. rewrite (find_value_cached _ _ W Hb) in *.
    destruct (cached mv index) as [v|] eqn:E.
    + rewrite Hc. cbn. split_and!; [by split; [eauto|]|by intros ? [= ->]|].
      split; [done|]. intros [?|(? & [=] & _)]. lia.
    + destruct (read_baseline mv index) as [result v] eqn:Er. rewrite Hc. cbn.
      split_and!.
      * destruct (status_ok result); by split; [eauto|] || (split; [done|by intros [? ?]]).
      * destruct result; try done. by intros ? [= ->].
      * split; [naive_solver|]. intros [?|(_ & _ & ?)]; [lia|done].
Qed.

(** ** Storing *)

Lemma wf_invalidate mv index : wf mv →
  wf (invalidate_ranges_containing mv index) ∧ same_frame mv (invalidate_ranges_containing mv index).
Proof.
  intros W. assert (F : same_frame mv (invalidate_ranges_containing mv index))
    by by apply same_frame_cache.
  split; [|done]. eapply wf_same_frame; [apply W|done..|].
  intros r. cbn. by intros [_ ?]%list_elem_of_filter.
Qed.

Lemma alter_keys (cache : list (N * T)) i v : (alter (λ e, (e.1, v)) i cache).*1 = cache.*1.
Proof.
  apply list_eq. intros j. rewrite !list_lookup_fmap. destruct (decide (i = j)) as [->|].
  - rewrite list_lookup_alter_eq. by destruct (cache !! j).
  - by rewrite list_lookup_alter_ne.
Qed.

Lemma index_of_keys (cache cache' : list (N * T)) table :
  cache'.*1 = cache.*1 → index_of cache table → index_of cache' table.
Proof.
  intros Hk I. assert (Hlen : length cache' = length cache)
    by (rewrite <-(length_fmap fst cache'), Hk; apply length_fmap).
  assert (Hlook : ∀ i, fst <$> cache' !! i = fst <$> cache !! i)
    by (intros i; by rewrite <-!list_lookup_fmap, Hk).
  destruct I as [I1 I2 I3 I4 I5]. constructor; [done|done| | |by rewrite Hlen].
  - intros p s Hp Hs. destruct (I3 p s Hp Hs) as (i & e & ? & Hi & ?).
    specialize (Hlook i). rewrite Hi in Hlook. apply fmap_Some in Hlook as (e' & ? & He).
    exists i, e'. split_and!; [done..|]. cbn in He. lia.
  - intros i e Hi. specialize (Hlook i). rewrite Hi in Hlook. symmetry in Hlook.
    apply fmap_Some in Hlook as (e' & Hi' & He). destruct (I4 i e' Hi') as [p Hp].
    exists p. cbn in He. by rewrite He.
Qed.

Lemma cached_alter mv i e v j : NoDup (element_cache mv).*1 → element_cache mv !! i = Some e →
  cached (assign_place mv (InCache i) v) j = if decide (e.1 = j) then Some v else cached mv j.
Proof.
  intros Hnd Hi. unfold cached. cbn [assign_place element_cache].
  assert (Hnd' : NoDup (alter (λ e, (e.1, v)) i (element_cache mv)).*1) by by rewrite alter_keys.
  destruct (decide (e.1 = j)) as [<-|Hne].
  { by rewrite (list_find_key _ i e.1 v Hnd' ltac:(by rewrite list_lookup_alter_eq, Hi)). }
  destruct (list_find (λ x, x.1 = j) (element_cache mv)) as [[k f]|] eqn:E.
  - apply list_find_Some in E as (Hk & <- & _).
    assert (i ≠ k) by (intros ->; congruence).
    rewrite (list_find_keys _ k f Hnd'); [done|]. by rewrite list_lookup_alter_ne.
  - apply list_find_None in E. rewrite (proj2 (list_find_None _ _)); [done|].
    apply Forall_forall. intros x [k Hk]%list_elem_of_lookup.
    assert (x.1 ∈ (element_cache mv).*1) as (y & -> & Hy)%list_elem_of_fmap.
    { rewrite <-(alter_keys _ i v). apply list_elem_of_fmap. exists x.
      split; [done|]. by eapply list_elem_of_lookup_2. }
    rewrite Forall_forall in E. by apply E.
Qed.

Lemma at_mutable_ok mem mv index : wf mv → index < baseline_count mv →
  ∃ mv' p, at_mutable mem mv index = Some (mv', p) ∧ wf mv' ∧ same_frame mv mv' ∧
    (∀ r, r ∈ range_cache mv' → in_range index r = false) ∧ materialized_at mv mv' index p.
Proof.
  intros W Hlt. unfold at_mutable. destruct (N.leb_spec (baseline_count mv) index); [lia|].
  destruct (wf_invalidate mv index W) as [W1 F1].
  destruct (materialize_element_ok mem _ index W1 Hlt) as (mv' & p & -> & W2 & F2 & Hr & M).
  do 2 eexists. split; [done|]. split_and!; [done|by eapply same_frame_trans| |].
  - intros r. rewrite Hr. cbn. by intros [? _]%list_elem_of_filter.
  - destruct p; [|done..]. destruct M as (w & ? & Hc). exists w. split; [done|].
    by rewrite (sf_contents _ _ F1) in Hc.
Qed.

Lemma in_range_spec index r : in_range index r = false ↔
  ∀ o, (o < N.to_nat (range_count r))%nat → range_begin r + N.of_nat o ≠ index.
Proof.
  unfold in_range. rewrite andb_false_iff, N.leb_gt, N.ltb_ge. split; [lia|].
  intros Ho. destruct (N.lt_ge_cases index (range_begin r)); [by left|right].
  apply N.le_ngt. intros Hlt. apply (Ho (N.to_nat (index - range_begin r))); lia.
Qed.

(** A well-formed state stays so when one index outside the cached ranges changes. *)
Lemma wf_update mv mv' index : wf mv → (∀ r, r ∈ range_cache mv → in_range index r = false) →
  baseline_count mv' = baseline_count mv → (element_cache mv').*1 = (element_cache mv).*1 →
  element_index mv' = element_index mv → range_cache mv' = range_cache mv →
  (∀ j, j ≠ index → contents mv' j = contents mv j) → wf mv'.
Proof.
  intros W Hr Hb Hk Hi Hrc Hc.
  assert (Hlen : length (element_cache mv') = length (element_cache mv))
    by (rewrite <-(length_fmap fst (element_cache mv')), Hk; apply length_fmap).
  constructor; rewrite ?Hb, ?Hk, ?Hi, ?Hrc; try apply W.
  - apply Forall_fmap with (f := fst) (P := λ i, i < baseline_count mv). rewrite Hk.
    apply Forall_fmap, (wf_bound _ W).
  - pose proof (wf_index _ W) as Hw. case_decide.
    + rewrite Hw in Hlen. by destruct (element_cache mv').
    + rewrite Hlen. split; [|apply Hw]. by eapply index_of_keys, Hw.
  - intros r Hin. destruct (wf_ranges _ W r Hin) as (? & ? & Ho). split_and!; [done..|].
    intros o Hlt. rewrite Ho by done. symmetry. apply Hc.
    specialize (Hr r Hin). rewrite in_range_spec in Hr. by apply Hr.
Qed.

Lemma note_failure_sticky mv s :
  status_ok (read_failure (note_failure mv s)) = true → status_ok (read_failure mv) = true.
Proof. cbn. by destruct (status_ok (read_failure mv)) eqn:E; [|rewrite E]. Qed.

Lemma materialize_element_sticky mem mv index mv' p :
  materialize_element mem mv index = Some (mv', p) →
  status_ok (read_failure mv') = true → status_ok (read_failure mv) = true.
Proof.
  unfold materialize_element, read_baseline. intros Hm Hok. revert Hm.
  repeat case_match; intros; simplify_eq; try done;
    by apply note_failure_sticky in Hok.
Qed.

(** ** Reading, as clients use it *)

Lemma read_some mv index v : wf mv → contents mv index = Some v → read mv index = (ok, v).
Proof.
  intros W Hc. unfold read. destruct (N.leb_spec (size mv) index) as [Hs|Hs].
  { unfold size, local_size in Hs. rewrite contents_local, lookup_ge_None_2 in Hc by lia. done. }
  destruct (N.leb_spec (baseline_count mv) index) as [Hb|Hb].
  - rewrite contents_local in Hc by done. by rewrite Hc.
  - pose proof (record_contents mv index W Hb) as Hr. rewrite Hc in Hr.
    destruct (match find_value mv index with Some v => (ok, v) | None => read_baseline mv index end) as [st w].
    destruct st; vm_compute in Hr; congruence.
Qed.

Lemma read_none mv index : wf mv → contents mv index = None → status_ok (read mv index).1 = false.
Proof.
  intros W Hc. unfold read. destruct (N.leb_spec (size mv) index) as [Hs|Hs]; [done|].
  destruct (N.leb_spec (baseline_count mv) index) as [Hb|Hb].
  - rewrite contents_local in Hc by done. apply lookup_ge_None_1 in Hc. unfold size, local_size in Hs. lia.
  - pose proof (record_contents mv index W Hb) as Hr. rewrite Hc in Hr.
    destruct (match find_value mv index with Some v => (ok, v) | None => read_baseline mv index end) as [st v].
    cbn. by destruct (status_ok st).
Qed.

Lemma contents_size mv index v : contents mv index = Some v → index < size mv.
Proof.
  unfold contents, size, local_size. destruct (N.leb_spec (baseline_count mv) index); [|lia].
  intros H1%lookup_lt_Some. lia.
Qed.

(** ** References as clients use them

    Where an access leads: to the record, or, when it could not be materialized, to the
    failure slot, which holds [T{}]; the failure is then recorded and stays recorded. *)
Record reaches mv mv' index (p : place) : Prop := Reaches {
  re_wf : wf mv';
  re_frame : same_frame mv mv';
  re_sticky : status_ok (read_failure mv') = true → status_ok (read_failure mv) = true;
  re_value : if decide (p = InFailure) then index < baseline_count mv ∧ status_ok (read_failure mv') = false ∧ deref mv' p = initial
             else contents mv index = Some (deref mv' p);
}.

Lemma at_const_reaches mem mv index : wf mv → index < size mv →
  ∃ mv' p, at_const mem mv index = Some (mv', p) ∧ reaches mv mv' index p.
Proof.
  intros W Hs. unfold at_const. destruct (N.leb_spec (baseline_count mv) index) as [Hb|Hb].
  - do 2 eexists. split; [done|]. split; [done|by apply same_frame_cache|done|].
    rewrite decide_False by done. rewrite contents_local by done. unfold size, local_size in Hs. cbn.
    destruct (lookup_lt_is_Some_2 (local mv) (N.to_nat (index - baseline_count mv))) as [v ->]; [lia|done].
  - destruct (materialize_element_ok mem mv index W Hb) as (mv' & p & Hm & W' & F & _ & M).
    exists mv', p. split; [done|]. split; [done|done|by eapply materialize_element_sticky|].
    destruct p as [i| |]; [|done|]; cbn in M |- *.
    + rewrite decide_False by done. destruct M as (v & Hi & Hc). by rewrite Hi.
    + by rewrite decide_True.
Qed.

(** What a store through the reference does. *)
Record assigns mv mv1 index (v : T) (p : place) (mv' : mapped_vector) : Prop := Assigns {
  as_wf : wf mv';
  as_size : size mv' = size mv;
  as_baseline : baseline_count mv' = baseline_count mv ∧ reader mv' = reader mv;
  as_failure : read_failure mv' = read_failure mv1;
  as_contents : if decide (p = InFailure) then ∀ j, contents mv' j = contents mv j
                else ∀ j, contents mv' j = if decide (j = index) then Some v else contents mv j;
}.

Lemma assign_local mv index v : wf mv → baseline_count mv <= index → index < size mv →
  let p := InLocal (N.to_nat (index - baseline_count mv)) in
  assigns mv mv index v p (assign_place mv p v).
Proof.
  intros W Hb Hs p. set (mv' := assign_place mv p v).
  assert (Hc : ∀ j, contents mv' j = if decide (j = index) then Some v else contents mv j).
  { intros j. unfold size, local_size in Hs. case_decide as Hj.
    - subst j. rewrite contents_local by done. cbn. rewrite list_lookup_insert_eq; [done|lia].
    - unfold contents. cbn. destruct (N.leb_spec (baseline_count mv) j); [|done].
      rewrite list_lookup_insert_ne; [done|lia]. }
  split; try done.
  - apply (wf_update mv mv' index); [done| |done..|].
    + intros r Hr. apply in_range_spec. intros o Ho. destruct (wf_ranges _ W r Hr) as (? & _). lia.
    + intros j Hj. rewrite Hc. by case_decide.
  - unfold size, local_size. cbn. by rewrite length_insert.
Qed.

Lemma assign_cached mv mv1 index v p : wf mv1 → same_frame mv mv1 → index < baseline_count mv →
  (∀ r, r ∈ range_cache mv1 → in_range index r = false) → materialized_at mv mv1 index p →
  assigns mv mv1 index v p (assign_place mv1 p v).
Proof.
  intros W1 [F1 F2 F3 F4] Hb Hr M. set (mv' := assign_place mv1 p v).
  assert (Hsz : size mv' = size mv) by (destruct p; [|done|]; unfold size, local_size; cbn; by rewrite F1, F3).
  destruct p as [i| |]; [|done|].
  - destruct M as (w & Hi & _).
    assert (Hc : ∀ j, contents mv' j = if decide (j = index) then Some v else contents mv j).
    { intros j. rewrite <-F4. destruct (N.le_gt_cases (baseline_count mv1) j) as [Hj|Hj].
      - rewrite !contents_local by done. case_decide; [lia|done].
      - rewrite !contents_baseline by done. unfold mv'.
        rewrite (cached_alter mv1 i (index, w)) by (done || apply (wf_keys _ W1)). cbn [fst].
        case_decide; case_decide; try congruence; done. }
    split; try done. apply (wf_update mv1 mv' index); try done.
    + cbn. apply alter_keys.
    + intros j Hj. rewrite Hc, F4. by case_decide.
  - split; try done. apply (wf_same_frame mv1); [done|by apply same_frame_cache|done..].
Qed.

Lemma at_mutable_reaches mem mv index : wf mv → index < size mv →
  ∃ mv' p, at_mutable mem mv index = Some (mv', p) ∧ reaches mv mv' index p ∧
    ∀ v, assigns mv mv' index v p (assign_place mv' p v).
Proof.
  intros W Hs. destruct (N.le_gt_cases (baseline_count mv) index) as [Hb|Hb].
  - unfold at_mutable. destruct (N.leb_spec (baseline_count mv) index); [|lia].
    do 2 eexists. split; [done|]. split; [|intros v; by apply assign_local].
    destruct (at_const_reaches mem mv index W Hs) as (mv' & p & Hc & R). unfold at_const in Hc.
    destruct (N.leb_spec (baseline_count mv) index); [|lia]. by injection Hc as <- <-.
  - destruct (at_mutable_ok mem mv index W Hb) as (mv1 & p & Hm & W1 & F1 & Hr & M).
    exists mv1, p. split; [done|]. split; [|intros v; by apply assign_cached].
    unfold at_mutable in Hm. destruct (N.leb_spec (baseline_count mv) index); [lia|].
    constructor; [exact W1|exact F1| |].
    + intros Hok. by apply (materialize_element_sticky _ _ _ _ _ Hm) in Hok.
    + destruct p as [i| |]; [|done|]; cbn in M |- *.
      * rewrite decide_False by done. destruct M as (v & Hi & Hc). by rewrite Hi.
      * by rewrite decide_True.
Qed.

(** C21: a store below the size always returns.  Either the logical
    contents are updated at exactly that index, or (for a baseline record whose
    materialization failed) the contents are unchanged and the failure is recorded.  The
    invariant, which includes coherence of the cached ranges, holds afterwards. *)
Theorem mapped_vector_store mem mv index v : wf mv → index < size mv →
  ∃ mv', store mem mv index v = Some mv' ∧ wf mv' ∧ size mv' = size mv ∧
    ((∀ j, contents mv' j = if decide (j = index) then Some v else contents mv j) ∨
     (index < baseline_count mv ∧ status_ok (read_failure mv') = false ∧
      ∀ j, contents mv' j = contents mv j)).
Proof.
  intros W Hs. unfold store. destruct (at_mutable_reaches mem mv index W Hs) as (mv1 & p & -> & R & A).
  destruct (A v) as [A1 A2 _ A3 A4]. exists (assign_place mv1 p v). split_and!; [done..|].
  pose proof (re_value _ _ _ _ R) as Hv. case_decide as Hp; [right|by left].
  rewrite A3. split_and!; [apply Hv..|done].
Qed.

(** ** Spans *)

Lemma collect_spec mv index n : wf mv → index + N.of_nat n <= baseline_count mv →
  let '(result, vs) := collect mv index n in
  status_ok result = true →
    length vs = n ∧ ∀ o, (o < n)%nat → vs !! o = contents mv (index + N.of_nat o).
Proof.
  intros W. revert index. induction n as [|n IH]; intros index Hb; cbn [collect].
  { intros _. split; [done|lia]. }
  pose proof (record_contents mv index W ltac:(lia)) as Hrec.
  destruct (match find_value mv index with Some v => _ | None => _ end) as [result v].
  destruct (status_ok result) eqn:Hok; [|by rewrite Hok].
  specialize (IH (index + 1) ltac:(lia)). destruct (collect mv (index + 1) n) as [result' vs].
  intros Hres. destruct (IH Hres) as [Hl Ho]. split; [cbn; lia|].
  intros [|o] Hlt; cbn [lookup list_lookup].
  - by rewrite N.add_0_r, Hrec.
  - rewrite Ho by lia. f_equal. lia.
Qed.

(** The requests [span] serves: not empty, in bounds, and within one of the two parts. *)
Definition span_request mv (begin_value count_value : N) : Prop :=
  0 < count_value ∧ begin_value + count_value <= size mv ∧
  (baseline_count mv <= begin_value ∨ begin_value + count_value <= baseline_count mv).

(** [span] changes no logical content.  On a request within one part
    it returns exactly the requested slice, or nothing with the failure recorded; on any
    other request it returns nothing. *)
Theorem mapped_vector_span mem mv begin_value count_value : wf mv →
  let '(mv', vs) := span mem mv begin_value count_value in
  wf mv' ∧ (∀ j, contents mv' j = contents mv j) ∧
  (span_request mv begin_value count_value →
     (vs = [] ∧ status_ok (read_failure mv') = false) ∨
     (length vs = N.to_nat count_value ∧
      ∀ o, (o < N.to_nat count_value)%nat → vs !! o = contents mv (begin_value + N.of_nat o))) ∧
  (¬ span_request mv begin_value count_value → vs = []).
Proof.
  intros W. unfold span, span_request.
  destruct (N.eqb_spec count_value 0) as [->|Hc]; [split_and!; [done|done|lia|done]|].
  destruct (_ || _) eqn:Hbound; [|].
  { apply orb_true_iff in Hbound as [?%N.ltb_lt|?%N.ltb_lt]; split_and!; done || lia. }
  apply orb_false_iff in Hbound as [Hb1%N.ltb_ge Hb2%N.ltb_ge].
  destruct (N.leb_spec (baseline_count mv) begin_value) as [Hb|Hb].
  { split_and!; [done|done| |]; unfold size, local_size in *.
    - intros _. right. rewrite length_take, length_drop. split; [lia|].
      intros o Ho. rewrite lookup_take_lt, lookup_drop, contents_local by lia. f_equal. lia.
    - intros []. split_and!; lia. }
  destruct (N.ltb_spec (baseline_count mv) (begin_value + count_value)) as [Hs|Hs];
    [split_and!; [done|done|lia|done]|].
  assert (Hyes : ¬ ¬ (0 < count_value ∧ begin_value + count_value <= size mv ∧
    (baseline_count mv <= begin_value ∨ begin_value + count_value <= baseline_count mv)))
    by (intros Hn; apply Hn; lia).
  assert (Hfail : ∀ s, s ≠ ok → wf (note_failure mv s) ∧ ∀ j, contents (note_failure mv s) j = contents mv j).
  { intros s Hne. assert (F : same_frame mv (note_failure mv s)) by by apply same_frame_cache.
    split; [|apply F]. eapply wf_same_frame; [apply W|done..|]. by cbn. }
  destruct (list_find _ (range_cache mv)) as [[i r]|] eqn:E.
  { apply list_find_Some in E as (Hr & [<- <-] & _). apply list_elem_of_lookup_2 in Hr.
    destruct (wf_ranges _ W r Hr) as (? & ? & ?). split_and!; [done|done| |done]. by right. }
  destruct (value_allocated mem); cbn [negb].
  2: { split_and!; [by apply Hfail..| |done]. left. split; [done|by apply note_failure_stops]. }
  pose proof (collect_spec mv begin_value (N.to_nat count_value) W ltac:(lia)) as Hcol.
  destruct (collect mv begin_value (N.to_nat count_value)) as [result vs].
  destruct (status_ok result) eqn:Hok; cbn [negb].
  2: { apply status_ok_false in Hok. split_and!; [by apply Hfail..| |done].
       left. split; [done|by apply note_failure_stops]. }
  destruct (Hcol eq_refl) as [Hlen Ho]. destruct (push_allocated mem); cbn [negb].
  2: { split_and!; [by apply Hfail..| |done]. left. split; [done|by apply note_failure_stops]. }
  set (mv' := MappedVector _ _ _ _ _ _ _ _ _).
  assert (F : same_frame mv mv') by by apply same_frame_cache.
  split_and!; [|apply F|by right|done].
  constructor; cbn; try apply W. intros r [Hr|Hr%list_elem_of_singleton]%elem_of_app.
  - destruct (wf_ranges _ W r Hr) as (? & ? & Hr'). split_and!; [done..|].
    intros o Hlt. rewrite (sf_contents _ _ F). by apply Hr'.
  - subst r. cbn. split_and!; [lia|done|]. intros o Hlt. rewrite (sf_contents _ _ F). by apply Ho.
Qed.

(** ** Copying out *)

(** A recorded failure is never replaced by a success. *)
Lemma copy_baseline_spec mem mv index n : wf mv → index + N.of_nat n <= baseline_count mv →
  ∃ mv' vs, copy_baseline mem mv index n = Some (mv', vs) ∧ wf mv' ∧ same_frame mv mv' ∧
    length vs = n ∧
    (status_ok (read_failure mv') = true → status_ok (read_failure mv) = true ∧
      ∀ o, (o < n)%nat → vs !! o = contents mv (index + N.of_nat o)).
Proof.
  revert mv index. induction n as [|n IH]; intros mv index W Hb; cbn [copy_baseline].
  { do 2 eexists. split; [done|]. split_and!; [done|by constructor|done|].
    intros ?. split; [done|lia]. }
  destruct (materialize_element_ok (mem index) mv index W ltac:(lia)) as (mv1 & p & Hm & W1 & F1 & _ & M).
  rewrite Hm. cbn [mbind option_bind].
  destruct (IH mv1 (index + 1) W1) as (mv2 & vs & -> & W2 & F2 & Hl & Hok);
    [rewrite (sf_baseline _ _ F1); lia|].
  cbn [mbind option_bind]. do 2 eexists. split; [done|].
  split_and!; [done|by eapply same_frame_trans|cbn; lia|]. intros H2. destruct (Hok H2) as [H1 Ho].
  assert (H0 := materialize_element_sticky _ _ _ _ _ Hm H1).
  split; [done|]. intros [|o] Hlt; cbn [lookup list_lookup].
  - rewrite N.add_0_r. destruct p as [i| |]; [|done|].
    + destruct M as (v & Hi & Hc). cbn [deref]. by rewrite Hi, Hc.
    + destruct M as [Hf _]. congruence.
  - rewrite Ho by lia. rewrite (sf_contents _ _ F1). f_equal. lia.
Qed.

(** [copy_all] returns, and an ok status means the output is the
    whole logical sequence. *)
Theorem mapped_vector_copy_all mem output_allocated mv : wf mv →
  ∃ mv' result vs, copy_all mem output_allocated mv = Some (mv', result, vs) ∧
    wf mv' ∧ (∀ j, contents mv' j = contents mv j) ∧
    (status_ok result = true → N.of_nat (length vs) = size mv ∧
       ∀ o, (o < length vs)%nat → vs !! o = contents mv (N.of_nat o) ∧ is_Some (vs !! o)).
Proof.
  intros W. unfold copy_all. destruct output_allocated; cbn [negb]; [|by do 3 eexists].
  destruct (copy_baseline_spec mem mv 0 (N.to_nat (baseline_count mv)) W) as
    (mv' & vs & -> & W' & F & Hl & Hok); [lia|].
  cbn [mbind option_bind]. do 3 eexists. split; [done|]. split_and!; [done|apply F|].
  intros Hres. destruct (Hok Hres) as [_ Ho]. rewrite length_app, Hl, (sf_local _ _ F).
  split; [unfold size, local_size; lia|]. intros o Hlt.
  assert (Hs : is_Some ((vs ++ local mv) !! o)) by (apply lookup_lt_is_Some; rewrite length_app; lia).
  split; [|done]. destruct (Nat.lt_ge_cases o (N.to_nat (baseline_count mv))).
  - rewrite lookup_app_l by lia. rewrite Ho by done. done.
  - rewrite lookup_app_r, contents_local by lia. f_equal. lia.
Qed.

(** Below the baseline, [materialize_element] returns; it
    preserves the invariant and the logical contents; it answers with the cached record or
    with the failure slot and a recorded failure; and once it answered with a record, asking
    again changes nothing and answers with the same record. *)
Theorem mapped_vector_materialize mem mv index : wf mv → index < baseline_count mv →
  ∃ mv' p, materialize_element mem mv index = Some (mv', p) ∧ wf mv' ∧
    (∀ j, contents mv' j = contents mv j) ∧ materialized_at mv mv' index p ∧
    (p ≠ InFailure → ∀ mem', materialize_element mem' mv' index = Some (mv', p)).
Proof.
  intros W Hlt. destruct (materialize_element_ok mem mv index W Hlt) as (mv' & p & Hm & W' & F & _ & M).
  exists mv', p. split_and!; [done..|apply F|done|]. intros Hp mem'. destruct p as [i| |]; [|done..].
  destruct M as (v & Hi & _). unfold materialize_element.
  rewrite find_element_list by (done || by rewrite (sf_baseline _ _ F)).
  by rewrite (list_find_key _ i index v (wf_keys _ W') Hi).
Qed.

Lemma wf_bind mv count r : count < two64 → wf (bind_baseline mv count r).
Proof.
  intros Hc. constructor; cbn; [done|apply NoDup_nil_2|by constructor|done|].
  by intros r' ?%elem_of_nil.
Qed.

(** Changing the appended part keeps the baseline part. *)
Lemma wf_set_local mv l cap : wf mv → wf (set_local mv l cap).
Proof.
  intros W. constructor; cbn; try apply W. intros r Hr.
  destruct (wf_ranges _ W r Hr) as (? & ? & Ho). split_and!; [done..|].
  intros o Hlt. rewrite Ho by done. rewrite !contents_baseline by (cbn; lia). done.
Qed.

Lemma push_back_spec (grown : growth) mv v : wf mv → let pushed := push_back grown mv v in
  wf pushed ∧ size pushed = size mv + 1 ∧ read_failure pushed = read_failure mv ∧
  ∀ j, contents pushed j = if decide (j = size mv) then Some v else contents mv j.
Proof.
  intros W pushed. split_and!; [by apply wf_set_local| |done|].
  - unfold pushed, size, local_size. cbn. rewrite length_app. cbn. lia.
  - intros j. unfold pushed, push_back, contents, size, local_size. cbn.
    destruct (N.leb_spec (baseline_count mv) j) as [Hj|Hj].
    + case_decide as Hd.
      * subst j. rewrite lookup_app_r by lia.
        by replace (_ - _)%nat with 0%nat by lia.
      * destruct (Nat.lt_ge_cases (N.to_nat (j - baseline_count mv)) (length (local mv))).
        -- by rewrite lookup_app_l.
        -- rewrite !lookup_ge_None_2; [done|lia|rewrite length_app; cbn; lia].
    + by rewrite decide_False by lia.
Qed.

(** [push_back] appends exactly one element after the logical
    sequence, and [resize] of a container with a baseline keeps the common prefix, fills the
    rest with [T{}], and refuses to cut into the baseline. *)
Theorem mapped_vector_append (grown : growth) mv v requested : wf mv →
  let pushed := push_back grown mv v in
  wf pushed ∧ size pushed = size mv + 1 ∧
  (∀ j, contents pushed j = if decide (j = size mv) then Some v else contents mv j) ∧
  (baseline_backed mv = true →
     (resize grown mv requested = None ↔ requested < baseline_count mv) ∧
     ∀ mv', resize grown mv requested = Some mv' →
       wf mv' ∧ size mv' = requested ∧
       ∀ j, contents mv' j =
         if decide (j < size mv) then (if decide (j < requested) then contents mv j else None)
         else if decide (j < requested) then Some initial else None).
Proof.
  intros W pushed. destruct (push_back_spec grown mv v W) as (H1 & H2 & _ & H4). split_and!; [done..|].
  intros Hbacked. unfold resize. rewrite Hbacked. cbn [negb].
  destruct (N.ltb_spec requested (baseline_count mv)) as [Hr|Hr]; [by split|].
    split; [by split; [|lia]|]. intros mv' [= <-]. split_and!.
    + by apply wf_set_local.
    + unfold size, local_size, resize_list. cbn. rewrite length_app, length_take, length_replicate. lia.
    + intros j. unfold contents, size, local_size. cbn [baseline_count local set_local read_baseline reader].
      destruct (N.leb_spec (baseline_count mv) j) as [Hj|Hj].
      2: { rewrite decide_True by lia. by rewrite decide_True by lia. }
      unfold resize_list. case_decide; case_decide.
      * rewrite lookup_app_l, lookup_take_lt; [done|lia|rewrite length_take; lia].
      * rewrite lookup_ge_None_2; [done|]. rewrite length_app, length_take, length_replicate. lia.
      * rewrite lookup_app_r by (rewrite length_take; lia). apply lookup_replicate.
        rewrite length_take. split; [done|lia].
      * rewrite lookup_ge_None_2; [done|]. rewrite length_app, length_take, length_replicate. lia.
Qed.

End mapped_vector.

(** ** A baseline of four records whose third cannot be read *)

Definition sample_reader (index : N) : status_code * N :=
  if index =? 2 then (io_failed, 0) else (ok, 10 + index).
Definition sample : mapped_vector := push_back (λ _ n, n) (bind_baseline mapped_vector_init 4 (Some sample_reader)) 77.

Lemma sample_wf : wf sample.
Proof. apply wf_set_local, wf_bind. done. Qed.

Lemma mapped_vector_read_witness :
  wf sample ∧ read sample 1 = (ok, 11) ∧ read sample 4 = (ok, 77) ∧ (read sample 5).1 = not_found.
Proof.
  split; [apply sample_wf|]. destruct (mapped_vector_read sample 1 sample_wf) as (_ & H1 & _).
  split; [by apply H1|]. destruct (mapped_vector_read sample 4 sample_wf) as (_ & H4 & _).
  split; [by apply H4|]. apply (mapped_vector_read sample 5 sample_wf). left. done.
Defined.

Lemma mapped_vector_store_witness :
  wf sample ∧ 1 < size sample ∧ contents sample 1 = Some 11 ∧
  ∃ mv', store plenty sample 1 99 = Some mv' ∧ contents mv' 1 = Some 99.
Proof.
  split; [apply sample_wf|]. split; [done|]. split; [done|].
  destruct (mapped_vector_store plenty sample 1 99 sample_wf) as (mv' & Hs & _ & _ & Hc); [done|].
  exists mv'. split; [done|]. destruct Hc as [Hc|(_ & Hf & _)]; [by rewrite Hc|].
  vm_compute in Hs. injection Hs as <-. done.
Defined.

Lemma mapped_vector_span_witness : wf sample ∧ (span plenty sample 0 2).2 = [10; 11] ∧
  (span plenty sample 1 3).2 = [] ∧ (span plenty sample 3 2).2 = [].
Proof.
  split; [apply sample_wf|]. split; [by vm_compute|]. split; [by vm_compute|].
  pose proof (mapped_vector_span plenty sample 3 2 sample_wf) as Hs.
  destruct (span plenty sample 3 2) as [mv' vs]. apply Hs. unfold span_request, size. cbn. lia.
Defined.

Lemma mapped_vector_copy_all_witness : wf sample ∧
  ∃ mv' vs, copy_all (λ _, plenty) true sample = Some (mv', io_failed, vs) ∧ length vs = 5%nat.
Proof.
  split; [apply sample_wf|].
  destruct (mapped_vector_copy_all (λ _, plenty) true sample sample_wf) as (mv' & r & vs & Hc & _).
  exists mv', vs. vm_compute in Hc. injection Hc as <- <- <-. done.
Defined.

Lemma mapped_vector_materialize_witness : wf sample ∧ 3 < baseline_count sample ∧
  ∃ mv', materialize_element plenty sample 3 = Some (mv', InCache 0) ∧ wf mv'.
Proof.
  split; [apply sample_wf|]. split; [done|].
  destruct (mapped_vector_materialize plenty sample 3 sample_wf) as (mv' & p & Hm & W & _); [done|].
  exists mv'. split; [|done]. rewrite Hm. vm_compute in Hm. by injection Hm as <- <-.
Defined.

Lemma mapped_vector_append_witness : wf sample ∧ baseline_backed sample = true ∧
  resize (λ _ n, n) sample 3 = None ∧ size (push_back (λ _ n, n) sample 5) = 6.
Proof.
  split; [apply sample_wf|]. split; [done|].
  destruct (mapped_vector_append (λ _ n, n) sample 5 3 sample_wf) as (_ & Hs & _ & Hr).
  split; [by apply Hr|]. by rewrite Hs.
Defined.
End MappedVector.
