(* ===== verification/StringTable.v ===== *)
(** * The lock-free string table

    Models server_engine/project/string/string_table.{hpp,cpp}.  [intern] is a machine whose
    steps are the atomic operations of the code; calls of different threads interleave at
    those steps, under sequential consistency.  A published record never changes and its
    [next] is the list it was pushed on, so a head pointer is the list of records reached
    from it; a compare-exchange compares the addresses of the first records, as the code
    compares the pointers.  The byte arena answers an allocation with a failing status or
    with a region disjoint from all earlier ones (shown in ByteArena), given here by a fresh
    address. *)

From S2P Require Import Prelude.
From stdpp Require Import sets.

Local Open Scope N_scope.

Module StringTable.

(** ** Constants *)

Definition bucket_count : N := 2 ^ 20.
Definition bucket_mask : N := bucket_count - 1.
Definition bucket_page_shift : N := 10.
Definition page_shift : N := 12.
Definition page_count : N := 2 ^ 16.
Definition page_size : N := 2 ^ page_shift.
Definition maximum_id : N := page_count * page_size.

(** ** Hashing *)

Definition hash_step (hash byte : N) : N := w64 (N.lxor hash byte * 1099511628211).

Definition hash_text (value : string) : N :=
  mix64 (foldl (λ hash c, hash_step hash (Ascii.N_of_ascii c)) 1469598103934665603
    (String.list_ascii_of_string value)).

Definition bucket_of (hash : N) : N := N.land hash bucket_mask.

(** ** The active baseline

    A [compiled_image_view], read through what the table uses of it. *)
Record compiled_image_view : Type := CompiledImageView {
  string_slot_count : N;
  string_count : N;
  find_string : string → option N;      (* [Some] with an ok status *)
  string_at : N → string;
  string_at_slot : N → N;
}.

(** What an image promises: a found identity is one of its slots, and reads back. *)
Class BaselineLaws (image : compiled_image_view) : Prop := {
  find_string_slot v id : find_string image v = Some id → 1 ≤ id ≤ string_slot_count image;
  find_string_reads v id : find_string image v = Some id → string_at image id = v;
}.

Definition no_strings : compiled_image_view :=
  CompiledImageView 0 0 (λ _, None) (λ _, EmptyString) (λ _, 0).

#[export] Instance no_strings_laws : BaselineLaws no_strings.
Proof. by split. Qed.

(** ** The table *)

Record record : Set := Record { address : N; hash : N; id : N; text : string }.

#[export] Instance record_eq_dec : EqDecision record.
Proof. solve_decision. Defined.

(** [drawn] is a history variable: the number of identities drawn from [next_id]. *)
Record table : Set := Table {
  dense_bucket_mode : bool;
  dense_allocated : bool;            (* [dense_buckets != nullptr] *)
  bucket_pages : gset N;             (* the bucket pages present *)
  buckets : gmap N (list record);
  pages_allocated : bool;            (* [pages != nullptr] *)
  pages : gset N;                    (* the record pages present *)
  slots : gmap N record;             (* by raw identity *)
  next_id : N;
  live_count : N;
  allocated : gset N;                (* addresses the arena has given out *)
  drawn : N;
}.

Section table.
(** [baseline]; [None] is [nullptr]. *)
Context (baseline : option compiled_image_view).

Definition baseline_slot_count : N :=
  match baseline with Some b => string_slot_count b | None => 0 end.
Definition baseline_live_count : N :=
  match baseline with Some b => string_count b | None => 0 end.

(** The two constructors, given which allocations of [initialize_indexes] succeeded. *)
Definition string_table (dense_ok pages_ok : bool) : table :=
  let dense := match baseline with Some _ => false | None => true end in
  Table dense (dense && dense_ok) ∅ ∅ pages_ok ∅ ∅
    (if baseline_slot_count <? 0xffffffff then baseline_slot_count + 1 else 0) 0 ∅ 0.

Definition bucket (t : table) (b : N) : list record := default [] (buckets t !! b).

(** [bucket_slot]: whether the bucket's head can be addressed. *)
Definition bucket_slot (t : table) (b : N) : bool :=
  if bucket_count <=? b then false
  else if dense_bucket_mode t then dense_allocated t
  else bool_decide (N.shiftr b bucket_page_shift ∈ bucket_pages t).

Definition matches (hash_value : N) (value : string) (item : record) : bool :=
  (hash item =? hash_value) && String.eqb (text item) value.

Definition find_record (t : table) (value : string) (hash_value : N) : option record :=
  let b := bucket_of hash_value in
  if bucket_slot t b
  then snd <$> list_find (λ item, matches hash_value value item = true) (bucket t b)
  else None.

Definition page_index (raw : N) : N := N.shiftr (raw - 1) page_shift.

(** [page] *)
Definition page (t : table) (raw : N) : bool :=
  pages_allocated t && negb (raw =? 0) && (page_index raw <? page_count) &&
  bool_decide (page_index raw ∈ pages t).

Definition baseline_find (value : string) : option N :=
  match baseline with Some b => find_string b value | None => None end.

(** A [string_id], zero when invalid. *)
Definition find (t : table) (value : string) : N :=
  if String.eqb value EmptyString then 0
  else match find_record t value (hash_text value) with
       | Some found => id found
       | None => default 0 (baseline_find value)
       end.

Definition get (t : table) (i : N) : string :=
  if i =? 0 then EmptyString
  else
    match baseline with
    | Some b =>
        if i <=? baseline_slot_count then string_at b i
        else if page t i then default EmptyString (text <$> slots t !! i) else EmptyString
    | None => if page t i then default EmptyString (text <$> slots t !! i) else EmptyString
    end.

Definition at_slot (t : table) (index : N) : N :=
  if maximum_id <=? index then 0
  else
    let local :=
      let raw := w32 (index + 1) in
      if page t raw
      then match slots t !! raw with
           | Some value => if id value =? raw then raw else 0
           | None => 0
           end
      else 0 in
    match baseline with
    | Some b => if index <? baseline_slot_count then string_at_slot b index else local
    | None => local
    end.

Definition size (t : table) : N := baseline_live_count + live_count t.
Definition slot_count (t : table) : N := if 1 <? next_id t then next_id t - 1 else 0.

(** ** Changes of the shared state *)

Definition add_bucket_page (t : table) (d : N) : table :=
  Table (dense_bucket_mode t) (dense_allocated t) ({[d]} ∪ bucket_pages t) (buckets t)
    (pages_allocated t) (pages t) (slots t) (next_id t) (live_count t) (allocated t) (drawn t).

Definition add_page (t : table) (d : N) : table :=
  Table (dense_bucket_mode t) (dense_allocated t) (bucket_pages t) (buckets t)
    (pages_allocated t) ({[d]} ∪ pages t) (slots t) (next_id t) (live_count t) (allocated t)
    (drawn t).

Definition take_address (t : table) (a : N) : table :=
  Table (dense_bucket_mode t) (dense_allocated t) (bucket_pages t) (buckets t)
    (pages_allocated t) (pages t) (slots t) (next_id t) (live_count t) ({[a]} ∪ allocated t)
    (drawn t).

(** [next_id.fetch_add(1)] *)
Definition draw_id (t : table) : table :=
  Table (dense_bucket_mode t) (dense_allocated t) (bucket_pages t) (buckets t)
    (pages_allocated t) (pages t) (slots t) (w32 (next_id t + 1)) (live_count t) (allocated t)
    (drawn t + 1).

Definition set_slot (t : table) (raw : N) (value : option record) : table :=
  Table (dense_bucket_mode t) (dense_allocated t) (bucket_pages t) (buckets t)
    (pages_allocated t) (pages t) (partial_alter (λ _, value) raw (slots t)) (next_id t)
    (live_count t) (allocated t) (drawn t).

Definition push_record (t : table) (b : N) (r : record) : table :=
  Table (dense_bucket_mode t) (dense_allocated t) (bucket_pages t)
    (<[b := r :: bucket t b]> (buckets t)) (pages_allocated t) (pages t) (slots t) (next_id t)
    (live_count t) (allocated t) (drawn t).

Definition count_live (t : table) : table :=
  Table (dense_bucket_mode t) (dense_allocated t) (bucket_pages t) (buckets t)
    (pages_allocated t) (pages t) (slots t) (next_id t) (w64 (live_count t + 1)) (allocated t)
    (drawn t).

(** ** [intern] *)

(** Where a call stands; [raw] is the identity it drew, [head] the chain it last loaded. *)
Inductive pc : Set :=
| Find
| EnsureBucket
| CasBucketPage
| Allocate
| FetchId (a : N)
| EnsurePage (a raw : N)
| CasPage (a raw : N)
| StoreDirect (a raw : N)
| LoadHead (a raw : N)
| Scan (a raw : N) (head : list record)
| CasHead (a raw : N) (head : list record)
| ClearDirect (a raw : N) (existing : N)
| Count (raw : N)
| Finished (result : status_code) (output : N).

Record call : Set := Call { value : string; at_pc : pc }.

Definition goto (c : call) (p : pc) : call := Call (value c) p.

(** What the environment answers a step: [new], the arena, and the spurious failure
    [compare_exchange_weak] may have. *)
Record event : Set := Event { memory : bool; arena : status_code * N; spurious : bool }.

(** [intern] up to the lookup. *)
Definition intern (t : table) (v : string) : call :=
  Call v
    (if String.eqb v EmptyString then Finished invalid_argument 0
     else if negb (pages_allocated t) then Finished not_available 0
     else if 0xffffffff <? N.of_nat (String.length v) then Finished not_available 0
     else if (two64 - 1) - N.of_nat (String.length v) <? 24 then Finished not_available 0
     else Find).

Definition candidate (c : call) (a raw : N) : record :=
  Record a (hash_text (value c)) raw (value c).

(** The address a head pointer holds. *)
Definition head_address (l : list record) : option N := address <$> hd_error l.

Definition directory (b : N) : N := N.shiftr b bucket_page_shift.

Definition step (e : event) (t : table) (c : call) : table * call :=
  let h := hash_text (value c) in
  let b := bucket_of h in
  match at_pc c with
  | Find =>
      let existing := find t (value c) in
      (t, goto c (if existing =? 0 then EnsureBucket else Finished ok existing))
  | EnsureBucket =>
      if bucket_count <=? b then (t, goto c (Finished not_available 0))
      else if dense_bucket_mode t then
        (t, goto c (if dense_allocated t then Allocate else Finished not_available 0))
      else if bool_decide (directory b ∈ bucket_pages t) then (t, goto c Allocate)
      else if memory e then (t, goto c CasBucketPage)
      else (t, goto c (Finished not_available 0))
  | CasBucketPage =>
      (if bool_decide (directory b ∈ bucket_pages t) then t else add_bucket_page t (directory b),
       goto c Allocate)
  | Allocate =>
      let '(result, a) := arena e in
      if status_ok result then (take_address t a, goto c (FetchId a))
      else (t, goto c (Finished result 0))
  | FetchId a =>
      let raw := next_id t in
      (draw_id t, goto c (if (raw =? 0) || (maximum_id <? raw) then Finished not_available 0
                          else EnsurePage a raw))
  | EnsurePage a raw =>
      if negb (pages_allocated t) || (raw =? 0) || (page_count <=? page_index raw)
      then (t, goto c (Finished not_available 0))
      else if bool_decide (page_index raw ∈ pages t) then (t, goto c (StoreDirect a raw))
      else if memory e then (t, goto c (CasPage a raw))
      else (t, goto c (Finished not_available 0))
  | CasPage a raw =>
      (if bool_decide (page_index raw ∈ pages t) then t else add_page t (page_index raw),
       goto c (StoreDirect a raw))
  | StoreDirect a raw => (set_slot t raw (Some (candidate c a raw)), goto c (LoadHead a raw))
  | LoadHead a raw => (t, goto c (Scan a raw (bucket t b)))
  | Scan a raw head =>
      match list_find (λ item, matches h (value c) item = true) head with
      | Some (_, item) => (t, goto c (ClearDirect a raw (id item)))
      | None => (t, goto c (CasHead a raw head))
      end
  | CasHead a raw head =>
      if bool_decide (head_address (bucket t b) = head_address head) && negb (spurious e)
      then (push_record t b (candidate c a raw), goto c (Count raw))
      else (t, goto c (Scan a raw (bucket t b)))
  | ClearDirect a raw existing => (set_slot t raw None, goto c (Finished ok existing))
  | Count raw => (count_live t, goto c (Finished ok raw))
  | Finished _ _ => (t, c)
  end.

(** ** Interleavings *)

Definition config : Type := table * list call.

(** The arena never hands out a region twice. *)
Definition fresh (t : table) (e : event) : Prop :=
  status_ok (arena e).1 = true → (arena e).2 ∉ allocated t.

Inductive config_step : config → config → Prop :=
| start_call t cs v : config_step (t, cs) (t, cs ++ [intern t v])
| step_call t cs i c e :
    cs !! i = Some c → fresh t e →
    config_step (t, cs) ((step e t c).1, <[i := (step e t c).2]> cs).

Definition reachable (dense_ok pages_ok : bool) : config → Prop :=
  rtc config_step (string_table dense_ok pages_ok, []).

(** ** The invariant *)

Context (laws : ∀ b, baseline = Some b → BaselineLaws b).

(** What a call holds exclusively: an identity ([inl]) and an address ([inr]). *)
Definition resource : Set := (N + N)%type.

Definition res (c : call) : list resource :=
  match at_pc c with
  | FetchId a => [inr a]
  | EnsurePage a raw | CasPage a raw | StoreDirect a raw | LoadHead a raw
  | Scan a raw _ | CasHead a raw _ | ClearDirect a raw _ => [inl raw; inr a]
  | _ => []
  end.

Definition issued (t : table) (x : resource) : Prop :=
  match x with
  | inl r => baseline_slot_count < r ∧ r ≤ baseline_slot_count + drawn t
  | inr a => a ∈ allocated t
  end.

Definition published (t : table) (x : resource) : Prop :=
  ∃ b r, r ∈ bucket t b ∧ (x = inl (id r) ∨ x = inr (address r)).

(** The text has this identity: in the baseline, or else among the published records. *)
Definition denotes (t : table) (v : string) (i : N) : Prop :=
  baseline_find v = Some i ∨
  (baseline_find v = None ∧
   ∃ r, r ∈ bucket t (bucket_of (hash_text v)) ∧ text r = v ∧ id r = i).

Record record_ok (t : table) (b : N) (r : record) : Prop := RecordOk {
  ro_hash : hash r = hash_text (text r);
  ro_bucket : bucket_of (hash r) = b;
  ro_slot : slots t !! id r = Some r;
  ro_id : issued t (inl (id r));
  ro_address : issued t (inr (address r));
  ro_baseline : baseline_find (text r) = None;
  ro_text : text r ≠ EmptyString;
  ro_page : page t (id r) = true;
  ro_reachable : bucket_slot t b = true;
}.

Record table_ok (t : table) : Prop := TableOk {
  to_next : next_id t = w32 (baseline_slot_count + 1 + drawn t);
  to_records b r : r ∈ bucket t b → record_ok t b r;
  to_texts b : NoDup (text <$> bucket t b);
  to_addresses b : NoDup (address <$> bucket t b);
}.

(** The identity counter has not wrapped. *)
Definition small (t : table) : Prop := baseline_slot_count + 1 + drawn t ≤ two32.

Definition prepared (t : table) (c : call) : Prop :=
  value c ≠ EmptyString ∧ baseline_find (value c) = None ∧
  bucket_slot t (bucket_of (hash_text (value c))) = true.

Definition stored (t : table) (c : call) (a raw : N) : Prop :=
  prepared t c ∧ page t raw = true ∧ slots t !! raw = Some (candidate c a raw).

Definition snapshot (t : table) (c : call) (head : list record) : Prop :=
  head `suffix_of` bucket t (bucket_of (hash_text (value c))).

Definition call_ok (t : table) (c : call) : Prop :=
  match at_pc c with
  | Find => value c ≠ EmptyString
  | EnsureBucket => value c ≠ EmptyString ∧ baseline_find (value c) = None
  | CasBucketPage =>
      value c ≠ EmptyString ∧ baseline_find (value c) = None ∧ dense_bucket_mode t = false
  | Allocate | FetchId _ => prepared t c
  | EnsurePage a raw => prepared t c ∧ raw ≠ 0
  | CasPage a raw =>
      prepared t c ∧ raw ≠ 0 ∧ pages_allocated t = true ∧ page_index raw < page_count
  | StoreDirect a raw => prepared t c ∧ page t raw = true
  | LoadHead a raw => stored t c a raw
  | Scan a raw head => stored t c a raw ∧ snapshot t c head
  | CasHead a raw head =>
      stored t c a raw ∧ snapshot t c head ∧ value c ∉ text <$> head
  | ClearDirect a raw existing => denotes t (value c) existing
  | Count raw => denotes t (value c) raw
  | Finished ok i => denotes t (value c) i
  | Finished _ _ => True
  end.

(** How the table may change under the other calls. *)
Record t_le (t t' : table) : Prop := TLe {
  le_dense : dense_bucket_mode t' = dense_bucket_mode t;
  le_dense_allocated : dense_allocated t' = dense_allocated t;
  le_pages_allocated : pages_allocated t' = pages_allocated t;
  le_bucket_pages : bucket_pages t ⊆ bucket_pages t';
  le_pages : pages t ⊆ pages t';
  le_bucket b : bucket t b `suffix_of` bucket t' b;
  le_allocated : allocated t ⊆ allocated t';
  le_drawn : drawn t ≤ drawn t';
}.

Lemma t_le_refl t : t_le t t.
Proof. by constructor. Qed.

Section monotone.
Context (t t' : table) (Hle : t_le t t').

Lemma bucket_slot_mono b : bucket_slot t b = true → bucket_slot t' b = true.
Proof.
    unfold bucket_slot. rewrite (le_dense _ _ Hle), (le_dense_allocated _ _ Hle).
    case_match; [done|]. case_match; [done|]. rewrite !bool_decide_eq_true.
    pose proof (le_bucket_pages _ _ Hle). set_solver.
Qed.

Lemma page_mono raw : page t raw = true → page t' raw = true.
Proof.
    unfold page. rewrite (le_pages_allocated _ _ Hle).
    rewrite !andb_true_iff, !bool_decide_eq_true. pose proof (le_pages _ _ Hle). set_solver.
Qed.

Lemma bucket_mono b r : r ∈ bucket t b → r ∈ bucket t' b.
Proof. intros Hr. destruct (le_bucket _ _ Hle b) as [l ->]. set_solver. Qed.

Lemma denotes_mono v i : denotes t v i → denotes t' v i.
Proof.
    intros [?|(? & r & ? & ?)]; [by left|right]. eauto using bucket_mono.
Qed.

Lemma issued_mono x : issued t x → issued t' x.
Proof.
    pose proof (le_drawn _ _ Hle). pose proof (le_allocated _ _ Hle).
    destruct x; cbn; [lia|set_solver].
Qed.

Lemma prepared_mono c : prepared t c → prepared t' c.
Proof. intros (? & ? & ?). split_and!; [done..|by apply bucket_slot_mono]. Qed.

Lemma snapshot_mono c head : snapshot t c head → snapshot t' c head.
Proof. unfold snapshot. intros Hs. etrans; [done|apply Hle]. Qed.

Lemma stored_mono c a raw : slots t' !! raw = slots t !! raw →
    stored t c a raw → stored t' c a raw.
Proof.
    intros Hs (? & ? & ?). split_and!; [by apply prepared_mono|by apply page_mono|congruence].
Qed.

(** A call's own facts survive the other calls' steps. *)
Lemma call_ok_mono c : (∀ r, inl r ∈ res c → slots t' !! r = slots t !! r) →
    call_ok t c → call_ok t' c.
Proof.
    unfold call_ok, res. intros Hs.
    pose proof (prepared_mono c). pose proof (denotes_mono (value c)). pose proof (snapshot_mono c).
    pose proof (le_dense _ _ Hle). pose proof (le_pages_allocated _ _ Hle).
    assert (Hst : ∀ a raw, inl raw ∈ res c → stored t c a raw → stored t' c a raw).
    { intros a raw Hin. apply stored_mono, Hs. done. }
    unfold res in Hst. pose proof page_mono.
    assert (Hin : ∀ x y : resource, x ∈ [x; y]) by left.
    destruct (at_pc c) as [| | | | | | | | | | | | |[]]; cbn; intros; destruct_and?; split_and?;
      solve [done|congruence|eauto].
Qed.

Lemma record_ok_mono b r : slots t' !! id r = slots t !! id r →
    record_ok t b r → record_ok t' b r.
Proof.
    intros Hs []. constructor; try done; [congruence|by apply issued_mono..|by apply page_mono|
      by apply bucket_slot_mono].
Qed.

(** A step that leaves the chains alone. *)
Lemma table_ok_grow : (∀ b, bucket t' b = bucket t b) →
    (∀ r, published t (inl r) → slots t' !! r = slots t !! r) →
    next_id t' = w32 (baseline_slot_count + 1 + drawn t') → table_ok t → table_ok t'.
Proof.
    intros Hb Hs Hn T. constructor; [done| |intros b; rewrite Hb; apply T..].
    intros b r. rewrite Hb. intros Hr. apply record_ok_mono; [|by apply T].
    apply Hs. exists b, r. auto.
Qed.
End monotone.

(** ** Lookups under the invariant *)

Lemma baseline_find_slot v i : baseline_find v = Some i → 1 ≤ i ≤ baseline_slot_count.
Proof.
  unfold baseline_find, baseline_slot_count. destruct baseline as [b|] eqn:E; [|done].
  destruct (laws b eq_refl) as [H _]. apply H.
Qed.

Lemma bucket_of_lt h : bucket_of h < bucket_count.
Proof. unfold bucket_of, bucket_mask, bucket_count. change (2 ^ 20 - 1) with (N.ones 20).
  rewrite N.land_ones. by apply N.mod_lt. Qed.

Lemma matches_spec h v r : matches h v r = true ↔ hash r = h ∧ text r = v.
Proof. unfold matches. by rewrite andb_true_iff, N.eqb_eq, String.eqb_eq. Qed.

(** The scan of a chain of the bucket finds exactly the record with that text. *)
Lemma scan_spec t v l :
  table_ok t → l `suffix_of` bucket t (bucket_of (hash_text v)) →
  match list_find (λ item, matches (hash_text v) v item = true) l with
  | Some (_, r) => r ∈ l ∧ text r = v
  | None => v ∉ text <$> l
  end.
Proof.
  intros T [l' Hl]. destruct (list_find _ l) as [[i r]|] eqn:E.
  - apply list_find_Some in E as (Hi & Hm & _). apply matches_spec in Hm as [_ ?].
    split; [by eapply list_elem_of_lookup_2|done].
  - apply list_find_None in E. rewrite Forall_forall in E.
    intros (r & -> & Hr)%list_elem_of_fmap. apply (E r Hr), matches_spec. split; [|done].
    assert (Hb : r ∈ bucket t (bucket_of (hash_text (text r)))) by (rewrite Hl; set_solver).
    apply (ro_hash _ _ _ (to_records _ T _ _ Hb)).
Qed.

Lemma denotes_nonzero t v i : table_ok t → denotes t v i → i ≠ 0.
Proof.
  intros T [H%baseline_find_slot|(_ & r & Hr & _ & <-)]; [lia|].
  pose proof (ro_id _ _ _ (to_records _ T _ _ Hr)) as []. lia.
Qed.

Lemma find_denotes t v i : table_ok t → v ≠ EmptyString → i ≠ 0 → find t v = i ↔ denotes t v i.
Proof.
  intros T Hv Hi. unfold find, find_record. rewrite (proj2 (String.eqb_neq _ _)) by done.
  pose proof (scan_spec t v (bucket t (bucket_of (hash_text v))) T (reflexivity _)) as Hs.
  assert (Hloc : ∀ r, r ∈ bucket t (bucket_of (hash_text v)) → text r = v →
    bucket_slot t (bucket_of (hash_text v)) = true ∧ baseline_find v = None).
  { intros r Hr Ht. destruct (to_records _ T _ _ Hr). split; [done|congruence]. }
  split.
  - intros Hf. destruct (bucket_slot t _) eqn:Hb; [destruct (list_find _ _) as [[j r]|]|]; cbn in Hf.
    + destruct Hs as [Hr Ht]. right. split; [by eapply Hloc|eauto].
    + left. destruct (baseline_find v); cbn in Hf; congruence.
    + left. destruct (baseline_find v); cbn in Hf; congruence.
  - intros [Hb|(Hb & r & Hr & Ht & Hid)].
    + destruct (bucket_slot t _); [|by rewrite Hb]. destruct (list_find _ _) as [[j r]|]; cbn.
      * destruct Hs as [Hr Ht]. destruct (Hloc r Hr Ht). congruence.
      * by rewrite Hb.
    + destruct (Hloc r Hr Ht) as [Hslot _]. rewrite Hslot. destruct (list_find _ _) as [[j r']|]; cbn.
      * destruct Hs as [Hr' Ht']. rewrite <-Hid. f_equal.
        apply list_elem_of_lookup in Hr as [k Hk]. apply list_elem_of_lookup in Hr' as [k' Hk'].
        assert (k = k') as <-; [|congruence].
        apply (NoDup_lookup_inj (text <$> bucket t (bucket_of (hash_text v))) _ _ v); [apply T| |];
          rewrite list_lookup_fmap; [rewrite Hk|rewrite Hk']; cbn; congruence.
      * destruct Hs. apply list_elem_of_fmap. eauto.
Qed.

Lemma find_zero t v : table_ok t → v ≠ EmptyString → find t v = 0 →
  baseline_find v = None ∧ v ∉ text <$> bucket t (bucket_of (hash_text v)).
Proof.
  intros T Hv Hz. split.
  - destruct (baseline_find v) as [i|] eqn:E; [|done].
    assert (i ≠ 0) by (apply baseline_find_slot in E; lia).
    assert (denotes t v i) as Hd by by left. apply find_denotes in Hd; [congruence|done..].
  - intros (r & -> & Hr)%list_elem_of_fmap. pose proof (to_records _ T _ _ Hr) as R.
    assert (denotes t (text r) (id r)) as Hd by (right; split; [apply R|eauto]).
    assert (id r ≠ 0) by (pose proof (ro_id _ _ _ R) as []; lia).
    apply find_denotes in Hd; [congruence|done..].
Qed.

Lemma denotes_get t v i : table_ok t → denotes t v i → get t i = v.
Proof.
  intros T Hd. pose proof (denotes_nonzero _ _ _ T Hd). unfold get.
  destruct (N.eqb_spec i 0); [done|]. destruct Hd as [Hb|(_ & r & Hr & Ht & <-)].
  - pose proof (baseline_find_slot _ _ Hb) as Hs. unfold baseline_find in Hb.
    destruct baseline as [b|] eqn:E; [|done]. destruct (laws b eq_refl) as [_ Hread].
    destruct (N.leb_spec i baseline_slot_count); [by apply Hread|lia].
  - destruct (to_records _ T _ _ Hr) as [_ _ Hslot [Hid _] _ _ _ Hpage _].
    rewrite Hpage, Hslot. cbn. destruct baseline; [|done].
    destruct (N.leb_spec (id r) baseline_slot_count); [lia|done].
Qed.

Lemma denotes_inj t v w i j : table_ok t → denotes t v i → denotes t w j → v = w ↔ i = j.
Proof.
  intros T Hv Hw. split.
  - intros <-. destruct (decide (v = EmptyString)) as [->|Hne].
    + destruct Hv as [Hv|(_ & r & Hr & Ht & _)], Hw as [Hw|(_ & r' & Hr' & Ht' & _)];
        try congruence; try (by destruct (ro_text _ _ _ (to_records _ T _ _ Hr)));
        by destruct (ro_text _ _ _ (to_records _ T _ _ Hr')).
    + apply find_denotes in Hv; [|done..|by eapply denotes_nonzero].
      apply find_denotes in Hw; [congruence|done..|by eapply denotes_nonzero].
  - intros <-. by rewrite <-(denotes_get t v i T Hv), <-(denotes_get t w i T Hw).
Qed.

(** ** One step *)

(** What a call's step does to the shared table and to what the call holds. *)
Record stepped (t : table) (c : call) (t' : table) (c' : call) : Prop := Stepped {
  st_le : t_le t t';
  st_table : table_ok t';
  st_call : call_ok t' c';
  st_slots r : inl r ∉ res c → slots t' !! r = slots t !! r;
  st_published x : published t' x → published t x ∨ (x ∈ res c ∧ x ∉ res c');
  st_res x : x ∈ res c' → x ∈ res c ∨ (¬ issued t x ∧ issued t' x);
}.

(** What a call holds is issued, and not published. *)
Definition owns (t : table) (c : call) : Prop :=
  ∀ x, x ∈ res c → issued t x ∧ ¬ published t x.

Lemma stepped_local t c c' :
  table_ok t → call_ok t c' → (∀ x, x ∈ res c' → x ∈ res c) → stepped t c t c'.
Proof. intros T C R. constructor; eauto using t_le_refl. Qed.

Lemma published_same t t' x : (∀ b, bucket t' b = bucket t b) → published t' x ↔ published t x.
Proof. intros Hb. unfold published. by setoid_rewrite Hb. Qed.

Lemma published_issued t x : table_ok t → published t x → issued t x.
Proof. intros T (b & r & Hr & [->| ->]); by apply (to_records _ T _ _ Hr). Qed.

(** A step that leaves the chains alone. *)
Lemma stepped_grow t t' c c' :
  table_ok t → t_le t t' → (∀ b, bucket t' b = bucket t b) →
  (∀ r, inl r ∉ res c → slots t' !! r = slots t !! r) → owns t c →
  next_id t' = w32 (baseline_slot_count + 1 + drawn t') → call_ok t' c' →
  (∀ x, x ∈ res c' → x ∈ res c ∨ (¬ issued t x ∧ issued t' x)) → stepped t c t' c'.
Proof.
  intros T Hle Hb Hs Hown Hn C R. constructor; [done| |done..| |done].
  - apply (table_ok_grow t); [done..| |done|done]. intros r Hp. apply Hs. intros Hin.
    by apply (Hown _ Hin).
  - intros x. rewrite published_same by done. auto.
Qed.

Lemma prepared_nonempty t c : prepared t c → value c ≠ EmptyString.
Proof. by intros []. Qed.

Lemma page_of_add t d raw : page t raw = true → page (add_page t d) raw = true.
Proof. unfold page. cbn. rewrite !andb_true_iff, !bool_decide_eq_true. set_solver. Qed.

Lemma add_page_le t d : t_le t (add_page t d).
Proof. constructor; cbn; try done; set_solver. Qed.
Lemma add_bucket_page_le t d : t_le t (add_bucket_page t d).
Proof. constructor; cbn; try done; set_solver. Qed.
Lemma take_address_le t a : t_le t (take_address t a).
Proof. constructor; cbn; try done; set_solver. Qed.
Lemma draw_id_le t : t_le t (draw_id t).
Proof. constructor; cbn; try done. lia. Qed.
Lemma set_slot_le t raw o : t_le t (set_slot t raw o).
Proof. by constructor. Qed.
Lemma count_live_le t : t_le t (count_live t).
Proof. by constructor. Qed.

Lemma bucket_push t b r b' : bucket (push_record t b r) b' =
  if decide (b' = b) then r :: bucket t b else bucket t b'.
Proof.
  unfold bucket. cbn. case_decide as H; [subst; by rewrite lookup_insert_eq|].
  by rewrite lookup_insert_ne.
Qed.

Lemma push_record_le t b r : t_le t (push_record t b r).
Proof.
  constructor; cbn; try done. intros b'. rewrite bucket_push. case_decide; [subst|done].
  by exists [r].
Qed.

(** The snapshot a compare-exchange succeeds on is the current chain. *)
Lemma snapshot_current t b head : table_ok t → head `suffix_of` bucket t b →
  head_address (bucket t b) = head_address head → head = bucket t b.
Proof.
  intros T [l Hl] Ha. destruct l as [|r l]; [done|]. pose proof (to_addresses _ T b) as Hnd.
  rewrite Hl in *. destruct head as [|r' head]; [done|]. cbn in *.
  assert (address r = address r') as Hr by (unfold head_address in Ha; cbn in Ha; congruence).
  apply NoDup_cons in Hnd as [Hni _]. destruct Hni. rewrite Hr, fmap_app. set_solver.
Qed.

(** A successful compare-exchange publishes the record. *)
Lemma stepped_publish t c a raw head :
  table_ok t → owns t c → at_pc c = CasHead a raw head → call_ok t c →
  head_address (bucket t (bucket_of (hash_text (value c)))) = head_address head →
  stepped t c (push_record t (bucket_of (hash_text (value c))) (candidate c a raw))
    (goto c (Count raw)).
Proof.
  intros T Hown Hpc C Ha. unfold owns, res in Hown. unfold call_ok in C. rewrite Hpc in Hown, C.
  destruct C as [[(Hne & Hbf & Hslot) [Hpage Hstored]] [Hsnap Hfresh]].
  set (b := bucket_of _) in *. set (r := candidate c a raw).
  apply (snapshot_current _ _ _ T Hsnap) in Ha as ->.
  assert (Hle := push_record_le t b r). set (t' := push_record t b r) in *.
  assert (Hr : r ∈ bucket t' (bucket_of (hash_text (value c)))).
  { fold b. unfold t'. rewrite bucket_push, decide_True by done. left. }
  destruct (Hown (inl raw)) as [Hi1 Hu1]; [set_solver|].
  destruct (Hown (inr a)) as [Hi2 Hu2]; [set_solver|].
  constructor.
  - done.
  - constructor.
    + apply T.
    + intros b' x Hx. unfold t' in Hx. rewrite bucket_push in Hx. case_decide as Hb'.
      * subst b'. apply elem_of_cons in Hx as [->|Hx].
        -- constructor; cbn; try done; by apply bucket_slot_mono with t.
        -- apply (record_ok_mono t); [done..|by apply T].
      * apply (record_ok_mono t); [done..|by apply T].
    + intros b'. unfold t'. rewrite bucket_push. case_decide; [|apply T]. cbn.
      apply NoDup_cons. split; [done|apply T].
    + intros b'. unfold t'. rewrite bucket_push. case_decide; [|apply T]. cbn.
      apply NoDup_cons. split; [|apply T]. intros (x & Hx1 & Hx)%list_elem_of_fmap.
      apply Hu2. exists b, x. rewrite Hx1. auto.
  - right. split; [done|]. exists r. done.
  - done.
  - intros x (b' & y & Hy & Hxy). unfold t' in Hy. rewrite bucket_push in Hy.
    unfold res. rewrite Hpc. cbn. case_decide as Hb'.
    + apply elem_of_cons in Hy as [->|Hy].
      * right. destruct Hxy as [->| ->]; cbn; set_solver.
      * left. exists b, y. auto.
    + left. exists b', y. auto.
  - unfold res at 1. cbn. set_solver.
Qed.

(** A step that changes nothing shared. *)
Ltac local_step := apply stepped_local; [done|try done|try done; try by intros ? ?%elem_of_nil].

Lemma step_find e t c : table_ok t → at_pc c = Find → call_ok t c →
  stepped t c (step e t c).1 (step e t c).2.
Proof.
  intros T Hpc C. unfold call_ok, step in *. rewrite Hpc in *. cbn [fst snd].
  destruct (N.eqb_spec (find t (value c)) 0) as [Hz|Hz].
  - apply find_zero in Hz as [? _]; [|done..]. by local_step.
  - local_step. cbn. by apply find_denotes.
Qed.

Lemma step_bucket e t c : table_ok t → owns t c → at_pc c = EnsureBucket ∨ at_pc c = CasBucketPage →
  call_ok t c → stepped t c (step e t c).1 (step e t c).2.
Proof.
  intros T Hown Hpc C. pose proof (bucket_of_lt (hash_text (value c))) as Hb.
  unfold call_ok, step in *. destruct Hpc as [Hpc|Hpc]; rewrite Hpc in *.
  - destruct C as [Hne Hbf]. destruct (N.leb_spec bucket_count (bucket_of (hash_text (value c)))); [lia|].
    assert (Hslot : bucket_slot t (bucket_of (hash_text (value c))) =
      if dense_bucket_mode t then dense_allocated t
      else bool_decide (directory (bucket_of (hash_text (value c))) ∈ bucket_pages t)).
    { unfold bucket_slot. by destruct (N.leb_spec bucket_count (bucket_of (hash_text (value c)))); [lia|]. }
    repeat case_match; by local_step.
  - destruct C as (Hne & Hbf & Hmode). set (d := directory _).
    assert (Hslot : ∀ t', dense_bucket_mode t' = false → d ∈ bucket_pages t' →
      bucket_slot t' (bucket_of (hash_text (value c))) = true).
    { intros t' Hm Hd. unfold bucket_slot. rewrite Hm, bool_decide_eq_true_2 by done.
      by destruct (N.leb_spec bucket_count (bucket_of (hash_text (value c)))); [lia|]. }
    case_bool_decide; cbn [fst snd].
    + local_step. cbn. split_and!; [done..|by apply Hslot].
    + apply stepped_grow; try done; [apply add_bucket_page_le|apply T| |].
      * cbn. split_and!; [done..|]. apply Hslot; cbn; [done|set_solver].
      * by intros x ?%elem_of_nil.
Qed.

Lemma step_allocate e t c : table_ok t → owns t c → fresh t e → at_pc c = Allocate →
  call_ok t c → stepped t c (step e t c).1 (step e t c).2.
Proof.
  intros T Hown Hf Hpc C. unfold call_ok, step in *. rewrite Hpc in *.
  unfold fresh in Hf. destruct (arena e) as [result a] eqn:Ha. cbn [fst snd] in Hf.
  destruct (status_ok result) eqn:Hok.
  - specialize (Hf eq_refl). cbn [fst snd].
    apply stepped_grow; try done; [apply take_address_le|apply T|].
    cbn. intros x ->%list_elem_of_singleton. right. cbn. set_solver.
  - apply stepped_local; [done| |by intros x ?%elem_of_nil]. cbn. by destruct result.
Qed.

Lemma step_draw e t c a : table_ok t → owns t c → at_pc c = FetchId a → small (draw_id t) →
  call_ok t c → stepped t c (step e t c).1 (step e t c).2.
Proof.
  intros T Hown Hpc Hsmall C. unfold call_ok, step, owns, res in *. rewrite Hpc in *. cbn [fst snd].
  unfold small in Hsmall. cbn in Hsmall.
  assert (Hn : next_id t = baseline_slot_count + 1 + drawn t).
  { rewrite (to_next _ T). apply w32_small. lia. }
  assert (Hstep : ∀ c', call_ok (draw_id t) c' →
    (∀ x, x ∈ res c' → x ∈ [inr a] ∨ x = inl (next_id t)) → stepped t c (draw_id t) c').
  { intros c' C' Hres. apply stepped_grow; try done.
    - apply draw_id_le.
    - unfold owns, res. by rewrite Hpc.
    - cbn. rewrite (to_next _ T). rewrite !w32_mod, N.Div0.add_mod_idemp_l. f_equal. lia.
    - intros x Hx. unfold res at 1. rewrite Hpc. destruct (Hres x Hx) as [?| ->]; [by left|right].
      cbn. lia. }
  apply Hstep.
  - destruct (N.eqb_spec (next_id t) 0); [done|]. cbn [orb]. by case_match.
  - case_match; cbn; [by intros x ?%elem_of_nil|]. set_solver.
Qed.

Lemma step_page e t c a raw : table_ok t → owns t c →
  at_pc c = EnsurePage a raw ∨ at_pc c = CasPage a raw → call_ok t c →
  stepped t c (step e t c).1 (step e t c).2.
Proof.
  intros T Hown Hpc C. unfold call_ok, step in *. destruct Hpc as [Hpc|Hpc]; rewrite Hpc in *.
  - destruct C as [P Hraw]. apply N.eqb_neq in Hraw as Hraw'. rewrite Hraw', orb_false_r.
    destruct (pages_allocated t) eqn:Hpa; cbn [negb orb]; [|by local_step].
    destruct (N.leb_spec page_count (page_index raw)); [by local_step|].
    assert (Hres : ∀ x : resource, x ∈ [inl raw; inr a] → x ∈ res c) by (unfold res; by rewrite Hpc).
    case_bool_decide; [|destruct (memory e)]; cbn [fst snd]; local_step.
    cbn. split; [done|]. unfold page. rewrite Hpa, Hraw', bool_decide_eq_true_2 by done.
    destruct (N.ltb_spec (page_index raw) page_count); [done|lia].
  - destruct C as (P & Hraw & Hpa & Hpi).
    assert (Hres : ∀ x : resource, x ∈ [inl raw; inr a] → x ∈ res c) by (unfold res; by rewrite Hpc).
    assert (Hpage : ∀ t', pages_allocated t' = true → page_index raw ∈ pages t' → page t' raw = true).
    { intros t' ? ?. unfold page. apply N.eqb_neq in Hraw as ->.
      rewrite bool_decide_eq_true_2 by done. apply N.ltb_lt in Hpi as ->.
      by destruct (pages_allocated t'). }
    case_bool_decide; cbn [fst snd].
    + apply stepped_local; [done| |done]. cbn. auto.
    + apply stepped_grow; try done; [apply add_page_le|apply T| |].
      * cbn. split; [done|]. apply Hpage; [done|cbn; set_solver].
      * intros x Hx. left. by apply Hres.
Qed.

Lemma step_slot e t c a raw existing : table_ok t → owns t c →
  at_pc c = StoreDirect a raw ∨ at_pc c = ClearDirect a raw existing → call_ok t c →
  stepped t c (step e t c).1 (step e t c).2.
Proof.
  intros T Hown Hpc C.
  assert (Hres : res c = [inl raw; inr a]) by (unfold res; by destruct Hpc as [-> | ->]).
  assert (Hs : ∀ o r, inl r ∉ res c → slots (set_slot t raw o) !! r = slots t !! r).
  { intros o r Hr. cbn. rewrite lookup_partial_alter_ne; [done|]. rewrite Hres in Hr. set_solver. }
  unfold call_ok, step in *. destruct Hpc as [Hpc|Hpc]; rewrite Hpc in *; cbn [fst snd];
    apply stepped_grow; try done; try apply set_slot_le; try apply T; try by apply Hs.
  - cbn. destruct C as [P Hp]. split_and!; [apply P..|done|]. cbn. by rewrite lookup_partial_alter_eq.
  - rewrite Hres. by left.
  - by intros x ?%elem_of_nil.
Qed.

Lemma step_scan e t c a raw head : table_ok t → owns t c →
  at_pc c = LoadHead a raw ∨ at_pc c = Scan a raw head ∨ at_pc c = CasHead a raw head →
  call_ok t c → stepped t c (step e t c).1 (step e t c).2.
Proof.
  intros T Hown Hpc C.
  assert (Hres : res c = [inl raw; inr a]) by (unfold res; by destruct Hpc as [-> |[-> | ->]]).
  destruct Hpc as [Hpc|[Hpc|Hpc]]; unfold step; rewrite Hpc; cbn [fst snd].
  - unfold call_ok in C. rewrite Hpc in C. apply stepped_local; [done| |by rewrite Hres].
    split; [done|]. unfold snapshot. reflexivity.
  - unfold call_ok in C. rewrite Hpc in C. destruct C as [S Hsnap].
    pose proof (scan_spec t (value c) head T Hsnap) as Hscan.
    destruct (list_find _ head) as [[i r]|]; cbn [fst snd]; (apply stepped_local; [done| |by rewrite Hres]).
    + destruct Hscan as [Hr Ht]. right. split; [apply S|]. exists r. split_and!; [|done..].
      destruct Hsnap as [l Hl]. cbn [value goto]. rewrite Hl. set_solver.
    + by split_and!.
  - case_bool_decide as Ha; cbn [andb]; [destruct (spurious e); cbn [negb]|].
    2: by apply (stepped_publish t c a raw head).
    all: unfold call_ok in C; rewrite Hpc in C; destruct C as (S & _ & _);
      apply stepped_local; [done|split; [done|unfold snapshot; reflexivity]|by rewrite Hres].
Qed.

Lemma step_ok e t c : table_ok t → owns t c → fresh t e → small (step e t c).1 → call_ok t c →
  stepped t c (step e t c).1 (step e t c).2.
Proof.
  intros T Hown Hf Hsmall C. destruct (at_pc c) as [| | | |a|a raw|a raw|a raw|a raw|a raw head|a raw head
    |a raw existing|raw|result output] eqn:Hpc.
  - by apply step_find.
  - apply step_bucket; auto.
  - apply step_bucket; auto.
  - by apply step_allocate.
  - apply (step_draw _ _ _ a); try done. unfold step in Hsmall. by rewrite Hpc in Hsmall.
  - apply (step_page _ _ _ a raw); auto.
  - apply (step_page _ _ _ a raw); auto.
  - apply (step_slot _ _ _ a raw 0); auto.
  - apply (step_scan _ _ _ a raw []); auto.
  - apply (step_scan _ _ _ a raw head); auto.
  - apply (step_scan _ _ _ a raw head); auto.
  - apply (step_slot _ _ _ a raw existing); auto.
  - unfold step, call_ok in *. rewrite Hpc in *. cbn [fst snd].
    apply stepped_grow; try done; try apply T. by intros x ?%elem_of_nil.
  - unfold step. rewrite Hpc. by local_step.
Qed.

(** ** Every interleaving *)

Record config_ok (t : table) (cs : list call) : Prop := ConfigOk {
  co_table : table_ok t;
  co_calls i c : cs !! i = Some c → call_ok t c;
  co_owns i c : cs !! i = Some c → owns t c;
  co_disjoint i j c d x : i ≠ j → cs !! i = Some c → cs !! j = Some d → x ∈ res c → x ∉ res d;
}.

Lemma config_ok_init dense_ok pages_ok : baseline_slot_count < two32 →
  config_ok (string_table dense_ok pages_ok) [].
Proof.
  intros Hb. constructor; try done. constructor.
  - cbn. rewrite N.add_0_r. destruct (N.ltb_spec baseline_slot_count 0xffffffff).
    + symmetry. apply w32_small. unfold two32. lia.
    + unfold two32 in Hb. by replace baseline_slot_count with 0xffffffff by lia.
  - intros b r Hr. by apply elem_of_nil in Hr.
  - intros b. apply NoDup_nil_2.
  - intros b. apply NoDup_nil_2.
Qed.

Lemma call_ok_intern t v : call_ok t (intern t v) ∧ res (intern t v) = [].
Proof.
  unfold intern, call_ok, res. cbn. destruct (String.eqb_spec v EmptyString); [done|].
  by repeat case_match.
Qed.

Lemma config_ok_step t cs i c e :
  config_ok t cs → cs !! i = Some c → fresh t e → small (step e t c).1 →
  config_ok (step e t c).1 (<[i := (step e t c).2]> cs).
Proof.
  intros [T C O D] Hi Hf Hs.
  pose proof (step_ok e t c T (O _ _ Hi) Hf Hs (C _ _ Hi)) as [Hle T' C' Hslots Hpub Hres].
  set (t' := (step e t c).1) in *. set (c' := (step e t c).2) in *.
  assert (Hlt := lookup_lt_Some _ _ _ Hi).
  assert (Hdis : ∀ j d x, j ≠ i → cs !! j = Some d → x ∈ res c' → x ∉ res d).
  { intros j d x Hji Hj Hx Hd. destruct (Hres x Hx) as [Hc|[Hn _]].
    - by apply (D i j c d x).
    - destruct (O _ _ Hj x Hd). done. }
  constructor.
  - done.
  - intros j d [(-> & -> & _)|[Hji Hj]]%list_lookup_insert_Some; [done|].
    apply (call_ok_mono t); [done| |by eapply C]. intros r Hr. apply Hslots. intros Hc.
    by apply (D j i d c (inl r)).
  - intros j d [(-> & -> & _)|[Hji Hj]]%list_lookup_insert_Some x Hx.
    + destruct (Hres x Hx) as [Hc|[Hn Hy]].
      * destruct (O _ _ Hi x Hc). split; [by apply (issued_mono t)|].
        intros [?|[_ ?]]%Hpub; done.
      * split; [done|]. intros [Hp|[Hc _]]%Hpub; [by apply published_issued in Hp|].
        by destruct (O _ _ Hi x Hc).
    + destruct (O _ _ Hj x Hx). split; [by apply (issued_mono t)|].
      intros [?|[Hc _]]%Hpub; [done|]. by apply (D j i d c x).
  - intros j k d f x Hjk [(-> & -> & _)|[Hji Hj]]%list_lookup_insert_Some
      [(-> & -> & _)|[Hki Hk]]%list_lookup_insert_Some Hx; [done| | |].
    + apply (Hdis k f x); auto.
    + intros Hx'. apply (Hdis j d x); auto.
    + by apply (D j k d f x).
Qed.

Lemma config_ok_start t cs v : config_ok t cs → config_ok t (cs ++ [intern t v]).
Proof.
  intros [T C O D]. destruct (call_ok_intern t v) as [Hc Hr]. constructor; [done| | |].
  - intros i c [[_ ?]|[_ ->]]%lookup_snoc_Some_inv; [by eapply C|done].
  - intros i c [[_ ?]|[_ ->]]%lookup_snoc_Some_inv; [by eapply O|].
    intros x. rewrite Hr. by intros ?%elem_of_nil.
  - intros i j c d x Hij [[Hi ?]|[Hi ->]]%lookup_snoc_Some_inv
      [[Hj ?]|[Hj ->]]%lookup_snoc_Some_inv; [by eapply D| | |lia]; rewrite Hr;
      [by intros _ ?%elem_of_nil|by intros ?%elem_of_nil].
Qed.

Lemma reachable_ok dense_ok pages_ok t cs : baseline_slot_count < two32 →
  reachable dense_ok pages_ok (t, cs) → small t → config_ok t cs.
Proof.
  intros Hb Hr. change (small (t, cs).1 → config_ok (t, cs).1 (t, cs).2). revert Hr.
  apply (rtc_ind_r (λ cfg, small cfg.1 → config_ok cfg.1 cfg.2) (string_table dense_ok pages_ok, [])).
  { intros _. by apply config_ok_init. }
  intros cfg1 cfg2 _ Hstep IH. inversion Hstep as [t0 cs0 v|t0 cs0 i c e Hi Hf]; subst; cbn [fst snd] in *; intros Hs.
  - apply config_ok_start. by apply IH.
  - apply config_ok_step; [|done..]. apply IH. unfold small in *.
    assert (drawn t0 ≤ drawn (step e t0 c).1); [|lia].
    unfold step. repeat case_match; simplify_eq/=; lia.
Qed.

(** ** Theorems *)

(** C2: under every interleaving (while the identity counter has not
    wrapped), any two finished successful [intern] calls return the same identity exactly
    when they were given the same text, and it is never the invalid one. *)
Theorem intern_canonical dense_ok pages_ok t cs i j v w x y :
  baseline_slot_count < two32 → reachable dense_ok pages_ok (t, cs) → small t →
  cs !! i = Some (Call v (Finished ok x)) → cs !! j = Some (Call w (Finished ok y)) →
  x ≠ 0 ∧ (v = w ↔ x = y).
Proof.
  intros Hb Hr Hs Hi Hj. destruct (reachable_ok _ _ _ _ Hb Hr Hs) as [T C _ _].
  pose proof (C _ _ Hi) as Hx. pose proof (C _ _ Hj) as Hy.
  split; [exact (denotes_nonzero _ _ _ T Hx)|exact (denotes_inj _ _ _ _ _ T Hx Hy)].
Qed.

(** C29: under every interleaving, a text whose [intern] succeeded is found
    under its identity, and the identity reads back the text, in every later state; and
    whatever [find] returns reads back the text that was looked up. *)
Theorem intern_readable dense_ok pages_ok t cs i v x :
  baseline_slot_count < two32 → reachable dense_ok pages_ok (t, cs) → small t →
  cs !! i = Some (Call v (Finished ok x)) → v ≠ EmptyString →
  find t v = x ∧ get t x = v ∧ (∀ w, find t w ≠ 0 → get t (find t w) = w).
Proof.
  intros Hb Hr Hs Hi Hv. destruct (reachable_ok _ _ _ _ Hb Hr Hs) as [T C _ _].
  pose proof (C _ _ Hi) as Hx. split_and!.
  - apply find_denotes; [done|done|exact (denotes_nonzero _ _ _ T Hx)|exact Hx].
  - by apply denotes_get.
  - intros w Hw. assert (w ≠ EmptyString) by by intros ->.
    apply denotes_get; [done|]. by apply find_denotes.
Qed.

(** ** One call without interference *)

Fixpoint alone (e : table → event) (n : nat) (p : table * call) : table * call :=
  match n with
  | O => p
  | S n' => alone e n' (step (e p.1) p.1 p.2)
  end.

Definition ends (e : table → event) (p : table * call) (Q : table → call → Prop) : Prop :=
  ∃ n t' c', alone e n p = (t', c') ∧ Q t' c'.

Lemma ends_now e t c (Q : table → call → Prop) : Q t c → ends e (t, c) Q.
Proof. intros. by exists 0%nat, t, c. Qed.

Lemma ends_step e t c p Q : step (e t) t c = p → ends e p Q → ends e (t, c) Q.
Proof. intros <- (n & t' & c' & Hr & HQ). exists (S n), t', c'. done. Qed.

(** An environment that refuses nothing. *)
Definition generous (e : table → event) : Prop :=
  ∀ t, memory (e t) = true ∧ (arena (e t)).1 = ok ∧ spurious (e t) = false ∧ fresh t (e t).

Lemma page_index_lt raw : raw ≠ 0 → raw ≤ maximum_id → page_index raw < page_count.
Proof.
  intros H0 Hm. unfold page_index. rewrite N.shiftr_div_pow2.
  apply N.Div0.div_lt_upper_bound. unfold maximum_id, page_size in Hm. lia.
Qed.

(** What a call alone leaves when it adds the text. *)
Definition added (t : table) (v : string) (t' : table) : Prop :=
  (∃ a, bucket t' (bucket_of (hash_text v)) =
     Record a (hash_text v) (next_id t) v :: bucket t (bucket_of (hash_text v))) ∧
  (∀ b, b ≠ bucket_of (hash_text v) → bucket t' b = bucket t b) ∧
  live_count t' = w64 (live_count t + 1) ∧ next_id t' = w32 (next_id t + 1) ∧
  drawn t' = drawn t + 1.

Section alone.
Context (e : table → event) (He : generous e) (t : table) (v : string).
Context (T : table_ok t) (Hv : v ≠ EmptyString) (Hnew : find t v = 0).

Let b := bucket_of (hash_text v).
Let finished x (P : table → Prop) (t' : table) (c' : call) : Prop :=
    c' = Call v (Finished ok x) ∧ P t'.

Lemma ends_publish t1 a raw : bucket t1 b = bucket t b →
    ends e (t1, Call v (LoadHead a raw))
      (finished raw (λ t', t' = count_live (push_record t1 b (Record a (hash_text v) raw v)))).
Proof.
    intros Hb. pose proof (find_zero t v T Hv Hnew) as [_ Hno].
    eapply ends_step; [done|]. cbn [step at_pc value goto]. fold b. rewrite Hb.
    pose proof (scan_spec t v (bucket t b) T (reflexivity _)) as Hscan.
    eapply ends_step; [done|]. cbn [step at_pc value goto].
    destruct (list_find _ (bucket t b)) as [[k r]|].
    { destruct Hscan as [Hr Ht]. destruct Hno. apply list_elem_of_fmap. eauto. }
    eapply ends_step; [done|]. cbn [step at_pc value goto]. fold b. rewrite Hb.
    rewrite bool_decide_eq_true_2 by done. destruct (He t1) as (_ & _ & -> & _). cbn [andb negb].
    eapply ends_step; [done|]. cbn [step at_pc value goto]. by apply ends_now.
Qed.

Lemma ends_store t1 a : pages_allocated t1 = true → next_id t ≠ 0 → next_id t ≤ maximum_id →
    (∀ b, bucket t1 b = bucket t b) → live_count t1 = live_count t →
    next_id t1 = w32 (next_id t + 1) → drawn t1 = drawn t + 1 →
    ends e (t1, Call v (EnsurePage a (next_id t))) (finished (next_id t) (added t v)).
Proof.
    intros Hp Hn0 Hn Hb Hl Hi Hd. eapply ends_step; [done|]. cbn [step at_pc value goto].
    rewrite Hp. apply N.eqb_neq in Hn0 as Hn0'. rewrite Hn0'. cbn [negb orb].
    destruct (N.leb_spec page_count (page_index (next_id t))) as [Hle|_].
    { pose proof (page_index_lt _ Hn0 Hn). lia. }
    assert (Htail : ∀ t2, (∀ b, bucket t2 b = bucket t1 b) → live_count t2 = live_count t1 →
      next_id t2 = next_id t1 → drawn t2 = drawn t1 →
      ends e (t2, Call v (StoreDirect a (next_id t))) (finished (next_id t) (added t v))).
    { intros t2 Hb2 Hl2 Hi2 Hd2. eapply ends_step; [done|]. cbn [step at_pc value goto].
      set (t3 := set_slot t2 _ _).
      destruct (ends_publish t3 a (next_id t)) as (n & t' & c' & Hr & -> & ->).
      { change (bucket t3 b) with (bucket t2 b). by rewrite Hb2, Hb. }
      exists n. do 2 eexists. split; [exact Hr|]. split; [done|].
      assert (Hb3 : ∀ b, bucket t3 b = bucket t b) by (intros b0; change (bucket t3 b0) with (bucket t2 b0); congruence).
      split_and!; cbn; try congruence.
      - exists a. change (bucket (count_live ?x)) with (bucket x).
        rewrite bucket_push, decide_True by done. by rewrite Hb3.
      - intros b0 Hne. change (bucket (count_live ?x)) with (bucket x).
        rewrite bucket_push, decide_False by done. by rewrite Hb3. }
    case_bool_decide; [by apply Htail|]. destruct (He t1) as (-> & _).
    eapply ends_step; [done|]. cbn [step at_pc value goto].
    rewrite bool_decide_eq_false_2 by done. by apply Htail.
Qed.

Lemma ends_allocate t1 : pages_allocated t1 = true → next_id t ≠ 0 → next_id t ≤ maximum_id →
    (∀ b, bucket t1 b = bucket t b) → live_count t1 = live_count t →
    next_id t1 = next_id t → drawn t1 = drawn t →
    ends e (t1, Call v Allocate) (finished (next_id t) (added t v)).
Proof.
    intros Hp Hn0 Hn Hb Hl Hi Hd. eapply ends_step; [done|]. cbn [step at_pc value goto].
    destruct (He t1) as (_ & Har & _). destruct (arena (e t1)) as [r a]. cbn in Har. subst r.
    cbn [status_ok]. eapply ends_step; [done|]. cbn [step at_pc value goto next_id take_address].
    rewrite Hi. apply N.eqb_neq in Hn0 as Hn0'. rewrite Hn0'.
    destruct (N.ltb_spec maximum_id (next_id t)); [lia|]. cbn [orb].
    apply ends_store; try done; cbn; congruence.
Qed.
End alone.

(** From any reachable state, an [intern] of a non-empty text that runs
    without interference, refused no memory and with identities left, terminates with ok.
    A known text changes nothing and returns its identity; a new one gets the next identity,
    is pushed on its bucket only, and is counted once. *)
Theorem intern_alone dense_ok pages_ok t cs (e : table → event) v :
  baseline_slot_count < two32 → reachable dense_ok pages_ok (t, cs) → small t → generous e →
  v ≠ EmptyString → N.of_nat (String.length v) ≤ 0xffffffff →
  pages_allocated t = true → (dense_bucket_mode t = true → dense_allocated t = true) →
  next_id t ≠ 0 → next_id t ≤ maximum_id →
  ∃ n t' x, alone e n (t, intern t v) = (t', Call v (Finished ok x)) ∧
    if find t v =? 0 then x = next_id t ∧ added t v t' else x = find t v ∧ t' = t.
Proof.
  intros Hb Hr Hs He Hv Hlen Hp Hd Hn0 Hn. destruct (reachable_ok _ _ _ _ Hb Hr Hs) as [T _ _ _].
  assert (ends e (t, intern t v) (λ t' c', ∃ x, c' = Call v (Finished ok x) ∧
    if find t v =? 0 then x = next_id t ∧ added t v t' else x = find t v ∧ t' = t))
    as (n & t' & c' & Hrun & x & -> & HQ); [|by exists n, t', x].
  unfold intern. rewrite (proj2 (String.eqb_neq _ _)), Hp by done. cbn [negb].
  destruct (N.ltb_spec 0xffffffff (N.of_nat (String.length v))) as [|_]; [lia|].
  destruct (N.ltb_spec (two64 - 1 - N.of_nat (String.length v)) 24) as [|_]; [unfold two64 in *; lia|].
  eapply ends_step; [done|]. cbn [step at_pc value goto].
  destruct (N.eqb_spec (find t v) 0) as [Hz|Hz].
  2: { apply ends_now. eauto. }
  assert (Halloc : ∀ t1, pages_allocated t1 = true → (∀ b, bucket t1 b = bucket t b) →
    live_count t1 = live_count t → next_id t1 = next_id t → drawn t1 = drawn t →
    ends e (t1, Call v Allocate) (λ t' c', ∃ x, c' = Call v (Finished ok x) ∧
      x = next_id t ∧ added t v t')).
  { intros t1 ?????. destruct (ends_allocate e He t v T Hv Hz t1) as (n & t' & c' & ? & -> & ?);
      try done. exists n, t'. eexists. eauto. }
  eapply ends_step; [done|]. cbn [step at_pc value goto].
  pose proof (bucket_of_lt (hash_text v)) as Hbl.
  destruct (N.leb_spec bucket_count (bucket_of (hash_text v))) as [|_]; [lia|].
  destruct (dense_bucket_mode t); [rewrite Hd by done; by apply Halloc|].
  case_bool_decide; [by apply Halloc|]. destruct (He t) as (-> & _).
  eapply ends_step; [done|]. cbn [step at_pc value goto].
  rewrite bool_decide_eq_false_2 by done. by apply Halloc.
Qed.

(** A schedule: start a call, or give call [i] its next step, with an arena that numbers its
    regions. *)
Inductive move : Set := Start (v : string) | Step (i : nat).

Definition counting (t : table) : event :=
  Event true (ok, stdpp.base.fresh (allocated t)) false.

Lemma counting_generous : generous counting.
Proof. intros t. split_and!; [done..|]. intros _. cbn. apply is_fresh. Qed.

Fixpoint play (cfg : config) (moves : list move) : option config :=
  match moves with
  | [] => Some cfg
  | Start v :: rest => play (cfg.1, cfg.2 ++ [intern cfg.1 v]) rest
  | Step i :: rest =>
      match cfg.2 !! i with
      | Some c => play ((step (counting cfg.1) cfg.1 c).1,
                        <[i := (step (counting cfg.1) cfg.1 c).2]> cfg.2) rest
      | None => None
      end
  end.

Lemma play_sound moves cfg cfg' : play cfg moves = Some cfg' → rtc config_step cfg cfg'.
Proof.
  revert cfg. induction moves as [|[v|i] moves IH]; intros [t cs]; cbn [play fst snd].
  - by intros [= <-].
  - intros Hp. eapply rtc_l; [apply start_call|by apply IH].
  - destruct (cs !! i) as [c|] eqn:Hi; [|done].
    intros Hp. eapply rtc_l; [apply (step_call t cs i c (counting t)); [done|]|by apply IH].
    apply counting_generous.
Qed.

Lemma play_result moves cfg calls d :
  (λ p : config, (p.2, drawn p.1)) <$> play cfg moves = Some (calls, d) →
  ∃ t, rtc config_step cfg (t, calls) ∧ drawn t = d.
Proof.
  destruct (play cfg moves) as [[t cs]|] eqn:E; [|done]. cbn. intros [= -> <-].
  exists t. split; [by apply (play_sound moves)|done].
Qed.

End table.

(** ** Three calls, two of them racing on one text *)

Definition steps (i n : nat) : list move := replicate n (Step i).

Definition race : list move :=
  [Start "left"; Start "left"; Start "right"] ++
  steps 0 7 ++ steps 1 7 ++ steps 2 4 ++ steps 0 4 ++ steps 1 5 ++ steps 2 9.

Definition race_calls : list call :=
  [Call "left" (Finished ok 1); Call "left" (Finished ok 1); Call "right" (Finished ok 3)].

Lemma race_reaches : ∃ t, reachable None true true (t, race_calls) ∧ small None t.
Proof.
  destruct (play_result None race (string_table None true true, []) race_calls 3) as (t & Hr & Hd).
  { vm_compute. reflexivity. }
  exists t. split; [exact Hr|]. unfold small. rewrite Hd. unfold baseline_slot_count, two32. lia.
Qed.

Lemma no_baseline_laws : ∀ b : compiled_image_view, None = Some b → BaselineLaws b.
Proof. done. Qed.

Lemma intern_canonical_witness : ∃ t,
  reachable None true true (t, race_calls) ∧ (1 ≠ 0 ∧ ("left"%string = "left"%string ↔ 1 = 1)) ∧
  (1 ≠ 0 ∧ ("left"%string = "right"%string ↔ 1 = 3)).
Proof.
  destruct race_reaches as (t & Hr & Hs). exists t. split; [done|]. split.
  - apply (intern_canonical None no_baseline_laws true true t race_calls 0 1); [|exact Hr|exact Hs|..]; reflexivity.
  - apply (intern_canonical None no_baseline_laws true true t race_calls 0 2); [|exact Hr|exact Hs|..]; reflexivity.
Defined.

Lemma intern_readable_witness : ∃ t,
  reachable None true true (t, race_calls) ∧ find None t "right" = 3 ∧ get None t 3 = "right"%string.
Proof.
  destruct race_reaches as (t & Hr & Hs). exists t. split; [done|].
  destruct (intern_readable None no_baseline_laws true true t race_calls 2 "right" 3) as (H1 & H2 & _);
    [reflexivity|exact Hr|exact Hs|reflexivity|discriminate|]. split; [exact H1|exact H2].
Defined.

Lemma intern_alone_witness : ∃ n t' x,
  alone None counting n (string_table None true true, intern (string_table None true true) "text") =
    (t', Call "text" (Finished ok x)) ∧ x = 1.
Proof.
  destruct (intern_alone None no_baseline_laws true true (string_table None true true) []
    counting "text") as (n & t' & x & Hrun & Hx).
  - reflexivity.
  - apply rtc_refl.
  - discriminate.
  - apply counting_generous.
  - discriminate.
  - discriminate.
  - reflexivity.
  - reflexivity.
  - discriminate.
  - discriminate.
  - exists n, t', x. split; [exact Hrun|]. exact (proj1 Hx).
Defined.

End StringTable.
