(* ===== verification/IdentitySpace.v ===== *)
(** * The concurrent identity space

    Models server_engine/project/identity/identity_node.hpp and identity_space.{hpp,cpp}:
    the packed identity references, the hash index over slots linked by [next_bucket], the
    canonicalizing [resolve_declaration] as a machine whose steps are the atomic operations
    of the code (calls of different threads interleave at those steps, under sequential
    consistency), the lookups, and the index statistics except their floating-point
    averages. *)

From S2P Require Import Prelude.
From stdpp Require Import sets.

Local Open Scope N_scope.

Module IdentitySpace.

(** ** References *)

Inductive identity_kind : Set := root_kind | namespace_scope | type_kind | object_kind.

#[export] Instance identity_kind_eq_dec : EqDecision identity_kind.
Proof. solve_decision. Defined.

Definition kind_bits (k : identity_kind) : N :=
  match k with root_kind => 0 | namespace_scope => 1 | type_kind => 2 | object_kind => 3 end.

(** [static_cast<identity_kind>(value >> kind_shift)] on a 32-bit value. *)
Definition kind_of_bits (n : N) : identity_kind :=
  if n =? 0 then root_kind else if n =? 1 then namespace_scope
  else if n =? 2 then type_kind else object_kind.

Definition kind_shift : N := 30.
Definition slot_mask : N := 0x3fffffff.
Definition maximum_slot : N := slot_mask.

(** An [identity_ref] is its 32-bit value. *)
Definition ref_slot (v : N) : N := N.land v slot_mask.
Definition ref_kind (v : N) : identity_kind := kind_of_bits (N.shiftr v kind_shift).
Definition ref_valid (v : N) : bool := negb (ref_slot v =? 0).
Definition make (slot : N) (kind : identity_kind) : N :=
  N.lor (N.shiftl (kind_bits kind) kind_shift) slot.
Definition root : N := make 1 root_kind.

(** ** Hashing *)

Definition semantic_hash_value (parent local_name : N) : N :=
  mix64 (N.lxor parent (N.shiftl local_name 32)).

Definition semantic_fingerprint (hash : N) : N :=
  let result := N.land (w32 (N.lxor hash (N.shiftr hash 32))) slot_mask in
  if result =? 0 then 1 else result.

Definition packed_fingerprint (fingerprint : N) (kind : identity_kind) : N :=
  N.lor fingerprint (N.shiftl (kind_bits kind) kind_shift).

Definition semantic_bucket_count : N := 2 ^ 21.
Definition semantic_bucket_mask : N := semantic_bucket_count - 1.
Definition semantic_bucket_page_shift : N := 11.
Definition page_shift : N := 12.
Definition directory_page_bits : N := 9.
Definition directory_count : N := 2 ^ (kind_shift - page_shift - directory_page_bits).

Definition bucket_of (hash : N) : N := N.land hash semantic_bucket_mask.

(** ** The active baseline *)

Record compiled_image_view : Type := CompiledImageView {
  identity_slot_count : N;
  baseline_count : N;
  find_identity : N → N → identity_kind → option N;     (* [Some] with an ok status *)
  identity_valid : N → bool;
  identity_parent : N → N;
  identity_name : N → N;
  identity_at_slot : N → N;
}.

(** What an image promises: a found identity is a valid slot of the image, of the requested
    kind, with the requested edge; and an edge has one identity whatever its kind. *)
Class BaselineLaws (image : compiled_image_view) : Prop := {
  find_identity_slot p n k r :
    find_identity image p n k = Some r → 1 ≤ ref_slot r ≤ identity_slot_count image;
  find_identity_kind p n k r : find_identity image p n k = Some r → ref_kind r = k;
  find_identity_reads p n k r : find_identity image p n k = Some r →
    identity_valid image r = true ∧ identity_parent image r = p ∧ identity_name image r = n;
  find_identity_one p n k k' r r' :
    find_identity image p n k = Some r → find_identity image p n k' = Some r' → k = k';
  find_identity_root p n : find_identity image p n root_kind = None;
}.

(** ** The space *)

Record record : Set := Record
  { parent_identity : N; local_name : N; fingerprint : N; next_bucket : N }.

#[export] Instance record_eq_dec : EqDecision record.
Proof. solve_decision. Defined.

Definition no_record : record := Record 0 0 0 0.
Definition root_record : record := Record 0 0 1 0.

(** [chains] is a history variable: the references published in each bucket, with their
    records. *)
Record space : Set := Space {
  dense_semantic_bucket_mode : bool;
  dense_allocated : bool;
  semantic_bucket_pages : gset N;
  buckets : gmap N N;
  directories : gset N;
  pages : gset N;                     (* by page number *)
  slots : gmap N record;
  next_slot : N;
  identity_count : N;
  chains : gmap N (list (N * record));
}.

Section space.
Context (baseline : option compiled_image_view).

Definition baseline_slot_count : N :=
  match baseline with Some b => identity_slot_count b | None => 0 end.
Definition baseline_identity_count : N :=
  match baseline with Some b => baseline_count b | None => 0 end.

(** The two constructors. *)
Definition identity_space (dense_ok : bool) : space :=
  match baseline with
  | None => Space true dense_ok ∅ ∅ ∅ ∅ ∅ 2 1 ∅
  | Some _ =>
      Space false false ∅ ∅ ∅ ∅ ∅
        (if baseline_slot_count <? maximum_slot then baseline_slot_count + 1 else 0) 0 ∅
  end.

Definition bucket (t : space) (b : N) : N := default 0 (buckets t !! b).

(** [semantic_bucket]: whether the bucket can be addressed. *)
Definition semantic_bucket (t : space) (b : N) : bool :=
  if semantic_bucket_count <=? b then false
  else if dense_semantic_bucket_mode t then dense_allocated t
  else bool_decide (N.shiftr b semantic_bucket_page_shift ∈ semantic_bucket_pages t).

Definition page_number (slot : N) : N := N.shiftr slot page_shift.
Definition directory_index (slot : N) : N := N.shiftr (page_number slot) directory_page_bits.

Definition slot_record (t : space) (slot : N) : option record :=
  if slot =? 1 then Some root_record
  else if (slot =? 0) || (maximum_slot <? slot) then None
  else if directory_count <=? directory_index slot then None
  else if negb (bool_decide (directory_index slot ∈ directories t)) then None
  else if negb (bool_decide (page_number slot ∈ pages t)) then None
  else Some (default no_record (slots t !! slot)).

Definition published_record (t : space) (identity : N) : option record :=
  if negb (ref_valid identity) then None
  else
    match slot_record t (ref_slot identity) with
    | None => None
    | Some r =>
        if ref_slot identity =? 1 then
          if bool_decide (ref_kind identity = root_kind) then Some r else None
        else if negb (ref_slot (fingerprint r) =? 0) &&
                bool_decide (ref_kind (fingerprint r) = ref_kind identity) &&
                negb (local_name r =? 0)
        then Some r else None
    end.

(** Whether the reference belongs to the baseline image. *)
Definition in_baseline (identity : N) : option compiled_image_view :=
  match baseline with
  | Some b => if ref_slot identity <=? baseline_slot_count then Some b else None
  | None => None
  end.

Definition valid (t : space) (identity : N) : bool :=
  if negb (ref_valid identity) then false
  else match in_baseline identity with
       | Some b => identity_valid b identity
       | None => match published_record t identity with Some _ => true | None => false end
       end.

Definition parent (t : space) (identity : N) : N :=
  match (if ref_valid identity then in_baseline identity else None) with
  | Some b => identity_parent b identity
  | None => default 0 (parent_identity <$> published_record t identity)
  end.

Definition name (t : space) (identity : N) : N :=
  match (if ref_valid identity then in_baseline identity else None) with
  | Some b => identity_name b identity
  | None => default 0 (local_name <$> published_record t identity)
  end.

Definition size (t : space) : N := baseline_identity_count + identity_count t.
Definition slot_count (t : space) : N := if 1 <? next_slot t then next_slot t - 1 else 1.

Definition at_slot_local (t : space) (index : N) : N :=
  if (slot_count t <=? index) || (maximum_slot <=? index) then 0
  else
    let slot := w32 (index + 1) in
    if slot =? 1 then root
    else
      match slot_record t slot with
      | None => 0
      | Some item =>
          if (ref_slot (fingerprint item) =? 0) || (local_name item =? 0) then 0
          else
            let kind := ref_kind (fingerprint item) in
            if bool_decide (kind = root_kind) then 0
            else match published_record t (make slot kind) with
                 | Some _ => make slot kind
                 | None => 0
                 end
      end.

Definition at_slot (t : space) (index : N) : N :=
  match baseline with
  | Some b => if index <? baseline_slot_count then identity_at_slot b index
              else at_slot_local t index
  | None => at_slot_local t index
  end.

(** ** The chain walk

    Shared by [find_record] and [resolve_declaration]: where it stops on the chain from
    [current_value].  [Stuck] is the end of the fuel, which one more than the number of
    records in slots never reaches. *)
Inductive search_result : Set := Absent | Broken | Found (current : N) | Stuck.

Fixpoint search (t : space) (parent local_name_value fingerprint_value : N) (fuel : nat)
    (current_value : N) : search_result :=
  match fuel with
  | O => Stuck
  | S fuel' =>
      if current_value =? 0 then Absent
      else
        let current := make (ref_slot current_value) (ref_kind current_value) in
        match published_record t current with
        | None => Broken
        | Some item =>
            if (ref_slot (fingerprint item) =? fingerprint_value) &&
               (parent_identity item =? parent) && (local_name item =? local_name_value)
            then Found current
            else search t parent local_name_value fingerprint_value fuel' (next_bucket item)
        end
  end.

Definition chain_fuel (t : space) : nat := S (S (stdpp.base.size (slots t))).

Definition find_record (t : space) (parent local_name_value hash fingerprint_value : N) : N :=
  if semantic_bucket t (bucket_of hash) then
    match search t parent local_name_value fingerprint_value (chain_fuel t)
            (bucket t (bucket_of hash)) with
    | Found current => current
    | _ => 0
    end
  else 0.

Definition baseline_find (parent local_name_value : N) (kind : identity_kind) : option N :=
  match baseline with Some b => find_identity b parent local_name_value kind | None => None end.

Definition find (t : space) (parent local_name_value : N) (kind : identity_kind) : N :=
  if negb (ref_valid parent) || (local_name_value =? 0) || bool_decide (kind = root_kind) ||
     negb (valid t parent)
  then 0
  else
    let hash := semantic_hash_value parent local_name_value in
    let found := find_record t parent local_name_value hash (semantic_fingerprint hash) in
    if ref_valid found then (if bool_decide (ref_kind found = kind) then found else 0)
    else default 0 (baseline_find parent local_name_value kind).

(** ** Statistics

    The counters are bounded by the 2^30 slots, so their sums do not wrap.  The two averages
    are floating-point divisions of the counters and are left out. *)

(** The loop over the histogram from index 1. *)
Fixpoint percentile_walk (histogram : list N) (comparisons cumulative target : N) : option N :=
  match histogram with
  | [] => None
  | h :: rest =>
      if target <=? cumulative + h then Some comparisons
      else percentile_walk rest (comparisons + 1) (cumulative + h) target
  end.

Definition percentile_target (entry_count numerator : N) : N :=
  entry_count / 100 * numerator + (entry_count mod 100 * numerator + 99) / 100.

Definition percentile_from_histogram (histogram : list N) (entry_count numerator : N) : N :=
  if entry_count =? 0 then 0
  else default (N.of_nat (length histogram) - 1)
         (percentile_walk (tail histogram) 1 0 (percentile_target entry_count numerator)).

Record identity_index_statistics : Set := Statistics {
  entry_count : N;
  occupied_buckets : N;
  collision_entries : N;
  max_chain_length : N;
  total_comparisons : N;
  comparison_histogram : list N;
}.

Definition no_statistics : identity_index_statistics := Statistics 0 0 0 0 0 (replicate 256 0).

(** The inner loop of [account_bucket]: the chain length, and the totals so far. *)
Fixpoint account_chain (t : space) (fuel : nat) (current_value chain_length : N)
    (s : identity_index_statistics) : N * identity_index_statistics :=
  match fuel with
  | O => (chain_length, s)
  | S fuel' =>
      if current_value =? 0 then (chain_length, s)
      else
        match published_record t (make (ref_slot current_value) (ref_kind current_value)) with
        | None => (chain_length, s)
        | Some item =>
            let chain_length := chain_length + 1 in
            let histogram_index := if chain_length <? 256 then chain_length else 255 in
            account_chain t fuel' (next_bucket item) chain_length
              (Statistics (entry_count s + 1) (occupied_buckets s) (collision_entries s)
                 (max_chain_length s) (total_comparisons s + chain_length)
                 (alter (N.add 1) (N.to_nat histogram_index) (comparison_histogram s)))
        end
  end.

Definition account_bucket (t : space) (s : identity_index_statistics) (current_value : N) :
    identity_index_statistics :=
  if current_value =? 0 then s
  else
    let '(chain_length, s) := account_chain t (chain_fuel t) current_value 0
      (Statistics (entry_count s) (occupied_buckets s + 1) (collision_entries s)
         (max_chain_length s) (total_comparisons s) (comparison_histogram s)) in
    Statistics (entry_count s) (occupied_buckets s)
      (if 1 <? chain_length then collision_entries s + (chain_length - 1) else collision_entries s)
      (if max_chain_length s <? chain_length then chain_length else max_chain_length s)
      (total_comparisons s) (comparison_histogram s).

(** The buckets the loops visit, in order. *)
Definition visited_buckets (t : space) : list N :=
  filter (λ b, semantic_bucket t b = true) (N.of_nat <$> seq 0 (N.to_nat semantic_bucket_count)).

Definition index_statistics (t : space) : identity_index_statistics :=
  foldl (λ s b, account_bucket t s (bucket t b)) no_statistics (visited_buckets t).

Definition p95_successful_lookup_comparisons (s : identity_index_statistics) : N :=
  percentile_from_histogram (comparison_histogram s) (entry_count s) 95.
Definition p99_successful_lookup_comparisons (s : identity_index_statistics) : N :=
  percentile_from_histogram (comparison_histogram s) (entry_count s) 99.

(** ** Changes of the shared state *)

Definition add_bucket_page (t : space) (d : N) : space :=
  Space (dense_semantic_bucket_mode t) (dense_allocated t) ({[d]} ∪ semantic_bucket_pages t)
    (buckets t) (directories t) (pages t) (slots t) (next_slot t) (identity_count t) (chains t).
Definition add_directory (t : space) (d : N) : space :=
  Space (dense_semantic_bucket_mode t) (dense_allocated t) (semantic_bucket_pages t)
    (buckets t) ({[d]} ∪ directories t) (pages t) (slots t) (next_slot t) (identity_count t)
    (chains t).
Definition add_page (t : space) (p : N) : space :=
  Space (dense_semantic_bucket_mode t) (dense_allocated t) (semantic_bucket_pages t)
    (buckets t) (directories t) ({[p]} ∪ pages t) (slots t) (next_slot t) (identity_count t)
    (chains t).
Definition set_next_slot (t : space) (n : N) : space :=
  Space (dense_semantic_bucket_mode t) (dense_allocated t) (semantic_bucket_pages t)
    (buckets t) (directories t) (pages t) (slots t) n (identity_count t) (chains t).
Definition set_slot (t : space) (slot : N) (r : record) : space :=
  Space (dense_semantic_bucket_mode t) (dense_allocated t) (semantic_bucket_pages t)
    (buckets t) (directories t) (pages t) (<[slot := r]> (slots t)) (next_slot t)
    (identity_count t) (chains t).
Definition count_identity (t : space) : space :=
  Space (dense_semantic_bucket_mode t) (dense_allocated t) (semantic_bucket_pages t)
    (buckets t) (directories t) (pages t) (slots t) (next_slot t)
    (w64 (identity_count t + 1)) (chains t).

Definition chain (t : space) (b : N) : list (N * record) := default [] (chains t !! b).

Definition publish (t : space) (b reference : N) : space :=
  Space (dense_semantic_bucket_mode t) (dense_allocated t) (semantic_bucket_pages t)
    (<[b := reference]> (buckets t)) (directories t) (pages t) (slots t) (next_slot t)
    (identity_count t)
    (<[b := (reference, default no_record (slots t !! ref_slot reference)) :: chain t b]> (chains t)).

(** ** [resolve_declaration] *)

Inductive pc : Set :=
| Find
| EnsureBucket
| CasBucketPage
| LoadSlot
| DrawSlot (slot : N)            (* the loop of [make_candidate] *)
| EnsureDirectory (slot : N)
| CasDirectory (slot : N)
| EnsurePage (slot : N)
| CasPage (slot : N)
| WriteCandidate (slot : N)
| LoadHead (slot : N)
| Scan (slot head : N)
| CasHead (slot head : N)
| Discard (slot : N) (result : status_code) (output : N)
| Count (reference : N)
| Finished (result : status_code) (output : N).

Record call : Set := Call
  { parent_value : N; name_value : N; kind_value : identity_kind; at_pc : pc }.

Definition goto (c : call) (p : pc) : call :=
  Call (parent_value c) (name_value c) (kind_value c) p.

Record event : Set := Event { memory : bool; spurious : bool }.

(** Up to the guards. *)
Definition resolve_declaration (t : space) (p n : N) (k : identity_kind) : call :=
  Call p n k
    (if negb (ref_valid p) || (n =? 0) || bool_decide (k = root_kind) || negb (valid t p)
     then Finished invalid_argument 0 else Find).

Definition call_hash (c : call) : N := semantic_hash_value (parent_value c) (name_value c).
Definition call_fingerprint (c : call) : N := semantic_fingerprint (call_hash c).
Definition call_bucket (c : call) : N := bucket_of (call_hash c).

Definition candidate (c : call) (next : N) : record :=
  Record (parent_value c) (name_value c)
    (packed_fingerprint (call_fingerprint c) (kind_value c)) next.

(** The loop over the other kinds. *)
Definition other_kind_found (p n : N) (k : identity_kind) : bool :=
  existsb (λ other, negb (bool_decide (other = k)) &&
                    match baseline_find p n other with Some _ => true | None => false end)
    [namespace_scope; type_kind; object_kind].

Definition search_call (t : space) (c : call) (head : N) : search_result :=
  search t (parent_value c) (name_value c) (call_fingerprint c) (chain_fuel t) head.

Definition step (e : event) (t : space) (c : call) : space * call :=
  let b := call_bucket c in
  match at_pc c with
  | Find =>
      let existing := find_record t (parent_value c) (name_value c) (call_hash c)
                        (call_fingerprint c) in
      (t, goto c
        (if ref_valid existing then
           if bool_decide (ref_kind existing = kind_value c) then Finished ok existing
           else Finished semantic_conflict 0
         else
           match baseline_find (parent_value c) (name_value c) (kind_value c) with
           | Some existing => Finished ok existing
           | None =>
               if other_kind_found (parent_value c) (name_value c) (kind_value c)
               then Finished semantic_conflict 0 else EnsureBucket
           end))
  | EnsureBucket =>
      if semantic_bucket_count <=? b then (t, goto c (Finished not_available 0))
      else if dense_semantic_bucket_mode t then
        (t, goto c (if dense_allocated t then LoadSlot else Finished not_available 0))
      else if bool_decide (N.shiftr b semantic_bucket_page_shift ∈ semantic_bucket_pages t)
      then (t, goto c LoadSlot)
      else if memory e then (t, goto c CasBucketPage)
      else (t, goto c (Finished not_available 0))
  | CasBucketPage =>
      let d := N.shiftr b semantic_bucket_page_shift in
      (if bool_decide (d ∈ semantic_bucket_pages t) then t else add_bucket_page t d,
       goto c LoadSlot)
  | LoadSlot => (t, goto c (DrawSlot (next_slot t)))
  | DrawSlot slot =>
      if (slot =? 0) || (maximum_slot <? slot) then (t, goto c (Finished not_available 0))
      else if (next_slot t =? slot) && negb (spurious e)
      then (set_next_slot t (w32 (slot + 1)), goto c (EnsureDirectory slot))
      else (t, goto c (DrawSlot (next_slot t)))
  | EnsureDirectory slot =>
      if (slot <=? 1) || (maximum_slot <? slot) then (t, goto c (Finished not_available 0))
      else if directory_count <=? directory_index slot
      then (t, goto c (Finished not_available 0))
      else if bool_decide (directory_index slot ∈ directories t)
      then (t, goto c (EnsurePage slot))
      else if memory e then (t, goto c (CasDirectory slot))
      else (t, goto c (Finished not_available 0))
  | CasDirectory slot =>
      (if bool_decide (directory_index slot ∈ directories t) then t
       else add_directory t (directory_index slot), goto c (EnsurePage slot))
  | EnsurePage slot =>
      if bool_decide (page_number slot ∈ pages t) then (t, goto c (WriteCandidate slot))
      else if memory e then (t, goto c (CasPage slot))
      else (t, goto c (Finished not_available 0))
  | CasPage slot =>
      (if bool_decide (page_number slot ∈ pages t) then t else add_page t (page_number slot),
       goto c (WriteCandidate slot))
  | WriteCandidate slot => (set_slot t slot (candidate c 0), goto c (LoadHead slot))
  | LoadHead slot => (t, goto c (Scan slot (bucket t b)))
  | Scan slot head =>
      match search_call t c head with
      | Broken | Stuck => (t, goto c (Discard slot initialization_failed 0))
      | Found current =>
          (t, goto c (if bool_decide (ref_kind current = kind_value c)
                      then Discard slot ok current else Discard slot semantic_conflict 0))
      | Absent => (set_slot t slot (candidate c head), goto c (CasHead slot head))
      end
  | CasHead slot head =>
      if (bucket t b =? head) && negb (spurious e)
      then (publish t b (make slot (kind_value c)), goto c (Count (make slot (kind_value c))))
      else (t, goto c (Scan slot (bucket t b)))
  | Discard slot result output => (set_slot t slot no_record, goto c (Finished result output))
  | Count reference => (count_identity t, goto c (Finished ok reference))
  | Finished _ _ => (t, c)
  end.

(** ** Interleavings *)

Definition config : Type := space * list call.

Inductive config_step : config → config → Prop :=
| start_call t cs p n k : config_step (t, cs) (t, cs ++ [resolve_declaration t p n k])
| step_call t cs i c e :
    cs !! i = Some c →
    config_step (t, cs) ((step e t c).1, <[i := (step e t c).2]> cs).

Definition reachable (dense_ok : bool) : config → Prop :=
  rtc config_step (identity_space dense_ok, []).

(** ** Packing *)

Lemma slot_lt slot : slot <= maximum_slot → slot < 2 ^ 30.
Proof. unfold maximum_slot, slot_mask. lia. Qed.

Lemma land_slot n : ref_slot n = n mod 2 ^ 30.
Proof. apply (N.land_ones n 30). Qed.

Lemma make_add slot k : slot <= maximum_slot → make slot k = slot + kind_bits k * 2 ^ 30.
Proof.
  intros Hs%slot_lt. unfold make, kind_shift. rewrite N.shiftl_mul_pow2.
  rewrite N.lor_comm. rewrite <-N.lxor_lor, <-N.add_nocarry_lxor; [done| |];
    apply N.bits_inj; intros i; rewrite N.land_spec, N.bits_0;
    (destruct (N.lt_ge_cases i 30); [rewrite N.mul_pow2_bits_low, andb_false_r by done; done|
      by rewrite (testbit_above 30 slot)]).
Qed.

Lemma make_parts slot k v :
  (slot <= maximum_slot → ref_slot (make slot k) = slot ∧ ref_kind (make slot k) = k ∧ make slot k < two32) ∧
  (v < two32 → make (ref_slot v) (ref_kind v) = v).
Proof.
  assert (Hdiv : ∀ x, x < two32 → kind_bits (kind_of_bits (x / 2 ^ 30)) = x / 2 ^ 30).
  { intros x Hx. assert (x / 2 ^ 30 < 4) by (apply N.Div0.div_lt_upper_bound; unfold two32 in *; lia).
    generalize dependent (x / 2 ^ 30). intros q Hq.
    assert (q = 0 ∨ q = 1 ∨ q = 2 ∨ q = 3) as [-> |[-> |[-> | ->]]] by lia; done. }
  split.
  - intros Hs. rewrite (make_add _ _ Hs). apply slot_lt in Hs. split_and!.
    + rewrite land_slot. rewrite N.Div0.mod_add. by apply N.mod_small.
    + unfold ref_kind, kind_shift. rewrite N.shiftr_div_pow2, N.div_add by done.
      rewrite N.div_small by done. by destruct k.
    + unfold two32. destruct k; cbn [kind_bits]; lia.
  - intros Hv. assert (Hs : ref_slot v <= maximum_slot).
    { rewrite land_slot. pose proof (N.mod_lt v (2 ^ 30)). unfold maximum_slot, slot_mask. lia. }
    rewrite (make_add _ _ Hs). unfold ref_kind, kind_shift. rewrite N.shiftr_div_pow2, Hdiv by done.
    rewrite land_slot. pose proof (N.div_mod v (2 ^ 30)). lia.
Qed.

Lemma make_slot slot k : slot <= maximum_slot → ref_slot (make slot k) = slot.
Proof. intros Hs. by apply (make_parts slot k 0). Qed.
Lemma make_kind slot k : slot <= maximum_slot → ref_kind (make slot k) = k.
Proof. intros Hs. by apply (make_parts slot k 0). Qed.
Lemma make_remade slot k : slot <= maximum_slot →
  make (ref_slot (make slot k)) (ref_kind (make slot k)) = make slot k.
Proof. intros Hs. by rewrite make_slot, make_kind. Qed.

(** A reference made of a slot within 30 bits and a kind gives
    both back and fits 32 bits, and a 32-bit reference is remade from its parts. *)
Theorem identity_ref_round_trip slot k v :
  (slot <= maximum_slot → ref_slot (make slot k) = slot ∧ ref_kind (make slot k) = k ∧ make slot k < two32) ∧
  (v < two32 → make (ref_slot v) (ref_kind v) = v).
Proof. apply make_parts. Qed.

Lemma fingerprint_range h : semantic_fingerprint h ≠ 0 ∧ semantic_fingerprint h <= maximum_slot.
Proof.
  unfold semantic_fingerprint. fold (ref_slot (w32 (N.lxor h (N.shiftr h 32)))).
  rewrite land_slot. set (m := _ mod _).
  assert (m < 2 ^ 30) by (by apply N.mod_lt). unfold maximum_slot, slot_mask.
  destruct (N.eqb_spec m 0); lia.
Qed.

Lemma packed_parts f k : f <= maximum_slot →
  ref_slot (packed_fingerprint f k) = f ∧ ref_kind (packed_fingerprint f k) = k.
Proof.
  intros Hf. unfold packed_fingerprint. rewrite N.lor_comm. fold (make f k).
  by rewrite make_slot, make_kind.
Qed.

(** ** The invariant *)

Context (laws : ∀ b, baseline = Some b → BaselineLaws b).

(** The slot a call holds exclusively. *)
Definition res (c : call) : list N :=
  match at_pc c with
  | EnsureDirectory s | CasDirectory s | EnsurePage s | CasPage s | WriteCandidate s | LoadHead s
  | Scan s _ | CasHead s _ | Discard s _ _ => [s]
  | _ => []
  end.

Definition first_slot : N := match baseline with Some _ => baseline_slot_count + 1 | None => 2 end.

Definition issued (t : space) (s : N) : Prop := first_slot <= s < next_slot t.

Definition published (t : space) (s : N) : Prop :=
  ∃ b e, e ∈ chain t b ∧ ref_slot e.1 = s.

(** The hierarchy edge of a chain entry. *)
Definition edge (e : N * record) : N * N := (parent_identity e.2, local_name e.2).

Definition edge_hash (p n : N) : N := semantic_hash_value p n.

Definition denotes (t : space) (p n r : N) : Prop :=
  (∃ k, baseline_find p n k = Some r) ∨
  ((∀ k, baseline_find p n k = None) ∧
   ∃ rec, (r, rec) ∈ chain t (bucket_of (edge_hash p n)) ∧ edge (r, rec) = (p, n)).

Record entry_ok (t : space) (b : N) (e : N * record) : Prop := EntryOk {
  eo_slot : slots t !! ref_slot e.1 = Some e.2;
  eo_issued : issued t (ref_slot e.1);
  eo_range : ref_slot e.1 <= maximum_slot ∧ 2 <= ref_slot e.1;
  eo_ref : make (ref_slot e.1) (ref_kind e.1) = e.1;
  eo_fingerprint : fingerprint e.2 = packed_fingerprint
    (semantic_fingerprint (edge_hash (edge e).1 (edge e).2)) (ref_kind e.1);
  eo_bucket : bucket_of (edge_hash (edge e).1 (edge e).2) = b;
  eo_baseline k : baseline_find (edge e).1 (edge e).2 k = None;
  eo_name : local_name e.2 ≠ 0;
  eo_kind : ref_kind e.1 ≠ root_kind;
  eo_record : slot_record t (ref_slot e.1) = Some e.2;
  eo_reachable : semantic_bucket t b = true;
}.

(** The head value leads through the entries of the list. *)
Fixpoint linked (l : list (N * record)) (v : N) : Prop :=
  match l with
  | [] => v = 0
  | e :: l' => v = e.1 ∧ v ≠ 0 ∧ linked l' (next_bucket e.2)
  end.

Record space_ok (t : space) : Prop := SpaceOk {
  so_next : next_slot t <= maximum_slot + 1 ∧ (next_slot t = 0 ∨ first_slot <= next_slot t);
  so_linked b : linked (chain t b) (bucket t b);
  so_entries b e : e ∈ chain t b → entry_ok t b e;
  so_edges b : NoDup (edge <$> chain t b);
  so_slots b : NoDup ((λ e, ref_slot e.1) <$> chain t b);
}.

(** What a call past the lookup knows. *)
Definition wanted (c : call) : Prop :=
  name_value c ≠ 0 ∧ kind_value c ≠ root_kind ∧
  ∀ k, baseline_find (parent_value c) (name_value c) k = None.

Definition prepared (t : space) (c : call) : Prop :=
  wanted c ∧ semantic_bucket t (call_bucket c) = true.

(** The slot's page is there. *)
Definition paged (t : space) (slot : N) : Prop :=
  2 <= slot <= maximum_slot ∧ directory_index slot < directory_count ∧
  directory_index slot ∈ directories t ∧ page_number slot ∈ pages t.

Definition stored (t : space) (c : call) (slot next : N) : Prop :=
  prepared t c ∧ paged t slot ∧ slots t !! slot = Some (candidate c next).

Definition snapshot (t : space) (c : call) (head : N) (l : list (N * record)) : Prop :=
  l `suffix_of` chain t (call_bucket c) ∧ linked l head.

Definition outcome (t : space) (c : call) (result : status_code) (output : N) : Prop :=
  match result with
  | ok => denotes t (parent_value c) (name_value c) output ∧ ref_kind output = kind_value c
  | semantic_conflict =>
      ∃ r, denotes t (parent_value c) (name_value c) r ∧ ref_kind r ≠ kind_value c
  | initialization_failed => False
  | _ => True
  end.

Definition call_ok (t : space) (c : call) : Prop :=
  match at_pc c with
  | Find => name_value c ≠ 0 ∧ kind_value c ≠ root_kind
  | EnsureBucket => wanted c
  | CasBucketPage => wanted c ∧ dense_semantic_bucket_mode t = false
  | LoadSlot | DrawSlot _ => prepared t c
  | EnsureDirectory s => prepared t c ∧ s <= maximum_slot
  | CasDirectory s => prepared t c ∧ 2 <= s <= maximum_slot ∧ directory_index s < directory_count
  | EnsurePage s | CasPage s =>
      prepared t c ∧ 2 <= s <= maximum_slot ∧ directory_index s < directory_count ∧
      directory_index s ∈ directories t
  | WriteCandidate s => prepared t c ∧ paged t s
  | LoadHead s => ∃ next, stored t c s next
  | Scan s head => (∃ next, stored t c s next) ∧ ∃ l, snapshot t c head l
  | CasHead s head =>
      stored t c s head ∧ ∃ l, snapshot t c head l ∧ (parent_value c, name_value c) ∉ edge <$> l
  | Discard s result output => outcome t c result output
  | Count r => denotes t (parent_value c) (name_value c) r ∧ ref_kind r = kind_value c
  | Finished result output => outcome t c result output
  end.

Record t_le (t t' : space) : Prop := TLe {
  le_dense : dense_semantic_bucket_mode t' = dense_semantic_bucket_mode t;
  le_dense_allocated : dense_allocated t' = dense_allocated t;
  le_bucket_pages : semantic_bucket_pages t ⊆ semantic_bucket_pages t';
  le_directories : directories t ⊆ directories t';
  le_pages : pages t ⊆ pages t';
  le_chain b : chain t b `suffix_of` chain t' b;
  le_next : next_slot t <= next_slot t';
}.

Section monotone.
Context (t t' : space) (Hle : t_le t t').

Lemma semantic_bucket_mono b : semantic_bucket t b = true → semantic_bucket t' b = true.
Proof.
    unfold semantic_bucket. rewrite (le_dense _ _ Hle), (le_dense_allocated _ _ Hle).
    case_match; [done|]. case_match; [done|]. rewrite !bool_decide_eq_true.
    pose proof (le_bucket_pages _ _ Hle). set_solver.
Qed.

Lemma chain_mono b e : e ∈ chain t b → e ∈ chain t' b.
Proof. intros He. destruct (le_chain _ _ Hle b) as [l ->]. set_solver. Qed.

Lemma space_denotes_mono p n r : denotes t p n r → denotes t' p n r.
Proof. intros [?|(? & rec & ? & ?)]; [by left|right]. eauto using chain_mono. Qed.

Lemma space_issued_mono s : issued t s → issued t' s.
Proof. pose proof (le_next _ _ Hle). unfold issued. lia. Qed.

Lemma space_prepared_mono c : prepared t c → prepared t' c.
Proof. intros [? ?]. split; [done|by apply semantic_bucket_mono]. Qed.

Lemma paged_mono s : paged t s → paged t' s.
Proof.
    pose proof (le_directories _ _ Hle). pose proof (le_pages _ _ Hle).
    intros (? & ? & ? & ?). split_and!; set_solver.
Qed.

Lemma space_snapshot_mono c head l : snapshot t c head l → snapshot t' c head l.
Proof. intros [? ?]. split; [|done]. etrans; [done|apply Hle]. Qed.

Lemma space_stored_mono c s next : slots t' !! s = slots t !! s →
    stored t c s next → stored t' c s next.
Proof.
    intros Hs (? & ? & ?). split_and!; [by apply space_prepared_mono|by apply paged_mono|congruence].
Qed.

Lemma outcome_mono c result output : outcome t c result output → outcome t' c result output.
Proof. destruct result; cbn; naive_solver eauto using space_denotes_mono. Qed.

Lemma directory_mono s : directory_index s ∈ directories t → directory_index s ∈ directories t'.
Proof. pose proof (le_directories _ _ Hle). set_solver. Qed.

Lemma space_call_ok_mono c : (∀ s, s ∈ res c → slots t' !! s = slots t !! s) →
    call_ok t c → call_ok t' c.
Proof.
    unfold call_ok, res. intros Hs.
    pose proof (space_prepared_mono c). pose proof (space_denotes_mono (parent_value c) (name_value c)).
    pose proof (space_snapshot_mono c). pose proof (outcome_mono c). pose proof directory_mono.
    pose proof (le_dense _ _ Hle). pose proof paged_mono.
    assert (Hst : ∀ s next, s ∈ res c → stored t c s next → stored t' c s next).
    { intros s next Hin. apply space_stored_mono, Hs. done. }
    unfold res in Hst. assert (Hin : ∀ x : N, x ∈ [x]) by left.
    destruct (at_pc c); cbn; intros; destruct_and?; split_and?;
      try solve [done|congruence|eauto]; naive_solver eauto.
Qed.

Lemma slot_record_mono s rec : slots t' !! s = slots t !! s →
    slot_record t s = Some rec → slot_record t' s = Some rec.
Proof.
    pose proof (le_directories _ _ Hle). pose proof (le_pages _ _ Hle).
    intros Hs. unfold slot_record. rewrite Hs.
    repeat case_match; try done; bools; rewrite ?bool_decide_eq_true, ?bool_decide_eq_false in *; set_solver.
Qed.

Lemma entry_ok_mono b e : slots t' !! ref_slot e.1 = slots t !! ref_slot e.1 →
    entry_ok t b e → entry_ok t' b e.
Proof.
    intros Hs []. constructor; try done; [congruence|by apply space_issued_mono|
      by apply slot_record_mono|by apply semantic_bucket_mono].
Qed.

(** A step that leaves the chains alone. *)
Lemma space_ok_grow : (∀ b, chain t' b = chain t b) → (∀ b, bucket t' b = bucket t b) →
    (∀ s, published t s → slots t' !! s = slots t !! s) →
    next_slot t' <= maximum_slot + 1 ∧ (next_slot t' = 0 ∨ first_slot <= next_slot t') →
    space_ok t → space_ok t'.
Proof.
    intros Hc Hb Hs Hn T. constructor; [done|intros b; rewrite Hc, ?Hb; apply T| |
      intros b; rewrite Hc; apply T..].
    intros b e. rewrite Hc. intros He. apply entry_ok_mono; [|by apply T].
    apply Hs. by exists b, e.
Qed.
End monotone.

(** ** Lookups under the invariant *)

Lemma baseline_find_laws p n k r : baseline_find p n k = Some r →
  ∃ b, baseline = Some b ∧ find_identity b p n k = Some r ∧ 1 <= ref_slot r <= baseline_slot_count ∧
    ref_kind r = k ∧ identity_valid b r = true ∧ identity_parent b r = p ∧ identity_name b r = n.
Proof.
  unfold baseline_find, baseline_slot_count. destruct baseline as [b|] eqn:E; [|done]. intros Hf.
  pose proof (laws b eq_refl). exists b. pose proof (find_identity_slot _ _ _ _ Hf).
  pose proof (find_identity_kind _ _ _ _ Hf). pose proof (find_identity_reads _ _ _ _ Hf) as (? & ? & ?).
  done.
Qed.

Lemma ref_valid_spec v : ref_valid v = true ↔ ref_slot v ≠ 0.
Proof. unfold ref_valid. rewrite negb_true_iff. apply N.eqb_neq. Qed.

Lemma space_bucket_of_lt h : bucket_of h < semantic_bucket_count.
Proof.
  unfold bucket_of, semantic_bucket_mask, semantic_bucket_count.
  change (2 ^ 21 - 1) with (N.ones 21). rewrite N.land_ones. by apply N.mod_lt.
Qed.

Lemma entry_published t b e : entry_ok t b e → published_record t e.1 = Some e.2.
Proof.
  intros [? ? [? ?] ? Hfp ? ? Hn _ Hr ?]. unfold published_record.
  rewrite (proj2 (ref_valid_spec _)) by lia. cbn [negb]. rewrite Hr.
  destruct (N.eqb_spec (ref_slot e.1) 1); [lia|]. rewrite Hfp.
  destruct (fingerprint_range (edge_hash (edge e).1 (edge e).2)) as [Hf0 Hm].
  destruct (packed_parts _ (ref_kind e.1) Hm) as [-> ->].
  rewrite (proj2 (N.eqb_neq _ _)) by done. rewrite bool_decide_eq_true_2 by done.
  by rewrite (proj2 (N.eqb_neq (local_name e.2) 0)).
Qed.

Lemma entry_fingerprint t b e : entry_ok t b e →
  ref_slot (fingerprint e.2) = semantic_fingerprint (edge_hash (edge e).1 (edge e).2).
Proof. intros E. rewrite (eo_fingerprint _ _ _ E). by apply packed_parts, fingerprint_range. Qed.

(** The walk over published entries stops at exactly the entry with that edge. *)
Lemma search_spec t p n l v fuel :
  space_ok t → l `suffix_of` chain t (bucket_of (edge_hash p n)) → linked l v →
  (length l < fuel)%nat →
  search t p n (semantic_fingerprint (edge_hash p n)) fuel v =
    match list_find (λ e, edge e = (p, n)) l with
    | Some (_, e) => Found e.1
    | None => Absent
    end.
Proof.
  intros T. revert v fuel. induction l as [|e l IH]; intros v [|fuel] Hs Hl Hf;
    [cbn in Hf; lia| |cbn in Hf; lia|]; cbn [search linked] in *.
  { by rewrite Hl. }
  destruct Hl as (-> & Hv & Hl). rewrite (proj2 (N.eqb_neq _ _)) by done.
  assert (He : entry_ok t (bucket_of (edge_hash p n)) e).
  { apply T. destruct Hs as [l' ->]. set_solver. }
  rewrite (eo_ref _ _ _ He), (entry_published _ _ _ He), (entry_fingerprint _ _ _ He).
  destruct (decide (edge e = (p, n))) as [Hedge|Hedge].
  - rewrite Hedge. cbn [fst snd]. pose proof Hedge as Hparts. unfold edge in Hparts. injection Hparts as -> ->.
    rewrite !N.eqb_refl. cbn [list_find andb]. by rewrite decide_True.
  - cbn [list_find]. rewrite decide_False by done.
    replace ((_ =? _) && (_ =? _) && (_ =? _)) with false.
    + rewrite IH; [|by eapply suffix_cons_l|done|cbn in Hf; lia].
      by destruct (list_find _ l) as [[]|].
    + symmetry. apply not_true_iff_false. intros [[_ H1%N.eqb_eq]%andb_true_iff H2%N.eqb_eq]%andb_true_iff.
      apply Hedge. unfold edge. congruence.
Qed.

(** The fuel of a chain walk is enough. *)
Lemma chain_fuel_enough t b l : space_ok t → l `suffix_of` chain t b → (length l < chain_fuel t)%nat.
Proof.
  intros T Hs. apply suffix_length in Hs. unfold chain_fuel.
  assert (length (chain t b) <= stdpp.base.size (slots t))%nat; [|lia].
  rewrite <-(length_fmap (λ e, ref_slot e.1)).
  rewrite <-(size_list_to_set (C := gset N)) by apply T.
  rewrite <-(size_dom (D := gset N)). apply subseteq_size.
  intros s. rewrite elem_of_list_to_set. intros (e & -> & He)%list_elem_of_fmap.
  apply elem_of_dom. rewrite (eo_slot _ _ _ (so_entries _ T _ _ He)). done.
Qed.

Lemma denotes_ref t p n r : space_ok t → denotes t p n r → ref_slot r ≠ 0.
Proof.
  intros T [[k Hk]|(_ & rec & Hr & _)].
  - apply baseline_find_laws in Hk as (? & _ & _ & ? & _). lia.
  - pose proof (eo_range _ _ _ (so_entries _ T _ _ Hr)). cbn in *. lia.
Qed.

Lemma denotes_unique t p n r r' : space_ok t → denotes t p n r → denotes t p n r' → r = r'.
Proof.
  intros T [[k Hk]|(Hn & rec & Hr & Hed)] [[k' Hk']|(Hn' & rec' & Hr' & Hed')].
  - unfold baseline_find in *. destruct baseline as [b|] eqn:E; [|done].
    pose proof (laws b eq_refl). assert (k = k') as <- by by eapply find_identity_one. congruence.
  - specialize (Hn' k). congruence.
  - specialize (Hn k'). congruence.
  - apply list_elem_of_lookup in Hr as [i Hi]. apply list_elem_of_lookup in Hr' as [j Hj].
    assert (i = j) as <-; [|congruence].
    apply (NoDup_lookup_inj (edge <$> chain t (bucket_of (edge_hash p n))) _ _ (p, n)); [apply T| |];
      rewrite list_lookup_fmap; [rewrite Hi|rewrite Hj]; cbn; congruence.
Qed.

(** [find_record] finds exactly the published reference of the edge. *)
Lemma find_record_spec t p n : space_ok t →
  let r := find_record t p n (edge_hash p n) (semantic_fingerprint (edge_hash p n)) in
  if ref_valid r then
    (∀ k, baseline_find p n k = None) ∧
    ∃ rec, (r, rec) ∈ chain t (bucket_of (edge_hash p n)) ∧ edge (r, rec) = (p, n)
  else (p, n) ∉ edge <$> chain t (bucket_of (edge_hash p n)).
Proof.
  intros T. unfold find_record. set (b := bucket_of (edge_hash p n)).
  pose proof (search_spec t p n (chain t b) (bucket t b) (chain_fuel t) T (reflexivity _)
    (so_linked _ T b) (chain_fuel_enough t b _ T (reflexivity _))) as Hs. rewrite Hs.
  destruct (list_find _ (chain t b)) as [[i [r rec]]|] eqn:E.
  - apply list_find_Some in E as (Hi & Hed & _). apply list_elem_of_lookup_2 in Hi.
    pose proof (so_entries _ T _ _ Hi) as He. rewrite (eo_reachable _ _ _ He). cbn [fst].
    pose proof (eo_range _ _ _ He). cbn in *. rewrite (proj2 (ref_valid_spec r)) by lia.
    split; [|by exists rec]. intros k. pose proof (eo_baseline _ _ _ He k) as Hk.
    unfold edge in Hk, Hed. cbn in *. congruence.
  - apply list_find_None in E. rewrite Forall_forall in E.
    assert ((p, n) ∉ edge <$> chain t b).
    { intros (e & He & Hin)%list_elem_of_fmap. by apply (E e Hin). }
    by destruct (semantic_bucket t b).
Qed.

Lemma space_denotes_inj t p n p' n' r : space_ok t → denotes t p n r → denotes t p' n' r →
  (p, n) = (p', n').
Proof.
  intros T Hd Hd'.
  assert (Hlow : ∀ p n rec b, (r, rec) ∈ chain t b → edge (r, rec) = (p, n) →
    first_slot <= ref_slot r ∧ slots t !! ref_slot r = Some rec).
  { intros p0 n0 rec b Hin _. pose proof (so_entries _ T _ _ Hin) as He.
    pose proof (eo_issued _ _ _ He) as [? _]. by pose proof (eo_slot _ _ _ He). }
  destruct Hd as [[k Hk]|(_ & rec & Hr & Hed)], Hd' as [[k' Hk']|(_ & rec' & Hr' & Hed')].
  - apply baseline_find_laws in Hk as (b & Hb & _ & _ & _ & _ & <- & <-).
    apply baseline_find_laws in Hk' as (b' & Hb' & _ & _ & _ & _ & <- & <-). congruence.
  - apply baseline_find_laws in Hk as (b & Hb & _ & Hs & _). destruct (Hlow _ _ _ _ Hr' Hed').
    unfold first_slot in *. rewrite Hb in *. lia.
  - apply baseline_find_laws in Hk' as (b & Hb & _ & Hs & _). destruct (Hlow _ _ _ _ Hr Hed).
    unfold first_slot in *. rewrite Hb in *. lia.
  - destruct (Hlow _ _ _ _ Hr Hed) as [_ H1]. destruct (Hlow _ _ _ _ Hr' Hed') as [_ H2].
    unfold edge in *. cbn in *. congruence.
Qed.

Lemma denotes_reads t p n r : space_ok t → n ≠ 0 → denotes t p n r →
  valid t r = true ∧ parent t r = p ∧ name t r = n.
Proof.
  intros T Hn Hd. pose proof (denotes_ref _ _ _ _ T Hd) as H0. apply ref_valid_spec in H0.
  unfold valid, parent, name, in_baseline. rewrite H0. cbn [negb].
  destruct Hd as [[k Hk]|(_ & rec & Hr & Hed)].
  - apply baseline_find_laws in Hk as (b & Hb & _ & Hs & _ & ? & ? & ?). rewrite Hb.
    by destruct (N.leb_spec (ref_slot r) baseline_slot_count); [|lia].
  - pose proof (so_entries _ T _ _ Hr) as He. pose proof (eo_issued _ _ _ He) as [Hlow _]. cbn in Hlow.
    rewrite (entry_published _ _ _ He : published_record t r = Some rec). cbn.
    unfold edge in Hed. cbn in Hed. injection Hed as -> ->. unfold first_slot in Hlow.
    destruct baseline; [|done]. by destruct (N.leb_spec (ref_slot r) baseline_slot_count); [lia|].
Qed.

(** ** One step *)

Record stepped (t : space) (c : call) (t' : space) (c' : call) : Prop := Stepped {
  st_le : t_le t t';
  st_space : space_ok t';
  st_call : call_ok t' c';
  st_slots s : s ∉ res c → slots t' !! s = slots t !! s;
  st_published s : published t' s → published t s ∨ (s ∈ res c ∧ s ∉ res c');
  st_res s : s ∈ res c' → s ∈ res c ∨ (¬ issued t s ∧ issued t' s);
}.

Definition owns (t : space) (c : call) : Prop := ∀ s, s ∈ res c → issued t s ∧ ¬ published t s.

Lemma space_t_le_refl t : t_le t t.
Proof. by constructor. Qed.

Lemma space_stepped_local t c c' :
  space_ok t → call_ok t c' → (∀ s, s ∈ res c' → s ∈ res c) → stepped t c t c'.
Proof. intros T C R. constructor; eauto using space_t_le_refl. Qed.

Ltac local_step := apply space_stepped_local; [done|try done|try done; try by intros ? ?%elem_of_nil].

Lemma space_published_same t t' s : (∀ b, chain t' b = chain t b) → published t' s ↔ published t s.
Proof. intros Hb. unfold published. by setoid_rewrite Hb. Qed.

Lemma space_published_issued t s : space_ok t → published t s → issued t s.
Proof. intros T (b & e & He & <-). apply (so_entries _ T _ _ He). Qed.

(** A step that leaves the chains alone. *)
Lemma space_stepped_grow t t' c c' :
  space_ok t → t_le t t' → (∀ b, chain t' b = chain t b) → (∀ b, bucket t' b = bucket t b) →
  (∀ s, s ∉ res c → slots t' !! s = slots t !! s) → owns t c →
  next_slot t' <= maximum_slot + 1 ∧ (next_slot t' = 0 ∨ first_slot <= next_slot t') → call_ok t' c' →
  (∀ s, s ∈ res c' → s ∈ res c ∨ (¬ issued t s ∧ issued t' s)) → stepped t c t' c'.
Proof.
  intros T Hle Hc Hb Hs Hown Hn C R. constructor; [done| |done..| |done].
  - apply (space_ok_grow t); [done..| |done|done]. intros s Hp. apply Hs. intros Hin.
    by apply (Hown _ Hin).
  - intros s. rewrite space_published_same by done. auto.
Qed.

Lemma add_directory_le t d : t_le t (add_directory t d).
Proof. constructor; cbn; try done; set_solver. Qed.
Lemma space_add_page_le t d : t_le t (add_page t d).
Proof. constructor; cbn; try done; set_solver. Qed.
Lemma space_add_bucket_page_le t d : t_le t (add_bucket_page t d).
Proof. constructor; cbn; try done; set_solver. Qed.
Lemma space_set_slot_le t s r : t_le t (set_slot t s r).
Proof. by constructor. Qed.

Lemma set_slot_frame t c s r s' : res c = [s] → s' ∉ res c →
  slots (set_slot t s r) !! s' = slots t !! s'.
Proof. intros -> Hs. cbn. rewrite lookup_insert_ne; [done|set_solver]. Qed.

(** Writing the call's own slot. *)
Lemma stepped_write t c s r c' :
  space_ok t → owns t c → res c = [s] → call_ok (set_slot t s r) c' →
  (∀ x, x ∈ res c' → x ∈ [s]) → stepped t c (set_slot t s r) c'.
Proof.
  intros T Hown Hres C R. apply space_stepped_grow; try done.
  - by intros s'; apply set_slot_frame.
  - apply T.
  - intros x Hx. left. rewrite Hres. by apply R.
Qed.

Lemma chain_publish t b r b' : chain (publish t b r) b' =
  if decide (b' = b) then (r, default no_record (slots t !! ref_slot r)) :: chain t b else chain t b'.
Proof.
  unfold chain. cbn. case_decide as H; [subst; by rewrite lookup_insert_eq|].
  by rewrite lookup_insert_ne.
Qed.

Lemma bucket_publish t b r b' : bucket (publish t b r) b' =
  if decide (b' = b) then r else bucket t b'.
Proof.
  unfold bucket. cbn. case_decide as H; [subst; by rewrite lookup_insert_eq|].
  by rewrite lookup_insert_ne.
Qed.

Lemma publish_le t b r : t_le t (publish t b r).
Proof.
  constructor; cbn; try done. intros b'. rewrite chain_publish. case_decide; [subst|done].
  by eexists [_].
Qed.

(** The snapshot a compare-exchange succeeds on is the current chain. *)
Lemma space_snapshot_current t b l head : space_ok t → l `suffix_of` chain t b → linked l head →
  bucket t b = head → l = chain t b.
Proof.
  intros T [k Hk] Hl Hb. destruct k as [|e k]; [done|]. pose proof (so_slots _ T b) as Hnd.
  pose proof (so_linked _ T b) as Hlk. rewrite Hk in *. cbn in Hlk. destruct Hlk as (He & H0 & _).
  destruct l as [|e' l]; cbn in Hl; [congruence|]. destruct Hl as (He' & _ & _).
  rewrite fmap_app in Hnd. cbn in Hnd. apply NoDup_cons in Hnd as [Hni _]. destruct Hni.
  apply elem_of_app. right. apply elem_of_cons. left. congruence.
Qed.

Lemma paged_record t s rec : paged t s → slots t !! s = Some rec → slot_record t s = Some rec.
Proof.
  intros ((H2 & Hm) & Hd & ? & ?) Hs. unfold slot_record.
  destruct (N.eqb_spec s 1); [lia|]. destruct (N.eqb_spec s 0); [lia|]. cbn [orb].
  destruct (N.ltb_spec maximum_slot s); [lia|].
  destruct (N.leb_spec directory_count (directory_index s)); [lia|].
  rewrite !bool_decide_eq_true_2 by done. cbn [negb]. by rewrite Hs.
Qed.

(** The candidate's entry once it is published. *)
Lemma entry_candidate t t' c s head :
  t_le t t' → slots t' = slots t → stored t c s head → issued t s →
  entry_ok t' (call_bucket c) (make s (kind_value c), candidate c head).
Proof.
  intros Hle Hs ((W & Hsem) & P & Hst) Hi. destruct W as (Hn & Hk & Hbf).
  pose proof P as ((H2 & Hm) & _).
  constructor; cbn [fst snd]; rewrite ?make_slot, ?make_kind by done; try done.
  - by rewrite Hs.
  - by apply (space_issued_mono t).
  - by apply (slot_record_mono t); [|rewrite Hs|apply paged_record].
  - by apply (semantic_bucket_mono t).
Qed.

Lemma space_stepped_publish t c s head :
  space_ok t → owns t c → at_pc c = CasHead s head → call_ok t c → bucket t (call_bucket c) = head →
  stepped t c (publish t (call_bucket c) (make s (kind_value c)))
    (goto c (Count (make s (kind_value c)))).
Proof.
  intros T Hown Hpc C Hb. unfold owns, res in Hown. unfold call_ok in C. rewrite Hpc in Hown, C.
  destruct C as (S & l & [Hsuf Hlk] & Hfresh).
  rewrite (space_snapshot_current t (call_bucket c) l head T Hsuf Hlk Hb) in *. clear Hsuf.
  pose proof S as ((W & Hsem) & P & Hst). pose proof P as ((H2 & Hm) & _).
  destruct (Hown s) as [Hiss Hunp]; [set_solver|].
  set (b := call_bucket c) in *. set (r := make s (kind_value c)).
  assert (Hle := publish_le t b r). set (t' := publish t b r) in *.
  assert (He : entry_ok t' b (r, candidate c head)) by by apply (entry_candidate t).
  assert (Hrs : ref_slot r = s) by by apply make_slot.
  assert (Hchain : ∀ b', chain t' b' = if decide (b' = b) then (r, candidate c head) :: chain t b
    else chain t b').
  { intros b'. unfold t'. rewrite chain_publish, Hrs, Hst. done. }
  constructor.
  - done.
  - constructor.
    + apply T.
    + intros b'. rewrite Hchain. unfold t'. rewrite bucket_publish. case_decide as Hd; [|apply T].
      cbn. split_and!; [done| |].
      * intros Hz. assert (s = 0) by (rewrite <-Hrs, Hz; done). lia.
      * rewrite <-Hb. apply T.
    + intros b' e. rewrite Hchain. case_decide as Hd; [subst b'|].
      * intros [->|Hin]%elem_of_cons; [done|]. apply (entry_ok_mono t); [done..|by apply T].
      * intros Hin. apply (entry_ok_mono t); [done..|by apply T].
    + intros b'. rewrite Hchain. case_decide; [|apply T]. cbn. apply NoDup_cons. split; [done|apply T].
    + intros b'. rewrite Hchain. case_decide; [|apply T]. cbn. apply NoDup_cons. split; [|apply T].
      rewrite Hrs. intros (e & Hes & Hin)%list_elem_of_fmap. apply Hunp. by exists b, e.
  - cbn. split; [|by apply make_kind]. right. split; [apply W|]. exists (candidate c head).
    split; [|done]. fold b. change (bucket_of (edge_hash (parent_value c) (name_value c))) with b.
    rewrite Hchain, decide_True by done. left.
  - done.
  - intros x (b' & e & Hin & Hx). rewrite Hchain in Hin. unfold res. rewrite Hpc. cbn.
    case_decide; [|left; by exists b', e].
    apply elem_of_cons in Hin as [->|Hin]; [|left; by exists b, e].
    right. cbn in Hx. rewrite Hrs in Hx. set_solver.
  - intros x. unfold res. cbn. by intros ?%elem_of_nil.
Qed.

Lemma absent_baseline p n k : k ≠ root_kind → baseline_find p n k = None →
  other_kind_found p n k = false → ∀ k', baseline_find p n k' = None.
Proof.
  intros Hk Hf Ho. unfold other_kind_found in Ho. cbn in Ho. rewrite !orb_false_iff in Ho.
  destruct Ho as (H1 & H2 & H3 & _).
  assert (Hroot : baseline_find p n root_kind = None).
  { unfold baseline_find. destruct baseline as [b|] eqn:E; [|done].
    pose proof (laws b eq_refl). apply find_identity_root. }
  intros k'. destruct (decide (k' = k)) as [->|Hne]; [done|].
  destruct k'; [done|clear H2 H3|clear H1 H3|clear H1 H2];
    rewrite bool_decide_eq_false_2 in * by done; cbn [negb andb] in *; (match goal with |- ?x = None => by destruct x end).
Qed.

Lemma other_kind_conflict t p n k : other_kind_found p n k = true →
  ∃ r, denotes t p n r ∧ ref_kind r ≠ k.
Proof.
  unfold other_kind_found. rewrite existsb_exists. intros (k' & _ & Hk).
  destruct (bool_decide_reflect (k' = k)) as [|Hne]; [done|]. cbn in Hk.
  destruct (baseline_find p n k') as [r|] eqn:E; [|done]. exists r. split; [left; by exists k'|].
  apply baseline_find_laws in E as (_ & _ & _ & _ & -> & _). done.
Qed.

Lemma space_step_find e t c : space_ok t → at_pc c = Find → call_ok t c →
  stepped t c (step e t c).1 (step e t c).2.
Proof.
  intros T Hpc C. unfold call_ok, step in *. rewrite Hpc in *. cbn [fst snd]. destruct C as [Hn Hk].
  pose proof (find_record_spec t (parent_value c) (name_value c) T) as Hf. cbn zeta in Hf.
  unfold call_fingerprint. change (call_hash c) with (edge_hash (parent_value c) (name_value c)).
  set (r := find_record _ _ _ _ _) in *. destruct (ref_valid r).
  { assert (denotes t (parent_value c) (name_value c) r) by by right.
    case_bool_decide; local_step; cbn; eauto. }
  destruct (baseline_find (parent_value c) (name_value c) (kind_value c)) as [r'|] eqn:E.
  { local_step. cbn. split; [left; eauto|]. by apply baseline_find_laws in E as (_ & _ & _ & _ & -> & _). }
  destruct (other_kind_found _ _ _) eqn:Eo; local_step; cbn.
  - by apply other_kind_conflict.
  - split_and!; [done..|]. by apply (absent_baseline _ _ (kind_value c)).
Qed.

Lemma space_step_bucket e t c : space_ok t → owns t c → at_pc c = EnsureBucket ∨ at_pc c = CasBucketPage →
  call_ok t c → stepped t c (step e t c).1 (step e t c).2.
Proof.
  intros T Hown Hpc C. pose proof (space_bucket_of_lt (call_hash c)) as Hb. fold (call_bucket c) in Hb.
  assert (Hsem : ∀ t', semantic_bucket t' (call_bucket c) =
    if dense_semantic_bucket_mode t' then dense_allocated t'
    else bool_decide (N.shiftr (call_bucket c) semantic_bucket_page_shift ∈ semantic_bucket_pages t')).
  { intros t'. unfold semantic_bucket.
    by destruct (N.leb_spec semantic_bucket_count (call_bucket c)); [lia|]. }
  unfold call_ok, step in *. destruct Hpc as [Hpc|Hpc]; rewrite Hpc in *.
  - destruct (N.leb_spec semantic_bucket_count (call_bucket c)); [lia|].
    specialize (Hsem t). repeat case_match; by local_step.
  - destruct C as [W Hmode]. set (d := N.shiftr _ _) in *. case_bool_decide; cbn [fst snd].
    + local_step. cbn. split; [done|]. change (call_bucket (goto c LoadSlot)) with (call_bucket c).
      by rewrite Hsem, Hmode, bool_decide_eq_true_2.
    + apply space_stepped_grow; try done; [apply space_add_bucket_page_le|apply T| |].
      * cbn. split; [done|]. change (call_bucket (goto c LoadSlot)) with (call_bucket c).
        rewrite Hsem. cbn. rewrite Hmode, bool_decide_eq_true_2; [done|set_solver].
      * by intros s ?%elem_of_nil.
Qed.

Lemma space_step_draw e t c slot : space_ok t → owns t c → at_pc c = LoadSlot ∨ at_pc c = DrawSlot slot →
  call_ok t c → stepped t c (step e t c).1 (step e t c).2.
Proof.
  intros T Hown Hpc C. unfold call_ok, step in *. destruct Hpc as [Hpc|Hpc]; rewrite Hpc in *.
  { by local_step. }
  destruct (_ || _) eqn:Hg; [by local_step|]. apply orb_false_iff in Hg as [H0%N.eqb_neq Hm%N.ltb_ge].
  destruct (N.eqb_spec (next_slot t) slot) as [Hn|]; cbn [andb]; [|by local_step].
  destruct (spurious e); cbn [negb]; [by local_step|]. cbn [fst snd].
  rewrite w32_small by (unfold maximum_slot, slot_mask, two32 in *; lia).
  pose proof (so_next _ T) as [_ Hfirst]. apply space_stepped_grow; try done.
  - constructor; cbn; try done. lia.
  - cbn. lia.
  - cbn. unfold res at 1. cbn. intros s ->%list_elem_of_singleton. right. unfold issued. cbn. lia.
Qed.

Lemma step_directory e t c s : space_ok t → owns t c →
  at_pc c = EnsureDirectory s ∨ at_pc c = CasDirectory s → call_ok t c →
  stepped t c (step e t c).1 (step e t c).2.
Proof.
  intros T Hown Hpc C.
  assert (Hres : res c = [s]) by (unfold res; by destruct Hpc as [-> | ->]).
  unfold call_ok, step in *. destruct Hpc as [Hpc|Hpc]; rewrite Hpc in *.
  - destruct C as [P Hm]. destruct (_ || _) eqn:Hg; [by local_step|].
    apply orb_false_iff in Hg as [H1%N.leb_gt _].
    destruct (N.leb_spec directory_count (directory_index s)); [by local_step|].
    case_bool_decide; [|destruct (memory e)]; cbn [fst snd];
      (apply space_stepped_local; [done| |rewrite Hres; by try (intros ? ?%elem_of_nil)]); cbn; try done;
      split_and!; done || lia.
  - destruct C as (P & Hr & Hd). case_bool_decide; cbn [fst snd].
    + apply space_stepped_local; [done| |by rewrite Hres]. cbn. split_and!; done || lia.
    + apply space_stepped_grow; try done; [apply add_directory_le|apply T| |by rewrite Hres; left].
      cbn. split_and!; try (done || lia). set_solver.
Qed.

Lemma space_step_page e t c s : space_ok t → owns t c →
  at_pc c = EnsurePage s ∨ at_pc c = CasPage s → call_ok t c →
  stepped t c (step e t c).1 (step e t c).2.
Proof.
  intros T Hown Hpc C.
  assert (Hres : res c = [s]) by (unfold res; by destruct Hpc as [-> | ->]).
  unfold call_ok, step in *. destruct Hpc as [Hpc|Hpc]; rewrite Hpc in *;
    destruct C as (P & Hr & Hd & Hin).
  - case_bool_decide; [|destruct (memory e)]; cbn [fst snd];
      (apply space_stepped_local; [done| |rewrite Hres; by try (intros ? ?%elem_of_nil)]); cbn; try done;
      split_and!; done || lia.
  - case_bool_decide; cbn [fst snd].
    + apply space_stepped_local; [done| |by rewrite Hres]. cbn. by split.
    + apply space_stepped_grow; try done; [apply space_add_page_le|apply T| |by rewrite Hres; left].
      cbn. split; [done|]. unfold paged. cbn. split_and!; try (done || lia). set_solver.
Qed.

Lemma step_write e t c s result output : space_ok t → owns t c →
  at_pc c = WriteCandidate s ∨ at_pc c = Discard s result output → call_ok t c →
  stepped t c (step e t c).1 (step e t c).2.
Proof.
  intros T Hown Hpc C.
  assert (Hres : res c = [s]) by (unfold res; by destruct Hpc as [-> | ->]).
  unfold call_ok, step in *. destruct Hpc as [Hpc|Hpc]; rewrite Hpc in *; cbn [fst snd];
    (apply (stepped_write t c s); try done; try by intros ? ?%elem_of_nil).
  cbn. exists 0. destruct C as [P Hp]. split; [done|split; [done|]].
  cbn. by rewrite lookup_insert_eq.
Qed.

Lemma space_step_scan e t c s head : space_ok t → owns t c →
  at_pc c = LoadHead s ∨ at_pc c = Scan s head ∨ at_pc c = CasHead s head → call_ok t c →
  stepped t c (step e t c).1 (step e t c).2.
Proof.
  intros T Hown Hpc C.
  assert (Hres : res c = [s]) by (unfold res; by destruct Hpc as [-> |[-> | ->]]).
  assert (Hrescan : (∃ next, stored t c s next) →
    stepped t c t (goto c (Scan s (bucket t (call_bucket c))))).
  { intros S. apply space_stepped_local; [done| |by rewrite Hres]. cbn. split; [done|].
    exists (chain t (call_bucket c)). split; [reflexivity|apply T]. }
  destruct Hpc as [Hpc|[Hpc|Hpc]]; unfold step; rewrite Hpc; cbn [fst snd].
  - unfold call_ok in C. rewrite Hpc in C. by apply Hrescan.
  - unfold call_ok in C. rewrite Hpc in C. destruct C as ((next & S) & l & [Hsuf Hlk]).
    unfold search_call. rewrite (search_spec t (parent_value c) (name_value c) l head);
      [|done..|by eapply chain_fuel_enough].
    destruct (list_find _ l) as [[i e']|] eqn:E.
    + apply list_find_Some in E as (Hi & Hed & _). apply list_elem_of_lookup_2 in Hi.
      assert (Hd : denotes t (parent_value c) (name_value c) e'.1).
      { assert (Hin : e' ∈ chain t (call_bucket c)) by (destruct Hsuf as [k ->]; set_solver).
        right. pose proof (so_entries _ T _ _ Hin) as He. split.
        - intros k. pose proof (eo_baseline _ _ _ He k) as Hk. by rewrite Hed in Hk.
        - exists e'.2. split; [by destruct e'|by destruct e']. }
      case_bool_decide; cbn [fst snd]; (apply space_stepped_local; [done| |by rewrite Hres]); cbn; eauto.
    + apply list_find_None in E. rewrite Forall_forall in E. cbn [fst snd].
      apply (stepped_write t c s); try done. cbn. split.
      * destruct S as (P & Hp & _). split; [done|split; [done|]].
        cbn. by rewrite lookup_insert_eq.
      * exists l. split; [done|]. intros (e' & He' & Hin)%list_elem_of_fmap. by apply (E e' Hin).
  - destruct (N.eqb_spec (bucket t (call_bucket c)) head) as [Hb|]; cbn [andb];
      [destruct (spurious e); cbn [negb]|].
    2: by apply (space_stepped_publish t c s head).
    all: unfold call_ok in C; rewrite Hpc in C; destruct C as (S & _); apply Hrescan; eauto.
Qed.

Lemma space_step_ok e t c : space_ok t → owns t c → call_ok t c →
  stepped t c (step e t c).1 (step e t c).2.
Proof.
  intros T Hown C. destruct (at_pc c) as [| | | |s|s|s|s|s|s|s|s head|s head|s result output|r|result output] eqn:Hpc.
  - by apply space_step_find.
  - apply space_step_bucket; auto.
  - apply space_step_bucket; auto.
  - apply (space_step_draw _ _ _ 0); auto.
  - apply (space_step_draw _ _ _ s); auto.
  - apply (step_directory _ _ _ s); auto.
  - apply (step_directory _ _ _ s); auto.
  - apply (space_step_page _ _ _ s); auto.
  - apply (space_step_page _ _ _ s); auto.
  - apply (step_write _ _ _ s ok 0); auto.
  - apply (space_step_scan _ _ _ s 0); auto.
  - apply (space_step_scan _ _ _ s head); auto.
  - apply (space_step_scan _ _ _ s head); auto.
  - apply (step_write _ _ _ s result output); auto.
  - unfold step, call_ok in *. rewrite Hpc in *. cbn [fst snd].
    apply space_stepped_grow; try done; try apply T. by intros x ?%elem_of_nil.
  - unfold step. rewrite Hpc. by apply space_stepped_local.
Qed.

(** ** Every interleaving *)

Record config_ok (t : space) (cs : list call) : Prop := ConfigOk {
  co_space : space_ok t;
  co_calls i c : cs !! i = Some c → call_ok t c;
  co_owns i c : cs !! i = Some c → owns t c;
  co_disjoint i j c d s : i ≠ j → cs !! i = Some c → cs !! j = Some d → s ∈ res c → s ∉ res d;
}.

Lemma space_config_ok_init dense_ok : config_ok (identity_space dense_ok) [].
Proof.
  constructor; try done.
  unfold identity_space. constructor.
  - unfold first_slot. destruct baseline; cbn; [|unfold maximum_slot, slot_mask; lia].
    destruct (N.ltb_spec baseline_slot_count maximum_slot); lia.
  - intros b. by destruct baseline.
  - intros b r Hr. by destruct baseline; apply elem_of_nil in Hr.
  - intros b. destruct baseline; apply NoDup_nil_2.
  - intros b. destruct baseline; apply NoDup_nil_2.
Qed.

Lemma call_ok_resolve t p n k :
  call_ok t (resolve_declaration t p n k) ∧ res (resolve_declaration t p n k) = [].
Proof.
  unfold resolve_declaration, call_ok, res. cbn. destruct (_ || _) eqn:E; [done|].
  apply orb_false_iff in E as [[[_ Hn%N.eqb_neq]%orb_false_iff Hk%bool_decide_eq_false]%orb_false_iff _].
  by cbn.
Qed.

Lemma space_config_ok_step t cs i c e : config_ok t cs → cs !! i = Some c →
  config_ok (step e t c).1 (<[i := (step e t c).2]> cs).
Proof.
  intros [T C O D] Hi.
  pose proof (space_step_ok e t c T (O _ _ Hi) (C _ _ Hi)) as [Hle T' C' Hslots Hpub Hres].
  set (t' := (step e t c).1) in *. set (c' := (step e t c).2) in *.
  assert (Hdis : ∀ j d s, j ≠ i → cs !! j = Some d → s ∈ res c' → s ∉ res d).
  { intros j d s Hji Hj Hs Hd. destruct (Hres s Hs) as [Hc|[Hn _]].
    - by apply (D i j c d s).
    - by destruct (O _ _ Hj s Hd). }
  constructor.
  - done.
  - intros j d [(-> & -> & _)|[Hji Hj]]%list_lookup_insert_Some; [done|].
    apply (space_call_ok_mono t); [done| |by eapply C]. intros s Hs. apply Hslots. intros Hc.
    by apply (D j i d c s).
  - intros j d [(-> & -> & _)|[Hji Hj]]%list_lookup_insert_Some s Hs.
    + destruct (Hres s Hs) as [Hc|[Hn Hy]].
      * destruct (O _ _ Hi s Hc). split; [by apply (space_issued_mono t)|]. by intros [?|[_ ?]]%Hpub.
      * split; [done|]. intros [Hp|[Hc _]]%Hpub; [by apply space_published_issued in Hp|].
        by destruct (O _ _ Hi s Hc).
    + destruct (O _ _ Hj s Hs). split; [by apply (space_issued_mono t)|].
      intros [?|[Hc _]]%Hpub; [done|]. by apply (D j i d c s).
  - intros j k d f s Hjk [(-> & -> & _)|[Hji Hj]]%list_lookup_insert_Some
      [(-> & -> & _)|[Hki Hk]]%list_lookup_insert_Some Hs; [done| | |].
    + apply (Hdis k f s); auto.
    + intros Hs'. by apply (Hdis j d s).
    + by apply (D j k d f s).
Qed.

Lemma space_config_ok_start t cs p n k :
  config_ok t cs → config_ok t (cs ++ [resolve_declaration t p n k]).
Proof.
  intros [T C O D]. destruct (call_ok_resolve t p n k) as [Hc Hr]. constructor; [done| | |].
  - intros i c [[_ ?]|[_ ->]]%lookup_snoc_Some_inv; [by eapply C|done].
  - intros i c [[_ ?]|[_ ->]]%lookup_snoc_Some_inv; [by eapply O|].
    intros x. rewrite Hr. by intros ?%elem_of_nil.
  - intros i j c d x Hij [[Hi ?]|[Hi ->]]%lookup_snoc_Some_inv
      [[Hj ?]|[Hj ->]]%lookup_snoc_Some_inv; [by eapply D| | |lia]; rewrite Hr;
      [by intros _ ?%elem_of_nil|by intros ?%elem_of_nil].
Qed.

Lemma space_reachable_ok dense_ok t cs : reachable dense_ok (t, cs) → config_ok t cs.
Proof.
  intros Hr. change (config_ok (t, cs).1 (t, cs).2). revert Hr.
  apply (rtc_ind_r (λ cfg, config_ok cfg.1 cfg.2) (identity_space dense_ok, [])).
  { apply space_config_ok_init. }
  intros cfg1 cfg2 _ Hstep IH. inversion Hstep; subst; cbn [fst snd] in *.
  - by apply space_config_ok_start.
  - by apply space_config_ok_step.
Qed.

(** Which bucket array there is never changes. *)
Lemma reachable_dense dense_ok t cs : reachable dense_ok (t, cs) →
  dense_semantic_bucket_mode t = dense_semantic_bucket_mode (identity_space dense_ok) ∧
  dense_allocated t = dense_allocated (identity_space dense_ok).
Proof.
  intros Hr. change (dense_semantic_bucket_mode (t, cs).1 = dense_semantic_bucket_mode (identity_space dense_ok)
    ∧ dense_allocated (t, cs).1 = dense_allocated (identity_space dense_ok)). revert Hr.
  apply (rtc_ind_r (λ cfg, dense_semantic_bucket_mode cfg.1 = dense_semantic_bucket_mode (identity_space dense_ok)
    ∧ dense_allocated cfg.1 = dense_allocated (identity_space dense_ok)) (identity_space dense_ok, [])).
  { done. }
  intros cfg1 cfg2 _ Hstep IH. inversion Hstep as [|t0 cs0 i c e Hi]; subst; cbn [fst snd] in *; [done|].
  destruct IH as [<- <-]. unfold step. by repeat case_match.
Qed.

(** ** Theorems *)

(** The guards of [find] and [resolve_declaration]. *)
Definition admissible (t : space) (p n : N) (k : identity_kind) : Prop :=
  ref_valid p = true ∧ n ≠ 0 ∧ k ≠ root_kind ∧ valid t p = true.

Lemma space_find_denotes t p n k r : space_ok t → admissible t p n k →
  denotes t p n r → find t p n k = if bool_decide (ref_kind r = k) then r else 0.
Proof.
  intros T (Hp & Hn & Hk & Hv) Hd. unfold find. rewrite Hp, Hv, (proj2 (N.eqb_neq n 0)) by done.
  rewrite bool_decide_eq_false_2 by done. cbn [negb orb].
  change (semantic_hash_value p n) with (edge_hash p n).
  pose proof (find_record_spec t p n T) as Hf. cbn zeta in Hf.
  set (r' := find_record _ _ _ _ _) in *. destruct (ref_valid r').
  - by rewrite (denotes_unique t p n r r' T Hd ltac:(by right)).
  - destruct Hd as [[k' Hk']|(Ha & rec & Hin & Hed)].
    + pose proof (baseline_find_laws _ _ _ _ Hk') as (b & Hb & Hf' & _ & Hkind & _). rewrite Hkind.
      case_bool_decide as Hkk; [by rewrite <-Hkk, Hk'|].
      destruct (baseline_find p n k) as [r''|] eqn:E; [|done].
      apply baseline_find_laws in E as (b' & Hb' & Hf'' & _). pose proof (laws b Hb).
      assert (b' = b) as -> by congruence. destruct Hkk. by eapply find_identity_one.
    + destruct Hf. apply list_elem_of_fmap. by exists (r, rec).
Qed.

Lemma find_absent t p n k : space_ok t → find t p n k ≠ 0 → ref_valid (find t p n k) = true →
  denotes t p n (find t p n k) ∧ ref_kind (find t p n k) = k.
Proof.
  intros T. unfold find. destruct (_ || _); [done|].
  change (semantic_hash_value p n) with (edge_hash p n).
  pose proof (find_record_spec t p n T) as Hf. cbn zeta in Hf.
  set (r' := find_record _ _ _ _ _) in *. destruct (ref_valid r') eqn:Hr'.
  - case_bool_decide; [|done]. intros _ _. split; [by right|done].
  - destruct (baseline_find p n k) as [r|] eqn:E; [|done]. cbn. intros _ _.
    split; [left; by exists k|]. by apply baseline_find_laws in E as (_ & _ & _ & _ & ? & _).
Qed.

(** C1: under every interleaving, two successful declarations give the same
    reference exactly when they declare the same local name under the same parent, and the
    reference has the declared kind. *)
Theorem resolve_canonical dense_ok t cs i j p n k r p' n' k' r' :
  reachable dense_ok (t, cs) →
  cs !! i = Some (Call p n k (Finished ok r)) → cs !! j = Some (Call p' n' k' (Finished ok r')) →
  ref_kind r = k ∧ ref_valid r = true ∧ ((p, n) = (p', n') ↔ r = r').
Proof.
  intros Hr Hi Hj. destruct (space_reachable_ok _ _ _ Hr) as [T C _ _].
  destruct (C _ _ Hi) as [Hd Hk]. destruct (C _ _ Hj) as [Hd' Hk']. cbn in *.
  split_and!; [done|by apply ref_valid_spec, (denotes_ref t p n)|]. split.
  - intros [= <- <-]. by eapply denotes_unique.
  - intros <-. by eapply space_denotes_inj.
Qed.

(** C27: under every interleaving, a declared identity is valid, carries its
    parent and name, and (while its parent is valid) [find] returns it for its kind and
    nothing for any other kind. *)
Theorem resolve_readable dense_ok t cs i p n k r :
  reachable dense_ok (t, cs) → cs !! i = Some (Call p n k (Finished ok r)) → n ≠ 0 →
  valid t r = true ∧ parent t r = p ∧ name t r = n ∧
  ∀ k', ref_valid p = true → valid t p = true → k' ≠ root_kind →
    find t p n k' = if bool_decide (k' = k) then r else 0.
Proof.
  intros Hr Hi Hn. destruct (space_reachable_ok _ _ _ Hr) as [T C _ _].
  destruct (C _ _ Hi) as [Hd Hk]. cbn in *.
  destruct (denotes_reads t p n r T Hn Hd) as (? & ? & ?). split_and!; [done..|].
  intros k' Hp Hv Hk'. rewrite (space_find_denotes t p n k' r T) by done. rewrite Hk.
  by rewrite (bool_decide_ext (k = k') (k' = k)) by done.
Qed.

(** Under every interleaving, a declaration fails with semantic_conflict
    only when the same edge has an identity of another kind (which [find] then does not
    return for the declared kind), and the broken-chain branch is never taken. *)
Theorem resolve_failures dense_ok t cs i p n k result :
  reachable dense_ok (t, cs) → cs !! i = Some (Call p n k (Finished result 0)) →
  result ≠ initialization_failed ∧
  (result = semantic_conflict → ∃ r, ref_kind r ≠ k ∧
     (n ≠ 0 → valid t r = true ∧ parent t r = p ∧ name t r = n) ∧
     (admissible t p n k → find t p n k = 0)).
Proof.
  intros Hr Hi. destruct (space_reachable_ok _ _ _ Hr) as [T C _ _]. pose proof (C _ _ Hi) as Ho.
  cbn in Ho. split.
  - by destruct result.
  - intros ->. cbn in Ho. destruct Ho as (r & Hd & Hk). exists r. split; [done|].
    split; [intros Hn; by apply denotes_reads|]. intros A.
    rewrite (space_find_denotes t p n k r T A Hd). by rewrite bool_decide_eq_false_2.
Qed.

(** ** One call without interference *)

Fixpoint alone (e : event) (n : nat) (q : space * call) : space * call :=
  match n with
  | O => q
  | S n' => alone e n' (step e q.1 q.2)
  end.

Definition ends (e : event) (q : space * call) (Q : space → call → Prop) : Prop :=
  ∃ n t' c', alone e n q = (t', c') ∧ Q t' c'.

Lemma space_ends_now e t c (Q : space → call → Prop) : Q t c → ends e (t, c) Q.
Proof. intros. by exists 0%nat, t, c. Qed.

Lemma space_ends_step e t c q Q : step e t c = q → ends e q Q → ends e (t, c) Q.
Proof. intros <- (n & t' & c' & Hr & HQ). exists (S n), t', c'. done. Qed.

Definition generous : event := Event true false.

(** What a call alone leaves when it adds the identity. *)
Definition added (t : space) (p n : N) (k : identity_kind) (t' : space) : Prop :=
  next_slot t' = next_slot t + 1 ∧ identity_count t' = w64 (identity_count t + 1) ∧
  ∀ b, bucket t' b = if decide (b = bucket_of (edge_hash p n)) then make (next_slot t) k
                     else bucket t b.

Section alone.
Context (t : space) (p n : N) (k : identity_kind).
Context (T : space_ok t) (Hfree : (p, n) ∉ edge <$> chain t (bucket_of (edge_hash p n))).
Context (Hslot : 2 <= next_slot t <= maximum_slot).

Let finished (t' : space) (c' : call) : Prop :=
    c' = Call p n k (Finished ok (make (next_slot t) k)) ∧ added t p n k t'.

(** The rest of the published state is as it was. *)
Definition unchanged (t1 : space) : Prop :=
    (∀ b, chain t1 b = chain t b) ∧ (∀ b, bucket t1 b = bucket t b) ∧ next_slot t1 = next_slot t + 1 ∧
    identity_count t1 = identity_count t.

Lemma ends_scan t1 : space_ok t1 → unchanged t1 →
    ends generous (t1, Call p n k (LoadHead (next_slot t))) finished.
Proof.
    intros T1 (Hc & Hb & Hn & Hi). set (b := bucket_of (edge_hash p n)).
    eapply space_ends_step; [done|]. cbn [step at_pc goto parent_value name_value kind_value].
    eapply space_ends_step; [done|]. cbn [step at_pc goto parent_value name_value kind_value].
    match goal with |- context [search_call ?t0 ?c0 ?h0] => change (search_call t0 c0 h0) with
      (search t1 p n (semantic_fingerprint (edge_hash p n)) (chain_fuel t1) (bucket t1 b)) end.
    rewrite (search_spec t1 p n (chain t1 b) (bucket t1 b) _ T1 (reflexivity _) (so_linked _ T1 b)
      (chain_fuel_enough _ b _ T1 (reflexivity _))).
    destruct (list_find _ (chain t1 b)) as [[j e]|] eqn:E.
    { apply list_find_Some in E as (Hj & Hed & _). destruct Hfree. fold b. rewrite <-Hc.
      apply list_elem_of_fmap. exists e. split; [done|]. by eapply list_elem_of_lookup_2. }
    eapply space_ends_step; [done|]. cbn [step at_pc goto parent_value name_value kind_value].
    change (call_bucket _) with b. set (t2 := set_slot t1 _ _).
    change (bucket t2 b) with (bucket t1 b). rewrite N.eqb_refl. cbn [andb negb spurious generous].
    eapply space_ends_step; [done|]. cbn [step at_pc goto parent_value name_value kind_value].
    apply space_ends_now. split; [done|]. split_and!; cbn; [done|by rewrite Hi|].
    intros b'. change (bucket (count_identity ?x)) with (bucket x). rewrite bucket_publish.
    change (bucket t2 b') with (bucket t1 b'). by rewrite Hb.
Qed.

Lemma space_ok_unchanged t1 : unchanged t1 → t_le t t1 → (∀ s, s ≠ next_slot t → slots t1 !! s = slots t !! s) →
    space_ok t1.
Proof.
    intros (Hc & Hb & Hn & _) Hle Hs. apply (space_ok_grow t); try done.
    - intros s Hp. apply Hs. apply space_published_issued in Hp as [_ ?]; [lia|done].
    - rewrite Hn. pose proof (so_next _ T) as [_ [?|?]]; lia.
Qed.

Lemma ends_pages t1 : unchanged t1 → t_le t t1 → slots t1 = slots t →
    ends generous (t1, Call p n k (EnsurePage (next_slot t))) finished.
Proof.
    intros (Hc & Hb & Hn & Hi) Hle Hs.
    assert (Hwrite : ∀ t2, unchanged t2 → t_le t t2 → slots t2 = slots t →
      ends generous (t2, Call p n k (WriteCandidate (next_slot t))) finished).
    { intros t2 U2 Hle2 Hs2. eapply space_ends_step; [done|].
      cbn [step at_pc goto parent_value name_value kind_value]. apply ends_scan; [|done].
      apply space_ok_unchanged; [done| |].
      - destruct Hle2. by constructor.
      - intros s Hne. cbn. by rewrite lookup_insert_ne, Hs2. }
    eapply space_ends_step; [done|]. cbn [step at_pc goto memory generous]. case_bool_decide; [by apply Hwrite|].
    eapply space_ends_step; [done|]. cbn [step at_pc goto]. rewrite bool_decide_eq_false_2 by done.
    apply Hwrite; [done| |done]. destruct Hle. constructor; try done. cbn. set_solver.
Qed.

Lemma ends_load t1 : (∀ b, chain t1 b = chain t b) → (∀ b, bucket t1 b = bucket t b) →
    next_slot t1 = next_slot t → identity_count t1 = identity_count t → t_le t t1 → slots t1 = slots t →
    ends generous (t1, Call p n k LoadSlot) finished.
Proof.
    intros Hc Hb Hn Hi Hle Hs.
    eapply space_ends_step; [done|]. cbn [step at_pc goto]. rewrite Hn.
    eapply space_ends_step; [done|]. cbn [step at_pc goto]. rewrite Hn, N.eqb_refl.
    destruct (N.eqb_spec (next_slot t) 0); [lia|].
    destruct (N.ltb_spec maximum_slot (next_slot t)); [lia|]. cbn [orb andb negb spurious generous].
    assert (Hw : w32 (next_slot t + 1) = next_slot t + 1).
    { apply w32_small. unfold maximum_slot, slot_mask, two32 in *. lia. }
    set (t2 := set_next_slot t1 _).
    assert (U : unchanged t2) by (split_and!; try done; by cbn).
    assert (Hle2 : t_le t t2) by (destruct Hle; constructor; try done; cbn; lia).
    eapply space_ends_step; [done|]. cbn [step at_pc goto].
    destruct (N.leb_spec (next_slot t) 1); [lia|].
    destruct (N.ltb_spec maximum_slot (next_slot t)); [lia|]. cbn [orb memory generous].
    destruct (N.leb_spec directory_count (directory_index (next_slot t))) as [Hd|Hd].
    { unfold directory_index, page_number, directory_count, page_shift, directory_page_bits, kind_shift in Hd.
      rewrite !N.shiftr_div_pow2, N.Div0.div_div in Hd.
      assert (next_slot t / (2 ^ 12 * 2 ^ 9) < 2 ^ (30 - 12 - 9)); [|lia].
      apply N.Div0.div_lt_upper_bound. change (2 ^ 12 * 2 ^ 9 * 2 ^ (30 - 12 - 9)) with (slot_mask + 1).
      unfold maximum_slot in *. lia. }
    case_bool_decide; [by apply ends_pages|].
    eapply space_ends_step; [done|]. cbn [step at_pc goto]. rewrite bool_decide_eq_false_2 by done.
    apply ends_pages; [done| |done]. destruct Hle2. constructor; try done. cbn. set_solver.
Qed.

Lemma ends_bucket : (dense_semantic_bucket_mode t = true → dense_allocated t = true) →
    ends generous (t, Call p n k EnsureBucket) finished.
Proof.
    intros Hd. eapply space_ends_step; [done|]. cbn [step at_pc goto parent_value name_value kind_value].
    match goal with |- context [call_bucket ?c0] => change (call_bucket c0) with (bucket_of (edge_hash p n)) end.
    pose proof (space_bucket_of_lt (edge_hash p n)) as Hlt.
    destruct (N.leb_spec semantic_bucket_count (bucket_of (edge_hash p n))); [lia|].
    destruct (dense_semantic_bucket_mode t); [rewrite Hd by done; by apply ends_load|].
    case_bool_decide; [by apply ends_load|]. cbn [memory generous].
    eapply space_ends_step; [done|]. cbn [step at_pc goto parent_value name_value kind_value].
    match goal with |- context [call_bucket ?c0] => change (call_bucket c0) with (bucket_of (edge_hash p n)) end.
    rewrite bool_decide_eq_false_2 by done. apply ends_load; try done. apply space_add_bucket_page_le.
Qed.
End alone.

(** How a declaration that is left alone may end. *)
Definition alone_result (t : space) (p n : N) (k : identity_kind) (t' : space) (result : status_code) (r : N) : Prop :=
  (result = ok ∧ find t p n k = r ∧ ref_valid r = true ∧ t' = t) ∨
  (result = semantic_conflict ∧ find t p n k = 0 ∧ t' = t ∧ ∃ k', k' ≠ k ∧ ref_valid (find t p n k') = true) ∨
  (result = ok ∧ r = make (next_slot t) k ∧ (∀ k', k' ≠ root_kind → find t p n k' = 0) ∧ added t p n k t').

(** An edge that is known: the identity, or a conflict of kinds. *)
Lemma denotes_result t p n k r : space_ok t → admissible t p n k → denotes t p n r →
  (ref_kind r = k → alone_result t p n k t ok r) ∧
  (ref_kind r ≠ k → ∀ r', alone_result t p n k t semantic_conflict r').
Proof.
  intros T A Hden. pose proof A as (Hp & Hn & Hk & Hv).
  assert (Hroot : ref_kind r ≠ root_kind).
  { destruct Hden as [[k' Hk']|(_ & rec & Hin & _)].
    - apply baseline_find_laws in Hk' as (b & Hb & Hf' & _ & -> & _). intros ->.
      pose proof (laws b Hb). by rewrite find_identity_root in Hf'.
    - apply (eo_kind _ _ _ (so_entries _ T _ _ Hin)). }
  assert (Hvalid : ref_valid r = true) by by apply ref_valid_spec, (denotes_ref t p n).
  pose proof (space_find_denotes t p n k r T A Hden) as Hf. split.
  - intros Hkr. left. rewrite bool_decide_eq_true_2 in Hf by done. by split_and!.
  - intros Hkr r'. right. left. rewrite bool_decide_eq_false_2 in Hf by done. split_and!; try done.
    exists (ref_kind r). split; [done|].
    rewrite (space_find_denotes t p n (ref_kind r) r T ltac:(done) Hden), bool_decide_eq_true_2 by done. done.
Qed.

(** C28: from any reachable state, an admissible declaration that runs without
    interference and is refused no memory terminates.  An edge already known answers with
    its identity, or with semantic_conflict when the kind differs, and changes nothing; a
    new edge gets the next slot, is linked into its bucket only, and is counted once. *)
Theorem resolve_alone dense_ok t cs p n k :
  reachable dense_ok (t, cs) → admissible t p n k → 2 <= next_slot t <= maximum_slot →
  (dense_semantic_bucket_mode t = true → dense_allocated t = true) →
  ∃ m t' result r, alone generous m (t, resolve_declaration t p n k) =
      (t', Call p n k (Finished result r)) ∧ alone_result t p n k t' result r.
Proof.
  intros Hr A Hs Hd. destruct (space_reachable_ok _ _ _ Hr) as [T _ _ _]. pose proof A as (Hp & Hn & Hk & Hv).
  unfold resolve_declaration. rewrite Hp, Hv, (proj2 (N.eqb_neq n 0)), bool_decide_eq_false_2 by done.
  cbn [negb orb]. pose proof (find_record_spec t p n T) as Hf. cbn zeta in Hf.
  pose proof (λ r, denotes_result t p n k r T A) as Hknown.
  assert (ends generous (t, Call p n k Find) (λ t' c', ∃ result r,
    c' = Call p n k (Finished result r) ∧ alone_result t p n k t' result r))
    as (m & t' & c' & Hrun & result & r & -> & HQ); [|by exists m, t', result, r].
  eapply space_ends_step; [done|]. cbn [step at_pc goto parent_value name_value kind_value].
  change (call_hash (Call p n k Find)) with (edge_hash p n).
  change (call_fingerprint (Call p n k Find)) with (semantic_fingerprint (edge_hash p n)).
  set (r := find_record _ _ _ _ _) in *. destruct (ref_valid r) eqn:Hrv.
  { destruct (Hknown r) as [H1 H2]; [by right|]. case_bool_decide as Hkr; apply space_ends_now; eauto. }
  destruct (baseline_find p n k) as [r'|] eqn:Eb.
  { apply space_ends_now. do 2 eexists. split; [done|]. apply (Hknown r'); [left; eauto|].
    by apply baseline_find_laws in Eb as (_ & _ & _ & _ & Hkr & _). }
  destruct (other_kind_found p n k) eqn:Eo.
  { apply space_ends_now. do 2 eexists. split; [done|].
    apply (other_kind_conflict t) in Eo as (r' & Hden & Hkr). by apply (Hknown r'). }
  pose proof (absent_baseline p n k Hk Eb Eo) as Habs.
  destruct (ends_bucket t p n k T Hf Hs Hd) as (m & t' & c' & ? & -> & ?). exists m, t'. eexists. split; [done|].
  do 2 eexists. split; [done|]. right. right. split_and!; [done..| |done].
  intros k' Hk'. unfold find. rewrite Hp, Hv, (proj2 (N.eqb_neq n 0)), bool_decide_eq_false_2 by done.
  cbn [negb orb]. change (semantic_hash_value p n) with (edge_hash p n). fold r. by rewrite Hrv, Habs.
Qed.

(** ** The statistics of a reachable index *)

Abbreviation total := (sumN (λ x : N, x)).

Lemma alter_sum k (l : list N) : (k < length l)%nat → total (alter (N.add 1) k l) = total l + 1.
Proof.
  revert k. induction l as [|x l IH]; intros [|k] Hk; cbn in *; try lia.
  rewrite IH; lia.
Qed.

Lemma account_chain_spec t b l v fuel n s :
  space_ok t → l `suffix_of` chain t b → linked l v → (length l < fuel)%nat →
  length (comparison_histogram s) = 256%nat →
  let '(n', s') := account_chain t fuel v n s in
  n' = n + N.of_nat (length l) ∧ entry_count s' = entry_count s + N.of_nat (length l) ∧
  occupied_buckets s' = occupied_buckets s ∧ collision_entries s' = collision_entries s ∧
  max_chain_length s' = max_chain_length s ∧ length (comparison_histogram s') = 256%nat ∧
  total (comparison_histogram s') = total (comparison_histogram s) + N.of_nat (length l).
Proof.
  intros T. revert v fuel n s. induction l as [|e l IH]; intros v [|fuel] n s Hs Hl Hf Hh;
    [cbn in Hf; lia| |cbn in Hf; lia|]; cbn [account_chain linked] in *.
  { rewrite Hl. cbn. split_and!; lia. }
  destruct Hl as (-> & Hv & Hl). rewrite (proj2 (N.eqb_neq _ _)) by done.
  assert (He : entry_ok t b e) by (apply T; destruct Hs as [l' ->]; set_solver).
  rewrite (eo_ref _ _ _ He), (entry_published _ _ _ He).
  specialize (IH (next_bucket e.2) fuel (n + 1)).
  match goal with |- context [account_chain _ _ _ _ ?s0] => specialize (IH s0) end.
  cbn [comparison_histogram entry_count occupied_buckets collision_entries max_chain_length] in IH.
  destruct (account_chain _ _ _ _ _) as [n' s'].
  destruct IH as (? & ? & ? & ? & ? & ? & Hsum);
    [by eapply suffix_cons_l|done|cbn in Hf; lia|by rewrite length_alter|].
  rewrite alter_sum in Hsum by (rewrite Hh; destruct (N.ltb_spec (n + 1) 256); lia).
  cbn [length]. split_and!; lia.
Qed.

Definition counted (t : space) (s : identity_index_statistics) (bs : list N) : Prop :=
  let lengths := (λ b, N.of_nat (length (chain t b))) <$> bs in
  entry_count s = total lengths ∧
  occupied_buckets s + collision_entries s = entry_count s ∧
  (∀ n, n ∈ lengths → n <= max_chain_length s) ∧
  (max_chain_length s = 0 ∨ max_chain_length s ∈ lengths) ∧
  length (comparison_histogram s) = 256%nat ∧ total (comparison_histogram s) = entry_count s.

Lemma account_bucket_spec t s bs b : space_ok t → counted t s bs →
  counted t (account_bucket t s (bucket t b)) (bs ++ [b]).
Proof.
  intros T (He & Ho & Hm & Hi & Hh & Hsum). unfold account_bucket, counted.
  rewrite fmap_app, sumN_app. cbn [fmap list_fmap sumN]. pose proof (so_linked _ T b) as Hl.
  destruct (N.eqb_spec (bucket t b) 0) as [Hz|Hz].
  { assert (chain t b = []) as -> by (destruct (chain t b); [done|]; cbn in Hl; naive_solver).
    cbn. split_and!; try lia.
    - intros n [?| ->%list_elem_of_singleton]%elem_of_app; [by apply Hm|lia].
    - destruct Hi; [by left|right]. set_solver. }
  set (s0 := Statistics _ _ _ _ _ _).
  pose proof (account_chain_spec t b (chain t b) (bucket t b) (chain_fuel t) 0 s0 T (reflexivity _)
    Hl (chain_fuel_enough t b _ T (reflexivity _)) Hh) as Hc.
  destruct (account_chain _ _ _ _ _) as [n' s']. cbn in Hc.
  destruct Hc as (Hn & He' & Ho' & Hc' & Hm' & Hh' & Hsum').
  assert (0 < n') by (destruct (chain t b); cbn in Hl, Hn; [congruence|lia]).
  cbn [entry_count occupied_buckets collision_entries max_chain_length comparison_histogram].
  rewrite Hm', Hc', Ho', He'. split_and!; try done; try lia.
  - destruct (N.ltb_spec 1 n'); lia.
  - intros n [Hin| ->%list_elem_of_singleton]%elem_of_app; [apply Hm in Hin|];
      destruct (N.ltb_spec (max_chain_length s) n'); lia.
  - destruct (N.ltb_spec (max_chain_length s) n').
    + right. apply elem_of_app. right. apply list_elem_of_singleton. lia.
    + destruct Hi as [Hi|Hi]; [lia|right]. set_solver.
Qed.

Lemma percentile_walk_spec l c cum target :
  match percentile_walk l c cum target with
  | Some k => ∃ i, (i < length l)%nat ∧ k = c + N.of_nat i ∧
      target <= cum + total (take (S i) l) ∧
      ∀ j, (j < i)%nat → cum + total (take (S j) l) < target
  | None => ∀ j, (j < length l)%nat → cum + total (take (S j) l) < target
  end.
Proof.
  revert c cum. induction l as [|h l IH]; intros c cum; cbn [percentile_walk]; [cbn; lia|].
  destruct (N.leb_spec target (cum + h)) as [Hle|Hlt].
  - exists 0%nat. cbn [length take sumN]. rewrite take_0. cbn [sumN]. split; [lia|]. split; [lia|]. split; [lia|]. intros j Hj; lia.
  - specialize (IH (c + 1) (cum + h)). destruct (percentile_walk l _ _ _) as [k|].
    + destruct IH as (i & Hi & -> & Hge & Hbelow). exists (S i). cbn [length]. split_and!; [lia|lia| |].
      * change (total (take (S (S i)) (h :: l))) with (h + total (take (S i) l)). lia.
      * intros [|j] Hj; [cbn [take sumN]; rewrite take_0; cbn [sumN]; lia|]. specialize (Hbelow j ltac:(lia)).
        change (total (take (S (S j)) (h :: l))) with (h + total (take (S j) l)). lia.
    + intros [|j] Hj; [cbn [take sumN]; rewrite take_0; cbn [sumN]; lia|]. specialize (IH j ltac:(cbn in Hj; lia)).
      change (total (take (S (S j)) (h :: l))) with (h + total (take (S j) l)). lia.
Qed.

Lemma fold_counted t bs bs0 s0 : space_ok t → counted t s0 bs0 →
  counted t (foldl (λ s b, account_bucket t s (bucket t b)) s0 bs) (bs0 ++ bs).
Proof.
  intros T. revert bs0 s0. induction bs as [|b bs IH]; intros bs0 s0 H0; [by rewrite app_nil_r|].
  cbn [foldl]. replace (bs0 ++ b :: bs) with ((bs0 ++ [b]) ++ bs) by by rewrite <-app_assoc.
  by apply IH, account_bucket_spec.
Qed.

Lemma counted_none t : counted t no_statistics [].
Proof. unfold counted. cbn. split_and!; try done; [by intros n ?%elem_of_nil|by left]. Qed.

Lemma fold_counted_nil t bs : space_ok t →
  counted t (foldl (λ s b, account_bucket t s (bucket t b)) no_statistics bs) bs.
Proof. intros T. exact (fold_counted t bs [] no_statistics T (counted_none t)). Qed.

(** The least comparison count whose cumulative entries reach the target, or 255. *)
Definition percentile_exact (s : identity_index_statistics) (numerator p : N) : Prop :=
  let upto k := total (take k (tail (comparison_histogram s))) in
  p < 256 ∧ (p < 255 → percentile_target (entry_count s) numerator <= upto (N.to_nat p)) ∧
  ∀ k, (0 < k)%nat → (k < N.to_nat p)%nat →
    upto k < percentile_target (entry_count s) numerator.

Lemma percentile_spec s numerator :
  length (comparison_histogram s) = 256%nat → entry_count s ≠ 0 →
  percentile_exact s numerator
    (percentile_from_histogram (comparison_histogram s) (entry_count s) numerator).
Proof.
  intros Hlen Hne. unfold percentile_from_histogram, percentile_exact.
  rewrite (proj2 (N.eqb_neq _ _)) by done.
  assert (Htl : length (tail (comparison_histogram s)) = 255%nat)
    by (destruct (comparison_histogram s); cbn in *; lia).
  pose proof (percentile_walk_spec (tail (comparison_histogram s)) 1 0
    (percentile_target (entry_count s) numerator)) as Hw.
  destruct (percentile_walk _ _ _ _) as [k|]; cbn [default from_option]; unfold id.
  - destruct Hw as (i & Hi & -> & Hge & Hbelow). rewrite Htl in Hi. split_and!; [lia| |].
    + intros _. replace (N.to_nat (1 + N.of_nat i)) with (S i) by lia. lia.
    + intros [|j] Hj0 Hj; [lia|]. specialize (Hbelow j ltac:(lia)). lia.
  - rewrite Hlen. split_and!; [lia|lia|]. intros [|j] Hj0 Hj; [lia|].
    specialize (Hw j ltac:(lia)). lia.
Qed.

(** On every reachable index the statistics count exactly the
    published identities: the entries are the sum of the chain lengths over the buckets, every
    entry is either the first of its bucket or a collision, the maximum chain length is
    attained and bounds all, and the histogram holds every entry once.  A percentile is the
    least comparison count whose cumulative number of entries reaches the target. *)
Theorem index_statistics_exact dense_ok t cs numerator :
  reachable dense_ok (t, cs) →
  counted t (index_statistics t) (visited_buckets t) ∧
  (entry_count (index_statistics t) ≠ 0 →
   percentile_exact (index_statistics t) numerator
     (percentile_from_histogram (comparison_histogram (index_statistics t))
        (entry_count (index_statistics t)) numerator)).
Proof.
  intros Hr. destruct (space_reachable_ok _ _ _ Hr) as [T _ _ _].
  assert (Hc : counted t (index_statistics t) (visited_buckets t))
    by exact (fold_counted_nil t (visited_buckets t) T).
  split; [exact Hc|]. destruct Hc as (_ & _ & _ & _ & Hlen & _). exact (percentile_spec _ numerator Hlen).
Qed.

End space.

(** ** Witnesses: an empty baseline-less space, two calls racing for one edge *)

Lemma identity_ref_round_trip_witness :
  7 <= maximum_slot ∧ ref_slot (make 7 type_kind) = 7 ∧ ref_kind (make 7 type_kind) = type_kind ∧
  0x80000007 < two32 ∧ make (ref_slot 0x80000007) (ref_kind 0x80000007) = 0x80000007.
Proof.
  split; [done|]. destruct (identity_ref_round_trip 7 type_kind 0x80000007) as [H1 H2].
  destruct H1 as (? & ? & _); [done|]. split_and!; done.
Defined.

Inductive move : Set := Start (p n : N) (k : identity_kind) | Step (i : nat).

Fixpoint play (cfg : config) (moves : list move) : option config :=
  match moves with
  | [] => Some cfg
  | Start p n k :: rest => play (cfg.1, cfg.2 ++ [resolve_declaration None cfg.1 p n k]) rest
  | Step i :: rest =>
      match cfg.2 !! i with
      | Some c => play ((step None generous cfg.1 c).1, <[i := (step None generous cfg.1 c).2]> cfg.2) rest
      | None => None
      end
  end.

Lemma space_play_sound moves cfg cfg' : play cfg moves = Some cfg' → rtc (config_step None) cfg cfg'.
Proof.
  revert cfg. induction moves as [|[p n k|i] moves IH]; intros [t cs]; cbn [play fst snd].
  - by intros [= <-].
  - intros Hp. eapply rtc_l; [apply start_call|by apply IH].
  - destruct (cs !! i) as [c|] eqn:Hi; [|done].
    intros Hp. eapply rtc_l; [by apply (step_call None t cs i c generous)|by apply IH].
Qed.

Lemma space_play_result moves cfg calls nxt v :
  (λ p : config, (p.2, next_slot p.1, valid None p.1 root)) <$> play cfg moves = Some (calls, nxt, v) →
  ∃ t, rtc (config_step None) cfg (t, calls) ∧ next_slot t = nxt ∧ valid None t root = v.
Proof.
  destruct (play cfg moves) as [[t cs]|] eqn:E; [|done]. cbn. intros [= -> <- <-].
  exists t. split; [by apply (space_play_sound moves)|done].
Qed.

Definition steps (i n : nat) : list move := replicate n (Step i).
Definition race : list move :=
  [Start root 5 namespace_scope; Start root 5 namespace_scope; Start root 5 type_kind; Start root 6 object_kind]
  ++ steps 0 10 ++ steps 1 11 ++ steps 0 4 ++ steps 1 6 ++ steps 2 4 ++ steps 3 16.
Definition race_calls : list call :=
  [Call root 5 namespace_scope (Finished ok (make 3 namespace_scope));
   Call root 5 namespace_scope (Finished ok (make 3 namespace_scope));
   Call root 5 type_kind (Finished semantic_conflict 0);
   Call root 6 object_kind (Finished ok (make 4 object_kind))].

Lemma space_no_baseline_laws : ∀ b : compiled_image_view, None = Some b → BaselineLaws b.
Proof. done. Qed.

Lemma space_race_reaches : ∃ t, reachable None true (t, race_calls) ∧ next_slot t = 5 ∧
  valid None t root = true.
Proof.
  destruct (space_play_result race (identity_space None true, []) race_calls 5 true) as (t & Hr & Hn & Hv).
  { vm_compute. reflexivity. }
  exists t. split; [exact Hr|]. split; [exact Hn|exact Hv].
Qed.

Lemma resolve_canonical_witness : ∃ t, reachable None true (t, race_calls) ∧
  ((root, 5) = (root, 5) ↔ make 3 namespace_scope = make 3 namespace_scope) ∧
  ((root, 5) = (root, 6) ↔ make 3 namespace_scope = make 4 object_kind).
Proof.
  destruct space_race_reaches as (t & Hr & _). exists t. split; [exact Hr|]. split.
  - apply (resolve_canonical None space_no_baseline_laws true t race_calls 0 1 root 5 namespace_scope _ root 5
      namespace_scope _ Hr); reflexivity.
  - apply (resolve_canonical None space_no_baseline_laws true t race_calls 0 3 root 5 namespace_scope _ root 6
      object_kind _ Hr); reflexivity.
Defined.

Lemma resolve_readable_witness : ∃ t, reachable None true (t, race_calls) ∧
  parent None t (make 4 object_kind) = root ∧ name None t (make 4 object_kind) = 6 ∧
  find None t root 6 object_kind = make 4 object_kind ∧ find None t root 6 type_kind = 0.
Proof.
  destruct space_race_reaches as (t & Hr & _ & Hv). exists t. split; [exact Hr|].
  destruct (resolve_readable None space_no_baseline_laws true t race_calls 3 root 6 object_kind _ Hr eq_refl)
    as (_ & Hp & Hn & Hf); [discriminate|].
  split; [exact Hp|]. split; [exact Hn|]. split.
  - apply (Hf object_kind eq_refl Hv). discriminate.
  - apply (Hf type_kind eq_refl Hv). discriminate.
Defined.

Lemma resolve_failures_witness : ∃ t, reachable None true (t, race_calls) ∧
  find None t root 5 type_kind = 0.
Proof.
  destruct space_race_reaches as (t & Hr & _ & Hv). exists t. split; [exact Hr|].
  destruct (resolve_failures None space_no_baseline_laws true t race_calls 2 root 5 type_kind
    semantic_conflict Hr eq_refl) as [_ Hc].
  destruct (Hc eq_refl) as (r & _ & _ & Hf). apply Hf. split_and!; [reflexivity|discriminate|discriminate|exact Hv].
Defined.

Lemma resolve_alone_witness : ∃ t, reachable None true (t, race_calls) ∧ ∃ m t' result r,
  alone None generous m (t, resolve_declaration None t root 5 object_kind) =
    (t', Call root 5 object_kind (Finished result r)).
Proof.
  destruct space_race_reaches as (t & Hr & Hn & Hv). exists t. split; [exact Hr|].
  destruct (resolve_alone None space_no_baseline_laws true t race_calls root 5 object_kind Hr)
    as (m & t' & result & r & Hrun & _).
  - split_and!; [reflexivity|discriminate|discriminate|exact Hv].
  - rewrite Hn. unfold maximum_slot, slot_mask. lia.
  - intros _. by destruct (reachable_dense None true t race_calls Hr) as [_ ->].
  - exists m, t', result, r. exact Hrun.
Defined.

Lemma index_statistics_exact_witness : ∃ t, reachable None true (t, race_calls) ∧
  counted t (index_statistics t) (visited_buckets t).
Proof.
  destruct space_race_reaches as (t & Hr & _). exists t. split; [exact Hr|].
  exact (proj1 (index_statistics_exact None space_no_baseline_laws true t race_calls 95 Hr)).
Defined.
End IdentitySpace.
