(* ===== verification/Json.v ===== *)
(** * The JSON event parser

    Models server_engine/json/json_parser.{hpp,cpp}.  Bytes are [N]; the parser state is the
    position, the text from there on (a string_view is only read forwards) and the events
    the handler has received, last first.  A failure keeps the events already delivered.
    Every function has the name of its C++ counterpart.  Recursion is on a fuel; twice the
    length of the text and two more is enough ([Stuck] is never the outcome, shown below).
    A non-integral number goes through the Standard C++ [from_chars] for [double], which is
    a parameter. *)

From S2P Require Import Prelude.

Local Open Scope N_scope.

Module Json.

Definition max_json_depth : N := 64.

Inductive json_error_code : Set :=
| none | unexpected_end | unexpected_token | invalid_string | invalid_escape | invalid_unicode
| invalid_number | nesting_too_deep | internal_failure.

#[export] Instance json_error_code_eq_dec : EqDecision json_error_code.
Proof. solve_decision. Defined.

(** ** Characters *)

Definition is_space (value : N) : bool :=
  (value =? 32) || (value =? 9) || (value =? 13) || (value =? 10).

Definition is_digit (value : N) : bool := (48 <=? value) && (value <=? 57).

(** [None] is -1. *)
Definition hex_value (value : N) : option N :=
  if (48 <=? value) && (value <=? 57) then Some (value - 48)
  else if (97 <=? value) && (value <=? 102) then Some (value - 97 + 10)
  else if (65 <=? value) && (value <=? 70) then Some (value - 65 + 10)
  else None.

Definition append_utf8 (codepoint : N) : list N :=
  if codepoint <=? 0x7F then [w8 codepoint]
  else if codepoint <=? 0x7FF then
    [w8 (N.lor 0xC0 (N.shiftr codepoint 6)); w8 (N.lor 0x80 (N.land codepoint 0x3F))]
  else if codepoint <=? 0xFFFF then
    [w8 (N.lor 0xE0 (N.shiftr codepoint 12));
     w8 (N.lor 0x80 (N.land (N.shiftr codepoint 6) 0x3F));
     w8 (N.lor 0x80 (N.land codepoint 0x3F))]
  else
    [w8 (N.lor 0xF0 (N.shiftr codepoint 18));
     w8 (N.lor 0x80 (N.land (N.shiftr codepoint 12) 0x3F));
     w8 (N.lor 0x80 (N.land (N.shiftr codepoint 6) 0x3F));
     w8 (N.lor 0x80 (N.land codepoint 0x3F))].

Section json.
Context {D : Type} (from_chars_double : list N → option D).

(** ** Events and state *)

Inductive event : Type :=
| location (offset : N)
| object_begin | object_end | array_begin | array_end
| key (value : list N) | string_event (value : list N)
| integer (value : Z) | number (value : D) | boolean (value : bool) | null.

Record state : Type := State { position : N; rest : list N; events : list event }.

Definition emit (e : event) (st : state) : state := State (position st) (rest st) (e :: events st).

Inductive outcome (A : Type) : Type :=
| Done (a : A) (st : state)
| Failed (code : json_error_code) (offset : N) (st : state)
| Stuck.
Arguments Done {A}. Arguments Failed {A}. Arguments Stuck {A}.

Notation "'let*' ( a , st ) := e 'in' k" :=
  (match e with
   | Done a st => k
   | Failed code offset st' => Failed code offset st'
   | Stuck => Stuck
   end) (at level 200, a name, st name, e at level 100, k at level 200).

Definition fail {A} (code : json_error_code) (st : state) : outcome A :=
  Failed code (position st) st.

(** ** Lexical level *)

Fixpoint skip_while (p : N → bool) (position : N) (rest : list N) : N * list N :=
  match rest with
  | c :: rest' => if p c then skip_while p (position + 1) rest' else (position, rest)
  | [] => (position, rest)
  end.

Definition skip_space (st : state) : state :=
  let '(position, rest) := skip_while is_space (position st) (rest st) in
  State position rest (events st).

Definition skip_digits (st : state) : state :=
  let '(position, rest) := skip_while is_digit (position st) (rest st) in
  State position rest (events st).

(** [++position]; at the end of the text it is not reached. *)
Definition advance (st : state) : state :=
  match rest st with
  | _ :: rest' => State (position st + 1) rest' (events st)
  | [] => st
  end.

Definition consume (value : N) (st : state) : option state :=
  match rest st with
  | c :: _ => if c =? value then Some (advance st) else None
  | [] => None
  end.

Definition at_digit (st : state) : bool :=
  match rest st with c :: _ => is_digit c | [] => false end.

Fixpoint hex_digits (count : nat) (output : N) (st : state) : outcome N :=
  match count with
  | O => Done output st
  | S count' =>
      match rest st with
      | [] => fail unexpected_end st
      | c :: _ =>
          match hex_value c with
          | None => Failed invalid_unicode (position st) (advance st)
          | Some digit => hex_digits count' (N.lor (w32 (N.shiftl output 4)) digit) (advance st)
          end
      end
  end.

Definition parse_hex4 (st : state) : outcome N :=
  if (length (rest st) <? 4)%nat then fail unexpected_end st else hex_digits 4 0 st.

(** [case 'u']: the codepoint. *)
Definition parse_unicode (st : state) : outcome N :=
  let* (first, st) := parse_hex4 st in
  if (0xD800 <=? first) && (first <=? 0xDBFF) then
    match rest st with
    | 92 :: 117 :: _ =>
        let* (second, st) := parse_hex4 (advance (advance st)) in
        if (second <? 0xDC00) || (0xDFFF <? second) then fail invalid_unicode st
        else Done (0x10000 + N.shiftl (first - 0xD800) 10 + (second - 0xDC00)) st
    | _ => fail invalid_unicode st
    end
  else if (0xDC00 <=? first) && (first <=? 0xDFFF) then fail invalid_unicode st
  else Done first st.

(** The simple escapes. *)
Definition simple_escape (escape : N) : option N :=
  if escape =? 34 then Some 34 else if escape =? 92 then Some 92
  else if escape =? 47 then Some 47 else if escape =? 98 then Some 8
  else if escape =? 102 then Some 12 else if escape =? 110 then Some 10
  else if escape =? 114 then Some 13 else if escape =? 116 then Some 9 else None.

(** The loop of [parse_string]; [output] is last first. *)
Fixpoint string_loop (fuel : nat) (output : list N) (st : state) : outcome (list N) :=
  match fuel with
  | O => Stuck
  | S fuel' =>
      match rest st with
      | [] => fail unexpected_end st
      | value :: _ =>
          let st := advance st in
          if value =? 34 then Done (rev output) st
          else if value <? 0x20 then Failed invalid_string (position st - 1) st
          else if negb (value =? 92) then string_loop fuel' (value :: output) st
          else
            match rest st with
            | [] => fail unexpected_end st
            | escape :: _ =>
                let st := advance st in
                match simple_escape escape with
                | Some c => string_loop fuel' (c :: output) st
                | None =>
                    if escape =? 117 then
                      let* (codepoint, st) := parse_unicode st in
                      string_loop fuel' (rev (append_utf8 codepoint) ++ output) st
                    else Failed invalid_escape (position st - 1) st
                end
            end
      end
  end.

Definition parse_string (st : state) : outcome (list N) :=
  match consume 34 st with
  | None => fail unexpected_token st
  | Some st => string_loop (S (length (rest st))) [] st
  end.

(** [std::from_chars] on a whole token of an optional sign and digits. *)
Definition digits_value (digits : list N) : N :=
  foldl (λ value c, value * 10 + (c - 48)) 0 digits.

Definition from_chars_int64 (token : list N) : option Z :=
  let value :=
    match token with
    | 45 :: digits => (- Z.of_N (digits_value digits))%Z
    | digits => Z.of_N (digits_value digits)
    end in
  if (- 2 ^ 63 <=? value)%Z && (value <? 2 ^ 63)%Z then Some value else None.

(** [parse_number] up to the end of the token: whether it is integral. *)
Definition scan_number (st : state) : outcome bool :=
  let '(signed, st) := match consume 45 st with Some st' => (true, st') | None => (false, st) end in
  if signed && match rest st with [] => true | _ => false end then fail invalid_number st
  else
    let* (_, st) :=
      match consume 48 st with
      | Some st => if at_digit st then fail invalid_number st else Done tt st
      | None => if at_digit st then Done tt (skip_digits st) else fail invalid_number st
      end in
    let* (integral, st) :=
      match consume 46 st with
      | Some st => if at_digit st then Done false (skip_digits st) else fail invalid_number st
      | None => Done true st
      end in
    match rest st with
    | c :: _ =>
        if (c =? 101) || (c =? 69) then
          let st := advance st in
          let st := match consume 43 st with
                    | Some st => st
                    | None => match consume 45 st with Some st => st | None => st end
                    end in
          if at_digit st then Done false (skip_digits st) else fail invalid_number st
        else Done integral st
    | [] => Done integral st
    end.

Definition parse_number (st : state) : outcome unit :=
  let begin := st in
  let* (integral, st) := scan_number st in
  let token := take (length (rest begin) - length (rest st)) (rest begin) in
  if (integral : bool) then
    match from_chars_int64 token with
    | None => Failed invalid_number (position begin) st
    | Some value => Done tt (emit (integer value) st)
    end
  else
    match from_chars_double token with
    | None => Failed invalid_number (position begin) st
    | Some value => Done tt (emit (number value) st)
    end.

Definition parse_literal (literal : list N) (e : event) (st : state) : outcome unit :=
  if negb (bool_decide (take (length literal) (rest st) = literal)) then fail unexpected_token st
  else Done tt (emit e (State (position st + N.of_nat (length literal))
                          (drop (length literal) (rest st)) (events st))).

(** ** Values *)

Definition true_literal : list N := [116; 114; 117; 101].
Definition false_literal : list N := [102; 97; 108; 115; 101].
Definition null_literal : list N := [110; 117; 108; 108].

Definition close (e : event) (st : state) : outcome unit :=
  Done tt (emit e (emit (location (position st - 1)) st)).

Fixpoint parse_value (fuel : nat) (depth : N) (st : state) : outcome unit :=
  match fuel with
  | O => Stuck
  | S fuel' =>
      let st := skip_space st in
      match rest st with
      | [] => fail unexpected_end st
      | c :: _ =>
          let st := emit (location (position st)) st in
          if c =? 123 then
            if max_json_depth <=? depth then fail nesting_too_deep st
            else
              let st := skip_space (emit object_begin (advance st)) in
              match consume 125 st with
              | Some st => close object_end st
              | None => object_members fuel' depth st
              end
          else if c =? 91 then
            if max_json_depth <=? depth then fail nesting_too_deep st
            else
              let st := skip_space (emit array_begin (advance st)) in
              match consume 93 st with
              | Some st => close array_end st
              | None => array_elements fuel' depth st
              end
          else if c =? 34 then
            let* (value, st) := parse_string st in Done tt (emit (string_event value) st)
          else if c =? 116 then parse_literal true_literal (boolean true) st
          else if c =? 102 then parse_literal false_literal (boolean false) st
          else if c =? 110 then parse_literal null_literal null st
          else if (c =? 45) || is_digit c then parse_number st
          else fail unexpected_token st
      end
  end
(** The loop of [parse_object]. *)
with object_members (fuel : nat) (depth : N) (st : state) : outcome unit :=
  match fuel with
  | O => Stuck
  | S fuel' =>
      let st := skip_space st in
      match rest st with
      | [] => fail unexpected_end st
      | _ =>
          let st := emit (location (position st)) st in
          let* (key_value, st) := parse_string st in
          let st := skip_space (emit (key key_value) st) in
          match consume 58 st with
          | None => fail unexpected_token st
          | Some st =>
              let* (_, st) := parse_value fuel' (depth + 1) st in
              let st := skip_space st in
              match consume 125 st with
              | Some st => close object_end st
              | None =>
                  match consume 44 st with
                  | None => fail unexpected_token st
                  | Some st => object_members fuel' depth st
                  end
              end
          end
      end
  end
(** The loop of [parse_array]. *)
with array_elements (fuel : nat) (depth : N) (st : state) : outcome unit :=
  match fuel with
  | O => Stuck
  | S fuel' =>
      let* (_, st) := parse_value fuel' (depth + 1) st in
      let st := skip_space st in
      match consume 93 st with
      | Some st => close array_end st
      | None =>
          match consume 44 st with
          | None => fail unexpected_token st
          | Some st => array_elements fuel' depth st
          end
      end
  end.

Definition value_fuel (text : list N) : nat := 2 * length text + 2.

(** [parser::run] on a text, and [parse_json]: the result, and the events in order. *)
Definition parse_json (text : list N) : option (json_error_code * N * list event) :=
  match parse_value (value_fuel text) 0 (skip_space (State 0 text [])) with
  | Done _ st =>
      let st := skip_space st in
      match rest st with
      | [] => Some (none, 0, rev (events st))
      | _ => Some (unexpected_token, position st, rev (events st))
      end
  | Failed code offset st => Some (code, offset, rev (events st))
  | Stuck => None
  end.

(** ** Every function moves forward, and never gets stuck *)

Definition left_in (st : state) : N := N.of_nat (length (rest st)).

Definition moved (st st' : state) : Prop :=
  position st' + left_in st' = position st + left_in st ∧ position st <= position st'.

(** [Q] holds of a [Done] outcome; a failure has a code and an offset in the text. *)
Definition post {A} (st : state) (o : outcome A) (Q : A → state → Prop) : Prop :=
  match o with
  | Done a st' => moved st st' ∧ Q a st'
  | Failed code offset st' =>
      code ≠ none ∧ position st <= offset <= position st + left_in st
  | Stuck => False
  end.

Lemma moved_refl st : moved st st.
Proof. split; lia. Qed.
Lemma state_moved_trans st1 st2 st3 : moved st1 st2 → moved st2 st3 → moved st1 st3.
Proof. intros [? ?] [? ?]. split; lia. Qed.
Lemma moved_emit st e : moved st (emit e st).
Proof. split; cbn; [done|lia]. Qed.

Lemma post_fail {A} st c (Q : A → state → Prop) : c ≠ none → post st (fail c st) Q.
Proof. intros Hc. split; [done|]. unfold left_in. lia. Qed.

Lemma post_from {A} st st' (o : outcome A) (Q R : A → state → Prop) :
  moved st st' → post st' o Q → (∀ a st'', moved st' st'' → Q a st'' → R a st'') → post st o R.
Proof.
  intros M. pose proof M as [? ?]. destruct o as [a st''|c off st''|]; cbn; [|intros [? ?] _; split; [done|lia]|done].
  intros [M' HQ] HR. split; [by eapply state_moved_trans|by apply HR].
Qed.

Lemma post_bind {A B} st (o : outcome A) (k : A → state → outcome B) (Q : A → state → Prop) R :
  post st o Q → (∀ a st', moved st st' → Q a st' → post st' (k a st') R) →
  post st (let* (a, st') := o in k a st') R.
Proof.
  destruct o as [a st'|c off st'|]; cbn; [|done..]. intros [M HQ] Hk.
  apply (post_from _ st' _ R); [done|by apply Hk|done].
Qed.

Lemma post_weaken {A} st (o : outcome A) (Q R : A → state → Prop) :
  post st o Q → (∀ a st', moved st st' → Q a st' → R a st') → post st o R.
Proof. intros H HR. apply (post_from st st o Q R); [apply moved_refl|done|done]. Qed.

Lemma skip_while_spec p pos l : let '(pos', l') := skip_while p pos l in
  pos' + N.of_nat (length l') = pos + N.of_nat (length l) ∧ pos <= pos'.
Proof.
  revert pos. induction l as [|c l IH]; intros pos; cbn [skip_while]; [lia|].
  destruct (p c); [|lia]. specialize (IH (pos + 1)). destruct (skip_while _ _ _). cbn [length]. lia.
Qed.

Lemma skip_space_moved st : moved st (skip_space st).
Proof.
  unfold skip_space. pose proof (skip_while_spec is_space (position st) (rest st)) as H.
  destruct (skip_while _ _ _). split; cbn; unfold left_in; cbn; lia.
Qed.
Lemma skip_digits_moved st : moved st (skip_digits st).
Proof.
  unfold skip_digits. pose proof (skip_while_spec is_digit (position st) (rest st)) as H.
  destruct (skip_while _ _ _). split; cbn; unfold left_in; cbn; lia.
Qed.
Lemma skip_space_events st : events (skip_space st) = events st.
Proof. unfold skip_space. by destruct (skip_while _ _ _). Qed.
Lemma skip_digits_events st : events (skip_digits st) = events st.
Proof. unfold skip_digits. by destruct (skip_while _ _ _). Qed.

Lemma advance_moved st c l : rest st = c :: l →
  moved st (advance st) ∧ position (advance st) = position st + 1 ∧ rest (advance st) = l.
Proof. intros H. unfold advance. rewrite H. split; [|done]. split; unfold left_in; cbn; rewrite ?H; cbn [length]; lia. Qed.

Lemma advance_events st : events (advance st) = events st.
Proof. unfold advance. by destruct (rest st). Qed.

Lemma consume_Some v st st' : consume v st = Some st' →
  moved st st' ∧ position st' = position st + 1 ∧ events st' = events st ∧ rest st = v :: rest st'.
Proof.
  unfold consume. destruct (rest st) as [|c l] eqn:E; [done|].
  destruct (N.eqb_spec c v) as [->|]; [|done]. intros [= <-].
  destruct (advance_moved st v l E) as (? & ? & ->). by rewrite advance_events.
Qed.

(** The lexical functions emit nothing. *)
Definition silent {A} (st : state) (_ : A) (st' : state) : Prop := events st' = events st.

Lemma hex_digits_post n v st : (n <= length (rest st))%nat →
  post st (hex_digits n v st) (silent st).
Proof.
  revert v st. induction n as [|n IH]; intros v st Hn; cbn [hex_digits].
  { split; [apply moved_refl|done]. }
  destruct (rest st) as [|c l] eqn:E; [cbn in Hn; lia|].
  destruct (advance_moved st c l E) as (M & Hp & Hr). destruct (hex_value c).
  - eapply post_from; [exact M|apply IH; rewrite Hr; cbn in Hn; lia|].
    intros a st'' _. unfold silent. by rewrite advance_events.
  - split; [done|]. unfold left_in. rewrite E. cbn [length]. lia.
Qed.

Lemma parse_hex4_post st : post st (parse_hex4 st) (silent st).
Proof.
  unfold parse_hex4. destruct (Nat.ltb_spec (length (rest st)) 4); [by apply post_fail|].
  by apply hex_digits_post.
Qed.

Lemma parse_unicode_post st : post st (parse_unicode st) (silent st).
Proof.
  unfold parse_unicode. eapply post_bind; [apply parse_hex4_post|]. intros first st1 M1 S1.
  assert (Hs : ∀ {A} st2 (o : outcome A), post st2 o (silent st1) → post st2 o (silent st)).
  { intros A st2 o Hp. eapply post_weaken; [exact Hp|]. unfold silent in *. congruence. }
  destruct (_ && _).
  - assert (Hfail : ∀ A, post st1 (@fail A invalid_unicode st1) (silent st)) by (intros; by apply post_fail).
    destruct (rest st1) as [|a [|b l]] eqn:E; [by apply (Hfail N)| |].
    { by repeat (case_match; try apply (Hfail N)). }
    destruct (decide (a = 92)) as [->|]; [|by repeat (case_match; try apply (Hfail N); try congruence)].
    destruct (decide (b = 117)) as [->|]; [|by repeat (case_match; try apply (Hfail N); try congruence)].
    destruct (advance_moved st1 _ _ E) as (M2 & _ & R2). destruct (advance_moved _ _ _ R2) as (M3 & _ & _).
    eapply post_from; [exact (state_moved_trans _ _ _ M2 M3)| |intros ? ? _ HQ; exact HQ].
    eapply post_bind; [apply parse_hex4_post|]. intros second st4 M4 S4.
    destruct (_ || _); [by apply post_fail|]. split; [apply moved_refl|].
    unfold silent in *. rewrite S4, !advance_events. done.
  - destruct (_ && _); [by apply post_fail|]. split; [apply moved_refl|done].
Qed.

Lemma string_loop_post fuel out st : (length (rest st) < fuel)%nat →
  post st (string_loop fuel out st) (silent st).
Proof.
  revert out st. induction fuel as [|fuel IH]; intros out st Hf; [lia|]. cbn [string_loop].
  destruct (rest st) as [|v l] eqn:E; [by apply post_fail|].
  destruct (advance_moved st v l E) as (M & Hp & Hr).
  assert (Hlen : left_in st = 1 + N.of_nat (length l)) by (unfold left_in; rewrite E; cbn [length]; lia).
  cbn [length] in Hf.
  assert (Hnext : ∀ out' st', moved st st' → events st' = events st → (length (rest st') <= length l)%nat →
    post st (string_loop fuel out' st') (silent st)).
  { intros out' st' M' S' Hl. eapply post_from; [exact M'|apply IH; lia|]. unfold silent. congruence. }
  destruct (v =? 34); [split; [done|unfold silent; by rewrite advance_events]|].
  destruct (v <? 0x20); [split; [done|lia]|].
  destruct (negb (v =? 92)); [apply Hnext; [done|apply advance_events|by rewrite Hr]|].
  rewrite Hr. destruct l as [|e l].
  { eapply post_from; [exact M|by apply post_fail|by intros]. }
  destruct (advance_moved _ _ _ Hr) as (M2 & Hp2 & Hr2). cbn [length] in *.
  assert (M3 := state_moved_trans _ _ _ M M2).
  assert (S3 : events (advance (advance st)) = events st) by by rewrite !advance_events.
  destruct (simple_escape e); [apply Hnext; [done|done|rewrite Hr2; cbn [length]; lia]|].
  destruct (e =? 117); [|split; [done|lia]].
  eapply post_from; [exact M3| |intros ? ? _ HQ; exact HQ].
  eapply post_bind; [apply parse_unicode_post|]. intros cp st4 M4 S4. unfold silent in S4.
  destruct M4 as [M4 ?]. eapply post_weaken; [apply IH|].
  - unfold left_in in *. rewrite Hr2 in *. lia.
  - unfold silent. congruence.
Qed.

Lemma parse_string_post st : post st (parse_string st) (λ _ st', silent st () st' ∧ left_in st' < left_in st).
Proof.
  unfold parse_string. destruct (consume 34 st) as [st1|] eqn:E; [|by apply post_fail].
  apply consume_Some in E as (M & Hp & He & Hr). eapply post_from; [exact M|by apply string_loop_post; lia|].
  intros a st2 [M2 ?] S. unfold silent in *. split; [congruence|].
  unfold left_in in *. rewrite Hr. cbn [length]. lia.
Qed.

Lemma consume_silent v st st' : consume v st = Some st' → moved st st' ∧ silent st () st'.
Proof. intros (? & _ & ? & _)%consume_Some. done. Qed.

(** The digits after a point or an exponent. *)
Lemma digits_post {A} st (b : A) : post st
  (if at_digit st then Done b (skip_digits st) else fail invalid_number st) (silent st).
Proof.
  destruct (at_digit st); [|by apply post_fail].
  split; [apply skip_digits_moved|apply skip_digits_events].
Qed.

Lemma post_silent {A} st st1 (o : outcome A) :
  moved st st1 → silent st () st1 → post st1 o (silent st1) → post st o (silent st).
Proof.
  intros M S H. eapply post_from; [exact M|exact H|]. unfold silent in *. intros. congruence.
Qed.

(** Silent, and something was read. *)
Definition consumes {A} (st : state) (_ : A) (st' : state) : Prop :=
  silent st () st' ∧ left_in st' < left_in st.

Lemma digits_consume {A} st (b : A) : post st
  (if at_digit st then Done b (skip_digits st) else fail invalid_number st) (consumes st).
Proof.
  destruct (at_digit st) eqn:E; [|by apply post_fail].
  split; [apply skip_digits_moved|]. split; [apply skip_digits_events|].
  unfold at_digit, skip_digits, left_in in *. destruct (rest st) as [|c l] eqn:Er; [done|].
  cbn [skip_while]. rewrite E. pose proof (skip_while_spec is_digit (position st + 1) l) as H.
  destruct (skip_while _ _ _). cbn [rest length]. lia.
Qed.

Lemma scan_fraction_post st : post st
  (match consume 46 st with
   | Some st => if at_digit st then Done false (skip_digits st) else fail invalid_number st
   | None => Done true st
   end) (silent st).
Proof.
  destruct (consume 46 st) as [st1|] eqn:E; [|split; [apply moved_refl|done]].
  apply consume_silent in E as [M S]. apply (post_silent st st1); [done..|apply digits_post].
Qed.

Lemma scan_exponent_post st (integral : bool) : post st
  (match rest st with
   | c :: _ =>
       if (c =? 101) || (c =? 69) then
         let st := advance st in
         let st := match consume 43 st with
                   | Some st => st
                   | None => match consume 45 st with Some st => st | None => st end
                   end in
         if at_digit st then Done false (skip_digits st) else fail invalid_number st
       else Done integral st
   | [] => Done integral st
   end) (silent st).
Proof.
  destruct (rest st) as [|c l] eqn:E; [split; [apply moved_refl|done]|].
  destruct (_ || _); [|split; [apply moved_refl|done]].
  destruct (advance_moved st c l E) as (M5 & _ & _).
  apply (post_silent st (advance st)); [done|apply advance_events|]. cbn zeta.
  destruct (consume 43 (advance st)) as [st6|] eqn:E6.
  { apply consume_silent in E6 as [? ?]. apply (post_silent _ st6); [done..|apply digits_post]. }
  destruct (consume 45 (advance st)) as [st6|] eqn:E7; [|apply digits_post].
  apply consume_silent in E7 as [? ?]. apply (post_silent _ st6); [done..|apply digits_post].
Qed.

Lemma scan_number_post st : post st (scan_number st) (consumes st).
Proof.
  unfold scan_number.
  assert (Hsign : ∃ signed st0, (match consume 45 st with Some st' => (true, st') | None => (false, st) end)
    = (signed, st0) ∧ moved st st0 ∧ silent st () st0).
  { destruct (consume 45 st) as [st0|] eqn:E; [apply consume_silent in E as []; eauto|].
    exists false, st. split_and!; [done|apply moved_refl|done]. }
  destruct Hsign as (signed & st0 & -> & M0 & S0).
  eapply (post_from st st0 _ (consumes st0)); [exact M0| |].
  2: { intros a st1 M1 [S1 ?]. destruct M0. unfold consumes, silent in *. split; [congruence|lia]. }
  destruct (_ && _); [by apply post_fail|].
  eapply (post_bind _ _ _ (consumes st0)).
  { destruct (consume 48 st0) as [st1|] eqn:E; [|apply digits_consume].
    apply consume_Some in E as (M & _ & S & Hr). eapply (post_from st0 st1 _ (silent st1)); [exact M| |].
    - destruct (at_digit st1); [by apply post_fail|]. split; [apply moved_refl|done].
    - intros a st2 [M2 ?] S2. unfold consumes, silent in *. split; [congruence|].
      unfold left_in in *. rewrite Hr. cbn [length]. lia. }
  intros _ st2 M2 [S2 L2]. eapply (post_weaken _ _ (silent st2)).
  2: { intros a st3 [M3 ?] S3. unfold consumes, silent in *. split; [congruence|lia]. }
  eapply (post_bind _ _ _ (silent st2)); [apply scan_fraction_post|]. intros integral st4 M4 S4.
  eapply post_weaken; [apply scan_exponent_post|]. unfold silent in *. intros. congruence.
Qed.

(** ** The event grammar *)

Inductive scalar : event → Prop :=
| scalar_string v : scalar (string_event v)
| scalar_integer v : (- 2 ^ 63 <= v < 2 ^ 63)%Z → scalar (integer v)
| scalar_number v : scalar (number v)
| scalar_boolean v : scalar (boolean v)
| scalar_null : scalar null.

(** The events of one value at a nesting depth, of the members of an object, and of the
    elements of an array. *)
Inductive value_events : N → list event → Prop :=
| events_scalar d o e : scalar e → value_events d [location o; e]
| events_object d o o' ms : d < max_json_depth → members_events d ms →
    value_events d (location o :: object_begin :: ms ++ [location o'; object_end])
| events_array d o o' es : d < max_json_depth → elements_events d es →
    value_events d (location o :: array_begin :: es ++ [location o'; array_end])
with members_events : N → list event → Prop :=
| members_nil d : members_events d []
| members_cons d o k v ms : value_events (d + 1) v → members_events d ms →
    members_events d (location o :: key k :: v ++ ms)
with elements_events : N → list event → Prop :=
| elements_nil d : elements_events d []
| elements_cons d v es : value_events (d + 1) v → elements_events d es →
    elements_events d (v ++ es).

(** The function emitted events of the shape [E], and read something. *)
Definition emitted (E : list event → Prop) (st : state) (_ : unit) (st' : state) : Prop :=
  left_in st' < left_in st ∧ ∃ evs, events st' = rev evs ++ events st ∧ E evs.

(** The state [st1] is past [st0], which [evs] leads to. *)
Definition after (st0 : state) (evs : list event) (st1 : state) : Prop :=
  left_in st1 <= left_in st0 ∧ events st1 = rev evs ++ events st0.

Lemma post_moved {A} st st1 (o : outcome A) (Q : A → state → Prop) :
  moved st st1 → post st1 o Q → post st o Q.
Proof. intros M H. by eapply post_from. Qed.

Lemma emitted_after (E F : list event → Prop) st0 st1 evs1 (o : outcome unit) :
  after st0 evs1 st1 → (∀ evs, E evs → F (evs1 ++ evs)) →
  post st1 o (emitted E st1) → post st1 o (emitted F st0).
Proof.
  intros [Hl He] HF H. eapply post_weaken; [exact H|].
  intros u st2 M2 (Hl2 & evs & He2 & HE). split; [lia|].
  exists (evs1 ++ evs). split; [|by apply HF]. by rewrite He2, He, rev_app_distr, app_assoc.
Qed.

Lemma after_emitted (E : list event → Prop) st0 st1 evs1 st2 u :
  after st0 evs1 st1 → emitted E st1 u st2 → ∃ evs, E evs ∧ after st0 (evs1 ++ evs) st2.
Proof.
  intros [Hl He] (Hl2 & evs & He2 & HE). exists evs. split; [done|]. split; [lia|].
  by rewrite He2, He, rev_app_distr, app_assoc.
Qed.

Lemma after_refl st : after st [] st.
Proof. split; [lia|done]. Qed.

Lemma after_silent st0 evs st1 st2 : after st0 evs st1 → moved st1 st2 → silent st1 () st2 →
  after st0 evs st2.
Proof. intros [? He] [? ?] S. unfold silent in S. split; [lia|congruence]. Qed.

Lemma after_skip st0 evs st1 : after st0 evs st1 → after st0 evs (skip_space st1).
Proof. intros H. eapply after_silent; [exact H|apply skip_space_moved|apply skip_space_events]. Qed.

Lemma after_emit st0 evs st1 e : after st0 evs st1 → after st0 (evs ++ [e]) (emit e st1).
Proof. intros [? He]. split; [done|]. cbn. by rewrite He, rev_app_distr. Qed.

Lemma parse_literal_emitted l e st : (0 < length l)%nat →
  post st (parse_literal l e st) (emitted (λ evs, evs = [e]) st).
Proof.
  intros Hpos. unfold parse_literal. case_bool_decide as Ht; cbn [negb]; [|by apply post_fail].
  assert (Hlen : (length l <= length (rest st))%nat).
  { rewrite <-Ht at 1. rewrite length_take. lia. }
  split; unfold moved, emitted, left_in; cbn; rewrite length_drop; [lia|].
  split; [lia|]. by exists [e].
Qed.

Lemma parse_number_emitted st :
  post st (parse_number st) (emitted (λ evs, ∃ e, scalar e ∧ evs = [e]) st).
Proof.
  unfold parse_number. pose proof (scan_number_post st) as Hscan.
  destruct (scan_number st) as [integral st1|c1 o1 st1|]; [|exact Hscan|done].
  destruct Hscan as [M [S Hl]]. unfold silent in S. pose proof M as [? ?].
  assert (Hemit : ∀ e, scalar e → post st (Done tt (emit e st1)) (emitted (λ evs, ∃ e, scalar e ∧ evs = [e]) st)).
  { intros e He. split; [exact M|]. split; [exact Hl|]. exists [e]. cbn. rewrite S. split; [done|by exists e]. }
  destruct integral.
  - destruct (from_chars_int64 _) as [v|] eqn:E; [|split; [done|lia]].
    apply Hemit. constructor. unfold from_chars_int64 in E.
    destruct (_ && _) eqn:Hb in E; [|done]. injection E as <-.
    by apply andb_true_iff in Hb as [?%Z.leb_le ?%Z.ltb_lt].
  - destruct (from_chars_double _) as [v|] eqn:E; [|split; [done|lia]]. apply Hemit. constructor.
Qed.

(** What the three functions emit, once their fuel is twice the text and a little more. *)
Definition value_spec (fuel : nat) : Prop := ∀ d st, (2 * length (rest st) + 1 <= fuel)%nat →
  post st (parse_value fuel d st) (emitted (value_events d) st).
Definition members_spec (fuel : nat) : Prop := ∀ d st, (2 * length (rest st) + 2 <= fuel)%nat →
  post st (object_members fuel d st)
    (emitted (λ evs, ∃ ms o, members_events d ms ∧ evs = ms ++ [location o; object_end]) st).
Definition elements_spec (fuel : nat) : Prop := ∀ d st, (2 * length (rest st) + 2 <= fuel)%nat →
  post st (array_elements fuel d st)
    (emitted (λ evs, ∃ es o, elements_events d es ∧ evs = es ++ [location o; array_end]) st).

Lemma close_post e st0 st evs0 : after st0 evs0 st → left_in st < left_in st0 →
  post st (close e st) (emitted (λ evs, ∃ o, evs = evs0 ++ [location o; e]) st0).
Proof.
  intros [_ He] Hl. split; [exact (moved_emit _ _)|]. split; [exact Hl|].
  exists (evs0 ++ [location (position st - 1); e]). split; [|by eexists].
  cbn. rewrite He, rev_app_distr. done.
Qed.

Lemma consume_after v st0 evs st st' : consume v st = Some st' → after st0 evs st →
  moved st st' ∧ after st0 evs st' ∧ left_in st' < left_in st0 ∧
  (length (rest st') < length (rest st))%nat.
Proof.
  intros (M & _ & S & Hr)%consume_Some Ha. pose proof (after_silent _ _ _ _ Ha M S).
  destruct Ha as [Hl _]. unfold left_in in *. rewrite Hr in *. cbn [length] in *. split_and!; try done; lia.
Qed.

Lemma fuel_left st st' : left_in st' <= left_in st → (length (rest st') <= length (rest st))%nat.
Proof. unfold left_in. lia. Qed.

Lemma elements_step fuel : value_spec fuel → elements_spec fuel → elements_spec (S fuel).
Proof.
  intros HV HE d st Hf. cbn [array_elements]. eapply post_bind; [apply HV; lia|].
  intros u st1 M1 HE1. destruct (after_emitted _ st st [] st1 u (after_refl st) HE1) as (evs & V1 & A1).
  destruct HE1 as [L1 _]. apply after_skip in A1. eapply post_moved; [apply skip_space_moved|].
  set (st2 := skip_space st1) in *. cbn [app] in A1.
  assert (F2 : (length (rest st2) <= length (rest st1))%nat).
  { apply fuel_left. unfold st2. pose proof (skip_space_moved st1) as []. lia. }
  destruct (consume 93 st2) as [st3|] eqn:E3.
  { destruct (consume_after _ _ _ _ _ E3 A1) as (M3 & A3 & L3 & _). eapply post_moved; [exact M3|].
    eapply post_weaken; [by apply close_post|]. intros u4 st4 M4 (L4 & evs4 & He4 & o & ->).
    split; [exact L4|]. eexists. split; [exact He4|]. exists evs, o. split; [|done].
    rewrite <-(app_nil_r evs). constructor; [done|constructor]. }
  destruct (consume 44 st2) as [st3|] eqn:E4; [|by apply post_fail].
  destruct (consume_after _ _ _ _ _ E4 A1) as (M3 & A3 & L3 & F3). eapply post_moved; [exact M3|].
  eapply emitted_after; [exact A3| |apply HE; unfold left_in in *; lia].
  intros evs2 (es & o & Hes & ->). exists (evs ++ es), o. split; [by constructor|by rewrite app_assoc].
Qed.

Lemma members_step fuel : value_spec fuel → members_spec fuel → members_spec (S fuel).
Proof.
  intros HV HE d st Hf. cbn [object_members].
  eapply post_moved; [apply skip_space_moved|]. pose proof (after_skip _ _ _ (after_refl st)) as A1.
  set (st1 := skip_space st) in *. destruct (rest st1) as [|c l] eqn:Er; [by apply post_fail|].
  eapply post_moved; [exact (moved_emit st1 (location (position st1)))|].
  apply (after_emit _ _ _ (location (position st1))) in A1. cbn [app] in A1.
  set (st2 := emit _ st1) in *. eapply post_bind; [apply parse_string_post|].
  intros k st3 M3 [S3 L3]. pose proof (after_silent _ _ _ _ A1 M3 S3) as A3.
  apply (after_emit _ _ _ (key k)), after_skip in A3.
  eapply post_moved; [exact (moved_emit st3 (key k))|]. eapply post_moved; [apply skip_space_moved|].
  pose proof (skip_space_moved (emit (key k) st3)) as M4. set (st4 := skip_space (emit (key k) st3)) in *.
  assert (L4 : left_in st4 < left_in st).
  { destruct A1 as [A1 _], M4 as [M4 ?]. change (left_in (emit (key k) st3)) with (left_in st3) in M4.
    change (position (emit (key k) st3)) with (position st3) in *. lia. }
  destruct (consume 58 st4) as [st5|] eqn:E5; [|by apply post_fail].
  destruct (consume_after _ _ _ _ _ E5 A3) as (M5 & A5 & L5 & F5). eapply post_moved; [exact M5|].
  eapply post_bind; [apply HV; unfold left_in in *; lia|].
  intros u st6 M6 HE6. destruct (after_emitted _ _ _ _ _ _ A5 HE6) as (evs & V6 & A6).
  destruct HE6 as [L6 _]. apply after_skip in A6. eapply post_moved; [apply skip_space_moved|].
  pose proof (skip_space_moved st6) as M7. set (st7 := skip_space st6) in *.
  assert (L7 : left_in st7 < left_in st) by (destruct M7; lia).
  destruct (consume 125 st7) as [st8|] eqn:E8.
  { destruct (consume_after _ _ _ _ _ E8 A6) as (M8 & A8 & L8 & _). eapply post_moved; [exact M8|].
    eapply post_weaken; [by apply close_post|]. intros u9 st9 M9 (L9 & evs9 & He9 & o & ->).
    split; [exact L9|]. eexists. split; [exact He9|]. eexists _, o. split; [|done].
    cbn. rewrite <-(app_nil_r evs). constructor; [done|constructor]. }
  destruct (consume 44 st7) as [st8|] eqn:E9; [|by apply post_fail].
  destruct (consume_after _ _ _ _ _ E9 A6) as (M8 & A8 & L8 & F8). eapply post_moved; [exact M8|].
  eapply emitted_after; [exact A8| |apply HE; unfold left_in in *; lia].
  intros evs2 (ms & o & Hms & ->). exists (location (position st1) :: key k :: evs ++ ms), o.
  split; [by constructor|]. cbn. by rewrite app_assoc.
Qed.

Lemma scalar_outcome st0 st1 o d (r : outcome unit) :
  after st0 [location o] st1 → post st1 r (emitted (λ evs, ∃ e, scalar e ∧ evs = [e]) st1) →
  post st1 r (emitted (value_events d) st0).
Proof.
  intros A H. eapply emitted_after; [exact A| |exact H].
  intros evs (e & He & ->). by constructor.
Qed.

Lemma value_step fuel : members_spec fuel → elements_spec fuel → value_spec (S fuel).
Proof.
  intros HM HE d st Hf. cbn [parse_value].
  eapply post_moved; [apply skip_space_moved|]. pose proof (after_skip _ _ _ (after_refl st)) as A1.
  set (st1 := skip_space st) in *. destruct (rest st1) as [|c l] eqn:Er; [by apply post_fail|].
  eapply post_moved; [exact (moved_emit st1 (location (position st1)))|].
  apply (after_emit _ _ _ (location (position st1))) in A1. cbn [app] in A1.
  set (o := position st1) in *. set (st2 := emit _ st1) in *.
  assert (Hadv : ∀ e, let st3 := skip_space (emit e (advance st2)) in
    moved st2 st3 ∧ after st [location o; e] st3 ∧ left_in st3 < left_in st).
  { intros e st3. destruct (advance_moved st2 c l Er) as (M & _ & Hr).
    pose proof (skip_space_moved (emit e (advance st2))) as Ms.
    assert (A2 : after st [location o] (advance st2)) by (eapply after_silent; [exact A1|exact M|apply advance_events]).
    split_and!.
    - eapply state_moved_trans; [exact M|]. eapply state_moved_trans; [exact (moved_emit _ e)|exact Ms].
    - apply (after_emit _ _ _ e) in A2. by apply after_skip in A2.
    - destruct A1 as [L1 _], Ms as [Ms ?]. unfold st3. assert (Hl : left_in (emit e (advance st2)) < left_in st2).
      { unfold left_in. change (rest (emit e (advance st2))) with (rest (advance st2)). rewrite Hr.
        change (rest st2) with (rest st1). rewrite Er. cbn [length]. lia. }
      lia. }
  destruct (c =? 123).
  { destruct (N.leb_spec max_json_depth d); [by apply post_fail|].
    destruct (Hadv object_begin) as (M3 & A3 & L3).
    set (st3 := skip_space (emit object_begin _)) in *.
    eapply post_moved; [exact M3|]. destruct (consume 125 st3) as [st4|] eqn:E4.
    - destruct (consume_after _ _ _ _ _ E4 A3) as (M4 & A4 & L4 & _). eapply post_moved; [exact M4|].
      eapply post_weaken; [by apply close_post|]. intros u st5 M5 (L5 & evs & He & o' & ->).
      split; [exact L5|]. eexists. split; [exact He|]. apply (events_object d o o' []); [done|constructor].
    - eapply emitted_after; [exact A3| |apply HM; unfold left_in in *; lia].
      intros evs (ms & o' & Hms & ->). by apply (events_object d o o' ms). }
  destruct (c =? 91).
  { destruct (N.leb_spec max_json_depth d); [by apply post_fail|].
    destruct (Hadv array_begin) as (M3 & A3 & L3).
    set (st3 := skip_space (emit array_begin _)) in *.
    eapply post_moved; [exact M3|]. destruct (consume 93 st3) as [st4|] eqn:E4.
    - destruct (consume_after _ _ _ _ _ E4 A3) as (M4 & A4 & L4 & _). eapply post_moved; [exact M4|].
      eapply post_weaken; [by apply close_post|]. intros u st5 M5 (L5 & evs & He & o' & ->).
      split; [exact L5|]. eexists. split; [exact He|]. apply (events_array d o o' []); [done|constructor].
    - eapply emitted_after; [exact A3| |apply HE; unfold left_in in *; lia].
      intros evs (es & o' & Hes & ->). by apply (events_array d o o' es). }
  apply (scalar_outcome st st2 o); [exact A1|].
  assert (Hlit : ∀ w e, (0 < length w)%nat → scalar e →
    post st2 (parse_literal w e st2) (emitted (λ evs, ∃ e, scalar e ∧ evs = [e]) st2)).
  { intros w e Hw He. eapply (emitted_after _ _ st2 st2 []); [apply after_refl| |by apply parse_literal_emitted].
    intros evs ->. by exists e. }
  destruct (c =? 34).
  { eapply post_bind; [apply parse_string_post|]. intros v st3 M3 [S3 L3].
    split; [exact (moved_emit _ _)|]. split; [exact L3|]. exists [string_event v].
    split; [cbn; unfold silent in S3; by rewrite S3|]. eexists. split; [constructor|done]. }
  destruct (c =? 116); [apply Hlit; [cbn; lia|constructor]|].
  destruct (c =? 102); [apply Hlit; [cbn; lia|constructor]|].
  destruct (c =? 110); [apply Hlit; [cbn; lia|constructor]|].
  destruct (_ || _); [apply parse_number_emitted|by apply post_fail].
Qed.

Lemma all_specs fuel : value_spec fuel ∧ members_spec fuel ∧ elements_spec fuel.
Proof.
  induction fuel as [|fuel (HV & HM & HE)]; [split_and!; intros d st Hf; lia|].
  split_and!; [by apply value_step|by apply members_step|by apply elements_step].
Qed.

(** C31: parsing every text returns.  Without an error the handler received
    exactly the events of one JSON value: brackets matched, keys only in objects and each
    followed by one value, integers in the int64 range, nesting at most 64.  An error has an
    offset within the text. *)
Theorem parse_json_sound text :
  ∃ code offset evs, parse_json text = Some (code, offset, evs) ∧
    (code = none → offset = 0 ∧ value_events 0 evs) ∧
    (code ≠ none → offset <= N.of_nat (length text)).
Proof.
  unfold parse_json. set (st := skip_space (State 0 text [])).
  pose proof (skip_space_moved (State 0 text [])) as M0. fold st in M0.
  destruct (all_specs (value_fuel text)) as (HV & _ & _).
  assert (Hlen : (length (rest st) <= length text)%nat) by (destruct M0; unfold left_in in *; cbn in *; lia).
  assert (He : events st = []) by (unfold st; by rewrite skip_space_events).
  specialize (HV 0 st ltac:(unfold value_fuel; lia)). destruct M0 as [M0 _]. unfold left_in in M0. cbn in M0.
  destruct (parse_value _ _ _) as [u st1|code offset st1|]; [| |done].
  - destruct HV as [M1 (L1 & evs & E1 & V1)]. rewrite He, app_nil_r in E1.
    pose proof (skip_space_moved st1) as M2. set (st2 := skip_space st1) in *.
    assert (E2 : rev (events st2) = evs) by (unfold st2; rewrite skip_space_events, E1; apply rev_involutive).
    destruct (rest st2) as [|c l] eqn:Er; rewrite E2; do 3 eexists; (split; [done|]); split; try done.
    intros _. destruct M1, M2. unfold left_in in *. lia.
  - destruct HV as [Hc Ho]. do 3 eexists. split; [done|]. split; [done|]. intros _. unfold left_in in Ho. lia.
Qed.

(** ** Printing and parsing back *)

Inductive json : Type :=
| JString (value : list N)
| JInteger (value : Z)
| JBoolean (value : bool)
| JNull
| JObject (ms : members)
| JArray (es : elements)
with members : Type := MNil | MCons (k : list N) (v : json) (ms : members)
with elements : Type := ENil | ECons (v : json) (es : elements).

Scheme json_ind' := Induction for json Sort Prop
with members_ind' := Induction for members Sort Prop
with elements_ind' := Induction for elements Sort Prop.
Combined Scheme json_mutind from json_ind', members_ind', elements_ind'.

Definition hex_char (digit : N) : N := if digit <? 10 then 48 + digit else 87 + digit.

Definition print_char (c : N) : list N :=
  if c =? 34 then [92; 34] else if c =? 92 then [92; 92]
  else if c <? 32 then [92; 117; 48; 48; hex_char (c / 16); hex_char (c mod 16)]
  else [c].

Definition print_string (value : list N) : list N := 34 :: concat (print_char <$> value) ++ [34].

Fixpoint print_digits (fuel : nat) (n : N) (output : list N) : list N :=
  match fuel with
  | O => output
  | S fuel' => if n <? 10 then (48 + n) :: output
               else print_digits fuel' (n / 10) ((48 + n mod 10) :: output)
  end.

Definition print_natural (n : N) : list N := print_digits (S (N.to_nat (N.log2 n))) n [].

Definition print_integer (z : Z) : list N :=
  match z with
  | Zneg p => 45 :: print_natural (Npos p)
  | _ => print_natural (Z.to_N z)
  end.

Fixpoint print (v : json) : list N :=
  match v with
  | JString value => print_string value
  | JInteger value => print_integer value
  | JBoolean value => if value then true_literal else false_literal
  | JNull => null_literal
  | JObject MNil => [123; 125]
  | JObject (MCons k v ms) => 123 :: print_string k ++ 58 :: print v ++ print_members ms
  | JArray ENil => [91; 93]
  | JArray (ECons v es) => 91 :: print v ++ print_elements es
  end
with print_members (ms : members) : list N :=
  match ms with
  | MNil => [125]
  | MCons k v ms => 44 :: print_string k ++ 58 :: print v ++ print_members ms
  end
with print_elements (es : elements) : list N :=
  match es with
  | ENil => [93]
  | ECons v es => 44 :: print v ++ print_elements es
  end.

(** The events of a value, without the locations. *)
Fixpoint events_of (v : json) : list event :=
  match v with
  | JString value => [string_event value]
  | JInteger value => [integer value]
  | JBoolean value => [boolean value]
  | JNull => [null]
  | JObject ms => object_begin :: events_of_members ms ++ [object_end]
  | JArray es => array_begin :: events_of_elements es ++ [array_end]
  end
with events_of_members (ms : members) : list event :=
  match ms with
  | MNil => []
  | MCons k v ms => key k :: events_of v ++ events_of_members ms
  end
with events_of_elements (es : elements) : list event :=
  match es with
  | ENil => []
  | ECons v es => events_of v ++ events_of_elements es
  end.

(** Integers of the code's width, nesting within the limit. *)
Fixpoint printable (d : N) (v : json) : Prop :=
  match v with
  | JInteger value => (- 2 ^ 63 <= value < 2 ^ 63)%Z
  | JObject ms => d < max_json_depth ∧ printable_members (d + 1) ms
  | JArray es => d < max_json_depth ∧ printable_elements (d + 1) es
  | _ => True
  end
with printable_members (d : N) (ms : members) : Prop :=
  match ms with MNil => True | MCons _ v ms => printable d v ∧ printable_members d ms end
with printable_elements (d : N) (es : elements) : Prop :=
  match es with ENil => True | ECons v es => printable d v ∧ printable_elements d es end.

Definition is_location (e : event) : bool := match e with location _ => true | _ => false end.
Definition erase (evs : list event) : list event := filter (λ e, is_location e = false) evs.

Lemma erase_app a b : erase (a ++ b) = erase a ++ erase b.
Proof. apply list.filter_app. Qed.

(** The text parsed, what is left, and the events since. *)
Definition parsed (st : state) (o : outcome unit) (r : list N) (evs : list event) : Prop :=
  ∃ st', o = Done tt st' ∧ rest st' = r ∧ erase (rev (events st')) = erase (rev (events st)) ++ evs.

Lemma skip_space_id st c l : rest st = c :: l → is_space c = false → skip_space st = st.
Proof.
  intros Hr Hc. unfold skip_space. rewrite Hr. cbn [skip_while]. rewrite Hc. destruct st. cbn in *. by subst.
Qed.

Lemma consume_hit v st l : rest st = v :: l →
  consume v st = Some (State (position st + 1) l (events st)).
Proof. intros Hr. unfold consume, advance. by rewrite Hr, N.eqb_refl. Qed.

Lemma consume_miss v st c l : rest st = c :: l → c ≠ v → consume v st = None.
Proof. intros Hr Hc. unfold consume. rewrite Hr. by rewrite (proj2 (N.eqb_neq c v)). Qed.

Lemma hex_char_value d : d < 16 → hex_value (hex_char d) = Some d.
Proof.
  intros Hd. unfold hex_char. destruct (N.ltb_spec d 10).
  - unfold hex_value. destruct (N.leb_spec 48 (48 + d)), (N.leb_spec (48 + d) 57); try lia.
    cbn [andb]. f_equal. lia.
  - unfold hex_value. destruct (N.leb_spec 48 (87 + d)), (N.leb_spec (87 + d) 57); try lia.
    destruct (N.leb_spec 97 (87 + d)), (N.leb_spec (87 + d) 102); try lia. cbn [andb]. f_equal. lia.
Qed.

(** One printed character is read back as the character. *)
Lemma string_loop_char fuel out p c l evs :
  ∃ p', string_loop (S fuel) out (State p (print_char c ++ l) evs) =
        string_loop fuel (c :: out) (State p' l evs).
Proof.
  unfold print_char. destruct (N.eqb_spec c 34) as [->|H34]; [by eexists|].
  destruct (N.eqb_spec c 92) as [->|H92]; [by eexists|]. destruct (N.ltb_spec c 32) as [H32|H32].
  - assert (Hin : c ∈ N.of_nat <$> seq 0 32).
    { apply list_elem_of_fmap. exists (N.to_nat c). split; [lia|]. apply elem_of_seq. lia. }
    cbn in Hin. repeat (apply elem_of_cons in Hin as [->|Hin]; [by eexists|]). by apply elem_of_nil in Hin.
  - eexists. cbn [app string_loop rest advance]. apply N.eqb_neq in H34 as ->. apply N.eqb_neq in H92 as ->.
    destruct (N.ltb_spec c 0x20); [lia|]. done.
Qed.

Lemma length_print_char c : (1 <= length (print_char c))%nat.
Proof. unfold print_char. repeat case_match; cbn; lia. Qed.

Lemma string_loop_printed value fuel out p r evs : (length value < fuel)%nat →
  ∃ p', string_loop fuel out (State p (concat (print_char <$> value) ++ 34 :: r) evs) =
        Done (rev out ++ value) (State p' r evs).
Proof.
  revert fuel out p. induction value as [|c value IH]; intros [|fuel] out p Hf; try (cbn in Hf; lia).
  { eexists. cbn. by rewrite app_nil_r. }
  rewrite fmap_cons. cbn [concat]. rewrite <-app_assoc.
  destruct (string_loop_char fuel out p c (concat (print_char <$> value) ++ 34 :: r) evs) as [p1 ->].
  destruct (IH fuel (c :: out) p1) as [p2 ->]; [cbn in Hf; lia|]. exists p2. cbn [rev]. by rewrite <-app_assoc.
Qed.

Lemma length_print_value value : (length value <= length (concat (print_char <$> value)))%nat.
Proof.
  induction value as [|c value IH]; [done|]. rewrite fmap_cons. cbn [concat length]. rewrite length_app.
  pose proof (length_print_char c). lia.
Qed.

Lemma parse_string_printed value st r : rest st = print_string value ++ r →
  ∃ p', parse_string st = Done value (State p' r (events st)).
Proof.
  intros Hr. unfold print_string in Hr. cbn [app] in Hr. rewrite <-app_assoc in Hr. cbn [app] in Hr.
  unfold parse_string. rewrite (consume_hit 34 st _ Hr). cbn [rest].
  destruct (string_loop_printed value (S (length (concat (print_char <$> value) ++ 34 :: r))) []
    (position st + 1) r (events st)) as [p' ->]; [|by eexists].
  pose proof (length_print_value value). rewrite length_app. cbn. lia.
Qed.

(** ** Numbers *)

Lemma digits_value_app a b : digits_value (a ++ b) = digits_value a * 10 ^ N.of_nat (length b) + digits_value b.
Proof.
  unfold digits_value. rewrite foldl_app.
  generalize (foldl (λ value c, value * 10 + (c - 48)) 0 a). intros v. revert v.
  assert (Hg : ∀ (l : list N) v, foldl (λ value c, value * 10 + (c - 48)) v l =
    v * 10 ^ N.of_nat (length l) + foldl (λ value c, value * 10 + (c - 48)) 0 l).
  { induction l as [|c l IH]; intros v; cbn [foldl length]; [rewrite N.pow_0_r; lia|].
    rewrite (IH (v * 10 + (c - 48))), (IH (0 * 10 + (c - 48))). rewrite Nat2N.inj_succ, N.pow_succ_r'. ring. }
  intros v. apply Hg.
Qed.

Lemma print_digits_spec fuel n out : n < 2 ^ N.of_nat fuel →
  ∃ ds, print_digits fuel n out = ds ++ out ∧ digits_value ds = n ∧ Forall (λ c, is_digit c = true) ds ∧
    (fuel = 0%nat ∨ ∃ c l, ds = c :: l ∧ (n = 0 ∧ c = 48 ∧ l = [] ∨ 0 < n ∧ c ≠ 48)).
Proof.
  assert (Hdig : ∀ d, d < 10 → is_digit (48 + d) = true).
  { intros d Hd. unfold is_digit. apply andb_true_iff. rewrite !N.leb_le. lia. }
  revert n out. induction fuel as [|fuel IH]; intros n out Hn; cbn [print_digits].
  { exists []. assert (n = 0) as -> by (cbn in Hn; lia). split_and!; auto. }
  destruct (N.ltb_spec n 10) as [Hlt|Hge].
  - exists [48 + n]. split_and!; [done| |by constructor; [apply Hdig|]|].
    + unfold digits_value. cbn [foldl]. lia.
    + right. exists (48 + n), []. split; [done|]. destruct (N.eq_dec n 0); [left|right]; split_and?; try done; lia.
  - pose proof (N.mod_lt n 10 ltac:(lia)) as Hm. pose proof (N.div_mod n 10 ltac:(lia)) as Hdm.
    destruct (IH (n / 10) ((48 + n mod 10) :: out)) as (ds & -> & Hv & Hd & Hf).
    { rewrite Nat2N.inj_succ, N.pow_succ_r' in Hn. set (q := n / 10) in *. set (m := n mod 10) in *.
      set (bound := 2 ^ N.of_nat fuel) in *. clearbody q m bound. lia. }
    exists (ds ++ [48 + n mod 10]). split_and!.
    + by rewrite <-app_assoc.
    + rewrite digits_value_app, Hv. cbn [length]. unfold digits_value. cbn [foldl].
      change (10 ^ N.of_nat 1) with 10. set (q := n / 10) in *. set (m := n mod 10) in *.
      clearbody q m. lia.
    + apply Forall_app. split; [done|]. by constructor; [apply Hdig|].
    + right. destruct Hf as [->|(c & l & -> & Hc)].
      * cbn in Hn. lia.
      * exists c, (l ++ [48 + n mod 10]). split; [done|]. right. split; [lia|].
        destruct Hc as [(Hz & _)|[_ Hc]]; [|done].
        set (q := n / 10) in *. set (m := n mod 10) in *. clearbody q m. lia.
Qed.

Lemma print_natural_spec n :
  ∃ c l, print_natural n = c :: l ∧ digits_value (c :: l) = n ∧ Forall (λ c, is_digit c = true) (c :: l) ∧
    (c = 48 → l = []).
Proof.
  unfold print_natural. destruct (print_digits_spec (S (N.to_nat (N.log2 n))) n []) as (ds & -> & Hv & Hd & Hf).
  { rewrite Nat2N.inj_succ, N2Nat.id. destruct (N.eq_dec n 0) as [->|]; [done|]. apply N.log2_spec. lia. }
  destruct Hf as [?|(c & l & -> & Hc)]; [done|]. exists c, l. rewrite app_nil_r. split_and!; try done.
  intros ->. destruct Hc as [(_ & _ & ?)|[_ ?]]; done.
Qed.

(** What may follow a number. *)
Definition stops (r : list N) : Prop :=
  match r with [] => True | c :: _ => is_digit c = false ∧ c ≠ 46 ∧ c ≠ 101 ∧ c ≠ 69 end.

Lemma skip_digits_over st ds r : rest st = ds ++ r → Forall (λ c, is_digit c = true) ds → stops r →
  ∃ p', skip_digits st = State p' r (events st).
Proof.
  unfold skip_digits. destruct st as [p l evs]. cbn [rest position events]. intros ->.
  revert p. induction ds as [|c ds IH]; intros p Hd Hs; cbn [app].
  - destruct r as [|c r]; cbn; [by eexists|]. destruct Hs as [-> _]. by eexists.
  - inversion Hd as [|? ? Hc Hds]; subst. cbn [skip_while]. rewrite Hc. by apply IH.
Qed.

Lemma scan_integer st sign c l r : rest st = sign ++ c :: l ++ r → sign = [] ∨ sign = [45] →
  Forall (λ c, is_digit c = true) (c :: l) → (c = 48 → l = []) → stops r →
  ∃ p', scan_number st = Done true (State p' r (events st)).
Proof.
  intros Hr Hsign Hd Hz Hs. inversion Hd as [|? ? Hc Hl]; subst. unfold scan_number.
  assert (Hc45 : c ≠ 45) by (intros ->; done).
  assert (Hst : ∃ b p0, (match consume 45 st with Some st' => (true, st') | None => (false, st) end) =
    (b, State p0 (c :: l ++ r) (events st))).
  { destruct Hsign as [-> | ->]; cbn [app] in Hr.
    - rewrite (consume_miss 45 st c (l ++ r)) by done. exists false, (position st). destruct st. cbn in *. by subst.
    - rewrite (consume_hit 45 st _ Hr). by eexists _, _. }
  destruct Hst as (b & p0 & ->). cbn [rest]. rewrite andb_false_r.
  assert (Hend : ∀ p1, ∃ p', (match consume 46 (State p1 r (events st)) with
      | Some st => if at_digit st then Done false (skip_digits st) else fail invalid_number st
      | None => Done true (State p1 r (events st)) end) = Done true (State p' r (events st)) ∧
      match r with c :: _ => (c =? 101) || (c =? 69) = false | [] => True end).
  { intros p1. exists p1. destruct r as [|x r]; [done|]. destruct Hs as (_ & H46 & H101 & H69).
    rewrite (consume_miss 46 _ x r) by done. split; [done|].
    by rewrite (proj2 (N.eqb_neq _ _) H101), (proj2 (N.eqb_neq _ _) H69). }
  assert (Hfin : ∀ p1, ∃ p', (let* (integral, st0) :=
       match consume 46 (State p1 r (events st)) with
       | Some st => if at_digit st then Done false (skip_digits st) else fail invalid_number st
       | None => Done true (State p1 r (events st)) end in
     match rest st0 with
     | c :: _ =>
        if (c =? 101) || (c =? 69) then
          let st := advance st0 in
          let st := match consume 43 st with
                    | Some st => st
                    | None => match consume 45 st with Some st => st | None => st end
                    end in
          if at_digit st then Done false (skip_digits st) else fail invalid_number st
        else Done integral st0
     | [] => Done integral st0
     end) = Done true (State p' r (events st))).
  { intros p1. destruct (Hend p1) as (p2 & -> & Hx). cbn [rest]. exists p2. destruct r; [done|]. by rewrite Hx. }
  destruct (decide (c = 48)) as [->|Hne].
  - rewrite (Hz eq_refl) in *. cbn [app].
    rewrite (consume_hit 48 _ r) by done. cbn [position events].
    assert (at_digit (State (p0 + 1) r (events st)) = false) as ->
      by (unfold at_digit; cbn; destruct r; [done|apply Hs]).
    apply Hfin.
  - rewrite (consume_miss 48 _ c (l ++ r)) by done.
    assert (at_digit (State p0 (c :: l ++ r) (events st)) = true) as -> by done.
    destruct (skip_digits_over (State p0 (c :: l ++ r) (events st)) (c :: l) r) as [p1 ->]; [done..|].
    cbn [events]. apply Hfin.
Qed.

Lemma erase_emit e st : is_location e = false →
  erase (rev (events (emit e st))) = erase (rev (events st)) ++ [e].
Proof. intros He. cbn. rewrite erase_app. f_equal. unfold erase. by rewrite list.filter_cons, decide_True. Qed.

Lemma erase_location o st : erase (rev (events (emit (location o) st))) = erase (rev (events st)).
Proof.
  cbn. rewrite erase_app. unfold erase at 2. rewrite list.filter_cons, decide_False by done. apply app_nil_r.
Qed.

Lemma parse_integer_printed z st r : rest st = print_integer z ++ r → (- 2 ^ 63 <= z < 2 ^ 63)%Z → stops r →
  parsed st (parse_number st) r [integer z].
Proof.
  intros Hr Hz Hs.
  assert (Hsplit : ∃ sign c l, print_integer z = sign ++ c :: l ∧ (sign = [] ∨ sign = [45]) ∧
    Forall (λ c, is_digit c = true) (c :: l) ∧ (c = 48 → l = []) ∧
    from_chars_int64 (sign ++ c :: l) = Some z).
  { assert (Hrange : ∀ v, v = z → (if (- 2 ^ 63 <=? v)%Z && (v <? 2 ^ 63)%Z then Some v else None) = Some z).
    { intros v ->. by rewrite (proj2 (Z.leb_le _ _)), (proj2 (Z.ltb_lt _ _)) by lia. }
    assert (Hpos : ∀ n, z = Z.of_N n → ∃ c l, print_natural n = c :: l ∧ Forall (λ c, is_digit c = true) (c :: l) ∧
      (c = 48 → l = []) ∧ from_chars_int64 (c :: l) = Some z).
    { intros n Hn. destruct (print_natural_spec n) as (c & l & -> & Hv & Hd & H48). exists c, l. split_and!; try done.
      unfold from_chars_int64. apply Hrange. inversion Hd as [|? ? Hc _]; subst.
      assert (Z.of_N (digits_value (c :: l)) = Z.of_N (digits_value (c :: l))) by done.
      destruct c as [|p]; [done|]. destruct (decide (N.pos p = 45)) as [Hp|Hp]; [by rewrite Hp in Hc|].
      repeat case_match; congruence. }
    destruct z as [|p|p].
    - destruct (Hpos 0 eq_refl) as (c & l & ? & ? & ? & ?). exists [], c, l. auto.
    - destruct (Hpos (N.pos p) eq_refl) as (c & l & ? & ? & ? & ?). exists [], c, l. auto.
    - destruct (print_natural_spec (N.pos p)) as (c & l & He & Hv & Hd & H48). exists [45], c, l.
      cbn [print_integer]. rewrite He. split_and!; try done; [by right|].
      change (from_chars_int64 ([45] ++ c :: l)) with
        (let value := (- Z.of_N (digits_value (c :: l)))%Z in
         if (- 2 ^ 63 <=? value)%Z && (value <? 2 ^ 63)%Z then Some value else None).
      rewrite Hv. by apply Hrange. }
  destruct Hsplit as (sign & c & l & Hp & Hsign & Hd & H48 & Hf). rewrite Hp in Hr.
  rewrite <-app_assoc in Hr. cbn [app] in Hr.
  destruct (scan_integer st sign c l r Hr Hsign Hd H48 Hs) as [p' Hscan].
  unfold parse_number. rewrite Hscan. cbn [rest].
  replace (take (length (rest st) - length r) (rest st)) with (sign ++ c :: l).
  - rewrite Hf. eexists. split; [done|]. split; [done|]. by rewrite erase_emit.
  - rewrite Hr. change (sign ++ c :: l ++ r) with (sign ++ (c :: l) ++ r). rewrite app_assoc.
    rewrite length_app, Nat.add_sub. by rewrite take_app_length.
Qed.

Lemma parse_literal_printed w e st r : rest st = w ++ r → is_location e = false →
  parsed st (parse_literal w e st) r [e].
Proof.
  intros Hr He. unfold parse_literal. rewrite Hr, take_app_length, bool_decide_eq_true_2 by done. cbn [negb].
  rewrite drop_app_length. eexists. split; [done|]. split; [done|].
  change (events (emit e _)) with (e :: events st). by rewrite <-(erase_emit e st).
Qed.

(** A state with the same events, up to locations, at the given text. *)
Definition at_text (st st' : state) (l : list N) (evs : list event) : Prop :=
  rest st' = l ∧ erase (rev (events st')) = erase (rev (events st)) ++ evs.

Definition value_printed (v : json) : Prop := ∀ fuel d st r,
  (2 * length (print v ++ r) + 1 <= fuel)%nat → printable d v → stops r → rest st = print v ++ r →
  parsed st (parse_value fuel d st) r (events_of v).
Definition members_printed (ms : members) : Prop := ∀ fuel d st r k v,
  (2 * length (print_string k ++ 58%N :: print v ++ print_members ms ++ r) + 2 <= fuel)%nat →
  printable (d + 1) v → printable_members (d + 1) ms →
  rest st = print_string k ++ 58 :: print v ++ print_members ms ++ r → value_printed v →
  parsed st (object_members fuel d st) r (key k :: events_of v ++ events_of_members ms ++ [object_end]).
Definition elements_printed (es : elements) : Prop := ∀ fuel d st r v,
  (2 * length (print v ++ print_elements es ++ r) + 2 <= fuel)%nat →
  printable (d + 1) v → printable_elements (d + 1) es →
  rest st = print v ++ print_elements es ++ r → value_printed v →
  parsed st (array_elements fuel d st) r (events_of v ++ events_of_elements es ++ [array_end]).

Lemma close_printed st0 st e evs : is_location e = false → at_text st0 st (rest st) evs →
  parsed st0 (close e st) (rest st) (evs ++ [e]).
Proof.
  intros He [_ Ha]. eexists. split; [done|]. split; [done|].
  rewrite erase_emit, erase_location, Ha by done. by rewrite app_assoc.
Qed.

Lemma stops_members ms r : stops (print_members ms ++ r).
Proof. by destruct ms. Qed.
Lemma stops_elements es r : stops (print_elements es ++ r).
Proof. by destruct es. Qed.

Lemma parsed_chain st st1 l evs1 (o : outcome unit) r evs2 :
  at_text st st1 l evs1 → parsed st1 o r evs2 → parsed st o r (evs1 ++ evs2).
Proof.
  intros [_ He] (st2 & -> & Hr & He2). exists st2. split_and!; [done..|]. by rewrite He2, He, app_assoc.
Qed.

Lemma parsed_bind st (o : outcome unit) l evs (k : state → outcome unit) r evs2 :
  parsed st o l evs → (∀ st', at_text st st' l evs → parsed st (k st') r evs2) →
  parsed st (let* (_, st') := o in k st') r evs2.
Proof. intros (st' & -> & Hr & He) Hk. by apply Hk. Qed.

Lemma at_text_here st p l evs : at_text st (State p l evs) l [] ↔ erase (rev evs) = erase (rev (events st)).
Proof. unfold at_text. cbn. rewrite app_nil_r. naive_solver. Qed.

Lemma print_string_head k l : ∃ l', print_string k ++ l = 34 :: l'.
Proof. by eexists. Qed.

Lemma print_head v l : ∃ c l', print v ++ l = c :: l' ∧ is_space c = false ∧ c ≠ 125 ∧ c ≠ 93 ∧
  (c = 123 ∨ c = 91 ∨ c = 34 ∨ c = 116 ∨ c = 102 ∨ c = 110 ∨ c = 45 ∨ is_digit c = true).
Proof.
  assert (Hnat : ∀ n, ∃ c l', print_natural n ++ l = c :: l' ∧ is_space c = false ∧ c ≠ 125 ∧ c ≠ 93 ∧
    (c = 123 ∨ c = 91 ∨ c = 34 ∨ c = 116 ∨ c = 102 ∨ c = 110 ∨ c = 45 ∨ is_digit c = true)).
  { intros n. destruct (print_natural_spec n) as (c & l' & -> & _ & Hd & _). exists c, (l' ++ l).
    inversion Hd as [|? ? Hc _]; subst. split; [done|].
    unfold is_digit in Hc. apply andb_true_iff in Hc as Hc'. rewrite !N.leb_le in Hc'.
    unfold is_space. split_and!; [|lia|lia|by repeat right].
    rewrite !(proj2 (N.eqb_neq c _)) by lia. done. }
  destruct v as [s|[|p|p]|[]| |[]|[]]; cbn [print print_integer]; try apply Hnat;
    do 2 eexists; (split; [reflexivity|]); split_and!; try done; naive_solver.
Qed.

Ltac lens := repeat (rewrite ?length_app in *; progress cbn [length] in *); rewrite ?length_app in *; lia.

(** One member: up to what follows its value. *)
Lemma member_printed fuel d st k v r1 (o : state → outcome unit) r evs :
  (2 * length (print_string k ++ 58%N :: print v ++ r1) + 1 <= fuel)%nat →
  printable (d + 1) v → stops r1 → rest st = print_string k ++ 58 :: print v ++ r1 → value_printed v →
  (∀ st', at_text st st' r1 (key k :: events_of v) → parsed st (o st') r evs) →
  parsed st
    (let st := emit (location (position st)) st in
     let* (key_value, st) := parse_string st in
     let st := skip_space (emit (key key_value) st) in
     match consume 58 st with
     | None => fail unexpected_token st
     | Some st => let* (_, st) := parse_value fuel (d + 1) st in o st
     end) r evs.
Proof.
  intros Hf Hv Hs Hr HV Ho. cbn zeta. set (st1 := emit _ st).
  destruct (parse_string_printed k st1 _ Hr) as [p' ->].
  set (st2 := emit (key k) _). rewrite (skip_space_id st2 58 (print v ++ r1)) by done.
  rewrite (consume_hit 58 st2 (print v ++ r1)) by done. set (st3 := State _ _ (events st2)).
  assert (A3 : at_text st st3 (rest st3) [key k]).
  { split; [done|]. change (events st3) with (events (emit (key k) st1)). rewrite erase_emit by done.
    unfold st1. by rewrite erase_location. }
  eapply (parsed_bind _ _ r1 ([key k] ++ events_of v)); [|exact Ho].
  eapply parsed_chain; [exact A3|]. apply HV; [lens|done|done|done].
Qed.

Lemma members_step_printed fuel d st r k v ms :
  (∀ k' v' ms', ms = MCons k' v' ms' → value_printed v' ∧ members_printed ms') →
  (2 * length (print_string k ++ 58%N :: print v ++ print_members ms ++ r) + 2 <= fuel)%nat →
  printable (d + 1) v → printable_members (d + 1) ms →
  rest st = print_string k ++ 58 :: print v ++ print_members ms ++ r → value_printed v →
  parsed st (object_members fuel d st) r (key k :: events_of v ++ events_of_members ms ++ [object_end]).
Proof.
  intros IH Hf Hv Hms Hr HV. destruct fuel as [|fuel]; [lia|]. cbn [object_members].
  destruct (print_string_head k (58 :: print v ++ print_members ms ++ r)) as [l' Hl'].
  rewrite (skip_space_id st 34 l') by (done || congruence). rewrite Hr at 1. rewrite Hl' at 1.
  apply (member_printed fuel d st k v (print_members ms ++ r)); [lia|done|apply stops_members|done|done|].
  intros st4 [R4 E4]. destruct ms as [|k' v' ms']; cbn [print_members app events_of_members] in *.
  - rewrite (skip_space_id st4 125 r) by done. rewrite (consume_hit 125 st4 r) by done.
    change (key k :: events_of v ++ [object_end]) with ((key k :: events_of v) ++ [object_end]).
    apply (close_printed st (State _ r _)); [done|]. by split.
  - rewrite <-!app_assoc in *. cbn [app] in *. rewrite <-!app_assoc in *.
    rewrite (skip_space_id st4 44 _ R4) by done. rewrite (consume_miss 125 st4 44 _ R4) by done.
    rewrite (consume_hit 44 st4 _ R4). destruct (IH k' v' ms' eq_refl) as [HV' HM'].
    set (st5 := State _ _ _). assert (A5 : at_text st st5 (rest st5) (key k :: events_of v)) by by split.
    change (key k :: events_of v ++ ?x) with ((key k :: events_of v) ++ x).
    eapply parsed_chain; [exact A5|]. cbn [printable_members] in Hms. destruct Hms.
    cbn [app]; rewrite <-?app_assoc.
    apply HM'; [lens|done|done|done|done].
Qed.

Lemma elements_step_printed fuel d st r v es :
  (∀ v' es', es = ECons v' es' → value_printed v' ∧ elements_printed es') →
  (2 * length (print v ++ print_elements es ++ r) + 2 <= fuel)%nat →
  printable (d + 1) v → printable_elements (d + 1) es →
  rest st = print v ++ print_elements es ++ r → value_printed v →
  parsed st (array_elements fuel d st) r (events_of v ++ events_of_elements es ++ [array_end]).
Proof.
  intros IH Hf Hv Hes Hr HV. destruct fuel as [|fuel]; [lia|]. cbn [array_elements].
  eapply (parsed_bind _ _ (print_elements es ++ r) (events_of v)).
  { apply HV; [lia|done|apply stops_elements|done]. }
  intros st4 [R4 E4]. destruct es as [|v' es']; cbn [print_elements app events_of_elements] in *.
  - rewrite (skip_space_id st4 93 r) by done. rewrite (consume_hit 93 st4 r) by done.
    apply (close_printed st (State _ r _)); [done|]. by split.
  - rewrite <-!app_assoc in *. rewrite (skip_space_id st4 44 _ R4) by done.
    rewrite (consume_miss 93 st4 44 _ R4) by done. rewrite (consume_hit 44 st4 _ R4).
    destruct (IH v' es' eq_refl) as [HV' HE']. set (st5 := State _ _ _).
    assert (A5 : at_text st st5 (rest st5) (events_of v)) by by split.
    eapply parsed_chain; [exact A5|]. cbn [printable_elements] in Hes. destruct Hes.
    apply HE'; [lens|done|done|done|done].
Qed.

Lemma open_at st e l c : rest st = c :: l → is_location e = false →
  at_text st (emit e (advance (emit (location (position st)) st))) l [e].
Proof.
  intros Hr He. split.
  - change (rest (emit e ?x)) with (rest x). unfold advance. cbn [rest emit]. by rewrite Hr.
  - rewrite erase_emit by done. rewrite advance_events. by rewrite erase_location.
Qed.

Lemma value_step_printed v :
  (∀ k w ms, v = JObject (MCons k w ms) → value_printed w ∧ members_printed ms) →
  (∀ w es, v = JArray (ECons w es) → value_printed w ∧ elements_printed es) → value_printed v.
Proof.
  intros IHm IHe fuel d st r Hf Hp Hs Hr. destruct fuel as [|fuel]; [lia|]. cbn [parse_value].
  destruct (print_head v r) as (c & l & Hcl & Hsp & _ & _ & Hc). rewrite Hcl in Hr.
  rewrite (skip_space_id st c l) by done. rewrite Hr. set (st1 := emit _ st).
  assert (A1 : at_text st st1 (rest st) []) by (split; [done|unfold st1; by rewrite erase_location, app_nil_r]).
  assert (Hscalar : ∀ o evs, parsed st1 o r evs → parsed st o r evs).
  { intros o evs H. apply (parsed_chain st st1 (rest st) [] o r evs A1 H). }
  rewrite <-Hcl in Hr. destruct v as [s|z|b| |ms|es].
  - cbn [print print_string app] in Hcl. injection Hcl as <- _. cbn.
    apply Hscalar. destruct (parse_string_printed s st1 r Hr) as [p' ->].
    eexists. split; [done|]. split; [done|]. by rewrite erase_emit.
  - apply Hscalar. pose proof (parse_integer_printed z st1 r Hr Hp Hs) as Hz.
    assert (Hm : c = 45 ∨ is_digit c = true).
    { cbn [print] in Hcl. destruct z as [|p|p]; cbn [print_integer] in Hcl;
        [| |cbn [app] in Hcl; injection Hcl; auto];
        (match goal with H : print_natural ?n ++ _ = _ |- _ =>
          destruct (print_natural_spec n) as (c0 & l0 & Hn & _ & Hd & _); rewrite Hn in H end);
        inversion Hd; injection Hcl as -> _; auto. }
    assert (Hm' : (c =? 45) || is_digit c = true) by (destruct Hm as [-> | ->]; [done|apply orb_true_r]).
    assert (48 <= c <= 57 ∨ c = 45).
    { destruct Hm as [?|Hd]; [by right|left]. unfold is_digit in Hd.
      apply andb_true_iff in Hd as [?%N.leb_le ?%N.leb_le]. done. }
    rewrite !(proj2 (N.eqb_neq c _)) by lia. rewrite Hm'. exact Hz.
  - apply Hscalar. destruct b; cbn [print app true_literal false_literal] in Hcl; injection Hcl as <- _; cbn [N.eqb];
      by apply parse_literal_printed.
  - apply Hscalar. cbn [print app null_literal] in Hcl; injection Hcl as <- _. by apply parse_literal_printed.
  - destruct Hp as [Hd Hp]. assert (c = 123) as ->.
    { destruct ms; cbn [print app] in Hcl; by injection Hcl. }
    cbn [N.eqb]. change (N.pos 123 =? 123) with true. cbv iota.
    destruct (N.leb_spec max_json_depth d); [lia|]. destruct ms as [|k w ms].
    + cbn [print app] in Hcl. injection Hcl as <-.
      pose proof (open_at st object_begin _ _ Hr eq_refl) as [R2 E2]. fold st1 in R2, E2.
      rewrite (skip_space_id _ 125 r R2) by done. rewrite (consume_hit 125 _ r R2).
      apply (close_printed st (State _ r _) object_end [object_begin]); [done|]. by split.
    + cbn [print app] in Hcl. injection Hcl as <-. cbn [print app] in Hr.
      pose proof (open_at st object_begin _ _ Hr eq_refl) as A2. fold st1 in A2. pose proof A2 as [R2 E2].
      rewrite <-!app_assoc in *. cbn [app] in *. rewrite <-!app_assoc in *.
      destruct (print_string_head k (58 :: print w ++ print_members ms ++ r)) as [l' Hl'].
      rewrite (skip_space_id _ 34 l') by (done || congruence).
      rewrite (consume_miss 125 _ 34 l') by (done || congruence).
      destruct (IHm k w ms eq_refl) as [HV HM]. destruct Hp as [Hw Hms].
      change (events_of (JObject (MCons k w ms))) with
        ([object_begin] ++ (key k :: events_of w ++ events_of_members ms) ++ [object_end]).
      eapply parsed_chain; [exact A2|]. cbn [app]. rewrite <-app_assoc. apply HM; [|done|done|done|done].
      cbn [print] in Hf. lens.
  - destruct Hp as [Hd Hp]. assert (c = 91) as ->.
    { destruct es; cbn [print app] in Hcl; by injection Hcl. }
    change (91 =? 123) with false. change (91 =? 91) with true. cbv iota.
    destruct (N.leb_spec max_json_depth d); [lia|]. destruct es as [|w es].
    + cbn [print app] in Hcl. injection Hcl as <-.
      pose proof (open_at st array_begin _ _ Hr eq_refl) as [R2 E2]. fold st1 in R2, E2.
      rewrite (skip_space_id _ 93 r R2) by done. rewrite (consume_hit 93 _ r R2).
      apply (close_printed st (State _ r _) array_end [array_begin]); [done|]. by split.
    + cbn [print app] in Hcl. injection Hcl as <-. cbn [print app] in Hr.
      pose proof (open_at st array_begin _ _ Hr eq_refl) as A2. fold st1 in A2. pose proof A2 as [R2 E2].
      rewrite <-!app_assoc in *.
      destruct (print_head w (print_elements es ++ r)) as (c' & l' & Hl' & Hsp' & _ & H93 & _).
      rewrite (skip_space_id _ c' l') by (done || congruence).
      rewrite (consume_miss 93 _ c' l') by (done || congruence).
      destruct (IHe w es eq_refl) as [HV HE]. destruct Hp as [Hw Hes].
      change (events_of (JArray (ECons w es))) with
        ([array_begin] ++ (events_of w ++ events_of_elements es) ++ [array_end]).
      eapply parsed_chain; [exact A2|]. rewrite <-app_assoc. apply HE; [|done|done|done|done].
      cbn [print] in Hf. lens.
Qed.

Lemma all_printed : (∀ v, value_printed v) ∧ (∀ ms, members_printed ms ∧
  ∀ k w ms', ms = MCons k w ms' → value_printed w ∧ members_printed ms') ∧
  (∀ es, elements_printed es ∧ ∀ w es', es = ECons w es' → value_printed w ∧ elements_printed es').
Proof.
  apply json_mutind; try (intros; by apply value_step_printed).
  - intros ms [HM IH]. apply value_step_printed; [intros k w ms' [= ->]; by eapply IH|done].
  - intros es [HE IH]. apply value_step_printed; [done|intros w es' [= ->]; by eapply IH].
  - split; [|done]. intros fuel d st r k v ?????. by apply members_step_printed.
  - intros k v HV ms [HM IH]. split; [|by intros ??? [= <- <- <-]].
    intros fuel d st r k' v' ?????. apply members_step_printed; try done. by intros ??? [= <- <- <-].
  - split; [|done]. intros fuel d st r v ?????. by apply elements_step_printed.
  - intros v HV es [HE IH]. split; [|by intros ?? [= <- <-]].
    intros fuel d st r v' ?????. apply elements_step_printed; try done. by intros ?? [= <- <-].
Qed.

(** C30: printing any JSON value (integers of 64 bits, nesting at most 64)
    and parsing the text gives, location events apart, exactly the events of the value. *)
Theorem parse_json_print v : printable 0 v →
  ∃ evs, parse_json (print v) = Some (none, 0, evs) ∧ erase evs = events_of v.
Proof.
  intros Hp. unfold parse_json. destruct (print_head v []) as (c & l & Hc & Hsp & _).
  rewrite app_nil_r in Hc. rewrite (skip_space_id _ c l) by done.
  destruct all_printed as [HV _].
  destruct (HV v (value_fuel (print v)) 0 (State 0 (print v) []) []) as (st & -> & Hr & He); try done.
  - unfold value_fuel. rewrite app_nil_r. lia.
  - cbn. by rewrite app_nil_r.
  - assert (skip_space st = st) as ->.
    { unfold skip_space. rewrite Hr. cbn. destruct st. cbn in *. by subst. }
    rewrite Hr. eexists. split; [done|]. exact He.
Qed.

(** ** Text *)

(** The first code point of a UTF-8 text. *)
Definition utf8_first (l : list N) : option (N * list N) :=
  match l with
  | [] => None
  | a :: l =>
      if a <? 0x80 then Some (a, l)
      else if a <? 0xE0 then
        match l with b :: l => Some ((a - 0xC0) * 64 + (b - 0x80), l) | _ => None end
      else if a <? 0xF0 then
        match l with
        | b :: c :: l => Some (((a - 0xE0) * 64 + (b - 0x80)) * 64 + (c - 0x80), l)
        | _ => None
        end
      else
        match l with
        | b :: c :: d :: l =>
            Some ((((a - 0xF0) * 64 + (b - 0x80)) * 64 + (c - 0x80)) * 64 + (d - 0x80), l)
        | _ => None
        end
  end.

Lemma low_byte x : w8 (N.lor 0x80 (N.land x 0x3F)) = 0x80 + x mod 64.
Proof.
  change 0x3F with (N.ones 6). rewrite N.land_ones. change (2 ^ 6) with 64.
  assert (x mod 64 < 2 ^ 6) by (apply N.mod_lt; done).
  change 0x80 with (2 * 2 ^ 6). rewrite lor_add_low by done. apply w8_small. lia.
Qed.

Lemma high_byte k hi x : x < 2 ^ k → hi * 2 ^ k + 2 ^ k <= 256 → w8 (N.lor (hi * 2 ^ k) x) = hi * 2 ^ k + x.
Proof. intros Hx Hb. rewrite lor_add_low by done. apply w8_small. lia. Qed.

Lemma divide_64 x : x = x / 64 * 64 + x mod 64 ∧ x mod 64 < 64.
Proof. pose proof (N.div_mod x 64 ltac:(lia)). pose proof (N.mod_lt x 64 ltac:(lia)). lia. Qed.

Lemma append_utf8_first cp l : cp < 0x110000 → utf8_first (append_utf8 cp ++ l) = Some (cp, l).
Proof.
  intros Hcp. unfold append_utf8. rewrite !N.shiftr_div_pow2.
  destruct (divide_64 cp) as [E0 L0]. destruct (divide_64 (cp / 64)) as [E1 L1].
  destruct (divide_64 (cp / 64 / 64)) as [E2 L2].
  change (2 ^ 6) with 64. change (2 ^ 12) with (64 * 64). change (2 ^ 18) with (64 * 64 * 64).
  rewrite <-!N.Div0.div_div, !low_byte.
  set (q1 := cp / 64) in *. set (r0 := cp mod 64) in *. set (q2 := q1 / 64) in *. set (r1 := q1 mod 64) in *.
  set (q3 := q2 / 64) in *. set (r2 := q2 mod 64) in *. clearbody q1 r0 q2 r1 q3 r2.
  destruct (N.leb_spec cp 0x7F).
  { rewrite w8_small by lia. cbn [app utf8_first]. by destruct (N.ltb_spec cp 0x80); [|lia]. }
  destruct (N.leb_spec cp 0x7FF).
  { change 0xC0 with (6 * 2 ^ 5). rewrite high_byte by (cbn; lia). cbn [app utf8_first].
    destruct (N.ltb_spec (6 * 2 ^ 5 + q1) 0x80); [lia|]. destruct (N.ltb_spec (6 * 2 ^ 5 + q1) 0xE0); [|lia].
    do 2 f_equal. lia. }
  destruct (N.leb_spec cp 0xFFFF).
  { change 0xE0 with (14 * 2 ^ 4). rewrite high_byte by (cbn; lia). cbn [app utf8_first].
    destruct (N.ltb_spec (14 * 2 ^ 4 + q2) 0x80); [lia|]. destruct (N.ltb_spec (14 * 2 ^ 4 + q2) 0xE0); [lia|].
    destruct (N.ltb_spec (14 * 2 ^ 4 + q2) 0xF0); [|lia]. do 2 f_equal. lia. }
  change 0xF0 with (30 * 2 ^ 3). rewrite high_byte by (cbn; lia). cbn [app utf8_first].
  destruct (N.ltb_spec (30 * 2 ^ 3 + q3) 0x80); [lia|]. destruct (N.ltb_spec (30 * 2 ^ 3 + q3) 0xE0); [lia|].
  destruct (N.ltb_spec (30 * 2 ^ 3 + q3) 0xF0); [lia|]. do 2 f_equal. lia.
Qed.

Lemma hex_value_lt c d : hex_value c = Some d → d < 16.
Proof.
  unfold hex_value. repeat case_match; try done; intros [= <-]; bools; lia.
Qed.

Lemma hex_digits_lt n k v st v' st' : v < 2 ^ (4 * k) → (N.of_nat n + k <= 8) →
  hex_digits n v st = Done v' st' → v' < 2 ^ (4 * (k + N.of_nat n)).
Proof.
  revert k v st. induction n as [|n IH]; intros k v st Hv Hk; cbn [hex_digits].
  { intros [= <- <-]. by rewrite N.add_0_r. }
  destruct (rest st) as [|c l]; [done|]. destruct (hex_value c) as [d|] eqn:Hd; [|done].
  apply hex_value_lt in Hd. intros Hr. apply (IH (k + 1)) in Hr.
  - by replace (k + N.of_nat (S n)) with (k + 1 + N.of_nat n) by lia.
  - rewrite w32_small.
    + rewrite N.shiftl_mul_pow2, lor_add_low by done. replace (4 * (k + 1)) with (4 * k + 4) by lia.
      rewrite N.pow_add_r. change (2 ^ 4) with 16. lia.
    + rewrite N.shiftl_mul_pow2. apply (N.lt_le_trans _ (2 ^ (4 * k) * 2 ^ 4)).
      * change (2 ^ 4) with 16. lia.
      * rewrite <-N.pow_add_r. change two32 with (2 ^ 32). apply N.pow_le_mono_r; lia.
  - lia.
Qed.

(** An accepted unicode escape, paired surrogates included, is a
    Unicode scalar value (no surrogate, at most 0x10FFFF), and the UTF-8 bytes appended for
    it decode back to it whatever follows. *)
Theorem parse_unicode_scalar st cp st' l : parse_unicode st = Done cp st' →
  (cp < 0xD800 ∨ 0xDFFF < cp < 0x110000) ∧ utf8_first (append_utf8 cp ++ l) = Some (cp, l).
Proof.
  intros Hu. assert (Hs : cp < 0xD800 ∨ 0xDFFF < cp < 0x110000); [|split; [done|apply append_utf8_first; lia]].
  assert (Hhex : ∀ st v st', parse_hex4 st = Done v st' → v < 0x10000).
  { intros s v s'. unfold parse_hex4. case_match; [done|]. intros Hd. by apply (hex_digits_lt 4 0) in Hd. }
  unfold parse_unicode in Hu. destruct (parse_hex4 st) as [first st1|c o st1|] eqn:E1; [|done..].
  apply Hhex in E1. destruct (_ && _) eqn:Hhi.
  - apply andb_true_iff in Hhi as [?%N.leb_le ?%N.leb_le].
    destruct (rest st1) as [|a [|b r]]; [done|by repeat case_match|].
    destruct (decide (a = 92)) as [->|]; [|by repeat (case_match; try done; try congruence)].
    destruct (decide (b = 117)) as [->|]; [|by repeat (case_match; try done; try congruence)].
    destruct (parse_hex4 (advance (advance st1))) as [second st2|c o st2|]; [|done..].
    destruct (_ || _) eqn:Hlo; [done|]. apply orb_false_iff in Hlo as [?%N.ltb_ge ?%N.ltb_ge].
    injection Hu as <- _. right. rewrite N.shiftl_mul_pow2. change (2 ^ 10) with 1024. lia.
  - destruct (_ && _) eqn:Hlo in Hu; [done|]. injection Hu as <- _.
    apply andb_false_iff in Hhi as [?%N.leb_gt|?%N.leb_gt]; [lia|].
    apply andb_false_iff in Hlo as [?%N.leb_gt|?%N.leb_gt]; lia.
Qed.

End json.
Arguments Done {D A}.
Arguments Failed {D A}.
Arguments Stuck {D A}.

(** ** Witnesses, on a document with every kind of value *)

Definition no_double (token : list N) : option unit := None.

Definition document : json :=
  JObject (MCons [97] (JArray (ECons (JInteger (-12)) (ECons (JString [34; 10; 233]) (ECons JNull ENil))))
    (MCons [98; 92] (JBoolean true) MNil)).

Lemma parse_json_print_witness : printable 0 document ∧
  ∃ evs, parse_json no_double (print document) = Some (none, 0, evs) ∧ erase evs = events_of document.
Proof.
  assert (Hp : printable 0 document) by (vm_compute; split_and!; done).
  split; [exact Hp|]. exact (parse_json_print no_double document Hp).
Defined.

(** The surrogate pair of U+1F600. *)
Definition grinning : state (D := unit) :=
  State 0 [100; 56; 51; 68; 92; 117; 68; 69; 48; 48; 33] [].

Lemma parse_unicode_scalar_witness :
  ∃ st', parse_unicode grinning = Done 0x1F600 st' ∧ append_utf8 0x1F600 = [240; 159; 152; 128] ∧
    utf8_first (append_utf8 0x1F600 ++ []) = Some (0x1F600, []).
Proof.
  eexists. split; [vm_compute; reflexivity|]. split; [reflexivity|].
  eapply (parse_unicode_scalar grinning). vm_compute. reflexivity.
Defined.
End Json.
