(* ===== verification/Sha256.v ===== *)
(** * Source content hashing

    Models server_engine/project/source/source_hash.cpp: the streaming SHA-256 state with
    its 64-byte buffer, the block transform, and the padding of [finish].  Words are [N]
    with the 32-bit wrap-around written out, bytes are [N] below 256.  The lemmas reduce the
    streaming to the transform folded over the blocks of the padded bytes; [Sha256Theorems]
    shows that this is the function of [Sha256Standard]. *)

From S2P Require Import Prelude.

Local Open Scope N_scope.

Module Sha256.

(** ** The word functions *)

Definition rotr (value amount : N) : N :=
  N.lor (N.shiftr value amount) (w32 (N.shiftl value (32 - amount))).

(** [~x] on 32 bits. *)
Definition complement (x : N) : N := N.lxor x 0xffffffff.

Definition choose (x y z : N) : N := N.lxor (N.land x y) (N.land (complement x) z).
Definition majority (x y z : N) : N :=
  N.lxor (N.lxor (N.land x y) (N.land x z)) (N.land y z).
Definition big_sigma0 (value : N) : N :=
  N.lxor (N.lxor (rotr value 2) (rotr value 13)) (rotr value 22).
Definition big_sigma1 (value : N) : N :=
  N.lxor (N.lxor (rotr value 6) (rotr value 11)) (rotr value 25).
Definition small_sigma0 (value : N) : N :=
  N.lxor (N.lxor (rotr value 7) (rotr value 18)) (N.shiftr value 3).
Definition small_sigma1 (value : N) : N :=
  N.lxor (N.lxor (rotr value 17) (rotr value 19)) (N.shiftr value 10).

Definition round_constants : list N :=
  [1116352408; 1899447441; 3049323471; 3921009573; 961987163; 1508970993;
   2453635748; 2870763221; 3624381080; 310598401; 607225278; 1426881987;
   1925078388; 2162078206; 2614888103; 3248222580; 3835390401; 4022224774;
   264347078; 604807628; 770255983; 1249150122; 1555081692; 1996064986;
   2554220882; 2821834349; 2952996808; 3210313671; 3336571891; 3584528711;
   113926993; 338241895; 666307205; 773529912; 1294757372; 1396182291;
   1695183700; 1986661051; 2177026350; 2456956037; 2730485921; 2820302411;
   3259730800; 3345764771; 3516065817; 3600352804; 4094571909; 275423344;
   430227734; 506948616; 659060556; 883997877; 958139571; 1322822218;
   1537002063; 1747873779; 1955562222; 2024104815; 2227730452; 2361852424;
   2428436474; 2756734187; 3204031479; 3329325298].

(** ** The block transform *)

Definition at_index (l : list N) (i : nat) : N := default 0 (l !! i).

(** The sixteen big-endian words of a block. *)
Definition block_word (block : list N) (index : nat) : N :=
  let offset := (index * 4)%nat in
  N.lor (N.lor (N.lor (N.shiftl (at_index block offset) 24) (N.shiftl (at_index block (offset + 1)) 16))
           (N.shiftl (at_index block (offset + 2)) 8)) (at_index block (offset + 3)).

(** The loop that extends the schedule, from [index = length schedule]. *)
Fixpoint extend_schedule (count : nat) (schedule : list N) : list N :=
  match count with
  | O => schedule
  | S count' =>
      let index := length schedule in
      extend_schedule count' (schedule ++
        [w32 (small_sigma1 (at_index schedule (index - 2)) + at_index schedule (index - 7) +
              small_sigma0 (at_index schedule (index - 15)) + at_index schedule (index - 16))])
  end.

Definition make_schedule (block : list N) : list N :=
  extend_schedule 48 (block_word block <$> seq 0 16).

(** The working variables a to h. *)
Record registers : Set := Registers { a : N; b : N; c : N; d : N; e : N; f : N; g : N; h : N }.

Definition round (r : registers) (constant word : N) : registers :=
  let temporary1 := w32 (h r + big_sigma1 (e r) + choose (e r) (f r) (g r) + constant + word) in
  let temporary2 := w32 (big_sigma0 (a r) + majority (a r) (b r) (c r)) in
  Registers (w32 (temporary1 + temporary2)) (a r) (b r) (c r) (w32 (d r + temporary1))
    (e r) (f r) (g r).

Definition transform (state : registers) (block : list N) : registers :=
  let r := foldl (λ r '(constant, word), round r constant word) state
             (zip round_constants (make_schedule block)) in
  Registers (w32 (a state + a r)) (w32 (b state + b r)) (w32 (c state + c r)) (w32 (d state + d r))
    (w32 (e state + e r)) (w32 (f state + f r)) (w32 (g state + g r)) (w32 (h state + h r)).

(** ** The streaming state *)

Record sha256_state : Set := Sha256State {
  state : registers;
  buffer : list N;
  buffer_size : nat;
  total_bytes : N;
}.

Definition initial_state : registers :=
  Registers 0x6a09e667 0xbb67ae85 0x3c6ef372 0xa54ff53a 0x510e527f 0x9b05688c 0x1f83d9ab 0x5be0cd19.

Definition sha256_init : sha256_state := Sha256State initial_state (replicate 64 0) 0 0.

(** [buffer[buffer_size++] = value] *)
Definition put (value : N) (s : sha256_state) : sha256_state :=
  Sha256State (state s) (<[buffer_size s := value]> (buffer s)) (S (buffer_size s)) (total_bytes s).

(** [transform(buffer.data()); buffer_size = 0] *)
Definition flush (s : sha256_state) : sha256_state :=
  Sha256State (transform (state s) (buffer s)) (buffer s) 0 (total_bytes s).

Definition count_byte (s : sha256_state) : sha256_state :=
  Sha256State (state s) (buffer s) (buffer_size s) (w64 (total_bytes s + 1)).

Definition update_byte (s : sha256_state) (value : N) : sha256_state :=
  let s := count_byte (put value s) in
  if (buffer_size s =? 64)%nat then flush s else s.

Definition update (s : sha256_state) (input : list N) : sha256_state := foldl update_byte s input.

(** [while (buffer_size < bound) buffer[buffer_size++] = 0] *)
Definition put_zeros (bound : nat) (s : sha256_state) : sha256_state :=
  Nat.iter (bound - buffer_size s) (put 0) s.

(** The eight bytes of the length. *)
Definition length_bytes (bit_length : N) : list N :=
  (λ index, w8 (N.shiftr bit_length ((7 - index) * 8))) <$> [0; 1; 2; 3; 4; 5; 6; 7].

Definition word_bytes (word : N) : list N :=
  (λ byte, N.land (N.shiftr word ((3 - byte) * 8)) 0xff) <$> [0; 1; 2; 3].

Definition digest (r : registers) : list N :=
  concat (word_bytes <$> [a r; b r; c r; d r; e r; f r; g r; h r]).

Definition finish (s : sha256_state) : list N :=
  let bit_length := w64 (total_bytes s * 8) in
  let s := put 0x80 s in
  let s := if (56 <? buffer_size s)%nat then flush (put_zeros 64 s) else s in
  let s := put_zeros 56 s in
  let s := foldl (λ s value, put value s) s (length_bytes bit_length) in
  digest (state (flush s)).

Definition hash_source_content (bytes : list N) : list N := finish (update sha256_init bytes).

(** ** Without the buffer: the transform over the blocks of the padded bytes *)

Fixpoint blocks (count : nat) (l : list N) : list (list N) :=
  match count with
  | O => []
  | S count' => take 64 l :: blocks count' (drop 64 l)
  end.

Definition absorb (r : registers) (l : list N) : registers :=
  foldl transform r (blocks (length l / 64) l).

(** One 1 bit, then zeros up to 8 bytes before a block boundary, then the length in bits. *)
Definition pad (message : list N) : list N :=
  let n := length message in
  message ++ [0x80] ++ replicate ((119 - n mod 64) mod 64) 0 ++
  length_bytes (w64 (N.of_nat n * 8)).

Definition blockwise (message : list N) : list N := digest (absorb initial_state (pad message)).

(** ** Proofs *)

#[local] Opaque transform.

Lemma absorb_nil r : absorb r [] = r.
Proof. done. Qed.

Lemma absorb_block r block l : length block = 64%nat → absorb r (block ++ l) = absorb (transform r block) l.
Proof.
  intros Hb. unfold absorb. rewrite length_app, Hb.
  replace ((64 + length l) / 64)%nat with (S (length l / 64)).
  - cbn [blocks foldl]. by rewrite take_app_length', drop_app_length'.
  - replace (64 + length l)%nat with (length l + 1 * 64)%nat by lia. rewrite Nat.div_add by lia. lia.
Qed.

Lemma absorb_one r block : length block = 64%nat → absorb r block = transform r block.
Proof. intros Hb. rewrite <-(app_nil_r block) at 1. by rewrite absorb_block. Qed.

Lemma absorb_app r l1 l2 k : length l1 = (64 * k)%nat → absorb r (l1 ++ l2) = absorb (absorb r l1) l2.
Proof.
  revert r l1. induction k as [|k IH]; intros r l1 Hl.
  { by destruct l1; [|cbn in Hl; lia]. }
  assert (Hx : length (take 64 l1) = 64%nat) by (rewrite length_take; lia).
  assert (Hy : length (drop 64 l1) = (64 * k)%nat) by (rewrite length_drop; lia).
  assert (El : l1 = take 64 l1 ++ drop 64 l1) by by rewrite take_drop.
  clear Hl. revert Hx Hy El. generalize (take 64 l1) (drop 64 l1). intros x y Hx Hy ->.
  rewrite <-app_assoc, (absorb_block r x y Hx), (absorb_block r x (y ++ l2) Hx). by apply IH.
Qed.

(** The buffer holds [l]. *)
Definition holds (s : sha256_state) (l : list N) : Prop :=
  length (buffer s) = 64%nat ∧ buffer_size s = length l ∧ take (length l) (buffer s) = l ∧
  (length l <= 64)%nat.

Lemma holds_put s l v : holds s l → (length l < 64)%nat →
  holds (put v s) (l ++ [v]) ∧ state (put v s) = state s ∧ total_bytes (put v s) = total_bytes s.
Proof.
  intros (Hb & Hn & Ht & _) Hl. split; [|done]. unfold holds. cbn.
  rewrite length_insert, length_app, Hn. cbn [length]. split_and!; [done|lia| |lia].
  rewrite Nat.add_1_r. erewrite take_S_r; [|by apply list_lookup_insert_eq; lia].
  by rewrite take_insert_ge, Ht by lia.
Qed.

Lemma holds_put_list s l vs : holds s l → (length l + length vs <= 64)%nat →
  let s' := foldl (λ s value, put value s) s vs in
  holds s' (l ++ vs) ∧ state s' = state s ∧ total_bytes s' = total_bytes s.
Proof.
  revert s l. induction vs as [|v vs IH]; intros s l Hs Hl; cbn [foldl].
  { by rewrite app_nil_r. }
  cbn [length] in Hl. destruct (holds_put s l v Hs) as (H1 & E1 & E2); [lia|].
  destruct (IH (put v s) (l ++ [v]) H1) as (H2 & E3 & E4); [rewrite length_app; cbn; lia|].
  rewrite <-app_assoc in H2. rewrite E3, E4. done.
Qed.

Lemma holds_put_zeros s l bound : holds s l → (length l <= bound <= 64)%nat →
  let s' := put_zeros bound s in
  holds s' (l ++ replicate (bound - length l) 0) ∧ state s' = state s ∧ total_bytes s' = total_bytes s.
Proof.
  intros Hs Hb. unfold put_zeros. pose proof Hs as (_ & -> & _).
  assert (Hz : ∀ n s, Nat.iter n (put 0) s = foldl (λ s value, put value s) s (replicate n 0)).
  { induction n as [|n IH]; intros s0; [done|]. rewrite Nat.iter_succ_r. cbn [replicate foldl]. by rewrite IH. }
  rewrite Hz. apply holds_put_list; [done|]. rewrite length_replicate. lia.
Qed.

Lemma holds_flush s l : holds s l → length l = 64%nat →
  holds (flush s) [] ∧ state (flush s) = transform (state s) l ∧ total_bytes (flush s) = total_bytes s.
Proof.
  intros (Hb & Hn & Ht & _) Hl. rewrite Hl in Ht. rewrite take_ge in Ht by lia.
  split; [|by cbn; rewrite Ht]. unfold holds. cbn. split_and!; [done|done|done|lia].
Qed.

(** What the state knows of the message so far. *)
Definition streams (s : sha256_state) (message : list N) : Prop :=
  ∃ full rest k, message = full ++ rest ∧ length full = (64 * k)%nat ∧ (length rest < 64)%nat ∧
    holds s rest ∧ state s = absorb initial_state full ∧
    total_bytes s = w64 (N.of_nat (length message)).

Lemma streams_init : streams sha256_init [].
Proof. exists [], [], 0%nat. unfold holds. cbn [length]. split_and!; try done; lia. Qed.

Lemma streams_byte s message v : streams s message → streams (update_byte s v) (message ++ [v]).
Proof.
  intros (full & rest & k & -> & Hf & Hr & Hs & Hst & Ht). unfold update_byte.
  destruct (holds_put s rest v Hs Hr) as (Hs' & E1 & E2). set (s1 := put v s) in *.
  assert (Hs1 : holds (count_byte s1) (rest ++ [v])) by exact Hs'.
  assert (Htot : total_bytes (count_byte s1) = w64 (N.of_nat (length ((full ++ rest) ++ [v])))).
  { cbn [count_byte total_bytes]. rewrite E2, Ht, (length_app (full ++ rest)), Nat2N.inj_add, !w64_mod.
    by rewrite N.Div0.add_mod_idemp_l. }
  destruct (Nat.eqb_spec (buffer_size (count_byte s1)) 64) as [H64|H64].
  - destruct Hs1 as (Hb & Hn & Htk & Hle). rewrite Hn in H64.
    destruct (holds_flush (count_byte s1) (rest ++ [v])) as (Hs2 & E3 & E4); [done..|].
    exists (full ++ rest ++ [v]), [], (S k). rewrite app_nil_r, <-app_assoc. split_and!; try done.
    + rewrite length_app. lia.
    + cbn. lia.
    + rewrite E3. cbn [count_byte state]. rewrite E1, Hst, (absorb_app _ _ _ _ Hf).
      symmetry. by apply absorb_one.
    + rewrite E4, Htot, <-app_assoc. done.
  - exists full, (rest ++ [v]), k. rewrite app_assoc. split_and!; try done.
    destruct Hs1 as (_ & Hn & _ & Hle). rewrite Hn in H64. lia.
Qed.

Lemma streams_update s message input : streams s message → streams (update s input) (message ++ input).
Proof.
  revert s message. induction input as [|v input IH]; intros s message Hs; [by rewrite app_nil_r|].
  cbn [update foldl]. replace (message ++ v :: input) with ((message ++ [v]) ++ input) by by rewrite <-app_assoc.
  by apply IH, streams_byte.
Qed.

Lemma length_length_bytes n : length (length_bytes n) = 8%nat.
Proof. done. Qed.

Lemma pad_zeros n : (n < 64)%nat →
  ((119 - n) mod 64)%nat = if (56 <? S n)%nat then (119 - n)%nat else (55 - n)%nat.
Proof.
  intros Hn. destruct (Nat.ltb_spec 56 (S n)).
  - apply Nat.mod_small. lia.
  - replace (119 - n)%nat with ((55 - n) + 1 * 64)%nat by lia. rewrite Nat.Div0.mod_add. apply Nat.mod_small. lia.
Qed.

Lemma finish_streams s message : streams s message → finish s = blockwise message.
Proof.
  intros (full & rest & k & -> & Hf & Hr & Hs & Hst & Ht). unfold finish, blockwise, pad. f_equal.
  assert (Hmod : (length (full ++ rest) mod 64)%nat = length rest).
  { rewrite length_app, Hf, Nat.mul_comm, Nat.add_comm, Nat.Div0.mod_add. by apply Nat.mod_small. }
  assert (Hbits : w64 (total_bytes s * 8) = w64 (N.of_nat (length (full ++ rest)) * 8)).
  { rewrite Ht, !w64_mod. by rewrite N.Div0.mul_mod_idemp_l. }
  rewrite Hbits, Hmod, <-app_assoc, (absorb_app _ _ _ _ Hf), <-Hst. set (tail := length_bytes _).
  assert (Htail : length tail = 8%nat) by done. clearbody tail. rewrite pad_zeros by done.
  destruct (holds_put s rest 0x80 Hs Hr) as (H1 & E1 & _). set (s1 := put 0x80 s) in *.
  pose proof H1 as (_ & Hn1 & _). rewrite length_app in Hn1. cbn [length] in Hn1.
  assert (Hlast : ∀ s2 l, holds s2 l → (length l <= 56)%nat →
    state (flush (foldl (λ s value, put value s) (put_zeros 56 s2) tail)) =
    transform (state s2) (l ++ replicate (56 - length l) 0 ++ tail)).
  { intros s2 l H2 Hl. destruct (holds_put_zeros s2 l 56 H2) as (H3 & E3 & _); [lia|].
    destruct (holds_put_list _ _ tail H3) as (H4 & E4 & _).
    { rewrite length_app, length_replicate. lia. }
    destruct (holds_flush _ _ H4) as (_ & -> & _).
    { rewrite !length_app, length_replicate. lia. }
    by rewrite E4, E3, app_assoc. }
  rewrite Hn1, Nat.add_1_r. destruct (Nat.ltb_spec 56 (S (length rest))) as [Hlong|Hshort].
  - destruct (holds_put_zeros s1 _ 64 H1) as (H2 & E2 & _); [rewrite length_app; cbn; lia|].
    destruct (holds_flush _ _ H2) as (H3 & E3 & _).
    { rewrite !length_app, length_replicate. cbn. lia. }
    rewrite (Hlast _ [] H3) by (cbn; lia). rewrite E3, E2, E1. cbn [app length].
    rewrite length_app. cbn [length].
    replace (rest ++ 0x80 :: replicate (119 - length rest) 0 ++ tail) with
      (((rest ++ [0x80]) ++ replicate (64 - (length rest + 1)) 0) ++ (replicate 56 0 ++ tail) ++ []).
    + rewrite !absorb_block; [done|..]; rewrite !length_app, length_replicate; cbn [length]; lia.
    + rewrite app_nil_r, <-!app_assoc. cbn [app]. do 2 f_equal. rewrite app_assoc. f_equal.
      rewrite <-replicate_add. f_equal. lia.
  - rewrite (Hlast _ _ H1) by (rewrite length_app; cbn; lia). rewrite E1, length_app. cbn [length].
    replace (rest ++ [0x80] ++ replicate (55 - length rest) 0 ++ tail) with
      (((rest ++ [0x80]) ++ replicate (56 - (length rest + 1)) 0 ++ tail) ++ []).
    + rewrite absorb_block; [done|]. rewrite !length_app, length_replicate. cbn [length]. lia.
    + rewrite app_nil_r, <-!app_assoc. cbn [app]. do 4 f_equal. lia.
Qed.

(** The streaming hash is the transform folded over the blocks of the padded content. *)
Lemma hash_source_content_blockwise bytes : hash_source_content bytes = blockwise bytes.
Proof. apply finish_streams, (streams_update sha256_init []), streams_init. Qed.

(** Feeding the content in two pieces is feeding it whole. *)
Theorem sha256_update_app s input1 input2 :
  update s (input1 ++ input2) = update (update s input1) input2 ∧
  finish (update (update sha256_init input1) input2) = hash_source_content (input1 ++ input2).
Proof.
  assert (Ha : ∀ s, update s (input1 ++ input2) = update (update s input1) input2) by (intros; apply foldl_app).
  split; [apply Ha|]. unfold hash_source_content. by rewrite Ha.
Qed.

(** The published digest of "abc". *)
Example sha256_abc : hash_source_content [97; 98; 99] =
  [0xba; 0x78; 0x16; 0xbf; 0x8f; 0x01; 0xcf; 0xea; 0x41; 0x41; 0x40; 0xde; 0x5d; 0xae; 0x22; 0x23;
   0xb0; 0x03; 0x61; 0xa3; 0x96; 0x17; 0x7a; 0x9c; 0xb4; 0x10; 0xff; 0x61; 0xf2; 0x00; 0x15; 0xad].
Proof. vm_compute. reflexivity. Qed.

End Sha256.
