(* ===== verification/Sha256Standard.v ===== *)
(** * SHA-256 as the standard states it

    FIPS 180-4 on bits, written from the standard and not from the code: a message is a list
    of bits, a word a list of 32 bits, both with the first bit first.  The file shares no
    definition with [Sha256], which proves that server_engine/project/source/source_hash.cpp
    computes this function.  A message of 2^64 bits or more, which the standard excludes, has
    here the low 64 bits of its length in the padding. *)

From S2P Require Import Prelude.

Module Sha256Standard.

(** ** Words and bytes as bits *)

Notation bits := (list bool).

(** The [width] low bits of a number, the most significant first. *)
Definition to_bits (width : nat) (n : N) : bits :=
  (λ i, N.testbit n (N.of_nat (width - 1 - i))) <$> seq 0 width.

(** The number some bits write. *)
Definition of_bits (l : bits) : N := foldl (λ n (bit : bool), 2 * n + (if bit then 1 else 0))%N 0%N l.

(** Addition modulo 2^32. *)
Definition add (x y : bits) : bits := to_bits 32 ((of_bits x + of_bits y) mod 2 ^ 32)%N.

(** ** The functions of section 4.1.2 *)

(** [ROTR n]: the last [n] bits come first.  [SHR n]: they are lost, and zeros come first. *)
Definition ROTR (n : nat) (x : bits) : bits := drop (32 - n) x ++ take (32 - n) x.
Definition SHR (n : nat) (x : bits) : bits := replicate n false ++ take (32 - n) x.

Definition xor : bits → bits → bits := zip_with xorb.

(** Bit by bit: the bit of [y] where [x] is set, the bit of [z] elsewhere. *)
Definition Ch (x y z : bits) : bits :=
  zip_with (λ (b : bool) '(c, d), if b then c else d) x (zip y z).

(** Bit by bit: what at least two of the three say. *)
Definition Maj (x y z : bits) : bits :=
  zip_with (λ b '(c, d), bool_decide (2 <= count_occ Bool.bool_dec [b; c; d] true)) x (zip y z).

Definition Sigma0 (x : bits) : bits := xor (xor (ROTR 2 x) (ROTR 13 x)) (ROTR 22 x).
Definition Sigma1 (x : bits) : bits := xor (xor (ROTR 6 x) (ROTR 11 x)) (ROTR 25 x).
Definition sigma0 (x : bits) : bits := xor (xor (ROTR 7 x) (ROTR 18 x)) (SHR 3 x).
Definition sigma1 (x : bits) : bits := xor (xor (ROTR 17 x) (ROTR 19 x)) (SHR 10 x).

(** ** The constants of sections 4.2.2 and 5.3.3 *)

Definition prime (p : nat) : bool :=
  (2 <=? p) && forallb (λ d, negb (p mod d =? 0)) (seq 2 (p - 2)).

(** The primes below 312: the first sixty-four. *)
Definition primes : list nat := List.filter prime (seq 0 312).

(** The greatest number below [2 ^ bits] above [root] whose cube is at most [n], bit by bit. *)
Fixpoint cube_root (bits : nat) (root n : N) : N :=
  match bits with
  | O => root
  | S bits' =>
      let next := (root + 2 ^ N.of_nat bits')%N in
      cube_root bits' (if (next * next * next <=? n)%N then next else root) n
  end.

(** The first 32 bits of the fractional part of the cube root, and of the square root: the
    low 32 bits of the root scaled by 2^32. *)
Definition cube_root_fraction (p : nat) : bits := to_bits 32 (cube_root 36 0 (N.of_nat p * 2 ^ 96)).
Definition square_root_fraction (p : nat) : bits := to_bits 32 (N.sqrt (N.of_nat p * 2 ^ 64)).

Definition K : list bits := cube_root_fraction <$> primes.
Definition H0 : list bits := square_root_fraction <$> take 8 primes.

(** ** Preprocessing (section 5) *)

(** A 1, zeros up to 64 bits before a multiple of 512, and the length in 64 bits. *)
Definition zeros (l : nat) : nat := (448 + 511 - l mod 512) mod 512.

Definition padded (message : bits) : bits :=
  message ++ [true] ++ replicate (zeros (length message)) false ++
  to_bits 64 (N.of_nat (length message)).

(** The pieces of [size] bits. *)
Definition pieces {A} (size : nat) (l : list A) : list (list A) :=
  (λ i, take size (drop (size * i) l)) <$> seq 0 (length l / size).

(** ** The hash computation (section 6.2.2) *)

Definition word_at (l : list bits) (t : nat) : bits := default [] (l !! t).

(** The message schedule [W_t] of a block of sixteen words: [first M t] has the [t] words
    before it, and [W_equation] is the recurrence of the standard. *)
Fixpoint first (M : list bits) (t : nat) : list bits :=
  match t with
  | O => []
  | S t' =>
      let W := word_at (first M t') in
      first M t' ++ [if t' <? 16 then word_at M t'
                     else add (add (add (sigma1 (W (t' - 2))) (W (t' - 7))) (sigma0 (W (t' - 15)))) (W (t' - 16))]
  end.

Definition W (M : list bits) (t : nat) : bits := word_at (first M (S t)) t.

(** The eight working variables, from a to h. *)
Inductive variables : Type :=
  | Variables (a b c d e f g h : bits).

Definition step (M : list bits) (v : variables) (t : nat) : variables :=
  let 'Variables a b c d e f g h := v in
  let T1 := add (add (add (add h (Sigma1 e)) (Ch e f g)) (word_at K t)) (W M t) in
  let T2 := add (Sigma0 a) (Maj a b c) in
  Variables (add T1 T2) a b c (add d T1) e f g.

Definition variables_of (H : list bits) : variables :=
  Variables (word_at H 0) (word_at H 1) (word_at H 2) (word_at H 3)
    (word_at H 4) (word_at H 5) (word_at H 6) (word_at H 7).
Definition words_of (v : variables) : list bits :=
  let 'Variables a b c d e f g h := v in [a; b; c; d; e; f; g; h].

(** The intermediate hash value after a block of 512 bits. *)
Definition compress (H : list bits) (block : bits) : list bits :=
  zip_with add (words_of (foldl (step (pieces 32 block)) (variables_of H) (seq 0 64))) H.

Definition SHA256 (message : bits) : bits := concat (foldl compress H0 (pieces 512 (padded message))).

(** ** The definitions say what the standard does *)

Example first_primes : length primes = 64 ∧ last primes = Some 311 ∧ take 8 primes = [2; 3; 5; 7; 11; 13; 17; 19].
Proof. vm_compute. done. Qed.

(** [cube_root] is the whole part of the root of the scaled primes. *)
Example cube_roots_whole :
  forallb (λ p, let n := (N.of_nat p * 2 ^ 96)%N in let r := cube_root 36 0 n in
                (r ^ 3 <=? n)%N && (n <? (r + 1) ^ 3)%N) primes = true.
Proof. vm_compute. reflexivity. Qed.

Lemma length_first M t : length (first M t) = t.
Proof. induction t as [|t IH]; [done|]. cbn [first]. rewrite length_app, IH. cbn. lia. Qed.

Lemma first_lookup M t i : i < t → word_at (first M t) i = W M i.
Proof.
  induction t as [|t IH]; intros Hi; [lia|]. destruct (decide (i = t)) as [->|Ht]; [done|].
  unfold word_at. cbn [first]. rewrite lookup_app_l by (rewrite length_first; lia). apply IH. lia.
Qed.

Lemma word_at_last l x t : length l = t → word_at (l ++ [x]) t = x.
Proof. intros <-. unfold word_at. by rewrite lookup_app_r, Nat.sub_diag. Qed.

Lemma W_equation M t :
  W M t = if t <? 16 then word_at M t
          else add (add (add (sigma1 (W M (t - 2))) (W M (t - 7))) (sigma0 (W M (t - 15)))) (W M (t - 16)).
Proof.
  unfold W at 1. cbn [first]. rewrite word_at_last by apply length_first.
  destruct (t <? 16) eqn:Ht; [done|]. apply Nat.ltb_ge in Ht. by rewrite !first_lookup by lia.
Qed.

(** The zeros are the fewest that leave room for the length before a multiple of 512. *)
Lemma zeros_spec l : (l + 1 + zeros l) mod 512 = 448 ∧ zeros l < 512.
Proof.
  unfold zeros. pose proof (Nat.mod_upper_bound l 512) as Hm. split; [|apply Nat.mod_upper_bound; lia].
  pose proof (Nat.div_mod_eq l 512) as Hd.
  rewrite Nat.Div0.add_mod_idemp_r. rewrite Hd at 1.
  replace (_ + _) with (448 + (l / 512 + 1) * 512) by lia. by rewrite Nat.Div0.mod_add.
Qed.

End Sha256Standard.
