(* ===== verification/Sha256Theorems.v ===== *)
(** * The source hash is SHA-256

    The word functions, the schedule, the rounds, the block transform, the padding and the
    digest of [Sha256] (server_engine/project/source/source_hash.cpp) are those of
    [Sha256Standard] on the bits of the words and bytes, and so is the whole hash. *)

From S2P Require Import Prelude Sha256 Sha256Standard.

Module Sha256Theorems.
Import Sha256 Sha256Standard.

Notation word := (to_bits 32).

(** The bits of a list of bytes. *)
Definition octets (l : list N) : bits := concat (to_bits 8 <$> l).

(** ** Bits of numbers *)

Lemma length_to_bits w n : length (to_bits w n) = w.
Proof. unfold to_bits. by rewrite length_fmap, length_seq. Qed.

Lemma to_bits_ext w x y :
  (∀ i, (i < N.of_nat w)%N → N.testbit x i = N.testbit y i) → to_bits w x = to_bits w y.
Proof.
  intros Hxy. apply list_fmap_ext. intros j i [-> Hj]%lookup_seq. apply Hxy. lia.
Qed.

Lemma to_bits_mod w n k : k = (2 ^ N.of_nat w)%N → to_bits w (n mod k) = to_bits w n.
Proof. intros ->. apply to_bits_ext. intros i Hi. by apply N.mod_pow2_bits_low. Qed.

Lemma word_w32 n : word (w32 n) = word n.
Proof. rewrite w32_mod. by apply to_bits_mod. Qed.

Lemma to_bits_split m n v :
  to_bits (m + n) v = to_bits m (N.shiftr v (N.of_nat n)) ++ to_bits n v.
Proof.
  unfold to_bits. rewrite seq_app, fmap_app. f_equal.
  - apply list_fmap_ext. intros j i [-> Hj]%lookup_seq. rewrite N.shiftr_spec'. f_equal. lia.
  - rewrite Nat.add_0_l, <-(Nat.add_0_r m) at 1. rewrite <-(fmap_add_seq m 0 n).
    rewrite <-list_fmap_compose. apply list_fmap_ext. intros j i [-> Hj]%lookup_seq. cbn. f_equal. lia.
Qed.

Lemma of_bits_app l b : of_bits (l ++ [b]) = (2 * of_bits l + (if b then 1 else 0))%N.
Proof. unfold of_bits. by rewrite foldl_app. Qed.

Lemma of_to_bits w n : of_bits (to_bits w n) = (n mod 2 ^ N.of_nat w)%N.
Proof.
  revert n. induction w as [|w IH]; intros n; [by rewrite N.mod_1_r|].
  rewrite <-Nat.add_1_r, (to_bits_split w 1). change (to_bits 1 n) with [N.testbit n 0].
  assert (Hb : (n mod 2 = if N.testbit n 0 then 1 else 0)%N) by (rewrite <-N.bit0_mod; by destruct (N.testbit n 0)).
  rewrite of_bits_app, IH, <-Hb, N.shiftr_div_pow2, Nat2N.inj_add, N.pow_add_r, (N.mul_comm (2 ^ _)).
  change (2 ^ N.of_nat 1)%N with 2%N. rewrite N.Div0.mod_mul_r. lia.
Qed.

Lemma add_words x y : add (word x) (word y) = word (x + y).
Proof.
  unfold add. rewrite !of_to_bits. change (N.of_nat 32) with 32%N.
  by rewrite <-N.Div0.add_mod, to_bits_mod.
Qed.

Lemma zip_with_fmaps {A B C D} (p : B → C → D) (q : A → B) (r : A → C) l :
  zip_with p (q <$> l) (r <$> l) = (λ x, p (q x) (r x)) <$> l.
Proof. induction l as [|x l IH]; [done|]. cbn. by rewrite IH. Qed.

(** ** The word functions *)

Ltac bitwise :=
  repeat (rewrite N.lor_spec || rewrite N.land_spec || rewrite N.lxor_spec || rewrite N.shiftr_spec').

Lemma xor_word x y : xor (word x) (word y) = word (N.lxor x y).
Proof.
  unfold xor, to_bits. rewrite zip_with_fmaps. apply list_fmap_ext. intros. by rewrite N.lxor_spec.
Qed.

Lemma w32_testbit n i : (i < 32)%N → N.testbit (w32 n) i = N.testbit n i.
Proof. intros Hi. rewrite w32_mod. by apply (N.mod_pow2_bits_low n 32). Qed.

Lemma ROTR_word k x : 0 < k < 32 → (x < 2 ^ 32)%N → ROTR k (word x) = word (rotr x (N.of_nat k)).
Proof.
  intros Hk Hx. unfold ROTR. replace (word x) with (to_bits (32 - k + k) x) by (f_equal; lia).
  rewrite (to_bits_split (32 - k) k), drop_app_length', take_app_length' by by rewrite length_to_bits.
  replace (word (rotr x (N.of_nat k))) with (to_bits (k + (32 - k)) (rotr x (N.of_nat k))) by (f_equal; lia).
  rewrite (to_bits_split k (32 - k)). unfold rotr. f_equal; apply to_bits_ext; intros i Hi; bitwise.
  - rewrite w32_testbit, N.shiftl_spec_high by lia.
    rewrite (testbit_above 32 x (i + _ + _)) by (done || lia). cbn. f_equal. lia.
  - rewrite w32_testbit, N.shiftl_spec_low by lia. by rewrite orb_false_r.
Qed.

Lemma SHR_word k x : k <= 32 → (x < 2 ^ 32)%N → SHR k (word x) = word (N.shiftr x (N.of_nat k)).
Proof.
  intros Hk Hx. unfold SHR. replace (word x) with (to_bits (32 - k + k) x) by (f_equal; lia).
  rewrite (to_bits_split (32 - k) k), take_app_length' by by rewrite length_to_bits.
  replace (word (N.shiftr x (N.of_nat k))) with (to_bits (k + (32 - k)) (N.shiftr x (N.of_nat k))) by (f_equal; lia).
  rewrite (to_bits_split k (32 - k)). f_equal. apply replicate_as_Forall. split; [apply length_to_bits|].
  apply Forall_fmap, Forall_forall. intros i [_ Hi]%elem_of_seq. cbn. symmetry. bitwise.
  apply (testbit_above 32); [done|]. lia.
Qed.

Lemma Ch_word x y z : Ch (word x) (word y) (word z) = word (choose x y z).
Proof.
  unfold Ch, to_bits. rewrite !zip_with_fmaps. apply list_fmap_ext. intros j i [-> Hj]%lookup_seq. cbn beta.
  unfold choose, complement. bitwise.
  assert (H1 : N.testbit 0xffffffff (N.of_nat (32 - 1 - (0 + j))) = true) by (apply (N.ones_spec_low 32); lia).
  rewrite H1. by destruct (N.testbit x _), (N.testbit y _), (N.testbit z _).
Qed.

Lemma Maj_word x y z : Maj (word x) (word y) (word z) = word (majority x y z).
Proof.
  unfold Maj, to_bits. rewrite !zip_with_fmaps. apply list_fmap_ext. intros j i _. cbn beta.
  unfold majority. bitwise. by destruct (N.testbit x _), (N.testbit y _), (N.testbit z _).
Qed.

Section sigma.
Context (x : N) (Hx : (x < 2 ^ 32)%N).

Lemma Sigma0_word : Sigma0 (word x) = word (big_sigma0 x).
Proof. unfold Sigma0. rewrite !ROTR_word, !xor_word by (done || lia). done. Qed.
Lemma Sigma1_word : Sigma1 (word x) = word (big_sigma1 x).
Proof. unfold Sigma1. rewrite !ROTR_word, !xor_word by (done || lia). done. Qed.
Lemma sigma0_word : sigma0 (word x) = word (small_sigma0 x).
Proof. unfold sigma0. rewrite !ROTR_word, SHR_word, !xor_word by (done || lia). done. Qed.
Lemma sigma1_word : sigma1 (word x) = word (small_sigma1 x).
Proof. unfold sigma1. rewrite !ROTR_word, SHR_word, !xor_word by (done || lia). done. Qed.
End sigma.

(** ** The constants *)

Lemma round_constants_standard : word <$> round_constants = K.
Proof. vm_compute. reflexivity. Qed.

(** The variables of a state of the code. *)
Definition variables_in (r : registers) : variables :=
  Variables (word (a r)) (word (b r)) (word (c r)) (word (d r))
    (word (e r)) (word (f r)) (word (g r)) (word (h r)).

Lemma initial_state_standard : words_of (variables_in initial_state) = H0.
Proof. vm_compute. reflexivity. Qed.

(** ** The bytes of a block *)

Lemma octets_cons v l : octets (v :: l) = to_bits 8 v ++ octets l.
Proof. done. Qed.

Lemma octets_app l1 l2 : octets (l1 ++ l2) = octets l1 ++ octets l2.
Proof. unfold octets. by rewrite fmap_app, concat_app. Qed.

Lemma length_octets l : length (octets l) = 8 * length l.
Proof.
  induction l as [|v l IH]; [done|]. rewrite octets_cons, length_app, length_to_bits, IH. cbn [length]. lia.
Qed.

Lemma take_octets n l : take (8 * n) (octets l) = octets (take n l).
Proof.
  revert n. induction l as [|v l IH]; intros [|n]; try (by rewrite ?take_nil).
  change (take (S n) (v :: l)) with (v :: take n l). rewrite !octets_cons, <-IH. replace (8 * S n) with (length (to_bits 8 v) + 8 * n) by (rewrite length_to_bits; lia).
  by rewrite take_app_add.
Qed.

Lemma drop_octets n l : drop (8 * n) (octets l) = octets (drop n l).
Proof.
  revert n. induction l as [|v l IH]; intros [|n]; try (by rewrite ?drop_nil).
  change (drop (S n) (v :: l)) with (drop n l). rewrite octets_cons, <-IH. replace (8 * S n) with (length (to_bits 8 v) + 8 * n) by (rewrite length_to_bits; lia).
  by rewrite drop_app_add.
Qed.

Lemma pieces_octets k l : pieces (8 * k) (octets l) = octets <$> pieces k l.
Proof.
  unfold pieces. rewrite length_octets, Nat.Div0.div_mul_cancel_l by lia. rewrite <-list_fmap_compose.
  apply list_fmap_ext. intros _ i _. unfold compose.
  by rewrite <-take_octets, <-drop_octets, Nat.mul_assoc.
Qed.

(** The first bytes of a word are its high ones. *)
Lemma octets_high count v :
  to_bits (8 * count) v = octets ((λ i, N.shiftr v (N.of_nat (8 * (count - 1 - i)))) <$> seq 0 count).
Proof.
  induction count as [|n IH]; [done|]. replace (8 * S n) with (8 + 8 * n) by lia.
  rewrite to_bits_split, IH. cbn [seq fmap list_fmap]. rewrite octets_cons. f_equal; [do 3 f_equal; lia|].
  rewrite <-fmap_S_seq, <-list_fmap_compose. f_equal. apply list_fmap_ext. intros _ i _. cbn [compose]. do 2 f_equal. lia.
Qed.

Lemma octets_ext l1 l2 : Forall2 (λ x y, x mod 256 = y mod 256)%N l1 l2 → octets l1 = octets l2.
Proof.
  induction 1 as [|x y l1 l2 Hxy _ IH]; [done|]. rewrite !octets_cons, IH. f_equal.
  rewrite <-(to_bits_mod 8 x 256), Hxy by done. by apply to_bits_mod.
Qed.

(** ** The schedule *)

Lemma take_at_index l j k : j + k <= length l → take k (drop j l) = (λ i, at_index l (j + i)) <$> seq 0 k.
Proof.
  revert j. induction k as [|k IH]; intros j Hl; [done|].
  destruct (lookup_lt_is_Some_2 l j) as [x Hx]; [lia|]. rewrite (drop_S l x j Hx). cbn [take seq fmap list_fmap].
  f_equal; [unfold at_index; by rewrite Nat.add_0_r, Hx|].
  rewrite IH by lia. rewrite <-fmap_S_seq, <-list_fmap_compose. apply list_fmap_ext.
  intros _ i _. unfold compose. f_equal. lia.
Qed.

Definition octet_list (l : list N) : Prop := Forall (λ v, (v < 256)%N) l.

Lemma at_index_octet l i : octet_list l → (at_index l i < 2 ^ 8)%N.
Proof.
  intros Hl. unfold at_index. destruct (l !! i) as [v|] eqn:Hv; [|done]. exact (Forall_lookup_1 _ _ _ _ Hl Hv).
Qed.

Ltac byte_of_word :=
  apply to_bits_ext; intros i Hi; bitwise;
  repeat match goal with |- context [N.testbit (N.shiftl ?x ?n) ?j] =>
           first [rewrite (N.shiftl_spec_high' x n j) by lia | rewrite (N.shiftl_spec_low x n j) by lia] end;
  repeat match goal with H : (?x < 2 ^ 8)%N |- context [N.testbit ?x ?j] =>
           rewrite (testbit_above 8 x j H) by lia end;
  rewrite ?orb_false_r, ?orb_false_l; f_equal; lia.

Lemma block_word_octets block t : octet_list block →
  word (block_word block t) = octets ((λ i, at_index block (4 * t + i)) <$> seq 0 4).
Proof.
  intros Hb. change (word (block_word block t)) with (to_bits (8 * 4) (block_word block t)).
  rewrite octets_high. unfold block_word. rewrite (Nat.mul_comm t 4).
  cbn [seq fmap list_fmap]. rewrite !octets_cons, Nat.add_0_r. set (j := 4 * t). clearbody j.
  pose proof (λ i, at_index_octet block i Hb) as Hi. pose proof (Hi j). pose proof (Hi (j + 1)).
  pose proof (Hi (j + 2)). pose proof (Hi (j + 3)). clear Hi.
  do 4 (apply f_equal2; [byte_of_word|]). done.
Qed.

Lemma below_bits k n : (∀ i, (k <= i)%N → N.testbit n i = false) → (n < 2 ^ k)%N.
Proof.
  intros Hn. assert (E : n = (n mod 2 ^ k)%N).
  { apply N.bits_inj. intros i. destruct (N.lt_ge_cases i k) as [Hi|Hi].
    - by rewrite N.mod_pow2_bits_low.
    - rewrite N.mod_pow2_bits_high by done. by apply Hn. }
  rewrite E. apply N.mod_lt, N.pow_nonzero. done.
Qed.

Lemma block_word_lt block t : octet_list block → (block_word block t < 2 ^ 32)%N.
Proof.
  intros Hb. apply below_bits. intros i Hi. unfold block_word. bitwise.
  pose proof (λ i, at_index_octet block i Hb) as Ho.
  rewrite !N.shiftl_spec_high' by lia. rewrite !(testbit_above 8) by (apply Ho || lia). done.
Qed.

Lemma block_words block t : octet_list block → length block = 64 → t < 16 →
  word_at (pieces 32 (octets block)) t = word (block_word block t).
Proof.
  intros Hb Hl Ht. change 32 with (8 * 4) at 1. rewrite pieces_octets, block_word_octets by done.
  unfold word_at, pieces. rewrite Hl, !list_lookup_fmap, lookup_seq_lt by done. cbn [fmap option_fmap option_map default].
  unfold id. by rewrite take_at_index by lia.
Qed.

Lemma at_index_last l x : at_index (l ++ [x]) (length l) = x.
Proof. unfold at_index. by rewrite lookup_app_r, Nat.sub_diag. Qed.

Lemma at_index_app l1 l2 i : i < length l1 → at_index (l1 ++ l2) i = at_index l1 i.
Proof. intros Hi. unfold at_index. by rewrite lookup_app_l. Qed.

(** The words made so far are those of the standard. *)
Definition scheduled (M : list bits) (schedule : list N) : Prop :=
  ∀ t, t < length schedule → (at_index schedule t < 2 ^ 32)%N ∧ word (at_index schedule t) = W M t.

Lemma extend_scheduled M count schedule : 16 <= length schedule → scheduled M schedule →
  scheduled M (extend_schedule count schedule) ∧ length (extend_schedule count schedule) = length schedule + count.
Proof.
  revert schedule. induction count as [|count IH]; intros schedule Hl Hs; [split; [done|cbn; lia]|].
  cbn [extend_schedule]. set (next := w32 _). destruct (IH (schedule ++ [next])) as [H1 H2].
  - rewrite length_app. cbn. lia.
  - intros t Ht. rewrite length_app in Ht. cbn [length] in Ht.
    destruct (decide (t = length schedule)) as [->|Hne].
    + rewrite at_index_last. split; [apply w32_lt|].
      unfold next. rewrite word_w32, W_equation. destruct (Nat.ltb_spec (length schedule) 16); [lia|].
      assert (Hat : ∀ k, 0 < k → k <= 16 → (at_index schedule (length schedule - k) < 2 ^ 32)%N ∧
                    word (at_index schedule (length schedule - k)) = W M (length schedule - k)).
      { intros k Hk Hk'. apply Hs. lia. }
      destruct (Hat 2 ltac:(lia) ltac:(lia)) as [B2 E2], (Hat 7 ltac:(lia) ltac:(lia)) as [B7 E7],
        (Hat 15 ltac:(lia) ltac:(lia)) as [B15 E15], (Hat 16 ltac:(lia) ltac:(lia)) as [B16 E16].
      rewrite <-E2, <-E7, <-E15, <-E16. clear E2 E7 E15 E16. by rewrite sigma0_word, sigma1_word, !add_words by done.
    + rewrite at_index_app by lia. apply Hs. lia.
  - split; [done|]. rewrite H2, length_app. cbn. lia.
Qed.

Lemma make_schedule_scheduled block : octet_list block → length block = 64 →
  scheduled (pieces 32 (octets block)) (make_schedule block) ∧ length (make_schedule block) = 64.
Proof.
  intros Hb Hl. unfold make_schedule. apply (extend_scheduled _ 48); [done|].
  intros t Ht. rewrite length_fmap, length_seq in Ht. unfold at_index.
  rewrite list_lookup_fmap, lookup_seq_lt by done. cbn [fmap option_fmap option_map default].
  split; [by apply block_word_lt|]. rewrite W_equation, block_words by done.
  destruct (Nat.ltb_spec t 16); [done|lia].
Qed.

(** ** The rounds and the transform *)

(** The variables that are rotated are words. *)
Definition rotatable (r : registers) : Prop := (a r < 2 ^ 32)%N ∧ (e r < 2 ^ 32)%N.

Lemma word_sum x y : word (w32 (w32 x + w32 y)) = word (x + y).
Proof. by rewrite word_w32, <-add_words, !word_w32, add_words. Qed.

Lemma word_sum_r x y : word (w32 (x + w32 y)) = word (x + y).
Proof. by rewrite word_w32, <-add_words, !word_w32, add_words. Qed.

Lemma step_round M t r constant w : rotatable r → word_at K t = word constant → W M t = word w →
  step M (variables_in r) t = variables_in (round r constant w) ∧ rotatable (round r constant w).
Proof.
  intros [Ha He] Hk Hw. split; [|split; apply w32_lt]. destruct r as [ra rb rc rd re rf rg rh].
  cbn [a b c d e f g h] in Ha, He. unfold step, variables_in, round. cbn [a b c d e f g h]. rewrite Hk, Hw.
  rewrite (Sigma0_word ra Ha), (Sigma1_word re He), Ch_word, Maj_word.
  rewrite !add_words.
  rewrite word_sum, word_sum_r. reflexivity.
Qed.

Lemma foldl_rounds M r l : rotatable r →
  (∀ t k w, (t, (k, w)) ∈ l → word_at K t = word k ∧ W M t = word w) →
  foldl (step M) (variables_in r) l.*1 = variables_in (foldl (λ r '(k, w), round r k w) r l.*2).
Proof.
  revert r. induction l as [|[t [k w]] l IH]; intros r Hr Hl; [done|]. cbn [fmap list_fmap foldl fst snd].
  destruct (Hl t k w) as [Hk Hw]; [left|]. destruct (step_round M t r k w Hr Hk Hw) as [-> Hr'].
  apply IH; [done|]. intros t' k' w' Hin. apply Hl. by right.
Qed.

Lemma K_word t k : round_constants !! t = Some k → word_at K t = word k.
Proof. intros Hk. rewrite <-round_constants_standard. unfold word_at. by rewrite list_lookup_fmap, Hk. Qed.

Lemma rounds_standard block r : octet_list block → length block = 64 → rotatable r →
  foldl (step (pieces 32 (octets block))) (variables_in r) (seq 0 64) =
  variables_in (foldl (λ r '(k, w), round r k w) r (zip round_constants (make_schedule block))).
Proof.
  intros Hb Hl Hr. destruct (make_schedule_scheduled block Hb Hl) as [Hs Hn].
  set (schedule := make_schedule block) in *. clearbody schedule.
  set (M := pieces 32 (octets block)) in *. clearbody M.
  assert (Hz : length (zip round_constants schedule) = 64) by (rewrite length_zip_with, Hn; done).
  assert (H64 : length (seq 0 64) = length (zip round_constants schedule)) by by rewrite Hz.
  rewrite <-(fst_zip (seq 0 64) (zip round_constants schedule)) at 1 by lia.
  rewrite (foldl_rounds M r); [by rewrite snd_zip by lia|done|].
  intros t k w (i & Hi)%list_elem_of_lookup. apply lookup_zip_with_Some in Hi as (t' & kw & [= <- <-] & Ht & Hkw).
  apply lookup_seq in Ht as [-> Ht]. apply lookup_zip_with_Some in Hkw as (k' & w' & [= <- <-] & Hk & Hw).
  rewrite Nat.add_0_l. split; [by apply K_word|]. destruct (Hs i) as [_ <-]; [lia|]. unfold at_index. by rewrite Hw.
Qed.

(** One block of the code is one block of the standard. *)
Lemma transform_compress block r : octet_list block → length block = 64 → rotatable r →
  compress (words_of (variables_in r)) (octets block) = words_of (variables_in (transform r block)) ∧
  rotatable (transform r block).
Proof.
  intros Hb Hl Hr. split; [|split; apply w32_lt]. unfold compress, transform.
  change (variables_of (words_of (variables_in r))) with (variables_in r). rewrite rounds_standard by done.
  set (r' := foldl _ _ _). clearbody r'. unfold words_of, variables_in. cbn [a b c d e f g h zip_with].
  rewrite !add_words, !word_w32. by rewrite (N.add_comm (a r')), (N.add_comm (b r')), (N.add_comm (c r')),
    (N.add_comm (d r')), (N.add_comm (e r')), (N.add_comm (f r')), (N.add_comm (g r')), (N.add_comm (h r')).
Qed.

Lemma foldl_transform r l : rotatable r → Forall (λ block, octet_list block ∧ length block = 64) l →
  foldl compress (words_of (variables_in r)) (octets <$> l) = words_of (variables_in (foldl transform r l)).
Proof.
  intros Hr Hl. revert r Hr. induction Hl as [|block l [Hb Hn] _ IH]; intros r Hr; [done|].
  cbn [fmap list_fmap foldl]. destruct (transform_compress block r Hb Hn Hr) as [-> Hr']. by apply IH.
Qed.

(** ** The padding and the digest *)

Lemma blocks_pieces count l :
  blocks count l = (λ i, take 64 (drop (64 * i) l)) <$> seq 0 count.
Proof.
  revert l. induction count as [|count IH]; intros l; [done|]. cbn [blocks seq fmap list_fmap].
  f_equal. rewrite IH, <-fmap_S_seq, <-list_fmap_compose. apply list_fmap_ext.
  intros _ i _. unfold compose. rewrite drop_drop. do 2 f_equal. lia.
Qed.

Lemma blocks_forall l k : octet_list l → length l = 64 * k →
  Forall (λ block, octet_list block ∧ length block = 64) (blocks k l).
Proof.
  revert l. induction k as [|k IH]; intros l Hl Hn; [done|]. cbn [blocks]. constructor.
  - split; [by apply Forall_take|]. rewrite length_take. lia.
  - apply IH; [by apply Forall_drop|]. rewrite length_drop. lia.
Qed.

Lemma length_bytes_octets n : octets (length_bytes n) = to_bits 64 n.
Proof.
  change (to_bits 64 n) with (to_bits (8 * 8) n). rewrite octets_high. apply octets_ext. cbn.
  repeat constructor; rewrite w8_mod; apply N.Div0.mod_mod.
Qed.

Lemma word_bytes_octets n : octets (word_bytes n) = word n.
Proof.
  change (word n) with (to_bits (8 * 4) n). rewrite octets_high. apply octets_ext. cbn.
  repeat constructor; change (N.land ?x 255) with (w8 x); rewrite w8_mod; apply N.Div0.mod_mod.
Qed.

Lemma zeros_octets n : zeros (8 * n) = 7 + 8 * ((119 - n mod 64) mod 64).
Proof.
  unfold zeros. change 512 with (8 * 64). rewrite Nat.Div0.mul_mod_distr_l.
  pose proof (Nat.mod_upper_bound n 64). set (m := n mod 64) in *. clearbody m.
  replace (448 + 511 - 8 * m) with (7 + 8 * (119 - m)) by lia.
  pose proof (Nat.div_mod_eq (119 - m) 64) as Hd. pose proof (Nat.mod_upper_bound (119 - m) 64).
  symmetry. apply (Nat.mod_unique _ _ ((119 - m) / 64)); lia.
Qed.

(** The padded bytes are the padded bits. *)
Lemma pad_octets message : padded (octets message) = octets (pad message).
Proof.
  unfold padded, pad. rewrite !octets_app, length_octets, length_bytes_octets, zeros_octets. f_equal.
  change (octets [0x80]%N) with ([true] ++ replicate 7 false). rewrite replicate_add, <-!app_assoc. do 2 f_equal.
  apply f_equal2.
  - set (k := (119 - _) mod 64). clearbody k. induction k as [|k IH]; [done|].
    replace (8 * S k) with (8 + 8 * k) by lia. rewrite replicate_add, IH. done.
  - rewrite w64_mod, to_bits_mod by done. f_equal. lia.
Qed.

Lemma length_pad message : ∃ k, length (pad message) = 64 * k.
Proof.
  unfold pad. rewrite !length_app, length_replicate, length_length_bytes. cbn [length].
  pose proof (zeros_spec (8 * length message)) as [Hz _]. rewrite zeros_octets in Hz.
  set (z := (119 - _) mod 64) in *. clearbody z.
  pose proof (Nat.div_mod_eq (8 * length message + 1 + (7 + 8 * z)) 512). 
  exists ((8 * length message + 1 + (7 + 8 * z)) / 512 + 1). lia.
Qed.

Lemma pad_octet_list message : octet_list message → octet_list (pad message).
Proof.
  intros Hm. unfold pad. repeat apply Forall_app_2; [done|by repeat constructor|by apply Forall_replicate|].
  apply Forall_fmap, Forall_true. intros i. apply w8_lt.
Qed.

Lemma digest_octets r : octets (digest r) = concat (words_of (variables_in r)).
Proof.
  unfold digest, words_of, variables_in. cbn [fmap list_fmap concat].
  rewrite !octets_app, !word_bytes_octets. done.
Qed.

Lemma digest_octet_list r : octet_list (digest r) ∧ length (digest r) = 32.
Proof.
  split; [|done]. unfold digest, octet_list.
  apply Forall_concat. repeat (apply Forall_cons_2; [apply Forall_fmap, Forall_true; intros i; apply w8_lt|]). by apply Forall_nil_2.
Qed.

(** C32: the streaming hash of any content is the thirty-two bytes whose bits are the
    SHA-256 of FIPS 180-4 of the bits of the content. *)
Theorem hash_source_content_is_sha256 bytes :
  Forall (λ v, (v < 256)%N) bytes →
  octets (hash_source_content bytes) = SHA256 (octets bytes) ∧
  length (hash_source_content bytes) = 32 ∧ Forall (λ v, (v < 256)%N) (hash_source_content bytes).
Proof.
  intros Hb. rewrite hash_source_content_blockwise. unfold blockwise.
  destruct (digest_octet_list (absorb initial_state (pad bytes))) as [Ho Hn]. split; [|done].
  rewrite digest_octets. unfold SHA256, absorb. f_equal.
  rewrite pad_octets. change 512 with (8 * 64). rewrite pieces_octets, <-initial_state_standard.
  destruct (length_pad bytes) as [k Hk]. pose proof (pad_octet_list bytes Hb) as Hp.
  set (l := pad bytes) in *. clearbody l. unfold pieces. rewrite <-blocks_pieces.
  symmetry. apply foldl_transform; [done|]. apply blocks_forall; [done|]. rewrite Hk.
  rewrite (Nat.mul_comm 64 k), Nat.div_mul; lia.
Qed.

(** The bits of "abc" and of its published digest. *)
Lemma hash_source_content_is_sha256_witness :
  SHA256 (octets [97; 98; 99]%N) =
  octets [0xba; 0x78; 0x16; 0xbf; 0x8f; 0x01; 0xcf; 0xea; 0x41; 0x41; 0x40; 0xde; 0x5d; 0xae; 0x22; 0x23;
          0xb0; 0x03; 0x61; 0xa3; 0x96; 0x17; 0x7a; 0x9c; 0xb4; 0x10; 0xff; 0x61; 0xf2; 0x00; 0x15; 0xad]%N.
Proof.
  rewrite <-sha256_abc. symmetry. apply (hash_source_content_is_sha256 [97; 98; 99]%N).
  repeat constructor.
Defined.

End Sha256Theorems.
