(* ===== verification/Lexer.v ===== *)
(** * The lexer

    Models server_engine/project/parser/token.hpp and lexer.{hpp,cpp}.  Source bytes are [N];
    the loop state is the index, the text from there on (which is only read forwards), the
    line and directive flags and the two output vectors.  One [step] is one turn of the main
    loop.  Allocation is the environment: [tokens_fit n] and [directives_fit n] say whether
    the vector can grow to [n] elements, [can_emit] whether the diagnostic can be recorded.
    The second half gives the lexical grammar as a relation and shows the loop decides it. *)

From S2P Require Import Prelude.

Local Open Scope N_scope.

Module Lexer.

(** ** Tokens *)

Inductive parser_token_kind : Set :=
| eof | identifier | integer_literal | keyword_namespace | keyword_enum | keyword_class
| keyword_struct | keyword_union | string_literal | punctuation | character_literal.

#[export] Instance parser_token_kind_eq_dec : EqDecision parser_token_kind.
Proof. solve_decision. Defined.

Inductive parser_punctuation : Set :=
| none | left_brace | right_brace | left_bracket | right_bracket | semicolon | colon | comma
| dot | equal | plus | minus | hash | ampersand | ampersand_ampersand | asterisk
| left_parenthesis | right_parenthesis | less | greater | bang | percent | caret | pipe
| tilde | question | slash.

#[export] Instance parser_punctuation_eq_dec : EqDecision parser_punctuation.
Proof. solve_decision. Defined.

Record parser_token : Set := Token {
  token_offset : N; token_length : N; token_kind : parser_token_kind;
  token_punctuation : parser_punctuation; token_flags : N }.

Record directive_span : Set := DirectiveSpan { token_begin : N; token_end : N }.

(** The part of a diagnostic that depends on the text. *)
Record diagnostic : Set := Diagnostic { range_offset : N; range_length : N; detail : string }.

(** ** Characters *)

Definition identifier_start (value : N) : bool :=
  ((97 <=? value) && (value <=? 122)) || ((65 <=? value) && (value <=? 90)) || (value =? 95).

Definition decimal_digit (value : N) : bool := (48 <=? value) && (value <=? 57).

Definition identifier_char (value : N) : bool := identifier_start value || decimal_digit value.

Definition blank (value : N) : bool :=
  (value =? 32) || (value =? 9) || (value =? 13) || (value =? 12) || (value =? 11).

Definition word_namespace : list N := [110; 97; 109; 101; 115; 112; 97; 99; 101].
Definition word_enum : list N := [101; 110; 117; 109].
Definition word_class : list N := [99; 108; 97; 115; 115].
Definition word_struct : list N := [115; 116; 114; 117; 99; 116].
Definition word_union : list N := [117; 110; 105; 111; 110].

Definition identifier_kind (text : list N) : parser_token_kind :=
  if bool_decide (text = word_namespace) then keyword_namespace
  else if bool_decide (text = word_enum) then keyword_enum
  else if bool_decide (text = word_class) then keyword_class
  else if bool_decide (text = word_struct) then keyword_struct
  else if bool_decide (text = word_union) then keyword_union
  else identifier.

(** The one-character cases of the switch; [&] is looked at apart. *)
Definition punctuation_of (character : N) : option parser_punctuation :=
  match character with
  | 123 => Some left_brace | 125 => Some right_brace
  | 91 => Some left_bracket | 93 => Some right_bracket
  | 59 => Some semicolon | 58 => Some colon | 44 => Some comma | 46 => Some dot
  | 61 => Some equal | 43 => Some plus | 45 => Some minus | 35 => Some hash
  | 42 => Some asterisk | 40 => Some left_parenthesis | 41 => Some right_parenthesis
  | 60 => Some less | 62 => Some greater | 33 => Some bang | 37 => Some percent
  | 94 => Some caret | 124 => Some pipe | 126 => Some tilde | 63 => Some question
  | 47 => Some slash
  | _ => None
  end.

(** ** The inner loops: how far each one moves the index *)

Fixpoint count_while (p : N → bool) (text : list N) : nat :=
  match text with
  | c :: text' => if p c then S (count_while p text') else 0
  | [] => 0
  end.

(** The loop of a block comment after its opener: the distance behind the closer and the
    line flag, or nothing when the text ends first. *)
Fixpoint block_comment (text : list N) (line_start : bool) : option (nat * bool) :=
  match text with
  | c :: ((d :: _) as text') =>
      let line_start := if c =? 10 then true else line_start in
      if (c =? 42) && (d =? 47) then Some (2%nat, line_start)
      else match block_comment text' line_start with
           | Some (n, line_start) => Some (S n, line_start)
           | None => None
           end
  | _ => None
  end.

(** The loop of a string or character literal after its opening quote. *)
Fixpoint literal_loop (quote : N) (text : list N) : nat :=
  match text with
  | c :: text' =>
      if negb (c =? quote) && negb (c =? 10) then
        match text' with
        | _ :: text'' => if c =? 92 then S (S (literal_loop quote text'')) else S (literal_loop quote text')
        | [] => S (literal_loop quote text')
        end
      else 0
  | [] => 0
  end.

Definition starts_with (c : N) (text : list N) : bool :=
  match text with d :: _ => d =? c | [] => false end.

(** A token read from the text: its length, kind and punctuation; or the length and the
    detail of the diagnostic. *)
Definition scanned : Type := (nat * parser_token_kind * parser_punctuation) + (nat * string).

Definition scan_literal (quote : N) (kind : parser_token_kind) (message : string) (text : list N) : scanned :=
  let n := literal_loop quote text in
  if starts_with quote (drop n text) then inl (S (S n), kind, none) else inr (S n, message).

Definition scan_token (text : list N) : scanned :=
  match text with
  | [] => inr (0%nat, EmptyString)
  | character :: text' =>
      if identifier_start character then
        let n := S (count_while identifier_char text') in
        inl (n, identifier_kind (take n text), none)
      else if decimal_digit character then
        inl (S (count_while decimal_digit text'), integer_literal, none)
      else if character =? 34 then
        scan_literal 34 string_literal "unterminated string literal" text'
      else if character =? 39 then
        scan_literal 39 character_literal "unterminated character literal" text'
      else if character =? 38 then
        if starts_with 38 text' then inl (2%nat, punctuation, ampersand_ampersand)
        else inl (1%nat, punctuation, ampersand)
      else match punctuation_of character with
           | Some p => inl (1%nat, punctuation, p)
           | None => inr (1%nat, "unsupported lexical character"%string)
           end
  end.

(** ** The main loop *)

Record lexer : Set := LexerState {
  index : N; rest : list N; line_start : bool;
  directive_open : bool; directive_begin : N;
  output : list parser_token; directives : list directive_span }.

Definition move (n : nat) (s : lexer) : lexer :=
  LexerState (index s + N.of_nat n) (drop n (rest s)) (line_start s) (directive_open s)
    (directive_begin s) (output s) (directives s).

Definition set_line_start (b : bool) (s : lexer) : lexer :=
  LexerState (index s) (rest s) b (directive_open s) (directive_begin s) (output s) (directives s).

Definition lexed : Type := status_code * list parser_token * list directive_span * list diagnostic.

Section lex.
Context (tokens_fit directives_fit : nat → bool) (can_emit : bool).

(** [directives != nullptr]. *)
Context (wanted : bool).

(** The catch blocks. *)
Definition out_of_memory : lexed := (not_available, [], [], []).

Definition fail (s : lexer) (offset : N) (length : N) (message : string) : lexed :=
  if can_emit
  then (configuration_failed, output s, directives s, [Diagnostic (w32 offset) (w32 length) message])
  else (not_available, output s, directives s, []).

(** [directives->push_back] of the open directive, where it is wanted. *)
Definition close_directive (s : lexer) : lexer + lexed :=
  if directive_open s && wanted then
    if directives_fit (S (length (directives s))) then
      inl (LexerState (index s) (rest s) (line_start s) (directive_open s) (directive_begin s) (output s)
        (directives s ++ [DirectiveSpan (directive_begin s) (w32 (N.of_nat (length (output s))))]))
    else inr out_of_memory
  else inl s.

Definition newline (s : lexer) : lexer + lexed :=
  match close_directive s with
  | inl s => inl (move 1 (LexerState (index s) (rest s) true false (directive_begin s) (output s) (directives s)))
  | inr r => inr r
  end.

(** From [token.length] on: open a directive, append the token. *)
Definition push_token (s : lexer) (n : nat) (kind : parser_token_kind) (p : parser_punctuation) : lexer + lexed :=
  let token := Token (w32 (index s)) (w32 (N.of_nat n)) kind p (if line_start s then 1 else 0) in
  let opens := bool_decide (p = hash) && line_start s && wanted in
  if tokens_fit (S (length (output s))) then
    inl (LexerState (index s + N.of_nat n) (drop n (rest s)) false
      (if opens then true else directive_open s)
      (if opens then w32 (N.of_nat (length (output s))) else directive_begin s)
      (output s ++ [token]) (directives s))
  else inr out_of_memory.

Definition step (s : lexer) : lexer + lexed :=
  match rest s with
  | [] => inl s
  | character :: text =>
      if blank character then inl (move 1 s)
      else if character =? 10 then newline s
      else if (character =? 47) && starts_with 47 text then
        inl (move (2 + count_while (λ c, negb (c =? 10)) (drop 1 text)) s)
      else if (character =? 47) && starts_with 42 text then
        match block_comment (drop 1 text) (line_start s) with
        | Some (n, line_start) => inl (move (2 + n) (set_line_start line_start s))
        | None => inr (fail s (index s) (N.of_nat (length (rest s))) "unterminated block comment")
        end
      else match scan_token (rest s) with
           | inl (n, kind, p) => push_token s n kind p
           | inr (n, message) => inr (fail s (index s) (N.of_nat n) message)
           end
  end.

(** Behind the loop: the last directive and the end token. *)
Definition finish (s : lexer) : lexed :=
  match close_directive s with
  | inl s =>
      if tokens_fit (S (length (output s)))
      then (ok, output s ++ [Token (w32 (index s)) 0 eof none 0], directives s, [])
      else out_of_memory
  | inr r => r
  end.

(** Each turn shortens the text, so its length is fuel enough. *)
Fixpoint lex_loop (fuel : nat) (s : lexer) : option lexed :=
  match rest s with
  | [] => Some (finish s)
  | _ =>
      match fuel with
      | O => None
      | S fuel' =>
          match step s with
          | inl s' => lex_loop fuel' s'
          | inr r => Some r
          end
      end
  end.

Definition initial (text : list N) : lexer := LexerState 0 text true false 0 [] [].

(** No source is an empty snapshot. *)
Definition lex_source (source : option (list N)) : option lexed :=
  match source with
  | None => Some (invalid_argument, [], [], [])
  | Some text =>
      if 0xffffffff <? N.of_nat (length text)
      then Some (fail (initial text) 0 0 "Source exceeds 32-bit token range")
      else lex_loop (length text) (initial text)
  end.

End lex.

(** ** The lexical grammar *)

Definition ends (p : N → bool) (follow : list N) : Prop :=
  match follow with c :: _ => p c = false | [] => True end.

(** One piece of white space or comment, and what may follow it. *)
Inductive trivia : list N → list N → Prop :=
| trivia_blank c follow : blank c = true → trivia [c] follow
| trivia_newline follow : trivia [10] follow
| trivia_line body follow :
    10 ∉ body → ends (λ c, negb (c =? 10)) follow → trivia (47 :: 47 :: body) follow
| trivia_block body follow :
    (∀ l r, body ≠ l ++ 42 :: 47 :: r) → trivia (47 :: 42 :: body ++ [42; 47]) follow.

(** The inside of a literal: no quote and no end of line unless escaped. *)
Inductive literal (quote : N) : list N → Prop :=
| literal_nil : literal quote []
| literal_char c l : c ≠ quote → c ≠ 10 → c ≠ 92 → literal quote l → literal quote (c :: l)
| literal_escape c l : literal quote l → literal quote (92 :: c :: l).

(** A token's text, as long as it can be for what follows. *)
Inductive word : parser_token_kind → parser_punctuation → list N → list N → Prop :=
| word_identifier c body follow :
    identifier_start c = true → Forall (λ c, identifier_char c = true) body →
    ends identifier_char follow → word (identifier_kind (c :: body)) none (c :: body) follow
| word_integer c body follow :
    decimal_digit c = true → Forall (λ c, decimal_digit c = true) body →
    ends decimal_digit follow → word integer_literal none (c :: body) follow
| word_string body follow :
    literal 34 body → word string_literal none (34 :: body ++ [34]) follow
| word_character body follow :
    literal 39 body → word character_literal none (39 :: body ++ [39]) follow
| word_ampersands follow : word punctuation ampersand_ampersand [38; 38] follow
| word_ampersand follow : ends (λ c, c =? 38) follow → word punctuation ampersand [38] follow
| word_punctuation c p follow :
    punctuation_of c = Some p → (c = 47 → ends (λ c, (c =? 47) || (c =? 42)) follow) →
    word punctuation p [c] follow.

(** The tokens of a text that starts at an offset, at the start of a line or not. *)
Inductive tokenizes : N → bool → list N → list parser_token → Prop :=
| tokenizes_end offset ls : tokenizes offset ls [] [Token offset 0 eof none 0]
| tokenizes_trivia offset ls t follow tokens :
    trivia t follow →
    tokenizes (offset + N.of_nat (length t)) (ls || bool_decide (10 ∈ t)) follow tokens →
    tokenizes offset ls (t ++ follow) tokens
| tokenizes_word offset ls kind p w follow tokens :
    word kind p w follow →
    tokenizes (offset + N.of_nat (length w)) false follow tokens →
    tokenizes offset ls (w ++ follow)
      (Token offset (N.of_nat (length w)) kind p (if ls then 1 else 0) :: tokens).

(** ** The inner loops against the grammar *)

Lemma count_while_spec p text :
  Forall (λ c, p c = true) (take (count_while p text) text) ∧ ends p (drop (count_while p text) text).
Proof.
  induction text as [|c text [IH1 IH2]]; cbn; [done|]. destruct (p c) eqn:Hc; cbn; [|done].
  split; [by constructor|done].
Qed.

Lemma count_while_app p l follow :
  Forall (λ c, p c = true) l → ends p follow → count_while p (l ++ follow) = length l.
Proof.
  induction 1 as [|c l Hc Hl IH]; intros Hf; cbn.
  - destruct follow as [|c f]; cbn in *; [done|]. by rewrite Hf.
  - by rewrite Hc, IH.
Qed.

Lemma count_while_le p text : (count_while p text <= length text)%nat.
Proof. induction text as [|c text IH]; cbn; [done|]. destruct (p c); lia. Qed.

Lemma newline_in c body ls :
  (if c =? 10 then true else ls) || bool_decide (10 ∈ body) = ls || bool_decide (10 ∈ c :: body).
Proof.
  destruct (N.eqb_spec c 10) as [->|Hn].
  - by rewrite (bool_decide_eq_true_2 (10 ∈ 10 :: body)), orb_true_r by set_solver.
  - f_equal. apply bool_decide_ext. set_solver.
Qed.

Lemma block_comment_Some text ls n ls' : block_comment text ls = Some (n, ls') →
  ∃ body follow, text = body ++ 42 :: 47 :: follow ∧ n = (length body + 2)%nat ∧
    (∀ l r, body ≠ l ++ 42 :: 47 :: r) ∧ ls' = ls || bool_decide (10 ∈ body).
Proof.
  revert ls n. induction text as [|c text IH]; intros ls n; cbn [block_comment]; [done|].
  destruct text as [|d text]; [done|].
  destruct (N.eqb_spec c 42) as [->|Hc]; [destruct (N.eqb_spec d 47) as [->|Hd]|]; cbn [andb].
  { intros [= <- <-]. exists [], text. rewrite orb_false_r. split_and!; try done. by intros [] r. }
  all: destruct (block_comment (d :: text) _) as [[n' ls'']|] eqn:Hb; [|done]; intros [= <- <-].
  all: apply IH in Hb as (body & follow & E & -> & Hbody & ->).
  - exists (42 :: body), follow. cbn [app length]. rewrite E. split_and!; [done|lia| |].
    + intros [|x l] r Heq; simplify_eq/=. by eapply Hbody.
    + apply (newline_in 42).
  - exists (c :: body), follow. cbn [app length]. rewrite E. split_and!; [done|lia| |].
    + intros [|x l] r Heq; simplify_eq/=. by eapply Hbody.
    + apply newline_in.
Qed.

Lemma block_comment_app body follow ls : (∀ l r, body ≠ l ++ 42 :: 47 :: r) →
  block_comment (body ++ 42 :: 47 :: follow) ls =
    Some ((length body + 2)%nat, ls || bool_decide (10 ∈ body)).
Proof.
  revert ls. induction body as [|c body IH]; intros ls Hbody; [by rewrite orb_false_r|].
  assert (IH' : ∀ ls, block_comment (body ++ 42 :: 47 :: follow) ls =
    Some ((length body + 2)%nat, ls || bool_decide (10 ∈ body))).
  { intros ls'. apply IH. intros l r ->. by apply (Hbody (c :: l) r). }
  cbn [app block_comment length Nat.add]. destruct (body ++ 42 :: 47 :: follow) as [|d text] eqn:E.
  { by destruct body. }
  rewrite IH', newline_in. destruct (N.eqb_spec c 42) as [->|Hc]; [|done].
  destruct (N.eqb_spec d 47) as [->|Hd]; [|done]. exfalso.
  destruct body as [|d body]; [done|]. cbn in E. simplify_eq. by apply (Hbody [] body).
Qed.


Lemma literal_loop_app quote l follow : quote ≠ 92 → quote ≠ 10 → literal quote l →
  literal_loop quote (l ++ quote :: follow) = length l.
Proof.
  intros Hq Hq'. induction 1 as [|c l H1 H2 H3 Hl IH|c l Hl IH]; cbn [app literal_loop length].
  - by rewrite N.eqb_refl.
  - rewrite (proj2 (N.eqb_neq c quote)), (proj2 (N.eqb_neq c 10)) by done. cbn [negb andb].
    rewrite IH. rewrite (proj2 (N.eqb_neq c 92)) by done. by destruct (l ++ quote :: follow).
  - rewrite (proj2 (N.eqb_neq 92 quote)) by done. cbn. by rewrite IH.
Qed.

Lemma literal_loop_closed quote text : quote ≠ 10 →
  starts_with quote (drop (literal_loop quote text) text) = true →
  ∃ l follow, text = l ++ quote :: follow ∧ literal quote l.
Proof.
  intros Hq. induction text as [text IH] using (induction_ltof1 _ length). unfold ltof in IH.
  destruct text as [|c text]; [done|]. cbn [literal_loop].
  destruct (N.eqb_spec c quote) as [->|Hc]; cbn [negb andb].
  { intros _. exists [], text. split; [done|constructor]. }
  destruct (N.eqb_spec c 10) as [->|Hc10]; cbn [negb].
  { cbn [drop starts_with]. by intros ?%N.eqb_eq. }
  destruct text as [|d text]; [done|].
  destruct (N.eqb_spec c 92) as [->|Hc92]; cbn [drop]; intros Hs.
  - apply IH in Hs as (l & follow & -> & Hl); [|cbn; lia]. exists (92 :: d :: l), follow.
    split; [done|by constructor].
  - apply IH in Hs as (l & follow & E & Hl); [|cbn; lia]. rewrite E. exists (c :: l), follow.
    split; [done|by constructor].
Qed.

(** ** Tokens against the grammar *)

Lemma starts_with_ends c text : ends (λ d, d =? c) text ↔ starts_with c text = false.
Proof. by destruct text. Qed.

Lemma scan_literal_word quote k message text n k' p : quote ≠ 92 → quote ≠ 10 →
  scan_literal quote k message text = inl (n, k', p) →
  ∃ body follow, quote :: text = (quote :: body ++ [quote]) ++ follow ∧ literal quote body ∧
    n = length (quote :: body ++ [quote]) ∧ k' = k ∧ p = none.
Proof.
  intros H1 H2. unfold scan_literal. destruct (starts_with _ _) eqn:Hs; [|done]. intros [= <- <- <-].
  apply literal_loop_closed in Hs as (l & follow & -> & Hl); [|done].
  rewrite literal_loop_app by done. exists l, follow. cbn. rewrite <-app_assoc, length_app. cbn.
  split_and!; try done. lia.
Qed.

Lemma scan_literal_app quote k message body follow : quote ≠ 92 → quote ≠ 10 → literal quote body →
  scan_literal quote k message (body ++ quote :: follow) = inl (S (S (length body)), k, none).
Proof.
  intros H1 H2 Hb. unfold scan_literal. rewrite literal_loop_app, drop_app_length by done.
  cbn. by rewrite N.eqb_refl.
Qed.

(** What a character can be when it starts a token of the last classes. *)
Lemma scan_token_sound text n k p : text ≠ [] →
  (starts_with 47 text = true → starts_with 47 (drop 1 text) = false ∧ starts_with 42 (drop 1 text) = false) →
  scan_token text = inl (n, k, p) →
  ∃ w follow, text = w ++ follow ∧ n = length w ∧ word k p w follow.
Proof.
  destruct text as [|c text]; [done|]. intros _. cbn [starts_with drop]. intros Hslash. unfold scan_token.
  destruct (identifier_start c) eqn:Hid; [|destruct (decimal_digit c) eqn:Hdig].
  - intros [= <- <- <-]. destruct (count_while_spec identifier_char text) as [H1 H2].
    eexists (c :: take (count_while identifier_char text) text), _. split_and!.
    + cbn. by rewrite take_drop.
    + cbn. rewrite length_take. pose proof (count_while_le identifier_char text). lia.
    + by constructor.
  - intros [= <- <- <-]. destruct (count_while_spec decimal_digit text) as [H1 H2].
    eexists (c :: take (count_while decimal_digit text) text), _. split_and!.
    + cbn. by rewrite take_drop.
    + cbn. rewrite length_take. pose proof (count_while_le decimal_digit text). lia.
    + by constructor.
  - destruct (N.eqb_spec c 34) as [->|H34]; [|destruct (N.eqb_spec c 39) as [->|H39]].
    1,2: intros (body & follow & -> & Hb & -> & -> & ->)%scan_literal_word; [|done..]; eexists _, _; by repeat constructor.
    destruct (N.eqb_spec c 38) as [->|H38].
    + destruct text as [|d text]; cbn [starts_with]; [|destruct (N.eqb_spec d 38) as [->|Hd]]; intros [= <- <- <-].
      * exists [38], []. by repeat constructor.
      * exists [38; 38], text. by repeat constructor.
      * exists [38], (d :: text). split_and!; [done..|]. constructor. by apply N.eqb_neq.
    + destruct (punctuation_of c) eqn:Hp; [|done]. intros [= <- <- <-].
      exists [c], text. split_and!; [done..|]. constructor; [done|]. intros ->.
      destruct (Hslash eq_refl) as [H1 H2]. destruct text; [done|]. cbn in *. by rewrite H1, H2.
Qed.

Lemma digit_not_identifier c : decimal_digit c = true → identifier_start c = false.
Proof.
  unfold decimal_digit, identifier_start. intros H. bools.
  destruct (N.leb_spec 97 c), (N.leb_spec 65 c), (N.eqb_spec c 95); cbn; try lia; done.
Qed.

(** A punctuation character is none of the classes tested before. *)
Lemma punctuation_class c p : punctuation_of c = Some p →
  identifier_start c = false ∧ decimal_digit c = false ∧ c ≠ 34 ∧ c ≠ 39 ∧ c ≠ 38 ∧ blank c = false ∧ c ≠ 10.
Proof.
  destruct c as [|q]; [done|].
  do 7 (try (destruct q as [q|q|]); try discriminate); intros _; split_and!; try reflexivity; discriminate.
Qed.

Lemma scan_token_complete k p w follow : word k p w follow →
  scan_token (w ++ follow) = inl (length w, k, p).
Proof.
  intros [c body f Hc Hb Hf|c body f Hc Hb Hf|body f Hb|body f Hb|f|f Hf|c q f Hq Hf]; cbn [app scan_token].
  - rewrite Hc, count_while_app by done. cbn. by rewrite take_app_length.
  - rewrite (digit_not_identifier _ Hc), Hc, count_while_app by done. done.
  - rewrite <-app_assoc. change ([34] ++ f) with (34 :: f). rewrite scan_literal_app by done.
    cbn. rewrite length_app. by rewrite Nat.add_1_r.
  - rewrite <-app_assoc. change ([39] ++ f) with (39 :: f). rewrite scan_literal_app by done.
    cbn. rewrite length_app. by rewrite Nat.add_1_r.
  - done.
  - apply starts_with_ends in Hf. cbn. by rewrite Hf.
  - apply punctuation_class in Hq as Hcls. destruct Hcls as (-> & -> & ?%N.eqb_neq & ?%N.eqb_neq & ?%N.eqb_neq & _).
    by rewrite H, H0, H1, Hq.
Qed.

Lemma literal_loop_cons quote c text : literal_loop quote (c :: text) =
  if negb (c =? quote) && negb (c =? 10) then
    if (c =? 92) && bool_decide (text ≠ []) then S (S (literal_loop quote (drop 1 text)))
    else S (literal_loop quote text)
  else 0%nat.
Proof.
  destruct text as [|d text]; [rewrite bool_decide_eq_false_2, andb_false_r by auto|
    rewrite bool_decide_eq_true_2, andb_true_r by done]; done.
Qed.

Lemma literal_loop_le quote text : (literal_loop quote text <= length text)%nat.
Proof.
  induction text as [text IH] using (induction_ltof1 _ length). unfold ltof in IH.
  destruct text as [|c text]; [done|]. rewrite literal_loop_cons. cbn [length] in *.
  pose proof (IH text ltac:(lia)). pose proof (IH (drop 1 text) ltac:(rewrite length_drop; lia)).
  rewrite length_drop in *. case_match; [|lia]. case_match; [|lia]. bools.
  destruct text; [by case_bool_decide|]. cbn [length drop] in *. lia.
Qed.

Lemma scan_token_error text n message : scan_token text = inr (n, message) → (n <= length text)%nat.
Proof.
  unfold scan_token, scan_literal. destruct text as [|c text]; [by intros [= <- _]|]. cbn [length].
  pose proof (literal_loop_le 34 text). pose proof (literal_loop_le 39 text).
  repeat case_match; intros; simplify_eq; lia.
Qed.

(** The text does not start with white space or a comment. *)
Definition starts_token (text : list N) : Prop :=
  ∃ c text', text = c :: text' ∧ blank c = false ∧ c ≠ 10 ∧
    (c = 47 → starts_with 47 text' = false ∧ starts_with 42 text' = false).

Lemma not_blank_above c : 33 <= c → blank c = false ∧ c ≠ 10.
Proof.
  intros H. split; [|lia]. unfold blank.
  repeat match goal with |- context [?a =? ?b] => destruct (N.eqb_spec a b); [lia|] end. done.
Qed.

Lemma identifier_start_above c : identifier_start c = true → 48 <= c ∧ c ≠ 47.
Proof. unfold identifier_start. intros H. bools. destruct H as [H|H]; bools; [|lia]. destruct H; bools; lia. Qed.

Lemma word_starts_token k p w follow : word k p w follow → starts_token (w ++ follow).
Proof.
  intros [c body f Hc Hb Hf|c body f Hc Hb Hf|body f Hb|body f Hb|f|f Hf|c q f Hq Hf];
    eexists _, _; (split; [reflexivity|]).
  - apply identifier_start_above in Hc as [H1 H2]. pose proof (not_blank_above c ltac:(lia)). naive_solver.
  - unfold decimal_digit in Hc. bools. pose proof (not_blank_above c ltac:(lia)). split_and!; try tauto. lia.
  - by split_and!.
  - by split_and!.
  - by split_and!.
  - by split_and!.
  - apply punctuation_class in Hq as (_ & _ & _ & _ & _ & H1 & H2). split_and!; [done..|].
    intros ->. specialize (Hf eq_refl). destruct f as [|d f]; [done|]. cbn in *. by apply orb_false_iff in Hf.
Qed.

Lemma trivia_nonempty t follow : trivia t follow → t ≠ [].
Proof. by destruct 1. Qed.

Lemma word_nonempty k p w follow : word k p w follow → w ≠ [].
Proof. by destruct 1. Qed.

(** ** One turn of the loop against the grammar *)

Section steps.
Context (directives_fit : nat → bool) (can_emit wanted : bool).
Context (Hdir : ∀ n, directives_fit n = true).

Local Notation lstep := (step (λ _, true) directives_fit can_emit wanted).

Lemma rest_move s n t follow : rest s = t ++ follow → n = length t → rest (move n s) = follow.
Proof. intros Hr ->. cbn. by rewrite Hr, drop_app_length. Qed.

(** A turn on white space or a comment appends nothing. *)
Lemma step_trivia s t follow : rest s = t ++ follow → trivia t follow →
  ∃ s', lstep s = inl s' ∧ rest s' = follow ∧ index s' = index s + N.of_nat (length t) ∧
    line_start s' = line_start s || bool_decide (10 ∈ t) ∧ output s' = output s.
Proof.
  intros Hr Ht. unfold step. rewrite Hr. destruct Ht as [c f Hc|f|body f Hb Hf|body f Hb]; cbn [app].
  - assert (10 ∉ [c]) by by intros <-%list_elem_of_singleton.
    rewrite Hc, (bool_decide_eq_false_2 (10 ∈ [c])), orb_false_r by done. eexists. split; [done|].
    split_and!; try done. by eapply rest_move.
  - change (blank 10) with false. rewrite N.eqb_refl. unfold newline, close_directive. rewrite Hdir.
    rewrite (bool_decide_eq_true_2 (10 ∈ [10])), orb_true_r by set_solver.
    destruct (directive_open s && wanted) eqn:Hopen; eexists; (split; [done|]); split_and!; try done;
      by eapply rest_move.
  - assert (Hn : count_while (λ c, negb (c =? 10)) (body ++ f) = length body).
    { apply count_while_app; [|done]. apply Forall_forall. intros x Hx. apply negb_true_iff, N.eqb_neq. by intros ->. }
    assert (10 ∉ 47 :: 47 :: body) by set_solver.
    rewrite (bool_decide_eq_false_2 (10 ∈ 47 :: 47 :: body)), orb_false_r by done.
    change (blank 47) with false. change (47 =? 10) with false. cbn [starts_with drop]. rewrite !N.eqb_refl. cbn [andb].
    rewrite drop_0, Hn. eexists. split; [done|]. split_and!; try done.
    by eapply rest_move.
  - assert (Hc : block_comment ((body ++ [42; 47]) ++ f) (line_start s) =
      Some ((length body + 2)%nat, line_start s || bool_decide (10 ∈ body))).
    { rewrite <-app_assoc. by apply block_comment_app. }
    change (blank 47) with false. change (47 =? 10) with false. cbn [starts_with drop]. rewrite !N.eqb_refl.
    change (42 =? 47) with false. cbn [andb]. rewrite drop_0, Hc. eexists. split; [done|]. cbn [length]. rewrite length_app.
    split_and!; try done.
    + eapply (rest_move (set_line_start _ s)); [exact Hr|]. cbn. rewrite length_app. done.
    + cbn [move set_line_start line_start]. f_equal. apply bool_decide_ext. set_solver.
Qed.

(** A turn on a token appends it. *)
Lemma step_word s k p w follow : rest s = w ++ follow → word k p w follow →
  ∃ s', lstep s = inl s' ∧ rest s' = follow ∧ index s' = index s + N.of_nat (length w) ∧
    line_start s' = false ∧
    output s' = output s ++
      [Token (w32 (index s)) (w32 (N.of_nat (length w))) k p (if line_start s then 1 else 0)].
Proof.
  intros Hr Hw. pose proof (word_starts_token _ _ _ _ Hw) as (c & text & E & Hc & Hc10 & Hslash).
  pose proof (scan_token_complete _ _ _ _ Hw) as Hscan. unfold step. rewrite Hr, E, Hc.
  rewrite (proj2 (N.eqb_neq c 10) Hc10), <-E, Hscan.
  assert (Hno : ∀ d, d = 47 ∨ d = 42 → (c =? 47) && starts_with d text = false).
  { intros d Hd. destruct (N.eqb_spec c 47) as [->|]; [|done]. destruct (Hslash eq_refl), Hd; by subst. }
  rewrite !Hno by auto. unfold push_token. eexists. split; [done|]. cbn. rewrite Hr, drop_app_length. done.
Qed.

(** A turn that is none of these fails with a diagnostic inside the text. *)
Lemma step_cases s : rest s ≠ [] →
  (∃ t follow, rest s = t ++ follow ∧ trivia t follow) ∨
  (∃ k p w follow, rest s = w ++ follow ∧ word k p w follow) ∨
  (∃ n message, lstep s = inr (fail can_emit s (index s) (N.of_nat n) message) ∧ (n <= length (rest s))%nat).
Proof.
  intros Hne. unfold step. destruct (rest s) as [|c text] eqn:Hr; [done|]. clear Hne.
  destruct (blank c) eqn:Hb; [left; exists [c], text; split; [done|by constructor]|].
  destruct (N.eqb_spec c 10) as [->|H10]; [left; exists [10], text; split; [done|apply trivia_newline]|].
  destruct ((c =? 47) && starts_with 47 text) eqn:Hline.
  { apply andb_true_iff in Hline as [->%N.eqb_eq Hd]. destruct text as [|d text]; [done|].
    cbn [starts_with] in Hd. apply N.eqb_eq in Hd as ->. left.
    destruct (count_while_spec (λ c, negb (c =? 10)) text) as [H1 H2].
    eexists (47 :: 47 :: take (count_while _ text) text), _. split; [cbn; by rewrite take_drop|].
    constructor; [|exact H2]. intros Hin. by eapply Forall_forall in H1; [|exact Hin]. }
  destruct ((c =? 47) && starts_with 42 text) eqn:Hblock.
  { apply andb_true_iff in Hblock as [->%N.eqb_eq Hd]. destruct text as [|d text]; [done|].
    cbn [starts_with] in Hd. apply N.eqb_eq in Hd as ->. cbn [drop]. rewrite drop_0. destruct (block_comment text (line_start s)) as [[n ls]|] eqn:Hbc.
    - apply block_comment_Some in Hbc as (body & follow & -> & -> & Hbody & ->). left.
      exists (47 :: 42 :: body ++ [42; 47]), follow. split; [cbn; by rewrite <-app_assoc|by constructor].
    - right; right. eexists _, _. split; [done|]. done. }
  destruct (scan_token (c :: text)) as [[[n k] p]|[n message]] eqn:Hscan.
  - right; left. apply scan_token_sound in Hscan as (w & follow & E & -> & Hw); [|done|].
    + by exists k, p, w, follow.
    + cbn [starts_with drop]. intros E. rewrite E in Hline, Hblock. done.
  - right; right. eexists _, _. split; [done|]. by eapply scan_token_error.
Qed.

(** ** The whole loop *)

Local Notation lloop := (lex_loop (λ _, true) directives_fit can_emit wanted).

Definition fits32 (s : lexer) : Prop := index s + N.of_nat (length (rest s)) <= 0xffffffff.

Lemma finish_done s : rest s = [] → fits32 s → ∃ dirs,
  finish (λ _, true) directives_fit wanted s = (ok, output s ++ [Token (index s) 0 eof none 0], dirs, []).
Proof.
  intros Hr Hfit. unfold fits32 in Hfit. unfold finish, close_directive. rewrite Hdir.
  destruct (directive_open s && wanted); cbn; rewrite w32_small by (unfold two32; lia); by eexists.
Qed.

Lemma lex_loop_step fuel s s' : rest s ≠ [] → lstep s = inl s' → lloop (S fuel) s = lloop fuel s'.
Proof. intros Hr Hs. cbn. destruct (rest s); [done|]. by rewrite Hs. Qed.

Lemma lex_loop_complete off ls text toks : tokenizes off ls text toks → ∀ s fuel,
  rest s = text → index s = off → line_start s = ls → fits32 s → (length text <= fuel)%nat →
  ∃ dirs, lloop fuel s = Some (ok, output s ++ toks, dirs, []).
Proof.
  induction 1 as [off ls|off ls t follow toks Ht _ IH|off ls k p w follow toks Hw _ IH];
    intros s fuel Hr Hi Hl Hfit Hfuel.
  - destruct (finish_done s Hr Hfit) as [dirs Hd]. exists dirs. rewrite <-Hi, <-Hd. destruct fuel; cbn; by rewrite Hr.
  - destruct (step_trivia s t follow Hr Ht) as (s' & Hs & Hr' & Hi' & Hl' & Ho').
    pose proof (trivia_nonempty _ _ Ht). destruct t as [|c t]; [done|]. unfold fits32 in *.
    rewrite Hr, length_app in Hfit. rewrite length_app in Hfuel. cbn [length] in *. destruct fuel as [|fuel]; [lia|].
    rewrite (lex_loop_step _ _ s'), <-Ho' by by rewrite ?Hr. apply IH; try congruence; [|lia].
    rewrite Hr', Hi'. lia.
  - destruct (step_word s k p w follow Hr Hw) as (s' & Hs & Hr' & Hi' & Hl' & Ho').
    pose proof (word_nonempty _ _ _ _ Hw). destruct w as [|c w]; [done|]. unfold fits32 in *.
    rewrite Hr, length_app in Hfit. rewrite length_app in Hfuel. cbn [length] in *. destruct fuel as [|fuel]; [lia|].
    rewrite (lex_loop_step _ _ s') by by rewrite ?Hr.
    destruct (IH s' fuel) as [dirs Hd]; try congruence; [rewrite Hr', Hi'; lia|lia|].
    exists dirs. rewrite Hd, Ho', <-app_assoc, Hi, Hl. rewrite !w32_small by (unfold two32; lia). done.
Qed.

(** The diagnostic of a failure, inside the text. *)
Definition failed (s : lexer) (r : lexed) : Prop :=
  if can_emit then
    ∃ toks dirs d, r = (configuration_failed, toks, dirs, [d]) ∧ index s <= range_offset d ∧
      range_offset d + range_length d <= index s + N.of_nat (length (rest s))
  else ∃ toks dirs, r = (not_available, toks, dirs, []).

Lemma lex_loop_sound fuel s : fits32 s → (length (rest s) <= fuel)%nat →
  (∃ toks dirs, lloop fuel s = Some (ok, output s ++ toks, dirs, []) ∧
     tokenizes (index s) (line_start s) (rest s) toks) ∨
  (∃ r, lloop fuel s = Some r ∧ failed s r).
Proof.
  revert s. induction fuel as [|fuel IH]; intros s Hfit Hfuel.
  { destruct (rest s) eqn:Hr; [|cbn in Hfuel; lia]. destruct (finish_done s Hr Hfit) as [dirs Hd]. left.
    eexists _, dirs. cbn. rewrite Hr, Hd. split; [done|]. constructor. }
  destruct (decide (rest s = [])) as [Hr|Hr].
  { destruct (finish_done s Hr Hfit) as [dirs Hd]. left. eexists _, dirs. cbn. rewrite Hr, Hd. split; [done|]. constructor. }
  destruct (step_cases s Hr) as [(t & follow & Hrt & Ht)|[(k & p & w & follow & Hrw & Hw)|(n & message & Hs & Hn)]].
  - destruct (step_trivia s t follow Hrt Ht) as (s' & Hs & Hr' & Hi' & Hl' & Ho').
    rewrite (lex_loop_step _ _ s') by done. pose proof (trivia_nonempty _ _ Ht). destruct t as [|c t]; [done|].
    unfold fits32, failed in *. rewrite Hrt, length_app in *. cbn [length] in *.
    destruct (IH s') as [(toks & dirs & E & Htok)|(r & E & Hf)]; rewrite ?Hr', ?Hi'; [lia..| |].
    + left. exists toks, dirs. rewrite E, Ho'. split; [done|]. rewrite Hr', Hi', Hl' in Htok.
      by apply (tokenizes_trivia _ _ (c :: t)).
    + right. exists r. split; [done|]. rewrite Hr', Hi' in Hf. destruct can_emit; [|done].
      destruct Hf as (? & ? & d & -> & ? & ?). eexists _, _, d. split_and!; [done|lia..].
  - destruct (step_word s k p w follow Hrw Hw) as (s' & Hs & Hr' & Hi' & Hl' & Ho').
    rewrite (lex_loop_step _ _ s') by done. pose proof (word_nonempty _ _ _ _ Hw). destruct w as [|c w]; [done|].
    unfold fits32, failed in *. rewrite Hrw, length_app in *. cbn [length] in *.
    destruct (IH s') as [(toks & dirs & E & Htok)|(r & E & Hf)]; rewrite ?Hr', ?Hi'; [lia..| |].
    + left. eexists _, dirs. rewrite E, Ho', <-app_assoc. split; [done|]. rewrite Hr', Hi', Hl' in Htok. cbn [app].
      rewrite !w32_small by (unfold two32; lia). by apply (tokenizes_word _ _ k p (c :: w)).
    + right. exists r. split; [done|]. rewrite Hr', Hi' in Hf. destruct can_emit; [|done].
      destruct Hf as (? & ? & d & -> & ? & ?). eexists _, _, d. split_and!; [done|lia..].
  - right. cbn [lex_loop]. rewrite Hs. destruct (rest s) as [|c text] eqn:E; [done|]. eexists. split; [done|].
    unfold failed, fail, fits32 in *. rewrite E in *. destruct can_emit; [|by eexists _, _].
    eexists _, _, _. split; [done|]. cbn [range_offset range_length]. rewrite !w32_small by (unfold two32; lia). lia.
Qed.
End steps.

(** A token other than the last is the text at its offset and length. *)
Lemma tokenizes_lookup off ls text toks i t : tokenizes off ls text toks → toks !! i = Some t →
  token_kind t ≠ eof → ∃ pre w follow, text = pre ++ w ++ follow ∧
    word (token_kind t) (token_punctuation t) w follow ∧
    token_offset t = off + N.of_nat (length pre) ∧ token_length t = N.of_nat (length w).
Proof.
  intros H. revert i. induction H as [off ls|off ls g follow toks Hg _ IH|off ls k p w follow toks Hw _ IH]; intros i Hi Hk.
  - destruct i; simplify_eq/=.
  - destruct (IH i Hi Hk) as (pre & w & f & -> & ? & -> & ->). exists (g ++ pre), w, f.
    rewrite length_app, <-app_assoc. split_and!; try done. lia.
  - destruct i as [|i]; simplify_eq/=.
    + exists [], w, follow. split_and!; try done. cbn. lia.
    + destruct (IH i Hi Hk) as (pre & w' & f & -> & ? & -> & ->). exists (w ++ pre), w', f.
      rewrite length_app, <-app_assoc. split_and!; try done. lia.
Qed.

Lemma tokenizes_last off ls text toks : tokenizes off ls text toks →
  (∃ body t, toks = body ++ [t] ∧ token_kind t = eof) ∧ (length toks <= S (length text))%nat.
Proof.
  induction 1 as [off ls|off ls g follow toks Hg _ [IH IHl]|off ls k p w follow toks Hw _ [(body & t & -> & Ht) IHl]].
  - split; [by exists [], (Token off 0 eof none 0)|done].
  - split; [done|]. rewrite length_app. lia.
  - split.
    + by eexists (_ :: body), t.
    + apply word_nonempty in Hw. destruct w; [done|]. cbn [length app]. rewrite !length_app in *. cbn [length] in *. lia.
Qed.

(** ** Directive spans *)

(** The token that opens a directive: a [#] that is first on its line. *)
Definition opens_directive (tokens : list parser_token) (i : N) : Prop :=
  ∃ t, tokens !! N.to_nat i = Some t ∧ token_kind t = punctuation ∧ token_punctuation t = hash ∧
    token_flags t = 1.

(** Nonempty spans in order, none overlapping, each opened by such a token. *)
Fixpoint spans_from (tokens : list parser_token) (from : N) (spans : list directive_span) : Prop :=
  match spans with
  | [] => True
  | sp :: spans' =>
      from <= token_begin sp ∧ token_begin sp < token_end sp ∧
      token_end sp <= N.of_nat (length tokens) ∧ opens_directive tokens (token_begin sp) ∧
      spans_from tokens (token_end sp) spans'
  end.

Definition last_end (from : N) (spans : list directive_span) : N := foldl (λ _ sp, token_end sp) from spans.

Lemma opens_directive_app tokens i more : opens_directive tokens i → opens_directive (tokens ++ more) i.
Proof. intros (t & Ht & H). exists t. split; [by apply lookup_app_l_Some|done]. Qed.

Lemma spans_from_app tokens from spans more : spans_from tokens from spans → spans_from (tokens ++ more) from spans.
Proof.
  revert from. induction spans as [|sp spans IH]; intros from; cbn; [done|].
  rewrite length_app. intros (? & ? & ? & ? & ?). split_and!; [done|done|lia|by apply opens_directive_app|by apply IH].
Qed.

Lemma spans_from_snoc tokens from spans sp : spans_from tokens from spans →
  last_end from spans <= token_begin sp → token_begin sp < token_end sp →
  token_end sp <= N.of_nat (length tokens) → opens_directive tokens (token_begin sp) →
  spans_from tokens from (spans ++ [sp]).
Proof.
  revert from. induction spans as [|sp' spans IH]; intros from; cbn; [tauto|].
  intros (? & ? & ? & ? & ?) **. split_and!; try done. by apply IH.
Qed.

Lemma last_end_snoc from spans sp : last_end from (spans ++ [sp]) = token_end sp.
Proof. unfold last_end. by rewrite foldl_app. Qed.

Lemma last_end_le tokens from spans : spans_from tokens from spans → from <= N.of_nat (length tokens) →
  last_end from spans <= N.of_nat (length tokens).
Proof.
  revert from. induction spans as [|sp spans IH]; intros from; cbn; [done|].
  intros (? & ? & ? & ? & ?) ?. by apply IH.
Qed.

Section spans.
Context (tokens_fit directives_fit : nat → bool) (can_emit wanted : bool).

Local Notation mstep := (step tokens_fit directives_fit can_emit wanted).
Local Notation mloop := (lex_loop tokens_fit directives_fit can_emit wanted).

Definition spans_inv (s : lexer) : Prop :=
  N.of_nat (length (output s)) <= index s ∧ spans_from (output s) 0 (directives s) ∧
  (directive_open s = true →
    last_end 0 (directives s) <= directive_begin s ∧ directive_begin s < N.of_nat (length (output s)) ∧
    opens_directive (output s) (directive_begin s)).

Lemma close_directive_inv s s' : fits32 s → spans_inv s → close_directive directives_fit wanted s = inl s' →
  spans_from (output s) 0 (directives s') ∧ output s' = output s ∧ index s' = index s ∧ rest s' = rest s.
Proof.
  unfold close_directive, fits32. intros Hfit (Hlen & Hs & Hopen).
  destruct (directive_open s && wanted) eqn:Ho; [|by intros [= <-]].
  destruct (directives_fit _); [|done]. intros [= <-]. cbn. split_and!; [|done..]. bools.
  destruct Hopen as (? & ? & ?); [done|].
  apply spans_from_snoc; cbn; try done; rewrite w32_small by (unfold two32; lia); lia.
Qed.

Lemma spans_inv_move n ls s : spans_inv s → spans_inv (move n (set_line_start ls s)).
Proof. intros (? & ? & ?). split_and!; cbn; try done. lia. Qed.

Lemma push_token_inv s s' n k p : fits32 s → spans_inv s → (0 < n)%nat → (p = hash → k = punctuation) →
  push_token tokens_fit wanted s n k p = inl s' → spans_inv s'.
Proof.
  unfold fits32. intros Hfit (Hlen & Hs & Hopen) Hn Hp. unfold push_token. destruct (tokens_fit _); [|done].
  intros [= <-]. unfold spans_inv. cbn. rewrite length_app. cbn [length]. split_and!.
  - lia.
  - by apply spans_from_app.
  - destruct (bool_decide (p = hash) && line_start s && wanted) eqn:Ho.
    + intros _. bools. apply bool_decide_eq_true in H as ->. rewrite w32_small by (unfold two32; lia). split_and!.
      * apply (last_end_le _ 0); [done|lia].
      * lia.
      * eexists. rewrite Nat2N.id, list_lookup_middle by done. split; [done|]. rewrite H1. cbn. by rewrite Hp.
    + intros Hd. destruct (Hopen Hd) as (? & ? & ?). split_and!; [done|lia|by apply opens_directive_app].
Qed.

Lemma scan_token_shape text n k p : scan_token text = inl (n, k, p) → (0 < n)%nat ∧ (p = hash → k = punctuation).
Proof.
  unfold scan_token, scan_literal. intros H. repeat case_match; simplify_eq; split; try lia; done.
Qed.

Lemma step_inv s s' : fits32 s → spans_inv s → mstep s = inl s' → spans_inv s'.
Proof.
  intros Hfit Hinv. unfold step. destruct (rest s) as [|c text] eqn:Hr; [by intros [= <-]|].
  destruct (blank c); [intros [= <-]; by apply (spans_inv_move 1 (line_start s))|].
  destruct (c =? 10).
  { unfold newline. destruct (close_directive _ _ s) as [s1|] eqn:Hc; [|done]. intros [= <-].
    apply close_directive_inv in Hc as (H1 & H2 & H3 & _); [|done..]. destruct Hinv as (H4 & _).
    unfold spans_inv. cbn. rewrite H2, H3. split_and!; [lia|done|done]. }
  destruct (_ && _); [intros [= <-]; by apply (spans_inv_move _ (line_start s))|].
  destruct (_ && _).
  { destruct (block_comment _ _) as [[n ls]|]; [|done]. intros [= <-]. by apply spans_inv_move. }
  destruct (scan_token (c :: text)) as [[[n k] p]|[n message]] eqn:Hscan; [|done].
  apply scan_token_shape in Hscan as [??]. by apply push_token_inv.
Qed.

End spans.

(** A turn keeps the end of the text where it is and shortens what is left. *)
Lemma step_progress directives_fit can_emit wanted s s' : (∀ n, directives_fit n = true) → rest s ≠ [] →
  step (λ _, true) directives_fit can_emit wanted s = inl s' →
  (length (rest s') < length (rest s))%nat ∧
  index s' + N.of_nat (length (rest s')) = index s + N.of_nat (length (rest s)).
Proof.
  intros Hdir Hr Hs.
  destruct (step_cases directives_fit can_emit wanted s Hr)
    as [(t & follow & Hrt & Ht)|[(k & p & w & follow & Hrw & Hw)|(n & message & Hf & _)]]; [| |congruence].
  - destruct (step_trivia directives_fit can_emit wanted Hdir s t follow Hrt Ht) as (s1 & Hs1 & Hr1 & Hi1 & _).
    rewrite Hs in Hs1. simplify_eq. apply trivia_nonempty in Ht. destruct t; [done|].
    rewrite Hrt, Hi1, length_app. cbn [length]. lia.
  - destruct (step_word directives_fit can_emit wanted s k p w follow Hrw Hw) as (s1 & Hs1 & Hr1 & Hi1 & _).
    rewrite Hs in Hs1. simplify_eq. apply word_nonempty in Hw. destruct w; [done|].
    rewrite Hrw, Hi1, length_app. cbn [length]. lia.
Qed.

Definition all_fit : nat → bool := λ _, true.

Lemma lex_loop_spans can_emit wanted fuel s toks dirs : fits32 s → spans_inv s →
  lex_loop all_fit all_fit can_emit wanted fuel s = Some (ok, toks, dirs, []) →
  spans_from (removelast toks) 0 dirs.
Proof.
  assert (Hfin : ∀ s, fits32 s → spans_inv s → finish all_fit all_fit wanted s = (ok, toks, dirs, []) →
    spans_from (removelast toks) 0 dirs).
  { clear. intros s Hfit Hinv. unfold finish. destruct (close_directive _ _ s) as [s1|] eqn:Hc; [|revert Hc; unfold close_directive, out_of_memory; by repeat case_match; intros; simplify_eq].
    apply close_directive_inv in Hc as (H1 & H2 & _); [|done..]. cbn. intros [= <- <-].
    by rewrite H2, removelast_last. }
  revert s. induction fuel as [|fuel IH]; intros s Hfit Hinv; cbn [lex_loop].
  { destruct (rest s); [|done]. intros [= E]. by apply (Hfin s). }
  destruct (rest s) as [|c text] eqn:Hr; [intros [= E]; by apply (Hfin s)|].
  destruct (step _ _ _ _ s) as [s'|r] eqn:Hs.
  - apply IH.
    + destruct (step_progress all_fit can_emit wanted s s') as [_ Hp]; [done|by rewrite Hr|done|].
      unfold fits32. by rewrite Hp.
    + by eapply step_inv.
  - intros [= ->]. revert Hs. unfold step. rewrite Hr. unfold newline, push_token, close_directive, fail, out_of_memory.
    repeat case_match; intros; simplify_eq.
Qed.

(** ** Allocation failure *)

Lemma lex_loop_memory tokens_fit directives_fit can_emit wanted fuel s :
  lex_loop tokens_fit directives_fit can_emit wanted fuel s = lex_loop all_fit all_fit can_emit wanted fuel s ∨
  lex_loop tokens_fit directives_fit can_emit wanted fuel s = Some out_of_memory.
Proof.
  assert (Hclose : ∀ s, close_directive directives_fit wanted s = close_directive all_fit wanted s ∨
    close_directive directives_fit wanted s = inr out_of_memory).
  { clear. intros s. unfold close_directive. cbn. repeat case_match; auto. }
  assert (Hfin : ∀ s, finish tokens_fit directives_fit wanted s = finish all_fit all_fit wanted s ∨
    finish tokens_fit directives_fit wanted s = out_of_memory).
  { clear -Hclose. intros s. unfold finish. destruct (Hclose s) as [->| ->]; [|by right].
    destruct (close_directive all_fit wanted s); [|by left]. destruct (tokens_fit _); cbn; auto. }
  assert (Hstep : ∀ s, step tokens_fit directives_fit can_emit wanted s = step all_fit all_fit can_emit wanted s ∨
    step tokens_fit directives_fit can_emit wanted s = inr out_of_memory).
  { clear -Hclose. intros s. unfold step, newline, push_token. destruct (Hclose s) as [->| ->];
      repeat case_match; simplify_eq; auto. }
  revert s. induction fuel as [|fuel IH]; intros s; cbn [lex_loop].
  { destruct (rest s); [|by left]. destruct (Hfin s) as [->| ->]; auto. }
  destruct (rest s); [destruct (Hfin s) as [->| ->]; auto|].
  destruct (Hstep s) as [->| ->]; [|by right]. destruct (step all_fit _ _ _ s); auto.
Qed.

(** What a successful run gives, for the proofs of the properties and of other files. *)
Lemma lex_source_ok tokens_fit directives_fit can_emit wanted text toks dirs :
  lex_source tokens_fit directives_fit can_emit wanted (Some text) = Some (ok, toks, dirs, []) →
  N.of_nat (length text) <= 0xffffffff ∧ tokenizes 0 true text toks ∧ spans_from (removelast toks) 0 dirs.
Proof.
  unfold lex_source. destruct (N.ltb_spec 0xffffffff (N.of_nat (length text))) as [|Hlen].
  { unfold fail. by destruct can_emit. }
  assert (Hfit : fits32 (initial text)) by (unfold fits32; cbn; lia).
  destruct (lex_loop_memory tokens_fit directives_fit can_emit wanted (length text) (initial text)) as [->| ->]; [|done].
  intros H. split; [done|]. split; [|eapply lex_loop_spans; [exact Hfit| |exact H]; unfold spans_inv; cbn; by split_and!].
  destruct (lex_loop_sound all_fit can_emit wanted ltac:(done) (length text) (initial text) Hfit)
    as [(toks' & dirs' & E & Ht)|(r & E & Hf)]; [done|unfold all_fit in *; by simplify_eq|].
  unfold all_fit, failed in *. rewrite H in E. simplify_eq. destruct can_emit; naive_solver.
Qed.

(** ** Properties *)

(** C33: with memory enough, lexing a text succeeds with exactly
    the tokens the lexical grammar gives it (each token the longest of its class, its offset
    and length those of its text, its flag set exactly when it is the first of its line). *)
Theorem lex_source_decides_grammar can_emit wanted text toks : N.of_nat (length text) <= 0xffffffff →
  (∃ dirs, lex_source all_fit all_fit can_emit wanted (Some text) = Some (ok, toks, dirs, [])) ↔
  tokenizes 0 true text toks.
Proof.
  intros Hlen. split; [by intros [dirs (_ & H & _)%lex_source_ok]|]. intros H.
  unfold lex_source. rewrite (proj2 (N.ltb_ge _ _) Hlen).
  apply (lex_loop_complete all_fit can_emit wanted ltac:(done) _ _ _ _ H (initial text)); try done.
Qed.

(** C34: lexing always returns, in every memory environment: the tokens of
    the text, or the grammar gives it no tokens and the failure carries one diagnostic whose
    range lies in the text, or memory ran out and both outputs are empty. *)
Theorem lex_source_total tokens_fit directives_fit can_emit wanted text : N.of_nat (length text) <= 0xffffffff →
  ∃ r, lex_source tokens_fit directives_fit can_emit wanted (Some text) = Some r ∧
    ((∃ toks dirs, r = (ok, toks, dirs, []) ∧ tokenizes 0 true text toks) ∨
     ((∀ toks, ¬ tokenizes 0 true text toks) ∧
      if can_emit then
        ∃ toks dirs d, r = (configuration_failed, toks, dirs, [d]) ∧
          range_offset d + range_length d <= N.of_nat (length text)
      else ∃ toks dirs, r = (not_available, toks, dirs, [])) ∨
     r = out_of_memory).
Proof.
  intros Hlen. assert (Hfit : fits32 (initial text)) by (unfold fits32; cbn; lia).
  unfold lex_source. rewrite (proj2 (N.ltb_ge _ _) Hlen).
  destruct (lex_loop_memory tokens_fit directives_fit can_emit wanted (length text) (initial text)) as [->| ->];
    [|by eauto].
  destruct (lex_loop_sound all_fit can_emit wanted ltac:(done) (length text) (initial text) Hfit)
    as [(toks & dirs & E & Ht)|(r & E & Hf)]; [done|eexists; split; [exact E|]; left; by eexists _, _|].
  exists r. split; [exact E|]. right; left. unfold failed in Hf. split.
  - intros toks Ht. destruct (lex_loop_complete all_fit can_emit wanted ltac:(done) _ _ _ _ Ht (initial text) (length text))
      as [dirs E']; [done..|]. rewrite E in E'. simplify_eq. destruct can_emit; naive_solver.
  - destruct can_emit; [|done]. destruct Hf as (toks & dirs & d & -> & _ & Hd). cbn in Hd. by eauto 10.
Qed.

(** The directive spans of a successful run are nonempty, in order,
    disjoint and in front of the end token, and each begins at a [#] that is the first token
    of its line. *)
Theorem lex_source_directives tokens_fit directives_fit can_emit wanted text toks dirs :
  lex_source tokens_fit directives_fit can_emit wanted (Some text) = Some (ok, toks, dirs, []) →
  spans_from (removelast toks) 0 dirs.
Proof. by intros (_ & _ & H)%lex_source_ok. Qed.

(** A second [#] behind a comment over several lines takes the place of the open directive
    (lexer.cpp:218-222): the first one, though it begins a line, is in no span. *)
Theorem lex_source_drops_directive : ∃ toks dirs,
  lex_source all_fit all_fit true true (Some
    [35; 105; 110; 99; 108; 117; 100; 101; 32; 34; 97; 34; 32; 47; 42; 10; 42; 47; 32; 35; 112; 114; 97; 103; 109; 97; 32; 111; 110; 99; 101; 10]) =
    Some (ok, toks, dirs, []) ∧
  opens_directive toks 0 ∧ dirs = [DirectiveSpan 3 6].
Proof. eexists _, _. split; [vm_compute; reflexivity|]. split; [by eexists|reflexivity]. Qed.

(** ** Witnesses *)

(** An include and a declaration:
    [#include "a"], [int x; // y]. *)
Definition sample : list N :=
  [35; 105; 110; 99; 108; 117; 100; 101; 32; 34; 97; 34; 10; 105; 110; 116; 32; 120; 59; 32; 47; 47; 32; 121; 10].

Definition sample_tokens : list parser_token :=
  [Token 0 1 punctuation hash 1; Token 1 7 identifier none 0; Token 9 3 string_literal none 0;
   Token 13 3 identifier none 1; Token 17 1 identifier none 0; Token 18 1 punctuation semicolon 0;
   Token 25 0 eof none 0].

Lemma lex_source_decides_grammar_witness : tokenizes 0 true sample sample_tokens.
Proof.
  apply (lex_source_decides_grammar true true sample sample_tokens).
  - vm_compute. discriminate.
  - exists [DirectiveSpan 0 3]. vm_compute. reflexivity.
Defined.

Lemma lex_source_total_witness : ∃ r, lex_source all_fit all_fit true true (Some [34; 97]) = Some r ∧
  r ≠ out_of_memory.
Proof.
  destruct (lex_source_total all_fit all_fit true true [34; 97]) as (r & E & _).
  - vm_compute. discriminate.
  - exists r. split; [exact E|]. intros ->. vm_compute in E. discriminate E.
Defined.

Lemma lex_source_directives_witness : spans_from (removelast sample_tokens) 0 [DirectiveSpan 0 3].
Proof.
  apply (lex_source_directives all_fit all_fit true true sample sample_tokens).
  vm_compute. reflexivity.
Defined.

End Lexer.
