(* ===== verification/IncludeDiscovery.v ===== *)
(** * Include discovery

    Models server_engine/project/frontend/include_discovery.{hpp,cpp}: the checks of the
    directive spans, the interpretation of each directive and the in-place compaction of the
    token vector.  An access of the vector outside its bounds is the outcome [None], shown
    not to happen.  Growing the include list may fail ([includes_fit]); diagnostics are a
    log.  The specification keeps the tokens outside the spans and reads the includes off
    the spans. *)

From S2P Require Import Prelude Lexer.

Local Open Scope N_scope.

Module IncludeDiscovery.

Import Lexer.

(** source_span of source_facts.hpp. *)
Record source_span : Set := SourceSpan { span_offset : N; span_length : N }.

Record source_include_directive : Set := IncludeDirective { path : source_span; visible_from : N }.

Definition token_text (text : list N) (token : parser_token) : list N :=
  if (N.of_nat (length text) <? token_offset token) ||
     (N.of_nat (length text) - token_offset token <? token_length token) then []
  else take (N.to_nat (token_length token)) (drop (N.to_nat (token_offset token)) text).

Definition is_punctuation (token : parser_token) (value : parser_punctuation) : bool :=
  bool_decide (token_kind token = punctuation) && bool_decide (token_punctuation token = value).

Definition word_include : list N := [105; 110; 99; 108; 117; 100; 101].
Definition word_pragma : list N := [112; 114; 97; 103; 109; 97].
Definition word_once : list N := [111; 110; 99; 101].

(** What a call leaves: its status, the tokens, the includes and the diagnostics emitted. *)
Record discovered : Set := Discovered {
  code : status_code; tokens_left : list parser_token;
  includes : list source_include_directive; diagnostics : list diagnostic }.

(** The outcome of one directive: go on, or leave the call with a status. *)
Inductive interpreted : Set :=
| Proceed (includes : list source_include_directive)
| Leave (code : status_code) (includes : list source_include_directive) (diagnostics : list diagnostic).

Section discover.
Context (text : list N) (includes_fit : nat → bool) (can_emit : bool).

(** A quotation mark. *)
Definition quote : string := String (Ascii.ascii_of_nat 34) EmptyString.

Definition fail (includes : list source_include_directive) (token : parser_token) (message : string) : interpreted :=
  Leave not_available includes
    (if can_emit then [Diagnostic (token_offset token) (token_length token) message] else []).

(** The scan between two directives: the brace depth behind it, or nothing for a closing
    brace too many. *)
Fixpoint scan_braces (tokens : list parser_token) (brace_depth : N) : option N :=
  match tokens with
  | [] => Some brace_depth
  | token :: tokens' =>
      if is_punctuation token left_brace then scan_braces tokens' (w32 (brace_depth + 1))
      else if is_punctuation token right_brace then
        if brace_depth =? 0 then None else scan_braces tokens' (brace_depth - 1)
      else scan_braces tokens' brace_depth
  end.

Definition push_include (includes : list source_include_directive) (header : parser_token) : interpreted :=
  if includes_fit (S (length includes)) then
    Proceed (includes ++
      [IncludeDirective
        (SourceSpan (w32 (token_offset header + 1)) (w32 (token_length header - 2)))
        (w32 (token_offset header + token_length header))])
  else Leave not_available [] [].

(** The body of the loop behind the scan; [None] is a read outside the vector. *)
Definition interpret (tokens : list parser_token) (directive : directive_span) (brace_depth : N)
    (includes : list source_include_directive) : option interpreted :=
  let count := token_end directive - token_begin directive in
  let at_ i := tokens !! N.to_nat (token_begin directive + i) in
  hash_token ← at_ 0;
  if negb (is_punctuation hash_token hash) || (N.land (token_flags hash_token) 1 =? 0) then
    Some (Leave invalid_argument includes [])
  else if count <? 2 then
    Some (fail includes hash_token "empty preprocessing directive is unsupported")
  else
    name ← at_ 1;
    let name_text := token_text text name in
    if negb (bool_decide (token_kind name = identifier)) then
      Some (fail includes name "expected preprocessing directive name")
    else if bool_decide (name_text = word_include) then
      if negb (brace_depth =? 0) then
        Some (fail includes hash_token "#include inside a brace/namespace scope is forbidden")
      else if negb (count =? 3) then
        Some (fail includes hash_token "only quoted #include with one header-name is supported")
      else
        header ← at_ 2;
        if negb (bool_decide (token_kind header = string_literal)) || (token_length header <? 2) then
          Some (fail includes header ("only quoted #include " +:+ quote +:+ "file.hpp" +:+ quote +:+ " is supported"))
        else Some (push_include includes header)
    else if bool_decide (name_text = word_pragma) then
      if negb (count =? 3) then
        Some (fail includes hash_token "only #pragma once is supported")
      else
        once ← at_ 2;
        if bool_decide (token_text text once = word_once) then Some (Proceed includes)
        else Some (fail includes hash_token "only #pragma once is supported")
    else Some (fail includes name ("supported preprocessing directives are #include " +:+ quote +:+ "..." +:+ quote +:+ " and #pragma once only")).

(** The loop over the directives. *)
Fixpoint interpret_all (tokens : list parser_token) (directives : list directive_span)
    (scan brace_depth : N) (includes : list source_include_directive) : option interpreted :=
  match directives with
  | [] => Some (Proceed includes)
  | directive :: directives' =>
      if (token_end directive <=? token_begin directive) ||
         (N.of_nat (length tokens) - 1 <? token_end directive) || (token_begin directive <? scan) then
        Some (Leave invalid_argument includes [])
      else
        match scan_braces (take (N.to_nat (token_begin directive - scan)) (drop (N.to_nat scan) tokens)) brace_depth with
        | None => Some (Leave invalid_argument includes [])
        | Some brace_depth =>
            r ← interpret tokens directive brace_depth includes;
            match r with
            | Proceed includes => interpret_all tokens directives' (token_end directive) brace_depth includes
            | Leave _ _ _ => Some r
            end
        end
  end.

(** The compaction loop, in place: each turn skips a directive or moves one token down.
    [None] is an access outside the vector or fuel used up. *)
Fixpoint compact (fuel : nat) (tokens : list parser_token) (read write : nat)
    (directives : list directive_span) : option (list parser_token * nat) :=
  if (S read <? length tokens)%nat then
    match fuel with
    | O => None
    | S fuel' =>
        match directives with
        | directive :: directives' =>
            if (N.of_nat read =? token_begin directive) then
              compact fuel' tokens (N.to_nat (token_end directive)) write directives'
            else
              token ← tokens !! read;
              compact fuel' (<[write := token]> tokens) (S read) (S write) directives
        | [] =>
            token ← tokens !! read;
            compact fuel' (<[write := token]> tokens) (S read) (S write) directives
        end
    end
  else Some (tokens, write).

Definition compact_tokens (tokens : list parser_token) (directives : list directive_span) : option (list parser_token) :=
  '(tokens, write) ← compact (length tokens + length directives) tokens 0 0 directives;
  token ← last tokens;
  if (write <? length tokens)%nat then Some (take (S write) (<[write := token]> tokens)) else None.

Definition discover_source_includes (source : bool) (tokens : list parser_token)
    (directives : list directive_span) : option discovered :=
  if negb source || bool_decide (tokens = []) ||
     negb (bool_decide (token_kind <$> last tokens = Some eof)) then
    Some (Discovered invalid_argument tokens [] [])
  else
    r ← interpret_all tokens directives 0 0 [];
    match r with
    | Leave code includes diagnostics => Some (Discovered code tokens includes diagnostics)
    | Proceed includes =>
        tokens ← compact_tokens tokens directives;
        Some (Discovered ok tokens includes [])
    end.

End discover.

(** ** Specification *)

(** Spans in order, nonempty, in front of the last token. *)
Fixpoint ordered (size from : N) (spans : list directive_span) : Prop :=
  match spans with
  | [] => True
  | sp :: spans' =>
      from <= token_begin sp ∧ token_begin sp < token_end sp ∧ token_end sp <= size - 1 ∧
      ordered size (token_end sp) spans'
  end.

(** The tokens from a position on that lie in no span. *)
Fixpoint outside (tokens : list parser_token) (from : N) (spans : list directive_span) : list parser_token :=
  match spans with
  | [] => drop (N.to_nat from) tokens
  | sp :: spans' =>
      take (N.to_nat (token_begin sp - from)) (drop (N.to_nat from) tokens) ++ outside tokens (token_end sp) spans'
  end.

Definition span_tokens (tokens : list parser_token) (sp : directive_span) : list parser_token :=
  take (N.to_nat (token_end sp - token_begin sp)) (drop (N.to_nat (token_begin sp)) tokens).

Definition line_hash (t : parser_token) : Prop :=
  token_kind t = punctuation ∧ token_punctuation t = hash ∧ N.land (token_flags t) 1 ≠ 0.

(** The include a header token stands for: the text between its quotes, visible behind it. *)
Definition include_of (header : parser_token) : source_include_directive :=
  IncludeDirective (SourceSpan (w32 (token_offset header + 1)) (w32 (token_length header - 2)))
    (w32 (token_offset header + token_length header)).

(** The directives there are, with the includes they stand for. *)
Inductive means (text : list N) (tokens : list parser_token) (sp : directive_span) :
    list source_include_directive → Prop :=
| means_include h n header :
    span_tokens tokens sp = [h; n; header] → line_hash h →
    token_kind n = identifier → token_text text n = word_include →
    token_kind header = string_literal → 2 <= token_length header →
    means text tokens sp [include_of header]
| means_pragma h n once :
    span_tokens tokens sp = [h; n; once] → line_hash h →
    token_kind n = identifier → token_text text n = word_pragma → token_text text once = word_once →
    means text tokens sp [].

Definition braces (value : parser_punctuation) (l : list parser_token) : nat :=
  length (filter (λ t, is_punctuation t value = true) l).

(** Every brace is closed, and none before it is opened. *)
Definition balanced (l : list parser_token) : Prop :=
  braces left_brace l = braces right_brace l ∧
  ∀ k, (braces right_brace (take k l) <= braces left_brace (take k l))%nat.

(** ** Compaction *)

Lemma take_drop_S {A} (l : list A) i k x : l !! i = Some x → (0 < k)%nat →
  take k (drop i l) = x :: take (k - 1) (drop (S i) l).
Proof.
  intros Hi Hk. rewrite (drop_S _ _ _ Hi). destruct k as [|k]; [lia|]. cbn. by rewrite Nat.sub_0_r.
Qed.

Lemma outside_step tokens read t spans size : tokens !! read = Some t → ordered size (N.of_nat read) spans →
  (∀ sp, head spans = Some sp → token_begin sp ≠ N.of_nat read) →
  outside tokens (N.of_nat read) spans = t :: outside tokens (N.of_nat (S read)) spans ∧
  ordered size (N.of_nat (S read)) spans.
Proof.
  intros Ht Ho Hne. destruct spans as [|sp spans]; cbn [outside ordered].
  - rewrite !Nat2N.id. by rewrite (drop_S _ _ _ Ht).
  - specialize (Hne sp eq_refl). destruct Ho as (H1 & H2 & H3 & H4). split; [|split_and!; try done; lia].
    rewrite !Nat2N.id, (take_drop_S _ _ _ t) by (done || lia). cbn. do 3 f_equal. lia.
Qed.

Lemma ordered_weaken size from from' spans : ordered size from spans → from' <= from → ordered size from' spans.
Proof. destruct spans as [|sp spans]; cbn; [done|]. intros (? & ? & ? & ?) ?. split_and!; try done. lia. Qed.

Lemma outside_snoc body t from spans : ordered (N.of_nat (S (length body))) from spans →
  (N.to_nat from <= length body)%nat → outside (body ++ [t]) from spans = outside body from spans ++ [t].
Proof.
  revert from. induction spans as [|sp spans IH]; intros from; cbn [outside ordered].
  - intros _ H. rewrite drop_app_le by done. done.
  - intros (H1 & H2 & H3 & H4) H. rewrite IH by (done || lia). rewrite drop_app_le by done.
    rewrite take_app_le by (rewrite length_drop; lia). by rewrite app_assoc.
Qed.

Section compaction.
Context (body : list parser_token) (end_token : parser_token).
Local Notation orig := (body ++ [end_token]).

(** The array during the loop: compacted below [write], still original from [read] on. *)
Definition compacting (a : list parser_token) (read write : nat) : Prop :=
  (write <= read <= length body)%nat ∧ length a = S (length body) ∧ drop read a = drop read orig.

Lemma compacting_end a read write : compacting a read write → (length body <= read)%nat →
  last a = Some end_token.
Proof.
  intros (Hw & Ha & Hd) Hr. assert (read = length body) as -> by lia. rewrite drop_app_length in Hd.
  rewrite <-(take_drop (length body) a), Hd. by rewrite last_snoc.
Qed.

Lemma compacting_move a read write t : compacting a read write → (read < length body)%nat →
  a !! read = Some t → compacting (<[write := t]> a) (S read) (S write) ∧
  take (S write) (<[write := t]> a) = take write a ++ [t] ∧ body !! read = Some t.
Proof.
  intros (Hw & Ha & Hd) Hr Ht. split_and!.
  - split_and!; [lia..|by rewrite length_insert|].
    rewrite drop_insert_lt by lia. replace (S read) with (read + 1)%nat by lia. by rewrite <-!drop_drop, Hd.
  - rewrite (take_S_r _ _ t) by (apply list_lookup_insert_eq; lia). by rewrite take_insert_ge by lia.
  - assert (H : drop read a !! 0%nat = drop read orig !! 0%nat) by by rewrite Hd.
    rewrite !lookup_drop, Nat.add_0_r, Ht, lookup_app_l in H by lia. done.
Qed.

Lemma compact_done a read write spans : compacting a read write →
  ordered (N.of_nat (S (length body))) (N.of_nat read) spans → (length body <= read)%nat →
  ∃ a' write', Some (a, write) = Some (a', write') ∧ length a' = S (length body) ∧
    (write' <= length body)%nat ∧ last a' = Some end_token ∧
    take write' a' = take write a ++ outside body (N.of_nat read) spans.
Proof.
  intros Hc Ho Hr. pose proof Hc as (Hw & Ha & Hd). exists a, write. split_and!; try done; [lia|by eapply compacting_end|].
  destruct spans as [|sp spans]; [|cbn in Ho; lia]. cbn. rewrite Nat2N.id, drop_ge, app_nil_r by lia. done.
Qed.

Lemma compact_spec fuel a read write spans : compacting a read write →
  ordered (N.of_nat (S (length body))) (N.of_nat read) spans →
  (length body - read + length spans <= fuel)%nat →
  ∃ a' write', compact fuel a read write spans = Some (a', write') ∧ length a' = S (length body) ∧
    (write' <= length body)%nat ∧ last a' = Some end_token ∧
    take write' a' = take write a ++ outside body (N.of_nat read) spans.
Proof.
  revert a read write spans. induction fuel as [|fuel IH]; intros a read write spans Hc Ho Hfuel;
    pose proof Hc as (Hw & Ha & Hd); cbn [compact]; rewrite Ha;
    destruct (Nat.ltb_spec (S read) (S (length body))) as [Hlt|Hge]; [lia|apply (compact_done _ _ _ _ Hc Ho); lia| |
      apply (compact_done _ _ _ _ Hc Ho); lia].
  assert (Hmove : (∀ sp, head spans = Some sp → token_begin sp ≠ N.of_nat read) →
    ∃ a' write', (token ← a !! read; compact fuel (<[write := token]> a) (S read) (S write) spans) = Some (a', write') ∧
      length a' = S (length body) ∧ (write' <= length body)%nat ∧ last a' = Some end_token ∧
      take write' a' = take write a ++ outside body (N.of_nat read) spans).
  { intros Hne. destruct (lookup_lt_is_Some_2 a read ltac:(lia)) as [t Ht]. rewrite Ht. cbn [mbind option_bind].
    destruct (compacting_move a read write t Hc ltac:(lia) Ht) as (Hc' & Htake & Hbody).
    destruct (outside_step body read t spans _ Hbody Ho Hne) as [Hout Ho'].
    destruct (IH _ _ _ spans Hc' Ho') as (a' & write' & E & H1 & H2 & H3 & H4); [lia|].
    exists a', write'. split_and!; [done..|]. by rewrite H4, Htake, Hout, <-app_assoc. }
  destruct spans as [|sp spans]; [by apply Hmove|].
  destruct (N.eqb_spec (N.of_nat read) (token_begin sp)) as [Heq|Hne]; [|apply Hmove; naive_solver].
  cbn [ordered length] in Ho, Hfuel. destruct Ho as (_ & Hlt' & Hle & Ho).
  assert (Hc' : compacting a (N.to_nat (token_end sp)) write).
  { split_and!; [lia..|done|].
    replace (N.to_nat (token_end sp)) with (read + (N.to_nat (token_end sp) - read))%nat by lia.
    by rewrite <-!drop_drop, Hd. }
  destruct (IH _ _ _ spans Hc') as (a' & write' & E & H1 & H2 & H3 & H4); [by rewrite N2Nat.id|lia|].
  exists a', write'. split_and!; try done. rewrite H4, N2Nat.id. cbn [outside].
  replace (token_begin sp - N.of_nat read) with 0 by lia. done.
Qed.

Lemma compact_tokens_spec spans : ordered (N.of_nat (S (length body))) 0 spans →
  compact_tokens orig spans = Some (outside orig 0 spans).
Proof.
  intros Ho. unfold compact_tokens.
  assert (Hc : compacting orig 0 0).
  { split_and!; [lia..|rewrite length_app; cbn; lia|done]. }
  destruct (compact_spec (length orig + length spans) orig 0 0 spans Hc Ho)
    as (a & write & -> & Ha & Hw & Hl & Ht); [rewrite length_app; lia|].
  cbn [mbind option_bind]. rewrite Hl. cbn [mbind option_bind]. rewrite (proj2 (Nat.ltb_lt _ _)) by lia. f_equal.
  rewrite (take_S_r _ _ end_token) by (apply list_lookup_insert_eq; lia).
  rewrite take_insert_ge, Ht, take_0 by lia. symmetry. apply outside_snoc; [done|lia].
Qed.
End compaction.

(** ** Directives *)

Lemma braces_nil value : braces value [] = 0%nat.
Proof. done. Qed.

Lemma braces_cons value t l : braces value (t :: l) = ((if is_punctuation t value then 1 else 0) + braces value l)%nat.
Proof. unfold braces. rewrite filter_cons. destruct (is_punctuation t value); case_decide; cbn; done. Qed.

Lemma is_punctuation_inj t v1 v2 : is_punctuation t v1 = true → is_punctuation t v2 = true → v1 = v2.
Proof. unfold is_punctuation. intros H1 H2. bools. apply bool_decide_eq_true in H1, H0, H2, H. congruence. Qed.

Lemma scan_braces_spec l d d' : d + N.of_nat (length l) < two32 → scan_braces l d = Some d' →
  N.of_nat (braces left_brace l) + d = d' + N.of_nat (braces right_brace l) ∧
  ∀ k, N.of_nat (braces right_brace (take k l)) <= N.of_nat (braces left_brace (take k l)) + d.
Proof.
  revert d. induction l as [|t l IH]; intros d Hd; cbn [scan_braces length] in *.
  { intros [= <-]. rewrite !braces_nil. split; [cbn; lia|]. intros k. rewrite take_nil, !braces_nil. cbn. lia. }
  rewrite !braces_cons. destruct (is_punctuation t left_brace) eqn:Hl; [|destruct (is_punctuation t right_brace) eqn:Hr].
  - assert (Hr : is_punctuation t right_brace = false).
    { apply not_true_is_false. intros Hr. by pose proof (is_punctuation_inj _ _ _ Hl Hr). }
    rewrite w32_small by lia. intros [H1 H2]%IH; [|lia]. rewrite Hr. split; [lia|].
    intros [|k]; [rewrite take_0, !braces_nil; lia|]. cbn [take]. rewrite !braces_cons, Hl, Hr. specialize (H2 k). lia.
  - destruct (N.eqb_spec d 0) as [|Hd0]; [done|]. intros [H1 H2]%IH; [|lia]. split; [lia|].
    intros [|k]; [rewrite take_0, !braces_nil; lia|]. cbn [take]. rewrite !braces_cons, Hl, Hr. specialize (H2 k). lia.
  - intros [H1 H2]%IH; [|lia]. split; [lia|].
    intros [|k]; [rewrite take_0, !braces_nil; lia|]. cbn [take]. rewrite !braces_cons, Hl, Hr. specialize (H2 k). lia.
Qed.

Lemma scan_braces_app l1 l2 d : scan_braces (l1 ++ l2) d = scan_braces l1 d ≫= scan_braces l2.
Proof.
  revert d. induction l1 as [|t l1 IH]; intros d; cbn; [done|]. by repeat case_match.
Qed.

Lemma span_tokens_lookup tokens sp i : token_begin sp + N.of_nat i < token_end sp →
  span_tokens tokens sp !! i = tokens !! N.to_nat (token_begin sp + N.of_nat i).
Proof.
  intros Hi. unfold span_tokens. rewrite lookup_take_lt by lia. rewrite lookup_drop. f_equal. lia.
Qed.

Lemma length_span_tokens tokens sp : token_end sp <= N.of_nat (length tokens) →
  length (span_tokens tokens sp) = N.to_nat (token_end sp - token_begin sp).
Proof. intros H. unfold span_tokens. rewrite length_take, length_drop. lia. Qed.

(** A directive that is let through is one of the two there are. *)
Lemma interpret_proceed text includes_fit can_emit tokens sp depth incs incs' :
  token_begin sp < token_end sp → token_end sp <= N.of_nat (length tokens) →
  interpret text includes_fit can_emit tokens sp depth incs = Some (Proceed incs') →
  ∃ inc, incs' = incs ++ inc ∧ means text tokens sp inc ∧ (inc ≠ [] → depth = 0).
Proof.
  intros Hlt Hle. unfold interpret.
  pose proof (length_span_tokens tokens sp Hle) as Hlen.
  assert (Hat : ∀ i, token_begin sp + N.of_nat i < token_end sp →
    tokens !! N.to_nat (token_begin sp + N.of_nat i) = span_tokens tokens sp !! i)
    by (intros; by rewrite span_tokens_lookup).
  pose proof (Hat 0%nat) as Hat0. pose proof (Hat 1%nat) as Hat1. pose proof (Hat 2%nat) as Hat2.
  change (N.of_nat 0) with 0 in Hat0. change (N.of_nat 1) with 1 in Hat1. change (N.of_nat 2) with 2 in Hat2.
  rewrite Hat0 by lia. destruct (_ !! 0%nat) as [h|] eqn:Eh; [|done]. cbn [mbind option_bind].
  destruct (_ || _) eqn:Eflags; [done|]. apply orb_false_iff in Eflags as [Eh1 Eh2].
  apply negb_false_iff, andb_true_iff in Eh1 as [Hk%bool_decide_eq_true Hp%bool_decide_eq_true].
  apply N.eqb_neq in Eh2. destruct (N.ltb_spec (token_end sp - token_begin sp) 2) as [|H2]; [done|].
  rewrite Hat1 by lia. destruct (_ !! 1%nat) as [n|] eqn:En; [|done]. cbn [mbind option_bind].
  case_bool_decide as Hn; [|done]. cbn [negb].
  assert (Hthree : token_end sp - token_begin sp = 3 →
    ∀ t, span_tokens tokens sp !! 2%nat = Some t → span_tokens tokens sp = [h; n; t]).
  { intros H3 t Ht. rewrite H3 in Hlen. revert Hlen Eh En Ht. clear.
    destruct (span_tokens tokens sp) as [|? [|? [|? [|]]]]; cbn; intros; try lia. by simplify_eq. }
  case_bool_decide as Hinc; [|case_bool_decide as Hprag; [|done]].
  - destruct (N.eqb_spec depth 0) as [Hdepth|]; [|done].
    destruct (N.eqb_spec (token_end sp - token_begin sp) 3) as [H3|]; [|done]. cbn [negb].
    rewrite Hat2 by lia. destruct (_ !! 2%nat) as [t|] eqn:Et; [|done]. cbn [mbind option_bind].
    destruct (_ || _) eqn:Ehdr; [done|]. apply orb_false_iff in Ehdr as [Ht1 Ht2%N.ltb_ge].
    apply negb_false_iff, bool_decide_eq_true in Ht1. unfold push_include.
    destruct (includes_fit _); [|done]. intros [= <-]. eexists. split; [done|]. split; [|done].
    eapply (means_include _ _ _ h n t); auto. by split_and!.
  - destruct (N.eqb_spec (token_end sp - token_begin sp) 3) as [H3|]; [|done]. cbn [negb].
    rewrite Hat2 by lia. destruct (_ !! 2%nat) as [t|] eqn:Et; [|done]. cbn [mbind option_bind].
    case_bool_decide as Honce; [|done]. intros [= <-]. exists []. rewrite app_nil_r. split; [done|]. split; [|done].
    eapply (means_pragma _ _ _ h n t); auto. by split_and!.
Qed.

(** An access is always inside the vector. *)
Lemma interpret_in_bounds text includes_fit can_emit tokens sp depth incs :
  token_begin sp < token_end sp → token_end sp <= N.of_nat (length tokens) →
  is_Some (interpret text includes_fit can_emit tokens sp depth incs).
Proof.
  intros Hlt Hle. unfold interpret.
  assert (Hat : ∀ i, token_begin sp + i < token_end sp → is_Some (tokens !! N.to_nat (token_begin sp + i))).
  { intros i Hi. apply lookup_lt_is_Some. lia. }
  destruct (Hat 0 ltac:(lia)) as [h ->]. cbn [mbind option_bind].
  destruct (_ || _); [done|]. destruct (N.ltb_spec (token_end sp - token_begin sp) 2); [done|].
  destruct (Hat 1 ltac:(lia)) as [n ->]. cbn [mbind option_bind].
  destruct (negb _); [done|]. destruct (bool_decide _).
  - destruct (negb _); [done|]. destruct (N.eqb_spec (token_end sp - token_begin sp) 3); [|done]. cbn [negb].
    destruct (Hat 2 ltac:(lia)) as [header ->]. cbn. by destruct (_ || _).
  - destruct (bool_decide _); [|done]. destruct (N.eqb_spec (token_end sp - token_begin sp) 3); [|done]. cbn [negb].
    destruct (Hat 2 ltac:(lia)) as [once ->]. cbn. by destruct (bool_decide _).
Qed.

(** The tokens in front of a span that lie in no earlier span. *)
Definition outside_before (tokens : list parser_token) (from : N) (spans : list directive_span) (i : nat) : list parser_token :=
  match spans !! i with
  | Some sp => outside (take (N.to_nat (token_begin sp)) tokens) from (take i spans)
  | None => []
  end.

Lemma outside_before_0 tokens from sp spans :
  outside_before tokens from (sp :: spans) 0 = take (N.to_nat (token_begin sp - from)) (drop (N.to_nat from) tokens).
Proof.
  unfold outside_before. cbn [lookup list_lookup outside take]. rewrite skipn_firstn_comm. f_equal. lia.
Qed.

Lemma outside_before_S tokens size from sp spans i sp' : ordered size from (sp :: spans) → spans !! i = Some sp' →
  outside_before tokens from (sp :: spans) (S i) =
  take (N.to_nat (token_begin sp - from)) (drop (N.to_nat from) tokens) ++
    outside_before tokens (token_end sp) spans i.
Proof.
  intros Ho Hi. unfold outside_before. change ((sp :: spans) !! S i) with (spans !! i). rewrite Hi. cbn [take outside].
  f_equal. assert (Hle : token_begin sp <= token_begin sp').
  { destruct Ho as (_ & Hlt & _ & Ho). revert Ho Hlt. generalize (token_end sp) as e. revert i Hi.
    induction spans as [|sp1 spans IH]; intros [|i] Hi e; cbn; [done..| |]; intros (H1 & H2 & H3 & H4) Hlt; simplify_eq/=; [lia|].
    apply (IH i Hi (token_end sp1)); [done|lia]. }
  rewrite skipn_firstn_comm, take_take. f_equal. lia.
Qed.

Lemma interpret_all_proceed text includes_fit can_emit tokens spans scan depth incs incs' :
  interpret_all text includes_fit can_emit tokens spans scan depth incs = Some (Proceed incs') →
  ordered (N.of_nat (length tokens)) scan spans ∧
  ∃ incss, incs' = incs ++ concat incss ∧ Forall2 (means text tokens) spans incss ∧
    ∀ i inc, incss !! i = Some inc → inc ≠ [] → scan_braces (outside_before tokens scan spans i) depth = Some 0.
Proof.
  revert scan depth incs. induction spans as [|sp spans IH]; intros scan depth incs; cbn [interpret_all].
  { intros [= <-]. split; [done|]. exists []. rewrite app_nil_r. by split_and!. }
  destruct (_ || _) eqn:Eg; [done|]. bools.
  set (skipped := take (N.to_nat (token_begin sp - scan)) (drop (N.to_nat scan) tokens)).
  destruct (scan_braces skipped depth) as [depth'|] eqn:Ed; [|done].
  destruct (interpret _ _ _ _ _ _ _) as [[incs1|]|] eqn:Ei; cbn [mbind option_bind]; [|done..]. intros Hall.
  apply IH in Hall as (Ho & incss & -> & Hmeans & Hbr).
  apply interpret_proceed in Ei as (inc & -> & Hinc & Hdepth); [|lia..].
  assert (Ho' : ordered (N.of_nat (length tokens)) scan (sp :: spans)) by (cbn; split_and!; [lia..|done]).
  split; [done|]. exists (inc :: incss). cbn [concat]. rewrite app_assoc. split_and!; [done|by constructor|].
  intros [|i] inc' Hi Hne.
  - cbn in Hi. simplify_eq. rewrite outside_before_0. fold skipped. by rewrite Ed, (Hdepth Hne).
  - cbn in Hi. destruct (lookup_lt_is_Some_2 spans i) as [sp' Hsp].
    { rewrite (Forall2_length _ _ _ Hmeans). by eapply lookup_lt_Some. }
    rewrite (outside_before_S _ _ _ _ _ _ _ Ho' Hsp). fold skipped. rewrite scan_braces_app, Ed. by eapply Hbr.
Qed.

Lemma interpret_all_in_bounds text includes_fit can_emit tokens spans scan depth incs :
  is_Some (interpret_all text includes_fit can_emit tokens spans scan depth incs).
Proof.
  revert scan depth incs. induction spans as [|sp spans IH]; intros scan depth incs; cbn [interpret_all]; [done|].
  destruct (_ || _) eqn:Eg; [done|]. bools. destruct (scan_braces _ _) as [depth'|]; [|done].
  destruct (interpret_in_bounds text includes_fit can_emit tokens sp depth' incs) as [r ->]; [lia..|]. cbn.
  destruct r; [apply IH|done].
Qed.

Lemma split_last (tokens : list parser_token) k : token_kind <$> last tokens = Some k →
  ∃ body t, tokens = body ++ [t] ∧ token_kind t = k.
Proof.
  destruct (last tokens) as [t|] eqn:E; cbn; [|done]. intros [= <-]. apply last_Some in E as [body ->]. by exists body, t.
Qed.

Lemma compact_ordered tokens spans : tokens ≠ [] → ordered (N.of_nat (length tokens)) 0 spans →
  compact_tokens tokens spans = Some (outside tokens 0 spans).
Proof.
  intros Hne Ho. destruct (exists_last Hne) as (body & t & ->). apply compact_tokens_spec.
  by rewrite length_app, Nat.add_1_r in Ho.
Qed.

(** Why a call gives up: a closing brace without an opening one, or what the log says. *)
Lemma scan_braces_None l d : d + N.of_nat (length l) < two32 → scan_braces l d = None →
  ∃ k, N.of_nat (braces left_brace (take k l)) + d < N.of_nat (braces right_brace (take k l)).
Proof.
  revert d. induction l as [|t l IH]; intros d Hd; cbn [scan_braces length] in *; [done|].
  destruct (is_punctuation t left_brace) eqn:Hl; [|destruct (is_punctuation t right_brace) eqn:Hr].
  - assert (Hr : is_punctuation t right_brace = false).
    { apply not_true_is_false. intros Hr. by pose proof (is_punctuation_inj _ _ _ Hl Hr). }
    rewrite w32_small by lia. intros [k Hk]%IH; [|lia]. exists (S k). cbn [take]. rewrite !braces_cons, Hl, Hr. lia.
  - destruct (N.eqb_spec d 0) as [->|Hd0].
    + intros _. exists 1%nat. cbn [take]. rewrite take_0, !braces_cons, Hl, Hr, !braces_nil. done.
    + intros [k Hk]%IH; [|lia]. exists (S k). cbn [take]. rewrite !braces_cons, Hl, Hr. lia.
  - intros [k Hk]%IH; [|lia]. exists (S k). cbn [take]. rewrite !braces_cons, Hl, Hr. lia.
Qed.

Lemma ordered_take size from spans i : ordered size from spans → ordered size from (take i spans).
Proof.
  revert from i. induction spans as [|sp spans IH]; intros from [|i]; cbn; [done..|].
  intros (? & ? & ? & ?). split_and!; auto.
Qed.

Lemma length_outside size tokens from spans : ordered size from spans → from <= size - 1 →
  N.of_nat (length tokens) <= size - 1 → N.of_nat (length (outside tokens from spans)) <= size - 1 - from.
Proof.
  intros Ho Hf Hl. revert from Ho Hf. induction spans as [|sp spans IH]; intros from Ho Hf; cbn [outside].
  - rewrite length_drop. lia.
  - destruct Ho as (H1 & H2 & H3 & H4). specialize (IH (token_end sp) H4 ltac:(lia)).
    rewrite length_app, length_take, length_drop. lia.
Qed.

Lemma ordered_lookup size from spans i sp : ordered size from spans → spans !! i = Some sp →
  token_begin sp < size - 1.
Proof.
  revert from i. induction spans as [|sp' spans IH]; intros from [|i]; cbn; [done..| |].
  - intros (? & ? & ? & _) [= ->]. lia.
  - intros (_ & _ & _ & Ho). by eapply IH.
Qed.

Lemma length_outside_before tokens spans i : ordered (N.of_nat (length tokens)) 0 spans →
  N.of_nat (length (outside_before tokens 0 spans i)) <= N.of_nat (length tokens) - 1.
Proof.
  intros Ho. unfold outside_before. destruct (spans !! i) as [sp|] eqn:Hi; [|cbn; lia].
  pose proof (ordered_lookup _ _ _ _ _ Ho Hi).
  pose proof (length_outside (N.of_nat (length tokens)) (take (N.to_nat (token_begin sp)) tokens) 0 (take i spans)
    (ordered_take _ _ _ _ Ho)) as H'. rewrite length_take in H'. lia.
Qed.

Lemma interpret_leave text includes_fit can_emit tokens sp depth incs c incs' diags :
  interpret text includes_fit can_emit tokens sp depth incs = Some (Leave c incs' diags) →
  c = not_available ∨ c = invalid_argument ∧ ¬ opens_directive tokens (token_begin sp).
Proof.
  unfold interpret, fail, push_include, mbind, option_bind. rewrite N.add_0_r.
  repeat case_match; intros; simplify_eq; auto. right. split; [done|]. intros (t & Ht & Hk & Hp & Hfl). simplify_eq.
  match goal with H : _ || _ = true |- _ => revert H end. unfold is_punctuation. rewrite Hk, Hp, Hfl.
  by rewrite !bool_decide_eq_true_2 by done.
Qed.

Lemma interpret_all_leave text includes_fit can_emit tokens spans scan depth incs c incs' diags :
  interpret_all text includes_fit can_emit tokens spans scan depth incs = Some (Leave c incs' diags) →
  c = not_available ∨ c = invalid_argument.
Proof.
  revert scan depth incs. induction spans as [|sp spans IH]; cbn [interpret_all]; [done|]. intros scan depth incs.
  destruct (_ || _); [intros [= <- _ _]; by right|]. destruct (scan_braces _ _); [|intros [= <- _ _]; by right].
  destruct (interpret _ _ _ _ _ _ _) as [[|c1 ? ?]|] eqn:Ei; cbn; [apply IH| |done].
  intros [= -> _ _]. apply interpret_leave in Ei as [|[]]; auto.
Qed.

(** With spans as the lexer reports them only a brace too many is an invalid argument. *)
Lemma interpret_all_invalid text includes_fit can_emit tokens spans scan depth incs incs' diags :
  ordered (N.of_nat (length tokens)) scan spans → Forall (λ sp, opens_directive tokens (token_begin sp)) spans →
  interpret_all text includes_fit can_emit tokens spans scan depth incs = Some (Leave invalid_argument incs' diags) →
  ∃ i, scan_braces (outside_before tokens scan spans i) depth = None.
Proof.
  revert scan depth incs. induction spans as [|sp spans IH]; intros scan depth incs Ho Hopen; cbn [interpret_all]; [done|].
  pose proof Ho as (H1 & H2 & H3 & H4). inversion_clear Hopen as [|? ? Hsp Hopen'].
  rewrite (proj2 (N.leb_gt _ _)), (proj2 (N.ltb_ge _ _)), (proj2 (N.ltb_ge _ _)) by lia. cbn [orb].
  destruct (scan_braces _ depth) as [depth'|] eqn:Ed; [|intros _; exists 0%nat; by rewrite outside_before_0].
  destruct (interpret _ _ _ _ _ _ _) as [r|] eqn:Ei; cbn [mbind option_bind]; [|done]. destruct r as [incs1|c incs1 ds].
  - intros Hall. destruct (IH _ _ _ H4 Hopen' Hall) as [i Hi]. exists (S i).
    destruct (spans !! i) as [sp'|] eqn:Hsp'; [|by unfold outside_before in Hi; rewrite Hsp' in Hi].
    rewrite (outside_before_S _ _ _ _ _ _ _ Ho Hsp'), scan_braces_app, Ed. exact Hi.
  - intros [= -> _ _]. by apply interpret_leave in Ei as [|[_ []]].
Qed.

(** The path of an include is what stands between two quotes. *)
Definition quoted_in (text : list N) (inc : source_include_directive) : Prop :=
  ∃ pre body post, text = pre ++ 34 :: body ++ 34 :: post ∧ literal 34 body ∧
    path inc = SourceSpan (N.of_nat (length pre) + 1) (N.of_nat (length body)) ∧
    visible_from inc = N.of_nat (length pre) + N.of_nat (length body) + 2.

Lemma means_quoted text tokens sp inc : tokenizes 0 true text tokens → N.of_nat (length text) <= 0xffffffff →
  means text tokens sp inc → Forall (quoted_in text) inc.
Proof.
  intros Htok Hlen [h n header Hsp Hh Hn Hni Hk Hl|]; [|done]. apply Forall_singleton.
  assert (Hat : span_tokens tokens sp !! 2%nat = Some header) by by rewrite Hsp.
  unfold span_tokens in Hat. apply lookup_take_Some in Hat as [_ Hat]. rewrite lookup_drop in Hat.
  destruct (tokenizes_lookup _ _ _ _ _ _ Htok Hat) as (pre & w & follow & E & Hw & Ho & Hlw); [by rewrite Hk|].
  rewrite Hk in Hw. inversion Hw as [c body f Hc Hb Hf Hik| |body f Hb| | | |]; subst.
  - unfold identifier_kind in Hik. by repeat case_bool_decide.
  - exists pre, body, follow. unfold include_of. cbn [path visible_from]. rewrite Ho, Hlw.
    rewrite !length_app in Hlen. cbn [length app] in *. rewrite length_app in *. cbn [length] in *.
    rewrite !w32_small by (unfold two32; lia). split_and!; [by rewrite <-app_assoc|done|f_equal; lia|lia].
Qed.

Lemma spans_from_ordered body t from spans : spans_from body from spans →
  ordered (N.of_nat (length (body ++ [t]))) from spans ∧
  Forall (λ sp, opens_directive (body ++ [t]) (token_begin sp)) spans.
Proof.
  revert from. induction spans as [|sp spans IH]; intros from; cbn [spans_from ordered]; [done|].
  intros (? & ? & ? & ? & [IH1 IH2]%IH). rewrite length_app in *. cbn [length] in *. split.
  - split_and!; [done|done|lia|done].
  - constructor; [by apply opens_directive_app|done].
Qed.

(** ** Properties *)

Section properties.
Context (text : list N) (includes_fit : nat → bool) (can_emit : bool).

(** Whatever tokens and spans it is given, the call returns and never
    reads or writes outside the token vector. *)
Theorem discover_in_bounds source tokens directives : is_Some (discover_source_includes text includes_fit can_emit source tokens directives).
Proof.
  unfold discover_source_includes. destruct (_ || _) eqn:Eg; [done|]. bools.
  destruct (interpret_all_in_bounds text includes_fit can_emit tokens directives 0 0 []) as [r Hr]. rewrite Hr. cbn.
  destruct r; [|done]. apply interpret_all_proceed in Hr as [Ho _].
  match goal with H : bool_decide (tokens = []) = false |- _ => apply bool_decide_eq_false in H end.
  by rewrite compact_ordered.
Qed.

(** C35: a successful call leaves exactly the tokens outside the directive
    spans; every span is an include of a quoted name or a [pragma once]; the includes are
    those of the include directives in order, and every include stands where all braces
    opened before it are closed. *)
Theorem discover_success source tokens directives d : N.of_nat (length tokens) < two32 →
  discover_source_includes text includes_fit can_emit source tokens directives = Some d → code d = ok →
  source = true ∧ tokens_left d = outside tokens 0 directives ∧
  ∃ incss, Forall2 (means text tokens) directives incss ∧ includes d = concat incss ∧
    ∀ i inc, incss !! i = Some inc → inc ≠ [] → balanced (outside_before tokens 0 directives i).
Proof.
  intros Hlen. unfold discover_source_includes. destruct (_ || _) eqn:Eg; [by intros [= <-]|]. bools.
  destruct (interpret_all _ _ _ _ _ _ _ _) as [[incs|c incs ds]|] eqn:Hall; cbn [mbind option_bind]; [| |done].
  - apply interpret_all_proceed in Hall as (Ho & incss & -> & Hm & Hb).
    match goal with H : bool_decide (tokens = []) = false |- _ => apply bool_decide_eq_false in H end.
    rewrite compact_ordered by done. cbn. intros [= <-] _. cbn. split_and!; [done..|]. exists incss.
    split_and!; [done..|]. intros i inc Hi Hne. specialize (Hb i inc Hi Hne).
    pose proof (length_outside_before tokens directives i Ho).
    apply scan_braces_spec in Hb as [H1' H2']; [|lia]. split; [lia|]. intros k. specialize (H2' k). lia.
  - intros [= <-] Hc. cbn in Hc. subst c. by apply interpret_all_leave in Hall as [].
Qed.

(** On what the lexer reports for a text, the call succeeds, or
    refuses with not_available, or finds a closing brace without an opening one; and the
    path of every include is the text between the quotes of a string literal, visible from
    behind the closing quote. *)
Theorem discover_after_lexing tokens_fit directives_fit lex_emit tokens directives :
  lex_source tokens_fit directives_fit lex_emit true (Some text) = Some (ok, tokens, directives, []) →
  ∃ d, discover_source_includes text includes_fit can_emit true tokens directives = Some d ∧
    (code d = ok ∧ Forall (quoted_in text) (includes d) ∨ code d = not_available ∨
     code d = invalid_argument ∧ ∃ i k, let l := take k (outside_before tokens 0 directives i) in
       (braces left_brace l < braces right_brace l)%nat).
Proof.
  intros (Hlen & Htok & Hspans)%lex_source_ok.
  pose proof (tokenizes_last _ _ _ _ Htok) as [(body & t & -> & Ht) Hcount]. rewrite removelast_last in Hspans.
  destruct (spans_from_ordered body t 0 directives Hspans) as [Ho Hopen].
  destruct (interpret_all_in_bounds text includes_fit can_emit (body ++ [t]) directives 0 0 []) as [r Hr].
  unfold discover_source_includes. rewrite Hr, last_snoc. cbn [fmap option_fmap option_map]. rewrite Ht.
  rewrite bool_decide_eq_false_2 by by destruct body. rewrite (bool_decide_eq_true_2 (Some eof = Some eof)) by done.
  cbn [negb orb mbind option_bind]. destruct r as [incs|c incs ds].
  - rewrite compact_ordered; [|by destruct body|done]. cbn. eexists. split; [done|]. left. split; [done|]. cbn.
    apply interpret_all_proceed in Hr as (_ & incss & -> & Hm & _). apply Forall_concat. clear Ho Hopen Hspans.
    induction Hm as [|sp inc spans incss Hsp _ IH]; constructor; [|done].
    eapply means_quoted; [exact Htok|done|exact Hsp].
  - eexists. split; [done|]. right. cbn. pose proof (interpret_all_leave _ _ _ _ _ _ _ _ _ _ _ Hr) as [->| ->]; [by left|].
    right. split; [done|]. apply interpret_all_invalid in Hr as [i Hi]; [|done..].
    pose proof (length_outside_before (body ++ [t]) directives i Ho) as Hob.
    apply scan_braces_None in Hi as [k Hk]; [exists i, k; cbn; lia|]. unfold two32. lia.
Qed.
End properties.

(** ** Witnesses *)

Definition sample_result : discovered :=
  Discovered ok (drop 3 sample_tokens) [IncludeDirective (SourceSpan 10 1) 12] [].

Example discover_sample :
  discover_source_includes sample all_fit true true sample_tokens [DirectiveSpan 0 3] = Some sample_result.
Proof. vm_compute. reflexivity. Qed.

Lemma discover_success_witness : tokens_left sample_result = outside sample_tokens 0 [DirectiveSpan 0 3].
Proof.
  apply (discover_success sample all_fit true true sample_tokens [DirectiveSpan 0 3] sample_result).
  - vm_compute. reflexivity.
  - vm_compute. reflexivity.
  - reflexivity.
Defined.

Lemma discover_after_lexing_witness :
  ∃ d, discover_source_includes sample all_fit true true sample_tokens [DirectiveSpan 0 3] = Some d.
Proof.
  destruct (discover_after_lexing sample all_fit true all_fit all_fit true sample_tokens [DirectiveSpan 0 3])
    as (d & E & _).
  - vm_compute. reflexivity.
  - exists d. exact E.
Defined.

End IncludeDiscovery.
