(* ===== verification/Construction.v ===== *)
(** * Construction values and aggregate initializers

    Models server_engine/project/frontend/construction_value.hpp and
    aggregate_initializer.hpp: the normalized initializer of a member, its sixteen-byte
    encoding, and the restricted initializer grammar with its parser and printer.  Text is a
    list of bytes; the parser threads the node count and the text from the position on, and
    recurses on a fuel ([Stuck] is shown not to happen).  Conversion of [double] by the
    standard library is a parameter, a double being its 64 bits. *)

From S2P Require Import Prelude Json.

Local Open Scope N_scope.

Module Construction.

(** ** Values *)

(** The enumeration has a fixed underlying type, so every 32-bit value may occur. *)
Inductive construction_kind : Set :=
| zero | signed_integer | unsigned_integer | real | member_binding | unsupported | aggregate
| other_kind (value : N).

#[global] Instance construction_kind_eq_dec : EqDecision construction_kind.
Proof. solve_decision. Defined.

Record construction_value : Set := ConstructionValue {
  low : N; high : N; operand : N; kind : construction_kind }.

#[global] Instance construction_value_eq_dec : EqDecision construction_value.
Proof. solve_decision. Defined.

(** [construction_value{}]. *)
Definition zero_value : construction_value := ConstructionValue 0 0 0 zero.

Definition bits (value : construction_value) : N := N.lor (low value) (w64 (N.shiftl (high value) 32)).

Definition constant (kind : construction_kind) (bits : N) : construction_value :=
  ConstructionValue (w32 bits) (w32 (N.shiftr bits 32)) 0 kind.

Definition valid_construction (value : construction_value) : bool :=
  match kind value with
  | zero | unsupported => (bits value =? 0) && (operand value =? 0)
  | member_binding => (bits value =? 0) && negb (operand value =? 0)
  | aggregate => (bits value =? 0) && negb (operand value =? 0)
  | signed_integer | unsigned_integer | real => operand value =? 0
  | other_kind _ => false
  end.

(** ** The sixteen-byte encoding *)

Definition kind_word (k : construction_kind) : N :=
  match k with
  | zero => 0 | signed_integer => 1 | unsigned_integer => 2 | real => 3
  | member_binding => 4 | unsupported => 5 | aggregate => 6 | other_kind value => value
  end.

Definition kind_of_word (word : N) : construction_kind :=
  match word with
  | 0 => zero | 1 => signed_integer | 2 => unsigned_integer | 3 => real
  | 4 => member_binding | 5 => unsupported | 6 => aggregate | _ => other_kind word
  end.

Definition write_word (word : N) : list N := (λ j, w8 (N.shiftr word (j * 8))) <$> [0; 1; 2; 3].

Definition write_construction (value : construction_value) : list N :=
  concat (write_word <$> [low value; high value; operand value; kind_word (kind value)]).

(** The word of four bytes from an index on. *)
Definition read_word (input : list N) (i : nat) : N :=
  foldl (λ word j, N.lor word (w32 (N.shiftl (default 0 (input !! (i * 4 + j)%nat)) (N.of_nat j * 8)))) 0
    [0; 1; 2; 3]%nat.

Definition read_construction (input : list N) : construction_value :=
  ConstructionValue (read_word input 0) (read_word input 1) (read_word input 2)
    (kind_of_word (read_word input 3)).

(** ** Aggregate initializers *)

Inductive aggregate_initializer : Set :=
| Aggregate (value : construction_value) (is_list : bool) (children : list aggregate_initializer).

Definition leaf (value : construction_value) : aggregate_initializer := Aggregate value false [].
Definition listed (children : list aggregate_initializer) : aggregate_initializer :=
  Aggregate zero_value true children.

Definition is_space (c : N) : bool := (c =? 32) || (c =? 9) || (c =? 10) || (c =? 13).

Fixpoint skip (text : list N) : list N :=
  match text with
  | c :: text' => if is_space c then skip text' else text
  | [] => []
  end.

(** The token up to a separator, and what follows. *)
Definition separator (c : N) : bool := (c =? 44) || (c =? 125) || (c =? 41).

Fixpoint take_token (text : list N) : list N * list N :=
  match text with
  | c :: text' =>
      if separator c then ([], text)
      else let '(token, rest) := take_token text' in (c :: token, rest)
  | [] => ([], [])
  end.

(** The text behind an expected character. *)
Definition expect (c : N) (text : list N) : option (list N) :=
  match text with d :: text' => if d =? c then Some text' else None | [] => None end.

(** Dropping the white space at the end. *)
Definition trim (token : list N) : list N := rev (skip (rev token)).

Definition all_digits (token : list N) : bool := negb (bool_decide (token = [])) && forallb Json.is_digit token.

(** [std::from_chars] for the two integer types, on the whole token. *)
Definition from_chars_uint64 (token : list N) : option N :=
  if all_digits token && (Json.digits_value token <? two64) then Some (Json.digits_value token) else None.

Definition from_chars_int64 (token : list N) : option Z :=
  match token with
  | 45 :: digits =>
      if all_digits digits && (Json.digits_value digits <=? two63)
      then Some (- Z.of_N (Json.digits_value digits))%Z else None
  | _ =>
      if all_digits token && (Json.digits_value token <? two63)
      then Some (Z.of_N (Json.digits_value token)) else None
  end.

Definition word_false : list N := [102; 97; 108; 115; 101].
Definition word_nullptr : list N := [110; 117; 108; 108; 112; 116; 114].
Definition word_true : list N := [116; 114; 117; 101].

Definition real_mark (c : N) : bool := (c =? 46) || (c =? 101) || (c =? 69).

Inductive outcome : Set :=
| Parsed (value : aggregate_initializer) (nodes : N) (rest : list N)
| Rejected
| Stuck.

Section aggregate.
(** The bits of the finite [double] a whole token stands for; the shortest text of one. *)
Context (from_chars_double : list N → option N) (to_chars_double : N → list N).

Definition token_value (token : list N) : option construction_value :=
  if bool_decide (token = word_false) || bool_decide (token = word_nullptr) then Some zero_value
  else if bool_decide (token = word_true) then Some (constant unsigned_integer 1)
  else
    let token := match token with 43 :: token' => token' | _ => token end in
    match token with
    | [] => None
    | c :: _ =>
        if existsb real_mark token then constant real <$> from_chars_double token
        else if c =? 45 then (λ z, constant signed_integer (bits_of_int64 z)) <$> from_chars_int64 token
        else constant unsigned_integer <$> from_chars_uint64 token
    end.

Fixpoint parse (fuel : nat) (depth nodes : N) (text : list N) : outcome :=
  match fuel with
  | O => Stuck
  | S fuel' =>
      if 64 <? depth then Rejected
      else
        let nodes := nodes + 1 in
        if 65536 <? nodes then Rejected
        else
          match skip text with
          | [] => Rejected
          | c :: text =>
              if c =? 123 then
                match expect 125 (skip text) with
                | Some text => Parsed (listed []) nodes text
                | None => parse_children fuel' depth nodes [] (skip text)
                end
              else if c =? 40 then
                match parse fuel' (depth + 1) nodes text with
                | Parsed value nodes text =>
                    match expect 41 (skip text) with
                    | Some text => Parsed value nodes text
                    | None => Rejected
                    end
                | o => o
                end
              else
                let '(token, text) := take_token (c :: text) in
                match token_value (trim token) with
                | Some value => Parsed (leaf value) nodes text
                | None => Rejected
                end
          end
  end
(** The loop over the elements of a list, with those before. *)
with parse_children (fuel : nat) (depth nodes : N) (children : list aggregate_initializer)
    (text : list N) : outcome :=
  match fuel with
  | O => Stuck
  | S fuel' =>
      match parse fuel' (depth + 1) nodes text with
      | Parsed child nodes text =>
          let text := skip text in
          match expect 125 text with
          | Some text => Parsed (listed (children ++ [child])) nodes text
          | None =>
              match expect 44 text with
              | Some text =>
                  let text := skip text in
                  match expect 125 text with
                  | Some text => Parsed (listed (children ++ [child])) nodes text
                  | None => parse_children fuel' depth nodes (children ++ [child]) text
                  end
              | None => Rejected
              end
          end
      | o => o
      end
  end.

Definition parse_fuel (text : list N) : nat := 2 * length text + 2.

(** Nothing for a rejected text. *)
Definition parse_aggregate_initializer (text : list N) : option aggregate_initializer :=
  match parse (parse_fuel text) 0 0 text with
  | Parsed value _ text => match skip text with [] => Some value | _ => None end
  | _ => None
  end.

(** ** Printing *)

Definition print_real (bits : N) : list N :=
  let number := to_chars_double bits in
  if existsb real_mark number then number else number ++ [46; 48].

Definition print_leaf (value : construction_value) : list N :=
  match kind value with
  | real => print_real (bits value)
  | signed_integer => Json.print_integer (int64_of_bits (bits value))
  | _ => Json.print_natural (bits value)
  end.

Fixpoint encode_aggregate_initializer (value : aggregate_initializer) : list N :=
  match value with
  | Aggregate value false _ => print_leaf value
  | Aggregate _ true children =>
      123 :: (fix encode_children (children : list aggregate_initializer) (first : bool) : list N :=
        match children with
        | [] => [125]
        | child :: children =>
            (if first then [] else [44]) ++ encode_aggregate_initializer child ++ encode_children children false
        end) children true
  end.
End aggregate.

(** ** The encoding *)

Ltac by_digits := zify; Z.to_euclidean_division_equations; lia.

(** The word of four bytes, most significant last. *)
Lemma word_of_bytes b0 b1 b2 b3 : b0 < 256 → b1 < 256 → b2 < 256 → b3 < 256 →
  N.lor (N.lor (N.lor (N.lor 0 (w32 (N.shiftl b0 (0 * 8)))) (w32 (N.shiftl b1 (1 * 8))))
    (w32 (N.shiftl b2 (2 * 8)))) (w32 (N.shiftl b3 (3 * 8))) = b0 + b1 * 2 ^ 8 + b2 * 2 ^ 16 + b3 * 2 ^ 24.
Proof.
  intros H0 H1 H2 H3. rewrite !N.shiftl_mul_pow2. change (2 ^ (0 * 8)) with 1. change (2 ^ (1 * 8)) with (2 ^ 8).
  change (2 ^ (2 * 8)) with (2 ^ 16). change (2 ^ (3 * 8)) with (2 ^ 24). rewrite N.mul_1_r, N.lor_0_l.
  rewrite !w32_small by (unfold two32; lia).
  rewrite (N.lor_comm b0), (lor_add_low 8) by lia. rewrite (N.lor_comm (b1 * 2 ^ 8 + b0)), (lor_add_low 16) by lia.
  rewrite (N.lor_comm (b2 * 2 ^ 16 + _)), (lor_add_low 24) by lia. lia.
Qed.

Lemma write_word_alt w : write_word w = [w mod 256; w / 2 ^ 8 mod 256; w / 2 ^ 16 mod 256; w / 2 ^ 24 mod 256].
Proof.
  unfold write_word. cbn [fmap list_fmap map]. rewrite !w8_mod, !N.shiftr_div_pow2.
  change (2 ^ (0 * 8)) with 1. by rewrite N.div_1_r.
Qed.

Lemma read_word_bytes input i b0 b1 b2 b3 : input !! (i * 4 + 0)%nat = Some b0 → input !! (i * 4 + 1)%nat = Some b1 →
  input !! (i * 4 + 2)%nat = Some b2 → input !! (i * 4 + 3)%nat = Some b3 →
  b0 < 256 → b1 < 256 → b2 < 256 → b3 < 256 →
  read_word input i = b0 + b1 * 2 ^ 8 + b2 * 2 ^ 16 + b3 * 2 ^ 24.
Proof.
  intros E0 E1 E2 E3 **. unfold read_word. cbn [foldl]. rewrite E0, E1, E2, E3. by apply word_of_bytes.
Qed.

Lemma read_written input i w : w < two32 → (∀ j, (j < 4)%nat → input !! (i * 4 + j)%nat = write_word w !! j) →
  read_word input i = w.
Proof.
  intros Hw Hin. rewrite write_word_alt in Hin.
  rewrite (read_word_bytes _ _ _ _ _ _ (Hin 0%nat ltac:(lia)) (Hin 1%nat ltac:(lia)) (Hin 2%nat ltac:(lia)) (Hin 3%nat ltac:(lia)))
    by (apply N.mod_lt; lia).
  unfold two32 in Hw. clear Hin. by_digits.
Qed.

Lemma written_read b0 b1 b2 b3 : b0 < 256 → b1 < 256 → b2 < 256 → b3 < 256 →
  write_word (b0 + b1 * 2 ^ 8 + b2 * 2 ^ 16 + b3 * 2 ^ 24) = [b0; b1; b2; b3].
Proof. intros. rewrite write_word_alt. repeat f_equal; by_digits. Qed.

Lemma kind_word_round_trip w : kind_word (kind_of_word w) = w.
Proof. destruct w as [|p]; [done|]. do 3 (try destruct p as [p|p|]; try done). Qed.

(** The kinds as they can be stored: [other_kind] only for words that name no other. *)
Definition proper_kind (k : construction_kind) : Prop :=
  match k with other_kind w => 7 <= w < two32 | _ => True end.

Lemma kind_of_kind_word k : proper_kind k → kind_of_word (kind_word k) = k.
Proof.
  destruct k as [| | | | | | |w]; cbn; try done. intros [Hw _]. destruct w as [|p]; [lia|].
  do 3 (try destruct p as [p|p|]; try done); lia.
Qed.

Definition proper (value : construction_value) : Prop :=
  low value < two32 ∧ high value < two32 ∧ operand value < two32 ∧ proper_kind (kind value).

(** Reading the sixteen bytes written for a value gives the value
    back, and writing what was read from any sixteen bytes gives those bytes. *)
Theorem construction_round_trip :
  (∀ value, proper value → read_construction (write_construction value) = value) ∧
  (∀ input, length input = 16%nat → Forall (λ b, b < 256) input →
     write_construction (read_construction input) = input).
Proof.
  split.
  - intros [l h o k] (Hl & Hh & Ho & Hk). cbn [low high operand kind] in *. unfold read_construction, write_construction.
    cbn [low high operand kind fmap list_fmap map concat].
    assert (Hk' : kind_word k < two32) by (destruct k; cbn in *; (done || lia)).
    rewrite (read_written _ 0 l Hl), (read_written _ 1 h Hh), (read_written _ 2 o Ho), (read_written _ 3 _ Hk');
      [by rewrite kind_of_kind_word|..]; intros j Hj; do 4 (destruct j as [|j]; [done|]); lia.
  - intros input Hlen Hb.
    do 16 (destruct input as [|? input]; [done|]). destruct input; [|done]. rewrite !Forall_cons in Hb. destruct_and! Hb.
    unfold read_construction, write_construction. cbn [low high operand kind fmap list_fmap map concat].
    rewrite kind_word_round_trip. erewrite !read_word_bytes by (reflexivity || done). by rewrite !written_read by done.
Qed.

(** ** The parser *)

Fixpoint aggregate_ind' (P : aggregate_initializer → Prop)
    (H : ∀ value b children, Forall P children → P (Aggregate value b children)) (a : aggregate_initializer) : P a :=
  match a with
  | Aggregate value b children =>
      H value b children
        ((fix all (l : list aggregate_initializer) : Forall P l :=
            match l with [] => Forall_nil_2 P | c :: l' => Forall_cons_2 P c l' (aggregate_ind' P H c) (all l') end) children)
  end.

(** Nodes and nesting of a tree. *)
Fixpoint size (a : aggregate_initializer) : N :=
  match a with Aggregate _ _ children => 1 + foldr (λ c n, size c + n) 0 children end.
Fixpoint height (a : aggregate_initializer) : N :=
  match a with Aggregate _ _ children => foldr (λ c n, N.max (height c + 1) n) 0 children end.

Definition sizes (l : list aggregate_initializer) : N := foldr (λ c n, size c + n) 0 l.
Definition heights (l : list aggregate_initializer) : N := foldr (λ c n, N.max (height c + 1) n) 0 l.

Lemma sizes_cons c l : sizes (c :: l) = size c + sizes l.
Proof. done. Qed.

Lemma heights_cons c l : heights (c :: l) = N.max (height c + 1) (heights l).
Proof. done. Qed.

Lemma sizes_app l k : sizes (l ++ k) = sizes l + sizes k.
Proof. induction l as [|c l IH]; [done|]. cbn. fold (sizes (l ++ k)) (sizes l). rewrite IH. lia. Qed.

Lemma heights_app l k : heights (l ++ k) = N.max (heights l) (heights k).
Proof. induction l as [|c l IH]; [change (heights []) with 0; cbn [app]; lia|]. cbn. fold (heights (l ++ k)) (heights l). rewrite IH. lia. Qed.

(** The leaves there can be: constants of 64 bits. *)
Definition constant_leaf (value : construction_value) : Prop :=
  valid_construction value = true ∧ proper value ∧
  match kind value with zero | signed_integer | unsigned_integer | real => True | _ => False end.

(** Values at leaves only, and constants. *)
Fixpoint well_formed (a : aggregate_initializer) : Prop :=
  match a with
  | Aggregate value false children => constant_leaf value ∧ children = []
  | Aggregate value true children => value = zero_value ∧ foldr (λ c P, well_formed c ∧ P) True children
  end.

Lemma well_formed_listed l : well_formed (listed l) ↔ Forall well_formed l.
Proof.
  cbn. split.
  - intros [_ H]. induction l as [|c l IH]; [constructor|]. destruct H as [H1 H2]. constructor; [done|by apply IH].
  - intros H. split; [done|]. by induction H.
Qed.

Lemma skip_le text : (length (skip text) <= length text)%nat.
Proof. induction text as [|c text IH]; cbn; [done|]. destruct (is_space c); cbn; lia. Qed.

Lemma expect_Some c text rest : expect c text = Some rest → text = c :: rest.
Proof. destruct text as [|d text]; cbn; [done|]. destruct (N.eqb_spec d c) as [->|]; [|done]. by intros [= ->]. Qed.

Lemma take_token_app text : text = (take_token text).1 ++ (take_token text).2.
Proof.
  induction text as [|c text IH]; cbn; [done|]. destruct (separator c); [done|].
  destruct (take_token text). cbn in *. by f_equal.
Qed.

Lemma constant_proper k b : (k = signed_integer ∨ k = unsigned_integer ∨ k = real) → constant_leaf (constant k b).
Proof.
  intros Hk. unfold constant_leaf, proper. cbn. pose proof (w32_lt b). pose proof (w32_lt (N.shiftr b 32)).
  destruct Hk as [->|[->| ->]]; split_and!; done.
Qed.

Section parser.
Context (from_chars_double : list N → option N).
Local Notation token_value := (token_value from_chars_double).
Local Notation parse := (parse from_chars_double).
Local Notation parse_children := (parse_children from_chars_double).

Lemma token_value_nil : token_value [] = None.
Proof. done. Qed.

Lemma token_value_leaf token value : token_value token = Some value → constant_leaf value.
Proof.
  unfold Construction.token_value. destruct (_ || _); [by intros [= <-]|].
  destruct (bool_decide _); [intros [= <-]; apply constant_proper; auto|].
  destruct (match token with 43 :: t => t | _ => token end) as [|c t]; [done|].
  destruct (existsb _ _); [|destruct (c =? 45)]; intros (x & _ & ->)%fmap_Some;
    apply constant_proper; auto.
Qed.

(** What an outcome means for the text it was given. *)
Definition sound (depth nodes : N) (text : list N) (o : outcome) : Prop :=
  match o with
  | Parsed a nodes' rest =>
      (length rest < length text)%nat ∧ nodes + size a <= nodes' ∧ nodes' <= 65536 ∧
      depth + height a <= 64 ∧ well_formed a
  | Rejected => True
  | Stuck => False
  end.

Definition sound_children (depth nodes : N) (children : list aggregate_initializer) (text : list N) (o : outcome) : Prop :=
  match o with
  | Parsed a nodes' rest => ∃ more, a = listed (children ++ more) ∧
      (length rest < length text)%nat ∧ nodes + sizes more <= nodes' ∧ nodes' <= 65536 ∧
      depth + heights more <= 64 ∧ Forall well_formed more
  | Rejected => True
  | Stuck => False
  end.

Lemma parse_sound fuel :
  (∀ depth nodes text, (2 * length text + 1 <= fuel)%nat → sound depth nodes text (parse fuel depth nodes text)) ∧
  (∀ depth nodes children text, (2 * length text + 2 <= fuel)%nat → depth <= 64 →
     sound_children depth nodes children text (parse_children fuel depth nodes children text)).
Proof.
  induction fuel as [|fuel [IHp IHc]]; [split; intros; lia|]. split.
  - intros depth nodes text Hfuel. cbn [Construction.parse]. destruct (N.ltb_spec 64 depth) as [|Hd]; [done|].
    destruct (N.ltb_spec 65536 (nodes + 1)) as [|Hn]; [done|].
    pose proof (skip_le text) as Hs. destruct (skip text) as [|c rest]; [done|]. cbn [length] in Hs.
    pose proof (skip_le rest) as Hs'. destruct (c =? 123); [|destruct (c =? 40)].
    + destruct (expect 125 (skip rest)) as [r|] eqn:He.
      * apply expect_Some in He. rewrite He in Hs'. cbn [length] in Hs'. cbn. split_and!; try done; lia.
      * specialize (IHc depth (nodes + 1) [] (skip rest) ltac:(lia) Hd).
        destruct (parse_children _ _ _ _ _) as [a n r| |]; [|done..].
        destruct IHc as (more & -> & H1 & H2 & H3 & H4 & H5). cbn [sound app].
        split_and!; [lia| |done|done|by apply well_formed_listed].
        change (size (listed more)) with (1 + sizes more). lia.
    + specialize (IHp (depth + 1) (nodes + 1) rest ltac:(lia)).
      destruct (parse fuel _ _ _) as [a n r| |]; [|done..]. pose proof (skip_le r).
      destruct (expect 41 (skip r)) as [r'|] eqn:He; [|done]. apply expect_Some in He. rewrite He in H.
      cbn [sound length] in *. destruct IHp as (H1 & H2 & H3 & H4 & H5). split_and!; try done; lia.
    + pose proof (take_token_app (c :: rest)) as Happ. destruct (take_token (c :: rest)) as [token r]. cbn [fst snd] in Happ.
      destruct (token_value (trim token)) as [value|] eqn:Hv; [|done]. cbn [sound]. apply token_value_leaf in Hv as Hleaf.
      assert (token ≠ []) by (intros ->; unfold trim in Hv; cbn in Hv; done).
      split_and!; [|cbn; lia|lia|cbn; lia|by split].
      apply (f_equal length) in Happ. rewrite length_app in Happ. cbn [length] in Happ. destruct token; [done|]. cbn [length] in Happ. lia.
  - intros depth nodes children text Hfuel Hd. cbn [Construction.parse_children].
    specialize (IHp (depth + 1) nodes text ltac:(lia)). destruct (parse fuel _ _ _) as [a n r| |]; [|done..].
    cbn [sound] in IHp. destruct IHp as (H1 & H2 & H3 & H4 & H5). pose proof (skip_le r) as Hr.
    assert (Hone : ∀ r', (length r' < length text)%nat →
      sound_children depth nodes children text (Parsed (listed (children ++ [a])) n r')).
    { intros r' Hr'. exists [a]. split_and!; [done|exact Hr'|cbn; lia|done|cbn; lia|by constructor]. }
    destruct (expect 125 (skip r)) as [r'|] eqn:He.
    { apply expect_Some in He. rewrite He in Hr. cbn [length] in Hr. apply Hone. lia. }
    destruct (expect 44 (skip r)) as [r'|] eqn:Hcomma; [|done]. apply expect_Some in Hcomma. rewrite Hcomma in Hr.
    cbn [length] in Hr. pose proof (skip_le r') as Hr'. destruct (expect 125 (skip r')) as [r2|] eqn:He2.
    { apply expect_Some in He2. rewrite He2 in Hr'. cbn [length] in Hr'. apply Hone. lia. }
    specialize (IHc depth n (children ++ [a]) (skip r') ltac:(lia) Hd).
    destruct (parse_children _ _ _ _ _) as [a' n' r3| |]; [|done..].
    destruct IHc as (more & -> & G1 & G2 & G3 & G4 & G5). exists (a :: more). rewrite <-app_assoc. cbn [app sizes heights foldr].
    fold (sizes more) (heights more). split_and!; [done|lia|lia|done|lia|by constructor].
Qed.
End parser.

(** ** Printing and parsing *)

Lemma bits_lt value : low value < two32 → high value < two32 →
  bits value = low value + high value * two32 ∧ bits value < two64.
Proof.
  intros Hl Hh. unfold bits. rewrite N.shiftl_mul_pow2. change (2 ^ 32) with two32.
  unfold two32, two64 in *. rewrite w64_small by (unfold two64; lia).
  rewrite N.lor_comm. change 4294967296 with (2 ^ 32) in *. rewrite lor_add_low by lia. split; lia.
Qed.

Lemma bits_constant k b : b < two64 → bits (constant k b) = b.
Proof.
  intros Hb. destruct (bits_lt (constant k b)) as [-> _]; [apply w32_lt..|]. cbn [constant low high].
  rewrite (w32_small (N.shiftr b 32)), w32_mod, N.shiftr_div_pow2; [change (2 ^ 32) with two32|].
  - rewrite (N.div_mod b two32) at 3 by done. lia.
  - rewrite N.shiftr_div_pow2. apply N.Div0.div_lt_upper_bound. exact Hb.
Qed.

(** A printed leaf read back: zero and non-negative integers become unsigned. *)
Definition canonical_leaf (value : construction_value) : construction_value :=
  match kind value with
  | real => constant real (bits value)
  | signed_integer =>
      if bits value <? two63 then constant unsigned_integer (bits value) else constant signed_integer (bits value)
  | _ => constant unsigned_integer (bits value)
  end.

Fixpoint canonical (a : aggregate_initializer) : aggregate_initializer :=
  match a with
  | Aggregate value false _ => leaf (canonical_leaf value)
  | Aggregate _ true children => listed (map canonical children)
  end.

Definition token_char (c : N) : bool := negb (is_space c) && negb (separator c) && negb (c =? 123) && negb (c =? 40).

Section round_trip.
Context (from_chars_double : list N → option N) (to_chars_double : N → list N).
Local Notation token_value := (token_value from_chars_double).
Local Notation parse := (parse from_chars_double).
Local Notation parse_children := (parse_children from_chars_double).
Local Notation encode := (encode_aggregate_initializer to_chars_double).
Local Notation print_leaf := (print_leaf to_chars_double).
Local Notation print_real := (print_real to_chars_double).

(** What [std::to_chars] gives for a finite double: digits, a sign, a point, an exponent;
    and [std::from_chars] reads it back, with [.0] put behind it where it looks integral. *)
Definition real_prints (b : N) : Prop :=
  Forall (λ c, Json.is_digit c = true ∨ c = 45 ∨ c = 43 ∨ c = 46 ∨ c = 101) (to_chars_double b) ∧
  (∃ c, head (to_chars_double b) = Some c ∧ c ≠ 43) ∧
  from_chars_double (print_real b) = Some b.

Fixpoint printable (a : aggregate_initializer) : Prop :=
  match a with
  | Aggregate value false children =>
      low value < two32 ∧ high value < two32 ∧ (kind value = real → real_prints (bits value)) ∧ children = []
  | Aggregate _ true children => foldr (λ c P, printable c ∧ P) True children
  end.

Lemma digit_range c : Json.is_digit c = true → 48 <= c <= 57.
Proof. unfold Json.is_digit. intros H. bools. lia. Qed.

Lemma token_char_range c : 42 < c → c <= 101 → c ≠ 44 → token_char c = true.
Proof.
  intros. unfold token_char, is_space, separator.
  repeat match goal with |- context [?a =? ?b] => destruct (N.eqb_spec a b); [lia|] end. done.
Qed.

Lemma skip_token token r : Forall (λ c, token_char c = true) token → token ≠ [] → skip (token ++ r) = token ++ r.
Proof.
  intros [|c l Hc _]; [done|]. intros _. cbn. unfold token_char in Hc. bools.
  match goal with H : is_space c = false |- _ => by rewrite H end.
Qed.

Lemma trim_token token : Forall (λ c, token_char c = true) token → trim token = token.
Proof.
  intros Ht. unfold trim. destruct (decide (token = [])) as [->|Hne]; [done|].
  rewrite <-(app_nil_r (rev token)), skip_token, app_nil_r, rev_involutive; [done|by apply Forall_rev|].
  intros E. apply (f_equal (@rev N)) in E. by rewrite rev_involutive in E.
Qed.

(** What may follow a value. *)
Definition stops (r : list N) : Prop := match r with [] => True | c :: _ => c = 44 ∨ c = 125 end.

Lemma take_token_stops token r : Forall (λ c, token_char c = true) token → stops r → take_token (token ++ r) = (token, r).
Proof.
  intros Ht Hr. induction Ht as [|c l Hc _ IH]; cbn [app take_token].
  - destruct r as [|c r]; [done|]. cbn. destruct Hr as [->| ->]; done.
  - rewrite IH. unfold token_char in Hc. bools. match goal with H : separator c = false |- _ => by rewrite H end.
Qed.

Lemma parse_token fuel depth nodes token r value : Forall (λ c, token_char c = true) token → token ≠ [] → stops r →
  depth <= 64 → nodes + 1 <= 65536 → token_value token = Some value →
  parse (S fuel) depth nodes (token ++ r) = Parsed (leaf value) (nodes + 1) r.
Proof.
  intros Ht Hne Hr Hd Hn Hv. cbn [Construction.parse]. rewrite (proj2 (N.ltb_ge _ _) Hd), (proj2 (N.ltb_ge _ _) Hn).
  rewrite skip_token by done. pose proof (take_token_stops token r Ht Hr) as Htake. rewrite <-(trim_token token Ht) in Hv.
  destruct token as [|c l]; [done|]. inversion Ht as [|? ? Hc _]; subst. cbn [app] in *. unfold token_char in Hc. bools.
  rewrite (proj2 (N.eqb_neq c 123)), (proj2 (N.eqb_neq c 40)), Htake, Hv by done. done.
Qed.

Lemma digits_not_words c l : 42 < c <= 57 → bool_decide (c :: l = word_false) = false ∧
  bool_decide (c :: l = word_nullptr) = false ∧ bool_decide (c :: l = word_true) = false.
Proof. intros Hc. split_and!; apply bool_decide_eq_false; intros [= -> _]; lia. Qed.

Lemma no_real_mark l : Forall (λ c, Json.is_digit c = true ∨ c = 45) l → existsb real_mark l = false.
Proof.
  induction 1 as [|c l Hc _ IH]; [done|]. cbn. rewrite IH, orb_false_r. unfold real_mark.
  destruct Hc as [Hc%digit_range| ->]; [|done].
  repeat match goal with |- context [?a =? ?b] => destruct (N.eqb_spec a b); [lia|] end. done.
Qed.

Lemma all_digits_spec l : l ≠ [] → Forall (λ c, Json.is_digit c = true) l → all_digits l = true.
Proof.
  intros Hne Hl. unfold all_digits. rewrite bool_decide_eq_false_2 by done. cbn.
  apply forallb_forall. intros c Hc. rewrite Forall_forall in Hl. apply Hl. by apply list_elem_of_In.
Qed.

(** An unsigned integer printed is a token that reads back. *)
Lemma natural_token n : n < two64 → let token := Json.print_natural n in
  Forall (λ c, token_char c = true) token ∧ token ≠ [] ∧ token_value token = Some (constant unsigned_integer n).
Proof.
  intros Hn. destruct (Json.print_natural_spec n) as (c & l & E & Hv & Hd & _). cbn zeta. rewrite E. split_and!; [|done|].
  - eapply Forall_impl; [exact Hd|]. intros d Hdd%digit_range. apply token_char_range; lia.
  - assert (Hc : 48 <= c <= 57) by (apply digit_range; by inversion Hd).
    unfold Construction.token_value. destruct (digits_not_words c l ltac:(lia)) as (-> & -> & ->). cbn [orb].
    assert (Hplus : match c :: l with 43 :: t => t | _ => c :: l end = c :: l).
    { destruct c as [|p]; [done|]. do 6 (try (destruct p as [p|p|]); try done); lia. }
    assert (Hmark : Forall (λ c, Json.is_digit c = true ∨ c = 45) (c :: l)) by (eapply Forall_impl; [exact Hd|auto]).
    rewrite Hplus, (no_real_mark _ Hmark), (proj2 (N.eqb_neq c 45)) by lia.
    unfold from_chars_uint64. rewrite all_digits_spec by done. rewrite Hv, (proj2 (N.ltb_lt _ _) Hn). done.
Qed.

Lemma negative_token p : N.pos p <= two63 → let token := Json.print_integer (Z.neg p) in
  Forall (λ c, token_char c = true) token ∧ token ≠ [] ∧
  token_value token = Some (constant signed_integer (bits_of_int64 (Z.neg p))).
Proof.
  intros Hp. destruct (Json.print_natural_spec (N.pos p)) as (c & l & E & Hv & Hd & _). cbn [Json.print_integer]. cbn zeta.
  rewrite E. split_and!; [|done|].
  - constructor; [done|]. eapply Forall_impl; [exact Hd|]. intros d Hdd%digit_range. apply token_char_range; lia.
  - unfold Construction.token_value. destruct (digits_not_words 45 (c :: l) ltac:(lia)) as (-> & -> & ->). cbn [orb].
    rewrite no_real_mark by (constructor; [by right|]; eapply Forall_impl; [exact Hd|auto]). cbn [N.eqb Pos.eqb].
    unfold from_chars_int64. rewrite all_digits_spec by done. rewrite Hv, (proj2 (N.leb_le _ _) Hp). done.
Qed.

Lemma real_token b : real_prints b → let token := print_real b in
  Forall (λ c, token_char c = true) token ∧ token ≠ [] ∧ token_value token = Some (constant real b).
Proof.
  intros (Hchars & (c & Hc & H43) & Hfrom). cbn zeta.
  assert (Hall : ∀ d, d ∈ to_chars_double b → 42 < d <= 101 ∧ d ≠ 44).
  { intros d Hd. rewrite Forall_forall in Hchars. destruct (Hchars d Hd) as [Hr%digit_range|Hr]; lia. }
  assert (Htok : ∃ l, print_real b = c :: l ∧ Forall (λ c, token_char c = true) (c :: l) ∧ existsb real_mark (c :: l) = true).
  { unfold Construction.print_real. destruct (to_chars_double b) as [|c' l]; [done|]. cbn in Hc. simplify_eq.
    assert (Ht : Forall (λ c, token_char c = true) (c :: l)).
    { apply Forall_forall. intros d Hd. destruct (Hall d Hd). apply token_char_range; lia. }
    destruct (existsb real_mark (c :: l)) eqn:Hm; [by exists l|]. exists (l ++ [46; 48]). split; [done|].
    change (c :: l ++ [46; 48]) with ((c :: l) ++ [46; 48]). split; [apply Forall_app; split; [done|by repeat constructor]|].
    rewrite existsb_app. by rewrite orb_true_r. }
  destruct Htok as (l & E & Ht & Hm). rewrite E in *. split_and!; [done|done|].
  assert (Hw : 42 < c <= 101).
  { apply Hall. destruct (to_chars_double b); [done|]. cbn in Hc. simplify_eq. constructor. }
  assert (Hcc : c ≠ 102 ∧ c ≠ 110 ∧ c ≠ 116) by lia.
  unfold Construction.token_value. rewrite !bool_decide_eq_false_2 by (intros [= -> _]; lia). cbn [orb].
  assert (Hplus : match c :: l with 43 :: t => t | _ => c :: l end = c :: l).
  { clear -H43. destruct c as [|p]; [done|]. do 6 (try (destruct p as [p|p|]); try done). }
  by rewrite Hplus, Hm, Hfrom.
Qed.

Lemma leaf_token value : printable (leaf value) → let token := print_leaf value in
  Forall (λ c, token_char c = true) token ∧ token ≠ [] ∧ token_value token = Some (canonical_leaf value).
Proof.
  cbn [printable leaf]. intros (Hl & Hh & Hr & _). destruct (bits_lt value Hl Hh) as [_ Hb]. cbn zeta.
  unfold Construction.print_leaf, canonical_leaf. destruct (kind value) eqn:Hk; try by apply natural_token.
  - unfold int64_of_bits. destruct (N.ltb_spec (bits value) two63) as [Hs|Hs].
    + assert (Hp : Json.print_integer (Z.of_N (bits value)) = Json.print_natural (bits value)).
      { unfold Json.print_integer. destruct (bits value); done. }
      rewrite Hp. by apply natural_token.
    + destruct (Z.of_N (bits value) - Z.of_N two64)%Z as [|p|p] eqn:E; [unfold two63, two64 in *; lia..|].
      pose proof (negative_token p ltac:(unfold two63, two64 in *; lia)) as (H1 & H2 & H3). split_and!; [done..|].
      rewrite H3. do 2 f_equal. rewrite <-E. unfold bits_of_int64.
      rewrite <-(Z_mod_plus_full _ 1), Z.mul_1_l, Z.sub_add, Z.mod_small by (unfold two64 in *; lia). lia.
  - apply real_token. by apply Hr.
Qed.

(** The text of the elements behind the first one. *)
Definition encode_rest (children : list aggregate_initializer) : list N :=
  concat ((λ c, 44 :: encode c) <$> children) ++ [125].

Lemma encode_listed value c children :
  encode (Aggregate value true (c :: children)) = 123 :: encode c ++ encode_rest children.
Proof.
  cbn. do 2 f_equal. unfold encode_rest. induction children as [|c' children IH]; [done|].
  cbn. rewrite IH. by rewrite <-app_assoc.
Qed.

Lemma encode_head a r : printable a → ∃ c l, encode a ++ r = c :: l ∧ is_space c = false ∧ c ≠ 125.
Proof.
  destruct a as [value [] children]; cbn [printable].
  - intros _. by eexists 123, _.
  - intros Hp. pose proof Hp as (_ & _ & _ & ->). destruct (leaf_token value Hp) as (Ht & Hne & _). cbn [encode_aggregate_initializer].
    destruct (print_leaf value) as [|c l]; [done|]. exists c, (l ++ r). split; [done|].
    inversion Ht as [|? ? Hc _]; subst. unfold token_char, separator in Hc. bools. split; [done|]. by intros ->.
Qed.

Lemma skip_encode a r : printable a → skip (encode a ++ r) = encode a ++ r ∧ expect 125 (encode a ++ r) = None.
Proof.
  intros Hp. destruct (encode_head a r Hp) as (c & l & -> & Hs & Hc). cbn. rewrite Hs. split; [done|].
  by rewrite (proj2 (N.eqb_neq _ _) Hc).
Qed.

Definition read_back (a : aggregate_initializer) : Prop := ∀ fuel depth nodes r,
  printable a → stops r → depth + height a <= 64 → nodes + size a <= 65536 →
  (2 * length (encode a ++ r) + 1 <= fuel)%nat →
  parse fuel depth nodes (encode a ++ r) = Parsed (canonical a) (nodes + size a) r.

Lemma read_back_children children : ∀ c fuel depth nodes done r,
  Forall read_back (c :: children) → Forall printable (c :: children) → depth + heights (c :: children) <= 64 →
  nodes + sizes (c :: children) <= 65536 → (2 * length (encode c ++ encode_rest children ++ r) + 2 <= fuel)%nat →
  parse_children fuel depth nodes done (encode c ++ encode_rest children ++ r) =
    Parsed (listed (done ++ map canonical (c :: children))) (nodes + sizes (c :: children)) r.
Proof.
  induction children as [|c' children IH]; intros c fuel depth nodes acc r Hrb Hp Hd Hn Hfuel;
    inversion Hrb as [|? ? Hc Hrb']; inversion Hp as [|? ? Hpc Hp']; subst;
    (destruct fuel as [|fuel]; [lia|]); cbn [Construction.parse_children];
    rewrite heights_cons in Hd; rewrite sizes_cons in Hn |- *.
  - rewrite (Hc fuel (depth + 1) nodes (encode_rest [] ++ r)); [|done|by right|lia..].
    cbn. do 2 f_equal. lia.
  - assert (Erest : encode_rest (c' :: children) ++ r = 44 :: encode c' ++ encode_rest children ++ r).
    { unfold encode_rest. cbn. by rewrite <-!app_assoc. }
    rewrite (Hc fuel (depth + 1) nodes (encode_rest (c' :: children) ++ r)); [|done|rewrite Erest; by left|lia..].
    rewrite Erest in *. cbn [skip is_space N.eqb Pos.eqb orb expect].
    inversion Hp' as [|? ? Hpc' _]; subst. destruct (skip_encode c' (encode_rest children ++ r) Hpc') as [-> ->].
    rewrite IH; [| done|done|lia|lia|].
    + rewrite <-app_assoc. cbn [app map]. f_equal. lia.
    + rewrite length_app in Hfuel. cbn [length] in Hfuel. destruct (encode_head c [] Hpc) as (x & l & E & _).
      rewrite app_nil_r in E. rewrite E in Hfuel. cbn [length] in Hfuel. lia.
Qed.

Lemma all_read_back a : read_back a.
Proof.
  induction a as [value [] children IH] using aggregate_ind'; intros fuel depth nodes r Hp Hr Hd Hn Hfuel;
    (destruct fuel as [|fuel]; [lia|]).
  - assert (Hguard : depth <= 64 ∧ nodes + 1 <= 65536) by (cbn in Hd, Hn; lia). destruct Hguard as [Hd1 Hn1].
    destruct children as [|c children].
    { cbn. rewrite (proj2 (N.ltb_ge _ _) Hd1), (proj2 (N.ltb_ge _ _) Hn1). done. }
    change (height (Aggregate value true (c :: children))) with (heights (c :: children)) in Hd.
    change (size (Aggregate value true (c :: children))) with (1 + sizes (c :: children)) in Hn |- *.
    rewrite encode_listed in *. cbn [app] in *. rewrite <-app_assoc in *. cbn [Construction.parse].
    rewrite (proj2 (N.ltb_ge _ _) Hd1), (proj2 (N.ltb_ge _ _) Hn1). cbn [skip is_space N.eqb Pos.eqb orb].
    assert (Hps : Forall printable (c :: children)).
    { clear -Hp. cbn [printable] in Hp. induction (c :: children) as [|x l IHl]; constructor; [apply Hp|apply IHl, Hp]. }
    inversion Hps as [|? ? Hpc _]; subst. destruct (skip_encode c (encode_rest children ++ r) Hpc) as [-> ->].
    cbn [length] in Hfuel. rewrite read_back_children; [|done|done|done|lia|lia].
    cbn [app canonical]. f_equal. lia.
  - pose proof Hp as (_ & _ & _ & ->). cbn [encode_aggregate_initializer canonical] in *.
    destruct (leaf_token value Hp) as (Ht & Hne & Hv).
    cbn [height size] in *. rewrite (parse_token fuel depth nodes _ r _ Ht Hne Hr) by (done || (cbn in *; lia)).
    done.
Qed.
End round_trip.

Lemma canonical_leaf_idem value : low value < two32 → high value < two32 →
  canonical_leaf (canonical_leaf value) = canonical_leaf value.
Proof.
  intros Hl Hh. destruct (bits_lt value Hl Hh) as [_ Hb]. unfold canonical_leaf at 2 3.
  destruct (kind value); try destruct (bits value <? two63) eqn:Hs; unfold canonical_leaf; cbn [kind constant];
    rewrite bits_constant by done; try rewrite Hs; done.
Qed.

Lemma canonical_canonical f t a : printable f t a → canonical (canonical a) = canonical a.
Proof.
  induction a as [value [] children IH] using aggregate_ind'; cbn [printable canonical].
  - intros Hp. cbn. f_equal. induction IH as [|c l Hc _ IHl]; [done|]. cbn in *. destruct Hp as [Hpc Hpl].
    by rewrite Hc, IHl.
  - intros (Hl & Hh & _). cbn. by rewrite canonical_leaf_idem.
Qed.

(** C36: printing an initializer (at most 64 levels and 65536 nodes)
    and parsing the text gives it back, with zero and non-negative integers as unsigned
    constants; so an initializer that was parsed from its own printed form is unchanged. *)
Theorem parse_aggregate_encode from_chars_double to_chars_double a :
  printable from_chars_double to_chars_double a → height a <= 64 → size a <= 65536 →
  parse_aggregate_initializer from_chars_double (encode_aggregate_initializer to_chars_double a) = Some (canonical a) ∧
  canonical (canonical a) = canonical a.
Proof.
  intros Hp Hh Hs. split.
  - unfold parse_aggregate_initializer, parse_fuel.
    pose proof (all_read_back from_chars_double to_chars_double a (2 * length (encode_aggregate_initializer to_chars_double a) + 2)%nat
      0 0 [] Hp I Hh Hs) as H. rewrite app_nil_r in H. by rewrite H by lia.
  - apply (canonical_canonical _ _ a Hp).
Qed.

(** Parsing every text returns; what it accepts has at most 64
    levels of nesting, at most 65536 nodes, values at the leaves only, and every leaf is a
    constant that passes [valid_construction]. *)
Theorem parse_aggregate_bounded from_chars_double text :
  parse from_chars_double (parse_fuel text) 0 0 text ≠ Stuck ∧
  ∀ a, parse_aggregate_initializer from_chars_double text = Some a →
    height a <= 64 ∧ size a <= 65536 ∧ well_formed a.
Proof.
  pose proof (parse_sound from_chars_double (parse_fuel text)) as [H _].
  specialize (H 0 0 text ltac:(unfold parse_fuel; lia)). unfold parse_aggregate_initializer.
  destruct (parse _ _ _ _ _) as [a n r| |]; cbn [sound] in H; [|done..]. split; [done|].
  intros a'. destruct (skip r); [|done]. intros [= <-]. destruct H as (_ & H1 & H2 & H3 & H4). split_and!; [lia..|done].
Qed.

(** ** Witnesses *)

(** One double, 1.5, and its text. *)
Definition one_and_half : N := 0x3ff8000000000000.
Definition from_one (token : list N) : option N :=
  if bool_decide (token = [49; 46; 53]) then Some one_and_half else None.
Definition to_one (_ : N) : list N := [49; 46; 53].

(** [{1.5,{-7,0},{}}] *)
Definition sample : aggregate_initializer :=
  listed [leaf (constant real one_and_half);
          listed [leaf (constant signed_integer (bits_of_int64 (-7))); leaf zero_value]; listed []].

Lemma construction_round_trip_witness :
  let value := constant real one_and_half in read_construction (write_construction value) = value.
Proof. apply construction_round_trip. split_and!; reflexivity || exact I. Defined.

Lemma parse_aggregate_encode_witness :
  parse_aggregate_initializer from_one (encode_aggregate_initializer to_one sample) = Some (canonical sample).
Proof.
  apply (parse_aggregate_encode from_one to_one sample).
  - cbn. split_and!; try reflexivity; try discriminate.
    intros _. split; [|split].
    + constructor; [by left|]. constructor; [by right; right; right; left|]. constructor; [by left|constructor].
    + exists 49. split; [reflexivity|discriminate].
    + vm_compute. reflexivity.
  - vm_compute. discriminate.
  - vm_compute. discriminate.
Defined.

End Construction.
