(* ===== verification/RuntimeLayout.v ===== *)
(** * Storage layout of managed objects

    Models the first half of server_engine/project/runtime/managed_runtime.{hpp,cpp}: the
    layout structures, [align_up], [scalar_layout], the recursive [layout_record] and the
    loop over the objects.  [managed_graph_reader] answers from the live graph or from the
    mapped image; here it is a record of its answers.  Offsets and sizes are 64-bit words;
    positions in the field vector are [nat].  The vector is passed along; what a failed
    computation leaves in it is not observable (the candidate runtime is dropped). *)

From S2P Require Import Prelude Construction.

Local Open Scope N_scope.

Module RuntimeLayout.

Definition construction_value := Construction.construction_value.

(** ** What is read of the graph *)

Inductive intrinsic_type : Set :=
| none | void_type | bool_type | char_type | signed_char | unsigned_char | wchar_type | char8_type
| char16_type | char32_type | signed_short | unsigned_short | signed_int | unsigned_int | signed_long
| unsigned_long | signed_long_long | unsigned_long_long | float_type | double_type
| long_double_type | nullptr_type.

Inductive derived_type_kind : Set :=
| const_qualified | volatile_qualified | pointer_type | lvalue_reference | rvalue_reference
| bounded_array | unbounded_array.

#[export] Instance derived_type_kind_eq_dec : EqDecision derived_type_kind.
Proof. solve_decision. Defined.

Inductive graph_type_kind : Set := record_kind | enumeration.
Inductive source_record_kind : Set := struct_type | class_type | union_type.

#[export] Instance graph_type_kind_eq_dec : EqDecision graph_type_kind.
Proof. solve_decision. Defined.
#[export] Instance source_record_kind_eq_dec : EqDecision source_record_kind.
Proof. solve_decision. Defined.

Record type_entry : Set := TypeEntry {
  defined : bool; entry_kind : graph_type_kind; entry_record_kind : source_record_kind }.
Record object_entry : Set := ObjectEntry { object_type : N; object_flags : N }.
Record member_record : Set := Member { member_type : N; member_construction : construction_value }.

(** A member index is invalid at 0xffffffff, an object handle at 0. *)
Record object_endpoint : Set := Endpoint { endpoint_object : N; endpoint_member : N }.
Record link_record : Set := Link { link_source : object_endpoint; link_target : object_endpoint }.

Definition invalid_member : N := 0xffffffff.
Definition member_valid (member : N) : bool := negb (member =? invalid_member).

(** The reader; [members] and [links] throw on a corrupt image ([None]). *)
Record graph_reader : Type := GraphReader {
  object_slot_count : nat;
  object_at : nat → N;
  find_object : N → option object_entry;
  find_type : N → option type_entry;
  intrinsic : N → option intrinsic_type;
  named : N → option N;
  derived : N → option (derived_type_kind * N);
  members : N → option (list member_record);
  links : option (list link_record);
  string : N → list N }.

Inductive abi_target : Set := windows_x64 | posix_x64.
Record abi_configuration : Set := Abi { target : abi_target; pack : N }.

Definition is_supported_abi_configuration (abi : abi_configuration) : bool :=
  (pack abi =? 1) || (pack abi =? 2) || (pack abi =? 4) || (pack abi =? 8) || (pack abi =? 16).

(** ** Layouts *)

(** The part of [managed_field_layout] that [scalar_layout] fills. *)
Record shape : Set := Shape {
  size : N; alignment : N; value_type : N; reference : bool; is_signed : bool; floating : bool;
  pointer : bool; read_only : bool; boolean : bool }.

Record managed_field_layout : Set := Field {
  endpoint : object_endpoint; offset : N; field_shape : shape; initial : construction_value;
  aggregate : bool; first_child : nat; child_count : nat; sibling_first : nat; sibling_count : nat }.

Record managed_object_layout : Set := ObjectLayout {
  object : N; object_offset : N; object_size : N; object_alignment : N; first_field : nat; field_count : nat }.

Definition default_shape : shape := Shape 0 1 0 false false false false false false.
Definition default_field : managed_field_layout :=
  Field (Endpoint 0 invalid_member) 0 default_shape Construction.zero_value false 0 0 0 0.

Definition size_max : N := two64 - 1.

Definition align_up (offset alignment : N) : option N :=
  if size_max - (alignment - 1) <? offset then None
  else Some (w64 (w64 (offset + alignment - 1) / alignment * alignment)).

Definition set_read_only (s : shape) (b : bool) : shape :=
  Shape (size s) (alignment s) (value_type s) (reference s) (is_signed s) (floating s) (pointer s) b (boolean s).
Definition set_reference (s : shape) : shape :=
  Shape (size s) (alignment s) (value_type s) true (is_signed s) (floating s) (pointer s) (read_only s) (boolean s).
Definition set_pointer (s : shape) : shape :=
  Shape (size s) (alignment s) (value_type s) (reference s) (is_signed s) (floating s) true (read_only s) (boolean s).
Definition set_value_type (s : shape) (type : N) : shape :=
  Shape (size s) (alignment s) type (reference s) (is_signed s) (floating s) (pointer s) (read_only s) (boolean s).
Definition set_scalar (s : shape) (size : N) (is_signed floating boolean : bool) : shape :=
  Shape size size (value_type s) (reference s) is_signed floating (pointer s) (read_only s) boolean.

Notation fields := (list managed_field_layout).

Section layout.
Context (graph : graph_reader) (abi : abi_configuration).

(** A type expression is built from earlier ones, so its own index bounds its depth. *)
Definition type_fuel (type : N) : nat := S (N.to_nat type).

(** The loop over the modifiers: the shape so far and the type inside; [None] refuses,
    [Some None] is fuel used up. *)
Fixpoint modifiers (fuel : nat) (type : N) (indirect : bool) (s : shape) : option (option (N * shape)) :=
  match derived graph type with
  | None => Some (Some (type, s))
  | Some (kind, child) =>
      match fuel with
      | O => Some None
      | S fuel' =>
          match kind with
          | const_qualified => modifiers fuel' child indirect (set_read_only s true)
          | volatile_qualified => None
          | lvalue_reference => if indirect then None else modifiers fuel' child true (set_reference s)
          | pointer_type => if indirect then None else modifiers fuel' child true (set_pointer s)
          | _ => None
          end
      end
  end.

(** Size, sign, floating and boolean of the types that are supported. *)
Definition scalar_kind (type : intrinsic_type) : option (N * bool * bool * bool) :=
  match type with
  | bool_type => Some (1, false, false, true)
  | unsigned_char | char8_type => Some (1, false, false, false)
  | char_type | signed_char => Some (1, true, false, false)
  | signed_short => Some (2, true, false, false)
  | unsigned_short | char16_type => Some (2, false, false, false)
  | signed_int => Some (4, true, false, false)
  | unsigned_int | char32_type => Some (4, false, false, false)
  | wchar_type => Some (match target abi with windows_x64 => 2 | posix_x64 => 4 end, false, false, false)
  | signed_long => Some (match target abi with windows_x64 => 4 | posix_x64 => 8 end, true, false, false)
  | unsigned_long => Some (match target abi with windows_x64 => 4 | posix_x64 => 8 end, false, false, false)
  | signed_long_long => Some (8, true, false, false)
  | unsigned_long_long => Some (8, false, false, false)
  | float_type => Some (4, false, true, false)
  | double_type => Some (8, false, true, false)
  | _ => None
  end.

(** The shape of a scalar type; [None] for any other type, [Some None] is fuel used up. *)
Definition scalar_layout (type : N) : option (option shape) :=
  match modifiers (type_fuel type) type false default_shape with
  | None => None
  | Some None => Some None
  | Some (Some (type, s)) =>
      let s := set_value_type s type in
      match intrinsic graph type with
      | None => None
      | Some i =>
          if pointer s then
            Some (Some (Shape 8 8 (value_type s) (reference s) false false true (read_only s) false))
          else
            match scalar_kind i with
            | Some (size, is_signed, floating, boolean) => Some (Some (set_scalar s size is_signed floating boolean))
            | None => None
            end
      end
  end.

(** Only const qualifiers are taken off a record type: the type inside, and whether any. *)
Fixpoint strip_const (fuel : nat) (type : N) (qualified : bool) : option (N * bool) :=
  match derived graph type with
  | Some (const_qualified, child) =>
      match fuel with
      | O => None
      | S fuel' => strip_const fuel' child true
      end
  | _ => Some (type, qualified)
  end.

(** A failure carries the message; [Corrupt] is the exception of the reader. *)
Inductive result (A : Type) : Type :=
| Ok (a : A)
| Failed (error : Strings.String.string)
| Corrupt
| Stuck.
Arguments Ok {A}. Arguments Failed {A}. Arguments Corrupt {A}. Arguments Stuck {A}.

(** What a laid-out record leaves: the vector, its size, alignment, first field and members. *)
Record laid_out : Type := LaidOut {
  laid_fields : fields; laid_size : N; laid_alignment : N; laid_first : nat; laid_count : nat }.

Definition shift (by_ : N) (f : managed_field_layout) : managed_field_layout :=
  Field (endpoint f) (w64 (offset f + by_)) (field_shape f) (initial f) (aggregate f) (first_child f)
    (child_count f) (sibling_first f) (sibling_count f).
Definition set_offset (o : N) (f : managed_field_layout) : managed_field_layout :=
  Field (endpoint f) o (field_shape f) (initial f) (aggregate f) (first_child f)
    (child_count f) (sibling_first f) (sibling_count f).

(** Shifting the fields from an index on. *)
Definition shift_from (first : nat) (by_ : N) (fs : fields) : fields := take first fs ++ (shift by_ <$> drop first fs).

Definition field_alignment (f : managed_field_layout) : N :=
  N.min (if reference (field_shape f) then 8 else alignment (field_shape f)) (pack abi).

(** From [field_alignment] on: place the field behind what is placed already. *)
Definition place (f : managed_field_layout) (index descendants_begin : nat) (size_ alignment_ : N) (fs : fields)
    : result (N * N * fields) :=
  match align_up size_ (field_alignment f) with
  | None => Failed "Layout overflow"
  | Some size_ =>
      let bytes := if reference (field_shape f) then 8 else size (field_shape f) in
      if size_max - bytes <? size_ then Failed "Layout overflow"
      else Ok (size_ + bytes, N.max alignment_ (field_alignment f),
               <[index := set_offset size_ f]> (shift_from descendants_begin size_ fs))
  end.

Section members.
(** The recursive call. *)
Context (nested : N → object_endpoint → bool → fields → result laid_out).

(** One member: its field, with the fields of a nested record appended. *)
Definition member_field (root : object_endpoint) (read_only_ : bool) (first count local : nat)
    (member : member_record) (fs : fields) : result (managed_field_layout * fields) :=
  let endpoint :=
    if member_valid (endpoint_member root) then root
    else Endpoint (endpoint_object root) (w32 (N.of_nat local)) in
  match scalar_layout (member_type member) with
  | Some None => Stuck
  | Some (Some s) =>
      let s := if reference s then s else set_read_only s (read_only s || read_only_) in
      Ok (Field endpoint 0 s (member_construction member) false 0 0 first count, fs)
  | None =>
      match strip_const (type_fuel (member_type member)) (member_type member) false with
      | None => Stuck
      | Some (base, qualified_const) =>
          match named graph base with
          | None => Failed "Unsupported managed field type"
          | Some type =>
              let read_only_ := read_only_ || qualified_const in
              match nested type endpoint read_only_ fs with
              | Ok l =>
                  if 0xffffffff <? laid_size l then Failed "Managed record layout exceeds 4 GiB"
                  else
                    Ok (Field endpoint 0
                          (Shape (laid_size l) (w32 (laid_alignment l)) base false false false false read_only_ false)
                          (member_construction member) true (laid_first l) (laid_count l) first count, laid_fields l)
              | Failed e => Failed e | Corrupt => Corrupt | Stuck => Stuck
              end
          end
      end
  end.

(** The loop over the members. *)
Fixpoint place_members (root : object_endpoint) (read_only_ : bool) (first count local : nat)
    (ms : list member_record) (size_ alignment_ : N) (fs : fields) : result (N * N * fields) :=
  match ms with
  | [] => Ok (size_, alignment_, fs)
  | member :: ms' =>
      match member_field root read_only_ first count local member fs with
      | Ok (f, fs') =>
          match place f (first + local) (length fs) size_ alignment_ fs' with
          | Ok (size_, alignment_, fs) => place_members root read_only_ first count (S local) ms' size_ alignment_ fs
          | Failed e => Failed e | Corrupt => Corrupt | Stuck => Stuck
          end
      | Failed e => Failed e | Corrupt => Corrupt | Stuck => Stuck
      end
  end.
End members.

(** [active_types] bounds the recursion at 64. *)
Fixpoint layout_record (fuel : nat) (active_types : list N) (type : N) (root : object_endpoint)
    (read_only_ : bool) (fs : fields) : result laid_out :=
  if (64 <=? length active_types)%nat || bool_decide (type ∈ active_types) then
    Failed "Recursive value containment or managed nesting depth exceeds 64"
  else
    match find_type graph type with
    | Some record =>
        if negb (defined record) || negb (bool_decide (entry_kind record = record_kind)) ||
           bool_decide (entry_record_kind record = union_type)
        then Failed "Managed values require defined struct/class records; unions are unsupported"
        else
          match fuel with
          | O => Stuck
          | S fuel' =>
              match members graph type with
              | None => Corrupt
              | Some ms =>
                  let first := length fs in
                  let count := length ms in
                  match place_members (layout_record fuel' (active_types ++ [type])) root read_only_ first count 0 ms
                          0 1 (fs ++ replicate count default_field) with
                  | Ok (size_, alignment_, fs) =>
                      let size_ := if size_ =? 0 then 1 else size_ in
                      match align_up size_ alignment_ with
                      | None => Failed "Layout overflow"
                      | Some size_ => Ok (LaidOut fs size_ alignment_ first count)
                      end
                  | Failed e => Failed e | Corrupt => Corrupt | Stuck => Stuck
                  end
              end
          end
    | None => Failed "Managed values require defined struct/class records; unions are unsupported"
    end.

(** What the loop over the objects builds. *)
Record plan : Type := Plan {
  plan_fields : fields; object_layouts : list managed_object_layout; object_slots : list (option nat); total : N }.

(** One turn of that loop. *)
Definition layout_object (p : plan) (i : nat) : result plan :=
  let object := object_at graph i in
  match find_object graph object with
  | None => Ok p
  | Some entry =>
      if negb (N.land (object_flags entry) 1 =? 0)
      then Failed "Non-default object initializers are unsupported by managed construction"
      else
        match named graph (object_type entry) with
        | None => Failed "Managed objects require a direct record type"
        | Some type =>
            match layout_record 64 [] type (Endpoint object invalid_member) false (plan_fields p) with
            | Ok l =>
                match align_up (laid_size l) (laid_alignment l), align_up (total p) (laid_alignment l) with
                | Some size_, Some total_ =>
                    if size_max - size_ <? total_ then Failed "Layout overflow"
                    else
                      Ok (Plan (shift_from (laid_first l) total_ (laid_fields l))
                            (object_layouts p ++
                              [ObjectLayout object total_ size_ (laid_alignment l) (laid_first l) (laid_count l)])
                            (<[N.to_nat object := Some (length (object_layouts p))]> (object_slots p))
                            (total_ + size_))
                | _, _ => Failed "Layout overflow"
                end
            | Failed e => Failed e | Corrupt => Corrupt | Stuck => Stuck
            end
        end
  end.

Fixpoint layout_objects (p : plan) (slots : list nat) : result plan :=
  match slots with
  | [] => Ok p
  | i :: slots' =>
      match layout_object p i with
      | Ok p => layout_objects p slots'
      | r => r
      end
  end.

Definition empty_plan : plan := Plan [] [] (replicate (S (object_slot_count graph)) None) 0.

Definition layout : result plan := layout_objects empty_plan (seq 0 (object_slot_count graph)).

End layout.

Arguments Ok {A}. Arguments Failed {A}. Arguments Corrupt {A}. Arguments Stuck {A}.

(** ** Packing: the fields of a region lie in it, apart and aligned *)

(** The bytes a field takes itself; an aggregate only covers those of its children. *)
Definition width (f : managed_field_layout) : N :=
  if aggregate f then 0 else if reference (field_shape f) then 8 else size (field_shape f).

Definition apart (f g : managed_field_layout) : Prop :=
  offset f + width f <= offset g ∨ offset g + width g <= offset f.

(** The alignments there are: powers of two up to 8. *)
Definition pow2 (a : N) : Prop := a = 1 ∨ a = 2 ∨ a = 4 ∨ a = 8.

Section packing.
Context (abi : abi_configuration).

(** All of them in a range and apart, each on its alignment, which divides the region's. *)
Record packed (low high align : N) (fs : fields) : Prop := {
  packed_in f : f ∈ fs → low <= offset f ∧ offset f + width f <= high;
  packed_apart i j f g : i ≠ j → fs !! i = Some f → fs !! j = Some g → apart f g;
  packed_aligned f : f ∈ fs → pow2 (field_alignment abi f) ∧ field_alignment abi f <= align ∧
    offset f mod field_alignment abi f = 0 }.

Lemma pow2_divides a b x : pow2 a → pow2 b → a <= b → x mod b = 0 → x mod a = 0.
Proof.
  intros Ha Hb Hab Hx. destruct Ha as [->|[->|[->| ->]]], Hb as [->|[->|[->| ->]]]; try lia; revert Hx; clear;
    intros; zify; Z.to_euclidean_division_equations; lia.
Qed.

Lemma pow2_max a b : pow2 a → pow2 b → pow2 (N.max a b).
Proof. unfold pow2. intros [->|[->|[->| ->]]] [->|[->|[->| ->]]]; cbn; auto. Qed.

Lemma pow2_range a : pow2 a → 1 <= a <= 8.
Proof. intros [->|[->|[->| ->]]]; lia. Qed.

Lemma align_up_result o a o' : pow2 a → o <= size_max → align_up o a = Some o' →
  o <= o' ∧ o' mod a = 0 ∧ o' <= size_max ∧ (o mod a = 0 → o' = o).
Proof.
  intros Ha Ho. unfold align_up. destruct (N.ltb_spec (size_max - (a - 1)) o) as [|Hle]; [done|]. intros [= <-].
  pose proof (pow2_range a Ha) as Ha'.
  assert (Hq : (o + a - 1) / a * a <= o + a - 1) by (rewrite N.mul_comm; apply N.Div0.mul_div_le).
  unfold size_max, two64 in *. rewrite (w64_small (o + a - 1)) by (unfold two64; lia).
  rewrite w64_small by (unfold two64; lia). split_and!.
  - clear Hq Hle. destruct Ha as [->|[->|[->| ->]]]; zify; Z.to_euclidean_division_equations; lia.
  - apply N.Div0.mod_mul.
  - lia.
  - clear Hq Hle. destruct Ha as [->|[->|[->| ->]]]; intros; zify; Z.to_euclidean_division_equations; lia.
Qed.

Lemma apart_sym f g : apart f g → apart g f.
Proof. intros [?|?]; [by right|by left]. Qed.

Lemma packed_nil l h a : packed l h a [].
Proof. split; [set_solver|done|set_solver]. Qed.

Lemma packed_weaken l h a l' h' a' fs : packed l h a fs → l' <= l → h <= h' → a <= a' → packed l' h' a' fs.
Proof.
  intros [H1 H2 H3] Hl Hs Ha. split; [|done|].
  - intros f Hf. specialize (H1 f Hf). lia.
  - intros f Hf. destruct (H3 f Hf) as (? & ? & ?). split_and!; try done. lia.
Qed.

Lemma packed_app l m h a fs gs : packed l m a fs → packed m h a gs → l <= m → m <= h → packed l h a (fs ++ gs).
Proof.
  intros Hf Hg Hlm Hmh. split.
  - intros f [H|H]%elem_of_app; [pose proof (packed_in _ _ _ _ Hf f H)|pose proof (packed_in _ _ _ _ Hg f H)]; lia.
  - intros i j f g Hij. rewrite !lookup_app_Some.
    intros [Hi|[Hi1 Hi2]] [Hj|[Hj1 Hj2]].
    + exact (packed_apart _ _ _ _ Hf _ _ _ _ Hij Hi Hj).
    + left. apply list_elem_of_lookup_2 in Hi, Hj2. pose proof (packed_in _ _ _ _ Hf _ Hi). pose proof (packed_in _ _ _ _ Hg _ Hj2). lia.
    + right. apply list_elem_of_lookup_2 in Hi2, Hj. pose proof (packed_in _ _ _ _ Hf _ Hj). pose proof (packed_in _ _ _ _ Hg _ Hi2). lia.
    + eapply (packed_apart _ _ _ _ Hg); [|exact Hi2|exact Hj2]. lia.
  - intros f [H|H]%elem_of_app; [by eapply (packed_aligned _ _ _ _ Hf)|by eapply (packed_aligned _ _ _ _ Hg)].
Qed.

Lemma packed_insert l h a fs i f : packed l h a fs → l <= offset f → offset f + width f <= h →
  (∀ j g, j ≠ i → fs !! j = Some g → apart f g) →
  pow2 (field_alignment abi f) → field_alignment abi f <= a → offset f mod field_alignment abi f = 0 →
  packed l h a (<[i := f]> fs).
Proof.
  intros Hp Hl Hh Hapart H1 H2 H3.
  assert (Hin : ∀ g, g ∈ <[i := f]> fs → g = f ∨ g ∈ fs).
  { intros g [j Hj]%list_elem_of_lookup_1. apply list_lookup_insert_Some in Hj as [(_ & <- & _)|[_ Hj]]; [by left|].
    right. by eapply list_elem_of_lookup_2. }
  split.
  - intros g [->|Hg]%Hin; [lia|by apply (packed_in _ _ _ _ Hp)].
  - intros j k x y Hjk Hj Hk. apply list_lookup_insert_Some in Hj as [(-> & <- & _)|[Hj' Hj]];
      apply list_lookup_insert_Some in Hk as [(-> & <- & _)|[Hk' Hk]]; [done| | |exact (packed_apart _ _ _ _ Hp _ _ _ _ Hjk Hj Hk)].
    + by apply (Hapart k).
    + apply apart_sym. by apply (Hapart j).
  - intros g [->|Hg]%Hin; [done|by apply (packed_aligned _ _ _ _ Hp)].
Qed.

Lemma packed_shift l h a o fs : packed l h a fs → pow2 a → o mod a = 0 → o + h <= size_max →
  packed (o + l) (o + h) a (shift o <$> fs).
Proof.
  intros Hp Ha Ho Hh.
  assert (Hoff : ∀ f, f ∈ fs → offset (shift o f) = o + offset f).
  { intros f Hf. pose proof (packed_in _ _ _ _ Hp f Hf). cbn. unfold size_max, two64 in *.
    rewrite w64_small by (unfold two64; lia). lia. }
  split.
  - intros f (g & -> & Hg)%list_elem_of_fmap. rewrite (Hoff g Hg). pose proof (packed_in _ _ _ _ Hp g Hg).
    change (width (shift o g)) with (width g). lia.
  - intros i j f g Hij (f' & -> & Hf)%list_lookup_fmap_Some (g' & -> & Hg)%list_lookup_fmap_Some.
    pose proof (packed_apart _ _ _ _ Hp _ _ _ _ Hij Hf Hg) as Hap. apply list_elem_of_lookup_2 in Hf, Hg.
    unfold apart in *. rewrite (Hoff f' Hf), (Hoff g' Hg).
    change (width (shift o f')) with (width f'). change (width (shift o g')) with (width g'). lia.
  - intros f (g & -> & Hg)%list_elem_of_fmap. destruct (packed_aligned _ _ _ _ Hp g Hg) as (H1 & H2 & H3).
    change (field_alignment abi (shift o g)) with (field_alignment abi g). split_and!; [done..|]. rewrite (Hoff g Hg).
    pose proof (pow2_divides _ _ o H1 Ha H2 Ho). rewrite N.Div0.add_mod, H, H3. by apply N.Div0.mod_0_l.
Qed.

Lemma packed_default h count a : 1 <= pack abi → 1 <= a → packed 0 h a (replicate count default_field).
Proof.
  intros Hpack Ha. assert (Hd : ∀ f, f ∈ replicate count default_field → f = default_field) by by intros f [-> _]%elem_of_replicate.
  assert (Hfa : field_alignment abi default_field = 1) by (unfold field_alignment; cbn; lia).
  split.
  - intros f ->%Hd. cbn. lia.
  - intros i j f g _ Hi Hj. apply list_elem_of_lookup_2, Hd in Hi as ->. apply list_elem_of_lookup_2, Hd in Hj as ->. by left.
  - intros f ->%Hd. rewrite Hfa. split_and!; [by left|done|done].
Qed.
End packing.

(** ** The recursion *)

(** What [scalar_layout] gives. *)
Definition scalar_shape (s : shape) : Prop :=
  pow2 (size s) ∧ alignment s = size s ∧ (floating s = true → 4 <= size s ∧ is_signed s = false ∧ pointer s = false) ∧
  (pointer s = true → size s = 8 ∧ is_signed s = false) ∧ (boolean s = true → size s = 1 ∧ is_signed s = false).

(** A field of a vector of [n], at a position: children behind it, indices inside. *)
Definition field_ok (n i : nat) (f : managed_field_layout) : Prop :=
  (aggregate f = true → (i < first_child f)%nat ∧ (first_child f + child_count f <= n)%nat) ∧
  (sibling_first f + sibling_count f <= n)%nat ∧
  (aggregate f = false → scalar_shape (field_shape f)).

Lemma field_ok_weaken n n' i f : field_ok n i f → (n <= n')%nat → field_ok n' i f.
Proof. intros (H1 & H2 & H3) Hn. split_and!; [|lia|done]. intros Ha. destruct (H1 Ha). lia. Qed.

Section recursion.
Context (graph : graph_reader) (abi : abi_configuration).
Context (Habi : is_supported_abi_configuration abi = true).

Lemma pack_pow2 : pow2 (pack abi) ∨ pack abi = 16.
Proof. unfold is_supported_abi_configuration in Habi. unfold pow2. bools. repeat (destruct Habi as [Habi|Habi]; bools); auto 10. Qed.

Lemma min_pack a : pow2 a → pow2 (N.min a (pack abi)) ∧ N.min a (pack abi) <= pack abi.
Proof.
  intros Ha. split; [|lia]. destruct pack_pow2 as [Hp| ->].
  - unfold pow2 in *. destruct (N.min_spec a (pack abi)) as [[_ ->]|[_ ->]]; auto.
  - pose proof (pow2_range a Ha). by rewrite N.min_l by lia.
Qed.

(** The modifiers leave the scalar part alone. *)
Lemma modifiers_shape fuel type indirect s type' s' : modifiers graph fuel type indirect s = Some (Some (type', s')) →
  is_signed s' = is_signed s ∧ floating s' = floating s ∧ boolean s' = boolean s.
Proof.
  revert type indirect s. induction fuel as [|fuel IH]; intros type indirect s; cbn [modifiers].
  - destruct (derived graph type) as [[]|]; [done|]. by intros [= _ <-].
  - destruct (derived graph type) as [[k child]|]; [|by intros [= _ <-]].
    destruct k; try done; [|destruct indirect; [done|]..]; intros H; by apply IH in H.
Qed.

Lemma scalar_layout_shape type s : scalar_layout graph abi type = Some (Some s) → scalar_shape s.
Proof.
  unfold scalar_layout. destruct (modifiers _ _ _ _ _) as [[[type' s']|]|] eqn:Hm; [|done..].
  destruct (intrinsic graph type') as [i|]; [|done].
  destruct (pointer (set_value_type s' type')) eqn:Hp.
  - intros [= <-]. unfold scalar_shape, pow2. cbn. split_and!; try done. auto.
  - destruct (scalar_kind abi i) as [[[[sz sg] fl] bo]|] eqn:Hk; [|done]. intros [= <-].
    cbn in Hp. unfold scalar_shape, pow2. cbn. rewrite Hp.
    destruct i; cbn in Hk; try done; try (destruct (target abi)); simplify_eq; split_and!; (done || auto || (intros; lia)).
Qed.

(** What a laid-out record leaves. *)
Definition nested_ok (fs : fields) (l : laid_out) : Prop :=
  ∃ new, laid_fields l = fs ++ new ∧ laid_first l = length fs ∧ (laid_count l <= length new)%nat ∧
    packed abi 0 (laid_size l) (laid_alignment l) new ∧ pow2 (laid_alignment l) ∧ laid_alignment l <= pack abi ∧
    0 < laid_size l ∧ laid_size l <= size_max ∧ laid_size l mod laid_alignment l = 0 ∧
    ∀ j f, new !! j = Some f → field_ok (length fs + length new) (length fs + j) f.

(** A field before it is placed, with the fields of its record behind the vector. *)
Definition unplaced (first count : nat) (fs : fields) (f : managed_field_layout) (fs' : fields) : Prop :=
  sibling_first f = first ∧ sibling_count f = count ∧
  if aggregate f then
    reference (field_shape f) = false ∧
    ∃ new, fs' = fs ++ new ∧ first_child f = length fs ∧ (child_count f <= length new)%nat ∧
      packed abi 0 (size (field_shape f)) (alignment (field_shape f)) new ∧
      pow2 (alignment (field_shape f)) ∧ alignment (field_shape f) <= pack abi ∧
      size (field_shape f) <= size_max ∧
      ∀ j g, new !! j = Some g → field_ok (length fs + length new) (length fs + j) g
  else fs' = fs ∧ scalar_shape (field_shape f).

Section members_spec.
Context (nested : N → object_endpoint → bool → fields → result laid_out).
Context (Hnested : ∀ type root ro fs l, nested type root ro fs = Ok l → nested_ok fs l).

Lemma member_field_spec root ro first count local m fs f fs' :
  member_field graph abi nested root ro first count local m fs = Ok (f, fs') → unplaced first count fs f fs'.
Proof.
  unfold member_field. destruct (scalar_layout graph abi (member_type m)) as [[s|]|] eqn:Hs; [|done|].
  - intros [= <- <-]. apply scalar_layout_shape in Hs. unfold unplaced. cbn. split_and!; try done.
    by destruct (reference s).
  - destruct (strip_const _ _ _ _) as [[base q]|]; [|done]. destruct (named graph base) as [type|]; [|done].
    destruct (nested _ _ _ _) as [l| | |] eqn:Hn; [|done..]. destruct (N.ltb_spec 0xffffffff (laid_size l)); [done|].
    intros [= <- <-]. apply Hnested in Hn as (new & H1 & H2 & H3 & H4 & H5 & H6 & H7 & H8 & _ & H9).
    unfold unplaced. cbn. split_and!; try done. exists new.
    assert (w32 (laid_alignment l) = laid_alignment l) as ->.
    { apply w32_small. pose proof (pow2_range _ H5). unfold two32. lia. }
    by split_and!.
Qed.

(** The state of the loop: what is placed of the record, holes from [local] to [count]. *)
Definition placing (pre news : fields) (count local : nat) (size_ align_ : N) : Prop :=
  (count <= length news)%nat ∧ packed abi 0 size_ align_ news ∧ pow2 align_ ∧ align_ <= pack abi ∧ size_ <= size_max ∧
  ∀ j f, news !! j = Some f → ¬ (local <= j < count)%nat → field_ok (length pre + length news) (length pre + j) f.

Lemma shift_from_app fs new o : shift_from (length fs) o (fs ++ new) = fs ++ (shift o <$> new).
Proof. unfold shift_from. by rewrite take_app_length, drop_app_length. Qed.

Lemma field_alignment_ok first count fs f fs' : unplaced first count fs f fs' →
  pow2 (field_alignment abi f) ∧ field_alignment abi f <= pack abi.
Proof.
  intros (_ & _ & H). unfold field_alignment. apply min_pack. destruct (aggregate f).
  - destruct H as (-> & new & _ & _ & _ & _ & H & _). done.
  - destruct H as [_ (H1 & -> & _)]. destruct (reference _); [by right; right; right|done].
Qed.

Lemma placed_spec pre news count local size_ align_ f fs' size' align' fs'' :
  placing pre news count local size_ align_ → (local < count)%nat →
  unplaced (length pre) count (pre ++ news) f fs' →
  place abi f (length pre + local) (length (pre ++ news)) size_ align_ fs' = Ok (size', align', fs'') →
  ∃ news', fs'' = pre ++ news' ∧ placing pre news' count (S local) size' align'.
Proof.
  intros (Hcount & Hpacked & Hal & Halp & Hsz & Hfields) Hlocal Hun. pose proof (field_alignment_ok _ _ _ _ _ Hun) as [Hfa Hfap].
  unfold place. destruct (align_up size_ (field_alignment abi f)) as [o|] eqn:Ho; [|done].
  destruct (align_up_result _ _ _ Hfa Hsz Ho) as (Hso & Hmod & Hom & _).
  set (bytes := if reference (field_shape f) then 8 else size (field_shape f)).
  destruct (N.ltb_spec (size_max - bytes) o) as [|Hfit]; [done|]. intros [= <- <- <-].
  pose proof (pow2_range _ Hfa) as Hr. assert (Hbytes : o + bytes <= size_max).
  { destruct Hun as (_ & _ & Hun). unfold bytes in *. destruct (aggregate f).
    - destruct Hun as (Href & new & _ & _ & _ & _ & _ & _ & Hs & _). rewrite Href in *. lia.
    - destruct Hun as [_ (Hp & _)]. pose proof (pow2_range _ Hp). unfold size_max, two64 in *. destruct (reference _); lia. }
  assert (Hmax : pow2 (N.max align_ (field_alignment abi f)) ∧ N.max align_ (field_alignment abi f) <= pack abi)
    by (split; [by apply pow2_max|lia]).
  set (f' := set_offset o f). assert (Hfal : field_alignment abi f' <= N.max align_ (field_alignment abi f))
    by (change (field_alignment abi f') with (field_alignment abi f); lia). destruct Hun as (Hsf & Hsc & Hun). destruct (aggregate f) eqn:Hagg.
  - destruct Hun as (Href & new & -> & Hfc & Hcc & Hnew & Hpa & Hpap & Hns & Hnf).
    assert (Hfaa : field_alignment abi f = alignment (field_shape f)) by (unfold field_alignment; rewrite Href; lia).
    unfold bytes in *. rewrite Href in *. rewrite shift_from_app, <-app_assoc, insert_app_r.
    exists (<[local := f']> (news ++ (shift o <$> new))). split; [done|].
    pose proof (packed_shift _ _ _ _ o _ Hnew Hpa ltac:(by rewrite <-Hfaa) Hbytes) as Hsh.
    unfold placing. rewrite length_insert, !length_app, length_fmap. destruct Hmax as [Hm1 Hm2].
    split_and!; [lia| |done|done|done|].
    + apply packed_insert; [|cbn; lia|unfold width; cbn; rewrite Hagg; lia| |done|exact Hfal|done].
      * apply (packed_app _ _ o); [by eapply packed_weaken; [exact Hpacked|lia..]| |lia|lia].
        eapply packed_weaken; [exact Hsh|lia..].
      * intros j g _ [Hg|[_ Hg]]%lookup_app_Some; apply list_elem_of_lookup_2 in Hg.
        -- right. pose proof (packed_in _ _ _ _ _ Hpacked g Hg). cbn. lia.
        -- left. pose proof (packed_in _ _ _ _ _ Hsh g Hg). unfold width. cbn. rewrite Hagg. lia.
    + intros j g Hg Hj. apply list_lookup_insert_Some in Hg as [(<- & <- & _)|[Hne [Hg|[Hge Hg]]%lookup_app_Some]].
      * unfold field_ok. cbn. rewrite Hsf, Hsc, Hfc, Hagg, !length_app. split_and!; [intros _; lia|lia|done].
      * eapply field_ok_weaken; [apply Hfields; [exact Hg|lia]|lia].
      * apply list_lookup_fmap_Some in Hg as (g' & -> & Hg). specialize (Hnf _ _ Hg). rewrite !length_app in Hnf.
        replace (length pre + j)%nat with (length pre + length news + (j - length news))%nat by lia.
        destruct Hnf as (G1 & G2 & G3). unfold field_ok. cbn. split_and!; [intros Ha; specialize (G1 Ha); lia|lia|done].
  - destruct Hun as [-> Hshape]. unfold shift_from. rewrite firstn_all, skipn_all, app_nil_r, insert_app_r.
    exists (<[local := f']> news). split; [done|]. unfold placing. rewrite length_insert. destruct Hmax as [Hm1 Hm2].
    assert (Hw : width f' = bytes) by (unfold width; cbn; by rewrite Hagg).
    split_and!; [done| |done|done|done|].
    + apply packed_insert; [|cbn; lia|rewrite Hw; cbn; lia| |done|exact Hfal|done].
      * eapply packed_weaken; [exact Hpacked|lia..].
      * intros j g _ Hg%list_elem_of_lookup_2. right. pose proof (packed_in _ _ _ _ _ Hpacked g Hg). cbn. lia.
    + intros j g Hg Hj. apply list_lookup_insert_Some in Hg as [(<- & <- & _)|[Hne Hg]].
      * unfold field_ok. cbn. rewrite Hsf, Hsc, Hagg. split_and!; [done|lia|done].
      * apply Hfields; [exact Hg|lia].
Qed.

Lemma place_members_spec root ro pre count ms : ∀ local news size_ align_ size' align' fs',
  placing pre news count local size_ align_ → (local + length ms = count)%nat →
  place_members graph abi nested root ro (length pre) count local ms size_ align_ (pre ++ news) = Ok (size', align', fs') →
  ∃ news', fs' = pre ++ news' ∧ placing pre news' count count size' align'.
Proof.
  induction ms as [|m ms IH]; intros local news size_ align_ size' align' fs' Hp Hc; cbn [place_members length] in *.
  { intros [= <- <- <-]. exists news. split; [done|]. by replace count with local at 2 by lia. }
  destruct (member_field _ _ _ _ _ _ _ _ _ _) as [[f fs1]| | |] eqn:Hf; [|done..]. apply member_field_spec in Hf.
  destruct (place _ _ _ _ _ _ _) as [[[s1 a1] fs2]| | |] eqn:Hpl; [|done..].
  destruct (placed_spec _ _ _ _ _ _ _ _ _ _ _ Hp ltac:(lia) Hf Hpl) as (news1 & -> & Hp1).
  apply IH; [done|lia].
Qed.
End members_spec.

Lemma layout_record_spec fuel active type root ro fs l :
  layout_record graph abi fuel active type root ro fs = Ok l → nested_ok fs l.
Proof.
  revert active type root ro fs l. induction fuel as [|fuel IH]; intros active type root ro fs l; cbn [layout_record];
    (destruct (_ || _); [done|]); (destruct (find_type graph type) as [r|]; [|done]); (destruct (_ || _); [done|]); [done|].
  destruct (members graph type) as [ms|]; [|done].
  destruct (place_members _ _ _ _ _ _ _ _ _ _ _ _) as [[[s a] fs1]| | |] eqn:Hp; [|done..].
  apply (place_members_spec _ (IH (active ++ [type]))) in Hp as (news & -> & Hcount & Hpacked & Ha & Hap & Hs & Hf);
    [|clear Hp|done].
  - destruct (align_up _ a) as [s'|] eqn:Hal; [|done]. intros [= <-].
    assert (Hs1 : (if s =? 0 then 1 else s) <= size_max ∧ 0 < (if s =? 0 then 1 else s) ∧ s <= (if s =? 0 then 1 else s)).
    { unfold size_max, two64 in *. destruct (N.eqb_spec s 0); lia. }
    destruct Hs1 as (Hs1 & Hs2 & Hs3). destruct (align_up_result _ _ _ Ha Hs1 Hal) as (G1 & G2 & G3 & _).
    exists news. cbn. split_and!; [done..| |done|done|lia|done|done|].
    + eapply packed_weaken; [exact Hpacked|lia..].
    + intros j f Hj. apply Hf; [done|lia].
  - destruct pack_pow2 as [Hpk|Hpk].
    + pose proof (pow2_range _ Hpk). split_and!; [by rewrite length_replicate|apply packed_default; lia|by left|lia|done|].
      intros j f [_ Hj]%lookup_replicate Hn. lia.
    + split_and!; [by rewrite length_replicate|apply packed_default; lia|by left|lia|done|].
      intros j f [_ Hj]%lookup_replicate Hn. lia.
Qed.

(** ** The objects *)

(** What the loop over the objects keeps: storage packed, indices inside, slots filled. *)
Record plan_ok (p : plan) : Prop := {
  plan_packed : packed abi 0 (total p) 8 (plan_fields p);
  plan_total : total p <= size_max;
  plan_field_ok i f : plan_fields p !! i = Some f → field_ok (length (plan_fields p)) i f;
  plan_objects o : o ∈ object_layouts p → (first_field o + field_count o <= length (plan_fields p))%nat;
  plan_slots i k : object_slots p !! i = Some (Some k) → (k < length (object_layouts p))%nat }.

Lemma layout_object_ok p i p' : plan_ok p → layout_object graph abi p i = Ok p' → plan_ok p'.
Proof.
  intros Hp. unfold layout_object. destruct (find_object _ _) as [e|]; [|by intros [= <-]].
  destruct (negb _); [done|]. destruct (named graph (object_type e)) as [type|]; [|done].
  destruct (layout_record _ _ _ _ _ _ _ _) as [l| | |] eqn:Hl; [|done..].
  apply layout_record_spec in Hl as (new & E & Hfirst & Hcount & Hpacked & Ha & Hap & Hpos & Hmax & Hmod & Hf).
  destruct (align_up (laid_size l) _) as [s|] eqn:Hs; [|done].
  destruct (align_up (total p) _) as [t|] eqn:Ht; [|done].
  destruct (N.ltb_spec (size_max - s) t) as [|Hfit]; [done|]. intros [= <-].
  destruct (align_up_result _ _ _ Ha Hmax Hs) as (_ & _ & Hsm & Hss). rewrite (Hss Hmod) in *.
  destruct (align_up_result _ _ _ Ha (plan_total _ Hp) Ht) as (Htt & Htmod & Htm & _).
  rewrite E, Hfirst, shift_from_app. pose proof (pow2_range _ Ha) as Har.
  assert (Hts : t + laid_size l <= size_max) by lia.
  pose proof (packed_shift _ _ _ _ t _ Hpacked Ha Htmod Hts) as Hsh.
  split; cbn [plan_fields object_layouts object_slots total].
  - apply (packed_app _ _ t); [by eapply packed_weaken; [apply (plan_packed _ Hp)|lia..]| |lia|lia].
    eapply packed_weaken; [exact Hsh|lia..].
  - done.
  - intros j f. rewrite length_app, length_fmap. intros [Hj|[Hge Hj]]%lookup_app_Some.
    + eapply field_ok_weaken; [by apply (plan_field_ok _ Hp)|lia].
    + apply list_lookup_fmap_Some in Hj as (g & -> & Hg). specialize (Hf _ _ Hg).
      replace (length (plan_fields p) + (j - length (plan_fields p)))%nat with j in Hf by lia. exact Hf.
  - intros o. rewrite length_app, length_fmap. intros [Ho| ->%list_elem_of_singleton]%elem_of_app.
    + pose proof (plan_objects _ Hp o Ho). lia.
    + cbn. lia.
  - intros j k. rewrite length_app. cbn [length]. intros [(_ & [= <-] & _)|[_ Hj]]%list_lookup_insert_Some; [lia|].
    pose proof (plan_slots _ Hp _ _ Hj). lia.
Qed.

Lemma layout_ok p : layout graph abi = Ok p → plan_ok p.
Proof.
  unfold layout. assert (H0 : plan_ok (empty_plan graph)).
  { split; cbn; [apply packed_nil|done|done|set_solver|].
    intros i k Hik. destruct i as [|i]; [done|]. by apply lookup_replicate in Hik as [? _]. }
  revert H0. generalize (empty_plan graph) as p0, (seq 0 (object_slot_count graph)) as slots. intros p0 slots. revert p0.
  induction slots as [|i slots IH]; intros p0 Hp0; cbn [layout_objects]; [by intros [= <-]|].
  destruct (layout_object graph abi p0 i) as [p1| | |] eqn:E; [|done..]. apply IH. by eapply layout_object_ok.
Qed.
End recursion.

(** ** Termination

    The live graph interns a type expression after the one it wraps, which is the law the
    fuel of the modifier loops rests on; nesting of records is bounded by the code. *)

Definition derived_below (graph : graph_reader) : Prop :=
  ∀ type kind child, derived graph type = Some (kind, child) → child < type.

Section termination.
Context (graph : graph_reader) (abi : abi_configuration).
Context (Hbelow : derived_below graph).

Lemma modifiers_returns fuel type indirect s : (N.to_nat type < fuel)%nat →
  modifiers graph fuel type indirect s ≠ Some None.
Proof.
  revert type indirect s. induction fuel as [|fuel IH]; intros type indirect s Hf; [lia|]. cbn [modifiers].
  destruct (derived graph type) as [[k child]|] eqn:Hd; [|done]. apply Hbelow in Hd.
  destruct k; try done; [|destruct indirect; [done|]..]; apply IH; lia.
Qed.

Lemma scalar_layout_returns type : scalar_layout graph abi type ≠ Some None.
Proof.
  unfold scalar_layout. pose proof (modifiers_returns (type_fuel type) type false default_shape) as H.
  destruct (modifiers _ _ _ _ _) as [[[t s]|]|]; [|exfalso; apply H; [unfold type_fuel; lia|done]|done].
  destruct (intrinsic graph t) as [i|]; [|done]. destruct (pointer _); [done|]. by destruct (scalar_kind abi i) as [[[[]]]|].
Qed.

Lemma strip_const_returns fuel type q : (N.to_nat type < fuel)%nat → is_Some (strip_const graph fuel type q).
Proof.
  revert type q. induction fuel as [|fuel IH]; intros type q Hf; [lia|]. cbn [strip_const].
  destruct (derived graph type) as [[[] child]|] eqn:Hd; try done. apply Hbelow in Hd. apply IH. lia.
Qed.

Definition unstuck {A} (r : result A) : Prop := match r with Stuck => False | _ => True end.

Lemma place_members_returns nested root ro first count ms : (∀ t r b fs, unstuck (nested t r b fs)) →
  ∀ local s a fs, unstuck (place_members graph abi nested root ro first count local ms s a fs).
Proof.
  intros Hn. induction ms as [|m ms IH]; intros local s a fs; cbn [place_members]; [done|].
  assert (Hm : unstuck (member_field graph abi nested root ro first count local m fs)).
  { unfold member_field. pose proof (scalar_layout_returns (member_type m)) as Hs.
    destruct (scalar_layout graph abi (member_type m)) as [[sh|]|]; [done|done|].
    destruct (strip_const_returns (type_fuel (member_type m)) (member_type m) false) as [[base q] ->]; [unfold type_fuel; lia|].
    destruct (named graph base) as [t|]; [|done]. match goal with |- context [nested ?t ?r ?b ?f] => specialize (Hn t r b f) end.
    destruct (nested _ _ _ _); [|done..]. by destruct (_ <? _). }
  destruct (member_field _ _ _ _ _ _ _ _ _ _) as [[f fs']| | |]; [|done..]. unfold place.
  destruct (align_up _ _); [|done]. destruct (_ <? _); [done|]. apply IH.
Qed.

Lemma layout_record_returns fuel active type root ro fs : (64 <= fuel + length active)%nat →
  unstuck (layout_record graph abi fuel active type root ro fs).
Proof.
  revert active type root ro fs. induction fuel as [|fuel IH]; intros active type root ro fs Hf; cbn [layout_record];
    (destruct ((64 <=? length active)%nat || bool_decide (type ∈ active)) eqn:Hg; [done|]);
    (destruct (find_type graph type) as [t|]; [|done]); (destruct (negb (defined t) || _ || _); [done|]).
  - bools. lia.
  - destruct (members graph type) as [ms|]; [|done].
    pose proof (place_members_returns (layout_record graph abi fuel (active ++ [type])) root ro (length fs) (length ms) ms) as Hp.
    match goal with |- context [place_members ?g ?a ?n ?r ?b ?f ?c ?l ?m ?s ?al ?fs] =>
      assert (Hu : unstuck (place_members g a n r b f c l m s al fs)) by
        (apply Hp; intros; apply IH; rewrite length_app; cbn; lia);
      destruct (place_members g a n r b f c l m s al fs) as [[[??]?]| | |] end; try done. by destruct (align_up _ _).
Qed.

Lemma layout_returns : unstuck (layout graph abi).
Proof.
  unfold layout. generalize (empty_plan graph) as p, (seq 0 (object_slot_count graph)) as is_. intros p is_. revert p.
  induction is_ as [|i is_ IH]; intros p; cbn [layout_objects]; [done|].
  assert (Hu : unstuck (layout_object graph abi p i)).
  { unfold layout_object. destruct (find_object _ _); [|done]. destruct (negb _); [done|]. destruct (named _ _) as [t|]; [|done].
    match goal with |- context [layout_record ?g ?a ?f ?ac ?t ?r ?b ?fs] =>
      pose proof (layout_record_returns f ac t r b fs ltac:(cbn; lia)) as Hl; destruct (layout_record g a f ac t r b fs) end; try done.
    destruct (align_up _ _); [|done]. destruct (align_up _ _); [|done]. by destruct (_ <? _). }
  destruct (layout_object _ _ _ _); done.
Qed.
End termination.

(** C24: when the layout of a graph's objects succeeds, every field lies
    inside the storage on its alignment (capped by the packing), no two fields overlap, and
    the children and siblings every field names are fields of the layout. *)
Theorem layout_fields_disjoint graph abi p : is_supported_abi_configuration abi = true →
  layout graph abi = Ok p →
  (∀ i f, plan_fields p !! i = Some f →
    offset f + width f <= total p ∧ offset f mod field_alignment abi f = 0 ∧ field_alignment abi f <= pack abi ∧
    (aggregate f = true → (i < first_child f)%nat ∧ (first_child f + child_count f <= length (plan_fields p))%nat) ∧
    (sibling_first f + sibling_count f <= length (plan_fields p))%nat) ∧
  (∀ i j f g, i ≠ j → plan_fields p !! i = Some f → plan_fields p !! j = Some g → apart f g).
Proof.
  intros Habi Hp. apply layout_ok in Hp as [Hpack _ Hok _ _]; [|done]. split.
  - intros i f Hi. destruct (Hok i f Hi) as (H1 & H2 & _).
    pose proof (list_elem_of_lookup_2 _ _ _ Hi) as Hin.
    pose proof (packed_in _ _ _ _ _ Hpack f Hin). destruct (packed_aligned _ _ _ _ _ Hpack f Hin) as (_ & _ & ?).
    split_and!; [lia|done|unfold field_alignment; lia|done|done].
  - intros i j f g. apply (packed_apart _ _ _ _ _ Hpack).
Qed.

(** Two characters around a double, packed at four bytes. *)
Definition layout_example : graph_reader := {|
  object_slot_count := 1;
  object_at i := N.of_nat (S i);
  find_object h := if h =? 1 then Some (ObjectEntry 3 0) else None;
  find_type h := if h =? 3 then Some (TypeEntry true record_kind struct_type) else None;
  intrinsic t := if t =? 1 then Some char_type else if t =? 2 then Some double_type else None;
  named t := if t =? 3 then Some 3 else None;
  derived _ := None;
  members t := Some [Member 1 Construction.zero_value; Member 2 Construction.zero_value; Member 1 Construction.zero_value];
  links := Some []; string _ := [] |}.

Lemma layout_fields_disjoint_witness : ∃ p, layout layout_example (Abi posix_x64 4) = Ok p ∧
  (offset <$> plan_fields p) = [0; 4; 12] ∧ total p = 16 ∧
  (∀ i j f g, i ≠ j → plan_fields p !! i = Some f → plan_fields p !! j = Some g → apart f g).
Proof.
  eexists. split; [vm_compute; reflexivity|]. split; [reflexivity|]. split; [reflexivity|].
  eapply (layout_fields_disjoint layout_example (Abi posix_x64 4)); [reflexivity|vm_compute; reflexivity].
Defined.

End RuntimeLayout.
