(* ===== verification/RuntimeLinks.v ===== *)
(** * Bindings of managed fields

    Models the middle of [managed_runtime::construct] (server_engine/project/runtime/
    managed_runtime.cpp:293-346): the reference bindings of initializers and links, the
    iterative resolution of aliases and the topological order of the value links.  Arrays of
    [std::size_t] with [missing] are lists of [option nat].  An access outside an array and
    fuel used up are [Stuck], shown not to happen. *)

From S2P Require Import Prelude Construction RuntimeLayout.

Local Open Scope nat_scope.

Module RuntimeLinks.

Import RuntimeLayout.

(** [array[i]], [missing] included; reading past the end is [Stuck]. *)
Definition get {A B} (l : list A) (i : nat) (k : A → result B) : result B :=
  match l !! i with Some x => k x | None => Stuck end.

(** [managed_runtime::field] of an endpoint. *)
Definition field (object_slots : list (option nat)) (object_layouts : list managed_object_layout)
    (endpoint : object_endpoint) : option nat :=
  if (endpoint_object endpoint =? 0)%N || negb (member_valid (endpoint_member endpoint)) then None
  else
    slot ← mjoin (object_slots !! N.to_nat (endpoint_object endpoint));
    object ← object_layouts !! slot;
    if N.to_nat (endpoint_member endpoint) <? field_count object
    then Some (first_field object + N.to_nat (endpoint_member endpoint)) else None.

Section bindings.
Context (fs : fields).
Let count : nat := length fs.

Definition compatible_fields (t s : managed_field_layout) : bool :=
  negb (aggregate t) && negb (aggregate s) &&
  (value_type (field_shape t) =? value_type (field_shape s))%N &&
  Bool.eqb (pointer (field_shape t)) (pointer (field_shape s)) &&
  (size (field_shape t) =? size (field_shape s))%N &&
  (negb (reference (field_shape t)) || read_only (field_shape t) || negb (read_only (field_shape s))).

Definition compatible (target source : nat) : result bool :=
  get fs target (λ t, get fs source (λ s, Ok (compatible_fields t s))).

Notation "'let*' x := e 'in' k" :=
  (match e with Ok x => k | Failed m => Failed m | Corrupt => Corrupt | Stuck => Stuck end)
  (at level 200, x name, e at level 100, k at level 200).

(** A binding to a sibling, its operand one-based. *)
Definition bound_sibling (f : managed_field_layout) : option nat :=
  let operand := N.to_nat (Construction.operand (initial f)) in
  if (negb (operand =? 0)) && (operand <=? sibling_count f) then Some (sibling_first f + operand - 1) else None.

Fixpoint bind_siblings (indices : list nat) (references : list (option nat)) : result (list (option nat)) :=
  match indices with
  | [] => Ok references
  | i :: indices' =>
      get fs i (λ f,
        if bool_decide (Construction.kind (initial f) = Construction.member_binding) then
          match bound_sibling f with
          | None => Failed "Invalid local reference binding"
          | Some source =>
              if negb (reference (field_shape f)) then Failed "Invalid local reference binding"
              else
                let* c := compatible i source in
                if c then bind_siblings indices' (<[i := Some source]> references)
                else Failed "Invalid local reference binding"
          end
        else bind_siblings indices' references)
  end.

Definition live (link : link_record) : bool :=
  negb (endpoint_object (link_source link) =? 0)%N && negb (endpoint_object (link_target link) =? 0)%N.

Fixpoint bind_links (lookup : object_endpoint → option nat) (links : list link_record)
    (references incoming : list (option nat)) : result (list (option nat) * list (option nat)) :=
  match links with
  | [] => Ok (references, incoming)
  | link :: links' =>
      if negb (live link) then bind_links lookup links' references incoming
      else
        match lookup (link_target link), lookup (link_source link) with
        | Some target, Some source =>
            let* c := compatible target source in
            if negb c then Failed "Link endpoint type mismatch"
            else
              get incoming target (λ previous,
                match previous with
                | Some _ => Failed "Multiple links target one field"
                | None =>
                    let incoming := <[target := Some source]> incoming in
                    get fs target (λ t,
                      if reference (field_shape t) then
                        bind_links lookup links' (<[target := Some source]> references) incoming
                      else if read_only (field_shape t) then Failed "A value link cannot target a const field"
                      else bind_links lookup links' references incoming)
                end)
        | _, _ => Failed "Link endpoint type mismatch"
        end
  end.

(** The arrays of the resolution loop: resolved aliases, and the state of each node (1 on
    the path, 2 done). *)
Record resolution : Type := Resolution { resolved : list (option nat); state : list nat }.

(** The inner loop: from [current] along the references until something resolved. *)
Fixpoint follow (fuel : nat) (references : list (option nat)) (current : nat) (path : list nat) (r : resolution)
    : result (nat * list nat * resolution) :=
  get (resolved r) current (λ known,
    match known with
    | Some _ => Ok (current, path, r)
    | None =>
        get (state r) current (λ s,
          if (s =? 1) then Failed "Reference binding cycle"
          else
            match fuel with
            | O => Stuck
            | S fuel' =>
                let r := Resolution (resolved r) (<[current := 1]> (state r)) in
                let path := path ++ [current] in
                get fs current (λ f,
                  if negb (reference (field_shape f)) then
                    Ok (current, path, Resolution (<[current := Some current]> (resolved r)) (state r))
                  else
                    get references current (λ next,
                      match next with
                      | None => Failed "Reference field has no binding"
                      | Some next => follow fuel' references next path r
                      end))
            end)
    end).

(** Writing the result to the path. *)
Definition settle (target : option nat) (path : list nat) (r : resolution) : resolution :=
  foldl (λ r item, Resolution (<[item := target]> (resolved r)) (<[item := 2]> (state r))) r path.

Fixpoint resolve_all (references : list (option nat)) (indices : list nat) (r : resolution) : result (list (option nat)) :=
  match indices with
  | [] => Ok (resolved r)
  | i :: indices' =>
      let* found := follow (S count) references i [] r in
      let '(current, path, r) := found in
      get (resolved r) current (λ target, resolve_all references indices' (settle target path r))
  end.

(** The arrays of the topological order. *)
Record order : Type := Order { outgoing : list (list nat); indegree : list nat; source_for : list (option nat) }.

Fixpoint edges (incoming resolved_ : list (option nat)) (indices : list nat) (o : order) : result order :=
  match indices with
  | [] => Ok o
  | i :: indices' =>
      get incoming i (λ from,
        get fs i (λ f,
          match from with
          | Some from =>
              if reference (field_shape f) then edges incoming resolved_ indices' o
              else
                get resolved_ from (λ source,
                  match source with
                  | None => Stuck
                  | Some source =>
                      if (source =? i) then edges incoming resolved_ indices' o
                      else
                        edges incoming resolved_ indices'
                          (Order (alter (λ l, l ++ [i]) source (outgoing o)) (alter S i (indegree o))
                                 (<[i := Some source]> (source_for o)))
                  end)
          | None => edges incoming resolved_ indices' o
          end))
  end.

(** Taking an edge off each target of a node, queueing those that have none left. *)
Definition release (targets : list nat) (indegree : list nat) (queue : list nat) : list nat * list nat :=
  foldl (λ '(indegree, queue) target,
           let indegree := alter pred target indegree in
           (indegree, if bool_decide (indegree !! target = Some 0) then queue ++ [target] else queue))
        (indegree, queue) targets.

Fixpoint kahn (fuel : nat) (o : order) (i : nat) (indegree queue : list nat) (copies : list (nat * nat))
    : result (list nat * list (nat * nat)) :=
  match queue !! i with
  | None => Ok (queue, copies)
  | Some node =>
      match fuel with
      | O => Stuck
      | S fuel' =>
          get (source_for o) node (λ source,
            get (outgoing o) node (λ targets,
              let copies := match source with Some source => copies ++ [(node, source)] | None => copies end in
              let '(indegree, queue) := release targets indegree queue in
              kahn fuel' o (S i) indegree queue copies))
      end
  end.

Definition empty_order : order := Order (replicate count []) (replicate count 0) (replicate count None).

(** The copies of the value links, in an order in which every source is final. *)
Definition topological (incoming resolved_ : list (option nat)) : result (list (nat * nat)) :=
  let* o := edges incoming resolved_ (seq 0 count) empty_order in
  let queue := filter (λ i, indegree o !! i = Some 0) (seq 0 count) in
  let* done := kahn count o 0 (indegree o) queue [] in
  let '(queue, copies) := done in
  if (length queue =? count) then Ok copies else Failed "Value link cycle".

(** Lines 293-346: the resolved aliases and the copies.  The links are read after the
    siblings are bound. *)
Definition bind (lookup : object_endpoint → option nat) (links : option (list link_record))
    : result (list (option nat) * list (nat * nat)) :=
  let* references := bind_siblings (seq 0 count) (replicate count None) in
  let* links := match links with Some links => Ok links | None => Corrupt end in
  let* bound := bind_links lookup links references (replicate count None) in
  let '(references, incoming) := bound in
  let* resolved_ := resolve_all references (seq 0 count) (Resolution (replicate count None) (replicate count 0)) in
  let* copies := topological incoming resolved_ in
  Ok (resolved_, copies).

End bindings.

(** ** Specification *)

(** A computation that does not get stuck, and what its value satisfies. *)
Definition returns {A} (r : result A) (P : A → Prop) : Prop :=
  match r with Ok a => P a | Stuck => False | Failed _ | Corrupt => True end.

Lemma returns_weaken {A} (r : result A) (P Q : A → Prop) : returns r P → (∀ a, P a → Q a) → returns r Q.
Proof. destruct r; cbn; auto. Qed.

Section spec.
Context (fs : fields).
Let count : nat := length fs.

(** An array with an entry for each field that, where present, names a compatible field. *)
Definition edges_ok (l : list (option nat)) : Prop :=
  length l = count ∧ ∀ i k, l !! i = Some (Some k) →
    ∃ fi fk, fs !! i = Some fi ∧ fs !! k = Some fk ∧ compatible_fields fi fk = true.

(** Following the references of a field to one that is none. *)
Inductive resolves (references : list (option nat)) : nat → nat → Prop :=
| resolves_here i f : fs !! i = Some f → reference (field_shape f) = false → resolves references i i
| resolves_next i k j f : fs !! i = Some f → reference (field_shape f) = true →
    references !! i = Some (Some k) → resolves references k j → resolves references i j.

Lemma resolves_unique references i j j' : resolves references i j → resolves references i j' → j = j'.
Proof.
  induction 1 as [i f Hf Hr|i k j f Hf Hr Hk _ IH]; intros H; inversion H; simplify_eq; auto; congruence.
Qed.

Lemma compatible_trans_size t s : compatible_fields t s = true →
  aggregate t = false ∧ aggregate s = false ∧ size (field_shape t) = size (field_shape s) ∧
  value_type (field_shape t) = value_type (field_shape s) ∧ pointer (field_shape t) = pointer (field_shape s).
Proof.
  unfold compatible_fields. intros H. bools. split_and!; try done; by apply eqb_prop.
Qed.

(** What a field and the one it resolves to share. *)
Definition same_storage (t s : managed_field_layout) : Prop :=
  size (field_shape t) = size (field_shape s) ∧ value_type (field_shape t) = value_type (field_shape s) ∧
  pointer (field_shape t) = pointer (field_shape s).

Lemma resolves_same references i j f : edges_ok references → resolves references i j → fs !! i = Some f →
  ∃ g, fs !! j = Some g ∧ reference (field_shape g) = false ∧ same_storage f g ∧ (aggregate f = false → aggregate g = false).
Proof.
  intros [_ He] H. revert f. induction H as [i f' Hf Hr|i k j f' Hf Hr Hk _ IH]; intros f Hi.
  - rewrite Hi in Hf. injection Hf as ->. eexists. by split_and!.
  - destruct (He i k Hk) as (fi & fk & Hfi & Hfk & Hc). rewrite Hi in Hfi. injection Hfi as <-.
    destruct (compatible_trans_size _ _ Hc) as (H1 & H2 & H3 & H4 & H5).
    destruct (IH fk Hfk) as (g & Hg & Hgr & (G1 & G2 & G3) & G4). exists g. split_and!; [done|done| |auto].
    split_and!; congruence.
Qed.

(** ** Bindings *)

Lemma get_returns {A B} (l : list A) i (k : A → result B) P :
  (i < length l)%nat → (∀ x, l !! i = Some x → returns (k x) P) → returns (get l i k) P.
Proof. intros Hi Hk. unfold get. destruct (lookup_lt_is_Some_2 l i Hi) as [x Hx]. rewrite Hx. by apply Hk. Qed.

Lemma compatible_ok t s : (t < count)%nat → (s < count)%nat →
  ∃ ft fsrc, fs !! t = Some ft ∧ fs !! s = Some fsrc ∧ compatible fs t s = Ok (compatible_fields ft fsrc).
Proof.
  intros Ht Hs. destruct (lookup_lt_is_Some_2 fs t Ht) as [ft Hft], (lookup_lt_is_Some_2 fs s Hs) as [fsrc Hfs].
  exists ft, fsrc. unfold compatible, get. by rewrite Hft, Hfs.
Qed.

Lemma edges_ok_insert l i k fi fk : edges_ok l → fs !! i = Some fi → fs !! k = Some fk →
  compatible_fields fi fk = true → edges_ok (<[i := Some k]> l).
Proof.
  intros [Hl He] Hi Hk Hc. split; [by rewrite length_insert|]. intros i' k' H.
  apply list_lookup_insert_Some in H as [(<- & [= ->] & _)|[_ H]]; [by eauto 10|by apply He].
Qed.

Section bindings_spec.
Context (Hsiblings : ∀ i f, fs !! i = Some f → (sibling_first f + sibling_count f <= count)%nat).

Lemma bind_siblings_returns indices references : Forall (λ i, (i < count)%nat) indices → edges_ok references →
  returns (bind_siblings fs indices references) edges_ok.
Proof.
  intros Hi. revert references. induction Hi as [|i indices Hi _ IH]; intros references Hr; cbn [bind_siblings]; [done|].
  apply get_returns; [done|]. intros f Hf. case_bool_decide; [|by apply IH].
  destruct (bound_sibling f) as [source|] eqn:Hs; [|done]. destruct (negb _) eqn:Href; [done|].
  assert (Hsrc : (source < count)%nat).
  { specialize (Hsiblings i f Hf). unfold bound_sibling in Hs. destruct (_ && _) eqn:Hc; [|done]. bools. simplify_eq. lia. }
  destruct (compatible_ok i source Hi Hsrc) as (fi & fk & Hfi & Hfk & ->).
  destruct (compatible_fields fi fk) eqn:Hc; [|done]. apply IH. by eapply edges_ok_insert.
Qed.

(** What one live link contributes. *)
Definition link_bound (references incoming : list (option nat)) (target source : nat) : Prop :=
  incoming !! target = Some (Some source) ∧
  ∀ f, fs !! target = Some f →
    if reference (field_shape f) then references !! target = Some (Some source) else read_only (field_shape f) = false.

Definition links_bound (lookup : object_endpoint → option nat) (links : list link_record)
    (references incoming : list (option nat)) : Prop :=
  ∀ link, link ∈ links → live link = true →
    ∃ target source, lookup (link_target link) = Some target ∧ lookup (link_source link) = Some source ∧
      link_bound references incoming target source.

Context (lookup : object_endpoint → option nat).
Context (Hlookup : ∀ e i, lookup e = Some i → (i < count)%nat).

Lemma bind_links_returns links : ∀ references incoming, edges_ok references → edges_ok incoming →
  returns (bind_links fs lookup links references incoming)
    (λ '(references', incoming'), edges_ok references' ∧ edges_ok incoming' ∧
       links_bound lookup links references' incoming' ∧
       (∀ t s, link_bound references incoming t s → link_bound references' incoming' t s) ∧
       (∀ i k, incoming' !! i = Some (Some k) → incoming !! i = Some (Some k) ∨
          ∃ f, fs !! i = Some f ∧ (reference (field_shape f) = false → read_only (field_shape f) = false))).
Proof.
  induction links as [|link links IH]; intros references incoming Hr Hin; cbn [bind_links].
  { cbn. split_and!; try done; [by intros l Hl%elem_of_nil|auto]. }
  destruct (live link) eqn:Hlive; cbn [negb].
  2:{ eapply returns_weaken; [by apply IH|]. intros [r' i'] (H1 & H2 & H3 & H4 & H5). split_and!; try done.
      intros l [->|Hl]%elem_of_cons Hlv; [congruence|by apply H3]. }
  destruct (lookup (link_target link)) as [target|] eqn:Ht; [|done].
  destruct (lookup (link_source link)) as [source|] eqn:Hs; [|done].
  destruct (compatible_ok target source) as (ft & fsrc & Hft & Hfs & ->); [by eapply Hlookup..|].
  destruct (compatible_fields ft fsrc) eqn:Hc; cbn [negb]; [|done].
  pose proof Hin as [Hilen _]. pose proof Hr as [Hrlen _].
  apply get_returns; [rewrite Hilen; by eapply Hlookup|]. intros [previous|] Hprev; [done|].
  apply get_returns; [by eapply Hlookup|]. intros f Hf. simplify_eq.
  assert (Hin' : edges_ok (<[target := Some source]> incoming)) by by eapply edges_ok_insert.
  assert (Hlen : (target < length incoming)%nat) by by eapply lookup_lt_Some.
  assert (Hother : ∀ references' t s, link_bound references incoming t s →
    (∀ i, i ≠ target → references' !! i = references !! i) →
    link_bound references' (<[target := Some source]> incoming) t s).
  { intros references' t s [G1 G2] Hsame. assert (t ≠ target) by congruence. split.
    - by rewrite list_lookup_insert_ne by done.
    - intros f Hf. rewrite Hsame by done. by apply G2. }
  assert (Hfinish : ∀ references', edges_ok references' → (∀ i, i ≠ target → references' !! i = references !! i) →
    link_bound references' (<[target := Some source]> incoming) target source →
    (reference (field_shape ft) = false → read_only (field_shape ft) = false) →
    returns (bind_links fs lookup links references' (<[target := Some source]> incoming))
      (λ '(references', incoming'), edges_ok references' ∧ edges_ok incoming' ∧
         links_bound lookup (link :: links) references' incoming' ∧
         (∀ t s, link_bound references incoming t s → link_bound references' incoming' t s) ∧
         (∀ i k, incoming' !! i = Some (Some k) → incoming !! i = Some (Some k) ∨
            ∃ f, fs !! i = Some f ∧ (reference (field_shape f) = false → read_only (field_shape f) = false)))).
  { intros references' Hr' Hsame Hb Hro. eapply returns_weaken; [by apply IH|].
    intros [r' i'] (H1 & H2 & H3 & H4 & H5). split_and!; [done|done| |auto|].
    - intros l [->|Hl]%elem_of_cons Hlv; [exists target, source; auto|by apply H3].
    - intros i k Hk. destruct (H5 i k Hk) as [[(<- & _ & _)|[_ G]]%list_lookup_insert_Some|G]; [|by left|by right].
      right. eauto. }
  destruct (reference (field_shape ft)) eqn:Href.
  - apply Hfinish; [by eapply edges_ok_insert|by intros; apply list_lookup_insert_ne| |done].
    split; [by apply list_lookup_insert_eq|]. intros f Hf. simplify_eq. rewrite Href.
    apply list_lookup_insert_eq. lia.
  - destruct (read_only (field_shape ft)) eqn:Hro; [done|]. apply Hfinish; [done|done| |done].
    split; [by apply list_lookup_insert_eq|]. intros f Hf. simplify_eq. by rewrite Href.
Qed.

End bindings_spec.

(** ** Resolution *)

Section resolution_spec.
Context (references : list (option nat)).
Context (Hreferences : edges_ok references).

(** What is known is right. *)
Definition resolution_ok (r : resolution) : Prop :=
  length (resolved r) = count ∧ length (state r) = count ∧
  ∀ i j, resolved r !! i = Some (Some j) → resolves references i j.

(** Nothing known is forgotten. *)
Definition extends (r r' : resolution) : Prop :=
  ∀ i j, resolved r !! i = Some (Some j) → resolved r' !! i = Some (Some j).

(** The state of the inner loop: the path is what is marked 1, and leads to [current]. *)
Definition walking (current : nat) (path : list nat) (r : resolution) : Prop :=
  (current < count)%nat ∧ resolution_ok r ∧ NoDup path ∧ (∀ x, state r !! x = Some 1 ↔ x ∈ path) ∧
  ∀ x j, x ∈ path → resolves references current j → resolves references x j.

(** Where it ends: at something resolved, everything passed on the path. *)
Definition arrived (start : nat) (path0 : list nat) (r0 : resolution) (current : nat) (path : list nat) (r : resolution) : Prop :=
  walking current path r ∧ extends r0 r ∧ (∀ x, x ∈ path0 → x ∈ path) ∧ (start ∈ path ∨ start = current) ∧
  ∃ j, resolved r !! current = Some (Some j).

Lemma walking_length current path r : walking current path r → (length path <= count)%nat.
Proof.
  intros (_ & (_ & Hl & _) & Hnd & Hst & _). transitivity (length (seq 0 count)); [|by rewrite length_seq].
  apply submseteq_length, NoDup_submseteq; [done|].
  intros x Hx%Hst%lookup_lt_Some. apply elem_of_seq. lia.
Qed.

(** Marking the current node. *)
Lemma walking_mark current path r : walking current path r → resolved r !! current = Some None →
  state r !! current ≠ Some 1 →
  let r' := Resolution (resolved r) (<[current := 1]> (state r)) in
  resolution_ok r' ∧ NoDup (path ++ [current]) ∧ (∀ x, state r' !! x = Some 1 ↔ x ∈ path ++ [current]).
Proof.
  intros (Hc & (Hl1 & Hl2 & Hok) & Hnd & Hst & _) Hres Hs. cbn [state]. split_and!.
  - split_and!; cbn; [done|by rewrite length_insert|done].
  - apply NoDup_app. split_and!; [done| |apply NoDup_singleton].
    intros x Hx ->%list_elem_of_singleton. by apply Hst in Hx.
  - intros x. rewrite elem_of_app, list_elem_of_singleton, <-Hst, list_lookup_insert_Some. rewrite Hl2.
    destruct (decide (current = x)) as [->|]; naive_solver.
Qed.

Lemma follow_returns fuel : ∀ current path r, walking current path r → (count < length path + fuel)%nat →
  returns (follow fs fuel references current path r) (λ '(current', path', r'), arrived current path r current' path' r').
Proof.
  induction fuel as [|fuel IH]; intros current path r Hw Hfuel; pose proof Hw as (Hc & (Hl1 & Hl2 & Hok) & Hnd & Hst & Hpath).
  { apply walking_length in Hw. lia. }
  cbn [follow]. apply get_returns; [by rewrite Hl1|]. intros [j|] Hres.
  { cbn. split_and!; [done|by intros ??|auto|by right|by exists j]. }
  apply get_returns; [by rewrite Hl2|]. intros s Hs. destruct (Nat.eqb_spec s 1) as [|Hs1]; [done|].
  destruct (walking_mark _ _ _ Hw Hres) as (Hok' & Hnd' & Hst'); [congruence|].
  apply get_returns; [done|]. intros f Hf. destruct (reference (field_shape f)) eqn:Href; cbn [negb].
  - apply get_returns; [by destruct Hreferences as [-> _]|]. intros [next|] Hnext; [|done].
    destruct (proj2 Hreferences _ _ Hnext) as (fi & fk & _ & Hfk & _).
    assert (Hw' : walking next (path ++ [current]) (Resolution (resolved r) (<[current := 1]> (state r)))).
    { split_and!; [by eapply lookup_lt_Some|done|done|done|]. intros x j. rewrite elem_of_app, list_elem_of_singleton.
      intros Hx Hj. assert (Hcj : resolves references current j) by (by eapply resolves_next).
      destruct Hx as [Hx| ->]; [by apply Hpath|done]. }
    eapply returns_weaken; [apply IH; [done|rewrite length_app; cbn; lia]|]. intros [[c' p'] r'] (G1 & G2 & G3 & G4 & G5).
    split_and!; [done|done| | |done].
    + intros x Hx. apply G3. set_solver.
    + left. apply G3. set_solver.
  - assert (Hres' : ∀ i j, <[current := Some current]> (resolved r) !! i = Some (Some j) → resolves references i j).
    { intros i j [(<- & [= <-] & _)|[_ H]]%list_lookup_insert_Some; [by eapply resolves_here|by apply Hok]. }
    split_and!.
    + split_and!; [done| |done|done|].
      * destruct Hok' as (? & ? & _). split_and!; cbn in *; [by rewrite length_insert|done|done].
      * intros x j. rewrite elem_of_app, list_elem_of_singleton. intros [Hx| ->] Hj; [by apply Hpath|done].
    + intros i j Hi. cbn. rewrite list_lookup_insert_ne; [done|]. intros ->. congruence.
    + set_solver.
    + left. set_solver.
    + exists current. cbn. apply list_lookup_insert_eq. by rewrite Hl1.
Qed.

Lemma settle_spec j path r : let r' := settle (Some j) path r in
  length (resolved r') = length (resolved r) ∧ length (state r') = length (state r) ∧
  (∀ x, x ∈ path → (x < length (resolved r))%nat → resolved r' !! x = Some (Some j)) ∧
  (∀ x, x ∉ path → resolved r' !! x = resolved r !! x) ∧
  (∀ x, state r' !! x = Some 1 → x ∉ path ∧ state r !! x = Some 1).
Proof.
  revert r. induction path as [|y path IH]; intros r; cbn [settle foldl].
  { split_and!; [done|done|by intros x Hx%elem_of_nil|done|]. intros x Hx. split; [apply not_elem_of_nil|done]. }
  destruct (IH (Resolution (<[y := Some j]> (resolved r)) (<[y := 2]> (state r)))) as (H1 & H2 & H3 & H4 & H5).
  cbn in *. rewrite !length_insert in *. split_and!; [done|done|..].
  - intros x Hx Hlt. destruct (decide (x ∈ path)) as [Hin|Hout]; [by apply H3|]. rewrite H4 by done.
    apply elem_of_cons in Hx as [->|]; [by apply list_lookup_insert_eq|done].
  - intros x Hx. apply not_elem_of_cons in Hx as [Hx1 Hx2]. rewrite H4 by done. by rewrite list_lookup_insert_ne.
  - intros x Hx. apply H5 in Hx as [Hx1 [(<- & ? & _)|[Hne Hx2]]%list_lookup_insert_Some]; [done|]. split; [|done].
    apply not_elem_of_cons. split; [congruence|done].
Qed.

(** The outer loop. *)
Lemma resolve_all_returns indices r : Forall (λ i, (i < count)%nat) indices → resolution_ok r →
  (∀ x, state r !! x ≠ Some 1) →
  returns (resolve_all fs references indices r) (λ l, length l = count ∧
    (∀ i j, l !! i = Some (Some j) → resolves references i j) ∧
    (∀ i j, resolved r !! i = Some (Some j) → l !! i = Some (Some j)) ∧
    ∀ i, i ∈ indices → ∃ j, l !! i = Some (Some j)).
Proof.
  intros Hin. revert r. induction Hin as [|i indices Hi _ IH]; intros r Hok Hst; cbn [resolve_all].
  { destruct Hok as (? & ? & ?). cbn. split_and!; try done. intros i Hi%elem_of_nil. done. }
  assert (Hw : walking i [] r).
  { split_and!; [done|done|apply NoDup_nil_2| |].
    - intros x. split; [by intros ?%Hst|by intros ?%elem_of_nil].
    - intros x j Hx%elem_of_nil. done. }
  pose proof (follow_returns (S (length fs)) i [] r Hw ltac:(cbn; lia)) as Hf. unfold returns in Hf.
  destruct (follow _ _ _ _ _ _) as [[[c path] r']|m| |]; [|done..].
  destruct Hf as ((Hc & (Hl1 & Hl2 & Hok') & Hnd & Hst' & Hpath) & Hext & _ & Hstart & j & Hj).
  assert (Hcj : resolves references c j) by by apply Hok'.
  unfold get. rewrite Hj. destruct (settle_spec j path r') as (S1 & S2 & S3 & S4 & S5).
  assert (Hset : ∀ x k, resolved (settle (Some j) path r') !! x = Some (Some k) → resolves references x k).
  { intros x k Hx. destruct (decide (x ∈ path)) as [Hp|Hp].
    - assert (Hlt : (x < length (resolved r'))%nat) by (rewrite <-S1; by eapply lookup_lt_Some).
      rewrite S3 in Hx by done. simplify_eq. by apply Hpath.
    - rewrite S4 in Hx by done. by apply Hok'. }
  assert (Hkeep : ∀ x k, resolved r' !! x = Some (Some k) → resolved (settle (Some j) path r') !! x = Some (Some k)).
  { intros x k Hx. destruct (decide (x ∈ path)) as [Hp|Hp]; [|by rewrite S4].
    rewrite S3; [|done|by eapply lookup_lt_Some]. do 2 f_equal.
    eapply resolves_unique; [by apply Hpath|by apply Hok']. }
  eapply returns_weaken; [apply IH|].
  - split_and!; [congruence|congruence|done].
  - intros x Hx. apply S5 in Hx as [Hx1 Hx2]. by apply Hst' in Hx2.
  - intros l (L1 & L2 & L3 & L4). split_and!; [done|done| |].
    + intros x k Hx. by apply L3, Hkeep, Hext.
    + intros x [->|Hx]%elem_of_cons; [|by apply L4]. exists j. apply L3.
      destruct Hstart as [Hp| ->]; [|by apply Hkeep]. apply S3; [done|]. lia.
Qed.

End resolution_spec.

(** ** The order of the value links *)

(** Copies in an order in which one pass makes them all hold: no target is written again,
    and no source is written once it was read. *)
Fixpoint ordered (copies : list (nat * nat)) : Prop :=
  match copies with
  | [] => True
  | (t, s) :: rest => t ≠ s ∧ (∀ t' s', (t', s') ∈ rest → t' ≠ t ∧ t' ≠ s) ∧ ordered rest
  end.

(** The field a value field is copied from, if any. *)
Definition edge_of (incoming resolved_ : list (option nat)) (i : nat) : option nat :=
  from ← mjoin (incoming !! i);
  f ← fs !! i;
  if reference (field_shape f) then None
  else source ← mjoin (resolved_ !! from); if (source =? i)%nat then None else Some source.

(** The arrays when the edges of some fields are entered. *)
Record entered (E : nat → option nat) (seen : list nat) (o : order) : Prop := {
  entered_lengths : length (outgoing o) = count ∧ length (indegree o) = count ∧ length (source_for o) = count;
  entered_source x : (x < count)%nat → source_for o !! x = Some (if decide (x ∈ seen) then E x else None);
  entered_degree x : (x < count)%nat →
    indegree o !! x = Some (if decide (x ∈ seen) then match E x with Some _ => 1 | None => 0 end else 0);
  entered_targets s l : outgoing o !! s = Some l → NoDup l ∧ ∀ x, x ∈ l ↔ x ∈ seen ∧ E x = Some s }.

Lemma entered_skip E seen o i : entered E seen o → i ∉ seen → E i = None → entered E (i :: seen) o.
Proof.
  intros [H1 H2 H3 H4] Hi HE. split; [done|..].
  - intros x Hx. rewrite H2 by done. f_equal. destruct (decide (x = i)) as [->|]; repeat case_decide; set_solver.
  - intros x Hx. rewrite H3 by done. f_equal. destruct (decide (x = i)) as [->|];
      repeat case_decide; rewrite ?HE; set_solver.
  - intros s l Hl. destruct (H4 s l Hl) as [Hnd Hx]. split; [done|]. intros x. rewrite Hx, elem_of_cons.
    split; [tauto|]. intros [[->|]?]; [congruence|done].
Qed.

Lemma entered_add E seen o i s : entered E seen o → i ∉ seen → (i < count)%nat → (s < count)%nat → E i = Some s →
  entered E (i :: seen)
    (Order (alter (λ l, l ++ [i]) s (outgoing o)) (alter S i (indegree o)) (<[i := Some s]> (source_for o))).
Proof.
  intros [(L1 & L2 & L3) H2 H3 H4] Hi Hic Hs HE. split; cbn [outgoing indegree source_for].
  - by rewrite !length_alter, length_insert.
  - intros x Hx. destruct (decide (x = i)) as [->|Hne].
    + rewrite list_lookup_insert_eq, decide_True by (lia || set_solver). by rewrite HE.
    + rewrite list_lookup_insert_ne, H2 by done. f_equal. repeat case_decide; set_solver.
  - intros x Hx. destruct (decide (x = i)) as [->|Hne].
    + rewrite list_lookup_alter_eq, H3 by done. cbn. rewrite decide_False, decide_True, HE by set_solver. done.
    + rewrite list_lookup_alter_ne, H3 by done. f_equal. repeat case_decide; set_solver.
  - intros t l. destruct (decide (t = s)) as [->|Hne].
    + rewrite list_lookup_alter_eq. intros (l' & Hl' & ->)%fmap_Some. destruct (H4 s l' Hl') as [Hnd Hx]. split.
      * apply NoDup_app. split_and!; [done| |apply NoDup_singleton].
        intros x Hxl ->%list_elem_of_singleton. by apply Hx in Hxl as [? _].
      * intros x. rewrite elem_of_app, list_elem_of_singleton, Hx, elem_of_cons. split; [intros [?| ->]; tauto|].
        intros [[->|?] ?]; tauto.
    + rewrite list_lookup_alter_ne by done. intros Hl. destruct (H4 t l Hl) as [Hnd Hx]. split; [done|].
      intros x. rewrite Hx, elem_of_cons. split; [tauto|]. intros [[->|]?]; [congruence|done].
Qed.

Lemma edges_returns incoming resolved_ indices : ∀ seen o,
  edges_ok incoming → length resolved_ = count → (∀ i, (i < count)%nat → ∃ j, resolved_ !! i = Some (Some j) ∧ (j < count)%nat) →
  NoDup indices → (∀ i, i ∈ indices → (i < count)%nat ∧ i ∉ seen) → entered (edge_of incoming resolved_) seen o →
  returns (edges fs incoming resolved_ indices o) (entered (edge_of incoming resolved_) (reverse indices ++ seen)).
Proof.
  induction indices as [|i indices IH]; intros seen o Hin Hrl Hres Hnd Hfresh Hent; cbn [edges]; [done|].
  inversion Hnd as [|? ? Hi Hnd']; subst. destruct (Hfresh i ltac:(set_solver)) as [Hic Hid].
  pose proof Hin as [Hil Hik].
  assert (Hrev : reverse (i :: indices) ++ seen = reverse indices ++ i :: seen) by (by rewrite reverse_cons, <-app_assoc).
  rewrite Hrev. assert (Hnext : ∀ o', entered (edge_of incoming resolved_) (i :: seen) o' →
    returns (edges fs incoming resolved_ indices o') (entered (edge_of incoming resolved_) (reverse indices ++ i :: seen))).
  { intros o' Ho'. apply IH; [done..| |done]. intros x Hx. destruct (Hfresh x ltac:(set_solver)). split; [done|].
    apply not_elem_of_cons. split; [|done]. intros ->. done. }
  apply get_returns; [by rewrite Hil|]. intros from Hfrom. apply get_returns; [done|]. intros f Hf.
  assert (Hedge : edge_of incoming resolved_ i = from ← from; if reference (field_shape f) then None else
    source ← mjoin (resolved_ !! from); if (source =? i)%nat then None else Some source).
  { unfold edge_of. rewrite Hfrom, Hf. done. }
  destruct from as [from|]; cbn in Hedge; [|by apply Hnext, entered_skip].
  destruct (reference (field_shape f)); [by apply Hnext, entered_skip|].
  destruct (Hik i from Hfrom) as (_ & fk & _ & Hfk & _). apply lookup_lt_Some in Hfk.
  destruct (Hres from Hfk) as (j & Hj & Hjc). rewrite Hj in Hedge. cbn in Hedge.
  unfold get. rewrite Hj. destruct (j =? i)%nat; [by apply Hnext, entered_skip|]. by apply Hnext, entered_add.
Qed.

(** ** The queue *)

Lemma release_spec targets : ∀ degrees queue, NoDup targets → (∀ t, t ∈ targets → degrees !! t = Some 1) →
  release targets degrees queue = (foldl (λ d t, alter pred t d) degrees targets, queue ++ targets) ∧
  ∀ x, foldl (λ d t, alter pred t d) degrees targets !! x = if decide (x ∈ targets) then Some 0 else degrees !! x.
Proof.
  unfold release. induction targets as [|t targets IH]; intros degrees queue Hnd Hone; cbn [foldl].
  { rewrite app_nil_r. split; [done|]. intros x. by rewrite decide_False by apply not_elem_of_nil. }
  inversion Hnd as [|? ? Ht Hnd']; subst. specialize (Hone t ltac:(set_solver)) as H1.
  assert (H0 : alter pred t degrees !! t = Some 0) by by rewrite list_lookup_alter_eq, H1.
  rewrite bool_decide_eq_true_2 by done. destruct (IH (alter pred t degrees) (queue ++ [t])) as [E1 E2]; [done| |].
  { intros x Hx. rewrite list_lookup_alter_ne by congruence. apply Hone. set_solver. }
  rewrite E1, <-app_assoc. split; [done|]. intros x. rewrite E2. destruct (decide (x = t)) as [->|Hne].
  - rewrite decide_False, decide_True by set_solver. done.
  - rewrite list_lookup_alter_ne by done. repeat case_decide; set_solver.
Qed.

Section queue.
Context (E : nat → option nat) (o : order).
Context (HE : ∀ x s, (x < count)%nat → E x = Some s → (s < count)%nat).
Context (Ho : entered E (reverse (seq 0 count) ++ []) o).

Definition copy_of (x : nat) : option (nat * nat) := (λ s, (x, s)) <$> E x.

(** The queue: what is free, sources in front, copies made as far as it is read. *)
Record queued (i : nat) (degrees queue : list nat) (copies : list (nat * nat)) : Prop := {
  queued_lt x : x ∈ queue → (x < count)%nat;
  queued_nodup : NoDup queue;
  queued_iff x : (x < count)%nat → (x ∈ queue ↔ E x = None ∨ ∃ s, E x = Some s ∧ s ∈ take i queue);
  queued_degree x : (x < count)%nat → degrees !! x = Some (if decide (x ∈ queue) then 0 else 1);
  queued_copies : copies = omap copy_of (take i queue);
  queued_order k x s : queue !! k = Some x → E x = Some s → ∃ k', (k' < k)%nat ∧ queue !! k' = Some s }.

Lemma all_entered x : (x < count)%nat → x ∈ reverse (seq 0 count) ++ [].
Proof. intros Hx. rewrite app_nil_r, elem_of_reverse, elem_of_seq. lia. Qed.

Lemma queue_length i degrees queue copies : queued i degrees queue copies → (length queue <= count)%nat.
Proof.
  intros Hq. transitivity (length (seq 0 count)); [|by rewrite length_seq].
  apply submseteq_length, NoDup_submseteq; [apply (queued_nodup _ _ _ _ Hq)|].
  intros x Hx%(queued_lt _ _ _ _ Hq). apply elem_of_seq. lia.
Qed.

Lemma queued_step i degrees queue copies node targets : queued i degrees queue copies → queue !! i = Some node →
  outgoing o !! node = Some targets →
  queued (S i) (release targets degrees queue).1 (release targets degrees queue).2
    (match E node with Some source => copies ++ [(node, source)] | None => copies end).
Proof.
  intros Hq Hnode Htargets. pose proof Hq as [Q1 Q2 Q3 Q4 Q5 Q6].
  destruct (entered_targets _ _ _ Ho _ _ Htargets) as [Hnd Hmem].
  assert (Hnc : (node < count)%nat) by (by eapply Q1, list_elem_of_lookup_2).
  assert (Ht : ∀ t, t ∈ targets ↔ (t < count)%nat ∧ E t = Some node).
  { intros t. rewrite Hmem, app_nil_r, elem_of_reverse, elem_of_seq. split; intros [??]; split; (lia || done). }
  assert (Hfresh : ∀ t, t ∈ targets → t ∉ queue).
  { intros t [Htc HEt]%Ht Hin. apply Q3 in Hin as [?|(s & Hs & Hin)]; [congruence| |done]. simplify_eq.
    apply list_elem_of_lookup_1 in Hin as [k Hk]. apply lookup_take_Some in Hk as [Hki Hk].
    pose proof (NoDup_lookup _ _ _ _ Q2 Hk Hnode). lia. }
  destruct (release_spec targets degrees queue Hnd) as [-> Hdeg].
  { intros t Htt. apply Ht in Htt as Htc. rewrite Q4 by apply Htc. by rewrite decide_False by auto. }
  cbn [fst snd]. assert (Htake : take (S i) (queue ++ targets) = take i queue ++ [node]).
  { rewrite take_app_le by (apply lookup_lt_Some in Hnode; lia). by apply take_S_r. }
  split.
  - intros x [Hx|Hx]%elem_of_app; [by apply Q1|]. by apply Ht in Hx as [? _].
  - apply NoDup_app. split_and!; [done| |done]. intros x Hx Hx'. by apply (Hfresh x).
  - intros x Hx. rewrite Htake, elem_of_app, Q3, Ht by done. split.
    + intros [[?|(s & Hs & Hin)]|[_ ?]]; [by left|right; exists s; set_solver|right; exists node; set_solver].
    + intros [?|(s & Hs & [Hin| ->%list_elem_of_singleton]%elem_of_app)]; [by left; left|left; right; eauto|by right].
  - intros x Hx. rewrite Hdeg, Q4 by done. repeat case_decide; set_solver.
  - rewrite Htake, omap_app, <-Q5. cbn. unfold copy_of. destruct (E node); cbn; [done|by rewrite app_nil_r].
  - intros k x s [Hk|[Hge Hk]]%lookup_app_Some Hs.
    + destruct (Q6 _ _ _ Hk Hs) as (k' & Hk' & Hl). exists k'. split; [done|by apply lookup_app_l_Some].
    + apply list_elem_of_lookup_2, Ht in Hk as [_ Hk]. simplify_eq. exists i. apply lookup_lt_Some in Hnode as Hil.
      split; [lia|by apply lookup_app_l_Some].
Qed.

Lemma kahn_returns fuel : ∀ i degrees queue copies, queued i degrees queue copies → (count <= i + fuel)%nat →
  returns (kahn fuel o i degrees queue copies) (λ '(queue', copies'),
    ∃ i' degrees', (length queue' <= i')%nat ∧ queued i' degrees' queue' copies').
Proof.
  induction fuel as [|fuel IH]; intros i degrees queue copies Hq Hfuel; cbn [kahn]; pose proof (queue_length _ _ _ _ Hq) as Hl.
  - destruct (queue !! i) as [node|] eqn:Hn; [apply lookup_lt_Some in Hn; lia|]. apply lookup_ge_None in Hn.
    exists i, degrees. done.
  - destruct (queue !! i) as [node|] eqn:Hn; [|apply lookup_ge_None in Hn; by exists i, degrees].
    assert (Hnc : (node < count)%nat) by (by eapply (queued_lt _ _ _ _ Hq), list_elem_of_lookup_2).
    destruct (entered_lengths _ _ _ Ho) as (L1 & _ & L3).
    apply get_returns; [by rewrite L3|]. intros source Hsource.
    rewrite (entered_source _ _ _ Ho _ Hnc), decide_True in Hsource by by apply all_entered. injection Hsource as <-.
    apply get_returns; [by rewrite L1|]. intros targets Ht. pose proof (queued_step _ _ _ _ _ _ Hq Hn Ht) as Hq'.
    destruct (release targets degrees queue) as [d q]. apply IH; [done|lia].
Qed.

Lemma queue_complete i degrees queue copies : queued i degrees queue copies → (length queue <= i)%nat →
  length queue = count → ordered copies ∧ ∀ x s, (x, s) ∈ copies ↔ (x < count)%nat ∧ E x = Some s.
Proof.
  intros [Q1 Q2 Q3 Q4 Q5 Q6] Hi Hlen. rewrite take_ge in Q5 by done. subst copies.
  assert (Hall : ∀ x, (x < count)%nat → x ∈ queue).
  { intros x Hx. assert (Hsub : seq 0 count ⊆ queue); [|apply Hsub, elem_of_seq; lia].
    assert (Hp : queue ≡ₚ seq 0 count).
    { apply submseteq_length_Permutation; [|by rewrite length_seq, Hlen].
      apply NoDup_submseteq; [done|]. intros y Hy%Q1. apply elem_of_seq. lia. }
    intros y Hy. by rewrite Hp. }
  split.
  - assert (Hsuf : ∀ pre suf, queue = pre ++ suf → ordered (omap copy_of suf)); [|by apply (Hsuf [])].
    clear Hall Hlen Hi Q1 Q3 Q4. intros pre suf. revert pre. induction suf as [|x suf IH]; intros pre Hq; [done|]. cbn.
    assert (IH' : ordered (omap copy_of suf)) by (apply (IH (pre ++ [x])); by rewrite <-app_assoc).
    unfold copy_of at 1. destruct (E x) as [s|] eqn:HEx; cbn; [|done].
    assert (Hs : s ∈ pre).
    { destruct (Q6 (length pre) x s) as (k' & Hk' & Hl); [by rewrite Hq, list_lookup_middle|done|].
      rewrite Hq, lookup_app_l in Hl by done. by eapply list_elem_of_lookup_2. }
    rewrite Hq in Q2. apply NoDup_app in Q2 as (_ & Hdis & [Hx _]%NoDup_cons). split_and!; [|..|done].
    + intros ->. apply (Hdis s Hs). set_solver.
    + intros t' s' (y & Hy & Hc)%list_elem_of_omap. unfold copy_of in Hc. apply fmap_Some in Hc as (s1 & _ & [= -> ->]).
      split; [congruence|]. intros ->. apply (Hdis s Hs). set_solver.
  - intros x s. rewrite list_elem_of_omap. unfold copy_of. split.
    + intros (y & Hy & (s1 & Hs1 & [= -> ->])%fmap_Some). split; [by apply Q1|done].
    + intros [Hx Hs]. exists x. split; [by apply Hall|]. by rewrite Hs.
Qed.
End queue.

Lemma edge_of_source incoming resolved_ i s : edge_of incoming resolved_ i = Some s →
  ∃ from f, incoming !! i = Some (Some from) ∧ fs !! i = Some f ∧ reference (field_shape f) = false ∧
    resolved_ !! from = Some (Some s) ∧ s ≠ i.
Proof.
  unfold edge_of. destruct (incoming !! i) as [[from|]|]; cbn; [|done..]. destruct (fs !! i) as [f|]; cbn; [|done].
  destruct (reference (field_shape f)) eqn:Hr; [done|].
  destruct (resolved_ !! from) as [[j|]|] eqn:Hj; cbn; [|done..].
  destruct (Nat.eqb_spec j i); [done|]. intros [= <-]. by exists from, f.
Qed.

Lemma topological_returns incoming resolved_ : edges_ok incoming → length resolved_ = count →
  (∀ i, (i < count)%nat → ∃ j, resolved_ !! i = Some (Some j) ∧ (j < count)%nat) →
  returns (topological fs incoming resolved_) (λ copies, ordered copies ∧
    ∀ x s, (x, s) ∈ copies ↔ (x < count)%nat ∧ edge_of incoming resolved_ x = Some s).
Proof.
  intros Hin Hrl Hres. unfold topological.
  pose proof (edges_returns incoming resolved_ (seq 0 count) [] (empty_order fs) Hin Hrl Hres) as He.
  unfold returns in He. fold count. destruct (edges _ _ _ _ _) as [o|m| |]; [| done| done|].
  2:{ apply He; [apply NoDup_seq| |].
      - intros i Hi%elem_of_seq. split; [lia|apply not_elem_of_nil].
      - split; cbn; [by rewrite !length_replicate|..]; intros; rewrite ?lookup_replicate_2 by done;
          rewrite ?decide_False by apply not_elem_of_nil; try done.
        apply lookup_replicate in H as [-> _]. split; [apply NoDup_nil_2|]. intros x. split; [by intros ?%elem_of_nil|].
        by intros [?%elem_of_nil _]. }
  set (E := edge_of incoming resolved_) in *.
  assert (Ho : entered E (reverse (seq 0 count) ++ []) o).
  { apply He; [apply NoDup_seq| |].
    - intros i Hi%elem_of_seq. split; [lia|apply not_elem_of_nil].
    - split; cbn; [by rewrite !length_replicate|..]; intros; rewrite ?lookup_replicate_2 by done;
        rewrite ?decide_False by apply not_elem_of_nil; try done.
      apply lookup_replicate in H as [-> _]. split; [apply NoDup_nil_2|]. intros x. split; [by intros ?%elem_of_nil|].
      by intros [?%elem_of_nil _]. }
  clear He. assert (HEs : ∀ x s, (x < count)%nat → E x = Some s → (s < count)%nat).
  { intros x s _ (from & f & Hfrom & _ & _ & Hs & _)%edge_of_source.
    assert (Hfc : (from < count)%nat) by (rewrite <-Hrl; by eapply lookup_lt_Some).
    destruct (Hres from Hfc) as (j & Hj & Hjc). by simplify_eq. }
  set (q := filter (λ i, indegree o !! i = Some 0) (seq 0 count)).
  assert (Hdeg : ∀ x, (x < count)%nat → indegree o !! x = Some (match E x with Some _ => 1 | None => 0 end)).
  { intros x Hx. rewrite (entered_degree _ _ _ Ho x Hx). by rewrite decide_True by by apply all_entered. }
  assert (Hq : ∀ x, x ∈ q ↔ (x < count)%nat ∧ E x = None).
  { intros x. unfold q. rewrite list_elem_of_filter, elem_of_seq. split.
    - intros [H1 H2]. assert (Hx : (x < count)%nat) by lia. rewrite (Hdeg x Hx) in H1. split; [done|]. by destruct (E x).
    - intros [Hx HEx]. rewrite (Hdeg x Hx), HEx. split; [done|lia]. }
  assert (Hq0 : queued E 0 (indegree o) q []).
  { split.
    - by intros x [? _]%Hq.
    - apply NoDup_filter, NoDup_seq.
    - intros x Hx. rewrite take_0, Hq. split; [by left; apply H|]. intros [?|(s & _ & ?%elem_of_nil)]; [done|done].
    - intros x Hx. rewrite Hdeg by done. repeat case_decide; [|destruct (E x) eqn:HEx; [done|exfalso; set_solver]].
      apply Hq in H as [_ ->]. done.
    - done.
    - intros k x s Hk Hs. apply list_elem_of_lookup_2, Hq in Hk as [_ Hk]. congruence. }
  pose proof (kahn_returns E o HEs Ho count 0 (indegree o) q [] Hq0 ltac:(lia)) as Hk. unfold returns in Hk.
  destruct (kahn _ _ _ _ _ _) as [[queue copies]|m| |]; [|done..]. destruct Hk as (i' & degrees' & Hi' & Hq').
  destruct (Nat.eqb_spec (length queue) count) as [Hlen|]; [|done]. by eapply queue_complete.
Qed.

(** ** All bindings *)

(** What construction leaves of aliases and value links. *)
Record bindings_ok (lookup_ : object_endpoint → option nat) (links : list link_record)
    (resolved_ : list (option nat)) (copies : list (nat * nat)) : Prop := {
  bindings_length : length resolved_ = count;
  bindings_resolved : ∃ refs, edges_ok refs ∧
    ∀ i, (i < count)%nat → ∃ j, resolved_ !! i = Some (Some j) ∧ resolves refs i j;
  bindings_ordered : ordered copies;
  bindings_copies t s : (t, s) ∈ copies → ∃ ft fsrc, fs !! t = Some ft ∧ fs !! s = Some fsrc ∧
    reference (field_shape ft) = false ∧ reference (field_shape fsrc) = false ∧ aggregate ft = false ∧
    aggregate fsrc = false ∧ read_only (field_shape ft) = false ∧ same_storage ft fsrc;
  bindings_links link : link ∈ links → live link = true → ∃ t s jt js ft,
    lookup_ (link_target link) = Some t ∧ lookup_ (link_source link) = Some s ∧
    resolved_ !! t = Some (Some jt) ∧ resolved_ !! s = Some (Some js) ∧ fs !! t = Some ft ∧
    (jt = js ∨ reference (field_shape ft) = false ∧ (jt, js) ∈ copies) }.
End spec.

Lemma edges_ok_empty fs : edges_ok fs (replicate (length fs) None).
Proof. split; [by rewrite length_replicate|]. by intros i k [? _]%lookup_replicate. Qed.

Lemma resolves_lt fs refs i j : resolves fs refs i j → (i < length fs)%nat ∧ (j < length fs)%nat.
Proof.
  induction 1 as [i f Hf _|i k j f Hf _ _ _ [_ IH]]; split; try done; by eapply lookup_lt_Some.
Qed.

Lemma bind_returns fs lookup_ links : 
  (∀ i f, fs !! i = Some f → (sibling_first f + sibling_count f <= length fs)%nat) →
  (∀ e i, lookup_ e = Some i → (i < length fs)%nat) →
  returns (bind fs lookup_ links) (λ '(resolved_, copies),
    ∃ ls, links = Some ls ∧ bindings_ok fs lookup_ ls resolved_ copies).
Proof.
  intros Hsib Hlook. unfold bind.
  assert (Hall : Forall (λ i, (i < length fs)%nat) (seq 0 (length fs))) by (apply Forall_forall; intros i Hi%elem_of_seq; lia).
  pose proof (bind_siblings_returns fs Hsib _ _ Hall (edges_ok_empty fs)) as H1. unfold returns in H1.
  destruct (bind_siblings _ _ _) as [refs0|m| |]; [|done..]. destruct links as [ls|]; [|done].
  pose proof (bind_links_returns fs lookup_ Hlook ls refs0 _ H1 (edges_ok_empty fs)) as H2. unfold returns in H2.
  destruct (bind_links _ _ _ _ _) as [[refs incoming]|m| |]; [|done..]. destruct H2 as (Hrefs & Hin & Hbound & _ & Hro).
  pose proof (resolve_all_returns fs refs Hrefs _ (Resolution (replicate (length fs) None) (replicate (length fs) 0)) Hall) as H3.
  unfold returns in H3. destruct (resolve_all _ _ _ _) as [res|m| |]; [|done..|].
  2:{ apply H3; [split_and!; cbn; [by rewrite length_replicate..|by intros i j [? _]%lookup_replicate]|].
      by intros x [? _]%lookup_replicate. }
  destruct H3 as (Hrl & Hres & _ & Hsome); [split_and!; cbn; [by rewrite length_replicate..|by intros i j [? _]%lookup_replicate]|
    by intros x [? _]%lookup_replicate|].
  assert (Hres' : ∀ i, (i < length fs)%nat → ∃ j, res !! i = Some (Some j) ∧ resolves fs refs i j).
  { intros i Hi. destruct (Hsome i) as [j Hj]; [apply elem_of_seq; lia|]. eauto. }
  assert (Hlt : ∀ i, (i < length fs)%nat → ∃ j, res !! i = Some (Some j) ∧ (j < length fs)%nat).
  { intros i Hi. destruct (Hres' i Hi) as (j & Hj & Hr). apply resolves_lt in Hr as [_ ?]. eauto. }
  pose proof (topological_returns fs incoming res Hin Hrl Hlt) as H4. unfold returns in H4.
  destruct (topological _ _ _) as [copies|m| |]; [|done..]. destruct H4 as [Hord Hcopies].
  exists ls. split; [done|]. split; [done|eauto|done| |].
  - intros t s [_ Hts]%Hcopies. apply edge_of_source in Hts as (from & f & Hfrom & Hf & Hr & Hs & _).
    destruct (proj2 Hin t from Hfrom) as (ft & ffrom & Hft & Hff & Hc). rewrite Hft in Hf. injection Hf as <-.
    destruct (compatible_trans_size _ _ Hc) as (A1 & A2 & A3 & A4 & A5).
    destruct (resolves_same fs refs from s ffrom Hrefs (Hres _ _ Hs) Hff) as (g & Hg & Hgr & (S1 & S2 & S3) & S4).
    exists ft, g. split_and!; try done; [auto| |split_and!; congruence].
    destruct (Hro t from Hfrom) as [[? _]%lookup_replicate|(f & Hf' & Hror)]; [done|].
    rewrite Hft in Hf'. injection Hf' as <-. auto.
  - intros link Hl Hlive. destruct (Hbound link Hl Hlive) as (t & s & Ht & Hs & Hinc & Hf).
    pose proof (Hlook _ _ Ht) as Htc. pose proof (Hlook _ _ Hs) as Hsc.
    destruct (Hres' t Htc) as (jt & Hjt & Hrt), (Hres' s Hsc) as (js & Hjs & Hrs).
    destruct (lookup_lt_is_Some_2 fs t Htc) as [ft Hft]. specialize (Hf ft Hft).
    exists t, s, jt, js, ft. split_and!; try done.
    destruct (reference (field_shape ft)) eqn:Href.
    + left. eapply resolves_unique; [exact Hrt|by eapply resolves_next].
    + assert (jt = t) as -> by (eapply resolves_unique; [exact Hrt|by eapply resolves_here]).
      destruct (decide (t = js)) as [|Hne]; [by left|]. right. split; [done|]. apply Hcopies. split; [done|]. unfold edge_of.
      rewrite Hinc. cbn. rewrite Hft. cbn. rewrite Href, Hjs. cbn. by rewrite (proj2 (Nat.eqb_neq _ _)) by done.
Qed.

End RuntimeLinks.
