(* ===== verification/ManagedRuntime.v ===== *)
(** * The managed runtime

    Models the rest of server_engine/project/runtime/managed_runtime.{hpp,cpp}: initializers,
    [construct], [propagate], and the typed reads and writes.  Storage is a list of bytes;
    [memcpy] is a splice of the list.  A [double] is its 64 bits and a [float] its 32; the
    conversions between numbers and floating values are parameters.  [memory] says whether
    the allocations of a [construct] call succeed. *)

From S2P Require Import Prelude Construction RuntimeLayout RuntimeLinks.

Local Open Scope N_scope.

Module ManagedRuntime.

Import RuntimeLayout RuntimeLinks.

(** ** Bytes *)

(** The first bytes of a 64-bit word in memory, and the word they make. *)
Definition le_bytes (n : nat) (bits : N) : list N := (λ j, w8 (N.shiftr bits (N.of_nat j * 8))) <$> seq 0 n.
Fixpoint le_value (bytes : list N) : N :=
  match bytes with [] => 0 | b :: bytes' => b + 256 * le_value bytes' end.

Definition read_bytes (storage : list N) (offset size : N) : list N :=
  take (N.to_nat size) (drop (N.to_nat offset) storage).
Definition write_bytes (storage : list N) (offset : N) (bytes : list N) : list N :=
  take (N.to_nat offset) storage ++ bytes ++ drop (N.to_nat offset + length bytes) storage.

Definition int64_max : N := two63 - 1.

(** ** Initializers *)

Definition set_initial (value : construction_value) (f : managed_field_layout) : managed_field_layout :=
  Field (endpoint f) (offset f) (field_shape f) value (aggregate f) (first_child f) (child_count f)
    (sibling_first f) (sibling_count f).

Definition integer_fits (s : shape) (bits : N) (negative : bool) : bool :=
  if pointer s then bits =? 0
  else if boolean s then negb negative && (bits <=? 1)
  else if negb (is_signed s) && negative then false
  else if size s =? 8 then negb (is_signed s) || negative || (bits <=? int64_max)
  else
    let width := size s * 8 in
    if negative then (- 2 ^ (Z.of_N width - 1) <=? int64_of_bits bits)%Z
    else bits <? N.shiftl 1 (width - (if is_signed s then 1 else 0)).

Definition finite64 (bits : N) : bool := negb (N.land (N.shiftr bits 52) 0x7ff =? 0x7ff).
Definition finite32 (bits : N) : bool := negb (N.land (N.shiftr bits 23) 0xff =? 0xff).

(** The elements of a list one after the other into the children of a field. *)
Definition each_child (apply : Construction.aggregate_initializer → nat → fields → result fields) (first : nat) :
    list Construction.aggregate_initializer → nat → fields → result fields :=
  fix each_child children local fs :=
    match children with
    | [] => Ok fs
    | child :: children =>
        match apply child (first + local)%nat fs with
        | Ok fs => each_child children (S local) fs
        | r => r
        end
    end.

Definition shape_error : Strings.String.string :=
  "Invalid aggregate initializer shape, too many elements or unsupported reference initializer".

Fixpoint apply_initializer (value : Construction.aggregate_initializer) (index : nat) (fs : fields) : result fields :=
  match value with
  | Construction.Aggregate v is_list children =>
      get fs index (λ f,
        if aggregate f then
          if negb is_list || (child_count f <? length children)%nat then Failed shape_error
          else
            match each_child apply_initializer (first_child f) children 0 fs with
            | Ok fs => Ok (alter (set_initial Construction.zero_value) index fs)
            | r => r
            end
        else if is_list then
          match children with
          | [] => Ok (alter (set_initial Construction.zero_value) index fs)
          | [child] => apply_initializer child index fs
          | _ => Failed shape_error
          end
        else if reference (field_shape f) then Failed shape_error
        else Ok (alter (set_initial v) index fs))
  end.

(** ** The runtime *)

Record managed_runtime : Type := Runtime {
  layouts : list managed_object_layout; slots : list (option nat); runtime_fields : fields;
  aliases_to : list (option nat); copies : list (nat * nat); storage : list N }.

Definition field_of (r : managed_runtime) (endpoint : object_endpoint) : option nat :=
  RuntimeLinks.field (slots r) (layouts r) endpoint.

(** [field] with a path: local member positions inside each nested record. *)
Definition descend (r : managed_runtime) (index : option nat) (member : N) : option nat :=
  index ← index;
  if negb (member_valid member) then None
  else
    parent ← runtime_fields r !! index;
    if negb (aggregate parent) || (child_count parent <=? N.to_nat member)%nat then None
    else Some (first_child parent + N.to_nat member)%nat.

Definition field_at (r : managed_runtime) (endpoint : object_endpoint) (path : list N) : option nat :=
  foldl (descend r) (field_of r endpoint) path.

(** One copy of [propagate]. *)
Definition propagate_link (fs : fields) (storage : list N) (link : nat * nat) : list N :=
  match fs !! link.1, fs !! link.2 with
  | Some target, Some source =>
      write_bytes storage (offset target) (read_bytes storage (offset source) (size (field_shape target)))
  | _, _ => storage
  end.

Definition propagate (fs : fields) (copies : list (nat * nat)) (storage : list N) : list N :=
  foldl (propagate_link fs) storage copies.

Definition set_storage (r : managed_runtime) (storage : list N) : managed_runtime :=
  Runtime (layouts r) (slots r) (runtime_fields r) (aliases_to r) (copies r) storage.

(** The bytes written, then the links. *)
Definition store (r : managed_runtime) (f : managed_field_layout) (bytes : list N) : managed_runtime :=
  set_storage r (propagate (runtime_fields r) (copies r) (write_bytes (storage r) (offset f) bytes)).

(** The field of an endpoint and the one its storage is in; [not_found] without one. *)
Definition resolve (r : managed_runtime) (endpoint : object_endpoint) (path : list N) :
    option (managed_field_layout * managed_field_layout) :=
  index ← field_at r endpoint path;
  target ← mjoin (aliases_to r !! index);
  own ← runtime_fields r !! index;
  f ← runtime_fields r !! target;
  Some (own, f).

Definition aliases (r : managed_runtime) (first second : object_endpoint) : bool :=
  match field_of r first, field_of r second with
  | Some first, Some second => bool_decide (aliases_to r !! first = aliases_to r !! second)
  | _, _ => false
  end.

(** The value of the bytes of an integer field; nothing for one above the signed range. *)
Definition integer_value (s : shape) (bytes : list N) : option Z :=
  let bits := le_value bytes in
  let bits :=
    if is_signed s && (size s <? 8) && negb (N.land bits (N.shiftl 1 (size s * 8 - 1)) =? 0)
    then N.lor bits (N.lxor (N.shiftl 1 (size s * 8) - 1) 0xffffffffffffffff) else bits in
  if negb (is_signed s) && (int64_max <? bits) then None else Some (int64_of_bits bits).

Definition read_integer (r : managed_runtime) (endpoint : object_endpoint) (path : list N) : status_code * option Z :=
  match resolve r endpoint path with
  | None => (not_found, None)
  | Some (_, f) =>
      if aggregate f || floating (field_shape f) || pointer (field_shape f) then (invalid_argument, None)
      else
        match integer_value (field_shape f) (read_bytes (storage r) (offset f) (size (field_shape f))) with
        | None => (invalid_argument, None)
        | Some value => (ok, Some value)
        end
  end.

Definition write_integer (r : managed_runtime) (endpoint : object_endpoint) (path : list N) (value : Z)
    : status_code * managed_runtime :=
  match resolve r endpoint path with
  | None => (not_found, r)
  | Some (own, f) =>
      let bits := bits_of_int64 value in
      if aggregate f || floating (field_shape f) || pointer (field_shape f) || read_only (field_shape own) ||
         read_only (field_shape f) || negb (integer_fits (field_shape f) bits (value <? 0)%Z)
      then (invalid_argument, r)
      else (ok, store r f (le_bytes (N.to_nat (size (field_shape f))) bits))
  end.

Section floating.
Context (double_of_int64 : Z → N) (double_of_uint64 : N → N) (float_of_double double_of_float : N → N).
Context (from_chars_double : list N → option N).

(** What is written for a field's initializer; nothing for one that is refused. *)
Definition initialize (f : managed_field_layout) : option (list N) :=
  let value := initial f in
  let kind := Construction.kind value in
  let s := field_shape f in
  if negb (Construction.valid_construction value) || bool_decide (kind = Construction.unsupported) ||
     bool_decide (kind = Construction.aggregate) then None
  else if aggregate f then if bool_decide (kind = Construction.zero) then Some [] else None
  else if reference s then
    if bool_decide (kind = Construction.zero) || bool_decide (kind = Construction.member_binding) then Some [] else None
  else if bool_decide (kind = Construction.member_binding) then None
  else
    let bits := Construction.bits value in
    if floating s then
      let number :=
        if bool_decide (kind = Construction.real) then bits
        else if bool_decide (kind = Construction.signed_integer) then double_of_int64 (int64_of_bits bits)
        else double_of_uint64 bits in
      if negb (finite64 number) then None
      else if size s =? 4 then
        let narrowed := float_of_double number in
        if negb (finite32 narrowed) then None else Some (le_bytes 4 narrowed)
      else Some (le_bytes 8 number)
    else if bool_decide (kind = Construction.real) ||
            negb (integer_fits s bits (bool_decide (kind = Construction.signed_integer) && (int64_of_bits bits <? 0)%Z))
    then None
    else Some (le_bytes (N.to_nat (size s)) bits).

Definition read_real (r : managed_runtime) (endpoint : object_endpoint) (path : list N) : status_code * option N :=
  match resolve r endpoint path with
  | None => (not_found, None)
  | Some (_, f) =>
      if negb (floating (field_shape f)) then (invalid_argument, None)
      else if size (field_shape f) =? 4 then (ok, Some (double_of_float (le_value (read_bytes (storage r) (offset f) 4))))
      else (ok, Some (le_value (read_bytes (storage r) (offset f) 8)))
  end.

Definition write_real (r : managed_runtime) (endpoint : object_endpoint) (path : list N) (value : N)
    : status_code * managed_runtime :=
  match resolve r endpoint path with
  | None => (not_found, r)
  | Some (own, f) =>
      if negb (floating (field_shape f)) || read_only (field_shape f) || read_only (field_shape own)
      then (invalid_argument, r)
      else
        match initialize (set_initial (Construction.constant Construction.real value) f) with
        | None => (invalid_argument, r)
        | Some bytes => (ok, store r f bytes)
        end
  end.

(** ** Construction *)

Section construct.
Context (graph : graph_reader) (abi : abi_configuration).

(** Lines 282-292: descendant defaults first, then the enclosing lists. *)
Fixpoint apply_defaults (indices : list nat) (fs : fields) : result fields :=
  match indices with
  | [] => Ok fs
  | i :: indices' =>
      get fs i (λ f,
        if bool_decide (Construction.kind (initial f) = Construction.aggregate) then
          match Construction.parse_aggregate_initializer from_chars_double
                  (string graph (Construction.operand (initial f))) with
          | None => Failed shape_error
          | Some value =>
              match apply_initializer value i fs with
              | Ok fs => apply_defaults indices' fs
              | r => r
              end
          end
        else if aggregate f && negb (bool_decide (Construction.kind (initial f) = Construction.zero))
        then Failed "Nested record initialization requires braces"
        else apply_defaults indices' fs)
  end.

(** Lines 347-349. *)
Fixpoint initialize_all (fs : fields) (storage : list N) : option (list N) :=
  match fs with
  | [] => Some storage
  | f :: fs' =>
      match initialize f with
      | None => None
      | Some bytes => initialize_all fs' (write_bytes storage (offset f) bytes)
      end
  end.

(** The candidate, or why there is none. *)
Definition candidate : result managed_runtime :=
  match layout graph abi with
  | Ok p =>
      match apply_defaults (reverse (seq 0 (length (plan_fields p)))) (plan_fields p) with
      | Ok fs =>
          match bind fs (RuntimeLinks.field (object_slots p) (object_layouts p)) (links graph) with
          | Ok (resolved_, copies_) =>
              match initialize_all fs (replicate (N.to_nat (total p)) 0) with
              | None => Failed "Unsupported initializer or constant out of range"
              | Some storage =>
                  Ok (Runtime (object_layouts p) (object_slots p) fs resolved_ copies_
                        (propagate fs copies_ storage))
              end
          | Failed e => Failed e | Corrupt => Corrupt | Stuck => Stuck
          end
      | Failed e => Failed e | Corrupt => Corrupt | Stuck => Stuck
      end
  | Failed e => Failed e | Corrupt => Corrupt | Stuck => Stuck
  end.

(** [construct]: the status, the message and the runtime afterwards; [None] is [Stuck]. *)
Definition construct (valid little_endian memory : bool) (old : managed_runtime)
    : option (status_code * Strings.String.string * managed_runtime) :=
  if negb memory then Some (not_available, EmptyString, old)
  else if negb valid then Some (not_available, "Project is not available"%string, old)
  else if negb little_endian then Some (not_available, "Managed Runtime requires a little-endian host"%string, old)
  else if negb (is_supported_abi_configuration abi) then Some (not_available, "Unsupported ABI configuration"%string, old)
  else
    match candidate with
    | Ok r => Some (ok, EmptyString, r)
    | Failed e => Some (not_available, e, old)
    | Corrupt => Some (artifact_corrupt, EmptyString, old)
    | Stuck => None
    end.
End construct.
End floating.

(** ** Bytes of words *)

Lemma length_le_bytes n bits : length (le_bytes n bits) = n.
Proof. unfold le_bytes. by rewrite length_fmap, length_seq. Qed.

Lemma le_bytes_S n bits : le_bytes (S n) bits = w8 bits :: le_bytes n (N.shiftr bits 8).
Proof.
  unfold le_bytes. change (seq 0 (S n)) with (0%nat :: seq 1 n). rewrite fmap_cons.
  change (N.of_nat 0 * 8) with 0. rewrite N.shiftr_0_r. f_equal.
  rewrite <-seq_shift, <-list_fmap_compose. apply list_fmap_ext. intros _ j _. cbn [compose].
  rewrite N.shiftr_shiftr. do 2 f_equal. lia.
Qed.

Lemma le_value_bytes n bits : le_value (le_bytes n bits) = bits mod 2 ^ (8 * N.of_nat n).
Proof.
  revert bits. induction n as [|n IH]; intros bits; [cbn; by rewrite N.mod_1_r|].
  rewrite le_bytes_S. cbn [le_value]. rewrite IH, w8_mod, N.shiftr_div_pow2. change (2 ^ 8) with 256.
  replace (2 ^ (8 * N.of_nat (S n))) with (256 * 2 ^ (8 * N.of_nat n))
    by (rewrite <-(N.pow_add_r 2 8); f_equal; lia).
  by rewrite N.Div0.mod_mul_r.
Qed.

Lemma sign_bit m k : m < 2 ^ (k + 1) → (N.land m (N.shiftl 1 k) =? 0) = (m <? 2 ^ k).
Proof.
  intros Hm. rewrite N.shiftl_1_l.
  assert (Hb : N.testbit m k = (2 ^ k <=? m)).
  { rewrite N.testbit_eqb. rewrite N.pow_add_r, N.pow_1_r in Hm. destruct (N.leb_spec (2 ^ k) m) as [Hge|Hlt].
    - assert (m / 2 ^ k = 1) as ->; [|done]. symmetry. apply (N.div_unique _ _ _ (m - 2 ^ k)); lia.
    - rewrite N.div_small by done. done. }
  destruct (N.eqb_spec (N.land m (2 ^ k)) 0) as [H0|H0]; destruct (N.ltb_spec m (2 ^ k)) as [Hlt|Hge]; try done; exfalso.
  - assert (Ht : N.testbit (N.land m (2 ^ k)) k = true).
    { rewrite N.land_spec, N.pow2_bits_true, andb_true_r, Hb. by apply N.leb_le. }
    rewrite H0, N.bits_0 in Ht. done.
  - apply H0, N.bits_inj. intros i. rewrite N.land_spec, N.bits_0. destruct (N.eq_dec i k) as [->|Hne].
    + rewrite Hb. rewrite (proj2 (N.leb_gt _ _)) by done. done.
    + by rewrite N.pow2_bits_false, andb_false_r by congruence.
Qed.

(** A value of the signed 64-bit range. *)
Definition int64 (value : Z) : Prop := (- Z.of_N two63 <= value < Z.of_N two63)%Z.

Lemma bits_of_int64_cases value : int64 value →
  (0 <= value ∧ bits_of_int64 value = Z.to_N value ∨
   value < 0 ∧ bits_of_int64 value = Z.to_N (Z.of_N two64 + value))%Z.
Proof.
  intros Hv. unfold int64, two63, bits_of_int64, two64 in *. destruct (Z_lt_ge_dec value 0).
  - right. split; [done|]. f_equal. rewrite <-(Z_mod_plus_full _ 1), Z.mod_small by lia. lia.
  - left. split; [lia|]. by rewrite Z.mod_small by lia.
Qed.

(** Extending the sign of a value of one, two or four bytes. *)
Lemma sign_extend w value : w = 8 ∨ w = 16 ∨ w = 32 → (- 2 ^ (Z.of_N w - 1) <= value < 0)%Z →
  let m := bits_of_int64 value mod 2 ^ w in
  (N.land m (N.shiftl 1 (w - 1)) =? 0) = false ∧
  N.lor m (N.lxor (N.shiftl 1 w - 1) 0xffffffffffffffff) = bits_of_int64 value.
Proof.
  intros Hw Hv. assert (Hi : int64 value) by (unfold int64, two63; destruct Hw as [->|[->| ->]]; lia).
  destruct (bits_of_int64_cases value Hi) as [[? _]|[_ E]]; [lia|]. cbn zeta. rewrite E.
  assert (Hpow : (2 ^ (w - 1) = 128 ∧ 2 ^ w = 256 ∧ 2 ^ (64 - w) = 2 ^ 56 ∨
      2 ^ (w - 1) = 32768 ∧ 2 ^ w = 65536 ∧ 2 ^ (64 - w) = 2 ^ 48 ∨
      2 ^ (w - 1) = 2147483648 ∧ 2 ^ w = 4294967296 ∧ 2 ^ (64 - w) = 4294967296) ∧
      (2 ^ Z.of_N w)%Z = Z.of_N (2 ^ w) ∧ (2 ^ (Z.of_N w - 1))%Z = Z.of_N (2 ^ (w - 1)))
    by (destruct Hw as [->|[->| ->]]; vm_compute; intuition).
  destruct Hpow as (Hpow & Hz & Hz'). rewrite Hz' in Hv. clear Hi E Hz.
  set (low := Z.to_N (Z.of_N (2 ^ w) + value)).
  assert (Hlow : 2 ^ (w - 1) <= low < 2 ^ w) by (unfold low; lia).
  assert (Ht : Z.to_N (Z.of_N two64 + value) = (2 ^ (64 - w) - 1) * 2 ^ w + low).
  { unfold low, two64. destruct Hpow as [(E1 & E2 & E3)|[(E1 & E2 & E3)|(E1 & E2 & E3)]];
      rewrite E1 in Hv; rewrite E2, E3; lia. }
  rewrite Ht. assert (Hm : ((2 ^ (64 - w) - 1) * 2 ^ w + low) mod 2 ^ w = low)
    by (rewrite N.add_comm, N.Div0.mod_add; apply N.mod_small; lia).
  rewrite Hm. split.
  - rewrite sign_bit; [by apply N.ltb_ge, Hlow|]. replace (w - 1 + 1) with w by lia. apply Hlow.
  - rewrite N.lor_comm.
    replace (N.lxor (N.shiftl 1 w - 1) 0xffffffffffffffff) with ((2 ^ (64 - w) - 1) * 2 ^ w)
      by (destruct Hw as [->|[->| ->]]; reflexivity).
    apply lor_add_low, Hlow.
Qed.

(** What [integer_fits] lets through reads back as the value that was written. *)
Lemma integer_value_written s value : scalar_shape s → pointer s = false → floating s = false → int64 value →
  integer_fits s (bits_of_int64 value) (value <? 0)%Z = true →
  integer_value s (le_bytes (N.to_nat (size s)) (bits_of_int64 value)) = Some value.
Proof.
  intros (Hsize & _ & _ & _ & Hbool) Hp Hf Hv Hfits. unfold integer_value.
  rewrite le_value_bytes, N2Nat.id. set (b := bits_of_int64 value) in *.
  assert (Hback : int64_of_bits b = value) by by apply int64_of_bits_of_int64.
  pose proof (bits_of_int64_lt value) as Hb64. fold b in Hb64.
  pose proof (bits_of_int64_cases value Hv) as Hcases. fold b in Hcases.
  unfold integer_fits in Hfits. rewrite Hp in Hfits.
  assert (Hunsigned : is_signed s = false → b < 2 ^ (8 * size s) → (0 <= value)%Z →
    (if negb (is_signed s) && (int64_max <? b mod 2 ^ (8 * size s)) then None
     else Some (int64_of_bits (b mod 2 ^ (8 * size s)))) = Some value).
  { intros Hsg Hlt Hpos. rewrite N.mod_small by done. rewrite Hsg. cbn [negb andb].
    destruct (N.ltb_spec int64_max b) as [Hbig|]; [|by rewrite Hback].
    unfold int64, int64_max, two63 in *. lia. }
  destruct (boolean s) eqn:Hbo.
  { destruct (Hbool eq_refl) as [Hs1 Hsg]. bools. rewrite Hsg in *. cbn [andb]. rewrite Hs1 in *.
    apply Hunsigned; [done|change (2 ^ (8 * 1)) with 256; lia|lia]. }
  destruct (is_signed s) eqn:Hsg; cbn [negb andb] in *.
  - destruct (N.eqb_spec (size s) 8) as [H8|H8].
    + rewrite H8. cbn [N.ltb N.compare Pos.compare Pos.compare_cont andb]. rewrite N.mod_small by exact Hb64. by rewrite Hback.
    + assert (Hw : 8 * size s = 8 ∨ 8 * size s = 16 ∨ 8 * size s = 32) by (destruct Hsize as [E|[E|[E|E]]]; rewrite E in *; lia).
      rewrite (proj2 (N.ltb_lt (size s) 8)) by (destruct Hsize as [E|[E|[E|E]]]; rewrite E in *; lia). cbn [andb].
      rewrite (N.mul_comm (size s) 8) in *. set (w := 8 * size s) in *. clearbody w.
      destruct (Z.ltb_spec value 0) as [Hneg|Hpos].
      * apply Z.leb_le in Hfits. unfold b in Hfits. rewrite int64_of_bits_of_int64 in Hfits by done.
        destruct (sign_extend w value Hw ltac:(lia)) as [E1 E2]. fold b in E1, E2. rewrite E1. cbn [negb]. rewrite E2. by rewrite Hback.
      * apply N.ltb_lt in Hfits. rewrite N.shiftl_1_l in Hfits.
        assert (Hsmall : b mod 2 ^ w = b).
        { apply N.mod_small. eapply N.lt_trans; [exact Hfits|]. apply N.pow_lt_mono_r; destruct Hw as [->|[->| ->]]; lia. }
        rewrite Hsmall, sign_bit.
        -- rewrite (proj2 (N.ltb_lt _ _) Hfits). cbn [negb]. by rewrite Hback.
        -- replace (w - 1 + 1) with w by (destruct Hw as [->|[->| ->]]; lia).
           eapply N.lt_trans; [exact Hfits|]. apply N.pow_lt_mono_r; destruct Hw as [->|[->| ->]]; lia.
  - destruct (Z.ltb_spec value 0) as [|Hpos]; [done|]. cbn [andb] in Hfits. apply Hunsigned; [done| |done].
    destruct (N.eqb_spec (size s) 8) as [->|H8]; [exact Hb64|].
    apply N.ltb_lt in Hfits. rewrite N.shiftl_1_l, N.sub_0_r, N.mul_comm in Hfits. exact Hfits.
Qed.

(** ** Bytes in storage *)

(** A range of the storage. *)
Definition in_storage (storage : list N) (offset size : N) : Prop := offset + size <= N.of_nat (length storage).

Lemma length_read_bytes st o n : in_storage st o n → length (read_bytes st o n) = N.to_nat n.
Proof. unfold in_storage, read_bytes. intros H. rewrite length_take, length_drop. lia. Qed.

Lemma length_write_bytes st o bytes : in_storage st o (N.of_nat (length bytes)) →
  length (write_bytes st o bytes) = length st.
Proof.
  unfold in_storage, write_bytes. intros H. rewrite !length_app, length_take, length_drop. lia.
Qed.

Lemma lookup_write_bytes st o bytes k : in_storage st o (N.of_nat (length bytes)) →
  write_bytes st o bytes !! k =
    if decide (N.to_nat o <= k < N.to_nat o + length bytes)%nat then bytes !! (k - N.to_nat o)%nat else st !! k.
Proof.
  unfold in_storage, write_bytes. intros H.
  assert (Hl : length (take (N.to_nat o) st) = N.to_nat o) by (rewrite length_take; lia). case_decide as Hk.
  - rewrite lookup_app_r by lia. rewrite Hl, lookup_app_l by lia. done.
  - destruct (decide (k < N.to_nat o)%nat).
    + rewrite lookup_app_l by lia. apply lookup_take_lt. lia.
    + rewrite lookup_app_r by lia. rewrite Hl, lookup_app_r, lookup_drop by lia. f_equal. lia.
Qed.

Lemma lookup_read_bytes st o n k : (k < N.to_nat n)%nat → read_bytes st o n !! k = st !! (N.to_nat o + k)%nat.
Proof. intros Hk. unfold read_bytes. by rewrite lookup_take_lt, lookup_drop by done. Qed.

Lemma read_write_same st o bytes n : n = N.of_nat (length bytes) → in_storage st o n →
  read_bytes (write_bytes st o bytes) o n = bytes.
Proof.
  intros -> H. assert (Hl : length (write_bytes st o bytes) = length st) by by apply length_write_bytes.
  apply list_eq_same_length with (n := length bytes);
    [done|rewrite length_read_bytes; [lia|unfold in_storage in *; lia]|].
  intros k x y Hk. rewrite lookup_read_bytes, lookup_write_bytes, decide_True by (done || lia).
  replace (N.to_nat o + k - N.to_nat o)%nat with k by lia. congruence.
Qed.

Lemma read_write_apart st o bytes o' n' : in_storage st o (N.of_nat (length bytes)) → in_storage st o' n' →
  o + N.of_nat (length bytes) <= o' ∨ o' + n' <= o →
  read_bytes (write_bytes st o bytes) o' n' = read_bytes st o' n'.
Proof.
  intros H H' Hap. assert (Hl : length (write_bytes st o bytes) = length st) by by apply length_write_bytes.
  apply list_eq_same_length with (n := N.to_nat n');
    [by apply length_read_bytes|apply length_read_bytes; unfold in_storage in *; lia|].
  intros k x y Hk. rewrite !lookup_read_bytes, lookup_write_bytes, decide_False by (done || lia). congruence.
Qed.

Lemma write_nothing st o : write_bytes st o [] = st.
Proof. unfold write_bytes. cbn [length app]. by rewrite Nat.add_0_r, take_drop. Qed.

(** ** Fields in storage *)

(** A field with bytes of its own. *)
Definition plain (f : managed_field_layout) : Prop := aggregate f = false ∧ reference (field_shape f) = false.
Definition content (st : list N) (f : managed_field_layout) : list N :=
  read_bytes st (offset f) (size (field_shape f)).

Section storage.
Context (abi : abi_configuration) (fs : fields).

(** The fields packed into a storage. *)
Definition stored (st : list N) : Prop := packed abi 0 (N.of_nat (length st)) 8 fs.

Lemma plain_width f : plain f → width f = size (field_shape f).
Proof. unfold width. by intros [-> ->]. Qed.

Lemma stored_in st i f : stored st → fs !! i = Some f → plain f → in_storage st (offset f) (size (field_shape f)).
Proof.
  intros Hst Hf Hp. unfold in_storage. rewrite <-plain_width by done.
  eapply packed_in; [exact Hst|by eapply list_elem_of_lookup_2].
Qed.

(** Writing all of a field. *)
Lemma content_write st i f bytes : stored st → fs !! i = Some f → plain f →
  N.of_nat (length bytes) = size (field_shape f) →
  let st' := write_bytes st (offset f) bytes in
  stored st' ∧ content st' f = bytes ∧
  ∀ j g, j ≠ i → fs !! j = Some g → plain g → content st' g = content st g.
Proof.
  intros Hst Hf Hp Hl st'. pose proof (stored_in st i f Hst Hf Hp) as Hin. split_and!.
  - unfold stored, st'. rewrite length_write_bytes; [done|by rewrite Hl].
  - by apply read_write_same.
  - intros j g Hj Hg Hpg. apply read_write_apart; [by rewrite Hl|by eapply stored_in|].
    rewrite Hl, <-!plain_width by done.
    destruct (packed_apart _ _ _ _ _ Hst j i g f Hj Hg Hf) as [H|H]; [by right|by left].
Qed.

(** Copies between fields with bytes of their own, of one size. *)
Definition copies_ok (copies : list (nat * nat)) : Prop :=
  ∀ t s, (t, s) ∈ copies → ∃ ft fsrc, fs !! t = Some ft ∧ fs !! s = Some fsrc ∧ plain ft ∧ plain fsrc ∧
    size (field_shape ft) = size (field_shape fsrc).

(** What the links promise: a target holds the bytes of its source. *)
Definition copied (copies : list (nat * nat)) (st : list N) : Prop :=
  ∀ t s ft fsrc, (t, s) ∈ copies → fs !! t = Some ft → fs !! s = Some fsrc → content st ft = content st fsrc.

Lemma propagate_spec copies st : stored st → copies_ok copies → ordered copies →
  let st' := propagate fs copies st in
  stored st' ∧ copied copies st' ∧
  ∀ i f, fs !! i = Some f → plain f → i ∉ copies.*1 → content st' f = content st f.
Proof.
  revert st. induction copies as [|[t s] copies IH]; intros st Hst Hok Ho;
    [split_and!; [done|by intros ???? []%elem_of_nil|done]|].
  destruct Ho as (Hts & Hrest & Ho). destruct (Hok t s ltac:(by left)) as (ft & fsrc & Ht & Hs & Hpt & Hps & Hsz).
  set (bytes := read_bytes st (offset fsrc) (size (field_shape ft))).
  assert (E : propagate fs ((t, s) :: copies) st = propagate fs copies (write_bytes st (offset ft) bytes))
    by (cbn; unfold propagate_link; cbn; by rewrite Ht, Hs).
  cbn zeta. rewrite E. clear E.
  assert (Hl : N.of_nat (length bytes) = size (field_shape ft)).
  { unfold bytes. rewrite length_read_bytes; [lia|]. rewrite Hsz. by eapply stored_in. }
  destruct (content_write st t ft bytes Hst Ht Hpt Hl) as (Hst1 & Hc & Hkeep).
  assert (Hok' : copies_ok copies) by (intros ???; apply Hok; by right).
  destruct (IH _ Hst1 Hok' Ho) as (Hst2 & Hcop & Huntouched).
  assert (Hnot : t ∉ copies.*1 ∧ s ∉ copies.*1).
  { split; intros ([t' s'] & E & Hin)%list_elem_of_fmap; cbn in E; subst; by destruct (Hrest _ _ Hin). }
  split_and!; [done| |].
  - intros t' s' ft' fs' [E|Hin]%elem_of_cons Ht' Hs'; [|by eapply Hcop].
    injection E as -> ->. rewrite Ht in Ht'. rewrite Hs in Hs'. injection Ht' as <-. injection Hs' as <-.
    rewrite (Huntouched t ft), (Huntouched s fsrc) by (done || apply Hnot).
    rewrite (Hkeep s fsrc) by (done || congruence). rewrite Hc. unfold bytes, content. by rewrite Hsz.
  - intros i f Hi Hp [Hne Hnin]%not_elem_of_cons. rewrite (Huntouched i f) by done. by eapply Hkeep.
Qed.
End storage.

(** ** Initializers leave the layout alone *)

Notation shape_of := (set_initial Construction.zero_value).

(** The same fields up to their initial values. *)
Definition same_layout (fs fs' : fields) : Prop := shape_of <$> fs = shape_of <$> fs'.

#[export] Instance same_layout_equivalence : Equivalence same_layout.
Proof. unfold same_layout. split; repeat intro; congruence. Qed.

Definition fields_ok (fs : fields) : Prop := ∀ i f, fs !! i = Some f → field_ok (length fs) i f.

Lemma same_layout_length fs fs' : same_layout fs fs' → length fs = length fs'.
Proof. intros H. by rewrite <-(length_fmap shape_of fs), H, length_fmap. Qed.

Lemma same_layout_lookup fs fs' i f : same_layout fs fs' → fs !! i = Some f →
  ∃ f', fs' !! i = Some f' ∧ shape_of f = shape_of f'.
Proof.
  intros H Hf. assert (E : (shape_of <$> fs') !! i = Some (shape_of f)) by (rewrite <-H, list_lookup_fmap; by rewrite Hf).
  rewrite list_lookup_fmap in E. destruct (fs' !! i) as [f'|] eqn:Hf'; [|done]. exists f'. split; [done|].
  cbn in E. congruence.
Qed.

Lemma same_layout_alter value i fs : same_layout fs (alter (set_initial value) i fs).
Proof.
  apply list_eq. intros j. rewrite !list_lookup_fmap. rewrite list_lookup_alter. case_decide; [|done].
  subst. by destruct (fs !! j).
Qed.

Lemma same_layout_fields_ok fs fs' : same_layout fs fs' → fields_ok fs → fields_ok fs'.
Proof.
  intros H Hok i f' Hf'. destruct (same_layout_lookup fs' fs i f') as (f & Hf & E); [done..|].
  rewrite <-(same_layout_length _ _ H). specialize (Hok i f Hf). unfold set_initial in E. injection E as E1 E2 E3 E4 E5 E6 E7 E8.
  unfold field_ok in *. by rewrite E3, E4, E5, E6, E7, E8.
Qed.

Lemma same_layout_packed abi l h a fs fs' : same_layout fs fs' → packed abi l h a fs → packed abi l h a fs'.
Proof.
  intros H Hp.
  assert (Hback : ∀ i f', fs' !! i = Some f' → ∃ f, fs !! i = Some f ∧ shape_of f' = shape_of f)
    by (intros; by eapply same_layout_lookup).
  split.
  - intros f' [i Hi]%list_elem_of_lookup_1. destruct (Hback _ _ Hi) as (f & Hf & E).
    pose proof (packed_in _ _ _ _ _ Hp f ltac:(by eapply list_elem_of_lookup_2)).
    change (offset f') with (offset (shape_of f')). change (width f') with (width (shape_of f')). by rewrite E.
  - intros i j f' g' Hij Hi Hj. destruct (Hback _ _ Hi) as (f & Hf & E), (Hback _ _ Hj) as (g & Hg & E').
    change (apart (shape_of f') (shape_of g')). rewrite E, E'. exact (packed_apart _ _ _ _ _ Hp i j f g Hij Hf Hg).
  - intros f' [i Hi]%list_elem_of_lookup_1. destruct (Hback _ _ Hi) as (f & Hf & E).
    pose proof (packed_aligned _ _ _ _ _ Hp f ltac:(by eapply list_elem_of_lookup_2)).
    change (offset f') with (offset (shape_of f')).
    change (field_alignment abi f') with (field_alignment abi (shape_of f')). by rewrite E.
Qed.

Lemma each_child_returns apply first children : 
  Forall (λ c, ∀ index fs, fields_ok fs → (index < length fs)%nat → returns (apply c index fs) (same_layout fs)) children →
  ∀ local fs, fields_ok fs → (first + local + length children <= length fs)%nat →
  returns (each_child apply first children local fs) (same_layout fs).
Proof.
  induction 1 as [|c children Hc _ IH]; intros local fs Hok Hl; cbn; [done|]. cbn [length] in Hl.
  specialize (Hc (first + local)%nat fs Hok ltac:(lia)). destruct (apply c _ fs) as [fs1| | |]; try done. cbn in Hc.
  eapply returns_weaken; [apply (IH (S local) fs1)|].
  - by eapply same_layout_fields_ok.
  - rewrite <-(same_layout_length _ _ Hc). lia.
  - intros fs2 H2. by transitivity fs1.
Qed.

Lemma apply_initializer_returns value : ∀ index fs, fields_ok fs → (index < length fs)%nat →
  returns (apply_initializer value index fs) (same_layout fs).
Proof.
  induction value as [v is_list children IH] using Construction.aggregate_ind'.
  intros index fs Hok Hi. cbn [apply_initializer]. apply get_returns; [done|]. intros f Hf.
  destruct (aggregate f) eqn:Hagg.
  - destruct (negb is_list || _) eqn:Hc; [done|]. bools.
    destruct (proj1 (Hok index f Hf) Hagg) as [_ Hn].
    pose proof (each_child_returns apply_initializer (first_child f) children IH 0 fs Hok ltac:(lia)) as Hall.
    destruct (each_child _ _ _ _ _) as [fs1| | |]; try done. cbn in *. etransitivity; [exact Hall|apply same_layout_alter].
  - destruct is_list.
    + destruct children as [|c [|]]; [apply same_layout_alter| |done]. apply Forall_inv in IH. by apply IH.
    + destruct (reference _); [done|apply same_layout_alter].
Qed.


Section runtime.
Context (double_of_int64 : Z → N) (double_of_uint64 : N → N) (float_of_double double_of_float : N → N).
Context (from_chars_double : list N → option N).

Notation initialize := (initialize double_of_int64 double_of_uint64 float_of_double).
Notation initialize_all := (initialize_all double_of_int64 double_of_uint64 float_of_double).

Lemma apply_defaults_returns graph indices fs : fields_ok fs → Forall (λ i, (i < length fs)%nat) indices →
  returns (apply_defaults from_chars_double graph indices fs) (same_layout fs).
Proof.
  intros Hok Hall. revert fs Hok Hall. induction indices as [|i indices IH]; intros fs Hok Hall; [done|].
  apply Forall_cons in Hall as [Hi Hall]. cbn [apply_defaults]. apply get_returns; [done|]. intros f Hf.
  case_bool_decide.
  - destruct (Construction.parse_aggregate_initializer _ _) as [value|]; [|done].
    pose proof (apply_initializer_returns value i fs Hok Hi) as Hv.
    destruct (apply_initializer _ _ _) as [fs1| | |]; try done. cbn in Hv.
    eapply returns_weaken; [apply (IH fs1)|].
    + by eapply same_layout_fields_ok.
    + by rewrite <-(same_layout_length _ _ Hv).
    + intros fs2 H2. by transitivity fs1.
  - destruct (_ && _); [done|]. by apply IH.
Qed.

(** A field's initializer fills the field, or nothing of an aggregate or a reference. *)
Lemma initialize_length f bytes : (aggregate f = false → scalar_shape (field_shape f)) → initialize f = Some bytes →
  if decide (plain f) then N.of_nat (length bytes) = size (field_shape f) else bytes = [].
Proof.
  clear from_chars_double double_of_float. intros Hs. unfold initialize, plain. cbn zeta. destruct (_ || _ || _); [done|].
  destruct (aggregate f) eqn:Ha; [rewrite decide_False by naive_solver; case_bool_decide; congruence|].
  destruct (Hs eq_refl) as (Hp & _ & Hf & _).
  destruct (reference (field_shape f)) eqn:Hr; [rewrite decide_False by naive_solver; destruct (_ || _); congruence|].
  rewrite decide_True by done. case_bool_decide; [done|]. destruct (floating (field_shape f)) eqn:Hfl.
  - destruct (Hf eq_refl) as [H4 _]. destruct (negb (finite64 _)); [done|]. destruct (N.eqb_spec (size (field_shape f)) 4) as [E|E].
    + destruct (negb (finite32 _)); [done|]. intros [= <-]. rewrite length_le_bytes. lia.
    + intros [= <-]. rewrite length_le_bytes. destruct Hp as [E'|[E'|[E'|E']]]; lia.
  - destruct (_ || _); [done|]. intros [= <-]. rewrite length_le_bytes. lia.
Qed.

(** Every field with bytes of its own gets those of its initializer. *)
Lemma initialize_all_spec abi pre fs st st' : stored abi (pre ++ fs) st → fields_ok (pre ++ fs) →
  initialize_all fs st = Some st' → stored abi (pre ++ fs) st' ∧
  ∀ i f, (pre ++ fs) !! i = Some f → plain f →
    if decide (i < length pre)%nat then content st' f = content st f else initialize f = Some (content st' f).
Proof.
  revert pre st. induction fs as [|f fs IH]; intros pre st Hst Hok.
  - intros [= <-]. split; [done|]. intros i f Hi _. apply lookup_lt_Some in Hi. rewrite app_nil_r in Hi.
    by rewrite decide_True.
  - cbn [ManagedRuntime.initialize_all]. destruct (initialize f) as [bytes|] eqn:Hb; [|done]. intros H.
    assert (Hf : (pre ++ f :: fs) !! length pre = Some f) by by rewrite list_lookup_middle.
    pose proof (initialize_length f bytes (proj2 (proj2 (Hok _ _ Hf))) Hb) as Hl.
    assert (Hw : stored abi (pre ++ f :: fs) (write_bytes st (offset f) bytes) ∧
      (plain f → content (write_bytes st (offset f) bytes) f = bytes) ∧
      ∀ j g, j ≠ length pre → (pre ++ f :: fs) !! j = Some g → plain g →
        content (write_bytes st (offset f) bytes) g = content st g).
    { case_decide as Hp.
      - destruct (content_write abi _ st _ f bytes Hst Hf Hp Hl) as (H1 & H2 & H3). by split_and!.
      - subst. rewrite write_nothing. by split_and!. }
    destruct Hw as (Hst1 & Hown & Hkeep).
    rewrite cons_middle, app_assoc in Hst1, Hok. destruct (IH (pre ++ [f]) _ Hst1 Hok H) as [Hst2 Hc].
    rewrite <-app_assoc in Hst2, Hc. cbn [app] in Hst2, Hc. split; [done|]. intros i g Hi Hp. specialize (Hc i g Hi Hp).
    rewrite length_app in Hc. cbn [length] in Hc. destruct (decide (i = length pre)) as [->|Hne].
    + rewrite Hf in Hi. injection Hi as <-. rewrite decide_False by lia. rewrite decide_True in Hc by lia.
      rewrite Hc, Hown by done. done.
    + destruct (decide (i < length pre)%nat).
      * rewrite decide_True in Hc by lia. rewrite Hc. by eapply Hkeep.
      * by rewrite decide_False in Hc by lia.
Qed.

(** ** The invariant of a runtime *)

(** [links]: the links of the graph it was constructed from. *)
Record runtime_ok (links : list link_record) (r : managed_runtime) : Prop := {
  ok_stored : ∃ abi, stored abi (runtime_fields r) (storage r);
  ok_fields : fields_ok (runtime_fields r);
  ok_bindings : bindings_ok (runtime_fields r) (field_of r) links (aliases_to r) (copies r);
  ok_copied : copied (runtime_fields r) (copies r) (storage r);
  ok_objects o : o ∈ layouts r → (first_field o + field_count o <= length (runtime_fields r))%nat;
  ok_slots i k : slots r !! i = Some (Some k) → (k < length (layouts r))%nat }.

Lemma bindings_copies_ok fs look links res copies : bindings_ok fs look links res copies → copies_ok fs copies.
Proof.
  intros Hb t s H. destruct (bindings_copies _ _ _ _ _ Hb t s H) as (ft & fsrc & ? & ? & ? & ? & ? & ? & _ & (? & _)).
  exists ft, fsrc. by split_and!.
Qed.

Lemma field_lt graph_slots objects n e i :
  (∀ o, o ∈ objects → (first_field o + field_count o <= n)%nat) →
  RuntimeLinks.field graph_slots objects e = Some i → (i < n)%nat.
Proof.
  intros Ho. unfold RuntimeLinks.field. destruct (_ || _); [done|]. intros H.
  apply bind_Some in H as (slot & _ & H). apply bind_Some in H as (o & Hlook & H).
  apply list_elem_of_lookup_2, Ho in Hlook. destruct (_ <? _)%nat eqn:Hlt; [|done]. bools. simplify_eq. lia.
Qed.

Lemma candidate_returns graph abi : derived_below graph → is_supported_abi_configuration abi = true →
  returns (candidate double_of_int64 double_of_uint64 float_of_double from_chars_double graph abi) (λ r,
    ∃ ls, links graph = Some ls ∧ runtime_ok ls r ∧
    ∀ i f, runtime_fields r !! i = Some f → plain f → i ∉ (copies r).*1 → initialize f = Some (content (storage r) f)).
Proof.
  intros Hbelow Habi. unfold candidate. pose proof (layout_returns graph abi Hbelow) as Hu.
  destruct (layout graph abi) as [p| | |] eqn:Hp; try done. apply layout_ok in Hp as [Hpack Htotal Hfok Hobj Hslots]; [|done].
  pose proof (apply_defaults_returns graph (reverse (seq 0 (length (plan_fields p)))) (plan_fields p) Hfok) as Hd.
  destruct (apply_defaults _ _ _ _) as [fs| | |]; try done.
  2:{ apply Hd, Forall_forall. intros i Hi%elem_of_reverse%elem_of_seq. lia. }
  assert (Hsame : same_layout (plan_fields p) fs).
  { apply Hd, Forall_forall. intros i Hi%elem_of_reverse%elem_of_seq. lia. } clear Hd.
  pose proof (same_layout_fields_ok _ _ Hsame Hfok) as Hok. rewrite (same_layout_length _ _ Hsame) in Hobj.
  pose proof (bind_returns fs (RuntimeLinks.field (object_slots p) (object_layouts p)) (links graph)) as Hb.
  assert (Hb' : returns (bind fs (RuntimeLinks.field (object_slots p) (object_layouts p)) (links graph))
    (λ '(res, copies), ∃ ls, links graph = Some ls ∧
      bindings_ok fs (RuntimeLinks.field (object_slots p) (object_layouts p)) ls res copies)).
  { apply Hb; [intros i f Hf; apply (Hok i f Hf)|]. intros e i. by apply field_lt. } clear Hb.
  destruct (bind _ _ _) as [[res cs]| | |]; try done. destruct Hb' as (ls & Hls & Hb).
  destruct (initialize_all fs _) as [st|] eqn:Hst; [|done].
  assert (Hst0 : stored abi fs (replicate (N.to_nat (total p)) 0)).
  { unfold stored. rewrite length_replicate, N2Nat.id. by eapply same_layout_packed. }
  destruct (initialize_all_spec abi [] fs _ st Hst0 Hok Hst) as [Hst1 Hinit].
  destruct (propagate_spec abi fs cs st Hst1 (bindings_copies_ok _ _ _ _ _ Hb) (bindings_ordered _ _ _ _ _ Hb))
    as (Hst2 & Hcop & Hkeep).
  exists ls. split; [done|]. split; [split; cbn; eauto|]. cbn. intros i f Hi Hpl Hnin.
  rewrite (Hkeep i f Hi Hpl Hnin). by apply (Hinit i f).
Qed.
End runtime.


(** ** Writes *)

(** The field whose storage an endpoint names. *)
Definition target_of (r : managed_runtime) (endpoint : object_endpoint) (path : list N) : option nat :=
  index ← field_at r endpoint path; mjoin (aliases_to r !! index).

Lemma resolve_target links r e path own f : runtime_ok links r → resolve r e path = Some (own, f) →
  ∃ i j, field_at r e path = Some i ∧ target_of r e path = Some j ∧ runtime_fields r !! i = Some own ∧
    runtime_fields r !! j = Some f ∧ reference (field_shape f) = false.
Proof.
  intros Hr H. unfold resolve in H. apply bind_Some in H as (i & Hi & H). apply bind_Some in H as (j & Hj & H).
  apply bind_Some in H as (own' & Hown & H). apply bind_Some in H as (f' & Hf & H). injection H as -> ->.
  exists i, j. unfold target_of. rewrite Hi. cbn. split_and!; try done.
  destruct (bindings_resolved _ _ _ _ _ (ok_bindings _ _ Hr)) as (refs & Hrefs & Hres).
  destruct (Hres i ltac:(by eapply lookup_lt_Some)) as (j' & Hj' & Hr').
  rewrite Hj' in Hj. cbn in Hj. injection Hj as ->.
  destruct (resolves_same _ _ _ _ _ Hrefs Hr' Hown) as (g & Hg & Hgr & _). congruence.
Qed.

(** The bytes after a write: the field's own, and all that no link writes, as told. *)
Lemma store_spec links r j f bytes : runtime_ok links r → runtime_fields r !! j = Some f → plain f →
  N.of_nat (length bytes) = size (field_shape f) →
  let r' := store r f bytes in
  runtime_ok links r' ∧
  (j ∉ (copies r).*1 → content (storage r') f = bytes) ∧
  ∀ k g, k ≠ j → k ∉ (copies r).*1 → runtime_fields r !! k = Some g → plain g →
    content (storage r') g = content (storage r) g.
Proof.
  intros [[abi Hst] Hf Hb Hc Ho Hs] Hj Hp Hl r'.
  destruct (content_write abi _ _ j f bytes Hst Hj Hp Hl) as (Hst1 & Hown & Hkeep).
  destruct (propagate_spec abi _ (copies r) _ Hst1 (bindings_copies_ok _ _ _ _ _ Hb) (bindings_ordered _ _ _ _ _ Hb))
    as (Hst2 & Hcop & Huntouched).
  split; [split; cbn; eauto|]. split.
  - intros Hnin. cbn. by rewrite (Huntouched j f).
  - intros k g Hk Hnin Hg Hpg. cbn. rewrite (Huntouched k g) by done. by eapply Hkeep.
Qed.

(** Links make their targets a function of the other fields. *)
Lemma copied_determined fs cs st st' : copies_ok fs cs → ordered cs → copied fs cs st → copied fs cs st' →
  (∀ k g, k ∉ cs.*1 → fs !! k = Some g → plain g → content st' g = content st g) →
  ∀ k g, fs !! k = Some g → plain g → content st' g = content st g.
Proof.
  induction cs as [|[t s] cs IH]; intros Hok Ho Hc Hc' Hagree; [intros k g; apply Hagree; set_solver|].
  destruct Ho as (Hts & Hrest & Ho). destruct (Hok t s ltac:(by left)) as (ft & fsrc & Ht & Hs & Hpt & Hps & _).
  apply IH; [intros ???; apply Hok; by right|done|intros ?????; apply Hc; by right|intros ?????; apply Hc'; by right|].
  intros k g Hk Hg Hp. destruct (decide (k = t)) as [->|Hne].
  - rewrite Ht in Hg. injection Hg as <-.
    rewrite (Hc' t s ft fsrc), (Hc t s ft fsrc) by (done || by left). apply (Hagree s); [|done..].
    intros [E|Hin]%elem_of_cons; [by cbn in E|]. apply list_elem_of_fmap in Hin as ([t' s'] & E & Hin). cbn in E.
    subst. by destruct (Hrest _ _ Hin).
  - apply (Hagree k); [|done..]. intros [E|Hin]%elem_of_cons; [by cbn in E|done].
Qed.

(** What a successful write does. *)
Lemma write_integer_ok r e path v code r' : write_integer r e path v = (code, r') →
  code ≠ ok ∧ r' = r ∨
  code = ok ∧ ∃ own f, resolve r e path = Some (own, f) ∧ aggregate f = false ∧ floating (field_shape f) = false ∧
    pointer (field_shape f) = false ∧ integer_fits (field_shape f) (bits_of_int64 v) (v <? 0)%Z = true ∧
    r' = store r f (le_bytes (N.to_nat (size (field_shape f))) (bits_of_int64 v)).
Proof.
  unfold write_integer. destruct (resolve r e path) as [[own f]|]; [|intros [= <- <-]; by left]. cbn zeta.
  destruct (_ || _) eqn:Hc; intros [= <- <-]; [by left|right]. bools. split; [done|]. exists own, f. by split_and!.
Qed.

(** The real written, as the field holds it. *)
Definition real_bytes (float_of_double : N → N) (f : managed_field_layout) (value : N) : list N :=
  if size (field_shape f) =? 4 then le_bytes 4 (float_of_double value) else le_bytes 8 value.

Section writes.
Context (double_of_int64 : Z → N) (double_of_uint64 : N → N) (float_of_double double_of_float : N → N).
Context (from_chars_double : list N → option N).

Notation write_real := (write_real double_of_int64 double_of_uint64 float_of_double).

Lemma initialize_real f value : floating (field_shape f) = true → aggregate f = false →
  reference (field_shape f) = false → value < two64 →
  initialize double_of_int64 double_of_uint64 float_of_double (set_initial (Construction.constant Construction.real value) f)
    = (if finite64 value && ((negb (size (field_shape f) =? 4)) || finite32 (float_of_double value))
       then Some (real_bytes float_of_double f value) else None).
Proof.
  intros Hfl Ha Hr Hv. unfold initialize. cbn [initial set_initial aggregate field_shape Construction.kind Construction.constant].
  rewrite Ha, Hr, Hfl, Construction.bits_constant by done.
  cbn -[le_bytes finite64 finite32 bool_decide]. rewrite !(bool_decide_false (Construction.real = _)), (bool_decide_true (Construction.real = _)) by done.
  cbn -[le_bytes finite64 finite32]. unfold real_bytes.
  destruct (finite64 value); cbn -[le_bytes finite32]; [|done].
  destruct (size (field_shape f) =? 4); cbn -[le_bytes finite32]; [|done].
  by destruct (finite32 _).
Qed.

Lemma write_real_ok r e path v code r' : write_real r e path v = (code, r') →
  code ≠ ok ∧ r' = r ∨
  code = ok ∧ ∃ own f bytes, resolve r e path = Some (own, f) ∧ floating (field_shape f) = true ∧
    initialize double_of_int64 double_of_uint64 float_of_double
      (set_initial (Construction.constant Construction.real v) f) = Some bytes ∧ r' = store r f bytes.
Proof.
  unfold ManagedRuntime.write_real. destruct (resolve r e path) as [[own f]|]; [|intros [= <- <-]; by left].
  destruct (_ || _) eqn:Hc; [intros [= <- <-]; by left|]. bools.
  destruct (initialize _ _ _ _) as [bytes|] eqn:Hi; intros [= <- <-]; [right|by left]. split; [done|].
  exists own, f, bytes. by split_and!.
Qed.

Lemma write_integer_keeps links r e path v code r' : runtime_ok links r →
  write_integer r e path v = (code, r') → runtime_ok links r'.
Proof.
  intros Hr [(_ & ->)|(_ & own & f & Hres & Ha & _ & _ & _ & ->)]%write_integer_ok; [done|].
  destruct (resolve_target _ _ _ _ _ _ Hr Hres) as (i & j & _ & _ & _ & Hf & Href).
  eapply store_spec; [done..|]. by rewrite length_le_bytes, N2Nat.id.
Qed.

(** What [initialize] takes a real for has bytes of its own. *)
Lemma initialize_real_plain f v bytes : reference (field_shape f) = false →
  initialize double_of_int64 double_of_uint64 float_of_double
    (set_initial (Construction.constant Construction.real v) f) = Some bytes → plain f.
Proof.
  intros Hr Hi. split; [|done]. destruct (aggregate f) eqn:Ha; [|done]. unfold initialize in Hi. cbn in Hi.
  by rewrite Ha, !bool_decide_false in Hi by done.
Qed.

Lemma write_real_keeps links r e path v code r' : runtime_ok links r →
  write_real r e path v = (code, r') → runtime_ok links r'.
Proof.
  intros Hr [(_ & ->)|(_ & own & f & bytes & Hres & Hfl & Hi & ->)]%write_real_ok; [done|].
  destruct (resolve_target _ _ _ _ _ _ Hr Hres) as (i & j & _ & _ & _ & Hf & Href).
  pose proof (initialize_real_plain f v bytes Href Hi) as Hp. eapply store_spec; [done..|].
  assert (Hl := Hi). apply initialize_length in Hl; [|exact (proj2 (proj2 (ok_fields _ _ Hr j f Hf)))].
  rewrite decide_True in Hl by exact Hp. exact Hl.
Qed.
End writes.

(** Fields whose bytes are as before read as before. *)
Lemma read_integer_unchanged r r' ls e path k : runtime_ok ls r → target_of r e path = Some k →
  runtime_fields r' = runtime_fields r → layouts r' = layouts r → slots r' = slots r → aliases_to r' = aliases_to r →
  (∀ f, runtime_fields r !! k = Some f → plain f → content (storage r') f = content (storage r) f) →
  read_integer r' e path = read_integer r e path.
Proof.
  intros Hr Hk E1 E2 E3 E4 Hc. unfold read_integer.
  assert (E : resolve r' e path = resolve r e path).
  { assert (Ed : ∀ i m, descend r' i m = descend r i m) by (intros i m; unfold descend; by rewrite E1).
    assert (Ef : field_at r' e path = field_at r e path).
    { unfold field_at, field_of. rewrite E2, E3. generalize (RuntimeLinks.field (slots r) (layouts r) e).
      clear -Ed. induction path as [|m path IH]; intros o; [done|]. cbn [foldl]. rewrite Ed. apply IH. }
    unfold resolve. by rewrite Ef, E4, E1. }
  rewrite E. destruct (resolve r e path) as [[own f]|] eqn:Hres; [|done].
  destruct (resolve_target _ _ _ _ _ _ Hr Hres) as (i & j & _ & Hj & _ & Hf & Href). rewrite Hk in Hj. injection Hj as <-.
  destruct (aggregate f) eqn:Ha; [done|]. cbn [orb]. destruct (_ || _); [done|].
  specialize (Hc f Hf (conj Ha Href)). unfold content in Hc. by rewrite Hc.
Qed.

(** ** Reachable runtimes *)

Section reachability.
Context (double_of_int64 : Z → N) (double_of_uint64 : N → N) (float_of_double double_of_float : N → N).
Context (from_chars_double : list N → option N).
Context (graph : graph_reader).

Notation construct := (construct double_of_int64 double_of_uint64 float_of_double from_chars_double graph).
Notation write_real := (write_real double_of_int64 double_of_uint64 float_of_double).
Notation read_real := (read_real double_of_float).

(** The runtimes of a graph: constructed from it, then written. *)
Inductive reachable : managed_runtime → Prop :=
| reach_construct abi valid little_endian memory old message r :
    construct abi valid little_endian memory old = Some (ok, message, r) → reachable r
| reach_integer r endpoint path value code r' :
    reachable r → write_integer r endpoint path value = (code, r') → reachable r'
| reach_real r endpoint path value code r' :
    reachable r → write_real r endpoint path value = (code, r') → reachable r'.

Lemma construct_ok abi valid little_endian memory old message r :
  construct abi valid little_endian memory old = Some (ok, message, r) →
  is_supported_abi_configuration abi = true ∧
  candidate double_of_int64 double_of_uint64 float_of_double from_chars_double graph abi = Ok r.
Proof.
  unfold ManagedRuntime.construct. destruct (negb memory); [done|]. destruct (negb valid); [done|].
  destruct (negb little_endian); [done|]. destruct (negb _) eqn:Habi; [done|]. bools.
  destruct (candidate _ _ _ _ _ _); intros H; simplify_eq. done.
Qed.

Lemma runtime_reachable_ok r : derived_below graph → reachable r → ∃ ls, links graph = Some ls ∧ runtime_ok ls r.
Proof.
  clear double_of_float. intros Hb. induction 1 as [abi ? ? ? ? ? ? [Habi Hc]%construct_ok|r e p v c r' _ (ls & Hl & IH) Hw|r e p v c r' _ (ls & Hl & IH) Hw].
  - pose proof (candidate_returns double_of_int64 double_of_uint64 float_of_double from_chars_double graph abi Hb Habi) as H.
    rewrite Hc in H. destruct H as (ls & ? & ? & _). eauto.
  - exists ls. split; [done|]. by eapply write_integer_keeps.
  - exists ls. split; [done|]. by eapply write_real_keeps.
Qed.

(** A link's endpoints and the fields their storage is in. *)
Lemma link_targets ls r link : runtime_ok ls r → link ∈ ls → live link = true →
  ∃ t ft jt js ft' fs', field_of r (link_target link) = Some t ∧ runtime_fields r !! t = Some ft ∧
    target_of r (link_target link) [] = Some jt ∧ target_of r (link_source link) [] = Some js ∧
    runtime_fields r !! jt = Some ft' ∧ runtime_fields r !! js = Some fs' ∧
    (jt = js ∨ reference (field_shape ft) = false ∧ (jt, js) ∈ copies r).
Proof.
  intros Hr Hl Hlive. destruct (bindings_links _ _ _ _ _ (ok_bindings _ _ Hr) link Hl Hlive)
    as (t & s & jt & js & ft & Ht & Hs & Hjt & Hjs & Hft & Hcase).
  destruct (bindings_resolved _ _ _ _ _ (ok_bindings _ _ Hr)) as (refs & _ & Hres).
  assert (Hin : ∀ i j, aliases_to r !! i = Some (Some j) → ∃ f, runtime_fields r !! j = Some f).
  { intros i j Hij. pose proof (lookup_lt_Some _ _ _ Hij) as Hi.
    rewrite (bindings_length _ _ _ _ _ (ok_bindings _ _ Hr)) in Hi. destruct (Hres i Hi) as (j' & Hj' & Hrs).
    rewrite Hij in Hj'. injection Hj' as <-. apply resolves_lt in Hrs as [_ Hj]. by apply lookup_lt_is_Some_2. }
  destruct (Hin _ _ Hjt) as [ft' Hft'], (Hin _ _ Hjs) as [fs' Hfs']. exists t, ft, jt, js, ft', fs'.
  unfold target_of, field_at. cbn [foldl]. rewrite Ht, Hs. cbn. rewrite Hjt, Hjs. by split_and!.
Qed.

(** Endpoints with one storage read alike. *)
Lemma read_integer_target ls r e e' path path' j : runtime_ok ls r → target_of r e path = Some j →
  target_of r e' path' = Some j → read_integer r e path = read_integer r e' path'.
Proof.
  intros Hr He He'.
  assert (H : ∀ e path, target_of r e path = Some j → ∃ own, resolve r e path = (λ f, (own, f)) <$> runtime_fields r !! j).
  { intros e0 path0 H. unfold target_of in H. unfold resolve. apply bind_Some in H as (i & Hi & H). rewrite Hi. cbn.
    rewrite H. cbn. destruct (aliases_to r !! i) as [a|] eqn:Ha; [|done]. cbn in H. subst.
    destruct (lookup_lt_is_Some_2 (runtime_fields r) i) as [own Hown].
    { rewrite <-(bindings_length _ _ _ _ _ (ok_bindings _ _ Hr)). by eapply lookup_lt_Some. }
    rewrite Hown. exists own. by destruct (runtime_fields r !! j). }
  destruct (H _ _ He) as [own E], (H _ _ He') as [own' E']. unfold read_integer. rewrite E, E'.
  by destruct (runtime_fields r !! j).
Qed.
(** C26: on every graph whose type expressions are built from earlier ones,
    [construct] returns; a failure leaves the previous runtime untouched, and after a success
    every field with bytes of its own that no value link feeds holds its initializer's bytes. *)
Theorem construct_returns abi valid little_endian memory old : derived_below graph →
  ∃ code message r, construct abi valid little_endian memory old = Some (code, message, r) ∧
    (code ≠ ok → r = old) ∧
    (code = ok → ∀ i f, runtime_fields r !! i = Some f → plain f → i ∉ (copies r).*1 →
      initialize double_of_int64 double_of_uint64 float_of_double f = Some (content (storage r) f)).
Proof.
  intros Hb. unfold ManagedRuntime.construct.
  destruct memory; cbn [negb]; [|by eexists _, _, _]. destruct valid; cbn [negb]; [|by eexists _, _, _].
  destruct little_endian; cbn [negb]; [|by eexists _, _, _].
  destruct (is_supported_abi_configuration abi) eqn:Habi; cbn [negb]; [|by eexists _, _, _].
  pose proof (candidate_returns double_of_int64 double_of_uint64 float_of_double from_chars_double graph abi Hb Habi) as H.
  destruct (candidate _ _ _ _ _ _) as [r| | |]; [|by eexists _, _, _..|done].
  destruct H as (ls & _ & _ & Hinit). eexists _, _, r. by split_and!.
Qed.

(** C3: in every runtime reached from a construction by writes, both endpoints of
    each live link name a field, and the two fields hold the same bytes. *)
Theorem links_hold ls r link : derived_below graph → reachable r → links graph = Some ls → link ∈ ls →
  live link = true → ∃ jt js ft fsrc,
    target_of r (link_target link) [] = Some jt ∧ target_of r (link_source link) [] = Some js ∧
    runtime_fields r !! jt = Some ft ∧ runtime_fields r !! js = Some fsrc ∧
    content (storage r) ft = content (storage r) fsrc.
Proof.
  intros Hb Hr Hls Hin Hlive. destruct (runtime_reachable_ok r Hb Hr) as (ls' & Hls' & Hok).
  rewrite Hls in Hls'. injection Hls' as <-.
  destruct (link_targets ls r link Hok Hin Hlive) as (t & ft & jt & js & ft' & fs' & _ & _ & Ht & Hs & Hft & Hfs & Hcase).
  exists jt, js, ft', fs'. split_and!; try done. destruct Hcase as [->|[_ Hcp]]; [congruence|].
  by eapply (ok_copied _ _ Hok).
Qed.

(** In every reached runtime a live link into a reference field makes
    the two endpoints aliases, and they read the same. *)
Theorem references_resolve ls r link t f : derived_below graph → reachable r → links graph = Some ls → link ∈ ls →
  live link = true → field_of r (link_target link) = Some t → runtime_fields r !! t = Some f →
  reference (field_shape f) = true →
  aliases r (link_target link) (link_source link) = true ∧
  read_integer r (link_target link) [] = read_integer r (link_source link) [].
Proof.
  intros Hb Hr Hls Hin Hlive Ht Hf Href. destruct (runtime_reachable_ok r Hb Hr) as (ls' & Hls' & Hok).
  rewrite Hls in Hls'. injection Hls' as <-.
  destruct (link_targets ls r link Hok Hin Hlive) as (t' & ft & jt & js & ft' & fs' & Ht' & Hft & Hjt & Hjs & _ & _ & Hcase).
  rewrite Ht in Ht'. injection Ht' as <-. rewrite Hf in Hft. injection Hft as <-.
  assert (jt = js) as -> by (destruct Hcase as [|[? _]]; congruence). split; [|by eapply read_integer_target].
  unfold target_of, field_at in Hjt, Hjs. cbn [foldl] in Hjt, Hjs.
  apply bind_Some in Hjt as (i & Hi & Hjt), Hjs as (i' & Hi' & Hjs). unfold aliases. rewrite Hi, Hi'.
  apply bool_decide_eq_true. destruct (aliases_to r !! i) as [[]|], (aliases_to r !! i') as [[]|]; cbn in Hjt, Hjs; congruence.
Qed.

(** C25: after a successful write of an integer to a field that no value link
    feeds, the value is read back through every endpoint of the same storage, and every other
    field that no link feeds reads as before. *)
Theorem write_then_read r e path v r' j : derived_below graph → reachable r → int64 v →
  write_integer r e path v = (ok, r') → target_of r e path = Some j → j ∉ (copies r).*1 →
  (∀ e' path', target_of r e' path' = Some j → read_integer r' e' path' = (ok, Some v)) ∧
  (∀ e' path' k, target_of r e' path' = Some k → k ≠ j → k ∉ (copies r).*1 →
    read_integer r' e' path' = read_integer r e' path').
Proof.
  intros Hb Hr Hv Hw Hj Hnin. destruct (runtime_reachable_ok r Hb Hr) as (ls & Hls & Hok).
  destruct (write_integer_ok _ _ _ _ _ _ Hw) as [[? _]|(_ & own & f & Hres & Ha & Hfl & Hp & Hfits & ->)]; [done|].
  destruct (resolve_target _ _ _ _ _ _ Hok Hres) as (i & j' & _ & Hj' & _ & Hf & Href). rewrite Hj in Hj'. injection Hj' as <-.
  set (bytes := le_bytes (N.to_nat (size (field_shape f))) (bits_of_int64 v)).
  assert (Hl : N.of_nat (length bytes) = size (field_shape f)) by (unfold bytes; by rewrite length_le_bytes, N2Nat.id).
  destruct (store_spec ls r j f bytes Hok Hf (conj Ha Href) Hl) as (Hok' & Hown & Hkeep). split.
  - intros e' path' He'. rewrite (read_integer_target ls _ e' e path' path j Hok' He' Hj).
    unfold read_integer. change (resolve (store r f bytes) e path) with (resolve r e path). rewrite Hres, Ha, Hfl, Hp. cbn [orb].
    specialize (Hown Hnin). unfold content in Hown. rewrite Hown. unfold bytes.
    rewrite integer_value_written; try done. by apply (ok_fields _ _ Hok j f Hf).
  - intros e' path' k Hk Hne Hnk. eapply read_integer_unchanged; [done..|]. intros g Hg Hpg. by eapply Hkeep.
Qed.

(** A successful write of an integer to a field that a value link
    feeds changes nothing that can be read: the link restores the field. *)
Theorem write_to_link_target r e path v r' j : derived_below graph → reachable r →
  write_integer r e path v = (ok, r') → target_of r e path = Some j → j ∈ (copies r).*1 →
  ∀ e' path', read_integer r' e' path' = read_integer r e' path'.
Proof.
  intros Hb Hr Hw Hj Hjin e' path'. destruct (runtime_reachable_ok r Hb Hr) as (ls & Hls & Hok).
  destruct (write_integer_ok _ _ _ _ _ _ Hw) as [[? _]|(_ & own & f & Hres & Ha & _ & _ & _ & ->)]; [done|].
  destruct (resolve_target _ _ _ _ _ _ Hok Hres) as (i & j' & _ & Hj' & _ & Hf & Href). rewrite Hj in Hj'. injection Hj' as <-.
  destruct (target_of r e' path') as [k|] eqn:Hk; [|].
  - eapply read_integer_unchanged; [done..|]. intros g Hg Hpg.
    destruct (store_spec ls r j f (le_bytes (N.to_nat (size (field_shape f))) (bits_of_int64 v)) Hok Hf (conj Ha Href))
      as (Hok' & _ & Hkeep); [by rewrite length_le_bytes, N2Nat.id|].
    pose proof (ok_bindings _ _ Hok) as Hbind.
    apply (copied_determined (runtime_fields r) (copies r)) with (k := k);
      [by eapply bindings_copies_ok|by eapply bindings_ordered|apply (ok_copied _ _ Hok)|apply (ok_copied _ _ Hok')| |done|done].
    intros k' g' Hk' Hg' Hpg'. apply (Hkeep k'); [|done..]. by intros ->.
  - unfold read_integer. change (resolve (store r f ?b) e' path') with (resolve r e' path').
    unfold target_of in Hk. unfold resolve. destruct (field_at r e' path') as [i'|]; [|done]. cbn in *. by rewrite Hk.
Qed.
End reachability.


(** ** An example: two objects of a record with a value link and a reference link *)

Definition example_member (type : N) (value : construction_value) : member_record := Member type value.

(** Type 1 is [int], type 2 the record, type 3 [int&], derived from 1. *)
Definition example_graph : graph_reader := {|
  object_slot_count := 2;
  object_at i := N.of_nat (S i);
  find_object h := if (h =? 1) || (h =? 2) then Some (ObjectEntry 2 0) else None;
  find_type h := if h =? 2 then Some (TypeEntry true record_kind struct_type) else None;
  intrinsic t := if t =? 1 then Some signed_int else None;
  named t := if t =? 2 then Some 2 else None;
  derived t := if t =? 3 then Some (lvalue_reference, 1) else None;
  members t := Some [example_member 1 (Construction.constant Construction.signed_integer 7);
    example_member 3 (Construction.ConstructionValue 0 0 1 Construction.member_binding);
    example_member 1 Construction.zero_value];
  links := Some [Link (Endpoint 1 0) (Endpoint 2 2); Link (Endpoint 1 2) (Endpoint 2 1)];
  string _ := [] |}.

Definition example_construct : option (status_code * Strings.String.string * managed_runtime) :=
  construct (λ _, 0) (λ _, 0) (λ _, 0) (λ _, None) example_graph (Abi posix_x64 8) true true true
    (Runtime [] [] [] [] [] []).

Definition example_runtime : managed_runtime :=
  match example_construct with Some (_, _, r) => r | None => Runtime [] [] [] [] [] [] end.

Lemma example_below : derived_below example_graph.
Proof. intros t k c. cbn. destruct (N.eqb_spec t 3) as [->|]; [|done]. intros [= _ <-]. lia. Qed.

Lemma example_reachable : reachable (λ _, 0) (λ _, 0) (λ _, 0) (λ _, None) example_graph example_runtime.
Proof.
  apply (reach_construct (λ _, 0) (λ _, 0) (λ _, 0) (λ _, None) example_graph (Abi posix_x64 8) true true true
    (Runtime [] [] [] [] [] []) EmptyString). vm_compute. reflexivity.
Qed.

Lemma construct_returns_witness :
  derived_below example_graph ∧ ∃ code message r, example_construct = Some (code, message, r) ∧ code = ok.
Proof.
  split; [exact example_below|].
  destruct (construct_returns (λ _, 0) (λ _, 0) (λ _, 0) (λ _, None) example_graph (Abi posix_x64 8) true true true
    (Runtime [] [] [] [] [] []) example_below) as (code & message & r & H & _).
  exists code, message, r. split; [exact H|]. assert (E : (λ '(c, _, _), c) <$> example_construct = Some ok) by (vm_compute; reflexivity).
  unfold example_construct in E. rewrite H in E. injection E as ->. reflexivity.
Defined.

Lemma links_hold_witness : ∃ jt js ft fsrc,
  target_of example_runtime (Endpoint 2 2) [] = Some jt ∧ target_of example_runtime (Endpoint 1 0) [] = Some js ∧
  runtime_fields example_runtime !! jt = Some ft ∧ runtime_fields example_runtime !! js = Some fsrc ∧
  content (storage example_runtime) ft = content (storage example_runtime) fsrc.
Proof.
  apply (links_hold (λ _, 0) (λ _, 0) (λ _, 0) (λ _, None) example_graph
    [Link (Endpoint 1 0) (Endpoint 2 2); Link (Endpoint 1 2) (Endpoint 2 1)] example_runtime
    (Link (Endpoint 1 0) (Endpoint 2 2)));
    [exact example_below|exact example_reachable|reflexivity|left|reflexivity].
Defined.

Lemma references_resolve_witness : aliases example_runtime (Endpoint 2 1) (Endpoint 1 2) = true ∧
  read_integer example_runtime (Endpoint 2 1) [] = read_integer example_runtime (Endpoint 1 2) [].
Proof.
  eapply (references_resolve (λ _, 0) (λ _, 0) (λ _, 0) (λ _, None) example_graph
    [Link (Endpoint 1 0) (Endpoint 2 2); Link (Endpoint 1 2) (Endpoint 2 1)] example_runtime
    (Link (Endpoint 1 2) (Endpoint 2 1)));
    [exact example_below|exact example_reachable|reflexivity|right; left|reflexivity|vm_compute; reflexivity|
     vm_compute; reflexivity|reflexivity].
Defined.

(** Writing 5 to [x] of the first object: [z] of the second holds it too. *)
Lemma write_then_read_witness : 
  let r' := (write_integer example_runtime (Endpoint 1 0) [] 5%Z).2 in
  read_integer r' (Endpoint 1 0) [] = (ok, Some 5%Z) ∧
  read_integer r' (Endpoint 1 1) [] = (ok, Some 5%Z) ∧
  read_integer r' (Endpoint 1 2) [] = read_integer example_runtime (Endpoint 1 2) [].
Proof.
  set (r' := (write_integer example_runtime (Endpoint 1 0) [] 5%Z).2).
  destruct (write_then_read (λ _, 0) (λ _, 0) (λ _, 0) (λ _, None) example_graph example_runtime (Endpoint 1 0) [] 5%Z
    r' 0%nat example_below example_reachable) as [H1 H2].
  - unfold int64, two63. lia.
  - vm_compute. reflexivity.
  - vm_compute. reflexivity.
  - apply (bool_decide_unpack _). vm_compute. exact I.
  - split; [apply H1; vm_compute; reflexivity|]. split; [apply H1; vm_compute; reflexivity|].
    apply (H2 _ _ 2%nat); [vm_compute; reflexivity|discriminate|].
    apply (bool_decide_unpack _). vm_compute. exact I.
Defined.

Lemma write_to_link_target_witness :
  let r' := (write_integer example_runtime (Endpoint 2 2) [] 5%Z).2 in
  read_integer r' (Endpoint 2 2) [] = (ok, Some 7%Z).
Proof.
  set (r' := (write_integer example_runtime (Endpoint 2 2) [] 5%Z).2). cbn zeta.
  transitivity (read_integer example_runtime (Endpoint 2 2) []); [|vm_compute; reflexivity].
  apply (write_to_link_target (λ _, 0) (λ _, 0) (λ _, 0) (λ _, None) example_graph example_runtime (Endpoint 2 2) [] 5%Z
    r' 5%nat example_below example_reachable); [vm_compute; reflexivity..|].
  apply (bool_decide_unpack _). vm_compute. exact I.
Defined.

End ManagedRuntime.
