(* ===== verification/Graph.v ===== *)
(** * The compiled graph

    Models server_engine/project/graph/graph.{hpp,cpp}: the record types, the committed graph
    with its lookups, its identity, object, link and derived-type indexes, and the two steps
    of an incremental update, [prepare_sparse_publication] and [publish_prepared].

    Every array of the graph is a [MappedVector.mapped_vector], so an access may have to
    materialize a baseline record, and may fail to.  [o] says what the allocations of the
    accesses answer, by statement, iteration and access.  The two image views behind a
    baseline-backed graph are records of what they answer. *)

From S2P Require Import Prelude Probing MappedVector Construction RuntimeLayout.

Local Open Scope N_scope.

Module Graph.

Import Probing MappedVector.

#[local] Existing Instance RuntimeLayout.graph_type_kind_eq_dec.

(** ** Records *)

Definition intrinsic_type := RuntimeLayout.intrinsic_type.
Definition object_entry := RuntimeLayout.object_entry.
Definition object_endpoint := RuntimeLayout.object_endpoint.
Definition link_record := RuntimeLayout.link_record.

Record definition_range : Set := DefinitionRange { range_first : N; range_length : N }.
Definition range_valid (r : definition_range) : bool := negb (range_first r =? 0).

Record type_entry : Set := TypeEntry {
  definition : definition_range; type_kind : RuntimeLayout.graph_type_kind;
  record_kind : RuntimeLayout.source_record_kind; enum_underlying : intrinsic_type; type_flags : N }.
Definition defined (t : type_entry) : bool := range_valid (definition t).
Definition type_live (t : type_entry) : bool := negb (N.land (type_flags t) 0x80 =? 0).

Inductive source_member_access : Set := public_access | protected_access | private_access.
Record member_record : Set := MemberRecord {
  member_name : N; member_type : N; access : source_member_access;
  construction : Construction.construction_value }.

Record enum_value_record : Set := EnumValueRecord { enum_bits : N; enum_name : N; enum_intrinsic : intrinsic_type }.

Definition object_live (e : object_entry) : bool := negb (N.land (RuntimeLayout.object_flags e) 0x80000000 =? 0).
Definition link_live (l : link_record) : bool :=
  negb (RuntimeLayout.endpoint_object (RuntimeLayout.link_source l) =? 0) &&
  negb (RuntimeLayout.endpoint_object (RuntimeLayout.link_target l) =? 0).

Inductive canonical_type_kind : Set := intrinsic_kind | named_kind | derived_kind.
#[export] Instance canonical_type_kind_eq_dec : EqDecision canonical_type_kind.
Proof. solve_decision. Defined.

Record canonical_type : Set := CanonicalType {
  payload : N; child_or_handle : N; canonical_kind : canonical_type_kind; detail : N }.

(** The slot of the three indexes that find a handle. *)
Record handle_slot : Set := HandleSlot { fingerprint : N; handle : N }.
Record derived_slot : Set := DerivedSlot { derived_fingerprint : N; type_ref : N }.
Record dependency_edge : Set := DependencyEdge { owner_handle : N; next_for_target : N; owner_version : N }.

(** The values that [{}] makes of them. *)
Definition null_endpoint : object_endpoint := RuntimeLayout.Endpoint 0 RuntimeLayout.invalid_member.
#[export] Instance type_entry_inhabited : Inhabited type_entry :=
  populate (TypeEntry (DefinitionRange 0 0) RuntimeLayout.record_kind RuntimeLayout.struct_type RuntimeLayout.none 0).
#[export] Instance member_record_inhabited : Inhabited member_record :=
  populate (MemberRecord 0 0 public_access Construction.zero_value).
#[export] Instance enum_value_record_inhabited : Inhabited enum_value_record :=
  populate (EnumValueRecord 0 0 RuntimeLayout.signed_int).
#[export] Instance object_entry_inhabited : Inhabited object_entry := populate (RuntimeLayout.ObjectEntry 0 0).
#[export] Instance link_record_inhabited : Inhabited link_record :=
  populate (RuntimeLayout.Link null_endpoint null_endpoint).
#[export] Instance canonical_type_inhabited : Inhabited canonical_type := populate (CanonicalType 0 0 intrinsic_kind 0).
#[export] Instance handle_slot_inhabited : Inhabited handle_slot := populate (HandleSlot 0 0).
#[export] Instance derived_slot_inhabited : Inhabited derived_slot := populate (DerivedSlot 0 0).
#[export] Instance dependency_edge_inhabited : Inhabited dependency_edge := populate (DependencyEdge 0 0 0).
#[export] Instance word_inhabited : Inhabited N := populate 0.

#[export] Instance object_endpoint_eq_dec : EqDecision object_endpoint.
Proof. unfold object_endpoint. solve_decision. Defined.

(** ** Hashes *)

Definition fold32 (value : N) : N :=
  let result := w32 (N.lxor value (N.shiftr value 32)) in if result =? 0 then 1 else result.
Definition identity_hash (identity : N) : N := mix64 identity.
Definition endpoint_hash (e : object_endpoint) : N :=
  mix64 (N.lxor (N.shiftl (RuntimeLayout.endpoint_object e) 32) (RuntimeLayout.endpoint_member e)).
Definition derived_hash (kind child payload : N) : N :=
  mix64 (N.lxor (N.lxor (N.shiftl kind 56) (N.shiftl child 16)) (mix64 payload)).

(** ** Index tables *)

Notation oracle := (nat → memory).

Section index.
(** [values] hold [V]; the table finds the handle of the value with a key. *)
Context {V K : Type} `{!Inhabited V} `{!EqDecision K} (key : V → K) (hash : K → N).

(** The body of the three lookup loops: [find_identity], [find_object_identity] and
    [find_link_raw].  Zero is no handle. *)
Definition visit_slot (slots : mapped_vector (T := handle_slot)) (values : mapped_vector (T := V)) (k : K)
    (position : N) : option N :=
  let '(result, slot) := read slots position in
  if negb (status_ok result) then Some 0
  else if handle slot =? 0 then Some 0
  else if (fingerprint slot =? fold32 (hash k)) && (handle slot <=? size values) then
    let '(result, candidate) := read values (handle slot - 1) in
    if status_ok result && bool_decide (key candidate = k) then Some (handle slot) else None
  else None.

Definition find_slot (slots : mapped_vector (T := handle_slot)) (values : mapped_vector (T := V)) (k : K) : N :=
  default 0 (probe (visit_slot slots values k) (size slots - 1) (N.to_nat (size slots))
    (N.land (hash k) (size slots - 1))).

(** The three insertion loops ([insert_identity_index], [insert_object_identity_index],
    [insert_link_index]).  The loop has no bound of its own; [None] is that it used up
    [fuel]. *)
Fixpoint insert_walk (fuel : nat) (o : oracle) (slots : mapped_vector (T := handle_slot))
    (values : mapped_vector (T := V)) (k : K) (new_handle position : N) :
    option (mapped_vector (T := handle_slot) * mapped_vector (T := V)) :=
  match fuel with
  | O => None
  | S fuel' =>
      let next slots values :=
        insert_walk fuel' (λ n, o (2 + n)%nat) slots values k new_handle (N.land (position + 1) (size slots - 1)) in
      '(slots, p) ← at_mutable (o 0%nat) slots position;
      let slot := deref slots p in
      if handle slot =? 0 then Some (assign_place slots p (HandleSlot (fold32 (hash k)) new_handle), values)
      else if (fingerprint slot =? fold32 (hash k)) && (handle slot <=? size values) then
        '(values, q) ← at_const (o 1%nat) values (handle slot - 1);
        if bool_decide (key (deref values q) = k) then Some (slots, values) else next slots values
      else next slots values
  end.

Definition insert_index (o : oracle) (slots : mapped_vector (T := handle_slot)) (values : mapped_vector (T := V))
    (k : K) (new_handle : N) : option (mapped_vector (T := handle_slot) * mapped_vector (T := V)) :=
  insert_walk (N.to_nat (size slots)) o slots values k new_handle (N.land (hash k) (size slots - 1)).

(** The insertion of the keys of the new values, their handles from [first] on. *)
Fixpoint insert_all (o : nat → oracle) (slots : mapped_vector (T := handle_slot)) (values : mapped_vector (T := V))
    (ks : list K) (new_handle : N) : option (mapped_vector (T := handle_slot) * mapped_vector (T := V)) :=
  match ks with
  | [] => Some (slots, values)
  | k :: ks' =>
      '(slots, values) ← insert_index (o 0%nat) slots values k (w32 new_handle);
      insert_all (λ n, o (S n)) slots values ks' (new_handle + 1)
  end.

(** [touch_identity_slot] and [touch_object_slot]: materialize the slot a new key will go
    to.  The walk only reads; [None] is that a materialization would not end. *)
Definition visit_touch (slots : mapped_vector (T := handle_slot)) (values : mapped_vector (T := V)) (k : K)
    (position : N) : option (option (option N)) :=
  let '(result, slot) := read slots position in
  if negb (status_ok result) then Some None
  else if handle slot =? 0 then Some (Some (Some position))
  else if (fingerprint slot =? fold32 (hash k)) && (handle slot <=? size values) then
    let '(result, candidate) := read values (handle slot - 1) in
    if status_ok result && bool_decide (key candidate = k) then Some (Some None) else None
  else None.

Definition touch_slot (m : memory) (slots : mapped_vector (T := handle_slot)) (values : mapped_vector (T := V)) (k : K) :
    option (mapped_vector (T := handle_slot) * bool) :=
  if empty slots then Some (slots, false)
  else
    match probe (visit_touch slots values k) (size slots - 1) (N.to_nat (size slots))
            (N.land (hash k) (size slots - 1)) with
    | None | Some None => Some (slots, false)
    | Some (Some None) => Some (slots, true)
    | Some (Some (Some position)) => '(slots, _) ← at_mutable m slots position; Some (slots, true)
    end.
End index.

Section vacant.
(** The derived-type index only looks for vacant slots, and so does the preparation of the
    link index. *)
Context {S : Type} `{!Inhabited S} (vacant : S → bool).

Definition visit_vacant (slots : mapped_vector (T := S)) (position : N) : option (option N) :=
  let '(result, slot) := read slots position in
  if negb (status_ok result) then Some None else if vacant slot then Some (Some position) else None.

Definition touch_vacant (m : memory) (slots : mapped_vector (T := S)) (h : N) :
    option (mapped_vector (T := S) * status_code) :=
  match probe (visit_vacant slots) (size slots - 1) (N.to_nat (size slots)) (N.land h (size slots - 1)) with
  | None => Some (slots, rebuild_required)
  | Some None => Some (slots, artifact_corrupt)
  | Some (Some position) => '(slots, _) ← at_mutable m slots position; Some (slots, ok)
  end.

(** [insert_derived_index] with the new slot worked out. *)
Fixpoint fill_vacant (fuel : nat) (o : oracle) (slots : mapped_vector (T := S)) (new : S) (position : N) :
    option (mapped_vector (T := S)) :=
  match fuel with
  | O => None
  | Datatypes.S fuel' =>
      '(slots, p) ← at_mutable (o 0%nat) slots position;
      if vacant (deref slots p) then Some (assign_place slots p new)
      else fill_vacant fuel' (λ n, o (Datatypes.S n)) slots new (N.land (position + 1) (size slots - 1))
  end.
End vacant.

Definition insert_derived_index (o : oracle) (slots : mapped_vector (T := derived_slot)) (record : canonical_type)
    (ref : N) : option (mapped_vector (T := derived_slot)) :=
  let h := derived_hash (detail record) (child_or_handle record) (payload record) in
  fill_vacant (λ s, type_ref s =? 0) (N.to_nat (size slots)) o slots (DerivedSlot (fold32 h) ref)
    (N.land h (size slots - 1)).

(** ** The graph *)

(** The members of the class, grouped: the arrays, the index tables, the counts. *)
Record arrays : Type := Arrays {
  types : mapped_vector (T := type_entry);
  identities : mapped_vector (T := N);
  member_records : mapped_vector (T := member_record);
  enum_value_records : mapped_vector (T := enum_value_record);
  object_entries : mapped_vector (T := object_entry);
  object_identities : mapped_vector (T := N);
  link_records : mapped_vector (T := link_record);
  canonical_types : mapped_vector (T := canonical_type);
  named_refs : mapped_vector (T := N);
  dependency_versions : mapped_vector (T := N);
  reverse_dependency_heads : mapped_vector (T := N);
  dependency_edges : mapped_vector (T := dependency_edge) }.

Record indexes : Type := Indexes {
  identity_index : mapped_vector (T := handle_slot);
  object_identity_index : mapped_vector (T := handle_slot);
  link_index : mapped_vector (T := handle_slot);
  derived_index : mapped_vector (T := derived_slot) }.

Record counts : Type := Counts {
  derived_index_entries : N; live_type_count : N; live_object_count : N; live_link_count : N;
  intrinsic_refs : list N }.

Record graph : Type := GraphState {
  baseline_backed_graph : bool; arrays_of : arrays; indexes_of : indexes; counts_of : counts }.

(** The two images: what they answer. *)
Record compiled_image_view : Type := CompiledImageView {
  image_type_count : N; image_object_count : N; image_link_count : N;
  type_slot_count : N; type_raw : N → status_code * type_entry; type_identity_at_slot : N → N;
  member_slot_count : N; member_at_slot : N → status_code * member_record;
  enum_value_slot_count : N; enum_value_at_slot : N → status_code * enum_value_record;
  object_slot_count : N; object_raw : N → status_code * object_entry; object_identity_at_slot : N → N;
  link_slot_count : N; link_raw : N → status_code * link_record;
  canonical_type_slot_count : N; canonical_type_at_slot : N → status_code * canonical_type }.

Record build_cache_image_view : Type := BuildCacheImageView {
  type_identity_index_slot_count : N; type_identity_index_slot : N → status_code * handle_slot;
  object_identity_index_slot_count : N; object_identity_index_slot : N → status_code * handle_slot;
  link_target_index_slot_count : N; link_target_index_slot : N → status_code * handle_slot;
  named_ref_count : N; named_ref : N → N;
  derived_index_slot_count : N; derived_index_slot : N → status_code * derived_slot;
  image_derived_index_entries : N;
  dependency_version_count : N; dependency_version : N → N; reverse_dependency_head : N → N;
  dependency_edge_count : N; image_dependency_edge : N → status_code * dependency_edge;
  intrinsic_ref : N → N }.

(** What a callback leaves in the output: nothing but [{}] unless it succeeds. *)
Definition output {A} `{!Inhabited A} (answer : status_code * A) : status_code * A :=
  if status_ok answer.1 then answer else (answer.1, inhabitant).

(** Callbacks that go through a handle refuse an index without one. *)
Definition by_handle {A} `{!Inhabited A} (answer : N → status_code * A) (index : N) : status_code * A :=
  if two32 - 1 <=? index then (artifact_corrupt, inhabitant) else output (answer (index + 1)).

Definition by_identity (answer : N → N) (index : N) : status_code * N :=
  (if answer index =? 0 then artifact_corrupt else ok, answer index).

Definition bind {A} `{!Inhabited A} (count : N) (r : N → status_code * A) : mapped_vector (T := A) :=
  bind_baseline mapped_vector_init count (Some r).

Definition graph_intrinsic_type_count : nat := 22.

(** The constructor over the two images. *)
Definition graph_of_images (compiled : compiled_image_view) (cache : build_cache_image_view) : graph :=
  GraphState true
    (Arrays
      (bind (type_slot_count compiled) (by_handle (type_raw compiled)))
      (bind (type_slot_count compiled) (by_identity (type_identity_at_slot compiled)))
      (bind (member_slot_count compiled) (λ i, output (member_at_slot compiled i)))
      (bind (enum_value_slot_count compiled) (λ i, output (enum_value_at_slot compiled i)))
      (bind (object_slot_count compiled) (by_handle (object_raw compiled)))
      (bind (object_slot_count compiled) (by_identity (object_identity_at_slot compiled)))
      (bind (link_slot_count compiled) (by_handle (link_raw compiled)))
      (bind (canonical_type_slot_count compiled) (λ i, output (canonical_type_at_slot compiled i)))
      (bind (named_ref_count cache) (λ i,
        if i =? 0 then (ok, 0) else if two32 - 1 <? i then (artifact_corrupt, 0) else (ok, named_ref cache i)))
      (bind (dependency_version_count cache) (by_handle (λ h, (ok, dependency_version cache h))))
      (bind (dependency_version_count cache) (by_handle (λ h, (ok, reverse_dependency_head cache h))))
      (bind (dependency_edge_count cache) (image_dependency_edge cache)))
    (Indexes
      (bind (type_identity_index_slot_count cache) (type_identity_index_slot cache))
      (bind (object_identity_index_slot_count cache) (object_identity_index_slot cache))
      (bind (link_target_index_slot_count cache) (link_target_index_slot cache))
      (bind (derived_index_slot_count cache) (λ i, output (derived_index_slot cache i))))
    (Counts (image_derived_index_entries cache) (image_type_count compiled) (image_object_count compiled)
      (image_link_count compiled) ((λ i, intrinsic_ref cache (N.of_nat i)) <$> seq 0 graph_intrinsic_type_count)).

(** ** Lookups *)

(** Handles, references and identities are words; zero is none of them. *)
Definition read_live {A} `{!Inhabited A} (live : A → bool) (values : mapped_vector (T := A)) (index : N) : option A :=
  let '(result, entry) := read values index in if status_ok result && live entry then Some entry else None.

Definition at_slot {A} `{!Inhabited A} (live : A → bool) (values : mapped_vector (T := A)) (index : N) : N :=
  if (size values <=? index) || (two32 - 1 <=? index) then 0
  else match read_live live values index with Some _ => w32 (index + 1) | None => 0 end.

Definition type_at (g : graph) (index : N) : N := at_slot type_live (types (arrays_of g)) index.
Definition object_at (g : graph) (index : N) : N := at_slot object_live (object_entries (arrays_of g)) index.

(** [!handle || handle.value() > values.size()]. *)
Definition no_slot {A} (values : mapped_vector (T := A)) (h : N) : bool := (h =? 0) || (size values <? h).

(** The lookups that answer with a pointer materialize the record; the vector goes on. *)
Definition find_entry {A} `{!Inhabited A} (m : memory) (live : A → bool) (values : mapped_vector (T := A)) (h : N) :
    option (mapped_vector (T := A) * option A) :=
  if no_slot values h then Some (values, None)
  else
    '(values, p) ← at_const m values (h - 1);
    Some (values, if live (deref values p) then Some (deref values p) else None).

Definition identity_raw (g : graph) (h : N) : N :=
  if no_slot (identities (arrays_of g)) h then 0
  else let '(result, identity) := read (identities (arrays_of g)) (h - 1) in if status_ok result then identity else 0.

Definition type_identity (g : graph) (h : N) : N :=
  if no_slot (types (arrays_of g)) h then 0
  else match read_live type_live (types (arrays_of g)) (h - 1) with Some _ => identity_raw g h | None => 0 end.

(** An identity that the identity space made is valid, [slot() != 0], exactly when it is not zero. *)
Definition find_identity (g : graph) (identity : N) : N :=
  if (identity =? 0) || empty (identity_index (indexes_of g)) then 0
  else find_slot id identity_hash (identity_index (indexes_of g)) (identities (arrays_of g)) identity.

Definition find_type (g : graph) (identity : N) : N :=
  let h := find_identity g identity in
  if h =? 0 then 0
  else match read_live type_live (types (arrays_of g)) (h - 1) with Some _ => h | None => 0 end.

(** [members] and [enum_values]: the definition range of a live entry of the kind. *)
Definition definition_span {A} `{!Inhabited A} (m m' : memory) (g : graph) (kind : RuntimeLayout.graph_type_kind)
    (values : mapped_vector (T := A)) (h : N) :
    option (mapped_vector (T := type_entry) * mapped_vector (T := A) * list A) :=
  '(types_, entry) ← find_entry m type_live (types (arrays_of g)) h;
  match entry with
  | None => Some (types_, values, [])
  | Some entry =>
      if negb (bool_decide (type_kind entry = kind)) || negb (defined entry) then Some (types_, values, [])
      else
        let first := range_first (definition entry) - 1 in
        let count := range_length (definition entry) in
        if (size values <? first) || (size values - first <? count) || (count =? 0) then Some (types_, values, [])
        else let '(values, records) := span m' values first count in Some (types_, values, records)
  end.

Definition graph_members (m m' : memory) (g : graph) (h : N) :=
  definition_span m m' g RuntimeLayout.record_kind (member_records (arrays_of g)) h.
Definition graph_enum_values (m m' : memory) (g : graph) (h : N) :=
  definition_span m m' g RuntimeLayout.enumeration (enum_value_records (arrays_of g)) h.

Definition invalid_member : N := RuntimeLayout.invalid_member.

(** The loop over the members; the first that cannot be read ends it. *)
Fixpoint find_named (values : mapped_vector (T := member_record)) (name first index : N) (count : nat) : N :=
  match count with
  | O => invalid_member
  | S count' =>
      let '(result, value) := read values (first + index) in
      if negb (status_ok result) then invalid_member
      else if (member_name value =? name) && (index <? two32) then index
      else find_named values name first (index + 1) count'
  end.

Definition find_member (g : graph) (h name : N) : N :=
  if no_slot (types (arrays_of g)) h || (name =? 0) then invalid_member
  else
    match read_live type_live (types (arrays_of g)) (h - 1) with
    | None => invalid_member
    | Some entry =>
        if negb (bool_decide (type_kind entry = RuntimeLayout.record_kind)) || negb (defined entry) then invalid_member
        else
          let first := range_first (definition entry) - 1 in
          let count := range_length (definition entry) in
          let values := member_records (arrays_of g) in
          if (size values <? first) || (size values - first <? count) then invalid_member
          else find_named values name first 0 (N.to_nat count)
    end.

(** [object_type]: the type of a live object; zero is [false]. *)
Definition object_type (g : graph) (h : N) : N :=
  if no_slot (object_entries (arrays_of g)) h then 0
  else
    match read_live object_live (object_entries (arrays_of g)) (h - 1) with
    | Some entry => RuntimeLayout.object_type entry | None => 0 end.

Definition object_identity (g : graph) (h : N) : N :=
  if no_slot (object_entries (arrays_of g)) h || (size (object_identities (arrays_of g)) <? h) then 0
  else
    match read_live object_live (object_entries (arrays_of g)) (h - 1) with
    | None => 0
    | Some _ =>
        let '(result, identity) := read (object_identities (arrays_of g)) (h - 1) in
        if status_ok result then identity else 0
    end.

Definition find_object_identity (g : graph) (identity : N) : N :=
  if (identity =? 0) || empty (object_identity_index (indexes_of g)) then 0
  else find_slot id identity_hash (object_identity_index (indexes_of g)) (object_identities (arrays_of g)) identity.

Definition find_object (g : graph) (identity : N) : N :=
  let h := find_object_identity g identity in
  if h =? 0 then 0
  else match read_live object_live (object_entries (arrays_of g)) (h - 1) with Some _ => h | None => 0 end.

Definition find_link_raw (g : graph) (target : object_endpoint) : N :=
  if (RuntimeLayout.endpoint_object target =? 0) || negb (RuntimeLayout.member_valid (RuntimeLayout.endpoint_member target)) ||
     empty (link_index (indexes_of g)) then 0
  else find_slot RuntimeLayout.link_target endpoint_hash (link_index (indexes_of g)) (link_records (arrays_of g)) target.

Definition find_link (g : graph) (target : object_endpoint) : N :=
  let h := find_link_raw g target in
  if h =? 0 then 0
  else match read_live link_live (link_records (arrays_of g)) (h - 1) with Some _ => h | None => 0 end.

(** The record behind a type reference. *)
Definition canonical_record (g : graph) (ref : N) : option canonical_type :=
  let values := canonical_types (arrays_of g) in
  if (ref =? 0) || (size values <=? ref) then None
  else let '(result, record) := read values ref in if status_ok result then Some record else None.

Definition graph_kind (g : graph) (ref : N) : canonical_type_kind :=
  match canonical_record g ref with Some record => canonical_kind record | None => intrinsic_kind end.

(** The detail of an intrinsic type, as the byte it is. *)
Definition graph_intrinsic (g : graph) (ref : N) : option N :=
  record ← canonical_record g ref;
  if bool_decide (canonical_kind record = intrinsic_kind) then Some (detail record) else None.

Definition named_raw (g : graph) (ref : N) : option N :=
  record ← canonical_record g ref;
  if negb (bool_decide (canonical_kind record = named_kind)) || no_slot (types (arrays_of g)) (child_or_handle record)
  then None else Some (child_or_handle record).

Definition graph_named (g : graph) (ref : N) : option N :=
  h ← named_raw g ref;
  match read_live type_live (types (arrays_of g)) (h - 1) with Some _ => Some h | None => None end.

(** Payload, child and kind of a derived type. *)
Definition graph_derived (g : graph) (ref : N) : option (N * N * N) :=
  record ← canonical_record g ref;
  if negb (bool_decide (canonical_kind record = derived_kind)) || (child_or_handle record =? 0) ||
     (size (canonical_types (arrays_of g)) <=? child_or_handle record)
  then None else Some (payload record, child_or_handle record, detail record).

Definition canonical_type_count (g : graph) : N :=
  let values := canonical_types (arrays_of g) in if empty values then 0 else size values - 1.

(** ** Updates *)

(** A vector of the heap, and how many values its storage has room for. *)
Record heap_vector (A : Type) : Type := HeapVector { items : list A; items_capacity : N }.
Arguments HeapVector {A} _ _.
Arguments items {A} _.
Arguments items_capacity {A} _.
Definition swap_in {A} (values : mapped_vector (T := A)) (v : heap_vector A) : mapped_vector (T := A) :=
  (swap_vector values (items v) (items_capacity v)).1.

(** [prepared_graph_update]: what changes, worked out by the builder. *)
Record prepared_graph_update : Type := Update {
  type_patches : list (N * type_entry); new_types : list type_entry; new_identities : list N;
  object_patches : list (N * object_entry); new_objects : list object_entry; new_object_identities : list N;
  link_patches : list (N * link_record); new_links : list link_record;
  new_members : list member_record; new_enum_values : list enum_value_record;
  new_canonical_types : list canonical_type;
  update_intrinsic_refs : list N; named_ref_patches : list (N * N);
  dependency_version_patches : list (N * N);
  pending_edges : list (N * N * N);            (* target, owner, owner version *)
  rebuilt_identity_index : option (heap_vector handle_slot);  (* present: replaces the index *)
  rebuilt_object_identity_index : option (heap_vector handle_slot);
  rebuilt_link_index : option (heap_vector handle_slot);
  rebuilt_derived_index : option (heap_vector derived_slot);
  update_counts : N * N * N * N }.             (* derived entries, live types, objects, links *)

Definition with_indexes (g : graph) (x : indexes) : graph :=
  GraphState (baseline_backed_graph g) (arrays_of g) x (counts_of g).
Definition set_identity_index (g : graph) t :=
  let x := indexes_of g in with_indexes g (Indexes t (object_identity_index x) (link_index x) (derived_index x)).
Definition set_object_identity_index (g : graph) t :=
  let x := indexes_of g in with_indexes g (Indexes (identity_index x) t (link_index x) (derived_index x)).
Definition set_link_index (g : graph) t :=
  let x := indexes_of g in with_indexes g (Indexes (identity_index x) (object_identity_index x) t (derived_index x)).
Definition set_derived_index (g : graph) t :=
  let x := indexes_of g in with_indexes g (Indexes (identity_index x) (object_identity_index x) (link_index x) t).
Definition with_arrays (g : graph) (a : arrays) : graph :=
  GraphState (baseline_backed_graph g) a (indexes_of g) (counts_of g).
Definition set_heads (g : graph) t :=
  let a := arrays_of g in
  with_arrays g (Arrays (types a) (identities a) (member_records a) (enum_value_records a) (object_entries a)
    (object_identities a) (link_records a) (canonical_types a) (named_refs a) (dependency_versions a) t
    (dependency_edges a)).

Definition count_of {A} (l : list A) : N := N.of_nat (length l).

(** A heap graph must have the capacity already. *)
Definition overflows {A} (values : mapped_vector (T := A)) (more : N) : bool := capacity values <? size values + more.

Definition needs_rebuild (g : graph) (u : prepared_graph_update) : bool :=
  let a := arrays_of g in
  overflows (member_records a) (count_of (new_members u)) ||
  overflows (enum_value_records a) (count_of (new_enum_values u)) ||
  overflows (canonical_types a) (count_of (new_canonical_types u)) ||
  overflows (types a) (count_of (new_types u)) ||
  overflows (identities a) (count_of (new_identities u)) ||
  overflows (object_entries a) (count_of (new_objects u)) ||
  overflows (object_identities a) (count_of (new_object_identities u)) ||
  overflows (link_records a) (count_of (new_links u)) ||
  overflows (named_refs a) (count_of (new_types u)) ||
  overflows (dependency_versions a) (count_of (new_types u)) ||
  overflows (reverse_dependency_heads a) (count_of (new_types u)) ||
  overflows (dependency_edges a) (count_of (pending_edges u)).

Section updates.
Context (grown : N → N → N).

Definition reserve_more {A} (values : mapped_vector (T := A)) (more : N) : mapped_vector :=
  reserve grown values (size values + more).

Definition reserve_all (a : arrays) (u : prepared_graph_update) : arrays :=
  Arrays (reserve_more (types a) (count_of (new_types u)))
    (reserve_more (identities a) (count_of (new_identities u)))
    (reserve_more (member_records a) (count_of (new_members u)))
    (reserve_more (enum_value_records a) (count_of (new_enum_values u)))
    (reserve_more (object_entries a) (count_of (new_objects u)))
    (reserve_more (object_identities a) (count_of (new_object_identities u)))
    (reserve_more (link_records a) (count_of (new_links u)))
    (reserve_more (canonical_types a) (count_of (new_canonical_types u)))
    (reserve_more (named_refs a) (count_of (new_types u)))
    (reserve_more (dependency_versions a) (count_of (new_types u)))
    (reserve_more (reverse_dependency_heads a) (count_of (new_types u)))
    (reserve_more (dependency_edges a) (count_of (pending_edges u))).

(** Touching the slots of a list of keys; the first that cannot be touched ends it. *)
Fixpoint touch_all {V} `{!Inhabited V} (o : oracle) (key : V → N)
    (slots : mapped_vector (T := handle_slot)) (values : mapped_vector (T := V)) (ks : list N) :
    option (mapped_vector (T := handle_slot) * status_code) :=
  match ks with
  | [] => Some (slots, ok)
  | k :: ks' =>
      if k =? 0 then Some (slots, rebuild_required)
      else
        '(slots, touched) ← touch_slot key identity_hash (o 0%nat) slots values k;
        if negb touched then Some (slots, rebuild_required)
        else touch_all (λ n, o (S n)) key slots values ks'
  end.

Fixpoint touch_links (o : oracle) (slots : mapped_vector (T := handle_slot)) (links : list link_record) :
    option (mapped_vector (T := handle_slot) * status_code) :=
  match links with
  | [] => Some (slots, ok)
  | l :: links' =>
      '(slots, result) ← touch_vacant (λ s, handle s =? 0) (o 0%nat) slots
                           (endpoint_hash (RuntimeLayout.link_target l));
      if status_ok result then touch_links (λ n, o (S n)) slots links' else Some (slots, result)
  end.

Fixpoint touch_derived (o : oracle) (slots : mapped_vector (T := derived_slot)) (records : list canonical_type) :
    option (mapped_vector (T := derived_slot) * status_code) :=
  match records with
  | [] => Some (slots, ok)
  | r :: records' =>
      if negb (bool_decide (canonical_kind r = derived_kind)) then touch_derived o slots records'
      else if empty slots then Some (slots, rebuild_required)
      else
        '(slots, result) ← touch_vacant (λ s, type_ref s =? 0) (o 0%nat) slots
                             (derived_hash (detail r) (child_or_handle r) (payload r));
        if status_ok result then touch_derived (λ n, o (S n)) slots records' else Some (slots, result)
  end.

Fixpoint touch_heads (o : oracle) (heads : mapped_vector (T := N)) (edges : list (N * N * N)) :
    option (mapped_vector (T := N) * status_code) :=
  match edges with
  | [] => Some (heads, ok)
  | (target, _, _) :: edges' =>
      if no_slot heads target then Some (heads, invalid_argument)
      else '(heads, _) ← at_mutable (o 0%nat) heads (target - 1); touch_heads (λ n, o (S n)) heads edges'
  end.

(** [read_status] of all the arrays. *)
Definition read_ok {A} (values : mapped_vector (T := A)) : bool := status_ok (read_failure values).
Definition reads_ok (g : graph) : bool :=
  let a := arrays_of g in let x := indexes_of g in
  read_ok (types a) && read_ok (identities a) && read_ok (member_records a) && read_ok (enum_value_records a) &&
  read_ok (object_entries a) && read_ok (object_identities a) && read_ok (link_records a) &&
  read_ok (canonical_types a) && read_ok (identity_index x) && read_ok (object_identity_index x) &&
  read_ok (link_index x) && read_ok (named_refs a) && read_ok (derived_index x) && read_ok (dependency_versions a) &&
  read_ok (reverse_dependency_heads a) && read_ok (dependency_edges a).

(** [memory]: whether the reservations succeed. *)
Definition prepare_sparse_publication (o : nat → oracle) (reserved : bool) (g : graph) (u : prepared_graph_update) :
    option (graph * status_code) :=
  if negb (baseline_backed_graph g) then Some (g, if needs_rebuild g u then rebuild_required else ok)
  else if negb reserved then Some (g, not_available)
  else
    let g := with_arrays g (reserve_all (arrays_of g) u) in
    '(t, result) ← match rebuilt_identity_index u with
                   | Some _ => Some (identity_index (indexes_of g), ok)
                   | None => touch_all (o 0%nat) id (identity_index (indexes_of g)) (identities (arrays_of g)) (new_identities u)
                   end;
    let g := set_identity_index g t in
    if negb (status_ok result) then Some (g, result)
    else
      '(t, result) ← match rebuilt_object_identity_index u with
                     | Some _ => Some (object_identity_index (indexes_of g), ok)
                     | None => touch_all (o 1%nat) id (object_identity_index (indexes_of g))
                                 (object_identities (arrays_of g)) (new_object_identities u)
                     end;
      let g := set_object_identity_index g t in
      if negb (status_ok result) then Some (g, result)
      else
        '(t, result) ← match rebuilt_link_index u with
                       | Some _ => Some (link_index (indexes_of g), ok)
                       | None => touch_links (o 2%nat) (link_index (indexes_of g)) (new_links u)
                       end;
        let g := set_link_index g t in
        if negb (status_ok result) then Some (g, result)
        else
          '(t, result) ← match rebuilt_derived_index u with
                         | Some _ => Some (derived_index (indexes_of g), ok)
                         | None => touch_derived (o 3%nat) (derived_index (indexes_of g)) (new_canonical_types u)
                         end;
          let g := set_derived_index g t in
          if negb (status_ok result) then Some (g, result)
          else
            '(t, result) ← touch_heads (o 4%nat) (reverse_dependency_heads (arrays_of g)) (pending_edges u);
            let g := set_heads g t in
            if negb (status_ok result) then Some (g, result)
            else Some (g, if reads_ok g then ok else artifact_corrupt).

(** *** Publication *)

Definition append_prepared {A} (values : mapped_vector (T := A)) (news : list A) : mapped_vector :=
  foldl (push_back grown) values news.

(** [values[patch.handle - 1] = patch.value] for each patch. *)
Fixpoint patch_all {A} `{!Inhabited A} (o : oracle) (values : mapped_vector (T := A)) (patches : list (N * A)) :
    option (mapped_vector (T := A)) :=
  match patches with
  | [] => Some values
  | (index, v) :: patches' =>
      values ← store (o 0%nat) values index v;
      patch_all (λ n, o (S n)) values patches'
  end.

(** Patches are by handle, of the named references by the handle itself. *)
Definition by_slot {A} (patches : list (N * A)) : list (N * A) := prod_map (λ h, h - 1) id <$> patches.

(** A reverse dependency is pushed and becomes the head of its target's chain. *)
Fixpoint push_edges (o : nat → oracle) (heads : mapped_vector (T := N)) (edges : mapped_vector (T := dependency_edge))
    (pending : list (N * N * N)) : option (mapped_vector (T := N) * mapped_vector (T := dependency_edge)) :=
  match pending with
  | [] => Some (heads, edges)
  | (target, owner, version) :: pending' =>
      '(heads, p) ← at_mutable (o 0%nat 0%nat) heads (target - 1);
      let edges := push_back grown edges (DependencyEdge owner (deref heads p) version) in
      heads ← store (o 0%nat 1%nat) heads (target - 1) (w32 (size edges));
      push_edges (λ n, o (S n)) heads edges pending'
  end.

(** The index that replaces, or the old one with the new keys. *)
Definition publish_index {V K} `{!Inhabited V} `{!EqDecision K} (o : nat → oracle) (key : V → K) (hash : K → N)
    (rebuilt : option (heap_vector handle_slot)) (slots : mapped_vector (T := handle_slot)) (values : mapped_vector (T := V))
    (ks : list K) (old_slots : N) : option (mapped_vector (T := handle_slot) * mapped_vector (T := V)) :=
  match rebuilt with
  | Some table => Some (swap_in slots table, values)
  | None => insert_all key hash o slots values ks (old_slots + 1)
  end.

Fixpoint insert_derived (o : nat → oracle) (slots : mapped_vector (T := derived_slot)) (records : list canonical_type)
    (ref : N) : option (mapped_vector (T := derived_slot)) :=
  match records with
  | [] => Some slots
  | r :: records' =>
      if bool_decide (canonical_kind r = derived_kind) then
        slots ← insert_derived_index (o 0%nat) slots r (w32 ref);
        insert_derived (λ n, o (S n)) slots records' (ref + 1)
      else insert_derived (λ n, o (S n)) slots records' (ref + 1)
  end.

(** [publish_prepared] of an update; [None] is a loop that would not end. *)
Definition publish_prepared (o : nat → nat → oracle) (g : graph) (u : prepared_graph_update) : option graph :=
  let a := arrays_of g in let x := indexes_of g in
  types_ ← patch_all (o 0%nat 0%nat) (append_prepared (types a) (new_types u)) (by_slot (type_patches u));
  objects_ ← patch_all (o 1%nat 0%nat) (append_prepared (object_entries a) (new_objects u)) (by_slot (object_patches u));
  links_ ← patch_all (o 2%nat 0%nat) (append_prepared (link_records a) (new_links u)) (by_slot (link_patches u));
  named_ ← patch_all (o 3%nat 0%nat) (append_prepared (named_refs a) (const 0 <$> new_types u)) (named_ref_patches u);
  '(identity_index_, identities_) ←
    publish_index (o 4%nat) id identity_hash (rebuilt_identity_index u) (identity_index x)
      (append_prepared (identities a) (new_identities u)) (new_identities u) (size (types a));
  '(object_index_, object_identities_) ←
    publish_index (o 5%nat) id identity_hash (rebuilt_object_identity_index u) (object_identity_index x)
      (append_prepared (object_identities a) (new_object_identities u)) (new_object_identities u) (size (object_entries a));
  '(link_index_, links_) ←
    publish_index (o 6%nat) RuntimeLayout.link_target endpoint_hash (rebuilt_link_index u) (link_index x) links_
      (RuntimeLayout.link_target <$> new_links u) (size (link_records a));
  derived_index_ ←
    match rebuilt_derived_index u with
    | Some table => Some (swap_in (derived_index x) table)
    | None => insert_derived (o 7%nat) (derived_index x) (new_canonical_types u) (size (canonical_types a))
    end;
  versions_ ← patch_all (o 8%nat 0%nat) (append_prepared (dependency_versions a) (const 1 <$> new_types u))
                (by_slot (dependency_version_patches u));
  '(heads_, edges_) ← push_edges (o 9%nat) (append_prepared (reverse_dependency_heads a) (const 0 <$> new_types u))
                        (dependency_edges a) (pending_edges u);
  let '(entries, live_types, live_objects, live_links) := update_counts u in
  Some (GraphState (baseline_backed_graph g)
    (Arrays types_ identities_ (append_prepared (member_records a) (new_members u))
      (append_prepared (enum_value_records a) (new_enum_values u)) objects_ object_identities_ links_
      (append_prepared (canonical_types a) (new_canonical_types u)) named_ versions_ heads_ edges_)
    (Indexes identity_index_ object_index_ link_index_ derived_index_)
    (Counts entries live_types live_objects live_links (update_intrinsic_refs u))).
End updates.

(** *** A complete generation *)

(** [prepared_graph_generation], its vectors grouped like the graph's. *)
Record prepared_graph_generation : Type := Generation {
  new_generation_types : heap_vector type_entry; generation_identities : heap_vector N;
  generation_members : heap_vector member_record; generation_enum_values : heap_vector enum_value_record;
  generation_objects : heap_vector object_entry; generation_object_identities : heap_vector N;
  generation_links : heap_vector link_record; generation_canonical_types : heap_vector canonical_type;
  generation_identity_index : heap_vector handle_slot; generation_object_identity_index : heap_vector handle_slot;
  generation_link_index : heap_vector handle_slot; generation_named_refs : heap_vector N;
  generation_derived_index : heap_vector derived_slot;
  generation_versions : heap_vector N; generation_heads : heap_vector N;
  generation_edges : heap_vector dependency_edge;
  generation_counts : counts }.

(** [publish_prepared] of a generation.  The images of the graph stay, behind no vector. *)
Definition publish_generation (g : graph) (n : prepared_graph_generation) : graph :=
  let a := arrays_of g in let x := indexes_of g in
  GraphState (baseline_backed_graph g)
    (Arrays (swap_in (types a) (new_generation_types n)) (swap_in (identities a) (generation_identities n))
      (swap_in (member_records a) (generation_members n)) (swap_in (enum_value_records a) (generation_enum_values n))
      (swap_in (object_entries a) (generation_objects n)) (swap_in (object_identities a) (generation_object_identities n))
      (swap_in (link_records a) (generation_links n)) (swap_in (canonical_types a) (generation_canonical_types n))
      (swap_in (named_refs a) (generation_named_refs n)) (swap_in (dependency_versions a) (generation_versions n))
      (swap_in (reverse_dependency_heads a) (generation_heads n)) (swap_in (dependency_edges a) (generation_edges n)))
    (Indexes (swap_in (identity_index x) (generation_identity_index n))
      (swap_in (object_identity_index x) (generation_object_identity_index n))
      (swap_in (link_index x) (generation_link_index n)) (swap_in (derived_index x) (generation_derived_index n)))
    (generation_counts n).

(** What [release_compiled_generation_storage] moves out. *)
Record compiled_graph_generation_storage : Type := Storage {
  storage_types : list type_entry; storage_type_identities : list N;
  storage_members : list member_record; storage_enum_values : list enum_value_record;
  storage_objects : list object_entry; storage_object_identities : list N;
  storage_links : list link_record; storage_canonical_types : list canonical_type;
  storage_type_index : list handle_slot; storage_object_index : list handle_slot; storage_link_index : list handle_slot;
  live_types : N; live_objects : N; live_links : N }.
Definition empty_storage : compiled_graph_generation_storage := Storage [] [] [] [] [] [] [] [] [] [] [] 0 0 0.

Definition any_baseline (g : graph) : bool :=
  let a := arrays_of g in let x := indexes_of g in
  baseline_backed_graph g || baseline_backed (types a) || baseline_backed (identities a) ||
  baseline_backed (member_records a) || baseline_backed (enum_value_records a) ||
  baseline_backed (object_entries a) || baseline_backed (object_identities a) ||
  baseline_backed (link_records a) || baseline_backed (canonical_types a) ||
  baseline_backed (identity_index x) || baseline_backed (object_identity_index x) || baseline_backed (link_index x).

Definition release_compiled_generation_storage (g : graph) : graph * status_code * compiled_graph_generation_storage :=
  if any_baseline g then (g, invalid_state, empty_storage)
  else
    let a := arrays_of g in let x := indexes_of g in let c := counts_of g in
    let '(types_, t1) := release_local_values (types a) in
    let '(identities_, t2) := release_local_values (identities a) in
    let '(members_, t3) := release_local_values (member_records a) in
    let '(enum_values_, t4) := release_local_values (enum_value_records a) in
    let '(objects_, t5) := release_local_values (object_entries a) in
    let '(object_identities_, t6) := release_local_values (object_identities a) in
    let '(links_, t7) := release_local_values (link_records a) in
    let '(canonical_types_, t8) := release_local_values (canonical_types a) in
    let '(type_index_, t9) := release_local_values (identity_index x) in
    let '(object_index_, t10) := release_local_values (object_identity_index x) in
    let '(link_index_, t11) := release_local_values (link_index x) in
    (GraphState (baseline_backed_graph g)
       (Arrays types_ identities_ members_ enum_values_ objects_ object_identities_ links_ canonical_types_
         (named_refs a) (dependency_versions a) (reverse_dependency_heads a) (dependency_edges a))
       (Indexes type_index_ object_index_ link_index_ (derived_index x))
       (Counts (derived_index_entries c) 0 0 0 (intrinsic_refs c)),
     ok,
     Storage t1 t2 t3 t4 t5 t6 t7 t8 t9 t10 t11 (live_type_count c) (live_object_count c) (live_link_count c)).

(** [bytes] of what was moved out, by the sizes the source asserts. *)
Definition storage_bytes (t : compiled_graph_generation_storage) : N :=
  count_of (storage_types t) * 12 + count_of (storage_type_identities t) * 4 +
  count_of (storage_members t) * 28 + count_of (storage_enum_values t) * 16 +
  count_of (storage_objects t) * 8 + count_of (storage_object_identities t) * 4 +
  count_of (storage_links t) * 16 + count_of (storage_canonical_types t) * 16 +
  count_of (storage_type_index t) * 8 + count_of (storage_object_index t) * 8 + count_of (storage_link_index t) * 8.

(** *** Storage use *)

(** Retained and reserve bytes, added to. *)
Definition add_vector {A} (values : mapped_vector (T := A)) (bytes : N) (used : N * N) : N * N :=
  (used.1 + heap_record_capacity values * bytes,
   if local_size values <? local_capacity values then used.2 + (local_capacity values - local_size values) * bytes else used.2).

Definition add_index {A} (values : mapped_vector (T := A)) (bytes entries : N) (used : N * N) : N * N :=
  (used.1 + heap_record_capacity values * bytes,
   let safe_entries := size values / 2 in
   if negb (baseline_backed values) && (entries <? safe_entries) then used.2 + (safe_entries - entries) * bytes else used.2).

Definition stale_count (physical live : N) : N := if live <? physical then physical - live else 0.

(** Retained, reserve and stale bytes. *)
Definition storage_usage (g : graph) (live_members live_enum_values : N) : N * N * N :=
  let a := arrays_of g in let x := indexes_of g in let c := counts_of g in
  let used := add_vector (dependency_edges a) 12 (add_vector (reverse_dependency_heads a) 4
    (add_vector (dependency_versions a) 4 (add_vector (named_refs a) 4 (add_vector (canonical_types a) 16
    (add_vector (link_records a) 16 (add_vector (object_identities a) 4 (add_vector (object_entries a) 8
    (add_vector (enum_value_records a) 16 (add_vector (member_records a) 28 (add_vector (identities a) 4
    (add_vector (types a) 12 (0, 0)))))))))))) in
  let used := add_index (derived_index x) 8 (derived_index_entries c) (add_index (link_index x) 8 (size (link_records a))
    (add_index (object_identity_index x) 8 (size (object_identities a))
    (add_index (identity_index x) 8 (size (identities a)) used))) in
  (used,
   stale_count (size (types a)) (live_type_count c) * (12 + 4 + 4 + 4 + 4) +
   stale_count (size (member_records a)) live_members * 28 +
   stale_count (size (enum_value_records a)) live_enum_values * 16 +
   stale_count (size (object_entries a)) (live_object_count c) * (8 + 4) +
   stale_count (size (link_records a)) (live_link_count c) * 16 +
   stale_count (size (dependency_edges a)) live_members * 12).

End Graph.
