(* ===== verification/GraphLookup.v ===== *)
(** * Index tables of the graph

    The theory of the three index tables of [Graph] that find a handle: what a table is over
    the values it indexes, that a lookup in one is exact, and that an insertion, whatever its
    allocations do, either is recorded as failed or extends the table by the new value. *)

From S2P Require Import Prelude Probing MappedVector Graph.

Local Open Scope N_scope.

Module GraphLookup.

Import Probing MappedVector Graph.

(** Every record can be read. *)
Definition readable {A} `{!Inhabited A} (mv : mapped_vector (T := A)) : Prop :=
  ∀ j, j < size mv → is_Some (contents mv j).

Lemma same_frame_readable {A} `{!Inhabited A} (mv mv' : mapped_vector (T := A)) :
  same_frame mv mv' → size mv' = size mv ∧ (readable mv → readable mv').
Proof.
  intros [F1 F2 F3 F4]. assert (E : size mv' = size mv) by (unfold size, local_size; by rewrite F1, F3).
  split; [done|]. intros H j Hj. rewrite F4. apply H. by rewrite <-E.
Qed.

Lemma same_frame_refl {A} `{!Inhabited A} (mv : mapped_vector (T := A)) : same_frame mv mv.
Proof. by constructor. Qed.

Section index.
Context {V K : Type} `{!Inhabited V} `{!EqDecision K} (key : V → K) (hash : K → N).

Notation table := (mapped_vector (T := handle_slot)).
Notation vector := (mapped_vector (T := V)).

(** The occupied slot at a position. *)
Definition slot_at (slots : table) (p : N) : option handle_slot :=
  s ← contents slots p; if handle s =? 0 then None else Some s.

Definition home_of (slots : table) (k : K) : N := N.land (hash k) (size slots - 1).

(** The key of the value a slot leads to. *)
Definition slot_key (values : vector) (s : handle_slot) : K := key (default initial (contents values (handle s - 1))).

(** A table of some of the first [n] values. *)
Record tabled (n : N) (slots : table) (values : vector) : Prop := Tabled {
  ix_slots : wf slots; ix_values : wf values;
  ix_power : power_of_two (size slots);
  ix_readable : readable slots; ix_values_readable : readable values;
  ix_bound : n <= size values;
  ix_sound p s : slot_at slots p = Some s →
    1 <= handle s <= n ∧ fingerprint s = fold32 (hash (slot_key values s));
  ix_distinct p q s t : slot_at slots p = Some s → slot_at slots q = Some t → handle s = handle t → p = q;
  ix_chained : chained (size slots) (λ s, home_of slots (slot_key values s)) (slot_at slots);
}.

(** The table of the first [n] values. *)
Definition complete (n : N) (slots : table) : Prop :=
  ∀ i, i < n → ∃ p s, slot_at slots p = Some s ∧ handle s = i + 1.
Definition indexed (n : N) (slots : table) (values : vector) : Prop := tabled n slots values ∧ complete n slots.

(** No two of the first [n] values have one key. *)
Definition keys_distinct (n : N) (values : vector) : Prop :=
  ∀ i j v w, i < n → j < n → contents values i = Some v → contents values j = Some w → key v = key w → i = j.

Lemma slot_at_Some slots p s : slot_at slots p = Some s ↔ contents slots p = Some s ∧ handle s ≠ 0.
Proof.
  unfold slot_at. destruct (contents slots p) as [s'|]; cbn; [|naive_solver].
  destruct (N.eqb_spec (handle s') 0); naive_solver.
Qed.

Lemma slot_at_lt slots p s : slot_at slots p = Some s → p < size slots.
Proof. intros [H _]%slot_at_Some. by eapply contents_size. Qed.

Lemma home_of_lt slots k : power_of_two (size slots) → home_of slots k < size slots.
Proof. intros Hp. unfold home_of. rewrite land_mask by done. apply N.mod_lt. pose proof (power_of_two_pos _ Hp). lia. Qed.

Lemma slot_key_contents n slots values p s : tabled n slots values → slot_at slots p = Some s →
  ∃ v, contents values (handle s - 1) = Some v ∧ slot_key values s = key v.
Proof.
  intros I Hs. destruct (ix_sound _ _ _ I p s Hs) as [Hh _]. pose proof (ix_bound _ _ _ I).
  destruct (ix_values_readable _ _ _ I (handle s - 1)) as [v Hv]; [lia|]. exists v. split; [done|].
  unfold slot_key. by rewrite Hv.
Qed.

(** The lookup loop is the walk of [Probing]. *)
Lemma find_slot_seek n slots values k : tabled n slots values →
  find_slot key hash slots values k =
  match probe (seek (slot_at slots) (λ s, bool_decide (slot_key values s = k))) (size slots - 1) (N.to_nat (size slots))
          (home_of slots k) with
  | Some (Some s) => handle s
  | _ => 0
  end.
Proof.
  intros I. unfold find_slot. fold (home_of slots k).
  pose proof (home_of_lt slots k (ix_power _ _ _ I)) as Hlt.
  rewrite (probe_ext_lt _ (λ q, (λ r, match r with Some s => handle s | None => 0 end) <$>
    seek (slot_at slots) (λ s, bool_decide (slot_key values s = k)) q)) with (2 := Hlt).
  - rewrite probe_fmap. destruct (probe _ _ _ _) as [[s|]|]; done.
  - apply (ix_power _ _ _ I).
  - intros q Hq. unfold visit_slot, seek.
    destruct (ix_readable _ _ _ I q Hq) as [s Hs]. rewrite (read_some _ _ _ (ix_slots _ _ _ I) Hs). cbn.
    unfold slot_at. rewrite Hs. cbn. destruct (N.eqb_spec (handle s) 0) as [H0|H0]; [done|].
    assert (Hat : slot_at slots q = Some s) by by apply slot_at_Some.
    destruct (ix_sound _ _ _ I q s Hat) as [Hh Hf]. destruct (slot_key_contents _ _ _ _ _ I Hat) as (v & Hv & Hk).
    rewrite Hf, Hk. pose proof (ix_bound _ _ _ I).
    destruct (N.leb_spec (handle s) (size values)); [|lia]. rewrite (read_some _ _ _ (ix_values _ _ _ I) Hv).
    case_bool_decide as Hkk; [by rewrite Hkk, N.eqb_refl|].
    by destruct (fold32 (hash (key v)) =? fold32 (hash k)).
Qed.

(** The lookup is exact. *)
Lemma find_slot_hit n slots values i v : indexed n slots values → keys_distinct n values →
  i < n → contents values i = Some v → find_slot key hash slots values (key v) = i + 1.
Proof.
  intros [I Hc] Hd Hi Hv. rewrite (find_slot_seek n) by done.
  destruct (Hc i Hi) as (p & s & Hp & Hh).
  assert (Hks : slot_key values s = key v).
  { unfold slot_key. rewrite Hh. replace (i + 1 - 1) with i by lia. by rewrite Hv. }
  rewrite (seek_hit (size slots) (λ s, home_of slots (slot_key values s)) (ix_power _ _ _ I)
    (λ e, home_of_lt _ _ (ix_power _ _ _ I)) (slot_at slots) _ (home_of slots (key v)) p s);
    [done|apply (ix_chained _ _ _ I)|by eapply slot_at_lt|done|by rewrite Hks| |].
  - by apply bool_decide_eq_true.
  - intros q t Hq Ht Hm%bool_decide_eq_true. destruct (ix_sound _ _ _ I q t Ht) as [Hht _].
    destruct (slot_key_contents _ _ _ _ _ I Ht) as (w & Hw & Hkw).
    assert (Hq' : handle t - 1 = i) by (apply (Hd (handle t - 1) i w v); [lia|done|done|done|congruence]).
    assert (q = p) as -> by (eapply (ix_distinct _ _ _ I); [done|done|lia]). congruence.
Qed.

Lemma find_slot_miss n slots values k : indexed n slots values →
  (∀ i v, i < n → contents values i = Some v → key v ≠ k) → find_slot key hash slots values k = 0.
Proof.
  intros [I _] Hno. rewrite (find_slot_seek n) by done.
  destruct (seek_miss (size slots) (ix_power _ _ _ I) (slot_at slots) (λ s, bool_decide (slot_key values s = k))
    (home_of slots k)) as [-> | ->]; try done.
  - apply home_of_lt, (ix_power _ _ _ I).
  - intros q s _ Hs. apply bool_decide_eq_false. destruct (ix_sound _ _ _ I q s Hs) as [Hh _].
    destruct (slot_key_contents _ _ _ _ _ I Hs) as (v & Hv & ->). apply (Hno (handle s - 1)); [lia|done].
Qed.

(** A table with fewer values than slots has a vacant slot, which the walk reaches. *)
Lemma vacant_exists n slots values : tabled n slots values → n < size slots →
  ∃ p, p < size slots ∧ slot_at slots p = None.
Proof.
  intros I Hn. set (ps := N.of_nat <$> seq 0 (N.to_nat (size slots))).
  destruct (decide (Exists (λ p, slot_at slots p = None) ps)) as [(p & Hp & Hv)%Exists_exists|Hall].
  { apply list_elem_of_fmap in Hp as (i & -> & Hi%elem_of_seq). exists (N.of_nat i). split; [lia|done]. }
  exfalso. set (hs := (λ p, match slot_at slots p with Some s => handle s | None => 0 end) <$> ps).
  assert (Hocc : ∀ p, p ∈ ps → ∃ s, slot_at slots p = Some s).
  { intros p Hp. destruct (slot_at slots p) as [s|] eqn:E; [eauto|]. destruct Hall. apply Exists_exists. eauto. }
  assert (Hlen : length hs = N.to_nat (size slots)) by (unfold hs, ps; by rewrite !length_fmap, length_seq).
  assert (Hsub : hs ⊆+ (N.of_nat <$> seq 1 (N.to_nat n))).
  { apply NoDup_submseteq.
    - apply NoDup_fmap_2_strong; [|apply NoDup_fmap_2; [intros ?? ?; lia|apply NoDup_seq]].
      intros p q Hp Hq. destruct (Hocc p Hp) as [s Hs], (Hocc q Hq) as [t Ht]. rewrite Hs, Ht.
      by apply (ix_distinct _ _ _ I).
    - intros h (p & -> & Hp)%list_elem_of_fmap. destruct (Hocc p Hp) as [s Hs]. rewrite Hs.
      destruct (ix_sound _ _ _ I p s Hs) as [Hh _]. apply list_elem_of_fmap. exists (N.to_nat (handle s)).
      split; [lia|]. apply elem_of_seq. lia. }
  apply submseteq_length in Hsub. rewrite Hlen, length_fmap, length_seq in Hsub. lia.
Qed.

Lemma first_vacant n slots values k : tabled n slots values → n < size slots →
  ∃ d : nat, (d < N.to_nat (size slots))%nat ∧ slot_at slots (ahead (size slots) (home_of slots k) d) = None ∧
    ∀ j, (j < d)%nat → is_Some (slot_at slots (ahead (size slots) (home_of slots k) j)).
Proof.
  intros I Hn. destruct (vacant_exists n slots values I Hn) as (p & Hp & Hv).
  pose proof (home_of_lt slots k (ix_power _ _ _ I)) as Hlt.
  set (visit q := match slot_at slots q with None => Some tt | Some _ => None end).
  destruct (probe_stops visit (size slots) (ix_power _ _ _ I) (home_of slots k) p tt) as [[] Hr];
    [done|done|unfold visit; by rewrite Hv|].
  destruct (proj1 (probe_Some visit _ (ix_power _ _ _ I) _ _ _ Hlt) Hr) as (d & Hd & Hvd & Hj). exists d. unfold visit in *.
  split_and!; [done| |].
  - by destruct (slot_at slots (ahead (size slots) (home_of slots k) d)).
  - intros j Hjd. specialize (Hj j Hjd). by destruct (slot_at slots (ahead (size slots) (home_of slots k) j)).
Qed.

(** ** Insertion *)

(** What an insertion leaves, if no access failed. *)
Definition inserted (slots slots' : table) (p : N) (s : handle_slot) : Prop :=
  ∀ q, contents slots' q = if decide (q = p) then Some s else contents slots q.

(** Either nothing or the slot is in the table, and it is unless a failure was recorded. *)
Record walked (slots slots' : table) (values values' : vector) (p : N) (s : handle_slot) : Prop := Walked {
  wk_slots_sticky : read_ok slots' = true → read_ok slots = true;
  wk_values_sticky : read_ok values' = true → read_ok values = true;
  wk_contents : (∀ q, contents slots' q = contents slots q) ∨ inserted slots slots' p s;
  wk_inserted : read_ok slots' = true → read_ok values' = true → inserted slots slots' p s;
}.

Lemma land_next size_ p : power_of_two size_ → p < size_ → N.land (p + 1) (size_ - 1) = (p + 1) mod size_.
Proof. intros. by apply land_mask. Qed.

(** The insertion walk: it ends, the values stay, failures stay recorded, and without one
    the slot is in the first vacant place. *)
Lemma insert_walk_spec k h home d : ∀ fuel o slots values i,
  wf slots → wf values → power_of_two (size slots) → home < size slots →
  slot_at slots (ahead (size slots) home d) = None →
  (∀ j, (j < d)%nat → ∃ s v, slot_at slots (ahead (size slots) home j) = Some s ∧ handle s ≤ size values ∧
    contents values (handle s - 1) = Some v ∧ key v ≠ k) →
  (i <= d)%nat → (d < i + fuel)%nat →
  ∃ slots' values', insert_walk key hash fuel o slots values k h (ahead (size slots) home i) = Some (slots', values') ∧
    wf slots' ∧ size slots' = size slots ∧ wf values' ∧ same_frame values values' ∧
    walked slots slots' values values' (ahead (size slots) home d) (HandleSlot (fold32 (hash k)) h).
Proof.
  induction fuel as [|fuel IH]; intros o slots values i Ws Wv Hpow Hhome Hvac Hocc Hid Hfuel; [lia|].
  pose proof (power_of_two_pos _ Hpow) as Hpos. set (pos := ahead (size slots) home i).
  assert (Hpl : pos < size slots) by by apply ahead_lt.
  cbn [insert_walk]. destruct (at_mutable_reaches (o 0%nat) slots pos Ws Hpl) as (slots1 & p & -> & R & A). cbn [mbind option_bind].
  destruct (same_frame_readable _ _ (re_frame _ _ _ _ R)) as [Hsz _]. pose proof (re_value _ _ _ _ R) as Hval.
  destruct (decide (p = InFailure)) as [->|Hp].
  { destruct Hval as (_ & Hfail & Hd). rewrite Hd. cbn [initial inhabitant handle_slot_inhabited handle].
    destruct (A (HandleSlot (fold32 (hash k)) h)) as [A1 A2 _ A3 A4]. rewrite decide_True in A4 by done.
    do 2 eexists. split; [done|]. split_and!; try done.
    split; [|done|left; exact A4|]; unfold read_ok; by rewrite A3, Hfail. }
  assert (Hslot : slot_at slots pos = if handle (deref slots1 p) =? 0 then None else Some (deref slots1 p))
    by (unfold slot_at; by rewrite Hval).
  destruct (N.eqb_spec (handle (deref slots1 p)) 0) as [H0|H0].
  { destruct (A (HandleSlot (fold32 (hash k)) h)) as [A1 A2 _ A3 A4]. rewrite decide_False in A4 by done.
    assert (i = d) as ->.
    { destruct (decide (i = d)) as [|Hne]; [done|]. destruct (Hocc i ltac:(lia)) as (s & v & Hs & _).
      fold pos in Hs. congruence. }
    do 2 eexists. split; [done|]. split_and!; try done. split; unfold read_ok; rewrite ?A3; [apply R|done|by right|done]. }
  assert (Hi : (i < d)%nat) by (destruct (decide (i = d)) as [->|]; [fold pos in Hvac; congruence|lia]).
  destruct (Hocc i Hi) as (s & v & Hs & Hh & Hv & Hk). fold pos in Hs. rewrite Hslot in Hs. injection Hs as Hs.
  (* the rest of the walk, from a state with the same contents *)
  assert (Hrest : ∀ values1, wf values1 → same_frame values values1 → (read_ok values1 = true → read_ok values = true) →
    ∃ slots' values', insert_walk key hash fuel (λ n, o (2 + n)%nat) slots1 values1 k h (N.land (pos + 1) (size slots1 - 1))
        = Some (slots', values') ∧
      wf slots' ∧ size slots' = size slots ∧ wf values' ∧ same_frame values values' ∧
      walked slots slots' values values' (ahead (size slots) home d) (HandleSlot (fold32 (hash k)) h)).
  { intros values1 Wv1 Fv Hsticky. rewrite Hsz, land_next by done.
    destruct (same_frame_readable _ _ Fv) as [Hvsz _].
    assert (Hslots : ∀ q, slot_at slots1 q = slot_at slots q).
    { intros q. unfold slot_at. by rewrite (sf_contents _ _ (re_frame _ _ _ _ R)). }
    assert (Hnext : (pos + 1) mod size slots = ahead (size slots1) home (S i)).
    { unfold pos, ahead. rewrite Hsz, N.Div0.add_mod_idemp_l. f_equal. lia. }
    rewrite Hnext.
    destruct (IH (λ n, o (2 + n)%nat) slots1 values1 (S i)) as (slots' & values' & E & B1 & B2 & B3 & B4 & [B5 B6 B7 B8]);
      rewrite ?Hsz, ?Hvsz; try done; try lia.
    - apply (re_wf _ _ _ _ R).
    - by rewrite Hslots.
    - intros j Hj. destruct (Hocc j Hj) as (s' & v' & ? & ? & ? & ?). exists s', v'. rewrite Hslots, (sf_contents _ _ Fv).
      by split_and!.
    - exists slots', values'. rewrite B2, Hsz in *. split_and!; try done.
      + by eapply same_frame_trans.
      + split.
        * intros H. apply (re_sticky _ _ _ _ R), B5, H.
        * auto.
        * destruct B7 as [B7|B7]; [left|right]; intros q; rewrite (B7 q); by rewrite (sf_contents _ _ (re_frame _ _ _ _ R)).
        * intros H1 H2 q. rewrite (B8 H1 H2 q). by rewrite (sf_contents _ _ (re_frame _ _ _ _ R)). }
  destruct (_ && _) eqn:Hfp; [|apply Hrest; [done|apply same_frame_refl|done]].
  assert (Hhs : handle s - 1 < size values) by (subst; lia).
  rewrite Hs. destruct (at_const_reaches (o 1%nat) values (handle s - 1) Wv Hhs) as (values1 & q & -> & Rq). cbn [mbind option_bind].
  pose proof (re_value _ _ _ _ Rq) as Hq. destruct (decide (q = InFailure)) as [->|Hqf].
  - case_bool_decide; [|apply Hrest; apply Rq]. do 2 eexists. split; [done|]. destruct Hq as (_ & Hf & _).
    destruct Rq. split_and!; try done; [apply R|]. split; [apply (re_sticky _ _ _ _ R)|done|left; apply R|].
    unfold read_ok. by rewrite Hf.
  - rewrite Hv in Hq. injection Hq as Hq. rewrite bool_decide_eq_false_2 by (rewrite <-Hq; done). apply Hrest; apply Rq.
Qed.

Lemma same_frame_key values values' s : same_frame values values' → slot_key values' s = slot_key values s.
Proof. intros F. unfold slot_key. by rewrite (sf_contents _ _ F). Qed.

(** A table goes on being one when its slots and the values read the same. *)
Lemma tabled_same n n' slots slots' values values' : tabled n slots values → n <= n' → n' <= size values' →
  wf slots' → wf values' → size slots' = size slots → size values <= size values' →
  (∀ q, contents slots' q = contents slots q) → readable values' →
  (∀ s p, slot_at slots p = Some s → slot_key values' s = slot_key values s) → tabled n' slots' values'.
Proof.
  intros [H1 H2 H3 H4 H5 H6 H7 H8 H9] Hn Hn' Ws Wv Hs Hv Hc Hr Hk.
  assert (Hat : ∀ q, slot_at slots' q = slot_at slots q) by (intros q; unfold slot_at; by rewrite Hc).
  split; try done; rewrite ?Hs; try done.
  - intros j Hj. rewrite Hc. apply H4. by rewrite <-Hs.
  - intros p s. rewrite Hat. intros Hp. destruct (H7 p s Hp). rewrite (Hk s p) by done. split; [lia|done].
  - intros p q s t. rewrite !Hat. apply H8.
  - intros p s Hp. rewrite Hat. intros Hs'. destruct (H9 p s Hp Hs') as (d & Hd & Hlt & Hj). exists d.
    unfold home_of in *. rewrite Hs, (Hk s p) by done. split_and!; [done..|]. intros j Hjd. rewrite Hat. by apply Hj.
Qed.

(** The new slot. *)
Lemma tabled_insert n slots slots' values values' k v d : tabled n slots values → n < size values →
  contents values n = Some v → key v = k → n + 1 < two32 →
  wf slots' → wf values' → size slots' = size slots → same_frame values values' →
  (d < N.to_nat (size slots))%nat → slot_at slots (ahead (size slots) (home_of slots k) d) = None →
  (∀ j, (j < d)%nat → is_Some (slot_at slots (ahead (size slots) (home_of slots k) j))) →
  inserted slots slots' (ahead (size slots) (home_of slots k) d) (HandleSlot (fold32 (hash k)) (n + 1)) →
  tabled (n + 1) slots' values'.
Proof.
  intros I Hn Hv Hk Hw Ws Wv Hs F Hd Hvac Hbefore Hins. set (p := ahead _ _ d) in *.
  set (new := HandleSlot (fold32 (hash k)) (n + 1)) in *.
  assert (Hp : p < size slots) by (apply ahead_lt, (power_of_two_pos _ (ix_power _ _ _ I))).
  assert (Hat : ∀ q, slot_at slots' q = if decide (q = p) then Some new else slot_at slots q).
  { intros q. unfold slot_at. rewrite Hins. case_decide; [|done]. cbn. destruct (N.eqb_spec (n + 1) 0); [lia|done]. }
  assert (Hkey : ∀ s, slot_key values' s = slot_key values s) by (intros; by apply same_frame_key).
  assert (Hnew : slot_key values new = k).
  { unfold slot_key. cbn. replace (n + 1 - 1) with n by lia. by rewrite Hv. }
  destruct (same_frame_readable _ _ F) as [Hvs Hvr]. destruct I as [H1 H2 H3 H4 H5 H6 H7 H8 H9].
  split; try done; rewrite ?Hs; try done.
  - intros j Hj. rewrite Hins. case_decide; [done|]. apply H4. by rewrite <-Hs.
  - by apply Hvr.
  - lia.
  - intros q s. rewrite Hat, Hkey. case_decide as Hq.
    + intros [= <-]. rewrite Hnew. split; [cbn; lia|done].
    + intros Hqs. destruct (H7 q s Hqs). split; [lia|done].
  - intros q1 q2 s t. rewrite !Hat. do 2 case_decide; intros; simplify_eq; try done.
    + destruct (H7 q2 t ltac:(done)) as [? _]. cbn in *. lia.
    + destruct (H7 q1 s ltac:(done)) as [? _]. cbn in *. lia.
    + by eapply H8.
  - apply (chained_insert (size slots) (λ s, home_of slots' (slot_key values' s)) H3 (slot_at slots) (slot_at slots') new d).
    + intros q s Hq Hqs. destruct (H9 q s Hq Hqs) as (d' & ? & ? & ?). exists d'. unfold home_of in *. rewrite Hs, Hkey. done.
    + rewrite Hat. unfold home_of. rewrite Hs, Hkey, Hnew. fold (home_of slots k). by rewrite decide_True.
    + done.
    + intros q Hq. unfold home_of. rewrite Hs, Hkey, Hnew. fold (home_of slots k). intros Hne. rewrite Hat. by rewrite decide_False.
    + intros j Hj. unfold home_of. rewrite Hs, Hkey, Hnew. fold (home_of slots k). by apply Hbefore.
Qed.

(** One insertion. *)
Lemma insert_index_spec o n slots values k v : tabled n slots values → n < size slots → n < size values →
  n + 1 < two32 → contents values n = Some v → key v = k →
  (∀ i w, i < n → contents values i = Some w → key w ≠ k) →
  ∃ slots' values', insert_index key hash o slots values k (n + 1) = Some (slots', values') ∧
    tabled (n + 1) slots' values' ∧ size slots' = size slots ∧ same_frame values values' ∧
    (read_ok slots' = true → read_ok slots = true) ∧ (read_ok values' = true → read_ok values = true) ∧
    (complete n slots → read_ok slots' = true → read_ok values' = true → complete (n + 1) slots').
Proof.
  intros I Hn Hnv Hw Hv Hk Hfresh. pose proof (ix_power _ _ _ I) as Hpow.
  destruct (first_vacant n slots values k I Hn) as (d & Hd & Hvac & Hbefore).
  pose proof (home_of_lt slots k Hpow) as Hhome.
  destruct (insert_walk_spec k (n + 1) (home_of slots k) d (N.to_nat (size slots)) o slots values 0) as
    (slots' & values' & E & Ws & Hs & Wv & F & [K1 K2 K3 K4]); try done; try lia; [apply I..| |].
  { intros j Hj. destruct (Hbefore j Hj) as [s Hsj]. destruct (slot_key_contents _ _ _ _ _ I Hsj) as (w & Hw' & _).
    destruct (ix_sound _ _ _ I _ _ Hsj) as [Hh _]. exists s, w. pose proof (ix_bound _ _ _ I). split_and!; [done|lia|done|].
    apply (Hfresh (handle s - 1)); [lia|done]. }
  rewrite ahead_0 in E by done. exists slots', values'. unfold insert_index. fold (home_of slots k). split; [done|].
  assert (Hins : inserted slots slots' (ahead (size slots) (home_of slots k) d) (HandleSlot (fold32 (hash k)) (n + 1)) →
    tabled (n + 1) slots' values') by (intros; by eapply tabled_insert).
  destruct (same_frame_readable _ _ F) as [Hvs Hvr]. split_and!; try done.
  - destruct K3 as [Hsame|Hi]; [|by apply Hins]. apply (tabled_same n (n + 1) slots slots' values values'); try done; try lia.
    + apply Hvr, I.
    + intros; by apply same_frame_key.
  - intros Hc H1 H2 i Hi. specialize (K4 H1 H2). destruct (decide (i = n)) as [->|Hne].
    + exists (ahead (size slots) (home_of slots k) d), (HandleSlot (fold32 (hash k)) (n + 1)). split; [|done].
      apply slot_at_Some. rewrite (K4 _), decide_True by done. split; [done|cbn; lia].
    + destruct (Hc i) as (p & s & Hp & Hh); [lia|]. exists p, s. split; [|done]. apply slot_at_Some.
      apply slot_at_Some in Hp as Hp'. rewrite (K4 p). case_decide; [congruence|done].
Qed.
End index.

End GraphLookup.
