(* ===== verification/GraphPublication.v ===== *)
(** * Publication of an incremental update

    The contents of a graph as lists, what an update makes of them, and that the two steps
    of [Graph] do that: the preparation changes nothing that the graph says, and the
    publication ends with the new lists in the arrays and in the index tables, unless a
    failed access was recorded. *)

From S2P Require Import Prelude Probing MappedVector RuntimeLayout Graph GraphLookup.

Local Open Scope N_scope.

Module GraphPublication.

Import Probing MappedVector Graph GraphLookup.

(** ** Vectors that hold lists *)

Section vectors.
Context {A : Type} `{!Inhabited A}.
Implicit Types (mv : mapped_vector (T := A)) (l : list A).

Record holds mv l : Prop := Holds {
  h_wf : wf mv;
  h_size : size mv = count_of l;
  h_contents i : contents mv i = l !! N.to_nat i;
}.

(** The records of an update's patches replace, the later ones last. *)
Definition patched (patches : list (N * A)) l : list A := foldl (λ l p, <[N.to_nat p.1 := p.2]> l) l patches.

Lemma length_patched patches l : length (patched patches l) = length l.
Proof.
  unfold patched. revert l. induction patches as [|p patches IH]; intros l; [done|]. cbn [foldl].
  rewrite IH. apply length_insert.
Qed.

Lemma holds_readable mv l : holds mv l → readable mv.
Proof. intros [W Hs Hc] j Hj. rewrite Hc. apply lookup_lt_is_Some_2. unfold count_of in Hs. lia. Qed.

Lemma holds_frame mv mv' l : holds mv l → wf mv' → same_frame mv mv' → holds mv' l.
Proof.
  intros [W Hs Hc] W' F. split; [done| |intros i; by rewrite (sf_contents _ _ F)].
  rewrite <-Hs. unfold size, local_size. by rewrite (sf_baseline _ _ F), (sf_local _ _ F).
Qed.

Lemma append_prepared_holds grown vs mv l : holds mv l →
  holds (append_prepared grown mv vs) (l ++ vs) ∧ read_failure (append_prepared grown mv vs) = read_failure mv.
Proof.
  unfold append_prepared. revert mv l. induction vs as [|v vs IH]; intros mv l [W Hs Hc]; cbn [foldl].
  { by rewrite app_nil_r. }
  destruct (push_back_spec grown mv v W) as (W1 & Hs1 & Hf & Hc1).
  destruct (IH (push_back grown mv v) (l ++ [v])) as [IH1 IH2].
  - split; [done| |].
    + rewrite Hs1, Hs. unfold count_of. rewrite length_app. cbn. lia.
    + intros i. rewrite Hc1, Hc. unfold count_of in Hs. case_decide as Hi.
      * subst i. rewrite Hs, Nat2N.id, lookup_app_r, Nat.sub_diag; done.
      * destruct (Nat.lt_ge_cases (N.to_nat i) (length l)); [by rewrite lookup_app_l|].
        rewrite (lookup_ge_None_2 l), lookup_ge_None_2; [done|rewrite length_app; cbn; lia|lia].
  - rewrite <-app_assoc in IH1. split; [exact IH1|congruence].
Qed.

(** A store in a vector whose other records read as before. *)
Lemma store_holds m mv i v : wf mv → i < size mv → ∃ mv', store m mv i v = Some mv' ∧
  wf mv' ∧ size mv' = size mv ∧ (read_ok mv' = true → read_ok mv = true) ∧
  ((∀ j, contents mv' j = contents mv j) ∧ read_ok mv' = false ∨
   ∀ j, contents mv' j = if decide (j = i) then Some v else contents mv j).
Proof.
  intros W Hi. unfold store. destruct (at_mutable_reaches m mv i W Hi) as (mv1 & p & -> & R & As).
  destruct (As v) as [A1 A2 _ A3 A4]. exists (assign_place mv1 p v). split; [done|]. split_and!; [done..| |].
  - unfold read_ok. rewrite A3. apply R.
  - pose proof (re_value _ _ _ _ R) as Hv. case_decide; [left|by right]. split; [done|]. unfold read_ok. rewrite A3. apply Hv.
Qed.

Lemma holds_insert mv mv' i v l : holds mv l → i < size mv → wf mv' → size mv' = size mv →
  (∀ j, contents mv' j = if decide (j = i) then Some v else contents mv j) → holds mv' (<[N.to_nat i := v]> l).
Proof.
  intros [W Hs Hc] Hi W' Hs' Hc'. split; [done| |].
  - unfold count_of. rewrite length_insert, Hs'. done.
  - intros j. unfold count_of in Hs. rewrite Hc'. case_decide as Hj.
    + subst j. rewrite list_lookup_insert_eq; [done|lia].
    + rewrite list_lookup_insert_ne by lia. apply Hc.
Qed.

(** Patches end, whatever fails, and without a failure they are the new list.  What no patch
    changes of a record stays in any case. *)
Lemma patch_all_spec {K} (key : A → K) patches : ∀ o mv,
  wf mv → readable mv → Forall (λ p, p.1 < size mv) patches →
  (∀ p v, p ∈ patches → contents mv p.1 = Some v → key v = key p.2) →
  ∃ mv', patch_all o mv patches = Some mv' ∧ wf mv' ∧ size mv' = size mv ∧ readable mv' ∧
    (read_ok mv' = true → read_ok mv = true) ∧
    (∀ j, key <$> contents mv' j = key <$> contents mv j) ∧
    (∀ l, read_ok mv' = true → holds mv l → holds mv' (patched patches l)).
Proof.
  induction patches as [|[i v] patches IH]; intros o mv W Hr Hp Hk; cbn [patch_all].
  { exists mv. by split_and!. }
  apply Forall_cons in Hp as [Hi Hp]. cbn in Hi.
  destruct (store_holds (o 0%nat) mv i v W Hi) as (mv1 & -> & W1 & Hs1 & Hst & Hc1). cbn [mbind option_bind].
  destruct (Hr i Hi) as [w Hw].
  assert (Hkey : ∀ j, key <$> contents mv1 j = key <$> contents mv j).
  { intros j. destruct Hc1 as [[-> _]|Hc1]; [done|]. rewrite Hc1. case_decide as Hj; [|done]. subst j.
    rewrite Hw. cbn. by rewrite (Hk (i, v) w ltac:(by left) Hw). }
  assert (Hr1 : readable mv1).
  { intros j Hj. rewrite Hs1 in Hj. destruct Hc1 as [[Hc _]|Hc]; rewrite Hc; [by apply Hr|].
    case_decide; [done|by apply Hr]. }
  destruct (IH (λ n, o (S n)) mv1 W1 Hr1) as (mv' & E & W' & Hs' & Hr' & Hst' & Hkey' & Hl').
  - by rewrite Hs1.
  - intros p x Hin Hx. specialize (Hkey p.1). rewrite Hx in Hkey. symmetry in Hkey.
    apply fmap_Some in Hkey as (y & Hy & Hxy). rewrite Hxy. apply (Hk p y); [by right|done].
  - exists mv'. split_and!; [done|done|congruence|done|auto|intros j; by rewrite Hkey'|].
    intros l Hok Hl. cbn [patched foldl]. apply (Hl' (<[N.to_nat i := v]> l) Hok).
    destruct Hc1 as [[_ Hbad]|Hc1]; [by rewrite Hst' in Hbad|]. by apply (holds_insert mv mv1 i v l Hl Hi W1 Hs1 Hc1).
Qed.

(** An array of records that nothing finds by a key. *)
Lemma publish_array grown o patches news mv l : holds mv l → Forall (λ p, p.1 < count_of (l ++ news)) patches →
  ∃ mv', patch_all o (append_prepared grown mv news) patches = Some mv' ∧ (read_ok mv' = true → read_ok mv = true) ∧
    (read_ok mv' = true → holds mv' (patched patches (l ++ news))).
Proof.
  intros H Hp. destruct (append_prepared_holds grown news mv l H) as [Ha Hf].
  destruct (patch_all_spec (λ _, tt) patches o (append_prepared grown mv news)) as (mv' & E & _ & _ & _ & Hst & _ & Hl).
  - apply Ha.
  - by apply (holds_readable _ _ Ha).
  - by rewrite (h_size _ _ Ha).
  - done.
  - exists mv'. split; [done|]. split; [|by intros Hok; apply Hl]. intros Hok%Hst. unfold read_ok in *. congruence.
Qed.
End vectors.

(** ** The new keys of an index *)

Section keys.
Context {V K : Type} `{!Inhabited V} `{!EqDecision K} (key : V → K) (hash : K → N).
Notation table := (mapped_vector (T := handle_slot)).
Notation vector := (mapped_vector (T := V)).

(** The insertions end and keep the table one, whatever fails; without a failure the table
    has the new values too. *)
Lemma insert_all_spec ks : ∀ o n (slots : table) (values : vector),
  tabled key hash n slots values → n + count_of ks <= size slots → n + count_of ks <= size values →
  n + count_of ks < two32 → keys_distinct key (n + count_of ks) values →
  (∀ j k, ks !! j = Some k → key <$> contents values (n + N.of_nat j) = Some k) →
  ∃ slots' values', insert_all key hash o slots values ks (n + 1) = Some (slots', values') ∧
    tabled key hash (n + count_of ks) slots' values' ∧ size slots' = size slots ∧ same_frame values values' ∧
    (read_ok slots' = true → read_ok slots = true) ∧ (read_ok values' = true → read_ok values = true) ∧
    (complete n slots → read_ok slots' = true → read_ok values' = true → complete (n + count_of ks) slots').
Proof.
  induction ks as [|k ks IH]; intros o n slots values I Hs Hv Hw Hd Hk; cbn [insert_all].
  { exists slots, values. unfold count_of. cbn. rewrite N.add_0_r. by split_and!. }
  assert (Hlen : n + count_of (k :: ks) = n + 1 + count_of ks) by (unfold count_of; cbn; lia).
  rewrite Hlen in *.
  pose proof (Hk 0%nat k eq_refl) as Hv0. rewrite N.add_0_r in Hv0. apply fmap_Some in Hv0 as (v & Hv0 & Hkv).
  destruct (insert_index_spec key hash (o 0%nat) n slots values k v I) as
    (slots1 & values1 & E & I1 & Hs1 & F1 & S1 & T1 & C1); try done; try lia.
  { intros i w Hi Hiw Hkw. assert (i = n); [|lia]. apply (Hd i n w v); [lia|lia|done|done|congruence]. }
  rewrite w32_small by lia. rewrite E. cbn [mbind option_bind].
  destruct (same_frame_readable _ _ F1) as [Hvs _].
  destruct (IH (λ i, o (S i)) (n + 1) slots1 values1 I1) as (slots' & values' & E' & I' & Hs' & F' & S' & T' & C');
    rewrite ?Hs1, ?Hvs; try done.
  - intros i j x y Hi Hj. rewrite !(sf_contents _ _ F1). by apply Hd.
  - intros j k' Hj. rewrite (sf_contents _ _ F1). replace (n + 1 + N.of_nat j) with (n + N.of_nat (S j)) by lia. by apply Hk.
  - exists slots', values'. rewrite Hs', Hs1. split_and!; auto. by eapply same_frame_trans.
Qed.

Lemma keys_distinct_list (values : vector) (l : list V) n : NoDup (key <$> l) → 
  (∀ i, key <$> contents values i = (key <$> l) !! N.to_nat i) → keys_distinct key n values.
Proof.
  intros Hd Hc i j v w _ _ Hv Hw Hkey. pose proof (Hc i) as Hi. pose proof (Hc j) as Hj. rewrite Hv in Hi. rewrite Hw in Hj.
  cbn in Hi, Hj. rewrite Hkey in Hi. symmetry in Hi, Hj. pose proof (NoDup_lookup _ _ _ _ Hd Hi Hj). lia.
Qed.

(** The records of an update that an index finds: appended, patched, their keys inserted. *)
Lemma publish_keyed grown o o' patches news (slots : table) (values : vector) l :
  holds values l → indexed key hash (count_of l) slots values → NoDup (key <$> l ++ news) →
  count_of (l ++ news) <= size slots → count_of (l ++ news) < two32 →
  (∀ p, p ∈ patches → (key <$> l ++ news) !! N.to_nat p.1 = Some (key p.2)) →
  ∃ mv slots' values', patch_all o (append_prepared grown values news) patches = Some mv ∧
    insert_all key hash o' slots mv (key <$> news) (count_of l + 1) = Some (slots', values') ∧
    (read_ok slots' = true → read_ok slots = true) ∧ (read_ok values' = true → read_ok values = true) ∧
    (read_ok slots' = true → read_ok values' = true →
      holds values' (patched patches (l ++ news)) ∧ indexed key hash (count_of (l ++ news)) slots' values').
Proof.
  intros H [I Hc] Hd Hs Hw Hp. destruct (append_prepared_holds grown news values l H) as [Ha Hf].
  assert (Hlen : count_of (l ++ news) = count_of l + count_of (key <$> news)).
  { unfold count_of. rewrite length_app, length_fmap. lia. }
  destruct (patch_all_spec key patches o (append_prepared grown values news)) as (mv & E & W & Hsz & Hr & Hst & Hkey & Hl).
  { apply Ha. }
  { by apply (holds_readable _ _ Ha). }
  { apply Forall_forall. intros p Hin. specialize (Hp p Hin). apply lookup_lt_Some in Hp.
    rewrite (h_size _ _ Ha). unfold count_of. rewrite length_fmap in Hp. lia. }
  { intros p v Hin Hv. rewrite (h_contents _ _ Ha) in Hv. specialize (Hp p Hin).
    rewrite list_lookup_fmap, Hv in Hp. by injection Hp. }
  assert (Hks : ∀ i, key <$> contents mv i = (key <$> l ++ news) !! N.to_nat i).
  { intros i. by rewrite Hkey, (h_contents _ _ Ha), list_lookup_fmap. }
  rewrite (h_size _ _ Ha) in Hsz.
  assert (It : tabled key hash (count_of l) slots mv).
  { apply (tabled_same key hash (count_of l) (count_of l) slots slots values mv I); try done; try lia.
    - apply I.
    - rewrite (h_size _ _ H), Hsz, Hlen. lia.
    - intros s p Hp'. destruct (ix_sound _ _ _ _ _ I p s Hp') as [Hh _].
      destruct (slot_key_contents _ _ _ _ _ _ _ I Hp') as (v & Hv & ->). unfold slot_key.
      pose proof (Hks (handle s - 1)) as Hk. rewrite (h_contents _ _ H) in Hv.
      rewrite list_lookup_fmap, lookup_app_l, Hv in Hk by (unfold count_of in Hh; lia).
      apply fmap_Some in Hk as (w & -> & ?). done. }
  destruct (insert_all_spec (key <$> news) o' (count_of l) slots mv It) as (slots' & values' & E' & I' & _ & F & S' & T' & C');
    try (rewrite <-?Hlen; done || lia).
  { rewrite <-Hlen. by apply (keys_distinct_list _ (l ++ news)). }
  { intros j k Hj. rewrite Hks, fmap_app, lookup_app_r by (rewrite length_fmap; unfold count_of; lia).
    rewrite length_fmap. unfold count_of. by replace (_ - _)%nat with j by lia. }
  exists mv, slots', values'. split_and!; [done..|intros Hok; specialize (T' Hok)|].
  - specialize (Hst T'). unfold read_ok in *. congruence.
  - intros Hok1 Hok2. split; [|split; rewrite Hlen; auto]. apply (holds_frame mv); [by apply Hl; auto|apply I'|done].
Qed.
End keys.

(** ** Tables that only fill vacant slots *)

Section vacant.
Context {E : Type} `{!Inhabited E} (vacant : E → bool) (vacant_initial : vacant initial = true).
Implicit Types slots : mapped_vector (T := E).

(** Where the filling walk stops: a vacant slot, or one that cannot be read. *)
Definition stops slots (p : N) : bool := match contents slots p with Some s => vacant s | None => true end.
Definition vacancies slots : N := count_of (filter (λ p, stops slots p = true) (N.of_nat <$> seq 0 (N.to_nat (size slots)))).

(** The slot is met by a walk from the hash, over no vacant slot. *)
Definition finds slots (h : N) (s : E) : Prop :=
  ∃ d : nat, (d < N.to_nat (size slots))%nat ∧
    contents slots (ahead (size slots) (N.land h (size slots - 1)) d) = Some s ∧
    ∀ j, (j < d)%nat → stops slots (ahead (size slots) (N.land h (size slots - 1)) j) = false.

Definition filled slots slots' (p : N) (s : E) : Prop :=
  stops slots p = true ∧ ∀ q, contents slots' q = if decide (q = p) then Some s else contents slots q.

Lemma fill_walk_spec new home d : ∀ fuel o slots i, wf slots → power_of_two (size slots) → home < size slots →
  stops slots (ahead (size slots) home d) = true →
  (∀ j, (j < d)%nat → stops slots (ahead (size slots) home j) = false) → (i <= d)%nat → (d < i + fuel)%nat →
  ∃ slots', fill_vacant vacant fuel o slots new (ahead (size slots) home i) = Some slots' ∧
    wf slots' ∧ size slots' = size slots ∧ (read_ok slots' = true → read_ok slots = true) ∧
    ((∀ q, contents slots' q = contents slots q) ∧ read_ok slots' = false ∨
     filled slots slots' (ahead (size slots) home d) new).
Proof.
  induction fuel as [|fuel IH]; intros o slots i W Hpow Hhome Hd Hj Hid Hfuel; [lia|].
  pose proof (power_of_two_pos _ Hpow) as Hpos. set (pos := ahead (size slots) home i).
  assert (Hpl : pos < size slots) by by apply ahead_lt.
  cbn [fill_vacant]. destruct (at_mutable_reaches (o 0%nat) slots pos W Hpl) as (slots1 & p & -> & R & A). cbn [mbind option_bind].
  destruct (same_frame_readable _ _ (re_frame _ _ _ _ R)) as [Hsz _]. pose proof (re_value _ _ _ _ R) as Hval.
  pose proof (sf_contents _ _ (re_frame _ _ _ _ R)) as Hc1.
  destruct (vacant (deref slots1 p)) eqn:Hv.
  - destruct (A new) as [A1 A2 _ A3 A4]. eexists. split; [done|]. split_and!; [done..| |].
    + unfold read_ok. rewrite A3. apply R.
    + case_decide as Hp; [left|right].
      * split; [done|]. unfold read_ok. rewrite A3. apply Hval.
      * assert (Hstop : stops slots pos = true) by (unfold stops; by rewrite Hval).
        assert (i = d) as <- by (destruct (decide (i = d)); [done|]; specialize (Hj i ltac:(lia)); fold pos in Hj; congruence).
        by split.
  - assert (Hp : p ≠ InFailure).
    { intros ->. destruct Hval as (_ & _ & Hinit). rewrite Hinit in Hv. congruence. }
    rewrite decide_False in Hval by done.
    assert (i ≠ d) as Hne by (intros ->; fold pos in Hd; unfold stops in Hd; rewrite Hval in Hd; congruence).
    assert (Hstops : ∀ q, stops slots1 q = stops slots q) by (intros q; unfold stops; by rewrite Hc1).
    rewrite Hsz, land_next by done.
    replace ((pos + 1) mod size slots) with (ahead (size slots1) home (S i))
      by (unfold pos, ahead; rewrite Hsz, N.Div0.add_mod_idemp_l; f_equal; lia).
    destruct (IH (λ n, o (S n)) slots1 (S i)) as (slots' & E' & B1 & B2 & B3 & B4); rewrite ?Hsz, ?Hstops; try done; try lia.
    { apply (re_wf _ _ _ _ R). }
    { intros j Hlt. rewrite Hstops. by apply Hj. }
    exists slots'. rewrite B2, Hsz in *. split_and!; try done.
    + intros H. by apply (re_sticky _ _ _ _ R), B3.
    + destruct B4 as [[B4 B5]|[_ B4]]; [left|right]; split; try done; intros q; by rewrite B4, Hc1.
Qed.

Lemma vacancies_filled slots slots' : size slots' = size slots →
  (∀ q, contents slots' q = contents slots q) ∨ (∃ p s, filled slots slots' p s) → vacancies slots <= vacancies slots' + 1.
Proof.
  intros Hs Hc. unfold vacancies, count_of. rewrite Hs. set (ps := N.of_nat <$> seq 0 _).
  assert (Hps : NoDup ps) by (apply NoDup_fmap_2; [intros ?? ?; lia|apply NoDup_seq]).
  destruct Hc as [Hc|(p & s & _ & Hc)].
  { rewrite (list_filter_iff _ (λ q, stops slots' q = true)); [lia|]. intros q. unfold stops. by rewrite Hc. }
  enough (filter (λ q, stops slots q = true) ps ⊆+ p :: filter (λ q, stops slots' q = true) ps) as Hsub.
  { apply submseteq_length in Hsub. cbn in Hsub. lia. }
  apply NoDup_submseteq; [by apply NoDup_filter|]. intros q [Hq Hin]%list_elem_of_filter.
  destruct (decide (q = p)) as [->|Hne]; [by left|]. right. apply list_elem_of_filter. split; [|done].
  unfold stops in *. rewrite Hc. by rewrite decide_False.
Qed.

(** A table with a vacancy takes a slot in, unless a failure is recorded. *)
Lemma fill_vacant_spec o slots new h : wf slots → power_of_two (size slots) → 0 < vacancies slots →
  ∃ slots', fill_vacant vacant (N.to_nat (size slots)) o slots new (N.land h (size slots - 1)) = Some slots' ∧
    wf slots' ∧ size slots' = size slots ∧ (read_ok slots' = true → read_ok slots = true) ∧
    vacancies slots <= vacancies slots' + 1 ∧
    (read_ok slots' = true → vacant new = false → finds slots' h new ∧
      ∀ h' s, vacant s = false → finds slots h' s → finds slots' h' s).
Proof.
  intros W Hpow Hvac. pose proof (power_of_two_pos _ Hpow) as Hpos.
  assert (Hhome : N.land h (size slots - 1) < size slots) by (rewrite land_mask by exact Hpow; apply N.mod_lt; lia).
  assert (∃ q, q < size slots ∧ stops slots q = true) as (q & Hq & Hstop).
  { unfold vacancies, count_of in Hvac. destruct (filter _ _) as [|q qs] eqn:Ef; [cbn in Hvac; lia|].
    assert (q ∈ q :: qs) as Hin by by left. rewrite <-Ef in Hin. apply list_elem_of_filter in Hin as [Hst Hin].
    apply list_elem_of_fmap in Hin as (i & -> & Hi%elem_of_seq). exists (N.of_nat i). split; [lia|done]. }
  set (visit q := if stops slots q then Some tt else None).
  destruct (probe_stops visit (size slots) Hpow (N.land h (size slots - 1)) q tt) as [[] Hr];
    [done|done|unfold visit; by rewrite Hstop|].
  destruct (proj1 (probe_Some visit _ Hpow _ _ _ Hhome) Hr) as (d & Hd & Hvd & Hj). unfold visit in *.
  assert (Hbefore : ∀ j, (j < d)%nat → stops slots (ahead (size slots) (N.land h (size slots - 1)) j) = false).
  { intros j Hlt. specialize (Hj j Hlt). cbn in Hj. by case_match. }
  destruct (fill_walk_spec new _ d (N.to_nat (size slots)) o slots 0 W Hpow Hhome) as (slots' & E' & W' & Hs' & Hst & Hc);
    [by case_match|done|lia|lia|]. rewrite ahead_0 in E' by done.
  exists slots'. split_and!; try done.
  { apply vacancies_filled; [done|]. destruct Hc as [[Hc _]|Hc]; [by left|right; eauto]. }
  intros Hok Hnew. destruct Hc as [[_ Hbad]|[Hp Hc]]; [congruence|].
  assert (Hstays : ∀ q', stops slots q' = false → stops slots' q' = false).
  { intros q' Hq'. unfold stops in *. rewrite Hc. by case_decide. }
  split.
  - exists d. rewrite Hs'. split_and!; [done| |by auto]. by rewrite Hc, decide_True.
  - intros h' s Hsv (d' & Hd' & Hat & Hb). exists d'. rewrite Hs'. split_and!; [done| |by auto].
    rewrite Hc. case_decide as He; [|done]. unfold stops in Hp. rewrite <-He, Hat in Hp. congruence.
Qed.
End vacant.

(** ** Derived types *)

Definition record_hash (r : canonical_type) : N := derived_hash (detail r) (child_or_handle r) (payload r).
Definition is_derived (r : canonical_type) : bool := bool_decide (canonical_kind r = derived_kind).
Definition derived_count (rs : list canonical_type) : N := count_of (filter (λ r, is_derived r = true) rs).
Definition no_type (s : derived_slot) : bool := type_ref s =? 0.

(** Every derived type of a list is found by its hash. *)
Definition derived_found (slots : mapped_vector) (rs : list canonical_type) (ref : N) : Prop :=
  ∀ j r, rs !! j = Some r → is_derived r = true →
    finds no_type slots (record_hash r) (DerivedSlot (fold32 (record_hash r)) (ref + N.of_nat j)).

Lemma insert_derived_spec rs : ∀ o (slots : mapped_vector) ref, wf slots →
  (0 < derived_count rs → power_of_two (size slots)) → derived_count rs <= vacancies no_type slots →
  0 < ref → ref + count_of rs < two32 →
  ∃ slots', insert_derived o slots rs ref = Some slots' ∧ wf slots' ∧ (read_ok slots' = true → read_ok slots = true) ∧
    (read_ok slots' = true → derived_found slots' rs ref ∧
      ∀ h s, no_type s = false → finds no_type slots h s → finds no_type slots' h s).
Proof.
  induction rs as [|r rs IH]; intros o slots ref W Hpow Hvac Href Hw; cbn [insert_derived].
  { exists slots. split_and!; [done..|]. by intros _. }
  assert (Hlen : count_of (r :: rs) = count_of rs + 1) by (unfold count_of; cbn; lia).
  assert (Hshift : ∀ j, ref + 1 + N.of_nat j = ref + N.of_nat (S j)) by lia.
  fold (is_derived r). unfold derived_count in Hpow, Hvac. rewrite filter_cons in Hpow, Hvac.
  destruct (is_derived r) eqn:Hr; cycle 1.
  { rewrite decide_False in Hpow, Hvac by done.
    destruct (IH (λ n, o (S n)) slots (ref + 1) W) as (slots' & E & W' & S' & C'); try done; try lia.
    exists slots'. split_and!; [done..|]. intros [Hf Ho]%C'. split; [|done]. intros [|j] x Hj Hx; cbn in Hj; [congruence|].
    rewrite <-Hshift. by apply Hf. }
  rewrite decide_True in Hpow, Hvac by done. unfold count_of in Hpow, Hvac. cbn [length] in Hpow, Hvac.
  set (new := DerivedSlot (fold32 (record_hash r)) ref).
  assert (Hinit : no_type initial = true) by done.
  destruct (fill_vacant_spec no_type Hinit (o 0%nat) slots new (record_hash r) W) as
    (slots1 & E1 & W1 & Hs1 & S1 & V1 & C1); [apply Hpow; lia|lia|].
  unfold insert_derived_index. fold (record_hash r) no_type. rewrite w32_small by lia. fold new. rewrite E1.
  cbn [mbind option_bind].
  destruct (IH (λ n, o (S n)) slots1 (ref + 1) W1) as (slots' & E & W' & S' & C'); try lia.
  { intros _. rewrite Hs1. apply Hpow. lia. }
  { unfold derived_count, count_of in *. lia. }
  assert (Hnew : no_type new = false) by (unfold no_type, new; cbn; destruct (N.eqb_spec ref 0); [lia|done]).
  exists slots'. split_and!; [done|done|auto|]. intros Hok. destruct (C' Hok) as [Hf Ho]. destruct (C1 (S' Hok) Hnew) as [Hn Hold].
  split; [|auto]. intros [|j] x Hj Hx; cbn in Hj.
  - injection Hj as <-. rewrite N.add_0_r. by apply Ho.
  - rewrite <-Hshift. by apply Hf.
Qed.

(** ** Dependency edges *)

(** The pushes: each edge goes before its target's chain. *)
Definition linked (state : list N * list dependency_edge) (pending : list (N * N * N)) : list N * list dependency_edge :=
  foldl (λ '(heads, edges) '(target, owner, version),
    let edges := edges ++ [DependencyEdge owner (default 0 (heads !! N.to_nat (target - 1))) version] in
    (<[N.to_nat (target - 1) := w32 (count_of edges)]> heads, edges)) state pending.

Lemma push_edges_spec grown pending : ∀ o heads edges es, wf heads → holds edges es →
  Forall (λ e, 1 <= e.1.1 <= size heads) pending →
  ∃ heads' edges', push_edges grown o heads edges pending = Some (heads', edges') ∧
    (read_ok heads' = true → read_ok heads = true) ∧ (read_ok edges' = true → read_ok edges = true) ∧
    (∀ hs, read_ok heads' = true → holds heads hs →
      holds heads' (linked (hs, es) pending).1 ∧ holds edges' (linked (hs, es) pending).2).
Proof.
  induction pending as [|[[target owner] version] pending IH]; intros o heads edges es W He Hp; cbn [push_edges].
  { exists heads, edges. by split_and!. }
  apply Forall_cons in Hp as [Hi Hp]. cbn in Hi. assert (Hlt : target - 1 < size heads) by lia.
  destruct (at_mutable_reaches (o 0%nat 0%nat) heads (target - 1) W Hlt) as (heads1 & p & -> & R & _). cbn [mbind option_bind].
  destruct (same_frame_readable _ _ (re_frame _ _ _ _ R)) as [Hs1 _].
  set (edge := DependencyEdge owner (deref heads1 p) version).
  destruct (append_prepared_holds grown [edge] edges es He) as [He1 Hf1]. cbn [append_prepared foldl] in He1, Hf1.
  change (append_prepared grown edges [edge]) with (push_back grown edges edge) in He1, Hf1.
  rewrite (h_size _ _ He1). set (es1 := es ++ [edge]) in *.
  destruct (store_holds (o 0%nat 1%nat) heads1 (target - 1) (w32 (count_of es1)) (re_wf _ _ _ _ R)) as
    (heads2 & -> & W2 & Hs2 & St2 & Hc2); [by rewrite Hs1|]. cbn [mbind option_bind].
  destruct (IH (λ n, o (S n)) heads2 (push_back grown edges edge) es1 W2 He1) as (heads' & edges' & E & St & St' & H);
    [by rewrite Hs2, Hs1|].
  exists heads', edges'. split_and!; [done|intros H1; by apply (re_sticky _ _ _ _ R), St2, St|unfold read_ok in *; rewrite <-Hf1; auto|].
  intros hs Hok Hh. assert (Hp1 : p ≠ InFailure).
  { intros ->. destruct (re_value _ _ _ _ R) as (_ & Hbad & _). specialize (St2 (St Hok)). unfold read_ok in St2. congruence. }
  pose proof (re_value _ _ _ _ R) as Hv. rewrite decide_False, (h_contents _ _ Hh) in Hv by done.
  destruct Hc2 as [[_ Hbad]|Hc2]; [rewrite St in Hbad; done|].
  assert (Hh1 : holds heads1 hs) by (apply (holds_frame heads); [done|apply R|apply R]).
  cbn [linked foldl]. rewrite Hv. cbn [default]. apply (H _ Hok). apply (holds_insert heads1 heads2 (target - 1)); try done.
  by rewrite Hs1.
Qed.

(** ** The graph as lists *)

Record abstract_graph : Type := AbstractGraph {
  a_types : list type_entry; a_identities : list N; a_members : list member_record;
  a_enum_values : list enum_value_record; a_objects : list object_entry; a_object_identities : list N;
  a_links : list link_record; a_canonical : list canonical_type; a_named : list N; a_versions : list N;
  a_heads : list N; a_edges : list dependency_edge }.

Definition link_key (l : link_record) : object_endpoint := RuntimeLayout.link_target l.

(** The arrays hold the lists, and each index is one of its list. *)
Record represents (g : graph) (s : abstract_graph) : Prop := Represents {
  r_types : holds (types (arrays_of g)) (a_types s);
  r_identities : holds (identities (arrays_of g)) (a_identities s);
  r_members : holds (member_records (arrays_of g)) (a_members s);
  r_enum_values : holds (enum_value_records (arrays_of g)) (a_enum_values s);
  r_objects : holds (object_entries (arrays_of g)) (a_objects s);
  r_object_identities : holds (object_identities (arrays_of g)) (a_object_identities s);
  r_links : holds (link_records (arrays_of g)) (a_links s);
  r_canonical : holds (canonical_types (arrays_of g)) (a_canonical s);
  r_named : holds (named_refs (arrays_of g)) (a_named s);
  r_versions : holds (dependency_versions (arrays_of g)) (a_versions s);
  r_heads : holds (reverse_dependency_heads (arrays_of g)) (a_heads s);
  r_edges : holds (dependency_edges (arrays_of g)) (a_edges s);
  r_identity_index : indexed id identity_hash (count_of (a_identities s)) (identity_index (indexes_of g)) (identities (arrays_of g));
  r_object_index : indexed id identity_hash (count_of (a_object_identities s)) (object_identity_index (indexes_of g))
    (object_identities (arrays_of g));
  r_link_index : indexed link_key endpoint_hash (count_of (a_links s)) (link_index (indexes_of g)) (link_records (arrays_of g));
  r_derived_wf : wf (derived_index (indexes_of g));
  r_derived : derived_found (derived_index (indexes_of g)) (a_canonical s) 0;
}.

(** What the lists of a committed graph satisfy among themselves. *)
Record coherent (s : abstract_graph) : Prop := Coherent {
  c_identities : length (a_identities s) = length (a_types s);
  c_object_identities : length (a_object_identities s) = length (a_objects s);
  c_named : length (a_named s) = S (length (a_types s));
  c_versions : length (a_versions s) = length (a_types s);
  c_heads : length (a_heads s) = length (a_types s);
  c_reserved : ∃ r rs, a_canonical s = r :: rs ∧ is_derived r = false;
  c_unique_types : NoDup (a_identities s);
  c_unique_objects : NoDup (a_object_identities s);
  c_unique_links : NoDup (link_key <$> a_links s);
}.

(** What an update makes of them. *)
Definition published (s : abstract_graph) (u : prepared_graph_update) : abstract_graph :=
  let state := linked (a_heads s ++ (const 0 <$> new_types u), a_edges s) (pending_edges u) in
  AbstractGraph (patched (by_slot (type_patches u)) (a_types s ++ new_types u)) (a_identities s ++ new_identities u)
    (a_members s ++ new_members u) (a_enum_values s ++ new_enum_values u)
    (patched (by_slot (object_patches u)) (a_objects s ++ new_objects u)) (a_object_identities s ++ new_object_identities u)
    (patched (by_slot (link_patches u)) (a_links s ++ new_links u)) (a_canonical s ++ new_canonical_types u)
    (patched (named_ref_patches u) (a_named s ++ (const 0 <$> new_types u)))
    (patched (by_slot (dependency_version_patches u)) (a_versions s ++ (const 1 <$> new_types u)))
    state.1 state.2.

Definition handles_in (n : N) {A} (patches : list (N * A)) : Prop := Forall (λ p, 1 <= p.1 <= n) patches.

(** The updates the builder prepares: no index is replaced, new values are new, patches and
    edges are of slots that exist then, links keep their targets, and the indexes have room. *)
Record acceptable (g : graph) (s : abstract_graph) (u : prepared_graph_update) : Prop := Acceptable {
  u_identity_index : rebuilt_identity_index u = None;
  u_object_index : rebuilt_object_identity_index u = None;
  u_link_index : rebuilt_link_index u = None;
  u_derived_index : rebuilt_derived_index u = None;
  u_types : length (new_identities u) = length (new_types u);
  u_objects : length (new_object_identities u) = length (new_objects u);
  u_type_patches : handles_in (count_of (a_types s ++ new_types u)) (type_patches u);
  u_object_patches : handles_in (count_of (a_objects s ++ new_objects u)) (object_patches u);
  u_version_patches : handles_in (count_of (a_types s ++ new_types u)) (dependency_version_patches u);
  u_named_patches : Forall (λ p, p.1 <= count_of (a_types s ++ new_types u)) (named_ref_patches u);
  u_link_patches p : p ∈ link_patches u →
    (link_key <$> a_links s ++ new_links u) !! N.to_nat (p.1 - 1) = Some (link_key p.2);
  u_edges : Forall (λ e, 1 <= e.1.1 <= count_of (a_types s ++ new_types u)) (pending_edges u);
  u_unique_types : NoDup (a_identities s ++ new_identities u);
  u_unique_objects : NoDup (a_object_identities s ++ new_object_identities u);
  u_unique_links : NoDup (link_key <$> a_links s ++ new_links u);
  u_type_room : count_of (a_identities s ++ new_identities u) <= size (identity_index (indexes_of g));
  u_object_room : count_of (a_object_identities s ++ new_object_identities u) <= size (object_identity_index (indexes_of g));
  u_link_room : count_of (a_links s ++ new_links u) <= size (link_index (indexes_of g));
  u_derived_table : 0 < derived_count (new_canonical_types u) → power_of_two (size (derived_index (indexes_of g)));
  u_derived_room : derived_count (new_canonical_types u) <= vacancies no_type (derived_index (indexes_of g));
  u_words : count_of (a_identities s ++ new_identities u) < two32 ∧
    count_of (a_object_identities s ++ new_object_identities u) < two32 ∧
    count_of (a_links s ++ new_links u) < two32 ∧ count_of (a_canonical s ++ new_canonical_types u) < two32;
}.

Lemma reads_ok_spec g : reads_ok g = true →
  let a := arrays_of g in let x := indexes_of g in
  (read_ok (types a) = true ∧ read_ok (identities a) = true ∧ read_ok (object_entries a) = true ∧
   read_ok (object_identities a) = true ∧ read_ok (link_records a) = true ∧ read_ok (named_refs a) = true ∧
   read_ok (dependency_versions a) = true ∧ read_ok (reverse_dependency_heads a) = true) ∧
  read_ok (identity_index x) = true ∧ read_ok (object_identity_index x) = true ∧ read_ok (link_index x) = true ∧
  read_ok (derived_index x) = true.
Proof. intros H. unfold reads_ok in H. rewrite !andb_true_iff in H. naive_solver. Qed.

Lemma by_slot_in {A} n (patches : list (N * A)) : handles_in n patches → Forall (λ p, p.1 < n) (by_slot patches).
Proof. intros H. apply Forall_fmap. eapply Forall_impl; [exact H|]. intros [h v]. cbn. lia. Qed.

(** Patches that keep the keys keep the list of them. *)
Lemma patched_keys {A K} (key : A → K) (patches : list (N * A)) l :
  (∀ p, p ∈ patches → (key <$> l) !! N.to_nat p.1 = Some (key p.2)) → key <$> patched patches l = key <$> l.
Proof.
  unfold patched. revert l. induction patches as [|p patches IH]; intros l H; [done|]. cbn [foldl].
  assert (E : key <$> <[N.to_nat p.1:=p.2]> l = key <$> l).
  { rewrite list_fmap_insert. apply list_insert_id, H. by left. }
  rewrite IH, E; [done|]. intros q Hq. rewrite E. apply H. by right.
Qed.

Lemma link_patches_keys g s u : acceptable g s u → ∀ p, p ∈ by_slot (link_patches u) →
  (link_key <$> a_links s ++ new_links u) !! N.to_nat p.1 = Some (link_key p.2).
Proof. intros U p ([h v] & -> & Hin)%list_elem_of_fmap. apply (u_link_patches _ _ _ U _ Hin). Qed.

Lemma published_coherent g s u : coherent s → acceptable g s u → coherent (published s u).
Proof.
  intros [C1 C2 C3 C4 C5 (r & rs & C6 & C6') C7 C8 C9] U.
  assert (Hheads : ∀ pending state, length (linked state pending).1 = length state.1).
  { unfold linked. intros pending. induction pending as [|[[t o] v] pending IH]; intros [hs es]; [done|].
    cbn [foldl]. rewrite IH. cbn. by rewrite length_insert. }
  pose proof (u_types _ _ _ U). pose proof (u_objects _ _ _ U).
  split; cbn; rewrite ?Hheads, ?length_patched, ?length_app, ?length_fmap; cbn; rewrite ?length_app, ?length_fmap; try lia.
  - rewrite C6. eauto.
  - apply U.
  - apply U.
  - rewrite patched_keys; [apply U|by eapply link_patches_keys].
Qed.

(** The derived types of the list that grew. *)
Lemma derived_found_app (slots slots' : mapped_vector) r rs news :
  is_derived r = false → derived_found slots (r :: rs) 0 → derived_found slots' news (count_of (r :: rs)) →
  (∀ h t, no_type t = false → finds no_type slots h t → finds no_type slots' h t) →
  derived_found slots' ((r :: rs) ++ news) 0.
Proof.
  intros Hr Hold Hnew Hkeep j x Hj Hx. destruct (Nat.lt_ge_cases j (length (r :: rs))) as [Hlt|Hge].
  - rewrite lookup_app_l in Hj by done. destruct j as [|j]; [cbn in Hj; congruence|].
    apply Hkeep; [|by apply Hold]. unfold no_type. cbn [type_ref]. destruct (N.eqb_spec (0 + N.of_nat (S j)) 0); [lia|done].
  - rewrite lookup_app_r in Hj by done. specialize (Hnew _ _ Hj Hx). unfold count_of in Hnew.
    by replace (N.of_nat (length (r :: rs)) + N.of_nat (j - length (r :: rs))) with (0 + N.of_nat j) in Hnew by lia.
Qed.

(** Identities are their own keys, and have no patches. *)
Lemma publish_identities grown o news slots (values : mapped_vector (T := N)) l :
  holds values l → indexed id identity_hash (count_of l) slots values → NoDup (l ++ news) →
  count_of (l ++ news) <= size slots → count_of (l ++ news) < two32 →
  ∃ slots' values', insert_all id identity_hash o slots (append_prepared grown values news) news (count_of l + 1) = Some (slots', values') ∧
    (read_ok slots' = true → read_ok values' = true →
      holds values' (l ++ news) ∧ indexed id identity_hash (count_of (l ++ news)) slots' values').
Proof.
  intros H I Hd Hs Hw.
  destruct (publish_keyed id identity_hash grown (λ _, plenty) o [] news slots values l H I) as (mv & slots' & values' & E & E' & _ & _ & H');
    rewrite ?list_fmap_id in *; try done.
  { by intros p Hp%not_elem_of_nil. }
  cbn in E. injection E as <-. eauto.
Qed.

(** The version and head arrays, and the edges. *)
Lemma publish_dependencies grown o o' g s u : represents g s → coherent s → acceptable g s u →
  ∃ versions heads edges,
    patch_all o (append_prepared grown (dependency_versions (arrays_of g)) (const 1 <$> new_types u))
      (by_slot (dependency_version_patches u)) = Some versions ∧
    push_edges grown o' (append_prepared grown (reverse_dependency_heads (arrays_of g)) (const 0 <$> new_types u))
      (dependency_edges (arrays_of g)) (pending_edges u) = Some (heads, edges) ∧
    (read_ok versions = true → holds versions (a_versions (published s u))) ∧
    (read_ok heads = true → holds heads (a_heads (published s u)) ∧ holds edges (a_edges (published s u))).
Proof.
  intros R C U. pose proof (c_versions _ C). pose proof (c_heads _ C).
  destruct (publish_array grown o (by_slot (dependency_version_patches u)) (const 1 <$> new_types u) _ _ (r_versions _ _ R))
    as (versions & E & _ & Hv).
  { apply by_slot_in. eapply Forall_impl; [apply U|]. intros p. cbn. unfold count_of. rewrite !length_app, length_fmap. lia. }
  destruct (append_prepared_holds grown (const 0 <$> new_types u) _ _ (r_heads _ _ R)) as [Hh _].
  destruct (push_edges_spec grown (pending_edges u) o' _ _ _ (h_wf _ _ Hh) (r_edges _ _ R)) as (heads & edges & E' & _ & _ & Hl).
  { eapply Forall_impl; [apply U|]. intros e. cbn. rewrite (h_size _ _ Hh). unfold count_of. rewrite !length_app, length_fmap. lia. }
  exists versions, heads, edges. split_and!; [done..|]. intros Hok. by apply Hl.
Qed.

(** The derived types. *)
Lemma publish_derived o g s u : represents g s → coherent s → acceptable g s u →
  ∃ slots, insert_derived o (derived_index (indexes_of g)) (new_canonical_types u) (size (canonical_types (arrays_of g))) = Some slots ∧
    (read_ok slots = true → wf slots ∧ derived_found slots (a_canonical (published s u)) 0).
Proof.
  intros R C U. destruct (c_reserved _ C) as (r & rs & Hcan & Hr). pose proof (u_words _ _ _ U) as (_ & _ & _ & Hw).
  rewrite (h_size _ _ (r_canonical _ _ R)). pose proof (r_derived _ _ R) as Hd. cbn [published a_canonical].
  rewrite Hcan in *. unfold count_of in Hw. rewrite length_app in Hw.
  destruct (insert_derived_spec (new_canonical_types u) o (derived_index (indexes_of g)) (count_of (r :: rs)) (r_derived_wf _ _ R))
    as (slots & E & W & _ & H); [apply U|apply U|unfold count_of; cbn; lia|unfold count_of; lia|].
  exists slots. split; [done|]. intros [Hn Hk]%H. split; [done|]. by apply (derived_found_app (derived_index (indexes_of g))).
Qed.

(** ** Vectors of the heap *)

(** No access of a vector without a baseline fails. *)
Section heap.
Context {A : Type} `{!Inhabited A}.
Implicit Types mv : mapped_vector (T := A).

Definition on_heap mv : Prop := baseline_count mv = 0 ∧ read_ok mv = true.

Lemma at_mutable_heap m mv i mv' p : on_heap mv → at_mutable m mv i = Some (mv', p) → on_heap mv' ∧ ∀ v, on_heap (assign_place mv' p v).
Proof. intros [Hb Hok] H. unfold at_mutable in H. rewrite Hb in H. destruct (N.leb_spec 0 i); [|lia]. by injection H as <- <-. Qed.

Lemma at_const_heap m mv i mv' p : on_heap mv → at_const m mv i = Some (mv', p) → on_heap mv'.
Proof. intros [Hb Hok] H. unfold at_const in H. rewrite Hb in H. destruct (N.leb_spec 0 i); [|lia]. by injection H as <- <-. Qed.

Lemma append_heap grown mv vs : on_heap mv → on_heap (append_prepared grown mv vs).
Proof. unfold append_prepared. revert mv. induction vs as [|v vs IH]; intros mv H; [done|]. apply IH. destruct H. by split. Qed.

Lemma store_heap m mv i v mv' : on_heap mv → store m mv i v = Some mv' → on_heap mv'.
Proof. intros H. unfold store. intros ([mv1 p] & Ha & [= <-])%bind_Some. by apply (at_mutable_heap _ _ _ _ _ H Ha). Qed.

Lemma patch_all_heap patches : ∀ o mv mv', on_heap mv → patch_all o mv patches = Some mv' → on_heap mv'.
Proof.
  induction patches as [|[i v] patches IH]; intros o mv mv' H; cbn [patch_all]; [by intros [= <-]|].
  intros (mv1 & Hs & Hp)%bind_Some. eapply IH, Hp. by eapply store_heap.
Qed.

Lemma fill_vacant_heap (vacant : A → bool) new fuel : ∀ o mv i mv',
  on_heap mv → fill_vacant vacant fuel o mv new i = Some mv' → on_heap mv'.
Proof.
  induction fuel as [|fuel IH]; intros o mv i mv' H; cbn [fill_vacant]; [done|].
  intros ([mv1 p] & Ha & Hr)%bind_Some. destruct (at_mutable_heap _ _ _ _ _ H Ha) as [H1 H2].
  destruct (vacant _); [by injection Hr as <-|by eapply IH].
Qed.
End heap.

Section heap_index.
Context {V K : Type} `{!Inhabited V} `{!EqDecision K} (key : V → K) (hash : K → N).

Lemma insert_walk_heap k h fuel : ∀ o (slots : mapped_vector (T := handle_slot)) (values : mapped_vector (T := V)) i slots' values',
  on_heap slots → on_heap values → insert_walk key hash fuel o slots values k h i = Some (slots', values') →
  on_heap slots' ∧ on_heap values'.
Proof.
  induction fuel as [|fuel IH]; intros o slots values i slots' values' Hs Hv; cbn [insert_walk]; [done|].
  intros ([slots1 p] & Ha & Hr)%bind_Some. destruct (at_mutable_heap _ _ _ _ _ Hs Ha) as [H1 H2].
  destruct (_ =? 0); [by injection Hr as <- <-|]. destruct (_ && _); [|by eapply IH].
  apply bind_Some in Hr as ([values1 q] & Hc & Hr). pose proof (at_const_heap _ _ _ _ _ Hv Hc) as Hv1.
  case_bool_decide; [by injection Hr as <- <-|by eapply IH].
Qed.

Lemma insert_all_heap ks : ∀ o (slots : mapped_vector (T := handle_slot)) (values : mapped_vector (T := V)) h slots' values',
  on_heap slots → on_heap values → insert_all key hash o slots values ks h = Some (slots', values') →
  on_heap slots' ∧ on_heap values'.
Proof.
  induction ks as [|k ks IH]; intros o slots values h slots' values' Hs Hv; cbn [insert_all]; [by intros [= <- <-]|].
  intros ([slots1 values1] & Ha & Hr)%bind_Some. destruct (insert_walk_heap _ _ _ _ _ _ _ _ _ Hs Hv Ha). by eapply IH.
Qed.
End heap_index.

Lemma insert_derived_heap rs : ∀ o (slots : mapped_vector) ref slots',
  on_heap slots → insert_derived o slots rs ref = Some slots' → on_heap slots'.
Proof.
  induction rs as [|r rs IH]; intros o slots ref slots' H; cbn [insert_derived]; [by intros [= <-]|].
  case_bool_decide; [|by apply IH]. intros (slots1 & Ha & Hr)%bind_Some. eapply IH, Hr. by eapply fill_vacant_heap.
Qed.

Lemma push_edges_heap grown pending : ∀ o heads edges heads' edges', on_heap heads → on_heap edges →
  push_edges grown o heads edges pending = Some (heads', edges') → on_heap heads' ∧ on_heap edges'.
Proof.
  induction pending as [|[[t w] v] pending IH]; intros o heads edges heads' edges' H He; cbn [push_edges]; [by intros [= <- <-]|].
  intros ([heads1 p] & Ha & (heads2 & Hs & Hr)%bind_Some)%bind_Some. destruct (at_mutable_heap _ _ _ _ _ H Ha) as [H1 _].
  eapply IH, Hr; [by eapply store_heap|by apply (append_heap _ _ [_])].
Qed.

(** A vector that is swapped in. *)
Lemma swap_in_holds {A} `{!Inhabited A} (mv : mapped_vector (T := A)) v : holds (swap_in mv v) (items v) ∧ on_heap (swap_in mv v).
Proof.
  split; [|done]. unfold swap_in, swap_vector. cbn. split.
  - split; cbn; try done; [apply NoDup_nil_2|by intros r Hr%not_elem_of_nil].
  - done.
  - intros i. rewrite contents_local by (cbn; lia). cbn. by rewrite N.sub_0_r.
Qed.

Record heap_graph (g : graph) : Prop := HeapGraph {
  hg_types : on_heap (types (arrays_of g)); hg_identities : on_heap (identities (arrays_of g));
  hg_members : on_heap (member_records (arrays_of g)); hg_enum_values : on_heap (enum_value_records (arrays_of g));
  hg_objects : on_heap (object_entries (arrays_of g)); hg_object_identities : on_heap (object_identities (arrays_of g));
  hg_links : on_heap (link_records (arrays_of g)); hg_canonical : on_heap (canonical_types (arrays_of g));
  hg_named : on_heap (named_refs (arrays_of g)); hg_versions : on_heap (dependency_versions (arrays_of g));
  hg_heads : on_heap (reverse_dependency_heads (arrays_of g)); hg_edges : on_heap (dependency_edges (arrays_of g));
  hg_identity_index : on_heap (identity_index (indexes_of g)); hg_object_index : on_heap (object_identity_index (indexes_of g));
  hg_link_index : on_heap (link_index (indexes_of g)); hg_derived_index : on_heap (derived_index (indexes_of g)) }.

Lemma reads_ok_heap g : heap_graph g → reads_ok g = true.
Proof. intros [[] [] [] [] [] [] [] [] [] [] [] [] [] [] [] []]. unfold reads_ok. by rewrite !andb_true_iff. Qed.

Lemma publication_heap grown o g s u g' : heap_graph g → acceptable g s u → publish_prepared grown o g u = Some g' → heap_graph g'.
Proof.
  intros H U. unfold publish_prepared.
  rewrite (u_identity_index _ _ _ U), (u_object_index _ _ _ U), (u_link_index _ _ _ U), (u_derived_index _ _ _ U).
  intros (v1 & E1 & (v2 & E2 & (v3 & E3 & (v4 & E4 & ([t5 v5] & E5 & ([t6 v6] & E6 & ([t7 v7] & E7 & (t8 & E8 & (v9 & E9 &
    ([v10 v11] & E10 & E)%bind_Some)%bind_Some)%bind_Some)%bind_Some)%bind_Some)%bind_Some)%bind_Some)%bind_Some)%bind_Some)%bind_Some.
  destruct (update_counts u) as [[[c1 c2] c3] c4]. injection E as <-.
  apply patch_all_heap in E1, E2, E3, E4, E9; try apply append_heap, H.
  apply insert_all_heap in E5, E6, E7; try apply append_heap; try apply H; [|done].
  apply insert_derived_heap in E8; [|apply H]. apply push_edges_heap in E10; [|apply append_heap, H|apply H].
  destruct E5, E6, E7, E10. split; cbn; try done; apply append_heap, H.
Qed.

(** The publication ends, and what it leaves if no access failed. *)
Lemma publication_ends grown o g s u : represents g s → coherent s → acceptable g s u →
  ∃ g', publish_prepared grown o g u = Some g' ∧
    (update_counts u, update_intrinsic_refs u) =
      (let c := counts_of g' in
       ((derived_index_entries c, live_type_count c, live_object_count c, live_link_count c), intrinsic_refs c)) ∧
    (reads_ok g' = true → represents g' (published s u)).
Proof.
  intros R C U. pose proof (u_words _ _ _ U) as (Hw1 & Hw2 & Hw3 & _).
  assert (Hto : size (types (arrays_of g)) = count_of (a_identities s)).
  { rewrite (h_size _ _ (r_types _ _ R)). unfold count_of. by rewrite (c_identities _ C). }
  assert (Hoo : size (object_entries (arrays_of g)) = count_of (a_object_identities s)).
  { rewrite (h_size _ _ (r_objects _ _ R)). unfold count_of. by rewrite (c_object_identities _ C). }
  assert (Hlo : size (link_records (arrays_of g)) = count_of (a_links s)) by apply (h_size _ _ (r_links _ _ R)).
  assert (Hnamed : Forall (λ p, p.1 < count_of (a_named s ++ (const 0 <$> new_types u))) (named_ref_patches u)).
  { eapply Forall_impl; [apply U|]. intros p. cbn. unfold count_of. rewrite !length_app, length_fmap, (c_named _ C). lia. }
  unfold publish_prepared. rewrite Hto, Hoo, Hlo, (u_identity_index _ _ _ U), (u_object_index _ _ _ U), (u_link_index _ _ _ U), (u_derived_index _ _ _ U).
  destruct (publish_array grown (o 0%nat 0%nat) (by_slot (type_patches u)) (new_types u) _ _ (r_types _ _ R)
    (by_slot_in _ _ (u_type_patches _ _ _ U))) as (v1 & -> & _ & P1).
  destruct (publish_array grown (o 1%nat 0%nat) (by_slot (object_patches u)) (new_objects u) _ _ (r_objects _ _ R)
    (by_slot_in _ _ (u_object_patches _ _ _ U))) as (v2 & -> & _ & P2).
  destruct (publish_keyed link_key endpoint_hash grown (o 2%nat 0%nat) (o 6%nat) (by_slot (link_patches u)) (new_links u) _ _ _
    (r_links _ _ R) (r_link_index _ _ R) (u_unique_links _ _ _ U) (u_link_room _ _ _ U) Hw3 (link_patches_keys _ _ _ U))
    as (v3 & t3 & w3 & -> & E3 & _ & _ & P3).
  destruct (publish_array grown (o 3%nat 0%nat) _ _ _ _ (r_named _ _ R) Hnamed) as (v4 & -> & _ & P4).
  destruct (publish_identities grown (o 4%nat) _ _ _ _ (r_identities _ _ R) (r_identity_index _ _ R) (u_unique_types _ _ _ U)
    (u_type_room _ _ _ U) Hw1) as (t5 & v5 & E5 & P5).
  destruct (publish_identities grown (o 5%nat) _ _ _ _ (r_object_identities _ _ R) (r_object_index _ _ R) (u_unique_objects _ _ _ U)
    (u_object_room _ _ _ U) Hw2) as (t6 & v6 & E6 & P6).
  destruct (publish_derived (o 7%nat) g s u R C U) as (t7 & E7 & P7).
  destruct (publish_dependencies grown (o 8%nat 0%nat) (o 9%nat) g s u R C U) as (v8 & v9 & v10 & E8 & E9 & P8 & P9).
  unfold publish_index. cbn [mbind option_bind]. rewrite E5. cbn [mbind option_bind]. rewrite E6. cbn [mbind option_bind].
  change (insert_all RuntimeLayout.link_target endpoint_hash) with (insert_all link_key endpoint_hash).
  change (RuntimeLayout.link_target <$> new_links u) with (link_key <$> new_links u).
  rewrite E3. cbn [mbind option_bind]. rewrite E7. cbn [mbind option_bind]. rewrite E8. cbn [mbind option_bind]. rewrite E9.
  cbn [mbind option_bind]. destruct (update_counts u) as [[[c1 c2] c3] c4]. eexists. split_and!; [done..|].
  intros [(K1 & K2 & K3 & K4 & K5 & K6 & K7 & K8) (K9 & K10 & K11 & K12)]%reads_ok_spec. cbn in *.
  destruct (P3 K11 K5), (P5 K9 K2), (P6 K10 K4), (P7 K12), (P9 K8).
  assert (Hl : count_of (patched (by_slot (link_patches u)) (a_links s ++ new_links u)) = count_of (a_links s ++ new_links u)).
  { unfold count_of. by rewrite length_patched. }
  split; cbn; rewrite ?Hl; auto; apply append_prepared_holds, R.
Qed.

(** C9: the publication of an update ends, with the update's counts and
    intrinsic references.  If no access failed, the arrays of the graph afterwards hold the old
    lists with the new values appended, the patches made and the edges chained, every index is
    one of exactly the values of its list again, and the lists are coherent.  In a graph of the
    heap no access fails. *)
Theorem graph_publication grown o g s u : represents g s → coherent s → acceptable g s u →
  ∃ g', publish_prepared grown o g u = Some g' ∧
    (update_counts u, update_intrinsic_refs u) =
      (let c := counts_of g' in
       ((derived_index_entries c, live_type_count c, live_object_count c, live_link_count c), intrinsic_refs c)) ∧
    (reads_ok g' = true → represents g' (published s u) ∧ coherent (published s u)) ∧
    (heap_graph g → reads_ok g' = true).
Proof.
  intros R C U. destruct (publication_ends grown o g s u R C U) as (g' & E & Hc & Hr). exists g'. split_and!; [done..| |].
  - intros Hok. split; [by apply Hr|by apply (published_coherent g)].
  - intros H. by eapply reads_ok_heap, publication_heap.
Qed.

End GraphPublication.
