(* ===== verification/GraphQueries.v ===== *)
(** * What the graph answers, and what a preparation leaves

    The lookups of [Graph] against the lists a graph represents; that preparing an update
    changes none of them, and what its acceptance guarantees; the two steps together on
    concrete graphs, with the updates the preparation accepts but the publication cannot
    finish, and the update it refuses for the edge to a new type. *)

From S2P Require Import Prelude Probing MappedVector RuntimeLayout Graph GraphLookup GraphPublication.

Local Open Scope N_scope.

Module GraphQueries.

Import Probing MappedVector Graph GraphLookup GraphPublication.

(** ** Lookups *)

(** The handle of the value with a key. *)
Definition handle_in {V K} `{!EqDecision K} (key : V → K) (l : list V) (k : K) : N :=
  match list_find (λ v, key v = k) l with Some (i, _) => N.of_nat i + 1 | None => 0 end.

(** The handle if the entry of that slot is live. *)
Definition live_handle {A} (live : A → bool) (l : list A) (h : N) : N :=
  match (if h =? 0 then None else l !! N.to_nat (h - 1)) with
  | Some entry => if live entry then h else 0
  | None => 0
  end.

Lemma read_live_holds {A} `{!Inhabited A} (live : A → bool) mv l i : holds mv l →
  read_live live mv i = (x ← l !! N.to_nat i; if live x then Some x else None).
Proof.
  intros [W Hs Hc]. unfold read_live. rewrite <-Hc. destruct (contents mv i) as [v|] eqn:E.
  - by rewrite (read_some mv i v W E).
  - pose proof (read_none mv i W E) as Hr. destruct (read mv i) as [st v]. cbn in Hr. by rewrite Hr.
Qed.

Lemma find_slot_holds {V K} `{!Inhabited V} `{!EqDecision K} (key : V → K) (hash : K → N) slots values l k :
  holds values l → indexed key hash (count_of l) slots values → NoDup (key <$> l) →
  find_slot key hash slots values k = handle_in key l k.
Proof.
  intros H I Hd. unfold handle_in. destruct (list_find _ l) as [[i v]|] eqn:E.
  - apply list_find_Some in E as (Hi & <- & _). assert (Hlt : N.of_nat i < count_of l).
    { apply lookup_lt_Some in Hi. unfold count_of. lia. }
    apply (find_slot_hit key hash (count_of l)); [done| |done|by rewrite (h_contents _ _ H), Nat2N.id].
    apply (keys_distinct_list key values l); [done|]. intros j. by rewrite (h_contents _ _ H), list_lookup_fmap.
  - apply list_find_None in E. apply (find_slot_miss key hash (count_of l)); [done|]. intros i v Hi Hv.
    rewrite (h_contents _ _ H) in Hv. rewrite Forall_lookup in E. by eapply E.
Qed.

Lemma index_occupied {V K} `{!Inhabited V} `{!EqDecision K} (key : V → K) (hash : K → N) n slots values :
  indexed key hash n slots values → empty slots = false.
Proof. intros [I _]. pose proof (power_of_two_pos _ (ix_power _ _ _ _ _ I)). unfold empty. by apply N.eqb_neq, N.neq_sym, N.lt_neq. Qed.

Lemma live_lookup {A} `{!Inhabited A} (live : A → bool) mv l h : holds mv l →
  (if h =? 0 then 0 else match read_live live mv (h - 1) with Some _ => h | None => 0 end) = live_handle live l h.
Proof.
  intros H. unfold live_handle. destruct (h =? 0); [done|]. rewrite (read_live_holds live mv l) by done.
  destruct (l !! _) as [x|]; cbn; [|done]. by destruct (live x).
Qed.

Lemma handle_in_lookup {V K} `{!EqDecision K} (key : V → K) l i v : NoDup (key <$> l) → l !! i = Some v →
  handle_in key l (key v) = N.of_nat i + 1.
Proof.
  intros Hd Hi. unfold handle_in. destruct (list_find _ _) as [[j w]|] eqn:E.
  - apply list_find_Some in E as (Hj & Hk & _). enough (j = i) by lia. apply (NoDup_lookup _ _ _ (key v) Hd).
    + by rewrite list_lookup_fmap, Hj, <-Hk.
    + by rewrite list_lookup_fmap, Hi.
  - apply list_find_None in E. rewrite Forall_lookup in E. by destruct (E _ _ Hi).
Qed.

(** C10: in a graph that represents lists, a type, an object or a link is found
    exactly where its identity or target is in its list, and only while its entry is live;
    and the identity a live type answers with is the one of its slot, by which it is found. *)
Theorem graph_lookup g s : represents g s → coherent s →
  (∀ k, find_type g k = if k =? 0 then 0 else live_handle type_live (a_types s) (handle_in id (a_identities s) k)) ∧
  (∀ k, find_object g k = if k =? 0 then 0 else live_handle object_live (a_objects s) (handle_in id (a_object_identities s) k)) ∧
  (∀ t, find_link g t =
    if (RuntimeLayout.endpoint_object t =? 0) || negb (RuntimeLayout.member_valid (RuntimeLayout.endpoint_member t)) then 0
    else live_handle link_live (a_links s) (handle_in link_key (a_links s) t)) ∧
  (∀ h, type_identity g h ≠ 0 → find_type g (type_identity g h) = h).
Proof.
  intros R C.
  assert (Ht : ∀ k, find_type g k = if k =? 0 then 0 else live_handle type_live (a_types s) (handle_in id (a_identities s) k)).
  { intros k. unfold find_type, find_identity. rewrite (index_occupied _ _ _ _ _ (r_identity_index _ _ R)), orb_false_r.
    destruct (k =? 0); [done|].
    rewrite (find_slot_holds _ _ _ _ _ k (r_identities _ _ R) (r_identity_index _ _ R)) by (rewrite list_fmap_id; apply C).
    apply live_lookup, R. }
  split_and!; [done| | |].
  - intros k. unfold find_object, find_object_identity. rewrite (index_occupied _ _ _ _ _ (r_object_index _ _ R)), orb_false_r.
    destruct (k =? 0); [done|].
    rewrite (find_slot_holds _ _ _ _ _ k (r_object_identities _ _ R) (r_object_index _ _ R)) by (rewrite list_fmap_id; apply C).
    apply live_lookup, R.
  - intros t. unfold find_link, find_link_raw. rewrite (index_occupied _ _ _ _ _ (r_link_index _ _ R)), orb_false_r.
    destruct (_ || _); [done|].
    change (find_slot RuntimeLayout.link_target) with (find_slot link_key).
    rewrite (find_slot_holds _ _ _ _ _ t (r_links _ _ R) (r_link_index _ _ R)) by apply C. apply live_lookup, R.
  - intros h Hh. rewrite Ht. destruct (N.eqb_spec (type_identity g h) 0) as [|_]; [done|]. revert Hh.
    unfold type_identity, identity_raw. destruct (no_slot (types _) h) eqn:Hns; [done|]. unfold no_slot in Hns.
    apply orb_false_iff in Hns as [H0%N.eqb_neq Hsz%N.ltb_ge].
    rewrite (read_live_holds _ _ _ _ (r_types _ _ R)). destruct (a_types s !! _) as [x|] eqn:Ex; cbn; [|done].
    destruct (type_live x) eqn:Hx; [|done].
    destruct (no_slot (identities _) h); [done|].
    destruct (contents (identities (arrays_of g)) (h - 1)) as [k|] eqn:Ek; cycle 1.
    { pose proof (read_none _ _ (h_wf _ _ (r_identities _ _ R)) Ek) as Hr. destruct (read _ _) as [st v]. cbn in Hr. by rewrite Hr. }
    rewrite (read_some _ _ _ (h_wf _ _ (r_identities _ _ R)) Ek). change (status_ok ok) with true. cbv iota. intros Hk.
    rewrite (h_contents _ _ (r_identities _ _ R)) in Ek.
    assert (handle_in id (a_identities s) k = h) as ->; [|unfold live_handle; apply N.eqb_neq in H0; by rewrite H0, Ex, Hx].
    change (handle_in id (a_identities s) k) with (handle_in id (a_identities s) (id k)).
    rewrite (handle_in_lookup id _ _ _) with (2 := Ek) by (rewrite list_fmap_id; apply C). lia.
Qed.

(** ** Preparation *)

(** A vector whose records read as before. *)
Definition kept {A} `{!Inhabited A} (mv mv' : mapped_vector (T := A)) : Prop :=
  wf mv' ∧ size mv' = size mv ∧ ∀ i, contents mv' i = contents mv i.

Lemma kept_frame {A} `{!Inhabited A} (mv mv' : mapped_vector (T := A)) : wf mv' → same_frame mv mv' → kept mv mv'.
Proof. intros W F. split_and!; [done|by apply same_frame_readable|by apply F]. Qed.

Lemma graph_kept_refl {A} `{!Inhabited A} (mv : mapped_vector (T := A)) : wf mv → kept mv mv.
Proof. by intros. Qed.

Lemma kept_holds {A} `{!Inhabited A} (mv mv' : mapped_vector (T := A)) l : kept mv mv' → holds mv l → holds mv' l.
Proof. intros (W & Hs & Hc) [_ Hs' Hc']. split; [done|congruence|]. intros i. by rewrite Hc. Qed.

Lemma graph_kept_trans {A} `{!Inhabited A} (a b c : mapped_vector (T := A)) : kept a b → kept b c → kept a c.
Proof. intros (_ & H1 & H2) (W & H3 & H4). split_and!; [done|congruence|]. intros i. by rewrite H4. Qed.

Lemma reserve_kept {A} `{!Inhabited A} grown (mv : mapped_vector (T := A)) more : wf mv → kept mv (reserve_more grown mv more).
Proof. intros W. split_and!; [|done..]. apply wf_set_local; done. Qed.

Lemma kept_indexed {V K} `{!Inhabited V} `{!EqDecision K} (key : V → K) (hash : K → N) n slots slots' values values' :
  indexed key hash n slots values → kept slots slots' → kept values values' → indexed key hash n slots' values'.
Proof.
  intros [I Hc] (Ws & Hs & Cs) (Wv & Hv & Cv). split.
  - apply (tabled_same key hash n n slots slots' values values'); try done; rewrite ?Hv; try done; try apply I.
    + intros j Hj. rewrite Cv. apply I. by rewrite <-Hv.
    + intros s p _. unfold slot_key. by rewrite Cv.
  - intros i Hi. destruct (Hc i Hi) as (p & s & Hp & Hh). exists p, s. split; [|done]. unfold slot_at in *. by rewrite Cs.
Qed.

Lemma probe_visited {R} (visit : N → option R) mask fuel p r : probe visit mask fuel p = Some r → ∃ q, visit q = Some r.
Proof.
  revert p. induction fuel as [|fuel IH]; intros p; cbn [probe]; [done|].
  destruct (visit p) eqn:E; [intros [= <-]; eauto|apply IH].
Qed.

Lemma read_size {A} `{!Inhabited A} (mv : mapped_vector (T := A)) i : status_ok (read mv i).1 = true → i < size mv.
Proof. unfold read. by destruct (N.leb_spec (size mv) i). Qed.

(** The touched slot is materialized; nothing else happens. *)
Lemma at_mutable_kept {A} `{!Inhabited A} m (mv : mapped_vector (T := A)) i : wf mv → i < size mv →
  ∃ mv' p, at_mutable m mv i = Some (mv', p) ∧ kept mv mv'.
Proof.
  intros W Hi. destruct (at_mutable_reaches m mv i W Hi) as (mv' & p & E & R & _). exists mv', p.
  split; [done|]. apply kept_frame; apply R.
Qed.

Lemma touch_slot_kept {V K} `{!Inhabited V} `{!EqDecision K} (key : V → K) (hash : K → N) m slots values k : wf slots →
  ∃ slots' b, touch_slot key hash m slots values k = Some (slots', b) ∧ kept slots slots'.
Proof.
  intros W. unfold touch_slot. destruct (empty slots); [by eauto using graph_kept_refl|].
  destruct (probe _ _ _ _) as [[[position|]|]|] eqn:E; try (by eauto using graph_kept_refl).
  apply probe_visited in E as [q Hq]. assert (position < size slots) as Hlt.
  { unfold visit_touch in Hq. pose proof (read_size slots q) as Hr. destruct (read slots q) as [st slot]. cbn in Hr.
    destruct (status_ok st); cbn in Hq; [|done]. specialize (Hr eq_refl).
    destruct (handle slot =? 0); [by injection Hq as <-|]. destruct (_ && _); [|done].
    destruct (read values _) as [st' candidate]. by destruct (_ && _). }
  destruct (at_mutable_kept m slots position W Hlt) as (slots' & p & -> & Hk). by exists slots', true.
Qed.

Lemma touch_vacant_kept {E} `{!Inhabited E} (vacant : E → bool) m slots h : wf slots →
  ∃ slots' st, touch_vacant vacant m slots h = Some (slots', st) ∧ kept slots slots'.
Proof.
  intros W. unfold touch_vacant. destruct (probe _ _ _ _) as [[position|]|] eqn:Ep; try (by eauto using graph_kept_refl).
  apply probe_visited in Ep as [q Hq]. assert (position < size slots) as Hlt.
  { unfold visit_vacant in Hq. pose proof (read_size slots q) as Hr. destruct (read slots q) as [st slot]. cbn in Hr.
    destruct (status_ok st); cbn in Hq; [|done]. destruct (vacant slot); [|done]. injection Hq as <-. by apply Hr. }
  destruct (at_mutable_kept m slots position W Hlt) as (slots' & p & -> & Hk). by exists slots', ok.
Qed.

Lemma touch_all_kept {V} `{!Inhabited V} (key : V → N) ks : ∀ o slots values, wf slots →
  ∃ slots' st, touch_all o key slots values ks = Some (slots', st) ∧ kept slots slots'.
Proof.
  induction ks as [|k ks IH]; intros o slots values W; cbn [touch_all]; [by eauto using graph_kept_refl|].
  destruct (k =? 0); [by eauto using graph_kept_refl|].
  destruct (touch_slot_kept key identity_hash (o 0%nat) slots values k W) as (slots1 & b & -> & K1). cbn [mbind option_bind].
  destruct b; cbn [negb]; [|by eauto]. destruct (IH (λ n, o (S n)) slots1 values (proj1 K1)) as (slots' & st & -> & K2).
  eauto using graph_kept_trans.
Qed.

Lemma touch_links_kept links : ∀ o slots, wf slots →
  ∃ slots' st, touch_links o slots links = Some (slots', st) ∧ kept slots slots'.
Proof.
  induction links as [|l links IH]; intros o slots W; cbn [touch_links]; [by eauto using graph_kept_refl|].
  destruct (touch_vacant_kept (λ s, handle s =? 0) (o 0%nat) slots (endpoint_hash (RuntimeLayout.link_target l)) W)
    as (slots1 & st & -> & K1). cbn [mbind option_bind]. destruct (status_ok st); [|by eauto].
  destruct (IH (λ n, o (S n)) slots1 (proj1 K1)) as (slots' & st' & -> & K2). eauto using graph_kept_trans.
Qed.

Lemma touch_derived_kept records : ∀ o slots, wf slots →
  ∃ slots' st, touch_derived o slots records = Some (slots', st) ∧ kept slots slots'.
Proof.
  induction records as [|r records IH]; intros o slots W; cbn [touch_derived]; [by eauto using graph_kept_refl|].
  destruct (negb _); [by apply IH|]. destruct (empty slots); [by eauto using graph_kept_refl|].
  destruct (touch_vacant_kept (λ s, type_ref s =? 0) (o 0%nat) slots (derived_hash (detail r) (child_or_handle r) (payload r)) W)
    as (slots1 & st & -> & K1). cbn [mbind option_bind]. destruct (status_ok st); [|by eauto].
  destruct (IH (λ n, o (S n)) slots1 (proj1 K1)) as (slots' & st' & -> & K2). eauto using graph_kept_trans.
Qed.

Lemma touch_heads_kept edges : ∀ o heads, wf heads →
  ∃ heads' st, touch_heads o heads edges = Some (heads', st) ∧ kept heads heads'.
Proof.
  induction edges as [|[[t w] v] edges IH]; intros o heads W; cbn [touch_heads]; [by eauto using graph_kept_refl|].
  destruct (no_slot heads t) eqn:Hn; [by eauto using graph_kept_refl|].
  unfold no_slot in Hn. apply orb_false_iff in Hn as [H0%N.eqb_neq Hs%N.ltb_ge].
  destruct (at_mutable_kept (o 0%nat) heads (t - 1) W) as (heads1 & p & -> & K1); [lia|]. cbn [mbind option_bind].
  destruct (IH (λ n, o (S n)) heads1 (proj1 K1)) as (heads' & st & -> & K2). eauto using graph_kept_trans.
Qed.

(** *** The whole graph *)

Record kept_graph (g g' : graph) : Prop := KeptGraph {
  kg_types : kept (types (arrays_of g)) (types (arrays_of g'));
  kg_identities : kept (identities (arrays_of g)) (identities (arrays_of g'));
  kg_members : kept (member_records (arrays_of g)) (member_records (arrays_of g'));
  kg_enum_values : kept (enum_value_records (arrays_of g)) (enum_value_records (arrays_of g'));
  kg_objects : kept (object_entries (arrays_of g)) (object_entries (arrays_of g'));
  kg_object_identities : kept (object_identities (arrays_of g)) (object_identities (arrays_of g'));
  kg_links : kept (link_records (arrays_of g)) (link_records (arrays_of g'));
  kg_canonical : kept (canonical_types (arrays_of g)) (canonical_types (arrays_of g'));
  kg_named : kept (named_refs (arrays_of g)) (named_refs (arrays_of g'));
  kg_versions : kept (dependency_versions (arrays_of g)) (dependency_versions (arrays_of g'));
  kg_heads : kept (reverse_dependency_heads (arrays_of g)) (reverse_dependency_heads (arrays_of g'));
  kg_edges : kept (dependency_edges (arrays_of g)) (dependency_edges (arrays_of g'));
  kg_identity_index : kept (identity_index (indexes_of g)) (identity_index (indexes_of g'));
  kg_object_index : kept (object_identity_index (indexes_of g)) (object_identity_index (indexes_of g'));
  kg_link_index : kept (link_index (indexes_of g)) (link_index (indexes_of g'));
  kg_derived : kept (derived_index (indexes_of g)) (derived_index (indexes_of g'));
  kg_counts : counts_of g' = counts_of g;
}.

Lemma represents_kept g g' s : represents g s → kept_graph g g' → represents g' s.
Proof.
  intros R K. split; try (eapply kept_holds; [apply K|apply R]); try (eapply kept_indexed; [apply R|apply K..]).
  - apply (kg_derived _ _ K).
  - destruct (kg_derived _ _ K) as (_ & Hs & Hc). intros j r Hj Hr. destruct (r_derived _ _ R j r Hj Hr) as (d & Hd & Hat & Hb).
    exists d. rewrite Hs. split_and!; [done|by rewrite Hc|]. intros i Hi. unfold stops. rewrite Hc. by apply Hb.
Qed.

Lemma kept_vacancies {E} `{!Inhabited E} (vacant : E → bool) slots slots' : kept slots slots' →
  vacancies vacant slots' = vacancies vacant slots.
Proof.
  intros (_ & Hs & Hc). unfold vacancies. rewrite Hs. f_equal. apply list_filter_iff. intros p. unfold stops. by rewrite Hc.
Qed.

Lemma acceptable_kept g g' s u : acceptable g s u → kept_graph g g' → acceptable g' s u.
Proof.
  intros U K. destruct (kg_identity_index _ _ K) as (_ & H1 & _), (kg_object_index _ _ K) as (_ & H2 & _),
    (kg_link_index _ _ K) as (_ & H3 & _), (kg_derived _ _ K) as (_ & H4 & _).
  split; rewrite ?H1, ?H2, ?H3, ?H4, ?(kept_vacancies no_type _ _ (kg_derived _ _ K)); apply U.
Qed.

(** The indexes and heads are what a preparation touches. *)
Lemma kept_set_identity g h t : kept_graph g h → kept (identity_index (indexes_of h)) t → kept_graph g (set_identity_index h t).
Proof. intros [] K. split; cbn; try done. by eapply graph_kept_trans. Qed.
Lemma kept_set_object g h t : kept_graph g h → kept (object_identity_index (indexes_of h)) t → kept_graph g (set_object_identity_index h t).
Proof. intros [] K. split; cbn; try done. by eapply graph_kept_trans. Qed.
Lemma kept_set_link g h t : kept_graph g h → kept (link_index (indexes_of h)) t → kept_graph g (set_link_index h t).
Proof. intros [] K. split; cbn; try done. by eapply graph_kept_trans. Qed.
Lemma kept_set_derived g h t : kept_graph g h → kept (derived_index (indexes_of h)) t → kept_graph g (set_derived_index h t).
Proof. intros [] K. split; cbn; try done. by eapply graph_kept_trans. Qed.
Lemma kept_set_heads g h t : kept_graph g h → kept (reverse_dependency_heads (arrays_of h)) t → kept_graph g (set_heads h t).
Proof. intros [] K. split; cbn; try done. by eapply graph_kept_trans. Qed.

Lemma kept_graph_refl g s : represents g s → kept_graph g g.
Proof. intros R. split; try done; apply graph_kept_refl, R. Qed.

Lemma kept_reserve grown g s u : represents g s → kept_graph g (with_arrays g (reserve_all grown (arrays_of g) u)).
Proof. intros R. split; cbn; try done; try apply reserve_kept, R; apply graph_kept_refl, R. Qed.

(** Touching allocates no local storage. *)
Lemma at_mutable_capacity {A} `{!Inhabited A} m (mv : mapped_vector (T := A)) i mv' p :
  at_mutable m mv i = Some (mv', p) → capacity mv' = capacity mv.
Proof.
  unfold at_mutable. case_match; [by intros [= <- _]|]. unfold materialize_element.
  repeat case_match; intros; simplify_eq; done.
Qed.

Lemma touch_heads_capacity edges : ∀ o heads heads' st, touch_heads o heads edges = Some (heads', st) → capacity heads' = capacity heads.
Proof.
  induction edges as [|[[t w] v] edges IH]; intros o heads heads' st; cbn [touch_heads]; [by intros [= <- _]|].
  destruct (no_slot _ _); [by intros [= <- _]|]. intros ([heads1 p] & Ha & Ht)%bind_Some.
  rewrite (IH _ _ _ _ Ht). by eapply at_mutable_capacity.
Qed.

(** A growth that has room for what it was asked. *)
Definition grows (grown : N → N → N) : Prop := ∀ c n, c <= grown c n ∧ n <= grown c n.

Lemma reserve_room {A} grown (mv : mapped_vector (T := A)) more : grows grown → overflows (reserve_more grown mv more) more = false.
Proof.
  intros G. unfold overflows, reserve_more. apply N.ltb_ge. change (size (reserve _ _ _)) with (size mv).
  unfold capacity, reserve. cbn [baseline_count set_local local_capacity].
  destruct (N.ltb_spec (baseline_count mv) (size mv + more)) as [Hlt|Hge].
  - pose proof (proj2 (G (local_capacity mv) (size mv + more - baseline_count mv))). lia.
  - lia.
Qed.

Lemma reserve_all_room grown g u : grows grown → needs_rebuild (with_arrays g (reserve_all grown (arrays_of g) u)) u = false.
Proof. intros G. unfold needs_rebuild. cbn. by rewrite !reserve_room. Qed.

Lemma set_heads_room g t u : capacity t = capacity (reverse_dependency_heads (arrays_of g)) →
  size t = size (reverse_dependency_heads (arrays_of g)) → needs_rebuild (set_heads g t) u = needs_rebuild g u.
Proof. intros Hc Hs. unfold needs_rebuild, overflows. cbn. by rewrite Hc, Hs. Qed.

(** What is left of the graph by each way a preparation ends. *)
Record prepared_as (g g' : graph) (s : abstract_graph) (u : prepared_graph_update) (st : status_code) : Prop := PreparedAs {
  pa_represents : represents g' s;
  pa_counts : counts_of g' = counts_of g;
  pa_acceptable : acceptable g s u → acceptable g' s u;
  pa_ready : st = ok → needs_rebuild g' u = false ∧ (baseline_backed_graph g = true → reads_ok g' = true);
}.

Lemma prepared_kept g g' s u st : represents g s → kept_graph g g' →
  (st = ok → needs_rebuild g' u = false ∧ (baseline_backed_graph g = true → reads_ok g' = true)) → prepared_as g g' s u st.
Proof. intros R K H. split; [by eapply represents_kept|by apply K|intros U; by eapply acceptable_kept|done]. Qed.

Lemma optional_touch {A R} `{!Inhabited A} (rebuilt : option R) (mv : mapped_vector (T := A)) touch : wf mv →
  (∃ t st, touch = Some (t, st) ∧ kept mv t) →
  ∃ t (st : status_code), match rebuilt with Some _ => Some (mv, ok) | None => touch end = Some (t, st) ∧ kept mv t.
Proof. intros W H. destruct rebuilt; [|done]. by eauto using graph_kept_refl. Qed.

(** C11: preparing an update returns, and whatever it answers the graph represents
    the lists it did, with its counts, and still fits the update.  If it answers ok, every
    array has room for what the update appends, so that publishing it reallocates nothing, and
    no access of a baseline-backed graph has failed. *)
Theorem graph_prepare grown o reserved g s u : grows grown → represents g s →
  ∃ g' st, prepare_sparse_publication grown o reserved g u = Some (g', st) ∧ prepared_as g g' s u st.
Proof.
  intros G R. unfold prepare_sparse_publication.
  assert (Hstop : ∀ g' st, kept_graph g g' → st ≠ ok → ∃ h t, Some (g', st) = Some (h, t) ∧ prepared_as g h s u t).
  { intros g' st K Hst. do 2 eexists. split; [done|]. by apply prepared_kept. }
  destruct (baseline_backed_graph g) eqn:Hb; cbn [negb]; cycle 1.
  { do 2 eexists. split; [done|]. apply prepared_kept; [done|by eapply kept_graph_refl|].
    intros Hok. split; [by destruct (needs_rebuild g u)|congruence]. }
  destruct reserved; cbn [negb]; [|by apply Hstop; [eapply kept_graph_refl|]].
  set (g0 := with_arrays g _). assert (K0 : kept_graph g g0) by by eapply kept_reserve.
  assert (N0 : needs_rebuild g0 u = false) by by apply reserve_all_room.
  destruct (optional_touch (rebuilt_identity_index u) (identity_index (indexes_of g0)) _ (proj1 (kg_identity_index _ _ K0))
    (touch_all_kept id (new_identities u) (o 0%nat) _ (identities (arrays_of g0)) (proj1 (kg_identity_index _ _ K0)))) as (t1 & st1 & -> & T1).
  cbn [mbind option_bind]. apply (kept_set_identity _ _ _ K0) in T1 as K1. set (g1 := set_identity_index g0 t1) in *.
  destruct (status_ok st1) eqn:S1; cbn [negb]; [|by apply Hstop; [|intros ->]].
  destruct (optional_touch (rebuilt_object_identity_index u) (object_identity_index (indexes_of g1)) _ (proj1 (kg_object_index _ _ K1))
    (touch_all_kept id (new_object_identities u) (o 1%nat) _ (object_identities (arrays_of g1)) (proj1 (kg_object_index _ _ K1)))) as (t2 & st2 & -> & T2).
  cbn [mbind option_bind]. apply (kept_set_object _ _ _ K1) in T2 as K2. set (g2 := set_object_identity_index g1 t2) in *.
  destruct (status_ok st2) eqn:S2; cbn [negb]; [|by apply Hstop; [|intros ->]].
  destruct (optional_touch (rebuilt_link_index u) (link_index (indexes_of g2)) _ (proj1 (kg_link_index _ _ K2))
    (touch_links_kept (new_links u) (o 2%nat) _ (proj1 (kg_link_index _ _ K2)))) as (t3 & st3 & -> & T3).
  cbn [mbind option_bind]. apply (kept_set_link _ _ _ K2) in T3 as K3. set (g3 := set_link_index g2 t3) in *.
  destruct (status_ok st3) eqn:S3; cbn [negb]; [|by apply Hstop; [|intros ->]].
  destruct (optional_touch (rebuilt_derived_index u) (derived_index (indexes_of g3)) _ (proj1 (kg_derived _ _ K3))
    (touch_derived_kept (new_canonical_types u) (o 3%nat) _ (proj1 (kg_derived _ _ K3)))) as (t4 & st4 & -> & T4).
  cbn [mbind option_bind]. apply (kept_set_derived _ _ _ K3) in T4 as K4. set (g4 := set_derived_index g3 t4) in *.
  destruct (status_ok st4) eqn:S4; cbn [negb]; [|by apply Hstop; [|intros ->]].
  destruct (touch_heads_kept (pending_edges u) (o 4%nat) (reverse_dependency_heads (arrays_of g4)) (proj1 (kg_heads _ _ K4)))
    as (t5 & st5 & E5 & T5).
  rewrite E5. cbn [mbind option_bind]. apply (kept_set_heads _ _ _ K4) in T5 as K5.
  destruct (status_ok st5) eqn:S5; cbn [negb]; [|by apply Hstop; [|intros ->]].
  do 2 eexists. split; [done|]. apply prepared_kept; [done..|]. intros Hok. split.
  - rewrite set_heads_room; [exact N0|by eapply touch_heads_capacity|apply T5].
  - intros _. by destruct (reads_ok _).
Qed.

End GraphQueries.
