(* ===== verification/GraphExamples.v ===== *)
(** * Concrete graphs

    A published generation without types and an update of it, on which the theorems about
    lookup, preparation and publication apply; and two baseline-backed graphs: one on which
    the publication of an accepted update loses its new type, one whose preparation refuses an
    update that a graph of the heap takes. *)

From S2P Require Import Prelude Probing MappedVector Construction RuntimeLayout Graph GraphLookup GraphPublication GraphQueries.

Local Open Scope N_scope.

Module GraphExamples.

Import Probing MappedVector Graph GraphLookup GraphPublication GraphQueries.

(** ** A published generation *)

(** Tables of vacant slots are of no value. *)
Lemma vacant_indexed {V K} `{!Inhabited V} `{!EqDecision K} (key : V → K) (hash : K → N) slots values n :
  holds slots (replicate n initial) → power_of_two (N.of_nat n) → holds values [] → indexed key hash 0 slots values.
Proof.
  intros Hs Hp Hv. assert (Hsz : size slots = N.of_nat n) by (rewrite (h_size _ _ Hs); unfold count_of; by rewrite length_replicate).
  assert (Hat : ∀ p, slot_at slots p = None).
  { intros p. unfold slot_at. rewrite (h_contents _ _ Hs). destruct (_ !! _) as [s|] eqn:E; [|done].
    apply lookup_replicate in E as [-> _]. done. }
  split; [|intros i Hi; lia]. split; try (intros; rewrite Hat in *; done); try (by eapply holds_readable).
  - apply Hs.
  - apply Hv.
  - by rewrite Hsz.
  - rewrite (h_size _ _ Hv). done.
  - intros p s _. rewrite Hat. done.
Qed.

(** Vectors with room for four more. *)
Definition heap_of {A} (l : list A) : heap_vector A := HeapVector l (count_of l + 4).
Lemma vacant_table {V K} `{!Inhabited V} `{!EqDecision K} (key : V → K) (hash : K → N) (mv : mapped_vector (T := handle_slot))
    (mv' : mapped_vector (T := V)) :
  indexed key hash 0 (swap_in mv (heap_of (replicate 8 (HandleSlot 0 0)))) (swap_in mv' (heap_of [])).
Proof.
  apply (vacant_indexed _ _ _ _ 8); [exact (proj1 (swap_in_holds mv (heap_of (replicate 8 (HandleSlot 0 0)))))|by exists 3|].
  exact (proj1 (swap_in_holds mv' (heap_of []))).
Qed.

Definition blank : type_entry := TypeEntry (DefinitionRange 0 0) RuntimeLayout.record_kind RuntimeLayout.struct_type RuntimeLayout.none 0.

(** No types yet, and tables of eight slots. *)
Definition first_generation : prepared_graph_generation :=
  let table := heap_of (replicate 8 (HandleSlot 0 0)) in
  Generation (heap_of []) (heap_of []) (heap_of []) (heap_of []) (heap_of []) (heap_of []) (heap_of [])
    (heap_of [CanonicalType 0 0 intrinsic_kind 0]) table table table (heap_of [0])
    (heap_of (replicate 8 (DerivedSlot 0 0))) (heap_of []) (heap_of []) (heap_of []) (Counts 0 0 0 0 []).

Definition blank_graph : graph :=
  let v {A} `{!Inhabited A} : mapped_vector (T := A) := mapped_vector_init in
  GraphState false (Arrays v v v v v v v v v v v v) (Indexes v v v v) (Counts 0 0 0 0 []).
Definition first_graph : graph := publish_generation blank_graph first_generation.
Definition first_lists : abstract_graph :=
  AbstractGraph [] [] [] [] [] [] [] [CanonicalType 0 0 intrinsic_kind 0] [0] [] [] [].

Lemma first_represents : represents first_graph first_lists ∧ heap_graph first_graph ∧ coherent first_lists.
Proof.
  split_and!.
  - split; cbn [first_graph publish_generation arrays_of indexes_of types identities member_records enum_value_records
      object_entries object_identities link_records canonical_types named_refs dependency_versions
      reverse_dependency_heads dependency_edges identity_index object_identity_index link_index derived_index];
      try exact (proj1 (swap_in_holds _ _)); try exact (h_wf _ _ (proj1 (swap_in_holds _ _)));
      try exact (vacant_table _ _ _ _).
    intros [|j] r Hj Hr; [by injection Hj as <-|done].
  - split; exact (proj2 (swap_in_holds _ _)).
  - split; try done; try apply NoDup_nil_2. by eexists _, [].
Qed.

(** A type with one member, an object of it, a link, a derived type, and the edge of the
    member's type. *)
Definition new_type : type_entry :=
  TypeEntry (DefinitionRange 1 1) RuntimeLayout.record_kind RuntimeLayout.struct_type RuntimeLayout.none 0x80.
Definition first_update : prepared_graph_update :=
  Update [(1, new_type)] [blank] [5]
    [] [RuntimeLayout.ObjectEntry 1 0x80000000] [7]
    [] [RuntimeLayout.Link (RuntimeLayout.Endpoint 1 0) (RuntimeLayout.Endpoint 1 1)]
    [MemberRecord 3 1 public_access Construction.zero_value] []
    [CanonicalType 0 1 named_kind 0; CanonicalType 0 1 derived_kind 0]
    [] [(1, 1)] [(1, 2)] [(1, 1, 2)] None None None None (1, 1, 1, 1).

Lemma first_acceptable : acceptable first_graph first_lists first_update.
Proof.
  split; try done; try (vm_compute; done); try (by repeat constructor).
  - by intros p Hp%not_elem_of_nil.
  - apply (bool_decide_eq_true_1 _). by vm_compute.
  - apply (bool_decide_eq_true_1 _). by vm_compute.
  - apply NoDup_singleton.
  - intros _. by exists 3.
Qed.

Definition doubling (c n : N) : N := N.max (2 * c) n.
Definition second_graph : graph :=
  default first_graph (publish_prepared doubling (λ _ _ _, plenty) first_graph first_update).
Definition second_lists : abstract_graph := published first_lists first_update.

Lemma second_represents : represents second_graph second_lists ∧ coherent second_lists.
Proof.
  destruct first_represents as (R & H & C). split; [|by apply (published_coherent first_graph), first_acceptable].
  destruct (publication_ends doubling (λ _ _ _, plenty) first_graph first_lists first_update R C first_acceptable) as (g' & E & _ & Hr).
  unfold second_graph. rewrite E. apply Hr, reads_ok_heap. by apply (publication_heap _ _ _ _ _ _ H first_acceptable E).
Qed.

(** ** The theorems at these graphs *)

Lemma graph_publication_witness : ∃ g', publish_prepared doubling (λ _ _ _, plenty) first_graph first_update = Some g' ∧
  reads_ok g' = true ∧ represents g' second_lists ∧ coherent second_lists.
Proof.
  destruct first_represents as (R & H & C).
  destruct (graph_publication doubling (λ _ _ _, plenty) first_graph first_lists first_update R C first_acceptable)
    as (g' & E & _ & Hr & Hh).
  exists g'. split; [exact E|]. split; [exact (Hh H)|]. exact (Hr (Hh H)).
Defined.

Lemma graph_lookup_witness : find_type second_graph 5 = 1 ∧ find_type second_graph 6 = 0 ∧ find_object second_graph 7 = 1 ∧
  find_link second_graph (RuntimeLayout.Endpoint 1 1) = 1 ∧ find_link second_graph (RuntimeLayout.Endpoint 1 0) = 0.
Proof.
  destruct (graph_lookup second_graph second_lists (proj1 second_represents) (proj2 second_represents)) as (Ht & Ho & Hl & _).
  rewrite !Ht, Ho, !Hl. by vm_compute.
Defined.

Lemma doubling_grows : grows doubling.
Proof. intros c n. unfold doubling. lia. Qed.

Lemma graph_prepare_witness : ∃ g', prepare_sparse_publication doubling (λ _ _, plenty) true first_graph first_update = Some (g', ok) ∧
  acceptable g' first_lists first_update ∧ needs_rebuild g' first_update = false.
Proof.
  destruct (graph_prepare doubling (λ _ _, plenty) true first_graph first_lists first_update doubling_grows (proj1 first_represents))
    as (g' & st & E & P).
  assert (st = ok) as -> by (vm_compute in E; congruence).
  exists g'. split; [exact E|]. split; [exact (pa_acceptable _ _ _ _ _ P first_acceptable)|].
  exact (proj1 (pa_ready _ _ _ _ _ P eq_refl)).
Defined.

(** ** Two updates of a graph behind images *)

(** One live type of identity 5, in an index table of four slots. *)
Definition image : compiled_image_view :=
  CompiledImageView 1 0 0 1 (λ _, (ok, new_type)) (λ _, 5) 0 (λ _, (not_found, inhabitant)) 0 (λ _, (not_found, inhabitant))
    0 (λ _, (not_found, inhabitant)) (λ _, 0) 0 (λ _, (not_found, inhabitant)) 1 (λ _, (ok, CanonicalType 0 0 intrinsic_kind 0)).
Definition cache_image : build_cache_image_view :=
  let vacant (_ : N) := (ok, HandleSlot 0 0) in
  BuildCacheImageView 4 (λ i, (ok, if i =? 0 then HandleSlot (fold32 (identity_hash 5)) 1 else HandleSlot 0 0))
    4 vacant 4 vacant 2 (λ _, 0) 4 (λ _, (ok, DerivedSlot 0 0)) 0 1 (λ _, 1) (λ _, 0) 0 (λ _, (not_found, inhabitant)) (λ _, 0).
Definition image_graph : graph := graph_of_images image cache_image.

(** A second type, of identity 6, whose walk starts at the slot of the first. *)
Definition second_type (edges : list (N * N * N)) : prepared_graph_update :=
  Update [] [new_type] [6] [] [] [] [] [] [] [] [] [] [] [] edges None None None None (0, 2, 0, 0).

(** The preparation answers ok when only the vacant slot has been materialized.  If the
    accesses of the publication then get no memory, the slot it meets first cannot be
    materialized: the new type is in the arrays, and no lookup finds it. *)
Theorem publication_can_lose_a_type : ∃ g1 g2,
  prepare_sparse_publication doubling (λ _ _, plenty) true image_graph (second_type []) = Some (g1, ok) ∧
  publish_prepared doubling (λ _ _ _, Memory false false false) g1 (second_type []) = Some g2 ∧
  type_identity g2 2 = 6 ∧ find_type g2 6 = 0 ∧ reads_ok g2 = false.
Proof. do 2 eexists. split; [vm_compute; reflexivity|]. split; [vm_compute; reflexivity|]. by vm_compute. Qed.

(** An update with a dependency edge to a type it adds is refused behind images, and taken in
    a graph of the heap. *)
Theorem edge_to_new_type_is_refused :
  (∃ g1, prepare_sparse_publication doubling (λ _ _, plenty) true image_graph (second_type [(2, 2, 1)]) =
    Some (g1, invalid_argument)) ∧
  (∃ g1, prepare_sparse_publication doubling (λ _ _, plenty) true second_graph (second_type [(2, 2, 1)]) = Some (g1, ok)).
Proof. split; eexists; vm_compute; reflexivity. Qed.

End GraphExamples.
