(* ===== verification/ByteImage.v ===== *)
(** * Bytes of a persisted image

    Reading and writing little-endian words in a sequence of bytes, the way every image of
    server_engine/project/persistence does it, and the frame rules the round trips use: what
    was written is read back, and elsewhere nothing changed. *)

From Stdlib Require Import Strings.Byte.
From S2P Require Import Prelude Crc64.

Local Open Scope N_scope.

Module ByteImage.

#[export] Instance image_byte_eq_dec : EqDecision byte := byte_eq_dec.

(** [static_cast<std::byte>(value & 0xff)]. *)
Definition byte_of (value : N) : byte := default x00 (of_N (w8 value)).

Definition word_bytes (n : nat) (value : N) : list byte := (λ j, byte_of (N.shiftr value (N.of_nat j * 8))) <$> seq 0 n.
Definition word_value (bytes : list byte) : N := foldr (λ b rest, N.lor (to_N b) (N.shiftl rest 8)) 0 bytes.

(** [count] bytes from an offset, as many as there are. *)
Definition slice (image : list byte) (offset count : N) : list byte := take (N.to_nat count) (drop (N.to_nat offset) image).
Definition write_at (image : list byte) (offset : N) (bytes : list byte) : list byte :=
  list_inserts (N.to_nat offset) bytes image.

Definition image_size (image : list byte) : N := N.of_nat (length image).
Definition read_u32 (image : list byte) (offset : N) : N := word_value (slice image offset 4).
Definition read_u64 (image : list byte) (offset : N) : N := word_value (slice image offset 8).
Definition write_u32 (image : list byte) (offset value : N) : list byte := write_at image offset (word_bytes 4 value).
Definition write_u64 (image : list byte) (offset value : N) : list byte := write_at image offset (word_bytes 8 value).

(** The byte of an access; [None] is one outside the image. *)
Definition byte_at (image : list byte) (offset : N) : option byte :=
  if image_size image <=? offset then None else image !! N.to_nat offset.

(** ** Words *)

Lemma to_N_byte_of value : to_N (byte_of value) = w8 value.
Proof.
  unfold byte_of. destruct (of_N (w8 value)) as [b|] eqn:E; cbn.
  - by apply to_of_N.
  - apply of_N_None_iff in E. pose proof (w8_lt value). lia.
Qed.

Lemma length_word_bytes n value : length (word_bytes n value) = n.
Proof. unfold word_bytes. by rewrite length_fmap, length_seq. Qed.

Lemma word_bytes_S n value : word_bytes (S n) value = byte_of value :: word_bytes n (N.shiftr value 8).
Proof.
  unfold word_bytes. change (seq 0 (S n)) with (0%nat :: seq 1 n). rewrite fmap_cons.
  change (N.of_nat 0 * 8) with 0. rewrite N.shiftr_0_r. f_equal.
  rewrite <-seq_shift, <-list_fmap_compose. apply list_fmap_ext. intros _ j _. cbn [compose].
  rewrite N.shiftr_shiftr. do 2 f_equal. lia.
Qed.

Lemma word_value_cons b rest : word_value (b :: rest) = to_N b + 256 * word_value rest.
Proof.
  cbn [word_value foldr]. fold (word_value rest).
  rewrite N.lor_comm, N.shiftl_mul_pow2, lor_add_low by apply Crc64.to_N_lt. change (2 ^ 8) with 256. lia.
Qed.

Lemma word_value_bytes n value : word_value (word_bytes n value) = value mod 2 ^ (8 * N.of_nat n).
Proof.
  revert value. induction n as [|n IH]; intros value; [cbn; by rewrite N.mod_1_r|].
  rewrite word_bytes_S, word_value_cons, IH, to_N_byte_of, w8_mod, N.shiftr_div_pow2. change (2 ^ 8) with 256.
  replace (2 ^ (8 * N.of_nat (S n))) with (256 * 2 ^ (8 * N.of_nat n))
    by (rewrite <-(N.pow_add_r 2 8); f_equal; lia).
  by rewrite N.Div0.mod_mul_r.
Qed.

Lemma word_value_lt bytes : word_value bytes < 2 ^ (8 * N.of_nat (length bytes)).
Proof.
  induction bytes as [|b bytes IH]; [done|]. rewrite word_value_cons. cbn [length].
  replace (2 ^ (8 * N.of_nat (S (length bytes)))) with (256 * 2 ^ (8 * N.of_nat (length bytes)))
    by (rewrite <-(N.pow_add_r 2 8); f_equal; lia).
  pose proof (Crc64.to_N_lt b). nia.
Qed.

(** ** Frames *)

Lemma length_write_at image offset bytes : length (write_at image offset bytes) = length image.
Proof. apply length_inserts. Qed.

Lemma image_size_write image offset bytes : image_size (write_at image offset bytes) = image_size image.
Proof. unfold image_size. by rewrite length_write_at. Qed.

Lemma slice_lookup image offset count j : slice image offset count !! j =
  if decide (j < N.to_nat count)%nat then image !! (N.to_nat offset + j)%nat else None.
Proof.
  unfold slice. case_decide.
  - by rewrite lookup_take_lt, lookup_drop.
  - rewrite lookup_take_ge; [done|lia].
Qed.

Lemma length_slice image offset count : offset + count <= image_size image → length (slice image offset count) = N.to_nat count.
Proof. unfold slice, image_size. intros H. rewrite length_take, length_drop. lia. Qed.

Lemma slice_write_same image offset bytes count : count = N.of_nat (length bytes) → offset + count <= image_size image →
  slice (write_at image offset bytes) offset count = bytes.
Proof.
  intros -> H. unfold image_size in H. apply list_eq. intros j. rewrite slice_lookup. unfold write_at. case_decide as Hj.
  - rewrite list_lookup_inserts by lia. f_equal. lia.
  - rewrite lookup_ge_None_2; [done|lia].
Qed.

Lemma slice_write_other image offset bytes p count :
  offset + N.of_nat (length bytes) <= p ∨ p + count <= offset →
  slice (write_at image offset bytes) p count = slice image p count.
Proof.
  intros H. apply list_eq. intros j. rewrite !slice_lookup. case_decide as Hj; [|done]. unfold write_at.
  destruct H; [rewrite list_lookup_inserts_ge by lia|rewrite list_lookup_inserts_lt by lia]; done.
Qed.

(** A slice written back, and one of a slice. *)
Lemma slice_slice image offset count p n : p + n <= count → slice (slice image offset count) p n = slice image (offset + p) n.
Proof.
  intros H. apply list_eq. intros j. rewrite !slice_lookup. case_decide as Hj; [|done].
  rewrite decide_True by lia. f_equal. lia.
Qed.

Lemma slice_all image count : count = image_size image → slice image 0 count = image.
Proof. intros ->. unfold slice, image_size. rewrite Nat2N.id. apply take_ge. done. Qed.

Lemma write_at_twice image offset bytes bytes' : length bytes = length bytes' →
  write_at (write_at image offset bytes) offset bytes' = write_at image offset bytes'.
Proof.
  intros Hl. apply list_eq. intros j. unfold write_at. destruct (decide (j < N.to_nat offset)%nat).
  { by rewrite !list_lookup_inserts_lt. }
  destruct (decide (N.to_nat offset + length bytes' <= j)%nat).
  { by rewrite !list_lookup_inserts_ge by lia. }
  destruct (decide (j < length image)%nat).
  - rewrite !list_lookup_inserts; rewrite ?length_inserts; done || lia.
  - rewrite !lookup_ge_None_2; rewrite ?length_inserts; done || lia.
Qed.

(** ** Reading what was written *)

Lemma read_u32_same image offset value : offset + 4 <= image_size image → value < two32 →
  read_u32 (write_u32 image offset value) offset = value.
Proof.
  intros H Hv. unfold read_u32, write_u32. rewrite slice_write_same by (rewrite ?length_word_bytes; done).
  rewrite word_value_bytes. apply N.mod_small, Hv.
Qed.

Lemma read_u64_same image offset value : offset + 8 <= image_size image → value < two64 →
  read_u64 (write_u64 image offset value) offset = value.
Proof.
  intros H Hv. unfold read_u64, write_u64. rewrite slice_write_same by (rewrite ?length_word_bytes; done).
  rewrite word_value_bytes. apply N.mod_small, Hv.
Qed.

Lemma slice_write_u32 image offset value p count : offset + 4 <= p ∨ p + count <= offset →
  slice (write_u32 image offset value) p count = slice image p count.
Proof. intros H. apply slice_write_other. by rewrite length_word_bytes. Qed.

Lemma slice_write_u64 image offset value p count : offset + 8 <= p ∨ p + count <= offset →
  slice (write_u64 image offset value) p count = slice image p count.
Proof. intros H. apply slice_write_other. by rewrite length_word_bytes. Qed.

Lemma size_write_u32 image offset value : image_size (write_u32 image offset value) = image_size image.
Proof. apply image_size_write. Qed.
Lemma size_write_u64 image offset value : image_size (write_u64 image offset value) = image_size image.
Proof. apply image_size_write. Qed.

(** A word read elsewhere than at a write. *)
Lemma read_u32_other image offset bytes p : offset + N.of_nat (length bytes) <= p ∨ p + 4 <= offset →
  read_u32 (write_at image offset bytes) p = read_u32 image p.
Proof. intros H. unfold read_u32. by rewrite slice_write_other. Qed.
Lemma read_u64_other image offset bytes p : offset + N.of_nat (length bytes) <= p ∨ p + 8 <= offset →
  read_u64 (write_at image offset bytes) p = read_u64 image p.
Proof. intros H. unfold read_u64. by rewrite slice_write_other. Qed.

End ByteImage.
