(* ===== verification/ChangeStateImage.v ===== *)
(** * The change-state image

    Models server_engine/project/persistence/change_state_image.{hpp,cpp}: the encoder of the
    image of version 3 with its three Bloom filters, [bind] for the versions 1 to 3, the
    membership queries, the exact lookups of the versions 1 and 2, and [verify_contents].

    A pointer into the image is the offset it has there, and a query reads bytes through
    [ByteImage.byte_at]: [None] is an access outside the image. *)

From Stdlib Require Import Strings.Byte.
From S2P Require Import Prelude Crc64 Probing ByteImage.

Local Open Scope N_scope.

Module ChangeStateImage.

Import Probing ByteImage.

(** ** Data *)

Inductive source_change_backend : Set := no_backend | windows_usn.
#[export] Instance source_change_backend_eq_dec : EqDecision source_change_backend.
Proof. solve_decision. Defined.

Record source_change_checkpoint : Set := Checkpoint {
  backend : source_change_backend; volume_serial : N; journal_id : N; next_usn : Z }.
Definition no_checkpoint : source_change_checkpoint := Checkpoint no_backend 0 0 0.
Definition is_set (c : source_change_checkpoint) : bool := bool_decide (backend c = windows_usn).

Record file_index_slot : Set := FileSlot { file_reference : N; source : N; file_reserved : N }.
Record directory_index_slot : Set := DirectorySlot { directory_reference : N; flags : N; directory_reserved : N }.

Definition watch_topology : N := 1.
Definition watch_arrival : N := 2.
Definition watch_known : N := N.lor watch_topology watch_arrival.
Definition unknown_flags (f : N) : bool := negb (N.land f (N.lxor 0xffffffff watch_known) =? 0).

(** What the encoder uses of [source_change_capture]. *)
Record source_change_capture : Set := Capture {
  checkpoint : source_change_checkpoint;
  file_index : list file_index_slot; directory_index : list directory_index_slot }.

(** ** Sizes *)

Definition change_state_image_format_version : N := 3.
Definition image_magic_v1 : list byte := [x43; x57; x43; x53; x56; x31; x00; x00].
Definition image_magic_v2 : list byte := [x43; x57; x43; x53; x56; x32; x00; x00].
Definition image_magic_v3 : list byte := [x43; x57; x43; x53; x56; x33; x00; x00].
Definition endian_marker : N := 0x01020304.
Definition header_size : N := 128.
Definition directory_offset : N := header_size.
Definition directory_entry_size : N := 32.
Definition v1_directory_count : N := 3.
Definition v1_directory_bytes : N := v1_directory_count * directory_entry_size.
Definition v1_first_section_offset : N := 256.
Definition v1_file_slot_size : N := 16.
Definition v2_directory_count : N := 5.
Definition v2_directory_bytes : N := v2_directory_count * directory_entry_size.
Definition v2_first_section_offset : N := 320.
Definition v3_directory_count : N := 4.
Definition v3_directory_bytes : N := v3_directory_count * directory_entry_size.
Definition v3_first_section_offset : N := 256.
Definition bloom_hash_count : nat := 14.
Definition bloom_bits_per_entry : N := 20.
Definition minimum_bloom_bytes : N := 64.
Definition file_control_size : N := 1.
Definition file_reference_size : N := 8.
Definition file_source_size : N := 4.
Definition directory_slot_size : N := 16.

(** The sums of the offsets are 64-bit. *)
Definition align64 (value : N) : N := N.land (w64 (value + 63)) (N.lxor 0xffffffffffffffff 63).
Definition after (offset count size : N) : N := align64 (w64 (offset + w64 (count * size))).

Definition power_of_two_or_zero (value : N) : bool := (value =? 0) || (N.land value (value - 1) =? 0).

(** ** Bloom filters *)

Definition size_max : N := two64 - 1.

(** The doubling loop; 64 rounds are all a 64-bit size has. *)
Fixpoint double_until (fuel : nat) (bytes required : N) : N :=
  match fuel with
  | O => bytes
  | S fuel' =>
      if bytes <? required then if size_max / 2 <? bytes then 0 else double_until fuel' (bytes * 2) required else bytes
  end.

Definition bloom_bytes_for_count (count : N) : N :=
  if count =? 0 then 0
  else if size_max / bloom_bits_per_entry <? count then 0
  else
    let bits := count * bloom_bits_per_entry in
    let required_bytes := bits / 8 + (if bits mod 8 =? 0 then 0 else 1) in
    double_until 64 minimum_bloom_bytes required_bytes.

(** The bit of the [index]-th hash in a filter of [size] bytes. *)
Definition bloom_bit (size value : N) (index : nat) : N :=
  let mask := w64 (w64 (size * 8) + size_max) in
  let h1 := mix64 (N.lxor value 0x9e3779b97f4a7c15) in
  let h2 := N.lor (mix64 (N.lxor value 0xd1b54a32d192ed03)) 1 in
  N.land (w64 (h1 + w64 (N.of_nat index * h2))) mask.

Definition set_bit (bloom : list byte) (bit : N) : list byte :=
  alter (λ target, byte_of (N.lor (to_N target) (N.shiftl 1 (N.land bit 7)))) (N.to_nat (N.shiftr bit 3)) bloom.

Definition bloom_add (bloom : list byte) (value : N) : list byte :=
  if bool_decide (bloom = []) || (value =? 0) then bloom
  else foldl (λ bloom index, set_bit bloom (bloom_bit (image_size bloom) value index)) bloom (seq 0 bloom_hash_count).

(** The query of the filter of [size] bytes at an offset of the image. *)
Fixpoint bloom_test (image : list byte) (offset size value : N) (indexes : list nat) : option bool :=
  match indexes with
  | [] => Some true
  | index :: indexes' =>
      let bit := bloom_bit size value index in
      byte ← byte_at image (offset + N.shiftr bit 3);
      if N.land (to_N byte) (N.shiftl 1 (N.land bit 7)) =? 0 then Some false
      else bloom_test image offset size value indexes'
  end.

Definition bloom_maybe (image : list byte) (offset size value : N) : option bool :=
  if (size =? 0) || (value =? 0) then Some false else bloom_test image offset size value (seq 0 bloom_hash_count).

(** ** Binding *)

Definition valid_checkpoint (source_count file_count directory_count : N) (c : source_change_checkpoint) : bool :=
  (negb (is_set c) && (volume_serial c =? 0) && (journal_id c =? 0) && (next_usn c =? 0)%Z && (file_count =? 0) &&
   (directory_count =? 0)) ||
  (is_set c && negb (volume_serial c =? 0) && negb (journal_id c =? 0) && (0 <=? next_usn c)%Z &&
   ((source_count =? 0) || negb (file_count =? 0))).

Definition int64_of (bits : N) : Z := (if (bits <? 2 ^ 63)%N then Z.of_N bits else Z.of_N bits - 2 ^ 64)%Z.
Definition bits_of (value : Z) : N := Z.to_N (value mod 2 ^ 64).

Definition crc (bytes : list byte) : N := Crc64.persistence_crc64 false bytes.

(** The header all versions have; [None] is [artifact_corrupt]. *)
Definition read_common_header (image : list byte) (version directory_count directory_bytes first_section_offset : N) :
    option (N * source_change_checkpoint) :=
  if (image_size image <? first_section_offset) || negb (read_u32 image 8 =? version) ||
     negb (read_u32 image 12 =? endian_marker) || negb (read_u32 image 16 =? header_size) ||
     negb (read_u32 image 20 =? directory_count) || negb (read_u32 image 24 =? directory_entry_size) ||
     negb (read_u64 image 32 =? directory_offset) || negb (read_u64 image 40 =? image_size image)
  then None
  else if negb (crc (write_u64 (slice image 0 header_size) 96 0) =? read_u64 image 96) then None
  else if negb (crc (slice image directory_offset directory_bytes) =? read_u64 image 104) then None
  else if two32 - 1 <? read_u64 image 48 then None
  else if (1 <? read_u32 image 56) || negb (read_u32 image 60 =? 0) then None
  else Some (read_u64 image 48,
    Checkpoint (if read_u32 image 56 =? 0 then no_backend else windows_usn) (read_u64 image 64) (read_u64 image 72)
      (int64_of (read_u64 image 80))).

(** A filter or table of the image: where it is, what it holds and its checksum. *)
Record section : Set := Section_ { section_offset : N; section_count : N; section_crc : N }.
Definition no_section : section := Section_ 0 0 0.

Record change_state_image_view : Set := View {
  bytes : list byte; format_version : N;
  legacy_file_index : section;
  file_control : section; file_references : section; file_sources : section;
  source_bloom : section; topology_bloom : section; arrival_bloom : section;
  directory_slots : section;
  journal_anchor : section;
  source_count : N; view_checkpoint : source_change_checkpoint }.

(** What [reset] leaves. *)
Definition reset_view : change_state_image_view :=
  View [] 0 no_section no_section no_section no_section no_section no_section no_section no_section no_section 0 no_checkpoint.

Definition entry (index : N) : N := directory_offset + index * directory_entry_size.
Definition read_section (image : list byte) (index : N) : section :=
  Section_ (read_u64 image (entry index + 8)) (read_u64 image (entry index + 16)) (read_u64 image (entry index + 24)).
Definition entry_is (image : list byte) (index size : N) : bool :=
  (read_u32 image (entry index) =? index + 1) && (read_u32 image (entry index + 4) =? size).

(** [anchor_offset + anchor_size != image.size()] and the like. *)
Definition ends_with (image : list byte) (anchor : section) : bool :=
  negb (section_count anchor =? 0) && (w64 (section_offset anchor + section_count anchor) =? image_size image).

Definition bind_v3 (image : list byte) : option change_state_image_view :=
  '(sources, c) ← read_common_header image change_state_image_format_version v3_directory_count v3_directory_bytes
                    v3_first_section_offset;
  let source := read_section image 0 in
  let topology := read_section image 1 in
  let arrival := read_section image 2 in
  let anchor := read_section image 3 in
  if negb (entry_is image 0 1 && entry_is image 1 1 && entry_is image 2 1 && entry_is image 3 1) then None
  else if negb (power_of_two_or_zero (section_count source) && power_of_two_or_zero (section_count topology) &&
                power_of_two_or_zero (section_count arrival)) then None
  else if negb ((section_offset source =? v3_first_section_offset) &&
                (section_offset topology =? after (section_offset source) (section_count source) 1) &&
                (section_offset arrival =? after (section_offset topology) (section_count topology) 1) &&
                (section_offset anchor =? after (section_offset arrival) (section_count arrival) 1) &&
                ends_with image anchor) then None
  else if negb (valid_checkpoint sources (section_count source)
                  (w64 (section_count topology + section_count arrival)) c) then None
  else Some (View image change_state_image_format_version no_section no_section no_section no_section source topology
               arrival no_section anchor sources c).

Definition bind_v1 (image : list byte) : option change_state_image_view :=
  '(sources, c) ← read_common_header image 1 v1_directory_count v1_directory_bytes v1_first_section_offset;
  let file := read_section image 0 in
  let directory := read_section image 1 in
  let anchor := read_section image 2 in
  if negb (entry_is image 0 v1_file_slot_size && entry_is image 1 directory_slot_size && entry_is image 2 1) then None
  else if negb (power_of_two_or_zero (section_count file) && power_of_two_or_zero (section_count directory)) then None
  else if negb ((section_offset file =? v1_first_section_offset) &&
                (section_offset directory =? after (section_offset file) (section_count file) v1_file_slot_size) &&
                (section_offset anchor =? after (section_offset directory) (section_count directory) directory_slot_size) &&
                ends_with image anchor) then None
  else if negb (valid_checkpoint sources (section_count file) (section_count directory) c) then None
  else Some (View image 1 file no_section no_section no_section no_section no_section no_section directory
               anchor sources c).

Definition bind_v2 (image : list byte) : option change_state_image_view :=
  '(sources, c) ← read_common_header image 2 v2_directory_count v2_directory_bytes v2_first_section_offset;
  let control := read_section image 0 in
  let reference := read_section image 1 in
  let source := read_section image 2 in
  let directory := read_section image 3 in
  let anchor := read_section image 4 in
  if negb (entry_is image 0 file_control_size && entry_is image 1 file_reference_size &&
           entry_is image 2 file_source_size && entry_is image 3 directory_slot_size && entry_is image 4 1) then None
  else if negb ((section_count control =? section_count reference) && (section_count control =? section_count source) &&
                power_of_two_or_zero (section_count control) && power_of_two_or_zero (section_count directory)) then None
  else if negb ((section_offset control =? v2_first_section_offset) &&
                (section_offset reference =? after (section_offset control) (section_count control) file_control_size) &&
                (section_offset source =? after (section_offset reference) (section_count reference) file_reference_size) &&
                (section_offset directory =? after (section_offset source) (section_count source) file_source_size) &&
                (section_offset anchor =? after (section_offset directory) (section_count directory) directory_slot_size) &&
                ends_with image anchor) then None
  else if negb (valid_checkpoint sources (section_count control) (section_count directory) c) then None
  else Some (View image 2 no_section control reference source no_section no_section no_section directory
               anchor sources c).

(** [bind]: the view, and whether the image was taken; a view of a refused image is reset. *)
Definition bind (image : list byte) : change_state_image_view * status_code :=
  let bound :=
    if image_size image <? header_size then None
    else
      let magic := slice image 0 8 in
      if bool_decide (magic = image_magic_v3) then bind_v3 image
      else if bool_decide (magic = image_magic_v1) then bind_v1 image
      else if bool_decide (magic = image_magic_v2) then bind_v2 image
      else None in
  match bound with Some view => (view, ok) | None => (reset_view, artifact_corrupt) end.

(** ** Queries *)

Definition gate_only (v : change_state_image_view) : bool := format_version v =? change_state_image_format_version.
Definition valid (v : change_state_image_view) : bool := negb (format_version v =? 0).

(** [path]; [None] is a view that ends outside the image. *)
Definition journal_anchor_path (v : change_state_image_view) : option (list byte) :=
  let anchor := journal_anchor v in
  if image_size (bytes v) <? section_offset anchor + section_count anchor then None
  else Some (slice (bytes v) (section_offset anchor) (section_count anchor)).

(** Words of a slot; [None] is an access outside the image. *)
Definition word_at (image : list byte) (offset size : N) : option N :=
  if image_size image <? offset + size then None else Some (word_value (slice image offset size)).

(** A source the index may name. *)
Definition known_source (v : change_state_image_view) (source : N) : bool := negb (source =? 0) && (source <=? source_count v).

(** One step of the walk of [find_source_file]: the access may leave the image (the outer
    [None]), and the walk may end with an answer, zero for none. *)
Definition visit_v1 (v : change_state_image_view) (reference position : N) : option (option N) :=
  let slot := section_offset (legacy_file_index v) + position * v1_file_slot_size in
  candidate ← word_at (bytes v) slot 8;
  if candidate =? 0 then Some (Some 0)
  else if candidate =? reference then
    source ← word_at (bytes v) (slot + 8) 4;
    reserved ← word_at (bytes v) (slot + 12) 4;
    Some (Some (if known_source v source && (reserved =? 0) then source else 0))
  else Some None.

Definition visit_v2 (v : change_state_image_view) (reference position : N) : option (option N) :=
  control ← word_at (bytes v) (section_offset (file_control v) + position) 1;
  if negb (control =? 1) then Some (Some 0)
  else
    candidate ← word_at (bytes v) (section_offset (file_references v) + position * file_reference_size) 8;
    if candidate =? reference then
      source ← word_at (bytes v) (section_offset (file_sources v) + position * file_source_size) 4;
      Some (Some (if known_source v source then source else 0))
    else Some None.

(** The step of [directory_watch_flags]. *)
Definition visit_directory (v : change_state_image_view) (reference position : N) : option (option N) :=
  let slot := section_offset (directory_slots v) + position * directory_slot_size in
  candidate ← word_at (bytes v) slot 8;
  if candidate =? 0 then Some (Some 0)
  else if candidate =? reference then
    flags ← word_at (bytes v) (slot + 8) 4;
    reserved ← word_at (bytes v) (slot + 12) 4;
    Some (Some (if (reserved =? 0) && negb (unknown_flags flags) then flags else 0))
  else Some None.

(** A walk over [count] slots from the home of the reference: the loop of [Probing], ended
    also by an access outside the image. *)
Definition stop_on (step : option (option N)) : option (option N) :=
  match step with None => Some None | Some (Some answer) => Some (Some answer) | Some None => None end.

Definition walk (count reference : N) (visit : N → option (option N)) : option N :=
  if (reference =? 0) || (count =? 0) then Some 0
  else
    default (Some 0) (probe (λ position, stop_on (visit position)) (count - 1) (N.to_nat count)
      (N.land (mix64 reference) (count - 1))).

Definition file_index_count (v : change_state_image_view) : N :=
  section_count (if format_version v =? 1 then legacy_file_index v else file_control v).

Definition find_source_file (v : change_state_image_view) (reference : N) : option N :=
  if gate_only v then Some 0
  else walk (file_index_count v) reference (if format_version v =? 1 then visit_v1 v reference else visit_v2 v reference).

Definition directory_watch_flags (v : change_state_image_view) (reference : N) : option N :=
  if gate_only v then Some 0 else walk (section_count (directory_slots v)) reference (visit_directory v reference).

Definition filter_maybe (v : change_state_image_view) (filter : section) (reference : N) : option bool :=
  bloom_maybe (bytes v) (section_offset filter) (section_count filter) reference.

Definition may_contain_source_file (v : change_state_image_view) (reference : N) : option bool :=
  if gate_only v then filter_maybe v (source_bloom v) reference
  else source ← find_source_file v reference; Some (negb (source =? 0)).

Definition may_watch_directory_topology (v : change_state_image_view) (reference : N) : option bool :=
  if gate_only v then filter_maybe v (topology_bloom v) reference
  else flags ← directory_watch_flags v reference; Some (negb (N.land flags watch_topology =? 0)).

Definition may_watch_directory_arrival (v : change_state_image_view) (reference : N) : option bool :=
  if gate_only v then filter_maybe v (arrival_bloom v) reference
  else flags ← directory_watch_flags v reference; Some (negb (N.land flags watch_arrival =? 0)).

(** The checksum of a section of records of [size] bytes; [None] is a span outside the image. *)
Definition section_intact (v : change_state_image_view) (x : section) (size : N) : option bool :=
  if image_size (bytes v) <? section_offset x + section_count x * size then None
  else Some (crc (slice (bytes v) (section_offset x) (section_count x * size)) =? section_crc x).

Definition anchor_intact (v : change_state_image_view) (index : N) : option bool :=
  path ← journal_anchor_path v; Some (crc path =? read_u64 (bytes v) (entry index + 24)).

Definition intact_status (intact : bool) : status_code := if intact then ok else artifact_corrupt.

(** [verify_contents]. *)
Definition verify_contents (v : change_state_image_view) : option status_code :=
  if negb (valid v) then Some invalid_state
  else if gate_only v then
    a ← section_intact v (source_bloom v) 1;
    b ← section_intact v (topology_bloom v) 1;
    c ← section_intact v (arrival_bloom v) 1;
    d ← anchor_intact v 3;
    Some (intact_status (a && b && c && d))
  else
    directory ← section_intact v (directory_slots v) directory_slot_size;
    if negb directory then Some artifact_corrupt
    else
      anchor ← anchor_intact v (if format_version v =? 1 then 2 else 4);
      if negb anchor then Some artifact_corrupt
      else if format_version v =? 1 then
        a ← section_intact v (legacy_file_index v) v1_file_slot_size; Some (intact_status a)
      else
        a ← section_intact v (file_control v) file_control_size;
        b ← section_intact v (file_references v) file_reference_size;
        c ← section_intact v (file_sources v) file_source_size;
        Some (intact_status (a && b && c)).

(** ** Encoding *)

(** The checks before anything is written; [None] is [invalid_argument]. *)
Definition capture_valid (sources : N) (path : list byte) (c : source_change_capture) : bool :=
  let k := checkpoint c in
  negb ((two32 - 1 <? sources) || (is_set k && bool_decide (path = []))) &&
  negb ((negb (is_set k) && (negb (bool_decide (file_index c = [])) || negb (bool_decide (directory_index c = [])))) ||
        (is_set k && ((volume_serial k =? 0) || (journal_id k =? 0) || (next_usn k <? 0)%Z ||
                      (negb (sources =? 0) && bool_decide (file_index c = [])))) ||
        negb (power_of_two_or_zero (N.of_nat (length (file_index c)))) ||
        negb (power_of_two_or_zero (N.of_nat (length (directory_index c))))).

Definition file_slot_valid (sources : N) (s : file_index_slot) : bool :=
  if file_reference s =? 0 then (source s =? 0) && (file_reserved s =? 0)
  else negb (source s =? 0) && (source s <=? sources) && (file_reserved s =? 0).

Definition directory_slot_valid (s : directory_index_slot) : bool :=
  if directory_reference s =? 0 then (flags s =? 0) && (directory_reserved s =? 0)
  else (directory_reserved s =? 0) && negb (flags s =? 0) && negb (unknown_flags (flags s)).

Definition watches (flag : N) (s : directory_index_slot) : bool :=
  negb (directory_reference s =? 0) && negb (N.land (flags s) flag =? 0).

(** The references each filter is given, in order. *)
Definition source_references (c : source_change_capture) : list N :=
  filter (λ r, r ≠ 0) (file_reference <$> file_index c).
Definition watch_references (flag : N) (c : source_change_capture) : list N :=
  directory_reference <$> filter (λ s, watches flag s = true) (directory_index c).

(** The header and the directory, written into the zeroed output. *)
Definition write_header (output : list byte) (size sources : N) (k : source_change_checkpoint) : list byte :=
  let output := write_at output 0 image_magic_v3 in
  let output := write_u32 output 8 change_state_image_format_version in
  let output := write_u32 output 12 endian_marker in
  let output := write_u32 output 16 header_size in
  let output := write_u32 output 20 v3_directory_count in
  let output := write_u32 output 24 directory_entry_size in
  let output := write_u64 output 32 directory_offset in
  let output := write_u64 output 40 size in
  let output := write_u64 output 48 sources in
  let output := write_u32 output 56 (if is_set k then 1 else 0) in
  let output := write_u64 output 64 (volume_serial k) in
  let output := write_u64 output 72 (journal_id k) in
  write_u64 output 80 (bits_of (next_usn k)).

Definition write_entry (output : list byte) (index offset count : N) : list byte :=
  let output := write_u32 output (entry index) (index + 1) in
  let output := write_u32 output (entry index + 4) 1 in
  let output := write_u64 output (entry index + 8) offset in
  write_u64 output (entry index + 16) count.

Definition write_filter (output : list byte) (offset count : N) (references : list N) : list byte :=
  write_at output offset (foldl bloom_add (slice output offset count) references).

Definition write_section_crc (output : list byte) (index offset count : N) : list byte :=
  write_u64 output (entry index + 24) (crc (slice output offset count)).

Definition write_directory_crc (output : list byte) : list byte :=
  write_u64 output 104 (crc (slice output directory_offset v3_directory_bytes)).
Definition write_header_crc (output : list byte) : list byte :=
  write_u64 output 96 (crc (slice output 0 header_size)).

(** The image of a capture that passed the checks, its filters of the sizes given. *)
Definition encode_image (sources : N) (path : list byte) (c : source_change_capture)
    (source_bytes topology_bytes arrival_bytes : N) : list byte :=
  let source_offset := v3_first_section_offset in
  let topology_offset := after source_offset source_bytes 1 in
  let arrival_offset := after topology_offset topology_bytes 1 in
  let anchor_offset := after arrival_offset arrival_bytes 1 in
  let path_size := image_size path in
  let file_size := w64 (anchor_offset + path_size) in
  let output := replicate (N.to_nat file_size) x00 in
  let output := write_header output file_size sources (checkpoint c) in
  let output := write_entry output 0 source_offset source_bytes in
  let output := write_entry output 1 topology_offset topology_bytes in
  let output := write_entry output 2 arrival_offset arrival_bytes in
  let output := write_entry output 3 anchor_offset path_size in
  let output := write_filter output source_offset source_bytes (source_references c) in
  let output := write_filter output topology_offset topology_bytes (watch_references watch_topology c) in
  let output := write_filter output arrival_offset arrival_bytes (watch_references watch_arrival c) in
  let output := write_at output anchor_offset path in
  let output := write_section_crc output 0 source_offset source_bytes in
  let output := write_section_crc output 1 topology_offset topology_bytes in
  let output := write_section_crc output 2 arrival_offset arrival_bytes in
  let output := write_section_crc output 3 anchor_offset path_size in
  write_header_crc (write_u64 (write_directory_crc output) 96 0).

(** [encode_change_state_image]; [allocated]: whether the output can be allocated. *)
Definition encode_change_state_image (allocated : bool) (sources : N) (path : list byte) (c : source_change_capture) :
    status_code * list byte :=
  if negb (capture_valid sources path c) then (invalid_argument, [])
  else if negb (forallb (file_slot_valid sources) (file_index c)) then (invalid_argument, [])
  else if negb (forallb directory_slot_valid (directory_index c)) then (invalid_argument, [])
  else
    let source_count := N.of_nat (length (source_references c)) in
    let topology_count := N.of_nat (length (watch_references watch_topology c)) in
    let arrival_count := N.of_nat (length (watch_references watch_arrival c)) in
    let source_bytes := bloom_bytes_for_count source_count in
    let topology_bytes := bloom_bytes_for_count topology_count in
    let arrival_bytes := bloom_bytes_for_count arrival_count in
    if (negb (source_count =? 0) && (source_bytes =? 0)) || (negb (topology_count =? 0) && (topology_bytes =? 0)) ||
       (negb (arrival_count =? 0) && (arrival_bytes =? 0))
    then (not_available, [])
    else if negb allocated then (not_available, [])
    else (ok, encode_image sources path c source_bytes topology_bytes arrival_bytes).

End ChangeStateImage.
