(* ===== verification/ChangeStateBloom.v ===== *)
(** * The Bloom filters of the change-state image

    A filter that was given a reference answers yes for it, whatever it is given later; the
    query of a filter stays inside it; and the size chosen for a number of references is a
    power of two with twenty bits for each. *)

From Stdlib Require Import Strings.Byte.
From S2P Require Import Prelude Crc64 Probing ByteImage ChangeStateImage.

Local Open Scope N_scope.

Module ChangeStateBloom.

Import Probing ByteImage ChangeStateImage.

(** ** Bloom filters *)

(** The bit is in the filter and set. *)
Definition has_bit (bloom : list byte) (bit : N) : Prop :=
  ∃ b, bloom !! N.to_nat (N.shiftr bit 3) = Some b ∧ N.testbit (to_N b) (N.land bit 7) = true.

Definition contains (bloom : list byte) (value : N) : Prop :=
  ∀ index, (index < bloom_hash_count)%nat → has_bit bloom (bloom_bit (image_size bloom) value index).

Lemma length_set_bit bloom bit : length (set_bit bloom bit) = length bloom.
Proof. apply length_alter. Qed.

Lemma land7_lt bit : N.land bit 7 < 8.
Proof. change 7 with (N.ones 3). rewrite N.land_ones. by apply N.mod_lt. Qed.

Lemma to_N_or_bit b k : k < 8 → to_N (byte_of (N.lor (to_N b) (N.shiftl 1 k))) = N.lor (to_N b) (N.shiftl 1 k).
Proof.
  intros Hk. rewrite to_N_byte_of. apply N.bits_inj. intros i. rewrite w8_spec.
  destruct (N.ltb_spec i 8) as [|Hi]; [by rewrite andb_true_r|]. rewrite andb_false_r, N.lor_spec.
  rewrite (testbit_above 8 (to_N b)) by (done || apply Crc64.to_N_lt). rewrite N.shiftl_1_l, N.pow2_bits_false by lia. done.
Qed.

Lemma set_bit_lookup bloom bit p b : bloom !! p = Some b →
  ∃ b', set_bit bloom bit !! p = Some b' ∧ (∀ i, N.testbit (to_N b) i = true → N.testbit (to_N b') i = true) ∧
    (p = N.to_nat (N.shiftr bit 3) → N.testbit (to_N b') (N.land bit 7) = true).
Proof.
  intros Hp. unfold set_bit. destruct (decide (p = N.to_nat (N.shiftr bit 3))) as [->|Hne].
  - rewrite list_lookup_alter_eq, Hp. cbn. eexists. split; [done|]. rewrite to_N_or_bit by apply land7_lt. split.
    + intros i Hi. by rewrite N.lor_spec, Hi.
    + intros _. rewrite N.lor_spec, N.shiftl_1_l, N.pow2_bits_true. apply orb_true_r.
  - rewrite list_lookup_alter_ne by done. exists b. split_and!; [done..|]. by intros ->.
Qed.

Lemma set_bit_keeps bloom bit bit' : has_bit bloom bit' → has_bit (set_bit bloom bit) bit'.
Proof. intros (b & Hb & Ht). destruct (set_bit_lookup bloom bit _ b Hb) as (b' & Hb' & Hk & _). exists b'. auto. Qed.

Lemma set_bit_has bloom bit : N.shiftr bit 3 < image_size bloom → has_bit (set_bit bloom bit) bit.
Proof.
  unfold image_size. intros Hlt. destruct (lookup_lt_is_Some_2 bloom (N.to_nat (N.shiftr bit 3))) as [b Hb]; [lia|].
  destruct (set_bit_lookup bloom bit _ b Hb) as (b' & Hb' & _ & Ht). exists b'. auto.
Qed.

(** The bits are in a filter whose size is a power of two. *)
Lemma bloom_bit_in size value index : power_of_two size → size <= 2 ^ 60 → N.shiftr (bloom_bit size value index) 3 < size.
Proof.
  intros Hp Hs. pose proof (power_of_two_pos _ Hp) as Hpos. unfold bloom_bit.
  assert (H8 : power_of_two (size * 8)) by (destruct Hp as [k ->]; exists (k + 3); by rewrite N.pow_add_r).
  assert (Hb : size * 8 < two64).
  { apply N.le_lt_trans with (2 ^ 60 * 8); [by apply N.mul_le_mono_r|by vm_compute]. }
  rewrite (w64_small (size * 8)) by done.
  replace (w64 (size * 8 + size_max)) with (size * 8 - 1).
  2: { rewrite w64_mod. unfold size_max, two64 in *. replace (size * 8 + _) with ((size * 8 - 1) + 1 * 18446744073709551616) by lia.
       rewrite N.Div0.mod_add. symmetry. apply N.mod_small. lia. }
  rewrite land_mask by done. rewrite N.shiftr_div_pow2. change (2 ^ 3) with 8. apply N.Div0.div_lt_upper_bound.
  rewrite (N.mul_comm 8). apply N.mod_lt. lia.
Qed.

Lemma set_bits_spec size value indexes : ∀ bloom, image_size bloom = size → power_of_two size → size <= 2 ^ 60 →
  let bloom' := foldl (λ bloom index, set_bit bloom (bloom_bit (image_size bloom) value index)) bloom indexes in
  image_size bloom' = size ∧ (∀ bit, has_bit bloom bit → has_bit bloom' bit) ∧
  ∀ index, index ∈ indexes → has_bit bloom' (bloom_bit size value index).
Proof.
  induction indexes as [|i indexes IH]; intros bloom Hb Hp Hs; cbn [foldl].
  { split_and!; [done..|]. by intros index Hi%not_elem_of_nil. }
  rewrite Hb. destruct (IH (set_bit bloom (bloom_bit size value i))) as (I1 & I2 & I3); [|done..|].
  { unfold image_size in *. by rewrite length_set_bit. }
  split_and!; [done| |].
  - intros bit Hbit. by apply I2, set_bit_keeps.
  - intros index [->|Hi]%elem_of_cons; [|by apply I3]. apply I2, set_bit_has. rewrite Hb. by apply bloom_bit_in.
Qed.

Lemma bloom_add_spec bloom value : power_of_two (image_size bloom) → image_size bloom <= 2 ^ 60 → value ≠ 0 →
  image_size (bloom_add bloom value) = image_size bloom ∧ (∀ bit, has_bit bloom bit → has_bit (bloom_add bloom value) bit) ∧
  contains (bloom_add bloom value) value.
Proof.
  intros Hp Hs Hv. unfold bloom_add. rewrite bool_decide_eq_false_2.
  2: { intros ->. by apply power_of_two_pos in Hp. }
  destruct (N.eqb_spec value 0); [done|]. cbn [orb].
  destruct (set_bits_spec (image_size bloom) value (seq 0 bloom_hash_count) bloom eq_refl Hp Hs) as (H1 & H2 & H3).
  split_and!; [done..|]. intros index Hi. rewrite H1. apply H3. apply elem_of_seq. lia.
Qed.

Lemma contains_keeps bloom bloom' value : image_size bloom' = image_size bloom →
  (∀ bit, has_bit bloom bit → has_bit bloom' bit) → contains bloom value → contains bloom' value.
Proof. intros Hs Hk Hc index Hi. rewrite Hs. by apply Hk, Hc. Qed.

(** A filter contains every reference it was given. *)
Lemma bloom_filled references : ∀ bloom, power_of_two (image_size bloom) → image_size bloom <= 2 ^ 60 →
  Forall (λ r, r ≠ 0) references →
  let bloom' := foldl bloom_add bloom references in
  image_size bloom' = image_size bloom ∧ (∀ bit, has_bit bloom bit → has_bit bloom' bit) ∧
  ∀ r, r ∈ references → contains bloom' r.
Proof.
  induction references as [|r references IH]; intros bloom Hp Hs Hr; cbn [foldl].
  { split_and!; [done..|]. by intros r Hr'%not_elem_of_nil. }
  apply Forall_cons in Hr as [Hr0 Hr]. destruct (bloom_add_spec bloom r Hp Hs Hr0) as (A1 & A2 & A3).
  destruct (IH (bloom_add bloom r)) as (I1 & I2 & I3); [by rewrite A1|by rewrite A1|done|].
  split_and!; [congruence|auto|]. intros r' [->|Hin]%elem_of_cons; [|by apply I3]. by apply (contains_keeps (bloom_add bloom r)).
Qed.

Lemma length_bloom_add bloom value : image_size (bloom_add bloom value) = image_size bloom.
Proof.
  unfold bloom_add. destruct (_ || _); [done|]. generalize (seq 0 bloom_hash_count) as indexes. intros indexes. revert bloom.
  induction indexes as [|i indexes IH]; intros bloom; [done|]. cbn [foldl]. rewrite IH. unfold image_size. by rewrite length_set_bit.
Qed.

Lemma length_filled references bloom : image_size (foldl bloom_add bloom references) = image_size bloom.
Proof. revert bloom. induction references as [|r references IH]; intros bloom; [done|]. cbn [foldl]. by rewrite IH, length_bloom_add. Qed.

Lemma land_bit_zero b k : (N.land b (N.shiftl 1 k) =? 0) = negb (N.testbit b k).
Proof.
  destruct (N.testbit b k) eqn:E; cbn [negb].
  - apply N.eqb_neq. intros H. apply (f_equal (λ n, N.testbit n k)) in H.
    by rewrite N.land_spec, E, N.shiftl_1_l, N.pow2_bits_true, N.bits_0 in H.
  - apply N.eqb_eq, N.bits_inj_0. intros i. rewrite N.land_spec, N.shiftl_1_l, N.pow2_bits_eqb.
    destruct (N.eqb_spec k i) as [->|]; [by rewrite E|apply andb_false_r].
Qed.

(** The query of a filter inside the image answers, and yes for what the filter contains. *)
Lemma bloom_maybe_inside image offset size value : offset + size <= image_size image → power_of_two size → size <= 2 ^ 60 →
  ∃ answer, bloom_maybe image offset size value = Some answer ∧
    (value ≠ 0 → contains (slice image offset size) value → answer = true).
Proof.
  intros Hin Hp Hs. pose proof (power_of_two_pos _ Hp) as Hpos. unfold bloom_maybe.
  destruct (N.eqb_spec size 0); [lia|]. cbn [orb]. destruct (N.eqb_spec value 0) as [H0|H0]; [by eauto|].
  assert (Hsz : image_size (slice image offset size) = size).
  { unfold image_size. rewrite length_slice by done. lia. }
  assert (Hsub : ∀ index, index ∈ seq 0 bloom_hash_count → (index < bloom_hash_count)%nat) by (intros i Hi%elem_of_seq; lia).
  revert Hsub. generalize (seq 0 bloom_hash_count) as indexes.
  induction indexes as [|i indexes IH]; intros Hsub; cbn [bloom_test]; [by eauto|].
  pose proof (bloom_bit_in size value i Hp Hs) as Hlt. set (bit := bloom_bit size value i) in *.
  unfold byte_at. destruct (N.leb_spec (image_size image) (offset + N.shiftr bit 3)); [lia|].
  destruct (lookup_lt_is_Some_2 image (N.to_nat (offset + N.shiftr bit 3))) as [b Hb]; [unfold image_size in *; lia|].
  rewrite Hb. cbn [mbind option_bind]. rewrite land_bit_zero. destruct (N.testbit (to_N b) (N.land bit 7)) eqn:Ht; cbn [negb].
  - apply IH. intros index Hi. apply Hsub. by right.
  - eexists. split; [done|]. intros _ Hc. destruct (Hc i) as (b' & Hb' & Ht'); [apply Hsub; by left|].
    rewrite Hsz in Hb', Ht'. rewrite slice_lookup in Hb'. fold bit in Hb', Ht'. rewrite decide_True in Hb' by lia.
    replace (N.to_nat offset + N.to_nat (N.shiftr bit 3))%nat with (N.to_nat (offset + N.shiftr bit 3)) in Hb' by lia. congruence.
Qed.

(** ** Sizes *)

Lemma double_until_spec fuel : ∀ k m required, (N.to_nat (m - k) < fuel)%nat → k <= m → m <= 63 → required <= 2 ^ m →
  ∃ j, k <= j <= m ∧ double_until fuel (2 ^ k) required = 2 ^ j ∧ required <= 2 ^ j.
Proof.
  induction fuel as [|fuel IH]; intros k m required Hf Hk Hm Hr; [lia|]. cbn [double_until].
  destruct (N.ltb_spec (2 ^ k) required) as [Hlt|Hge]; [|exists k; split_and!; done || lia].
  assert (Hkm : k < m).
  { destruct (N.lt_ge_cases k m); [done|]. assert (2 ^ m <= 2 ^ k) by (apply N.pow_le_mono_r; lia). lia. }
  assert (Hb : 2 ^ k <= 2 ^ 62) by (apply N.pow_le_mono_r; lia).
  destruct (N.ltb_spec (size_max / 2) (2 ^ k)) as [Hbig|_].
  { assert (2 ^ 62 <= size_max / 2) by by vm_compute. lia. }
  replace (2 ^ k * 2) with (2 ^ (k + 1)) by (rewrite N.pow_add_r; done).
  destruct (IH (k + 1) m required) as (j & Hj & E & Hle); [lia..|]. exists j. split_and!; done || lia.
Qed.

(** A size for fewer than [2 ^ 50] references. *)
Lemma bloom_bytes_spec count : count < 2 ^ 50 →
  let bytes := bloom_bytes_for_count count in
  (count = 0 → bytes = 0) ∧
  (count ≠ 0 → power_of_two bytes ∧ minimum_bloom_bytes <= bytes <= 2 ^ 55 ∧ count * bloom_bits_per_entry <= bytes * 8).
Proof.
  intros Hc bytes. unfold bytes, bloom_bytes_for_count. split; [by intros ->|]. intros Hne.
  destruct (N.eqb_spec count 0) as [|_]; [done|].
  assert (H50 : 2 ^ 50 <= size_max / bloom_bits_per_entry) by by vm_compute.
  destruct (N.ltb_spec (size_max / bloom_bits_per_entry) count) as [|_]; [lia|].
  set (bits := count * bloom_bits_per_entry). set (required := bits / 8 + _).
  assert (Hreq : bits <= required * 8 ∧ required <= 2 ^ 55).
  { pose proof (N.div_mod bits 8 ltac:(done)) as Hd. pose proof (N.mod_lt bits 8 ltac:(done)).
    assert (Hb : bits <= 2 ^ 50 * 20) by (unfold bits, bloom_bits_per_entry; lia).
    assert (H55 : 2 ^ 50 * 20 / 8 + 1 <= 2 ^ 55) by by vm_compute.
    pose proof (N.Div0.div_le_mono _ _ 8 Hb). unfold required. destruct (N.eqb_spec (bits mod 8) 0); lia. }
  destruct (double_until_spec 64 6 55 required) as (j & Hj & E & Hle); [lia..|apply Hreq|].
  change (2 ^ 6) with minimum_bloom_bytes in E. rewrite E. change minimum_bloom_bytes with (2 ^ 6). split_and!.
  - by exists j.
  - apply N.pow_le_mono_r; lia.
  - apply N.pow_le_mono_r; lia.
  - lia.
Qed.

End ChangeStateBloom.
