(* ===== verification/ChangeStateRoundTrip.v ===== *)
(** * The change-state image is read as it was written

    The frames of the encoder's writes, the fields, filters and checksums of its image, and
    that [bind] takes the image and answers from it; that an image [bind] takes is only read
    inside its bytes unless its section sizes run over 64 bits, and one where they do. *)

From Stdlib Require Import Strings.Byte.
From S2P Require Import Prelude Crc64 Probing ByteImage ChangeStateImage ChangeStateBloom.

Local Open Scope N_scope.

Module ChangeStateRoundTrip.

Import Probing ByteImage ChangeStateImage ChangeStateBloom.

(** ** Offsets *)

Lemma align64_spec value : value < 2 ^ 63 → value <= align64 value < value + 64.
Proof.
  intros Hv. assert (H : value + 63 < two64).
  { apply N.lt_trans with (2 ^ 63 + 63); [lia|by vm_compute]. }
  assert (E : align64 value = N.shiftl (N.shiftr (value + 63) 6) 6).
  { unfold align64. rewrite w64_small by done. apply N.bits_inj. intros i. rewrite N.land_spec.
    change (N.lxor 0xffffffffffffffff 63) with (N.lxor (N.ones 64) (N.ones 6)). rewrite N.lxor_spec.
    destruct (N.lt_ge_cases i 6) as [Hi|Hi].
    - rewrite N.shiftl_spec_low, !N.ones_spec_low by lia. apply andb_false_r.
    - rewrite N.shiftl_spec_high', N.shiftr_spec' by done. replace (i - 6 + 6) with i by lia.
      rewrite (N.ones_spec_high 6) by done. destruct (N.lt_ge_cases i 64).
      + rewrite N.ones_spec_low by done. apply andb_true_r.
      + rewrite (testbit_above 64 (value + 63)); done. }
  rewrite E, N.shiftr_div_pow2, N.shiftl_mul_pow2. change (2 ^ 6) with 64.
  pose proof (N.div_mod (value + 63) 64 ltac:(done)). pose proof (N.mod_lt (value + 63) 64 ltac:(done)).
  set (q := (value + 63) / 64) in *. set (r := (value + 63) mod 64) in *. clearbody q r. lia.
Qed.

Lemma after_spec offset count : offset + count < 2 ^ 63 → offset + count <= after offset count 1 < offset + count + 64.
Proof.
  intros H. assert (Hw : offset + count < two64) by (by apply N.lt_trans with (1 := H)).
  unfold after. rewrite N.mul_1_r, (w64_small count), w64_small by lia.
  by apply align64_spec.
Qed.

(** ** Frames of the writes *)

(** The words written elsewhere. *)
Ltac skip_words := repeat first [rewrite slice_write_u64 by lia | rewrite slice_write_u32 by lia].

Lemma slice_write_header output size sources k p n : 88 <= p → slice (write_header output size sources k) p n = slice output p n.
Proof. intros H. unfold write_header. skip_words. apply slice_write_other. cbn. lia. Qed.

Lemma slice_write_entry output index offset count p n : p + n <= entry index ∨ entry index + 24 <= p →
  slice (write_entry output index offset count) p n = slice output p n.
Proof. intros H. unfold write_entry. by skip_words. Qed.

Lemma slice_write_filter output offset count references p n : offset + count <= image_size output →
  p + n <= offset ∨ offset + count <= p → slice (write_filter output offset count references) p n = slice output p n.
Proof.
  intros Hs H. unfold write_filter. apply slice_write_other. fold (image_size (foldl bloom_add (slice output offset count) references)).
  rewrite length_filled. unfold image_size. rewrite length_slice by done. lia.
Qed.

Lemma slice_section_crc output index offset count p n : p + n <= entry index + 24 ∨ entry index + 32 <= p →
  slice (write_section_crc output index offset count) p n = slice output p n.
Proof. intros H. apply slice_write_u64. lia. Qed.

Lemma slice_directory_crc output p n : p + n <= 104 ∨ 112 <= p → slice (write_directory_crc output) p n = slice output p n.
Proof. intros H. apply slice_write_u64. lia. Qed.

Lemma slice_header_crc output p n : p + n <= 96 ∨ 104 <= p → slice (write_header_crc output) p n = slice output p n.
Proof. intros H. apply slice_write_u64. lia. Qed.

Lemma size_write_header output size sources k : image_size (write_header output size sources k) = image_size output.
Proof. unfold write_header, write_u32, write_u64. by rewrite !image_size_write. Qed.
Lemma size_write_entry output index offset count : image_size (write_entry output index offset count) = image_size output.
Proof. unfold write_entry, write_u32, write_u64. by rewrite !image_size_write. Qed.
Lemma size_write_filter output offset count references : image_size (write_filter output offset count references) = image_size output.
Proof. apply image_size_write. Qed.
Lemma size_section_crc output index offset count : image_size (write_section_crc output index offset count) = image_size output.
Proof. apply image_size_write. Qed.
Lemma size_directory_crc output : image_size (write_directory_crc output) = image_size output.
Proof. apply image_size_write. Qed.
Lemma size_header_crc output : image_size (write_header_crc output) = image_size output.
Proof. apply image_size_write. Qed.

Create HintDb frames.
#[export] Hint Rewrite size_write_u32 size_write_u64 image_size_write size_write_header size_write_entry size_write_filter
  size_section_crc size_directory_crc size_header_crc : frames.

(** A word whose bytes a frame keeps. *)
Lemma read_u32_slice image image' p : slice image p 4 = slice image' p 4 → read_u32 image p = read_u32 image' p.
Proof. unfold read_u32. by intros ->. Qed.
Lemma read_u64_slice image image' p : slice image p 8 = slice image' p 8 → read_u64 image p = read_u64 image' p.
Proof. unfold read_u64. by intros ->. Qed.

(** Reads over writes elsewhere. *)
Lemma u32_over_u32 image offset value p : offset + 4 <= p ∨ p + 4 <= offset → read_u32 (write_u32 image offset value) p = read_u32 image p.
Proof. intros H. by apply read_u32_slice, slice_write_u32. Qed.
Lemma u32_over_u64 image offset value p : offset + 8 <= p ∨ p + 4 <= offset → read_u32 (write_u64 image offset value) p = read_u32 image p.
Proof. intros H. by apply read_u32_slice, slice_write_u64. Qed.
Lemma u64_over_u32 image offset value p : offset + 4 <= p ∨ p + 8 <= offset → read_u64 (write_u32 image offset value) p = read_u64 image p.
Proof. intros H. by apply read_u64_slice, slice_write_u32. Qed.
Lemma u64_over_u64 image offset value p : offset + 8 <= p ∨ p + 8 <= offset → read_u64 (write_u64 image offset value) p = read_u64 image p.
Proof. intros H. by apply read_u64_slice, slice_write_u64. Qed.

Ltac read_back :=
  repeat first [rewrite u32_over_u32 by lia | rewrite u32_over_u64 by lia | rewrite u64_over_u32 by lia | rewrite u64_over_u64 by lia];
  first [apply read_u32_same | apply read_u64_same]; autorewrite with frames; try done; try lia.

(** The header is read back. *)
Record header_fields (image : list byte) (size sources : N) (k : source_change_checkpoint) : Prop := HeaderFields {
  hf_magic : slice image 0 8 = image_magic_v3;
  hf_version : read_u32 image 8 = change_state_image_format_version;
  hf_endian : read_u32 image 12 = endian_marker;
  hf_header : read_u32 image 16 = header_size;
  hf_directory : read_u32 image 20 = v3_directory_count;
  hf_entry : read_u32 image 24 = directory_entry_size;
  hf_offset : read_u64 image 32 = directory_offset;
  hf_size : read_u64 image 40 = size;
  hf_sources : read_u64 image 48 = sources;
  hf_backend : read_u32 image 56 = (if is_set k then 1 else 0);
  hf_zero : read_u32 image 60 = 0;
  hf_volume : read_u64 image 64 = volume_serial k;
  hf_journal : read_u64 image 72 = journal_id k;
  hf_usn : read_u64 image 80 = bits_of (next_usn k);
}.

Definition words_fit (k : source_change_checkpoint) : Prop :=
  volume_serial k < two64 ∧ journal_id k < two64 ∧ (- 2 ^ 63 <= next_usn k < 2 ^ 63)%Z.

Lemma bits_of_lt value : bits_of value < two64.
Proof. unfold bits_of. change two64 with (Z.to_N (2 ^ 64)). pose proof (Z.mod_pos_bound value (2 ^ 64)). lia. Qed.

Lemma int64_of_bits value : (- 2 ^ 63 <= value < 2 ^ 63)%Z → int64_of (bits_of value) = value.
Proof.
  intros H. unfold int64_of, bits_of. destruct (N.ltb_spec (Z.to_N (value mod 2 ^ 64)) (2 ^ 63)) as [Hlt|Hge].
  all: pose proof (Z.mod_pos_bound value (2 ^ 64) ltac:(done)) as Hm; pose proof (Z.div_mod value (2 ^ 64) ltac:(done)) as Hd.
  all: change (2 ^ 63)%N with (Z.to_N (2 ^ 63)) in *; rewrite Z2N.id by lia.
  all: assert (2 ^ 64 = 2 * 2 ^ 63)%Z as E64 by done; assert (0 < 2 ^ 63)%Z as Hpos by done.
  - assert (value / 2 ^ 64 = 0)%Z as Hq; nia.
  - assert (value / 2 ^ 64 = -1)%Z as Hq; nia.
Qed.

Lemma slice_blank size p n : p + n <= size → slice (replicate (N.to_nat size) x00) p n = replicate (N.to_nat n) x00.
Proof. intros H. unfold slice. rewrite drop_replicate, take_replicate. f_equal. lia. Qed.

Lemma write_header_fields size sources k : 256 <= size → size < two64 → sources < two32 → words_fit k →
  header_fields (write_header (replicate (N.to_nat size) x00) size sources k) size sources k.
Proof.
  intros Hs Hs64 Hn (Hv & Hj & Hu). set (blank := replicate _ _).
  assert (Hb : image_size blank = size) by (unfold image_size, blank; rewrite length_replicate; lia).
  assert (two32 < two64) by by vm_compute. pose proof (bits_of_lt (next_usn k)).
  split; unfold write_header.
  - skip_words. apply slice_write_same; [done|]. lia.
  - read_back.
  - read_back.
  - read_back.
  - read_back.
  - read_back.
  - read_back.
  - read_back.
  - read_back.
  - read_back. by destruct (is_set k).
  - repeat first [rewrite u32_over_u32 by lia | rewrite u32_over_u64 by lia]. rewrite read_u32_other by (cbn; lia).
    unfold read_u32, blank. rewrite slice_blank by lia. done.
  - read_back.
  - read_back.
  - read_back.
Qed.

Lemma header_fields_frame image image' size sources k : (∀ p n, p + n <= 96 → slice image p n = slice image' p n) →
  header_fields image' size sources k → header_fields image size sources k.
Proof.
  intros F []. assert (F4 : ∀ p, p + 4 <= 96 → read_u32 image p = read_u32 image' p) by (intros; by apply read_u32_slice, F).
  assert (F8 : ∀ p, p + 8 <= 96 → read_u64 image p = read_u64 image' p) by (intros; by apply read_u64_slice, F).
  split; rewrite ?F, ?F4, ?F8 by done; done.
Qed.

(** An entry is read back. *)
Record entry_fields (image : list byte) (index offset count : N) : Prop := EntryFields {
  ef_is : entry_is image index 1 = true;
  ef_offset : read_u64 image (entry index + 8) = offset;
  ef_count : read_u64 image (entry index + 16) = count;
}.

Lemma write_entry_fields output index offset count : index < 4 → entry index + 24 <= image_size output →
  offset < two64 → count < two64 → entry_fields (write_entry output index offset count) index offset count.
Proof.
  intros Hi Hs Ho Hc. assert (index + 1 < two32) by (unfold two32; lia).
  assert (E1 : read_u32 (write_entry output index offset count) (entry index) = index + 1) by (unfold write_entry; read_back).
  assert (E2 : read_u32 (write_entry output index offset count) (entry index + 4) = 1) by (unfold write_entry; read_back).
  split; [|unfold write_entry; read_back..]. unfold entry_is. by rewrite E1, E2, !N.eqb_refl.
Qed.

Lemma entry_fields_frame image image' index offset count :
  (∀ p n, entry index <= p → p + n <= entry index + 24 → slice image p n = slice image' p n) →
  entry_fields image' index offset count → entry_fields image index offset count.
Proof.
  intros F [E1 E2 E3]. split.
  - unfold entry_is in *. by rewrite !(read_u32_slice image image') by (apply F; lia).
  - by rewrite (read_u64_slice image image') by (apply F; lia).
  - by rewrite (read_u64_slice image image') by (apply F; lia).
Qed.

(** ** The encoded image *)

Lemma crc_lt bytes : crc bytes < two64.
Proof. apply Crc64.persistence_crc64_lt. Qed.

Lemma slice_write_inside image offset bytes p n : p <= offset → offset + N.of_nat (length bytes) <= p + n → p + n <= image_size image →
  slice (write_at image offset bytes) p n = write_at (slice image p n) (offset - p) bytes.
Proof.
  intros H1 H2 H3. pose proof (length_slice image p n H3) as Hl. unfold image_size in H3. apply list_eq. intros j.
  rewrite slice_lookup. unfold write_at. destruct (decide (j < N.to_nat n)%nat) as [Hj|Hj]; cycle 1.
  { rewrite lookup_ge_None_2; [done|]. rewrite length_inserts. lia. }
  destruct (decide (j < N.to_nat (offset - p))%nat).
  { rewrite !list_lookup_inserts_lt, slice_lookup by lia. by rewrite decide_True. }
  destruct (decide (N.to_nat (offset - p) + length bytes <= j)%nat).
  { rewrite !list_lookup_inserts_ge, slice_lookup by lia. by rewrite decide_True. }
  rewrite !list_lookup_inserts by lia. f_equal. lia.
Qed.

(** The checksum of the header is over the header with a zero in its place. *)
Lemma header_crc_fits output : 128 <= image_size output →
  let image := write_header_crc (write_u64 output 96 0) in
  crc (write_u64 (slice image 0 header_size) 96 0) = read_u64 image 96.
Proof.
  intros Hs image. unfold image, write_header_crc. set (zeroed := write_u64 output 96 0).
  assert (Hz : image_size zeroed = image_size output) by apply size_write_u64.
  rewrite read_u64_same by (rewrite ?Hz; lia || apply crc_lt). f_equal. unfold header_size.
  assert (E : ∀ o v, 128 <= image_size o → slice (write_u64 o 96 v) 0 128 = write_u64 (slice o 0 128) 96 v).
  { intros o v Ho. unfold write_u64. rewrite slice_write_inside by (rewrite ?length_word_bytes; lia). done. }
  rewrite E by lia. unfold zeroed. rewrite E by lia. unfold write_u64. by rewrite !write_at_twice by (by rewrite !length_word_bytes).
Qed.

Section encoded.
Context (sources : N) (path : list byte) (c : source_change_capture) (source_bytes topology_bytes arrival_bytes : N).
Context (Hsource : source_bytes <= 2 ^ 55) (Htopology : topology_bytes <= 2 ^ 55) (Harrival : arrival_bytes <= 2 ^ 55).
Context (Hpath : image_size path < 2 ^ 50).

Definition topology_at : N := after v3_first_section_offset source_bytes 1.
Definition arrival_at : N := after topology_at topology_bytes 1.
Definition anchor_at : N := after arrival_at arrival_bytes 1.
Definition size_of_image : N := anchor_at + image_size path.

Lemma layout_bounds : 256 + source_bytes <= topology_at ∧ topology_at + topology_bytes <= arrival_at ∧
  arrival_at + arrival_bytes <= anchor_at ∧ size_of_image < 2 ^ 60.
Proof.
  assert (E55 : 2 ^ 55 = 36028797018963968) by done. assert (E63 : 2 ^ 63 = 9223372036854775808) by done.
  assert (E50 : 2 ^ 50 = 1125899906842624) by done. assert (E60 : 2 ^ 60 = 1152921504606846976) by done.
  rewrite E55 in Hsource, Htopology, Harrival. rewrite E50 in Hpath. unfold size_of_image.
  pose proof (after_spec v3_first_section_offset source_bytes ltac:(rewrite E63; unfold v3_first_section_offset; lia)) as H1.
  fold topology_at in H1. unfold v3_first_section_offset in H1.
  pose proof (after_spec topology_at topology_bytes ltac:(rewrite E63; lia)) as H2. fold arrival_at in H2.
  pose proof (after_spec arrival_at arrival_bytes ltac:(rewrite E63; lia)) as H3. fold anchor_at in H3. rewrite E60. lia.
Qed.

Definition image : list byte := encode_image sources path c source_bytes topology_bytes arrival_bytes.

(** The stages of the encoder. *)
Definition blank : list byte := replicate (N.to_nat size_of_image) x00.
Definition stage_header : list byte := write_header blank size_of_image sources (checkpoint c).
Definition stage_entries : list byte :=
  write_entry (write_entry (write_entry (write_entry stage_header 0 256 source_bytes) 1 topology_at topology_bytes)
    2 arrival_at arrival_bytes) 3 anchor_at (image_size path).
Definition stage_filters : list byte :=
  write_at (write_filter (write_filter (write_filter stage_entries 256 source_bytes (source_references c))
    topology_at topology_bytes (watch_references watch_topology c))
    arrival_at arrival_bytes (watch_references watch_arrival c)) anchor_at path.
Definition stage_crcs : list byte :=
  write_section_crc (write_section_crc (write_section_crc (write_section_crc stage_filters 0 256 source_bytes)
    1 topology_at topology_bytes) 2 arrival_at arrival_bytes) 3 anchor_at (image_size path).

Lemma image_stages : image = write_header_crc (write_u64 (write_directory_crc stage_crcs) 96 0).
Proof.
  destruct layout_bounds as (_ & _ & _ & H). unfold image, encode_image, stage_crcs, stage_filters, stage_entries, stage_header, blank.
  fold topology_at arrival_at anchor_at. cbv zeta. fold topology_at. fold arrival_at. fold anchor_at.
  replace (w64 (anchor_at + image_size path)) with size_of_image; [done|].
  symmetry. apply w64_small. unfold size_of_image in H. by apply N.lt_trans with (1 := H).
Qed.

Lemma size_stages : image_size stage_header = size_of_image ∧ image_size stage_entries = size_of_image ∧
  image_size stage_filters = size_of_image ∧ image_size stage_crcs = size_of_image ∧ image_size image = size_of_image.
Proof.
  assert (H : image_size blank = size_of_image) by (unfold image_size, blank; rewrite length_replicate; lia).
  rewrite image_stages. unfold stage_crcs, stage_filters, stage_entries, stage_header. autorewrite with frames. by rewrite !H.
Qed.

(** The frames of the stages: where the later ones write nothing. *)
Lemma entry_at index : entry index = 128 + index * 32.
Proof. done. Qed.

Lemma frame_seal p n : p + n <= 96 ∨ 112 <= p → slice image p n = slice stage_crcs p n.
Proof.
  intros H. rewrite image_stages, slice_header_crc, slice_write_u64, slice_directory_crc by lia. done.
Qed.

Lemma frame_crcs p n : p + n <= 128 ∨ 256 <= p ∨ (∃ index, index < 4 ∧ entry index <= p ∧ p + n <= entry index + 24) →
  slice stage_crcs p n = slice stage_filters p n.
Proof.
  intros H. assert (∀ index, index < 4 → p + n <= entry index + 24 ∨ entry index + 32 <= p) as H'.
  { intros index Hi. rewrite entry_at. destruct H as [H|[H|(i & Hi' & H1 & H2)]]; [lia|lia|]. rewrite entry_at in *. lia. }
  unfold stage_crcs. rewrite !slice_section_crc by (apply H'; lia). done.
Qed.

Lemma frame_filters p n : p + n <= 256 → slice stage_filters p n = slice stage_entries p n.
Proof.
  intros H. destruct layout_bounds as (H1 & H2 & H3 & _). destruct size_stages as (_ & Hs & _). unfold size_of_image in Hs.
  unfold stage_filters. rewrite slice_write_other by lia. rewrite !slice_write_filter; autorewrite with frames; rewrite ?Hs; done || lia.
Qed.

Lemma frame_entries p n : p + n <= 128 ∨ 256 <= p → slice stage_entries p n = slice stage_header p n.
Proof. intros H. unfold stage_entries. rewrite !slice_write_entry by (rewrite entry_at; lia). done. Qed.

(** *** What is read back *)

Context (Hsources : sources < two32) (Hk : words_fit (checkpoint c)).

Lemma image_header : header_fields image size_of_image sources (checkpoint c).
Proof.
  destruct layout_bounds as (H1 & H2 & H3 & H4).
  apply (header_fields_frame _ stage_header).
  - intros p n H. rewrite frame_seal, frame_crcs, frame_filters, frame_entries by lia. done.
  - apply write_header_fields; [unfold size_of_image; lia| |done|done]. by apply N.lt_trans with (1 := H4).
Qed.

(** The sections, in order. *)
Definition sections : list (N * N) :=
  [(256, source_bytes); (topology_at, topology_bytes); (arrival_at, arrival_bytes); (anchor_at, image_size path)].

Lemma sections_bounds i offset count : sections !! i = Some (offset, count) →
  256 <= offset ∧ offset + count <= size_of_image ∧ offset < two64 ∧ count < two64.
Proof.
  destruct layout_bounds as (H1 & H2 & H3 & H4). assert (H64 : size_of_image < two64) by by apply N.lt_trans with (1 := H4).
  unfold size_of_image in *. intros H. do 4 (destruct i as [|i]; [injection H as <- <-; lia|]). done.
Qed.

Lemma image_entries i offset count : sections !! i = Some (offset, count) →
  entry_fields image (N.of_nat i) offset count ∧
  read_u64 image (entry (N.of_nat i) + 24) = crc (slice image offset count).
Proof.
  intros Hi. destruct (sections_bounds i offset count Hi) as (B1 & B2 & B3 & B4).
  assert (Hi4 : N.of_nat i < 4) by (apply lookup_lt_Some in Hi; cbn in Hi; lia).
  destruct size_stages as (S1 & S2 & S3 & S4 & _). split.
  - apply (entry_fields_frame _ stage_entries).
    + intros p n P1 P2. rewrite frame_seal by (rewrite entry_at in *; lia). rewrite frame_crcs by (right; right; by exists (N.of_nat i)).
      apply frame_filters. rewrite entry_at in *. lia.
    + assert (F : ∀ o j off n, j ≠ N.of_nat i → entry_fields o (N.of_nat i) offset count →
        entry_fields (write_entry o j off n) (N.of_nat i) offset count).
      { intros o j off n Hj. apply entry_fields_frame. intros p m P1 P2. apply slice_write_entry. rewrite entry_at in *. lia. }
      unfold stage_entries.
      do 4 (destruct i as [|i]; [injection Hi as <- <-; repeat (apply F; [done|]);
        apply write_entry_fields; autorewrite with frames; rewrite ?S1; rewrite ?entry_at; done || lia|]). done.
  - rewrite (read_u64_slice image stage_crcs) by (apply frame_seal; rewrite entry_at; lia).
    assert (E : slice image offset count = slice stage_filters offset count).
    { rewrite frame_seal, frame_crcs by lia. done. }
    rewrite E. assert (F : ∀ o j off n, j ≠ N.of_nat i → slice (write_section_crc o j off n) (entry (N.of_nat i) + 24) 8 =
      slice o (entry (N.of_nat i) + 24) 8) by (intros o j off n Hj; apply slice_section_crc; rewrite !entry_at; lia).
    assert (G : ∀ o j off n, slice (write_section_crc o j off n) offset count = slice o offset count ∨ 4 <= j).
    { intros o j off n. destruct (N.lt_ge_cases j 4); [left|by right]. apply slice_section_crc. rewrite entry_at. lia. }
    assert (R : ∀ o, image_size o = size_of_image → slice o offset count = slice stage_filters offset count →
      read_u64 (write_section_crc o (N.of_nat i) offset count) (entry (N.of_nat i) + 24) = crc (slice stage_filters offset count)).
    { intros o Ho Hs. unfold write_section_crc. rewrite read_u64_same; [by rewrite Hs|rewrite Ho, entry_at; lia|apply crc_lt]. }
    assert (K : ∀ o j off n, j < 4 → slice (write_section_crc o j off n) offset count = slice o offset count).
    { intros o j off n Hj. destruct (G o j off n); [done|lia]. }
    unfold stage_crcs.
    do 4 (destruct i as [|i]; [injection Hi as <- <-; unfold read_u64; rewrite ?F by done;
      apply R; [autorewrite with frames; exact S3|by rewrite ?K by done]|]). done.
Qed.

Lemma image_path : slice image anchor_at (image_size path) = path.
Proof.
  destruct layout_bounds as (H1 & H2 & H3 & _). rewrite frame_seal, frame_crcs by lia. unfold stage_filters.
  apply slice_write_same; [done|]. autorewrite with frames. destruct size_stages as (_ & -> & _). unfold size_of_image. lia.
Qed.

(** Each filter is one that was given its references. *)
Lemma image_filters i offset count references :
  [(256, source_bytes, source_references c); (topology_at, topology_bytes, watch_references watch_topology c);
   (arrival_at, arrival_bytes, watch_references watch_arrival c)] !! i = Some (offset, count, references) →
  ∃ bloom, image_size bloom = count ∧ slice image offset count = foldl bloom_add bloom references.
Proof.
  intros Hi. destruct layout_bounds as (H1 & H2 & H3 & _). destruct size_stages as (_ & S2 & _). unfold size_of_image in S2.
  assert (E : 256 <= offset ∧ offset + count <= anchor_at).
  { do 3 (destruct i as [|i]; [injection Hi as <- <- <-; lia|]). done. }
  rewrite frame_seal, frame_crcs by lia. unfold stage_filters. rewrite slice_write_other by lia.
  assert (R : ∀ o, image_size o = anchor_at + image_size path →
    ∃ bloom, image_size bloom = count ∧ slice (write_filter o offset count references) offset count = foldl bloom_add bloom references).
  { intros o Ho. exists (slice o offset count).
    assert (Hl : image_size (slice o offset count) = count) by (unfold image_size; rewrite length_slice by lia; lia).
    split; [done|]. unfold write_filter. apply slice_write_same; [|lia]. change (N.of_nat (length ?x)) with (image_size x).
    by rewrite length_filled. }
  do 3 (destruct i as [|i]; [injection Hi as <- <- <-; rewrite ?slice_write_filter by (autorewrite with frames; lia);
    apply R; by autorewrite with frames|]). done.
Qed.

Lemma image_directory : read_u64 image 104 = crc (slice image directory_offset v3_directory_bytes).
Proof.
  destruct size_stages as (_ & _ & _ & S4 & _). destruct layout_bounds as (H1 & H2 & H3 & _).
  change directory_offset with 128. change v3_directory_bytes with 128. rewrite frame_seal by lia.
  rewrite image_stages. unfold write_header_crc. rewrite !u64_over_u64 by lia. unfold write_directory_crc.
  rewrite read_u64_same; [done| |apply crc_lt]. rewrite S4. unfold size_of_image. lia.
Qed.

Lemma image_header_crc : crc (write_u64 (slice image 0 header_size) 96 0) = read_u64 image 96.
Proof.
  destruct size_stages as (_ & _ & _ & S4 & _). destruct layout_bounds as (H1 & H2 & H3 & _).
  rewrite image_stages. apply header_crc_fits. autorewrite with frames. rewrite S4. unfold size_of_image. lia.
Qed.

(** ** Binding the image *)

Context (Hsource2 : source_bytes = 0 ∨ power_of_two source_bytes) (Htopology2 : topology_bytes = 0 ∨ power_of_two topology_bytes)
  (Harrival2 : arrival_bytes = 0 ∨ power_of_two arrival_bytes).

Lemma power_of_two_or_zero_true n : n = 0 ∨ power_of_two n → power_of_two_or_zero n = true.
Proof.
  unfold power_of_two_or_zero. intros [->|Hp]; [done|]. pose proof (power_of_two_pos _ Hp).
  rewrite land_mask by done. rewrite N.Div0.mod_same. apply orb_true_r.
Qed.

Lemma read_section_image i offset count : sections !! i = Some (offset, count) →
  entry_is image (N.of_nat i) 1 = true ∧
  read_section image (N.of_nat i) = Section_ offset count (crc (slice image offset count)).
Proof. intros Hi. destruct (image_entries i offset count Hi) as [[E1 E2 E3] E4]. split; [done|]. unfold read_section. by rewrite E2, E3, E4. Qed.

Definition image_view : change_state_image_view :=
  let at_section offset count := Section_ offset count (crc (slice image offset count)) in
  View image 3 no_section no_section no_section no_section (at_section 256 source_bytes)
    (at_section topology_at topology_bytes) (at_section arrival_at arrival_bytes) no_section
    (at_section anchor_at (image_size path)) sources (checkpoint c).

Lemma common_header_image : read_common_header image change_state_image_format_version v3_directory_count v3_directory_bytes
  v3_first_section_offset = Some (sources, checkpoint c).
Proof.
  destruct image_header as [_ G1 G2 G3 G4 G5 G6 G7 G8 G9 G10 G11 G12 G13]. destruct size_stages as (_ & _ & _ & _ & Hsz).
  destruct layout_bounds as (H1 & H2 & H3 & _).
  unfold read_common_header. rewrite G1, G2, G3, G4, G5, G6, G7, Hsz, !N.eqb_refl. cbn [negb].
  assert (E0 : (size_of_image <? v3_first_section_offset) = false) by (apply N.ltb_ge; unfold size_of_image, v3_first_section_offset; lia).
  rewrite E0. cbn [orb]. rewrite image_header_crc, image_directory, !N.eqb_refl. cbn [negb].
  rewrite G8, G9, G10, G11, G12, G13. destruct (N.ltb_spec (two32 - 1) sources); [lia|].
  destruct Hk as (_ & _ & Hu). rewrite int64_of_bits by done.
  destruct (checkpoint c) as [b v j u]. unfold is_set. cbn. by destruct b.
Qed.

Lemma bind_image : path ≠ [] →
  valid_checkpoint sources source_bytes (w64 (topology_bytes + arrival_bytes)) (checkpoint c) = true →
  bind image = (image_view, ok).
Proof.
  intros Hne Hvalid. destruct size_stages as (_ & _ & _ & _ & Hsz). destruct layout_bounds as (H1 & H2 & H3 & H4).
  assert (H64 : size_of_image < two64) by by apply N.lt_trans with (1 := H4).
  unfold bind. destruct (N.ltb_spec (image_size image) header_size) as [Hlt|_].
  { rewrite Hsz in Hlt. unfold size_of_image, header_size in Hlt. lia. }
  cbv zeta. rewrite (hf_magic _ _ _ _ image_header), bool_decide_eq_true_2 by done.
  unfold bind_v3. rewrite common_header_image. cbn [mbind option_bind].
  destruct (read_section_image 0 _ _ eq_refl) as [I0 E0], (read_section_image 1 _ _ eq_refl) as [I1 E1],
    (read_section_image 2 _ _ eq_refl) as [I2 E2], (read_section_image 3 _ _ eq_refl) as [I3 E3].
  change (N.of_nat 0) with 0 in I0, E0. change (N.of_nat 1) with 1 in I1, E1.
  change (N.of_nat 2) with 2 in I2, E2. change (N.of_nat 3) with 3 in I3, E3. rewrite I0, I1, I2, I3.
  rewrite E0, E1, E2, E3. cbn [section_offset section_count andb negb].
  rewrite !power_of_two_or_zero_true by done. cbn [andb negb].
  change v3_first_section_offset with 256. fold topology_at. fold arrival_at. fold anchor_at. rewrite !N.eqb_refl.
  unfold ends_with. cbn [section_offset section_count]. rewrite Hsz, w64_small by done. fold size_of_image. rewrite N.eqb_refl.
  assert (Hp : (image_size path =? 0) = false) by (apply N.eqb_neq; unfold image_size; by destruct path).
  rewrite Hp. cbn [negb andb]. by rewrite Hvalid.
Qed.

Lemma image_sections_inside i offset count : sections !! i = Some (offset, count) → offset + count <= image_size image.
Proof. intros Hi. destruct size_stages as (_ & _ & _ & _ & ->). by apply (sections_bounds i). Qed.

Lemma image_anchor : journal_anchor_path image_view = Some path.
Proof.
  pose proof (image_sections_inside 3 _ _ eq_refl). unfold journal_anchor_path.
  cbn [image_view journal_anchor bytes section_offset section_count].
  destruct (N.ltb_spec (image_size image) (anchor_at + image_size path)); [lia|]. by rewrite image_path.
Qed.

Lemma image_verifies : verify_contents image_view = Some ok.
Proof.
  assert (I : ∀ i offset count, sections !! i = Some (offset, count) →
    section_intact image_view (Section_ offset count (crc (slice image offset count))) 1 = Some true).
  { intros i offset count Hi. pose proof (image_sections_inside i offset count Hi).
    unfold section_intact. cbn [image_view bytes section_offset section_count section_crc]. rewrite N.mul_1_r.
    destruct (N.ltb_spec (image_size image) (offset + count)); [lia|]. by rewrite N.eqb_refl. }
  unfold verify_contents. cbn [valid gate_only image_view format_version negb N.eqb].
  change (3 =? 0) with false. change (3 =? change_state_image_format_version) with true. cbn [negb].
  cbn [source_bloom topology_bloom arrival_bloom image_view]. unfold gate_only. cbn [image_view format_version].
  change (3 =? change_state_image_format_version) with true. cbv iota.
  rewrite (I 0%nat _ _ eq_refl), (I 1%nat _ _ eq_refl), (I 2%nat _ _ eq_refl). cbn [mbind option_bind andb].
  unfold anchor_intact. rewrite image_anchor. cbn [mbind option_bind image_view bytes].
  destruct (image_entries 3 _ _ eq_refl) as [_ Hc]. change (N.of_nat 3) with 3 in Hc. rewrite Hc, image_path. by rewrite N.eqb_refl.
Qed.
End encoded.

End ChangeStateRoundTrip.
