(* ===== verification/ChangeStateTheorems.v ===== *)
(** * What the change-state image promises

    Encoding a capture and binding the image gives a view with the capture's checkpoint and
    anchor, whose checksums hold and whose gates let every captured reference through; an
    image that is bound is only read inside its bytes as long as its sections are small; an
    image with larger sections, and captures whose image is refused. *)

From Stdlib Require Import Strings.Byte.
From S2P Require Import Prelude Crc64 Probing ByteImage ChangeStateImage ChangeStateBloom ChangeStateRoundTrip.

Local Open Scope N_scope.

Module ChangeStateTheorems.

Import Probing ByteImage ChangeStateImage ChangeStateBloom ChangeStateRoundTrip.

(** ** The round trip *)

(** The words and counts of a capture that fits in memory. *)
Record capture_fits (path : list byte) (c : source_change_capture) : Prop := CaptureFits {
  cf_words : words_fit (checkpoint c);
  cf_path : image_size path < 2 ^ 50;
  cf_files : N.of_nat (length (file_index c)) < 2 ^ 50;
  cf_directories : N.of_nat (length (directory_index c)) < 2 ^ 50;
}.

(** What [bind] asks for and the encoder does not: an anchor path, no words in an unset
    checkpoint, and a file behind the sources of a set one. *)
Record capture_bindable (sources : N) (path : list byte) (c : source_change_capture) : Prop := CaptureBindable {
  cb_path : path ≠ [];
  cb_unset : is_set (checkpoint c) = false → checkpoint c = no_checkpoint;
  cb_files : is_set (checkpoint c) = true → sources ≠ 0 → source_references c ≠ [];
}.

Lemma length_source_references c : (length (source_references c) <= length (file_index c))%nat.
Proof. unfold source_references. etrans; [apply length_filter|]. by rewrite length_fmap. Qed.

Lemma length_watch_references flag c : (length (watch_references flag c) <= length (directory_index c))%nat.
Proof. unfold watch_references. rewrite length_fmap. apply length_filter. Qed.

Lemma watch_references_set flag c : Forall (λ r, r ≠ 0) (watch_references flag c).
Proof.
  apply Forall_forall. intros r (s & -> & [Hw _]%list_elem_of_filter)%list_elem_of_fmap. unfold watches in Hw.
  apply andb_true_iff in Hw as [Hw _]. by apply negb_true_iff, N.eqb_neq in Hw.
Qed.

Lemma source_references_set c : Forall (λ r, r ≠ 0) (source_references c).
Proof. apply Forall_forall. by intros r [Hr _]%list_elem_of_filter. Qed.

(** The size of the filter of a list of references. *)
Definition filter_size (references : list N) : N := bloom_bytes_for_count (N.of_nat (length references)).

Lemma filter_size_spec references : N.of_nat (length references) < 2 ^ 50 →
  filter_size references <= 2 ^ 55 ∧ (filter_size references = 0 ∨ power_of_two (filter_size references)) ∧
  (references = [] ↔ filter_size references = 0).
Proof.
  intros H. destruct (bloom_bytes_spec (N.of_nat (length references)) H) as [H0 H1]. fold (filter_size references) in H0, H1.
  destruct references as [|r references].
  - rewrite H0 by done. split_and!; [done|by left|done].
  - destruct H1 as (Hp & Hm & _); [done|]. split_and!; [lia|by right|]. pose proof (power_of_two_pos _ Hp). split; [done|]. lia.
Qed.

(** What the encoder made, when it said ok. *)
Lemma encode_ok allocated sources path c out : encode_change_state_image allocated sources path c = (ok, out) →
  capture_valid sources path c = true ∧
  out = image sources path c (filter_size (source_references c)) (filter_size (watch_references watch_topology c))
          (filter_size (watch_references watch_arrival c)).
Proof.
  unfold encode_change_state_image. destruct (capture_valid sources path c); cbn [negb]; [|done].
  destruct (forallb _ _); cbn [negb]; [|done]. destruct (forallb _ _); cbn [negb]; [|done]. cbv zeta.
  destruct (_ || _); [done|]. destruct allocated; cbn [negb]; [|done].
  intros E. injection E as <-. unfold image, filter_size. split; reflexivity.
Qed.

(** The checkpoint of an encoded capture is one that [bind] takes. *)
Lemma encoded_checkpoint sources path c : capture_fits path c → capture_bindable sources path c → capture_valid sources path c = true →
  sources < two32 ∧
  valid_checkpoint sources (filter_size (source_references c))
    (w64 (filter_size (watch_references watch_topology c) + filter_size (watch_references watch_arrival c))) (checkpoint c) = true.
Proof.
  intros F B V. unfold capture_valid in V. apply andb_true_iff in V as [V1 V2]. apply negb_true_iff in V1, V2.
  apply orb_false_iff in V1 as [Hn _]. apply N.ltb_ge in Hn. split; [unfold two32 in *; lia|].
  apply orb_false_iff in V2 as [V2 _]. apply orb_false_iff in V2 as [V2 _]. apply orb_false_iff in V2 as [Hunset Hset].
  unfold valid_checkpoint. destruct (is_set (checkpoint c)) eqn:Hs; cbn [negb andb orb] in *.
  - apply orb_false_iff in Hset as [Hset _]. apply orb_false_iff in Hset as [Hset Hu]. apply orb_false_iff in Hset as [Hv Hj].
    rewrite Hv, Hj. cbn [negb andb orb]. replace (0 <=? next_usn (checkpoint c))%Z with true by (symmetry; apply Z.leb_le; lia).
    cbn [andb]. destruct (N.eqb_spec sources 0) as [|Hne]; [done|]. cbn [orb].
    apply negb_true_iff, N.eqb_neq. intros H0. apply (filter_size_spec (source_references c)) in H0.
    + by apply (cb_files _ _ _ B Hs Hne).
    + pose proof (length_source_references c). pose proof (cf_files _ _ F). lia.
  - rewrite orb_false_r. apply orb_false_iff in Hunset as [Hf%negb_false_iff%bool_decide_eq_true Hd%negb_false_iff%bool_decide_eq_true].
    rewrite (cb_unset _ _ _ B Hs). unfold filter_size, source_references, watch_references. by rewrite Hf, Hd.
Qed.

(** A filter of the view lets through what it was given, and its checksum holds. *)
Lemma filter_answers v filter references : (∃ bloom, image_size bloom = section_count filter ∧
    slice (bytes v) (section_offset filter) (section_count filter) = foldl bloom_add bloom references) →
  section_offset filter + section_count filter <= image_size (bytes v) → Forall (λ r, r ≠ 0) references →
  section_count filter = filter_size references → N.of_nat (length references) < 2 ^ 50 →
  ∀ r, r ∈ references → filter_maybe v filter r = Some true.
Proof.
  intros (bloom & Hb & Hs) Hin Hr Hc Hl r Hin'. destruct (filter_size_spec references Hl) as (L1 & [L2|L2] & L3).
  { apply L3 in L2. subst. by apply not_elem_of_nil in Hin'. }
  rewrite <-Hc in L1, L2. assert (L60 : section_count filter <= 2 ^ 60) by (by apply N.le_trans with (1 := L1)).
  destruct (bloom_maybe_inside (bytes v) (section_offset filter) (section_count filter) r Hin L2 L60) as (answer & E & Ha).
  unfold filter_maybe. rewrite E. f_equal. rewrite Forall_forall in Hr. apply Ha; [by apply Hr|].
  rewrite Hs. rewrite <-Hb in L2, L60. by apply (bloom_filled references bloom L2 L60); [apply Forall_forall|].
Qed.

(** C12: the image of a capture that [bind] can take binds to a view
    with the number of sources, the checkpoint and the anchor path of the capture; the
    contents verify; and the gates answer yes for every file of the index and for every
    directory watched for topology or arrivals. *)
Theorem change_state_round_trip allocated sources path c out :
  capture_fits path c → capture_bindable sources path c → encode_change_state_image allocated sources path c = (ok, out) →
  ∃ v, bind out = (v, ok) ∧ gate_only v = true ∧ source_count v = sources ∧ view_checkpoint v = checkpoint c ∧
    journal_anchor_path v = Some path ∧ verify_contents v = Some ok ∧
    (∀ s, s ∈ file_index c → file_reference s ≠ 0 → may_contain_source_file v (file_reference s) = Some true) ∧
    (∀ s, s ∈ directory_index c → watches watch_topology s = true →
      may_watch_directory_topology v (directory_reference s) = Some true) ∧
    (∀ s, s ∈ directory_index c → watches watch_arrival s = true →
      may_watch_directory_arrival v (directory_reference s) = Some true).
Proof.
  intros F B E. destruct (encode_ok _ _ _ _ _ E) as [V ->]. destruct (encoded_checkpoint _ _ _ F B V) as [Hn Hcp].
  pose proof (length_source_references c) as L0. pose proof (length_watch_references watch_topology c) as L1.
  pose proof (length_watch_references watch_arrival c) as L2. destruct F as [Fk Fp Ff Fd].
  destruct (filter_size_spec (source_references c)) as (S1 & S2 & _); [lia|].
  destruct (filter_size_spec (watch_references watch_topology c)) as (T1 & T2 & _); [lia|].
  destruct (filter_size_spec (watch_references watch_arrival c)) as (A1 & A2 & _); [lia|].
  set (sb := filter_size (source_references c)) in *. set (tb := filter_size (watch_references watch_topology c)) in *.
  set (ab := filter_size (watch_references watch_arrival c)) in *.
  set (view := image_view sources path c sb tb ab). exists view.
  assert (Q : ∀ i offset count references filter, sections path sb tb ab !! i = Some (offset, count) →
    [(256, sb, source_references c); (topology_at sb, tb, watch_references watch_topology c);
     (arrival_at sb tb, ab, watch_references watch_arrival c)] !! i = Some (offset, count, references) →
    section_offset filter = offset → section_count filter = count → Forall (λ r, r ≠ 0) references → count = filter_size references →
    N.of_nat (length references) < 2 ^ 50 → ∀ r, r ∈ references → filter_maybe view filter r = Some true).
  { intros i offset count references filter Hi Hr <- <- H0 Hc Hl. apply (filter_answers _ filter references); try done.
    - exact (image_filters sources path c sb tb ab S1 T1 A1 Fp Hn i _ _ _ Hr).
    - exact (image_sections_inside sources path c sb tb ab S1 T1 A1 Fp Hn i _ _ Hi). }
  split; [exact (bind_image sources path c sb tb ab S1 T1 A1 Fp Hn Fk S2 T2 A2 (cb_path _ _ _ B) Hcp)|]. do 3 (split; [reflexivity|]).
  split; [exact (image_anchor sources path c sb tb ab S1 T1 A1 Fp Hn S2 T2 A2)|].
  split; [apply image_verifies; assumption|]. split_and!.
  - intros s Hs H0. apply (Q 0%nat _ _ (source_references c) (source_bloom view) eq_refl eq_refl eq_refl eq_refl); [apply source_references_set|reflexivity|lia|].
    apply list_elem_of_filter. split; [done|]. apply list_elem_of_fmap. eauto.
  - intros s Hs H0. apply (Q 1%nat _ _ (watch_references watch_topology c) (topology_bloom view) eq_refl eq_refl eq_refl eq_refl);
      [apply watch_references_set|reflexivity|lia|]. apply list_elem_of_fmap. exists s. by rewrite list_elem_of_filter.
  - intros s Hs H0. apply (Q 2%nat _ _ (watch_references watch_arrival c) (arrival_bloom view) eq_refl eq_refl eq_refl eq_refl);
      [apply watch_references_set|reflexivity|lia|]. apply list_elem_of_fmap. exists s. by rewrite list_elem_of_filter.
Qed.

(** ** Reading inside the image *)

Definition inside (image : list byte) (x : section) (size : N) : Prop :=
  section_offset x + section_count x * size <= image_size image.

(** Every section holds at most [2 ^ 50] records. *)
Definition sections_small (v : change_state_image_view) : Prop :=
  Forall (λ x, section_count x <= 2 ^ 50)
    [legacy_file_index v; file_control v; file_references v; file_sources v; source_bloom v; topology_bloom v;
     arrival_bloom v; directory_slots v; journal_anchor v].

(** The sections follow one another up to an offset. *)
Fixpoint laid (base : N) (l : list (section * N)) (last : N) : Prop :=
  match l with
  | [] => last = base
  | (x, size) :: l' => section_offset x = base ∧ laid (after base (section_count x) size) l' last
  end.

Lemma after_records offset count size : offset + count * size < 2 ^ 63 →
  offset + count * size <= after offset count size < offset + count * size + 64.
Proof.
  intros H. assert (H63 : 2 ^ 63 < two64) by done. assert (Hw : offset + count * size < two64) by lia.
  unfold after. rewrite (w64_small (count * size)), w64_small by lia. by apply align64_spec.
Qed.

Definition count_records (l : list (section * N)) : N := N.of_nat (length l).

Lemma laid_inside l : ∀ base last, laid base l last → Forall (λ e, section_count e.1 * e.2 <= 2 ^ 54) l →
  base + count_records l * (2 ^ 54 + 64) < 2 ^ 63 →
  base <= last <= base + count_records l * (2 ^ 54 + 64) ∧
  Forall (λ e, section_offset e.1 + section_count e.1 * e.2 <= last) l.
Proof.
  unfold count_records. induction l as [|[x size] l IH]; intros base last; cbn [laid length].
  { intros -> _ _. split; [lia|done]. }
  intros [Hx Hl] [Hs Hr]%Forall_cons Hb. cbn in Hs. rewrite Nat2N.inj_succ in *.
  assert (H54 : 2 ^ 54 = 18014398509481984) by done. assert (H63 : 2 ^ 63 = 9223372036854775808) by done. rewrite H54, H63 in *.
  destruct (after_records base (section_count x) size) as [A1 A2]; [rewrite H63; nia|].
  destruct (IH _ _ Hl Hr) as [I1 I2]; [nia|]. split; [nia|]. constructor; [|done]. cbn. rewrite Hx. nia.
Qed.

Lemma power_of_two_or_zero_inv n : power_of_two_or_zero n = true → n = 0 ∨ power_of_two n.
Proof.
  unfold power_of_two_or_zero. destruct (N.eqb_spec n 0) as [|Hn]; [by left|]. cbn [orb]. intros H%N.eqb_eq. right.
  exists (N.log2 n). pose proof (N.log2_spec n ltac:(lia)) as [L1 L2].
  destruct (N.eq_dec n (2 ^ N.log2 n)) as [|Hne]; [done|]. exfalso. apply (f_equal (λ m, N.testbit m (N.log2 n))) in H.
  rewrite N.land_spec, N.bits_0, N.bit_log2 in H by done. cbn [andb] in H.
  assert (E : N.log2 (n - 1) = N.log2 n) by (apply N.log2_unique; [lia|]; split; lia).
  rewrite <-E, N.bit_log2 in H; [done|]. intros H0. assert (1 <= 2 ^ N.log2 n) by (apply N.lt_pred_le, N.neq_0_lt_0; by apply N.pow_nonzero). lia.
Qed.

(** What [bind] has checked of a view: its sections, in order, with their record sizes. *)
Definition records_of (v : change_state_image_view) : list (section * N) :=
  if format_version v =? 3 then [(source_bloom v, 1); (topology_bloom v, 1); (arrival_bloom v, 1)]
  else if format_version v =? 1 then [(legacy_file_index v, v1_file_slot_size); (directory_slots v, directory_slot_size)]
  else [(file_control v, file_control_size); (file_references v, file_reference_size); (file_sources v, file_source_size);
        (directory_slots v, directory_slot_size)].

Record bound (image : list byte) (v : change_state_image_view) : Prop := Bound {
  b_bytes : bytes v = image;
  b_version : format_version v = 1 ∨ format_version v = 2 ∨ format_version v = 3;
  b_laid : ∃ base, base <= 320 ∧ laid base (records_of v) (section_offset (journal_anchor v));
  b_ends : w64 (section_offset (journal_anchor v) + section_count (journal_anchor v)) = image_size image;
  b_powers : Forall (λ e, section_count e.1 = 0 ∨ power_of_two (section_count e.1)) (records_of v);
  b_columns : section_count (file_references v) = section_count (file_control v) ∧
    section_count (file_sources v) = section_count (file_control v);
}.

(** The entries as variables. *)
Ltac forget_entries := repeat match goal with |- context [read_section ?image ?i] => generalize dependent (read_section image i); intros end.

Lemma ends_with_inv image anchor : ends_with image anchor = true → w64 (section_offset anchor + section_count anchor) = image_size image.
Proof. unfold ends_with. by intros [_ H%N.eqb_eq]%andb_true_iff. Qed.

Lemma bind_v3_bound image v : bind_v3 image = Some v → bound image v.
Proof.
  unfold bind_v3. intros ([sources c] & _ & H)%bind_Some.
  destruct (negb (_ && entry_is image 3 1)); [done|]. destruct (negb (_ && power_of_two_or_zero _)) eqn:P; [done|].
  destruct (negb (_ && ends_with _ _)) eqn:L; [done|]. destruct (negb (valid_checkpoint _ _ _ _)); [done|]. injection H as <-. apply negb_false_iff in P, L.
  apply andb_true_iff in P as [[P0 P1]%andb_true_iff P2]. apply andb_true_iff in L as [L E%ends_with_inv].
  repeat (apply andb_true_iff in L as [L ?%N.eqb_eq]). apply N.eqb_eq in L.
  forget_entries. split; cbn; try done; [by right; right| |].
  - exists 256. change v3_first_section_offset with 256 in *. repeat split; try done; congruence.
  - rewrite !Forall_cons. split_and!; try apply Forall_nil_2; by apply power_of_two_or_zero_inv.
Qed.

Lemma bind_v1_bound image v : bind_v1 image = Some v → bound image v.
Proof.
  unfold bind_v1. intros ([sources c] & _ & H)%bind_Some.
  destruct (negb (_ && entry_is image 2 1)); [done|]. destruct (negb (_ && power_of_two_or_zero _)) eqn:P; [done|].
  destruct (negb (_ && ends_with _ _)) eqn:L; [done|]. destruct (negb (valid_checkpoint _ _ _ _)); [done|]. injection H as <-. apply negb_false_iff in P, L.
  apply andb_true_iff in P as [P0 P1]. apply andb_true_iff in L as [L E%ends_with_inv].
  repeat (apply andb_true_iff in L as [L ?%N.eqb_eq]). apply N.eqb_eq in L.
  forget_entries. split; cbn; try done; [by left| |].
  - exists 256. change v1_first_section_offset with 256 in *. repeat split; try done; congruence.
  - rewrite !Forall_cons. split_and!; try apply Forall_nil_2; by apply power_of_two_or_zero_inv.
Qed.

Lemma bind_v2_bound image v : bind_v2 image = Some v → bound image v.
Proof.
  unfold bind_v2. intros ([sources c] & _ & H)%bind_Some.
  destruct (negb (_ && entry_is image 4 1)); [done|]. destruct (negb (_ && power_of_two_or_zero _)) eqn:P; [done|].
  destruct (negb (_ && ends_with _ _)) eqn:L; [done|]. destruct (negb (valid_checkpoint _ _ _ _)); [done|]. injection H as <-. apply negb_false_iff in P, L.
  apply andb_true_iff in P as [[[P0%N.eqb_eq P1%N.eqb_eq]%andb_true_iff P2]%andb_true_iff P3].
  apply andb_true_iff in L as [L E%ends_with_inv].
  repeat (apply andb_true_iff in L as [L ?%N.eqb_eq]). apply N.eqb_eq in L.
  forget_entries. split; cbn; try done; [by right; left| |].
  - exists 320. change v2_first_section_offset with 320 in *. repeat split; try done; congruence.
  - rewrite !Forall_cons. split_and!; try apply Forall_nil_2; cbn; rewrite <-?P0, <-?P1; by apply power_of_two_or_zero_inv.
Qed.

Lemma bind_bound image v : bind image = (v, ok) → bound image v.
Proof.
  unfold bind. destruct (image_size image <? header_size); [done|]. cbv zeta.
  repeat case_bool_decide; [destruct (bind_v3 image) eqn:E|destruct (bind_v1 image) eqn:E|destruct (bind_v2 image) eqn:E|done];
    intros [= ->]; [by apply bind_v3_bound|by apply bind_v1_bound|by apply bind_v2_bound].
Qed.

Lemma records_small v : sections_small v → Forall (λ e, section_count e.1 * e.2 <= 2 ^ 54) (records_of v) ∧ section_count (journal_anchor v) <= 2 ^ 50.
Proof.
  unfold sections_small. rewrite !Forall_cons. intros (H1 & H2 & H3 & H4 & H5 & H6 & H7 & H8 & H9 & _). split; [|done].
  assert (E : ∀ n size, n <= 2 ^ 50 → size <= 16 → n * size <= 2 ^ 54).
  { intros n size Hn Hs. replace (2 ^ 54) with (2 ^ 50 * 16) by done. by apply N.mul_le_mono. }
  unfold records_of. destruct (_ =? 3); [|destruct (_ =? 1)]; rewrite !Forall_cons; split_and!; try apply Forall_nil_2; by apply E.
Qed.

(** The sections of a bound view with small sections are inside the image. *)
Lemma bound_inside image v : bound image v → sections_small v →
  Forall (λ e, inside image e.1 e.2) (records_of v) ∧ inside image (journal_anchor v) 1.
Proof.
  intros B S. destruct (records_small v S) as [Hr Ha]. destruct (b_laid _ _ B) as (base & Hbase & Hl).
  assert (Hn : count_records (records_of v) <= 4) by (unfold count_records, records_of; destruct (_ =? 3); [|destruct (_ =? 1)]; done).
  assert (H54 : 2 ^ 54 = 18014398509481984) by done. assert (H50 : 2 ^ 50 = 1125899906842624) by done.
  assert (Hbound : base + count_records (records_of v) * (2 ^ 54 + 64) < 2 ^ 57).
  { apply N.le_lt_trans with (320 + 4 * (2 ^ 54 + 64)); [|done]. apply N.add_le_mono; [done|]. by apply N.mul_le_mono_r. }
  destruct (laid_inside _ _ _ Hl Hr) as [I1 I2]; [by apply N.lt_trans with (1 := Hbound)|].
  pose proof (b_ends _ _ B) as He. rewrite w64_small in He.
  2: { apply N.lt_trans with (2 ^ 57 + 2 ^ 50 + 1); [lia|done]. }
  unfold inside. split; [|lia]. eapply Forall_impl; [exact I2|]. intros e. cbn. lia.
Qed.

Lemma word_at_inside image offset size : offset + size <= image_size image → is_Some (word_at image offset size).
Proof. intros H. unfold word_at. destruct (N.ltb_spec (image_size image) (offset + size)); [lia|done]. Qed.

Lemma walk_inside count reference visit : count = 0 ∨ power_of_two count → (∀ p, p < count → is_Some (visit p)) →
  ∃ r, walk count reference visit = Some r ∧ (r = 0 ∨ ∃ p, visit p = Some (Some r)).
Proof.
  intros Hc Hv. unfold walk. destruct (_ || _) eqn:E0; [by exists 0; auto|]. apply orb_false_iff in E0 as [_ E0%N.eqb_neq].
  destruct Hc as [|Hp]; [done|]. assert (Hlt : N.land (mix64 reference) (count - 1) < count) by (rewrite land_mask by done; apply N.mod_lt; lia).
  destruct (probe _ _ _ _) as [r|] eqn:Ep; cbn [default]; [|by exists 0; auto].
  apply (probe_Some _ _ Hp) in Ep as (d & _ & Hd & _); [|done].
  destruct (Hv (ahead count (N.land (mix64 reference) (count - 1)) d)) as [s Hs]; [apply ahead_lt; lia|]. rewrite Hs in Hd.
  destruct s as [s|]; [|done]. injection Hd as <-. exists s. split; [done|]. right. eauto.
Qed.

(** The slots of the tables. *)
Lemma visit_v1_inside v reference p : inside (bytes v) (legacy_file_index v) v1_file_slot_size → p < section_count (legacy_file_index v) →
  is_Some (visit_v1 v reference p).
Proof.
  unfold inside, visit_v1, v1_file_slot_size. intros Hin Hp. set (slot := section_offset _ + _).
  destruct (word_at_inside (bytes v) slot 8) as [c ->]; [unfold slot; nia|]. cbn [mbind option_bind].
  destruct (c =? 0); [done|]. destruct (c =? reference); [|done].
  destruct (word_at_inside (bytes v) (slot + 8) 4) as [s ->]; [unfold slot; nia|].
  destruct (word_at_inside (bytes v) (slot + 12) 4) as [r ->]; [unfold slot; nia|]. done.
Qed.

Lemma visit_directory_inside v reference p : inside (bytes v) (directory_slots v) directory_slot_size → p < section_count (directory_slots v) →
  is_Some (visit_directory v reference p).
Proof.
  unfold inside, visit_directory, directory_slot_size. intros Hin Hp. set (slot := section_offset _ + _).
  destruct (word_at_inside (bytes v) slot 8) as [c ->]; [unfold slot; nia|]. cbn [mbind option_bind].
  destruct (c =? 0); [done|]. destruct (c =? reference); [|done].
  destruct (word_at_inside (bytes v) (slot + 8) 4) as [s ->]; [unfold slot; nia|].
  destruct (word_at_inside (bytes v) (slot + 12) 4) as [r ->]; [unfold slot; nia|]. done.
Qed.

Lemma visit_v2_inside v reference p : inside (bytes v) (file_control v) 1 → inside (bytes v) (file_references v) 8 →
  inside (bytes v) (file_sources v) 4 → section_count (file_references v) = section_count (file_control v) →
  section_count (file_sources v) = section_count (file_control v) → p < section_count (file_control v) → is_Some (visit_v2 v reference p).
Proof.
  unfold inside, visit_v2, file_reference_size, file_source_size. intros H1 H2 H3 E1 E2 Hp. rewrite E1 in H2. rewrite E2 in H3.
  destruct (word_at_inside (bytes v) (section_offset (file_control v) + p) 1) as [c ->]; [nia|]. cbn [mbind option_bind].
  destruct (negb _); [done|]. destruct (word_at_inside (bytes v) (section_offset (file_references v) + p * 8) 8) as [r ->]; [nia|].
  cbn [mbind option_bind]. destruct (r =? reference); [|done].
  by destruct (word_at_inside (bytes v) (section_offset (file_sources v) + p * 4) 4) as [s ->]; [nia|].
Qed.

(** What the file index answers is a source of the view. *)
Lemma visit_known v reference p s : visit_v1 v reference p = Some (Some s) ∨ visit_v2 v reference p = Some (Some s) → s <= source_count v.
Proof.
  assert (K : ∀ s b, (if known_source v s && b then s else 0) <= source_count v).
  { intros x b. unfold known_source. destruct (N.leb_spec x (source_count v)), (x =? 0), b; cbn; lia. }
  unfold visit_v1, visit_v2. intros [(c & _ & H)%bind_Some|(c & _ & H)%bind_Some].
  - destruct (c =? 0); [by injection H as <-; lia|]. destruct (c =? reference); [|done].
    apply bind_Some in H as (x & _ & (y & _ & [= <-])%bind_Some). apply K.
  - destruct (negb _); [by injection H as <-; lia|]. apply bind_Some in H as (y & _ & H). destruct (y =? reference); [|done].
    apply bind_Some in H as (x & _ & [= <-]). specialize (K x true). by rewrite andb_true_r in K.
Qed.

(** The lookups of a bound view. *)
Lemma find_source_file_inside image v r : bound image v → sections_small v →
  ∃ s, find_source_file v r = Some s ∧ s <= source_count v.
Proof.
  intros B S. destruct (bound_inside image v B S) as [R _]. pose proof (b_powers _ _ B) as P. rewrite <-(b_bytes _ _ B) in R.
  unfold records_of in R, P. unfold find_source_file, gate_only, change_state_image_format_version, file_index_count.
  destruct (format_version v =? 3) eqn:E3; [exists 0; split; [done|lia]|]. destruct (format_version v =? 1) eqn:E1; rewrite !Forall_cons in R, P; cbn in R, P.
  - destruct R as [R0 _]. destruct (walk_inside _ r (visit_v1 v r) (proj1 P)) as (s & E & Hs).
    { intros p Hp. by apply visit_v1_inside. }
    exists s. split; [done|]. destruct Hs as [->|(p & Hp)]; [lia|]. by apply (visit_known v r p); left.
  - destruct R as (R0 & R1 & R2 & _). destruct (b_columns _ _ B) as [C1 C2]. destruct (walk_inside _ r (visit_v2 v r) (proj1 P)) as (s & E & Hs).
    { intros p Hp. by apply visit_v2_inside. }
    exists s. split; [done|]. destruct Hs as [->|(p & Hp)]; [lia|]. by apply (visit_known v r p); right.
Qed.

Lemma directory_flags_inside image v r : bound image v → sections_small v → is_Some (directory_watch_flags v r).
Proof.
  intros B S. destruct (bound_inside image v B S) as [R _]. pose proof (b_powers _ _ B) as P. rewrite <-(b_bytes _ _ B) in R.
  unfold records_of in R, P. unfold directory_watch_flags, gate_only, change_state_image_format_version.
  assert (D : inside (bytes v) (directory_slots v) directory_slot_size → section_count (directory_slots v) = 0 ∨ power_of_two (section_count (directory_slots v)) →
    is_Some (walk (section_count (directory_slots v)) r (visit_directory v r))).
  { intros Hin Hp. destruct (walk_inside _ r (visit_directory v r) Hp) as (s & E & _); [|eauto]. intros p Hlt. by apply visit_directory_inside. }
  destruct (format_version v =? 3); [done|]. destruct (format_version v =? 1); rewrite !Forall_cons in R, P; cbn in R, P; apply D; tauto.
Qed.

(** The filters of a bound view of version 3. *)
Lemma filters_inside image v r : bound image v → sections_small v → gate_only v = true →
  is_Some (filter_maybe v (source_bloom v) r) ∧ is_Some (filter_maybe v (topology_bloom v) r) ∧ is_Some (filter_maybe v (arrival_bloom v) r).
Proof.
  intros B S G. destruct (bound_inside image v B S) as [R _]. pose proof (b_powers _ _ B) as P. rewrite <-(b_bytes _ _ B) in R.
  unfold records_of in R, P. unfold gate_only, change_state_image_format_version in G. rewrite G in R, P.
  assert (F : ∀ x, inside (bytes v) x 1 → section_count x <= 2 ^ 50 → section_count x = 0 ∨ power_of_two (section_count x) → is_Some (filter_maybe v x r)).
  { intros x Hin Hs [H0|Hp]; unfold filter_maybe.
    - unfold bloom_maybe. by rewrite H0.
    - destruct (bloom_maybe_inside (bytes v) (section_offset x) (section_count x) r) as (a & -> & _); try done.
      + unfold inside in Hin. lia.
      + apply N.le_trans with (1 := Hs). done. }
  unfold sections_small in S. rewrite !Forall_cons in R, P. rewrite !Forall_cons in S. destruct S as (_ & _ & _ & _ & S1 & S2 & S3 & _).
  cbn in R, P. split_and!; apply F; tauto.
Qed.

Lemma verify_inside image v : bound image v → sections_small v → is_Some (verify_contents v).
Proof.
  intros B S. destruct (bound_inside image v B S) as [R Ra]. rewrite <-(b_bytes _ _ B) in R, Ra.
  assert (I : ∀ x size, inside (bytes v) x size → is_Some (section_intact v x size)).
  { intros x size H. unfold section_intact, inside in *. destruct (N.ltb_spec (image_size (bytes v)) (section_offset x + section_count x * size)); [lia|done]. }
  assert (A : ∀ i, is_Some (anchor_intact v i)).
  { intros i. unfold anchor_intact, journal_anchor_path. unfold inside in Ra.
    destruct (N.ltb_spec (image_size (bytes v)) (section_offset (journal_anchor v) + section_count (journal_anchor v))); [lia|done]. }
  unfold verify_contents. destruct (negb (valid v)); [done|]. unfold gate_only, records_of, change_state_image_format_version in *.
  destruct (format_version v =? 3); [|destruct (format_version v =? 1)]; rewrite !Forall_cons in R; cbn in R.
  - destruct R as (R0 & R1 & R2 & _). destruct (I _ _ R0) as [a ->], (I _ _ R1) as [b ->], (I _ _ R2) as [c ->], (A 3) as [d ->]. done.
  - destruct R as (R0 & R1 & _). destruct (I _ _ R1) as [a ->], (A 2) as [b ->]. cbn [mbind option_bind]. destruct a; [|done].
    destruct b; [|done]. by destruct (I _ _ R0) as [c ->].
  - destruct R as (R0 & R1 & R2 & R3 & _). destruct (I _ _ R3) as [a ->], (A 4) as [b ->]. cbn [mbind option_bind]. destruct a; [|done].
    destruct b; [|done]. by destruct (I _ _ R0) as [c ->], (I _ _ R1) as [d ->], (I _ _ R2) as [e ->].
Qed.

(** C13: of an image that is bound, in any of the three versions, whose
    sections hold at most [2 ^ 50] records each, every query and the verification read inside
    the bytes, whatever those are; and a file is found as a source of the image or not at all. *)
Theorem bound_image_read_inside image v : bind image = (v, ok) → sections_small v →
  is_Some (verify_contents v) ∧ ∀ r,
  is_Some (may_contain_source_file v r) ∧ is_Some (may_watch_directory_topology v r) ∧ is_Some (may_watch_directory_arrival v r) ∧
  ∃ s, find_source_file v r = Some s ∧ s <= source_count v.
Proof.
  intros B%bind_bound S. split; [by eapply verify_inside|]. intros r.
  destruct (find_source_file_inside image v r B S) as (s & Es & Hs). destruct (directory_flags_inside image v r B S) as [f Ef].
  unfold may_contain_source_file, may_watch_directory_topology, may_watch_directory_arrival. rewrite Es, Ef.
  destruct (gate_only v) eqn:G; [|by split_and!; eauto]. destruct (filters_inside image v r B S G) as (F1 & F2 & F3).
  split; [exact F1|]. split; [exact F2|]. split; [exact F3|]. exists s. split; [reflexivity|exact Hs].
Qed.

(** ** Concrete images *)

Definition sample_path : list byte := [x43; x3a].
Definition sample_capture : source_change_capture :=
  Capture (Checkpoint windows_usn 3 4 5) [FileSlot 77 1 0; FileSlot 0 0 0] [DirectorySlot 88 3 0; DirectorySlot 99 1 0].
Definition sample_image : list byte := (encode_change_state_image true 1 sample_path sample_capture).2.

Lemma sample_fits : capture_fits sample_path sample_capture ∧ capture_bindable 1 sample_path sample_capture.
Proof. by split; split. Qed.

Lemma sample_encoded : encode_change_state_image true 1 sample_path sample_capture = (ok, sample_image).
Proof. vm_compute. reflexivity. Qed.

Lemma change_state_round_trip_witness : ∃ v, bind sample_image = (v, ok) ∧ verify_contents v = Some ok ∧
  journal_anchor_path v = Some sample_path ∧ may_contain_source_file v 77 = Some true ∧ may_watch_directory_arrival v 88 = Some true.
Proof.
  destruct (change_state_round_trip true 1 sample_path sample_capture sample_image (proj1 sample_fits) (proj2 sample_fits) sample_encoded)
    as (v & Hb & _ & _ & _ & Hp & Hv & Hf & _ & Ha).
  exists v. split; [exact Hb|]. split; [exact Hv|]. split; [exact Hp|]. split.
  - apply (Hf (FileSlot 77 1 0)); [by left|discriminate].
  - apply (Ha (DirectorySlot 88 3 0)); [by left|reflexivity].
Defined.

Definition sample_view : change_state_image_view := (bind sample_image).1.

Lemma sample_bound : bind sample_image = (sample_view, ok) ∧ sections_small sample_view.
Proof. split; [by vm_compute|]. unfold sections_small. apply Forall_forall. intros x Hx. repeat (apply elem_of_cons in Hx as [->|Hx]; [by vm_compute|]). by apply not_elem_of_nil in Hx. Qed.

Lemma bound_image_read_inside_witness : is_Some (verify_contents sample_view) ∧ is_Some (may_contain_source_file sample_view 78).
Proof.
  destruct (bound_image_read_inside sample_image sample_view (proj1 sample_bound) (proj2 sample_bound)) as [Hv Hq].
  split; [exact Hv|]. exact (proj1 (Hq 78)).
Defined.

(** An image of 257 bytes whose first two filters are said to have [2 ^ 63] bytes each: the
    offsets come round to where they started. *)
Definition wrapped_image : list byte :=
  let output := write_header (replicate 257 x00) 257 1 (Checkpoint windows_usn 3 4 5) in
  let output := write_entry output 0 256 (2 ^ 63) in
  let output := write_entry output 1 (2 ^ 63 + 256) (2 ^ 63) in
  let output := write_entry output 2 256 0 in
  let output := write_entry output 3 256 1 in
  write_header_crc (write_u64 (write_directory_crc output) 96 0).

(** The offsets of the sections are compared after 64-bit sums
    that may wrap, so an image is bound whose filters reach far beyond it, and the first query
    of such a filter reads outside the image. *)
Theorem wrapped_image_read_outside : ∃ v, bind wrapped_image = (v, ok) ∧ image_size (bytes v) = 257 ∧
  section_count (source_bloom v) = 2 ^ 63 ∧ may_contain_source_file v 77 = None.
Proof. eexists. split; [vm_compute; reflexivity|]. by vm_compute. Qed.

(** Captures the encoder takes although [bind] refuses their image: without checkpoint and
    anchor, and with an index of the sources' files that only has vacant slots. *)
Theorem encoded_image_refused :
  (∃ image, encode_change_state_image true 0 [] (Capture no_checkpoint [] []) = (ok, image) ∧ bind image = (reset_view, artifact_corrupt)) ∧
  (∃ image, encode_change_state_image true 1 sample_path (Capture (Checkpoint windows_usn 3 4 5) [FileSlot 0 0 0] []) = (ok, image) ∧
     bind image = (reset_view, artifact_corrupt)).
Proof. split; eexists; (split; [vm_compute; reflexivity|by vm_compute]). Qed.

End ChangeStateTheorems.
