(* ===== verification/SourceFacts.v ===== *)
(** * Source facts and their validation

    Models server_engine/project/frontend/source_facts.hpp and
    source_facts_validation.{hpp,cpp}: the flat packet the Parser hands to the Generation
    Builder and [validate_source_facts], which accepts or refuses it.

    A span of facts is a list.  An enumeration with a fixed underlying type is its number, as
    a packet may carry any of its values.  A check is a value of [check]: the error it
    reports, or what the next check starts from. *)

From stdpp Require Import pretty.
From S2P Require Import Prelude IdentitySpace Construction.

Local Open Scope N_scope.

Module SourceFacts.

#[local] Existing Instance IdentitySpace.identity_kind_eq_dec.

(** ** Data *)

(** [offset] and [length] are 32-bit words. *)
Record source_span : Set := Span { offset : N; span_length : N }.
Definition no_span : source_span := Span 0 0.

Record source_fact_range : Set := FactRange { begin : N; count : N }.

Definition intrinsic_none : N := 0.
Definition intrinsic_void : N := 1.
Definition intrinsic_signed_int : N := 12.
Definition intrinsic_float : N := 18.
Definition intrinsic_nullptr : N := 21.

Definition modifier_const : N := 0.
Definition modifier_pointer : N := 2.
Definition modifier_bounded_array : N := 5.
Definition modifier_unbounded_array : N := 6.

Record source_type_modifier : Set := TypeModifier { modifier_payload : N; modifier_code : N }.

Record source_type_ref : Set := SourceTypeRef {
  ref_identity : N; ref_intrinsic : N; ref_modifiers : source_fact_range; ref_spelling : source_span }.

Definition semantic (base : N) (range : source_fact_range) (spelling : source_span) : source_type_ref :=
  SourceTypeRef base intrinsic_none range spelling.
Definition builtin (base : N) (range : source_fact_range) (spelling : source_span) : source_type_ref :=
  SourceTypeRef 0 base range spelling.

Record source_namespace_fact : Set := NamespaceFact {
  namespace_identity : N; namespace_declaration : source_span }.

(** [declaration_kind]: 0 a declaration, 1 a definition; [record_code]: struct, class, union. *)
Definition kind_declaration : N := 0.
Definition kind_definition : N := 1.

Record source_record_fact : Set := RecordFact {
  record_identity : N;
  record_members : source_fact_range;
  record_bases : source_fact_range;
  record_methods : source_fact_range;
  record_declaration : source_span;
  record_declared : N;
  record_code : N }.

Record source_member_fact : Set := MemberFact {
  member_type : source_type_ref;
  member_name : N;
  member_declaration : source_span;
  member_visibility : N;
  member_initializer : source_span;
  member_construction : Construction.construction_value }.

Record source_base_fact : Set := BaseFact {
  base_identity : N; base_visibility : N; base_declaration : source_span; base_is_virtual : bool }.

Record source_method_fact : Set := MethodFact {
  method_name : N;
  method_return : source_type_ref;
  method_visibility : N;
  method_declaration : source_span;
  is_virtual : bool; is_override : bool; is_pure : bool; is_static : bool; is_const : bool;
  is_constructor : bool; is_destructor : bool }.

Record source_alias_fact : Set := AliasFact {
  alias_identity : N; alias_target : source_type_ref; alias_declaration : source_span }.

Record source_enum_value_fact : Set := EnumValueFact {
  enum_value_name : N; enum_value_intrinsic : N; enum_value_bits : N; enum_value_expression : source_span }.

Record source_enum_fact : Set := EnumFact {
  enum_identity : N;
  enum_enumerators : source_fact_range;
  enum_declaration : source_span;
  enum_underlying_spelling : source_span;
  enum_explicit_underlying : N;
  enum_declared : N;
  enum_scoped : bool }.

Record source_object_fact : Set := ObjectFact {
  object_identity : N;
  object_type_ref : source_type_ref;
  object_declaration : source_span;
  object_initializer : source_span;
  object_construction_flags : N }.

Record source_object_endpoint_fact : Set := EndpointFact { endpoint_object : N; endpoint_member : N }.

Record source_link_fact : Set := LinkFact {
  link_source : source_object_endpoint_fact;
  link_target : source_object_endpoint_fact;
  link_declaration : source_span }.

(** [source_declaration_kind] *)
Definition declares_namespace : N := 0.
Definition declares_record : N := 1.
Definition declares_enum : N := 2.
Definition declares_object : N := 3.
Definition declares_link : N := 4.
Definition declares_alias : N := 5.

Record source_declaration_ref : Set := DeclarationRef {
  declaration_index : N; declaration_code : N; declaration_span : source_span }.

Record source_facts : Set := SourceFacts {
  source : N;
  source_text : list N;
  namespaces : list source_namespace_fact;
  records : list source_record_fact;
  members : list source_member_fact;
  modifiers : list source_type_modifier;
  enums : list source_enum_fact;
  enum_values : list source_enum_value_fact;
  declarations : list source_declaration_ref;
  objects : list source_object_fact;
  links : list source_link_fact;
  bases : list source_base_fact;
  aliases : list source_alias_fact;
  alias_modifiers : list source_type_modifier;
  methods : list source_method_fact;
  method_modifiers : list source_type_modifier }.

(** [vector::size()]. *)
Definition size {A} (l : list A) : N := N.of_nat (length l).

(** [source_facts::text]. *)
Definition text (facts : source_facts) (range : source_span) : list N :=
  if (size (source_text facts) <? offset range) ||
     (size (source_text facts) - offset range <? span_length range) then []
  else take (N.to_nat (span_length range)) (drop (N.to_nat (offset range)) (source_text facts)).

(** ** Errors *)

Inductive source_facts_error_code : Set :=
| no_error | invalid_source | source_too_large | namespace_identity_missing
| namespace_identity_kind | namespace_range | namespace_order | record_identity_missing
| record_identity_kind | record_declaration_kind | record_kind | record_range | record_order
| record_member_range | declaration_has_members | member_partition | member_access
| member_name_empty | member_name_range | member_range | member_initializer_range | member_order
| member_name_outside_declaration | type_spelling_range | type_spelling_outside_member
| unresolved_type_base | ambiguous_type_base | semantic_type_identity_kind | intrinsic_type_code
| modifier_partition | modifier_kind | modifier_value | enum_identity_missing
| enum_identity_kind | enum_declaration_kind | enum_range | enum_order | enum_enumerator_range
| enum_declaration_has_values | enum_value_partition | enum_underlying_type
| enum_value_name_range | enum_value_expression_range | enum_value_type
| object_identity_missing | object_identity_kind | object_range | object_initializer_range
| object_type | link_endpoint | link_range | declaration_sequence_index
| declaration_sequence_order | declaration_sequence_range | record_base_range
| declaration_has_bases | declaration_has_methods | base_partition | base_identity_missing
| base_identity_kind | base_access | base_range | method_name_empty | method_range
| method_order | method_access | method_partition | method_modifier_partition
| alias_identity_missing | alias_identity_kind | alias_range | alias_order
| alias_modifier_partition | construction_value_invalid.

Inductive source_fact_category : Set :=
| packet | namespace_fact | record_fact | member_fact | modifier_fact | enum_fact | enum_value_fact
| object_fact | link_fact | base_fact | alias_fact | method_fact | declaration_ref.

#[export] Instance source_facts_error_code_eq_dec : EqDecision source_facts_error_code.
Proof. solve_decision. Defined.
#[export] Instance source_fact_category_eq_dec : EqDecision source_fact_category.
Proof. solve_decision. Defined.

Record validation_error : Set := ValidationError {
  code : source_facts_error_code;
  category : source_fact_category;
  error_index : N;
  location : source_span }.

Definition default_error : validation_error := ValidationError no_error packet 0 no_span.

Definition source_facts_error_detail (c : source_facts_error_code) : string :=
  match c with
  | no_error => "source facts are valid"
  | invalid_source => "source_facts carries an invalid source_id"
  | source_too_large => "source text exceeds the 32-bit source-range contract"
  | namespace_identity_missing => "namespace fact has no resolved identity"
  | namespace_identity_kind => "namespace fact identity is not a namespace identity"
  | namespace_range => "namespace declaration range is outside the Source snapshot"
  | namespace_order => "namespace facts are not in source declaration order"
  | record_identity_missing => "record fact has no resolved identity"
  | record_identity_kind => "record fact identity is not a type identity"
  | record_declaration_kind => "record fact has an unsupported declaration kind"
  | record_kind => "record fact has an unsupported record kind"
  | record_range => "record declaration range is outside the Source snapshot"
  | record_order => "record facts are not in source declaration order"
  | record_member_range => "record member range is outside the flat member array"
  | declaration_has_members => "record declaration carries definition members"
  | member_partition => "record definitions do not form an exact lexical partition of members"
  | member_access => "member fact has an unsupported access value"
  | member_name_empty => "member fact has an empty source name"
  | member_name_range => "member name range is outside the Source snapshot"
  | member_range => "member declaration range is outside the Source snapshot"
  | member_initializer_range => "member initializer range is outside its declaration"
  | member_order => "record members are not in source declaration order"
  | member_name_outside_declaration => "member name is outside its declaration range"
  | type_spelling_range => "member type spelling range is outside the Source snapshot"
  | type_spelling_outside_member => "member type spelling is outside its declaration range"
  | unresolved_type_base => "type reference has no resolved identity or intrinsic type"
  | ambiguous_type_base => "type reference carries both semantic identity and intrinsic type"
  | semantic_type_identity_kind => "type reference identity is not a type identity"
  | intrinsic_type_code => "type reference has an invalid intrinsic type code"
  | modifier_partition => "member type modifiers do not form an exact dense partition"
  | modifier_kind => "type modifier has an unsupported modifier kind"
  | modifier_value => "type modifier payload violates its structural contract"
  | enum_identity_missing => "enum fact has no resolved identity"
  | enum_identity_kind => "enum fact identity is not a type identity"
  | enum_declaration_kind => "enum fact has an unsupported declaration kind"
  | enum_range => "enum declaration range is outside the Source snapshot"
  | enum_order => "enum facts are not in source declaration order"
  | enum_enumerator_range => "enum enumerator range is outside the flat enum-value array"
  | enum_declaration_has_values => "enum declaration carries definition enumerators"
  | enum_value_partition => "enum definitions do not form an exact lexical partition of enum values"
  | enum_underlying_type => "enum explicit underlying type is not an integral intrinsic type"
  | enum_value_name_range => "enum value name range is outside the Source snapshot"
  | enum_value_expression_range => "enum value expression range is outside the Source snapshot"
  | enum_value_type => "enum value carries a non-integral intrinsic type"
  | object_identity_missing => "object fact has no resolved identity"
  | object_identity_kind => "object fact identity is not an object identity"
  | object_range => "object declaration range is outside the Source snapshot"
  | object_initializer_range => "object initializer range is outside its declaration"
  | object_type => "object type must be one resolved unmodified named Project type"
  | link_endpoint => "link endpoint is not a resolved object/member pair"
  | link_range => "link declaration range is outside the Source snapshot"
  | declaration_sequence_index => "declaration sequence does not reference each fact exactly once in per-kind order"
  | declaration_sequence_order => "declaration sequence is not in lexical source order"
  | declaration_sequence_range => "declaration sequence range does not match the referenced fact"
  | record_base_range => "record base range is outside the flat base array"
  | declaration_has_bases => "record declaration carries definition bases"
  | declaration_has_methods => "record declaration carries definition methods"
  | base_partition => "record definitions do not form an exact lexical partition of bases"
  | base_identity_missing => "base fact has no resolved identity"
  | base_identity_kind => "base fact identity is not a type identity"
  | base_access => "base fact has an unsupported access value"
  | base_range => "base declaration range is outside the Source snapshot"
  | method_name_empty => "method fact has an empty source name"
  | method_range => "method declaration range is outside the Source snapshot"
  | method_order => "record methods are not in source declaration order"
  | method_access => "method fact has an unsupported access value"
  | method_partition => "record definitions do not form an exact lexical partition of methods"
  | method_modifier_partition => "method return type modifiers do not form an exact dense partition"
  | alias_identity_missing => "alias fact has no resolved identity"
  | alias_identity_kind => "alias fact identity is not a type identity"
  | alias_range => "alias declaration range is outside the Source snapshot"
  | alias_order => "alias facts are not in source declaration order"
  | alias_modifier_partition => "alias type modifiers do not form an exact dense partition"
  | construction_value_invalid => "invalid managed construction value or binding operand"

  end%string.

Definition category_name (c : source_fact_category) : string :=
  match c with
  | packet => "packet" | namespace_fact => "namespace" | record_fact => "record"
  | member_fact => "member" | modifier_fact => "modifier" | enum_fact => "enum"
  | enum_value_fact => "enum_value" | object_fact => "object" | link_fact => "link"
  | base_fact => "base" | alias_fact => "alias" | method_fact => "method"
  | declaration_ref => "declaration"
  end%string.

(** ** Predicates of one fact *)

Definition valid_span (range : source_span) (source_size : N) : bool :=
  (offset range <=? source_size) && (span_length range <=? source_size - offset range).

(** The sums are of 32-bit words, in 64 bits. *)
Definition contains (outer inner : source_span) : bool :=
  let outer_end := offset outer + span_length outer in
  let inner_end := offset inner + span_length inner in
  (offset outer <=? offset inner) && (inner_end <=? outer_end).

Definition valid_range (range : source_fact_range) (n : N) : bool :=
  (begin range <=? n) && (count range <=? n - begin range).

Definition valid_intrinsic (value : N) : bool :=
  (intrinsic_none <? value) && (value <=? intrinsic_nullptr).
Definition valid_record_kind (value : N) : bool := value <=? 2.
Definition valid_member_access (value : N) : bool := value <=? 2.
Definition valid_modifier_kind (value : N) : bool := value <=? modifier_unbounded_array.

(** [range.length == 0 || !valid_span(range, source_size)] *)
Definition bad_span (range : source_span) (source_size : N) : bool :=
  (span_length range =? 0) || negb (valid_span range source_size).

(** [range.length != 0 && (!valid_span(range, size) || !contains(outer, range))] *)
Definition bad_inner_span (outer range : source_span) (source_size : N) : bool :=
  negb (span_length range =? 0) && (negb (valid_span range source_size) || negb (contains outer range)).

(** [identity.kind() == kind] *)
Definition is_kind (kind : IdentitySpace.identity_kind) (identity : N) : bool :=
  bool_decide (IdentitySpace.ref_kind identity = kind).

(** ** Checks *)

Definition check (A : Type) : Type := (validation_error + A)%type.

(** [fail]: the index is clamped to 32 bits. *)
Definition fail (c : source_facts_error_code) (k : source_fact_category) (index : N) (where_ : source_span) :
    validation_error :=
  ValidationError c k (if two32 - 1 <? index then two32 - 1 else index) where_.

Notation "'reject' b 'with' e ;; k" := (if b then inl e else k)
  (at level 100, b at next level, e at next level, k at level 200, right associativity).
Notation "'let!' x := c 'in' k" := (match c with inl e => inl e | inr x => k end)
  (at level 100, x pattern, c at next level, k at level 200, right associativity).

(** [for (index = 0; index < items.size(); ++index) { ... }], the state being what the body
    carries from one turn to the next. *)
Fixpoint each {A St} (body : N → A → St → check St) (index : N) (items : list A) (st : St) : check St :=
  match items with
  | [] => inr st
  | x :: items' => let! st' := body index x st in each body (index + 1) items' st'
  end.

(** [items[begin]] up to [items[begin + count - 1]]. *)
Definition section {A} (range : source_fact_range) (items : list A) : list A :=
  take (N.to_nat (count range)) (drop (N.to_nat (begin range)) items).

Section validate.
Context (facts : source_facts).

Definition source_size : N := size (source_text facts).

(** [index != 0 && offset < previous] *)
Definition out_of_order (index : N) (declaration : source_span) (previous : N) : bool :=
  negb (index =? 0) && (offset declaration <? previous).

Definition check_namespace (index : N) (item : source_namespace_fact) (previous : N) : check N :=
  let declaration := namespace_declaration item in
  reject namespace_identity item =? 0
    with fail namespace_identity_missing namespace_fact index declaration ;;
  reject negb (is_kind IdentitySpace.namespace_scope (namespace_identity item))
    with fail namespace_identity_kind namespace_fact index declaration ;;
  reject bad_span declaration source_size with fail namespace_range namespace_fact index declaration ;;
  reject out_of_order index declaration previous
    with fail namespace_order namespace_fact index declaration ;;
  inr (offset declaration).

(** One turn of the inner loop over the members of a definition, from the offset of the previous
    member. *)
Definition check_record_member (item : source_record_fact) (index : N) (member : source_member_fact)
    (previous : N) : check N :=
  let value := member_construction member in
  reject negb (Construction.valid_construction value) ||
      (bool_decide (Construction.kind value = Construction.member_binding) &&
       (count (record_members item) <? Construction.operand value))
    with fail construction_value_invalid member_fact index (member_declaration member) ;;
  reject negb (contains (record_declaration item) (member_declaration member))
    with fail member_range member_fact index (member_declaration member) ;;
  reject negb (index =? begin (record_members item)) && (offset (member_declaration member) <? previous)
    with fail member_order member_fact index (member_declaration member) ;;
  inr (offset (member_declaration member)).

Definition check_record_method (item : source_record_fact) (index : N) (method : source_method_fact)
    (st : unit) : check unit :=
  reject negb (contains (record_declaration item) (method_declaration method))
    with fail method_range method_fact index (method_declaration method) ;;
  inr st.

(** [expected_member_begin], [expected_base_begin], [expected_method_begin] and the offset of
    the previous record. *)
Record record_state : Set := RecordState {
  expected_member : N; expected_base : N; expected_method : N; previous_record : N }.

Definition check_record (index : N) (item : source_record_fact) (st : record_state) : check record_state :=
  let declaration := record_declaration item in
  let error c := fail c record_fact index declaration in
  reject record_identity item =? 0 with error record_identity_missing ;;
  reject negb (is_kind IdentitySpace.type_kind (record_identity item)) with error record_identity_kind ;;
  reject negb (valid_record_kind (record_code item)) with error record_kind ;;
  reject bad_span declaration source_size with error record_range ;;
  reject out_of_order index declaration (previous_record st) with error record_order ;;
  let st := RecordState (expected_member st) (expected_base st) (expected_method st) (offset declaration) in
  reject negb (valid_range (record_members item) (size (members facts))) with error record_member_range ;;
  reject negb (begin (record_members item) =? expected_member st) with error member_partition ;;
  reject negb (valid_range (record_bases item) (size (bases facts))) with error record_base_range ;;
  reject negb (begin (record_bases item) =? expected_base st) with error base_partition ;;
  reject negb (valid_range (record_methods item) (size (methods facts))) with error method_range ;;
  reject negb (begin (record_methods item) =? expected_method st) with error method_partition ;;
  if record_declared item =? kind_declaration then
    reject negb (count (record_members item) =? 0) with error declaration_has_members ;;
    reject negb (count (record_bases item) =? 0) with error declaration_has_bases ;;
    reject negb (count (record_methods item) =? 0) with error declaration_has_methods ;;
    inr st
  else
  reject negb (record_declared item =? kind_definition) with error record_declaration_kind ;;
  let st := RecordState (expected_member st + count (record_members item))
    (expected_base st + count (record_bases item)) (expected_method st + count (record_methods item))
    (previous_record st) in
  let! _ := each (check_record_member item) (begin (record_members item))
    (section (record_members item) (members facts)) 0 in
  let! _ := each (check_record_method item) (begin (record_methods item))
    (section (record_methods item) (methods facts)) tt in
  inr st.

Definition check_records : check unit :=
  let! st := each check_record 0 (records facts) (RecordState 0 0 0 0) in
  reject negb (expected_member st =? size (members facts))
    with fail member_partition packet (expected_member st) no_span ;;
  reject negb (expected_base st =? size (bases facts))
    with fail base_partition packet (expected_base st) no_span ;;
  reject negb (expected_method st =? size (methods facts))
    with fail method_partition packet (expected_method st) no_span ;;
  inr tt.

(** The tests of a type reference that methods, members and aliases share. *)
Definition check_base (type : source_type_ref) (none_allowed : bool)
    (error : source_facts_error_code → validation_error) : check unit :=
  let has_identity := negb (ref_identity type =? 0) in
  let has_intrinsic := negb (ref_intrinsic type =? intrinsic_none) in
  reject negb has_identity && negb has_intrinsic && negb none_allowed with error unresolved_type_base ;;
  reject has_identity && has_intrinsic with error ambiguous_type_base ;;
  reject has_identity && negb (is_kind IdentitySpace.type_kind (ref_identity type))
    with error semantic_type_identity_kind ;;
  reject has_intrinsic && negb (valid_intrinsic (ref_intrinsic type)) with error intrinsic_type_code ;;
  inr tt.

(** [expected_method_modifier_begin] and the offset of the previous method. *)
Definition check_method (index : N) (item : source_method_fact) (st : N * N) : check (N * N) :=
  let (expected, previous) := st in
  let declaration := method_declaration item in
  let error c := fail c method_fact index declaration in
  reject method_name item =? 0 with error method_name_empty ;;
  reject negb (valid_member_access (method_visibility item)) with error method_access ;;
  reject bad_span declaration source_size with error method_range ;;
  reject out_of_order index declaration previous with error method_order ;;
  let! _ := check_base (method_return item) (is_constructor item || is_destructor item) error in
  let range := ref_modifiers (method_return item) in
  reject negb (valid_range range (size (method_modifiers facts))) || negb (begin range =? expected)
    with error method_modifier_partition ;;
  inr (expected + count range, offset declaration).

Definition check_methods : check unit :=
  let! st := each check_method 0 (methods facts) (0, 0) in
  reject negb (st.1 =? size (method_modifiers facts))
    with fail method_modifier_partition packet st.1 no_span ;;
  inr tt.

Definition check_base_fact (index : N) (item : source_base_fact) (st : unit) : check unit :=
  let error c := fail c base_fact index (base_declaration item) in
  reject base_identity item =? 0 with error base_identity_missing ;;
  reject negb (is_kind IdentitySpace.type_kind (base_identity item)) with error base_identity_kind ;;
  reject negb (valid_member_access (base_visibility item)) with error base_access ;;
  reject bad_span (base_declaration item) source_size with error base_range ;;
  inr st.

Definition check_member (index : N) (item : source_member_fact) (st : unit) : check unit :=
  let declaration := member_declaration item in
  let type := member_type item in
  let spelling := ref_spelling type in
  let error c := fail c member_fact index in
  reject negb (valid_member_access (member_visibility item)) with error member_access declaration ;;
  reject member_name item =? 0 with error member_name_empty declaration ;;
  reject bad_span declaration source_size with error member_range declaration ;;
  reject bad_inner_span declaration (member_initializer item) source_size
    with error member_initializer_range (member_initializer item) ;;
  reject bad_span spelling source_size with error type_spelling_range spelling ;;
  reject negb (contains declaration spelling) with error type_spelling_outside_member spelling ;;
  let! _ := check_base type false (λ c, error c spelling) in
  reject negb (valid_range (ref_modifiers type) (size (modifiers facts)))
    with error modifier_partition spelling ;;
  inr st.

Definition check_modifier (index : N) (item : source_type_modifier) (st : unit) : check unit :=
  reject negb (valid_modifier_kind (modifier_code item)) with fail modifier_kind modifier_fact index no_span ;;
  let bounded_array := modifier_code item =? modifier_bounded_array in
  reject (bounded_array && (modifier_payload item =? 0)) ||
      (negb bounded_array && negb (modifier_payload item =? 0))
    with fail modifier_value modifier_fact index no_span ;;
  inr st.

(** [!valid_intrinsic(value) || value >= intrinsic_type::float_type] *)
Definition not_integral (value : N) : bool := negb (valid_intrinsic value) || (intrinsic_float <=? value).

Definition check_enum_value (item : source_enum_fact) (index : N) (value : source_enum_value_fact)
    (st : unit) : check unit :=
  reject enum_value_name value =? 0
    with fail enum_value_name_range enum_value_fact index (enum_declaration item) ;;
  reject bad_inner_span (enum_declaration item) (enum_value_expression value) source_size
    with fail enum_value_expression_range enum_value_fact index (enum_value_expression value) ;;
  reject not_integral (enum_value_intrinsic value)
    with fail enum_value_type enum_value_fact index (enum_value_expression value) ;;
  inr st.

(** [expected_enum_value_begin] and the offset of the previous enum. *)
Definition check_enum (index : N) (item : source_enum_fact) (st : N * N) : check (N * N) :=
  let (expected, previous) := st in
  let declaration := enum_declaration item in
  let error c := fail c enum_fact index declaration in
  reject enum_identity item =? 0 with error enum_identity_missing ;;
  reject negb (is_kind IdentitySpace.type_kind (enum_identity item)) with error enum_identity_kind ;;
  reject bad_span declaration source_size with error enum_range ;;
  reject out_of_order index declaration previous with error enum_order ;;
  reject negb (valid_range (enum_enumerators item) (size (enum_values facts)))
    with error enum_enumerator_range ;;
  reject negb (begin (enum_enumerators item) =? expected) with error enum_value_partition ;;
  reject negb (enum_explicit_underlying item =? intrinsic_none) &&
      not_integral (enum_explicit_underlying item)
    with fail enum_underlying_type enum_fact index (enum_underlying_spelling item) ;;
  if enum_declared item =? kind_declaration then
    reject negb (count (enum_enumerators item) =? 0) with error enum_declaration_has_values ;;
    inr (expected, offset declaration)
  else
  reject negb (enum_declared item =? kind_definition) with error enum_declaration_kind ;;
  let! _ := each (check_enum_value item) (begin (enum_enumerators item))
    (section (enum_enumerators item) (enum_values facts)) tt in
  inr (expected + count (enum_enumerators item), offset declaration).

Definition check_enums : check unit :=
  let! st := each check_enum 0 (enums facts) (0, 0) in
  reject negb (st.1 =? size (enum_values facts)) with fail enum_value_partition packet st.1 no_span ;;
  inr tt.

Definition check_object (index : N) (item : source_object_fact) (previous : N) : check N :=
  let declaration := object_declaration item in
  let type := object_type_ref item in
  let error c := fail c object_fact index declaration in
  reject 1 <? object_construction_flags item with error construction_value_invalid ;;
  reject object_identity item =? 0 with error object_identity_missing ;;
  reject negb (is_kind IdentitySpace.object_kind (object_identity item)) with error object_identity_kind ;;
  reject bad_span declaration source_size with error object_range ;;
  reject bad_inner_span declaration (object_initializer item) source_size
    with fail object_initializer_range object_fact index (object_initializer item) ;;
  reject out_of_order index declaration previous with error declaration_sequence_order ;;
  let semantic_type := negb (ref_identity type =? 0) &&
    is_kind IdentitySpace.type_kind (ref_identity type) && (ref_intrinsic type =? intrinsic_none) in
  let intrinsic_type_value := (ref_identity type =? 0) && negb (ref_intrinsic type =? intrinsic_none) in
  reject negb semantic_type && negb intrinsic_type_value with error object_type ;;
  reject (size (modifiers facts) <? begin (ref_modifiers type)) ||
      (size (modifiers facts) - begin (ref_modifiers type) <? count (ref_modifiers type))
    with error object_type ;;
  inr (offset declaration).

(** The merged walk over the modifier ranges of members and objects: the fact that is declared
    first is next, a member before an object. *)
Fixpoint merged_walk (fuel : nat) (member_position object_position : nat) (expected_begin : N) : check N :=
  match fuel with
  | O => inr expected_begin
  | S fuel' =>
      let take_member m :=
        let range := ref_modifiers (member_type m) in
        reject negb (begin range =? expected_begin)
          with fail modifier_partition member_fact (N.of_nat member_position) (member_declaration m) ;;
        merged_walk fuel' (S member_position) object_position (expected_begin + count range) in
      let take_object o :=
        let range := ref_modifiers (object_type_ref o) in
        reject negb (begin range =? expected_begin)
          with fail modifier_partition object_fact (N.of_nat object_position) (object_declaration o) ;;
        merged_walk fuel' member_position (S object_position) (expected_begin + count range) in
      match members facts !! member_position, objects facts !! object_position with
      | Some m, Some o =>
          if offset (member_declaration m) <=? offset (object_declaration o) then take_member m else take_object o
      | Some m, None => take_member m
      | None, Some o => take_object o
      | None, None => inr expected_begin
      end
  end.

(** One turn a fact. *)
Definition check_modifier_partition : check unit :=
  let! expected_begin := merged_walk (length (members facts) + length (objects facts)) 0 0 0 in
  reject negb (expected_begin =? size (modifiers facts))
    with fail modifier_partition packet expected_begin no_span ;;
  inr tt.

(** [endpoint.object == nullptr || endpoint.object.kind() != object || !endpoint.member] *)
Definition bad_endpoint (endpoint : source_object_endpoint_fact) : bool :=
  (endpoint_object endpoint =? 0) ||
  negb (is_kind IdentitySpace.object_kind (endpoint_object endpoint)) || (endpoint_member endpoint =? 0xffffffff).

Definition check_link (index : N) (item : source_link_fact) (previous : N) : check N :=
  let declaration := link_declaration item in
  reject bad_span declaration source_size with fail link_range link_fact index declaration ;;
  reject out_of_order index declaration previous
    with fail declaration_sequence_order link_fact index declaration ;;
  reject bad_endpoint (link_source item) || bad_endpoint (link_target item)
    with fail link_endpoint link_fact index declaration ;;
  inr (offset declaration).

(** [expected_alias_modifier_begin] and the offset of the previous alias. *)
Definition check_alias (index : N) (item : source_alias_fact) (st : N * N) : check (N * N) :=
  let (expected, previous) := st in
  let declaration := alias_declaration item in
  let error c := fail c alias_fact index declaration in
  reject alias_identity item =? 0 with error alias_identity_missing ;;
  reject negb (is_kind IdentitySpace.type_kind (alias_identity item)) with error alias_identity_kind ;;
  reject bad_span declaration source_size with error alias_range ;;
  reject out_of_order index declaration previous with error alias_order ;;
  let! _ := check_base (alias_target item) false error in
  let range := ref_modifiers (alias_target item) in
  reject negb (valid_range range (size (alias_modifiers facts))) || negb (begin range =? expected)
    with error alias_modifier_partition ;;
  inr (expected + count range, offset declaration).

Definition check_aliases : check unit :=
  let! st := each check_alias 0 (aliases facts) (0, 0) in
  reject negb (st.1 =? size (alias_modifiers facts))
    with fail alias_modifier_partition packet st.1 no_span ;;
  inr tt.

(** The next fact of each kind in the declaration sequence. *)
Record next_facts : Set := NextFacts {
  next_namespace : nat; next_record : nat; next_enum : nat; next_object : nat; next_link : nat;
  next_alias : nat }.

(** One case of the switch: the fact the entry must name, which is the next of its kind. *)
Definition expect_next {A} (item : source_declaration_ref) (next : nat) (items : list A)
    (span_of : A → source_span) (error : validation_error) : check source_span :=
  match items !! next with
  | Some x => reject negb (declaration_index item =? N.of_nat next) with error ;; inr (span_of x)
  | None => inl error
  end.

(** The switch on the kind of an entry; an entry of no known kind expects the empty span. *)
Definition expected_span (item : source_declaration_ref) (n : next_facts) (error : validation_error) :
    check (source_span * next_facts) :=
  let 'NextFacts a b c d e f := n in
  let kind := declaration_code item in
  if kind =? declares_namespace then
    let! s := expect_next item a (namespaces facts) namespace_declaration error in
    inr (s, NextFacts (S a) b c d e f)
  else if kind =? declares_record then
    let! s := expect_next item b (records facts) record_declaration error in
    inr (s, NextFacts a (S b) c d e f)
  else if kind =? declares_enum then
    let! s := expect_next item c (enums facts) enum_declaration error in
    inr (s, NextFacts a b (S c) d e f)
  else if kind =? declares_object then
    let! s := expect_next item d (objects facts) object_declaration error in
    inr (s, NextFacts a b c (S d) e f)
  else if kind =? declares_link then
    let! s := expect_next item e (links facts) link_declaration error in
    inr (s, NextFacts a b c d (S e) f)
  else if kind =? declares_alias then
    let! s := expect_next item f (aliases facts) alias_declaration error in
    inr (s, NextFacts a b c d e (S f))
  else inr (no_span, n).

Definition check_declaration (index : N) (item : source_declaration_ref) (st : next_facts * N) :
    check (next_facts * N) :=
  let (next, previous) := st in
  let declaration := declaration_span item in
  reject out_of_order index declaration previous
    with fail declaration_sequence_order declaration_ref index declaration ;;
  let! (expected, next) := expected_span item next
    (fail declaration_sequence_index declaration_ref index declaration) in
  reject negb (offset expected =? offset declaration) || negb (span_length expected =? span_length declaration)
    with fail declaration_sequence_range declaration_ref index declaration ;;
  inr (next, offset declaration).

Definition check_declarations : check unit :=
  match declarations facts with
  | [] => inr tt
  | _ =>
      let! st := each check_declaration 0 (declarations facts) (NextFacts 0 0 0 0 0 0, 0) in
      let n := st.1 in
      reject negb (next_namespace n =? length (namespaces facts))%nat ||
          negb (next_record n =? length (records facts))%nat || negb (next_enum n =? length (enums facts))%nat ||
          negb (next_object n =? length (objects facts))%nat || negb (next_link n =? length (links facts))%nat ||
          negb (next_alias n =? length (aliases facts))%nat
        with fail declaration_sequence_index packet (size (declarations facts)) no_span ;;
      inr tt
  end.

Definition run_checks : check unit :=
  reject source facts =? 0 with fail invalid_source packet 0 no_span ;;
  reject two32 - 1 <? source_size with fail source_too_large packet 0 no_span ;;
  let! _ := each check_namespace 0 (namespaces facts) 0 in
  let! _ := check_records in
  let! _ := check_methods in
  let! _ := each check_base_fact 0 (bases facts) tt in
  let! _ := each check_member 0 (members facts) tt in
  let! _ := each check_modifier 0 (modifiers facts) tt in
  let! _ := check_enums in
  let! _ := each check_object 0 (objects facts) 0 in
  let! _ := check_modifier_partition in
  let! _ := each check_link 0 (links facts) 0 in
  let! _ := check_aliases in
  check_declarations.

(** [validate_source_facts] with what it leaves in [error]. *)
Definition validate_source_facts : status_code * validation_error :=
  match run_checks with
  | inl error => (invalid_argument, error)
  | inr _ => (ok, default_error)
  end.

End validate.

(** [emit_source_facts_validation_diagnostic]: the detail and the range of the diagnostic. *)
Definition diagnostic_detail (error : validation_error) : string :=
  (source_facts_error_detail (code error) +:+ "; fact=" +:+ category_name (category error) +:+ "[" +:+
    pretty (error_index error) +:+ "]")%string.
Definition diagnostic_range (facts : source_facts) (error : validation_error) : N * N * N :=
  (source facts, offset (location error), span_length (location error)).

End SourceFacts.
