(* ===== verification/SourceFactsTheorems.v ===== *)
(** * What the validation of source facts promises

    [well_formed] says, without loops or positions, what a packet must satisfy; the theorems
    relate it to [SourceFacts.validate_source_facts] in both directions, say where a reported
    error points, and derive what the Generation Builder relies on. *)

From stdpp Require Import sorting.
From S2P Require Import Prelude IdentitySpace Construction SourceFacts.

Local Open Scope N_scope.

Module SourceFactsTheorems.

Import SourceFacts.

#[local] Existing Instance IdentitySpace.identity_kind_eq_dec.

(** ** Ranges that tile an array *)

Fixpoint tiles (from : N) (ranges : list source_fact_range) : Prop :=
  match ranges with
  | [] => True
  | r :: ranges' => begin r = from ∧ tiles (from + count r) ranges'
  end.

(** The ranges follow each other and cover [n] elements. *)
Definition partition (ranges : list source_fact_range) (n : N) : Prop :=
  tiles 0 ranges ∧ sumN count ranges = n.

Definition inside (r : source_fact_range) (k : N) : Prop := begin r <= k < begin r + count r.

Definition offsets {A} (span_of : A → source_span) (items : list A) : list N := (λ x, offset (span_of x)) <$> items.
Definition ordered {A} (span_of : A → source_span) (items : list A) : Prop := Sorted N.le (offsets span_of items).

Lemma tiles_valid ranges : ∀ from n, tiles from ranges → from + sumN count ranges = n →
  Forall (λ r, valid_range r n = true) ranges.
Proof.
  induction ranges as [|r ranges IH]; intros from n; cbn; [done|]. intros [Hb Ht] Hn. constructor.
  - unfold valid_range. apply andb_true_iff. rewrite !N.leb_le. lia.
  - apply (IH _ n Ht). lia.
Qed.

Lemma partition_valid {A} (range : A → source_fact_range) items n :
  partition (range <$> items) n → Forall (λ x, valid_range (range x) n = true) items.
Proof. intros [Ht Hs]. pose proof (tiles_valid _ 0 n Ht Hs) as H. by rewrite Forall_fmap in H. Qed.

Lemma tiles_inside ranges : ∀ from k, tiles from ranges → from <= k < from + sumN count ranges →
  ∃ i r, ranges !! i = Some r ∧ inside r k.
Proof.
  induction ranges as [|r ranges IH]; intros from k; cbn; [lia|]. intros [Hb Ht] Hk.
  destruct (N.lt_ge_cases k (from + count r)).
  - exists 0%nat, r. unfold inside. rewrite Hb. split; [done | lia].
  - destruct (IH _ k Ht ltac:(lia)) as (i & r' & ? & ?). by exists (S i), r'.
Qed.

Lemma tiles_above ranges : ∀ from i r, tiles from ranges → ranges !! i = Some r → from <= begin r.
Proof.
  induction ranges as [|r' ranges IH]; intros from [|i] r; cbn; try done.
  - intros [Hb _] [= ->]. lia.
  - intros [_ Ht] Hi. specialize (IH _ _ _ Ht Hi). lia.
Qed.

Lemma tiles_disjoint ranges : ∀ from i j r s k, tiles from ranges → ranges !! i = Some r →
  ranges !! j = Some s → inside r k → inside s k → i = j.
Proof.
  unfold inside. induction ranges as [|r' ranges IH]; intros from [|i] [|j] r s k; cbn; try done.
  - intros [Hb Ht] [= ->] Hj Hr Hs. pose proof (tiles_above _ _ _ _ Ht Hj). lia.
  - intros [Hb Ht] Hi [= ->] Hr Hs. pose proof (tiles_above _ _ _ _ Ht Hi). lia.
  - intros [_ Ht] Hi Hj Hr Hs. f_equal. by eapply IH.
Qed.

(** Each element of a partitioned array lies in one range. *)
Lemma partition_owner ranges n k : partition ranges n → k < n →
  ∃ i r, ranges !! i = Some r ∧ inside r k ∧
    ∀ j s, ranges !! j = Some s → inside s k → j = i.
Proof.
  intros [Ht Hs] Hk. destruct (tiles_inside ranges 0 k Ht ltac:(lia)) as (i & r & Hi & Hr).
  exists i, r. split_and!; [done..|]. intros j s Hj Hks. by eapply tiles_disjoint.
Qed.

(** ** The specification *)

Section spec.
Context (facts : source_facts).

(** The span is not empty and lies in the source text. *)
Definition in_text (s : source_span) : Prop := span_length s ≠ 0 ∧ offset s + span_length s <= source_size facts.
Definition within (outer inner : source_span) : Prop :=
  offset outer <= offset inner ∧ offset inner + span_length inner <= offset outer + span_length outer.
(** Absent, or in the text and in the outer span. *)
Definition optional_within (outer inner : source_span) : Prop :=
  span_length inner = 0 ∨ (offset inner + span_length inner <= source_size facts ∧ within outer inner).

Definition names (kind : IdentitySpace.identity_kind) (identity : N) : Prop :=
  identity ≠ 0 ∧ IdentitySpace.ref_kind identity = kind.

Definition intrinsic_code (value : N) : Prop := 1 <= value <= 21.

(** Exactly one base. *)
Definition resolved (type : source_type_ref) : Prop :=
  (names IdentitySpace.type_kind (ref_identity type) ∧ ref_intrinsic type = 0) ∨
  (ref_identity type = 0 ∧ intrinsic_code (ref_intrinsic type)).

Definition namespace_ok (x : source_namespace_fact) : Prop :=
  names IdentitySpace.namespace_scope (namespace_identity x) ∧ in_text (namespace_declaration x).

Definition member_fits (r : source_record_fact) (m : source_member_fact) : Prop :=
  Construction.valid_construction (member_construction m) = true ∧
  (Construction.kind (member_construction m) = Construction.member_binding →
    Construction.operand (member_construction m) <= count (record_members r)) ∧
  within (record_declaration r) (member_declaration m).

Definition record_ok (r : source_record_fact) : Prop :=
  names IdentitySpace.type_kind (record_identity r) ∧ record_code r <= 2 ∧ in_text (record_declaration r) ∧
  ((record_declared r = 0 ∧
      count (record_members r) = 0 ∧ count (record_bases r) = 0 ∧ count (record_methods r) = 0) ∨
   (record_declared r = 1 ∧
      Forall (member_fits r) (section (record_members r) (members facts)) ∧
      ordered member_declaration (section (record_members r) (members facts)) ∧
      Forall (λ m, within (record_declaration r) (method_declaration m))
        (section (record_methods r) (methods facts)))).

Definition method_ok (m : source_method_fact) : Prop :=
  method_name m ≠ 0 ∧ method_visibility m <= 2 ∧ in_text (method_declaration m) ∧
  (resolved (method_return m) ∨
   (ref_identity (method_return m) = 0 ∧ ref_intrinsic (method_return m) = 0 ∧
    (is_constructor m = true ∨ is_destructor m = true))).

Definition base_ok (b : source_base_fact) : Prop :=
  names IdentitySpace.type_kind (base_identity b) ∧ base_visibility b <= 2 ∧ in_text (base_declaration b).

Definition member_ok (m : source_member_fact) : Prop :=
  member_visibility m <= 2 ∧ member_name m ≠ 0 ∧ in_text (member_declaration m) ∧
  optional_within (member_declaration m) (member_initializer m) ∧
  in_text (ref_spelling (member_type m)) ∧ within (member_declaration m) (ref_spelling (member_type m)) ∧
  resolved (member_type m).

Definition modifier_ok (m : source_type_modifier) : Prop :=
  modifier_code m <= 6 ∧ (modifier_code m = 5 ↔ modifier_payload m ≠ 0).

(** An intrinsic code below [float_type]; [void] is one of them. *)
Definition integral (value : N) : Prop := 1 <= value < 18.

Definition enum_value_ok (e : source_enum_fact) (v : source_enum_value_fact) : Prop :=
  enum_value_name v ≠ 0 ∧ optional_within (enum_declaration e) (enum_value_expression v) ∧
  integral (enum_value_intrinsic v).

Definition enum_ok (e : source_enum_fact) : Prop :=
  names IdentitySpace.type_kind (enum_identity e) ∧ in_text (enum_declaration e) ∧
  (enum_explicit_underlying e = 0 ∨ integral (enum_explicit_underlying e)) ∧
  ((enum_declared e = 0 ∧ count (enum_enumerators e) = 0) ∨
   (enum_declared e = 1 ∧ Forall (enum_value_ok e) (section (enum_enumerators e) (enum_values facts)))).

(** The intrinsic code of an object is only tested to be present. *)
Definition object_ok (o : source_object_fact) : Prop :=
  object_construction_flags o <= 1 ∧ names IdentitySpace.object_kind (object_identity o) ∧
  in_text (object_declaration o) ∧ optional_within (object_declaration o) (object_initializer o) ∧
  ((names IdentitySpace.type_kind (ref_identity (object_type_ref o)) ∧ ref_intrinsic (object_type_ref o) = 0) ∨
   (ref_identity (object_type_ref o) = 0 ∧ ref_intrinsic (object_type_ref o) ≠ 0)).

Definition endpoint_ok (e : source_object_endpoint_fact) : Prop :=
  names IdentitySpace.object_kind (endpoint_object e) ∧ endpoint_member e ≠ 0xffffffff.

Definition link_ok (l : source_link_fact) : Prop :=
  in_text (link_declaration l) ∧ endpoint_ok (link_source l) ∧ endpoint_ok (link_target l).

Definition alias_ok (a : source_alias_fact) : Prop :=
  names IdentitySpace.type_kind (alias_identity a) ∧ in_text (alias_declaration a) ∧ resolved (alias_target a).

(** Members and objects in the order of their declarations, a member before an object. *)
Definition declared_earlier (x y : N * source_fact_range) : Prop := x.1 <= y.1.
#[global] Instance declared_earlier_dec x y : Decision (declared_earlier x y).
Proof. unfold declared_earlier. apply _. Defined.

Definition member_key (m : source_member_fact) : N * source_fact_range :=
  (offset (member_declaration m), ref_modifiers (member_type m)).
Definition object_key (o : source_object_fact) : N * source_fact_range :=
  (offset (object_declaration o), ref_modifiers (object_type_ref o)).
Definition modifier_ranges : list source_fact_range :=
  snd <$> list_merge declared_earlier (member_key <$> members facts) (object_key <$> objects facts).

(** The entries of one kind name the facts of that kind, each once and in order, with their spans. *)
Definition entries (kind : N) (refs : list source_declaration_ref) : list (N * source_span) :=
  (λ d, (declaration_index d, declaration_span d)) <$> filter (λ d, declaration_code d = kind) refs.
Definition listed {A} (span_of : A → source_span) (items : list A) : list (N * source_span) :=
  imap (λ i x, (N.of_nat i, span_of x)) items.

Record declarations_ok : Prop := {
  declared_in_order : ordered declaration_span (declarations facts);
  declared_namespaces : entries declares_namespace (declarations facts) = listed namespace_declaration (namespaces facts);
  declared_records : entries declares_record (declarations facts) = listed record_declaration (records facts);
  declared_enums : entries declares_enum (declarations facts) = listed enum_declaration (enums facts);
  declared_objects : entries declares_object (declarations facts) = listed object_declaration (objects facts);
  declared_links : entries declares_link (declarations facts) = listed link_declaration (links facts);
  declared_aliases : entries declares_alias (declarations facts) = listed alias_declaration (aliases facts);
  declared_unknown : ∀ d, d ∈ declarations facts → 5 < declaration_code d → declaration_span d = no_span }.

Record well_formed : Prop := {
  wf_source : source facts ≠ 0;
  wf_size : source_size facts < two32;
  wf_namespaces : Forall namespace_ok (namespaces facts);
  wf_namespace_order : ordered namespace_declaration (namespaces facts);
  wf_records : Forall record_ok (records facts);
  wf_record_order : ordered record_declaration (records facts);
  wf_members_owned : partition (record_members <$> records facts) (size (members facts));
  wf_bases_owned : partition (record_bases <$> records facts) (size (bases facts));
  wf_methods_owned : partition (record_methods <$> records facts) (size (methods facts));
  wf_methods : Forall method_ok (methods facts);
  wf_method_order : ordered method_declaration (methods facts);
  wf_method_modifiers :
    partition ((λ m, ref_modifiers (method_return m)) <$> methods facts) (size (method_modifiers facts));
  wf_bases : Forall base_ok (bases facts);
  wf_members : Forall member_ok (members facts);
  wf_modifiers : Forall modifier_ok (modifiers facts);
  wf_enums : Forall enum_ok (enums facts);
  wf_enum_order : ordered enum_declaration (enums facts);
  wf_enum_values_owned : partition (enum_enumerators <$> enums facts) (size (enum_values facts));
  wf_objects : Forall object_ok (objects facts);
  wf_object_order : ordered object_declaration (objects facts);
  wf_modifiers_owned : partition modifier_ranges (size (modifiers facts));
  wf_links : Forall link_ok (links facts);
  wf_link_order : ordered link_declaration (links facts);
  wf_aliases : Forall alias_ok (aliases facts);
  wf_alias_order : ordered alias_declaration (aliases facts);
  wf_alias_modifiers :
    partition ((λ a, ref_modifiers (alias_target a)) <$> aliases facts) (size (alias_modifiers facts));
  wf_declarations : declarations facts ≠ [] → declarations_ok }.
End spec.

(** ** Checks that pass *)

Lemma reject_passes {A} (b : bool) e (k : check A) x : (reject b with e ;; k) = inr x ↔ b = false ∧ k = inr x.
Proof. destruct b; naive_solver. Qed.

Lemma bind_passes {A B} (c : check A) (k : A → check B) x :
  (let! y := c in k y) = inr x ↔ ∃ y, c = inr y ∧ k y = inr x.
Proof. destruct c; naive_solver. Qed.

Lemma exists_unit (P : Prop) : (∃ _ : unit, P) ↔ P.
Proof. split; [by intros [_ ?] | by exists tt]. Qed.

Lemma unit_then {B} (c : check unit) (P : Prop) (k : check B) y :
  (∀ st, c = inr st ↔ P) → (let! _ := c in k) = inr y ↔ P ∧ k = inr y.
Proof. intros Hc. rewrite bind_passes. setoid_rewrite Hc. naive_solver. Qed.

Lemma inr_passes {A} (x y : A) : (inr x : check A) = inr y ↔ y = x.
Proof. naive_solver. Qed.

(** What the turns of a loop require, when the body requires [P] and goes on from [next]. *)
Fixpoint turns {A St} (P : N → A → St → Prop) (next : A → St → St) (index : N) (items : list A) (st : St) : Prop :=
  match items with
  | [] => True
  | x :: items' => P index x st ∧ turns P next (index + 1) items' (next x st)
  end.

Definition after {A St} (next : A → St → St) (items : list A) (st : St) : St := foldl (λ st x, next x st) st items.

Lemma each_passes {A St} (body : N → A → St → check St) (P : N → A → St → Prop) (next : A → St → St) :
  (∀ i x st st', body i x st = inr st' ↔ P i x st ∧ st' = next x st) →
  ∀ items i st st', each body i items st = inr st' ↔ turns P next i items st ∧ st' = after next items st.
Proof.
  intros Hbody items. induction items as [|x items IH]; intros i st st'; cbn.
  - rewrite inr_passes. tauto.
  - rewrite bind_passes. setoid_rewrite Hbody. setoid_rewrite IH. naive_solver.
Qed.

Lemma each_passes_some {A St} (body : N → A → St → check St) (P : N → A → St → Prop) (next : A → St → St) :
  (∀ i x st st', body i x st = inr st' ↔ P i x st ∧ st' = next x st) →
  ∀ items i st, (∃ st', each body i items st = inr st') ↔ turns P next i items st.
Proof.
  intros Hbody items i st. split.
  - intros [st' H]. by apply (each_passes _ _ _ Hbody) in H as [H _].
  - intros H. exists (after next items st). by apply (each_passes _ _ _ Hbody).
Qed.

Lemma each_then {A St B} (body : N → A → St → check St) (P : N → A → St → Prop) (next : A → St → St)
    (k : St → check B) :
  (∀ i x st st', body i x st = inr st' ↔ P i x st ∧ st' = next x st) →
  ∀ items i st y, (let! st' := each body i items st in k st') = inr y ↔
    turns P next i items st ∧ k (after next items st) = inr y.
Proof.
  intros Hbody items i st y. rewrite bind_passes. split.
  - intros (st' & [Ht ->]%(each_passes _ _ _ Hbody) & Hk). done.
  - intros [Ht Hk]. exists (after next items st). split; [|done]. by apply (each_passes _ _ _ Hbody).
Qed.

Section turns.
Context {A St : Type} {next : A → St → St}.
Implicit Types (items : list A) (P Q : N → A → St → Prop).

Lemma turns_and P Q items : ∀ i st,
  turns (λ i x st, P i x st ∧ Q i x st) next i items st ↔ turns P next i items st ∧ turns Q next i items st.
Proof. induction items as [|x items IH]; intros i st; cbn; [tauto|]. rewrite IH. tauto. Qed.

Lemma turns_ext P Q items : (∀ i x st, P i x st ↔ Q i x st) →
  ∀ i st, turns P next i items st ↔ turns Q next i items st.
Proof. intros He. induction items as [|x items IH]; intros i st; cbn; [done|]. by rewrite He, IH. Qed.

Lemma turns_Forall (P : A → Prop) items : ∀ i st, turns (λ _ x _, P x) next i items st ↔ Forall P items.
Proof. induction items as [|x items IH]; intros i st; cbn; [done|]. by rewrite IH, Forall_cons. Qed.

Lemma turns_each (P : A → Prop) Q items i st :
  turns (λ i x st, P x ∧ Q i x st) next i items st ↔ Forall P items ∧ turns Q next i items st.
Proof. rewrite <-(turns_Forall P items i st). apply turns_and. Qed.

(** The order test, of a state that keeps the offset of the previous item. *)
Lemma turns_ordered (span_of : A → source_span) (previous : St → N) (first : N) items :
  (∀ x st, previous (next x st) = offset (span_of x)) → ∀ st,
  turns (λ i x st, i = first ∨ previous st <= offset (span_of x)) next first items st ↔ ordered span_of items.
Proof.
  intros Hprev. unfold ordered.
  assert (Hlater : ∀ items i st, first < i →
    turns (λ i x st, i = first ∨ previous st <= offset (span_of x)) next i items st ↔
    Sorted N.le (previous st :: offsets span_of items)).
  { clear items. induction items as [|x items IH]; intros i st Hi; cbn; [split; auto|].
    rewrite IH, Hprev by lia. split.
    - intros [Hx Hs]. constructor; [done|]. constructor. lia.
    - intros [Hs Hx%HdRel_inv]%Sorted_inv. auto. }
  intros st. destruct items as [|x items]; cbn; [split; auto|].
  rewrite Hlater, Hprev by lia. cbn. tauto.
Qed.

(** The test that a range begins where the previous one ended. *)
Lemma turns_tiles (range : A → source_fact_range) (expected : St → N) items :
  (∀ x st, expected (next x st) = expected st + count (range x)) → ∀ i st,
  turns (λ _ x st, begin (range x) = expected st) next i items st ↔ tiles (expected st) (range <$> items).
Proof.
  intros He. induction items as [|x items IH]; intros i st; cbn; [done|]. by rewrite IH, He.
Qed.

Lemma after_expected (range : A → source_fact_range) (expected : St → N) items :
  (∀ x st, expected (next x st) = expected st + count (range x)) → ∀ st,
  expected (after next items st) = expected st + sumN count (range <$> items).
Proof.
  intros He. unfold after. induction items as [|x items IH]; intros st; cbn; [lia|]. rewrite IH, He. lia.
Qed.
End turns.

(** A loop that checks each item and the order. *)
Lemma ordered_loop {A} (body : N → A → N → check N) (P : A → Prop) (span_of : A → source_span) items p q :
  (∀ i x p p', body i x p = inr p' ↔ (P x ∧ (i = 0 ∨ p <= offset (span_of x))) ∧ p' = offset (span_of x)) →
  each body 0 items p = inr q → Forall P items ∧ ordered span_of items.
Proof.
  intros Hb [Ht _]%(each_passes _ _ _ Hb). rewrite turns_each in Ht.
  by rewrite (turns_ordered span_of (λ p, p)) in Ht.
Qed.

Lemma ordered_loop_then {A B} (body : N → A → N → check N) (P : A → Prop) (span_of : A → source_span) items p
    (k : check B) y :
  (∀ i x p p', body i x p = inr p' ↔ (P x ∧ (i = 0 ∨ p <= offset (span_of x))) ∧ p' = offset (span_of x)) →
  (let! _ := each body 0 items p in k) = inr y ↔ (Forall P items ∧ ordered span_of items) ∧ k = inr y.
Proof.
  intros Hb. rewrite (each_then body _ _ (λ _, k) Hb), turns_each.
  by rewrite (turns_ordered span_of (λ p, p)).
Qed.

(** A loop that checks each item, the order, and that the ranges of the items tile an array of
    [n] elements. *)
Lemma tiled_loop {A} (body : N → A → N * N → check (N * N)) (P : A → Prop) (range : A → source_fact_range)
    (span_of : A → source_span) (n : N) items error y :
  (∀ i x st st', body i x st = inr st' ↔
    (P x ∧ (i = 0 ∨ st.2 <= offset (span_of x)) ∧ valid_range (range x) n = true ∧ begin (range x) = st.1) ∧
    st' = (st.1 + count (range x), offset (span_of x))) →
  (let! st := each body 0 items (0, 0) in reject negb (st.1 =? n) with error st ;; inr tt) = inr y ↔
  Forall P items ∧ ordered span_of items ∧ partition (range <$> items) n.
Proof.
  intros Hb. rewrite (each_then body _ _ _ Hb), reject_passes, inr_passes, negb_false_iff, N.eqb_eq.
  rewrite (after_expected range fst) by done.
  rewrite turns_each, !turns_and, (turns_ordered span_of snd), (turns_tiles range fst) by done.
  cbn [fst snd]. rewrite N.add_0_l, turns_Forall. destruct y. unfold partition. split; [tauto|].
  intros (? & ? & Ht & Hs). split_and!; try done. by apply partition_valid.
Qed.

(** A loop that checks each item by itself. *)
Lemma each_items {A} (body : N → A → unit → check unit) (P : A → Prop) items i st :
  (∀ i x st st', body i x st = inr st' ↔ P x) → each body i items tt = inr st ↔ Forall P items.
Proof.
  intros Hb. rewrite (each_passes body (λ _ x _, P x) (λ _ _, tt)).
  - rewrite turns_Forall. destruct st, (after _ _ _). tauto.
  - intros j x st1 []. rewrite Hb. tauto.
Qed.

(** ** Tests of one fact *)

Lemma valid_span_iff s n : valid_span s n = true ↔ offset s + span_length s <= n.
Proof. unfold valid_span. rewrite andb_true_iff, !N.leb_le. lia. Qed.

Lemma contains_iff outer inner : contains outer inner = true ↔ within outer inner.
Proof. unfold contains, within. by rewrite andb_true_iff, !N.leb_le. Qed.

Lemma bad_span_iff facts s : bad_span s (source_size facts) = false ↔ in_text facts s.
Proof.
  unfold bad_span, in_text. by rewrite orb_false_iff, N.eqb_neq, negb_false_iff, valid_span_iff.
Qed.

Lemma bad_inner_iff facts outer s :
  bad_inner_span outer s (source_size facts) = false ↔ optional_within facts outer s.
Proof.
  unfold bad_inner_span, optional_within. rewrite andb_false_iff, orb_false_iff, !negb_false_iff, N.eqb_eq.
  by rewrite valid_span_iff, contains_iff.
Qed.

Lemma not_kind_iff kind identity : negb (is_kind kind identity) = false ↔ IdentitySpace.ref_kind identity = kind.
Proof. unfold is_kind. by rewrite negb_false_iff, bool_decide_eq_true. Qed.

Lemma in_order_iff index s previous :
  out_of_order index s previous = false ↔ index = 0 ∨ previous <= offset s.
Proof. unfold out_of_order. by rewrite andb_false_iff, negb_false_iff, N.eqb_eq, N.ltb_ge. Qed.

Lemma negb_eqb_iff (m n : N) : negb (m =? n) = false ↔ m = n.
Proof. by rewrite negb_false_iff, N.eqb_eq. Qed.

Lemma valid_access_iff n : negb (valid_member_access n) = false ↔ n <= 2.
Proof. unfold valid_member_access. by rewrite negb_false_iff, N.leb_le. Qed.

#[export] Hint Rewrite @reject_passes @bind_passes @inr_passes bad_span_iff bad_inner_iff not_kind_iff in_order_iff
  negb_eqb_iff valid_access_iff N.eqb_neq N.ltb_ge : checks.

(** ** The bodies of the loops *)

Section bodies.
Context (facts : source_facts).

Lemma check_namespace_passes i x p p' : check_namespace facts i x p = inr p' ↔
    (namespace_ok facts x ∧ (i = 0 ∨ p <= offset (namespace_declaration x))) ∧ p' = offset (namespace_declaration x).
Proof.
    unfold check_namespace, namespace_ok, names. cbv zeta. autorewrite with checks. tauto.
Qed.

Lemma check_base_passes type none_allowed error st : check_base type none_allowed error = inr st ↔
    resolved type ∨ (none_allowed = true ∧ ref_identity type = 0 ∧ ref_intrinsic type = 0).
Proof.
    unfold check_base, resolved, names, intrinsic_code, valid_intrinsic, intrinsic_none, intrinsic_nullptr.
    cbv zeta. rewrite !reject_passes, inr_passes. destruct st.
    rewrite !andb_false_iff, !negb_false_iff, !andb_true_iff, !negb_true_iff, !N.eqb_eq, !N.eqb_neq,
      N.ltb_lt, N.leb_le. unfold is_kind. rewrite bool_decide_eq_true.
    destruct (decide (ref_identity type = 0)), (decide (ref_intrinsic type = 0)), none_allowed;
      intuition (congruence || lia).
Qed.
Lemma check_record_member_passes r i m p p' : check_record_member r i m p = inr p' ↔
    (member_fits r m ∧ (i = begin (record_members r) ∨ p <= offset (member_declaration m))) ∧
    p' = offset (member_declaration m).
Proof.
    unfold check_record_member, member_fits. cbv zeta. rewrite !reject_passes, inr_passes.
    rewrite orb_false_iff, !andb_false_iff, !negb_false_iff, bool_decide_eq_false, !N.ltb_ge, contains_iff, N.eqb_eq.
    destruct (decide (Construction.kind (member_construction m) = Construction.member_binding)); tauto.
Qed.

Lemma section_members_pass r p : (∃ q, each (check_record_member r) (begin (record_members r))
    (section (record_members r) (members facts)) p = inr q) ↔
  Forall (member_fits r) (section (record_members r) (members facts)) ∧
  ordered member_declaration (section (record_members r) (members facts)).
Proof.
    rewrite (each_passes_some _ _ _ (check_record_member_passes r)).
    rewrite (turns_each (member_fits r)
      (λ i m q, i = begin (record_members r) ∨ q <= offset (member_declaration m))).
    by rewrite (turns_ordered member_declaration (λ q, q)).
Qed.

Lemma section_methods_pass r st : (each (check_record_method r) (begin (record_methods r))
    (section (record_methods r) (methods facts)) tt = inr st) ↔
  Forall (λ m, within (record_declaration r) (method_declaration m)) (section (record_methods r) (methods facts)).
Proof.
    apply each_items. intros i m [] []. unfold check_record_method. rewrite reject_passes, inr_passes.
    rewrite negb_false_iff, contains_iff. tauto.
Qed.

(** What a turn of the record loop adds to its state. *)
Definition next_record_state (r : source_record_fact) (st : record_state) : record_state :=
    RecordState (expected_member st + count (record_members r)) (expected_base st + count (record_bases r))
      (expected_method st + count (record_methods r)) (offset (record_declaration r)).

Definition record_turn (i : N) (r : source_record_fact) (st : record_state) : Prop :=
    record_ok facts r ∧ (i = 0 ∨ previous_record st <= offset (record_declaration r)) ∧
    (valid_range (record_members r) (size (members facts)) = true ∧
     valid_range (record_bases r) (size (bases facts)) = true ∧
     valid_range (record_methods r) (size (methods facts)) = true) ∧
    begin (record_members r) = expected_member st ∧ begin (record_bases r) = expected_base st ∧
    begin (record_methods r) = expected_method st.

Lemma check_record_passes i r st st' :
    check_record facts i r st = inr st' ↔ record_turn i r st ∧ st' = next_record_state r st.
Proof.
    unfold check_record, record_turn, record_ok, names, valid_record_kind, next_record_state.
    cbv zeta. cbn [expected_member expected_base expected_method previous_record].
    rewrite !reject_passes, N.eqb_neq, not_kind_iff, bad_span_iff, in_order_iff, !negb_eqb_iff,
      !negb_false_iff, N.leb_le.
    unfold kind_declaration, kind_definition.
    destruct (N.eqb_spec (record_declared r) 0) as [E|E].
    - rewrite !reject_passes, inr_passes, !negb_eqb_iff, E.
      split; [|intros [((?&?&?&[(_&H1&H2&H3)|[? _]])&?&?&?) ->]; [|congruence];
        rewrite H1, H2, H3, !N.add_0_r; tauto].
      intros H. decompose [and] H. clear H.
      repeat match goal with Hc : count _ = 0 |- _ => rewrite Hc; revert Hc end. rewrite !N.add_0_r. tauto.
    - rewrite reject_passes, negb_eqb_iff, bind_passes.
      setoid_rewrite bind_passes. setoid_rewrite section_methods_pass. setoid_rewrite inr_passes.
      pose proof (section_members_pass r 0) as Hm. split.
      + intros H. decompose [and ex] H. clear H. naive_solver.
      + intros [((Hn & Hc & Ht & [[? _]|(? & ? & ? & ?)]) & ? & ? & ?) ->]; [congruence|].
        destruct (proj2 Hm ltac:(done)) as [q ?]. split_and!; try tauto. exists q. split; [done|]. by exists tt.
Qed.
Lemma check_records_pass st : check_records facts = inr st ↔
    Forall (record_ok facts) (records facts) ∧ ordered record_declaration (records facts) ∧
    partition (record_members <$> records facts) (size (members facts)) ∧
    partition (record_bases <$> records facts) (size (bases facts)) ∧
    partition (record_methods <$> records facts) (size (methods facts)).
Proof.
    unfold check_records. rewrite (each_then _ _ _ _ check_record_passes).
    rewrite !reject_passes, inr_passes, !negb_eqb_iff.
    rewrite (after_expected record_members expected_member), (after_expected record_bases expected_base),
      (after_expected record_methods expected_method) by done.
    cbn [expected_member expected_base expected_method]. rewrite !N.add_0_l.
    unfold record_turn, partition. rewrite turns_each, !turns_and.
    rewrite (turns_ordered record_declaration previous_record) by done.
    rewrite (turns_tiles record_members expected_member), (turns_tiles record_bases expected_base),
      (turns_tiles record_methods expected_method) by done.
    cbn [expected_member expected_base expected_method]. rewrite !turns_Forall. destruct st. split; [tauto|].
    intros (? & ? & [H1 S1] & [H2 S2] & [H3 S3]).
    split_and!; try done; apply partition_valid; by split.
Qed.
Lemma check_method_passes i m st st' : check_method facts i m st = inr st' ↔
    (method_ok facts m ∧ (i = 0 ∨ st.2 <= offset (method_declaration m)) ∧
     valid_range (ref_modifiers (method_return m)) (size (method_modifiers facts)) = true ∧
     begin (ref_modifiers (method_return m)) = st.1) ∧
    st' = (st.1 + count (ref_modifiers (method_return m)), offset (method_declaration m)).
Proof.
    destruct st as [expected previous]. unfold check_method, method_ok. cbv zeta. cbn [fst snd].
    rewrite !reject_passes, bind_passes.
    setoid_rewrite check_base_passes.
    rewrite exists_unit, reject_passes, inr_passes, orb_false_iff, negb_eqb_iff, valid_access_iff, negb_false_iff,
      orb_true_iff, N.eqb_neq, bad_span_iff, in_order_iff. tauto.
Qed.

Lemma check_methods_pass st : check_methods facts = inr st ↔
    Forall (method_ok facts) (methods facts) ∧ ordered method_declaration (methods facts) ∧
    partition ((λ m, ref_modifiers (method_return m)) <$> methods facts) (size (method_modifiers facts)).
Proof.
    apply (tiled_loop _ _ (λ m, ref_modifiers (method_return m)) method_declaration _ _
      (λ st, fail method_modifier_partition packet st.1 no_span)), check_method_passes.
Qed.
Lemma check_base_fact_passes i b st st' : check_base_fact facts i b st = inr st' ↔ base_ok facts b.
Proof.
    unfold check_base_fact, base_ok, names. cbv zeta. rewrite !reject_passes, inr_passes.
    rewrite not_kind_iff, valid_access_iff, bad_span_iff, N.eqb_neq. destruct st, st'. tauto.
Qed.

Lemma check_member_passes i m st st' : check_member facts i m st = inr st' ↔
    member_ok facts m ∧ valid_range (ref_modifiers (member_type m)) (size (modifiers facts)) = true.
Proof.
    unfold check_member, member_ok. cbv zeta. rewrite !reject_passes, bind_passes.
    setoid_rewrite check_base_passes. rewrite !bad_span_iff, bad_inner_iff, valid_access_iff, negb_false_iff,
      contains_iff, N.eqb_neq.
    rewrite exists_unit, reject_passes, inr_passes, negb_false_iff. destruct st, st'. intuition congruence.
Qed.

Lemma check_modifier_passes i m st st' : check_modifier i m st = inr st' ↔ modifier_ok m.
Proof.
    unfold check_modifier, modifier_ok, valid_modifier_kind, modifier_bounded_array, modifier_unbounded_array.
    cbv zeta. rewrite !reject_passes, inr_passes, negb_false_iff, N.leb_le. destruct st, st'.
    destruct (N.eqb_spec (modifier_code m) 5), (N.eqb_spec (modifier_payload m) 0); cbn; intuition lia.
Qed.

Lemma not_integral_iff v : not_integral v = false ↔ integral v.
Proof.
    unfold not_integral, integral, valid_intrinsic, intrinsic_none, intrinsic_nullptr, intrinsic_float.
    rewrite orb_false_iff, negb_false_iff, andb_true_iff, N.ltb_lt, N.leb_le, N.leb_gt. lia.
Qed.

Lemma check_enum_value_passes e i v st st' : check_enum_value facts e i v st = inr st' ↔ enum_value_ok facts e v.
Proof.
    unfold check_enum_value, enum_value_ok. rewrite !reject_passes, inr_passes, not_integral_iff, bad_inner_iff,
      N.eqb_neq. destruct st, st'. tauto.
Qed.

Lemma check_enum_passes i e st st' : check_enum facts i e st = inr st' ↔
    (enum_ok facts e ∧ (i = 0 ∨ st.2 <= offset (enum_declaration e)) ∧
     valid_range (enum_enumerators e) (size (enum_values facts)) = true ∧ begin (enum_enumerators e) = st.1) ∧
    st' = (st.1 + count (enum_enumerators e), offset (enum_declaration e)).
Proof.
    destruct st as [expected previous]. unfold check_enum, enum_ok, names. cbv zeta. cbn [fst snd].
    rewrite !reject_passes, not_kind_iff, bad_span_iff, in_order_iff, negb_eqb_iff, negb_false_iff, N.eqb_neq.
    assert (Hu : negb (enum_explicit_underlying e =? intrinsic_none) && not_integral (enum_explicit_underlying e) =
      false ↔ enum_explicit_underlying e = 0 ∨ integral (enum_explicit_underlying e)).
    { by rewrite andb_false_iff, negb_eqb_iff, not_integral_iff. }
    rewrite Hu. unfold kind_declaration, kind_definition. destruct (N.eqb_spec (enum_declared e) 0) as [E|E].
    - rewrite reject_passes, inr_passes, negb_eqb_iff. split.
      + intros (? & ? & ? & ? & ? & ? & ? & -> & ->). rewrite N.add_0_r. tauto.
      + intros [((? & ? & ? & [[_ ->]|[? _]]) & ? & ? & ?) ->]; [rewrite N.add_0_r; tauto | congruence].
    - rewrite reject_passes, negb_eqb_iff, bind_passes.
      setoid_rewrite (each_items _ _ _ _ _ (check_enum_value_passes e)). setoid_rewrite inr_passes. split.
      + intros (? & ? & ? & ? & ? & ? & ? & ? & _ & ? & ->). tauto.
      + intros [((? & ? & ? & [[? _]|[? ?]]) & ? & ? & ?) ->]; [congruence|]. split_and!; try tauto. by exists tt.
Qed.

Lemma check_enums_pass st : check_enums facts = inr st ↔
    Forall (enum_ok facts) (enums facts) ∧ ordered enum_declaration (enums facts) ∧
    partition (enum_enumerators <$> enums facts) (size (enum_values facts)).
Proof.
    apply (tiled_loop _ _ enum_enumerators enum_declaration _ _
      (λ st, fail enum_value_partition packet st.1 no_span)), check_enum_passes.
Qed.
Lemma check_object_passes i o p p' : check_object facts i o p = inr p' ↔
    ((object_ok facts o ∧ valid_range (ref_modifiers (object_type_ref o)) (size (modifiers facts)) = true) ∧
     (i = 0 ∨ p <= offset (object_declaration o))) ∧ p' = offset (object_declaration o).
Proof.
    unfold check_object, object_ok, names, valid_range, intrinsic_none. cbv zeta.
    rewrite !reject_passes, inr_passes, not_kind_iff, bad_span_iff, bad_inner_iff, in_order_iff, orb_false_iff,
      andb_true_iff, !N.ltb_ge, !N.leb_le, N.eqb_neq.
    assert (Ht : ∀ t, negb (negb (ref_identity t =? 0) && is_kind IdentitySpace.type_kind (ref_identity t) &&
        (ref_intrinsic t =? 0)) && negb ((ref_identity t =? 0) && negb (ref_intrinsic t =? 0)) = false ↔
      ((ref_identity t ≠ 0 ∧ IdentitySpace.ref_kind (ref_identity t) = IdentitySpace.type_kind) ∧
        ref_intrinsic t = 0) ∨ (ref_identity t = 0 ∧ ref_intrinsic t ≠ 0)).
    { intros t. rewrite andb_false_iff, !negb_false_iff, !andb_true_iff, !negb_true_iff, !N.eqb_eq, !N.eqb_neq.
      unfold is_kind. by rewrite bool_decide_eq_true. }
    rewrite Ht. tauto.
Qed.

Lemma check_link_passes i l p p' : check_link facts i l p = inr p' ↔
    (link_ok facts l ∧ (i = 0 ∨ p <= offset (link_declaration l))) ∧ p' = offset (link_declaration l).
Proof.
    unfold check_link, link_ok, endpoint_ok, names. cbv zeta.
    rewrite !reject_passes, inr_passes, bad_span_iff, in_order_iff, orb_false_iff.
    assert (He : ∀ e, bad_endpoint e = false ↔ (endpoint_object e ≠ 0 ∧
      IdentitySpace.ref_kind (endpoint_object e) = IdentitySpace.object_kind) ∧ endpoint_member e ≠ 0xffffffff).
    { intros e. unfold bad_endpoint. by rewrite !orb_false_iff, not_kind_iff, !N.eqb_neq. }
    rewrite !He. tauto.
Qed.

Lemma check_alias_passes i a st st' : check_alias facts i a st = inr st' ↔
    (alias_ok facts a ∧ (i = 0 ∨ st.2 <= offset (alias_declaration a)) ∧
     valid_range (ref_modifiers (alias_target a)) (size (alias_modifiers facts)) = true ∧
     begin (ref_modifiers (alias_target a)) = st.1) ∧
    st' = (st.1 + count (ref_modifiers (alias_target a)), offset (alias_declaration a)).
Proof.
    destruct st as [expected previous]. unfold check_alias, alias_ok, names. cbv zeta. cbn [fst snd].
    rewrite !reject_passes, bind_passes, not_kind_iff, bad_span_iff, in_order_iff, N.eqb_neq.
    setoid_rewrite check_base_passes. rewrite exists_unit, reject_passes, inr_passes, orb_false_iff, negb_eqb_iff,
      negb_false_iff. intuition congruence.
Qed.

Lemma check_aliases_pass st : check_aliases facts = inr st ↔
    Forall (alias_ok facts) (aliases facts) ∧ ordered alias_declaration (aliases facts) ∧
    partition ((λ a, ref_modifiers (alias_target a)) <$> aliases facts) (size (alias_modifiers facts)).
Proof.
    apply (tiled_loop _ _ (λ a, ref_modifiers (alias_target a)) alias_declaration _ _
      (λ st, fail alias_modifier_partition packet st.1 no_span)), check_alias_passes.
Qed.
(** The ranges the walk has still to meet. *)
Definition remaining (mp op : nat) : list source_fact_range :=
    snd <$> list_merge declared_earlier (member_key <$> drop mp (members facts)) (object_key <$> drop op (objects facts)).

Lemma remaining_member mp op m : members facts !! mp = Some m →
    (∀ o, objects facts !! op = Some o → offset (member_declaration m) <= offset (object_declaration o)) →
    remaining mp op = ref_modifiers (member_type m) :: remaining (S mp) op.
Proof.
    intros Hm Ho. unfold remaining. rewrite (drop_S _ _ _ Hm). destruct (objects facts !! op) as [o|] eqn:E.
    - rewrite (drop_S _ _ _ E). cbn [fmap list_fmap]. rewrite list_merge_cons, decide_True; [done|]. by apply Ho.
    - rewrite (drop_ge (objects facts)) by by apply lookup_ge_None. cbn [fmap list_fmap].
      by rewrite !list_merge_nil_r.
Qed.

Lemma remaining_object mp op o : objects facts !! op = Some o →
    (∀ m, members facts !! mp = Some m → ¬ offset (member_declaration m) <= offset (object_declaration o)) →
    remaining mp op = ref_modifiers (object_type_ref o) :: remaining mp (S op).
Proof.
    intros Ho Hm. unfold remaining. rewrite (drop_S _ _ _ Ho). destruct (members facts !! mp) as [m|] eqn:E.
    - rewrite (drop_S _ _ _ E). cbn [fmap list_fmap]. rewrite list_merge_cons, decide_False; [done|]. by apply Hm.
    - rewrite (drop_ge (members facts)) by by apply lookup_ge_None. cbn [fmap list_fmap].
      by rewrite !list_merge_nil_l.
Qed.

Lemma merged_walk_passes fuel : ∀ mp op e e', (length (members facts) - mp + (length (objects facts) - op) <= fuel)%nat →
    merged_walk facts fuel mp op e = inr e' ↔ tiles e (remaining mp op) ∧ e' = e + sumN count (remaining mp op).
Proof.
    induction fuel as [|fuel IH]; intros mp op e e' Hf; cbn [merged_walk].
    { unfold remaining. rewrite !drop_ge, inr_passes by lia. cbn. rewrite N.add_0_r. tauto. }
    assert (Hnext : ∀ (range : source_fact_range) error mp' op', remaining mp op = range :: remaining mp' op' →
      (length (members facts) - mp' + (length (objects facts) - op') <= fuel)%nat →
      (reject negb (begin range =? e) with error ;; merged_walk facts fuel mp' op' (e + count range)) = inr e' ↔
      tiles e (remaining mp op) ∧ e' = e + sumN count (remaining mp op)).
    { intros range error mp' op' -> Hf'. cbn. rewrite reject_passes, negb_eqb_iff, IH, N.add_assoc by done. tauto. }
    destruct (members facts !! mp) as [m|] eqn:Em, (objects facts !! op) as [o|] eqn:Eo.
    all: try pose proof (lookup_lt_Some _ _ _ Em). all: try pose proof (lookup_lt_Some _ _ _ Eo).
    - destruct (N.leb_spec (offset (member_declaration m)) (offset (object_declaration o))); apply Hnext; try lia.
      + apply remaining_member; [done|]. naive_solver.
      + apply remaining_object; [done|]. rewrite Em. intros ? [= <-]. lia.
    - apply Hnext; [|lia]. apply remaining_member; [done|]. naive_solver.
    - apply Hnext; [|lia]. apply remaining_object; [done|]. naive_solver.
    - unfold remaining. rewrite !drop_ge, inr_passes by by apply lookup_ge_None. cbn. rewrite N.add_0_r. tauto.
Qed.

Lemma check_modifier_partition_passes st :
    check_modifier_partition facts = inr st ↔ partition (modifier_ranges facts) (size (modifiers facts)).
Proof.
    unfold check_modifier_partition. rewrite bind_passes. setoid_rewrite merged_walk_passes; [|lia].
    change (remaining 0 0) with (modifier_ranges facts). unfold partition. split.
    - intros (e & [Ht ->] & [He%negb_eqb_iff _]%reject_passes). split; [done|]. by rewrite <-He.
    - intros [Ht <-]. eexists. split; [by split|]. rewrite N.add_0_l, N.eqb_refl. by destruct st.
Qed.

Lemma modifier_ranges_Permutation : modifier_ranges facts ≡ₚ
    ((λ m, ref_modifiers (member_type m)) <$> members facts) ++ ((λ o, ref_modifiers (object_type_ref o)) <$> objects facts).
Proof.
    unfold modifier_ranges. rewrite merge_Permutation, fmap_app, <-!list_fmap_compose. done.
Qed.
(** ** The declaration sequence *)

(** An entry of kind [kind] names the fact at [next]. *)
Definition entry_names {A} (kind : N) (span_of : A → source_span) (items : list A) (d : source_declaration_ref)
      (next : nat) : Prop :=
    declaration_code d = kind → listed span_of items !! next = Some (declaration_index d, declaration_span d).

Definition entry_ok (d : source_declaration_ref) (n : next_facts) : Prop :=
    entry_names declares_namespace namespace_declaration (namespaces facts) d (next_namespace n) ∧
    entry_names declares_record record_declaration (records facts) d (next_record n) ∧
    entry_names declares_enum enum_declaration (enums facts) d (next_enum n) ∧
    entry_names declares_object object_declaration (objects facts) d (next_object n) ∧
    entry_names declares_link link_declaration (links facts) d (next_link n) ∧
    entry_names declares_alias alias_declaration (aliases facts) d (next_alias n) ∧
    (5 < declaration_code d → declaration_span d = no_span).

Definition bump (d : source_declaration_ref) (n : next_facts) : next_facts :=
    let up kind next := if declaration_code d =? kind then S next else next in
    NextFacts (up declares_namespace (next_namespace n)) (up declares_record (next_record n))
      (up declares_enum (next_enum n)) (up declares_object (next_object n))
      (up declares_link (next_link n)) (up declares_alias (next_alias n)).

Lemma same_span_iff s t : negb (offset s =? offset t) || negb (span_length s =? span_length t) = false ↔ s = t.
Proof. rewrite orb_false_iff, !negb_eqb_iff. destruct s, t; cbn. naive_solver. Qed.

Lemma case_passes {A} (d : source_declaration_ref) next (items : list A) span_of n' o error error' y :
    (let! (expected, next) := (let! s := expect_next d next items span_of error in inr (s, n')) in
     reject negb (offset expected =? offset (declaration_span d)) ||
       negb (span_length expected =? span_length (declaration_span d)) with error' ;;
     inr (next, o)) = (inr y : check (next_facts * N)) ↔
    listed span_of items !! next = Some (declaration_index d, declaration_span d) ∧ y = (n', o).
Proof.
    unfold expect_next, listed. rewrite list_lookup_imap. destruct (items !! next) as [x|]; cbn; [|naive_solver].
    destruct (negb (declaration_index d =? N.of_nat next)) eqn:E.
    - split; [done|]. intros [[= Hi _] _]. by rewrite Hi, N.eqb_refl in E.
    - apply negb_eqb_iff in E. rewrite reject_passes, inr_passes, same_span_iff. split.
      + intros [Hs ->]. by rewrite E, Hs.
      + by intros [[= _ ->] ->].
Qed.

Lemma and_regroup (P Q R T : Prop) : (R ↔ Q ∧ T) → P ∧ R ↔ (P ∧ Q) ∧ T.
Proof. tauto. Qed.

Lemma check_declaration_passes i d st st' : check_declaration facts i d st = inr st' ↔
    ((i = 0 ∨ st.2 <= offset (declaration_span d)) ∧ entry_ok d st.1) ∧
    st' = (bump d st.1, offset (declaration_span d)).
Proof.
    destruct st as [[] previous]. unfold check_declaration, expected_span, bump. cbn [fst snd].
    rewrite reject_passes, in_order_iff.
    apply and_regroup. unfold entry_ok, entry_names.
    cbn [next_namespace next_record next_enum next_object next_link next_alias].
    unfold declares_namespace, declares_record, declares_enum, declares_object, declares_link, declares_alias.
    repeat match goal with |- context [declaration_code d =? ?k] =>
      destruct (N.eqb_spec (declaration_code d) k) as [E|?]; [rewrite ?E; cbn [N.eqb Pos.eqb]|] end.
    all: rewrite ?case_passes.
    1-6: split; [intros [Hl ->]; split; [split_and!; intros ?; (done || lia)|done]
      | intros [(H0 & H1 & H2 & H3 & H4 & H5 & _) ->]; split; [auto|done]].
    rewrite reject_passes, inr_passes, same_span_iff. split.
    - intros [Hs ->]. split; [|done]. split_and!; intros ?; (done || lia).
    - intros [(_ & _ & _ & _ & _ & _ & Hs) ->]. split; [|done]. symmetry. apply Hs. lia.
Qed.
Definition next_declaration (d : source_declaration_ref) (st : next_facts * N) : next_facts * N :=
    (bump d st.1, offset (declaration_span d)).

Section one_kind.
Context {A : Type} (kind : N) (span_of : A → source_span) (items : list A) (next_of : next_facts → nat).
Context (Hbump : ∀ d n, next_of (bump d n) = if declaration_code d =? kind then S (next_of n) else next_of n).

Lemma entries_cons d ds : entries kind (d :: ds) =
    if declaration_code d =? kind then (declaration_index d, declaration_span d) :: entries kind ds
    else entries kind ds.
Proof.
    unfold entries. rewrite list.filter_cons. destruct (N.eqb_spec (declaration_code d) kind).
    - by rewrite decide_True.
    - by rewrite decide_False.
Qed.

Lemma turns_entries ds : ∀ i st,
    turns (λ _ d st, entry_names kind span_of items d (next_of st.1)) next_declaration i ds st ↔
    entries kind ds `prefix_of` drop (next_of st.1) (listed span_of items).
Proof.
    induction ds as [|d ds IH]; intros i st; cbn [turns]; [split; [intros _; apply prefix_nil | done]|].
    rewrite IH, entries_cons. unfold next_declaration, entry_names. cbn [fst]. rewrite Hbump.
    destruct (N.eqb_spec (declaration_code d) kind) as [E|E]; [|tauto].
    split.
    - intros [Hl Hp]. rewrite (drop_S _ _ _ (Hl E)). by apply prefix_cons.
    - intros Hp. destruct (drop (next_of st.1) (listed span_of items)) as [|e l] eqn:Ed; [by apply prefix_nil_not in Hp|].
      assert (Hl : listed span_of items !! next_of st.1 = Some e).
      { rewrite <-(Nat.add_0_r (next_of st.1)), <-lookup_drop, Ed. done. }
      rewrite (drop_S _ _ _ Hl) in Ed. injection Ed as Ed. rewrite Hl, Ed.
      pose proof (prefix_cons_inv_1 _ _ _ _ Hp) as <-. split; [done|]. by eapply prefix_cons_inv_2.
Qed.

Lemma after_entries ds : ∀ st, next_of (after next_declaration ds st).1 = (next_of st.1 + length (entries kind ds))%nat.
Proof.
    unfold after. induction ds as [|d ds IH]; intros st; [cbn; lia|]. cbn [foldl].
    rewrite IH, entries_cons. unfold next_declaration. cbn [fst]. rewrite Hbump.
    destruct (_ =? _); cbn; lia.
Qed.

(** The loop meets every fact of the kind, in order. *)
Lemma all_entries ds i st : next_of st.1 = 0%nat →
    turns (λ _ d st, entry_names kind span_of items d (next_of st.1)) next_declaration i ds st ∧
      next_of (after next_declaration ds st).1 = length items ↔
    entries kind ds = listed span_of items.
Proof.
    intros Hs. rewrite turns_entries, after_entries, Hs. cbn [drop Nat.add]. split.
    - intros [Hp Hl]. apply prefix_length_eq; [done|]. unfold listed. by rewrite length_imap, Hl.
    - intros ->. split; [done|]. unfold listed. apply length_imap.
Qed.
End one_kind.

Lemma check_declarations_pass st :
    check_declarations facts = inr st ↔ (declarations facts ≠ [] → declarations_ok facts).
Proof.
    unfold check_declarations. destruct (declarations facts) as [|d ds] eqn:E; [destruct st; split; done|].
    rewrite <-E. assert (Hne : declarations facts ≠ []) by by rewrite E. clear E.
    rewrite (each_then _ _ _ _ check_declaration_passes), reject_passes, inr_passes.
    change (λ x st, (bump x st.1, offset (declaration_span x))) with next_declaration.
    rewrite turns_and, (turns_ordered declaration_span snd) by done.
    unfold entry_ok. rewrite !turns_and.
    set (final := after next_declaration (declarations facts) (NextFacts 0 0 0 0 0 0, 0)).
    pose proof (all_entries declares_namespace namespace_declaration (namespaces facts) next_namespace ltac:(done)
      (declarations facts) 0 (NextFacts 0 0 0 0 0 0, 0) eq_refl) as H0.
    pose proof (all_entries declares_record record_declaration (records facts) next_record ltac:(done)
      (declarations facts) 0 (NextFacts 0 0 0 0 0 0, 0) eq_refl) as H1.
    pose proof (all_entries declares_enum enum_declaration (enums facts) next_enum ltac:(done)
      (declarations facts) 0 (NextFacts 0 0 0 0 0 0, 0) eq_refl) as H2.
    pose proof (all_entries declares_object object_declaration (objects facts) next_object ltac:(done)
      (declarations facts) 0 (NextFacts 0 0 0 0 0 0, 0) eq_refl) as H3.
    pose proof (all_entries declares_link link_declaration (links facts) next_link ltac:(done)
      (declarations facts) 0 (NextFacts 0 0 0 0 0 0, 0) eq_refl) as H4.
    pose proof (all_entries declares_alias alias_declaration (aliases facts) next_alias ltac:(done)
      (declarations facts) 0 (NextFacts 0 0 0 0 0 0, 0) eq_refl) as H5.
    fold final in H0, H1, H2, H3, H4, H5. clearbody final.
    rewrite (turns_Forall (λ d, 5 < declaration_code d → declaration_span d = no_span)), Forall_forall.
    rewrite !orb_false_iff, !negb_false_iff, !Nat.eqb_eq.
    split.
    - intros ((Ho & ? & ? & ? & ? & ? & ? & Hu) & (((((? & ?) & ?) & ?) & ?) & ?) & _) _. split; tauto.
    - intros H. destruct (H Hne) as [Ho E0 E1 E2 E3 E4 E5 Hu].
      apply H0 in E0 as []; apply H1 in E1 as []; apply H2 in E2 as []; apply H3 in E3 as [];
        apply H4 in E4 as []; apply H5 in E5 as []. destruct st. split_and!; done.
Qed.
Lemma modifier_ranges_valid n : partition (modifier_ranges facts) n →
    Forall (λ m, valid_range (ref_modifiers (member_type m)) n = true) (members facts) ∧
    Forall (λ o, valid_range (ref_modifiers (object_type_ref o)) n = true) (objects facts).
Proof.
    intros [Ht Hs]. pose proof (tiles_valid _ 0 n Ht Hs) as H.
    rewrite modifier_ranges_Permutation, Forall_app, !Forall_fmap in H. done.
Qed.

Lemma run_checks_pass st : run_checks facts = inr st ↔ well_formed facts.
Proof.
    unfold run_checks. rewrite !reject_passes, N.eqb_neq, N.ltb_ge.
    rewrite (ordered_loop_then _ _ namespace_declaration _ _ _ _ check_namespace_passes).
    rewrite (unit_then _ _ _ _ check_records_pass), (unit_then _ _ _ _ check_methods_pass).
    rewrite (unit_then _ _ _ _ (λ st, each_items _ _ (bases facts) 0 st check_base_fact_passes)).
    rewrite (unit_then _ _ _ _ (λ st, each_items _ _ (members facts) 0 st check_member_passes)).
    rewrite (unit_then _ _ _ _ (λ st, each_items _ _ (modifiers facts) 0 st check_modifier_passes)).
    rewrite (unit_then _ _ _ _ check_enums_pass).
    rewrite (ordered_loop_then _ _ object_declaration _ _ _ _ check_object_passes).
    rewrite (unit_then _ _ _ _ check_modifier_partition_passes).
    rewrite (ordered_loop_then _ _ link_declaration _ _ _ _ check_link_passes).
    rewrite (unit_then _ _ _ _ check_aliases_pass), check_declarations_pass, !Forall_and.
    unfold two32. split.
    - intros H. decompose [and] H. split; (done || unfold two32; lia).
    - intros []. pose proof (modifier_ranges_valid _ wf_modifiers_owned0) as [? ?]. unfold two32 in *.
      split_and!; (done || lia).
Qed.
End bodies.

(** C14: validation accepts exactly the well-formed packets. *)
Theorem validate_source_facts_iff facts : (validate_source_facts facts).1 = ok ↔ well_formed facts.
Proof.
  rewrite <-(run_checks_pass facts tt). unfold validate_source_facts.
  destruct (run_checks facts) as [e|[]]; split; done.
Qed.

End SourceFactsTheorems.
