(* ===== verification/SourceFactsErrors.v ===== *)
(** * Errors and consequences of the validation of source facts

    Where the error of a refused packet points, what the readers of an accepted packet may
    rely on, and what the validation lets through. *)

From stdpp Require Import sorting.
From S2P Require Import Prelude IdentitySpace Construction SourceFacts SourceFactsTheorems.

Local Open Scope N_scope.

Module SourceFactsErrors.

Import SourceFacts SourceFactsTheorems.

#[local] Existing Instance IdentitySpace.identity_kind_eq_dec.

(** ** Where an error points *)

(** Every error of [c] satisfies [L]. *)
Definition reports {A} (L : validation_error → Prop) (c : check A) : Prop := ∀ e, c = inl e → L e.

Section reports.
Context (L : validation_error → Prop).

Lemma reports_reject {A} (b : bool) e (k : check A) : L e → reports L k → reports L (reject b with e ;; k).
Proof. intros He Hk. destruct b; [by intros ? [= <-] | done]. Qed.

Lemma reports_inr {A} (x : A) : reports L (inr x).
Proof. by intros e [=]. Qed.

Lemma reports_inl {A} e : L e → reports L (inl e : check A).
Proof. by intros He ? [= <-]. Qed.

Lemma reports_bind {A B} (c : check A) (k : A → check B) :
    reports L c → (∀ y, reports L (k y)) → reports L (let! y := c in k y).
Proof. intros Hc Hk. destruct c as [e|y]; [intros ? [= <-]; by apply Hc | apply Hk]. Qed.

Lemma reports_if {A} (b : bool) (c c' : check A) : reports L c → reports L c' → reports L (if b then c else c').
Proof. by destruct b. Qed.

Lemma reports_each {A St} (body : N → A → St → check St) items : ∀ i st,
    (∀ j x st, items !! j = Some x → reports L (body (i + N.of_nat j) x st)) → reports L (each body i items st).
Proof.
    induction items as [|x items IH]; intros i st Hb; cbn [each]; [apply reports_inr|].
    apply reports_bind.
    - rewrite <-(N.add_0_r i). by apply (Hb 0%nat).
    - intros st'. apply IH. intros j y st'' Hj. rewrite <-N.add_assoc, N.add_1_l, <-Nat2N.inj_succ. by apply Hb.
Qed.
End reports.

Section located.
Context (facts : source_facts).

(** The array a category names. *)
Definition fact_count (c : source_fact_category) : option N :=
    match c with
    | packet => None
    | namespace_fact => Some (size (namespaces facts)) | record_fact => Some (size (records facts))
    | member_fact => Some (size (members facts)) | modifier_fact => Some (size (modifiers facts))
    | enum_fact => Some (size (enums facts)) | enum_value_fact => Some (size (enum_values facts))
    | object_fact => Some (size (objects facts)) | link_fact => Some (size (links facts))
    | base_fact => Some (size (bases facts)) | alias_fact => Some (size (aliases facts))
    | method_fact => Some (size (methods facts)) | declaration_ref => Some (size (declarations facts))
    end.

(** The error names a defect, and a fact that exists unless it is about the packet. *)
Definition located (e : validation_error) : Prop :=
    code e ≠ no_error ∧
    match fact_count (category e) with
    | None => True
    | Some n => ∃ i, i < n ∧ error_index e = N.min i (two32 - 1)
    end.

Lemma fail_located c k i s : c ≠ no_error → match fact_count k with None => True | Some n => i < n end →
    located (fail c k i s).
Proof.
    intros Hc Hi. split; [done|]. cbn [fail category error_index]. destruct (fact_count k) as [n|]; [|done].
    exists i. split; [done|]. destruct (N.ltb_spec (two32 - 1) i); lia.
Qed.

Lemma lookup_size {A} (l : list A) i x : l !! i = Some x → N.of_nat i < size l.
Proof. intros Hi%lookup_lt_Some. unfold size. lia. Qed.

Lemma lookup_section {A} (range : source_fact_range) (l : list A) j x :
    section range l !! j = Some x → begin range + N.of_nat j < size l.
Proof.
    unfold section. intros [_ H]%lookup_take_Some. rewrite lookup_drop in H. apply lookup_size in H. lia.
Qed.
End located.

Lemma check_base_located facts type b error : (∀ c, c ≠ no_error → located facts (error c)) →
  reports (located facts) (check_base type b error).
Proof.
  intros He. unfold check_base. cbv zeta. repeat (apply reports_reject; [by apply He|]). apply reports_inr.
Qed.

Ltac locate :=
  cbv zeta; repeat first
    [ apply check_base_located; intros ??; apply fail_located; [done | cbn [fact_count]; first [done | eassumption]]
    | apply reports_reject; [apply fail_located; [done | cbn [fact_count]; first [done | eassumption]]|]
    | apply reports_inr
    | apply reports_inl; apply fail_located; [done | cbn [fact_count]; first [done | eassumption]]
    | apply reports_if
    | apply reports_bind; [|intros ?; cbv beta] ].

Section checks.
Context (facts : source_facts).

Lemma loop_located {A St} (body : N → A → St → check St) (items : list A) st :
    (∀ i x st, i < size items → reports (located facts) (body i x st)) → reports (located facts) (each body 0 items st).
Proof. intros Hb. apply reports_each. intros j x st' Hj. apply Hb. rewrite N.add_0_l. by eapply lookup_size. Qed.

Lemma check_namespace_located i x p : i < size (namespaces facts) → reports (located facts) (check_namespace facts i x p).
Proof. intros Hi. unfold check_namespace. locate. Qed.

Lemma check_record_located i r st : i < size (records facts) → reports (located facts) (check_record facts i r st).
Proof.
    intros Hi. unfold check_record. locate.
    - apply reports_each. intros j m p Hj%lookup_section. unfold check_record_member. locate.
    - apply reports_each. intros j m p Hj%lookup_section. unfold check_record_method. locate.
Qed.

Lemma check_method_located i m st : i < size (methods facts) → reports (located facts) (check_method facts i m st).
Proof.
    intros Hi. destruct st. unfold check_method. locate.
Qed.

Lemma check_member_located i m st : i < size (members facts) → reports (located facts) (check_member facts i m st).
Proof.
    intros Hi. unfold check_member. locate.
Qed.

Lemma check_enum_located i x st : i < size (enums facts) → reports (located facts) (check_enum facts i x st).
Proof.
    intros Hi. destruct st. unfold check_enum. locate.
    apply reports_each. intros j m p Hj%lookup_section. unfold check_enum_value. locate.
Qed.

Lemma check_alias_located i a st : i < size (aliases facts) → reports (located facts) (check_alias facts i a st).
Proof.
    intros Hi. destruct st. unfold check_alias. locate.
Qed.

Lemma merged_walk_located fuel : ∀ mp op e, reports (located facts) (merged_walk facts fuel mp op e).
Proof.
    induction fuel as [|fuel IH]; intros mp op e; cbn [merged_walk]; [apply reports_inr|]. cbv zeta.
    destruct (members facts !! mp) as [m|] eqn:Em, (objects facts !! op) as [o|] eqn:Eo; [| | |apply reports_inr].
    all: try apply lookup_size in Em. all: try apply lookup_size in Eo. all: locate; apply IH.
Qed.

Lemma expect_next_located {A} d next (items : list A) span_of error :
    located facts error → reports (located facts) (expect_next d next items span_of error).
Proof.
    intros He. unfold expect_next. destruct (items !! next); [|by apply reports_inl].
    by apply reports_reject, reports_inr.
Qed.

Lemma check_declaration_located i d st : i < size (declarations facts) →
    reports (located facts) (check_declaration facts i d st).
Proof.
    intros Hi. destruct st as [[] p]. unfold check_declaration.
    apply reports_reject; [by apply fail_located|]. apply reports_bind.
    - unfold expected_span. cbv zeta. repeat (apply reports_if; [apply reports_bind;
        [by apply expect_next_located, fail_located | intros ?; apply reports_inr]|]). apply reports_inr.
    - intros [s n]. locate.
Qed.

Lemma run_checks_located : reports (located facts) (run_checks facts).
Proof.
    unfold run_checks. locate.
    - apply loop_located, check_namespace_located.
    - unfold check_records. locate. apply loop_located, check_record_located.
    - unfold check_methods. locate. apply loop_located, check_method_located.
    - apply loop_located. intros i x st Hi. unfold check_base_fact. locate.
    - apply loop_located, check_member_located.
    - apply loop_located. intros i x st Hi. unfold check_modifier. locate.
    - unfold check_enums. locate. apply loop_located, check_enum_located.
    - apply loop_located. intros i x st Hi. unfold check_object. locate.
    - unfold check_modifier_partition. locate. apply merged_walk_located.
    - apply loop_located. intros i x st Hi. unfold check_link. locate.
    - unfold check_aliases. locate. apply loop_located, check_alias_located.
    - unfold check_declarations. destruct (declarations facts) eqn:E; [apply reports_inr|]. rewrite <-E. locate.
      apply loop_located, check_declaration_located.
Qed.
End checks.

(** C37: validation either accepts a well-formed packet and reports no
    error, or refuses with [invalid_argument] a packet that is not well formed, and the error
    then names a defect and, unless it is about the whole packet, the position of a fact that
    the packet has in the array of the reported category (clamped to 32 bits). *)
Theorem validation_error_located facts : let (result, error) := validate_source_facts facts in
  (result = ok ∧ error = default_error ∧ well_formed facts) ∨
  (result = invalid_argument ∧ located facts error ∧ ¬ well_formed facts).
Proof.
  unfold validate_source_facts. pose proof (run_checks_pass facts tt) as Hw. pose proof (run_checks_located facts) as Hl.
  destruct (run_checks facts) as [e|[]].
  - right. split_and!; [done | by apply Hl | by intros H%Hw].
  - left. split_and!; [done | done | by apply Hw].
Qed.

(** ** What readers of an accepted packet rely on *)

#[global] Instance inside_dec r k : Decision (inside r k).
Proof. unfold inside. apply _. Defined.

Section accepted.
Context (facts : source_facts) (Hwf : well_formed facts).

Lemma section_lookup {A} (range : source_fact_range) (l : list A) k x : inside range k →
    l !! N.to_nat k = Some x → x ∈ section range l.
Proof.
    intros [Hb He] Hk. apply list_elem_of_lookup. exists (N.to_nat (k - begin range)).
    unfold section. rewrite lookup_take_lt by lia. rewrite lookup_drop. rewrite <-Hk. f_equal. lia.
Qed.

Lemma member_owner k m : members facts !! N.to_nat k = Some m → ∃ i r, records facts !! i = Some r ∧
    record_declared r = kind_definition ∧ inside (record_members r) k ∧
    within (record_declaration r) (member_declaration m) ∧
    ∀ j s, records facts !! j = Some s → inside (record_members s) k → j = i.
Proof.
    intros Hk. destruct (partition_owner _ _ k (wf_members_owned facts Hwf)) as (i & range & Hi & Hin & Hu).
    { apply lookup_lt_Some in Hk. unfold size. lia. }
    rewrite list_lookup_fmap in Hi. apply fmap_Some in Hi as (r & Hr & ->). exists i, r.
    pose proof (Forall_lookup_1 _ _ _ _ (wf_records facts Hwf) Hr) as (_ & _ & _ & [(_ & Hc & _)|(Hd & Hm & _)]).
    { unfold inside in Hin. lia. }
    split_and!; [done..| |].
    - rewrite Forall_forall in Hm. by apply (Hm m), section_lookup with k.
    - intros j s Hj. apply (Hu j). by rewrite list_lookup_fmap, Hj.
Qed.

(** The ranges of members and objects that hold a modifier. *)
Definition holders (k : N) : list source_fact_range :=
    filter (λ r, inside r k) (((λ m, ref_modifiers (member_type m)) <$> members facts) ++
      ((λ o, ref_modifiers (object_type_ref o)) <$> objects facts)).

Lemma tiles_holders ranges : ∀ from k, tiles from ranges → from <= k < from + sumN count ranges →
    length (filter (λ r, inside r k) ranges) = 1%nat.
Proof.
    induction ranges as [|r ranges IH]; intros from k; cbn [tiles sumN]; [lia|]. intros [Hb Ht] Hk.
    rewrite list.filter_cons. destruct (decide (inside r k)) as [Hin|Hin]; unfold inside in Hin.
    - cbn. f_equal. destruct (filter _ ranges) as [|s l] eqn:E; [done|exfalso].
      assert (s ∈ filter (λ r, inside r k) ranges) as [Hs Hin']%list_elem_of_filter by (rewrite E; left).
      apply list_elem_of_lookup in Hin' as [j Hj]. pose proof (tiles_above _ _ _ _ Ht Hj). unfold inside in Hs. lia.
    - apply (IH _ _ Ht). lia.
Qed.

Lemma modifier_holder k : k < size (modifiers facts) → length (holders k) = 1%nat.
Proof.
    intros Hk. unfold holders. rewrite <-modifier_ranges_Permutation.
    destruct (wf_modifiers_owned facts Hwf) as [Ht Hs]. apply (tiles_holders _ 0); [done|lia].
Qed.

Lemma text_length s : in_text facts s → size (text facts s) = span_length s.
Proof.
    intros [_ Hs]. unfold text, source_size in *.
    destruct (N.ltb_spec (size (source_text facts)) (offset s)), (N.ltb_spec (size (source_text facts) - offset s) (span_length s));
      cbn; try lia.
    unfold size in *. rewrite length_take, length_drop. lia.
Qed.
End accepted.

(** In an accepted packet every member belongs to exactly one record,
    which is a definition whose span encloses the member's; every type modifier is held by
    exactly one member or object; and the spelling of a member's type is exactly the bytes of
    its span, never a truncation. *)
Theorem accepted_facts_owned facts : (validate_source_facts facts).1 = ok →
  (∀ k m, members facts !! N.to_nat k = Some m →
    size (text facts (ref_spelling (member_type m))) = span_length (ref_spelling (member_type m)) ∧
    ∃ i r, records facts !! i = Some r ∧ record_declared r = kind_definition ∧ inside (record_members r) k ∧
      within (record_declaration r) (member_declaration m) ∧
      ∀ j s, records facts !! j = Some s → inside (record_members s) k → j = i) ∧
  (∀ k, k < size (modifiers facts) → length (holders facts k) = 1%nat).
Proof.
  pose proof (run_checks_pass facts tt) as Hw. unfold validate_source_facts.
  destruct (run_checks facts) as [e|[]]; [done|]. intros _. apply proj1 in Hw. specialize (Hw eq_refl).
  split; [|by apply modifier_holder]. intros k m Hk. split; [|by apply member_owner].
  apply text_length. by apply (Forall_lookup_1 _ _ _ _ (wf_members facts Hw) Hk).
Qed.

(** ** Examples *)

(** [struct A { int x; const A* y; }; A a; enum E { F };] *)
Definition sample_type (n : N) : N := IdentitySpace.make n IdentitySpace.type_kind.
Definition sample_object (n : N) : N := IdentitySpace.make n IdentitySpace.object_kind.

Definition sample_record (identity : N) (members_ : source_fact_range) (declaration : source_span) (declared : N) :=
  RecordFact identity members_ (FactRange 0 0) (FactRange 0 0) declaration declared 0.

Definition sample_member (type : source_type_ref) (name : N) (declaration : source_span) : source_member_fact :=
  MemberFact type name declaration 0 no_span Construction.zero_value.

Definition sample_facts : source_facts := {|
  source := 1;
  source_text := replicate 80 32;
  namespaces := [];
  records := [sample_record (sample_type 2) (FactRange 0 2) (Span 0 34) kind_definition];
  members := [sample_member (builtin intrinsic_signed_int (FactRange 0 0) (Span 11 3)) 5 (Span 11 6);
    sample_member (semantic (sample_type 2) (FactRange 0 2) (Span 18 8)) 6 (Span 18 11)];
  modifiers := [TypeModifier 0 modifier_const; TypeModifier 0 modifier_pointer];
  enums := [EnumFact (sample_type 3) (FactRange 0 1) (Span 42 13) no_span 0 kind_definition false];
  enum_values := [EnumValueFact 7 intrinsic_signed_int 0 no_span];
  declarations := [DeclarationRef 0 declares_record (Span 0 34); DeclarationRef 0 declares_object (Span 35 4);
    DeclarationRef 0 declares_enum (Span 42 13)];
  objects := [ObjectFact (sample_object 4) (semantic (sample_type 2) (FactRange 2 0) (Span 35 1)) (Span 35 4) no_span 0];
  links := []; bases := []; aliases := []; alias_modifiers := []; methods := []; method_modifiers := [] |}.

Lemma accepted_facts_owned_witness : (validate_source_facts sample_facts).1 = ok ∧
  length (holders sample_facts 1) = 1%nat.
Proof.
  assert (H : (validate_source_facts sample_facts).1 = ok) by (vm_compute; reflexivity).
  split; [exact H|]. apply (proj2 (accepted_facts_owned sample_facts H)). vm_compute. reflexivity.
Defined.

(** Validation lets through an object whose intrinsic code is outside
    the enumeration, an alias whose modifier has an unknown kind, an enum value of type [void]
    and a declaration entry of unknown kind, though it refuses such codes elsewhere. *)
Theorem unchecked_codes_accepted : ∃ facts o a,
  validate_source_facts facts = (ok, default_error) ∧
  objects facts = [o] ∧ valid_intrinsic (ref_intrinsic (object_type_ref o)) = false ∧
  alias_modifiers facts = [a] ∧ valid_modifier_kind (modifier_code a) = false ∧
  (enum_value_intrinsic <$> enum_values facts) = [intrinsic_void] ∧
  (∃ d, d ∈ declarations facts ∧ declares_alias < declaration_code d).
Proof.
  exists {|
    source := 1; source_text := replicate 40 32; namespaces := []; records := []; members := []; modifiers := [];
    enums := [EnumFact (sample_type 3) (FactRange 0 1) (Span 0 10) no_span 0 kind_definition false];
    enum_values := [EnumValueFact 7 intrinsic_void 0 no_span];
    declarations := [DeclarationRef 0 9 no_span; DeclarationRef 0 declares_enum (Span 0 10);
      DeclarationRef 0 declares_object (Span 10 10); DeclarationRef 0 declares_alias (Span 20 10)];
    objects := [ObjectFact (sample_object 4) (builtin 200 (FactRange 0 0) no_span) (Span 10 10) no_span 0];
    links := []; bases := [];
    aliases := [AliasFact (sample_type 5) (builtin intrinsic_signed_int (FactRange 0 1) no_span) (Span 20 10)];
    alias_modifiers := [TypeModifier 0 99]; methods := []; method_modifiers := [] |}.
  do 2 eexists. split; [vm_compute; reflexivity|]. split_and!; try reflexivity.
  exists (DeclarationRef 0 9 no_span). split; [left | reflexivity].
Qed.

End SourceFactsErrors.
