(* ===== verification/SourceEnvironment.v ===== *)
(** * Source interfaces and the include environment

    Models server_engine/project/parser/source_environment.{hpp,cpp}: the hash tables of the
    names one Source exports, their two constructions from source facts (in vectors of the
    interface, and in pages of a shared store), their restoration from persisted slots, and the
    lookups through imports.

    An interface is addressed by a number, 0 the null pointer; [store] holds the interfaces that
    imports point to.  [for (;;)] loops are [Endless] when they would not end, which is shown
    not to happen.  Allocation failures are arguments. *)

From S2P Require Import Prelude Probing IdentitySpace SourceFacts.

Local Open Scope N_scope.

Module SourceEnvironment.

Import Probing SourceFacts.

#[local] Existing Instance IdentitySpace.identity_kind_eq_dec.

Notation ref_valid := IdentitySpace.ref_valid.

(** ** Slots *)

Record source_interface_object : Set := InterfaceObject { found_identity : N; found_named_type : N }.
Definition no_object : source_interface_object := InterfaceObject 0 0.

Record source_interface_type_slot : Set := TypeSlot { type_parent : N; type_name : N; type_identity : N }.
Record source_interface_object_slot : Set := ObjectSlot {
  slot_parent : N; slot_object_name : N; slot_identity : N; slot_named_type : N }.
Record source_interface_member_slot : Set := MemberSlot { slot_type : N; slot_member_name : N; slot_index : N }.

Definition invalid_index : N := 0xffffffff.

(** What the tables need of an entry: its key, whether a slot is taken, and the value of a fresh
    slot. *)
Class Slot (T : Type) : Type := {
  slot_owner : T → N;
  slot_name : T → N;
  slot_taken : T → bool;
  fresh_slot : T;
  fresh_slot_free : slot_taken fresh_slot = false }.

#[export] Instance type_slot_slot : Slot source_interface_type_slot := {|
  slot_owner := type_parent; slot_name := type_name; slot_taken s := ref_valid (type_identity s);
  fresh_slot := TypeSlot 0 0 0; fresh_slot_free := eq_refl |}.
#[export] Instance object_slot_slot : Slot source_interface_object_slot := {|
  slot_owner := slot_parent; slot_name := slot_object_name; slot_taken s := ref_valid (slot_identity s);
  fresh_slot := ObjectSlot 0 0 0 0; fresh_slot_free := eq_refl |}.
#[export] Instance member_slot_slot : Slot source_interface_member_slot := {|
  slot_owner := slot_type; slot_name := slot_member_name; slot_taken s := ref_valid (slot_type s);
  fresh_slot := MemberSlot 0 0 invalid_index; fresh_slot_free := eq_refl |}.

(** ** Tables *)

Definition binding_hash (owner name : N) : N := mix64 (N.lxor owner (N.shiftl name 32)).

Definition size_max : N := two64 - 1.

(** [while (capacity < target)], doubling; the capacity starts at 16, so 64 turns are enough. *)
Fixpoint grow_capacity (fuel : nat) (capacity target : N) : N :=
  match fuel with
  | O => 0
  | S fuel' =>
      if capacity <? target then
        if size_max / 2 <? capacity then 0 else grow_capacity fuel' (capacity * 2) target
      else capacity
  end.

Definition capacity_for (count : N) : N :=
  let target := if size_max / 2 <? count then size_max else count * 2 + 1 in
  grow_capacity 64 16 target.

Section table.
Context {T : Type} `{Slot T}.

(** The slot at a position of the table. *)
Definition slot_in (slots : list T) (position : N) : T := default fresh_slot (slots !! N.to_nat position).

Definition same_binding (owner name : N) (slot : T) : bool := (slot_owner slot =? owner) && (slot_name slot =? name).

(** A lookup: at most one probe a slot, stopped by a free slot. *)
Definition find_slot (slots : list T) (owner name : N) : option T :=
  if bool_decide (slots = []) then None else
  let mask := size slots - 1 in
  let visit position :=
    let slot := slot_in slots position in
    if negb (slot_taken slot) then Some None
    else if same_binding owner name slot then Some (Some slot) else None in
  default None (probe visit mask (length slots) (N.land (binding_hash owner name) mask)).

(** An insertion: where the loop stops, at a free slot or at the entry of the same key. *)
Inductive stop : Type := Vacant (position : N) | Present (slot : T).

Definition seek_place (slots : list T) (owner name : N) : option stop :=
  let mask := size slots - 1 in
  let visit position :=
    let slot := slot_in slots position in
    if negb (slot_taken slot) then Some (Vacant position)
    else if same_binding owner name slot then Some (Present slot) else None in
  probe visit mask (length slots) (N.land (binding_hash owner name) mask).
End table.
Arguments stop : clear implicits.

(** ** Results *)

Inductive result (A : Type) : Type := Done (value : A) | Refused (s : status_code) | Endless.
Arguments Done {_} _.
Arguments Refused {_} _.
Arguments Endless {_}.

Definition bind {A B} (r : result A) (k : A → result B) : result B :=
  match r with Done x => k x | Refused s => Refused s | Endless => Endless end.

Notation "'refuse' b 'with' s ;; k" := (if b then Refused s else k)
  (at level 100, b at next level, s at next level, k at level 200, right associativity).
Notation "'do!' x := c 'in' k" := (bind c (λ x, k))
  (at level 100, x pattern, c at next level, k at level 200, right associativity).

(** A loop over a span whose body may return. *)
Fixpoint for_each {A St} (body : A → St → result St) (items : list A) (st : St) : result St :=
  match items with
  | [] => Done st
  | x :: items' => do! st' := body x st in for_each body items' st'
  end.

(** A table under construction: its slots, the number of entries, and the entries in the order
    of insertion when they are retained for persistence. *)
Record table (T : Type) : Type := Table { slots : list T; inserted : N; compact : list T }.
Arguments Table {_} _ _ _.
Arguments slots {_} _.
Arguments inserted {_} _.
Arguments compact {_} _.

Definition empty_table {T} `{Slot T} (capacity : N) : table T :=
  Table (replicate (N.to_nat capacity) fresh_slot) 0 [].

(** The loop that enters [value]: at a free slot it is entered, at the entry of its key [present]
    says what happens. *)
Definition enter {T} `{Slot T} (retain : bool) (value : T) (present : T → result (table T)) (t : table T) :
    result (bool * table T) :=
  match seek_place (slots t) (slot_owner value) (slot_name value) with
  | Some (Vacant position) =>
      Done (true, Table (<[N.to_nat position := value]> (slots t)) (inserted t + 1)
        (if retain then compact t ++ [value] else compact t))
  | Some (Present slot) => do! t' := present slot in Done (false, t')
  | None => Endless
  end.

(** [identity_view]: the parent and the name of an identity. *)
Class identity_view : Type := { view_parent : N → N; view_name : N → N }.

(** ** Interfaces *)

Record data_view : Type := DataView {
  local_types_of : list N;
  type_slots_of : list source_interface_type_slot;
  object_slots_of : list source_interface_object_slot;
  member_slots_of : list source_interface_member_slot }.

Definition no_data : data_view := DataView [] [] [] [].

Record persistence_counts : Set := PersistenceCounts {
  count_local_types : N; count_type_slots : N; count_object_slots : N; count_member_slots : N }.

Record source_interface : Type := SourceInterface {
  own_data : data_view;
  persistence_type_slots : list source_interface_type_slot;
  persistence_object_slots : list source_interface_object_slot;
  persistence_member_slots : list source_interface_member_slot;
  external_runtime_data : data_view;
  external_runtime_imports : list N;
  external_persistence_data : data_view;
  counts : persistence_counts;
  persistence_compact_state : bool;
  persistence_externalized_state : bool;
  runtime_externalized_state : bool;
  imported_interfaces : list N }.

(** [source_interface{}] *)
Definition new_interface : source_interface :=
  SourceInterface no_data [] [] [] no_data [] no_data (PersistenceCounts 0 0 0 0) true false false [].

Definition local_types (i : source_interface) : list N :=
  if runtime_externalized_state i then local_types_of (external_runtime_data i)
  else if persistence_externalized_state i then local_types_of (external_persistence_data i)
  else local_types_of (own_data i).

Definition runtime_data_view (i : source_interface) : data_view :=
  if runtime_externalized_state i then external_runtime_data i
  else DataView (local_types i) (type_slots_of (own_data i)) (object_slots_of (own_data i)) (member_slots_of (own_data i)).

Definition runtime_imports (i : source_interface) : list N :=
  if runtime_externalized_state i then external_runtime_imports i else imported_interfaces i.

Definition persistence_data_view (i : source_interface) : data_view :=
  if persistence_externalized_state i then external_persistence_data i
  else DataView (local_types_of (own_data i)) (persistence_type_slots i) (persistence_object_slots i)
    (persistence_member_slots i).

Definition compact_persistence_available (i : source_interface) : bool :=
  persistence_externalized_state i || persistence_compact_state i.

(** ** Construction from source facts *)

Definition sum_counts (items : list source_record_fact) : N :=
  sumN (λ r, if record_declared r =? kind_definition then count (record_members r) else 0) items.

(** [object.type.identity && object.type.modifiers.count == 0 ? object.type.identity : identity_ref{}] *)
Definition named_type_of (o : source_object_fact) : N :=
  let type := object_type_ref o in
  if ref_valid (ref_identity type) && (count (ref_modifiers type) =? 0) then ref_identity type else 0.

(** [!identity || identity.kind() != kind] *)
Definition not_of_kind (kind : IdentitySpace.identity_kind) (identity : N) : bool :=
  negb (ref_valid identity) || negb (is_kind kind identity).

Definition bad_range (range : source_fact_range) (n : N) : bool :=
  (n <? begin range) || (n - begin range <? count range).

Section initialize.
Context `{!identity_view} (facts : source_facts).

(** The lambda [insert_type]; the state is the list of local types and the table. *)
Definition insert_type (retain : bool) (identity : N) (st : list N * table source_interface_type_slot) :
    result (list N * table source_interface_type_slot) :=
  refuse not_of_kind IdentitySpace.type_kind identity with invalid_argument ;;
  let parent := view_parent identity in
  let name := view_name identity in
  refuse negb (ref_valid parent) || (name =? 0) with invalid_argument ;;
  let value := TypeSlot parent name identity in
  do! (entered, t) := enter retain value
    (λ slot, if type_identity slot =? identity then Done st.2 else Refused semantic_conflict) st.2 in
  Done (if entered : bool then st.1 ++ [identity] else st.1, t).

Definition insert_object (retain : bool) (object : source_object_fact) (t : table source_interface_object_slot) :
    result (table source_interface_object_slot) :=
  refuse not_of_kind IdentitySpace.object_kind (object_identity object) with invalid_argument ;;
  let parent := view_parent (object_identity object) in
  let name := view_name (object_identity object) in
  refuse negb (ref_valid parent) || (name =? 0) with invalid_argument ;;
  let named_type := named_type_of object in
  let value := ObjectSlot parent name (object_identity object) named_type in
  do! (_, t) := enter retain value
    (λ slot, if negb (slot_identity slot =? object_identity object) || negb (slot_named_type slot =? named_type)
             then Refused semantic_conflict else Done t) t in
  Done t.

(** The loop over the members of a definition; the state is the member's index and the table. *)
Definition insert_member (retain : bool) (type : N) (member : source_member_fact)
    (st : N * table source_interface_member_slot) : result (N * table source_interface_member_slot) :=
  let (index, t) := st in
  refuse member_name member =? 0 with invalid_argument ;;
  let value := MemberSlot type (member_name member) index in
  do! (_, t) := enter retain value (λ _, Refused semantic_conflict) t in
  Done (index + 1, t).

Definition insert_members (retain ranges_checked : bool) (record : source_record_fact)
    (t : table source_interface_member_slot) : result (table source_interface_member_slot) :=
  if negb (record_declared record =? kind_definition) then Done t else
  refuse not_of_kind IdentitySpace.type_kind (record_identity record) ||
      bad_range (record_members record) (size (members facts)) ||
      (ranges_checked && (bad_range (record_bases record) (size (bases facts)) ||
                          bad_range (record_methods record) (size (methods facts))))
    with invalid_argument ;;
  do! st := for_each (insert_member retain (record_identity record))
    (section (record_members record) (members facts)) (0, t) in
  Done st.2.

(** The loops over imports: a null pointer is refused. *)
Definition copy_imports (imports : list N) : result (list N) :=
  if existsb (N.eqb 0) imports then Refused invalid_argument else Done imports.

(** [memory] is whether the vectors, all allocated up front, could be. *)
Definition initialize_owned (memory : bool) (imports : list N) (retain : bool) (old : source_interface) :
    result source_interface :=
  let type_count := size (records facts) + size (enums facts) in
  let member_count := sum_counts (records facts) in
  let type_capacity := capacity_for type_count in
  let object_capacity := capacity_for (size (objects facts)) in
  let member_capacity := capacity_for member_count in
  refuse (type_capacity =? 0) || (object_capacity =? 0) || (member_capacity =? 0) with not_available ;;
  refuse negb memory with not_available ;;
  do! ts := for_each (insert_type retain) (record_identity <$> records facts) ([], empty_table type_capacity) in
  do! (types, type_table) := for_each (insert_type retain) (enum_identity <$> enums facts) ts in
  do! object_table := for_each (insert_object retain) (objects facts) (empty_table object_capacity) in
  do! member_table := for_each (insert_members retain true) (records facts) (empty_table member_capacity) in
  do! new_imports := copy_imports imports in
  Done {|
    own_data := DataView types (slots type_table) (slots object_table) (slots member_table);
    persistence_type_slots := compact type_table;
    persistence_object_slots := compact object_table;
    persistence_member_slots := compact member_table;
    external_runtime_data := external_runtime_data old;
    external_runtime_imports := external_runtime_imports old;
    external_persistence_data := no_data;
    counts := PersistenceCounts (size types) (inserted type_table) (inserted object_table) (inserted member_table);
    persistence_compact_state := retain;
    persistence_externalized_state := false;
    runtime_externalized_state := runtime_externalized_state old;
    imported_interfaces := new_imports |}.

(** The variant of [insert_type] that writes into the pages: the local types have a fixed room. *)
Definition insert_type_external (room : N) (identity : N) (st : list N * table source_interface_type_slot) :
    result (list N * table source_interface_type_slot) :=
  refuse not_of_kind IdentitySpace.type_kind identity || bool_decide (slots st.2 = []) || (room <=? size st.1)
    with invalid_argument ;;
  insert_type false identity st.

(** [count == 0 ? 0 : capacity_for(count)] *)
Definition external_capacity (count : N) : N := if count =? 0 then 0 else capacity_for count.

(** [initialize_external]; [pages] is the status of [runtime_store.allocate], whose spans are fresh. *)
Definition initialize_external (pages : status_code) (imports : list N) (old : source_interface) :
    result source_interface :=
  refuse runtime_externalized_state old || persistence_externalized_state old with invalid_state ;;
  let type_count := size (records facts) + size (enums facts) in
  let member_count := sum_counts (records facts) in
  let type_capacity := external_capacity type_count in
  let object_capacity := external_capacity (size (objects facts)) in
  let member_capacity := external_capacity member_count in
  refuse (negb (type_count =? 0) && (type_capacity =? 0)) ||
      (negb (size (objects facts) =? 0) && (object_capacity =? 0)) ||
      (negb (member_count =? 0) && (member_capacity =? 0))
    with not_available ;;
  refuse negb (status_ok pages) with pages ;;
  do! ts := for_each (insert_type_external type_count) (record_identity <$> records facts)
    ([], empty_table type_capacity) in
  do! (types, type_table) := for_each (insert_type_external type_count) (enum_identity <$> enums facts) ts in
  refuse negb (size types =? type_count) with initialization_failed ;;
  do! object_table := (if object_capacity =? 0 then Done (empty_table 0)
    else for_each (insert_object false) (objects facts) (empty_table object_capacity)) in
  do! member_table := (if member_capacity =? 0 then Done (empty_table 0)
    else for_each (insert_members false false) (records facts) (empty_table member_capacity)) in
  do! new_imports := copy_imports imports in
  Done {|
    own_data := own_data old;
    persistence_type_slots := persistence_type_slots old;
    persistence_object_slots := persistence_object_slots old;
    persistence_member_slots := persistence_member_slots old;
    external_runtime_data := DataView types (slots type_table) (slots object_table) (slots member_table);
    external_runtime_imports := new_imports;
    external_persistence_data := no_data;
    counts := PersistenceCounts (size types) (inserted type_table) (inserted object_table) (inserted member_table);
    persistence_compact_state := false;
    persistence_externalized_state := false;
    runtime_externalized_state := true;
    imported_interfaces := imported_interfaces old |}.

(** [initialize]: [store] is [None] without a runtime store, or the status its allocation has. *)
Definition initialize (memory : bool) (store : option status_code) (imports : list N) (retain : bool)
    (old : source_interface) : result source_interface :=
  match store with
  | Some pages => refuse retain with invalid_argument ;; initialize_external pages imports old
  | None => initialize_owned memory imports retain old
  end.
End initialize.

(** ** Restoration from a persisted image *)

(** What [initialize_persisted] reads of the build cache: the counts of the Source's record, when
    there is one, and the entries it holds. *)
Record build_cache_image_view : Type := BuildCacheImageView {
  cache_source : N → status_code * (bool * persistence_counts);
  cache_local_type : N → N → status_code * N;
  cache_type_slot : N → N → status_code * source_interface_type_slot;
  cache_object_slot : N → N → status_code * source_interface_object_slot;
  cache_member_slot : N → N → status_code * source_interface_member_slot }.

(** The loops that read [count] entries and enter each. *)
Definition indices (n : N) : list N := N.of_nat <$> seq 0 (N.to_nat n).

Definition restore_local_type (cache : build_cache_image_view) (source index : N) (types : list N) : result (list N) :=
  let (s, identity) := cache_local_type cache source index in
  refuse negb (status_ok s) || negb (ref_valid identity) with artifact_corrupt ;;
  Done (types ++ [identity]).

Definition restore_slot {T} `{Slot T} (read : N → status_code * T) (complete : T → bool) (index : N) (t : table T) :
    result (table T) :=
  let (s, value) := read index in
  refuse negb (status_ok s) || negb (complete value) with artifact_corrupt ;;
  do! (_, t) := enter true value (λ _, Refused artifact_corrupt) t in
  Done t.

Definition complete_type (s : source_interface_type_slot) : bool :=
  ref_valid (type_parent s) && negb (type_name s =? 0) && ref_valid (type_identity s).
Definition complete_object (s : source_interface_object_slot) : bool :=
  ref_valid (slot_parent s) && negb (slot_object_name s =? 0) && ref_valid (slot_identity s).
Definition complete_member (s : source_interface_member_slot) : bool :=
  ref_valid (slot_type s) && negb (slot_member_name s =? 0) && negb (slot_index s =? invalid_index).

Definition initialize_persisted (cache : build_cache_image_view) (memory : bool) (source : N) (imports : list N)
    (old : source_interface) : result source_interface :=
  refuse source =? 0 with invalid_argument ;;
  let (s, persisted) := cache_source cache source in
  refuse negb (status_ok s) with s ;;
  refuse negb persisted.1 with not_found ;;
  let n := persisted.2 in
  let type_capacity := capacity_for (count_type_slots n) in
  let object_capacity := capacity_for (count_object_slots n) in
  let member_capacity := capacity_for (count_member_slots n) in
  refuse (type_capacity =? 0) || (object_capacity =? 0) || (member_capacity =? 0) with not_available ;;
  refuse negb memory with not_available ;;
  do! types := for_each (restore_local_type cache source) (indices (count_local_types n)) [] in
  do! type_table := for_each (restore_slot (cache_type_slot cache source) complete_type)
    (indices (count_type_slots n)) (empty_table type_capacity) in
  do! object_table := for_each (restore_slot (cache_object_slot cache source) complete_object)
    (indices (count_object_slots n)) (empty_table object_capacity) in
  do! member_table := for_each (restore_slot (cache_member_slot cache source) complete_member)
    (indices (count_member_slots n)) (empty_table member_capacity) in
  do! new_imports := copy_imports imports in
  Done {|
    own_data := DataView types (slots type_table) (slots object_table) (slots member_table);
    persistence_type_slots := compact type_table;
    persistence_object_slots := compact object_table;
    persistence_member_slots := compact member_table;
    external_runtime_data := external_runtime_data old;
    external_runtime_imports := external_runtime_imports old;
    external_persistence_data := no_data;
    counts := PersistenceCounts (size types) (size (compact type_table)) (size (compact object_table))
      (size (compact member_table));
    persistence_compact_state := true;
    persistence_externalized_state := false;
    runtime_externalized_state := runtime_externalized_state old;
    imported_interfaces := new_imports |}.

(** [release_persistence_data]: what is moved out, and the interface left. *)
Definition release_persistence_data (i : source_interface) : data_view * source_interface :=
  if persistence_externalized_state i then (no_data, i) else
  (DataView (local_types_of (own_data i)) (persistence_type_slots i) (persistence_object_slots i)
     (persistence_member_slots i),
   {| own_data := DataView [] (type_slots_of (own_data i)) (object_slots_of (own_data i)) (member_slots_of (own_data i));
      persistence_type_slots := []; persistence_object_slots := []; persistence_member_slots := [];
      external_runtime_data := external_runtime_data i; external_runtime_imports := external_runtime_imports i;
      external_persistence_data := no_data; counts := counts i;
      persistence_compact_state := persistence_compact_state i;
      persistence_externalized_state := persistence_externalized_state i;
      runtime_externalized_state := runtime_externalized_state i; imported_interfaces := imported_interfaces i |}).

Definition bind_persistence_data (data : data_view) (i : source_interface) : source_interface :=
  {| own_data := own_data i; persistence_type_slots := persistence_type_slots i;
     persistence_object_slots := persistence_object_slots i; persistence_member_slots := persistence_member_slots i;
     external_runtime_data := external_runtime_data i; external_runtime_imports := external_runtime_imports i;
     external_persistence_data := data; counts := counts i;
     persistence_compact_state := persistence_compact_state i; persistence_externalized_state := true;
     runtime_externalized_state := runtime_externalized_state i; imported_interfaces := imported_interfaces i |}.

(** ** Lookups *)

(** What a lookup reads of an interface and answers. *)
Class Lookup (T R : Type) `{Slot T} : Type := {
  lookup_slots : data_view → list T;
  answer_of : T → R;
  absent : R;
  present : R → bool }.

#[export] Instance type_lookup : Lookup source_interface_type_slot N := {|
  lookup_slots := type_slots_of; answer_of := type_identity; absent := 0; present := ref_valid |}.
#[export] Instance object_lookup : Lookup source_interface_object_slot source_interface_object := {|
  lookup_slots := object_slots_of; answer_of s := InterfaceObject (slot_identity s) (slot_named_type s);
  absent := no_object; present o := ref_valid (found_identity o) |}.
#[export] Instance member_lookup : Lookup source_interface_member_slot N := {|
  lookup_slots := member_slots_of; answer_of := slot_index; absent := invalid_index;
  present i := negb (i =? invalid_index) |}.

Section lookup.
Context {T R : Type} `{Lookup T R}.
Context (store : gmap N source_interface).

(** The first answer that is present, over the imports from the last to the first. *)
Fixpoint last_import (find : N → R) (reversed : list N) : R :=
  match reversed with
  | [] => absent
  | q :: reversed' => let found := find q in if present found then found else last_import find reversed'
  end.

(** The recursive lookups; [levels] is 1025 minus the depth, so that depth 1024 is the last. *)
Fixpoint find_recursive (levels : nat) (p owner name : N) : R :=
  match levels with
  | O => absent
  | S levels' =>
      if negb (ref_valid owner) || (name =? 0) then absent else
      match store !! p with
      | None => absent
      | Some i =>
          match find_slot (lookup_slots (runtime_data_view i)) owner name with
          | Some slot => answer_of slot
          | None => last_import (λ q, find_recursive levels' q owner name) (rev (runtime_imports i))
          end
      end
  end.

Definition maximum_levels : nat := 1025.

Definition find_from (p owner name : N) : R := find_recursive maximum_levels p owner name.

(** [source_environment]: the imports of one Source with the offset each is visible from. *)
Fixpoint find_visible (reversed : list (N * N)) (owner name source_offset : N) : R :=
  match reversed with
  | [] => absent
  | (visible_from, p) :: reversed' =>
      if (source_offset <? visible_from) || (p =? 0) then find_visible reversed' owner name source_offset
      else
        let found := find_from p owner name in
        if present found then found else find_visible reversed' owner name source_offset
  end.

Definition find_in_environment (imports : list (N * N)) (owner name source_offset : N) : R :=
  find_visible (rev imports) owner name source_offset.
End lookup.

(** The public lookups of [source_interface] and [source_environment]. *)
Definition find_type (store : gmap N source_interface) (p scope name : N) : N :=
  find_from (T := source_interface_type_slot) store p scope name.
Definition find_object (store : gmap N source_interface) (p scope name : N) : source_interface_object :=
  find_from (T := source_interface_object_slot) store p scope name.
Definition find_member (store : gmap N source_interface) (p type name : N) : N :=
  find_from (T := source_interface_member_slot) store p type name.

Definition environment_find_type (store : gmap N source_interface) (imports : list (N * N)) (scope name offset : N) : N :=
  find_in_environment (T := source_interface_type_slot) store imports scope name offset.
Definition environment_find_object (store : gmap N source_interface) (imports : list (N * N)) (scope name offset : N) :
    source_interface_object :=
  find_in_environment (T := source_interface_object_slot) store imports scope name offset.
Definition environment_find_member (store : gmap N source_interface) (imports : list (N * N)) (type name offset : N) : N :=
  find_in_environment (T := source_interface_member_slot) store imports type name offset.

(** ** The page store *)

(** One page: its capacity and how much of it is used; a span is a page, where it begins in it
    and its length. *)
Record page : Set := Page { page_capacity : N; page_used : N }.
Record page_span : Set := PageSpan { span_page : nat; span_begin : N; span_count : N }.

Definition page_bytes : N := 1024 * 1024.

(** [runtime_page_store<T>::allocate]: the span ([None] for [{}]) and the pages; [memory] is whether
    a new page could be allocated, and [None] is [bad_alloc]. *)
Definition page_allocate (memory : bool) (element : N) (pages : list page) (n : N) :
    option (option page_span * list page) :=
  if n =? 0 then Some (None, pages) else
  let default_capacity := N.max 1 (page_bytes / element) in
  let needs_page := match last pages with None => true | Some p => page_capacity p - page_used p <? n end in
  if needs_page && negb memory then None else
  let pages := if needs_page then pages ++ [Page (N.max default_capacity n) 0] else pages in
  let index := pred (length pages) in
  match pages !! index with
  | None => None
  | Some p => Some (Some (PageSpan index (page_used p) n), <[index := Page (page_capacity p) (page_used p + n)]> pages)
  end.

(** [total > max - bytes] returns the maximum at once. *)
Fixpoint saturating_sum (total : N) (parts : list N) : N :=
  match parts with
  | [] => total
  | b :: parts' => if size_max - b <? total then size_max else saturating_sum (total + b) parts'
  end.

(** [item.capacity * sizeof(T)] wraps. *)
Definition store_reserved_bytes (element : N) (pages : list page) : N :=
  saturating_sum 0 ((λ p, w64 (page_capacity p * element)) <$> pages).

(** The five stores of [implementation], with the size of their elements. *)
Record runtime_store : Set := RuntimeStore {
  store_local_types : list page; store_type_slots : list page; store_object_slots : list page;
  store_member_slots : list page; store_imports : list page }.

Definition empty_store : runtime_store := RuntimeStore [] [] [] [] [].

(** [source_interface_runtime_store::initialize]; [None] is the null [value]. *)
Definition store_initialize (memory : bool) (value : option runtime_store) : status_code * option runtime_store :=
  match value with
  | Some _ => (invalid_state, value)
  | None => if memory then (ok, Some empty_store) else (not_available, None)
  end.

(** [source_interface_runtime_store::allocate]: what was reserved before a failure stays used. *)
Definition store_allocate (memory : nat → bool) (n1 n2 n3 n4 n5 : N) (value : option runtime_store) :
    status_code * list (option page_span) * option runtime_store :=
  match value with
  | None => (invalid_state, [], None)
  | Some (RuntimeStore p1 p2 p3 p4 p5) =>
      match page_allocate (memory 0%nat) 4 p1 n1 with
      | None => (not_available, [], value)
      | Some (s1, p1) =>
      match page_allocate (memory 1%nat) 12 p2 n2 with
      | None => (not_available, [], Some (RuntimeStore p1 p2 p3 p4 p5))
      | Some (s2, p2) =>
      match page_allocate (memory 2%nat) 16 p3 n3 with
      | None => (not_available, [], Some (RuntimeStore p1 p2 p3 p4 p5))
      | Some (s3, p3) =>
      match page_allocate (memory 3%nat) 12 p4 n4 with
      | None => (not_available, [], Some (RuntimeStore p1 p2 p3 p4 p5))
      | Some (s4, p4) =>
      match page_allocate (memory 4%nat) 8 p5 n5 with
      | None => (not_available, [], Some (RuntimeStore p1 p2 p3 p4 p5))
      | Some (s5, p5) => (ok, [s1; s2; s3; s4; s5], Some (RuntimeStore p1 p2 p3 p4 p5))
      end end end end end
  end.

Definition page_count (value : option runtime_store) : N :=
  match value with
  | None => 0
  | Some (RuntimeStore p1 p2 p3 p4 p5) => size p1 + size p2 + size p3 + size p4 + size p5
  end.

Definition reserved_bytes (value : option runtime_store) : N :=
  match value with
  | None => 0
  | Some (RuntimeStore p1 p2 p3 p4 p5) =>
      saturating_sum 0 [store_reserved_bytes 4 p1; store_reserved_bytes 12 p2; store_reserved_bytes 16 p3;
        store_reserved_bytes 12 p4; store_reserved_bytes 8 p5]
  end.

End SourceEnvironment.
