(* ===== verification/SourceEnvironmentTables.v ===== *)
(** * The tables of a source interface

    [holds slots l]: the open-addressing table [slots] holds exactly the entries [l].  A lookup in
    such a table is a search of the list, and an insertion that finds no entry of its key
    extends the list; the capacity chosen for a table always leaves a free slot. *)

From S2P Require Import Prelude Probing IdentitySpace SourceFacts SourceEnvironment.

Local Open Scope N_scope.

Module SourceEnvironmentTables.

Import Probing SourceFacts SourceEnvironment.

(** ** Capacities *)

Lemma grow_capacity_spec fuel : ∀ capacity target j, capacity = 2 ^ j → 64 <= j + N.of_nat fuel → j <= 63 →
  let c := grow_capacity fuel capacity target in
  c ≠ 0 → target <= c ∧ c <= 2 ^ 63 ∧ ∃ k, c = 2 ^ k.
Proof.
  induction fuel as [|fuel IH]; intros capacity target j Hc Hf Hj; cbn [grow_capacity]; [lia|].
  destruct (N.ltb_spec capacity target) as [Hlt|Hge].
  - destruct (N.ltb_spec (size_max / 2) capacity) as [|Hle]; [done|].
    apply (IH _ _ (j + 1)); [by rewrite Hc, N.pow_add_r | lia|].
    destruct (N.eq_dec j 63) as [->|]; [|lia]. exfalso. rewrite Hc in Hle. by vm_compute in Hle.
  - intros _. split_and!; [done | rewrite Hc; by apply N.pow_le_mono_r | by exists j].
Qed.

(** A capacity is a power of two above the number of entries. *)
Lemma capacity_for_spec n : capacity_for n ≠ 0 → power_of_two (capacity_for n) ∧ n < capacity_for n.
Proof.
  intros Hc. unfold capacity_for in *.
  destruct (grow_capacity_spec 64 16 (if size_max / 2 <? n then size_max else n * 2 + 1) 4 eq_refl
    ltac:(lia) ltac:(lia) Hc) as (Ht & Hm & Hp).
  split; [done|]. destruct (N.ltb_spec (size_max / 2) n) as [Hlt|Hge]; [|lia].
  exfalso. assert (size_max <= 2 ^ 63) as Hx by lia. by vm_compute in Hx.
Qed.

(** A table that fits in memory gets its capacity. *)
Lemma grow_capacity_pos fuel : ∀ capacity target, 0 < capacity → target <= 2 ^ 63 →
  target <= capacity * 2 ^ N.of_nat fuel → (0 < fuel)%nat → grow_capacity (S fuel) capacity target ≠ 0.
Proof.
  induction fuel as [|fuel IH]; intros capacity target Hc Ht Hf; [lia|]. intros _. cbn [grow_capacity].
  destruct (N.ltb_spec capacity target) as [Hlt|Hge]; [|lia].
  destruct (N.ltb_spec (size_max / 2) capacity) as [Hm|Hm].
  { exfalso. assert (Hs : size_max / 2 = 2 ^ 63 - 1) by (vm_compute; reflexivity). lia. }
  destruct fuel as [|fuel].
  { cbn [grow_capacity N.of_nat] in *. destruct (N.ltb_spec (capacity * 2) target); lia. }
  change (grow_capacity (S (S fuel)) (capacity * 2) target ≠ 0). apply IH; [lia|done| |lia].
  rewrite Nat2N.inj_succ, N.pow_succ_r' in Hf. lia.
Qed.

Lemma capacity_for_pos n : n < 2 ^ 62 → capacity_for n ≠ 0.
Proof.
  intros Hn. unfold capacity_for.
  assert (Hm : size_max / 2 = 9223372036854775807) by (vm_compute; reflexivity).
  destruct (N.ltb_spec (size_max / 2) n) as [Hlt|Hge]; [change (2 ^ 62) with 4611686018427387904 in Hn; lia|].
  apply (grow_capacity_pos 63); [done| | |lia].
  - change (2 ^ 63) with 9223372036854775808. change (2 ^ 62) with 4611686018427387904 in Hn. lia.
  - change (16 * 2 ^ N.of_nat 63) with 147573952589676412928. change (2 ^ 62) with 4611686018427387904 in Hn. lia.
Qed.

(** ** Tables that hold a list *)

Section table.
Context {T : Type} `{HS : Slot T}.
Implicit Types (slots l : list T) (e f : T).

Definition used slots (p : N) : option T :=
    match slots !! N.to_nat p with Some s => if slot_taken s then Some s else None | None => None end.

Definition home slots e : N := N.land (binding_hash (slot_owner e) (slot_name e)) (size slots - 1).

Definition is_free (s : T) : Prop := slot_taken s = false.

Definition same_key e f : Prop := slot_owner e = slot_owner f ∧ slot_name e = slot_name f.
Definition has_key (owner name : N) e : Prop := slot_owner e = owner ∧ slot_name e = name.

Record holds slots l : Prop := {
    holds_pow : power_of_two (size slots);
    holds_chained : chained (size slots) (home slots) (used slots);
    holds_entries : ∀ e, e ∈ l ↔ ∃ p, p < size slots ∧ used slots p = Some e;
    holds_keys : ∀ p q e f, p < size slots → q < size slots → used slots p = Some e → used slots q = Some f →
      same_key e f → p = q;
    holds_room : (free_slots is_free slots + length l = length slots)%nat }.

Lemma used_slot slots p e : used slots p = Some e ↔ slots !! N.to_nat p = Some e ∧ slot_taken e = true.
Proof. unfold used. destruct (slots !! N.to_nat p) as [s|]; [destruct (slot_taken s) eqn:E|]; naive_solver congruence. Qed.

Lemma used_lt slots p e : used slots p = Some e → p < size slots.
Proof. intros [H%lookup_lt_Some _]%used_slot. unfold size. lia. Qed.

Lemma used_replicate n p : used (replicate n fresh_slot) p = None.
Proof.
    unfold used. destruct (replicate n fresh_slot !! N.to_nat p) as [s|] eqn:E; [|done].
    apply lookup_replicate in E as [-> _]. by rewrite fresh_slot_free.
Qed.

Lemma holds_empty n : power_of_two n → holds (replicate (N.to_nat n) fresh_slot) [].
Proof.
    intros Hn. assert (Hs : size (replicate (N.to_nat n) (fresh_slot (T := T))) = n).
    { unfold size. rewrite length_replicate. lia. }
    split; rewrite ?Hs.
    - done.
    - intros p e _ Hu. by rewrite used_replicate in Hu.
    - intros e. split; [intros H%elem_of_nil; done|]. intros (p & _ & Hu). by rewrite used_replicate in Hu.
    - intros p q e f _ _ Hu. by rewrite used_replicate in Hu.
    - rewrite free_slots_replicate by apply fresh_slot_free. cbn. rewrite length_replicate. lia.
Qed.

Lemma home_in slots e : power_of_two (size slots) → home slots e < size slots.
Proof.
    intros Hp. unfold home. rewrite land_mask by done. apply N.mod_lt. pose proof (power_of_two_pos _ Hp). lia.
Qed.

Lemma slot_in_used slots p : p < size slots →
    (slot_taken (slot_in slots p) = true ∧ used slots p = Some (slot_in slots p)) ∨
    (slot_taken (slot_in slots p) = false ∧ used slots p = None).
Proof.
    intros Hp. unfold slot_in, used. destruct (lookup_lt_is_Some_2 slots (N.to_nat p)) as [s Hs].
    { unfold size in Hp. lia. }
    rewrite Hs. cbn. destruct (slot_taken s); auto.
Qed.

Lemma same_binding_iff owner name e : same_binding owner name e = true ↔ has_key owner name e.
Proof. unfold same_binding, has_key. by rewrite andb_true_iff, !N.eqb_eq. Qed.

(** Both loops are walks for an entry of the key. *)
Lemma find_slot_as_seek slots l owner name : holds slots l → find_slot slots owner name =
    default None (probe (seek (used slots) (same_binding owner name)) (size slots - 1) (length slots)
      (N.land (binding_hash owner name) (size slots - 1))).
Proof.
    intros Hh. unfold find_slot. pose proof (holds_pow _ _ Hh) as Hp. pose proof (power_of_two_pos _ Hp).
    rewrite bool_decide_eq_false_2; [|intros ->; unfold size in *; cbn in *; lia]. f_equal.
    apply probe_ext_lt; [done| |].
    - rewrite land_mask by done. apply N.mod_lt. lia.
    - intros p Hlt. unfold seek. destruct (slot_in_used slots p Hlt) as [[-> ->]|[-> ->]]; done.
Qed.

Lemma find_slot_spec slots l owner name e : holds slots l →
    find_slot slots owner name = Some e ↔ e ∈ l ∧ has_key owner name e.
Proof.
    intros Hh. pose proof (holds_pow _ _ Hh) as Hp. rewrite (find_slot_as_seek slots l) by done.
    set (start := N.land (binding_hash owner name) (size slots - 1)).
    assert (Hst : start < size slots).
    { unfold start. rewrite land_mask by done. apply N.mod_lt. pose proof (power_of_two_pos _ Hp). lia. }
    assert (Hl : length slots = N.to_nat (size slots)) by (unfold size; lia). rewrite Hl.
    split.
    - intros Hf. destruct (probe _ _ _ _) as [[f|]|] eqn:Hpr; simplify_eq/=.
      apply probe_Some in Hpr as (i & _ & Hv & _); [|done..]. unfold seek in Hv.
      destruct (used slots (ahead (size slots) start i)) as [f|] eqn:Hu; [|done].
      destruct (same_binding owner name f) eqn:Hb; simplify_eq. split; [|by apply same_binding_iff].
      apply (holds_entries _ _ Hh). eauto using used_lt.
    - intros [Hin Hk]. apply (holds_entries _ _ Hh) in Hin as (p & Hlt & Hu). destruct Hk as [Ho Hn].
      rewrite (seek_hit (size slots) (home slots) Hp (λ e, home_in slots e Hp) (used slots)
        (same_binding owner name) start p e); [done|by apply Hh|done|done| |by apply same_binding_iff|].
      + unfold home, start. by rewrite Ho, Hn.
      + intros q f Hq Hf [Ho' Hn']%same_binding_iff.
        assert (q = p) as -> by (eapply (holds_keys _ _ Hh); [done..|]; split; congruence). congruence.
Qed.

Lemma find_slot_None slots l owner name : holds slots l →
    find_slot slots owner name = None ↔ ∀ e, e ∈ l → ¬ has_key owner name e.
Proof.
    intros Hh. split.
    - intros Hn e Hin Hk. assert (find_slot slots owner name = Some e) by (apply (find_slot_spec _ l); done). congruence.
    - intros Hn. destruct (find_slot slots owner name) as [e|] eqn:E; [|done].
      apply (find_slot_spec _ l) in E as [Hin Hk]; [|done]. by destruct (Hn e).
Qed.

Lemma holds_list slots l e : holds slots l → e ∈ l → slot_taken e = true.
Proof. intros Hh (p & _ & [_ Ht]%used_slot)%(holds_entries _ _ Hh). done. Qed.
(** ** Insertion *)

Lemma home_insert slots p v e : home (<[p := v]> slots) e = home slots e.
Proof. unfold home, size. by rewrite length_insert. Qed.

Lemma used_insert slots p v : p < size slots → slot_taken v = true →
    used (<[N.to_nat p := v]> slots) p = Some v ∧
    ∀ q, q ≠ p → used (<[N.to_nat p := v]> slots) q = used slots q.
Proof.
    unfold size. intros Hp Hv. unfold used. split.
    - rewrite list_lookup_insert_eq by lia. by rewrite Hv.
    - intros q Hq. by rewrite list_lookup_insert_ne by lia.
Qed.

Lemma free_exists slots l : holds slots l → (length l < length slots)%nat → ∃ q, q < size slots ∧ used slots q = None.
Proof.
    intros Hh Hl. destruct (free_slots_pos is_free slots) as (i & x & Hi & Hx).
    { pose proof (holds_room _ _ Hh). lia. }
    exists (N.of_nat i). pose proof (lookup_lt_Some _ _ _ Hi). unfold size, used. split; [lia|].
    rewrite Nat2N.id, Hi. by rewrite Hx.
Qed.

Lemma holds_extend slots l v d : holds slots l → slot_taken v = true → (d < N.to_nat (size slots))%nat →
    let p := ahead (size slots) (home slots v) d in
    used slots p = None → (∀ j, (j < d)%nat → is_Some (used slots (ahead (size slots) (home slots v) j))) →
    (∀ e, e ∈ l → ¬ same_key e v) → holds (<[N.to_nat p := v]> slots) (l ++ [v]).
Proof.
    intros Hh Hv Hd p Hp Hbefore Hk. destruct (Hh) as [Hpow Hch Hent Hkeys Hroom].
    pose proof (power_of_two_pos _ Hpow) as Hpos.
    assert (Hlt : p < size slots) by by apply ahead_lt.
    destruct (used_insert slots p v Hlt Hv) as [Hnew Hold].
    assert (Hsize : size (<[N.to_nat p := v]> slots) = size slots) by (unfold size; by rewrite length_insert).
    split; rewrite ?Hsize.
    - done.
    - apply (chained_insert (size slots) _ Hpow) with (used := used slots) (e := v) (d := d).
      + intros q e Hq Hu. destruct (Hch q e Hq Hu) as (d' & ? & ? & ?). exists d'. by rewrite !home_insert.
      + by rewrite home_insert.
      + done.
      + intros q _ Hq. apply Hold. by rewrite home_insert in Hq.
      + intros j Hj. rewrite home_insert. auto.
    - intros e. rewrite elem_of_app, list_elem_of_singleton, Hent. split.
      + intros [(q & Hq & Hu)| ->]; [|by exists p]. exists q. split; [done|]. rewrite Hold; [done|]. congruence.
      + intros (q & Hq & Hu). destruct (decide (q = p)) as [->|]; [right; congruence|]. left. exists q.
        by rewrite <-Hold.
    - assert (Hfresh : ∀ q e, q < size slots → used slots q = Some e → ¬ same_key e v).
      { intros q e Hq Hu. apply Hk, Hent. eauto. }
      intros q r e f Hq Hr He Hf Hs. destruct (decide (q = p)) as [->|], (decide (r = p)) as [->|]; [done| | |].
      + rewrite Hold in Hf by done. rewrite Hnew in He. simplify_eq. exfalso.
        apply (Hfresh r f Hr Hf). by destruct Hs.
      + rewrite Hold in He by done. rewrite Hnew in Hf. simplify_eq. exfalso. by apply (Hfresh q e).
      + rewrite Hold in He, Hf by done. by apply (Hkeys q r e f).
    - destruct (lookup_lt_is_Some_2 slots (N.to_nat p)) as [s Hs]; [unfold size in *; lia|].
      rewrite length_app, length_insert. cbn. rewrite (free_slots_insert is_free slots (N.to_nat p) s v) in Hroom; [lia|done| |].
      + unfold is_free. unfold used in Hp. rewrite Hs in Hp. by destruct (slot_taken s).
      + unfold is_free. congruence.
Qed.

(** The insertion loop ends: at the entry of the key, or where a new entry belongs. *)
Lemma seek_place_spec slots l owner name : holds slots l → (length l < length slots)%nat →
    (∃ e, e ∈ l ∧ has_key owner name e ∧ seek_place slots owner name = Some (Present e)) ∨
    ((∀ e, e ∈ l → ¬ has_key owner name e) ∧
     ∃ p, seek_place slots owner name = Some (Vacant p) ∧
       ∀ v, has_key owner name v → slot_taken v = true → holds (<[N.to_nat p := v]> slots) (l ++ [v])).
Proof.
    intros Hh Hl. pose proof (holds_pow _ _ Hh) as Hp. pose proof (power_of_two_pos _ Hp) as Hpos.
    set (start := N.land (binding_hash owner name) (size slots - 1)).
    assert (Hst : start < size slots) by (unfold start; rewrite land_mask by done; apply N.mod_lt; lia).
    set (visit := λ p, match used slots p with
      | None => Some (Vacant p) | Some e => if same_binding owner name e then Some (Present e) else None end).
    assert (Hseek : seek_place slots owner name = probe visit (size slots - 1) (N.to_nat (size slots)) start).
    { unfold seek_place. replace (length slots) with (N.to_nat (size slots)) by (unfold size; lia).
      apply probe_ext_lt; [done..|]. intros p Hlt. unfold visit.
      destruct (slot_in_used slots p Hlt) as [[-> ->]|[-> ->]]; done. }
    rewrite Hseek. destruct (free_exists slots l Hh Hl) as (q & Hq & Hfree).
    destruct (probe_stops visit (size slots) Hp start q (Vacant q) Hst Hq) as [r Hr]; [unfold visit; by rewrite Hfree|].
    rewrite Hr. apply probe_Some in Hr as (i & Hi & Hv & Hbefore); [|done..]. unfold visit in Hv.
    destruct (used slots (ahead (size slots) start i)) as [e|] eqn:Hu.
    - left. exists e. destruct (same_binding owner name e) eqn:Hb; simplify_eq.
      split_and!; [|by apply same_binding_iff | done]. apply (holds_entries _ _ Hh). eauto using used_lt.
    - simplify_eq. right.
      assert (Hused : ∀ j, (j < i)%nat → ∃ e, used slots (ahead (size slots) start j) = Some e ∧ ¬ has_key owner name e).
      { intros j Hj. specialize (Hbefore j Hj). unfold visit in Hbefore. cbv beta in Hbefore.
        destruct (used slots (ahead (size slots) start j)) as [e|]; [|done]. exists e. split; [done|]. intros Hk%same_binding_iff. by rewrite Hk in Hbefore. }
      assert (Hnone : ∀ e, e ∈ l → ¬ has_key owner name e).
      { intros e Hin Hk. apply (holds_entries _ _ Hh) in Hin as (p & Hlt & Hup).
        destruct (holds_chained _ _ Hh p e Hlt Hup) as (d & Hd & _ & Hb).
        assert (Hhome : home slots e = start) by (unfold home, start; destruct Hk as [-> ->]; done). rewrite Hhome in *.
        destruct (lt_eq_lt_dec d i) as [[Hdi| ->]|Hdi].
        - destruct (Hused d Hdi) as (f & Hf & Hnk). rewrite Hd in Hf. congruence.
        - rewrite Hd in Hu. congruence.
        - destruct (Hb i Hdi) as [? Hs]. congruence. }
      split; [done|]. eexists. split; [done|]. intros v Hk Hv'.
      assert (Hhome : home slots v = start) by (unfold home, start; destruct Hk as [-> ->]; done).
      rewrite <-Hhome. apply holds_extend; rewrite ?Hhome; [done..| |].
      + intros j Hj. destruct (Hused j Hj) as (e & -> & _). done.
      + intros e Hin [Ho Hn]. apply (Hnone e Hin). destruct Hk. split; congruence.
Qed.
End table.

End SourceEnvironmentTables.
