(* ===== verification/SourceEnvironmentInit.v ===== *)
(** * The construction of a source interface refines a construction on lists

    [export_facts] says, on lists of entries and without hashing, what a Source exports and when
    its packet is refused; the two constructions of [SourceEnvironment] refine it. *)

From S2P Require Import Prelude Probing IdentitySpace SourceFacts SourceEnvironment SourceEnvironmentTables.

Local Open Scope N_scope.

Module SourceEnvironmentInit.

Import Probing SourceFacts SourceEnvironment SourceEnvironmentTables.

#[local] Existing Instance IdentitySpace.identity_kind_eq_dec.
#[local] Existing Instances type_slot_slot object_slot_slot member_slot_slot.

(** ** Refinement of results

    Two computations both end with related values, or both refuse with the same status. *)

Inductive refines {A B} (R : A → B → Prop) : result A → result B → Prop :=
| refines_done a b : R a b → refines R (Done a) (Done b)
| refines_refused s : refines R (Refused s) (Refused s).

Lemma refines_bind {A B A' B'} (R : A → B → Prop) (R' : A' → B' → Prop) r r' k k' :
  refines R r r' → (∀ a b, R a b → refines R' (k a) (k' b)) → refines R' (bind r k) (bind r' k').
Proof. intros [a b Hab|s] Hk; cbn; [by apply Hk | constructor]. Qed.

Lemma refines_weaken {A B} (R R' : A → B → Prop) r r' : (∀ a b, R a b → R' a b) → refines R r r' → refines R' r r'.
Proof. intros Hw [a b Hab|s]; constructor. by apply Hw. Qed.

Lemma bind_refuse {A B} (c : bool) s (r : result A) (k : A → result B) :
  bind (refuse c with s ;; r) k = (refuse c with s ;; bind r k).
Proof. by destruct c. Qed.

Lemma bind_done {A} (r : result A) : bind r Done = r.
Proof. by destruct r. Qed.

Lemma bind_bind {A B C} (r : result A) (k : A → result B) (k' : B → result C) :
  bind (bind r k) k' = bind r (λ x, bind (k x) k').
Proof. by destruct r. Qed.

Lemma refines_refuse {A B} (R : A → B → Prop) (c c' : bool) s r r' :
  c = c' → (c' = false → refines R r r') → refines R (refuse c with s ;; r) (refuse c' with s ;; r').
Proof. intros -> Hr. destruct c'; [constructor | by apply Hr]. Qed.

(** A loop, each turn using some of a budget. *)
Lemma refines_for_each {X A B} (weight : X → N) (R : N → A → B → Prop) (body : X → A → result A) (body' : X → B → result B) items :
  (∀ x n a b, x ∈ items → R (weight x + n) a b → refines (R n) (body x a) (body' x b)) →
  ∀ n a b, R (sumN weight items + n) a b → refines (R n) (for_each body items a) (for_each body' items b).
Proof.
  induction items as [|x items IH]; intros Hb n a b Hr; cbn [for_each sumN] in *; [by constructor|].
  eapply refines_bind.
  - apply (Hb x (sumN weight items + n)); [left|]. by rewrite N.add_assoc.
  - intros a' b' Hr'. apply IH; [|done]. intros y m a'' b'' Hy. apply Hb. by right.
Qed.

(** ** The construction on lists *)

Definition find_entry {T} `{Slot T} (owner name : N) (l : list T) : option T := List.find (same_binding owner name) l.

Section abstract.
Context `{!identity_view} (facts : source_facts).

Definition declare_entry {T} `{Slot T} (value : T) (present : T → result (list T)) (l : list T) : result (list T) :=
    match find_entry (slot_owner value) (slot_name value) l with
    | Some e => present e
    | None => Done (l ++ [value])
    end.

(** An identity of a kind, with a parent and a name. *)
Definition anonymous (kind : IdentitySpace.identity_kind) (identity : N) : bool :=
    not_of_kind kind identity || negb (ref_valid (view_parent identity)) || (view_name identity =? 0).

Definition type_entry (identity : N) : source_interface_type_slot :=
    TypeSlot (view_parent identity) (view_name identity) identity.
Definition object_entry (o : source_object_fact) : source_interface_object_slot :=
    ObjectSlot (view_parent (object_identity o)) (view_name (object_identity o)) (object_identity o) (named_type_of o).

(** A type may be declared again; another type of the same scope and name is a conflict. *)
Definition export_type (identity : N) (l : list source_interface_type_slot) : result (list source_interface_type_slot) :=
    refuse anonymous IdentitySpace.type_kind identity with invalid_argument ;;
    declare_entry (type_entry identity)
      (λ e, if type_identity e =? identity then Done l else Refused semantic_conflict) l.

Definition export_object (o : source_object_fact) (l : list source_interface_object_slot) :
      result (list source_interface_object_slot) :=
    refuse anonymous IdentitySpace.object_kind (object_identity o) with invalid_argument ;;
    declare_entry (object_entry o)
      (λ e, if negb (slot_identity e =? object_identity o) || negb (slot_named_type e =? named_type_of o)
            then Refused semantic_conflict else Done l) l.

Definition export_member (type : N) (m : source_member_fact) (st : N * list source_interface_member_slot) :
      result (N * list source_interface_member_slot) :=
    refuse member_name m =? 0 with invalid_argument ;;
    do! l := declare_entry (MemberSlot type (member_name m) st.1) (λ _, Refused semantic_conflict) st.2 in
    Done (st.1 + 1, l).

Definition export_members (ranges_checked : bool) (r : source_record_fact) (l : list source_interface_member_slot) :
      result (list source_interface_member_slot) :=
    if negb (record_declared r =? kind_definition) then Done l else
    refuse not_of_kind IdentitySpace.type_kind (record_identity r) ||
        bad_range (record_members r) (size (members facts)) ||
        (ranges_checked && (bad_range (record_bases r) (size (bases facts)) ||
                            bad_range (record_methods r) (size (methods facts))))
      with invalid_argument ;;
    do! st := for_each (export_member (record_identity r)) (section (record_members r) (members facts)) (0, l) in
    Done st.2.

Record exports : Set := Exports {
    exported_types : list source_interface_type_slot;
    exported_objects : list source_interface_object_slot;
    exported_members : list source_interface_member_slot }.

Definition declared_types : list N := (record_identity <$> records facts) ++ (enum_identity <$> enums facts).

Definition export_facts (ranges_checked : bool) : result exports :=
    do! types := for_each export_type declared_types [] in
    do! object_list := for_each export_object (objects facts) [] in
    do! member_list := for_each (export_members ranges_checked) (records facts) [] in
    Done (Exports types object_list member_list).
End abstract.

(** ** Tables under construction *)

Section building.
Context {T : Type} `{HS : Slot T}.

(** [t] is the table of [l], and has room for [n] more entries. *)
Record builds (retain : bool) (n : N) (t : table T) (l : list T) : Prop := {
    builds_holds : holds (slots t) l;
    builds_inserted : inserted t = size l;
    builds_compact : compact t = if retain then l else [];
    builds_room : size l + n < size (slots t) }.

Lemma builds_less retain n m t l : builds retain n t l → m <= n → builds retain m t l.
Proof. intros [] Hm. split; [done..|]. lia. Qed.

Lemma builds_empty retain n : capacity_for n ≠ 0 → builds retain n (empty_table (capacity_for n)) [].
Proof.
    intros [Hp Hn]%capacity_for_spec. unfold empty_table. generalize dependent (capacity_for n). intros c Hp Hn.
    split; cbn [slots inserted compact]; [by apply holds_empty | done | by destruct retain|].
    unfold size. rewrite length_replicate. cbn [length]. lia.
Qed.

Lemma find_entry_Some owner name (l : list T) e : find_entry owner name l = Some e → e ∈ l ∧ has_key owner name e.
Proof. intros [Hin Hb]%List.find_some. rewrite list_elem_of_In. split; [done|]. by apply same_binding_iff. Qed.

Lemma find_entry_None owner name (l : list T) : find_entry owner name l = None ↔ ∀ e, e ∈ l → ¬ has_key owner name e.
Proof.
    split.
    - intros Hf e Hin Hk%same_binding_iff. apply list_elem_of_In in Hin.
      by rewrite (List.find_none _ _ Hf e Hin) in Hk.
    - intros Hn. destruct (find_entry owner name l) as [e|] eqn:E; [|done].
      apply find_entry_Some in E as [Hin Hk]. by destruct (Hn e).
Qed.

Lemma holds_find slots l owner name : holds slots l → find_slot slots owner name = find_entry owner name l.
Proof.
    intros Hh. destruct (find_slot slots owner name) as [e|] eqn:E.
    - destruct (find_entry owner name l) as [f|] eqn:Ef.
      + apply find_entry_Some in Ef. apply (find_slot_spec slots l) in Ef; [|done]. congruence.
      + apply (find_slot_spec _ l) in E as [Hin Hk]; [|done]. rewrite find_entry_None in Ef. by destruct (Ef e).
    - symmetry. apply find_entry_None. by apply (find_slot_None slots).
Qed.

(** Entering a value in the table is declaring it in the list. *)
Lemma enter_refines retain n (value : T) present present' t l : builds retain (1 + n) t l → slot_taken value = true →
    (∀ e, e ∈ l → has_key (slot_owner value) (slot_name value) e →
      refines (λ t' l', builds retain n t' l' ∧ l' = l) (present e) (present' e)) →
    refines (λ x l', builds retain n x.2 l' ∧ l' = if x.1 : bool then l ++ [value] else l)
      (enter retain value present t) (declare_entry value present' l).
Proof.
    intros [Hh Hi Hc Hr] Hv Hp. unfold enter, declare_entry.
    assert (Hlen : (length l < length (slots t))%nat) by (unfold size in Hr; lia).
    destruct (seek_place_spec (slots t) l (slot_owner value) (slot_name value) Hh Hlen)
      as [(e & Hin & Hk & ->)|(Hn & p & -> & Hnew)].
    - pose proof (proj2 (find_slot_spec _ _ _ _ e Hh) (conj Hin Hk)) as Hf. rewrite (holds_find _ l) in Hf by done.
      rewrite Hf. destruct (Hp e Hin Hk) as [t' l' Hb|s]; constructor. done.
    - rewrite (proj2 (find_entry_None _ _ l) Hn). constructor. cbn [fst snd]. split; [|done].
      split; cbn [slots inserted compact].
      + apply Hnew; done.
      + rewrite Hi. unfold size. rewrite length_app. cbn. lia.
      + rewrite Hc. by destruct retain.
      + unfold size in *. rewrite length_insert, length_app. cbn. lia.
Qed.
End building.

(** ** The loops *)

Section loops.
Context `{!identity_view} (facts : source_facts) (retain : bool).

Definition types_built (n : N) (st : list N * table source_interface_type_slot)
      (l : list source_interface_type_slot) : Prop :=
    builds retain n st.2 l ∧ st.1 = type_identity <$> l.

Lemma insert_type_refines n identity st l : types_built (1 + n) st l →
    refines (types_built n) (insert_type retain identity st) (export_type identity l).
Proof.
    intros [Hb Ht]. unfold insert_type, export_type, anonymous.
    destruct (not_of_kind _ identity) eqn:Hk; [constructor|]. cbn [orb].
    apply refines_refuse; [done|]. intros _.
    assert (Hv : ref_valid identity = true).
    { unfold not_of_kind in Hk. apply orb_false_iff in Hk as [Hk _]. by apply negb_false_iff in Hk. }
    rewrite <-(bind_done (declare_entry _ _ l)).
    eapply refines_bind; [apply (enter_refines retain n (type_entry identity) _ _ _ _ Hb Hv)|].
    - cbn. intros e Hin _. destruct (type_identity e =? identity); constructor.
      split; [|done]. eapply builds_less; [done|lia].
    - intros [entered t] l'. cbn [fst snd]. intros [Hb' ->]. constructor. split; [done|]. cbn [fst].
      rewrite Ht. destruct entered; [by rewrite fmap_app | done].
Qed.

Lemma insert_object_refines n o t l : builds retain (1 + n) t l →
    refines (builds retain n) (insert_object retain o t) (export_object o l).
Proof.
    intros Hb. unfold insert_object, export_object, anonymous.
    destruct (not_of_kind _ (object_identity o)) eqn:Hk; [constructor|]. cbn [orb].
    apply refines_refuse; [done|]. intros _.
    assert (Hv : ref_valid (object_identity o) = true).
    { unfold not_of_kind in Hk. apply orb_false_iff in Hk as [Hk _]. by apply negb_false_iff in Hk. }
    rewrite <-(bind_done (declare_entry _ _ l)).
    eapply refines_bind; [apply (enter_refines retain n (object_entry o) _ _ _ _ Hb Hv)|].
    - cbn. intros e Hin _. destruct (negb _ || negb _); constructor.
      split; [|done]. eapply builds_less; [done|lia].
    - intros [entered t'] l'. cbn [fst snd]. intros [Hb' _]. by constructor.
Qed.

Definition members_built (n : N) (st : N * table source_interface_member_slot)
      (st' : N * list source_interface_member_slot) : Prop :=
    st.1 = st'.1 ∧ builds retain n st.2 st'.2.

Lemma insert_member_refines n type m st st' : ref_valid type = true → members_built (1 + n) st st' →
    refines (members_built n) (insert_member retain type m st) (export_member type m st').
Proof.
    destruct st as [index t], st' as [index' l]. intros Hv [[= ->] Hb]. cbn [fst snd] in *.
    unfold insert_member, export_member. apply refines_refuse; [done|]. intros _. cbn [fst snd].
    eapply refines_bind; [apply (enter_refines retain n (MemberSlot type (member_name m) index') _ _ _ _ Hb Hv)|].
    - constructor.
    - intros [entered t'] l'. cbn [fst snd]. intros [Hb' _]. by constructor.
Qed.

Definition record_weight (r : source_record_fact) : N :=
    if record_declared r =? kind_definition then count (record_members r) else 0.

Lemma sumN_ones {A} (l : list A) : sumN (λ _, 1) l = size l.
Proof. unfold size. induction l as [|x l IH]; cbn [sumN length]; lia. Qed.

Lemma insert_members_refines checked n r t l : builds retain (record_weight r + n) t l →
    refines (builds retain n) (insert_members facts retain checked r t) (export_members facts checked r l).
Proof.
    unfold record_weight, insert_members, export_members. intros Hb.
    destruct (record_declared r =? kind_definition); cbn [negb] in *; [|constructor; done].
    apply refines_refuse; [done|]. intros Hk.
    assert (Hv : ref_valid (record_identity r) = true).
    { apply orb_false_iff in Hk as [[Hk _]%orb_false_iff _]. unfold not_of_kind in Hk.
      apply orb_false_iff in Hk as [Hk _]. by apply negb_false_iff in Hk. }
    eapply refines_bind.
    - apply refines_for_each with (weight := λ _, 1) (R := members_built) (n := n); [intros; by apply insert_member_refines|].
      split; [done|]. cbn [snd]. eapply builds_less; [exact Hb|]. rewrite sumN_ones. unfold section, size.
      pose proof (length_take_le (drop (N.to_nat (begin (record_members r))) (members facts)) (N.to_nat (count (record_members r)))).
      rewrite length_take. lia.
    - intros [i t'] [i' l'] [_ Hb']. constructor. eapply builds_less; [exact Hb'|lia].
Qed.
End loops.

(** ** The two constructions *)

(** The table [slots] shows the entries [l]; an interface in pages has no slots at all when it has
    no entries. *)
Definition shows {T} `{Slot T} (slots l : list T) : Prop := holds slots l ∨ (slots = [] ∧ l = []).

Lemma shows_find {T} `{Slot T} slots l owner name : shows slots l → find_slot slots owner name = find_entry owner name l.
Proof. intros [Hh|[-> ->]]; [by apply holds_find | done]. Qed.

Record exposes (view : data_view) (ex : exports) : Prop := {
  exposes_local : local_types_of view = type_identity <$> exported_types ex;
  exposes_types : shows (type_slots_of view) (exported_types ex);
  exposes_objects : shows (object_slots_of view) (exported_objects ex);
  exposes_members : shows (member_slots_of view) (exported_members ex) }.

(** A Source whose tables can be sized. *)
Definition sizeable (facts : source_facts) : Prop :=
  size (records facts) + size (enums facts) < 2 ^ 62 ∧ size (objects facts) < 2 ^ 62 ∧ sum_counts (records facts) < 2 ^ 62.

Section construction.
Context `{!identity_view} (facts : source_facts) (Hsize : sizeable facts).

Lemma builds_done {T} `{Slot T} retain n t (l : list T) : builds retain n t l → holds (slots t) l.
Proof. by intros []. Qed.

(** What the owned construction leaves. *)
Definition owned_interface (old : source_interface) (imports : list N) (retain : bool) (i : source_interface) (ex : exports) : Prop :=
    exposes (own_data i) ex ∧ imported_interfaces i = imports ∧
    (persistence_type_slots i = if retain then exported_types ex else []) ∧
    (persistence_object_slots i = if retain then exported_objects ex else []) ∧
    (persistence_member_slots i = if retain then exported_members ex else []) ∧
    counts i = PersistenceCounts (size (exported_types ex)) (size (exported_types ex)) (size (exported_objects ex))
      (size (exported_members ex)) ∧
    persistence_compact_state i = retain ∧ persistence_externalized_state i = false ∧
    runtime_externalized_state i = runtime_externalized_state old ∧
    external_runtime_data i = external_runtime_data old ∧
    external_runtime_imports i = external_runtime_imports old.

Lemma sum_weights : sumN record_weight (records facts) = sum_counts (records facts).
Proof. apply sumN_ext. done. Qed.

Lemma for_each_app {X A} (body : X → A → result A) l k a :
    for_each body (l ++ k) a = do! b := for_each body l a in for_each body k b.
Proof.
    revert a. induction l as [|x l IH]; intros a; cbn [for_each app]; [done|].
    rewrite bind_bind. destruct (body x a); cbn [bind]; [apply IH | done..].
Qed.

Lemma initialize_owned_refines imports retain old :
    refines (owned_interface old imports retain) (initialize_owned facts true imports retain old)
      (do! ex := export_facts facts true in do! _ := copy_imports imports in Done ex).
Proof.
    destruct Hsize as (H1 & H2 & H3). unfold initialize_owned. cbv zeta.
    apply capacity_for_pos in H1, H2, H3.
    rewrite (proj2 (N.eqb_neq _ _) H1), (proj2 (N.eqb_neq _ _) H2), (proj2 (N.eqb_neq _ _) H3). cbn [orb negb].
    unfold export_facts, declared_types. rewrite !bind_bind, <-bind_bind with (k := λ ts, for_each (insert_type retain) (enum_identity <$> enums facts) ts).
    rewrite <-for_each_app. eapply refines_bind.
    { apply refines_for_each with (weight := λ _, 1) (R := types_built retain) (n := 0).
      - intros. by apply insert_type_refines.
      - split; [|done]. eapply builds_less; [by apply builds_empty|].
        rewrite sumN_ones. unfold size. rewrite length_app, !length_fmap. lia. }
    intros [types type_table] l [Hb1 Ht]. cbn [fst snd] in *. rewrite !bind_bind. eapply refines_bind.
    { apply refines_for_each with (weight := λ _, 1) (R := builds retain) (n := 0).
      - intros. by apply insert_object_refines.
      - eapply builds_less; [by apply builds_empty|]. rewrite sumN_ones. lia. }
    intros object_table lo Hb2. rewrite !bind_bind. eapply refines_bind.
    { apply refines_for_each with (weight := record_weight) (R := builds retain) (n := 0).
      - intros. by apply insert_members_refines.
      - eapply builds_less; [by apply builds_empty|]. rewrite sum_weights. lia. }
    intros member_table lm Hb3. cbn [bind]. unfold copy_imports. destruct (existsb _ imports); constructor.
    destruct Hb1 as [Hh1 Hi1 Hc1 _], Hb2 as [Hh2 Hi2 Hc2 _], Hb3 as [Hh3 Hi3 Hc3 _].
    unfold owned_interface. cbn. rewrite Hi1, Hi2, Hi3, Hc1, Hc2, Hc3, Ht. split_and!; try done.
    - split; cbn; [done | by left..].
    - unfold size. by rewrite length_fmap.
Qed.
(** The construction in pages refuses a type that is declared twice. *)
Definition export_facts_external : result exports :=
    do! types := for_each export_type (declared_types facts) [] in
    refuse negb (size types =? size (declared_types facts)) with initialization_failed ;;
    do! object_list := for_each export_object (objects facts) [] in
    do! member_list := (if sum_counts (records facts) =? 0 then Done []
      else for_each (export_members facts false) (records facts) []) in
    Done (Exports types object_list member_list).

Definition external_interface (old : source_interface) (imports : list N) (i : source_interface) (ex : exports) : Prop :=
    runtime_externalized_state i = true ∧ exposes (external_runtime_data i) ex ∧
    external_runtime_imports i = imports ∧ own_data i = own_data old ∧
    persistence_externalized_state i = false ∧ compact_persistence_available i = false ∧
    counts i = PersistenceCounts (size (exported_types ex)) (size (exported_types ex)) (size (exported_objects ex))
      (size (exported_members ex)).

Definition types_built_external (room n : N) (st : list N * table source_interface_type_slot)
      (l : list source_interface_type_slot) : Prop := types_built false n st l ∧ size l + n <= room.

Lemma insert_type_external_refines room n identity st l : types_built_external room (1 + n) st l →
    refines (types_built_external room n) (insert_type_external room identity st) (export_type identity l).
Proof.
    intros [[Hb Ht] Hroom]. unfold insert_type_external.
    assert (Hnil : bool_decide (slots st.2 = []) = false).
    { apply bool_decide_eq_false. intros E. pose proof (builds_room _ _ _ _ Hb) as Hr. rewrite E in Hr. unfold size in Hr. cbn in Hr. lia. }
    assert (Hlt : (room <=? size st.1) = false).
    { apply N.leb_gt. rewrite Ht. unfold size in *. rewrite length_fmap. lia. }
    rewrite Hnil, Hlt, !orb_false_r.
    pose proof (insert_type_refines false n identity st l (conj Hb Ht)) as Hr.
    assert (Hg : ∀ l', export_type identity l = Done l' → size l' <= size l + 1).
    { unfold export_type, declare_entry. intros l'. destruct (anonymous _ _); [done|].
      destruct (find_entry _ _ l) as [e|]; [destruct (_ =? _)|]; intros [= <-]; [lia|].
      unfold size. rewrite length_app. cbn. lia. }
    destruct (not_of_kind _ identity) eqn:Hk.
    { unfold export_type, anonymous. rewrite Hk. constructor. }
    destruct Hr as [a b Hab|s] eqn:E; constructor. split; [done|].
    specialize (Hg b eq_refl). lia.
Qed.

Lemma external_capacity_zero n : n < 2 ^ 62 → (negb (n =? 0) && (external_capacity n =? 0)) = false ∧
    (external_capacity n =? 0) = (n =? 0).
Proof.
    intros Hn. unfold external_capacity. destruct (N.eqb_spec n 0) as [->|Hne]; [done|].
    apply capacity_for_pos, N.eqb_neq in Hn. by rewrite Hn.
Qed.

Lemma builds_external {T} `{Slot T} n : n < 2 ^ 62 → n ≠ 0 →
    builds false n (empty_table (T := T) (external_capacity n)) [].
Proof.
    intros Hn Hne. unfold external_capacity. rewrite (proj2 (N.eqb_neq n 0) Hne). by apply builds_empty, capacity_for_pos.
Qed.
(** A finished table in pages. *)
Definition shown {T} `{Slot T} (t : table T) (l : list T) : Prop := shows (slots t) l ∧ inserted t = size l.

Lemma shown_empty {T} `{Slot T} : shown (T := T) (empty_table 0) [].
Proof. split; [by right | done]. Qed.

Lemma builds_shown {T} `{Slot T} retain n t (l : list T) : builds retain n t l → shown t l.
Proof. intros []. split; [by left | done]. Qed.

Lemma external_types_refine :
    let room := size (records facts) + size (enums facts) in
    refines (λ st l, shown st.2 l ∧ st.1 = type_identity <$> l)
      (for_each (insert_type_external room) (declared_types facts) ([], empty_table (external_capacity room)))
      (for_each export_type (declared_types facts) []).
Proof.
    intros room. destruct Hsize as (H1 & _ & _).
    assert (Hroom : size (declared_types facts) = room).
    { unfold declared_types, room, size. rewrite length_app, !length_fmap. lia. }
    destruct (N.eq_dec room 0) as [E|E].
    - assert (declared_types facts = []) as ->.
      { destruct (declared_types facts); [done|]. unfold size in Hroom. cbn in Hroom. lia. }
      rewrite E. constructor. split; [apply shown_empty | done].
    - eapply refines_weaken; [|apply refines_for_each with (weight := λ _, 1) (R := types_built_external room) (n := 0)].
      + intros st l [[Hb Ht] _]. split; [by eapply builds_shown | done].
      + intros. by apply insert_type_external_refines.
      + rewrite sumN_ones, Hroom. split; [|unfold size; cbn; lia]. split; [|done].
        eapply builds_less; [by apply builds_external|]. lia.
Qed.

Lemma initialize_external_refines imports old :
    runtime_externalized_state old = false → persistence_externalized_state old = false →
    refines (external_interface old imports) (initialize_external facts ok imports old)
      (do! ex := export_facts_external in do! _ := copy_imports imports in Done ex).
Proof.
    intros Hr Hp. pose proof Hsize as (H1 & H2 & H3). unfold initialize_external. cbv zeta. rewrite Hr, Hp. cbn [orb].
    pose proof (external_capacity_zero _ H1) as [-> _]. pose proof (external_capacity_zero _ H2) as [-> Z2].
    pose proof (external_capacity_zero _ H3) as [-> Z3]. rewrite Z2, Z3. change (status_ok ok) with true. cbn [orb negb].
    unfold export_facts_external.
    rewrite !bind_bind, <-bind_bind with (k := λ ts, for_each (insert_type_external _) (enum_identity <$> enums facts) ts).
    rewrite <-for_each_app. eapply refines_bind; [apply external_types_refine|].
    intros [types type_table] l [[Hs1 Hi1] Ht]. cbn [fst snd] in *.
    rewrite bind_refuse. apply refines_refuse.
    { rewrite Ht. unfold declared_types, size. rewrite length_app, !length_fmap. do 2 f_equal. lia. }
    intros _. rewrite !bind_bind. eapply refines_bind.
    { instantiate (1 := shown). destruct (N.eqb_spec (size (objects facts)) 0) as [E|E].
      - destruct (objects facts); [constructor; apply shown_empty | unfold size in E; cbn in E; lia].
      - eapply refines_weaken; [|apply refines_for_each with (weight := λ _, 1) (R := builds false) (n := 0)].
        + intros t l'. apply builds_shown.
        + intros. by apply insert_object_refines.
        + eapply builds_less; [by apply builds_external|]. rewrite sumN_ones. lia. }
    intros object_table lo [Hs2 Hi2]. rewrite !bind_bind. eapply refines_bind.
    { instantiate (1 := shown). destruct (N.eqb_spec (sum_counts (records facts)) 0) as [E|E].
      - constructor. apply shown_empty.
      - eapply refines_weaken; [|apply refines_for_each with (weight := record_weight) (R := builds false) (n := 0)].
        + intros t l'. apply builds_shown.
        + intros. by apply insert_members_refines.
        + eapply builds_less; [by apply builds_external|]. rewrite sum_weights. lia. }
    intros member_table lm [Hs3 Hi3]. cbn [bind]. unfold copy_imports. destruct (existsb _ imports); constructor.
    unfold external_interface, compact_persistence_available. cbn. rewrite Hi1, Hi2, Hi3, Ht.
    split_and!; try done. unfold size. by rewrite length_fmap.
Qed.
End construction.

(** ** What the construction on lists exports *)

(** Entries of the same key are equal. *)
Definition keyed {T} `{Slot T} (l : list T) : Prop := ∀ e f, e ∈ l → f ∈ l → same_key e f → e = f.

Section declare_loop.
Context {X T : Type} `{HS : Slot T} (entry : X → T) (bad : X → bool) (agrees : T → X → bool).
Context (body : X → list T → result (list T)).
Context (Hbody : ∀ x l, body x l = (refuse bad x with invalid_argument ;;
    declare_entry (entry x) (λ e, if agrees e x then Done l else Refused semantic_conflict) l)).
Context (Hagrees : ∀ e x, same_key e (entry x) → agrees e x = true ↔ e = entry x).

Lemma declare_sound items : ∀ l l', for_each body items l = Done l' →
    Forall (λ x, bad x = false) items ∧ (∀ e, e ∈ l' ↔ e ∈ l ∨ ∃ x, x ∈ items ∧ e = entry x) ∧
    (keyed l → keyed l') ∧ (NoDup l → NoDup l').
Proof.
    induction items as [|x items IH]; intros l l'; cbn [for_each].
    { intros [= <-]. split_and!; [constructor | set_solver | done | done]. }
    rewrite Hbody. destruct (bad x) eqn:Hx; [done|]. unfold declare_entry.
    destruct (find_entry (slot_owner (entry x)) (slot_name (entry x)) l) as [e|] eqn:Ef.
    - apply find_entry_Some in Ef as [Hin Hk]. destruct (agrees e x) eqn:Ha; cbn [bind]; [|done].
      apply Hagrees in Ha as ->; [|by destruct Hk]. intros (Hg & He & Hk' & Hn)%IH.
      split_and!; [by constructor| |done|done]. intros f. rewrite He. set_solver.
    - cbn [bind]. intros (Hg & He & Hk' & Hn)%IH. rewrite find_entry_None in Ef.
      split_and!; [by constructor | intros f; rewrite He; set_solver | |].
      + intros Hl. apply Hk'. intros f g. rewrite !elem_of_app, !list_elem_of_singleton.
        intros [Hf| ->] [Hg'| ->] [Ho Hs]; [by apply Hl | | |done]; exfalso.
        * by apply (Ef f).
        * by apply (Ef g).
      + intros Hl. apply Hn, NoDup_app. split_and!; [done| |apply NoDup_singleton].
        intros f Hf ->%list_elem_of_singleton. by apply (Ef (entry x)).
Qed.

Lemma declare_size items : ∀ l l', for_each body items l = Done l' → (length l' <= length l + length items)%nat.
Proof.
    induction items as [|x items IH]; intros l l'; cbn [for_each length]; [intros [= <-]; lia|].
    rewrite Hbody. destruct (bad x); [done|]. unfold declare_entry. destruct (find_entry _ _ l) as [e|].
    - destruct (agrees e x); cbn [bind]; [|done]. intros H%IH. lia.
    - cbn [bind]. intros H%IH. rewrite length_app in H. cbn in H. lia.
Qed.

Lemma declare_complete items : ∀ l, Forall (λ x, bad x = false) items → keyed (l ++ (entry <$> items)) →
    ∃ l', for_each body items l = Done l'.
Proof.
    induction items as [|x items IH]; intros l Hg Hk; cbn [for_each]; [by eexists|].
    apply Forall_cons in Hg as [Hx Hg]. rewrite Hbody, Hx. unfold declare_entry.
    destruct (find_entry (slot_owner (entry x)) (slot_name (entry x)) l) as [e|] eqn:Ef.
    - apply find_entry_Some in Ef as [Hin Hke].
      assert (e = entry x) as He by (apply Hk; [set_solver | set_solver | by destruct Hke]).
      rewrite (proj2 (Hagrees e x ltac:(by destruct Hke)) He). cbn [bind]. apply IH; [done|].
      intros f g Hf Hg'. apply Hk; set_solver.
    - cbn [bind]. apply IH; [done|]. by rewrite <-app_assoc.
Qed.
End declare_loop.

Section exported.
Context `{!identity_view} (facts : source_facts).

Lemma export_types_body identity l : export_type identity l =
    (refuse anonymous IdentitySpace.type_kind identity with invalid_argument ;;
     declare_entry (type_entry identity)
       (λ e, if type_identity e =? identity then Done l else Refused semantic_conflict) l).
Proof. done. Qed.

Lemma export_types_agree e identity : same_key e (type_entry identity) →
    (type_identity e =? identity) = true ↔ e = type_entry identity.
Proof. intros [Ho Hn]. rewrite N.eqb_eq. destruct e. cbn in *. unfold type_entry. split; [by intros -> ; subst | by intros [=]]. Qed.

Definition object_agrees (e : source_interface_object_slot) (o : source_object_fact) : bool :=
    (slot_identity e =? object_identity o) && (slot_named_type e =? named_type_of o).

Lemma export_objects_body o l : export_object o l =
    (refuse anonymous IdentitySpace.object_kind (object_identity o) with invalid_argument ;;
     declare_entry (object_entry o) (λ e, if object_agrees e o then Done l else Refused semantic_conflict) l).
Proof.
    unfold export_object, object_agrees, declare_entry. destruct (anonymous _ _); [done|].
    destruct (find_entry _ _ l) as [e|]; [|done].
    by destruct (slot_identity e =? object_identity o), (slot_named_type e =? named_type_of o).
Qed.

Lemma export_objects_agree e o : same_key e (object_entry o) → object_agrees e o = true ↔ e = object_entry o.
Proof.
    intros [Ho Hn]. unfold object_agrees. rewrite andb_true_iff, !N.eqb_eq. destruct e. cbn in *.
    unfold object_entry. split; [by intros [-> ->]; subst | by intros [=]].
Qed.

(** The entries of the members of one definition, numbered from 0. *)
Definition numbered (type first : N) (ms : list source_member_fact) : list source_interface_member_slot :=
    imap (λ j m, MemberSlot type (member_name m) (first + N.of_nat j)) ms.

Definition member_entries (r : source_record_fact) : list source_interface_member_slot :=
    if record_declared r =? kind_definition
    then numbered (record_identity r) 0 (section (record_members r) (members facts)) else [].

Definition keys {T} `{Slot T} (l : list T) : list (N * N) := (λ e, (slot_owner e, slot_name e)) <$> l.

Lemma elem_of_keys {T} `{Slot T} (l : list T) owner name : (owner, name) ∈ keys l ↔ ∃ e, e ∈ l ∧ has_key owner name e.
Proof.
    unfold keys, has_key. rewrite list_elem_of_fmap. split.
    - intros (e & [= -> ->] & Hin). eauto.
    - intros (e & Hin & <- & <-). eauto.
Qed.

Lemma numbered_cons type first m ms :
    numbered type first (m :: ms) = MemberSlot type (member_name m) first :: numbered type (first + 1) ms.
Proof.
    unfold numbered. cbn [imap]. rewrite N.add_0_r. f_equal. apply imap_ext. intros j x _. cbn. f_equal. lia.
Qed.

Lemma export_member_loop type ms : ∀ i l,
    (Forall (λ m, member_name m ≠ 0) ms ∧ (NoDup (keys l) → NoDup (keys (l ++ numbered type i ms))) ∧
     for_each (export_member type) ms (i, l) = Done (i + size ms, l ++ numbered type i ms)) ∨
    (∃ s, for_each (export_member type) ms (i, l) = Refused s ∧
      ¬ (Forall (λ m, member_name m ≠ 0) ms ∧ NoDup (keys (l ++ numbered type i ms)))).
Proof.
    induction ms as [|m ms IH]; intros i l; cbn [for_each].
    { left. unfold numbered, size. cbn. rewrite app_nil_r, N.add_0_r. done. }
    rewrite numbered_cons. unfold export_member at 1 3. destruct (N.eqb_spec (member_name m) 0) as [E|E].
    { right. exists invalid_argument. split; [done|]. intros [[? _]%Forall_cons _]. done. }
    unfold declare_entry. cbn [fst snd slot_owner slot_name member_slot_slot slot_type slot_member_name].
    destruct (find_entry type (member_name m) l) as [e|] eqn:Ef.
    - right. exists semantic_conflict. split; [done|]. apply find_entry_Some in Ef as [Hin Hk].
      intros [_ Hnd]. unfold keys in Hnd. rewrite fmap_app in Hnd. apply NoDup_app in Hnd as (_ & Hd & _).
      apply (Hd (type, member_name m)); [apply elem_of_keys; eauto | by left].
    - cbn [bind]. specialize (IH (i + 1) (l ++ [MemberSlot type (member_name m) i])).
      rewrite <-app_assoc in IH. cbn [app] in IH. destruct IH as [(Hf & Hn & ->)|(s & -> & Hno)].
      + left. split_and!; [by constructor| |].
        * intros Hnd. apply Hn. unfold keys. rewrite fmap_app. apply NoDup_app. split_and!; [done| |apply NoDup_singleton].
          intros [o n] Hin [= -> ->]%list_elem_of_singleton. apply elem_of_keys in Hin as (e & Hin & Hk).
          rewrite find_entry_None in Ef. by apply (Ef e).
        * do 2 f_equal. unfold size. cbn [length]. lia.
      + right. exists s. split; [done|]. intros [[_ Hf]%Forall_cons Hnd]. apply Hno. done.
Qed.
End exported.

Section described.
Context `{!identity_view} (facts : source_facts).

Definition all_member_entries : list source_interface_member_slot := records facts ≫= member_entries facts.

Lemma export_members_loop checked rs : ∀ l l', for_each (export_members facts checked) rs l = Done l' →
    l' = l ++ (rs ≫= member_entries facts) ∧ (NoDup (keys l) → NoDup (keys l')) ∧
    ∀ e, e ∈ rs ≫= member_entries facts → slot_member_name e ≠ 0 ∧ ref_valid (slot_type e) = true.
Proof.
    induction rs as [|r rs IH]; intros l l'; cbn [for_each].
    { intros [= <-]. cbn. rewrite app_nil_r. split_and!; [done..|]. intros e He. by apply elem_of_nil in He. }
    rewrite bind_cons. unfold export_members at 1. unfold member_entries at 1 3.
    destruct (record_declared r =? kind_definition); cbn [negb]; [|cbn [bind app]; apply IH].
    destruct (_ || _) eqn:Hk; [done|].
    assert (Hv : ref_valid (record_identity r) = true).
    { apply orb_false_iff in Hk as [[Hk _]%orb_false_iff _]. unfold not_of_kind in Hk.
      apply orb_false_iff in Hk as [Hk _]. by apply negb_false_iff in Hk. }
    destruct (export_member_loop (record_identity r) (section (record_members r) (members facts)) 0 l)
      as [(Hf & Hn & ->)|(s & -> & _)]; [|done].
    cbn [bind snd]. intros (-> & Hn' & He)%IH. rewrite app_assoc. split_and!; [done|auto|].
    intros e [Hin|Hin]%elem_of_app; [|by apply He]. unfold numbered in Hin.
    apply list_elem_of_lookup in Hin as [j Hj]. rewrite list_lookup_imap in Hj.
    apply fmap_Some in Hj as (m & Hm & ->). cbn. split; [|done].
    rewrite Forall_forall in Hf. apply Hf. by eapply list_elem_of_lookup_2.
Qed.

Lemma member_entries_size : size all_member_entries <= sum_counts (records facts).
Proof.
    assert (Hone : ∀ r, (length (member_entries facts r) <= N.to_nat (record_weight r))%nat).
    { intros r. unfold member_entries, record_weight, numbered, section. destruct (record_declared r =? kind_definition); [|cbn; lia].
      rewrite length_imap, length_take. lia. }
    rewrite <-sum_weights. unfold all_member_entries, size. induction (records facts) as [|r rs IH]; [done|].
    rewrite bind_cons, length_app. cbn [sumN]. specialize (Hone r). lia.
Qed.

(** What a packet exports, when it is not refused. *)
Definition done_or {A} (d : A) (r : result A) : A := match r with Done a => a | _ => d end.
Definition exports_of : exports := Exports
    (done_or [] (for_each export_type (declared_types facts) []))
    (done_or [] (for_each export_object (objects facts) [])) all_member_entries.

(** The exports are the declarations of the packet, one entry a key. *)
Record described (ex : exports) : Prop := {
    described_types e : e ∈ exported_types ex ↔ ∃ identity, identity ∈ declared_types facts ∧ e = type_entry identity;
    described_objects e : e ∈ exported_objects ex ↔ ∃ o, o ∈ objects facts ∧ e = object_entry o;
    described_members : exported_members ex = all_member_entries;
    described_type_keys : keyed (exported_types ex);
    described_object_keys : keyed (exported_objects ex);
    described_member_keys : NoDup (keys (exported_members ex));
    described_distinct : NoDup (exported_types ex);
    described_distinct_objects : NoDup (exported_objects ex);
    described_sizes : size (exported_types ex) <= size (declared_types facts) ∧
      size (exported_objects ex) <= size (objects facts) ∧ size (exported_members ex) <= sum_counts (records facts);
    described_named_types : Forall (λ identity, anonymous IdentitySpace.type_kind identity = false) (declared_types facts);
    described_named_objects : Forall (λ o, anonymous IdentitySpace.object_kind (object_identity o) = false) (objects facts);
    described_named_members e : e ∈ exported_members ex → slot_member_name e ≠ 0 ∧ ref_valid (slot_type e) = true }.

Lemma described_of l lo : for_each export_type (declared_types facts) [] = Done l →
    for_each export_object (objects facts) [] = Done lo →
    NoDup (keys all_member_entries) →
    (∀ e, e ∈ all_member_entries → slot_member_name e ≠ 0 ∧ ref_valid (slot_type e) = true) →
    Exports l lo all_member_entries = exports_of ∧ described exports_of.
Proof.
    intros Hl Hlo Hm Hname. unfold exports_of. rewrite Hl, Hlo. split; [done|].
    destruct (declare_sound _ _ _ _ export_types_body export_types_agree _ _ _ Hl) as (G1 & E1 & K1 & N1).
    destruct (declare_sound _ _ _ _ export_objects_body export_objects_agree _ _ _ Hlo) as (G2 & E2 & K2 & N2).
    split; cbn [exported_types exported_objects exported_members done_or]; try done.
    - intros e. rewrite E1. set_solver.
    - intros e. rewrite E2. set_solver.
    - apply K1. intros e f He. by apply elem_of_nil in He.
    - apply K2. intros e f He. by apply elem_of_nil in He.
    - apply N1. constructor.
    - apply N2. constructor.
    - pose proof (declare_size _ _ _ _ export_types_body _ _ _ Hl) as S1.
      pose proof (declare_size _ _ _ _ export_objects_body _ _ _ Hlo) as S2. unfold size in *. cbn [length] in *.
      split_and!; [lia | lia | apply member_entries_size].
Qed.

Lemma export_facts_described checked ex : export_facts facts checked = Done ex → ex = exports_of ∧ described ex.
Proof.
    unfold export_facts. destruct (for_each export_type _ _) as [l|s|] eqn:E1; cbn [bind]; [|done..].
    destruct (for_each export_object _ _) as [lo|s|] eqn:E2; cbn [bind]; [|done..].
    destruct (for_each (export_members facts checked) _ _) as [lm|s|] eqn:E3; cbn [bind]; [|done..].
    intros [= <-]. apply export_members_loop in E3 as (-> & Hn & He). cbn [app] in *.
    destruct (described_of l lo E1 E2 (Hn (NoDup_nil_2)) He) as [Heq Hd]. unfold all_member_entries in Heq.
    rewrite Heq. done.
Qed.

Lemma no_members : sum_counts (records facts) = 0 → all_member_entries = [].
Proof.
    unfold all_member_entries, sum_counts, member_entries. induction (records facts) as [|r rs IH]; cbn [sumN]; [done|].
    intros Hs. rewrite bind_cons, IH by lia. destruct (record_declared r =? kind_definition); [|done].
    unfold section. replace (count (record_members r)) with 0 by lia. done.
Qed.

Lemma export_facts_external_described ex : export_facts_external facts = Done ex →
    ex = exports_of ∧ described ex ∧ size (exported_types ex) = size (declared_types facts).
Proof.
    unfold export_facts_external. destruct (for_each export_type _ _) as [l|s|] eqn:E1; cbn [bind]; [|done..].
    destruct (N.eqb_spec (size l) (size (declared_types facts))) as [Hs|]; cbn [negb]; [|done].
    destruct (for_each export_object _ _) as [lo|s|] eqn:E2; cbn [bind]; [|done..].
    assert (Hm : ∀ lm, (if sum_counts (records facts) =? 0 then Done []
        else for_each (export_members facts false) (records facts) []) = Done lm → lm = all_member_entries ∧
      NoDup (keys all_member_entries) ∧
      (∀ e, e ∈ all_member_entries → slot_member_name e ≠ 0 ∧ ref_valid (slot_type e) = true)).
    { intros lm. destruct (N.eqb_spec (sum_counts (records facts)) 0) as [E|E].
      - intros [= <-]. rewrite no_members by done. split_and!; [done | constructor | intros e He; by apply elem_of_nil in He].
      - intros (-> & Hn & He)%export_members_loop. split_and!; [done | by apply Hn, NoDup_nil_2 | done]. }
    destruct (if sum_counts (records facts) =? 0 then _ else _) as [lm|s|]; cbn [bind]; [|done..].
    intros [= <-]. destruct (Hm lm eq_refl) as (-> & Hn & He).
    destruct (described_of l lo E1 E2 Hn He) as [Heq Hd]. rewrite Heq. split_and!; [done|done|].
    unfold exports_of. by rewrite E1.
Qed.
End described.

(** ** Built interfaces *)

Section built.
Context `{!identity_view}.

(** [i] is a fresh interface initialized, in either way, from the facts and imports. *)
Definition built_from (facts : source_facts) (imports : list N) (i : source_interface) : Prop :=
    ∃ store retain, initialize facts true store imports retain new_interface = Done i.

Lemma refines_inv {A B} (R : A → B → Prop) r r' a : refines R r r' → r = Done a → ∃ b, r' = Done b ∧ R a b.
Proof. intros [a' b Hab|s] E; [|done]. injection E as ->. eauto. Qed.

Lemma copied {A} (r : result A) (imports : list N) (b : A) :
    (do! ex := r in do! _ := copy_imports imports in Done ex) = Done b → r = Done b ∧ 0 ∉ imports.
Proof.
    destruct r as [ex|s|]; cbn [bind]; [|done..]. unfold copy_imports.
    destruct (existsb (N.eqb 0) imports) eqn:E; cbn [bind]; [done|]. intros [= ->]. split; [done|].
    intros Hin%list_elem_of_In. assert (existsb (N.eqb 0) imports = true); [|congruence].
    apply existsb_exists. by exists 0.
Qed.

Lemma built_exposes facts imports i : sizeable facts → built_from facts imports i →
    exposes (runtime_data_view i) (exports_of facts) ∧ runtime_imports i = imports ∧ described facts (exports_of facts).
Proof.
    intros Hs (store & retain & Hi). unfold initialize in Hi. destruct store as [pages|].
    - destruct retain; [done|]. destruct (status_ok pages) eqn:Ep.
      + apply bool_decide_eq_true in Ep as ->.
        destruct (refines_inv _ _ _ _ (initialize_external_refines facts Hs imports new_interface eq_refl eq_refl) Hi)
          as (ex & He & Hx). apply copied in He as [He _].
        apply export_facts_external_described in He as (-> & Hd & _). destruct Hx as (Hr & Hex & Him & _).
        unfold runtime_data_view, runtime_imports. rewrite Hr. done.
      + exfalso. revert Hi. unfold initialize_external. cbv zeta. cbn [runtime_externalized_state persistence_externalized_state new_interface orb].
        rewrite Ep. cbn [negb]. by destruct (_ || _).
    - destruct (refines_inv _ _ _ _ (initialize_owned_refines facts Hs imports retain new_interface) Hi)
        as (ex & He & Hx). apply copied in He as [He _].
      apply export_facts_described in He as [-> Hd].
      destruct Hx as (Hex & Him & _ & _ & _ & _ & _ & Hp & Hr & _).
      unfold runtime_data_view, runtime_imports, local_types. rewrite Hr, Hp. cbn [runtime_externalized_state new_interface].
      split_and!; [|done|done]. by destruct Hex.
Qed.
End built.

End SourceEnvironmentInit.
