(* ===== verification/SourceEnvironmentTheorems.v ===== *)
(** * What names a Source sees

    The lookups through imports against the source facts the interfaces were built from, the
    agreement and the disagreement of the two constructions, the restoration of a persisted
    interface, and the page store. *)

From S2P Require Import Prelude.
From S2P Require Import Probing.
From S2P Require Import IdentitySpace.
From S2P Require Import SourceFacts.
From S2P Require Import SourceFactsTheorems.
From S2P Require Import SourceFactsErrors.
From S2P Require Import SourceEnvironment.
From S2P Require Import SourceEnvironmentTables.
From S2P Require Import SourceEnvironmentInit.

Local Open Scope N_scope.

Module SourceEnvironmentTheorems.

Import Probing SourceFacts SourceEnvironment SourceEnvironmentTables SourceEnvironmentInit.

#[local] Existing Instance IdentitySpace.identity_kind_eq_dec.
#[local] Existing Instances type_slot_slot object_slot_slot member_slot_slot type_lookup object_lookup member_lookup.

(** ** Identities of one scope and name *)

(** Two known identities of the same parent and name are the same. *)
Definition canonical `{!identity_view} (known : N → Prop) : Prop :=
  ∀ a b, known a → known b → view_parent a = view_parent b → view_name a = view_name b → a = b.

(** The view of an identity space. *)
Definition space_view (baseline : option IdentitySpace.compiled_image_view) (t : IdentitySpace.space) : identity_view :=
  {| view_parent := IdentitySpace.parent baseline t; view_name := IdentitySpace.name baseline t |}.

(** The identities that finished declarations of the space returned. *)
Definition declared_in (cs : list IdentitySpace.call) (r : N) : Prop :=
  ∃ i p n k, cs !! i = Some (IdentitySpace.Call p n k (IdentitySpace.Finished ok r)) ∧ n ≠ 0.

Lemma space_view_canonical baseline dense_ok t cs :
  (∀ b, baseline = Some b → IdentitySpace.BaselineLaws b) → IdentitySpace.reachable baseline dense_ok (t, cs) →
  @canonical (space_view baseline t) (declared_in cs).
Proof.
  intros Hlaws Hr a b (i & p & n & k & Hi & Hn) (j & p' & n' & k' & Hj & Hn') Hp Hname.
  destruct (IdentitySpace.space_reachable_ok baseline Hlaws _ _ _ Hr) as [T C _ _].
  destruct (C _ _ Hi) as [Hd _]. destruct (C _ _ Hj) as [Hd' _]. cbn in Hd, Hd'.
  destruct (IdentitySpace.denotes_reads baseline Hlaws t p n a T Hn Hd) as (_ & Ha & Ha').
  destruct (IdentitySpace.denotes_reads baseline Hlaws t p' n' b T Hn' Hd') as (_ & Hb & Hb').
  cbn in Hp, Hname. assert (p' = p ∧ n' = n) as [-> ->] by (split; congruence).
  by eapply IdentitySpace.denotes_unique.
Qed.

(** ** Lookups through imports *)

Lemma elem_of_rev {A} (x : A) l : x ∈ rev l ↔ x ∈ l.
Proof. rewrite !list_elem_of_In. symmetry. apply in_rev. Qed.

Section walk.
Context {T R : Type} `{HL : Lookup T R}.
Context (store : gmap N source_interface) (entries_at : N → list T) (imports_at : N → list N).
Context (Hstore : ∀ p i, store !! p = Some i →
    shows (lookup_slots (runtime_data_view i)) (entries_at p) ∧ runtime_imports i = imports_at p).
Context (Hpresent : ∀ p e, e ∈ entries_at p → present (answer_of e) = true).
Context (Habsent : present (absent : R) = false).

(** [q] is reached from [p] by at most [n] steps to an import. *)
Inductive reaches : nat → N → N → Prop :=
  | reaches_here n p : is_Some (store !! p) → reaches n p p
  | reaches_import n p q r : is_Some (store !! p) → q ∈ imports_at p → reaches n q r → reaches (S n) p r.

(** The interfaces in the order a lookup visits them: an interface before its imports, a later
    import before an earlier one. *)
Fixpoint visits (levels : nat) (p : N) : list N :=
    match levels with
    | O => []
    | S levels' =>
        match store !! p with
        | None => []
        | Some _ => p :: (rev (imports_at p) ≫= visits levels')
        end
    end.

Lemma reaches_last n p q : reaches n p q → is_Some (store !! q).
Proof. induction 1; done. Qed.

Lemma visits_reaches levels : ∀ p q, q ∈ visits (S levels) p ↔ reaches levels p q.
Proof.
    induction levels as [|levels IH]; intros p q.
    - cbn. destruct (store !! p) eqn:E; split.
      + intros Hq. assert (q = p) as ->.
        { apply elem_of_cons in Hq as [->|Hq]; [done|]. apply list_elem_of_bind in Hq as (r & Hr & _).
          by apply elem_of_nil in Hr. }
        by constructor.
      + inversion 1; subst. left.
      + intros Hq. by apply elem_of_nil in Hq.
      + inversion 1; subst. rewrite E in *. by destruct H0.
    - cbn [visits]. destruct (store !! p) as [i|] eqn:E; split.
      + intros [->|Hq]%elem_of_cons; [by constructor|]. apply list_elem_of_bind in Hq as (r & Hq & Hr).
        apply reaches_import with r; [done | by apply elem_of_rev | by apply IH].
      + inversion 1 as [|? ? r ? _ Hr Hq]; subst; [left|]. right. apply list_elem_of_bind. exists r.
        split; [by apply IH | by apply elem_of_rev].
      + intros Hq. by apply elem_of_nil in Hq.
      + inversion 1 as [? ? Hs|? ? r ? Hs Hr Hq]; subst; rewrite E in Hs; by destruct Hs.
Qed.

(** The answer of the first interface visited that has an entry of the key. *)
Fixpoint first_entry (visited : list N) (owner name : N) : option T :=
    match visited with
    | [] => None
    | p :: visited' =>
        match find_entry owner name (entries_at p) with
        | Some e => Some e
        | None => first_entry visited' owner name
        end
    end.

Lemma first_entry_app l k owner name : first_entry (l ++ k) owner name =
    match first_entry l owner name with Some e => Some e | None => first_entry k owner name end.
Proof. induction l as [|p l IH]; cbn; [done|]. by destruct (find_entry owner name (entries_at p)). Qed.

Definition answer (found : option T) : R := match found with Some e => answer_of e | None => absent end.

Lemma first_entry_elem visited owner name e : first_entry visited owner name = Some e →
    ∃ p, p ∈ visited ∧ e ∈ entries_at p ∧ has_key owner name e.
Proof.
    induction visited as [|p l IH]; cbn; [done|]. destruct (find_entry owner name (entries_at p)) as [f|] eqn:E.
    - intros [= <-]. apply find_entry_Some in E as []. exists p. split; [left | done].
    - intros (q & Hq & ?)%IH. exists q. split; [by right | done].
Qed.

Lemma first_entry_None visited owner name : first_entry visited owner name = None ↔
    ∀ p e, p ∈ visited → e ∈ entries_at p → ¬ has_key owner name e.
Proof.
    induction visited as [|p l IH]; cbn; [split; [intros _ p e Hp; by apply elem_of_nil in Hp | done]|].
    destruct (find_entry owner name (entries_at p)) as [f|] eqn:E.
    - split; [done|]. intros Hn. apply find_entry_Some in E as [Hin Hk]. by destruct (Hn p f ltac:(left) Hin).
    - rewrite IH. rewrite find_entry_None in E. split.
      + intros Hn q e [->|Hq]%elem_of_cons; [by apply E | by apply Hn].
      + intros Hn q e Hq. apply Hn. by right.
Qed.

Lemma present_answer visited owner name : present (answer (first_entry visited owner name)) = true ↔
    first_entry visited owner name ≠ None.
Proof.
    destruct (first_entry visited owner name) as [e|] eqn:E; cbn; [|by rewrite Habsent].
    apply first_entry_elem in E as (p & _ & Hin & _). rewrite (Hpresent p e Hin). done.
Qed.

Lemma last_import_visits (f : N → R) reversed owner name levels :
    (∀ q, f q = answer (first_entry (visits levels q) owner name)) →
    last_import f reversed = answer (first_entry (reversed ≫= visits levels) owner name).
Proof.
    intros Hf. induction reversed as [|q l IH]; cbn [last_import]; [done|].
    rewrite bind_cons, first_entry_app, IH, Hf.
    destruct (present (answer (first_entry (visits levels q) owner name))) eqn:E.
    - apply present_answer in E. destruct (first_entry (visits levels q) owner name); done.
    - destruct (first_entry (visits levels q) owner name) as [e|] eqn:E'; [|done].
      exfalso. rewrite <-E' in E. by rewrite (proj2 (present_answer _ _ _)) in E by by rewrite E'.
Qed.

(** The recursion is a search of the visited interfaces. *)
Lemma find_recursive_visits owner name : ref_valid owner = true → name ≠ 0 → ∀ levels p,
    find_recursive store levels p owner name = answer (first_entry (visits levels p) owner name).
Proof.
    intros Ho Hn levels. induction levels as [|levels IH]; intros p; cbn [find_recursive visits]; [done|].
    rewrite Ho, (proj2 (N.eqb_neq name 0) Hn). cbn [negb orb].
    destruct (store !! p) as [i|] eqn:E; [|done]. destruct (Hstore p i E) as [Hs Hi].
    rewrite (shows_find _ _ owner name Hs), Hi. cbn [first_entry].
    destruct (find_entry owner name (entries_at p)); [done|]. by apply last_import_visits.
Qed.

Lemma find_recursive_invalid levels p owner name : ref_valid owner = false ∨ name = 0 →
    find_recursive store levels p owner name = absent.
Proof. intros Hn. destruct levels as [|levels]; [done|]. cbn [find_recursive]. destruct Hn as [-> | ->]; [done|]. by rewrite orb_true_r. Qed.
End walk.

Lemma member_entry_present `{!identity_view} facts e : Forall (λ r, count (record_members r) < two32) (records facts) →
  e ∈ all_member_entries facts → negb (slot_index e =? invalid_index) = true.
Proof.
  intros Hc He.
    unfold all_member_entries in He. apply list_elem_of_bind in He as (r & He & Hr).
    rewrite Forall_forall in Hc. specialize (Hc r Hr). unfold member_entries in He.
    destruct (record_declared r =? kind_definition); [|by apply elem_of_nil in He].
    unfold numbered in He. apply list_elem_of_lookup in He as [j Hj]. rewrite list_lookup_imap in Hj.
    apply fmap_Some in Hj as (m & Hm%lookup_lt_Some & ->). cbn. unfold section in Hm. rewrite length_take in Hm.
    apply negb_true_iff, N.eqb_neq. unfold invalid_index, two32 in *. lia.
Qed.

(** ** The interfaces of a project *)

(** Every interface of the store was built, in either way, from the facts and the imports of its
    Source; the counts of the facts are 32-bit words. *)
Definition project_store `{!identity_view} (store : gmap N source_interface) (facts_of : N → source_facts)
    (imports_of : N → list N) : Prop :=
  ∀ p i, store !! p = Some i →
    sizeable (facts_of p) ∧ Forall (λ r, count (record_members r) < two32) (records (facts_of p)) ∧
    built_from (facts_of p) (imports_of p) i.

Section project.
Context `{!identity_view} (store : gmap N source_interface) (facts_of : N → source_facts) (imports_of : N → list N).
Context (Hstore : project_store store facts_of imports_of).

(** What the interface at [p] exports; nothing when there is none. *)
Definition exports_at (p : N) : exports :=
    match store !! p with Some _ => exports_of (facts_of p) | None => Exports [] [] [] end.

Lemma exports_described p : is_Some (store !! p) → described (facts_of p) (exports_at p).
Proof.
    intros [i Hi]. unfold exports_at. rewrite Hi. destruct (Hstore p i Hi) as (Hs & _ & Hb).
    by destruct (built_exposes _ _ _ Hs Hb) as (_ & _ & Hd).
Qed.

Lemma store_shows p i : store !! p = Some i →
    exposes (runtime_data_view i) (exports_at p) ∧ runtime_imports i = imports_of p.
Proof.
    intros Hi. destruct (Hstore p i Hi) as (Hs & _ & Hb). destruct (built_exposes _ _ _ Hs Hb) as (He & Him & _).
    unfold exports_at. by rewrite Hi.
Qed.

Lemma types_present p e : e ∈ exported_types (exports_at p) → ref_valid (type_identity e) = true.
Proof.
    intros He. destruct (store !! p) as [i|] eqn:Hi; [|unfold exports_at in He; rewrite Hi in He; by apply elem_of_nil in He].
    destruct (store_shows p i Hi) as [[_ [Hh|[_ Hn]] _ _] _]; [by apply (holds_list _ _ e Hh) in He|].
    rewrite Hn in He. by apply elem_of_nil in He.
Qed.

Lemma objects_present p e : e ∈ exported_objects (exports_at p) → ref_valid (slot_identity e) = true.
Proof.
    intros He. destruct (store !! p) as [i|] eqn:Hi; [|unfold exports_at in He; rewrite Hi in He; by apply elem_of_nil in He].
    destruct (store_shows p i Hi) as [[_ _ [Hh|[_ Hn]] _] _]; [by apply (holds_list _ _ e Hh) in He|].
    rewrite Hn in He. by apply elem_of_nil in He.
Qed.

Lemma members_present p e : e ∈ exported_members (exports_at p) → negb (slot_index e =? invalid_index) = true.
Proof.
    intros He. destruct (store !! p) as [i|] eqn:Hi; [|unfold exports_at in He; rewrite Hi in He; by apply elem_of_nil in He].
    destruct (Hstore p i Hi) as (_ & Hc & _). rewrite (described_members _ _ (exports_described p (mk_is_Some _ _ Hi))) in He.
    by apply (member_entry_present (facts_of p)).
Qed.

Notation visited p := (visits store imports_of maximum_levels p).

Lemma find_type_visits p scope name : ref_valid scope = true → name ≠ 0 → find_type store p scope name =
    answer (first_entry (λ q, exported_types (exports_at q)) (visited p) scope name).
Proof.
    intros Hs Hn. apply (find_recursive_visits store (λ q, exported_types (exports_at q)) imports_of); [ |apply types_present|done|done|done].
    intros q i Hi. destruct (store_shows q i Hi) as [[] ?]. done.
Qed.

Lemma find_object_visits p scope name : ref_valid scope = true → name ≠ 0 → find_object store p scope name =
    answer (first_entry (λ q, exported_objects (exports_at q)) (visited p) scope name).
Proof.
    intros Hs Hn. apply (find_recursive_visits store (λ q, exported_objects (exports_at q)) imports_of); [ |apply objects_present|done|done|done].
    intros q i Hi. destruct (store_shows q i Hi) as [[] ?]. done.
Qed.

Lemma find_member_visits p type name : ref_valid type = true → name ≠ 0 → find_member store p type name =
    answer (first_entry (λ q, exported_members (exports_at q)) (visited p) type name).
Proof.
    intros Hs Hn. apply (find_recursive_visits store (λ q, exported_members (exports_at q)) imports_of); [ |apply members_present|done|done|done].
    intros q i Hi. destruct (store_shows q i Hi) as [[] ?]. done.
Qed.

(** The types a lookup from [p] can see. *)
Definition sees_type (p scope name identity : N) : Prop :=
    ∃ q, reaches store imports_of 1024 p q ∧ identity ∈ declared_types (facts_of q) ∧
      view_parent identity = scope ∧ view_name identity = name.

Context (known : N → Prop) (Hcanonical : canonical known).
Context (Hknown : ∀ p identity, is_Some (store !! p) → identity ∈ declared_types (facts_of p) → known identity).

Lemma sees_type_unique p q scope name a b : sees_type p scope name a → sees_type q scope name b → a = b.
Proof.
    intros (r & Hr & Ha & Hp & Hn) (s & Hs & Hb & Hp' & Hn').
    apply Hcanonical; [eauto using reaches_last | eauto using reaches_last | congruence | congruence].
Qed.

Lemma sees_type_valid p scope name identity : sees_type p scope name identity →
    ref_valid identity = true ∧ ref_valid scope = true ∧ name ≠ 0.
Proof.
    intros (q & Hq & Hid & <- & <-). pose proof (described_named_types _ _ (exports_described q (reaches_last _ _ _ _ _ Hq))) as Ha.
    rewrite Forall_forall in Ha. specialize (Ha identity Hid). unfold anonymous, not_of_kind in Ha.
    apply orb_false_iff in Ha as [[[Hv _]%orb_false_iff Hp]%orb_false_iff Hn].
    apply negb_false_iff in Hv, Hp. by apply N.eqb_neq in Hn.
Qed.

Lemma find_type_invalid p scope name : ref_valid scope = false ∨ name = 0 → find_type store p scope name = 0.
Proof.
    exact (find_recursive_invalid (T := source_interface_type_slot) (R := N) store maximum_levels p scope name).
Qed.

Lemma find_type_sees p scope name :
    (∃ identity, sees_type p scope name identity ∧ find_type store p scope name = identity) ∨
    ((∀ identity, ¬ sees_type p scope name identity) ∧ find_type store p scope name = 0).
Proof.
    destruct (ref_valid scope) eqn:Hs; [destruct (N.eq_dec name 0) as [->|Hn]|].
    2: rewrite find_type_visits by done;
       destruct (first_entry _ (visited p) scope name) as [e|] eqn:E; cbn [answer].
    - right. split; [by intros identity (_ & _ & ?)%sees_type_valid|].
      apply find_type_invalid. by right.
    - left. exists (type_identity e). split; [|done].
      apply first_entry_elem in E as (q & Hq & He & Ho & Hm). apply visits_reaches in Hq.
      apply (described_types _ _ (exports_described q (reaches_last _ _ _ _ _ Hq))) in He as (identity & Hid & ->).
      by exists q.
    - right. split; [|done]. intros identity (q & Hq & Hid & Hp & Hm). rewrite first_entry_None in E.
      apply (E q (type_entry identity)); [by apply visits_reaches | |done].
      apply (described_types _ _ (exports_described q (reaches_last _ _ _ _ _ Hq))). eauto.
    - right. split; [by intros identity (_ & ? & _)%sees_type_valid; congruence|].
      apply find_type_invalid. by left.
Qed.

Lemma environment_sees reversed scope name offset :
    (∃ identity v q, (v, q) ∈ reversed ∧ v <= offset ∧ q ≠ 0 ∧ sees_type q scope name identity ∧
      find_visible (T := source_interface_type_slot) store reversed scope name offset = identity) ∨
    ((∀ identity v q, (v, q) ∈ reversed → v <= offset → q ≠ 0 → ¬ sees_type q scope name identity) ∧
      find_visible (T := source_interface_type_slot) store reversed scope name offset = 0).
Proof.
    induction reversed as [|[v q] l IH]; cbn [find_visible].
    { right. split; [|done]. intros identity v q Hq. by apply elem_of_nil in Hq. }
    destruct (N.ltb_spec offset v) as [Hv|Hv]; cbn [orb]; [|destruct (N.eqb_spec q 0) as [->|Hq]].
    1,2: destruct IH as [(identity & v' & q' & Hin & ?)|[Hno ->]];
      [left; exists identity, v', q'; split; [by right | done] | right; split; [|done]];
      intros identity v' q' [[= -> ->]|Hin]%elem_of_cons; [try lia; done | by eapply Hno].
    change (find_from (T := source_interface_type_slot) store q scope name) with (find_type store q scope name).
    destruct (find_type_sees q scope name) as [(identity & Hs & Hf)|[Hno Hf]]; rewrite Hf.
    - change (present identity) with (ref_valid identity). rewrite (proj1 (sees_type_valid _ _ _ _ Hs)).
      left. exists identity, v, q. split_and!; [left | lia | done | done | done].
    - change (present 0) with false. destruct IH as [(identity & v' & q' & Hin & ?)|[Hno' ->]].
      + left. exists identity, v', q'. split; [by right | done].
      + right. split; [|done]. intros identity v' q' [[= -> ->]|Hin]%elem_of_cons; [by intros _ _; apply Hno | by eapply Hno'].
Qed.
End project.

(** In a project's store the three lookups from an interface answer
    with the entry of the first interface, in the order they visit them (an interface before
    its imports, a later import before an earlier one, 1024 imports deep), that exports the key,
    and with nothing when none does. *)
Theorem lookups_follow_imports `{!identity_view} store facts_of imports_of p owner name :
  project_store store facts_of imports_of → ref_valid owner = true → name ≠ 0 →
  let visited := visits store imports_of maximum_levels p in
  let exports_of_ := exports_at store facts_of in
  find_type store p owner name = answer (first_entry (λ q, exported_types (exports_of_ q)) visited owner name) ∧
  find_object store p owner name = answer (first_entry (λ q, exported_objects (exports_of_ q)) visited owner name) ∧
  find_member store p owner name = answer (first_entry (λ q, exported_members (exports_of_ q)) visited owner name).
Proof.
  intros Hstore Ho Hn visited exports_of_. split_and!.
  - exact (find_type_visits store facts_of imports_of Hstore p owner name Ho Hn).
  - exact (find_object_visits store facts_of imports_of Hstore p owner name Ho Hn).
  - exact (find_member_visits store facts_of imports_of Hstore p owner name Ho Hn).
Qed.

(** C15: when identities of the same parent and name are the same
    (as in an identity space), the include environment finds a type for a scope and name at an
    offset exactly when an import visible there reaches, by at most 1024 imports, a Source that
    declares that type; the order of imports and the two ways of building interfaces do not
    matter. *)
Theorem environment_finds_declared_types `{!identity_view} store facts_of imports_of known imports scope name offset identity :
  project_store store facts_of imports_of → canonical known →
  (∀ p t, is_Some (store !! p) → t ∈ declared_types (facts_of p) → known t) → ref_valid identity = true →
  environment_find_type store imports scope name offset = identity ↔
  ∃ visible_from p, (visible_from, p) ∈ imports ∧ visible_from <= offset ∧ p ≠ 0 ∧
    sees_type store facts_of imports_of p scope name identity.
Proof.
  intros Hstore Hc Hk Hv. unfold environment_find_type, find_in_environment.
  destruct (environment_sees store facts_of imports_of Hstore (rev imports) scope name offset)
    as [(t & v & q & Hin & Hvis & Hq & Hs & ->)|[Hno ->]].
  - split.
    + intros <-. exists v, q. split; [by apply elem_of_rev | done].
    + intros (v' & q' & _ & _ & _ & Hs'). by eapply (sees_type_unique store facts_of imports_of known Hc Hk).
  - split.
    + intros <-. done.
    + intros (v & q & Hin & Hvis & Hq & Hs). exfalso.
      exact (Hno identity v q (proj2 (elem_of_rev _ _) Hin) Hvis Hq Hs).
Qed.

End SourceEnvironmentTheorems.
