(* ===== verification/SourceEnvironmentAgreement.v ===== *)
(** * The constructions of a source interface compared

    When the construction in pages succeeds and when the owned one does, what re-initializing an
    interface leaves readable, the restoration of persisted slots, and the page store. *)

From S2P Require Import Prelude.
From S2P Require Import Probing.
From S2P Require Import IdentitySpace.
From S2P Require Import SourceFacts.
From S2P Require Import SourceFactsTheorems.
From S2P Require Import SourceFactsErrors.
From S2P Require Import SourceEnvironment.
From S2P Require Import SourceEnvironmentTables.
From S2P Require Import SourceEnvironmentInit.
From S2P Require Import SourceEnvironmentTheorems.

Local Open Scope N_scope.

Module SourceEnvironmentAgreement.

Import Probing SourceFacts SourceFactsTheorems SourceEnvironment SourceEnvironmentTables SourceEnvironmentInit.

#[local] Existing Instance IdentitySpace.identity_kind_eq_dec.
#[local] Existing Instances type_slot_slot object_slot_slot member_slot_slot type_lookup object_lookup member_lookup.

(** ** Two constructions, one difference *)

Section agree.
Context `{!identity_view} (facts : source_facts) (Hwf : well_formed facts) (Hsize : sizeable facts).

Lemma bad_range_valid range n : bad_range range n = negb (valid_range range n).
Proof.
    unfold bad_range, valid_range. rewrite negb_andb. f_equal; [apply N.ltb_antisym|]. apply N.ltb_antisym.
Qed.

Lemma ranges_fine r : r ∈ records facts →
    bad_range (record_members r) (SourceFacts.size (members facts)) = false ∧
    bad_range (record_bases r) (SourceFacts.size (bases facts)) = false ∧
    bad_range (record_methods r) (SourceFacts.size (methods facts)) = false.
Proof.
    intros Hr. rewrite !bad_range_valid, !negb_false_iff.
    pose proof (partition_valid _ _ _ (wf_members_owned facts Hwf)) as H1.
    pose proof (partition_valid _ _ _ (wf_bases_owned facts Hwf)) as H2.
    pose proof (partition_valid _ _ _ (wf_methods_owned facts Hwf)) as H3.
    rewrite Forall_forall in H1, H2, H3. auto.
Qed.

Lemma export_members_checked rs l : (∀ r, r ∈ rs → r ∈ records facts) →
    for_each (export_members facts true) rs l = for_each (export_members facts false) rs l.
Proof.
    revert l. induction rs as [|r rs IH]; intros l Hrs; cbn [for_each]; [done|].
    assert (export_members facts true r l = export_members facts false r l) as ->.
    { unfold export_members. destruct (ranges_fine r) as (-> & -> & ->); [apply Hrs; left|]. done. }
    destruct (export_members facts false r l); cbn [bind]; [|done..]. apply IH. intros s Hs. apply Hrs. by right.
Qed.

Lemma export_no_members rs l : (∀ r, r ∈ rs → r ∈ records facts ∧ not_of_kind IdentitySpace.type_kind (record_identity r) = false) →
    sum_counts rs = 0 → for_each (export_members facts false) rs l = Done l.
Proof.
    induction rs as [|r rs IH]; intros Hrs; unfold sum_counts; cbn [for_each sumN]; [done|]. intros Hs.
    assert (export_members facts false r l = Done l) as ->.
    { unfold export_members. destruct (record_declared r =? kind_definition); [|done]. cbn [negb].
      destruct (Hrs r) as [Hr ->]; [left|]. destruct (ranges_fine r Hr) as (-> & _). cbn [orb andb].
      unfold section. replace (count (record_members r)) with 0 by lia. done. }
    cbn [bind]. apply IH; [|unfold sum_counts; lia]. intros s Hin. apply Hrs. by right.
Qed.

Lemma type_entry_inj a b : type_entry a = type_entry b → a = b.
Proof. by intros [=]. Qed.

(** A successful export of the types has one entry a declaration exactly when none is repeated. *)
Lemma exported_types_size l : for_each export_type (declared_types facts) [] = Done l →
    SourceFacts.size l = SourceFacts.size (declared_types facts) ↔ NoDup (declared_types facts).
Proof.
    intros Hl. destruct (declare_sound _ _ _ _ export_types_body export_types_agree _ _ _ Hl) as (_ & He & _ & Hn).
    specialize (Hn (NoDup_nil_2)). set (k := type_entry <$> declared_types facts).
    assert (Hk : length k = length (declared_types facts)) by apply length_fmap.
    assert (Hel : ∀ e, e ∈ l ↔ e ∈ k).
    { intros e. rewrite He. unfold k. rewrite list_elem_of_fmap. split.
      - intros [Hx%elem_of_nil|(x & Hx & ->)]; [done|]. eauto.
      - intros (x & -> & Hx). eauto. }
    unfold SourceFacts.size. split.
    - intros Hs. assert (Hp : l ≡ₚ k).
      { apply submseteq_length_Permutation; [|lia]. apply NoDup_submseteq; [done|]. intros e. apply Hel. }
      rewrite Hp in Hn. by apply NoDup_fmap_1 in Hn.
    - intros Hd. f_equal. rewrite <-Hk. apply Permutation_length, NoDup_Permutation; [done| |done].
      apply NoDup_fmap; [|done]. intros a b. apply type_entry_inj.
Qed.

Lemma exports_agree : (∃ ex, export_facts_external facts = Done ex) ↔
    (∃ ex, export_facts facts true = Done ex) ∧ NoDup (declared_types facts).
Proof.
    unfold export_facts_external, export_facts.
    destruct (for_each export_type (declared_types facts) []) as [l|s|] eqn:El; cbn [bind].
    2,3: split; [intros [ex Hex]; done | intros [[ex Hex] _]; done].
    pose proof (exported_types_size l El) as Hsz.
    destruct (declare_sound _ _ _ _ export_types_body export_types_agree _ _ _ El) as (Hg & _).
    assert (Hm : (if sum_counts (records facts) =? 0 then Done []
        else for_each (export_members facts false) (records facts) []) =
      for_each (export_members facts true) (records facts) []).
    { rewrite export_members_checked by done. destruct (N.eqb_spec (sum_counts (records facts)) 0); [|done].
      symmetry. apply export_no_members; [|done]. intros r Hr. split; [done|].
      rewrite Forall_forall in Hg. specialize (Hg (record_identity r)).
      assert (anonymous IdentitySpace.type_kind (record_identity r) = false) as Ha.
      { apply Hg. unfold declared_types. apply elem_of_app. left. by apply list_elem_of_fmap_2. }
      unfold anonymous in Ha. by apply orb_false_iff in Ha as [[? _]%orb_false_iff _]. }
    rewrite Hm. destruct (N.eqb_spec (SourceFacts.size l) (SourceFacts.size (declared_types facts))) as [E|E]; cbn [negb].
    - apply Hsz in E. split; [|by intros []]. intros Hex. by split.
    - split; [by intros [ex Hex]|]. intros [_ Hd%Hsz]. done.
Qed.
End agree.

Lemma refines_done_iff {A B} (R : A → B → Prop) r r' : refines R r r' → (∃ a, r = Done a) ↔ (∃ b, r' = Done b).
Proof. intros [a b Hab|s]; split; intros [x Hx]; simplify_eq; eauto. Qed.

Lemma copied_iff {A} (r : result A) imports : (∃ b, (do! ex := r in do! _ := copy_imports imports in Done ex) = Done b) ↔
  (∃ ex, r = Done ex) ∧ existsb (N.eqb 0) imports = false.
Proof.
  unfold copy_imports. destruct r as [ex|s|]; cbn [bind]; [|naive_solver..].
  destruct (existsb (N.eqb 0) imports); cbn [bind]; split; [intros [b Hb]; done | by intros [_ ?] | eauto | eauto].
Qed.

(** C16: for an accepted packet the construction in pages succeeds exactly
    when the owned construction does and no type is declared twice, and then every lookup in
    the tables of the two interfaces answers the same. *)
Theorem paged_construction_agrees `{!identity_view} facts imports :
  (validate_source_facts facts).1 = ok → sizeable facts →
  let paged := initialize facts true (Some ok) imports false new_interface in
  let owned := initialize facts true None imports true new_interface in
  ((∃ i, paged = Done i) ↔ (∃ j, owned = Done j) ∧ NoDup (declared_types facts)) ∧
  ∀ i j, paged = Done i → owned = Done j → local_types i = local_types j ∧ ∀ owner name,
    find_slot (type_slots_of (runtime_data_view i)) owner name = find_slot (type_slots_of (runtime_data_view j)) owner name ∧
    find_slot (object_slots_of (runtime_data_view i)) owner name = find_slot (object_slots_of (runtime_data_view j)) owner name ∧
    find_slot (member_slots_of (runtime_data_view i)) owner name = find_slot (member_slots_of (runtime_data_view j)) owner name.
Proof.
  intros Hv Hs paged owned.
  assert (Hw : well_formed facts).
  { apply (run_checks_pass facts tt). unfold validate_source_facts in Hv. by destruct (run_checks facts) as [e|[]]. }
  split.
  - change paged with (initialize_external facts ok imports new_interface).
    change owned with (initialize_owned facts true imports true new_interface).
    rewrite (refines_done_iff _ _ _ (initialize_external_refines facts Hs imports new_interface eq_refl eq_refl)).
    rewrite (refines_done_iff _ _ _ (initialize_owned_refines facts Hs imports true new_interface)).
    rewrite !copied_iff, (exports_agree facts Hw). tauto.
  - intros i j Hi Hj.
    destruct (built_exposes facts imports i Hs) as ([L1 T1 O1 M1] & _ & _); [by exists (Some ok), false|].
    destruct (built_exposes facts imports j Hs) as ([L2 T2 O2 M2] & _ & _); [by exists None, true|].
    split.
    + transitivity (local_types_of (runtime_data_view i)).
      { unfold runtime_data_view. destruct (runtime_externalized_state i) eqn:E; unfold local_types; by rewrite E. }
      transitivity (local_types_of (runtime_data_view j)); [congruence|].
      unfold runtime_data_view. destruct (runtime_externalized_state j) eqn:E; unfold local_types; by rewrite E.
    + intros owner name. split_and!; by erewrite !shows_find by done.
Qed.

(** ** Examples *)

(** Every identity below the root, named by its slot. *)
Definition sample_view : identity_view := {| view_parent _ := IdentitySpace.root; view_name := IdentitySpace.ref_slot |}.

(** [struct A; struct A { int x; };] *)
Definition redeclared_facts : source_facts := {|
  source := 1; source_text := replicate 40 32; namespaces := [];
  records := [SourceFactsErrors.sample_record (SourceFactsErrors.sample_type 2) (FactRange 0 0) (Span 0 9) kind_declaration;
    SourceFactsErrors.sample_record (SourceFactsErrors.sample_type 2) (FactRange 0 1) (Span 10 20) kind_definition];
  members := [SourceFactsErrors.sample_member (builtin intrinsic_signed_int (FactRange 0 0) (Span 21 3)) 5 (Span 21 6)];
  modifiers := []; enums := []; enum_values := []; declarations := []; objects := []; links := []; bases := [];
  aliases := []; alias_modifiers := []; methods := []; method_modifiers := [] |}.

(** An accepted packet that declares a record and then defines
    it, of which the owned construction makes an interface, is refused with
    [initialization_failed] by the construction in pages. *)
Theorem redeclaration_refused_in_pages :
  (validate_source_facts redeclared_facts).1 = ok ∧
  (∃ i, @initialize sample_view redeclared_facts true None [] true new_interface = Done i ∧
     local_types i = [SourceFactsErrors.sample_type 2]) ∧
  @initialize sample_view redeclared_facts true (Some ok) [] false new_interface = Refused initialization_failed.
Proof.
  split; [vm_compute; reflexivity|]. split; [|vm_compute; reflexivity].
  eexists. split; [vm_compute; reflexivity | reflexivity].
Qed.

Lemma sample_sizeable : sizeable SourceFactsErrors.sample_facts.
Proof. split_and!; reflexivity. Qed.

Lemma paged_construction_agrees_witness :
  (validate_source_facts SourceFactsErrors.sample_facts).1 = ok ∧
  ∃ i, @initialize sample_view SourceFactsErrors.sample_facts true (Some ok) [] false new_interface = Done i.
Proof.
  assert (Hv : (validate_source_facts SourceFactsErrors.sample_facts).1 = ok) by (vm_compute; reflexivity).
  split; [exact Hv|].
  apply (proj1 (@paged_construction_agrees sample_view SourceFactsErrors.sample_facts [] Hv sample_sizeable)).
  split; [eexists; vm_compute; reflexivity|]. vm_compute.
  apply NoDup_cons. split; [|apply NoDup_singleton]. intros H%list_elem_of_singleton. discriminate H.
Defined.

(** ** Restoration *)

(** The cache holds, for a Source, what its interface saves. *)
Record serves (cache : build_cache_image_view) (source : N) (data : data_view) : Prop := {
  serves_source : cache_source cache source = (ok, (true, PersistenceCounts (SourceFacts.size (local_types_of data))
    (SourceFacts.size (type_slots_of data)) (SourceFacts.size (object_slots_of data)) (SourceFacts.size (member_slots_of data))));
  serves_local k x : local_types_of data !! k = Some x → cache_local_type cache source (N.of_nat k) = (ok, x);
  serves_type k x : type_slots_of data !! k = Some x → cache_type_slot cache source (N.of_nat k) = (ok, x);
  serves_object k x : object_slots_of data !! k = Some x → cache_object_slot cache source (N.of_nat k) = (ok, x);
  serves_member k x : member_slots_of data !! k = Some x → cache_member_slot cache source (N.of_nat k) = (ok, x) }.

Section restore.
Context {T : Type} `{HS : Slot T} (read : N → status_code * T) (complete : T → bool).
Context (l : list T) (Hread : ∀ k e, l !! k = Some e → read (N.of_nat k) = (ok, e)).
Context (Hcomplete : ∀ e, e ∈ l → complete e = true ∧ slot_taken e = true) (Hkeys : NoDup (keys l)).

Lemma restore_rest rest : ∀ front t, l = front ++ rest → builds true (SourceFacts.size rest) t front →
    ∃ t', for_each (restore_slot read complete) (N.of_nat <$> seq (length front) (length rest)) t = Done t' ∧ builds true 0 t' l.
Proof.
    induction rest as [|e rest IH]; intros front t Hl Hb; cbn [length seq fmap list_fmap for_each].
    { exists t. rewrite app_nil_r in Hl. by subst front. }
    assert (Hin : e ∈ l) by (rewrite Hl; apply elem_of_app; right; left).
    unfold restore_slot at 1. rewrite (Hread (length front) e) by by rewrite Hl, list_lookup_middle.
    destruct (Hcomplete e Hin) as [-> Ht]. change (status_ok ok) with true. cbn [negb orb].
    assert (Hfresh : find_entry (slot_owner e) (slot_name e) front = None).
    { apply find_entry_None. intros f Hf Hk. rewrite Hl in Hkeys. unfold keys in Hkeys.
      rewrite fmap_app, NoDup_app in Hkeys. destruct Hkeys as (_ & Hd & _).
      apply (Hd (slot_owner e, slot_name e)); [apply elem_of_keys; eauto | left]. }
    assert (Hsz : SourceFacts.size (e :: rest) = 1 + SourceFacts.size rest) by (unfold SourceFacts.size; cbn [length]; lia).
    rewrite Hsz in Hb.
    pose proof (enter_refines true (SourceFacts.size rest) e (λ _, Refused artifact_corrupt) (λ _, Refused artifact_corrupt)
      t front Hb Ht ltac:(constructor)) as Hr.
    unfold declare_entry in Hr. rewrite Hfresh in Hr. inversion Hr as [[entered t'] l' Hx E1 E2|]; subst l'.
    cbn [fst snd] in Hx. destruct Hx as [Hb' _]. cbn [bind].
    destruct (IH (front ++ [e]) t') as (t'' & Ht'' & Hb''); [by rewrite <-app_assoc | done|].
    exists t''. split; [|done]. rewrite length_app in Ht''. cbn [length] in Ht''. by rewrite Nat.add_1_r in Ht''.
Qed.

Lemma restore_all : SourceFacts.size l < 2 ^ 62 → ∃ t,
    for_each (restore_slot read complete) (indices (SourceFacts.size l)) (empty_table (capacity_for (SourceFacts.size l))) = Done t ∧
    holds (slots t) l ∧ compact t = l.
Proof.
    intros Hs%capacity_for_pos. destruct (restore_rest l [] (empty_table (capacity_for (SourceFacts.size l))) eq_refl)
      as (t & Ht & [Hh _ Hc _]); [by apply builds_empty|].
    exists t. split_and!; [|done|done]. unfold indices. unfold SourceFacts.size at 1. rewrite Nat2N.id. exact Ht.
Qed.
End restore.

Lemma restore_local_types cache source types : (∀ k x, types !! k = Some x → cache_local_type cache source (N.of_nat k) = (ok, x)) →
  Forall (λ x, IdentitySpace.ref_valid x = true) types →
  for_each (restore_local_type cache source) (indices (SourceFacts.size types)) [] = Done types.
Proof.
  intros Hread Hv. unfold indices, SourceFacts.size. rewrite Nat2N.id.
  assert (Hgo : ∀ rest front, types = front ++ rest →
    for_each (restore_local_type cache source) (N.of_nat <$> seq (length front) (length rest)) front = Done types).
  { induction rest as [|x rest IH]; intros front Hf; cbn [length seq fmap list_fmap for_each].
    { rewrite app_nil_r in Hf. by subst. }
    unfold restore_local_type at 1. rewrite (Hread (length front) x) by by rewrite Hf, list_lookup_middle.
    rewrite Forall_forall in Hv. rewrite (Hv x) by (rewrite Hf; apply elem_of_app; right; left).
    change (status_ok ok) with true. cbn [negb orb bind].
    specialize (IH (front ++ [x])). rewrite length_app in IH. cbn [length] in IH. rewrite Nat.add_1_r in IH.
    apply IH. by rewrite <-app_assoc. }
  by apply (Hgo types []).
Qed.

Lemma keyed_keys {T} `{Slot T} (l : list T) : keyed l → NoDup l → NoDup (keys l).
Proof.
  intros Hk Hn. unfold keys. apply NoDup_fmap_2_strong; [|done]. intros e f He Hf [= Ho Hnm]. by apply Hk.
Qed.

Lemma anonymous_false `{!identity_view} kind x : anonymous kind x = false →
  ref_valid x = true ∧ ref_valid (view_parent x) = true ∧ negb (view_name x =? 0) = true.
Proof.
  unfold anonymous, not_of_kind. intros [[[Hv _]%orb_false_iff Hp]%orb_false_iff Hn]%orb_false_iff.
  apply negb_false_iff in Hv, Hp. by rewrite Hn.
Qed.

Section complete.
Context `{!identity_view} (facts : source_facts) (Hd : described facts (exports_of facts)).

Lemma complete_types e : e ∈ exported_types (exports_of facts) → complete_type e = true ∧ slot_taken e = true.
Proof.
    intros (x & Hx & ->)%(described_types _ _ Hd). pose proof (described_named_types _ _ Hd) as Hn.
    rewrite Forall_forall in Hn. destruct (anonymous_false _ _ (Hn x Hx)) as (Hv & Hp & Hm).
    unfold complete_type. cbn. by rewrite Hv, Hp, Hm.
Qed.

Lemma complete_objects e : e ∈ exported_objects (exports_of facts) → complete_object e = true ∧ slot_taken e = true.
Proof.
    intros (x & Hx & ->)%(described_objects _ _ Hd). pose proof (described_named_objects _ _ Hd) as Hn.
    rewrite Forall_forall in Hn. destruct (anonymous_false _ _ (Hn x Hx)) as (Hv & Hp & Hm).
    unfold complete_object. cbn. by rewrite Hv, Hp, Hm.
Qed.

Lemma complete_members e : Forall (λ r, count (record_members r) < two32) (records facts) →
    e ∈ exported_members (exports_of facts) → complete_member e = true ∧ slot_taken e = true.
Proof.
    intros Hc He. destruct (described_named_members _ _ Hd e He) as [Hn Hv].
    rewrite (described_members _ _ Hd) in He. pose proof (SourceEnvironmentTheorems.member_entry_present _ _ Hc He) as Hi.
    unfold complete_member. cbn. by rewrite Hv, (proj2 (N.eqb_neq _ _) Hn), Hi.
Qed.
End complete.

(** What an interface built from the facts saves. *)
Definition saved `{!identity_view} (facts : source_facts) : data_view :=
  let ex := exports_of facts in
  DataView (type_identity <$> exported_types ex) (exported_types ex) (exported_objects ex) (exported_members ex).

Lemma saved_sizes `{!identity_view} facts : sizeable facts → described facts (exports_of facts) →
  SourceFacts.size (type_slots_of (saved facts)) < 2 ^ 62 ∧ SourceFacts.size (object_slots_of (saved facts)) < 2 ^ 62 ∧
  SourceFacts.size (member_slots_of (saved facts)) < 2 ^ 62.
Proof.
  intros (B1 & B2 & B3) Hd. destruct (described_sizes _ _ Hd) as (N1 & N2 & N3). unfold saved. cbn.
  split_and!; [|by eapply N.le_lt_trans..]. eapply N.le_lt_trans; [exact N1|]. revert B1.
  unfold declared_types, SourceFacts.size. rewrite length_app, !length_fmap. lia.
Qed.

Lemma copied_clean imports : 0 ∉ imports → copy_imports imports = Done imports.
Proof.
  intros Hz. unfold copy_imports. destruct (existsb (N.eqb 0) imports) eqn:E; [|done]. exfalso.
  apply existsb_exists in E as (x & Hx & <-%N.eqb_eq). by apply Hz, list_elem_of_In.
Qed.

(** Restoration from what was saved: the interface, whose tables hold the exports. *)
Lemma initialize_persisted_saved `{!identity_view} facts cache source imports : sizeable facts →
  Forall (λ r, count (record_members r) < two32) (records facts) → described facts (exports_of facts) →
  serves cache source (saved facts) → source ≠ 0 → 0 ∉ imports → ∃ types objects members,
  holds types (type_slots_of (saved facts)) ∧ holds objects (object_slots_of (saved facts)) ∧
  holds members (member_slots_of (saved facts)) ∧
  initialize_persisted cache true source imports new_interface =
  Done (SourceInterface (DataView (local_types_of (saved facts)) types objects members) (type_slots_of (saved facts))
    (object_slots_of (saved facts)) (member_slots_of (saved facts)) no_data [] no_data
    (PersistenceCounts (SourceFacts.size (local_types_of (saved facts))) (SourceFacts.size (type_slots_of (saved facts)))
      (SourceFacts.size (object_slots_of (saved facts))) (SourceFacts.size (member_slots_of (saved facts))))
    true false false imports).
Proof.
  intros Hs Hc Hd [S0 S1 S2 S3 S4] Hsource Himp. destruct (saved_sizes facts Hs Hd) as (Z1 & Z2 & Z3).
  destruct (restore_all _ complete_type (type_slots_of (saved facts)) S2 (complete_types facts Hd)
    (keyed_keys _ (described_type_keys _ _ Hd) (described_distinct _ _ Hd)) Z1) as (t1 & R1 & H1 & C1).
  destruct (restore_all _ complete_object (object_slots_of (saved facts)) S3 (complete_objects facts Hd)
    (keyed_keys _ (described_object_keys _ _ Hd) (described_distinct_objects _ _ Hd)) Z2) as (t2 & R2 & H2 & C2).
  destruct (restore_all _ complete_member (member_slots_of (saved facts)) S4 (λ e, complete_members facts Hd e Hc)
    (described_member_keys _ _ Hd) Z3) as (t3 & R3 & H3 & C3).
  assert (R0 : for_each (restore_local_type cache source) (indices (SourceFacts.size (local_types_of (saved facts)))) [] =
    Done (local_types_of (saved facts))).
  { apply restore_local_types; [done|]. apply Forall_fmap, Forall_forall. intros e He.
    by destruct (complete_types facts Hd e He) as [_ ?]. }
  exists (slots t1), (slots t2), (slots t3). split_and!; [done..|].
  unfold initialize_persisted. rewrite (proj2 (N.eqb_neq _ _) Hsource), S0. change (status_ok ok) with true.
  cbn [negb fst snd count_local_types count_type_slots count_object_slots count_member_slots].
  rewrite (proj2 (N.eqb_neq _ _) (capacity_for_pos _ Z1)), (proj2 (N.eqb_neq _ _) (capacity_for_pos _ Z2)),
    (proj2 (N.eqb_neq _ _) (capacity_for_pos _ Z3)). cbn [orb negb].
  rewrite R0. cbn [bind]. rewrite R1. cbn [bind]. rewrite R2. cbn [bind]. rewrite R3. cbn [bind].
  rewrite copied_clean by done. cbn [bind]. by rewrite C1, C2, C3.
Qed.

(** C17: an interface built from facts, saved, and restored from a
    cache that serves what it saved has the same local types and saved entries and answers
    every lookup in its tables as before, with the imports it is given anew. *)
Theorem persisted_interface_round_trip `{!identity_view} facts imports cache source imports' i :
  sizeable facts → Forall (λ r, count (record_members r) < two32) (records facts) →
  initialize facts true None imports true new_interface = Done i →
  serves cache source (persistence_data_view i) → source ≠ 0 → 0 ∉ imports' →
  ∃ j, initialize_persisted cache true source imports' new_interface = Done j ∧
    local_types j = local_types i ∧ runtime_imports j = imports' ∧ persistence_data_view j = persistence_data_view i ∧
    counts j = counts i ∧ ∀ owner name,
    find_slot (type_slots_of (runtime_data_view j)) owner name = find_slot (type_slots_of (runtime_data_view i)) owner name ∧
    find_slot (object_slots_of (runtime_data_view j)) owner name = find_slot (object_slots_of (runtime_data_view i)) owner name ∧
    find_slot (member_slots_of (runtime_data_view j)) owner name = find_slot (member_slots_of (runtime_data_view i)) owner name.
Proof.
  intros Hs Hc Hi Hserve Hsource Himp.
  destruct (refines_inv _ _ _ _ (initialize_owned_refines facts Hs imports true new_interface) Hi) as (ex & He & Hx).
  apply copied in He as [He _]. apply export_facts_described in He as [-> Hd].
  destruct Hx as ([HL HT HO HM] & _ & P1 & P2 & P3 & HC & _ & Hp & Hr & _).
  assert (Hdata : persistence_data_view i = saved facts).
  { unfold persistence_data_view, saved. by rewrite Hp, HL, P1, P2, P3. }
  rewrite Hdata in *.
  destruct (initialize_persisted_saved facts cache source imports' Hs Hc Hd Hserve Hsource Himp)
    as (types & object_slots & member_slots & H1 & H2 & H3 & ->).
  eexists. split; [reflexivity|]. unfold runtime_data_view, local_types. rewrite Hr, Hp, HC, HL.
  split_and!; try done.
  - unfold saved, SourceFacts.size. cbn. by rewrite length_fmap.
  - intros owner name. cbn. rewrite (holds_find _ _ owner name H1), (holds_find _ _ owner name H2), (holds_find _ _ owner name H3).
    by rewrite (shows_find _ _ owner name HT), (shows_find _ _ owner name HO), (shows_find _ _ owner name HM).
Qed.

(** A cache that serves one saved interface. *)
Definition cache_of (data : data_view) : build_cache_image_view :=
  let at_index {T} (l : list T) (d : T) k := match l !! N.to_nat k with Some x => (ok, x) | None => (not_found, d) end in
  {| cache_source _ := (ok, (true, PersistenceCounts (SourceFacts.size (local_types_of data))
       (SourceFacts.size (type_slots_of data)) (SourceFacts.size (object_slots_of data)) (SourceFacts.size (member_slots_of data))));
     cache_local_type _ := at_index (local_types_of data) 0;
     cache_type_slot _ := at_index (type_slots_of data) fresh_slot;
     cache_object_slot _ := at_index (object_slots_of data) fresh_slot;
     cache_member_slot _ := at_index (member_slots_of data) fresh_slot |}.

Lemma cache_of_serves data source : serves (cache_of data) source data.
Proof. split; [done|..]; intros k x Hk; cbn; by rewrite Nat2N.id, Hk. Qed.

Definition interface_of {A} (d : A) (r : result A) : A := match r with Done i => i | _ => d end.

Definition sample_interface : source_interface := interface_of new_interface
  (@initialize sample_view SourceFactsErrors.sample_facts true None [] true new_interface).

Lemma sample_interface_built :
  @initialize sample_view SourceFactsErrors.sample_facts true None [] true new_interface = Done sample_interface.
Proof. vm_compute. reflexivity. Qed.

Lemma sample_counts : Forall (λ r, count (record_members r) < two32) (records SourceFactsErrors.sample_facts).
Proof. repeat constructor. Qed.

Lemma persisted_interface_round_trip_witness : ∃ j,
  initialize_persisted (cache_of (persistence_data_view sample_interface)) true 3 [7] new_interface = Done j ∧
  local_types j = local_types sample_interface.
Proof.
  destruct (@persisted_interface_round_trip sample_view SourceFactsErrors.sample_facts []
    (cache_of (persistence_data_view sample_interface)) 3 [7] sample_interface sample_sizeable sample_counts
    sample_interface_built (cache_of_serves _ _)) as (j & Hj & Hl & _).
  - discriminate.
  - intros H%list_elem_of_singleton. discriminate H.
  - exists j. split; [exact Hj | exact Hl].
Defined.

(** ** Pages *)

Definition in_page (pages : list page) (s : page_span) : Prop :=
  ∃ p, pages !! span_page s = Some p ∧ span_begin s + span_count s <= page_used p.

Definition spans_apart (s t : page_span) : Prop :=
  span_page s ≠ span_page t ∨ span_begin s + span_count s <= span_begin t ∨ span_begin t + span_count t <= span_begin s.

Definition pages_ok (pages : list page) : Prop := Forall (λ p, page_used p <= page_capacity p) pages.

(** A sequence of allocations with the spans it returned; a failed one changes nothing. *)
Fixpoint page_allocations (element : N) (requests : list (bool * N)) (pages : list page) : list page_span * list page :=
  match requests with
  | [] => ([], pages)
  | (memory, n) :: requests' =>
      match page_allocate memory element pages n with
      | Some (Some s, pages') => let (spans, final) := page_allocations element requests' pages' in (s :: spans, final)
      | Some (None, pages') => page_allocations element requests' pages'
      | None => page_allocations element requests' pages
      end
  end.

(** One allocation: the span is as long as asked, begins where its page was used up to, and every
    span already in the pages stays there, apart from it. *)
Lemma page_allocate_spec memory element pages n o pages' : pages_ok pages →
  page_allocate memory element pages n = Some (o, pages') →
  pages_ok pages' ∧ (∀ t, in_page pages t → in_page pages' t) ∧
  match o with
  | None => n = 0
  | Some s => span_count s = n ∧ 0 < n ∧ in_page pages' s ∧ ∀ t, in_page pages t → spans_apart t s
  end.
Proof.
  unfold page_allocate. intros Hok. destruct (N.eqb_spec n 0) as [->|Hn]; [by intros [= <- <-]|].
  set (fresh := Page (N.max (N.max 1 (page_bytes / element)) n) 0).
  assert (Hplace : ∀ index p (grown : list page), grown !! index = Some p → n <= page_capacity p - page_used p →
    pages_ok grown → (∀ t, in_page pages t → in_page grown t) →
    let s := PageSpan index (page_used p) n in
    let pages' := <[index := Page (page_capacity p) (page_used p + n)]> grown in
    pages_ok pages' ∧ (∀ t, in_page pages t → in_page pages' t) ∧
    span_count s = n ∧ 0 < n ∧ in_page pages' s ∧ ∀ t, in_page pages t → spans_apart t s).
  { intros index p grown Hp Hroom Hg Hkeep s result.
    assert (Hupdated : result !! index = Some (Page (page_capacity p) (page_used p + n))).
    { apply list_lookup_insert_eq. by eapply lookup_lt_Some. }
    pose proof (Forall_lookup_1 _ _ _ _ Hg Hp) as Hcap. cbn in Hcap.
    split_and!; [| |done|lia| |].
    - apply Forall_insert; [done|]. cbn. lia.
    - intros t Ht. destruct (Hkeep t Ht) as (q & Hq & Hle). destruct (decide (span_page t = index)) as [E|E].
      + subst index. rewrite Hp in Hq. injection Hq as <-. exists (Page (page_capacity p) (page_used p + n)).
        split; [done|]. cbn. lia.
      + exists q. split; [|done]. unfold result. by rewrite list_lookup_insert_ne.
    - eexists. split; [exact Hupdated|]. cbn. lia.
    - intros t Ht. destruct (Hkeep t Ht) as (q & Hq & Hle). destruct (decide (span_page t = index)) as [E|E]; [|by left].
      right. left. subst index. rewrite Hp in Hq. by injection Hq as <-. }
  destruct (last pages) as [p|] eqn:Hl; [destruct (N.ltb_spec (page_capacity p - page_used p) n) as [Hlt|Hge]|].
  all: try (destruct memory; cbn [andb negb]; [|done]).
  1,3: rewrite length_app, Nat.add_1_r; cbn [pred length];
    rewrite lookup_app_r, Nat.sub_diag by lia; cbn [lookup list_lookup];
    intros [= <- <-]; apply (Hplace _ fresh);
    [by rewrite lookup_app_r, Nat.sub_diag by lia | cbn; lia | by apply Forall_app; split; [|repeat constructor; cbn; lia]
    | intros t (q & Hq & Hle); exists q; split; [by apply lookup_app_l_Some | done]].
  cbn [andb]. rewrite last_lookup in Hl. rewrite Hl. intros [= <- <-]. by apply (Hplace _ p).
Qed.

Lemma page_allocations_spec element requests : ∀ pages, pages_ok pages →
  let (spans, final) := page_allocations element requests pages in
  pages_ok final ∧ (∀ t, in_page pages t → in_page final t) ∧ Forall (in_page final) spans ∧
  (∀ t s, in_page pages t → s ∈ spans → spans_apart t s) ∧
  ∀ i j s t, (i < j)%nat → spans !! i = Some s → spans !! j = Some t → spans_apart s t.
Proof.
  induction requests as [|[memory n] requests IH]; intros pages Hok; cbn [page_allocations].
  { split_and!; [done | done | constructor | intros t s _ Hs; by apply elem_of_nil in Hs | done]. }
  destruct (page_allocate memory element pages n) as [[[s|] pages']|] eqn:E; [| |by apply IH].
  - destruct (page_allocate_spec _ _ _ _ _ _ Hok E) as (Hok' & Hkeep & _ & _ & Hs & Hapart).
    specialize (IH pages' Hok'). destruct (page_allocations element requests pages') as [spans final].
    destruct IH as (Hf & Hk & Hin & Hold & Hpairs). split_and!; [done|auto|constructor; auto| |].
    + intros t u Ht [->|Hu]%elem_of_cons; auto.
    + intros [|i] [|j] u v Hij Hu Hv; cbn in *; [lia| |lia|].
      * injection Hu as <-. apply Hold; [done|]. by eapply list_elem_of_lookup_2.
      * apply (Hpairs i j); [lia|done..].
  - destruct (page_allocate_spec _ _ _ _ _ _ Hok E) as (Hok' & Hkeep & _).
    specialize (IH pages' Hok'). destruct (page_allocations element requests pages') as [spans final].
    destruct IH as (Hf & Hk & Hin & Hold & Hpairs). split_and!; auto.
Qed.

(** Whatever sizes are asked for and whichever pages cannot be allocated, the spans handed out lie
    inside their pages and no two of them overlap. *)
Theorem page_spans_disjoint element requests :
  let (spans, final) := page_allocations element requests [] in
  pages_ok final ∧ Forall (in_page final) spans ∧
  ∀ i j s t, i ≠ j → spans !! i = Some s → spans !! j = Some t → spans_apart s t.
Proof.
  pose proof (page_allocations_spec element requests [] ltac:(constructor)) as H.
  destruct (page_allocations element requests []) as [spans final]. destruct H as (Hf & _ & Hin & _ & Hp).
  split_and!; [done|done|]. intros i j s t Hij Hs Ht. destruct (Nat.lt_total i j) as [Hlt|[?|Hlt]]; [by eapply Hp | done|].
  destruct (Hp _ _ _ _ Hlt Ht Hs) as [?|[?|?]]; unfold spans_apart; auto.
Qed.

(** ** Two Sources *)

(** The second Source defines nothing and includes the first. *)
Definition empty_facts : source_facts := {|
  source := 2; source_text := []; namespaces := []; records := []; members := []; modifiers := []; enums := [];
  enum_values := []; declarations := []; objects := []; links := []; bases := []; aliases := [];
  alias_modifiers := []; methods := []; method_modifiers := [] |}.

Definition including_interface : source_interface := interface_of new_interface
  (@initialize sample_view empty_facts true (Some ok) [1] false new_interface).

Definition sample_store : gmap N source_interface := {[ 1 := sample_interface; 2 := including_interface ]}.
Definition sample_facts_of (p : N) : source_facts := if p =? 1 then SourceFactsErrors.sample_facts else empty_facts.
Definition sample_imports_of (p : N) : list N := if p =? 1 then [] else [1].

Lemma sample_project : @SourceEnvironmentTheorems.project_store sample_view sample_store sample_facts_of sample_imports_of.
Proof.
  intros p i Hi. unfold sample_store in Hi. apply lookup_insert_Some in Hi as [[<- <-]|[_ Hi]].
  - split_and!; [exact sample_sizeable | exact sample_counts|]. exists None, true. exact sample_interface_built.
  - apply lookup_singleton_Some in Hi as [<- <-]. split_and!; [split_and!; reflexivity | constructor|].
    exists (Some ok), false. vm_compute. reflexivity.
Qed.

Lemma lookups_follow_imports_witness :
  find_type sample_store 2 IdentitySpace.root 2 =
  SourceEnvironmentTheorems.answer (SourceEnvironmentTheorems.first_entry (λ q, exported_types (@SourceEnvironmentTheorems.exports_at sample_view sample_store sample_facts_of q))
    (SourceEnvironmentTheorems.visits sample_store sample_imports_of maximum_levels 2) IdentitySpace.root 2).
Proof.
  exact (proj1 (@SourceEnvironmentTheorems.lookups_follow_imports sample_view sample_store sample_facts_of sample_imports_of 2
    IdentitySpace.root 2 sample_project eq_refl ltac:(discriminate))).
Defined.

Definition sample_known (t : N) : Prop := t ∈ declared_types SourceFactsErrors.sample_facts.

Lemma sample_canonical : @SourceEnvironmentTheorems.canonical sample_view sample_known.
Proof.
  unfold sample_known. intros a b Ha Hb _ Hn. vm_compute in Ha, Hb.
  apply elem_of_cons in Ha as [->|Ha%list_elem_of_singleton], Hb as [->|Hb%list_elem_of_singleton]; subst;
    first [reflexivity | vm_compute in Hn; discriminate Hn].
Qed.

Lemma sample_declares p t : is_Some (sample_store !! p) → t ∈ declared_types (sample_facts_of p) → sample_known t.
Proof.
  intros _ Ht. unfold sample_facts_of in Ht. destruct (p =? 1); [exact Ht|]. by apply elem_of_nil in Ht.
Qed.

Lemma environment_finds_declared_types_witness : ∃ visible_from p, (visible_from, p) ∈ [(5, 2)] ∧ visible_from <= 10 ∧ p ≠ 0 ∧
  @SourceEnvironmentTheorems.sees_type sample_view sample_store sample_facts_of sample_imports_of p IdentitySpace.root 2
    (SourceFactsErrors.sample_type 2).
Proof.
  apply (proj1 (@SourceEnvironmentTheorems.environment_finds_declared_types sample_view sample_store sample_facts_of
    sample_imports_of sample_known [(5, 2)] IdentitySpace.root 2 10 (SourceFactsErrors.sample_type 2)
    sample_project sample_canonical sample_declares eq_refl)).
  vm_compute. reflexivity.
Defined.

End SourceEnvironmentAgreement.
