(* ===== verification/ParserState.v ===== *)
(** * The state of a parse

    Models the first part of server_engine/project/parser/source_parser.cpp: the three local
    declaration tables, the state [source_parser_state] keeps, its cursor, its diagnostics, and
    the effects its methods are written with.

    A method is a value of [parse]: from a state it returns, or fails with a status and the
    state at that point, and [Stuck] is a call that does not come back: a loop that does not
    stop, an exception nothing catches, an access past the end of a vector.  That is shown not
    to happen.  The string table and the identity space behind [project_semantic_services] are an
    abstract state with four operations; a source environment is its three lookups.  Allocation
    is the environment: [memory n] says whether the [n]-th allocation of the parse succeeds,
    and one that does not ends the parse with [not_available], as every catch block says. *)

From S2P Require Import Prelude Lexer IdentitySpace SourceFacts SourceEnvironment.

Local Open Scope N_scope.

Module ParserState.

Import Lexer SourceFacts SourceEnvironment.

#[local] Existing Instance IdentitySpace.identity_kind_eq_dec.

(** ** The services a parse uses *)

(** [project_semantic_services] over its compiled state; a string id or an identity is its number
    and 0 is none. *)
Class Semantic (S : Type) : Type := {
  find_string : S → list N → N;
  intern_string : list N → S → status_code * N * S;
  resolve_declaration : N → list N → IdentitySpace.identity_kind → S → status_code * N * S;
  identity_parent : S → N → N;
  identity_name : S → N → N }.

(** [source_environment]. *)
Record environment_view : Type := EnvironmentView {
  find_type : N → N → N → N;
  find_object : N → N → N → source_interface_object;
  find_member : N → N → N → N }.

(** ** Local declaration tables *)

(** The slots of a table and the number of entries. *)
Record index (T : Type) : Type := Index { index_slots : list T; index_count : N }.
Arguments Index {_} _ _.
Arguments index_slots {_} _.
Arguments index_count {_} _.

Section index.
Context {T : Type} `{Slot T}.

(** Nothing where the capacity does not fit or the vector cannot be allocated. *)
Definition reserve (memory : bool) (expected : N) : option (index T) :=
  let capacity := capacity_for expected in
  if (capacity =? 0) || negb memory then None
  else Some (Index (replicate (N.to_nat capacity) fresh_slot) 0).

(** The status where the table has an entry of the key already is [present]. *)
Definition insert_into (target : list T) (value : T) (present : T → status_code) (target_count : N) :
    status_code * list T * N :=
  match seek_place target (slot_owner value) (slot_name value) with
  | Some (Vacant position) => (ok, <[N.to_nat position := value]> target, target_count + 1)
  | Some (Present slot) => (present slot, target, target_count)
  | None => (not_available, target, target_count)
  end.

(** [for (const auto& current : slots)] of [grow]. *)
Fixpoint move_slots (present : T → T → status_code) (slots : list T) (replacement : list T) (replacement_count : N) :
    status_code * list T * N :=
  match slots with
  | [] => (ok, replacement, replacement_count)
  | current :: slots' =>
      if negb (slot_taken current) then move_slots present slots' replacement replacement_count
      else match insert_into replacement current (present current) replacement_count with
           | (ok, replacement, replacement_count) => move_slots present slots' replacement replacement_count
           | r => r
           end
  end.

Definition grow (memory : bool) (present : T → T → status_code) (t : index T) : status_code * index T :=
  let slots := index_slots t in
  if (size_max / 2 <? size slots) || negb memory then (not_available, t)
  else match move_slots present slots (replicate (2 * length slots) fresh_slot) 0 with
       | (ok, replacement, replacement_count) => (ok, Index replacement replacement_count)
       | (result, _, _) => (result, t)
       end.

(** An insertion behind its checks; [present value slot] is the status where [slot] has the key
    of [value]. *)
Definition insert_value (memory : bool) (present : T → T → status_code) (value : T) (t : index T) :
    status_code * index T :=
  match (if bool_decide (index_slots t = []) then reserve memory 16 else Some t) with
  | None => (not_available, t)
  | Some t =>
      let '(result, t) :=
        if size (index_slots t) * 7 <=? (index_count t + 1) * 10 then grow memory present t else (ok, t) in
      if bool_decide (result = ok) then
        let '(result, slots, count) := insert_into (index_slots t) value (present value) (index_count t) in
        (result, Index slots count)
      else (result, t)
  end.

(** A lookup: nothing for an empty table or key. *)
Definition find_value (t : index T) (owner name : N) : option T :=
  if bool_decide (index_slots t = []) || negb (ref_valid owner) || (name =? 0) then None
  else find_slot (index_slots t) owner name.
End index.

Definition binding_index : Type := index source_interface_type_slot.
Definition object_binding_index : Type := index source_interface_object_slot.
Definition member_binding_index : Type := index source_interface_member_slot.

(** A type declared again under its identity is no conflict. *)
Definition same_type (value slot : source_interface_type_slot) : status_code :=
  if type_identity slot =? type_identity value then ok else semantic_conflict.

Definition insert_type (memory : bool) (parent name identity : N) (t : binding_index) : status_code * binding_index :=
  if negb (ref_valid identity) || negb (is_kind IdentitySpace.type_kind identity) then (invalid_argument, t)
  else if negb (ref_valid parent) || (name =? 0) then (invalid_argument, t)
  else insert_value memory same_type (TypeSlot parent name identity) t.

Definition conflict {T} (_ _ : T) : status_code := semantic_conflict.

Definition insert_object (memory : bool) (parent name identity named_type : N) (t : object_binding_index) :
    status_code * object_binding_index :=
  if negb (ref_valid identity) || negb (is_kind IdentitySpace.object_kind identity) then (invalid_argument, t)
  else if negb (ref_valid parent) || (name =? 0) then (invalid_argument, t)
  else insert_value memory conflict (ObjectSlot parent name identity named_type) t.

Definition insert_member (memory : bool) (type name member : N) (t : member_binding_index) :
    status_code * member_binding_index :=
  if negb (ref_valid type) || negb (is_kind IdentitySpace.type_kind type) || (name =? 0) || (member =? invalid_index)
  then (invalid_argument, t)
  else insert_value memory conflict (MemberSlot type name member) t.

Definition lookup_type (t : binding_index) (parent name : N) : N :=
  match find_value t parent name with Some s => type_identity s | None => 0 end.
Definition lookup_object (t : object_binding_index) (parent name : N) : source_interface_object :=
  match find_value t parent name with
  | Some s => InterfaceObject (slot_identity s) (slot_named_type s)
  | None => no_object
  end.
Definition lookup_member (t : member_binding_index) (type name : N) : N :=
  match find_value t type name with Some s => slot_index s | None => invalid_index end.

(** ** The packet under construction *)

Definition with_namespaces (l : list source_namespace_fact) (c : source_facts) : source_facts :=
  SourceFacts (source c) (source_text c) l (records c) (members c) (modifiers c) (enums c) (enum_values c)
    (declarations c) (objects c) (links c) (bases c) (aliases c) (alias_modifiers c) (methods c) (method_modifiers c).
Definition with_records (l : list source_record_fact) (c : source_facts) : source_facts :=
  SourceFacts (source c) (source_text c) (namespaces c) l (members c) (modifiers c) (enums c) (enum_values c)
    (declarations c) (objects c) (links c) (bases c) (aliases c) (alias_modifiers c) (methods c) (method_modifiers c).
Definition with_members (l : list source_member_fact) (c : source_facts) : source_facts :=
  SourceFacts (source c) (source_text c) (namespaces c) (records c) l (modifiers c) (enums c) (enum_values c)
    (declarations c) (objects c) (links c) (bases c) (aliases c) (alias_modifiers c) (methods c) (method_modifiers c).
Definition with_modifiers (l : list source_type_modifier) (c : source_facts) : source_facts :=
  SourceFacts (source c) (source_text c) (namespaces c) (records c) (members c) l (enums c) (enum_values c)
    (declarations c) (objects c) (links c) (bases c) (aliases c) (alias_modifiers c) (methods c) (method_modifiers c).
Definition with_enums (l : list source_enum_fact) (c : source_facts) : source_facts :=
  SourceFacts (source c) (source_text c) (namespaces c) (records c) (members c) (modifiers c) l (enum_values c)
    (declarations c) (objects c) (links c) (bases c) (aliases c) (alias_modifiers c) (methods c) (method_modifiers c).
Definition with_enum_values (l : list source_enum_value_fact) (c : source_facts) : source_facts :=
  SourceFacts (source c) (source_text c) (namespaces c) (records c) (members c) (modifiers c) (enums c) l
    (declarations c) (objects c) (links c) (bases c) (aliases c) (alias_modifiers c) (methods c) (method_modifiers c).
Definition with_declarations (l : list source_declaration_ref) (c : source_facts) : source_facts :=
  SourceFacts (source c) (source_text c) (namespaces c) (records c) (members c) (modifiers c) (enums c) (enum_values c)
    l (objects c) (links c) (bases c) (aliases c) (alias_modifiers c) (methods c) (method_modifiers c).
Definition with_objects (l : list source_object_fact) (c : source_facts) : source_facts :=
  SourceFacts (source c) (source_text c) (namespaces c) (records c) (members c) (modifiers c) (enums c) (enum_values c)
    (declarations c) l (links c) (bases c) (aliases c) (alias_modifiers c) (methods c) (method_modifiers c).
Definition with_links (l : list source_link_fact) (c : source_facts) : source_facts :=
  SourceFacts (source c) (source_text c) (namespaces c) (records c) (members c) (modifiers c) (enums c) (enum_values c)
    (declarations c) (objects c) l (bases c) (aliases c) (alias_modifiers c) (methods c) (method_modifiers c).
Definition with_bases (l : list source_base_fact) (c : source_facts) : source_facts :=
  SourceFacts (source c) (source_text c) (namespaces c) (records c) (members c) (modifiers c) (enums c) (enum_values c)
    (declarations c) (objects c) (links c) l (aliases c) (alias_modifiers c) (methods c) (method_modifiers c).
Definition with_aliases (l : list source_alias_fact) (c : source_facts) : source_facts :=
  SourceFacts (source c) (source_text c) (namespaces c) (records c) (members c) (modifiers c) (enums c) (enum_values c)
    (declarations c) (objects c) (links c) (bases c) l (alias_modifiers c) (methods c) (method_modifiers c).
Definition with_alias_modifiers (l : list source_type_modifier) (c : source_facts) : source_facts :=
  SourceFacts (source c) (source_text c) (namespaces c) (records c) (members c) (modifiers c) (enums c) (enum_values c)
    (declarations c) (objects c) (links c) (bases c) (aliases c) l (methods c) (method_modifiers c).
Definition with_methods (l : list source_method_fact) (c : source_facts) : source_facts :=
  SourceFacts (source c) (source_text c) (namespaces c) (records c) (members c) (modifiers c) (enums c) (enum_values c)
    (declarations c) (objects c) (links c) (bases c) (aliases c) (alias_modifiers c) l (method_modifiers c).
Definition with_method_modifiers (l : list source_type_modifier) (c : source_facts) : source_facts :=
  SourceFacts (source c) (source_text c) (namespaces c) (records c) (members c) (modifiers c) (enums c) (enum_values c)
    (declarations c) (objects c) (links c) (bases c) (aliases c) (alias_modifiers c) (methods c) l.

(** ** The state *)

(** One source-local alias. *)
Record alias_entry : Set := AliasEntry {
  alias_scope : N; alias_name : N; alias_target_identity : N; alias_target_intrinsic : N;
  alias_target_modifiers : source_fact_range }.

Record constructor_operation : Set := ConstructorOperation {
  operation_owner : N; operation_target : N; operation_expression : source_span }.

(** The descriptors of the parser's diagnostics. *)
Inductive descriptor : Set :=
| parser_syntax_error | parser_unsupported_construct | parser_semantic_resolution_failed
| parser_unresolved_type | parser_invalid_source_facts.

Record parser_diagnostic : Set := ParserDiagnostic {
  descriptor_of : descriptor; diagnostic_span : source_span; diagnostic_message : string }.

Section parser.
Context {S : Type}.

Record parser : Type := Parser {
  cursor : nat;
  candidate : source_facts;
  bindings : binding_index;
  object_bindings : object_binding_index;
  member_bindings : member_binding_index;
  local_aliases : list alias_entry;
  method_names : list (N * N);
  constructor_operations : list constructor_operation;
  emitted : list parser_diagnostic;
  semantic_state : S;
  allocations : nat }.

Definition set_cursor (n : nat) (s : parser) : parser :=
  Parser n (candidate s) (bindings s) (object_bindings s) (member_bindings s) (local_aliases s) (method_names s)
    (constructor_operations s) (emitted s) (semantic_state s) (allocations s).
Definition set_candidate (c : source_facts) (s : parser) : parser :=
  Parser (cursor s) c (bindings s) (object_bindings s) (member_bindings s) (local_aliases s) (method_names s)
    (constructor_operations s) (emitted s) (semantic_state s) (allocations s).
Definition set_bindings (t : binding_index) (s : parser) : parser :=
  Parser (cursor s) (candidate s) t (object_bindings s) (member_bindings s) (local_aliases s) (method_names s)
    (constructor_operations s) (emitted s) (semantic_state s) (allocations s).
Definition set_object_bindings (t : object_binding_index) (s : parser) : parser :=
  Parser (cursor s) (candidate s) (bindings s) t (member_bindings s) (local_aliases s) (method_names s)
    (constructor_operations s) (emitted s) (semantic_state s) (allocations s).
Definition set_member_bindings (t : member_binding_index) (s : parser) : parser :=
  Parser (cursor s) (candidate s) (bindings s) (object_bindings s) t (local_aliases s) (method_names s)
    (constructor_operations s) (emitted s) (semantic_state s) (allocations s).
Definition set_local_aliases (l : list alias_entry) (s : parser) : parser :=
  Parser (cursor s) (candidate s) (bindings s) (object_bindings s) (member_bindings s) l (method_names s)
    (constructor_operations s) (emitted s) (semantic_state s) (allocations s).
Definition set_method_names (l : list (N * N)) (s : parser) : parser :=
  Parser (cursor s) (candidate s) (bindings s) (object_bindings s) (member_bindings s) (local_aliases s) l
    (constructor_operations s) (emitted s) (semantic_state s) (allocations s).
Definition set_constructor_operations (l : list constructor_operation) (s : parser) : parser :=
  Parser (cursor s) (candidate s) (bindings s) (object_bindings s) (member_bindings s) (local_aliases s)
    (method_names s) l (emitted s) (semantic_state s) (allocations s).
Definition set_emitted (l : list parser_diagnostic) (s : parser) : parser :=
  Parser (cursor s) (candidate s) (bindings s) (object_bindings s) (member_bindings s) (local_aliases s)
    (method_names s) (constructor_operations s) l (semantic_state s) (allocations s).
Definition set_semantic_state (x : S) (s : parser) : parser :=
  Parser (cursor s) (candidate s) (bindings s) (object_bindings s) (member_bindings s) (local_aliases s)
    (method_names s) (constructor_operations s) (emitted s) x (allocations s).
Definition set_allocations (n : nat) (s : parser) : parser :=
  Parser (cursor s) (candidate s) (bindings s) (object_bindings s) (member_bindings s) (local_aliases s)
    (method_names s) (constructor_operations s) (emitted s) (semantic_state s) n.

(** ** Methods *)

Inductive outcome (A : Type) : Type :=
| Returned (value : A) (s : parser)
| Failed (code : status_code) (s : parser)
| Stuck.

Definition parse (A : Type) : Type := parser → outcome A.
End parser.
Arguments parser : clear implicits.
Arguments outcome : clear implicits.
Arguments parse : clear implicits.
Arguments Returned {_ _} _ _.
Arguments Failed {_ _} _ _.
Arguments Stuck {_ _}.

#[export] Instance parse_ret {S} : MRet (parse S) := λ A a s, Returned a s.
#[export] Instance parse_bind {S} : MBind (parse S) := λ A B k m s,
  match m s with
  | Returned a s' => k a s'
  | Failed code s' => Failed code s'
  | Stuck => Stuck
  end.

(** The characters of a literal. *)
Definition bytes (w : string) : list N := Ascii.N_of_ascii <$> String.list_ascii_of_string w.

Section methods.
Context {S : Type} `{!Semantic S} (source_text : list N) (tokens : list parser_token) (memory : nat → bool).
Local Notation parser := (parser S).
Local Notation parse := (parse S).

Definition read {A} (f : parser → A) : parse A := λ s, Returned (f s) s.
Definition update (f : parser → parser) : parse unit := λ s, Returned tt (f s).
Definition stop {A} (code : status_code) : parse A := λ s, Failed code s.

(** Whether the next allocation succeeds. *)
Definition try_allocate : parse bool :=
  λ s, Returned (memory (allocations s)) (set_allocations (Datatypes.S (allocations s)) s).
Definition allocate : parse unit := b ← try_allocate; if (b : bool) then mret tt else stop not_available.

(** [candidate.l.push_back(...)]. *)
Definition push (f : source_facts → source_facts) : parse unit :=
  allocate;; update (λ s, set_candidate (f (candidate s)) s).

(** A loop whose turns carry a value and leave with a result; a turn that goes on has advanced the
    cursor, so the tokens ahead are turns enough. *)
Fixpoint iterate {A R} (fuel : nat) (body : A → parse (A + R)) (a : A) : parse R :=
  match fuel with
  | O => λ _, Stuck
  | Datatypes.S fuel' =>
      t ← body a;
      match t with
      | inl a' => iterate fuel' body a'
      | inr r => mret r
      end
  end.

Definition forever {A R} (body : A → parse (A + R)) (a : A) : parse R :=
  λ s, iterate (Datatypes.S (length tokens - cursor s)) body a s.

(** *** The cursor *)

Definition no_token : parser_token := Token 0 0 eof none 0.

Definition current (s : parser) : parser_token :=
  default no_token (tokens !! (if cursor s <? length tokens then cursor s else length tokens - 1)%nat).

(** [tokens[cursor + n]], where there is one. *)
Definition ahead (n : nat) (s : parser) : option parser_token := tokens !! (cursor s + n)%nat.

Definition span (t : parser_token) : source_span := Span (token_offset t) (token_length t).

(** [string_view::substr]: the offset is in the text. *)
Definition substr (offset length : N) : list N := take (N.to_nat length) (drop (N.to_nat offset) source_text).

Definition token_text (t : parser_token) : list N :=
  if (size source_text <? token_offset t) || (size source_text - token_offset t <? token_length t) then []
  else substr (token_offset t) (token_length t).

Definition is_kind_of (kind : parser_token_kind) (s : parser) : bool := bool_decide (token_kind (current s) = kind).

Definition identifier (value : string) (s : parser) : bool :=
  is_kind_of Lexer.identifier s && bool_decide (token_text (current s) = bytes value).

Definition is_punctuation (value : parser_punctuation) (t : parser_token) : bool :=
  bool_decide (token_kind t = Lexer.punctuation) && bool_decide (token_punctuation t = value).

Definition punctuation (value : parser_punctuation) (s : parser) : bool := is_punctuation value (current s).

Definition advance : parse unit :=
  update (λ s, if (cursor s + 1 <? length tokens)%nat then set_cursor (cursor s + 1) s else s).

(** *** Diagnostics *)

(** The diagnostic is lost where it cannot be recorded. *)
Definition fail {A} (d : descriptor) (location : source_span) (detail : string) (code : status_code) : parse A :=
  b ← try_allocate;
  (if (b : bool) then update (λ s, set_emitted (emitted s ++ [ParserDiagnostic d location detail]) s) else mret tt);;
  stop code.

Definition fail_syntax {A} (location : source_span) (detail : string) : parse A :=
  fail parser_syntax_error location detail invalid_argument.
Definition fail_unsupported {A} (location : source_span) (detail : string) : parse A :=
  fail parser_unsupported_construct location detail not_available.

(** [if (!b) return fail_syntax(span(current()), detail);] and its sister. *)
Definition demand (b : parser → bool) (detail : string) : parse unit :=
  s ← read id; if b s then mret tt else fail_syntax (span (current s)) detail.
Definition demand_supported (b : parser → bool) (detail : string) : parse unit :=
  s ← read id; if b s then mret tt else fail_unsupported (span (current s)) detail.

(** *** Services *)

Definition intern (text : list N) : parse N := λ s,
  match intern_string text (semantic_state s) with
  | (ok, id, x) => Returned id (set_semantic_state x s)
  | (code, _, x) => Failed code (set_semantic_state x s)
  end.

(** [resolve_declaration] and the diagnostic of its failure. *)
Definition resolve (scope : N) (name : list N) (kind : IdentitySpace.identity_kind)
    (location : parser → source_span) (detail : string) : parse N := λ s,
  match resolve_declaration scope name kind (semantic_state s) with
  | (ok, identity, x) => Returned identity (set_semantic_state x s)
  | (code, _, x) =>
      let s := set_semantic_state x s in
      fail parser_semantic_resolution_failed (location s) detail code s
  end.

Definition find (text : list N) : parse N := read (λ s, find_string (semantic_state s) text).

(** A table insertion that fails is reported as a conflict of [detail]. *)
Definition bind_type (identity : N) (location : source_span) (detail : string) : parse unit :=
  b ← try_allocate; s ← read id;
  let '(result, t) := insert_type b (identity_parent (semantic_state s) identity)
    (identity_name (semantic_state s) identity) identity (bindings s) in
  update (set_bindings t);;
  if bool_decide (result = ok) then mret tt
  else fail parser_semantic_resolution_failed location detail result.

Definition bind_object (identity named_type : N) (location : source_span) (detail : string) : parse unit :=
  b ← try_allocate; s ← read id;
  let '(result, t) := insert_object b (identity_parent (semantic_state s) identity)
    (identity_name (semantic_state s) identity) identity named_type (object_bindings s) in
  update (set_object_bindings t);;
  if bool_decide (result = ok) then mret tt
  else fail parser_semantic_resolution_failed location detail result.

Definition bind_member (type name member : N) (location : source_span) (detail : string) : parse unit :=
  b ← try_allocate; s ← read id;
  let '(result, t) := insert_member b type name member (member_bindings s) in
  update (set_member_bindings t);;
  if bool_decide (result = ok) then mret tt
  else fail parser_semantic_resolution_failed location detail result.
End methods.

End ParserState.
