(* ===== verification/ParserTypes.v ===== *)
(** * Lexical scans and types

    Models, of server_engine/project/parser/source_parser.cpp, the scans that skip text by its
    brackets, the lookups of visible names, and the types: bases, modifiers, array suffixes,
    parameter lists and alias targets.  A local modifier vector is returned as the list that is
    appended to it. *)

From S2P Require Import Prelude Lexer IdentitySpace Construction SourceFacts SourceEnvironment ParserState.

Local Open Scope N_scope.

Module ParserTypes.

Import Lexer SourceFacts SourceEnvironment ParserState.

#[local] Existing Instance IdentitySpace.identity_kind_eq_dec.

(** [end - start] in 32 bits. *)
Definition minus32 (a b : N) : N := w32 (a + two32 - b).
Definition span_from (start end_ : N) : source_span := Span start (minus32 end_ start).
(** [token.offset + token.length]. *)
Definition end_of (t : parser_token) : N := w32 (token_offset t + token_length t).

Definition u32_max : N := two32 - 1.

Definition opening (p : parser_punctuation) : bool :=
  match p with left_parenthesis | left_brace | left_bracket => true | _ => false end.
Definition closing (p : parser_punctuation) : bool :=
  match p with right_parenthesis | right_brace | right_bracket => true | _ => false end.
Definition closer (p : parser_punctuation) : parser_punctuation :=
  match p with left_parenthesis => right_parenthesis | left_brace => right_brace | _ => right_bracket end.

(** Where a name stands for a built-in type on its own. *)
Definition simple_names : list (string * N) :=
  [("void", 1); ("bool", 2); ("char", 3); ("wchar_t", 6); ("char8_t", 7); ("char16_t", 8); ("char32_t", 9);
   ("float", 18); ("double", 19); ("int", 12); ("short", 10); ("long", 14)]%string.
Definition simple_intrinsic (name : list N) : option N :=
  (λ e, e.2.2) <$> list_find (λ e, bytes e.1 = name) simple_names.

(** What [parse_type_base] leaves in its out parameters. *)
Record type_base : Set := TypeBase {
  base_semantic : N; base_intrinsic : N; base_end : N; base_modifiers : list source_type_modifier }.

Section types.
Context {S : Type} `{!Semantic S} (environment : environment_view).
Context (source_text : list N) (tokens : list parser_token) (memory : nat → bool).
Local Notation parser := (parser S).
Local Notation parse := (parse S).
Local Notation token_text := (token_text source_text).
Local Notation current := (current tokens).
Local Notation ahead := (ahead tokens).
Local Notation identifier := (identifier source_text tokens).
Local Notation punctuation := (punctuation tokens).
Local Notation is_kind_of := (is_kind_of tokens).
Local Notation advance := (advance tokens).
Local Notation forever := (forever tokens).
Local Notation allocate := (allocate memory).
Local Notation push := (push memory).
Local Notation fail := (fail memory).
Local Notation fail_syntax := (fail_syntax memory).
Local Notation fail_unsupported := (fail_unsupported memory).
Local Notation demand := (demand tokens memory).
Local Notation demand_supported := (demand_supported tokens memory).

Definition here (s : parser) : source_span := span (current s).

(** ** Scans *)

(** The switch on a punctuation inside an expression: the brackets still to be closed, the
    innermost first; nothing where the expression is not balanced. *)
Definition nest (kind : parser_punctuation) (closes : list parser_punctuation) : option (list parser_punctuation) :=
  if opening kind then Some (closer kind :: closes)
  else if closing kind then
    match closes with
    | top :: closes' => if bool_decide (top = kind) then Some closes' else None
    | [] => None
    end
  else if bool_decide (kind = semicolon) && bool_decide (closes = []) then None
  else Some closes.

Definition scan_turn (terminator : parser_punctuation) (begin : N) (st : list parser_punctuation * bool) :
    parse ((list parser_punctuation * bool) + option source_span) :=
  let '(closes, consumed) := st in
  s ← read id;
  let token := current s in
  let kind := token_punctuation token in
  if bool_decide (token_kind token = eof) then mret (inr None)
  else if bool_decide (token_kind token = Lexer.punctuation) then
    if bool_decide (closes = []) && (bool_decide (kind = terminator) || bool_decide (kind = comma)) then
      mret (inr (if (consumed : bool) then Some (span_from begin (token_offset token)) else None))
    else match nest kind closes with
         | None => mret (inr None)
         | Some closes' => (if opening kind then allocate else mret tt);; advance;; mret (inl (closes', true))
         end
  else advance;; mret (inl (closes, true)).

(** The spelling of a nonempty balanced expression up to the terminator or a comma. *)
Definition scan_expression (terminator : parser_punctuation) : parse (option source_span) :=
  s ← read id; forever (scan_turn terminator (token_offset (current s))) ([], false).

(** The spelling and whether a comma follows. *)
Definition skip_declarator_initializer : parse (option (bool * source_span)) :=
  r ← scan_expression semicolon; comma_next ← read (punctuation comma);
  mret ((λ spelling, (comma_next, spelling)) <$> r).

Definition block_turn (depth : nat) : parse (nat + unit) :=
  s ← read id;
  if is_kind_of eof s then fail_syntax (here s) "unterminated block"
  else if punctuation left_brace s then advance;; mret (inl (depth + 1)%nat)
  else if punctuation right_brace s then
    match depth with
    | O => fail_syntax (here s) "unbalanced block"
    | 1%nat => advance;; mret (inr tt)
    | Datatypes.S depth' => advance;; mret (inl depth')
    end
  else advance;; mret (inl depth).

Definition skip_balanced_block : parse unit := forever block_turn 0%nat.

(** [do { ... } while (punctuation(left_brace))] over blocks. *)
Definition skip_blocks : parse unit :=
  forever (λ _, skip_balanced_block;; again ← read (punctuation left_brace);
    mret (if (again : bool) then inl tt else inr tt)) tt.

Definition parens_turn (st : nat * bool) : parse ((nat * bool) + bool) :=
  let '(depth, empty) := st in
  s ← read id;
  let kind := token_punctuation (current s) in
  if is_kind_of eof s then fail_syntax (here s) "unterminated parenthesis group"
  else if is_kind_of Lexer.punctuation s && opening kind then advance;; mret (inl ((depth + 1)%nat, false))
  else if is_kind_of Lexer.punctuation s && closing kind then
    match depth with
    | O => fail_syntax (here s) "unbalanced parenthesis group"
    | 1%nat => advance;; mret (inr empty)
    | Datatypes.S depth' => advance;; mret (inl (depth', empty))
    end
  else advance;; mret (inl (depth, false)).

(** Whether only closing brackets were inside. *)
Definition skip_balanced_parens : parse bool := advance;; forever parens_turn (1%nat, true).

Definition body_or_semi_turn (depth : nat) : parse (nat + unit) :=
  s ← read id;
  let kind := token_punctuation (current s) in
  if is_kind_of eof s then fail_syntax (here s) "unterminated declaration"
  else if is_kind_of Lexer.punctuation s then
    if bool_decide (kind = left_brace) && (depth =? 0)%nat then skip_blocks;; mret (inr tt)
    else if opening kind then advance;; mret (inl (depth + 1)%nat)
    else if closing kind then
      match depth with
      | O => fail_syntax (here s) "unbalanced declaration"
      | Datatypes.S depth' => advance;; mret (inl depth')
      end
    else if bool_decide (kind = semicolon) && (depth =? 0)%nat then advance;; mret (inr tt)
    else if bool_decide (kind = comma) && (depth =? 0)%nat then
      fail_syntax (here s) "unexpected ',' in declaration"
    else advance;; mret (inl depth)
  else advance;; mret (inl depth).

Definition skip_to_body_or_semi : parse unit := forever body_or_semi_turn 0%nat.

Definition skip_static_assert : parse unit :=
  advance;;
  demand (punctuation left_parenthesis) "expected '(' after 'static_assert'";;
  _ ← skip_balanced_parens;
  demand (punctuation semicolon) "expected ';' after static_assert";;
  advance.

Definition skip_friend_declaration : parse unit := advance;; skip_to_body_or_semi.

(** ** Visible names *)

(** From a scope through its parents to the first answer. *)
Fixpoint climb {R} (x : S) (visit : N → option R) (fuel : nat) (scope : N) : option (option R) :=
  if scope =? 0 then Some None
  else match visit scope with
       | Some r => Some (Some r)
       | None =>
           match fuel with
           | O => None
           | Datatypes.S fuel' => climb x visit fuel' (identity_parent x scope)
           end
       end.

(** A parent was declared first, so its slot is lower. *)
Definition ancestors_fuel (scope : N) : nat := Datatypes.S (N.to_nat (IdentitySpace.ref_slot scope)).

Definition lift {A} (o : option A) : parse A := match o with Some a => mret a | None => λ _, Stuck end.

Definition lookup_visible_type (scope name source_offset : N) : parse N :=
  s ← read id;
  r ← lift (climb (semantic_state s) (λ scope,
    let identity := lookup_type (bindings s) scope name in
    if negb (identity =? 0) then Some identity
    else let identity := find_type environment scope name source_offset in
    if negb (identity =? 0) then Some identity else None) (ancestors_fuel scope) scope);
  mret (default 0 r).

Definition lookup_visible_object (scope name source_offset : N) : parse source_interface_object :=
  s ← read id;
  r ← lift (climb (semantic_state s) (λ scope,
    let local := lookup_object (object_bindings s) scope name in
    if negb (found_identity local =? 0) then Some local
    else let imported := find_object environment scope name source_offset in
    if negb (found_identity imported =? 0) then Some imported else None) (ancestors_fuel scope) scope);
  mret (default no_object r).

Definition lookup_visible_member (type name source_offset : N) : parse N :=
  read (λ s,
    let local := lookup_member (member_bindings s) type name in
    if negb (local =? invalid_index) then local else find_member environment type name source_offset).

(** The last alias of the name whose scope encloses this one. *)
Fixpoint last_alias (x : S) (reversed : list alias_entry) (scope name : N) : option (option alias_entry) :=
  match reversed with
  | [] => Some None
  | entry :: reversed' =>
      if negb (alias_name entry =? name) then last_alias x reversed' scope name
      else match climb x (λ current, if current =? alias_scope entry then Some tt else None) (ancestors_fuel scope) scope with
           | None => None
           | Some (Some _) => Some (Some entry)
           | Some None => last_alias x reversed' scope name
           end
  end.

Definition find_visible_alias (scope name : N) : parse (option alias_entry) :=
  s ← read id; lift (last_alias (semantic_state s) (rev (local_aliases s)) scope name).

Definition check_alias_conflict (scope : N) (name : list N) : parse unit :=
  existing ← find name; s ← read id;
  if negb (existing =? 0) &&
      (existsb (λ entry, (alias_scope entry =? scope) && (alias_name entry =? existing)) (local_aliases s) ||
       negb (lookup_type (bindings s) scope existing =? 0))
  then fail parser_semantic_resolution_failed (here s) "alias name conflicts with a visible declaration" semantic_conflict
  else mret tt.

Definition method_name_exists (owner name : N) (s : parser) : bool :=
  existsb (λ entry, (entry.1 =? owner) && (entry.2 =? name)) (method_names s).

(** ** Types *)

Definition is_record_or_enum (s : parser) : bool :=
  is_kind_of keyword_struct s || is_kind_of keyword_class s || is_kind_of keyword_union s || is_kind_of keyword_enum s.

(** [if (identifier(w)) { type_end = ...; advance(); }] *)
Definition skip_word (w : string) (type_end : N) : parse N :=
  s ← read id;
  if identifier w s then advance;; mret (end_of (current s)) else mret type_end.

Definition is_unsigned_or (unsigned_value : bool) (u v : N) : N := if unsigned_value then u else v.

(** Behind [signed] or [unsigned]. *)
Definition sign_base (unsigned_value : bool) (type_end : N) : parse type_base :=
  s ← read id;
  if identifier "char" s then
    advance;; mret (TypeBase 0 (is_unsigned_or unsigned_value 5 4) (end_of (current s)) [])
  else if identifier "short" s then
    advance;; type_end ← skip_word "int" (end_of (current s));
    mret (TypeBase 0 (is_unsigned_or unsigned_value 11 10) type_end [])
  else if identifier "long" s then
    advance;; s' ← read id;
    (if identifier "long" s' then
       advance;; type_end ← skip_word "int" (end_of (current s'));
       mret (TypeBase 0 (is_unsigned_or unsigned_value 17 16) type_end [])
     else
       type_end ← skip_word "int" (end_of (current s));
       mret (TypeBase 0 (is_unsigned_or unsigned_value 15 14) type_end []))
  else
    type_end ← skip_word "int" type_end;
    mret (TypeBase 0 (is_unsigned_or unsigned_value 13 12) type_end []).

(** Behind the name of a built-in type. *)
Definition simple_base (intrinsic type_end : N) : parse type_base :=
  s ← read id;
  if (intrinsic =? 10) && identifier "int" s then advance;; mret (TypeBase 0 10 (end_of (current s)) [])
  else if intrinsic =? 14 then
    if identifier "double" s then advance;; mret (TypeBase 0 20 (end_of (current s)) [])
    else if identifier "long" s then
      advance;; type_end ← skip_word "int" (end_of (current s)); mret (TypeBase 0 16 type_end [])
    else type_end ← skip_word "int" type_end; mret (TypeBase 0 14 type_end [])
  else mret (TypeBase 0 intrinsic type_end []).

(** A name: a source-local alias, whose modifiers are copied, or a visible type. *)
Definition named_base (scope lookup_offset : N) (first : list N) (type_end : N) : parse type_base :=
  name ← find first;
  alias ← (if negb (name =? 0) then find_visible_alias scope name else mret None);
  match alias with
  | Some entry =>
      allocate;; s ← read id;
      advance;;
      mret (TypeBase (alias_target_identity entry) (alias_target_intrinsic entry) (end_of (current s))
        (section (alias_target_modifiers entry) (alias_modifiers (candidate s))))
  | None =>
      identity ← (if negb (name =? 0) then lookup_visible_type scope name lookup_offset else mret 0);
      s ← read id;
      if identity =? 0 then
        fail parser_unresolved_type (here s) "type name is not visible in the Source semantic environment" not_found
      else advance;; mret (TypeBase identity 0 type_end [])
  end.

Definition elaborated_base (scope lookup_offset : N) : parse type_base :=
  advance;;
  demand (is_kind_of Lexer.identifier) "expected type identifier after elaborated type specifier";;
  s ← read id;
  name ← find (token_text (current s));
  identity ← (if negb (name =? 0) then lookup_visible_type scope name lookup_offset else mret 0);
  if identity =? 0 then fail parser_unresolved_type (here s) "elaborated type name is not visible" not_found
  else advance;; mret (TypeBase identity 0 (end_of (current s)) []).

Definition parse_type_base (scope lookup_offset : N) : parse type_base :=
  s ← read id;
  if is_record_or_enum s then elaborated_base scope lookup_offset
  else
    demand (is_kind_of Lexer.identifier) "expected member type";;
    let first := token_text (current s) in
    let type_end := end_of (current s) in
    if bool_decide (first = bytes "signed") || bool_decide (first = bytes "unsigned") then
      advance;; sign_base (bool_decide (first = bytes "unsigned")) type_end
    else match simple_intrinsic first with
         | Some intrinsic => advance;; simple_base intrinsic type_end
         | None => named_base scope lookup_offset first type_end
         end.

Definition at_qualifier (s : parser) : bool := identifier "const" s || identifier "volatile" s.

(** [while (identifier("const") || identifier("volatile"))]: the modifiers and where the last one
    ends. *)
Definition qualifier_turn (st : list source_type_modifier * N) :
    parse ((list source_type_modifier * N) + (list source_type_modifier * N)) :=
  let '(modifiers, type_end) := st in
  s ← read id;
  if at_qualifier s then
    allocate;; advance;;
    mret (inl (modifiers ++ [TypeModifier 0 (if identifier "const" s then modifier_const else 1)], end_of (current s)))
  else mret (inr (modifiers, type_end)).

Definition qualifiers (modifiers : list source_type_modifier) (type_end : N) :
    parse (list source_type_modifier * N) :=
  forever qualifier_turn (modifiers, type_end).

(** Pointers, with their qualifiers, and references. *)
Definition suffix_turn (st : list source_type_modifier * N) :
    parse ((list source_type_modifier * N) + (list source_type_modifier * N)) :=
  let '(modifiers, type_end) := st in
  s ← read id;
  let with_kind kind := modifiers ++ [TypeModifier 0 kind] in
  if punctuation asterisk s then
    allocate;; advance;; st ← qualifiers (with_kind modifier_pointer) (end_of (current s)); mret (inl st)
  else if punctuation ampersand s then
    allocate;; advance;; mret (inl (with_kind 3, end_of (current s)))
  else if punctuation ampersand_ampersand s then
    allocate;; advance;; mret (inl (with_kind 4, end_of (current s)))
  else mret (inr (modifiers, type_end)).

(** The base with everything before and behind it that belongs to the type. *)
Definition parse_type (scope lookup_offset : N) : parse type_base :=
  s ← read id;
  '(leading, type_end) ← qualifiers [] (token_offset (current s));
  base ← parse_type_base scope lookup_offset;
  '(trailing, type_end) ← qualifiers (leading ++ base_modifiers base) (base_end base);
  '(all, type_end) ← forever suffix_turn (trailing, type_end);
  mret (TypeBase (base_semantic base) (base_intrinsic base) type_end all).

(** [parse_alias_target] is the same walk into [candidate.alias_modifiers]. *)
Definition parse_alias_target (scope lookup_offset : N) : parse type_base :=
  base ← parse_type scope lookup_offset;
  update (λ s, set_candidate (with_alias_modifiers (alias_modifiers (candidate s) ++ base_modifiers base) (candidate s)) s);;
  mret base.

Definition array_turn (member_context : bool) (bounds : list source_type_modifier) :
    parse (list source_type_modifier + list source_type_modifier) :=
  b ← read (punctuation left_bracket);
  if negb b then mret (inr bounds)
  else
    advance;;
    s ← read id;
    if punctuation right_bracket s then
      allocate;; advance;; mret (inl (bounds ++ [TypeModifier 0 modifier_unbounded_array]))
    else
      demand (is_kind_of integer_literal)
        (if member_context then "expected positive member array bound or ']'"
         else "expected positive object array bound or ']'");;
      match Construction.from_chars_uint64 (token_text (current s)) with
      | Some bound =>
          if bound =? 0 then
            fail_syntax (here s) (if member_context then "member array bound must be a positive decimal integer"
              else "object array bound must be a positive decimal integer")
          else
            advance;;
            demand (punctuation right_bracket)
              (if member_context then "expected ']' after member array bound"
               else "expected ']' after object array bound");;
            allocate;; advance;;
            mret (inl (bounds ++ [TypeModifier bound modifier_bounded_array]))
      | None =>
          fail_syntax (here s) (if member_context then "member array bound must be a positive decimal integer"
            else "object array bound must be a positive decimal integer")
      end.

Definition parse_array_suffix (member_context : bool) : parse (list source_type_modifier) :=
  forever (array_turn member_context) [].

(** ** Parameters *)

Definition is_dot (t : option parser_token) : bool :=
  match t with Some t => is_punctuation dot t | None => false end.

Definition skip_qualifiers : parse unit :=
  forever (λ _, b ← read at_qualifier; if (b : bool) then advance;; mret (inl tt) else mret (inr tt)) tt.

Definition pointer_turn (_ : unit) : parse (unit + unit) :=
  s ← read id;
  if punctuation asterisk s then advance;; skip_qualifiers;; mret (inl tt)
  else if punctuation ampersand s || punctuation ampersand_ampersand s then advance;; mret (inl tt)
  else mret (inr tt).

(** One parameter; the scope of its type is none. *)
Definition parameter_turn (_ : unit) : parse (unit + unit) :=
  s ← read id;
  if punctuation dot s then
    (if is_dot (ahead 1 s) && is_dot (ahead 2 s) then mret tt
     else fail_syntax (here s) "expected '...' in parameter list");;
    advance;; advance;; advance;;
    demand (punctuation right_parenthesis) "expected ')' after '...'";;
    advance;; mret (inr tt)
  else
    skip_qualifiers;;
    offset ← read (λ s, token_offset (current s));
    _ ← parse_type_base 0 offset;
    skip_qualifiers;;
    forever pointer_turn tt;;
    named ← read (is_kind_of Lexer.identifier);
    (if (named : bool) then advance else mret tt);;
    _ ← parse_array_suffix false;
    default_argument ← read (punctuation equal);
    (if (default_argument : bool) then
       advance;;
       argument ← scan_expression right_parenthesis;
       s ← read id;
       if bool_decide (argument = None) then fail_syntax (here s) "empty or unbalanced default argument" else mret tt
     else mret tt);;
    s ← read id;
    if punctuation comma s then advance;; mret (inl tt)
    else if punctuation right_parenthesis s then advance;; mret (inr tt)
    else fail_syntax (here s) "expected ',' or ')' in parameter list".

Definition parse_parameter_list : parse unit :=
  advance;;
  empty ← read (punctuation right_parenthesis);
  if (empty : bool) then advance else forever parameter_turn tt.
End types.

End ParserTypes.
