(* ===== verification/SourceParser.v ===== *)
(** * The source parser

    Models, of server_engine/project/parser/source_parser.cpp, the declarations: members and
    methods, constructors and the normalization of initializers, records, enumerations, objects,
    links, aliases, namespaces and scopes, and [source_parser::parse].  A method that returns in
    the middle of a loop is the turn of that loop.  The two conversions of [double] of the
    standard library are parameters, as in [Construction]. *)

From S2P Require Import Prelude Lexer IdentitySpace Construction SourceFacts SourceEnvironment ParserState ParserTypes.

Local Open Scope N_scope.

Module SourceParser.

Import Lexer SourceFacts SourceEnvironment ParserState ParserTypes.

#[local] Existing Instance IdentitySpace.identity_kind_eq_dec.

(** ** Text of an initializer *)

Definition trim_construction (value : list N) : list N := Construction.trim (Construction.skip value).

(** [value.starts_with(c)] and [value.remove_prefix(1)]. *)
Definition without_first (c : N) (value : list N) : list N :=
  match value with d :: value' => if d =? c then value' else value | [] => [] end.

Definition starts_with (c : N) (value : list N) : bool := match value with d :: _ => d =? c | [] => false end.
Definition ends_with (c : N) (value : list N) : bool := starts_with c (rev value).

(** [value.substr(1, value.size() - 2)] *)
Definition inner (value : list N) : list N := removelast (tl value).

(** [while (...) spelling = trim_construction(...)]: outer parentheses and braces; each turn drops two
    characters. *)
Fixpoint unwrap (fuel : nat) (value : list N) : list N :=
  match fuel with
  | O => value
  | Datatypes.S fuel' =>
      if (2 <=? size value) &&
          ((starts_with 40 value && ends_with 41 value) || (starts_with 123 value && ends_with 125 value))
      then unwrap fuel' (trim_construction (inner value)) else value
  end.

(** [spelling.starts_with(w)] and [spelling.remove_prefix(w.size())]. *)
Definition without_prefix (w value : list N) : list N :=
  if bool_decide (take (length w) value = w) then drop (length w) value else value.

Definition unsupported_value : Construction.construction_value := Construction.ConstructionValue 0 0 0 Construction.unsupported.

Definition is_reference (m : source_type_modifier) : bool := (modifier_code m =? 3) || (modifier_code m =? 4).

(** The first position of an element that satisfies a test. *)
Definition position {A} (test : A → bool) (l : list A) : option nat := fst <$> list_find (λ x, test x = true) l.

(** [candidate.members[index].construction = value] *)
Definition set_construction (value : Construction.construction_value) (m : source_member_fact) : source_member_fact :=
  MemberFact (member_type m) (member_name m) (member_declaration m) (member_visibility m) (member_initializer m) value.

Section parser.
Context {S : Type} `{!Semantic S} (environment : environment_view).
Context (from_chars_double : list N → option N) (to_chars_double : N → list N).
Context (source_text : list N) (tokens : list parser_token) (memory : nat → bool).
Local Notation parser := (parser S).
Local Notation parse := (parse S).
Local Notation token_text := (token_text source_text).
Local Notation current := (current tokens).
Local Notation ahead := (ahead tokens).
Local Notation here := (here tokens).
Local Notation identifier := (identifier source_text tokens).
Local Notation punctuation := (punctuation tokens).
Local Notation is_kind_of := (is_kind_of tokens).
Local Notation advance := (advance tokens).
Local Notation forever := (forever tokens).
Local Notation allocate := (allocate memory).
Local Notation push := (push memory).
Local Notation fail := (fail memory).
Local Notation fail_syntax := (fail_syntax memory).
Local Notation fail_unsupported := (fail_unsupported memory).
Local Notation demand := (demand tokens memory).
Local Notation demand_supported := (demand_supported tokens memory).
Local Notation resolve := (resolve memory).
Local Notation scan_expression := (scan_expression tokens memory).
Local Notation skip_declarator_initializer := (skip_declarator_initializer tokens memory).
Local Notation check_alias_conflict := (check_alias_conflict tokens memory).
Local Notation parse_type := (parse_type environment source_text tokens memory).
Local Notation parse_array_suffix := (parse_array_suffix source_text tokens memory).

(** [text.substr(offset, length)], which throws [std::out_of_range] past the end of the text. *)
Definition text_at (where_ : source_span) : parse (list N) :=
  if size source_text <? offset where_ then λ _, Stuck
  else mret (substr source_text (offset where_) (span_length where_)).

(** ** The normalized construction of a member *)

(** A scalar constant behind its optional sign. *)
Definition scalar_value (spelling : list N) : Construction.construction_value :=
  if bool_decide (spelling = bytes "false") || bool_decide (spelling = bytes "nullptr") then Construction.zero_value
  else if bool_decide (spelling = bytes "true") then Construction.constant Construction.unsigned_integer 1
  else
    let spelling := without_first 43 spelling in
    default unsupported_value
      (if existsb Construction.real_mark spelling then
         Construction.constant Construction.real <$> from_chars_double spelling
       else if starts_with 45 spelling then
         (λ z, Construction.constant Construction.signed_integer (bits_of_int64 z)) <$> Construction.from_chars_int64 spelling
       else Construction.constant Construction.unsigned_integer <$> Construction.from_chars_uint64 spelling).

Definition construction_expression (expression : source_span) (record : source_record_fact) (target : source_member_fact) :
    parse Construction.construction_value :=
  text ← text_at expression;
  s ← read id;
  let spelling := trim_construction text in
  let spelling := if starts_with 61 spelling then trim_construction (tl spelling) else spelling in
  let reference := existsb is_reference (section (ref_modifiers (member_type target)) (modifiers (candidate s))) in
  if negb reference && starts_with 123 spelling then
    match Construction.parse_aggregate_initializer from_chars_double spelling with
    | None => mret unsupported_value
    | Some initializer =>
        let canonical := Construction.encode_aggregate_initializer to_chars_double initializer in
        match intern_string canonical (semantic_state s) with
        | (ok, id, x) =>
            update (set_semantic_state x);; mret (Construction.ConstructionValue 0 0 id Construction.aggregate)
        | (_, _, x) => update (set_semantic_state x);; stop not_available
        end
    end
  else
    let spelling := unwrap (length spelling) spelling in
    if bool_decide (spelling = []) then mret Construction.zero_value
    else if reference then
      name ← find (without_prefix (bytes "this.") spelling);
      mret (match position (λ m, member_name m =? name) (section (record_members record) (members (candidate s))) with
            | Some i => Construction.ConstructionValue 0 0 (w32 (N.of_nat i + 1)) Construction.member_binding
            | None => unsupported_value
            end)
    else mret (scalar_value spelling).

Definition update_member (index : nat) (f : source_member_fact → source_member_fact) : parse unit :=
  update (λ s, set_candidate (with_members (alter f index (members (candidate s))) (candidate s)) s).

(** The first loop of [normalize_construction], over the members from [index] on. *)
Fixpoint normalize_members (record : source_record_fact) (index count : nat) : parse unit :=
  match count with
  | O => mret tt
  | Datatypes.S count' =>
      s ← read id;
      match members (candidate s) !! index with
      | None => λ _, Stuck
      | Some member =>
          value ← construction_expression (member_initializer member) record member;
          update_member index (set_construction value);;
          normalize_members record (Datatypes.S index) count'
      end
  end.

(** One turn of the second loop; [assigned] has the positions assigned before. *)
Definition normalize_operation (record : source_record_fact) (operation : constructor_operation) (assigned : list nat) :
    parse (list nat) :=
  if negb (operation_owner operation =? record_identity record) then mret assigned
  else
    s ← read id;
    let expression := operation_expression operation in
    match position (λ m, member_name m =? operation_target operation)
      (section (record_members record) (members (candidate s))) with
    | None => fail_syntax expression "constructor target is not a field of this record"
    | Some i =>
        let index := (N.to_nat (begin (record_members record)) + i)%nat in
        match members (candidate s) !! index with
        | None => λ _, Stuck
        | Some member =>
            value ← construction_expression expression record member;
            if bool_decide (Construction.kind value = Construction.unsupported) then
              fail_unsupported expression "constructor supports scalar constants and local reference bindings only"
            else if bool_decide (i ∈ assigned) &&
                bool_decide (Construction.kind (member_construction member) = Construction.member_binding) &&
                negb (bool_decide (member_construction member = value)) then
              fail_syntax expression "conflicting constructor reference bindings"
            else update_member index (set_construction value);; mret (i :: assigned)
        end
    end.

Fixpoint normalize_operations (record : source_record_fact) (operations : list constructor_operation)
    (assigned : list nat) : parse unit :=
  match operations with
  | [] => mret tt
  | operation :: operations' =>
      assigned ← normalize_operation record operation assigned;
      normalize_operations record operations' assigned
  end.

Definition normalize_construction (record : source_record_fact) : parse unit :=
  normalize_members record (N.to_nat (begin (record_members record))) (N.to_nat (count (record_members record)));;
  (if count (record_members record) =? 0 then mret tt else allocate);;
  operations ← read constructor_operations;
  normalize_operations record operations [];;
  update (λ s, set_constructor_operations
    (filter (λ o, operation_owner o ≠ record_identity record) (constructor_operations s)) s).

(** ** Constructors and methods *)

(** [constructor_operations.push_back(...)] *)
Definition record_operation (owner name : N) (expression : source_span) : parse unit :=
  allocate;;
  update (λ s, set_constructor_operations (constructor_operations s ++ [ConstructorOperation owner name expression]) s).

(** The items of a braced initializer. *)
Definition braced_item_turn (_ : unit) : parse (unit + unit) :=
  b ← read (punctuation right_brace);
  if (b : bool) then mret (inr tt)
  else
    item ← scan_expression right_brace;
    s ← read id;
    if bool_decide (item = None) then fail_syntax (here s) "invalid constructor initializer list"
    else if punctuation comma s then advance;; mret (inl tt) else mret (inr tt).

(** The expression in parentheses: empty, or up to the closing one. *)
Definition parenthesized_item (start : N) : parse source_span :=
  b ← read (punctuation right_parenthesis);
  item ← (if (b : bool) then mret (Some (Span start 0)) else scan_expression right_parenthesis);
  s ← read id;
  match item with
  | None => fail_syntax (here s) "invalid constructor initializer"
  | Some expression =>
      demand_supported (punctuation right_parenthesis) "use braces for aggregate initializer lists";; mret expression
  end.

Definition initializer_turn (owner : N) (_ : unit) : parse (unit + unit) :=
  demand (is_kind_of Lexer.identifier) "expected constructor field name";;
  s ← read id;
  name ← intern (token_text (current s));
  advance;;
  s ← read id;
  let parenthesis := punctuation left_parenthesis s in
  demand (λ s, punctuation left_parenthesis s || punctuation left_brace s) "expected field initializer";;
  let opening_offset := token_offset (current s) in
  advance;;
  s ← read id;
  expression ← (if parenthesis then parenthesized_item (token_offset (current s))
    else
      forever braced_item_turn tt;;
      demand (punctuation right_brace) "expected '}' in constructor initializer";;
      s ← read id; mret (span_from opening_offset (end_of (current s))));
  advance;;
  record_operation owner name expression;;
  s ← read id;
  if punctuation comma s then advance;; mret (inl tt) else mret (inr tt).

Definition assignment_turn (owner : N) (_ : unit) : parse (unit + unit) :=
  b ← read (punctuation right_brace);
  if (b : bool) then mret (inr tt)
  else
    demand_supported (is_kind_of Lexer.identifier) "constructor body supports field assignments only";;
    s ← read id;
    name ← intern (token_text (current s));
    advance;;
    demand_supported (punctuation equal) "constructor body supports field assignments only";;
    advance;;
    expression ← scan_expression semicolon;
    s ← read id;
    match expression with
    | Some expression =>
        if punctuation semicolon s then advance;; record_operation owner name expression;; mret (inl tt)
        else fail_syntax (here s) "invalid constructor assignment"
    | None => fail_syntax (here s) "invalid constructor assignment"
    end.

(** [= default;] *)
Definition parse_defaulted : parse unit :=
  advance;;
  demand_supported (identifier "default") "managed constructors support '= default' only";;
  advance;;
  demand (punctuation semicolon) "expected ';'";;
  advance.

Definition parse_constructor_trailer (owner : N) : parse unit :=
  s ← read id;
  (if identifier "noexcept" s then advance else mret tt);;
  s ← read id;
  if punctuation semicolon s then advance
  else if punctuation equal s then parse_defaulted
  else
    (if punctuation colon s then advance;; forever (initializer_turn owner) tt else mret tt);;
    demand (punctuation left_brace) "expected constructor body";;
    advance;;
    forever (assignment_turn owner) tt;;
    advance.

(** What a function trailer records. *)
Record trailer : Set := Trailer { trailer_const : bool; trailer_override : bool; trailer_pure : bool }.

Definition ignored_word (text : list N) : bool :=
  bool_decide (text = bytes "final") || bool_decide (text = bytes "noexcept") || bool_decide (text = bytes "throw") ||
  bool_decide (text = bytes "requires").

(** Behind an [=] at depth 0: whether the function is pure. *)
Definition trailer_equal (pure : bool) : parse bool :=
  advance;;
  s ← read id;
  if is_kind_of integer_literal s && bool_decide (token_text (current s) = bytes "0") then advance;; mret true
  else if bool_decide (token_text (current s) = bytes "default") || bool_decide (token_text (current s) = bytes "delete")
  then advance;; mret pure
  else fail_syntax (here s) "expected '0', 'default', or 'delete' after '='".

(** The flags, whether [->] was seen, and the depth of the brackets. *)
Definition trailer_turn (st : trailer * bool * nat) : parse ((trailer * bool * nat) + trailer) :=
  let '(Trailer is_const is_override is_pure as flags, arrow_seen, depth) := st in
  s ← read id;
  let kind := token_punctuation (current s) in
  let go flags arrow_seen depth := advance;; mret (inl (flags, arrow_seen, depth)) in
  if is_kind_of eof s then fail_syntax (here s) "unterminated function declaration"
  else if is_kind_of Lexer.punctuation s then
    if bool_decide (kind = left_brace) && (depth =? 0)%nat then skip_blocks tokens memory;; mret (inr flags)
    else if opening kind then go flags arrow_seen (depth + 1)%nat
    else if closing kind then
      match depth with
      | O => fail_syntax (here s) "unbalanced function declaration"
      | Datatypes.S depth' => go flags arrow_seen depth'
      end
    else if bool_decide (kind = semicolon) && (depth =? 0)%nat then advance;; mret (inr flags)
    else if bool_decide (kind = comma) && (depth =? 0)%nat then
      fail_syntax (here s) "unexpected ',' in function declaration"
    else if bool_decide (kind = equal) && (depth =? 0)%nat then
      pure ← trailer_equal is_pure; mret (inl (Trailer is_const is_override pure, arrow_seen, depth))
    else if bool_decide (kind = minus) && (depth =? 0)%nat then
      if (match ahead 1 s with Some t => is_punctuation greater t | None => false end)
      then advance;; go flags true depth else go flags arrow_seen depth
    else go flags arrow_seen depth
  else if is_kind_of Lexer.identifier s && (depth =? 0)%nat && negb arrow_seen then
    let text := token_text (current s) in
    if bool_decide (text = bytes "const") then go (Trailer true is_override is_pure) arrow_seen depth
    else if bool_decide (text = bytes "override") then go (Trailer is_const true is_pure) arrow_seen depth
    else if ignored_word text then go flags arrow_seen depth
    else fail_syntax (here s) "unexpected token in function declaration"
  else go flags arrow_seen depth.

Definition parse_method_trailer : parse trailer := forever trailer_turn (Trailer false false false, false, 0%nat).

(** The parts of a method that its declaration has before the parentheses. *)
Record method_head : Set := MethodHead {
  head_name : N; head_identity : N; head_intrinsic : N; head_modifiers : source_fact_range;
  head_virtual : bool; head_static : bool; head_constructor : bool; head_destructor : bool }.

(** [candidate.methods.push_back(...)] and [method_names.push_back(...)]. *)
Definition record_method (record : N) (method : source_method_fact) : parse unit :=
  push (λ c, with_methods (methods c ++ [method]) c);;
  allocate;;
  update (λ s, set_method_names (method_names s ++ [(record, method_name method)]) s).

Definition parse_method_tail (record declaration_start access : N) (head : method_head) : parse unit :=
  s ← read id;
  (if head_constructor head &&
      negb (match ahead 1 s with Some t => bool_decide (token_punctuation t = right_parenthesis) | None => false end)
   then fail_unsupported (here s) "managed constructors must have no parameters" else mret tt);;
  parse_parameter_list environment source_text tokens memory;;
  flags ← (if head_constructor head then parse_constructor_trailer record;; mret (Trailer false false false)
    else parse_method_trailer);
  s ← read id;
  let declaration_end := token_offset (current s) in
  if declaration_end <=? declaration_start then fail_syntax (here s) "empty method declaration"
  else
    record_method record (MethodFact (head_name head)
      (SourceTypeRef (head_identity head) (head_intrinsic head) (head_modifiers head) no_span) access
      (span_from declaration_start declaration_end) (head_virtual head) (trailer_override flags) (trailer_pure flags)
      (head_static head) (trailer_const flags) (head_constructor head) (head_destructor head)).

(** ** Members *)

(** What stands before the type of a member. *)
Record specifiers : Set := Specifiers { spec_static : bool; spec_virtual : bool; spec_explicit : bool }.

Definition specifier_turn (sp : specifiers) : parse (specifiers + specifiers) :=
  s ← read id;
  let prefix := token_text (current s) in
  if negb (is_kind_of Lexer.identifier s) then mret (inr sp)
  else if bool_decide (prefix = bytes "static") then
    advance;; mret (inl (Specifiers true (spec_virtual sp) (spec_explicit sp)))
  else if bool_decide (prefix = bytes "virtual") then
    advance;; mret (inl (Specifiers (spec_static sp) true (spec_explicit sp)))
  else if bool_decide (prefix = bytes "explicit") || bool_decide (prefix = bytes "inline") ||
      bool_decide (prefix = bytes "constexpr") then
    advance;; mret (inl (Specifiers (spec_static sp) (spec_virtual sp) true))
  else mret (inr sp).

(** The loop behind [operator], up to the parenthesis. *)
Definition operator_turn (_ : unit) : parse (unit + unit) :=
  s ← read id;
  if punctuation left_parenthesis s then mret (inr tt)
  else if is_kind_of eof s || punctuation semicolon s || punctuation comma s || punctuation left_brace s ||
      punctuation right_brace s then
    fail_syntax (here s) "expected '(' after operator spelling"
  else advance;; mret (inl tt).

(** A method without parameters, result and modifiers of its own. *)
Definition parse_special (record record_name declaration_start access : N) (is_virtual constructor : bool) : parse unit :=
  s ← read id;
  parse_method_tail record declaration_start access
    (MethodHead record_name 0 0 (FactRange (w32 (size (method_modifiers (candidate s)))) 0) is_virtual false
      constructor (negb constructor)).

Definition parse_destructor (scope record record_name declaration_start access : N) (is_virtual : bool) : parse unit :=
  advance;;
  demand (is_kind_of Lexer.identifier) "expected destructor name after '~'";;
  s ← read id;
  name ← find (token_text (current s));
  type ← (if negb (name =? 0) then lookup_visible_type environment scope name declaration_start else mret 0);
  (if (type =? 0) || negb (type =? record)
   then fail_syntax (here s) "destructor name must match its record" else mret tt);;
  advance;;
  demand (punctuation left_parenthesis) "expected '(' after destructor name";;
  parse_special record record_name declaration_start access is_virtual false.

(** The number of elements from [begin] on, where both fit 32 bits. *)
Definition fact_range (begin end_ : N) : parse source_fact_range :=
  if (u32_max <? begin) || (u32_max <? end_ - begin) then stop not_available else mret (FactRange begin (end_ - begin)).

(** The context of a declarator: the record, the specifiers, where the declaration starts, the
    access and the type. *)
Record member_context : Set := MemberContext {
  context_record : N; context_record_name : N; context_specifiers : specifiers; context_start : N;
  context_access : N; context_type : type_base }.

(** [spill_type_mods]: where the modifiers of the type begin and end. *)
Definition spill_method (modifiers : list source_type_modifier) : parse (N * N) :=
  allocate;;
  s ← read id;
  let c := candidate s in
  update (set_candidate (with_method_modifiers (method_modifiers c ++ modifiers) c));;
  mret (size (method_modifiers c), size (method_modifiers c ++ modifiers)).

Definition spill_modifiers (modifiers_ : list source_type_modifier) : parse (N * N) :=
  allocate;;
  s ← read id;
  let c := candidate s in
  update (set_candidate (with_modifiers (modifiers c ++ modifiers_) c));;
  mret (size (modifiers c), size (modifiers c ++ modifiers_)).

(** A declarator behind the first copies the modifiers of the type. *)
Definition copy_modifiers (first : bool) (shared : N * N) : parse N :=
  if first then mret shared.1
  else
    allocate;;
    s ← read id;
    let c := candidate s in
    update (set_candidate (with_modifiers
      (modifiers c ++ section (FactRange shared.1 (shared.2 - shared.1)) (modifiers c)) c));;
    mret (size (modifiers c)).

Definition append_modifiers (l : list source_type_modifier) : parse unit :=
  update (λ s, set_candidate (with_modifiers (modifiers (candidate s) ++ l) (candidate s)) s).

(** The member name of a declarator, and whether it is an operator. *)
Definition declarator_name : parse N :=
  s ← read id;
  let text := token_text (current s) in
  if bool_decide (text = bytes "operator") then
    advance;; forever operator_turn tt;; intern (bytes "operator")
  else name ← intern text; advance;; mret name.

Definition parse_method (ctx : member_context) (declarator : source_span) (member_name : N) : parse unit :=
  s ← read id;
  let record := context_record ctx in
  if method_name_exists record member_name s || negb (lookup_member (member_bindings s) record member_name =? invalid_index)
  then fail parser_semantic_resolution_failed declarator "method name conflicts with a visible member" semantic_conflict
  else
    '(begin, shared_end) ← spill_method (base_modifiers (context_type ctx));
    range ← fact_range begin shared_end;
    parse_method_tail record (context_start ctx) (context_access ctx)
      (MethodHead member_name (base_semantic (context_type ctx)) (base_intrinsic (context_type ctx)) range
        (spec_virtual (context_specifiers ctx)) (spec_static (context_specifiers ctx)) false false).

(** The initializer of a declarator and whether a comma follows it. *)
Definition declarator_initializer (parenthesis : bool) (no_value unbalanced : string) : parse (bool * source_span) :=
  s ← read id;
  if punctuation equal s then
    advance;;
    r ← skip_declarator_initializer;
    s' ← read id;
    match r with
    | Some (comma_next, _) => mret (comma_next, span_from (token_offset (current s)) (token_offset (current s')))
    | None => fail_syntax (here s') no_value
    end
  else if punctuation left_brace s || (parenthesis && punctuation left_parenthesis s) then
    r ← skip_declarator_initializer;
    s' ← read id;
    match r with
    | Some r => mret r
    | None => fail_syntax (here s') unbalanced
    end
  else if punctuation comma s then mret (true, no_span)
  else if punctuation semicolon s then mret (false, no_span)
  else fail_unsupported (here s) "function-style declarators are not implemented".

(** The reference to the type of a declarator: one of the two constructors. *)
Definition declared_type (type : type_base) (range : source_fact_range) (spelling : source_span) : source_type_ref :=
  if negb (base_semantic type =? 0) then semantic (base_semantic type) range spelling
  else builtin (base_intrinsic type) range spelling.

Definition reject_bit_field : parse unit :=
  s ← read id;
  if punctuation colon s then fail_unsupported (here s) "bit-fields are not implemented: width is layout semantics"
  else mret tt.

(** A data member behind its name; the range of the modifiers of the type is [spilled] after the
    first declarator. *)
Definition parse_data_member (ctx : member_context) (declarator : source_span) (member_name : N) (first : bool)
    (spilled : option (N * N)) : parse ((bool * option (N * N)) + unit) :=
  let type := context_type ctx in
  shared ← (match spilled with Some shared => mret shared | None => spill_modifiers (base_modifiers type) end);
  (if spec_virtual (context_specifiers ctx) || spec_explicit (context_specifiers ctx)
   then fail_syntax declarator "specifier requires a function declarator" else mret tt);;
  s ← read id;
  (if method_name_exists (context_record ctx) member_name s
   then fail parser_semantic_resolution_failed declarator "data member name conflicts with a visible method" semantic_conflict
   else mret tt);;
  declarator_begin ← copy_modifiers first shared;
  bounds ← parse_array_suffix true;
  append_modifiers bounds;;
  reject_bit_field;;
  '(comma_next, initializer) ← declarator_initializer false "expected ',' or ';' after member initializer"
    "unbalanced member initializer";
  s ← read id;
  range ← fact_range declarator_begin (size (modifiers (candidate s)));
  let start := context_start ctx in
  push (λ c, with_members (members c ++ [MemberFact (declared_type type range (span_from start (base_end type)))
    member_name (span_from start (end_of (current s))) (context_access ctx) initializer Construction.zero_value]) c);;
  advance;;
  mret (if (comma_next : bool) then inl (false, Some shared) else inr tt).

Definition declarator_turn (ctx : member_context) (st : bool * option (N * N)) :
    parse ((bool * option (N * N)) + unit) :=
  let '(first, spilled) := st in
  s ← read id;
  let type := base_semantic (context_type ctx) in
  if punctuation left_parenthesis s then
    if (type =? 0) || negb (type =? context_record ctx) then
      fail_syntax (here s) "expected data member identifier"
    else
      parse_special (context_record ctx) (context_record_name ctx) (context_start ctx) (context_access ctx)
        (spec_virtual (context_specifiers ctx)) true;;
      mret (inr tt)
  else
    reject_bit_field;;
    demand (is_kind_of Lexer.identifier) "expected non-static data member identifier";;
    s ← read id;
    let declarator := here s in
    member_name ← declarator_name;
    b ← read (punctuation left_parenthesis);
    if (b : bool) then parse_method ctx declarator member_name;; mret (inr tt)
    else parse_data_member ctx declarator member_name first spilled.

Definition parse_member (scope access record record_name : N) : parse unit :=
  s ← read id;
  let declaration_start := token_offset (current s) in
  (if identifier "auto" s
   then fail_unsupported (here s) "deduced types are not implemented: values are outside the metadata model"
   else mret tt);;
  sp ← forever specifier_turn (Specifiers false false false);
  b ← read (punctuation tilde);
  if (b : bool) then parse_destructor scope record record_name declaration_start access (spec_virtual sp)
  else
    type ← parse_type scope declaration_start;
    forever (declarator_turn (MemberContext record record_name sp declaration_start access type)) (true, None).

(** ** Records *)

Definition append_declaration (kind index : N) (declaration : source_span) : parse unit :=
  push (λ c, with_declarations (declarations c ++ [DeclarationRef index kind declaration]) c).

(** [candidate.declarations[sequence_index].declaration = declaration] *)
Definition set_declaration (index : N) (declaration : source_span) : parse unit :=
  update (λ s, let c := candidate s in set_candidate (with_declarations (alter
    (λ d, DeclarationRef (declaration_index d) (declaration_code d) declaration) (N.to_nat index) (declarations c)) c) s).

Definition update_record (index : N) (f : source_record_fact → source_record_fact) : parse unit :=
  update (λ s, let c := candidate s in set_candidate (with_records (alter f (N.to_nat index) (records c)) c) s).

(** The specifiers of a base: [virtual] and the access. *)
Definition base_specifier_turn (st : bool * N) : parse ((bool * N) + (bool * N)) :=
  let '(is_virtual, access) := st in
  s ← read id;
  if identifier "virtual" s then advance;; mret (inl (true, access))
  else if identifier "public" s then advance;; mret (inl (is_virtual, 0))
  else if identifier "protected" s then advance;; mret (inl (is_virtual, 1))
  else if identifier "private" s then advance;; mret (inl (is_virtual, 2))
  else mret (inr (is_virtual, access)).

Definition is_token (p : parser_punctuation) (t : option parser_token) : bool :=
  match t with Some t => is_punctuation p t | None => false end.

(** [kind] is the code of the record kind: 1 is [class_type]. *)
Definition base_turn (scope kind lookup_offset : N) (_ : unit) : parse (unit + unit) :=
  '(is_virtual, access) ← forever base_specifier_turn (false, if kind =? 1 then 2 else 0);
  demand (is_kind_of Lexer.identifier) "expected base type name";;
  s ← read id;
  let base_span := here s in
  name ← find (token_text (current s));
  base ← (if negb (name =? 0) then lookup_visible_type environment scope name lookup_offset else mret 0);
  if base =? 0 then
    fail parser_unresolved_type base_span "base type name is not visible in the Source semantic environment" not_found
  else
    advance;;
    s ← read id;
    (if punctuation colon s then
       if is_token colon (ahead 1 s)
       then fail_unsupported (here s) "qualified base type names are not implemented"
       else fail_syntax (here s) "expected ',' or '{' after base type name"
     else mret tt);;
    push (λ c, with_bases (bases c ++ [BaseFact base access base_span is_virtual]) c);;
    s ← read id;
    if punctuation comma s then advance;; mret (inl tt) else mret (inr tt).

Definition parse_base_clause (scope kind lookup_offset : N) : parse unit := forever (base_turn scope kind lookup_offset) tt.

(** The code of an access specifier. *)
Definition access_code (text : list N) : option N :=
  if bool_decide (text = bytes "public") then Some 0
  else if bool_decide (text = bytes "protected") then Some 1
  else if bool_decide (text = bytes "private") then Some 2 else None.

(** One turn in the body of a record, from the access in force. *)
Definition record_turn (scope identity record_name access : N) : parse (N + unit) :=
  s ← read id;
  if is_kind_of eof s || punctuation right_brace s then mret (inr tt)
  else if punctuation semicolon s then advance;; mret (inl access)
  else
    match (if is_kind_of Lexer.identifier s then access_code (token_text (current s)) else None) with
    | Some access =>
        advance;;
        demand (punctuation colon) "expected ':' after access specifier";;
        advance;; mret (inl access)
    | None =>
        (if identifier "static_assert" s then skip_static_assert tokens memory
         else if identifier "friend" s then skip_friend_declaration tokens memory
         else if identifier "operator" s then fail_unsupported (here s) "conversion operators are not implemented"
         else parse_member scope access identity record_name);;
        mret (inl access)
    end.

(** [member_bindings.insert] for the members of a definition from [index] on. *)
Fixpoint bind_members (identity : N) (declaration : source_span) (index : nat) (ms : list source_member_fact) : parse unit :=
  match ms with
  | [] => mret tt
  | m :: ms' =>
      bind_member memory identity (member_name m) (w32 (N.of_nat index)) declaration "record member name conflicts within type";;
      bind_members identity declaration (Datatypes.S index) ms'
  end.

(** The name of a record: its identity, its string and its binding. *)
Definition declare_record (scope : N) : parse (N * N) :=
  s ← read id;
  let name_span := here s in
  let text := token_text (current s) in
  check_alias_conflict scope text;;
  identity ← resolve scope text IdentitySpace.type_kind (λ _, name_span) "failed to resolve record declaration";
  record_name ← intern text;
  bind_type memory identity name_span "local type binding conflicts with canonical project identity";;
  mret (identity, record_name).

(** [struct A;]: the record stays as it was pushed. *)
Definition finish_record_declaration (start base_begin record_index sequence_index : N) : parse unit :=
  s ← read id;
  (if negb (size (bases (candidate s)) =? base_begin)
   then fail_syntax (here s) "base clause requires a record definition" else mret tt);;
  let declaration := span_from start (end_of (current s)) in
  update_record record_index (λ r, RecordFact (record_identity r) (record_members r) (record_bases r)
    (record_methods r) declaration (record_declared r) (record_code r));;
  set_declaration sequence_index declaration;;
  advance.

(** From the opening brace of the definition on. *)
Definition parse_record_body (scope identity record_name access start base_begin
    record_index sequence_index : N) : parse unit :=
  s ← read id;
  let member_begin := size (members (candidate s)) in
  let method_begin := size (methods (candidate s)) in
  advance;;
  forever (record_turn scope identity record_name) access;;
  demand (punctuation right_brace) "expected '}' after record definition";;
  advance;;
  demand_supported (punctuation semicolon) "record variables and declarator suffixes are not implemented";;
  s ← read id;
  let declaration := span_from start (end_of (current s)) in
  advance;;
  member_range ← fact_range member_begin (size (members (candidate s)));
  base_range ← fact_range base_begin (size (bases (candidate s)));
  method_range ← fact_range method_begin (size (methods (candidate s)));
  update_record record_index (λ r, RecordFact (record_identity r) member_range base_range method_range declaration
    kind_definition (record_code r));;
  set_declaration sequence_index declaration;;
  s ← read id;
  match records (candidate s) !! N.to_nat record_index with
  | None => λ _, Stuck
  | Some fact =>
      normalize_construction fact;;
      s ← read id;
      bind_members identity declaration 0 (section (record_members fact) (members (candidate s)))
  end.

Definition parse_record (scope : N) : parse unit :=
  s ← read id;
  let start := token_offset (current s) in
  let kind := if is_kind_of keyword_class s then 1 else if is_kind_of keyword_union s then 2 else 0 in
  let access := if is_kind_of keyword_class s then 2 else 0 in
  advance;;
  demand_supported (is_kind_of Lexer.identifier) "anonymous record definitions are not implemented";;
  '(identity, record_name) ← declare_record scope;
  s ← read id;
  let record_index := w32 (size (records (candidate s))) in
  push (λ c, with_records (records c ++ [RecordFact identity (FactRange 0 0) (FactRange 0 0) (FactRange 0 0) no_span
    kind_declaration kind]) c);;
  let sequence_index := size (declarations (candidate s)) in
  append_declaration declares_record record_index no_span;;
  advance;;
  let base_begin := size (bases (candidate s)) in
  b ← read (punctuation colon);
  (if (b : bool) then advance;; parse_base_clause scope kind start else mret tt);;
  s ← read id;
  if punctuation semicolon s then finish_record_declaration start base_begin record_index sequence_index
  else
    demand_supported (punctuation left_brace) "attributes and record declarator suffixes are not implemented";;
    parse_record_body scope identity record_name access start base_begin record_index sequence_index.

(** ** Enumerations *)

Definition int64_max : Z := 9223372036854775807.

(** The intrinsic of a signed value: [signed_int] where it fits 32 bits, else [signed_long_long]. *)
Definition signed_intrinsic (value : Z) : N :=
  if ((-2147483648 <=? value) && (value <=? 2147483647))%Z then intrinsic_signed_int else 16.

(** The value of an enumerator that has none of its own: behind the value before it, if any. *)
Definition next_value (previous : option Z) : option Z :=
  match previous with
  | Some value => if (value =? int64_max)%Z then None else Some (value + 1)%Z
  | None => Some 0%Z
  end.

(** An enumerator with a literal: its intrinsic, its bits and the value the next one counts from. *)
Definition literal_value (negative : bool) (magnitude : N) : option (N * N * Z) :=
  if negative then
    if Z.to_N int64_max + 1 <? magnitude then None
    else let value := (- Z.of_N magnitude)%Z in Some (signed_intrinsic value, bits_of_int64 value, value)
  else if magnitude <=? 2147483647 then Some (intrinsic_signed_int, magnitude, Z.of_N magnitude)
  else if magnitude <=? Z.to_N int64_max then Some (16, magnitude, Z.of_N magnitude)
  else Some (17, magnitude, 0%Z).

(** [integral_intrinsic] *)
Definition integral_intrinsic (value : N) : bool := (2 <=? value) && (value <=? 17).

(** Behind the [=] of an enumerator. *)
Definition parse_literal : parse (N * N * Z * source_span) :=
  s ← read id;
  let expression_start := token_offset (current s) in
  let negative := punctuation minus s in
  (if punctuation plus s || punctuation minus s then advance else mret tt);;
  demand_supported (is_kind_of integer_literal) "enum expressions currently support decimal integer literals only";;
  s ← read id;
  let expression := span_from expression_start (end_of (current s)) in
  match Construction.from_chars_uint64 (token_text (current s)) with
  | None => fail_syntax (here s) "invalid decimal enum literal"
  | Some magnitude =>
      match literal_value negative magnitude with
      | None => fail_unsupported expression "negative enum literal exceeds signed 64-bit range"
      | Some value => advance;; mret (value, expression)
      end
  end.

(** One enumerator, from the value of the one before. *)
Definition enumerator_turn (previous : option Z) : parse (option Z + unit) :=
  s ← read id;
  if is_kind_of eof s || punctuation right_brace s then mret (inr tt)
  else
    demand (is_kind_of Lexer.identifier) "expected enumerator identifier";;
    let enumerator_span := here s in
    name ← intern (token_text (current s));
    advance;;
    b ← read (punctuation equal);
    '(intrinsic, bits, value, expression) ←
      (if (b : bool) then advance;; parse_literal
       else match next_value previous with
            | None => fail_unsupported enumerator_span "implicit enum value exceeds signed 64-bit range"
            | Some value => mret (signed_intrinsic value, bits_of_int64 value, value, no_span)
            end);
    push (λ c, with_enum_values (enum_values c ++ [EnumValueFact name intrinsic bits expression]) c);;
    s ← read id;
    if punctuation comma s then advance;; mret (inl (Some value))
    else
      demand (punctuation right_brace) "expected ',' or '}' after enumerator";;
      mret (inl (Some value)).

(** The underlying type and its spelling; the modifiers of an alias go to [candidate.modifiers]. *)
Definition parse_underlying (scope : N) : parse (N * source_span) :=
  advance;;
  s ← read id;
  let underlying_start := token_offset (current s) in
  base ← parse_type_base environment source_text tokens memory scope underlying_start;
  append_modifiers (base_modifiers base);;
  let underlying_span := span_from underlying_start (base_end base) in
  if negb (base_semantic base =? 0) || negb (integral_intrinsic (base_intrinsic base)) then
    fail_unsupported underlying_span "enum underlying type must be an intrinsic integral type"
  else mret (base_intrinsic base, underlying_span).

Definition update_enum (index : N) (f : source_enum_fact → source_enum_fact) : parse unit :=
  update (λ s, let c := candidate s in set_candidate (with_enums (alter f (N.to_nat index) (enums c)) c) s).

(** [enum class E : int;] *)
Definition finish_enum_declaration (start underlying : N) (underlying_span : source_span) (scoped : bool)
    (enum_index sequence_index : N) : parse unit :=
  s ← read id;
  (if negb scoped && (underlying =? intrinsic_none)
   then fail_syntax (here s) "unscoped enum forward declaration requires an explicit underlying type" else mret tt);;
  let declaration := span_from start (end_of (current s)) in
  update_enum enum_index (λ e, EnumFact (enum_identity e) (enum_enumerators e) declaration underlying_span underlying
    (enum_declared e) scoped);;
  set_declaration sequence_index declaration;;
  advance.

Definition parse_enum_body (start underlying : N) (underlying_span : source_span) (scoped : bool)
    (enum_index sequence_index : N) : parse unit :=
  value_begin ← read (λ s, size (enum_values (candidate s)));
  advance;;
  forever enumerator_turn None;;
  demand (punctuation right_brace) "expected '}' after enum definition";;
  advance;;
  demand (punctuation semicolon) "expected ';' after enum definition";;
  s ← read id;
  let declaration := span_from start (end_of (current s)) in
  advance;;
  range ← fact_range value_begin (size (enum_values (candidate s)));
  update_enum enum_index (λ e, EnumFact (enum_identity e) range declaration underlying_span underlying
    kind_definition scoped);;
  set_declaration sequence_index declaration.

Definition declare_enum (scope : N) : parse N :=
  s ← read id;
  let name_span := here s in
  let text := token_text (current s) in
  check_alias_conflict scope text;;
  identity ← resolve scope text IdentitySpace.type_kind (λ _, name_span) "failed to resolve enum declaration";
  bind_type memory identity name_span "local enum binding conflicts with canonical project identity";;
  mret identity.

Definition parse_enum (scope : N) : parse unit :=
  s ← read id;
  let start := token_offset (current s) in
  advance;;
  s ← read id;
  let scoped := is_kind_of keyword_class s || is_kind_of keyword_struct s in
  (if scoped then advance else mret tt);;
  demand_supported (is_kind_of Lexer.identifier) "anonymous enums are not implemented in the V3 identity slice";;
  identity ← declare_enum scope;
  s ← read id;
  let enum_index := w32 (size (enums (candidate s))) in
  push (λ c, with_enums (enums c ++ [EnumFact identity (FactRange 0 0) no_span no_span intrinsic_none kind_declaration false]) c);;
  let sequence_index := size (declarations (candidate s)) in
  append_declaration declares_enum enum_index no_span;;
  advance;;
  b ← read (punctuation colon);
  '(underlying, underlying_span) ← (if (b : bool) then parse_underlying scope else mret (intrinsic_none, no_span));
  s ← read id;
  if punctuation semicolon s then
    finish_enum_declaration start underlying underlying_span scoped enum_index sequence_index
  else
    demand (punctuation left_brace) "expected '{' or ';' after enum declaration";;
    parse_enum_body start underlying underlying_span scoped enum_index sequence_index.

(** ** Objects and links *)

Definition direct_initializer (t : option parser_token) : bool :=
  match t with
  | Some t =>
      bool_decide (token_kind t = integer_literal) || bool_decide (token_kind t = string_literal) ||
      bool_decide (token_kind t = character_literal) || is_punctuation plus t || is_punctuation minus t
  | None => false
  end.

(** Whether the initializer is more than empty brackets. *)
Definition construction_flags (text : list N) : N :=
  let initial := trim_construction text in
  let initial := if starts_with 61 initial then trim_construction (tl initial) else initial in
  let initial :=
    if starts_with 123 initial && ends_with 125 initial then trim_construction (inner initial) else initial in
  if bool_decide (initial = []) then 0 else 1.

(** The name of an object, where it is declared, or of an operator, and its identity. *)
Definition object_name (scope : N) : parse (bool * source_span * N) :=
  demand (is_kind_of Lexer.identifier) "expected object identifier";;
  s ← read id;
  if bool_decide (token_text (current s) = bytes "operator") then
    advance;; forever operator_turn tt;; s' ← read id; mret (true, here s', 0)
  else
    identity ← resolve scope (token_text (current s)) IdentitySpace.object_kind (λ _, here s)
      "failed to resolve object declaration";
    advance;; mret (false, here s, identity).

Definition parse_data_object (start : N) (type : type_base) (name_span : source_span) (identity : N) (first : bool)
    (spilled : option (N * N)) : parse ((bool * option (N * N)) + unit) :=
  shared ← (match spilled with Some shared => mret shared | None => spill_modifiers (base_modifiers type) end);
  declarator_begin ← copy_modifiers first shared;
  bounds ← parse_array_suffix false;
  append_modifiers bounds;;
  '(comma_next, initializer) ← declarator_initializer true "expected ',' or ';' after object initializer"
    "unbalanced object initializer";
  s ← read id;
  range ← fact_range declarator_begin (size (modifiers (candidate s)));
  let declaration := span_from start (end_of (current s)) in
  initial ← text_at initializer;
  push (λ c, with_objects (objects c ++ [ObjectFact identity (declared_type type range (span_from start (base_end type)))
    declaration initializer (construction_flags initial)]) c);;
  append_declaration declares_object (w32 (size (objects (candidate s)))) declaration;;
  bind_object memory identity
    (if negb (base_semantic type =? 0) && (count range =? 0) then base_semantic type else 0)
    name_span "object name conflicts within scope";;
  advance;;
  mret (if (comma_next : bool) then inl (false, Some shared) else inr tt).

Definition object_turn (scope start : N) (type : type_base) (st : bool * option (N * N)) :
    parse ((bool * option (N * N)) + unit) :=
  let '(first, spilled) := st in
  '(is_operator, name_span, identity) ← object_name scope;
  s ← read id;
  if (is_operator : bool) || (punctuation left_parenthesis s && negb (direct_initializer (ahead 1 s))) then
    parse_parameter_list environment source_text tokens memory;;
    _ ← parse_method_trailer;
    mret (inr tt)
  else parse_data_object start type name_span identity first spilled.

Definition parse_object (scope : N) : parse unit :=
  s ← read id;
  let start := token_offset (current s) in
  (if identifier "auto" s
   then fail_unsupported (here s) "deduced return types are not implemented: values are outside the metadata model"
   else mret tt);;
  type ← parse_type scope start;
  forever (object_turn scope start type) (true, None).

Definition parse_endpoint (scope lookup_offset : N) : parse source_object_endpoint_fact :=
  demand (is_kind_of Lexer.identifier) "expected object identifier in link endpoint";;
  s ← read id;
  name ← find (token_text (current s));
  object ← (if negb (name =? 0) then lookup_visible_object environment scope name lookup_offset else mret no_object);
  if found_identity object =? 0 then
    fail parser_semantic_resolution_failed (here s) "link endpoint object is not visible" not_found
  else if found_named_type object =? 0 then
    fail_unsupported (here s) "link endpoints require an object of direct named record type"
  else
    advance;;
    demand (punctuation dot) "expected '.' in link endpoint";;
    advance;;
    demand (is_kind_of Lexer.identifier) "expected member identifier in link endpoint";;
    s ← read id;
    name ← find (token_text (current s));
    member ← (if negb (name =? 0) then lookup_visible_member environment (found_named_type object) name lookup_offset
      else mret invalid_index);
    if member =? invalid_index then
      fail parser_semantic_resolution_failed (here s) "link endpoint member is not visible" not_found
    else advance;; mret (EndpointFact (found_identity object) member).

Definition parse_link (scope : N) : parse unit :=
  s ← read id;
  let start := token_offset (current s) in
  target ← parse_endpoint scope start;
  demand (punctuation equal) "expected '=' between link endpoints";;
  advance;;
  source_endpoint ← parse_endpoint scope start;
  demand (punctuation semicolon) "expected ';' after link";;
  s ← read id;
  let declaration := span_from start (end_of (current s)) in
  advance;;
  let link_index := size (links (candidate s)) in
  push (λ c, with_links (links c ++ [LinkFact source_endpoint target declaration]) c);;
  append_declaration declares_link (w32 link_index) declaration.

(** ** Aliases *)

(** The string and the identity of an alias. *)
Definition declare_alias (scope : N) (name : list N) : parse (N * N) :=
  check_alias_conflict scope name;;
  alias_name ← intern name;
  identity ← resolve scope name IdentitySpace.type_kind here "failed to resolve alias declaration";
  mret (alias_name, identity).

Definition record_alias (scope : N) (declared : N * N) (type : type_base) (range : source_fact_range)
    (declaration : source_span) : parse unit :=
  s ← read id;
  let alias_index := size (aliases (candidate s)) in
  push (λ c, with_aliases (aliases c ++ [AliasFact declared.2
    (SourceTypeRef (base_semantic type) (base_intrinsic type) range no_span) declaration]) c);;
  append_declaration declares_alias (w32 alias_index) declaration;;
  allocate;;
  update (λ s, set_local_aliases (local_aliases s ++ [AliasEntry scope declared.1 (base_semantic type)
    (base_intrinsic type) range]) s).

Definition append_alias_modifiers (l : list source_type_modifier) : parse unit :=
  update (λ s, set_candidate (with_alias_modifiers (alias_modifiers (candidate s) ++ l) (candidate s)) s).

(** [using Name = Type;] *)
Definition parse_using (scope : N) : parse unit :=
  s ← read id;
  let start := token_offset (current s) in
  advance;;
  demand (is_kind_of Lexer.identifier) "expected alias identifier after 'using'";;
  s ← read id;
  let name := token_text (current s) in
  advance;;
  demand (punctuation equal) "expected '=' in alias declaration";;
  advance;;
  s ← read id;
  let shared_begin := size (alias_modifiers (candidate s)) in
  type ← parse_alias_target environment source_text tokens memory scope start;
  bounds ← parse_array_suffix false;
  append_alias_modifiers bounds;;
  demand (punctuation semicolon) "expected ';' after alias declaration";;
  s ← read id;
  let declaration := span_from start (end_of (current s)) in
  advance;;
  declared ← declare_alias scope name;
  s ← read id;
  range ← fact_range shared_begin (size (alias_modifiers (candidate s)));
  record_alias scope declared type range declaration.

(** Where the modifiers of a declarator of [typedef] begin, those of the type being copied for a
    declarator behind the first. *)
Definition copy_alias_modifiers (first : bool) (shared : N * N) : parse N :=
  if first then mret shared.1
  else
    allocate;;
    s ← read id;
    let c := candidate s in
    append_alias_modifiers (section (FactRange shared.1 (shared.2 - shared.1)) (alias_modifiers c));;
    mret (size (alias_modifiers c)).

Definition typedef_turn (scope start : N) (type : type_base) (shared : N * N) (first : bool) : parse (bool + unit) :=
  demand (is_kind_of Lexer.identifier) "expected typedef declarator name";;
  s ← read id;
  let name := token_text (current s) in
  advance;;
  declarator_begin ← copy_alias_modifiers first shared;
  bounds ← parse_array_suffix false;
  append_alias_modifiers bounds;;
  demand (λ s, punctuation comma s || punctuation semicolon s) "expected ',' or ';' after typedef declarator";;
  s ← read id;
  range ← fact_range declarator_begin (size (alias_modifiers (candidate s)));
  declared ← declare_alias scope name;
  record_alias scope declared type range (span_from start (end_of (current s)));;
  advance;;
  mret (if punctuation comma s then inl false else inr tt).

Definition parse_typedef (scope : N) : parse unit :=
  s ← read id;
  let start := token_offset (current s) in
  advance;;
  let shared_begin := size (alias_modifiers (candidate s)) in
  type ← parse_alias_target environment source_text tokens memory scope start;
  s ← read id;
  forever (typedef_turn scope start type (shared_begin, size (alias_modifiers (candidate s)))) true.

(** ** Namespaces and scopes *)

Definition update_namespace (index : N) (declaration : source_span) : parse unit :=
  update (λ s, let c := candidate s in set_candidate (with_namespaces (alter
    (λ n, NamespaceFact (namespace_identity n) declaration) (N.to_nat index) (namespaces c)) c) s).

(** One name of [namespace A::B::C]: the levels so far, each the index of its fact and of its
    declaration, and the scope. *)
Definition namespace_turn (st : list (N * N) * N) :
    parse ((list (N * N) * N) + (list (N * N) * N)) :=
  let '(levels, scope) := st in
  s ← read id;
  let name_span := here s in
  let text := token_text (current s) in
  check_alias_conflict scope text;;
  identity ← resolve scope text IdentitySpace.namespace_scope (λ _, name_span) "failed to resolve namespace declaration";
  advance;;
  s ← read id;
  (if (128 <=? length levels)%nat
   then fail_unsupported (here s) "namespace name nesting exceeds 128 levels" else mret tt);;
  let namespace_index := w32 (size (namespaces (candidate s))) in
  push (λ c, with_namespaces (namespaces c ++ [NamespaceFact identity no_span]) c);;
  let sequence_index := w32 (size (declarations (candidate s))) in
  append_declaration declares_namespace namespace_index no_span;;
  allocate;;
  let levels := levels ++ [(namespace_index, sequence_index)] in
  s ← read id;
  if punctuation colon s && is_token colon (ahead 1 s) then
    advance;; advance;;
    demand (is_kind_of Lexer.identifier) "expected namespace identifier after '::'";;
    mret (inl (levels, identity))
  else mret (inr (levels, identity)).

Fixpoint close_levels (declaration : source_span) (levels : list (N * N)) : parse unit :=
  match levels with
  | [] => mret tt
  | (namespace_index, sequence_index) :: levels' =>
      update_namespace namespace_index declaration;;
      set_declaration sequence_index declaration;;
      close_levels declaration levels'
  end.

(** [body] is [parse_scope] one level deeper, up to the closing brace. *)
Definition parse_namespace (body : N → parse unit) (parent : N) : parse unit :=
  s ← read id;
  let start := token_offset (current s) in
  advance;;
  demand (is_kind_of Lexer.identifier) "expected namespace identifier";;
  '(levels, scope) ← forever namespace_turn ([], parent);
  demand_supported (punctuation left_brace) "namespace aliases are not implemented";;
  advance;;
  body scope;;
  s ← read id;
  close_levels (span_from start (end_of (current s))) levels;;
  advance.

Definition using_alias_ahead (s : parser) : bool :=
  match ahead 1 s, ahead 2 s with
  | Some name, Some equal_token => bool_decide (token_kind name = Lexer.identifier) && is_punctuation equal equal_token
  | _, _ => false
  end.

(** One turn of the loop of [parse_scope]. *)
Definition scope_turn (body : N → parse unit) (scope : N) (expect_close : bool) (_ : unit) : parse (unit + unit) :=
  s ← read id;
  let and_on (m : parse unit) : parse (unit + unit) := m;; mret (inl tt) in
  if is_kind_of eof s then
    (if expect_close then fail_syntax (Span (w32 (size source_text)) 0) "expected closing brace" else mret (inr tt))
  else if punctuation right_brace s then
    (if expect_close then mret (inr tt) else fail_syntax (here s) "unexpected closing brace")
  else if punctuation semicolon s then and_on advance
  else if is_kind_of keyword_namespace s then and_on (parse_namespace body scope)
  else if is_kind_of keyword_struct s || is_kind_of keyword_class s || is_kind_of keyword_union s then
    and_on (parse_record scope)
  else if is_kind_of keyword_enum s then and_on (parse_enum scope)
  else if identifier "typedef" s then and_on (parse_typedef scope)
  else if identifier "static_assert" s then and_on (skip_static_assert tokens memory)
  else if identifier "using" s && using_alias_ahead s then and_on (parse_using scope)
  else if is_kind_of Lexer.identifier s then
    and_on (if is_token dot (ahead 1 s) then parse_link scope else parse_object scope)
  else if punctuation hash s then
    fail_unsupported (here s) "preprocessing directives must be removed by Source frontend"
  else fail_unsupported (here s) "unsupported declaration at semantic scope".

(** A scope at a depth; one deeper than 128 is refused, so 130 levels are enough. *)
Fixpoint parse_scope (levels : nat) (scope : N) (expect_close : bool) (depth : nat) : parse unit :=
  match levels with
  | O => λ _, Stuck
  | Datatypes.S levels' =>
      s ← read id;
      if (128 <? depth)%nat then fail_unsupported (here s) "semantic scope nesting exceeds 128 levels"
      else forever (scope_turn (λ scope, parse_scope levels' scope true (depth + 1)) scope expect_close) tt
  end.

Definition scope_levels : nat := 130.

(** ** The parse *)

Definition create {T} `{Slot T} (expected : N) (set : index T → parser → parser) : parse unit :=
  b ← try_allocate memory;
  match reserve b expected with
  | Some t => update (set t)
  | None => stop not_available
  end.

(** [run] up to the validation. *)
Definition parse_unit : parse source_facts :=
  create 64 set_bindings;;
  create 64 set_object_bindings;;
  create 128 set_member_bindings;;
  parse_scope scope_levels IdentitySpace.root false 0;;
  demand (is_kind_of eof) "unexpected token after translation unit";;
  read candidate.

Definition validate_unit (c : source_facts) : parse source_facts :=
  match validate_source_facts c with
  | (ok, _) => mret c
  | (code, error) => fail parser_invalid_source_facts (location error) (diagnostic_detail error) code
  end.

Definition empty_facts (source : N) : source_facts :=
  SourceFacts source source_text [] [] [] [] [] [] [] [] [] [] [] [] [] [].

Definition initial_parser (source : N) (x : S) : parser :=
  Parser 0 (empty_facts source) (Index [] 0) (Index [] 0) (Index [] 0) [] [] [] [] x 0.

Definition last_is_eof : bool :=
  match last tokens with Some t => bool_decide (token_kind t = eof) | None => false end.

(** [source_parser::parse] of a source; 0 is no source. *)
Definition run (source : N) (x : S) : outcome S source_facts :=
  let s := initial_parser source x in
  if (source =? 0) || negb last_is_eof || (u32_max <? size source_text) then Failed invalid_argument s
  else (c ← parse_unit; validate_unit c) s.
End parser.

End SourceParser.
