(* ===== verification/ParserTables.v ===== *)
(** * The local declaration tables are finite maps

    A table of the parser represents a map from an owner and a name to an entry: a lookup is the
    lookup of the map, an insertion adds the entry, finds the key taken, or lacks memory. *)

From stdpp Require Import gmap.
From S2P Require Import Prelude Probing IdentitySpace SourceFacts SourceEnvironment SourceEnvironmentTables ParserState.

Local Open Scope N_scope.

Module ParserTables.

Import Probing SourceFacts SourceEnvironment SourceEnvironmentTables ParserState.

Section tables.
Context {T : Type} `{HS : Slot T}.
Implicit Types (t : index T) (slots l : list T) (e f v : T) (m : gmap (N * N) T).

Definition key_of e : N * N := (slot_owner e, slot_name e).

(** The entries of a list are those of a map under their keys. *)
Definition lists l m : Prop := ∀ owner name e, m !! (owner, name) = Some e ↔ e ∈ l ∧ has_key owner name e.

(** No slots and no entries, or slots that hold the entries, counted, with room. *)
Definition represents t m : Prop :=
  (index_slots t = [] ∧ m = ∅ ∧ index_count t = 0) ∨
  ∃ l, holds (index_slots t) l ∧ lists l m ∧ index_count t = size l ∧ (length l < length (index_slots t))%nat.

(** ** Moving entries *)

Definition taken slots : list T := filter (λ e, slot_taken e = true) slots.

Lemma insert_fresh target l v present n : holds target l → (length l < length target)%nat → slot_taken v = true →
  (∀ e, e ∈ l → ¬ same_key e v) →
  ∃ target', insert_into target v present n = (ok, target', n + 1) ∧ holds target' (l ++ [v]) ∧ length target' = length target.
Proof.
  intros Hh Hl Hv Hk. unfold insert_into.
  destruct (seek_place_spec target l (slot_owner v) (slot_name v) Hh Hl) as [(e & Hin & [Ho Hn] & _)|(_ & p & -> & Hp)].
  - by destruct (Hk e Hin).
  - eexists. split; [done|]. split; [by apply Hp|apply length_insert].
Qed.

Lemma move_slots_spec present slots : ∀ target l n, holds target l → Forall (λ e, slot_taken e = true) l →
  (length l + length slots < length target)%nat →
  NoDup (key_of <$> (l ++ taken slots)) →
  ∃ target', move_slots present slots target n = (ok, target', n + size (taken slots)) ∧ holds target' (l ++ taken slots) ∧
    length target' = length target.
Proof.
  induction slots as [|e slots IH]; intros target l n Hh Hl Hlen Hnd; cbn [move_slots].
  - exists target. unfold taken, size. cbn. rewrite app_nil_r, N.add_0_r. done.
  - unfold taken. destruct (slot_taken e) eqn:He; cbn [negb].
    + rewrite filter_cons_True by done. unfold taken in Hnd. rewrite filter_cons_True in Hnd by done.
      destruct (insert_fresh target l e (present e) n Hh) as (target' & -> & Hh' & Hlen'); [cbn in Hlen; lia|done| |].
      { intros f Hf [Ho Hn]. rewrite fmap_app in Hnd. apply NoDup_app in Hnd as (_ & Hd & _).
        apply (Hd (key_of f)); [by apply list_elem_of_fmap_2|]. cbn. unfold key_of at 1. rewrite Ho, Hn. left. }
      destruct (IH target' (l ++ [e]) (n + 1)) as (target'' & -> & Hh'' & Hlen''); [done| | | |].
      { apply Forall_app. by split; [|apply Forall_singleton]. }
      { rewrite length_app, Hlen'. cbn in *. lia. }
      { by rewrite <-app_assoc. }
      exists target''. split; [|split; [by rewrite <-app_assoc in Hh''|congruence]]. f_equal. unfold taken, size. cbn [length]. lia.
    + rewrite filter_cons_False by congruence. unfold taken in Hnd. rewrite filter_cons_False in Hnd by congruence.
      apply IH; [done..|cbn in Hlen; lia|done].
Qed.
Lemma taken_elem slots l e : holds slots l → e ∈ taken slots ↔ e ∈ l.
Proof.
  intros Hh. unfold taken. rewrite list_elem_of_filter, (holds_entries _ _ Hh). split.
  - intros [He [i Hi]%list_elem_of_lookup_1]. exists (N.of_nat i). pose proof (lookup_lt_Some _ _ _ Hi). unfold size.
    split; [lia|]. apply used_slot. by rewrite Nat2N.id.
  - intros (p & _ & [Hp He]%used_slot). split; [done|by eapply list_elem_of_lookup_2].
Qed.

Lemma taken_keys slots : (∀ p q e f, p < size slots → q < size slots → used slots p = Some e → used slots q = Some f →
    same_key e f → p = q) → NoDup (key_of <$> taken slots).
Proof.
  unfold taken. intros Hk. assert (Hk' : ∀ i j e f, slots !! i = Some e → slots !! j = Some f → slot_taken e = true → slot_taken f = true →
    key_of e = key_of f → i = j).
  { intros i j e f Hi Hj He Hf [= Ho Hn]. apply Nat2N.inj, (Hk _ _ e f).
    - apply lookup_lt_Some in Hi. unfold size. lia.
    - apply lookup_lt_Some in Hj. unfold size. lia.
    - apply used_slot. by rewrite Nat2N.id.
    - apply used_slot. by rewrite Nat2N.id.
    - done. }
  clear Hk. induction slots as [|e slots IH]; [constructor|].
  assert (IH' : NoDup (key_of <$> filter (λ e, slot_taken e = true) slots)).
  { apply IH. intros i j f g Hi Hj. intros. eapply Nat.succ_inj, (Hk' (S i) (S j)); done. }
  destruct (slot_taken e) eqn:He; [rewrite filter_cons_True by done|by rewrite filter_cons_False by congruence].
  cbn. constructor; [|done]. intros (f & Hf & [Htf [j Hj]%list_elem_of_lookup_1]%list_elem_of_filter)%list_elem_of_fmap.
  specialize (Hk' 0%nat (S j) e f eq_refl Hj He Htf Hf). done.
Qed.

Lemma lists_same l l' m : (∀ e, e ∈ l' ↔ e ∈ l) → lists l m → lists l' m.
Proof. intros H Hl o n e. by rewrite (Hl o n e), H. Qed.

Lemma lists_add l m v : lists l m → (∀ e, e ∈ l → ¬ has_key (slot_owner v) (slot_name v) e) →
  lists (l ++ [v]) (<[key_of v := v]> m) ∧ m !! key_of v = None.
Proof.
  intros Hl Hk. assert (Hnone : m !! key_of v = None).
  { destruct (m !! key_of v) as [e|] eqn:E; [|done]. apply Hl in E as [Hin Hke]. by destruct (Hk e). }
  split; [|done]. intros o n e. rewrite elem_of_app, list_elem_of_singleton. destruct (decide ((o, n) = key_of v)) as [E|E].
  - rewrite E, lookup_insert_eq. injection E as -> ->. split; [intros [= <-]; by split; [right|]|].
    intros [[Hin| ->] Hke]; [by destruct (Hk e)|done].
  - rewrite lookup_insert_ne by done. rewrite (Hl o n e). split; [intros [? ?]; by split; [left|]|].
    intros [[Hin| ->] [Ho Hn]]; [done|]. destruct E. unfold key_of. congruence.
Qed.

Lemma grow_represents (memory : bool) present t l m : holds (index_slots t) l → lists l m → index_count t = size l →
  (length l < length (index_slots t))%nat →
  (memory = false ∨ size_max / 2 < size (index_slots t)) ∧ grow memory present t = (not_available, t) ∨
  ∃ t' l', grow memory present t = (ok, t') ∧ holds (index_slots t') l' ∧ lists l' m ∧ index_count t' = size l' ∧
    (length l' + 1 < length (index_slots t'))%nat.
Proof.
  intros Hh Hl Hc Hlt. unfold grow. destruct (N.ltb_spec (size_max / 2) (size (index_slots t))) as [Hs|Hs]; cbn [orb]; [left; auto|].
  destruct memory; cbn [negb]; [|left; auto]. right.
  destruct (holds_pow _ _ Hh) as [k Hk]. pose proof (power_of_two_pos _ (holds_pow _ _ Hh)) as Hpos.
  assert (Hnew : holds (replicate (2 * length (index_slots t)) (fresh_slot (T := T))) []).
  { replace (2 * length (index_slots t))%nat with (N.to_nat (2 * size (index_slots t))) by (unfold size; lia).
    apply holds_empty. exists (k + 1). rewrite Hk, N.pow_add_r. cbn. lia. }
  destruct (move_slots_spec present (index_slots t) _ [] 0 Hnew) as (target' & -> & Hh' & Hlen).
  - constructor.
  - rewrite length_replicate. unfold size in Hpos. cbn. lia.
  - apply taken_keys, (holds_keys _ _ Hh).
  - eexists _, (taken (index_slots t)). split; [done|]. cbn [index_slots index_count app] in *. split_and!.
    + done.
    + eapply lists_same; [|exact Hl]. intros e. by apply taken_elem.
    + lia.
    + rewrite Hlen, length_replicate. destruct (free_exists _ l Hh Hlt) as (q & Hq & Hfree).
      destruct (lookup_lt_is_Some_2 (index_slots t) (N.to_nat q)) as [e He]; [unfold size in Hq; lia|].
      assert (length (taken (index_slots t)) < length (index_slots t))%nat; [|lia].
      apply length_filter_lt with e; [by eapply list_elem_of_lookup_2|]. intros Ht. unfold used in Hfree. rewrite He, Ht in Hfree. done.
Qed.
(** ** The operations *)

Lemma find_represents t m owner name : represents t m → ref_valid owner = true → name ≠ 0 →
  find_value t owner name = m !! (owner, name).
Proof.
  intros Ht Ho Hn. unfold find_value. rewrite Ho, (proj2 (N.eqb_neq name 0) Hn), !orb_false_r.
  destruct Ht as [(-> & -> & _)|(l & Hh & Hl & _ & Hlt)]; [by rewrite bool_decide_eq_true_2, lookup_empty|].
  rewrite bool_decide_eq_false_2 by (intros E; rewrite E in Hlt; cbn in Hlt; lia).
  destruct (m !! (owner, name)) as [e|] eqn:E.
  - apply (find_slot_spec _ l); [done|]. by apply Hl.
  - apply (find_slot_None _ l); [done|]. intros e Hin Hk. rewrite (proj2 (Hl owner name e)) in E by done. done.
Qed.

(** An insertion into slots that have room. *)
Lemma insert_into_represents present v slots n l m : holds slots l → lists l m → n = size l →
  (length l + 1 < length slots)%nat → slot_taken v = true →
  let '(result, slots', n') := insert_into slots v (present v) n in
  match m !! key_of v with
  | Some e => result = present v e ∧ represents (Index slots' n') m
  | None => result = ok ∧ represents (Index slots' n') (<[key_of v := v]> m)
  end.
Proof.
  intros Hh Hl Hn Hlt Hv. unfold insert_into.
  destruct (seek_place_spec slots l (slot_owner v) (slot_name v) Hh ltac:(lia)) as [(e & Hin & Hk & ->)|(Hk & p & -> & Hp)].
  - assert (m !! key_of v = Some e) as -> by by apply Hl. split; [done|]. right. exists l. cbn. split_and!; [done..|lia].
  - destruct (lists_add l m v Hl Hk) as [Hl' ->]. split; [done|]. right. exists (l ++ [v]). cbn.
    split_and!; [by apply Hp|done| |].
    + subst n. unfold size. rewrite length_app. cbn. lia.
    + rewrite length_insert, length_app. cbn. lia.
Qed.

Lemma room_left slots l : size slots * 7 <=? (size l + 1) * 10 = false → (length l + 1 < length slots)%nat.
Proof. rewrite N.leb_gt. unfold size. lia. Qed.

Lemma insert_represents (memory : bool) present v t m : represents t m → slot_taken v = true →
  let '(result, t') := insert_value memory present v t in
  (result = not_available ∧ (memory = false ∨ size_max / 2 < size (index_slots t)) ∧ represents t' m) ∨
  match m !! key_of v with
  | Some e => result = present v e ∧ represents t' m
  | None => result = ok ∧ represents t' (<[key_of v := v]> m)
  end.
Proof.
  intros Ht Hv. unfold insert_value.
  assert (Hready : (memory = false ∧ index_slots t = []) ∨ ∃ t1 l,
    (if bool_decide (index_slots t = []) then reserve memory 16 else Some t) = Some t1 ∧
    holds (index_slots t1) l ∧ lists l m ∧ index_count t1 = size l ∧ (length l < length (index_slots t1))%nat ∧
    (size_max / 2 < size (index_slots t1) → size_max / 2 < size (index_slots t))).
  { destruct Ht as [(E & -> & _)|(l & Hh & Hl & Hc & Hlt)].
    - destruct memory; [right|by left]. exists (Index (replicate 64 fresh_slot) 0), []. rewrite bool_decide_eq_true_2 by done.
      split_and!; [done|apply (holds_empty 64); by exists 6| |done|cbn; lia|by intros H%N.ltb_lt].
      intros o n e. rewrite lookup_empty. split; [done|]. by intros [?%elem_of_nil _].
    - right. exists t, l. rewrite bool_decide_eq_false_2 by (intros E; rewrite E in Hlt; cbn in Hlt; lia). done. }
  destruct Hready as [[-> E]|(t1 & l & -> & Hh & Hl & Hc & Hlt & Hbig)].
  { rewrite bool_decide_eq_true_2 by done. left. auto. }
  assert (Hgrown : ((memory = false ∨ size_max / 2 < size (index_slots t)) ∧
      (if size (index_slots t1) * 7 <=? (index_count t1 + 1) * 10 then grow memory present t1 else (ok, t1)) = (not_available, t1)) ∨
    ∃ t2 l2, (if size (index_slots t1) * 7 <=? (index_count t1 + 1) * 10 then grow memory present t1 else (ok, t1)) = (ok, t2) ∧
      holds (index_slots t2) l2 ∧ lists l2 m ∧ index_count t2 = size l2 ∧ (length l2 + 1 < length (index_slots t2))%nat).
  { rewrite Hc. destruct (size (index_slots t1) * 7 <=? (size l + 1) * 10) eqn:Eg.
    - destruct (grow_represents memory present t1 l m Hh Hl Hc Hlt) as [[[?|?] ->]|(t2 & l2 & -> & H)]; [left; auto..|].
      right. by exists t2, l2.
    - right. exists t1, l. split_and!; [done..|by apply room_left]. }
  destruct Hgrown as [[Hm ->]|(t2 & l2 & -> & Hh2 & Hl2 & Hc2 & Hlt2)].
  { rewrite bool_decide_eq_false_2 by done. left. split_and!; [done..|]. right. by exists l. }
  rewrite bool_decide_eq_true_2 by done.
  pose proof (insert_into_represents present v (index_slots t2) (index_count t2) l2 m Hh2 Hl2 Hc2 Hlt2 Hv) as H.
  destruct (insert_into _ _ _ _) as [[r slots] n]. by right.
Qed.
End tables.
Arguments represents {_ _} _ _.

(** A local declaration table represents a finite map from an owner
    and a name to an entry.  A lookup answers what the map has; an insertion adds an entry for a
    new key, reports the status of the entry that has the key, or leaves the map for want of
    memory, which an allocation that succeeds and fewer than 2^63 slots exclude. *)
Theorem local_tables_are_maps {T} `{Slot T} (memory : bool) present (v : T) t m : represents t m → slot_taken v = true →
  (∀ owner name, ref_valid owner = true → name ≠ 0 → find_value t owner name = m !! (owner, name)) ∧
  let '(result, t') := insert_value memory present v t in
  (result = not_available ∧ (memory = false ∨ size_max / 2 < size (index_slots t)) ∧ represents t' m) ∨
  match m !! key_of v with
  | Some e => result = present v e ∧ represents t' m
  | None => result = ok ∧ represents t' (<[key_of v := v]> m)
  end.
Proof. intros Ht Hv. split; [intros; by apply find_represents|by apply insert_represents]. Qed.

#[local] Existing Instance type_slot_slot.

Definition one_type : source_interface_type_slot := TypeSlot IdentitySpace.root 7 (IdentitySpace.make 2 IdentitySpace.type_kind).

Lemma empty_represents : represents (Index (@nil source_interface_type_slot) 0) ∅.
Proof. by left. Qed.

(** An entry goes into a table without slots. *)
Lemma local_tables_are_maps_witness :
  let '(result, t) := insert_value true same_type one_type (Index [] 0) in
  result = ok ∧ represents t (<[key_of one_type := one_type]> ∅).
Proof.
  destruct (local_tables_are_maps true same_type one_type (Index [] 0) ∅ empty_represents eq_refl) as [_ H].
  destruct (insert_value true same_type one_type (Index [] 0)) as [r t] eqn:E.
  assert (r = ok) as Hr by (vm_compute in E; congruence).
  rewrite lookup_empty in H. destruct H as [(Hn & _)|H]; [congruence|exact H].
Defined.

End ParserTables.
