(* ===== verification/ParserRules.v ===== *)
(** * Reasoning about a parse

    What the parser relies on (its tokens, the services, the environment), the invariant of its
    state, a weakest-precondition for [ParserState.parse] that excludes [Stuck], and the rules of
    the primitive methods.  A rule for a method gives a fresh state and what is known of it. *)

From S2P Require Import Prelude Probing Lexer IdentitySpace Construction SourceFacts SourceFactsTheorems SourceEnvironment.
From S2P Require Import ParserState ParserTypes SourceParser.

Local Open Scope N_scope.

Module ParserRules.

Import Lexer SourceFacts SourceFactsTheorems SourceEnvironment ParserState ParserTypes SourceParser.

#[local] Existing Instance IdentitySpace.identity_kind_eq_dec.
#[local] Existing Instances type_slot_slot object_slot_slot member_slot_slot.

(** ** What a parse relies on *)

(** The tokens of a text: in order, inside it, not empty but for the end, which is the last. *)
Record tokens_of (source_text : list N) (tokens : list parser_token) : Prop := TokensOf {
  text_small : size source_text < two32;
  tokens_few : N.of_nat (length tokens) <= two32;
  tokens_end : ∃ t, last tokens = Some t ∧ token_kind t = eof;
  tokens_inside : ∀ i t, tokens !! i = Some t → token_offset t + token_length t <= size source_text;
  tokens_nonempty : ∀ i t, tokens !! i = Some t → token_kind t ≠ eof → 0 < token_length t;
  tokens_ordered : ∀ i j t u, (i < j)%nat → tokens !! i = Some t → tokens !! j = Some u →
    token_offset t + token_length t <= token_offset u }.

Class SemanticLaws (S : Type) `{!Semantic S} : Type := {
  services_ok : S → Prop;
  intern_laws : ∀ text x code i x', services_ok x → intern_string text x = (code, i, x') →
    services_ok x' ∧ (code = ok → i ≠ 0);
  resolve_laws : ∀ scope text kind x code i x', services_ok x → resolve_declaration scope text kind x = (code, i, x') →
    services_ok x' ∧ (code = ok → names kind i);
  parent_laws : ∀ x i, services_ok x → i ≠ 0 →
    identity_parent x i = 0 ∨ IdentitySpace.ref_slot (identity_parent x i) < IdentitySpace.ref_slot i }.

(** What an environment answers is a type or an object. *)
Record EnvironmentLaws (environment : environment_view) : Prop := {
  find_type_laws : ∀ scope name offset, find_type environment scope name offset ≠ 0 →
    names IdentitySpace.type_kind (find_type environment scope name offset);
  find_object_laws : ∀ scope name offset, found_identity (find_object environment scope name offset) ≠ 0 →
    names IdentitySpace.object_kind (found_identity (find_object environment scope name offset)) }.

(** ** The invariant *)

(** The entries of a table satisfy a property. *)
Definition entries_are {T} `{Slot T} (P : T → Prop) (t : index T) : Prop :=
  Forall (λ e, slot_taken e = true → P e) (index_slots t).

Section entries.
Context {T : Type} `{HT : Slot T} (P : T → Prop).
Implicit Types (slots : list T) (t : index T).
Local Notation all := (Forall (λ e, slot_taken e = true → P e)).

Lemma all_fresh n : all (replicate n fresh_slot).
Proof. apply Forall_replicate. rewrite fresh_slot_free. done. Qed.

Lemma probe_visits {R} (visit : N → option R) mask fuel position r :
  Probing.probe visit mask fuel position = Some r → ∃ p, visit p = Some r.
Proof.
  revert position. induction fuel as [|fuel IH]; intros position; cbn; [done|].
  destruct (visit position) as [r'|] eqn:Hv; [intros [= <-]; eauto|apply IH].
Qed.

Lemma find_slot_in slots owner name e : find_slot slots owner name = Some e → e ∈ slots ∧ slot_taken e = true.
Proof.
  unfold find_slot. case_bool_decide; [done|].
  destruct (Probing.probe _ _ _ _) as [o|] eqn:Hp; cbn; [|done]. intros ->.
  apply probe_visits in Hp as [p Hp]. unfold slot_in in Hp. destruct (slots !! N.to_nat p) as [e'|] eqn:He; cbn in Hp.
  - destruct (slot_taken e') eqn:Ht; [|done]. cbn in Hp. destruct (same_binding owner name e'); [|done].
    simplify_eq. split; [by eapply list_elem_of_lookup_2|done].
  - rewrite fresh_slot_free in Hp. done.
Qed.

Lemma find_value_all t owner name e : entries_are P t → find_value t owner name = Some e → P e.
Proof.
  unfold entries_are, find_value. intros Ht. destruct (_ || _ || _); [done|].
  intros [Hin He]%find_slot_in. rewrite Forall_forall in Ht. auto.
Qed.

Lemma insert_into_all target value present n : all target → P value → all (insert_into target value present n).1.2.
Proof.
  intros Ht Hv. unfold insert_into. destruct (seek_place _ _ _) as [[p|e]|]; cbn; [|done..].
  apply Forall_insert; auto.
Qed.

Lemma move_slots_all present slots : ∀ target n, all slots → all target → all (move_slots present slots target n).1.2.
Proof.
  induction slots as [|e slots IH]; intros target n Hs Ht; cbn; [done|].
  apply Forall_cons in Hs as [He Hs]. destruct (slot_taken e) eqn:Htk; cbn; [|by apply IH].
  pose proof (insert_into_all target e (present e) n Ht (He eq_refl)) as Hi.
  destruct (insert_into target e (present e) n) as [[[] target'] n']; cbn in Hi |- *; try done. by apply IH.
Qed.

Lemma grow_all memory present t : entries_are P t → entries_are P (grow memory present t).2.
Proof.
  intros Ht. unfold grow. destruct (_ || _); [done|].
  pose proof (move_slots_all present (index_slots t) (replicate (2 * length (index_slots t)) fresh_slot) 0 Ht (all_fresh _)) as Hm.
  destruct (move_slots _ _ _ _) as [[[] slots] n]; done.
Qed.

Lemma insert_value_all memory present value t : entries_are P t → P value → entries_are P (insert_value memory present value t).2.
Proof.
  intros Ht Hv. unfold insert_value.
  destruct (if bool_decide (index_slots t = []) then reserve memory 16 else Some t) as [t1|] eqn:E; [|done].
  assert (Ht1 : entries_are P t1).
  { case_bool_decide; [|by simplify_eq]. unfold reserve in E. destruct (_ || _); simplify_eq. apply all_fresh. }
  clear E. destruct (if size (index_slots t1) * 7 <=? (index_count t1 + 1) * 10 then grow memory present t1 else (ok, t1))
    as [result t2] eqn:E.
  assert (Ht2 : entries_are P t2).
  { destruct (_ <=? _); [|by simplify_eq]. pose proof (grow_all memory present t1 Ht1) as Hg. by rewrite E in Hg. }
  case_bool_decide; [|done].
  pose proof (insert_into_all (index_slots t2) value (present value) (index_count t2) Ht2 Hv) as Hi.
  destruct (insert_into _ _ _ _) as [[r slots] n]. done.
Qed.
End entries.

Section rules.
Context {S : Type} `{!Semantic S} `{!SemanticLaws S}.
Context (source_text : list N) (tokens : list parser_token) (memory : nat → bool).
Context (Htokens : tokens_of source_text tokens).
Local Notation parser := (parser S).
Local Notation parse := (parse S).
Local Notation current := (current tokens).
Local Notation is_kind_of := (is_kind_of tokens).
Local Notation punctuation := (punctuation tokens).
Local Notation identifier := (identifier source_text tokens).
Local Notation here := (here tokens).

Implicit Types s : parser.

Definition inside_text (r : source_span) : Prop := offset r + span_length r <= size source_text.

(** The base of a type reference is resolved. *)
Definition resolved_base (identity intrinsic : N) : Prop :=
  (names IdentitySpace.type_kind identity ∧ intrinsic = 0) ∨ (identity = 0 ∧ intrinsic_code intrinsic).

Definition alias_known (a : alias_entry) : Prop := resolved_base (alias_target_identity a) (alias_target_intrinsic a).

Record state_ok (s : parser) : Prop := StateOk {
  ok_cursor : (cursor s < length tokens)%nat;
  ok_services : services_ok (semantic_state s);
  ok_types : entries_are (λ e, names IdentitySpace.type_kind (type_identity e)) (bindings s);
  ok_objects : entries_are (λ e, names IdentitySpace.object_kind (slot_identity e)) (object_bindings s);
  ok_aliases : Forall alias_known (local_aliases s);
  ok_alias_modifiers : Forall modifier_ok (alias_modifiers (candidate s));
  ok_modifiers : Forall modifier_ok (modifiers (candidate s));
  ok_operations : Forall (λ o, inside_text (operation_expression o)) (constructor_operations s);
  ok_source : SourceFacts.source_text (candidate s) = source_text }.

(** ** The weakest precondition *)

(** A failure has a status other than [ok] and at most one new diagnostic, inside the text. *)
Definition refused (s : parser) (code : status_code) (s' : parser) : Prop :=
  code ≠ ok ∧ (emitted s' = emitted s ∨ ∃ d, emitted s' = emitted s ++ [d] ∧ inside_text (diagnostic_span d)).

Definition wp {A} (m : parse A) (s : parser) (Q : A → parser → Prop) : Prop :=
  match m s with
  | Returned a s' => emitted s' = emitted s ∧ Q a s'
  | Failed code s' => refused s code s'
  | Stuck => False
  end.

Lemma wp_ret {A} (a : A) s (Q : A → parser → Prop) : Q a s → wp (mret a) s Q.
Proof. done. Qed.

Lemma wp_bind {A B} (m : parse A) (k : A → parse B) s Q :
  wp m s (λ a s', wp (k a) s' Q) → wp (m ≫= k) s Q.
Proof.
  unfold wp, mbind, parse_bind. destruct (m s) as [a s'|code s'|]; [|done..].
  intros [He Hk]. destruct (k a s') as [b s''|code s''|]; [|..|done].
  - destruct Hk. split; [congruence|done].
  - unfold refused in *. by rewrite He in Hk.
Qed.

Lemma wp_mono {A} (m : parse A) s (Q Q' : A → parser → Prop) :
  wp m s Q → (∀ a s', Q a s' → Q' a s') → wp m s Q'.
Proof. unfold wp. destruct (m s); naive_solver. Qed.

Lemma wp_read {A} (f : parser → A) s (Q : A → parser → Prop) : Q (f s) s → wp (read f) s Q.
Proof. done. Qed.

Lemma wp_update (f : parser → parser) s (Q : unit → parser → Prop) :
  emitted (f s) = emitted s → Q tt (f s) → wp (update f) s Q.
Proof. done. Qed.

Lemma wp_stop {A} code s (Q : A → parser → Prop) : code ≠ ok → wp (stop code) s Q.
Proof. unfold wp, stop, refused. auto. Qed.

Lemma wp_if {A} (b : bool) (m n : parse A) s Q :
  (b = true → wp m s Q) → (b = false → wp n s Q) → wp (if b then m else n) s Q.
Proof. destruct b; auto. Qed.

Lemma wp_fail {A} d location detail code s (Q : A → parser → Prop) :
  code ≠ ok → inside_text location → wp (fail memory d location detail code) s Q.
Proof.
  intros Hc Hl. unfold wp, fail, mbind, parse_bind, try_allocate, update, mret, parse_ret, stop.
  destruct (memory (allocations s)); cbn; split; try done; [right|left; done]. eexists. split; [done|]. done.
Qed.

(** What a precondition says of the outcome. *)
Lemma wp_outcome {A} (m : parse A) s Q : wp m s Q →
  match m s with
  | Returned a s' => emitted s' = emitted s ∧ Q a s'
  | Failed code s' => refused s code s'
  | Stuck => False
  end.
Proof. done. Qed.

(** ** States that differ in what a rule may change *)

(** The cursor went on and the packet is the same. *)
Record kept (s s' : parser) : Prop := Kept {
  kept_cursor : (cursor s <= cursor s')%nat;
  kept_candidate : candidate s' = candidate s;
  kept_ok : state_ok s' }.

Lemma kept_refl s : state_ok s → kept s s.
Proof. by constructor. Qed.

Lemma kept_trans s1 s2 s3 : kept s1 s2 → kept s2 s3 → kept s1 s3.
Proof. intros [] []. constructor; [lia|congruence|done]. Qed.

Lemma state_ok_allocations n s : state_ok s → state_ok (set_allocations n s).
Proof. by intros []. Qed.

Lemma wp_try_allocate s (Q : bool → parser → Prop) :
  state_ok s → (∀ b s', kept s s' → cursor s' = cursor s → bindings s' = bindings s → Q b s') → wp (try_allocate memory) s Q.
Proof.
  intros Hs HQ. unfold wp, try_allocate. split; [done|]. apply HQ; [|done..].
  constructor; [done..|by apply state_ok_allocations].
Qed.

Lemma wp_allocate s (Q : unit → parser → Prop) :
  state_ok s → (∀ s', kept s s' → cursor s' = cursor s → Q tt s') → wp (allocate memory) s Q.
Proof.
  intros Hs HQ. unfold allocate. apply wp_bind, wp_try_allocate; [done|]. intros b s' Hk Hc _.
  apply wp_if; intros _; [apply wp_ret; auto | by apply wp_stop].
Qed.

(** ** The tokens *)

Section at_state.
Context (s : parser) (Hs : state_ok s).

Lemma current_lookup : tokens !! cursor s = Some (current s).
Proof.
  pose proof (ok_cursor s Hs) as Hc. unfold ParserState.current. rewrite (proj2 (Nat.ltb_lt _ _) Hc).
  destruct (lookup_lt_is_Some_2 tokens (cursor s) Hc) as [t ->]. done.
Qed.

Lemma current_inside : token_offset (current s) + token_length (current s) <= size source_text.
Proof. eapply tokens_inside; [done|apply current_lookup]. Qed.

Lemma current_nonempty : token_kind (current s) ≠ eof → 0 < token_length (current s).
Proof. eapply tokens_nonempty; [done|apply current_lookup]. Qed.

Lemma current_end : end_of (current s) = token_offset (current s) + token_length (current s).
Proof. pose proof current_inside. pose proof (text_small _ _ Htokens). apply w32_small. lia. Qed.

Lemma current_not_last : token_kind (current s) ≠ eof → (cursor s + 1 < length tokens)%nat.
Proof.
  intros Hk. pose proof (ok_cursor s Hs) as Hc. destruct (decide (cursor s + 1 = length tokens)%nat) as [He|]; [|lia].
  destruct (tokens_end _ _ Htokens) as (t & Hl & Ht). rewrite last_lookup in Hl.
  replace (Nat.pred (length tokens)) with (cursor s) in Hl by lia. rewrite current_lookup in Hl. congruence.
Qed.

Lemma here_inside : inside_text (here s).
Proof. apply current_inside. Qed.
End at_state.

Lemma tokens_lt s s' : state_ok s → state_ok s' → (cursor s < cursor s')%nat →
  token_offset (current s) + token_length (current s) <= token_offset (current s').
Proof. intros Hs Hs' Hc. exact (tokens_ordered _ _ Htokens _ _ _ _ Hc (current_lookup s Hs) (current_lookup s' Hs')). Qed.

Lemma tokens_le s s' : state_ok s → state_ok s' → (cursor s <= cursor s')%nat →
  token_offset (current s) <= token_offset (current s').
Proof.
  intros Hs Hs' Hc. destruct (decide (cursor s = cursor s')) as [He|].
  - pose proof (current_lookup s Hs) as H1. rewrite He, (current_lookup s' Hs') in H1.
    assert (current s = current s') as -> by congruence. lia.
  - pose proof (tokens_lt s s' Hs Hs' ltac:(lia)). lia.
Qed.

Lemma current_same s s' : cursor s' = cursor s → current s' = current s.
Proof. intros Hc. unfold ParserState.current. by rewrite Hc. Qed.

Lemma is_kind_of_iff kind s : is_kind_of kind s = true ↔ token_kind (current s) = kind.
Proof. apply bool_decide_eq_true. Qed.

Lemma punctuation_kind p s : punctuation p s = true → token_kind (current s) = Lexer.punctuation.
Proof. intros [H _]%andb_true_iff. by apply bool_decide_eq_true in H. Qed.

Lemma identifier_kind w s : identifier w s = true → token_kind (current s) = Lexer.identifier.
Proof. intros [H _]%andb_true_iff. by apply is_kind_of_iff in H. Qed.

Lemma span_from_inside start end_ : start <= end_ → end_ <= size source_text →
  span_from start end_ = Span start (end_ - start).
Proof.
  intros H1 H2. pose proof (text_small _ _ Htokens). unfold span_from, minus32. f_equal. rewrite w32_mod.
  replace (end_ + two32 - start) with (end_ - start + 1 * two32) by lia.
  rewrite N.Div0.mod_add. apply N.mod_small. lia.
Qed.

(** ** The rules of the cursor *)

Lemma state_ok_cursor n s : (n < length tokens)%nat → state_ok s → state_ok (set_cursor n s).
Proof. by intros ? []. Qed.

Lemma wp_advance s (Q : unit → parser → Prop) : state_ok s →
  (∀ s', kept s s' → (token_kind (current s) ≠ eof → cursor s' = Datatypes.S (cursor s)) → Q tt s') →
  wp (advance tokens) s Q.
Proof.
  intros Hs HQ. unfold advance, wp, update. destruct (Nat.ltb_spec (cursor s + 1) (length tokens)) as [Hc|Hc].
  - split; [done|]. apply HQ; [|cbn; lia]. constructor; cbn; [lia|done|]. by apply state_ok_cursor.
  - split; [done|]. apply HQ; [by apply kept_refl|]. intros Hk. pose proof (current_not_last s Hs Hk). lia.
Qed.

Lemma wp_maybe_advance (b : bool) s (Q : unit → parser → Prop) : state_ok s →
  (∀ s', kept s s' → Q tt s') → wp (if b then advance tokens else mret tt) s Q.
Proof.
  intros Hs HQ. apply wp_if; intros _; [|by apply wp_ret, HQ, kept_refl]. apply wp_advance; [done|]. auto.
Qed.

Lemma wp_demand b detail s (Q : unit → parser → Prop) :
  state_ok s → (b s = true → Q tt s) → wp (demand tokens memory b detail) s Q.
Proof.
  intros Hs HQ. unfold demand. apply wp_bind, wp_read, wp_if; intros Hb; [by apply wp_ret, HQ|].
  apply wp_fail; [done|by apply here_inside].
Qed.

Lemma wp_demand_supported b detail s (Q : unit → parser → Prop) :
  state_ok s → (b s = true → Q tt s) → wp (demand_supported tokens memory b detail) s Q.
Proof.
  intros Hs HQ. unfold demand_supported. apply wp_bind, wp_read, wp_if; intros Hb; [by apply wp_ret, HQ|].
  apply wp_fail; [done|by apply here_inside].
Qed.

(** A loop: every turn that goes on has advanced the cursor. *)
Lemma wp_forever {A R} (I : A → parser → Prop) (body : A → parse (A + R)) a s (Q : R → parser → Prop) :
  (∀ a s, I a s → (cursor s < length tokens)%nat) →
  (∀ a s, I a s → wp (body a) s (λ r s',
    match r with inl a' => (cursor s < cursor s')%nat ∧ I a' s' | inr r => Q r s' end)) →
  I a s → wp (forever tokens body a) s Q.
Proof.
  intros HI Hbody Ha. unfold forever, wp.
  assert (H : ∀ fuel a s, (length tokens - cursor s < fuel)%nat → I a s → wp (iterate fuel body a) s Q).
  { clear a s Ha. induction fuel as [|fuel IH]; intros a s Hf Ha; [lia|]. cbn. apply wp_bind.
    eapply wp_mono; [by apply Hbody|]. intros [a'|r] s' Hr; [|by apply wp_ret].
    destruct Hr as [Hc Ha']. pose proof (HI _ _ Ha). pose proof (HI _ _ Ha'). apply IH; [lia|done]. }
  apply (H _ a s); [lia|done].
Qed.

(** ** The rules of the services *)

Lemma state_ok_semantic x s : services_ok x → state_ok s → state_ok (set_semantic_state x s).
Proof. by intros ? []. Qed.

Lemma wp_intern text s (Q : N → parser → Prop) : state_ok s →
  (∀ i s', kept s s' → cursor s' = cursor s → i ≠ 0 → Q i s') → wp (intern text) s Q.
Proof.
  intros Hs HQ. unfold wp, intern.
  destruct (intern_string text (semantic_state s)) as [[code i] x] eqn:E.
  destruct (intern_laws _ _ _ _ _ (ok_services s Hs) E) as [Hx Hi].
  destruct code; [|by split; [|left]..]. split; [done|]. apply HQ; [|done|auto].
  constructor; [done..|by apply state_ok_semantic].
Qed.

Lemma wp_resolve scope text kind (location : parser → source_span) detail s (Q : N → parser → Prop) : state_ok s →
  (∀ s', cursor s' = cursor s → state_ok s' → inside_text (location s')) →
  (∀ i s', kept s s' → cursor s' = cursor s → names kind i → Q i s') →
  wp (resolve memory scope text kind location detail) s Q.
Proof.
  intros Hs Hl HQ.
  destruct (resolve_declaration scope text kind (semantic_state s)) as [[code i] x] eqn:E.
  destruct (resolve_laws _ _ _ _ _ _ _ (ok_services s Hs) E) as [Hx Hi].
  assert (Hs' : state_ok (set_semantic_state x s)) by by apply state_ok_semantic.
  assert (Hfail : ∀ c, c ≠ ok → wp (fail memory parser_semantic_resolution_failed
    (location (set_semantic_state x s)) detail c) (set_semantic_state x s) Q).
  { intros c Hc. apply wp_fail; [done|]. by apply Hl. }
  unfold wp in *. unfold resolve. rewrite E. destruct code; [|by apply Hfail..].
  split; [done|]. apply HQ; [|done|auto]. by constructor.
Qed.

Lemma wp_find text s (Q : N → parser → Prop) : (∀ i, Q i s) → wp (find text) s Q.
Proof. intros HQ. apply wp_read, HQ. Qed.

Ltac solve_binding Hs :=
  let H := fresh in intros H; constructor; [done..|]; destruct Hs; constructor; done.

Lemma wp_bind_type identity location detail s (Q : unit → parser → Prop) : state_ok s → inside_text location →
  (∀ s', kept s s' → cursor s' = cursor s → Q tt s') → wp (bind_type memory identity location detail) s Q.
Proof.
  intros Hs Hl HQ. unfold bind_type. apply wp_bind, wp_try_allocate; [done|]. intros b s1 K1 Hc _.
  destruct (kept_ok _ _ K1) as [Hcur Hsv Ht Ho Ha Ham Hmods Hop Hsrc]. apply wp_bind, wp_read. cbn [id].
  set (parent := identity_parent _ _). set (name := identity_name _ _).
  assert (Hall : entries_are (λ e, names IdentitySpace.type_kind (type_identity e))
    (insert_type b parent name identity (bindings s1)).2).
  { unfold insert_type. destruct (ref_valid identity) eqn:Hv; cbn; [|done].
    destruct (is_kind IdentitySpace.type_kind identity) eqn:Hk; cbn; [|done]. destruct (_ || _); [done|].
    apply insert_value_all; [done|]. split; cbn; [by intros ->|]. by apply bool_decide_eq_true in Hk. }
  destruct (insert_type _ _ _ _ _) as [result t]. cbn in Hall. apply wp_bind, wp_update; [done|].
  case_bool_decide; [|by apply wp_fail]. apply wp_ret, HQ; [|done].
  eapply kept_trans; [exact K1|]. constructor; [done..|]. by constructor.
Qed.

Lemma wp_bind_object identity named location detail s (Q : unit → parser → Prop) : state_ok s → inside_text location →
  (∀ s', kept s s' → cursor s' = cursor s → Q tt s') → wp (bind_object memory identity named location detail) s Q.
Proof.
  intros Hs Hl HQ. unfold bind_object. apply wp_bind, wp_try_allocate; [done|]. intros b s1 K1 Hc _.
  destruct (kept_ok _ _ K1) as [Hcur Hsv Ht Ho Ha Ham Hmods Hop Hsrc]. apply wp_bind, wp_read. cbn [id].
  set (parent := identity_parent _ _). set (name := identity_name _ _).
  assert (Hall : entries_are (λ e, names IdentitySpace.object_kind (slot_identity e))
    (insert_object b parent name identity named (object_bindings s1)).2).
  { unfold insert_object. destruct (ref_valid identity) eqn:Hv; cbn; [|done].
    destruct (is_kind IdentitySpace.object_kind identity) eqn:Hk; cbn; [|done]. destruct (_ || _); [done|].
    apply insert_value_all; [done|]. split; cbn; [by intros ->|]. by apply bool_decide_eq_true in Hk. }
  destruct (insert_object _ _ _ _ _ _) as [result t]. cbn in Hall. apply wp_bind, wp_update; [done|].
  case_bool_decide; [|by apply wp_fail]. apply wp_ret, HQ; [|done].
  eapply kept_trans; [exact K1|]. constructor; [done..|]. by constructor.
Qed.

Lemma wp_bind_member type name member location detail s (Q : unit → parser → Prop) : state_ok s → inside_text location →
  (∀ s', kept s s' → cursor s' = cursor s → Q tt s') → wp (bind_member memory type name member location detail) s Q.
Proof.
  intros Hs Hl HQ. unfold bind_member. apply wp_bind, wp_try_allocate; [done|]. intros b s1 K1 Hc _.
  destruct (kept_ok _ _ K1) as [Hcur Hsv Ht Ho Ha Ham Hmods Hop Hsrc]. apply wp_bind, wp_read. cbn [id].
  destruct (insert_member _ _ _ _ _) as [result t]. apply wp_bind, wp_update; [done|].
  case_bool_decide; [|by apply wp_fail]. apply wp_ret, HQ; [|done].
  eapply kept_trans; [exact K1|]. constructor; [done..|]. by constructor.
Qed.

(** ** The rules of the lookups *)

Lemma climb_stops {R} (x : S) (visit : N → option R) : services_ok x → ∀ fuel scope,
  (N.to_nat (IdentitySpace.ref_slot scope) < fuel)%nat →
  ∃ o, climb x visit fuel scope = Some o ∧ ∀ r, o = Some r → ∃ scope, visit scope = Some r.
Proof.
  intros Hx fuel. induction fuel as [|fuel IH]; intros scope Hf; [lia|]. cbn.
  destruct (N.eqb_spec scope 0) as [->|Hz]; [by exists None|].
  destruct (visit scope) as [r|] eqn:Hv.
  - exists (Some r). split; [done|]. intros r' [= <-]. eauto.
  - destruct (parent_laws x scope Hx Hz) as [Hp|Hp].
    + exists None. split; [|done]. rewrite Hp. by destruct fuel.
    + apply IH. lia.
Qed.

Context (environment : environment_view) (Henvironment : EnvironmentLaws environment).

Lemma wp_climb {R B} (visit : N → option R) scope (k : option R → parse B) s (Q : B → parser → Prop) : state_ok s →
  (∀ o, (∀ r, o = Some r → ∃ scope, visit scope = Some r) → wp (k o) s Q) →
  wp (lift (climb (semantic_state s) visit (ancestors_fuel scope) scope) ≫= k) s Q.
Proof.
  intros Hs Hk. destruct (climb_stops (semantic_state s) visit (ok_services s Hs) (ancestors_fuel scope) scope) as (o & -> & Ho).
  { unfold ancestors_fuel. lia. }
  apply wp_bind, wp_ret, Hk, Ho.
Qed.

Lemma wp_lookup_visible_type scope name offset s (Q : N → parser → Prop) : state_ok s →
  (∀ i, (i ≠ 0 → names IdentitySpace.type_kind i) → Q i s) →
  wp (lookup_visible_type environment scope name offset) s Q.
Proof.
  intros Hs HQ. unfold lookup_visible_type. apply wp_bind, wp_read. cbn [id]. apply wp_climb; [done|].
  intros o Ho. apply wp_ret, HQ. destruct o as [i|]; cbn; [|done]. intros Hi.
  destruct (Ho i eq_refl) as (c & Hv). destruct (N.eqb_spec (lookup_type (bindings s) c name) 0) as [H0|H0]; cbn in Hv.
  - destruct (N.eqb_spec (find_type environment c name offset) 0) as [H1|H1]; cbn in Hv; [done|].
    simplify_eq. by apply find_type_laws.
  - simplify_eq. unfold lookup_type in *. destruct (find_value (bindings s) c name) as [e|] eqn:He; [|done].
    exact (find_value_all _ _ _ _ _ (ok_types s Hs) He).
Qed.

(** A visible type of a name that may not be known. *)
Lemma wp_visible name scope offset s (Q : N → parser → Prop) : state_ok s →
  (∀ i, (i ≠ 0 → names IdentitySpace.type_kind i) → Q i s) →
  wp (if negb (name =? 0) then lookup_visible_type environment scope name offset else mret 0) s Q.
Proof.
  intros Hs HQ. destruct (negb (name =? 0)); [|by apply wp_ret, HQ].
  by apply wp_lookup_visible_type.
Qed.

Lemma wp_lookup_visible_object scope name offset s (Q : source_interface_object → parser → Prop) : state_ok s →
  (∀ o, (found_identity o ≠ 0 → names IdentitySpace.object_kind (found_identity o)) → Q o s) →
  wp (lookup_visible_object environment scope name offset) s Q.
Proof.
  intros Hs HQ. unfold lookup_visible_object. apply wp_bind, wp_read. cbn [id]. apply wp_climb; [done|].
  intros o Ho. apply wp_ret, HQ. destruct o as [i|]; cbn; [|done]. intros Hi.
  destruct (Ho i eq_refl) as (c & Hv).
  destruct (N.eqb_spec (found_identity (lookup_object (object_bindings s) c name)) 0) as [H0|H0]; cbn in Hv.
  - destruct (N.eqb_spec (found_identity (find_object environment c name offset)) 0) as [H1|H1]; cbn in Hv; [done|].
    simplify_eq. by apply find_object_laws.
  - simplify_eq. unfold lookup_object in *. destruct (find_value (object_bindings s) c name) as [e|] eqn:He; [|done].
    exact (find_value_all _ _ _ _ _ (ok_objects s Hs) He).
Qed.

Lemma last_alias_stops (x : S) l scope name : services_ok x →
  ∃ o, last_alias x l scope name = Some o ∧ ∀ e, o = Some e → e ∈ l.
Proof.
  intros Hx. induction l as [|e l (o & IH & Hin)]; cbn -[climb ancestors_fuel]; [by exists None|].
  destruct (negb (alias_name e =? name)).
  - exists o. split; [done|]. intros e' He'. right. auto.
  - destruct (climb_stops x (λ c, if c =? alias_scope e then Some tt else None) Hx (ancestors_fuel scope) scope) as (r & -> & _).
    { unfold ancestors_fuel. lia. }
    destruct r; [exists (Some e); split; [done|]; intros e' [= <-]; left|].
    exists o. split; [done|]. intros e' He'. right. auto.
Qed.

Lemma wp_find_visible_alias scope name s (Q : option alias_entry → parser → Prop) : state_ok s →
  (∀ o, (∀ e, o = Some e → alias_known e) → Q o s) → wp (find_visible_alias scope name) s Q.
Proof.
  intros Hs HQ. unfold find_visible_alias. apply wp_bind, wp_read. cbn [id].
  destruct (last_alias_stops (semantic_state s) (rev (local_aliases s)) scope name (ok_services s Hs)) as (o & -> & Ho).
  apply wp_ret, HQ. intros e He. pose proof (ok_aliases s Hs) as Ha. rewrite Forall_forall in Ha.
  apply Ha, list_elem_of_In, in_rev, list_elem_of_In, Ho, He.
Qed.

Lemma wp_check_alias_conflict scope name s (Q : unit → parser → Prop) : state_ok s →
  Q tt s → wp (check_alias_conflict tokens memory scope name) s Q.
Proof.
  intros Hs HQ. unfold check_alias_conflict. apply wp_bind, wp_find. intros i. apply wp_bind, wp_read. cbn [id].
  apply wp_if; intros _; [|by apply wp_ret]. apply wp_fail; [done|by apply here_inside].
Qed.
End rules.
#[global] Opaque wp.

(** ** Automation

    [now_ok] proves the invariant of a state a rule gave, [keep] chains such states, [not_eof] reads
    off a test that a token is not the end, [cursors] compares cursors, [step] applies the rule of
    the first method. *)

Ltac now_ok :=
  match goal with
  | H : state_ok _ _ ?s |- state_ok _ _ ?s => exact H
  | K : kept _ _ _ ?s |- state_ok _ _ ?s => exact (kept_ok _ _ _ _ K)
  end.

Ltac keep :=
  match goal with
  | |- kept _ _ ?s ?s => apply kept_refl; now_ok
  | K : kept _ _ ?s ?s' |- kept _ _ ?s ?s' => exact K
  | K : kept _ _ _ ?s' |- kept _ _ _ ?s' => eapply kept_trans; [|exact K]; keep
  end.

(** The token of a state whose cursor is that of another. *)
Ltac same C :=
  match type of C with
  | cursor ?s' = cursor ?s =>
      match goal with
      | Ht : tokens_of _ ?tokens |- _ =>
          let E := fresh "E" in pose proof (current_same tokens s s' C) as E
      end
  end.

(** The parts of a conjunction of tests. *)
Ltac parts B :=
  lazymatch type of B with
  | _ && _ = true => let B1 := fresh B in let B2 := fresh B in
      apply andb_true_iff in B as [B1 B2]; parts B1; parts B2
  | _ => idtac
  end.

Ltac not_eof :=
  match goal with
  | H : _ || _ = true |- token_kind _ ≠ eof => apply orb_true_iff in H as [H|H]; not_eof
  | E : current ?t ?s' = current ?t ?s |- token_kind (current ?t ?s') ≠ eof => rewrite E; not_eof
  | H : token_kind (current _ ?s) ≠ eof |- token_kind (current _ ?s) ≠ eof => exact H
  | H : punctuation _ _ ?s = true |- token_kind (current _ ?s) ≠ eof => rewrite (punctuation_kind _ _ _ H); done
  | H : identifier _ _ _ ?s = true |- token_kind (current _ ?s) ≠ eof => rewrite (identifier_kind _ _ _ _ H); done
  | H : is_kind_of _ _ ?s = true |- token_kind (current _ ?s) ≠ eof =>
      rewrite (proj1 (is_kind_of_iff _ _ _) H); done
  | H : is_kind_of _ _ ?s = false |- token_kind (current _ ?s) ≠ eof =>
      let E := fresh in intros E; apply (is_kind_of_iff _ _ _) in E; congruence
  end.

Ltac cursors :=
  repeat match goal with
  | K : kept _ _ ?s ?s' |- _ =>
      lazymatch goal with
      | _ : (cursor s <= cursor s')%nat |- _ => fail
      | _ => pose proof (kept_cursor _ _ _ _ K)
      end
  end; lia.

Ltac inside := eapply here_inside; [eassumption | now_ok].

Ltac advanced :=
  let s := fresh "s" in let K := fresh "K" in let C := fresh "C" in
  intros s K C; try specialize (C ltac:(not_eof)).

Ltac step :=
  lazymatch goal with
  | |- wp _ (mbind _ _) _ _ => apply wp_bind
  | |- wp _ (mret _) _ _ => apply wp_ret
  | |- wp _ (read _) _ _ => apply wp_read; cbn [id]
  | |- wp _ (if _ then lookup_visible_type _ _ _ _ else _) _ _ =>
      eapply wp_visible; [eassumption | now_ok | let i := fresh "i" in let V := fresh "V" in intros i V]
  | |- wp _ (if _ then advance _ else mret tt) _ _ =>
      eapply wp_maybe_advance; [eassumption | now_ok | let s := fresh "s" in let K := fresh "K" in intros s K]
  | |- wp _ (if _ then _ else _) _ _ => apply wp_if; let B := fresh "B" in intros B; parts B
  | |- wp _ (advance _) _ _ => eapply wp_advance; [eassumption | now_ok | advanced]
  | |- wp _ (demand _ _ _ _) _ _ =>
      eapply wp_demand; [eassumption | now_ok | let B := fresh "B" in intros B; cbv beta in B; parts B]
  | |- wp _ (demand_supported _ _ _ _) _ _ =>
      eapply wp_demand_supported; [eassumption | now_ok | let B := fresh "B" in intros B; cbv beta in B; parts B]
  | |- wp _ (allocate _) _ _ =>
      eapply wp_allocate; [now_ok | let s := fresh "s" in let K := fresh "K" in let C := fresh "C" in intros s K C; same C]
  | |- wp _ (intern _) _ _ =>
      eapply wp_intern; [now_ok | let i := fresh "i" in let s := fresh "s" in let K := fresh "K" in
        let C := fresh "C" in let N := fresh "N" in intros i s K C N; same C]
  | |- wp _ (find _) _ _ => apply wp_find; let i := fresh "i" in intros i
  | |- wp _ (fail _ _ _ _ _) _ _ => apply wp_fail; [done | try inside]
  | |- wp _ (fail_syntax _ _ _) _ _ => apply wp_fail; [done | try inside]
  | |- wp _ (fail_unsupported _ _ _) _ _ => apply wp_fail; [done | try inside]
  | |- wp _ (check_alias_conflict _ _ _ _) _ _ => eapply wp_check_alias_conflict; [eassumption | now_ok |]
  end.
Ltac steps := repeat step.

End ParserRules.
