(* ===== verification/ParserExamples.v ===== *)
(** * The parser on concrete sources

    A small instance of the services of a parse, and sources that are lexed, parsed and
    validated. *)

From S2P Require Import Prelude Lexer IdentitySpace SourceFacts SourceFactsTheorems SourceEnvironment ParserState SourceParser ParserRules.

Local Open Scope N_scope.

Module ParserExamples.

Import SourceFacts SourceEnvironment ParserState SourceParser ParserRules.

#[local] Existing Instance IdentitySpace.identity_kind_eq_dec.

(** ** Services

    The strings in the order they were interned and the identities behind the root. *)

Record names : Set := Names { strings : list (list N); identities : list (N * N * IdentitySpace.identity_kind) }.

Definition find_name (x : names) (text : list N) : N :=
  match list_find (λ t, t = text) (strings x) with Some (i, _) => N.of_nat i + 1 | None => 0 end.

Definition intern_name (text : list N) (x : names) : status_code * N * names :=
  if negb (find_name x text =? 0) then (ok, find_name x text, x)
  else (ok, size (strings x) + 1, Names (strings x ++ [text]) (identities x)).

Definition resolve_name (parent : N) (text : list N) (kind : IdentitySpace.identity_kind) (x : names) :
    status_code * N * names :=
  let '(_, name, x) := intern_name text x in
  match list_find (λ e, e.1 = (parent, name)) (identities x) with
  | Some (i, (_, kind')) =>
      if bool_decide (kind = kind') then (ok, IdentitySpace.make (N.of_nat i + 2) kind, x) else (semantic_conflict, 0, x)
  | None =>
      if (IdentitySpace.ref_slot parent <? size (identities x) + 2) && (size (identities x) + 2 <=? IdentitySpace.maximum_slot)
      then (ok, IdentitySpace.make (size (identities x) + 2) kind, Names (strings x) (identities x ++ [(parent, name, kind)]))
      else (invalid_argument, 0, x)
  end.

(** The entry of an identity. *)
Definition entry_of (x : names) (identity : N) : option (N * N * IdentitySpace.identity_kind) :=
  if IdentitySpace.ref_slot identity <? 2 then None
  else identities x !! (N.to_nat (IdentitySpace.ref_slot identity) - 2)%nat.

#[export] Instance names_semantic : Semantic names := {|
  find_string := find_name;
  intern_string := intern_name;
  resolve_declaration := resolve_name;
  identity_parent x identity := match entry_of x identity with Some e => e.1.1 | None => 0 end;
  identity_name x identity := match entry_of x identity with Some e => e.1.2 | None => 0 end |}.

Definition no_names : names := Names [] [].
Definition nothing_imported : environment_view :=
  EnvironmentView (λ _ _ _, 0) (λ _ _ _, no_object) (λ _ _ _, invalid_index).

(** ** Their laws *)

(** Every parent is before its child, and every slot fits a reference. *)
Record names_ok (x : names) : Prop := NamesOk {
  no_slots : size (identities x) + 1 <= IdentitySpace.maximum_slot;
  no_parents : ∀ j p n k, identities x !! j = Some (p, n, k) → IdentitySpace.ref_slot p < N.of_nat j + 2 }.

Lemma made_names slot kind : 0 < slot <= IdentitySpace.maximum_slot → SourceFactsTheorems.names kind (IdentitySpace.make slot kind).
Proof.
  intros H. split; [|apply IdentitySpace.make_kind; lia]. intros E.
  pose proof (IdentitySpace.make_slot slot kind ltac:(lia)) as Hs. rewrite E in Hs. change (IdentitySpace.ref_slot 0) with 0 in Hs. lia.
Qed.

Lemma intern_name_same text x code i x' : intern_name text x = (code, i, x') → identities x' = identities x ∧ i ≠ 0.
Proof.
  unfold intern_name. destruct (N.eqb_spec (find_name x text) 0) as [E|E]; cbn; intros [= _ <- <-]; [|done].
  split; [done|lia].
Qed.

Lemma names_ok_same x x' : identities x' = identities x → names_ok x → names_ok x'.
Proof. intros E []. by split; rewrite E. Qed.

Lemma resolve_name_ok scope text kind x code i x' : names_ok x → resolve_name scope text kind x = (code, i, x') →
  names_ok x' ∧ (code = ok → SourceFactsTheorems.names kind i).
Proof.
  intros Hx. unfold resolve_name. destruct (intern_name text x) as [[c name] y] eqn:Ei.
  apply intern_name_same in Ei as [Ey _]. apply (names_ok_same _ y) in Hx as [Hslots Hpar]; [|done].
  destruct (list_find _ (identities y)) as [[j [[p n] kind']]|] eqn:Ef.
  - apply list_find_Some in Ef as (Hj & _). apply lookup_lt_Some in Hj.
    case_bool_decide as Hk; intros [= <- <- <-]; (split; [by split|]); [|done]. intros _. subst kind'. apply made_names. unfold size in Hslots. lia.
  - destruct (_ && _) eqn:Eg; intros [= <- <- <-]; [|by split; [split|]]. apply andb_true_iff in Eg as [Ep Em].
    apply N.ltb_lt in Ep. apply N.leb_le in Em. split; [|intros _; apply made_names; lia]. split; cbn.
    + unfold size in *. rewrite length_app. cbn. lia.
    + intros j p n k [Hj|[Hj Hjn]]%lookup_app_Some; [by eapply Hpar|].
      unfold size in Ep. destruct (j - length (identities y))%nat eqn:Ed; [|done]. cbn in Hjn. injection Hjn as -> _ _. lia.
Qed.

#[export] Program Instance names_laws : SemanticLaws names := {| services_ok := names_ok |}.
Next Obligation.
  intros text x code i x' Hx H. cbn in H. apply intern_name_same in H as [E Hi]. split; [by eapply names_ok_same|done].
Qed.
Next Obligation. intros scope text kind x code i x' Hx H. by eapply resolve_name_ok. Qed.
Next Obligation.
  intros x i Hx Hi. cbn. unfold entry_of. destruct (N.ltb_spec (IdentitySpace.ref_slot i) 2) as [|Hs]; [by left|].
  destruct (identities x !! _) as [[[p n] k]|] eqn:E; [|by left]. right. cbn. apply (no_parents _ Hx) in E. lia.
Qed.

Lemma no_names_ok : names_ok no_names.
Proof. split; [done|]. by intros [|j] p n k. Qed.

Lemma nothing_imported_laws : EnvironmentLaws nothing_imported.
Proof. split; done. Qed.

(** ** Lexing and parsing *)

Definition no_double (_ : list N) : option N := None.
Definition no_text (_ : N) : list N := [].

Definition lexed_tokens (text : list N) : list Lexer.parser_token :=
  match Lexer.lex_source (λ _, true) (λ _, true) true false (Some text) with
  | Some (ok, tokens, _, _) => tokens
  | _ => []
  end.

Definition parsed (w : string) : outcome names source_facts :=
  run nothing_imported no_double no_text (bytes w) (lexed_tokens (bytes w)) (λ _, true) 1 no_names.

(** The facts of an accepted source; the status and the messages of a refused one. *)
Definition verdict (w : string) : source_facts + (status_code * list string) :=
  match parsed w with
  | Returned c _ => inl c
  | Failed code s => inr (code, diagnostic_message <$> emitted s)
  | Stuck => inr (ok, [])
  end.

End ParserExamples.
