(* ===== verification/ParserScans.v ===== *)
(** * The rules of the scans and the types

    Each scan ends and has advanced the cursor; each type is resolved, its modifiers are valid and
    its spelling ends where the next token may begin. *)

From S2P Require Import Prelude Lexer IdentitySpace Construction SourceFacts SourceFactsTheorems SourceEnvironment.
From S2P Require Import ParserState ParserTypes SourceParser ParserRules.

Local Open Scope N_scope.

Module ParserScans.

Import Lexer SourceFacts SourceFactsTheorems SourceEnvironment ParserState ParserTypes SourceParser ParserRules.

#[local] Existing Instance IdentitySpace.identity_kind_eq_dec.

Section scans.
Context {S : Type} `{!Semantic S} `{!SemanticLaws S}.
Context (source_text : list N) (tokens : list parser_token) (memory : nat → bool).
Context (Htokens : tokens_of source_text tokens).
Local Notation parser := (parser S).
Local Notation state_ok := (state_ok source_text tokens).
Local Notation kept := (kept source_text tokens).
Local Notation wp := (wp source_text).
Local Notation current := (current tokens).
Implicit Types s : parser.

(** The offset of the next token, and where it ends. *)
Local Notation at_ s := (token_offset (current s)).
Local Notation past s := (token_offset (current s) + token_length (current s)).

Lemma wp_scan_expression terminator s (Q : option source_span → parser → Prop) : state_ok s →
  (∀ o s', kept s s' →
    (∀ r, o = Some r → (cursor s < cursor s')%nat ∧ r = Span (at_ s) (at_ s' - at_ s) ∧ token_kind (current s') ≠ eof) →
      Q o s') →
  wp (scan_expression tokens memory terminator) s Q.
Proof.
  intros Hs HQ. unfold scan_expression. steps.
  apply (wp_forever source_text tokens)
    with (I := λ st s1, kept s s1 ∧ (st.2 = true → (cursor s < cursor s1)%nat)).
  - intros st s1 [K _]. apply (ok_cursor _ _ _ (kept_ok _ _ _ _ K)).
  - intros [closes consumed] s1 [K Hc]. unfold scan_turn. steps; cbn [fst snd] in *.
    + apply HQ; [keep|done].
    + apply bool_decide_eq_true in B0. apply HQ; [keep|]. intros r Hr. destruct consumed; [|done]. simplify_eq.
      split; [by apply Hc|]. split; [|by rewrite B0]. apply (span_from_inside _ _ Htokens).
      * apply (tokens_le _ _ Htokens); [now_ok..|cursors].
      * pose proof (current_inside _ _ Htokens s1 (kept_ok _ _ _ _ K)). lia.
    + apply bool_decide_eq_true in B0. destruct (nest _ _) as [closes'|]; [|apply wp_ret, HQ; [keep|done]].
      assert (token_kind (current s1) ≠ eof) by (rewrite B0; done).
      steps; (split; [|split; [keep|]]); cursors.
    + apply bool_decide_eq_false in B. specialize (C B). split; [cursors|]. split; [keep|]. cursors.
  - split; [by apply kept_refl|done].
Qed.

Lemma wp_skip_balanced_block s (Q : unit → parser → Prop) : state_ok s →
  (∀ s', kept s s' → (cursor s < cursor s')%nat → Q tt s') → wp (skip_balanced_block tokens memory) s Q.
Proof.
  intros Hs HQ. unfold skip_balanced_block.
  apply (wp_forever source_text tokens) with (I := λ _ s1, kept s s1); [|..|by apply kept_refl].
  - intros _ s1 K. apply (ok_cursor _ _ _ (kept_ok _ _ _ _ K)).
  - intros depth s1 K. unfold block_turn. steps; try (split; [cursors|keep]).
    destruct depth as [|[|depth]]; steps; [apply HQ; [keep|cursors]|split; [cursors|keep]].
Qed.

Lemma wp_skip_blocks s (Q : unit → parser → Prop) : state_ok s →
  (∀ s', kept s s' → (cursor s < cursor s')%nat → Q tt s') → wp (skip_blocks tokens memory) s Q.
Proof.
  intros Hs HQ. unfold skip_blocks.
  apply (wp_forever source_text tokens) with (I := λ _ s1, kept s s1); [|..|by apply kept_refl].
  - intros _ s1 K. apply (ok_cursor _ _ _ (kept_ok _ _ _ _ K)).
  - intros _ s1 K. steps. apply wp_skip_balanced_block; [now_ok|]. intros s2 K2 C2. steps.
    destruct (punctuation tokens left_brace s2); [split; [cursors|keep]|]. apply HQ; [keep|cursors].
Qed.

Lemma wp_skip_static_assert s (Q : unit → parser → Prop) : state_ok s → token_kind (current s) ≠ eof →
  (∀ s', kept s s' → (cursor s < cursor s')%nat → Q tt s') → wp (skip_static_assert tokens memory) s Q.
Proof.
  intros Hs Hk HQ. unfold skip_static_assert, skip_balanced_parens. steps.
  apply (wp_forever source_text tokens) with (I := λ _ s1, kept s s1 ∧ (cursor s < cursor s1)%nat);
    [|..|split; [keep|cursors]].
  - intros _ s2 [K2 _]. apply (ok_cursor _ _ _ (kept_ok _ _ _ _ K2)).
  - intros [depth empty] s2 [K2 C2]. unfold parens_turn. steps; try (split; [cursors|split; [keep|cursors]]).
    destruct depth as [|[|depth]]; steps; [apply HQ; [keep|cursors]|split; [cursors|split; [keep|cursors]]].
Qed.

Lemma wp_skip_friend_declaration s (Q : unit → parser → Prop) : state_ok s → token_kind (current s) ≠ eof →
  (∀ s', kept s s' → (cursor s < cursor s')%nat → Q tt s') → wp (skip_friend_declaration tokens memory) s Q.
Proof.
  intros Hs Hk HQ. unfold skip_friend_declaration, skip_to_body_or_semi. steps.
  apply (wp_forever source_text tokens) with (I := λ _ s1, kept s s1 ∧ (cursor s < cursor s1)%nat);
    [|..|split; [keep|cursors]].
  - intros _ s2 [K2 _]. apply (ok_cursor _ _ _ (kept_ok _ _ _ _ K2)).
  - intros depth s2 [K2 C2]. unfold body_or_semi_turn. steps; try (split; [cursors|split; [keep|cursors]]).
    + apply wp_skip_blocks; [now_ok|]. intros s3 K3 C3. steps. apply HQ; [keep|cursors].
    + destruct depth as [|depth]; steps. split; [cursors|split; [keep|cursors]].
    + apply HQ; [keep|cursors].
Qed.

(** A loop that keeps the packet. *)
Lemma wp_loop {A R} (J : A → parser → Prop) (body : A → parse S (A + R)) a s (Q : R → parser → Prop) :
  state_ok s → J a s →
  (∀ a s1, kept s s1 → J a s1 → wp (body a) s1 (λ r s2,
    match r with inl a' => (cursor s1 < cursor s2)%nat ∧ kept s1 s2 ∧ J a' s2 | inr r => Q r s2 end)) →
  wp (forever tokens body a) s Q.
Proof.
  intros Hs Ha Hbody. apply (wp_forever source_text tokens) with (I := λ a s1, kept s s1 ∧ J a s1).
  - intros _ s1 [K _]. apply (ok_cursor _ _ _ (kept_ok _ _ _ _ K)).
  - intros a1 s1 [K HJ]. eapply wp_mono; [by apply Hbody|]. intros [a2|r] s2 H; [|done].
    destruct H as (Hc & K2 & H2). split; [done|]. split; [keep|done].
  - split; [by apply kept_refl|done].
Qed.

(** ** Ends of spellings *)

(** An offset behind the start of the token of [s0], up to the token of [s]. *)
Definition ends_at s0 (e : N) s : Prop := at_ s0 < e <= at_ s.

Lemma ends_at_mono s0 e s s' : ends_at s0 e s → kept s s' → state_ok s → ends_at s0 e s'.
Proof.
  intros [H1 H2] K Hs. pose proof (tokens_le _ _ Htokens s s' Hs (kept_ok _ _ _ _ K) (kept_cursor _ _ _ _ K)).
  split; [done|lia].
Qed.

Lemma ends_at_past s0 s s' : state_ok s0 → kept s0 s → kept s s' → (cursor s < cursor s')%nat →
  token_kind (current s) ≠ eof → ends_at s0 (end_of (current s)) s'.
Proof.
  intros H0 K K' Hc Hk. pose proof (kept_ok _ _ _ _ K) as Hs. rewrite (current_end _ _ Htokens) by done.
  pose proof (tokens_le _ _ Htokens s0 s H0 Hs (kept_cursor _ _ _ _ K)).
  pose proof (tokens_lt _ _ Htokens s s' Hs (kept_ok _ _ _ _ K') Hc).
  pose proof (current_nonempty _ _ Htokens s Hs Hk). split; lia.
Qed.

(** What [parse_type_base] leaves, from the state of its first token. *)
Record based s0 s (base : type_base) : Prop := Based {
  based_resolved : resolved_base (base_semantic base) (base_intrinsic base);
  based_end : ends_at s0 (base_end base) s;
  based_modifiers : Forall modifier_ok (base_modifiers base) }.

Lemma intrinsic_based s0 s i e : 1 <= i <= 21 → ends_at s0 e s → based s0 s (TypeBase 0 i e []).
Proof. intros Hi He. constructor; [by right|done|by constructor]. Qed.

Ltac ended :=
  cbn [base_end];
  match goal with
  | |- ends_at ?s0 (end_of (ParserState.current _ ?s)) _ =>
      eapply ends_at_past; [eassumption | keep | keep | cursors | not_eof]
  | H : ends_at ?s0 ?e ?s |- ends_at ?s0 ?e ?s' => eapply ends_at_mono; [exact H | keep | now_ok]
  end.

Lemma wp_skip_word w s0 e s (Q : N → parser → Prop) : state_ok s0 → kept s0 s → ends_at s0 e s →
  (∀ e' s', kept s s' → ends_at s0 e' s' → Q e' s') → wp (skip_word source_text tokens w e) s Q.
Proof.
  intros H0 K He HQ. unfold skip_word. steps; (apply HQ; [keep | first [done | ended]]).
Qed.

Ltac word := eapply wp_skip_word; [eassumption | keep | ended |
  let e := fresh "e" in let s := fresh "s" in let K := fresh "K" in let E := fresh "E" in intros e s K E].

Ltac typed HQ := apply HQ; [keep | apply intrinsic_based; [try lia | first [done | ended]] | done].

Lemma wp_sign_base unsigned_value s0 e s (Q : type_base → parser → Prop) : state_ok s0 → kept s0 s → ends_at s0 e s →
  (∀ base s', kept s s' → based s0 s' base → base_modifiers base = [] → Q base s') → wp (sign_base source_text tokens unsigned_value e) s Q.
Proof.
  intros H0 K He HQ. unfold sign_base, is_unsigned_or. steps; try word; steps; typed HQ; destruct unsigned_value; lia.
Qed.

Lemma wp_simple_base i s0 e s (Q : type_base → parser → Prop) : state_ok s0 → kept s0 s → ends_at s0 e s →
  1 <= i <= 19 → (∀ base s', kept s s' → based s0 s' base → base_modifiers base = [] → Q base s') → wp (simple_base source_text tokens i e) s Q.
Proof.
  intros H0 K He Hi HQ. unfold simple_base. steps; try word; steps; typed HQ.
Qed.

(** ** Types *)

Context (environment : environment_view) (Henvironment : EnvironmentLaws environment).

Lemma modifiers_copied s range : state_ok s → Forall modifier_ok (section range (alias_modifiers (candidate s))).
Proof. intros Hs. apply Forall_take, Forall_drop, (ok_alias_modifiers _ _ _ Hs). Qed.

(** Modifiers in a base are those of an alias. *)
Definition copied s (base : type_base) : Prop := alias_modifiers (candidate s) = [] → base_modifiers base = [].

Lemma wp_named_base scope offset first s (Q : type_base → parser → Prop) : state_ok s → token_kind (current s) ≠ eof →
  (∀ base s', kept s s' → (cursor s < cursor s')%nat → based s s' base → copied s base → Q base s') →
  wp (named_base environment tokens memory scope offset first (end_of (current s))) s Q.
Proof.
  intros Hs Hk HQ. unfold named_base.
  assert (Hnone : ∀ i, wp (identity ← (if negb (i =? 0) then lookup_visible_type environment scope i offset else mret 0);
      s1 ← read id;
      if identity =? 0 then
        fail memory parser_unresolved_type (here tokens s1) "type name is not visible in the Source semantic environment" not_found
      else advance tokens;; mret (TypeBase identity 0 (end_of (current s)) [])) s Q).
  { intros i. apply wp_bind, (wp_visible source_text tokens environment Henvironment); [done|]. intros identity Hi. steps. apply N.eqb_neq in B.
    apply HQ; [keep|cursors| |done]. constructor; [left; auto|ended|by constructor]. }
  apply wp_bind, wp_find. intros i. apply wp_bind, wp_if; intros _; [|apply wp_ret, Hnone].
  apply (wp_find_visible_alias source_text tokens); [done|]. intros [entry|] Ha; [|apply Hnone]. steps.
  apply HQ; [keep|cursors| |].
  - constructor; [by apply Ha|ended|]. apply (modifiers_copied s0). now_ok.
  - intros Hn. cbn. rewrite (kept_candidate _ _ _ _ K), Hn. unfold section. by rewrite drop_nil, take_nil.
Qed.

Lemma wp_elaborated_base scope offset s (Q : type_base → parser → Prop) : state_ok s → token_kind (current s) ≠ eof →
  (∀ base s', kept s s' → (cursor s < cursor s')%nat → based s s' base → copied s base → Q base s') →
  wp (elaborated_base environment source_text tokens memory scope offset) s Q.
Proof.
  intros Hs Hk HQ. unfold elaborated_base. steps. apply N.eqb_neq in B0.
  apply HQ; [keep|cursors| |done]. constructor; [left; auto|ended|by constructor].
Qed.

Lemma simple_intrinsic_range name i : simple_intrinsic name = Some i → 1 <= i <= 19.
Proof.
  unfold simple_intrinsic. destruct (list_find _ simple_names) as [[k [w i']]|] eqn:E; [|done]. cbn. intros [= ->].
  apply list_find_Some in E as (Hk & _ & _). apply list_elem_of_lookup_2 in Hk. unfold simple_names in Hk.
  repeat (apply elem_of_cons in Hk as [[= _ ->]|Hk]; [lia|]). by apply elem_of_nil in Hk.
Qed.

Lemma is_record_or_enum_kind s : is_record_or_enum tokens s = true → token_kind (current s) ≠ eof.
Proof. unfold is_record_or_enum. intros H. not_eof. Qed.

Lemma wp_parse_type_base scope offset s (Q : type_base → parser → Prop) : state_ok s →
  (∀ base s', kept s s' → (cursor s < cursor s')%nat → based s s' base → copied s base → Q base s') →
  wp (parse_type_base environment source_text tokens memory scope offset) s Q.
Proof.
  intros Hs HQ. unfold parse_type_base. steps.
  - apply wp_elaborated_base; [done|by apply is_record_or_enum_kind|done].
  - eapply (wp_sign_base _ s); [done|keep|ended|]. intros base s2 K2 Hb Hn. apply HQ; [keep|cursors|done|by intros _].
  - destruct (simple_intrinsic _) as [i|] eqn:Hi; steps.
    + apply simple_intrinsic_range in Hi. eapply (wp_simple_base i s); [done|keep|ended|done|].
      intros base s2 K2 Hb Hn. apply HQ; [keep|cursors|done|by intros _].
    + apply wp_named_base; [done|not_eof|done].
Qed.

Lemma at_qualifier_kind s : at_qualifier source_text tokens s = true → token_kind (current s) ≠ eof.
Proof. unfold at_qualifier. intros H. not_eof. Qed.

Lemma qualifier_ok (b : bool) : modifier_ok (TypeModifier 0 (if b then modifier_const else 1)).
Proof. destruct b; split; cbn; unfold modifier_const; lia. Qed.

Lemma plain_ok kind : kind <= 6 → kind ≠ 5 → modifier_ok (TypeModifier 0 kind).
Proof. split; cbn; lia. Qed.

Lemma modifiers_snoc l m : Forall modifier_ok l → modifier_ok m → Forall modifier_ok (l ++ [m]).
Proof. intros. apply Forall_app. split; [done|]. by constructor. Qed.

Lemma wp_qualifiers l e s0 s (Q : list source_type_modifier * N → parser → Prop) : state_ok s0 → kept s0 s →
  Forall modifier_ok l →
  (∀ l' e' s', kept s s' → Forall modifier_ok l' → (ends_at s0 e s → ends_at s0 e' s') → Q (l', e') s') →
  wp (qualifiers source_text tokens memory l e) s Q.
Proof.
  intros H0 K Hl HQ. unfold qualifiers.
  apply wp_loop with (J := λ st s1, Forall modifier_ok st.1 ∧ (ends_at s0 e s → ends_at s0 st.2 s1)); [now_ok|done|].
  intros [l1 e1] s1 K1 [Hl1 He1]. unfold qualifier_turn. steps.
  - apply at_qualifier_kind in B. assert (token_kind (current s2) ≠ eof) by not_eof.
    match goal with C : _ → cursor s3 = _ |- _ => specialize (C ltac:(not_eof)) end.
    split; [cursors|]. split; [keep|]. cbn. split; [by apply modifiers_snoc, qualifier_ok|]. intros _.
    eapply (ends_at_past s0 s1); [done|keep|keep|cursors|done].
  - by apply HQ.
Qed.

Lemma wp_suffixes l e s0 s (Q : list source_type_modifier * N → parser → Prop) : state_ok s0 → kept s0 s →
  Forall modifier_ok l → ends_at s0 e s →
  (∀ l' e' s', kept s s' → Forall modifier_ok l' → ends_at s0 e' s' → Q (l', e') s') →
  wp (forever tokens (suffix_turn source_text tokens memory) (l, e)) s Q.
Proof.
  intros H0 K Hl He HQ.
  apply wp_loop with (J := λ st s1, Forall modifier_ok st.1 ∧ ends_at s0 st.2 s1); [now_ok|done|].
  intros [l1 e1] s1 K1 [Hl1 He1]. unfold suffix_turn. steps.
  - apply (wp_qualifiers _ _ s0); [done|keep|by apply modifiers_snoc, plain_ok|].
    intros l' e' s4 K4 Hl' He'. steps. split; [cursors|]. split; [keep|]. cbn. split; [done|]. apply He'.
    eapply (ends_at_past s0 s1); [done|keep|keep|cursors|not_eof].
  - split; [cursors|]. split; [keep|]. cbn. split; [by apply modifiers_snoc, plain_ok|].
    eapply (ends_at_past s0 s1); [done|keep|keep|cursors|not_eof].
  - split; [cursors|]. split; [keep|]. cbn. split; [by apply modifiers_snoc, plain_ok|].
    eapply (ends_at_past s0 s1); [done|keep|keep|cursors|not_eof].
  - by apply HQ.
Qed.

Lemma based_shift s0 s s' base : based s s' base → state_ok s0 → kept s0 s → based s0 s' base.
Proof.
  intros [Hr [He1 He2] Hm] H0 K. constructor; [done| |done]. split; [|done].
  pose proof (tokens_le _ _ Htokens s0 s H0 (kept_ok _ _ _ _ K) (kept_cursor _ _ _ _ K)). lia.
Qed.

Lemma wp_parse_type scope offset s (Q : type_base → parser → Prop) : state_ok s →
  (∀ base s', kept s s' → (cursor s < cursor s')%nat → based s s' base → Q base s') →
  wp (parse_type environment source_text tokens memory scope offset) s Q.
Proof.
  intros Hs HQ. unfold parse_type. steps.
  apply (wp_qualifiers _ _ s); [done|by apply kept_refl|by constructor|]. intros leading e1 s1 K1 Hl _. steps.
  apply wp_parse_type_base; [now_ok|]. intros base s2 K2 C2 Hb _. apply (based_shift s) in Hb as [Hr He Hm]; [|done|keep].
  steps. apply (wp_qualifiers _ _ s); [done|keep|by apply Forall_app|]. intros trailing e3 s3 K3 Ht He3. steps.
  apply (wp_suffixes _ _ s); [done|keep|done|by apply He3|]. intros all e4 s4 K4 Ha He4. steps.
  apply HQ; [keep|cursors|]. by constructor.
Qed.

Lemma from_chars_bound text n : Construction.from_chars_uint64 text = Some n → n < two64.
Proof. unfold Construction.from_chars_uint64. destruct (_ && _) eqn:E; [|done]. intros [= <-]. by bools. Qed.

Lemma wp_parse_array_suffix member_context s (Q : list source_type_modifier → parser → Prop) : state_ok s →
  (∀ l s', kept s s' → Forall modifier_ok l → Q l s') →
  wp (parse_array_suffix source_text tokens memory member_context) s Q.
Proof.
  intros Hs HQ. unfold parse_array_suffix.
  apply wp_loop with (J := λ l _, Forall modifier_ok l); [done|by constructor|].
  intros l s1 K1 Hl. unfold array_turn. steps.
  - by apply HQ.
  - split; [cursors|]. split; [keep|]. by apply modifiers_snoc, plain_ok.
  - destruct (Construction.from_chars_uint64 _) as [bound|]; steps. apply N.eqb_neq in B2.
    split; [cursors|]. split; [keep|]. apply modifiers_snoc; [done|]. split; cbn; unfold modifier_bounded_array; [lia|done].
Qed.

Lemma wp_skip_qualifiers s (Q : unit → parser → Prop) : state_ok s →
  (∀ s', kept s s' → Q tt s') → wp (skip_qualifiers source_text tokens) s Q.
Proof.
  intros Hs HQ. unfold skip_qualifiers. apply wp_loop with (J := λ _ _, True); [done..|].
  intros _ s1 K1 _. steps; [|by apply HQ]. apply at_qualifier_kind in B. specialize (C B).
  split; [cursors|]. split; [keep|done].
Qed.

Lemma wp_pointers s (Q : unit → parser → Prop) : state_ok s →
  (∀ s', kept s s' → Q tt s') → wp (forever tokens (pointer_turn source_text tokens) tt) s Q.
Proof.
  intros Hs HQ. apply wp_loop with (J := λ _ _, True); [done..|].
  intros u s1 K1 _. unfold pointer_turn. steps; [|split; [cursors|by split; [keep|]]|by apply HQ].
  apply wp_skip_qualifiers; [now_ok|]. intros s3 K3. steps. split; [cursors|by split; [keep|]].
Qed.

Lemma wp_default_argument (b : bool) s (Q : unit → parser → Prop) : state_ok s → (∀ s', kept s s' → Q tt s') →
  wp (if b then
        advance tokens;;
        argument ← scan_expression tokens memory right_parenthesis;
        s ← read id;
        if bool_decide (argument = None)
        then fail_syntax memory (here tokens s) "empty or unbalanced default argument" else mret tt
      else mret tt) s Q.
Proof.
  intros Hs HQ. apply wp_if; intros _; [|by apply wp_ret, HQ, kept_refl]. apply wp_bind.
  eapply wp_advance; [done..|]. intros s1 K1 _. steps. apply wp_scan_expression; [now_ok|]. intros o s2 K2 _.
  steps. apply HQ. keep.
Qed.

Lemma wp_parse_parameter_list s (Q : unit → parser → Prop) : state_ok s →
  (∀ s', kept s s' → (token_kind (current s) ≠ eof → (cursor s < cursor s')%nat) → Q tt s') →
  wp (parse_parameter_list environment source_text tokens memory) s Q.
Proof.
  intros Hs HQ. unfold parse_parameter_list. apply wp_bind. eapply wp_advance; [done..|]. intros s1 K1 C1. apply wp_bind, wp_read.
  apply wp_if; intros B.
  { eapply wp_advance; [done|now_ok|]. intros s2 K2 _. apply HQ; [keep|]. intros Hk. specialize (C1 Hk). cursors. }
  apply wp_loop with (J := λ _ _, True); [now_ok|done|]. intros u s2 K2 _. unfold parameter_turn. steps.
  - apply HQ; [keep|]. intros Hk. specialize (C1 Hk). cursors.
  - apply wp_skip_qualifiers; [now_ok|]. intros s3 K3. steps.
    apply wp_parse_type_base; [now_ok|]. intros base s4 K4 C4 _ _. steps.
    apply wp_skip_qualifiers; [now_ok|]. intros s5 K5. steps.
    apply wp_pointers; [now_ok|]. intros s6 K6. steps.
    apply wp_parse_array_suffix; [now_ok|]. intros l s7 K7 _. do 3 step.
    apply wp_default_argument; [now_ok|]. intros s8 K8. steps.
    + split; [cursors|]. split; [keep|done].
    + apply HQ; [keep|]. intros Hk. specialize (C1 Hk). cursors.
Qed.
End scans.

End ParserScans.
