(* ===== verification/ParserChunks.v ===== *)
(** * What a piece of source adds to the packet

    [append] adds to a packet the facts of a piece of the source, a [chunk] says that they are well
    formed, start between two offsets and go on the partitions the packet has; two pieces in a row
    are a piece.  The last theorems give [well_formed] for the whole. *)

From stdpp Require Import sorting.
From S2P Require Import Prelude IdentitySpace Construction SourceFacts SourceFactsTheorems.

Local Open Scope N_scope.

Module ParserChunks.

Import SourceFacts SourceFactsTheorems.

#[local] Existing Instance IdentitySpace.identity_kind_eq_dec.

(** ** Adding facts *)

Definition append (c d : source_facts) : source_facts :=
  SourceFacts (source c) (source_text c) (namespaces c ++ namespaces d) (records c ++ records d)
    (members c ++ members d) (modifiers c ++ modifiers d) (enums c ++ enums d) (enum_values c ++ enum_values d)
    (declarations c ++ declarations d) (objects c ++ objects d) (links c ++ links d) (bases c ++ bases d)
    (aliases c ++ aliases d) (alias_modifiers c ++ alias_modifiers d) (methods c ++ methods d)
    (method_modifiers c ++ method_modifiers d).

Lemma append_assoc c d e : append (append c d) e = append c (append d e).
Proof. unfold append. cbn. by rewrite <-!app_assoc. Qed.

Definition no_facts : source_facts := SourceFacts 0 [] [] [] [] [] [] [] [] [] [] [] [] [] [] [].

Lemma append_nothing c : append c no_facts = c.
Proof. unfold append, no_facts. cbn. rewrite !app_nil_r. by destruct c. Qed.

(** ** Runs and tilings *)

(** In order of their start, which is from [lo] on and before [hi]. *)
Record runs {A} (span_of : A → source_span) (lo hi : N) (items : list A) : Prop := {
  runs_ordered : ordered span_of items;
  runs_between : Forall (λ x, lo <= offset (span_of x) < hi) items }.

(** The ranges tile the positions from [from] up to [to]. *)
Definition tiling (from : N) (ranges : list source_fact_range) (to : N) : Prop :=
  tiles from ranges ∧ from + sumN count ranges = to.

Section runs.
Context {A : Type} (span_of : A → source_span).
Implicit Types l k : list A.

Lemma runs_nil lo hi : runs span_of lo hi [].
Proof. split; constructor. Qed.

Lemma runs_one lo hi x : lo <= offset (span_of x) < hi → runs span_of lo hi [x].
Proof. intros H. split; [apply Sorted_cons; constructor | by constructor]. Qed.

Lemma runs_widen lo hi lo' hi' l : runs span_of lo hi l → lo' <= lo → hi <= hi' → runs span_of lo' hi' l.
Proof. intros [Ho Hb] H1 H2. split; [done|]. eapply Forall_impl; [exact Hb|]. cbn. intros x Hx. lia. Qed.

Lemma runs_app lo mid hi l k : runs span_of lo mid l → runs span_of mid hi k → lo <= mid → mid <= hi →
  runs span_of lo hi (l ++ k).
Proof.
  intros [Ho Hb] [Ho' Hb'] H1 H2. split.
  - unfold ordered, offsets in *. rewrite fmap_app. apply Sorted_StronglySorted in Ho, Ho'; [|intros ???; lia..].
    apply StronglySorted_Sorted, StronglySorted_app_2; [|done..].
    intros x y [x' [-> Hx]]%list_elem_of_fmap [y' [-> Hy]]%list_elem_of_fmap.
    rewrite Forall_forall in Hb, Hb'. specialize (Hb _ Hx). specialize (Hb' _ Hy). cbn in *. lia.
  - apply Forall_app. split; eapply Forall_impl; [exact Hb| |exact Hb'|]; cbn; intros; lia.
Qed.

(** Facts of one declaration start alike. *)
Lemma runs_const lo hi start l : Forall (λ x, offset (span_of x) = start) l → lo <= start < hi → runs span_of lo hi l.
Proof.
  intros Hl Hs. split; [|eapply Forall_impl; [exact Hl|]; cbn; intros x ->; lia].
  unfold ordered, offsets. induction Hl as [|x l Hx Hl IH]; [constructor|]. cbn. constructor; [done|].
  destruct Hl as [|y l Hy Hl]; cbn; constructor. lia.
Qed.
End runs.

Lemma tiling_nil n : tiling n [] n.
Proof. split; [done|]. cbn. lia. Qed.

Lemma tiling_one from n : tiling from [FactRange from n] (from + n).
Proof. split; cbn; [done|lia]. Qed.

Lemma tiling_app a rs b ss c : tiling a rs b → tiling b ss c → tiling a (rs ++ ss) c.
Proof.
  intros [Ht Hs] [Ht' Hs']. split; [|rewrite sumN_app; lia]. clear Hs'. revert a Ht Hs.
  induction rs as [|r rs IH]; intros a; cbn.
  - intros _ Hs. replace a with b by lia. done.
  - intros [Hb Ht] Hs. split; [done|]. apply IH; [done|lia].
Qed.

Lemma tiling_partition ranges n : tiling 0 ranges n → partition ranges n.
Proof. intros [Ht Hs]. split; [done|lia]. Qed.

(** ** Merged ranges *)

Lemma merge_app (l1 l2 k1 k2 : list (N * source_fact_range)) mid :
  (∀ x, x ∈ l1 ∨ x ∈ k1 → x.1 < mid) → (∀ x, x ∈ l2 ∨ x ∈ k2 → mid <= x.1) →
  list_merge declared_earlier (l1 ++ l2) (k1 ++ k2) =
  list_merge declared_earlier l1 k1 ++ list_merge declared_earlier l2 k2.
Proof.
  intros H1 H2. revert k1 H1. induction l1 as [|x l1 IHl]; intros k1.
  - induction k1 as [|y k1 IHk]; intros H1; [done|]. cbn [app].
    rewrite (list_merge_nil_l _ (y :: k1)). destruct l2 as [|z l2]; [by rewrite !list_merge_nil_l|].
    rewrite list_merge_cons, decide_False.
    + cbn [app]. f_equal. specialize (IHk ltac:(intros ? [Hz|Hz]; apply H1; [by left | right; by right])). cbn [app] in IHk. rewrite IHk. by rewrite list_merge_nil_l.
    + unfold declared_earlier. pose proof (H1 y ltac:(right; left)). pose proof (H2 z ltac:(left; left)). lia.
  - induction k1 as [|y k1 IHk]; intros H1.
    + rewrite list_merge_nil_r. cbn [app]. destruct k2 as [|z k2].
      * by rewrite !list_merge_nil_r.
      * rewrite list_merge_cons, decide_True.
        -- cbn [app]. f_equal. specialize (IHl [] ltac:(intros ? []; [apply H1; left; by right|by apply elem_of_nil in H])).
           rewrite list_merge_nil_r in IHl. exact IHl.
        -- unfold declared_earlier. pose proof (H1 x ltac:(left; left)). pose proof (H2 z ltac:(right; left)). lia.
    + cbn [app]. rewrite !list_merge_cons. case_decide; cbn [app]; f_equal.
      * apply (IHl (y :: k1)). intros z [Hz|Hz]; apply H1; [left; by right|by right].
      * apply IHk. intros z [Hz|Hz]; apply H1; [by left|right; by right].
Qed.

(** ** The facts of a piece *)

(** No enum takes modifiers from an alias: no alias has any, or no enum has an underlying type. *)
Definition plain (c : source_facts) : Prop :=
  alias_modifiers c = [] ∨ Forall (λ e, enum_explicit_underlying e = intrinsic_none) (enums c).

Lemma plain_append c d : plain (append c d) → plain c.
Proof. intros [[H _]%app_eq_nil|[H _]%Forall_app]; [by left|by right]. Qed.

Definition is_definition (r : source_record_fact) : bool := record_declared r =? kind_definition.
Definition is_enum_definition (e : source_enum_fact) : bool := enum_declared e =? kind_definition.

Definition method_range (m : source_method_fact) : source_fact_range := ref_modifiers (method_return m).
Definition alias_range (a : source_alias_fact) : source_fact_range := ref_modifiers (alias_target a).

(** Every fact is well formed by itself, the facts of each kind are in order, and the modifiers are
    partitioned by them; [c] is the packet before. *)
Record stated (c : source_facts) (lo hi : N) (d : source_facts) : Prop := Stated {
  st_namespaces : Forall (namespace_ok c) (namespaces d);
  st_namespace_runs : runs namespace_declaration lo hi (namespaces d);
  st_record_runs : runs record_declaration lo hi (records d);
  st_members : Forall (member_ok c) (members d);
  st_member_runs : runs member_declaration lo hi (members d);
  st_methods : Forall (method_ok c) (methods d);
  st_method_runs : runs method_declaration lo hi (methods d);
  st_bases : Forall (base_ok c) (bases d);
  st_modifiers : Forall modifier_ok (modifiers d);
  st_enum_runs : runs enum_declaration lo hi (enums d);
  st_objects : Forall (object_ok c) (objects d);
  st_object_runs : runs object_declaration lo hi (objects d);
  st_links : Forall (link_ok c) (links d);
  st_link_runs : runs link_declaration lo hi (links d);
  st_aliases : Forall (alias_ok c) (aliases d);
  st_alias_runs : runs alias_declaration lo hi (aliases d);
  st_modifier_tiling : plain (append c d) →
    tiling (size (modifiers c)) (modifier_ranges d) (size (modifiers c ++ modifiers d));
  st_method_tiling : size (method_modifiers c ++ method_modifiers d) < two32 →
    tiling (size (method_modifiers c)) (method_range <$> methods d) (size (method_modifiers c ++ method_modifiers d));
  st_alias_tiling :
    tiling (size (alias_modifiers c)) (alias_range <$> aliases d) (size (alias_modifiers c ++ alias_modifiers d)) }.

(** The definitions partition their members, bases, methods and enumerators and are well formed in
    every packet that goes on from here; a declaration has the empty ranges at 0. *)
Record owned (c d : source_facts) : Prop := Owned {
  ow_records : Forall (λ r, ∀ e, record_ok (append (append c d) e) r) (records d);
  ow_members : tiling (size (members c)) (record_members <$> filter is_definition (records d)) (size (members c ++ members d));
  ow_bases : tiling (size (bases c)) (record_bases <$> filter is_definition (records d)) (size (bases c ++ bases d));
  ow_methods : tiling (size (methods c)) (record_methods <$> filter is_definition (records d)) (size (methods c ++ methods d));
  ow_forward : Forall (λ r, is_definition r = false → record_members r = FactRange 0 0 ∧
    record_bases r = FactRange 0 0 ∧ record_methods r = FactRange 0 0) (records d);
  ow_enums : Forall (λ v, ∀ e, enum_ok (append (append c d) e) v) (enums d);
  ow_values : tiling (size (enum_values c)) (enum_enumerators <$> filter is_enum_definition (enums d))
    (size (enum_values c ++ enum_values d));
  ow_enum_forward : Forall (λ v, is_enum_definition v = false → enum_enumerators v = FactRange 0 0) (enums d) }.

(** The declaration sequence names the facts, counted on from those before. *)
Definition listed_from {A} (from : nat) (span_of : A → source_span) (items : list A) : list (N * source_span) :=
  imap (λ i x, (N.of_nat (from + i), span_of x)) items.

Record sequenced (c : source_facts) (lo hi : N) (d : source_facts) : Prop := Sequenced {
  sq_runs : runs declaration_span lo hi (declarations d);
  sq_namespaces : entries declares_namespace (declarations d) =
    listed_from (length (namespaces c)) namespace_declaration (namespaces d);
  sq_records : entries declares_record (declarations d) = listed_from (length (records c)) record_declaration (records d);
  sq_enums : entries declares_enum (declarations d) = listed_from (length (enums c)) enum_declaration (enums d);
  sq_objects : entries declares_object (declarations d) = listed_from (length (objects c)) object_declaration (objects d);
  sq_links : entries declares_link (declarations d) = listed_from (length (links c)) link_declaration (links d);
  sq_aliases : entries declares_alias (declarations d) = listed_from (length (aliases c)) alias_declaration (aliases d);
  sq_known : Forall (λ e, declaration_code e <= 5) (declarations d) }.

Record chunk (c : source_facts) (lo hi : N) (d : source_facts) : Prop := Chunk {
  chunk_stated : stated c lo hi d;
  chunk_owned : owned c d;
  chunk_sequenced : sequenced c lo hi d }.

(** *** Nothing *)

Lemma stated_nothing c lo hi : stated c lo hi no_facts.
Proof.
  split; cbn; try apply runs_nil; try constructor; intros; rewrite ?app_nil_r; apply tiling_nil.
Qed.

Lemma owned_nothing c : owned c no_facts.
Proof. split; cbn; rewrite ?app_nil_r; try apply tiling_nil; constructor. Qed.

Lemma sequenced_nothing c lo hi : sequenced c lo hi no_facts.
Proof. split; cbn; try done. apply runs_nil. Qed.

Lemma chunk_nothing c lo hi : chunk c lo hi no_facts.
Proof. split; [apply stated_nothing|apply owned_nothing|apply sequenced_nothing]. Qed.

(** *** One piece behind another *)

Lemma modifier_ranges_append c lo mid hi d e : stated c lo mid d → stated (append c d) mid hi e →
  modifier_ranges (append d e) = modifier_ranges d ++ modifier_ranges e.
Proof.
  intros Hd He. unfold modifier_ranges. cbn. rewrite !fmap_app, (merge_app _ _ _ _ mid), fmap_app; [done|..].
  - intros x [[y [-> Hy]]%list_elem_of_fmap|[y [-> Hy]]%list_elem_of_fmap]; cbn.
    + pose proof (runs_between _ _ _ _ (st_member_runs _ _ _ _ Hd)) as H. rewrite Forall_forall in H. apply H in Hy. lia.
    + pose proof (runs_between _ _ _ _ (st_object_runs _ _ _ _ Hd)) as H. rewrite Forall_forall in H. apply H in Hy. lia.
  - intros x [[y [-> Hy]]%list_elem_of_fmap|[y [-> Hy]]%list_elem_of_fmap]; cbn.
    + pose proof (runs_between _ _ _ _ (st_member_runs _ _ _ _ He)) as H. rewrite Forall_forall in H. apply H in Hy. lia.
    + pose proof (runs_between _ _ _ _ (st_object_runs _ _ _ _ He)) as H. rewrite Forall_forall in H. apply H in Hy. lia.
Qed.

Lemma stated_append c lo mid hi d e : stated c lo mid d → stated (append c d) mid hi e → lo <= mid → mid <= hi →
  stated c lo hi (append d e).
Proof.
  intros Hd He H1 H2. pose proof (modifier_ranges_append _ _ _ _ _ _ Hd He) as Hr. destruct Hd, He.
  split; cbn in *; try (apply Forall_app; done); try (eapply runs_app; done).
  - intros Hp. rewrite Hr. eapply tiling_app.
    + apply st_modifier_tiling0. apply (plain_append _ e). by rewrite append_assoc.
    + rewrite app_assoc. apply st_modifier_tiling1. by rewrite append_assoc.
  - rewrite app_assoc. intros Hn. rewrite fmap_app. eapply tiling_app; [apply st_method_tiling0 | by apply st_method_tiling1].
    unfold size in *. rewrite !length_app in *. lia.
  - rewrite fmap_app, app_assoc. eapply tiling_app; done.
Qed.

Lemma owned_append c d e : owned c d → owned (append c d) e → owned c (append d e).
Proof.
  intros [] []. split; cbn in *; rewrite ?filter_app, ?fmap_app, ?app_assoc; try (eapply tiling_app; done);
    try (apply Forall_app; done).
  - apply Forall_app. split; [eapply Forall_impl; [exact ow_records0|]|eapply Forall_impl; [exact ow_records1|]];
      cbn; intros r Hr e'; [specialize (Hr (append e e'))|specialize (Hr e')]; rewrite !append_assoc in *; done.
  - apply Forall_app. split; [eapply Forall_impl; [exact ow_enums0|]|eapply Forall_impl; [exact ow_enums1|]];
      cbn; intros r Hr e'; [specialize (Hr (append e e'))|specialize (Hr e')]; rewrite !append_assoc in *; done.
Qed.

Lemma listed_from_app {A} from (span_of : A → source_span) l k :
  listed_from from span_of (l ++ k) = listed_from from span_of l ++ listed_from (from + length l) span_of k.
Proof. unfold listed_from. rewrite imap_app. f_equal. apply imap_ext. intros i x _. cbn. do 2 f_equal. lia. Qed.

Lemma entries_app kind l k : entries kind (l ++ k) = entries kind l ++ entries kind k.
Proof. unfold entries. by rewrite filter_app, fmap_app. Qed.

Lemma sequenced_append c lo mid hi d e : sequenced c lo mid d → sequenced (append c d) mid hi e → lo <= mid → mid <= hi →
  sequenced c lo hi (append d e).
Proof.
  intros [] [] H1 H2.
  split; cbn -[entries listed_from] in *; rewrite ?entries_app, ?listed_from_app, ?length_app in *; try congruence.
  - eapply runs_app; done.
  - by apply Forall_app.
Qed.

Lemma chunk_append c lo mid hi d e : chunk c lo mid d → chunk (append c d) mid hi e → lo <= mid → mid <= hi →
  chunk c lo hi (append d e).
Proof.
  intros [] [] H1 H2.
  split; [by eapply stated_append | by eapply owned_append | by eapply sequenced_append].
Qed.

(** The parts of a piece about kinds of facts it has none of. *)
Ltac blank :=
  split; cbn -[modifier_ranges filter]; rewrite ?app_nil_r;
  first [done | apply runs_nil | apply Forall_nil_2 | apply tiling_nil | intros _; apply tiling_nil | idtac].

End ParserChunks.
