(* ===== verification/ParserMoves.v ===== *)
(** * Additions to the packet

    The rules of the methods that add facts: the new packet is the old one with a piece behind it
    ([ParserChunks.append]); and of the constructors of a record, which only leave operations. *)

From S2P Require Import Prelude Lexer IdentitySpace Construction SourceFacts SourceFactsTheorems SourceEnvironment.
From S2P Require Import ParserState ParserTypes SourceParser ParserRules ParserScans ParserChunks.

Local Open Scope N_scope.

Module ParserMoves.

Import Lexer SourceFacts SourceFactsTheorems SourceEnvironment ParserState ParserTypes SourceParser.
Import ParserRules ParserScans ParserChunks.

#[local] Existing Instance IdentitySpace.identity_kind_eq_dec.

Section moves.
Context {S : Type} `{!Semantic S} `{!SemanticLaws S}.
Context (source_text : list N) (tokens : list parser_token) (memory : nat → bool).
Context (Htokens : tokens_of source_text tokens).
Local Notation parser := (parser S).
Local Notation state_ok := (state_ok source_text tokens).
Local Notation kept := (kept source_text tokens).
Local Notation inside_text := (inside_text source_text).
Local Notation wp := (wp source_text).
Local Notation current := (current tokens).
Implicit Types s : parser.
Local Notation at_ s := (token_offset (current s)).

(** The cursor went on and the packet has [d] more. *)
Record moved s s' (d : source_facts) : Prop := Moved {
  moved_cursor : (cursor s <= cursor s')%nat;
  moved_candidate : candidate s' = append (candidate s) d;
  moved_ok : state_ok s' }.

Lemma kept_moved s s' : kept s s' → moved s s' no_facts.
Proof. intros []. constructor; [done| |done]. by rewrite append_nothing. Qed.

Lemma moved_kept s1 s2 s3 d : moved s1 s2 d → kept s2 s3 → moved s1 s3 d.
Proof. intros [] []. constructor; [lia|congruence|done]. Qed.

Lemma kept_then_moved s1 s2 s3 d : kept s1 s2 → moved s2 s3 d → moved s1 s3 d.
Proof. intros [] []. constructor; [lia|congruence|done]. Qed.

Lemma moved_trans s1 s2 s3 d e : moved s1 s2 d → moved s2 s3 e → moved s1 s3 (append d e).
Proof. intros [? H1 ?] [? H2 ?]. constructor; [lia| |done]. by rewrite H2, H1, append_assoc. Qed.

Lemma at_le s s' : state_ok s → state_ok s' → (cursor s <= cursor s')%nat → at_ s <= at_ s'.
Proof. apply (tokens_le _ _ Htokens). Qed.

Lemma at_lt s s' : state_ok s → state_ok s' → (cursor s < cursor s')%nat → token_kind (current s) ≠ eof → at_ s < at_ s'.
Proof.
  intros H H' Hc Hk. pose proof (tokens_lt _ _ Htokens s s' H H' Hc). pose proof (current_nonempty _ _ Htokens s H Hk). lia.
Qed.

Lemma end_le s s' : state_ok s → state_ok s' → (cursor s < cursor s')%nat → end_of (current s) <= at_ s'.
Proof. intros H H' Hc. rewrite (current_end _ _ Htokens) by done. exact (tokens_lt _ _ Htokens s s' H H' Hc). Qed.

Lemma at_inside s : state_ok s → at_ s <= size source_text.
Proof. intros H. pose proof (current_inside _ _ Htokens s H). lia. Qed.

(** ** Rules *)

Lemma wp_replace (f : source_facts → source_facts) s (Q : unit → parser → Prop) : state_ok s →
  SourceFacts.source_text (f (candidate s)) = SourceFacts.source_text (candidate s) →
  Forall modifier_ok (alias_modifiers (f (candidate s))) → Forall modifier_ok (modifiers (f (candidate s))) →
  (∀ s', cursor s' = cursor s → candidate s' = f (candidate s) → state_ok s' → Q tt s') →
  wp (update (λ s, set_candidate (f (candidate s)) s)) s Q.
Proof.
  intros Hs H1 H2 H3 HQ. apply wp_update; [done|]. apply HQ; [done..|].
  destruct Hs. constructor; cbn; try done. congruence.
Qed.

Lemma wp_add f d s (Q : unit → parser → Prop) : state_ok s →
  f (candidate s) = append (candidate s) d → Forall modifier_ok (alias_modifiers d) → Forall modifier_ok (modifiers d) →
  (∀ s', moved s s' d → cursor s' = cursor s → Q tt s') → wp (update (λ s, set_candidate (f (candidate s)) s)) s Q.
Proof.
  intros Hs Hf Ha Hm HQ. apply wp_replace; rewrite ?Hf; try done.
  - apply Forall_app. split; [by eapply ok_alias_modifiers|done].
  - apply Forall_app. split; [by eapply ok_modifiers|done].
  - intros s' Hc Hd Hs'. apply HQ; [|done]. constructor; [lia|done..].
Qed.

Lemma wp_push f d s (Q : unit → parser → Prop) : state_ok s →
  f (candidate s) = append (candidate s) d → Forall modifier_ok (alias_modifiers d) → Forall modifier_ok (modifiers d) →
  (∀ s', moved s s' d → cursor s' = cursor s → Q tt s') → wp (push memory f) s Q.
Proof.
  intros Hs Hf Ha Hm HQ. unfold push. apply wp_bind, (wp_allocate source_text tokens); [done|]. intros s1 K1 C1.
  apply (wp_add _ d); [now_ok|by rewrite (kept_candidate _ _ _ _ K1)|done..|].
  intros s2 M2 C2. apply HQ; [by eapply kept_then_moved|congruence].
Qed.

Lemma wp_fact_range begin end_ s (Q : source_fact_range → parser → Prop) :
  (begin < two32 → end_ - begin < two32 → Q (FactRange begin (end_ - begin)) s) → wp (fact_range begin end_) s Q.
Proof.
  intros HQ. unfold fact_range. apply wp_if; intros B; [by apply wp_stop|].
  apply orb_false_iff in B as [B B']. apply N.ltb_ge in B, B'. unfold u32_max, two32 in *. apply wp_ret, HQ; lia.
Qed.

Lemma wp_text_at where_ s (Q : list N → parser → Prop) : inside_text where_ → (∀ l, Q l s) → wp (text_at source_text where_) s Q.
Proof.
  intros Hw HQ. unfold text_at. destruct (N.ltb_spec (size source_text) (offset where_)) as [H|_].
  - unfold inside_text in Hw. lia.
  - apply wp_ret, HQ.
Qed.

Lemma wp_record_operation owner name expression s (Q : unit → parser → Prop) : state_ok s → inside_text expression →
  (∀ s', kept s s' → cursor s' = cursor s → Q tt s') → wp (record_operation memory owner name expression) s Q.
Proof.
  intros Hs He HQ. unfold record_operation. step. step. apply wp_update; [done|].
  pose proof (kept_ok _ _ _ _ K) as Ho. apply HQ; [|done]. eapply kept_trans; [exact K|].
  constructor; [done..|]. destruct Ho. constructor; try done. apply Forall_app. split; [done|]. by constructor.
Qed.

Lemma wp_record_method_name record name s (Q : unit → parser → Prop) : state_ok s →
  (∀ s', kept s s' → cursor s' = cursor s → Q tt s') →
  wp (update (λ s, set_method_names (method_names s ++ [(record, name)]) s)) s Q.
Proof. intros Hs HQ. apply wp_update; [done|]. apply HQ; [|done]. constructor; [done..|]. by destruct Hs. Qed.

Lemma span_of_tokens s s' : state_ok s → state_ok s' → (cursor s <= cursor s')%nat →
  span_from (at_ s) (end_of (current s')) = Span (at_ s) (end_of (current s') - at_ s) ∧
  at_ s <= end_of (current s') ∧ end_of (current s') <= size source_text.
Proof.
  intros H H' Hc. pose proof (at_le s s' H H' Hc). pose proof (current_inside _ _ Htokens s' H').
  rewrite (current_end _ _ Htokens) by done. split; [|lia]. apply (span_from_inside _ _ Htokens); lia.
Qed.

(** ** Constructors *)

Lemma wp_braced_items s (Q : unit → parser → Prop) : state_ok s → (∀ s', kept s s' → Q tt s') →
  wp (forever tokens (braced_item_turn tokens memory) tt) s Q.
Proof.
  intros Hs HQ. eapply wp_loop with (J := λ _ _, True); [done..|]. intros [] s1 K1 _. unfold braced_item_turn. steps.
  - apply HQ. keep.
  - apply (wp_scan_expression source_text tokens memory Htokens); [now_ok|]. intros item s2 K2 Hi. steps.
    + apply bool_decide_eq_false in B0. destruct item as [r|]; [|done]. destruct (Hi r eq_refl) as (Hc & _ & _).
      split; [cursors|]. split; [keep|done].
    + apply HQ. keep.
Qed.

Lemma wp_parenthesized_item start s (Q : source_span → parser → Prop) : state_ok s → start <= size source_text →
  (∀ r s', kept s s' → inside_text r → token_kind (current s') ≠ eof → Q r s') →
  wp (parenthesized_item tokens memory start) s Q.
Proof.
  intros Hs Hst HQ. unfold parenthesized_item. steps.
  - apply HQ; [keep| |not_eof]. unfold inside_text. cbn. lia.
  - apply (wp_scan_expression source_text tokens memory Htokens); [now_ok|]. intros item s2 K2 Hi. steps.
    destruct item as [r|]; steps. apply HQ; [keep| |not_eof]. destruct (Hi r eq_refl) as (Hc & -> & _).
    unfold inside_text. cbn. pose proof (at_le s s2 Hs ltac:(now_ok) ltac:(cursors)). pose proof (at_inside s2 ltac:(now_ok)). lia.
Qed.

Lemma wp_initializers owner s (Q : unit → parser → Prop) : state_ok s → (∀ s', kept s s' → Q tt s') →
  wp (forever tokens (initializer_turn source_text tokens memory owner) tt) s Q.
Proof.
  intros Hs HQ. eapply wp_loop with (J := λ _ _, True); [done..|]. intros [] s1 K1 _. unfold initializer_turn.
  steps.
  - apply wp_parenthesized_item; [now_ok|apply at_inside; now_ok|]. intros r s5 K5 Hr Hk. steps.
    apply wp_record_operation; [now_ok|done|]. intros s6 K6 C6. steps; [|apply HQ; keep].
    split; [cursors|]. split; [keep|done].
  - apply wp_braced_items; [now_ok|]. intros s5 K5. steps.
    apply wp_record_operation; [now_ok| |].
    + destruct (span_of_tokens s2 s5) as (-> & H1 & H2); [now_ok..|cursors|]. unfold inside_text. cbn. lia.
    + intros s6 K6 C6. steps; [|apply HQ; keep]. split; [cursors|]. split; [keep|done].
Qed.

Lemma wp_assignments owner s (Q : unit → parser → Prop) : state_ok s → (∀ s', kept s s' → Q tt s') →
  wp (forever tokens (assignment_turn source_text tokens memory owner) tt) s Q.
Proof.
  intros Hs HQ. eapply wp_loop with (J := λ _ _, True); [done..|]. intros [] s1 K1 _. unfold assignment_turn. steps.
  - apply HQ. keep.
  - apply (wp_scan_expression source_text tokens memory Htokens); [now_ok|]. intros e s5 K5 He. steps.
    destruct e as [r|]; steps. destruct (He r eq_refl) as (Hc & -> & _). apply wp_record_operation; [now_ok| |].
    + unfold inside_text. cbn. pose proof (at_le s3 s5 ltac:(now_ok) ltac:(now_ok) ltac:(cursors)). pose proof (at_inside s5 ltac:(now_ok)). lia.
    + intros s6 K6 C6. steps. split; [cursors|]. split; [keep|done].
Qed.

Lemma wp_parse_constructor_trailer owner s (Q : unit → parser → Prop) : state_ok s → (∀ s', kept s s' → Q tt s') →
  wp (parse_constructor_trailer source_text tokens memory owner) s Q.
Proof.
  intros Hs HQ. unfold parse_constructor_trailer. steps.
  - apply HQ. keep.
  - unfold parse_defaulted. steps. apply HQ. keep.
  - apply wp_initializers; [now_ok|]. intros s5 K5. steps. apply wp_assignments; [now_ok|]. intros s7 K7. 
    eapply wp_advance; [done|now_ok|]. intros s8 K8 _. apply HQ. keep.
  - apply wp_assignments; [now_ok|]. intros s7 K7. eapply wp_advance; [done|now_ok|]. intros s8 K8 _. apply HQ. keep.
Qed.

Lemma wp_trailer_equal pure s (Q : bool → parser → Prop) : state_ok s → token_kind (current s) ≠ eof →
  (∀ b s', kept s s' → (cursor s < cursor s')%nat → Q b s') → wp (trailer_equal source_text tokens memory pure) s Q.
Proof. intros Hs Hk HQ. unfold trailer_equal. steps; (apply HQ; [keep|cursors]). Qed.

Lemma wp_parse_method_trailer s (Q : trailer → parser → Prop) : state_ok s → (∀ t s', kept s s' → Q t s') →
  wp (parse_method_trailer source_text tokens memory) s Q.
Proof.
  intros Hs HQ. unfold parse_method_trailer. eapply wp_loop with (J := λ _ _, True); [done..|].
  intros [[[c o p] arrow] depth] s1 K1 _. unfold trailer_turn.
  steps; try (split; [cursors|by split; [keep|]]).
  - apply (wp_skip_blocks source_text tokens memory Htokens); [now_ok|]. intros s2 K2 C2. steps. apply HQ. keep.
  - destruct depth; steps. split; [cursors|by split; [keep|]].
  - apply HQ. keep.
  - apply wp_trailer_equal; [now_ok|not_eof|]. intros b s2 K2 C2. steps. split; [cursors|by split; [keep|]].
Qed.

(** ** The members of a declaration *)

(** Members and methods with their modifiers. *)
Definition body_facts ms mods meths method_mods : source_facts :=
  SourceFacts 0 [] [] [] ms mods [] [] [] [] [] [] [] [] meths method_mods.

(** A declaration from [lo] on, up to [hi]. *)
Definition spans_from (lo hi : N) (r : source_span) : Prop :=
  span_length r ≠ 0 ∧ lo <= offset r ∧ offset r + span_length r <= hi.

(** Members and methods that stand between two offsets and partition their modifiers, behind the
    packet [c]. *)
Record members_of (c : source_facts) (lo hi : N) ms mods meths method_mods : Prop := MembersOf {
  mo_members : Forall (λ m, member_ok c m ∧ inside_text (member_initializer m) ∧
    member_construction m = Construction.zero_value ∧ spans_from lo hi (member_declaration m)) ms;
  mo_methods : Forall (λ m, method_ok c m ∧ spans_from lo hi (method_declaration m)) meths;
  mo_modifiers : Forall modifier_ok mods;
  mo_tiling : tiling (size (modifiers c)) ((λ m, ref_modifiers (member_type m)) <$> ms) (size (modifiers c ++ mods));
  mo_method_tiling : size (method_modifiers c ++ method_mods) < two32 →
    tiling (size (method_modifiers c)) (method_range <$> meths) (size (method_modifiers c ++ method_mods)) }.

Lemma members_of_nothing c lo hi : members_of c lo hi [] [] [] [].
Proof. split; cbn; rewrite ?app_nil_r; [constructor..|apply tiling_nil|intros _; apply tiling_nil]. Qed.

Lemma spans_from_widen lo hi lo' hi' r : spans_from lo hi r → lo' <= lo → hi <= hi' → spans_from lo' hi' r.
Proof. intros (? & ? & ?) ? ?. split_and!; [done|lia..]. Qed.

Lemma members_of_widen c lo hi lo' hi' ms mods meths method_mods : members_of c lo hi ms mods meths method_mods →
  lo' <= lo → hi <= hi' → members_of c lo' hi' ms mods meths method_mods.
Proof.
  intros [] H1 H2. split; [..|done|done|done].
  - eapply Forall_impl; [done|]. cbn. intros m (? & ? & ? & ?). split_and!; [done..|by eapply spans_from_widen].
  - eapply Forall_impl; [done|]. cbn. intros m (? & ?). split_and!; [done..|by eapply spans_from_widen].
Qed.

Lemma members_of_append c lo hi ms mods meths method_mods ms' mods' meths' method_mods' :
  members_of c lo hi ms mods meths method_mods →
  members_of (append c (body_facts ms mods meths method_mods)) lo hi ms' mods' meths' method_mods' →
  members_of c lo hi (ms ++ ms') (mods ++ mods') (meths ++ meths') (method_mods ++ method_mods').
Proof.
  intros [] []. cbn in *. split; try (apply Forall_app; done).
  - rewrite fmap_app, app_assoc. by eapply tiling_app.
  - intros Hn. rewrite app_assoc in *. rewrite fmap_app. eapply tiling_app; [apply mo_method_tiling0|by apply mo_method_tiling1].
    unfold size in *. rewrite !length_app in *. lia.
Qed.
(** ** Declarations *)

(** One entry of the declaration sequence. *)
Definition entry_facts (ref : source_declaration_ref) : source_facts :=
  SourceFacts 0 [] [] [] [] [] [] [] [ref] [] [] [] [] [] [] [].

Lemma wp_append_declaration kind index declaration s (Q : unit → parser → Prop) : state_ok s →
  (∀ s', moved s s' (entry_facts (DeclarationRef index kind declaration)) → cursor s' = cursor s → Q tt s') →
  wp (append_declaration memory kind index declaration) s Q.
Proof.
  intros Hs HQ. unfold append_declaration.
  apply (wp_push _ (entry_facts (DeclarationRef index kind declaration))); [done| |constructor|constructor|done].
  unfold append, entry_facts. cbn. by rewrite !app_nil_r.
Qed.

(** What was added is revised in place. *)
Lemma wp_revise f d d' s s1 (Q : unit → parser → Prop) : moved s s1 d →
  f (append (candidate s) d) = append (candidate s) d' →
  alias_modifiers d' = alias_modifiers d → modifiers d' = modifiers d →
  (∀ s2, moved s s2 d' → cursor s2 = cursor s1 → Q tt s2) →
  wp (update (λ s, set_candidate (f (candidate s)) s)) s1 Q.
Proof.
  intros [C Hc H1] Hf Ha Hm HQ. rewrite <-Hc in Hf.
  assert (Ho := ok_alias_modifiers _ _ _ H1). assert (Ho' := ok_modifiers _ _ _ H1). rewrite Hc in Ho, Ho'.
  apply wp_replace; rewrite ?Hf; try done.
  - by rewrite Hc.
  - cbn. by rewrite Ha.
  - cbn. by rewrite Hm.
  - intros s2 C2 Hc2 H2. apply HQ; [|done]. constructor; [lia|done|done].
Qed.

(** The facts with an entry in the declaration sequence, and the entries. *)
Record few (c : source_facts) (n : nat) : Prop := Few {
  few_namespaces : (length (namespaces c) <= n)%nat;
  few_records : (length (records c) <= n)%nat;
  few_enums : (length (enums c) <= n)%nat;
  few_objects : (length (objects c) <= n)%nat;
  few_links : (length (links c) <= n)%nat;
  few_aliases : (length (aliases c) <= n)%nat;
  few_declarations : (length (declarations c) <= n)%nat }.

Lemma few_append c d n m : few c n → few d m → few (append c d) (n + m).
Proof. intros [] []. split; cbn; rewrite length_app; lia. Qed.

Lemma few_more c n m : few c n → (n <= m)%nat → few c m.
Proof. intros [] H. split; lia. Qed.

(** A packet has no more facts of a kind than tokens were read. *)
Definition counted s : Prop := few (candidate s) (cursor s).

Lemma counted_index n s : state_ok s → (n <= cursor s)%nat → w32 (N.of_nat n) = N.of_nat n.
Proof. intros Hs Hn. pose proof (ok_cursor _ _ _ Hs). pose proof (tokens_few _ _ Htokens). apply w32_small. lia. Qed.

(** What a declaration adds: a piece of the packet for the text it has read. *)
Definition declares s s' : Prop :=
  ∃ d, moved s s' d ∧ chunk (candidate s) (at_ s) (at_ s') d ∧ few d (cursor s' - cursor s).

Lemma declares_ok s s' : declares s s' → state_ok s' ∧ (cursor s <= cursor s')%nat.
Proof. intros (d & [] & _). done. Qed.

Lemma declares_kept s s' : kept s s' → declares s s'.
Proof. intros K. exists no_facts. split_and!; [by apply kept_moved|apply chunk_nothing|split; cbn; lia]. Qed.

Lemma declares_counted s s' : counted s → declares s s' → counted s'.
Proof.
  intros Hc (d & M & _ & Hf). unfold counted. rewrite (moved_candidate _ _ _ M).
  eapply few_more; [by apply few_append|]. pose proof (moved_cursor _ _ _ M). lia.
Qed.

Lemma declares_trans s1 s2 s3 : state_ok s1 → declares s1 s2 → declares s2 s3 → declares s1 s3.
Proof.
  intros H1 (d & M & Hd & Hf) (e & M' & He & Hf'). exists (append d e).
  rewrite (moved_candidate _ _ _ M) in He. pose proof (moved_ok _ _ _ M). pose proof (moved_ok _ _ _ M').
  pose proof (moved_cursor _ _ _ M). pose proof (moved_cursor _ _ _ M'). split_and!.
  - by eapply moved_trans.
  - eapply chunk_append; [done..|by apply at_le|by apply at_le].
  - eapply few_more; [by apply few_append|]. lia.
Qed.
End moves.

(** ** Automation *)

Ltac ParserRules.now_ok ::=
  match goal with
  | H : state_ok _ _ ?s |- state_ok _ _ ?s => exact H
  | K : kept _ _ _ ?s |- state_ok _ _ ?s => exact (kept_ok _ _ _ _ K)
  | M : moved _ _ _ ?s _ |- state_ok _ _ ?s => exact (moved_ok _ _ _ _ _ M)
  end.

Ltac ParserRules.cursors ::=
  repeat match goal with
  | K : kept _ _ ?s ?s' |- _ =>
      lazymatch goal with
      | _ : (cursor s <= cursor s')%nat |- _ => fail
      | _ => pose proof (kept_cursor _ _ _ _ K)
      end
  | M : moved _ _ ?s ?s' _ |- _ =>
      lazymatch goal with
      | _ : (cursor s <= cursor s')%nat |- _ => fail
      | _ => pose proof (moved_cursor _ _ _ _ _ M)
      end
  end; lia.

(** Chains additions and states that keep the packet. *)
Ltac moves :=
  match goal with
  | M : moved _ _ ?s ?s' _ |- moved _ _ ?s ?s' _ => exact M
  | K : kept _ _ ?s ?s' |- moved _ _ ?s ?s' _ => exact (kept_moved _ _ _ _ K)
  | K : kept _ _ _ ?s' |- moved _ _ _ ?s' _ => eapply moved_kept; [|exact K]; moves
  | M : moved _ _ ?s1 ?s' _ |- moved _ _ ?s ?s' _ => eapply kept_then_moved; [|exact M]; keep
  | M : moved _ _ _ ?s' _ |- moved _ _ _ ?s' _ => eapply moved_trans; [|exact M]; moves
  end.

End ParserMoves.
