(* ===== verification/ParserMembers.v ===== *)
(** * The members of a record

    The rules of the methods that parse a member: what a successful call adds to the packet are
    members and methods that are well formed and lie between the first token and the next one. *)

From S2P Require Import Prelude Lexer IdentitySpace Construction SourceFacts SourceFactsTheorems SourceEnvironment.
From S2P Require Import ParserState ParserTypes SourceParser ParserRules ParserScans ParserChunks ParserMoves.

Local Open Scope N_scope.

Module ParserMembers.

Import Lexer SourceFacts SourceFactsTheorems SourceEnvironment ParserState ParserTypes SourceParser.
Import ParserRules ParserScans ParserChunks ParserMoves.

#[local] Existing Instance IdentitySpace.identity_kind_eq_dec.

Lemma body_append ms mods meths mm ms' mods' meths' mm' :
  append (body_facts ms mods meths mm) (body_facts ms' mods' meths' mm') =
  body_facts (ms ++ ms') (mods ++ mods') (meths ++ meths') (mm ++ mm').
Proof. done. Qed.

Ltac flatten M := rewrite ?body_append in M; cbn [app] in M; rewrite ?app_nil_r in M.

Section members.
Context {S : Type} `{!Semantic S} `{!SemanticLaws S}.
Context (environment : environment_view) (Henvironment : EnvironmentLaws environment).
Context (source_text : list N) (tokens : list parser_token) (memory : nat → bool).
Context (Htokens : tokens_of source_text tokens).
Local Notation parser := (parser S).
Local Notation state_ok := (state_ok source_text tokens).
Local Notation kept := (kept source_text tokens).
Local Notation moved := (moved source_text tokens).
Local Notation inside_text := (inside_text source_text).
Local Notation members_of := (members_of source_text).
Local Notation wp := (wp source_text).
Local Notation current := (current tokens).
Implicit Types s : parser.
Local Notation at_ s := (token_offset (current s)).

Lemma spans_in_text c lo hi r : SourceFacts.source_text c = source_text → hi <= size source_text → spans_from lo hi r →
  in_text c r.
Proof. intros Hc Hh (? & ? & ?). split; [done|]. unfold source_size. rewrite Hc. lia. Qed.

(** The span of a declaration from the token of [s0] through that of [s], behind which [s'] is. *)
Lemma declaration_spans s0 s s' : state_ok s0 → state_ok s → state_ok s' → (cursor s0 <= cursor s)%nat →
  (cursor s < cursor s')%nat → token_kind (current s) ≠ eof →
  spans_from (at_ s0) (at_ s') (span_from (at_ s0) (end_of (current s))) ∧
  offset (span_from (at_ s0) (end_of (current s))) = at_ s0.
Proof.
  intros H0 H H' C0 C Hk. destruct (span_of_tokens _ _ Htokens s0 s H0 H C0) as (-> & H1 & H2).
  pose proof (end_le _ _ Htokens s s' H H' C). pose proof (at_le _ _ Htokens s0 s H0 H C0).
  rewrite (current_end _ _ Htokens) in * by done. pose proof (current_nonempty _ _ Htokens s H Hk).
  unfold spans_from. cbn. lia.
Qed.

(** ** Methods *)

(** The parts of the declaration before the parameters are well formed. *)
Definition head_ok (head : method_head) : Prop :=
  head_name head ≠ 0 ∧
  (resolved_base (head_identity head) (head_intrinsic head) ∨
   (head_identity head = 0 ∧ head_intrinsic head = 0 ∧ (head_constructor head = true ∨ head_destructor head = true))).

Lemma wp_parse_method_tail record s0 access head s (Q : unit → parser → Prop) : state_ok s0 → state_ok s →
  (cursor s0 <= cursor s)%nat → access <= 2 → head_ok head →
  (∀ m s', moved s s' (body_facts [] [] [m] []) → (token_kind (current s) ≠ eof → (cursor s < cursor s')%nat) →
    method_ok (candidate s) m → spans_from (at_ s0) (at_ s') (method_declaration m) →
    offset (method_declaration m) = at_ s0 → method_range m = head_modifiers head → Q tt s') →
  wp (parse_method_tail environment source_text tokens memory record (at_ s0) access head) s Q.
Proof.
  intros H0 Hs C0 Ha [Hn Hr] HQ. unfold parse_method_tail. steps.
  apply (wp_parse_parameter_list source_text tokens memory Htokens environment Henvironment); [now_ok|].
  intros s1 K1 C1. apply wp_bind.
  assert (Htrailer : ∀ R : trailer → parser → Prop, (∀ t s', kept s1 s' → R t s') → wp (if head_constructor head
      then parse_constructor_trailer source_text tokens memory record;; mret (Trailer false false false)
      else parse_method_trailer source_text tokens memory) s1 R).
  { intros R HR. apply wp_if; intros _.
    - apply wp_bind, (wp_parse_constructor_trailer source_text tokens memory Htokens); [now_ok|]. intros s2 K2. apply wp_ret, HR, K2.
    - apply (wp_parse_method_trailer source_text tokens memory Htokens); [now_ok|]. intros t s2 K2. apply HR, K2. }
  apply Htrailer. intros t s2 K2. clear Htrailer. steps. apply N.leb_gt in B0.
  pose proof (at_inside _ _ Htokens s2 ltac:(now_ok)) as Hin.
  unfold record_method. apply wp_bind. eapply (wp_push source_text tokens _ _ (body_facts [] [] [_] [])); [now_ok| |constructor|constructor|].
  { unfold append, body_facts. cbn. by rewrite !app_nil_r. }
  intros s3 M3 C3. steps. apply (wp_record_method_name source_text tokens); [now_ok|]. intros s5 K5 C5.
  rewrite (span_from_inside _ _ Htokens) in M3 by lia.
  assert (Hsp : spans_from (at_ s0) (at_ s5) (Span (at_ s0) (at_ s2 - at_ s0))).
  { pose proof (at_le _ _ Htokens s2 s5 ltac:(now_ok) ltac:(now_ok) ltac:(cursors)). unfold spans_from. cbn. lia. }
  eapply HQ; [moves|..|exact Hsp|done|done].
  - intros Hk. specialize (C1 Hk). cursors.
  - cbn. split_and!; [done..| |].
    + eapply spans_in_text; [by eapply ok_source| |exact Hsp]. apply (at_inside _ _ Htokens). now_ok.
    + exact Hr.
Qed.

(** One method without modifiers of its own. *)
Lemma wp_parse_special record record_name s0 access is_virtual constructor s (Q : unit → parser → Prop) :
  state_ok s0 → state_ok s → (cursor s0 <= cursor s)%nat → access <= 2 → record_name ≠ 0 →
  (∀ m s', moved s s' (body_facts [] [] [m] []) → members_of (candidate s) (at_ s0) (at_ s') [] [] [m] [] →
    offset (method_declaration m) = at_ s0 → Q tt s') →
  wp (parse_special environment source_text tokens memory record record_name (at_ s0) access is_virtual constructor) s Q.
Proof.
  intros H0 Hs C0 Ha Hn HQ. unfold parse_special. steps. apply (wp_parse_method_tail _ s0); [done..| |].
  { split; [done|]. right. cbn. destruct constructor; auto. }
  intros m s' M C Hm Hsp Ho Hr. eapply HQ; [exact M| |done].
  split; cbn; rewrite ?app_nil_r; [constructor|by apply Forall_singleton|constructor|apply tiling_nil|].
  intros Hsize. rewrite Hr. cbn. rewrite w32_small by done. split; cbn; [done|lia].
Qed.

Lemma wp_parse_destructor scope record record_name s0 access is_virtual s (Q : unit → parser → Prop) :
  state_ok s0 → state_ok s → (cursor s0 <= cursor s)%nat → access <= 2 → record_name ≠ 0 → token_kind (current s) ≠ eof →
  (∀ m s', moved s s' (body_facts [] [] [m] []) → members_of (candidate s) (at_ s0) (at_ s') [] [] [m] [] →
    offset (method_declaration m) = at_ s0 → (cursor s < cursor s')%nat → Q tt s') →
  wp (parse_destructor environment source_text tokens memory scope record record_name (at_ s0) access is_virtual) s Q.
Proof.
  intros H0 Hs C0 Ha Hn Hk HQ. unfold parse_destructor. steps.
  apply (wp_parse_special _ _ s0); [done|now_ok|cursors|done..|].
  intros m s' M Hm Ho. rewrite (kept_candidate _ _ _ _ K0), (kept_candidate _ _ _ _ K) in Hm.
  eapply HQ; [moves|exact Hm|done|cursors].
Qed.

(** ** Declarators *)

Lemma wp_operator s (Q : unit → parser → Prop) : state_ok s → (∀ s', kept s s' → Q tt s') →
  wp (forever tokens (operator_turn tokens memory) tt) s Q.
Proof.
  intros Hs HQ. apply (wp_loop source_text tokens) with (J := λ _ _, True); [done..|]. intros [] s1 K1 _. unfold operator_turn. steps.
  - apply HQ. keep.
  - apply orb_false_iff in B0 as [B0 _]. repeat apply orb_false_iff in B0 as [B0 _].
    specialize (C ltac:(not_eof)). split; [cursors|by split; [keep|]].
Qed.

Lemma wp_declarator_name s (Q : N → parser → Prop) : state_ok s → token_kind (current s) ≠ eof →
  (∀ name s', kept s s' → (cursor s < cursor s')%nat → name ≠ 0 → Q name s') →
  wp (declarator_name source_text tokens memory) s Q.
Proof.
  intros Hs Hk HQ. unfold declarator_name. steps.
  - apply wp_operator; [now_ok|]. intros s2 K2. steps. apply HQ; [keep|cursors|done].
  - apply HQ; [keep|cursors|done].
Qed.

Lemma wp_reject_bit_field s (Q : unit → parser → Prop) : state_ok s → Q tt s → wp (reject_bit_field tokens memory) s Q.
Proof. intros Hs HQ. unfold reject_bit_field. by steps. Qed.

(** The spelling of an initializer, or none. *)
Definition initializer_spans s s' (r : source_span) : Prop :=
  span_length r = 0 ∧ r = no_span ∨ at_ s <= offset r ∧ offset r + span_length r <= at_ s'.

Lemma wp_declarator_initializer parenthesis no_value unbalanced s (Q : bool * source_span → parser → Prop) : state_ok s →
  (∀ b r s', kept s s' → token_kind (current s') ≠ eof → initializer_spans s s' r → Q (b, r) s') →
  wp (declarator_initializer tokens memory parenthesis no_value unbalanced) s Q.
Proof.
  intros Hs HQ. unfold declarator_initializer, skip_declarator_initializer. steps.
  - apply (wp_scan_expression source_text tokens memory Htokens); [now_ok|]. intros o s2 K2 Ho. steps.
    destruct o as [r|]; cbn; steps. destruct (Ho r eq_refl) as (Hc & _ & Hk).
    pose proof (at_le _ _ Htokens s s2 Hs ltac:(now_ok) ltac:(cursors)) as Hle.
    pose proof (at_inside _ _ Htokens s2 ltac:(now_ok)).
    apply HQ; [keep|done|]. right. rewrite (span_from_inside _ _ Htokens) by lia. cbn. lia.
  - apply (wp_scan_expression source_text tokens memory Htokens); [now_ok|]. intros o s2 K2 Ho. steps.
    destruct o as [r|]; cbn; steps. destruct (Ho r eq_refl) as (Hc & -> & Hk).
    pose proof (at_le _ _ Htokens s s2 Hs ltac:(now_ok) ltac:(cursors)) as Hle.
    apply HQ; [keep|done|]. right. cbn. lia.
  - apply HQ; [keep|not_eof|by left].
  - apply HQ; [keep|not_eof|by left].
Qed.

Lemma wp_spill_method mods s (Q : N * N → parser → Prop) : state_ok s →
  (∀ s', moved s s' (body_facts [] [] [] mods) → cursor s' = cursor s →
    Q (size (method_modifiers (candidate s)), size (method_modifiers (candidate s) ++ mods)) s') →
  wp (spill_method memory mods) s Q.
Proof.
  intros Hs HQ. unfold spill_method. steps. rewrite (kept_candidate _ _ _ _ K).
  apply (wp_add source_text tokens (λ _, with_method_modifiers (method_modifiers (candidate s) ++ mods) (candidate s))
    (body_facts [] [] [] mods)); [now_ok| |constructor|constructor|].
  { rewrite (kept_candidate _ _ _ _ K). unfold append, body_facts. cbn. by rewrite !app_nil_r. }
  intros s' M C'. apply wp_ret, HQ; [moves|congruence].
Qed.

Lemma wp_append_modifiers mods s (Q : unit → parser → Prop) : state_ok s → Forall modifier_ok mods →
  (∀ s', moved s s' (body_facts [] mods [] []) → cursor s' = cursor s → Q tt s') → wp (append_modifiers mods) s Q.
Proof.
  intros Hs Hm HQ. apply (wp_add source_text tokens (λ c, with_modifiers (modifiers c ++ mods) c) (body_facts [] mods [] []));
    [done| |constructor|done|done].
  unfold append, body_facts. cbn. by rewrite !app_nil_r.
Qed.

Lemma wp_spill_modifiers mods s (Q : N * N → parser → Prop) : state_ok s → Forall modifier_ok mods →
  (∀ s', moved s s' (body_facts [] mods [] []) → cursor s' = cursor s →
    Q (size (modifiers (candidate s)), size (modifiers (candidate s) ++ mods)) s') →
  wp (spill_modifiers memory mods) s Q.
Proof.
  intros Hs Hm HQ. unfold spill_modifiers. steps. rewrite (kept_candidate _ _ _ _ K).
  apply (wp_add source_text tokens (λ _, with_modifiers (modifiers (candidate s) ++ mods) (candidate s))
    (body_facts [] mods [] [])); [now_ok| |constructor|done|].
  { rewrite (kept_candidate _ _ _ _ K). unfold append, body_facts. cbn. by rewrite !app_nil_r. }
  intros s' M C'. apply wp_ret, HQ; [moves|congruence].
Qed.

(** The modifiers of the type before those of the declarator: spilled, or copied from the first. *)
Definition declarator_state (st : bool * option (N * N)) : Prop :=
  st = (true, None) ∨ ∃ shared, st = (false, Some shared).

(** The first declarator has spilled the modifiers of the type, another one has not yet. *)
Definition spilling s (first : bool) (shared : N * N) s1 : Prop :=
  cursor s1 = cursor s ∧
  ((first = true ∧ shared.1 = size (modifiers (candidate s)) ∧
      ∃ l, Forall modifier_ok l ∧ moved s s1 (body_facts [] l [] [])) ∨
   (first = false ∧ kept s s1)).

Lemma wp_spilled first spilled mods s (Q : N * N → parser → Prop) :
  state_ok s → declarator_state (first, spilled) → Forall modifier_ok mods →
  (∀ shared s1, state_ok s1 → spilling s first shared s1 → Q shared s1) →
  wp (match spilled with Some shared => mret shared | None => spill_modifiers memory mods end) s Q.
Proof.
  intros Hs Hst Hm HQ. destruct Hst as [[= -> ->]|(shared & [= -> ->])].
  - apply wp_spill_modifiers; [done..|]. intros s1 M C. apply HQ; [now_ok|]. split; [done|]. left. eauto.
  - apply wp_ret, HQ; [done|]. split; [done|]. right. split; [done|by apply kept_refl].
Qed.

Lemma wp_copied s first shared s1 (Q : N → parser → Prop) : state_ok s1 → spilling s first shared s1 →
  (∀ l s', moved s s' (body_facts [] l [] []) → cursor s' = cursor s → Forall modifier_ok l →
    Q (size (modifiers (candidate s))) s') →
  wp (copy_modifiers memory first shared) s1 Q.
Proof.
  intros Hs [Hc [(-> & E & l & Hl & M)|(-> & K)]] HQ; unfold copy_modifiers; steps; [rewrite E; by eapply HQ|].
  rewrite (kept_candidate _ _ _ _ K0), (kept_candidate _ _ _ _ K). set (l := section _ _).
  assert (Hl : Forall modifier_ok l).
  { apply Forall_take, Forall_drop. rewrite <-(kept_candidate _ _ _ _ K). by eapply ok_modifiers. }
  apply (wp_add source_text tokens (λ _, with_modifiers (modifiers (candidate s) ++ l) (candidate s)) (body_facts [] l [] []));
    [now_ok| |constructor|done|].
  { rewrite (kept_candidate _ _ _ _ K0), (kept_candidate _ _ _ _ K). unfold append, body_facts. cbn. by rewrite !app_nil_r. }
  intros s2 M2 C2. steps. eapply HQ; [moves|congruence|done].
Qed.

(** The modifiers of one declarator are a range. *)
Lemma tiling_range from (l : list source_type_modifier) (c : list source_type_modifier) : from = size c →
  tiling from [FactRange from (size (c ++ l) - from)] (size (c ++ l)).
Proof. intros ->. split; cbn; [done|]. unfold size. rewrite length_app. lia. Qed.

(** ** Members *)

(** The parts of a declaration that starts at [s0], before its declarators. *)
Record context_ok s0 s (ctx : member_context) : Prop := ContextOk {
  cx_start : context_start ctx = at_ s0;
  cx_access : context_access ctx <= 2;
  cx_name : context_record_name ctx ≠ 0;
  cx_resolved : resolved_base (base_semantic (context_type ctx)) (base_intrinsic (context_type ctx));
  cx_end : at_ s0 < base_end (context_type ctx) <= at_ s;
  cx_modifiers : Forall modifier_ok (base_modifiers (context_type ctx)) }.

Lemma declared_resolved type range spelling : resolved_base (base_semantic type) (base_intrinsic type) →
  resolved (declared_type type range spelling) ∧ ref_modifiers (declared_type type range spelling) = range ∧
  ref_spelling (declared_type type range spelling) = spelling.
Proof.
  unfold resolved_base, declared_type. intros [[[Hz Hk] Hi]|[Hz Hi]].
  - destruct (N.eqb_spec (base_semantic type) 0) as [|_]; [done|]. cbn. split; [left; by repeat split|done].
  - rewrite Hz. cbn. split; [right; done|done].
Qed.

Lemma wp_parse_method s0 ctx declarator name s (Q : unit → parser → Prop) : state_ok s0 → state_ok s → (cursor s0 <= cursor s)%nat →
  context_ok s0 s ctx → inside_text declarator → name ≠ 0 →
  (∀ m l s', moved s s' (body_facts [] [] [m] l) → members_of (candidate s) (at_ s0) (at_ s') [] [] [m] l →
    offset (method_declaration m) = at_ s0 → Q tt s') →
  wp (parse_method environment source_text tokens memory ctx declarator name) s Q.
Proof.
  intros H0 Hs C0 [Hst Ha Hrn Hr _ _] Hd Hn HQ. unfold parse_method. steps; [done|]. apply wp_spill_method; [done|].
  intros s1 M1 C1. steps. apply wp_fact_range. intros _ _. rewrite Hst. apply (wp_parse_method_tail _ s0).
  - done.
  - now_ok.
  - cursors.
  - done.
  - split; [done|]. by left.
  - intros m s' M Hc Hm Hsp Ho Hrange.
    eapply (HQ m (base_modifiers (context_type ctx))); [|split; cbn|done].
    + eapply moved_trans in M; [|exact M1]. flatten M. exact M.
    + constructor.
    + apply Forall_singleton. split; [|done]. unfold method_ok, in_text, source_size in *. rewrite (moved_candidate _ _ _ _ _ M1) in Hm. exact Hm.
    + constructor.
    + rewrite app_nil_r. apply tiling_nil.
    + intros _. rewrite Hrange. cbn. by apply tiling_range.
Qed.

Lemma context_later s0 s s' ctx : context_ok s0 s ctx → state_ok s → state_ok s' → (cursor s <= cursor s')%nat →
  context_ok s0 s' ctx.
Proof. intros [] Hs Hs' C. constructor; try done. pose proof (at_le _ _ Htokens s s' Hs Hs' C). lia. Qed.

(** What a declaration that starts at [s0] and whose last token is that of [s] says of its spans. *)
Record declaration_ends s0 s (declaration : source_span) : Prop := DeclarationEnds {
  de_span : declaration = Span (at_ s0) (end_of (current s) - at_ s0);
  de_first : at_ s0 < end_of (current s);
  de_last : at_ s <= end_of (current s);
  de_inside : end_of (current s) <= size source_text }.

Lemma declared_ends s0 s : state_ok s0 → state_ok s → (cursor s0 <= cursor s)%nat → token_kind (current s) ≠ eof →
  declaration_ends s0 s (span_from (at_ s0) (end_of (current s))).
Proof.
  intros H0 H C0 Hk. destruct (span_of_tokens _ _ Htokens s0 s H0 H C0) as (-> & H1 & H2).
  pose proof (at_le _ _ Htokens s0 s H0 H C0). pose proof (current_nonempty _ _ Htokens s H Hk).
  pose proof (current_end _ _ Htokens s H). split; [done|lia..].
Qed.

Lemma initializer_within c s0 s s' r declaration : SourceFacts.source_text c = source_text →
  declaration_ends s0 s' declaration → at_ s0 <= at_ s → initializer_spans s s' r →
  inside_text r ∧ optional_within c declaration r.
Proof.
  unfold inside_text, optional_within, within, source_size. intros -> [-> ? ? ?] Hs [[Hz ->]|[H1 H2]]; cbn.
  - split; [lia|by left].
  - split; [lia|right; lia].
Qed.

Lemma spelling_within c s0 s declaration e : SourceFacts.source_text c = source_text →
  declaration_ends s0 s declaration → at_ s0 < e <= at_ s →
  in_text c (span_from (at_ s0) e) ∧ within declaration (span_from (at_ s0) e).
Proof.
  intros Hc [-> ? ? ?] He. rewrite (span_from_inside _ _ Htokens) by lia.
  unfold in_text, within, source_size. rewrite Hc. cbn. lia.
Qed.

Lemma declaration_from c s0 s s' declaration : SourceFacts.source_text c = source_text →
  state_ok s → state_ok s' → (cursor s < cursor s')%nat → declaration_ends s0 s declaration →
  in_text c declaration ∧ spans_from (at_ s0) (at_ s') declaration.
Proof.
  intros Hc H H' C [-> ? ? ?]. pose proof (end_le _ _ Htokens s s' H H' C).
  unfold in_text, spans_from, source_size. rewrite Hc. cbn. lia.
Qed.

(** The member of one declarator. *)
Lemma wp_push_member s0 s s5 ctx name initializer l (k : parse S ((bool * option (N * N)) + unit)) Q :
  state_ok s0 → state_ok s → (cursor s0 <= cursor s)%nat → context_ok s0 s ctx → name ≠ 0 →
  moved s s5 (body_facts [] l [] []) → Forall modifier_ok l → token_kind (current s5) ≠ eof →
  at_ s0 <= at_ s → (∃ s4, at_ s <= at_ s4 ∧ initializer_spans s4 s5 initializer) →
  (∀ m s', moved s s' (body_facts [m] l [] []) → members_of (candidate s) (at_ s0) (at_ s') [m] l [] [] →
    offset (member_declaration m) = at_ s0 → (cursor s < cursor s')%nat → wp k s' Q) →
  wp (push memory (λ c, with_members (members c ++ [MemberFact
        (declared_type (context_type ctx) (FactRange (size (modifiers (candidate s)))
          (size (modifiers (candidate s5)) - size (modifiers (candidate s)))) (span_from (at_ s0) (base_end (context_type ctx))))
        name (span_from (at_ s0) (end_of (current s5))) (context_access ctx) initializer Construction.zero_value]) c);;
      advance tokens;; k) s5 Q.
Proof.
  intros H0 Hs C0 [Hstart Ha _ Hr He _] Hn M5 Hl Hk Hle (s4 & H4 & Hi) Hk'.
  pose proof (declared_ends s0 s5 H0 ltac:(now_ok) ltac:(cursors) Hk) as Hd.
  set (declaration := span_from (at_ s0) (end_of (current s5))) in *. set (m := MemberFact _ _ _ _ _ _).
  step. apply (wp_push source_text tokens memory _ (body_facts [m] [] [] [])); [now_ok| |constructor|constructor|].
  { unfold append, body_facts. cbn. by rewrite !app_nil_r. }
  intros s6 M6 C6. step. eapply wp_advance; [done|now_ok|]. intros s7 K7 C7.
  rewrite (current_same tokens _ _ C6) in C7. specialize (C7 Hk).
  assert (M7 : moved s s7 (body_facts [m] l [] [])).
  { eapply moved_trans in M6; [|exact M5]. flatten M6. eapply moved_kept; [exact M6|exact K7]. }
  assert (Hsrc : SourceFacts.source_text (candidate s) = source_text) by by eapply ok_source.
  destruct (declaration_from _ s0 s5 s7 declaration Hsrc ltac:(now_ok) ltac:(now_ok) ltac:(cursors) Hd) as [Hin Hsp].
  pose proof (at_le _ _ Htokens s s5 Hs ltac:(now_ok) ltac:(cursors)) as H5.
  destruct (spelling_within _ s0 s5 declaration (base_end (context_type ctx)) Hsrc Hd ltac:(lia)) as [Hspell Hwithin].
  destruct (initializer_within _ s0 s4 s5 initializer declaration Hsrc Hd ltac:(lia) Hi) as [Hini Hopt].
  destruct (declared_resolved (context_type ctx) (FactRange (size (modifiers (candidate s)))
    (size (modifiers (candidate s5)) - size (modifiers (candidate s)))) (span_from (at_ s0) (base_end (context_type ctx))) Hr)
    as (Hres & Hmod & Hspe).
  apply (Hk' m); [exact M7| | |cursors].
  - split; cbn; rewrite ?app_nil_r; [|constructor|done| |intros _; apply tiling_nil].
    + apply Forall_singleton. unfold member_ok. cbn. rewrite Hspe. split_and!; done.
    + rewrite Hmod, (moved_candidate _ _ _ _ _ M5). cbn. by apply tiling_range.
  - change (offset declaration = at_ s0). by rewrite (de_span _ _ _ Hd).
Qed.

Lemma wp_parse_data_member s0 ctx declarator name first spilled s
    (Q : (bool * option (N * N)) + unit → parser → Prop) : state_ok s0 → state_ok s → (cursor s0 <= cursor s)%nat →
  context_ok s0 s ctx → inside_text declarator → name ≠ 0 → declarator_state (first, spilled) →
  (∀ m l r s', moved s s' (body_facts [m] l [] []) → members_of (candidate s) (at_ s0) (at_ s') [m] l [] [] →
    offset (member_declaration m) = at_ s0 → (cursor s < cursor s')%nat →
    (∀ st, r = inl st → declarator_state st) → Q r s') →
  wp (parse_data_member source_text tokens memory ctx declarator name first spilled) s Q.
Proof.
  intros H0 Hs C0 Hctx Hd Hn Hst HQ.
  unfold parse_data_member. step. apply (wp_spilled first); [done..|apply (cx_modifiers _ _ _ Hctx)|].
  intros shared s1 Hs1 Hsp. steps; try done.
  apply (wp_copied s first shared); [done..|]. intros l s2 M2 C2 Hl. step.
  apply (wp_parse_array_suffix source_text tokens memory Htokens); [now_ok|]. intros bounds s3 K3 Hb. step.
  apply wp_append_modifiers; [now_ok|done|]. intros s4 M4 C4. step. apply wp_reject_bit_field; [now_ok|]. step.
  apply wp_declarator_initializer; [now_ok|]. intros comma initializer s5 K5 Hk5 Hi. steps. apply wp_fact_range. intros _ _.
  assert (M5 : moved s s5 (body_facts [] (l ++ bounds) [] [])).
  { eapply moved_trans in M4; [|eapply moved_kept; [exact M2|exact K3]]. flatten M4. eapply moved_kept; done. }
  rewrite (cx_start _ _ _ Hctx).
  apply (wp_push_member s0 s s5 ctx name initializer (l ++ bounds)); try done.
  - by apply Forall_app.
  - by apply at_le with source_text.
  - exists s4. split; [|done]. apply at_le with source_text; [done|done|now_ok|cursors].
  - intros m s' M Hm Ho C. steps. eapply HQ; [done..|]. intros st. destruct comma; [|done]. intros [= <-]. right. eauto.
Qed.

(** *** The declarators of a declaration *)

Lemma members_of_join c1 lo hi hi' c ms mods meths mm ms' mods' meths' mm' :
  c1 = append c (body_facts ms mods meths mm) → members_of c lo hi ms mods meths mm →
  members_of c1 lo hi' ms' mods' meths' mm' → hi <= hi' →
  members_of c lo hi' (ms ++ ms') (mods ++ mods') (meths ++ meths') (mm ++ mm').
Proof. intros -> H H' Hh. eapply members_of_append; [|done]. eapply members_of_widen; [done|lia|done]. Qed.

(** What was added from [s] to [s'] are members of one declaration, which starts at [s0]. *)
Definition declared_from s0 s s' : Prop :=
  ∃ ms mods meths mm, moved s s' (body_facts ms mods meths mm) ∧
    members_of (candidate s) (at_ s0) (at_ s') ms mods meths mm ∧
    Forall (λ m, offset (member_declaration m) = at_ s0) ms ∧ Forall (λ m, offset (method_declaration m) = at_ s0) meths.

Lemma declared_from_nothing s0 s : state_ok s → declared_from s0 s s.
Proof.
  intros Hs. exists [], [], [], []. split_and!; [|apply members_of_nothing|constructor..].
  exact (kept_moved _ _ _ _ (kept_refl _ _ _ Hs)).
Qed.

Lemma declared_from_then s0 s1 s2 s3 : state_ok s2 → state_ok s3 → (cursor s2 <= cursor s3)%nat →
  declared_from s0 s1 s2 → declared_from s0 s2 s3 → declared_from s0 s1 s3.
Proof.
  intros H2 H3 C (ms & mods & meths & mm & M & Hm & Ho & Ho') (ms' & mods' & meths' & mm' & M' & Hm' & Hp & Hp').
  exists (ms ++ ms'), (mods ++ mods'), (meths ++ meths'), (mm ++ mm'). split_and!.
  - exact (moved_trans _ _ _ _ _ _ _ M M').
  - eapply members_of_join; [exact (moved_candidate _ _ _ _ _ M)|done..|]. by apply at_le with source_text.
  - by apply Forall_app.
  - by apply Forall_app.
Qed.

Lemma declared_from_kept s0 s1 s2 s3 : state_ok s1 → kept s1 s2 → declared_from s0 s2 s3 → declared_from s0 s1 s3.
Proof.
  intros H1 K (ms & mods & meths & mm & M & Hm & Ho). exists ms, mods, meths, mm.
  rewrite (kept_candidate _ _ _ _ K) in Hm. split; [by eapply kept_then_moved|done].
Qed.

Lemma wp_declarator_turn s0 ctx st s (Q : (bool * option (N * N)) + unit → parser → Prop) : state_ok s0 → state_ok s →
  (cursor s0 <= cursor s)%nat → context_ok s0 s ctx → declarator_state st →
  (∀ r s', state_ok s' → (cursor s <= cursor s')%nat → declared_from s0 s s' →
    (∀ st, r = inl st → (cursor s < cursor s')%nat ∧ declarator_state st) → Q r s') →
  wp (declarator_turn environment source_text tokens memory ctx st) s Q.
Proof.
  intros H0 Hs C0 Hctx Hst HQ. unfold declarator_turn. destruct st as [first spilled]. step. step. apply wp_if; intros B.
  { rewrite (cx_start _ _ _ Hctx). steps.
    apply (wp_parse_special _ _ s0); [done..|apply (cx_access _ _ _ Hctx)|apply (cx_name _ _ _ Hctx)|].
    intros m s' M Hm Ho. steps. apply HQ; [now_ok|cursors| |done].
    exists [], [], [m], []. split_and!; [done..|constructor|by apply Forall_singleton]. }
  step. apply wp_reject_bit_field; [done|]. do 5 step. apply wp_declarator_name; [done|not_eof|]. intros name s1 K1 C1 Hn.
  assert (Hin : inside_text (here tokens s)) by inside.
  assert (Hctx1 : context_ok s0 s1 ctx) by (eapply context_later; [done..|now_ok|cursors]).
  steps.
  - apply (wp_parse_method s0); [done|now_ok|cursors|done..|]. intros m l s' M Hm Ho. steps.
    apply HQ; [now_ok|cursors| |done]. eapply declared_from_kept; [done|exact K1|].
    exists [], [], [m], l. split_and!; [done..|constructor|by apply Forall_singleton].
  - apply (wp_parse_data_member s0); [done|now_ok|cursors|done..|]. intros m l r s' M Hm Ho C' Hr.
    apply HQ; [now_ok|cursors| |].
    + eapply declared_from_kept; [done|exact K1|].
      exists [m], l, [], []. split_and!; [done..|by apply Forall_singleton|constructor].
    + intros st' Hst'. split; [cursors|auto].
Qed.

Lemma wp_declarators s0 ctx s (Q : unit → parser → Prop) : state_ok s0 → state_ok s → (cursor s0 <= cursor s)%nat →
  context_ok s0 s ctx → (∀ s', state_ok s' → (cursor s <= cursor s')%nat → declared_from s0 s s' → Q tt s') →
  wp (forever tokens (declarator_turn environment source_text tokens memory ctx) (true, None)) s Q.
Proof.
  intros H0 Hs C0 Hctx HQ.
  apply (wp_forever source_text tokens) with (I := λ st s1, state_ok s1 ∧ (cursor s <= cursor s1)%nat ∧
    declared_from s0 s s1 ∧ declarator_state st).
  - intros st s1 (H1 & _). by eapply ok_cursor.
  - intros st s1 (H1 & C1 & Hd & Hst). apply (wp_declarator_turn s0); [done..|lia| |done|].
    { by eapply context_later. }
    intros r s2 H2 C2 Hd2 Hr. pose proof (declared_from_then _ _ _ _ H1 H2 C2 Hd Hd2) as Hd3.
    destruct r as [st'|[]].
    + destruct (Hr st' eq_refl) as [C3 Hst']. split; [done|]. split_and!; [done|lia|done..].
    + apply HQ; [done|lia|done].
  - split_and!; [done..|by apply declared_from_nothing|by left].
Qed.

Lemma wp_specifiers sp s (Q : specifiers → parser → Prop) : state_ok s → (∀ sp s', kept s s' → Q sp s') →
  wp (forever tokens (specifier_turn source_text tokens) sp) s Q.
Proof.
  intros Hs HQ. apply (wp_loop source_text tokens) with (J := λ _ _, True); [done..|].
  intros sp' s1 K1 _. unfold specifier_turn. steps; try (apply HQ; keep).
  all: apply negb_false_iff in B; specialize (C ltac:(not_eof)); split; [cursors|by split; [keep|]].
Qed.

Lemma wp_parse_member scope access record record_name s (Q : unit → parser → Prop) : state_ok s → access <= 2 → record_name ≠ 0 →
  (∀ s', state_ok s' → (cursor s < cursor s')%nat → declared_from s s s' → Q tt s') →
  wp (parse_member environment source_text tokens memory scope access record record_name) s Q.
Proof.
  intros Hs Ha Hn HQ. unfold parse_member. steps. apply wp_specifiers; [now_ok|]. intros sp s1 K1. steps.
  - apply (wp_parse_destructor _ _ _ s); [done|now_ok|cursors|done|done|not_eof|]. intros m s' M Hm Ho C.
    apply HQ; [now_ok|cursors|]. eapply declared_from_kept; [done|exact K1|].
    exists [], [], [m], []. split_and!; [done..|constructor|by apply Forall_singleton].
  - apply (wp_parse_type source_text tokens memory Htokens environment Henvironment); [now_ok|]. intros type s2 K2 C2 Hb.
    apply (based_shift source_text tokens Htokens s) in Hb as [Hr He Hm]; [|done|keep].
    apply (wp_declarators s); [done|now_ok|cursors|by constructor|]. intros s3 H3 C3 Hd.
    apply HQ; [done|cursors|]. eapply declared_from_kept; [done| |exact Hd]. keep.
Qed.
End members.

End ParserMembers.
