(* ===== verification/ParserConstruction.v ===== *)
(** * The normalized constructions

    [normalize_construction] rewrites the construction of every member of a record: each becomes a
    valid construction, and a binding names a member of the record. *)

From S2P Require Import Prelude Lexer IdentitySpace Construction SourceFacts SourceFactsTheorems SourceEnvironment.
From S2P Require Import ParserState ParserTypes SourceParser ParserRules ParserScans ParserChunks ParserMoves.

Local Open Scope N_scope.

Module ParserConstruction.

Import Lexer SourceFacts SourceFactsTheorems SourceEnvironment ParserState ParserTypes SourceParser.
Import ParserRules ParserScans ParserChunks ParserMoves.

#[local] Existing Instance IdentitySpace.identity_kind_eq_dec.

(** A construction of a member of a record of [n] members. *)
Definition construction_fits (n : N) (value : Construction.construction_value) : Prop :=
  Construction.valid_construction value = true ∧
  (Construction.kind value = Construction.member_binding → Construction.operand value <= n).

(** The member is the same up to its construction. *)
Definition same_member (m m' : source_member_fact) : Prop := m' = set_construction (member_construction m') m.

Lemma same_member_refl m : same_member m m.
Proof. by destruct m. Qed.

Lemma same_member_set m m' value : same_member m m' → same_member m (set_construction value m').
Proof. unfold same_member. intros E. rewrite E. by destruct m. Qed.

Lemma same_members_refl l : Forall2 same_member l l.
Proof. induction l; constructor; [apply same_member_refl|done]. Qed.

Lemma same_members_trans l1 l2 l3 : Forall2 same_member l1 l2 → Forall2 same_member l2 l3 → Forall2 same_member l1 l3.
Proof.
  intros H. revert l3. induction H as [|x y l1 l2 Hxy H IH]; intros l3 H3; inversion H3 as [|? z ? l3' Hyz]; subst; constructor; [|auto].
  unfold same_member in *. rewrite Hyz, Hxy. by destruct x.
Qed.

Lemma same_names l l' : Forall2 same_member l l' → member_name <$> l' = member_name <$> l.
Proof. induction 1 as [|m m' l l' H _ IH]; [done|]. cbn. rewrite IH. f_equal. by rewrite H. Qed.

Lemma fits_unsupported n : construction_fits n unsupported_value.
Proof. done. Qed.

Lemma fits_zero n : construction_fits n Construction.zero_value.
Proof. done. Qed.

Lemma fits_constant n k v : k = Construction.unsigned_integer ∨ k = Construction.signed_integer ∨ k = Construction.real →
  construction_fits n (Construction.constant k v).
Proof. intros [->|[->| ->]]; done. Qed.

Lemma fits_scalar from_chars_double n spelling : construction_fits n (scalar_value from_chars_double spelling).
Proof.
  unfold scalar_value. case_bool_decide; [done|]. case_bool_decide; [done|]. cbn [orb]. case_bool_decide; [by apply fits_constant; left|].
  destruct (existsb _ _).
  - destruct (from_chars_double _); cbn; [apply fits_constant; auto|done].
  - destruct (starts_with _ _).
    + destruct (Construction.from_chars_int64 _); cbn; [apply fits_constant; auto|done].
    + destruct (Construction.from_chars_uint64 _); cbn; [apply fits_constant; auto|done].
Qed.

Lemma position_below {A} (test : A → bool) l i : position test l = Some i → (i < length l)%nat.
Proof.
  unfold position. destruct (list_find _ l) as [[k x]|] eqn:E; [|done]. cbn. intros [= ->].
  apply list_find_Some in E as (E & _ & _). by apply lookup_lt_Some in E.
Qed.

Section construction.
Context {S : Type} `{!Semantic S} `{!SemanticLaws S}.
Context (from_chars_double : list N → option N) (to_chars_double : N → list N).
Context (source_text : list N) (tokens : list parser_token) (memory : nat → bool).
Context (Htokens : tokens_of source_text tokens).
Local Notation parser := (parser S).
Local Notation state_ok := (state_ok source_text tokens).
Local Notation kept := (kept source_text tokens).
Local Notation inside_text := (inside_text source_text).
Local Notation wp := (wp source_text).
Implicit Types s : parser.

Lemma wp_construction_expression expression record target s (Q : Construction.construction_value → parser → Prop) :
  state_ok s → inside_text expression → count (record_members record) < two32 →
  (∀ value s', kept s s' → cursor s' = cursor s → construction_fits (count (record_members record)) value → Q value s') →
  wp (construction_expression from_chars_double to_chars_double source_text expression record target) s Q.
Proof.
  intros Hs He Hn HQ. unfold construction_expression. step. apply (wp_text_at source_text); [done|]. intros text.
  do 2 step. step.
  - destruct (Construction.parse_aggregate_initializer _ _) as [initializer|]; [|step; apply HQ; [keep|done..]].
    destruct (intern_string _ _) as [[code i] x] eqn:E.
    destruct (intern_laws _ _ _ _ _ (ok_services _ _ _ Hs) E) as [Hx Hi].
    assert (Hs' : state_ok (set_semantic_state x s)) by by apply state_ok_semantic.
    assert (K : kept s (set_semantic_state x s)) by (constructor; done).
    destruct code; step; (apply wp_update; [done|]); [|by apply wp_stop..].
    step. apply HQ; [done..|]. split; [|done]. cbn. specialize (Hi eq_refl). apply N.eqb_neq in Hi. by rewrite Hi.
  - step; [step; apply HQ; [keep|done..]|]. step; [|step; apply HQ; [keep|done|apply fits_scalar]].
    step. apply wp_find. intros name. step. apply HQ; [keep|done|].
    destruct (position _ _) as [p|] eqn:Hp; [|done]. apply position_below in Hp.
    unfold section in Hp. rewrite length_take in Hp. split; cbn.
    + rewrite w32_small by lia. replace (N.of_nat p + 1 =? 0) with false by (symmetry; apply N.eqb_neq; lia). done.
    + intros _. rewrite w32_small by lia. lia.
Qed.

Lemma alter_middle {A} (f : A → A) l x k : alter f (length l) (l ++ x :: k) = l ++ f x :: k.
Proof. induction l as [|y l IH]; [done|]. cbn. by rewrite IH. Qed.

Lemma with_members_twice a b c : with_members a (with_members b c) = with_members a c.
Proof. done. Qed.

Lemma wp_update_member f c0 pre m todo s (Q : unit → parser → Prop) : state_ok s →
  candidate s = with_members (pre ++ m :: todo) c0 →
  (∀ s', state_ok s' → cursor s' = cursor s → candidate s' = with_members (pre ++ f m :: todo) c0 → Q tt s') →
  wp (update_member (length pre) f) s Q.
Proof.
  intros Hs Hc HQ. unfold update_member.
  apply (wp_replace source_text tokens (λ c, with_members (alter f (length pre) (members c)) c)); [done..| | |].
  - cbn. by eapply ok_alias_modifiers.
  - cbn. by eapply ok_modifiers.
  - intros s' C' Hc' Hs'. apply HQ; [done..|]. rewrite Hc', Hc. cbn. by rewrite alter_middle.
Qed.

Lemma wp_normalize_members record c0 todo : ∀ pre s (Q : unit → parser → Prop), state_ok s →
  candidate s = with_members (pre ++ todo) c0 → count (record_members record) < two32 →
  Forall (λ m, inside_text (member_initializer m)) todo →
  (∀ todo' s', state_ok s' → cursor s' = cursor s → candidate s' = with_members (pre ++ todo') c0 →
    Forall2 same_member todo todo' →
    Forall (λ m, construction_fits (count (record_members record)) (member_construction m)) todo' → Q tt s') →
  wp (normalize_members from_chars_double to_chars_double source_text record (length pre) (length todo)) s Q.
Proof.
  induction todo as [|m todo IH]; intros pre s Q Hs Hc Hn Hin HQ; cbn; [step; by apply (HQ [])|].
  apply Forall_cons in Hin as [Hm Hin]. do 2 step. rewrite Hc. cbn [members with_members].
  rewrite list_lookup_middle by done. step. apply wp_construction_expression; [done..|].
  intros value s1 K1 C1 Hv. step. eapply (wp_update_member _ c0 pre m todo); [now_ok|by rewrite (kept_candidate _ _ _ _ K1)|].
  intros s2 H2 C2 Hc2. replace (Datatypes.S (length pre)) with (length (pre ++ [set_construction value m]))
    by (rewrite length_app; cbn; lia).
  apply IH; [done|by rewrite <-app_assoc|done..|].
  intros todo' s' Hs' C' Hc' Hsame Hfit. rewrite <-app_assoc in Hc'.
  apply (HQ (set_construction value m :: todo')); [done|congruence|done| |].
  - constructor; [|done]. apply same_member_set, same_member_refl.
  - by constructor.
Qed.

Lemma wp_normalize_operation record c0 pre ms operation assigned s (Q : list nat → parser → Prop) : state_ok s →
  candidate s = with_members (pre ++ ms) c0 → record_members record = FactRange (size pre) (size ms) → size ms < two32 →
  inside_text (operation_expression operation) →
  Forall (λ m, construction_fits (size ms) (member_construction m)) ms →
  (∀ assigned ms' s', state_ok s' → cursor s' = cursor s → candidate s' = with_members (pre ++ ms') c0 →
    Forall2 same_member ms ms' → Forall (λ m, construction_fits (size ms) (member_construction m)) ms' → Q assigned s') →
  wp (normalize_operation from_chars_double to_chars_double source_text memory record operation assigned) s Q.
Proof.
  intros Hs Hc Hr Hn He Hfit HQ.
  unfold normalize_operation. step; [step; eapply HQ; [done..|apply same_members_refl|done]|]. do 2 step. rewrite Hc, Hr. cbn [members with_members].
  replace (section (FactRange (size pre) (size ms)) (pre ++ ms)) with ms.
  2: { unfold section, size. cbn. rewrite !Nat2N.id, drop_app_length. by rewrite take_ge. }
  destruct (position _ ms) as [i|] eqn:Hi; [|by apply wp_fail].
  apply position_below, lookup_lt_is_Some_2 in Hi as [m Hm]. cbn [begin].
  replace (N.to_nat (size pre)) with (length pre) by (unfold size; lia).
  rewrite lookup_app_r by lia. replace (length pre + i - length pre)%nat with i by lia. rewrite Hm.
  step. apply wp_construction_expression; [done..|by rewrite Hr|]. intros value s1 K1 C1 Hv. rewrite Hr in Hv. cbn in Hv.
  step; [by apply wp_fail|]. step; [by apply wp_fail|]. step.
  apply list_elem_of_split_length in Hm as (l1 & l2 & -> & ->).
  replace (length pre + length l1)%nat with (length (pre ++ l1)) by by rewrite length_app.
  eapply (wp_update_member _ c0 (pre ++ l1) m l2); [now_ok|by rewrite (kept_candidate _ _ _ _ K1), <-app_assoc|].
  intros s2 H2 C2 Hc2. rewrite <-app_assoc in Hc2. step.
  apply (HQ _ (l1 ++ set_construction value m :: l2)); [done|congruence|done| |].
  - apply Forall2_app; [apply same_members_refl|]. constructor; [|apply same_members_refl].
    apply same_member_set, same_member_refl.
  - rewrite !Forall_app, !Forall_cons in *. destruct Hfit as (? & ? & ?). split_and!; done.
Qed.
Lemma wp_normalize_operations record c0 pre operations : ∀ ms assigned s (Q : unit → parser → Prop), state_ok s →
  candidate s = with_members (pre ++ ms) c0 → record_members record = FactRange (size pre) (size ms) → size ms < two32 →
  Forall (λ o, inside_text (operation_expression o)) operations →
  Forall (λ m, construction_fits (size ms) (member_construction m)) ms →
  (∀ ms' s', state_ok s' → cursor s' = cursor s → candidate s' = with_members (pre ++ ms') c0 →
    Forall2 same_member ms ms' → Forall (λ m, construction_fits (size ms) (member_construction m)) ms' → Q tt s') →
  wp (normalize_operations from_chars_double to_chars_double source_text memory record operations assigned) s Q.
Proof.
  induction operations as [|o operations IH]; intros ms assigned s Q Hs Hc Hr Hn Ho Hfit HQ; cbn.
  - step. apply (HQ ms); [done..|apply same_members_refl|done].
  - apply Forall_cons in Ho as [Ho Hos]. step. apply (wp_normalize_operation _ c0 pre ms); [done..|].
    intros assigned' ms1 s1 H1 C1 Hc1 Hsame Hfit1. pose proof (Forall2_length _ _ _ Hsame) as Hl.
    assert (size ms1 = size ms) as E by (unfold size; congruence).
    apply (IH ms1); rewrite ?E; try done. intros ms' s' H' C' Hc' Hsame' Hfit'.
    apply (HQ ms'); [done|congruence|done| |done]. by eapply same_members_trans.
Qed.

Lemma wp_normalize_construction record c0 pre ms s (Q : unit → parser → Prop) : state_ok s →
  candidate s = with_members (pre ++ ms) c0 → record_members record = FactRange (size pre) (size ms) → size ms < two32 →
  Forall (λ m, inside_text (member_initializer m)) ms →
  (∀ ms' s', state_ok s' → cursor s' = cursor s → candidate s' = with_members (pre ++ ms') c0 →
    Forall2 same_member ms ms' → Forall (λ m, construction_fits (size ms) (member_construction m)) ms' → Q tt s') →
  wp (normalize_construction from_chars_double to_chars_double source_text memory record) s Q.
Proof.
  intros Hs Hc Hr Hn Hin HQ. unfold normalize_construction. rewrite Hr. cbn [begin count].
  replace (N.to_nat (size pre)) with (length pre) by (unfold size; lia).
  replace (N.to_nat (size ms)) with (length ms) by (unfold size; lia).
  step. apply (wp_normalize_members record c0 ms); [done..|by rewrite Hr|done|]. rewrite Hr. cbn [count].
  intros ms1 s1 H1 C1 Hc1 Hsame Hfit. pose proof (Forall2_length _ _ _ Hsame) as Hl.
  assert (size ms1 = size ms) as E by (unfold size; congruence).
  step. eapply (wp_mono source_text _ _ (λ _ s2, kept s1 s2 ∧ cursor s2 = cursor s1)).
  { step; [step; by split; [keep|]|]. eapply wp_allocate; [now_ok|]. done. }
  intros [] s2 [K2 C2]. step. step.
  apply (wp_bind source_text), (wp_normalize_operations record c0 pre _ ms1);
    rewrite ?E; try done; [now_ok|by rewrite (kept_candidate _ _ _ _ K2)| |].
  { eapply ok_operations. now_ok. }
  intros ms2 s3 H3 C3 Hc3 Hsame3 Hfit3. apply wp_update; [done|].
  apply (HQ ms2); [|cbn; congruence|done|by eapply same_members_trans|done].
  destruct H3. constructor; try done. rewrite Forall_forall in *. intros o [_ Ho]%list_elem_of_filter. auto.
Qed.
End construction.

End ParserConstruction.
