(* ===== verification/ParserRecords.v ===== *)
(** * Records

    The rules of the methods that parse a record: a declaration or a definition adds one record,
    its entry in the declaration sequence and, of a definition, its bases, members and methods. *)

From stdpp Require Import sorting.
From S2P Require Import Prelude Lexer IdentitySpace Construction SourceFacts SourceFactsTheorems SourceEnvironment.
From S2P Require Import ParserState ParserTypes SourceParser ParserRules ParserScans ParserChunks ParserMoves ParserMembers ParserConstruction.

Local Open Scope N_scope.

Module ParserRecords.

Import Lexer SourceFacts SourceFactsTheorems SourceEnvironment ParserState ParserTypes SourceParser.
Import ParserRules ParserScans ParserChunks ParserMoves ParserMembers ParserConstruction.

#[local] Existing Instance IdentitySpace.identity_kind_eq_dec.

(** ** The facts of a record *)

(** The record, its entry, its bases, members and methods. *)
Definition record_facts r ref bs ms mods meths mm : source_facts :=
  SourceFacts 0 [] [] [r] ms mods [] [] [ref] [] [] bs [] [] meths mm.

Lemma runs_members (source_text : list N) c lo hi ms mods meths mm start : members_of source_text c lo hi ms mods meths mm →
  Forall (λ m, offset (member_declaration m) = start) ms → Forall (λ m, offset (method_declaration m) = start) meths →
  runs member_declaration lo hi ms ∧ runs method_declaration lo hi meths.
Proof.
  intros [Hm Hme _ _ _] Ho Ho'. split; split.
  - clear -Ho. unfold ordered, offsets. induction Ho as [|x l Hx Hl IH]; [constructor|]. cbn. constructor; [done|].
    destruct Hl as [|y l Hy Hl]; cbn; constructor. lia.
  - eapply Forall_impl; [exact Hm|]. cbn. intros m (_ & _ & _ & H1 & H2 & H3). lia.
  - clear -Ho'. unfold ordered, offsets. induction Ho' as [|x l Hx Hl IH]; [constructor|]. cbn. constructor; [done|].
    destruct Hl as [|y l Hy Hl]; cbn; constructor. lia.
  - eapply Forall_impl; [exact Hme|]. cbn. intros m (_ & H1 & H2 & H3). lia.
Qed.

Lemma modifier_ranges_members d : objects d = [] →
  modifier_ranges d = (λ m, ref_modifiers (member_type m)) <$> members d.
Proof.
  intros Ho. unfold modifier_ranges. rewrite Ho. cbn [fmap list_fmap]. rewrite list_merge_nil_r.
  by rewrite <-list_fmap_compose.
Qed.

Lemma section_middle {A} (pre l post : list A) : section (FactRange (size pre) (size l)) ((pre ++ l) ++ post) = l.
Proof. unfold section, size. cbn. by rewrite !Nat2N.id, <-app_assoc, drop_app_length, take_app_length. Qed.

(** The span of a record holds what stands in its body. *)
Lemma within_spans lo hi r declaration : spans_from lo hi r → offset declaration <= lo →
  hi <= offset declaration + span_length declaration → within declaration r.
Proof. intros (? & ? & ?) ? ?. unfold within. lia. Qed.

Lemma same_members_forall (P : source_member_fact → Prop) ms ms' : Forall2 same_member ms ms' →
  (∀ m value, P m → P (set_construction value m)) → Forall P ms → Forall P ms'.
Proof.
  intros H HP Hm. induction H as [|m m' ms ms' E H IH]; [done|]. apply Forall_cons in Hm as [Hm Hms].
  constructor; [|auto]. rewrite E. auto.
Qed.

Lemma same_members_fmap {B} (f : source_member_fact → B) ms ms' : Forall2 same_member ms ms' →
  (∀ m value, f (set_construction value m) = f m) → f <$> ms' = f <$> ms.
Proof. intros H Hf. induction H as [|m m' ms ms' E H IH]; [done|]. cbn. rewrite IH. f_equal. by rewrite E, Hf. Qed.

Record record_parts (c : source_facts) (lo hi : N) (r : source_record_fact) (bs : list source_base_fact) : Prop := RecordParts {
  rp_identity : names IdentitySpace.type_kind (record_identity r);
  rp_code : record_code r <= 2;
  rp_start : lo = offset (record_declaration r);
  rp_end : offset (record_declaration r) + span_length (record_declaration r) <= hi;
  rp_text : in_text c (record_declaration r);
  rp_bases : Forall (base_ok c) bs }.

(** Members and methods that lie between two offsets, in order. *)
Record body_of (source_text : list N) (c : source_facts) (lo hi : N) ms mods meths mm : Prop := BodyOf {
  bo_members : members_of source_text c lo hi ms mods meths mm;
  bo_runs : runs member_declaration lo hi ms;
  bo_method_runs : runs method_declaration lo hi meths }.

Lemma body_of_widen source_text c lo hi lo' hi' ms mods meths mm : body_of source_text c lo hi ms mods meths mm →
  lo' <= lo → hi <= hi' → body_of source_text c lo' hi' ms mods meths mm.
Proof. intros [] H1 H2. split; [by eapply members_of_widen|by eapply runs_widen..]. Qed.

Lemma body_of_same source_text c lo hi ms ms' mods meths mm : Forall2 same_member ms ms' →
  body_of source_text c lo hi ms mods meths mm →
  Forall (λ m, member_ok c m ∧ spans_from lo hi (member_declaration m)) ms' ∧ runs member_declaration lo hi ms' ∧
  tiling (size (modifiers c)) ((λ m, ref_modifiers (member_type m)) <$> ms') (size (modifiers c ++ mods)).
Proof.
  intros Hsame [[Hm _ _ Ht _] [Ho Hb] _]. split_and!.
  - eapply same_members_forall; [exact Hsame|done|]. eapply Forall_impl; [exact Hm|]. cbn. tauto.
  - split; [|by eapply same_members_forall]. unfold ordered, offsets in *. by erewrite same_members_fmap.
  - by erewrite same_members_fmap.
Qed.

Lemma stated_definition source_text c lo hi r ref ms ms' mods meths mm bs : record_parts c lo hi r bs →
  body_of source_text c lo hi ms mods meths mm → Forall2 same_member ms ms' →
  stated c lo hi (record_facts r ref bs ms' mods meths mm).
Proof.
  intros [Hi Hc Hlo Hhi [Hlen Ht] Hb] Hbody Hsame. destruct (body_of_same _ _ _ _ _ _ _ _ _ Hsame Hbody) as (Hm & Hr & Htile).
  destruct Hbody as [[_ Hme Hmods _ Hmt] _ Hr2].
  blank.
  - apply runs_one. lia.
  - eapply Forall_impl; [exact Hm|]. cbn. tauto.
  - eapply Forall_impl; [exact Hme|]. cbn. tauto.
  - intros _. by rewrite modifier_ranges_members.
Qed.

Lemma owned_definition source_text c lo hi r ref ms ms' mods meths mm bs : record_parts c lo hi r bs →
  record_declared r = kind_definition →
  record_members r = FactRange (size (members c)) (size ms) →
  record_bases r = FactRange (size (bases c)) (size bs) →
  record_methods r = FactRange (size (methods c)) (size meths) →
  body_of source_text c lo (offset (record_declaration r) + span_length (record_declaration r)) ms mods meths mm →
  Forall2 same_member ms ms' → Forall (λ m, construction_fits (size ms) (member_construction m)) ms' →
  owned c (record_facts r ref bs ms' mods meths mm).
Proof.
  intros [Hi Hc Hlo Hhi Ht Hb] Hd Hm Hbs Hme Hbody Hsame Hfit.
  assert (Hlen : size ms' = size ms) by (unfold size; by rewrite (Forall2_length _ _ _ Hsame)).
  destruct (body_of_same _ _ _ _ _ _ _ _ _ Hsame Hbody) as (Hms & [Ho _] & _).
  destruct Hbody as [[_ Hmeths _ _ _] _ _].
  assert (Hdef : is_definition r = true) by (unfold is_definition; by rewrite Hd).
  assert (Hone : filter is_definition [r] = [r]) by (cbn; rewrite decide_True; [done|by rewrite Hdef]).
  blank; rewrite ?Hone; cbn; rewrite ?Hm, ?Hbs, ?Hme.
  - apply Forall_singleton. intros e. split; [done|]. split; [done|]. split; [done|]. right. split; [done|].
    rewrite Hm, Hme, <-Hlen. cbn. rewrite !section_middle. split_and!; [|done|].
    + rewrite Forall_forall in *. intros m Hmi. destruct (Hfit m Hmi) as [H1 H2]. destruct (Hms m Hmi) as [_ H3].
      split; [done|]. rewrite Hm. cbn. split; [done|]. eapply within_spans; [done|lia|lia].
    + eapply Forall_impl; [exact Hmeths|]. cbn. intros m [_ H3]. eapply within_spans; [done|lia|lia].
  - split; cbn; [done|]. unfold size in *. rewrite length_app. lia.
  - split; cbn; [done|]. unfold size in *. rewrite length_app. lia.
  - split; cbn; [done|]. unfold size in *. rewrite length_app. lia.
  - apply Forall_singleton. by rewrite Hdef.
Qed.

Lemma sequenced_record c lo hi r ms mods meths mm bs : lo <= offset (record_declaration r) < hi →
  sequenced c lo hi (record_facts r (DeclarationRef (size (records c)) declares_record (record_declaration r)) bs ms mods meths mm).
Proof.
  intros H. blank.
  - by apply runs_one.
  - unfold listed_from. cbn. unfold size. by rewrite Nat.add_0_r.
  - by apply Forall_singleton.
Qed.

Lemma chunk_definition source_text c lo hi r ms ms' mods meths mm bs : record_parts c lo hi r bs →
  record_declared r = kind_definition →
  record_members r = FactRange (size (members c)) (size ms) →
  record_bases r = FactRange (size (bases c)) (size bs) →
  record_methods r = FactRange (size (methods c)) (size meths) →
  body_of source_text c lo (offset (record_declaration r) + span_length (record_declaration r)) ms mods meths mm →
  Forall2 same_member ms ms' → Forall (λ m, construction_fits (size ms) (member_construction m)) ms' →
  chunk c lo hi (record_facts r (DeclarationRef (size (records c)) declares_record (record_declaration r)) bs ms' mods meths mm).
Proof.
  intros Hp Hd Hm Hb Hme Hbody Hsame Hfit. pose proof Hp as [_ _ ? ? [? ?] _]. split.
  - eapply stated_definition; [done| |done]. eapply body_of_widen; [exact Hbody|lia|lia].
  - by eapply owned_definition.
  - apply sequenced_record. lia.
Qed.

Lemma chunk_declaration c lo hi r : record_parts c lo hi r [] → record_declared r = kind_declaration →
  record_members r = FactRange 0 0 → record_bases r = FactRange 0 0 → record_methods r = FactRange 0 0 →
  chunk c lo hi (record_facts r (DeclarationRef (size (records c)) declares_record (record_declaration r)) [] [] [] [] []).
Proof.
  intros Hp Hd Hm Hb Hme. pose proof Hp as [Hi Hc Hlo ? [? ?] _].
  assert (Hdef : is_definition r = false) by (unfold is_definition; by rewrite Hd).
  assert (Hone : filter is_definition [r] = []) by (cbn; rewrite decide_False; [done|rewrite Hdef; intros Hx; done]).
  split; [blank; apply runs_one; lia| |apply sequenced_record; lia].
  blank; rewrite ?Hone; try apply tiling_nil; apply Forall_singleton; [|auto].
  intros e. split; [done|]. split; [done|]. split; [done|]. left. by rewrite Hm, Hb, Hme.
Qed.

Section records.
Context {S : Type} `{!Semantic S} `{!SemanticLaws S}.
Context (environment : environment_view) (Henvironment : EnvironmentLaws environment).
Context (from_chars_double : list N → option N) (to_chars_double : N → list N).
Context (source_text : list N) (tokens : list parser_token) (memory : nat → bool).
Context (Htokens : tokens_of source_text tokens).
Local Notation parser := (parser S).
Local Notation state_ok := (state_ok source_text tokens).
Local Notation kept := (kept source_text tokens).
Local Notation moved := (moved source_text tokens).
Local Notation inside_text := (inside_text source_text).
Local Notation wp := (wp source_text).
Local Notation current := (current tokens).
Local Notation declares := (declares source_text tokens).
Local Notation declared_from := (declared_from source_text tokens).
Implicit Types s : parser.
Local Notation at_ s := (token_offset (current s)).

(** ** The body *)

(** What was added from [s] to [s'] are members in order. *)
Definition bodied s s' : Prop :=
  ∃ ms mods meths mm, moved s s' (body_facts ms mods meths mm) ∧
    body_of source_text (candidate s) (at_ s) (at_ s') ms mods meths mm.

Lemma bodied_nothing s : state_ok s → bodied s s.
Proof.
  intros Hs. exists [], [], [], []. split; [exact (kept_moved _ _ _ _ (kept_refl _ _ _ Hs))|].
  split; [apply members_of_nothing|apply runs_nil..].
Qed.

Lemma bodied_ok s s' : bodied s s' → state_ok s' ∧ (cursor s <= cursor s')%nat.
Proof. by intros (ms & mods & meths & mm & [] & _). Qed.

Lemma bodied_member s s1 s2 : state_ok s → bodied s s1 → declared_from s1 s1 s2 → bodied s s2.
Proof.
  intros Hs (ms & mods & meths & mm & M & [Hm Hr Hr']) (ms' & mods' & meths' & mm' & M' & Hm' & Ho & Ho').
  exists (ms ++ ms'), (mods ++ mods'), (meths ++ meths'), (mm ++ mm').
  destruct (runs_members _ _ _ _ _ _ _ _ _ Hm' Ho Ho') as [Hs1 Hs2].
  pose proof (moved_ok _ _ _ _ _ M) as H1. pose proof (moved_ok _ _ _ _ _ M') as H2.
  pose proof (at_le _ _ Htokens s s1 Hs H1 (moved_cursor _ _ _ _ _ M)).
  pose proof (at_le _ _ Htokens s1 s2 H1 H2 (moved_cursor _ _ _ _ _ M')).
  split; [exact (moved_trans _ _ _ _ _ _ _ M M')|]. split.
  - eapply members_of_join; [exact (moved_candidate _ _ _ _ _ M)|exact Hm|by eapply members_of_widen|done].
  - by eapply runs_app.
  - by eapply runs_app.
Qed.

Lemma bodied_kept s s1 s2 : state_ok s → bodied s s1 → kept s1 s2 → bodied s s2.
Proof.
  intros Hs (ms & mods & meths & mm & M & Hm) K. exists ms, mods, meths, mm.
  split; [by eapply moved_kept|]. eapply body_of_widen; [exact Hm|done|].
  apply (at_le _ _ Htokens); [by eapply moved_ok|by eapply kept_ok|by eapply kept_cursor].
Qed.

Lemma access_code_range text access : access_code text = Some access → access <= 2.
Proof. unfold access_code. repeat case_bool_decide; intros; simplify_eq; lia. Qed.

Lemma wp_record_turn scope identity record_name access s0 s (Q : N + unit → parser → Prop) : state_ok s0 → state_ok s →
  bodied s0 s → access <= 2 → record_name ≠ 0 →
  (∀ r s', state_ok s' → bodied s0 s' →
    match r with inl access' => (cursor s < cursor s')%nat ∧ access' <= 2 | inr _ => True end → Q r s') →
  wp (record_turn environment source_text tokens memory scope identity record_name access) s Q.
Proof.
  intros H0 Hs Hb Ha Hn HQ. unfold record_turn. do 2 step. apply wp_if; intros B; [by apply wp_ret, HQ|].
  apply orb_false_iff in B as [Beof _].
  assert (Hk : token_kind (current s) ≠ eof) by not_eof.
  apply wp_if; intros B1. { steps. apply HQ; [now_ok|by eapply bodied_kept|split; [cursors|done]]. }
  destruct (if is_kind_of tokens Lexer.identifier s then access_code (token_text source_text (current s)) else None)
    as [access'|] eqn:E.
  { steps. apply HQ; [now_ok|eapply bodied_kept; [done..|keep]|]. split; [cursors|].
    revert E. destruct (is_kind_of tokens Lexer.identifier s); [apply access_code_range|done]. }
  apply wp_bind. apply wp_if; intros B2.
  { apply (wp_skip_static_assert source_text tokens memory Htokens); [done..|]. intros s1 K1 C1. step.
    apply HQ; [now_ok|by eapply bodied_kept|done]. }
  apply wp_if; intros B3.
  { apply (wp_skip_friend_declaration source_text tokens memory Htokens); [done..|]. intros s1 K1 C1. step.
    apply HQ; [now_ok|by eapply bodied_kept|done]. }
  step; [steps|].
  apply (wp_parse_member environment Henvironment source_text tokens memory Htokens); [done..|].
  intros s1 H1 C1 Hd. step. apply HQ; [done|by eapply bodied_member|done].
Qed.

Lemma wp_record_turns scope identity record_name access s (Q : unit → parser → Prop) : state_ok s → access <= 2 → record_name ≠ 0 →
  (∀ s', state_ok s' → bodied s s' → Q tt s') →
  wp (forever tokens (record_turn environment source_text tokens memory scope identity record_name) access) s Q.
Proof.
  intros Hs Ha Hn HQ.
  apply (wp_forever source_text tokens) with (I := λ access s1, state_ok s1 ∧ bodied s s1 ∧ access <= 2).
  - intros a s1 [H1 _]. by eapply ok_cursor.
  - intros a s1 (H1 & Hb & Ha1). apply (wp_record_turn _ _ _ _ s); [done..|].
    intros [a'|[]] s2 H2 Hb2 Hr; [|by apply HQ]. destruct Hr. done.
  - split_and!; [done|by apply bodied_nothing|done].
Qed.

Lemma wp_bind_members identity declaration ms : ∀ index s (Q : unit → parser → Prop), state_ok s → inside_text declaration →
  (∀ s', kept s s' → cursor s' = cursor s → Q tt s') → wp (bind_members memory identity declaration index ms) s Q.
Proof.
  induction ms as [|m ms IH]; intros index s Q Hs Hd HQ; cbn; [step; apply HQ; [keep|done]|].
  step. apply (wp_bind_member source_text tokens); [done..|]. intros s1 K1 C1. apply IH; [now_ok|done|].
  intros s2 K2 C2. apply HQ; [keep|congruence].
Qed.

(** ** Bases *)

Definition bases_facts (bs : list source_base_fact) : source_facts :=
  SourceFacts 0 [] [] [] [] [] [] [] [] [] [] bs [] [] [] [].

Lemma wp_base_specifiers st s (Q : bool * N → parser → Prop) : state_ok s → st.2 <= 2 →
  (∀ st s', kept s s' → st.2 <= 2 → Q st s') →
  wp (forever tokens (base_specifier_turn source_text tokens) st) s Q.
Proof.
  intros Hs Ha HQ. apply (wp_loop source_text tokens) with (J := λ st _, st.2 <= 2); [done..|].
  intros [v a] s1 K1 Ha1. unfold base_specifier_turn. steps;
    [split; [cursors|split; [keep|cbn in *; lia]]..|by apply HQ].
Qed.

Lemma wp_parse_base_clause scope kind lookup_offset s (Q : unit → parser → Prop) : state_ok s →
  (∀ bs s', moved s s' (bases_facts bs) → Forall (base_ok (candidate s)) bs → Q tt s') →
  wp (parse_base_clause environment source_text tokens memory scope kind lookup_offset) s Q.
Proof.
  intros Hs HQ. unfold parse_base_clause.
  apply (wp_forever source_text tokens) with (I := λ _ s1, ∃ bs, moved s s1 (bases_facts bs) ∧ Forall (base_ok (candidate s)) bs).
  - intros u s1 (bs & M & _). eapply ok_cursor, (moved_ok _ _ _ _ _ M).
  - intros u s1 (bs & M & Hb). unfold base_turn. step. apply wp_base_specifiers; [now_ok|destruct (kind =? 1); cbn; lia|].
    intros [is_virtual access] s2 K2 Ha2. cbn in Ha2.
    steps; apply N.eqb_neq in B0; (eapply (wp_push source_text tokens _ _ (bases_facts [_])); [now_ok|unfold append, bases_facts; cbn; by rewrite !app_nil_r|constructor..|]).
    intros s4 M4 C4.
    assert (Hall : Forall (base_ok (candidate s)) (bs ++ [BaseFact i0 access (here tokens s2) is_virtual])).
    { apply Forall_app. split; [done|]. apply Forall_singleton. split; [cbn; auto|]. split; [done|]. cbn.
      unfold in_text, source_size. rewrite (ok_source _ _ _ Hs). split; [|apply (current_inside _ _ Htokens); now_ok].
      pose proof (current_nonempty _ _ Htokens s2 ltac:(now_ok) ltac:(not_eof)). cbn. lia. }
    assert (M5 : moved s s4 (bases_facts (bs ++ [BaseFact i0 access (here tokens s2) is_virtual]))).
    { refine (moved_trans _ _ _ _ _ (bases_facts bs) _ _ M4). moves. }
    steps.
    + split; [cursors|]. eexists. split; [moves|done].
    + eapply HQ; [exact M5|done].
  - exists []. split; [exact (kept_moved _ _ _ _ (kept_refl _ _ _ Hs))|constructor].
Qed.

(** ** Records *)

Lemma wp_declare_record scope s (Q : N * N → parser → Prop) : state_ok s →
  (∀ identity name s', kept s s' → cursor s' = cursor s → names IdentitySpace.type_kind identity → name ≠ 0 →
    Q (identity, name) s') → wp (declare_record source_text tokens memory scope) s Q.
Proof.
  intros Hs HQ. assert (Hin : inside_text (here tokens s)) by inside. unfold declare_record. do 5 step.
  apply (wp_resolve source_text tokens memory); [done|done|]. intros identity s1 K1 C1 Hi. steps.
  apply (wp_bind_type source_text tokens); [now_ok|done|]. intros s3 K3 C3. steps. apply HQ; [keep|congruence|done..].
Qed.

(** The record a declaration in [s0] adds is revised. *)
Lemma wp_update_record f r ref bs ms mods meths mm s0 s (Q : unit → parser → Prop) :
  moved s0 s (record_facts r ref bs ms mods meths mm) →
  (∀ s', moved s0 s' (record_facts (f r) ref bs ms mods meths mm) → cursor s' = cursor s → Q tt s') →
  wp (update_record (size (records (candidate s0))) f) s Q.
Proof.
  intros M HQ. unfold update_record. eapply (wp_revise source_text tokens (λ c, with_records (alter f _ (records c)) c));
    [exact M| | | |exact HQ]; [|done..].
  unfold append. cbn. unfold size. by rewrite Nat2N.id, alter_middle.
Qed.

Lemma wp_set_record_entry declaration r kind index old bs ms mods meths mm s0 s (Q : unit → parser → Prop) :
  moved s0 s (record_facts r (DeclarationRef index kind old) bs ms mods meths mm) →
  (∀ s', moved s0 s' (record_facts r (DeclarationRef index kind declaration) bs ms mods meths mm) →
    cursor s' = cursor s → Q tt s') →
  wp (set_declaration (size (declarations (candidate s0))) declaration) s Q.
Proof.
  intros M HQ. unfold set_declaration. eapply (wp_revise source_text tokens (λ c, with_declarations (alter _ _ (declarations c)) c));
    [exact M| | | |exact HQ]; [|done..].
  unfold append. cbn. unfold size. by rewrite Nat2N.id, alter_middle.
Qed.

(** What stands in the packet before the definition or the semicolon. *)
Definition fresh_record identity kind : source_record_fact :=
  RecordFact identity (FactRange 0 0) (FactRange 0 0) (FactRange 0 0) no_span kind_declaration kind.
Definition record_entry c : source_declaration_ref := DeclarationRef (size (records c)) declares_record no_span.

Lemma few_record r ref bs ms mods meths mm n : (1 <= n)%nat → few (record_facts r ref bs ms mods meths mm) n.
Proof. intros H. split; cbn; lia. Qed.

Lemma wp_finish_record_declaration identity kind bs s0 s (Q : unit → parser → Prop) : state_ok s0 →
  moved s0 s (record_facts (fresh_record identity kind) (record_entry (candidate s0)) bs [] [] [] []) →
  names IdentitySpace.type_kind identity → kind <= 2 → (cursor s0 < cursor s)%nat → token_kind (current s) ≠ eof →
  (∀ s', declares s0 s' → (cursor s0 < cursor s')%nat → Q tt s') →
  wp (finish_record_declaration tokens memory (at_ s0) (size (bases (candidate s0))) (size (records (candidate s0)))
    (size (declarations (candidate s0)))) s Q.
Proof.
  intros H0 M Hi Hkind C Hk HQ. unfold finish_record_declaration. steps. apply negb_false_iff, N.eqb_eq in B.
  rewrite (moved_candidate _ _ _ _ _ M) in B. cbn in B.
  assert (bs = []) as -> by (destruct bs; [done|]; unfold size in B; rewrite length_app in B; cbn in B; lia).
  pose proof (declared_ends _ _ Htokens s0 s H0 ltac:(now_ok) ltac:(lia) Hk) as Hd.
  set (declaration := span_from _ _) in *.
  apply (wp_update_record _ _ _ _ _ _ _ _ s0 _ _ M). intros s1 M1 C1. step.
  apply (wp_set_record_entry _ _ _ _ _ _ _ _ _ _ s0 _ _ M1). intros s2 M2 C2.
  eapply wp_advance; [done|now_ok|]. intros s3 K3 C3. rewrite (current_same tokens s s2 ltac:(congruence)) in C3. specialize (C3 Hk).
  apply HQ; [|cursors]. eexists. split_and!; [eapply moved_kept; [exact M2|exact K3]| |apply few_record; lia].
  destruct (declaration_from source_text tokens Htokens (candidate s0) s0 s s3 declaration) as [Hin (Hl & Ha & Hb)];
    [by eapply ok_source|now_ok|now_ok|lia|done|].
  assert (Ho : offset declaration = at_ s0) by by rewrite (de_span _ _ _ _ _ Hd).
  apply (chunk_declaration (candidate s0)); [|done..]. split; cbn; try done.
Qed.

Lemma body_of_packet c c' lo hi ms mods meths mm : SourceFacts.source_text c' = SourceFacts.source_text c →
  modifiers c' = modifiers c → method_modifiers c' = method_modifiers c →
  body_of source_text c lo hi ms mods meths mm → body_of source_text c' lo hi ms mods meths mm.
Proof.
  intros Ht Hm Hmm [[H1 H2 H3 H4 H5] Hr Hr'].
  assert (E : source_size c' = source_size c) by (unfold source_size; by rewrite Ht).
  split; [split; rewrite ?Hm, ?Hmm; try done|done..].
  - eapply Forall_impl; [exact H1|]. unfold member_ok, in_text, optional_within. cbn. by rewrite E.
  - eapply Forall_impl; [exact H2|]. unfold method_ok, in_text. cbn. by rewrite E.
Qed.

(** The definition behind its closing brace: the facts it adds. *)
Lemma definition_declares identity kind bs ms ms' mods meths mm s0 s1 s2 s5 s6 s' declaration : state_ok s0 →
  state_ok s2 → state_ok s5 → (cursor s0 <= cursor s1)%nat → (cursor s2 <= cursor s5)%nat → kept s5 s6 → (cursor s5 < cursor s6)%nat →
  cursor s' = cursor s6 → state_ok s1 →
  names IdentitySpace.type_kind identity → kind <= 2 → Forall (base_ok (candidate s0)) bs →
  body_of source_text (candidate s0) (at_ s1) (at_ s2) ms mods meths mm →
  declaration_ends source_text tokens s0 s5 declaration →
  Forall2 same_member ms ms' → Forall (λ m, construction_fits (size ms) (member_construction m)) ms' →
  moved s0 s' (record_facts (RecordFact identity (FactRange (size (members (candidate s0))) (size ms))
    (FactRange (size (bases (candidate s0))) (size bs)) (FactRange (size (methods (candidate s0))) (size meths))
    declaration kind_definition kind) (DeclarationRef (size (records (candidate s0))) declares_record declaration) bs ms' mods meths mm) →
  (cursor s0 < cursor s')%nat → declares s0 s'.
Proof.
  intros H0 H2 H5 C1 C2 K6 C6 C' H1 Hi Hkind Hb Hbody Hd Hsame Hfit M C.
  destruct (declaration_from source_text tokens Htokens (candidate s0) s0 s5 s6 declaration) as [Hin (Hl & Ha & Hhi)];
    [by eapply ok_source|done|now_ok|done|done|].
  rewrite <-(current_same tokens _ _ C') in Hhi.
  assert (Ho : offset declaration = at_ s0) by by rewrite (de_span _ _ _ _ _ Hd).
  assert (He : offset declaration + span_length declaration = end_of (current s5)).
  { pose proof (de_first _ _ _ _ _ Hd). rewrite (de_span _ _ _ _ _ Hd). cbn. lia. }
  eexists. split_and!; [exact M| |apply few_record; lia].
  eapply (chunk_definition source_text); [split; cbn; done|done..| |exact Hsame|exact Hfit].
  cbn. rewrite He. eapply body_of_widen; [exact Hbody|by apply (at_le _ _ Htokens)|].
  pose proof (at_le _ _ Htokens s2 s5 H2 H5 C2). pose proof (de_last _ _ _ _ _ Hd). lia.
Qed.

Lemma size_behind {A} (l k : list A) : size (l ++ k) - size l = size k.
Proof. unfold size. rewrite length_app. lia. Qed.

(** The fact of a definition. *)
Definition defined_record c identity kind declaration (ms : list source_member_fact) (bs : list source_base_fact)
    (meths : list source_method_fact) : source_record_fact :=
  RecordFact identity (FactRange (size (members c)) (size ms)) (FactRange (size (bases c)) (size bs))
    (FactRange (size (methods c)) (size meths)) declaration kind_definition kind.

(** From the fact of the definition on: its constructions and the bindings of its members. *)
Lemma wp_finish_definition identity kind declaration bs ms mods meths mm s0 s (Q : unit → parser → Prop) : state_ok s0 →
  moved s0 s (record_facts (fresh_record identity kind) (record_entry (candidate s0)) bs ms mods meths mm) →
  Forall (λ m, inside_text (member_initializer m)) ms → size ms < two32 → inside_text declaration →
  (∀ ms' s', cursor s' = cursor s → Forall2 same_member ms ms' →
    Forall (λ m, construction_fits (size ms) (member_construction m)) ms' →
    moved s0 s' (record_facts (defined_record (candidate s0) identity kind declaration ms bs meths)
      (DeclarationRef (size (records (candidate s0))) declares_record declaration) bs ms' mods meths mm) → Q tt s') →
  wp (update_record (size (records (candidate s0))) (λ r, RecordFact (record_identity r)
        (FactRange (size (members (candidate s0))) (size ms)) (FactRange (size (bases (candidate s0))) (size bs))
        (FactRange (size (methods (candidate s0))) (size meths)) declaration kind_definition (record_code r));;
      set_declaration (size (declarations (candidate s0))) declaration;;
      s ← read id;
      match records (candidate s) !! N.to_nat (size (records (candidate s0))) with
      | None => λ _, Stuck
      | Some fact =>
          normalize_construction from_chars_double to_chars_double source_text memory fact;;
          s ← read id;
          bind_members memory identity declaration 0 (section (record_members fact) (members (candidate s)))
      end) s Q.
Proof.
  intros H0 M Hin Hms Hd HQ. step. apply (wp_update_record _ _ _ _ _ _ _ _ s0 _ _ M). intros s1 M1 C1. step.
  apply (wp_set_record_entry _ _ _ _ _ _ _ _ _ _ s0 _ _ M1). intros s2 M2 C2. do 2 step.
  rewrite (moved_candidate _ _ _ _ _ M2). cbn. unfold size at 1. rewrite Nat2N.id, list_lookup_middle by done.
  pose proof (moved_candidate _ _ _ _ _ M2) as Hc2. step.
  set (r := defined_record (candidate s0) identity kind declaration ms bs meths).
  apply (wp_normalize_construction from_chars_double to_chars_double source_text tokens memory r
    (append (candidate s0) (record_facts r (DeclarationRef (size (records (candidate s0))) declares_record declaration) bs [] mods meths mm))
    (members (candidate s0)) ms); [now_ok|exact Hc2|done..|].
  intros ms' s3 H3 C3 Hc3 Hsame Hfit. do 2 step. apply wp_bind_members; [done..|]. intros s4 K4 C4.
  apply (HQ ms'); [congruence|done..|]. constructor; [cursors| |now_ok].
  rewrite (kept_candidate _ _ _ _ K4), Hc3. done.
Qed.

Lemma wp_parse_record_body scope identity record_name access kind bs s0 s (Q : unit → parser → Prop) : state_ok s0 →
  moved s0 s (record_facts (fresh_record identity kind) (record_entry (candidate s0)) bs [] [] [] []) →
  Forall (base_ok (candidate s0)) bs → names IdentitySpace.type_kind identity → kind <= 2 → access <= 2 → record_name ≠ 0 →
  (cursor s0 < cursor s)%nat → token_kind (current s) ≠ eof →
  (∀ s', declares s0 s' → (cursor s0 < cursor s')%nat → Q tt s') →
  wp (parse_record_body environment from_chars_double to_chars_double source_text tokens memory scope identity record_name
    access (at_ s0) (size (bases (candidate s0))) (size (records (candidate s0))) (size (declarations (candidate s0)))) s Q.
Proof.
  intros H0 M Hb Hi Hkind Ha Hn C Hk HQ. unfold parse_record_body. do 5 step.
  pose proof (moved_candidate _ _ _ _ _ M) as Hc.
  assert (Em : members (candidate s) = members (candidate s0)) by (rewrite Hc; cbn; by rewrite app_nil_r).
  assert (Eme : methods (candidate s) = methods (candidate s0)) by (rewrite Hc; cbn; by rewrite app_nil_r).
  apply wp_record_turns; [now_ok|done..|]. intros s2 H2 (ms & mods & meths & mm & M2 & Hbody).
  apply (body_of_packet _ (candidate s0)) in Hbody; rewrite ?(kept_candidate _ _ _ _ K), ?Hc; cbn; rewrite ?app_nil_r; try done.
  assert (M3 : moved s0 s2 (record_facts (fresh_record identity kind) (record_entry (candidate s0)) bs ms mods meths mm)).
  { eapply moved_trans in M2; [|eapply moved_kept; [exact M|exact K]]. unfold append, record_facts, body_facts in M2.
    cbn in M2. rewrite !app_nil_r in M2. exact M2. }
  steps. apply wp_fact_range. intros _ Hms. step. apply wp_fact_range. intros _ _. step. apply wp_fact_range. intros _ _.
  assert (M4 : moved s0 s4 (record_facts (fresh_record identity kind) (record_entry (candidate s0)) bs ms mods meths mm)).
  { eapply moved_kept; [exact M3|]. keep. }
  assert (Hc3 : candidate s3 = append (candidate s0)
    (record_facts (fresh_record identity kind) (record_entry (candidate s0)) bs ms mods meths mm)).
  { rewrite (kept_candidate _ _ _ _ K0). apply (moved_candidate _ _ _ _ _ M3). }
  revert Hms. rewrite Hc3. cbn [members bases methods append record_facts]. rewrite !size_behind. intros Hms.
  pose proof (declared_ends _ _ Htokens s0 s3 H0 ltac:(now_ok) ltac:(cursors) ltac:(not_eof)) as Hd.
  set (declaration := span_from _ _) in *.
  apply (wp_finish_definition identity kind declaration bs ms mods meths mm s0); [done..| |done| |].
  - eapply Forall_impl; [apply (mo_members _ _ _ _ _ _ _ _ (bo_members _ _ _ _ _ _ _ _ Hbody))|]. cbn. tauto.
  - unfold inside_text. rewrite (de_span _ _ _ _ _ Hd). cbn. pose proof (de_first _ _ _ _ _ Hd). pose proof (de_inside _ _ _ _ _ Hd). lia.
  - intros ms' s' C' Hsame Hfit M'. apply HQ; [|cursors].
    apply (definition_declares identity kind bs ms ms' mods meths mm s0 s1 s2 s3 s4 s' declaration); try done; try now_ok; cursors.
Qed.

Lemma wp_parse_record scope s (Q : unit → parser → Prop) : state_ok s → counted s → token_kind (current s) ≠ eof →
  (∀ s', declares s s' → (cursor s < cursor s')%nat → Q tt s') →
  wp (parse_record environment from_chars_double to_chars_double source_text tokens memory scope) s Q.
Proof.
  intros Hs Hc Hk HQ. unfold parse_record. do 2 step.
  set (kind := if is_kind_of tokens keyword_class s then 1 else _). set (access := if is_kind_of tokens keyword_class s then 2 else 0).
  assert (Hkind : kind <= 2) by (unfold kind; destruct (is_kind_of _ _ _); [lia|destruct (is_kind_of _ _ _); lia]).
  assert (Haccess : access <= 2) by (unfold access; destruct (is_kind_of _ _ _); lia).
  clearbody kind access. do 5 step. apply wp_declare_record; [now_ok|]. intros identity name s1 K1 C1 Hi Hn. do 3 step.
  assert (Ks : kept s s1) by keep. rewrite (kept_candidate _ _ _ _ Ks).
  assert (w32 (size (records (candidate s))) = size (records (candidate s))) as ->
    by exact (counted_index _ _ Htokens _ _ Hs (few_records _ _ Hc)).
  apply (wp_push source_text tokens _ _ (SourceFacts 0 [] [] [fresh_record identity kind] [] [] [] [] [] [] [] [] [] [] [] []));
    [now_ok|by rewrite (kept_candidate _ _ _ _ Ks); unfold append; cbn; rewrite !app_nil_r|constructor..|].
  intros s2 M2 C2. step. apply (wp_append_declaration source_text tokens); [now_ok|]. intros s3 M3 C3. step.
  assert (M : moved s s3 (record_facts (fresh_record identity kind) (record_entry (candidate s)) [] [] [] [] [])).
  { eapply moved_trans in M3; [|eapply kept_then_moved; [exact Ks|exact M2]]. exact M3. }
  eapply wp_advance; [done|now_ok|]. intros s4 K4 C4.
  rewrite (current_same tokens s0 s3 ltac:(congruence)) in C4. specialize (C4 ltac:(not_eof)). do 3 step.
  eapply (wp_mono source_text _ _ (λ _ s5, (cursor s4 <= cursor s5)%nat ∧ ∃ bs, Forall (base_ok (candidate s)) bs ∧
    moved s s5 (record_facts (fresh_record identity kind) (record_entry (candidate s)) bs [] [] [] []))).
  - step.
    + steps. apply wp_parse_base_clause; [now_ok|]. intros bs s6 M6 Hb. split; [cursors|]. exists bs. split.
      * eapply Forall_impl; [exact Hb|]. unfold base_ok, in_text, source_size.
        rewrite (kept_candidate _ _ _ _ K0), (kept_candidate _ _ _ _ K4), (moved_candidate _ _ _ _ _ M). done.
      * eapply moved_trans in M6; [|eapply moved_kept; [exact M|]]; [exact M6|keep].
    + step. split; [done|]. exists []. split; [constructor|]. by eapply moved_kept.
  - intros [] s5 (C5' & bs & Hb & M5). step. step.
    assert (C5 : (cursor s < cursor s5)%nat) by cursors. step.
    + eapply (wp_finish_record_declaration identity kind bs); try done. not_eof.
    + step. step. eapply wp_parse_record_body; try done. not_eof.
Qed.
End records.

End ParserRecords.
