(* ===== verification/ParserEnums.v ===== *)
(** * Enumerations

    The rules of the methods that parse an enumeration, and the values of its enumerators. *)

From S2P Require Import Prelude Lexer IdentitySpace Construction SourceFacts SourceFactsTheorems SourceEnvironment.
From S2P Require Import ParserState ParserTypes SourceParser ParserRules ParserScans ParserChunks ParserMoves ParserMembers ParserConstruction ParserRecords.

Local Open Scope N_scope.

Module ParserEnums.

Import Lexer SourceFacts SourceFactsTheorems SourceEnvironment ParserState ParserTypes SourceParser.
Import ParserRules ParserScans ParserChunks ParserMoves ParserMembers ParserConstruction ParserRecords.

#[local] Existing Instance IdentitySpace.identity_kind_eq_dec.

(** ** The facts of an enumeration *)

Definition enum_facts e ref mods vals : source_facts :=
  SourceFacts 0 [] [] [] [] mods [e] vals [ref] [] [] [] [] [] [] [].

Record enum_parts (c : source_facts) (lo hi : N) (e : source_enum_fact) (mods : list source_type_modifier) : Prop := EnumParts {
  ep_identity : names IdentitySpace.type_kind (enum_identity e);
  ep_start : lo = offset (enum_declaration e);
  ep_end : offset (enum_declaration e) + span_length (enum_declaration e) <= hi;
  ep_text : in_text c (enum_declaration e);
  ep_underlying : enum_explicit_underlying e = 0 ∨ integral (enum_explicit_underlying e);
  ep_modifiers : Forall modifier_ok mods;
  ep_copied : alias_modifiers c = [] → mods = [];
  ep_plain : enum_explicit_underlying e = intrinsic_none → mods = [] }.

Lemma stated_enum c lo hi e ref mods vals : enum_parts c lo hi e mods → stated c lo hi (enum_facts e ref mods vals).
Proof.
  intros [Hi Hlo Hhi [Hl Ht] Hu Hm Hcopied Hplain]. blank.
  - apply runs_one. lia.
  - intros Hp. assert (mods = []) as ->; [|rewrite app_nil_r; apply tiling_nil].
    destruct Hp as [Ha|He]; cbn in *.
    + apply app_eq_nil in Ha as [Ha _]. auto.
    + rewrite Forall_app, Forall_singleton in He. destruct He. auto.
Qed.

Lemma sequenced_enum c lo hi e mods vals : lo <= offset (enum_declaration e) < hi →
  sequenced c lo hi (enum_facts e (DeclarationRef (size (enums c)) declares_enum (enum_declaration e)) mods vals).
Proof.
  intros H. blank.
  - by apply runs_one.
  - unfold listed_from. cbn. unfold size. by rewrite Nat.add_0_r.
  - by apply Forall_singleton.
Qed.

Lemma chunk_enum c lo hi e mods vals : enum_parts c lo hi e mods →
  (enum_declared e = kind_declaration ∧ enum_enumerators e = FactRange 0 0 ∧ vals = [] ∨
   enum_declared e = kind_definition ∧ enum_enumerators e = FactRange (size (enum_values c)) (size vals) ∧
     Forall (enum_value_ok c e) vals) →
  chunk c lo hi (enum_facts e (DeclarationRef (size (enums c)) declares_enum (enum_declaration e)) mods vals).
Proof.
  intros Hp Hk. pose proof Hp as [Hi Hlo Hhi [Hl Ht] Hu _ _ _].
  split; [by apply stated_enum| |apply sequenced_enum; lia].
  destruct Hk as [(Hd & Hr & ->)|(Hd & Hr & Hv)].
  - assert (Hdef : is_enum_definition e = false) by (unfold is_enum_definition; by rewrite Hd).
    assert (Hone : filter is_enum_definition [e] = []) by (cbn; rewrite decide_False; [done|rewrite Hdef; intros Hx; done]).
    blank; rewrite ?Hone; try apply tiling_nil; apply Forall_singleton; [|auto].
    intros e'. split; [done|]. split; [done|]. split; [done|]. left. by rewrite Hr.
  - assert (Hdef : is_enum_definition e = true) by (unfold is_enum_definition; by rewrite Hd).
    assert (Hone : filter is_enum_definition [e] = [e]) by (cbn; rewrite decide_True; [done|by rewrite Hdef]).
    blank; rewrite ?Hone; cbn; rewrite ?Hr.
    + apply Forall_singleton. intros e'. split; [done|]. split; [done|]. split; [done|]. right. split; [done|].
      rewrite Hr. cbn. by rewrite section_middle.
    + split; cbn; [done|]. unfold size in *. rewrite length_app. lia.
    + apply Forall_singleton. by rewrite Hdef.
Qed.

(** ** Values *)

Lemma signed_intrinsic_integral z : integral (signed_intrinsic z).
Proof. unfold signed_intrinsic, integral, intrinsic_signed_int. destruct (_ && _); lia. Qed.

Lemma literal_value_integral negative magnitude i b z : literal_value negative magnitude = Some (i, b, z) → integral i.
Proof.
  unfold literal_value. destruct negative.
  - destruct (_ <? magnitude); [done|]. intros [= <- _ _]. apply signed_intrinsic_integral.
  - unfold integral, intrinsic_signed_int. destruct (magnitude <=? 2147483647); [intros [= <- _ _]; lia|].
    destruct (magnitude <=? _); intros [= <- _ _]; lia.
Qed.

Section enums.
Context {S : Type} `{!Semantic S} `{!SemanticLaws S}.
Context (environment : environment_view) (Henvironment : EnvironmentLaws environment).
Context (source_text : list N) (tokens : list parser_token) (memory : nat → bool).
Context (Htokens : tokens_of source_text tokens).
Local Notation parser := (parser S).
Local Notation state_ok := (state_ok source_text tokens).
Local Notation kept := (kept source_text tokens).
Local Notation moved := (moved source_text tokens).
Local Notation inside_text := (inside_text source_text).
Local Notation wp := (wp source_text).
Local Notation current := (current tokens).
Local Notation declares := (declares source_text tokens).
Implicit Types s : parser.
Local Notation at_ s := (token_offset (current s)).

Lemma wp_parse_literal s (Q : N * N * Z * source_span → parser → Prop) : state_ok s →
  (∀ i b z r s', kept s s' → (cursor s < cursor s')%nat → integral i →
    at_ s <= offset r → offset r + span_length r <= at_ s' → Q (i, b, z, r) s') →
  wp (parse_literal source_text tokens memory) s Q.
Proof.
  intros Hs HQ. unfold parse_literal. do 3 step. eapply wp_maybe_advance; [done..|]. intros s1 K1. do 4 step.
  destruct (Construction.from_chars_uint64 _) as [magnitude|]; [|steps].
  destruct (span_of_tokens _ _ Htokens s s1 Hs ltac:(now_ok) ltac:(cursors)) as (E & H1 & H2).
  destruct (literal_value _ _) as [[[i b] z]|] eqn:Hv.
  2: { apply wp_fail; [done|]. rewrite E. unfold ParserRules.inside_text. cbn. lia. }
  steps. apply HQ; [keep|cursors|by eapply literal_value_integral|rewrite E; cbn; lia|]. rewrite E. cbn.
  pose proof (end_le _ _ Htokens s1 s0 ltac:(now_ok) ltac:(now_ok) ltac:(cursors)). lia.
Qed.

Definition values_facts (vals : list source_enum_value_fact) : source_facts :=
  SourceFacts 0 [] [] [] [] [] [] vals [] [] [] [] [] [] [] [].

(** Enumerators that stand between two offsets. *)
Definition value_between (lo hi : N) (v : source_enum_value_fact) : Prop :=
  enum_value_name v ≠ 0 ∧ integral (enum_value_intrinsic v) ∧
  (span_length (enum_value_expression v) = 0 ∨
   lo <= offset (enum_value_expression v) ∧ offset (enum_value_expression v) + span_length (enum_value_expression v) <= hi).

Lemma value_between_more lo hi hi' v : value_between lo hi v → hi <= hi' → value_between lo hi' v.
Proof. intros (? & ? & [?|[? ?]]) ?; split_and!; [done..|by left|done|done|right; lia]. Qed.

(** A token sequence with enumerators behind it. *)
Definition valued s s' : Prop :=
  ∃ vals, moved s s' (values_facts vals) ∧ Forall (value_between (at_ s) (at_ s')) vals.

Lemma valued_add s s1 s2 v : state_ok s → valued s s1 → moved s1 s2 (values_facts [v]) → value_between (at_ s) (at_ s2) v → valued s s2.
Proof.
  intros Hs (vals & M & Hv) M' Hv'. exists (vals ++ [v]). split; [exact (moved_trans _ _ _ _ _ _ _ M M')|].
  apply Forall_app. split; [|by apply Forall_singleton]. eapply Forall_impl; [exact Hv|]. intros v' H'.
  eapply value_between_more; [exact H'|]. apply (at_le _ _ Htokens); [by eapply moved_ok..|by eapply moved_cursor].
Qed.

Lemma wp_enumerator_value (b : bool) previous enumerator_span s (Q : N * N * Z * source_span → parser → Prop) : state_ok s →
  b = punctuation tokens equal s → inside_text enumerator_span →
  (∀ i v z r s', kept s s' → integral i →
    (span_length r = 0 ∨ at_ s <= offset r ∧ offset r + span_length r <= at_ s') → Q (i, v, z, r) s') →
  wp (if b then advance tokens;; parse_literal source_text tokens memory
      else match next_value previous with
           | None => fail_unsupported memory enumerator_span "implicit enum value exceeds signed 64-bit range"
           | Some value => mret (signed_intrinsic value, bits_of_int64 value, value, no_span)
           end) s Q.
Proof.
  intros Hs -> Hin HQ. step.
  - do 2 step. apply wp_parse_literal; [now_ok|]. intros i v z r s1 K1 C1 Hi H1 H2. apply HQ; [keep|done|]. right.
    pose proof (at_le _ _ Htokens s s0 Hs ltac:(now_ok) ltac:(cursors)). lia.
  - destruct (next_value previous) as [z|]; [|by apply wp_fail]. step. apply HQ; [keep|apply signed_intrinsic_integral|by left].
Qed.

Lemma wp_enumerator_turn previous s0 s (Q : option Z + unit → parser → Prop) : state_ok s0 → state_ok s → valued s0 s →
  (∀ r s', state_ok s' → valued s0 s' → (cursor s <= cursor s')%nat → (∀ z, r = inl z → (cursor s < cursor s')%nat) → Q r s') →
  wp (enumerator_turn source_text tokens memory previous) s Q.
Proof.
  intros H0 Hs Hv HQ. unfold enumerator_turn. do 2 step. apply wp_if; intros B; [by apply wp_ret, HQ|].
  assert (Hin : inside_text (here tokens s)) by inside. do 9 step.
  apply (wp_enumerator_value _ previous (here tokens s)); [now_ok|done..|]. intros i' v z r s3 K3 Hi' Hr.
  eapply (wp_bind source_text), (wp_push source_text tokens _ _ (values_facts [EnumValueFact i i' v r]));
    [now_ok|by unfold append, values_facts; cbn; rewrite !app_nil_r|constructor..|].
  intros s4 M4 C4. pose proof (at_le _ _ Htokens s0 s2 H0 ltac:(now_ok)) as Hle. destruct Hv as (vals & M & Hv).
  specialize (Hle ltac:(cursors)).
  assert (Hv' : valued s0 s4).
  { eapply (valued_add s0 s3 s4 (EnumValueFact i i' v r)); [done| |exact M4|].
    - exists vals. split; [eapply moved_kept; [exact M|keep]|]. eapply Forall_impl; [exact Hv|].
      intros v' Hv'. eapply value_between_more; [exact Hv'|]. apply (at_le _ _ Htokens); [done|now_ok|cursors].
    - split; [done|]. split; [done|]. cbn. rewrite (current_same tokens _ _ C4). destruct Hr as [Hr|[Hr1 Hr2]]; [by left|right; lia]. }
  assert (Hlater : ∀ s5, kept s4 s5 → valued s0 s5).
  { intros s5 K5. destruct Hv' as (vals' & M' & Hv'). exists vals'. split; [by eapply moved_kept|].
    eapply Forall_impl; [exact Hv'|]. intros v' Hv''. eapply value_between_more; [exact Hv''|].
    apply (at_le _ _ Htokens); [now_ok|now_ok|by eapply kept_cursor]. }
  steps; (apply HQ; [now_ok|apply Hlater; keep|cursors|intros; cursors]).
Qed.

Lemma wp_enumerators s (Q : unit → parser → Prop) : state_ok s → (∀ s', state_ok s' → valued s s' → Q tt s') →
  wp (forever tokens (enumerator_turn source_text tokens memory) None) s Q.
Proof.
  intros Hs HQ. apply (wp_forever source_text tokens) with (I := λ _ s1, state_ok s1 ∧ valued s s1).
  - intros u s1 [H1 _]. by eapply ok_cursor.
  - intros previous s1 [H1 Hv]. apply (wp_enumerator_turn _ s); [done..|]. intros [z|[]] s2 H2 Hv2 C2 Hz; [|by apply HQ].
    split; [by eapply Hz|done].
  - split; [done|]. exists []. split; [exact (kept_moved _ _ _ _ (kept_refl _ _ _ Hs))|constructor].
Qed.

(** ** The enumeration *)

Lemma wp_declare_enum scope s (Q : N → parser → Prop) : state_ok s →
  (∀ identity s', kept s s' → cursor s' = cursor s → names IdentitySpace.type_kind identity → Q identity s') →
  wp (declare_enum source_text tokens memory scope) s Q.
Proof.
  intros Hs HQ. assert (Hin : inside_text (here tokens s)) by inside. unfold declare_enum. do 5 step.
  apply (wp_resolve source_text tokens memory); [done|done|]. intros identity s1 K1 C1 Hi. steps.
  apply (wp_bind_type source_text tokens); [now_ok|done|]. intros s3 K3 C3. steps. apply HQ; [keep|congruence|done].
Qed.

Lemma wp_update_enum f e ref mods vals s0 s (Q : unit → parser → Prop) : moved s0 s (enum_facts e ref mods vals) →
  (∀ s', moved s0 s' (enum_facts (f e) ref mods vals) → cursor s' = cursor s → Q tt s') →
  wp (update_enum (size (enums (candidate s0))) f) s Q.
Proof.
  intros M HQ. unfold update_enum. eapply (wp_revise source_text tokens (λ c, with_enums (alter f _ (enums c)) c));
    [exact M| | | |exact HQ]; [|done..].
  unfold append. cbn. unfold size. by rewrite Nat2N.id, alter_middle.
Qed.

Lemma wp_set_enum_entry declaration e kind index old mods vals s0 s (Q : unit → parser → Prop) :
  moved s0 s (enum_facts e (DeclarationRef index kind old) mods vals) →
  (∀ s', moved s0 s' (enum_facts e (DeclarationRef index kind declaration) mods vals) → cursor s' = cursor s → Q tt s') →
  wp (set_declaration (size (declarations (candidate s0))) declaration) s Q.
Proof.
  intros M HQ. unfold set_declaration. eapply (wp_revise source_text tokens (λ c, with_declarations (alter _ _ (declarations c)) c));
    [exact M| | | |exact HQ]; [|done..].
  unfold append. cbn. unfold size. by rewrite Nat2N.id, alter_middle.
Qed.

Definition fresh_enum identity : source_enum_fact :=
  EnumFact identity (FactRange 0 0) no_span no_span intrinsic_none kind_declaration false.
Definition enum_entry c : source_declaration_ref := DeclarationRef (size (enums c)) declares_enum no_span.

(** The underlying type: its modifiers are those of an alias. *)
Definition underlying_ok c (underlying : N) (mods : list source_type_modifier) : Prop :=
  (underlying = 0 ∨ integral underlying) ∧ Forall modifier_ok mods ∧
  (alias_modifiers c = [] → mods = []) ∧ (underlying = intrinsic_none → mods = []).

Lemma wp_parse_underlying scope s (Q : N * source_span → parser → Prop) : state_ok s →
  (∀ underlying r mods s', moved s s' (body_facts [] mods [] []) → underlying_ok (candidate s) underlying mods → Q (underlying, r) s') →
  wp (parse_underlying environment source_text tokens memory scope) s Q.
Proof.
  intros Hs HQ. unfold parse_underlying. step. eapply wp_advance; [done..|]. intros s1 K1 _. do 3 step.
  apply (wp_parse_type_base source_text tokens memory Htokens environment Henvironment); [now_ok|].
  intros base s2 K2 C2 [Hr He Hm] Hcopied. step.
  apply (wp_append_modifiers source_text tokens); [now_ok|done|]. intros s3 M3 C3. step.
  - apply wp_fail; [done|]. destruct He as [He1 He2]. pose proof (at_inside _ _ Htokens s2 ltac:(now_ok)).
    rewrite (span_from_inside _ _ Htokens) by lia. unfold ParserRules.inside_text. cbn. lia.
  - step. eapply HQ; [moves|]. apply orb_false_iff in B as [_ B]. unfold integral_intrinsic in B.
    apply negb_false_iff, andb_true_iff in B as [B1 B2]. rewrite N.leb_le in B1, B2. unfold underlying_ok, integral, intrinsic_none.
    unfold copied in Hcopied. rewrite (kept_candidate _ _ _ _ K1) in Hcopied. split_and!; [right; lia|done|done|lia].
Qed.

(** What a declaration of an enumeration that ends with the token of [s] adds. *)
Lemma enum_declares e mods vals s0 s s' s'' : state_ok s0 → state_ok s → state_ok s' → (cursor s < cursor s')%nat →
  cursor s'' = cursor s' → (cursor s0 <= cursor s)%nat →
  declaration_ends source_text tokens s0 s (enum_declaration e) → names IdentitySpace.type_kind (enum_identity e) →
  underlying_ok (candidate s0) (enum_explicit_underlying e) mods →
  (enum_declared e = kind_declaration ∧ enum_enumerators e = FactRange 0 0 ∧ vals = [] ∨
   enum_declared e = kind_definition ∧ enum_enumerators e = FactRange (size (enum_values (candidate s0))) (size vals) ∧
     Forall (enum_value_ok (candidate s0) e) vals) →
  moved s0 s'' (enum_facts e (DeclarationRef (size (enums (candidate s0))) declares_enum (enum_declaration e)) mods vals) →
  declares s0 s''.
Proof.
  intros H0 H H' C C'' C0 Hd Hi (Hu & Hm & Hcopied & Hplain) Hk M.
  destruct (declaration_from source_text tokens Htokens (candidate s0) s0 s s' (enum_declaration e)) as [Hin (Hl & Ha & Hb)];
    [by eapply ok_source|done..|]. rewrite <-(current_same tokens _ _ C'') in Hb.
  assert (Ho : offset (enum_declaration e) = at_ s0) by by rewrite (de_span _ _ _ _ _ Hd).
  eexists. split_and!; [exact M| |split; cbn; lia].
  apply chunk_enum; [|exact Hk]. split; done.
Qed.

Lemma wp_finish_enum_declaration identity underlying underlying_span scoped mods s0 s (Q : unit → parser → Prop) : state_ok s0 →
  moved s0 s (enum_facts (fresh_enum identity) (enum_entry (candidate s0)) mods []) →
  names IdentitySpace.type_kind identity → underlying_ok (candidate s0) underlying mods →
  (cursor s0 < cursor s)%nat → token_kind (current s) ≠ eof →
  (∀ s', declares s0 s' → (cursor s0 < cursor s')%nat → Q tt s') →
  wp (finish_enum_declaration tokens memory (at_ s0) underlying underlying_span scoped (size (enums (candidate s0)))
    (size (declarations (candidate s0)))) s Q.
Proof.
  intros H0 M Hi Hu C Hk HQ. unfold finish_enum_declaration. steps.
  pose proof (declared_ends _ _ Htokens s0 s H0 ltac:(now_ok) ltac:(lia) Hk) as Hd.
  set (declaration := span_from _ _) in *.
  apply (wp_update_enum _ _ _ _ _ s0 _ _ M). intros s1 M1 C1. step.
  apply (wp_set_enum_entry _ _ _ _ _ _ _ s0 _ _ M1). intros s2 M2 C2.
  eapply wp_advance; [done|now_ok|]. intros s3 K3 C3. rewrite (current_same tokens s s2 ltac:(congruence)) in C3. specialize (C3 Hk).
  apply HQ; [|cursors].
  refine (enum_declares (EnumFact identity (FactRange 0 0) declaration underlying_span underlying kind_declaration scoped)
    mods [] s0 s s3 s3 H0 _ _ _ _ _ _ _ _ _ _); try done; try now_ok; try cursors.
  - by left.
  - eapply moved_kept; [exact M2|exact K3].
Qed.

Lemma wp_parse_enum_body identity underlying underlying_span scoped mods s0 s (Q : unit → parser → Prop) : state_ok s0 →
  moved s0 s (enum_facts (fresh_enum identity) (enum_entry (candidate s0)) mods []) →
  names IdentitySpace.type_kind identity → underlying_ok (candidate s0) underlying mods →
  (cursor s0 < cursor s)%nat → token_kind (current s) ≠ eof →
  (∀ s', declares s0 s' → (cursor s0 < cursor s')%nat → Q tt s') →
  wp (parse_enum_body source_text tokens memory (at_ s0) underlying underlying_span scoped (size (enums (candidate s0)))
    (size (declarations (candidate s0)))) s Q.
Proof.
  intros H0 M Hi Hu C Hk HQ. unfold parse_enum_body. do 3 step. eapply wp_advance; [done|now_ok|]. intros s' K C'. specialize (C' Hk). step. apply wp_enumerators; [now_ok|].
  intros s1 H1 (vals & M1 & Hv).
  assert (M2 : moved s0 s1 (enum_facts (fresh_enum identity) (enum_entry (candidate s0)) mods vals)).
  { eapply moved_trans in M1; [|eapply moved_kept; [exact M|exact K]]. unfold append, enum_facts, values_facts in M1.
    cbn in M1. rewrite !app_nil_r in M1. exact M1. }
  rewrite (moved_candidate _ _ _ _ _ M). cbn. rewrite app_nil_r. steps.
  apply wp_fact_range. intros _ _. step.
  assert (M3 : moved s0 s3 (enum_facts (fresh_enum identity) (enum_entry (candidate s0)) mods vals)).
  { eapply moved_kept; [exact M2|]. keep. }
  rewrite <-(kept_candidate _ _ _ _ K1), (moved_candidate _ _ _ _ _ M3). cbn [enum_values append enum_facts]. rewrite size_behind.
  pose proof (declared_ends _ _ Htokens s0 s2 H0 ltac:(now_ok) ltac:(cursors) ltac:(not_eof)) as Hd.
  set (declaration := span_from _ _) in *. clearbody declaration.
  apply (wp_update_enum _ _ _ _ _ s0 _ _ M3). intros s4 M4 C4.
  apply (wp_set_enum_entry _ _ _ _ _ _ _ s0 _ _ M4). intros s5 M5 C5. apply HQ; [|cursors].
  refine (enum_declares (EnumFact identity (FactRange (size (enum_values (candidate s0))) (size vals)) declaration
    underlying_span underlying kind_definition scoped) mods vals s0 s2 s3 s5 H0 _ _ _ _ _ _ _ _ _ _);
    try done; try now_ok; try cursors.
  right. split; [done|]. split; [done|]. eapply Forall_impl; [exact Hv|]. intros v (Hn & Hint & Hr). split; [done|]. split; [|done].
  unfold optional_within, within, source_size. destruct Hr as [Hr|[Hr1 Hr2]]; [by left|right]. cbn.
  rewrite (ok_source _ _ _ H0), (de_span _ _ _ _ _ Hd). cbn.
  pose proof (at_inside _ _ Htokens s1 H1). pose proof (at_le _ _ Htokens s0 s' H0 ltac:(now_ok) ltac:(cursors)).
  pose proof (at_le _ _ Htokens s1 s2 H1 ltac:(now_ok) ltac:(cursors)). pose proof (de_last _ _ _ _ _ Hd). pose proof (de_first _ _ _ _ _ Hd). lia.
Qed.

Lemma wp_parse_enum scope s (Q : unit → parser → Prop) : state_ok s → counted s → token_kind (current s) ≠ eof →
  (∀ s', declares s s' → (cursor s < cursor s')%nat → Q tt s') →
  wp (parse_enum environment source_text tokens memory scope) s Q.
Proof.
  intros Hs Hc Hk HQ. unfold parse_enum. do 3 step. eapply wp_advance; [done..|]. intros s1 K1 C1. specialize (C1 Hk). do 3 step.
  eapply wp_maybe_advance; [done|now_ok|]. intros s2 K2. do 3 step. apply wp_declare_enum; [now_ok|].
  intros identity s3 K3 C3 Hi. do 3 step. assert (Ks : kept s s3) by keep. rewrite (kept_candidate _ _ _ _ Ks).
  assert (w32 (size (enums (candidate s))) = size (enums (candidate s))) as ->
    by exact (counted_index _ _ Htokens _ _ Hs (few_enums _ _ Hc)).
  set (scoped := _ || _).
  apply (wp_push source_text tokens _ _ (SourceFacts 0 [] [] [] [] [] [fresh_enum identity] [] [] [] [] [] [] [] [] []));
    [now_ok|by rewrite (kept_candidate _ _ _ _ Ks); unfold append; cbn; rewrite !app_nil_r|constructor..|].
  intros s4 M4 C4. step. apply (wp_append_declaration source_text tokens); [now_ok|]. intros s5 M5 C5. step.
  assert (M : moved s s5 (enum_facts (fresh_enum identity) (enum_entry (candidate s)) [] [])).
  { eapply moved_trans in M5; [|eapply kept_then_moved; [exact Ks|exact M4]]. exact M5. }
  eapply wp_advance; [done|now_ok|]. intros s6 K6 C6.
  rewrite (current_same tokens s2 s5 ltac:(congruence)) in C6. specialize (C6 ltac:(not_eof)). do 3 step.
  eapply (wp_mono source_text _ _ (λ r s7, (cursor s6 <= cursor s7)%nat ∧ ∃ mods, underlying_ok (candidate s) r.1 mods ∧
    moved s s7 (enum_facts (fresh_enum identity) (enum_entry (candidate s)) mods []))).
  - step.
    + apply wp_parse_underlying; [now_ok|]. intros underlying r mods s7 M7 Hu. split; [cursors|]. exists mods. split.
      * destruct Hu as (Hu1 & Hu2 & Hu3 & Hu4). split; [done|]. split; [done|]. split; [|done]. intros Ha. apply Hu3.
        rewrite (kept_candidate _ _ _ _ K6), (moved_candidate _ _ _ _ _ M). cbn. by rewrite Ha.
      * eapply moved_trans in M7; [|eapply moved_kept; [exact M|exact K6]]. exact M7.
    + step. split; [done|]. exists []. split; [|by eapply moved_kept]. split; [by left|]. split_and!; [constructor|done|done].
  - intros [underlying r] s7 (C7 & mods & Hu & M7). cbn in Hu. step. step.
    assert (C8 : (cursor s < cursor s7)%nat) by cursors. step.
    + eapply (wp_finish_enum_declaration identity underlying r scoped mods); try done. not_eof.
    + step. step. eapply (wp_parse_enum_body identity underlying r scoped mods); try done. not_eof.
Qed.
End enums.

End ParserEnums.
