(* ===== verification/ParserObjects.v ===== *)
(** * Objects, links and aliases

    The rules of the methods that parse the declarations of objects, functions outside a record,
    links, [using] and [typedef]. *)

From stdpp Require Import sorting.
From S2P Require Import Prelude Lexer IdentitySpace Construction SourceFacts SourceFactsTheorems SourceEnvironment.
From S2P Require Import ParserState ParserTypes SourceParser ParserRules ParserScans ParserChunks ParserMoves ParserMembers ParserConstruction ParserRecords.

Local Open Scope N_scope.

Module ParserObjects.

Import Lexer SourceFacts SourceFactsTheorems SourceEnvironment ParserState ParserTypes SourceParser.
Import ParserRules ParserScans ParserChunks ParserMoves ParserMembers ParserConstruction ParserRecords.

#[local] Existing Instance IdentitySpace.identity_kind_eq_dec.

(** ** The entries of the facts of one declaration *)

Section refs.
Context {A : Type} (kind : N) (span_of : A → source_span).

Fixpoint refs_of (n : nat) (items : list A) : list source_declaration_ref :=
  match items with
  | [] => []
  | x :: items' => DeclarationRef (N.of_nat n) kind (span_of x) :: refs_of (Datatypes.S n) items'
  end.

Lemma refs_of_snoc n l x : refs_of n (l ++ [x]) = refs_of n l ++ [DeclarationRef (N.of_nat (n + length l)) kind (span_of x)].
Proof.
  revert n. induction l as [|y l IH]; intros n; cbn; [by rewrite Nat.add_0_r|]. rewrite IH. do 4 f_equal. lia.
Qed.

Lemma refs_of_length n l : length (refs_of n l) = length l.
Proof. revert n. induction l as [|y l IH]; intros n; cbn; [done|]. by rewrite IH. Qed.

Lemma listed_from_cons n x l : listed_from n span_of (x :: l) = (N.of_nat n, span_of x) :: listed_from (Datatypes.S n) span_of l.
Proof.
  unfold listed_from. cbn. rewrite Nat.add_0_r. f_equal. apply imap_ext. intros i y _. cbn. do 2 f_equal. lia.
Qed.

Lemma refs_of_entries n l : entries kind (refs_of n l) = listed_from n span_of l.
Proof.
  unfold entries. revert n. induction l as [|x l IH]; intros n; [done|]. rewrite listed_from_cons, <-IH.
  cbn [refs_of]. rewrite filter_cons_True by done. done.
Qed.

Lemma refs_of_other other n l : other ≠ kind → entries other (refs_of n l) = [].
Proof.
  intros Hk. unfold entries. revert n. induction l as [|x l IH]; intros n; [done|].
  cbn [refs_of]. rewrite filter_cons_False; [done|]. cbn. congruence.
Qed.

Lemma refs_of_code n l : kind <= 5 → Forall (λ e, declaration_code e <= 5) (refs_of n l).
Proof. intros Hk. revert n. induction l; intros n; constructor; done. Qed.

Lemma refs_of_runs n l lo hi start : Forall (λ x, offset (span_of x) = start) l → lo <= start < hi →
  runs declaration_span lo hi (refs_of n l).
Proof.
  intros Hl Hs. apply runs_const with start; [|done]. revert n. induction Hl; intros n; constructor; done.
Qed.
End refs.

(** ** The facts of objects *)

Definition object_facts objs mods n : source_facts :=
  SourceFacts 0 [] [] [] [] mods [] [] (refs_of declares_object object_declaration n objs) objs [] [] [] [] [] [].

(** The objects of one declaration, which starts at [start] and goes on to [hi]. *)
Record objects_of (c : source_facts) (start hi : N) (objs : list source_object_fact) (mods : list source_type_modifier) : Prop := ObjectsOf {
  oo_objects : Forall (λ o, object_ok c o ∧ offset (object_declaration o) = start ∧ spans_from start hi (object_declaration o)) objs;
  oo_modifiers : Forall modifier_ok mods;
  oo_tiling : tiling (size (modifiers c)) ((λ o, ref_modifiers (object_type_ref o)) <$> objs) (size (modifiers c ++ mods)) }.

Lemma objects_of_nothing c start hi : objects_of c start hi [] [].
Proof. split; cbn; rewrite ?app_nil_r; [constructor..|apply tiling_nil]. Qed.

Lemma objects_of_snoc c start hi hi' objs mods o mods' : objects_of c start hi objs mods → hi <= hi' →
  object_ok c o → offset (object_declaration o) = start → spans_from start hi' (object_declaration o) →
  Forall modifier_ok mods' →
  ref_modifiers (object_type_ref o) = FactRange (size (modifiers c ++ mods)) (size mods') →
  objects_of c start hi' (objs ++ [o]) (mods ++ mods').
Proof.
  intros [Ho Hm Ht] Hh Hok Hstart Hsp Hm' Hr. split.
  - apply Forall_app. split; [|by apply Forall_singleton]. eapply Forall_impl; [exact Ho|]. cbn.
    intros x (? & ? & ?). split_and!; [done..|by eapply spans_from_widen].
  - by apply Forall_app.
  - rewrite fmap_app. eapply tiling_app; [exact Ht|]. cbn. rewrite Hr, app_assoc. split; cbn; [done|].
    unfold size. rewrite (length_app (modifiers c ++ mods)). lia.
Qed.

Lemma modifier_ranges_objects d : members d = [] →
  modifier_ranges d = (λ o, ref_modifiers (object_type_ref o)) <$> objects d.
Proof.
  intros Ho. unfold modifier_ranges. rewrite Ho. cbn [fmap list_fmap]. rewrite list_merge_nil_l.
  by rewrite <-list_fmap_compose.
Qed.

Lemma chunk_objects c start hi objs mods : objects_of c start hi objs mods → start < hi →
  chunk c start hi (object_facts objs mods (length (objects c))).
Proof.
  intros [Ho Hm Ht] Hlt.
  assert (Hoff : Forall (λ o, offset (object_declaration o) = start) objs) by (eapply Forall_impl; [exact Ho|]; cbn; tauto).
  split; blank.
  - eapply Forall_impl; [exact Ho|]. cbn. tauto.
  - apply runs_const with start; [done|lia].
  - intros _. rewrite modifier_ranges_objects by done. exact Ht.
  - apply refs_of_runs with start; [done|lia].
  - by rewrite refs_of_other.
  - by rewrite refs_of_other.
  - by rewrite refs_of_other.
  - by rewrite refs_of_entries.
  - by rewrite refs_of_other.
  - by rewrite refs_of_other.
  - by apply refs_of_code.
Qed.

Section objects.
Context {S : Type} `{!Semantic S} `{!SemanticLaws S}.
Context (environment : environment_view) (Henvironment : EnvironmentLaws environment).
Context (source_text : list N) (tokens : list parser_token) (memory : nat → bool).
Context (Htokens : tokens_of source_text tokens).
Local Notation parser := (parser S).
Local Notation state_ok := (state_ok source_text tokens).
Local Notation kept := (kept source_text tokens).
Local Notation moved := (moved source_text tokens).
Local Notation inside_text := (inside_text source_text).
Local Notation wp := (wp source_text).
Local Notation current := (current tokens).
Local Notation declares := (declares source_text tokens).
Implicit Types s : parser.
Local Notation at_ s := (token_offset (current s)).

(** What a declaration of objects that starts at [s0] has added. *)
Definition objected s0 s : Prop :=
  ∃ objs mods, moved s0 s (object_facts objs mods (length (objects (candidate s0)))) ∧
    objects_of (candidate s0) (at_ s0) (at_ s) objs mods ∧ (cursor s0 + length objs <= cursor s)%nat.

Lemma objected_nothing s : state_ok s → objected s s.
Proof.
  intros Hs. exists [], []. split_and!; [exact (kept_moved _ _ _ _ (kept_refl _ _ _ Hs))|apply objects_of_nothing|cbn; lia].
Qed.

Lemma objected_kept s0 s s' : objected s0 s → kept s s' → objected s0 s'.
Proof.
  intros (objs & mods & M & [Ho Hm Ht] & Hl) K. exists objs, mods. pose proof (kept_cursor _ _ _ _ K).
  split_and!; [by eapply moved_kept| |lia]. split; [|done|done]. eapply Forall_impl; [exact Ho|]. cbn.
  intros o (? & ? & ?). split_and!; [done..|]. eapply spans_from_widen; [done|lia|].
  apply (at_le _ _ Htokens); [by eapply moved_ok|by eapply kept_ok|done].
Qed.

Lemma objected_declares s0 s : state_ok s0 → objected s0 s → at_ s0 < at_ s → declares s0 s.
Proof.
  intros H0 (objs & mods & M & Ho & Hl) Hlt. eexists. split_and!; [exact M|by apply chunk_objects|].
  split; cbn; rewrite ?refs_of_length; lia.
Qed.

(** The object of one declarator, from the declarations before it. *)
Lemma push_object_moved s0 s s5 s6 s7 objs mods l o ref : moved s0 s (object_facts objs mods (length (objects (candidate s0)))) →
  moved s s5 (body_facts [] l [] []) →
  moved s5 s6 (SourceFacts 0 [] [] [] [] [] [] [] [] [o] [] [] [] [] [] []) → moved s6 s7 (entry_facts ref) →
  ref = DeclarationRef (N.of_nat (length (objects (candidate s0)) + length objs)) declares_object (object_declaration o) →
  moved s0 s7 (object_facts (objs ++ [o]) (mods ++ l) (length (objects (candidate s0)))).
Proof.
  intros M M5 M6 M7 ->. eapply moved_trans in M5; [|exact M]. eapply moved_trans in M6; [|exact M5].
  eapply moved_trans in M7; [|exact M6]. unfold object_facts. rewrite refs_of_snoc.
  unfold append, object_facts, body_facts, entry_facts in M7. cbn in M7. rewrite !app_nil_r in M7. exact M7.
Qed.

Lemma object_facts_index s0 s objs mods s5 l : state_ok s0 → counted s0 →
  moved s0 s (object_facts objs mods (length (objects (candidate s0)))) → moved s s5 (body_facts [] l [] []) →
  (cursor s0 + length objs <= cursor s5)%nat →
  w32 (size (objects (candidate s5))) = N.of_nat (length (objects (candidate s0)) + length objs).
Proof.
  intros H0 Hc M M5 Hl.
  rewrite (moved_candidate _ _ _ _ _ M5), (moved_candidate _ _ _ _ _ M). cbn. rewrite app_nil_r. unfold size. rewrite length_app.
  apply (counted_index source_text tokens Htokens _ s5); [by eapply moved_ok|]. pose proof (few_objects _ _ Hc). lia.
Qed.

Lemma declared_object_type type range spelling : resolved_base (base_semantic type) (base_intrinsic type) →
  let t := declared_type type range spelling in
  ((names IdentitySpace.type_kind (ref_identity t) ∧ ref_intrinsic t = 0) ∨ (ref_identity t = 0 ∧ ref_intrinsic t ≠ 0)) ∧
  ref_modifiers t = range.
Proof.
  intros H. destruct (declared_resolved type range spelling H) as ([Hr|[Hz Hr]] & Hm & _); (split; [|done]); [by left|right].
  split; [done|]. unfold intrinsic_code in Hr. lia.
Qed.

Lemma construction_flags_range text : construction_flags text <= 1.
Proof. unfold construction_flags. case_bool_decide; lia. Qed.

(** From the initializer on. *)
Lemma wp_push_object type name_span identity initializer (comma : bool) (shared : N * N) s0 s s4 s5 objs mods l
    (Q : (bool * option (N * N)) + unit → parser → Prop) :
  state_ok s0 → counted s0 → state_ok s → moved s0 s (object_facts objs mods (length (objects (candidate s0)))) →
  objects_of (candidate s0) (at_ s0) (at_ s) objs mods → (cursor s0 + length objs < cursor s)%nat →
  resolved_base (base_semantic type) (base_intrinsic type) → at_ s0 < base_end type <= at_ s →
  names IdentitySpace.object_kind identity → inside_text name_span → state_ok s4 → (cursor s <= cursor s4)%nat → at_ s <= at_ s4 →
  moved s s5 (body_facts [] l [] []) → Forall modifier_ok l → token_kind (current s5) ≠ eof →
  initializer_spans tokens s4 s5 initializer →
  (∀ r s', objected s0 s' → (cursor s < cursor s')%nat → (∀ st, r = inl st → declarator_state st) → Q r s') →
  wp (initial ← text_at source_text initializer;
      push memory (λ c, with_objects (objects c ++ [ObjectFact identity (declared_type type
        (FactRange (size (modifiers (candidate s))) (size (modifiers (candidate s5)) - size (modifiers (candidate s))))
        (span_from (at_ s0) (base_end type))) (span_from (at_ s0) (end_of (current s5))) initializer
        (construction_flags initial)]) c);;
      append_declaration memory declares_object (w32 (size (objects (candidate s5)))) (span_from (at_ s0) (end_of (current s5)));;
      bind_object memory identity (if negb (base_semantic type =? 0) && (count (FactRange (size (modifiers (candidate s)))
          (size (modifiers (candidate s5)) - size (modifiers (candidate s)))) =? 0) then base_semantic type else 0)
        name_span "object name conflicts within scope";;
      advance tokens;; mret (if comma then inl (false, Some shared) else inr tt)) s5 Q.
Proof.
  intros H0 Hc Hs M Ho Hl Hr He Hi Hname H4 C4 A4 M5 Hlm Hk Hini HQ.
  pose proof (declared_ends _ _ Htokens s0 s5 H0 ltac:(now_ok) ltac:(cursors) Hk) as Hd.
  rewrite (object_facts_index s0 s objs mods s5 l) by (done || cursors).
  assert (Hsrc : SourceFacts.source_text (candidate s0) = source_text) by by eapply ok_source.
  pose proof (at_le _ _ Htokens s0 s H0 Hs ltac:(cursors)) as H0s.
  destruct (initializer_within source_text tokens (candidate s0) s0 s4 s5 initializer _ Hsrc Hd ltac:(lia) Hini) as [Hin Hopt].
  set (declaration := span_from (at_ s0) (end_of (current s5))) in *.
  step. apply wp_text_at; [done|]. intros initial. step.
  set (range := FactRange _ _) in *. set (o := ObjectFact _ _ _ _ _).
  apply (wp_push source_text tokens memory _ (SourceFacts 0 [] [] [] [] [] [] [] [] [o] [] [] [] [] [] []));
    [now_ok|by unfold append; cbn; rewrite !app_nil_r|constructor..|]. intros s6 M6 C6. step.
  apply (wp_append_declaration source_text tokens memory); [now_ok|]. intros s7 M7 C7. step.
  apply (wp_bind_object source_text tokens memory); [now_ok|done|]. intros s8 K8 C8. step.
  eapply wp_advance; [done|now_ok|]. intros s9 K9 C9. rewrite (current_same tokens s5 s8 ltac:(congruence)) in C9. specialize (C9 Hk). step.
  pose proof (push_object_moved _ _ _ _ _ _ _ _ _ _ M M5 M6 M7 eq_refl) as M8.
  destruct (declaration_from source_text tokens Htokens (candidate s0) s0 s5 s9 declaration) as [Hint Hsp];
    [done|now_ok|now_ok|cursors|done|].
  destruct (declared_object_type type range (span_from (at_ s0) (base_end type)) Hr) as [Htype Hrange].
  apply HQ; [|cursors|intros st; destruct comma; [intros [= <-]; right; eauto|done]].
  exists (objs ++ [o]), (mods ++ l). split_and!; [eapply moved_kept; [exact M8|keep]| |rewrite length_app; cbn; cursors].
  apply objects_of_snoc with (at_ s); try done.
  - apply (at_le _ _ Htokens); [done|now_ok|cursors].
  - split; [apply construction_flags_range|]. done.
  - change (ref_modifiers (declared_type type range (span_from (at_ s0) (base_end type))) = FactRange (size (modifiers (candidate s0) ++ mods)) (size l)).
    rewrite Hrange. unfold range. rewrite (moved_candidate _ _ _ _ _ M5), (moved_candidate _ _ _ _ _ M). cbn [modifiers append object_facts body_facts].
    by rewrite size_behind.
Qed.

Lemma wp_parse_data_object type name_span identity first spilled s0 s' s (Q : (bool * option (N * N)) + unit → parser → Prop) :
  state_ok s0 → counted s0 → objected s0 s' → kept s' s → (cursor s' < cursor s)%nat →
  resolved_base (base_semantic type) (base_intrinsic type) → at_ s0 < base_end type <= at_ s → Forall modifier_ok (base_modifiers type) →
  names IdentitySpace.object_kind identity → inside_text name_span → declarator_state (first, spilled) →
  (∀ r s', objected s0 s' → (cursor s < cursor s')%nat → (∀ st, r = inl st → declarator_state st) → Q r s') →
  wp (parse_data_object source_text tokens memory (at_ s0) type name_span identity first spilled) s Q.
Proof.
  intros H0 Hc Hobj K C Hr He Hm Hi Hname Hst HQ. destruct (objected_kept _ _ _ Hobj K) as (objs & mods & M & Ho & _).
  assert (Hl : (cursor s0 + length objs < cursor s)%nat).
  { destruct Hobj as (objs' & mods' & M' & _ & Hl). pose proof (moved_candidate _ _ _ _ _ M) as E.
    rewrite (kept_candidate _ _ _ _ K), (moved_candidate _ _ _ _ _ M') in E. apply (f_equal objects) in E. cbn in E.
    apply app_inv_head in E. subst. lia. }
  unfold parse_data_object. step. apply (wp_spilled source_text tokens memory first); [now_ok|done..|].
  intros shared s1 Hs1 Hsp. step. apply (wp_copied source_text tokens memory s first shared); [done..|]. intros l s2 M2 C2 Hlm. step.
  apply (wp_parse_array_suffix source_text tokens memory Htokens); [now_ok|]. intros bounds s3 K3 Hb. step.
  apply (wp_append_modifiers source_text tokens); [now_ok|done|]. intros s4 M4 C4. step.
  apply (wp_declarator_initializer source_text tokens memory Htokens); [now_ok|]. intros comma initializer s5 K5 Hk5 Hini. steps.
  apply wp_fact_range. intros _ _.
  assert (M5 : moved s s5 (body_facts [] (l ++ bounds) [] [])).
  { eapply moved_trans in M4; [|eapply moved_kept; [exact M2|exact K3]]. flatten M4. eapply moved_kept; done. }
  assert (Hmods : modifiers (candidate s5) = modifiers (candidate s) ++ (l ++ bounds)) by (rewrite (moved_candidate _ _ _ _ _ M5); done).
  apply (wp_push_object type name_span identity initializer comma shared s0 s s4 s5 objs mods (l ++ bounds)); try done.
  - now_ok.
  - now_ok.
  - cursors.
  - apply (at_le _ _ Htokens); [now_ok..|cursors].
  - by apply Forall_app.
Qed.
Lemma wp_object_name scope s (Q : bool * source_span * N → parser → Prop) : state_ok s →
  (∀ b r i s', kept s s' → (cursor s < cursor s')%nat → inside_text r → (b = false → names IdentitySpace.object_kind i) →
    Q (b, r, i) s') → wp (object_name source_text tokens memory scope) s Q.
Proof.
  intros Hs HQ. assert (Hin : inside_text (here tokens s)) by inside. unfold object_name. do 5 step.
  - steps. apply (wp_operator source_text tokens memory Htokens); [now_ok|]. intros s1 K1. steps.
    apply HQ; [keep|cursors|inside|done].
  - step. apply (wp_resolve source_text tokens memory); [done|done|]. intros identity s1 K1 C1 Hi. step.
    eapply wp_advance; [done|now_ok|]. intros s2 K2 C2. rewrite (current_same tokens s s1 C1) in C2. specialize (C2 ltac:(not_eof)).
    step. apply HQ; [keep|cursors|done|done].
Qed.

Lemma wp_object_turn scope type st s0 s (Q : (bool * option (N * N)) + unit → parser → Prop) :
  state_ok s0 → counted s0 → objected s0 s →
  resolved_base (base_semantic type) (base_intrinsic type) → at_ s0 < base_end type <= at_ s → Forall modifier_ok (base_modifiers type) →
  declarator_state st →
  (∀ r s', objected s0 s' → (cursor s < cursor s')%nat → (∀ st, r = inl st → declarator_state st) → Q r s') →
  wp (object_turn environment source_text tokens memory scope (at_ s0) type st) s Q.
Proof.
  intros H0 Hc Hobj Hr He Hm Hst HQ. assert (Hs : state_ok s) by (destruct Hobj as (? & ? & M & _); now_ok).
  unfold object_turn. destruct st as [first spilled]. step. apply wp_object_name; [done|]. intros is_operator r i s1 K1 C1 Hin Hi.
  do 3 step. step.
  - apply (wp_parse_parameter_list source_text tokens memory Htokens environment Henvironment); [now_ok|]. intros s2 K2 _. step.
    apply (wp_parse_method_trailer source_text tokens memory Htokens); [now_ok|]. intros t s3 K3. step.
    apply HQ; [eapply objected_kept; [exact Hobj|keep]|cursors|done].
  - apply orb_false_iff in B as [-> _].
    apply (wp_parse_data_object type r i first spilled s0 s s1); try done.
    + pose proof (at_le _ _ Htokens s s1 Hs ltac:(now_ok) ltac:(lia)). lia.
    + auto.
    + intros r' s' Ho C' Hr'. apply HQ; [done|lia|done].
Qed.

Lemma wp_parse_object scope s (Q : unit → parser → Prop) : state_ok s → counted s → token_kind (current s) ≠ eof →
  (∀ s', declares s s' → (cursor s < cursor s')%nat → Q tt s') →
  wp (parse_object environment source_text tokens memory scope) s Q.
Proof.
  intros Hs Hc Hk HQ. unfold parse_object. do 3 step. step; [steps|]. do 2 step.
  apply (wp_parse_type source_text tokens memory Htokens environment Henvironment); [now_ok|]. intros type s1 K1 C1 [Hr He Hm].
  apply (wp_forever source_text tokens) with (I := λ st s2, objected s s2 ∧ declarator_state st ∧ (cursor s < cursor s2)%nat ∧ at_ s1 <= at_ s2).
  - intros st s2 [(? & ? & M & _) _]. eapply ok_cursor, (moved_ok _ _ _ _ _ M).
  - intros st s2 (Hobj & Hst & C2 & A2). eapply wp_object_turn; try done; [split; [apply He|destruct He; lia]|].
    intros r s3 Hobj3 C3 Hr3. assert (Hs2 : state_ok s2) by (destruct Hobj as (? & ? & M & _); now_ok).
    assert (Hs3 : state_ok s3) by (destruct Hobj3 as (? & ? & M & _); now_ok).
    destruct r as [st'|[]].
    + split; [done|]. split_and!; [done|by apply Hr3|lia|].
      pose proof (at_le _ _ Htokens s2 s3 Hs2 Hs3 ltac:(lia)). lia.
    + apply HQ; [|lia]. apply objected_declares; [done..|]. by apply (at_lt _ _ Htokens); [..|lia|].
  - split_and!; [|by left|lia|done]. eapply objected_kept; [by apply objected_nothing|done].
Qed.

(** ** Links *)

Lemma wp_visible_object name scope offset s (Q : source_interface_object → parser → Prop) : state_ok s →
  (∀ o, (found_identity o ≠ 0 → names IdentitySpace.object_kind (found_identity o)) → Q o s) →
  wp (if negb (name =? 0) then lookup_visible_object environment scope name offset else mret no_object) s Q.
Proof.
  intros Hs HQ. step; [|by apply wp_ret, HQ]. by apply (wp_lookup_visible_object source_text tokens environment Henvironment).
Qed.

Lemma wp_parse_endpoint scope lookup_offset s (Q : source_object_endpoint_fact → parser → Prop) : state_ok s →
  (∀ e s', kept s s' → (cursor s < cursor s')%nat → endpoint_ok e → Q e s') →
  wp (parse_endpoint environment source_text tokens memory scope lookup_offset) s Q.
Proof.
  intros Hs HQ. unfold parse_endpoint. do 7 step. apply wp_visible_object; [done|]. intros object Ho. step; [steps|].
  apply N.eqb_neq in B0. step; [steps|]. do 13 step.
  assert (Hmember : ∀ name (R : N → parser → Prop), (∀ i, R i s1) → wp (if negb (name =? 0) then
    lookup_visible_member environment (found_named_type object) name lookup_offset else mret invalid_index) s1 R).
  { intros name R HR. step; [|by apply wp_ret, HR]. unfold lookup_visible_member. apply wp_read, HR. }
  apply Hmember. intros i1. clear Hmember. step; [steps|]. apply N.eqb_neq in B4. steps. apply HQ; [keep|cursors|].
  split; [by apply Ho|]. exact B4.
Qed.

Definition link_facts l ref : source_facts := SourceFacts 0 [] [] [] [] [] [] [] [ref] [] [l] [] [] [] [] [].

Lemma chunk_link c lo hi l : link_ok c l → lo = offset (link_declaration l) → lo < hi →
  chunk c lo hi (link_facts l (DeclarationRef (size (links c)) declares_link (link_declaration l))).
Proof.
  intros Hl Hlo Hlt. split; blank.
  - by apply Forall_singleton.
  - apply runs_one. lia.
  - apply runs_one. cbn. lia.
  - unfold listed_from. cbn. unfold size. by rewrite Nat.add_0_r.
  - by apply Forall_singleton.
Qed.

Lemma wp_parse_link scope s (Q : unit → parser → Prop) : state_ok s → counted s →
  (∀ s', declares s s' → (cursor s < cursor s')%nat → Q tt s') →
  wp (parse_link environment source_text tokens memory scope) s Q.
Proof.
  intros Hs Hc HQ. unfold parse_link. do 3 step. apply wp_parse_endpoint; [done|]. intros target s1 K1 C1 Ht.
  do 4 step. step. apply wp_parse_endpoint; [now_ok|]. intros from s2 K2 C2 Hf. do 6 step. step.
  assert (Ks : kept s s3) by keep. assert (Ks2 : kept s s2) by keep. rewrite (kept_candidate _ _ _ _ Ks2).
  assert (w32 (size (links (candidate s))) = size (links (candidate s))) as ->
    by exact (counted_index _ _ Htokens _ _ Hs (few_links _ _ Hc)).
  pose proof (declared_ends _ _ Htokens s s2 Hs ltac:(now_ok) ltac:(cursors) ltac:(not_eof)) as Hd.
  set (declaration := span_from _ _) in *. set (l := LinkFact from target declaration).
  apply (wp_push source_text tokens memory _ (SourceFacts 0 [] [] [] [] [] [] [] [] [] [l] [] [] [] [] []));
    [now_ok|unfold append; cbn; by rewrite !app_nil_r|constructor..|]. intros s4 M4 C4.
  apply (wp_append_declaration source_text tokens memory); [now_ok|]. intros s5 M5 C5. apply HQ; [|cursors].
  destruct (declaration_from source_text tokens Htokens (candidate s) s s2 s3 declaration) as [Hin (Hl & Ha & Hb)];
    [by eapply ok_source|now_ok|now_ok|cursors|done|].
  rewrite <-(current_same tokens s3 s5 ltac:(congruence)) in Hb.
  exists (link_facts l (DeclarationRef (size (links (candidate s))) declares_link declaration)). split_and!.
  - eapply moved_trans in M5; [|eapply kept_then_moved; [exact Ks|exact M4]]. exact M5.
  - apply chunk_link; [done| |].
    + change (at_ s = offset declaration). by rewrite (de_span _ _ _ _ _ Hd).
    + assert (offset declaration = at_ s) by by rewrite (de_span _ _ _ _ _ Hd). lia.
  - split; cbn; cursors.
Qed.

(** ** Aliases *)

Definition alias_facts als amods n : source_facts :=
  SourceFacts 0 [] [] [] [] [] [] [] (refs_of declares_alias alias_declaration n als) [] [] [] als amods [] [].

(** The aliases of one declaration, which starts at [start] and goes on to [hi]. *)
Record aliases_of (c : source_facts) (start hi : N) (als : list source_alias_fact) (amods : list source_type_modifier) : Prop := AliasesOf {
  ao_aliases : Forall (λ a, alias_ok c a ∧ offset (alias_declaration a) = start ∧ spans_from start hi (alias_declaration a)) als;
  ao_tiling : tiling (size (alias_modifiers c)) (alias_range <$> als) (size (alias_modifiers c ++ amods)) }.

Lemma aliases_of_nothing c start hi : aliases_of c start hi [] [].
Proof. split; cbn; rewrite ?app_nil_r; [constructor|apply tiling_nil]. Qed.

Lemma aliases_of_snoc c start hi hi' als amods a l : aliases_of c start hi als amods → hi <= hi' →
  alias_ok c a → offset (alias_declaration a) = start → spans_from start hi' (alias_declaration a) →
  alias_range a = FactRange (size (alias_modifiers c ++ amods)) (size l) →
  aliases_of c start hi' (als ++ [a]) (amods ++ l).
Proof.
  intros [Ho Ht] Hh Hok Hstart Hsp Hr. split.
  - apply Forall_app. split; [|by apply Forall_singleton]. eapply Forall_impl; [exact Ho|]. cbn.
    intros x (? & ? & ?). split_and!; [done..|by eapply spans_from_widen].
  - rewrite fmap_app. eapply tiling_app; [exact Ht|]. cbn. rewrite Hr, app_assoc. split; cbn; [done|].
    unfold size. rewrite (length_app (alias_modifiers c ++ amods)). lia.
Qed.

Lemma chunk_aliases c start hi als amods : aliases_of c start hi als amods → start < hi →
  chunk c start hi (alias_facts als amods (length (aliases c))).
Proof.
  intros [Ho Ht] Hlt.
  assert (Hoff : Forall (λ a, offset (alias_declaration a) = start) als) by (eapply Forall_impl; [exact Ho|]; cbn; tauto).
  split; blank.
  - eapply Forall_impl; [exact Ho|]. cbn. tauto.
  - apply runs_const with start; [done|lia].
  - apply refs_of_runs with start; [done|lia].
  - by rewrite refs_of_other.
  - by rewrite refs_of_other.
  - by rewrite refs_of_other.
  - by rewrite refs_of_other.
  - by rewrite refs_of_other.
  - by rewrite refs_of_entries.
  - by apply refs_of_code.
Qed.

Lemma wp_append_alias_modifiers l s (Q : unit → parser → Prop) : state_ok s → Forall modifier_ok l →
  (∀ n s', moved s s' (alias_facts [] l n) → cursor s' = cursor s → Q tt s') → wp (append_alias_modifiers l) s Q.
Proof.
  intros Hs Hm HQ. apply (wp_add source_text tokens (λ c, with_alias_modifiers (alias_modifiers c ++ l) c) (alias_facts [] l 0));
    [done| |done|constructor|by apply HQ].
  unfold append, alias_facts. cbn. by rewrite !app_nil_r.
Qed.

Lemma wp_parse_alias_target scope offset s (Q : type_base → parser → Prop) : state_ok s →
  (∀ base s', moved s s' (alias_facts [] (base_modifiers base) 0) → (cursor s < cursor s')%nat →
    resolved_base (base_semantic base) (base_intrinsic base) → Q base s') →
  wp (parse_alias_target environment source_text tokens memory scope offset) s Q.
Proof.
  intros Hs HQ. unfold parse_alias_target. step.
  apply (wp_parse_type source_text tokens memory Htokens environment Henvironment); [done|]. intros base s1 K1 C1 [Hr _ Hm].
  step. apply wp_append_alias_modifiers; [now_ok|done|]. intros n s2 M2 C2. step. apply HQ; [moves|cursors|done].
Qed.

Lemma wp_declare_alias scope name s (Q : N * N → parser → Prop) : state_ok s →
  (∀ d s', kept s s' → cursor s' = cursor s → names IdentitySpace.type_kind d.2 → Q d s') →
  wp (declare_alias tokens memory scope name) s Q.
Proof.
  intros Hs HQ. unfold declare_alias. steps. apply (wp_resolve source_text tokens memory); [now_ok| |].
  - intros s' _ H'. by apply here_inside.
  - intros i1 s2 K2 C2 Hi. steps. apply HQ; [keep|congruence|done].
Qed.

(** The alias of one declarator, from the aliases before it. *)
Lemma wp_record_alias scope declared type l declaration s0 s als amods (Q : unit → parser → Prop) :
  state_ok s0 → counted s0 → moved s0 s (alias_facts als (amods ++ l) (length (aliases (candidate s0)))) →
  (cursor s0 + length als <= cursor s)%nat → resolved_base (base_semantic type) (base_intrinsic type) →
  let range := FactRange (size (alias_modifiers (candidate s0) ++ amods)) (size l) in
  (∀ s', moved s0 s' (alias_facts (als ++ [AliasFact declared.2 (SourceTypeRef (base_semantic type) (base_intrinsic type) range no_span) declaration])
    (amods ++ l) (length (aliases (candidate s0)))) → cursor s' = cursor s → Q tt s') →
  wp (record_alias memory scope declared type range declaration) s Q.
Proof.
  intros H0 Hc M Hl Hr range HQ. unfold record_alias. do 3 step. set (a := AliasFact _ _ _).
  apply (wp_push source_text tokens memory _ (SourceFacts 0 [] [] [] [] [] [] [] [] [] [] [] [a] [] [] []));
    [now_ok|unfold append; cbn; by rewrite !app_nil_r|constructor..|]. intros s1 M1 C1. step.
  assert (w32 (size (aliases (candidate s))) = N.of_nat (length (aliases (candidate s0)) + length als)) as ->.
  { rewrite (moved_candidate _ _ _ _ _ M). cbn. unfold size. rewrite length_app.
    apply (counted_index source_text tokens Htokens _ s); [now_ok|]. pose proof (few_aliases _ _ Hc). lia. }
  apply (wp_append_declaration source_text tokens memory); [now_ok|]. intros s2 M2 C2. do 2 step.
  apply wp_update; [done|].
  assert (M3 : moved s0 s2 (alias_facts (als ++ [a]) (amods ++ l) (length (aliases (candidate s0))))).
  { eapply moved_trans in M1; [|exact M]. eapply moved_trans in M2; [|exact M1]. unfold alias_facts. rewrite refs_of_snoc.
    unfold append, alias_facts, entry_facts in M2. cbn in M2. rewrite !app_nil_r in M2. exact M2. }
  assert (K4 : kept s2 (set_local_aliases (local_aliases s3 ++ [AliasEntry scope declared.1 (base_semantic type)
    (base_intrinsic type) range]) s3)).
  { eapply kept_trans; [exact K|]. pose proof (kept_ok _ _ _ _ K) as H3. constructor; [done..|]. destruct H3. constructor; try done.
    apply Forall_app. split; [done|]. by apply Forall_singleton. }
  apply HQ; [by eapply moved_kept|]. cbn. congruence.
Qed.

(** What a declaration of aliases that starts at [s0] has added, and the modifiers the next one takes. *)
Definition aliased s0 (pending : list source_type_modifier) s : Prop :=
  ∃ als amods, moved s0 s (alias_facts als (amods ++ pending) (length (aliases (candidate s0)))) ∧
    aliases_of (candidate s0) (at_ s0) (at_ s) als amods ∧ (cursor s0 + length als <= cursor s)%nat.

Lemma aliased_kept s0 l s s' : aliased s0 l s → kept s s' → aliased s0 l s'.
Proof.
  intros (als & amods & M & [Ho Ht] & Hl) K. exists als, amods. pose proof (kept_cursor _ _ _ _ K).
  split_and!; [by eapply moved_kept| |lia]. split; [|done]. eapply Forall_impl; [exact Ho|]. cbn.
  intros o (? & ? & ?). split_and!; [done..|]. eapply spans_from_widen; [done|lia|].
  apply (at_le _ _ Htokens); [by eapply moved_ok|by eapply kept_ok|done].
Qed.

Lemma aliased_ok s0 l s : aliased s0 l s → state_ok s ∧ (cursor s0 <= cursor s)%nat.
Proof. intros (als & amods & [] & _). done. Qed.

Lemma aliased_more s0 l k s s' n : aliased s0 l s → moved s s' (alias_facts [] k n) → aliased s0 (l ++ k) s'.
Proof.
  intros (als & amods & M & [Ho Ht] & Hl) M'. exists als, amods. pose proof (moved_cursor _ _ _ _ _ M').
  split_and!; [| |lia].
  - eapply moved_trans in M'; [|exact M]. unfold append, alias_facts in M'. cbn in M'. rewrite !app_nil_r, <-app_assoc in M'. exact M'.
  - split; [|done]. eapply Forall_impl; [exact Ho|]. cbn.
    intros o (? & ? & ?). split_and!; [done..|]. eapply spans_from_widen; [done|lia|].
    apply (at_le _ _ Htokens); [by eapply moved_ok|by eapply moved_ok|done].
Qed.

Lemma aliased_start s : state_ok s → aliased s [] s.
Proof.
  intros Hs. exists [], []. split_and!; [exact (kept_moved _ _ _ _ (kept_refl _ _ _ Hs))|apply aliases_of_nothing|cbn; lia].
Qed.

Lemma aliased_declares s0 s : state_ok s0 → aliased s0 [] s → at_ s0 < at_ s → declares s0 s.
Proof.
  intros H0 (als & amods & M & Ho & Hl) Hlt. rewrite app_nil_r in M. eexists. split_and!; [exact M|by apply chunk_aliases|].
  split; cbn; rewrite ?refs_of_length; lia.
Qed.

Lemma aliased_count s0 l s : aliased s0 l s →
  (cursor s0 + length (aliases (candidate s)) <= cursor s + length (aliases (candidate s0)))%nat.
Proof. intros (als & amods & M & _ & Hl). rewrite (moved_candidate _ _ _ _ _ M). cbn. rewrite length_app. lia. Qed.

(** An alias that takes the pending modifiers, with the token of [s1] as its last. *)
Lemma wp_record_aliased scope declared type l s0 s1 s begin (Q : unit → parser → Prop) : state_ok s0 → counted s0 →
  aliased s0 l s → (cursor s0 + length (aliases (candidate s)) < cursor s + length (aliases (candidate s0)))%nat →
  names IdentitySpace.type_kind declared.2 → resolved_base (base_semantic type) (base_intrinsic type) →
  state_ok s1 → (cursor s0 <= cursor s1)%nat → token_kind (current s1) ≠ eof →
  size (alias_modifiers (candidate s)) - begin = size l → begin + size l = size (alias_modifiers (candidate s)) →
  (∀ s', state_ok s' → cursor s' = cursor s →
    (∀ s'', kept s' s'' → (cursor s1 < cursor s'')%nat → aliased s0 [] s'') → Q tt s') →
  wp (record_alias memory scope declared type (FactRange begin (size (alias_modifiers (candidate s)) - begin))
    (span_from (at_ s0) (end_of (current s1)))) s Q.
Proof.
  intros H0 Hc (als & amods & M & Ha & _) Hcount Hi Hr H1 C1 Hk Hsz Hb HQ.
  pose proof (moved_candidate _ _ _ _ _ M) as Hcand.
  rewrite Hcand in Hcount. cbn in Hcount. rewrite length_app in Hcount.
  assert (begin = size (alias_modifiers (candidate s0) ++ amods)) as ->.
  { rewrite Hcand in Hb. cbn in Hb. unfold size in *. rewrite !length_app in *. lia. }
  rewrite Hsz.
  pose proof (declared_ends _ _ Htokens s0 s1 H0 H1 C1 Hk) as Hd. set (declaration := span_from _ _) in *.
  apply (wp_record_alias scope declared type l declaration s0 s als amods); [done..|lia|done|].
  intros s2 M2 C2. apply HQ; [now_ok|done|]. intros s3 K3 C3.
  destruct (declaration_from source_text tokens Htokens (candidate s0) s0 s1 s3 declaration) as [Hin Hsp];
    [by eapply ok_source|done|now_ok|done|done|].
  eexists _, _. split_and!; [eapply moved_kept; [|exact K3]; rewrite app_nil_r; exact M2| |rewrite length_app; cbn; cursors].
  apply aliases_of_snoc with (at_ s); try done.
  - apply (at_le _ _ Htokens); [now_ok|now_ok|cursors].
Qed.
Lemma wp_parse_using scope s (Q : unit → parser → Prop) : state_ok s → counted s → token_kind (current s) ≠ eof →
  (∀ s', declares s s' → (cursor s < cursor s')%nat → Q tt s') →
  wp (parse_using environment source_text tokens memory scope) s Q.
Proof.
  intros Hs Hc Hk HQ. unfold parse_using. do 3 step. eapply wp_advance; [done..|]. intros s1 K1 C1. specialize (C1 Hk). do 12 step.
  step. apply wp_parse_alias_target; [now_ok|]. intros type s3 M3 C3 Hr. step.
  apply (wp_parse_array_suffix source_text tokens memory Htokens); [now_ok|]. intros bounds s4 K4 Hb. step.
  apply wp_append_alias_modifiers; [now_ok|done|]. intros n s5 M5 C5. do 6 step. step.
  apply wp_declare_alias; [now_ok|]. intros declared s7 K7 C7 Hi. do 3 step. apply wp_fact_range. intros _ _.
  assert (Ha : aliased s (base_modifiers type ++ bounds) s5).
  { eapply aliased_more; [|exact M5]. eapply aliased_kept; [|exact K4]. refine (aliased_more _ [] _ _ _ _ _ M3).
    eapply aliased_kept; [by apply aliased_start|keep]. }
  assert (Hm : alias_modifiers (candidate s7) = alias_modifiers (candidate s2) ++ (base_modifiers type ++ bounds)).
  { rewrite (kept_candidate _ _ _ _ K7), (kept_candidate _ _ _ _ K2), (moved_candidate _ _ _ _ _ M5), (kept_candidate _ _ _ _ K4),
      (moved_candidate _ _ _ _ _ M3). cbn. by rewrite app_assoc. }
  apply (wp_record_aliased scope declared type (base_modifiers type ++ bounds) s s5); try done; try now_ok.
  - eapply aliased_kept; [exact Ha|keep].
  - pose proof (aliased_count _ _ _ Ha) as Hcount. rewrite (kept_candidate _ _ _ _ K7), (kept_candidate _ _ _ _ K2). cursors.
  - cursors.
  - not_eof.
  - rewrite Hm. apply size_behind.
  - rewrite Hm. unfold size. rewrite !length_app. lia.
  - intros s8 H8 C8 Hlast. apply HQ; [|cursors]. apply aliased_declares; [done| |].
    + apply Hlast; [by apply kept_refl|cursors].
    + apply (at_lt _ _ Htokens); [done|done|cursors|done].
Qed.

(** The modifiers of the type before those of a declarator. *)
Lemma wp_copy_alias_modifiers first shared_end l s0 s (Q : N → parser → Prop) : state_ok s0 → aliased s0 l s →
  (first = false → l = []) →
  (first = true → candidate s = append (candidate s0) (alias_facts [] l (length (aliases (candidate s0))))) →
  (∀ begin k s', aliased s0 k s' → cursor s' = cursor s → begin + size k = size (alias_modifiers (candidate s')) →
    aliases (candidate s') = aliases (candidate s) → Q begin s') →
  wp (copy_alias_modifiers memory first (size (alias_modifiers (candidate s0)), shared_end)) s Q.
Proof.
  intros H0 Ha Hl Hfirst HQ. pose proof (aliased_ok _ _ _ Ha) as [Hs C0]. unfold copy_alias_modifiers. step.
  - step. apply (HQ _ l); [done..| |done]. rewrite Hfirst by done. cbn. unfold size. rewrite length_app. lia.
  - rewrite Hl in Ha by done. do 5 step. set (k := section _ _).
    apply (wp_append_alias_modifiers k).
    + now_ok.
    + apply Forall_take, Forall_drop. eapply ok_alias_modifiers. now_ok.
    + intros n s2 M2 C2. step. apply (HQ _ k); [|congruence| |].
      * refine (aliased_more _ [] _ _ _ _ _ M2). eapply aliased_kept; [exact Ha|exact K].
      * rewrite (moved_candidate _ _ _ _ _ M2). cbn. unfold size. rewrite length_app. lia.
      * rewrite (moved_candidate _ _ _ _ _ M2), (kept_candidate _ _ _ _ K). cbn. by rewrite app_nil_r.
Qed.

Lemma wp_typedef_turn scope type first shared_end l s0 s (Q : bool + unit → parser → Prop) : state_ok s0 → counted s0 → aliased s0 l s →
  (first = false → l = []) → resolved_base (base_semantic type) (base_intrinsic type) →
  (first = true → candidate s = append (candidate s0) (alias_facts [] l (length (aliases (candidate s0))))) →
  (∀ r s', aliased s0 [] s' → (cursor s < cursor s')%nat → (∀ b, r = inl b → b = false) → Q r s') →
  wp (typedef_turn source_text tokens memory scope (at_ s0) type (size (alias_modifiers (candidate s0)), shared_end) first) s Q.
Proof.
  intros H0 Hc Ha Hl Hr Hfirst HQ. pose proof (aliased_ok _ _ _ Ha) as [Hs C0]. unfold typedef_turn. do 7 step.
  apply (wp_copy_alias_modifiers _ _ l); [done|by eapply aliased_kept|done|by rewrite (kept_candidate _ _ _ _ K)|].
  intros begin k s2 Ha2 C2 Hb Hsame. pose proof (aliased_ok _ _ _ Ha2) as [H2 C02]. step.
  apply (wp_parse_array_suffix source_text tokens memory Htokens); [done|]. intros bounds s3 K3 Hbounds. step.
  apply wp_append_alias_modifiers; [now_ok|done|]. intros n s4 M4 C4. do 5 step.
  assert (Hk : token_kind (current s4) ≠ eof) by (apply orb_true_iff in B0 as [B0|B0]; not_eof).
  apply wp_fact_range. intros _ _. step. apply wp_declare_alias; [now_ok|]. intros declared s5 K5 C5 Hi. step.
  assert (Ha4 : aliased s0 (k ++ bounds) s4) by (eapply aliased_more; [eapply aliased_kept; [exact Ha2|exact K3]|exact M4]).
  assert (Hm : alias_modifiers (candidate s5) = alias_modifiers (candidate s2) ++ bounds).
  { rewrite (kept_candidate _ _ _ _ K5), (moved_candidate _ _ _ _ _ M4), (kept_candidate _ _ _ _ K3). done. }
  rewrite <-(kept_candidate _ _ _ _ K5).
  assert (Hsizes : begin + size (k ++ bounds) = size (alias_modifiers (candidate s5))).
  { rewrite Hm. unfold size in *. rewrite !length_app. lia. }
  apply (wp_record_aliased scope declared type (k ++ bounds) s0 s4); try done; try now_ok.
  - by eapply aliased_kept.
  - pose proof (aliased_count _ _ _ Ha) as Hcount. rewrite (kept_candidate _ _ _ _ K5), (moved_candidate _ _ _ _ _ M4), (kept_candidate _ _ _ _ K3).
    cbn. rewrite app_nil_r, Hsame, (kept_candidate _ _ _ _ K). cursors.
  - cursors.
  - lia.
  - intros s6 H6 C6 Hlast. step. eapply wp_advance; [done|done|]. intros s7 K7 C7.
    rewrite (current_same tokens s4 s6 ltac:(congruence)) in C7. specialize (C7 Hk). step.
    apply HQ; [apply Hlast; [done|cursors]|cursors|]. intros b. destruct (punctuation tokens comma s4); [by intros [= <-]|done].
Qed.

Lemma wp_parse_typedef scope s (Q : unit → parser → Prop) : state_ok s → counted s → token_kind (current s) ≠ eof →
  (∀ s', declares s s' → (cursor s < cursor s')%nat → Q tt s') →
  wp (parse_typedef environment source_text tokens memory scope) s Q.
Proof.
  intros Hs Hc Hk HQ. unfold parse_typedef. do 3 step. eapply wp_advance; [done..|]. intros s1 K1 C1. specialize (C1 Hk). step.
  apply wp_parse_alias_target; [now_ok|]. intros type s2 M2 C2 Hr. do 2 step.
  assert (M : moved s s2 (alias_facts [] (base_modifiers type) 0)) by moves.
  apply (wp_forever source_text tokens) with (I := λ first s3, (cursor s < cursor s3)%nat ∧ ∃ l, aliased s l s3 ∧ (first = false → l = []) ∧
    (first = true → candidate s3 = append (candidate s) (alias_facts [] l (length (aliases (candidate s)))))).
  - intros first s3 (_ & l & Ha & _). eapply ok_cursor, (proj1 (aliased_ok _ _ _ Ha)).
  - intros first s3 (C3 & l & Ha & Hl & Hfirst). pose proof (aliased_ok _ _ _ Ha) as [H3 _].
    apply (wp_typedef_turn _ _ _ _ l); [done..|]. intros r s4 Ha4 C4 Hb. pose proof (aliased_ok _ _ _ Ha4) as [H4 _].
    destruct r as [b|[]].
    + split; [done|]. split; [lia|]. exists []. rewrite (Hb b eq_refl). done.
    + apply HQ; [|lia]. apply aliased_declares; [done..|]. apply (at_lt _ _ Htokens); [done|done|lia|done].
  - split; [cursors|]. exists (base_modifiers type). split_and!; [|done|].
    + refine (aliased_more _ [] _ _ _ _ _ M). by apply aliased_start.
    + intros _. exact (moved_candidate _ _ _ _ _ M).
Qed.
End objects.

End ParserObjects.
