(* ===== verification/ParserScopes.v ===== *)
(** * Namespaces and scopes

    The rules of the methods that parse namespaces and scopes: a scope adds a piece of the packet
    for the text it has read, up to the closing brace or the end. *)

From S2P Require Import Prelude Lexer IdentitySpace Construction SourceFacts SourceFactsTheorems SourceEnvironment.
From S2P Require Import ParserState ParserTypes SourceParser ParserRules ParserScans ParserChunks ParserMoves ParserMembers ParserConstruction.
From S2P Require Import ParserRecords ParserEnums ParserObjects.

Local Open Scope N_scope.

Module ParserScopes.

Import Lexer SourceFacts SourceFactsTheorems SourceEnvironment ParserState ParserTypes SourceParser.
Import ParserRules ParserScans ParserChunks ParserMoves ParserMembers ParserConstruction ParserRecords ParserEnums ParserObjects.

#[local] Existing Instance IdentitySpace.identity_kind_eq_dec.

(** ** Pieces behind another packet *)

(** A piece does not look at the namespaces and the entries before it but for their number. *)
Lemma chunk_behind c ns ds lo hi d : length ns = length (namespaces c) → chunk c lo hi d →
  chunk (with_namespaces ns (with_declarations ds c)) lo hi d.
Proof.
  intros Hl [[] [] []]. split; [by split|by split|]. split; cbn -[entries listed_from]; [done| |done..].
  by rewrite Hl.
Qed.

Lemma chunk_widen c lo hi hi' d : chunk c lo hi d → hi <= hi' → chunk c lo hi' d.
Proof.
  intros [[] ? []] Hh. split; [split|done|split]; try done; by (eapply runs_widen; [done|lia|done]).
Qed.

(** ** The facts of a namespace declaration *)

Definition namespace_facts_of (declaration : source_span) (ids : list N) : list source_namespace_fact :=
  (λ i, NamespaceFact i declaration) <$> ids.

Definition level_facts declaration ids n : source_facts :=
  SourceFacts 0 [] (namespace_facts_of declaration ids) [] [] [] [] []
    (refs_of declares_namespace namespace_declaration n (namespace_facts_of declaration ids)) [] [] [] [] [] [] [].

Fixpoint levels_of (n m : nat) (ids : list N) : list (N * N) :=
  match ids with
  | [] => []
  | _ :: ids' => (N.of_nat n, N.of_nat m) :: levels_of (Datatypes.S n) (Datatypes.S m) ids'
  end.

Lemma levels_of_snoc n m ids i :
  levels_of n m (ids ++ [i]) = levels_of n m ids ++ [(N.of_nat (n + length ids), N.of_nat (m + length ids))].
Proof.
  revert n m. induction ids as [|j ids IH]; intros n m; cbn; [by rewrite !Nat.add_0_r|]. rewrite IH. do 3 f_equal; f_equal; lia.
Qed.

Lemma chunk_levels c start hi declaration ids : Forall (names IdentitySpace.namespace_scope) ids → in_text c declaration →
  offset declaration = start → start < hi → chunk c start hi (level_facts declaration ids (length (namespaces c))).
Proof.
  intros Hi Ht Ho Hlt.
  assert (Hoff : Forall (λ x, offset (namespace_declaration x) = start) (namespace_facts_of declaration ids)).
  { unfold namespace_facts_of. apply Forall_fmap. apply Forall_forall. intros i _. done. }
  split; blank.
  - unfold namespace_facts_of. apply Forall_fmap. eapply Forall_impl; [exact Hi|]. intros i Hn. done.
  - apply runs_const with start; [done|lia].
  - apply refs_of_runs with start; [done|lia].
  - by rewrite refs_of_entries.
  - by rewrite refs_of_other.
  - by rewrite refs_of_other.
  - by rewrite refs_of_other.
  - by rewrite refs_of_other.
  - by rewrite refs_of_other.
  - by apply refs_of_code.
Qed.

Section scopes.
Context {S : Type} `{!Semantic S} `{!SemanticLaws S}.
Context (environment : environment_view) (Henvironment : EnvironmentLaws environment).
Context (from_chars_double : list N → option N) (to_chars_double : N → list N).
Context (source_text : list N) (tokens : list parser_token) (memory : nat → bool).
Context (Htokens : tokens_of source_text tokens).
Local Notation parser := (parser S).
Local Notation state_ok := (state_ok source_text tokens).
Local Notation kept := (kept source_text tokens).
Local Notation moved := (moved source_text tokens).
Local Notation inside_text := (inside_text source_text).
Local Notation wp := (wp source_text).
Local Notation current := (current tokens).
Local Notation declares := (declares source_text tokens).
Implicit Types s : parser.
Local Notation at_ s := (token_offset (current s)).

(** The names so far, from [s0]: the facts are open. *)
Definition named s0 (levels : list (N * N)) s : Prop :=
  ∃ ids, moved s0 s (level_facts no_span ids (length (namespaces (candidate s0)))) ∧
    levels = levels_of (length (namespaces (candidate s0))) (length (declarations (candidate s0))) ids ∧
    Forall (names IdentitySpace.namespace_scope) ids ∧ (cursor s0 + length ids <= cursor s)%nat.

Lemma wp_namespace_turn levels scope s0 s (Q : (list (N * N) * N) + (list (N * N) * N) → parser → Prop) :
  state_ok s0 → counted s0 → named s0 levels s → token_kind (current s) ≠ eof → (cursor s0 < cursor s)%nat →
  (∀ r s', (cursor s < cursor s')%nat → named s0 (match r with inl st => st.1 | inr st => st.1 end) s' →
    (∀ st, r = inl st → token_kind (current s') ≠ eof) → Q r s') →
  wp (namespace_turn source_text tokens memory (levels, scope)) s Q.
Proof.
  intros H0 Hc (ids & M & El & Hids & Hl) Hk C0 HQ. unfold namespace_turn.
  assert (Hin : inside_text (here tokens s)) by inside. do 5 step.
  apply (wp_resolve source_text tokens memory); [now_ok|done|]. intros identity s1 K1 C1 Hi. step.
  eapply wp_advance; [done|now_ok|]. intros s2 K2 C2. rewrite (current_same tokens s s1 C1) in C2. specialize (C2 Hk).
  do 3 step. step; [steps|]. do 2 step. set (n := NamespaceFact identity no_span).
  assert (Ks : kept s s2) by keep. pose proof (kept_candidate _ _ _ _ Ks) as Ec. rewrite Ec, (moved_candidate _ _ _ _ _ M).
  cbn [namespaces declarations append level_facts]. unfold size. rewrite !length_app. unfold namespace_facts_of at 1. rewrite refs_of_length, length_fmap.
  pose proof (few_namespaces _ _ Hc). pose proof (few_declarations _ _ Hc).
  assert (Hidx : ∀ k, (k <= cursor s2)%nat → w32 (N.of_nat k) = N.of_nat k) by (intros k Hk'; by apply (counted_index source_text tokens Htokens _ s2); [now_ok|]).
  unfold namespace_facts_of. rewrite length_fmap, !Hidx by lia.
  apply (wp_push source_text tokens memory _ (SourceFacts 0 [] [n] [] [] [] [] [] [] [] [] [] [] [] [] []));
    [now_ok|unfold append; cbn; by rewrite !app_nil_r|constructor..|]. intros s3 M3 C3. step.
  apply (wp_append_declaration source_text tokens memory); [now_ok|]. intros s4 M4 C4.
  assert (Hnamed : ∀ s5, kept s4 s5 → (cursor s < cursor s5)%nat → named s0 (levels ++
    [(N.of_nat (length (namespaces (candidate s0)) + length ids), N.of_nat (length (declarations (candidate s0)) + length ids))]) s5).
  { intros s5 K5 C5. exists (ids ++ [identity]). split_and!.
    - eapply moved_trans in M3; [|eapply moved_kept; [exact M|exact Ks]]. eapply moved_trans in M4; [|exact M3].
      eapply moved_kept; [|exact K5]. unfold level_facts, namespace_facts_of. rewrite fmap_app. cbn [fmap list_fmap]. rewrite refs_of_snoc, length_fmap.
      unfold append, level_facts, namespace_facts_of, entry_facts in M4. cbn in M4. rewrite !app_nil_r in M4. exact M4.
    - by rewrite levels_of_snoc, El.
    - apply Forall_app. split; [done|]. by apply Forall_singleton.
    - rewrite length_app. cbn. lia. }
  steps; apply HQ; [cursors|apply Hnamed; [keep|cursors]|intros st _; not_eof|cursors|apply Hnamed; [keep|cursors]|done].
Qed.

Lemma wp_namespace_names scope s0 s (Q : list (N * N) * N → parser → Prop) : state_ok s0 → counted s0 → named s0 [] s →
  token_kind (current s) ≠ eof → (cursor s0 < cursor s)%nat →
  (∀ levels scope s', (cursor s < cursor s')%nat → named s0 levels s' → Q (levels, scope) s') →
  wp (forever tokens (namespace_turn source_text tokens memory) ([], scope)) s Q.
Proof.
  intros H0 Hc Hn Hk C0 HQ.
  apply (wp_forever source_text tokens) with (I := λ st s1, named s0 st.1 s1 ∧ token_kind (current s1) ≠ eof ∧ (cursor s <= cursor s1)%nat).
  - intros st s1 [(? & M & _) _]. eapply ok_cursor, (moved_ok _ _ _ _ _ M).
  - intros [levels sc] s1 (Hn1 & Hk1 & C1). apply (wp_namespace_turn _ _ s0); [done..|lia|].
    intros r s2 C2 Hn2 Hr. destruct r as [st|[levels' sc']].
    + split; [done|]. split_and!; [done|by eapply Hr|lia].
    + apply HQ; [lia|done].
  - done.
Qed.

(** The open facts are closed. *)
Lemma wp_close_levels declaration c0 npost dpost ids : ∀ npre dpre s (Q : unit → parser → Prop), state_ok s →
  candidate s = with_namespaces (npre ++ namespace_facts_of no_span ids ++ npost)
    (with_declarations (dpre ++ refs_of declares_namespace namespace_declaration (length npre) (namespace_facts_of no_span ids) ++ dpost) c0) →
  (∀ s', state_ok s' → cursor s' = cursor s →
    candidate s' = with_namespaces (npre ++ namespace_facts_of declaration ids ++ npost)
      (with_declarations (dpre ++ refs_of declares_namespace namespace_declaration (length npre) (namespace_facts_of declaration ids) ++ dpost) c0) →
    Q tt s') →
  wp (close_levels declaration (levels_of (length npre) (length dpre) ids)) s Q.
Proof.
  induction ids as [|i ids IH]; intros npre dpre s Q Hs Hc HQ; cbn [levels_of close_levels]; [step; by apply HQ|].
  step. unfold update_namespace.
  apply (wp_replace source_text tokens (λ c, with_namespaces (alter _ _ (namespaces c)) c)); [done..|by eapply ok_alias_modifiers|by eapply ok_modifiers|].
  intros s1 C1 Hc1 H1. step. unfold set_declaration.
  apply (wp_replace source_text tokens (λ c, with_declarations (alter _ _ (declarations c)) c)); [done..|by eapply ok_alias_modifiers|by eapply ok_modifiers|].
  intros s2 C2 Hc2 H2.
  replace (Datatypes.S (length npre)) with (length (npre ++ [NamespaceFact i declaration])) by (rewrite length_app; cbn; lia).
  replace (Datatypes.S (length dpre)) with (length (dpre ++ [DeclarationRef (N.of_nat (length npre)) declares_namespace declaration]))
    by (rewrite length_app; cbn; lia).
  apply IH; [done| |].
  - rewrite Hc2, Hc1, Hc. cbn -[app]. rewrite !Nat2N.id. cbn [app]. rewrite !alter_middle, length_app, <-!app_assoc, Nat.add_1_r. done.
  - intros s' Hs' C' Hc'. apply HQ; [done|congruence|]. rewrite Hc', length_app, <-!app_assoc, Nat.add_1_r. done.
Qed.
(** What a scope promises: one piece, up to a token that is not the end where it is to be closed. *)
Definition scope_rule (expect_close : bool) (body : N → parse S unit) : Prop :=
  ∀ scope s (Q : unit → parser → Prop), state_ok s → counted s →
    (∀ s', declares s s' → (expect_close = true → token_kind (current s') ≠ eof) → Q tt s') → wp (body scope) s Q.

(** The open names and the body behind them, from [s0], are one piece once the names are closed. *)
Lemma namespace_declares declaration ids d s0 s2 s3 s' : state_ok s0 → state_ok s2 → state_ok s3 → state_ok s' →
  (cursor s0 < cursor s2)%nat → (cursor s2 <= cursor s3)%nat → (cursor s3 < cursor s')%nat → token_kind (current s0) ≠ eof →
  (cursor s0 + length ids <= cursor s2)%nat → Forall (names IdentitySpace.namespace_scope) ids →
  declaration_ends source_text tokens s0 s3 declaration →
  chunk (append (candidate s0) (level_facts no_span ids (length (namespaces (candidate s0))))) (at_ s2) (at_ s3) d →
  few d (cursor s3 - cursor s2) →
  candidate s' = append (candidate s0) (append (level_facts declaration ids (length (namespaces (candidate s0)))) d) →
  declares s0 s'.
Proof.
  intros H0 H2 H3 H' C2 C3 C' Hk Hl Hids Hd Hchunk Hfew Hc.
  destruct (declaration_from source_text tokens Htokens (candidate s0) s0 s3 s' declaration) as [Hin _];
    [by eapply ok_source|done|done|lia|done|].
  pose proof (at_lt _ _ Htokens s0 s2 H0 H2 C2 Hk). pose proof (at_le _ _ Htokens s2 s3 H2 H3 C3).
  pose proof (at_le _ _ Htokens s3 s' H3 H' ltac:(lia)).
  eexists. split_and!; [constructor; [lia|exact Hc|done]| |].
  - eapply chunk_append; [|eapply chunk_widen; [|]| |].
    + apply chunk_levels; [done|done|by rewrite (de_span _ _ _ _ _ Hd)|done].
    + refine (chunk_behind (append (candidate s0) (level_facts no_span ids (length (namespaces (candidate s0))))) _ _ _ _ d _ Hchunk).
      cbn. rewrite !length_app. unfold namespace_facts_of. by rewrite !length_fmap.
    + done.
    + lia.
    + lia.
  - eapply few_more; [apply few_append; [|exact Hfew]|].
    + split; cbn; rewrite ?refs_of_length; unfold namespace_facts_of; rewrite ?length_fmap; try lia; apply le_n.
    + lia.
Qed.

Lemma wp_parse_namespace body parent s (Q : unit → parser → Prop) : scope_rule true body → state_ok s → counted s →
  token_kind (current s) ≠ eof → (∀ s', declares s s' → (cursor s < cursor s')%nat → Q tt s') →
  wp (parse_namespace source_text tokens memory body parent) s Q.
Proof.
  intros Hbody Hs Hc Hk HQ. unfold parse_namespace. do 3 step. eapply wp_advance; [done..|]. intros s1 K1 C1. specialize (C1 Hk). do 3 step.
  assert (Hn : named s [] s1).
  { exists []. split_and!; [by apply kept_moved|done|constructor|cbn; lia]. }
  apply (wp_namespace_names _ s); [done..|not_eof|lia|]. intros levels scope s2 C2 (ids & M2 & -> & Hids & Hl).
  do 4 step. step. apply Hbody; [now_ok| |].
  { unfold counted. rewrite (kept_candidate _ _ _ _ K), (moved_candidate _ _ _ _ _ M2).
    eapply few_more; [apply few_append; [exact Hc|]|].
    + instantiate (1 := length ids). split; cbn; rewrite ?refs_of_length; unfold namespace_facts_of; rewrite ?length_fmap; lia.
    + cursors. }
  intros s3 (d & M3 & Hchunk & Hfew) Hk3. specialize (Hk3 eq_refl). do 3 step.
  rewrite (kept_candidate _ _ _ _ K), (moved_candidate _ _ _ _ _ M2) in Hchunk.
  pose proof (declared_ends _ _ Htokens s s3 Hs ltac:(now_ok) ltac:(cursors) Hk3) as Hd. set (declaration := span_from _ _) in *.
  assert (Hc3 : candidate s3 = append (append (candidate s) (level_facts no_span ids (length (namespaces (candidate s))))) d).
  { by rewrite (moved_candidate _ _ _ _ _ M3), (kept_candidate _ _ _ _ K), (moved_candidate _ _ _ _ _ M2). }
  apply (wp_close_levels declaration (candidate s3) (namespaces d) (declarations d) ids); [now_ok| |].
  { rewrite Hc3. unfold append. cbn. by rewrite <-!app_assoc. }
  intros s4 H4 C4 Hc4. eapply wp_advance; [done|done|]. intros s5 K5 C5.
  rewrite (current_same tokens s3 s4 C4) in C5. specialize (C5 Hk3). apply HQ; [|cursors].
  apply (namespace_declares declaration ids d s s0 s3 s5); try done; try now_ok; try cursors.
  rewrite (kept_candidate _ _ _ _ K5), Hc4, Hc3. unfold append. cbn. by rewrite <-?app_assoc.
Qed.
(** ** Scopes *)

Lemma wp_scope_turn body scope expect_close s (Q : unit + unit → parser → Prop) : scope_rule true body → state_ok s → counted s →
  (∀ r s', declares s s' → match r with inl _ => (cursor s < cursor s')%nat
    | inr _ => s' = s ∧ (expect_close = true → token_kind (current s') ≠ eof) end → Q r s') →
  wp (scope_turn environment from_chars_double to_chars_double source_text tokens memory body scope expect_close tt) s Q.
Proof.
  intros Hbody Hs Hc HQ. unfold scope_turn. do 2 step.
  assert (Hself : declares s s) by (apply declares_kept, kept_refl; done).
  apply wp_if; intros Beof.
  { destruct expect_close; [|by apply wp_ret, (HQ (inr tt))]. apply wp_fail; [done|].
    pose proof (text_small _ _ Htokens). unfold ParserRules.inside_text. cbn. rewrite w32_small by done. lia. }
  assert (Hk : token_kind (current s) ≠ eof) by not_eof.
  assert (Hnext : ∀ m : parse S unit, (∀ R : unit → parser → Prop, (∀ s', declares s s' → (cursor s < cursor s')%nat → R tt s') → wp m s R) →
    wp (m;; mret (inl tt)) s Q).
  { intros m Hm. step. apply Hm. intros s' Hd Cd. step. by apply HQ. }
  step; [destruct expect_close; [by apply wp_ret, (HQ (inr tt))|apply wp_fail; [done|inside]]|].
  step; [apply Hnext; intros R HR; eapply wp_advance; [done..|]; intros s' K' C'; apply HR; [by apply declares_kept|specialize (C' Hk); lia]|].
  step; [apply Hnext; intros R HR; by apply wp_parse_namespace|].
  step; [apply Hnext; intros R HR; by apply (wp_parse_record environment Henvironment from_chars_double to_chars_double source_text tokens memory Htokens)|].
  step; [apply Hnext; intros R HR; by apply (wp_parse_enum environment Henvironment source_text tokens memory Htokens)|].
  step; [apply Hnext; intros R HR; by apply (wp_parse_typedef environment Henvironment source_text tokens memory Htokens)|].
  step; [apply Hnext; intros R HR; apply (wp_skip_static_assert source_text tokens memory Htokens); [done..|];
    intros s' K' C'; apply HR; [by apply declares_kept|done]|].
  step; [apply Hnext; intros R HR; by apply (wp_parse_using environment Henvironment source_text tokens memory Htokens)|].
  step; [apply Hnext; intros R HR; step;
    [by apply (wp_parse_link environment Henvironment source_text tokens memory Htokens)
    |by apply (wp_parse_object environment Henvironment source_text tokens memory Htokens)]|].
  step; apply wp_fail; [done|inside|done|inside].
Qed.

Lemma wp_parse_scope levels : ∀ expect_close depth, levels ≠ 0%nat → (130 <= levels + depth)%nat →
  scope_rule expect_close (λ scope,
    parse_scope environment from_chars_double to_chars_double source_text tokens memory levels scope expect_close depth).
Proof.
  induction levels as [|levels IH]; intros expect_close depth Hl Hd; [done|]. intros scope s Q Hs Hc HQ.
  cbn [parse_scope]. do 2 step. step; [steps|]. apply Nat.ltb_ge in B.
  apply (wp_forever source_text tokens) with (I := λ _ s1, declares s s1).
  - intros u s1 H1. eapply ok_cursor, (proj1 (declares_ok _ _ _ _ H1)).
  - intros [] s1 H1. pose proof (declares_ok _ _ _ _ H1) as [Hs1 C1]. apply wp_scope_turn.
    + apply (IH true); lia.
    + done.
    + by eapply declares_counted.
    + intros r s2 H2 Hr. pose proof (declares_trans source_text tokens Htokens _ _ _ Hs H1 H2) as H3.
      destruct r as [[]|[]]; [done|]. destruct Hr as [-> Hr]. by apply HQ.
  - apply declares_kept. by apply kept_refl.
Qed.
End scopes.

End ParserScopes.
