(* ===== verification/ParserTheorems.v ===== *)
(** * What a parse promises

    A parse of the tokens of a text always returns, and a failure reports at most one place of the
    text.  The packet it hands to the validation is accepted exactly where no forward declaration
    stands behind a definition that is not empty. *)

From S2P Require Import Prelude Lexer IdentitySpace Construction SourceFacts SourceFactsTheorems SourceEnvironment.
From S2P Require Import ParserState ParserTypes SourceParser ParserExamples ParserRules ParserScans ParserChunks ParserMoves ParserScopes.

Local Open Scope N_scope.

Module ParserTheorems.

Import Lexer SourceFacts SourceFactsTheorems SourceEnvironment ParserState ParserTypes SourceParser ParserExamples.
Import ParserRules ParserScans ParserChunks ParserMoves ParserScopes.

#[local] Existing Instance IdentitySpace.identity_kind_eq_dec.

(** ** Tokens of a lexed text *)

Lemma tokenizes_between off ls text toks : tokenizes off ls text toks → ∀ i t, toks !! i = Some t →
  off <= token_offset t ∧ token_offset t + token_length t <= off + size text ∧ (token_kind t ≠ eof → 0 < token_length t).
Proof.
  unfold size. induction 1 as [off ls|off ls g follow toks Hg _ IH|off ls k p w follow toks Hw _ IH]; intros i t Hi.
  - destruct i; simplify_eq/=. split_and!; [lia|lia|done].
  - destruct (IH i t Hi) as (? & ? & ?). rewrite length_app. split_and!; [lia|lia|done].
  - rewrite length_app. destruct i as [|i]; simplify_eq/=.
    + split_and!; [lia|lia|]. intros _. apply word_nonempty in Hw. destruct w; [done|]. cbn. lia.
    + destruct (IH i t Hi) as (? & ? & ?). split_and!; [lia|lia|done].
Qed.

Lemma tokenizes_ordered off ls text toks : tokenizes off ls text toks → ∀ i j t u, (i < j)%nat → toks !! i = Some t → toks !! j = Some u →
  token_offset t + token_length t <= token_offset u.
Proof.
  induction 1 as [off ls|off ls g follow toks Hg _ IH|off ls k p w follow toks Hw H IH]; intros i j t u Hij Hi Hj.
  - destruct i, j; simplify_eq/=; lia.
  - by apply (IH i j).
  - destruct j as [|j]; [lia|]. destruct i as [|i]; simplify_eq/=.
    + destruct (tokenizes_between _ _ _ _ H j u Hj) as (? & _ & _). lia.
    + apply (IH i j); [lia|done..].
Qed.

Lemma lexed_tokens_of tokens_fit directives_fit can_emit wanted text toks dirs :
  lex_source tokens_fit directives_fit can_emit wanted (Some text) = Some (ok, toks, dirs, []) → tokens_of text toks.
Proof.
  intros (Hlen & H & _)%lex_source_ok. destruct (tokenizes_last _ _ _ _ H) as [(body & t & -> & Ht) Hcount].
  split; unfold size, two32 in *.
  - lia.
  - lia.
  - exists t. by rewrite last_snoc.
  - intros i u Hu. destruct (tokenizes_between _ _ _ _ H i u Hu) as (_ & ? & _). unfold size in *. lia.
  - intros i u Hu. by destruct (tokenizes_between _ _ _ _ H i u Hu) as (_ & _ & ?).
  - intros i j u v. by apply (tokenizes_ordered _ _ _ _ H).
Qed.

(** ** Forward declarations *)

(** The declarations among the items, whose ranges are empty at 0, stand before any definition that
    has elements. *)
Section forward.
Context {A : Type} (range : A → source_fact_range) (defines : A → bool).

Definition forward_first (items : list A) : Prop :=
  ∀ pre x post, items = pre ++ x :: post → defines x = false → sumN count (range <$> pre) = 0.

Lemma forward_sum items : Forall (λ x, defines x = false → range x = FactRange 0 0) items →
  sumN count (range <$> items) = sumN count (range <$> filter defines items).
Proof.
  induction 1 as [|x items Hx H IH]; [done|]. cbn [fmap list_fmap sumN]. destruct (defines x) eqn:Hd.
  - rewrite filter_cons_True by by rewrite Hd. cbn. by rewrite IH.
  - rewrite filter_cons_False by (rewrite Hd; intros Hf; done). rewrite Hx by done. cbn. done.
Qed.

Lemma forward_tiles items : Forall (λ x, defines x = false → range x = FactRange 0 0) items → ∀ from,
  tiles from (range <$> filter defines items) →
  (tiles from (range <$> items) ↔
   ∀ pre x post, items = pre ++ x :: post → defines x = false → from + sumN count (range <$> pre) = 0).
Proof.
  induction 1 as [|x items Hx H IH]; intros from Ht.
  - split; [|done]. intros _ pre x post E. by destruct pre.
  - cbn [fmap list_fmap tiles]. destruct (defines x) eqn:Hd.
    + rewrite filter_cons_True in Ht by by rewrite Hd. cbn [fmap list_fmap tiles] in Ht. destruct Ht as [Hb Ht].
      rewrite (IH _ Ht). split.
      * intros [_ Hall] [|y pre] z post E Hz; simplify_eq/=; [congruence|]. rewrite <-(Hall pre z post eq_refl Hz). lia.
      * intros Hall. split; [done|]. intros pre z post -> Hz. rewrite <-(Hall (x :: pre) z post eq_refl Hz). cbn. lia.
    + rewrite filter_cons_False in Ht by (rewrite Hd; intros Hf; done). rewrite Hx by done. cbn [begin count]. rewrite N.add_0_r, (IH _ Ht). split.
      * intros [<- Hall] [|y pre] z post E Hz; simplify_eq/=; [done|]. rewrite Hx by done. cbn. by apply (Hall pre z post).
      * intros Hall. split; [|intros pre z post -> Hz].
        -- specialize (Hall [] x items eq_refl Hd). cbn in Hall. lia.
        -- rewrite <-(Hall (x :: pre) z post eq_refl Hz). cbn. rewrite Hx by done. cbn. lia.
Qed.

Lemma forward_partition items n : Forall (λ x, defines x = false → range x = FactRange 0 0) items →
  tiling 0 (range <$> filter defines items) n → (partition (range <$> items) n ↔ forward_first items).
Proof.
  intros Hf [Ht Hs]. unfold partition, forward_first. rewrite (forward_tiles _ Hf 0 Ht), (forward_sum _ Hf).
  split; [by intros [H _]|]. intros H. split; [exact H|lia].
Qed.
End forward.

(** No declaration of a record stands behind a definition with members, bases or methods, and none
    of an enumeration behind a definition with enumerators. *)
Record declarations_first (c : source_facts) : Prop := DeclarationsFirst {
  df_members : forward_first record_members is_definition (records c);
  df_bases : forward_first record_bases is_definition (records c);
  df_methods : forward_first record_methods is_definition (records c);
  df_values : forward_first enum_enumerators is_enum_definition (enums c) }.

Section whole.
Context (src : N) (text : list N) (lo hi : N) (d : source_facts).
Local Notation c := (append (empty_facts text src) d).
Context (Hchunk : chunk (empty_facts text src) lo hi d).

Lemma whole_forward_iff :
  (partition (record_members <$> records c) (size (members c)) ↔ forward_first record_members is_definition (records c)) ∧
  (partition (record_bases <$> records c) (size (bases c)) ↔ forward_first record_bases is_definition (records c)) ∧
  (partition (record_methods <$> records c) (size (methods c)) ↔ forward_first record_methods is_definition (records c)) ∧
  (partition (enum_enumerators <$> enums c) (size (enum_values c)) ↔ forward_first enum_enumerators is_enum_definition (enums c)).
Proof.
  destruct Hchunk as [_ [_ Hm Hb Hme Hf _ Hv Hef] _]. split_and!; apply forward_partition; try done.
  - eapply Forall_impl; [exact Hf|]. cbn. intros r Hr E. by destruct (Hr E) as (? & ? & ?).
  - eapply Forall_impl; [exact Hf|]. cbn. intros r Hr E. by destruct (Hr E) as (? & ? & ?).
  - eapply Forall_impl; [exact Hf|]. cbn. intros r Hr E. by destruct (Hr E) as (? & ? & ?).
Qed.

Lemma whole_declarations : declarations_ok c.
Proof.
  destruct Hchunk as [_ _ [[Ho _] Hn Hr He Hob Hl Ha Hk]]. split; try done.
  intros e He' Hcode. rewrite Forall_forall in Hk. specialize (Hk _ He'). lia.
Qed.

(** One piece is the whole packet. *)
Lemma whole_well_formed : src ≠ 0 → size text < two32 → plain c → size (method_modifiers c) < two32 →
  (well_formed c ↔ declarations_first c).
Proof.
  intros Hsrc Htext Hplain Hmm. destruct whole_forward_iff as (Hm & Hb & Hme & Hv).
  split; [intros []; split; [by apply Hm|by apply Hb|by apply Hme|by apply Hv]|]. intros [Dm Db Dme Dv].
  pose proof whole_declarations as Hdecl. destruct Hchunk as [Hst [How _ _ _ _ Hen _ _] _].
  split; try done.
  - exact (st_namespaces _ _ _ _ Hst).
  - exact (runs_ordered _ _ _ _ (st_namespace_runs _ _ _ _ Hst)).
  - eapply Forall_impl; [exact How|]. cbn. intros r Hr. specialize (Hr no_facts). by rewrite append_nothing in Hr.
  - exact (runs_ordered _ _ _ _ (st_record_runs _ _ _ _ Hst)).
  - by apply Hm.
  - by apply Hb.
  - by apply Hme.
  - exact (st_methods _ _ _ _ Hst).
  - exact (runs_ordered _ _ _ _ (st_method_runs _ _ _ _ Hst)).
  - by apply tiling_partition, (st_method_tiling _ _ _ _ Hst).
  - exact (st_bases _ _ _ _ Hst).
  - exact (st_members _ _ _ _ Hst).
  - exact (st_modifiers _ _ _ _ Hst).
  - eapply Forall_impl; [exact Hen|]. cbn. intros r Hr. specialize (Hr no_facts). by rewrite append_nothing in Hr.
  - exact (runs_ordered _ _ _ _ (st_enum_runs _ _ _ _ Hst)).
  - by apply Hv.
  - exact (st_objects _ _ _ _ Hst).
  - exact (runs_ordered _ _ _ _ (st_object_runs _ _ _ _ Hst)).
  - by apply tiling_partition, (st_modifier_tiling _ _ _ _ Hst).
  - exact (st_links _ _ _ _ Hst).
  - exact (runs_ordered _ _ _ _ (st_link_runs _ _ _ _ Hst)).
  - exact (st_aliases _ _ _ _ Hst).
  - exact (runs_ordered _ _ _ _ (st_alias_runs _ _ _ _ Hst)).
  - by apply tiling_partition, (st_alias_tiling _ _ _ _ Hst).
Qed.
End whole.
(** ** The parse *)

Section parse.
Context {S : Type} `{!Semantic S} `{!SemanticLaws S}.
Context (environment : environment_view) (Henvironment : EnvironmentLaws environment).
Context (from_chars_double : list N → option N) (to_chars_double : N → list N).
Context (source_text : list N) (tokens : list parser_token) (memory : nat → bool).
Context (Htokens : tokens_of source_text tokens).
Local Notation parser := (parser S).
Local Notation state_ok := (state_ok source_text tokens).
Local Notation kept := (kept source_text tokens).
Local Notation wp := (wp source_text).
Implicit Types s : parser.

Lemma initial_ok source x : services_ok x → state_ok (initial_parser source_text source x).
Proof.
  intros Hx. destruct (tokens_end _ _ Htokens) as (t & Ht & _).
  split; cbn; try done; [|constructor..]. destruct tokens; [done|cbn; lia].
Qed.

Lemma wp_create {T} `{Slot T} expected (set : index T → parser → parser) s (Q : unit → parser → Prop) : state_ok s →
  (∀ t s, (∀ P : T → Prop, entries_are P t) → state_ok s → emitted (set t s) = emitted s ∧ kept s (set t s) ∧ cursor (set t s) = cursor s) →
  (∀ s', kept s s' → cursor s' = cursor s → Q tt s') → wp (create memory expected set) s Q.
Proof.
  intros Hs Hset HQ. unfold create. step. apply (wp_try_allocate source_text tokens); [done|]. intros b s1 K1 C1 _.
  destruct (reserve b expected) as [t|] eqn:E; [|by apply wp_stop].
  unfold reserve in E. destruct (_ || _); [done|]. injection E as <-.
  destruct (Hset (Index (replicate (N.to_nat (capacity_for expected)) fresh_slot) 0) s1) as (He & K2 & C2).
  { intros P. apply all_fresh. }
  { now_ok. }
  apply wp_update; [done|]. apply HQ; [by eapply kept_trans|congruence].
Qed.

Lemma wp_parse_unit source x (Q : source_facts → parser → Prop) : services_ok x →
  (∀ c s' lo hi d, c = append (empty_facts source_text source) d → chunk (empty_facts source_text source) lo hi d → Q c s') →
  wp (parse_unit environment from_chars_double to_chars_double source_text tokens memory)
    (initial_parser source_text source x) Q.
Proof.
  intros Hx HQ. pose proof (initial_ok source x Hx) as H0. unfold parse_unit.
  step. apply wp_create; [done| |].
  { intros t s Ht Hs. split; [done|]. split; [|done]. constructor; [done..|]. by destruct Hs. }
  intros s1 K1 C1. step. apply wp_create; [now_ok| |].
  { intros t s Ht Hs. split; [done|]. split; [|done]. constructor; [done..|]. by destruct Hs. }
  intros s2 K2 C2. step. apply wp_create; [now_ok| |].
  { intros t s Ht Hs. split; [done|]. split; [|done]. constructor; [done..|]. by destruct Hs. }
  intros s3 K3 C3. step.
  assert (K : kept (initial_parser source_text source x) s3) by keep.
  assert (Hc3 : candidate s3 = empty_facts source_text source) by by rewrite (kept_candidate _ _ _ _ K).
  apply (wp_parse_scope environment Henvironment from_chars_double to_chars_double source_text tokens memory Htokens scope_levels false 0);
    [done|unfold scope_levels; lia|now_ok| |].
  { unfold counted. rewrite Hc3. split; cbn; lia. }
  intros s4 (d & M & Hd & _) _. do 3 step. rewrite Hc3 in Hd.
  eapply HQ; [|exact Hd]. by rewrite (moved_candidate _ _ _ _ _ M), Hc3.
Qed.

(** A failure that is reported. *)
Lemma fail_outcome {A} d location detail code s : ∃ s', fail (A := A) memory d location detail code s = Failed code s' ∧
  (emitted s' = emitted s ∨ emitted s' = emitted s ++ [ParserDiagnostic d location detail]).
Proof.
  unfold fail, mbind, parse_bind, try_allocate, update, mret, parse_ret, stop.
  destruct (memory (allocations s)); eexists; (split; [done|]); [by right|by left].
Qed.
End parse.

(** C39: a parse of the tokens that the lexer gives for a text always returns,
    in every memory environment and for every services and environment that keep their laws: a
    well-formed packet and no diagnostic, or a failure status and at most one diagnostic, which lies
    in the text unless it is that of the validation. *)
Theorem parse_returns {S} `{!Semantic S} `{!SemanticLaws S} environment from_chars_double to_chars_double tokens_fit directives_fit
    can_emit wanted text toks dirs memory source (x : S) :
  lex_source tokens_fit directives_fit can_emit wanted (Some text) = Some (ok, toks, dirs, []) →
  EnvironmentLaws environment → services_ok x →
  match run environment from_chars_double to_chars_double text toks memory source x with
  | Returned c s => well_formed c ∧ emitted s = []
  | Failed code s => code ≠ ok ∧ (emitted s = [] ∨
      ∃ d, emitted s = [d] ∧ (inside_text text (diagnostic_span d) ∨ descriptor_of d = parser_invalid_source_facts))
  | Stuck => False
  end.
Proof.
  intros Hlex Henv Hx. pose proof (lexed_tokens_of _ _ _ _ _ _ _ Hlex) as Htokens. unfold run.
  destruct (_ || _); [by split; [|left]|]. cbv zeta. unfold mbind at 1, parse_bind.
  pose proof (wp_outcome text _ _ _ (wp_parse_unit environment Henv from_chars_double to_chars_double text toks memory Htokens source x
    (λ _ _, True) Hx (λ _ _ _ _ _ _ _, I))) as H.
  destruct (parse_unit _ _ _ _ _ _ _) as [c s|code s|]; [|destruct H as [Hc [He|(d & He & Hd)]]; (split; [done|]); [by left|right; exists d; split; [exact He|by left]]|done].
  destruct H as [He _]. cbn in He. unfold validate_unit, validate_source_facts. destruct (run_checks c) as [e|[]] eqn:E.
  - destruct (fail_outcome (A := source_facts) memory parser_invalid_source_facts (location e) (diagnostic_detail e) invalid_argument s)
      as (s' & -> & Hs'). split; [done|]. rewrite He in Hs'. destruct Hs' as [->| ->]; [by left|right; eauto].
  - split; [by apply (run_checks_pass c tt)|exact He].
Qed.

(** C38: the packet a parse of a lexed text builds passes the validation exactly
    where no forward declaration of a record stands behind a definition with members, bases or
    methods, and none of an enumeration behind one with enumerators; this for a source without
    enumerations on aliases with modifiers, and fewer than 2^32 method modifiers. *)
Theorem parse_accepted {S} `{!Semantic S} `{!SemanticLaws S} environment from_chars_double to_chars_double tokens_fit directives_fit
    can_emit wanted text toks dirs memory source (x : S) c s :
  lex_source tokens_fit directives_fit can_emit wanted (Some text) = Some (ok, toks, dirs, []) →
  EnvironmentLaws environment → services_ok x → source ≠ 0 →
  parse_unit environment from_chars_double to_chars_double text toks memory (initial_parser text source x) = Returned c s →
  plain c → size (method_modifiers c) < two32 →
  ((validate_source_facts c).1 = ok ↔ declarations_first c).
Proof.
  intros Hlex Henv Hx Hsource Hrun Hplain Hmm. pose proof (lexed_tokens_of _ _ _ _ _ _ _ Hlex) as Htokens.
  pose proof (wp_outcome text _ _ _ (wp_parse_unit environment Henv from_chars_double to_chars_double text toks memory Htokens source x
    (λ c _, ∃ lo hi d, c = append (empty_facts text source) d ∧ chunk (empty_facts text source) lo hi d) Hx
    ltac:(intros c' s' lo hi d Hc Hd; by exists lo, hi, d))) as H.
  rewrite Hrun in H. destruct H as (_ & lo & hi & d & -> & Hd).
  rewrite <-(whole_well_formed source text lo hi d Hd Hsource (text_small _ _ Htokens) Hplain Hmm), <-(run_checks_pass _ tt).
  unfold validate_source_facts. destruct (run_checks _) as [e|[]]; split; done.
Qed.

(** ** Sources *)

Definition unit_of (w : string) : outcome names source_facts :=
  parse_unit nothing_imported no_double no_text (bytes w) (lexed_tokens (bytes w)) (λ _, true)
    (initial_parser (bytes w) 1 no_names).
Definition unit_packet (w : string) : source_facts :=
  match unit_of w with Returned c _ => c | _ => empty_facts [] 0 end.

Definition accepted (w : string) : bool := match parsed w with Returned _ _ => true | _ => false end.

Definition sample : string :=
  "struct B; struct A { int x; void f(int y) const; B* b; }; enum class E : int { X, Y = 3 }; A a; using T = A; T c;".

Lemma sample_lexed :
  lex_source (λ _, true) (λ _, true) true false (Some (bytes sample)) = Some (ok, lexed_tokens (bytes sample), [], []).
Proof. by vm_compute. Qed.

Lemma parse_returns_witness : match parsed sample with
  | Returned c s => well_formed c ∧ emitted s = []
  | Failed code s => code ≠ ok ∧ (emitted s = [] ∨
      ∃ d, emitted s = [d] ∧ (inside_text (bytes sample) (diagnostic_span d) ∨ descriptor_of d = parser_invalid_source_facts))
  | Stuck => False
  end.
Proof.
  exact (parse_returns nothing_imported no_double no_text (λ _, true) (λ _, true) true false (bytes sample) (lexed_tokens (bytes sample)) []
    (λ _, true) 1 no_names sample_lexed nothing_imported_laws no_names_ok).
Defined.

Lemma sample_parsed : ∃ s, parse_unit nothing_imported no_double no_text (bytes sample) (lexed_tokens (bytes sample)) (λ _, true)
  (initial_parser (bytes sample) 1 no_names) = Returned (unit_packet sample) s.
Proof. eexists. by vm_compute. Qed.

Lemma sample_plain : plain (unit_packet sample).
Proof. vm_compute. repeat constructor. Qed.

Lemma sample_modifiers : size (method_modifiers (unit_packet sample)) < two32.
Proof. by vm_compute. Qed.

Lemma parse_accepted_witness :
  (validate_source_facts (unit_packet sample)).1 = ok ↔ declarations_first (unit_packet sample).
Proof.
  destruct sample_parsed as [s Hs].
  exact (parse_accepted nothing_imported no_double no_text (λ _, true) (λ _, true) true false (bytes sample) (lexed_tokens (bytes sample)) []
    (λ _, true) 1 no_names (unit_packet sample) s sample_lexed nothing_imported_laws no_names_ok
    (N.neq_succ_0 0) Hs sample_plain sample_modifiers).
Defined.

(** A forward declaration of a record is accepted before a record with
    members and refused behind it, and one of an enumeration is accepted before enumerators and
    refused behind them, because a forward declaration keeps the empty ranges at 0; a declaration
    followed by its definition is always refused; a method may follow a data member of its name and
    no data member a method of its name; a second operator of a record is refused. *)
Theorem declaration_order_decides :
  accepted "struct B; struct A { int x; };" ∧
  verdict "struct A { int x; }; struct B;" = inr (invalid_argument,
    ["record definitions do not form an exact lexical partition of members; fact=record[1]"]%string) ∧
  accepted "enum class B : int; enum class A { X };" ∧
  verdict "enum class A { X }; enum class B : int;" = inr (invalid_argument,
    ["enum definitions do not form an exact lexical partition of enum values; fact=enum[1]"]%string) ∧
  verdict "struct A; struct A { int x; };" = inr (semantic_conflict,
    ["alias name conflicts with a visible declaration"]%string) ∧
  accepted "struct A { int f; void f(); };" ∧
  verdict "struct A { void f(); int f; };" = inr (semantic_conflict,
    ["data member name conflicts with a visible method"]%string) ∧
  accepted "struct A { int operator+(int x); };" ∧
  ¬ accepted "struct A { int operator+(int x); int operator-(int x); };" ∧
  accepted "enum class A : int { X };" ∧
  ¬ accepted "using C = const int; enum class A : C { X };".
Proof. vm_compute. repeat split; try done. Qed.

End ParserTheorems.
