(* ===== verification/ParserEnumValues.v ===== *)
(** * The values of enumerators

    What an accepted enumeration holds: every enumerator without a value counts on from the one before
    it, and every other has the bits of its signed decimal literal. *)

From S2P Require Import Prelude Lexer IdentitySpace Construction SourceFacts SourceFactsTheorems SourceEnvironment.
From S2P Require Import ParserState ParserTypes SourceParser ParserRules ParserExamples ParserScans ParserChunks ParserMoves ParserMembers ParserConstruction ParserRecords ParserEnums ParserTheorems.

Local Open Scope N_scope.

Module ParserEnumValues.

Import Lexer SourceFacts SourceFactsTheorems SourceEnvironment ParserState ParserTypes SourceParser.
Import ParserRules ParserExamples ParserScans ParserChunks ParserMoves ParserMembers ParserConstruction ParserRecords ParserEnums ParserTheorems.

Section values.
Context {S : Type} `{!Semantic S} `{!SemanticLaws S}.
Context (source_text : list N) (tokens : list parser_token) (memory : nat → bool).
Context (Htokens : tokens_of source_text tokens).
Local Notation parser := (parser S).
Local Notation state_ok := (state_ok source_text tokens).
Local Notation kept := (kept source_text tokens).
Local Notation moved := (moved source_text tokens).
Local Notation wp := (wp source_text).
Local Notation current := (current tokens).
Implicit Types s : parser.

(** A literal with an optional sign in front of it. *)
Definition signed_literal (r : source_span) (negative : bool) (magnitude : N) : Prop :=
  ∃ first last, first ∈ tokens ∧ last ∈ tokens ∧ r = span_from (token_offset first) (end_of last) ∧
    negative = is_punctuation minus first ∧ (is_punctuation plus first || negative = false → first = last) ∧
    token_kind last = integer_literal ∧ Construction.from_chars_uint64 (token_text source_text last) = Some magnitude.

(** The value [z] the next enumerator counts from: an unsigned literal of 2^63 and more starts again at 0. *)
Definition literal_enumerator (v : source_enum_value_fact) (z : Z) : Prop := ∃ negative magnitude,
  signed_literal (enum_value_expression v) negative magnitude ∧
  if (negative : bool) then
    magnitude <= two63 ∧ z = (- Z.of_N magnitude)%Z ∧
    Z.of_N (enum_value_bits v) = (z mod Z.of_N two64)%Z ∧ enum_value_intrinsic v = signed_intrinsic z
  else
    z = (if magnitude <? two63 then Z.of_N magnitude else 0%Z) ∧ enum_value_bits v = magnitude ∧
    enum_value_intrinsic v = (if magnitude <? two63 then signed_intrinsic (Z.of_N magnitude) else 17).

Definition implicit_enumerator (previous : option Z) (v : source_enum_value_fact) (z : Z) : Prop :=
  enum_value_expression v = no_span ∧ Z.of_N (enum_value_bits v) = (z mod Z.of_N two64)%Z ∧ enum_value_intrinsic v = signed_intrinsic z ∧
  match previous with None => z = 0%Z | Some y => z = (y + 1)%Z ∧ (z < Z.of_N two63)%Z end.

(** The enumerators behind a value. *)
Inductive counts (previous : option Z) : list source_enum_value_fact → option Z → Prop :=
  | counts_none : counts previous [] previous
  | counts_more vs value v z : counts previous vs value →
      implicit_enumerator value v z ∨ literal_enumerator v z → counts previous (vs ++ [v]) (Some z).

(** ** The rules *)

Lemma bits_of_int64_spec z : Z.of_N (bits_of_int64 z) = (z mod Z.of_N two64)%Z.
Proof. unfold bits_of_int64. pose proof (Z.mod_pos_bound z (Z.of_N two64) eq_refl). lia. Qed.

Lemma literal_value_spec (negative : bool) magnitude i b z : literal_value negative magnitude = Some (i, b, z) →
  if negative then magnitude <= two63 ∧ z = (- Z.of_N magnitude)%Z ∧ Z.of_N b = (z mod Z.of_N two64)%Z ∧ i = signed_intrinsic z
  else z = (if magnitude <? two63 then Z.of_N magnitude else 0%Z) ∧ b = magnitude ∧
    i = (if magnitude <? two63 then signed_intrinsic (Z.of_N magnitude) else 17).
Proof.
  unfold literal_value. change (Z.to_N int64_max) with (two63 - 1). destruct negative.
  - destruct (N.ltb_spec (two63 - 1 + 1) magnitude) as [|Hm]; [done|]. intros [= <- <- <-]. split; [unfold two63 in *; lia|].
    split; [done|]. split; [apply bits_of_int64_spec|done].
  - unfold signed_intrinsic, two63. destruct (N.leb_spec magnitude 2147483647) as [Hm|Hm].
    + intros [= <- <- <-]. rewrite (proj2 (N.ltb_lt magnitude _)) by lia. split; [done|]. split; [done|].
      by rewrite (proj2 (Z.leb_le _ _)), (proj2 (Z.leb_le _ _)) by lia.
    + destruct (N.leb_spec magnitude (9223372036854775808 - 1)) as [Hl|Hl]; intros [= <- <- <-].
      * rewrite (proj2 (N.ltb_lt magnitude _)) by lia. split; [done|]. split; [done|].
        by rewrite (proj2 (Z.leb_le (-2147483648) _)), (proj2 (Z.leb_gt (Z.of_N magnitude) _)) by lia.
      * by rewrite (proj2 (N.ltb_ge magnitude _)) by lia.
Qed.

Lemma current_in s : state_ok s → current s ∈ tokens.
Proof. intros Hs. eapply list_elem_of_lookup_2, current_lookup, Hs. Qed.

Lemma wp_signed_literal s (Q : N * N * Z * source_span → parser → Prop) : state_ok s →
  (∀ i b z r s' name, kept s s' → (cursor s < cursor s')%nat → literal_enumerator (EnumValueFact name i b r) z → Q (i, b, z, r) s') →
  wp (parse_literal source_text tokens memory) s Q.
Proof.
  intros Hs HQ. unfold parse_literal. do 3 step.
  assert (Hsign : ∀ s1, kept s s1 → ((is_punctuation plus (current s) || is_punctuation minus (current s)) = false → s1 = s) →
    wp (demand_supported tokens memory (is_kind_of tokens integer_literal) "enum expressions currently support decimal integer literals only";;
      s0 ← read id;
      let expression := span_from (token_offset (current s)) (end_of (current s0)) in
      match Construction.from_chars_uint64 (token_text source_text (current s0)) with
      | None => fail_syntax memory (here tokens s0) "invalid decimal enum literal"
      | Some magnitude =>
          match literal_value (punctuation tokens minus s) magnitude with
          | None => fail_unsupported memory expression "negative enum literal exceeds signed 64-bit range"
          | Some value => advance tokens;; mret (value, expression)
          end
      end) s1 Q).
  { intros s1 K1 Hsame. do 4 step. destruct (Construction.from_chars_uint64 _) as [magnitude|] eqn:Hm; [|steps].
    destruct (span_of_tokens _ _ Htokens s s1 Hs ltac:(now_ok) ltac:(cursors)) as (E & H1 & H2).
    destruct (literal_value _ _) as [[[i b] z]|] eqn:Hv.
    2: { apply wp_fail; [done|]. rewrite E. unfold inside_text. cbn. lia. }
    steps. apply (HQ i b z _ _ 0); [keep|cursors|]. exists (punctuation tokens minus s), magnitude. split.
    - exists (current s), (current s1). split_and!; [by apply current_in|apply current_in; now_ok|done|done| | |done].
      + intros Hp. by rewrite Hsame.
      + unfold is_kind_of in B. by apply bool_decide_eq_true in B.
    - cbn. by apply literal_value_spec. }
  apply wp_if; intros B.
  - step. apply Hsign; [keep|]. unfold punctuation in *. intros E. congruence.
  - step. apply Hsign; [keep|done].
Qed.

(** The enumerators behind a state. *)
Definition counted_to s0 value s : Prop := state_ok s ∧ enums (candidate s) = enums (candidate s0) ∧
  ∃ vals, enum_values (candidate s) = enum_values (candidate s0) ++ vals ∧ counts None vals value.

Lemma counted_kept s0 value s s' : counted_to s0 value s → kept s s' → counted_to s0 value s'.
Proof.
  intros (Hs & He & vals & Hv & Hc) K. split; [by eapply kept_ok|]. rewrite (kept_candidate _ _ _ _ K). eauto.
Qed.

Lemma counts_bound vals z : counts None vals (Some z) → (z < Z.of_N two63)%Z.
Proof.
  intros H. remember (Some z) as value eqn:Ez. destruct H as [|vs [y|] v z' H Hv]; [done|..]; injection Ez as ->.
  all: destruct Hv as [(_ & _ & _ & Hv)|([] & m & _ & Hv)];
    [first [by rewrite Hv|apply Hv]|destruct Hv as (? & -> & _); unfold two63 in *; lia|].
  all: destruct Hv as [-> _]; destruct (N.ltb_spec m two63); unfold two63 in *; lia.
Qed.

Lemma next_value_implicit previous s0 s name z : counted_to s0 previous s → next_value previous = Some z →
  implicit_enumerator previous (EnumValueFact name (signed_intrinsic z) (bits_of_int64 z) no_span) z.
Proof.
  intros (_ & _ & vals & _ & Hc) Hz. split; [done|]. split; [apply bits_of_int64_spec|]. split; [done|].
  destruct previous as [y|]; cbn in Hz; [|by injection Hz as <-]. apply counts_bound in Hc.
  destruct (Z.eqb_spec y int64_max) as [|Hy]; [done|]. injection Hz as <-. split; [done|]. unfold int64_max, two63 in *. lia.
Qed.

Lemma wp_counting_turn previous s0 s (Q : option Z + unit → parser → Prop) : counted_to s0 previous s →
  (∀ z s', counted_to s0 z s' → (cursor s < cursor s')%nat → Q (inl z) s') →
  (∀ s', counted_to s0 previous s' → Q (inr tt) s') →
  wp (enumerator_turn source_text tokens memory previous) s Q.
Proof.
  intros Hs HQ HQ'. pose proof (proj1 Hs) as Hok. unfold enumerator_turn. do 2 step. apply wp_if; intros B; [by apply wp_ret, HQ'|].
  assert (Hin : inside_text source_text (here tokens s)) by inside. do 9 step.
  assert (Hnext : ∀ v z s3, kept s s3 → (cursor s < cursor s3)%nat → implicit_enumerator previous v z ∨ literal_enumerator v z →
    wp (push memory (λ c, with_enum_values (enum_values c ++ [v]) c);;
      s0 ← read id;
      if punctuation tokens comma s0 then advance tokens;; mret (inl (Some z))
      else demand tokens memory (punctuation tokens right_brace) "expected ',' or '}' after enumerator";; mret (inl (Some z))) s3 Q).
  { intros v z s3 K3 C3 Hv. apply wp_bind.
    apply (wp_push source_text tokens _ _ (values_facts [v])); [now_ok|by unfold append, values_facts; cbn; rewrite !app_nil_r|constructor..|].
    intros s4 M4 C4. assert (H4 : counted_to s0 (Some z) s4).
    { apply (counted_kept _ _ _ _ Hs) in K3 as (_ & He & vals & Hvals & Hc). split; [by eapply moved_ok|].
      rewrite (moved_candidate _ _ _ _ _ M4). cbn. rewrite app_nil_r. split; [done|]. exists (vals ++ [v]).
      split; [by rewrite Hvals, app_assoc|by econstructor]. }
    steps; (apply HQ; [eapply counted_kept; [exact H4|keep]|cursors]). }
  apply wp_if; intros B1.
  - step. eapply wp_advance; [done|now_ok|]. intros s3 K3 C3. apply wp_signed_literal; [now_ok|].
    intros i' b z r s4 name K4 C4 Hv. apply Hnext; [keep|cursors|by right].
  - destruct (next_value previous) as [z|] eqn:Ez; [|by apply wp_fail]. step. apply Hnext; [keep|cursors|].
    left. by eapply next_value_implicit.
Qed.

Lemma wp_counting s (Q : unit → parser → Prop) : state_ok s → (∀ value s', counted_to s value s' → Q tt s') →
  wp (forever tokens (enumerator_turn source_text tokens memory) None) s Q.
Proof.
  intros Hs HQ. apply (wp_forever source_text tokens) with (I := λ value s1, counted_to s value s1).
  - intros value s1 [H1 _]. by eapply ok_cursor.
  - intros previous s1 H1. apply (wp_counting_turn _ s); [done|auto|eauto].
  - split; [done|]. split; [done|]. exists []. split; [by rewrite app_nil_r|constructor].
Qed.
End values.

(** What the body of an enumeration leaves behind. *)
Definition counted_body {S} `{!Semantic S} source_text tokens underlying spelling (scoped : bool) enum_index (s s' : parser S) : Prop :=
  ∃ vals value declaration,
    enum_values (candidate s') = enum_values (candidate s) ++ vals ∧ counts source_text tokens None vals value ∧
    enums (candidate s') = alter (λ e, EnumFact (enum_identity e) (FactRange (size (enum_values (candidate s))) (size vals))
      declaration spelling underlying kind_definition scoped) (N.to_nat enum_index) (enums (candidate s)).

(** C40: the body of an enumeration behind its opening brace always returns; where it
    does not fail it appends its enumerators to the packet and gives their range to the enumeration,
    and they count: an enumerator without a value has the one of the enumerator before it plus one, 0
    at first, still below 2^63, and every other the bits of its signed decimal literal, where counting
    starts again at 0 behind a literal of 2^63 or more. *)
Theorem enumerators_count {S} `{!Semantic S} `{!SemanticLaws S} source_text tokens memory start underlying spelling scoped
    enum_index sequence_index (s : parser S) :
  tokens_of source_text tokens → state_ok source_text tokens s →
  match parse_enum_body source_text tokens memory start underlying spelling scoped enum_index sequence_index s with
  | Returned _ s' => counted_body source_text tokens underlying spelling scoped enum_index s s'
  | Failed code _ => code ≠ ok
  | Stuck => False
  end.
Proof.
  intros Htokens Hs.
  enough (H : wp source_text (parse_enum_body source_text tokens memory start underlying spelling scoped enum_index sequence_index) s
    (λ _ s', counted_body source_text tokens underlying spelling scoped enum_index s s')).
  { apply wp_outcome in H. destruct (parse_enum_body _ _ _ _ _ _ _ _ _ _); [by destruct H|by destruct H|done]. }
  unfold parse_enum_body. do 5 step. apply (wp_counting _ _ _ Htokens); [now_ok|]. intros value s1 (H1 & He & vals & Hv & Hc). steps.
  assert (E : candidate s3 = candidate s1) by (rewrite (kept_candidate _ _ _ _ K1); apply (kept_candidate _ _ _ _ K0)).
  rewrite (kept_candidate _ _ _ _ K) in He, Hv. rewrite <-(kept_candidate _ _ _ _ K1), E, Hv.
  apply wp_fact_range. intros _ _. rewrite size_behind. step. apply wp_update; [done|]. apply wp_update; [done|].
  exists vals, value, (span_from start (end_of (current tokens s2))). cbn. by rewrite E, Hv, He.
Qed.

(** An enumeration behind its head. *)
Definition body_text : list N := bytes "{ X, Y = -5, Z, W = 9223372036854775808, V };".

Lemma enumerators_count_witness :
  match parse_enum_body body_text (lexed_tokens body_text) (λ _, true) 0 intrinsic_none no_span false 0 0
      (initial_parser body_text 1 no_names) with
  | Returned _ s' => counted_body body_text (lexed_tokens body_text) intrinsic_none no_span false 0 (initial_parser body_text 1 no_names) s'
  | Failed code _ => code ≠ ok
  | Stuck => False
  end.
Proof.
  assert (H : tokens_of body_text (lexed_tokens body_text)).
  { apply (lexed_tokens_of (λ _, true) (λ _, true) true false body_text (lexed_tokens body_text) []). by vm_compute. }
  exact (enumerators_count body_text (lexed_tokens body_text) (λ _, true) 0 intrinsic_none no_span false 0 0
    (initial_parser body_text 1 no_names) H (initial_ok _ _ H 1 no_names no_names_ok)).
Defined.

Lemma body_values :
  match parse_enum_body body_text (lexed_tokens body_text) (λ _, true) 0 intrinsic_none no_span false 0 0
      (initial_parser body_text 1 no_names) with
  | Returned _ s' => enum_value_bits <$> enum_values (candidate s')
  | _ => []
  end = [0; two64 - 5; two64 - 4; two63; 1].
Proof. by vm_compute. Qed.

End ParserEnumValues.
