(* ===== verification/HeapTables.v ===== *)
(** * Open-addressing tables of the heap

    The tables that the generation builder keeps while it works are vectors of slots probed
    linearly.  [walk] is the loop they share (server_engine/project/builder/generation_builder.cpp):
    it stops at a vacant slot or at an entry that matches.  What a walk finds, and that filling
    the vacant slot it stops at keeps a table searchable. *)

From S2P Require Import Prelude Probing.

Local Open Scope N_scope.

Module HeapTables.

Import Probing.

Definition size {A} (l : list A) : N := N.of_nat (length l).

Section tables.
Context {S E : Type} (entry : S → option E).
Implicit Types slots : list S.

(** Stops with the position and the entry there, if any. *)
Definition visit (matches : E → bool) (slots : list S) (p : N) : option (N * option E) :=
  s ← slots !! N.to_nat p;
  match entry s with
  | None => Some (p, None)
  | Some e => if matches e then Some (p, Some e) else None
  end.

Definition walk (matches : E → bool) (slots : list S) (h : N) : option (N * option E) :=
  probe (visit matches slots) (size slots - 1) (length slots) (N.land h (size slots - 1)).

(** ** What a walk finds *)

Definition used (slots : list S) (p : N) : option E := slots !! N.to_nat p ≫= entry.

Record searchable (hash : E → N) (slots : list S) : Prop := Searchable {
  s_power : power_of_two (size slots);
  s_chained : chained (size slots) (λ e, N.land (hash e) (size slots - 1)) (used slots) }.

Lemma heap_used_lt slots p e : used slots p = Some e → p < size slots.
Proof. unfold used. intros (s & Hs & _)%bind_Some. apply lookup_lt_Some in Hs. unfold size. lia. Qed.

Lemma slot_some (slots : list S) p : p < size slots → ∃ s, slots !! N.to_nat p = Some s.
Proof. intros H. apply lookup_lt_is_Some. unfold size in H. lia. Qed.

Section hash.
Context (hash : E → N).

Lemma heap_home_lt slots h : power_of_two (size slots) → N.land h (size slots - 1) < size slots.
Proof. intros Hp. rewrite land_mask by done. apply N.mod_lt. pose proof (power_of_two_pos _ Hp). lia. Qed.

Lemma visit_used matches slots p : p < size slots → visit matches slots p =
  match used slots p with None => Some (p, None) | Some e => if matches e then Some (p, Some e) else None end.
Proof. intros H. destruct (slot_some slots p H) as [s Hs]. unfold visit, used. rewrite Hs. cbn. by destruct (entry s). Qed.

(** Where a walk stops, and what it passed. *)
Lemma walk_Some matches slots h p r : power_of_two (size slots) → walk matches slots h = Some (p, r) →
  ∃ d, (d < length slots)%nat ∧ p = ahead (size slots) (N.land h (size slots - 1)) d ∧ p < size slots ∧
    used slots p = r ∧ (∀ e, r = Some e → matches e = true) ∧
    ∀ j, (j < d)%nat → ∃ e, used slots (ahead (size slots) (N.land h (size slots - 1)) j) = Some e ∧ matches e = false.
Proof.
  intros Hp. pose proof (power_of_two_pos _ Hp) as Hpos. unfold walk.
  intros (d & Hd & Hv & Hj)%(probe_Some _ (size slots) Hp); [|by apply heap_home_lt]. exists d.
  assert (Ha : ∀ j, ahead (size slots) (N.land h (size slots - 1)) j < size slots) by (intros; by apply ahead_lt).
  assert (Hpassed : ∀ j, visit matches slots (ahead (size slots) (N.land h (size slots - 1)) j) = None →
    ∃ e, used slots (ahead (size slots) (N.land h (size slots - 1)) j) = Some e ∧ matches e = false).
  { intros j. rewrite visit_used by done. destruct (used slots _) as [e|]; [|done]. destruct (matches e) eqn:Em; [done|eauto]. }
  rewrite visit_used in Hv by done. destruct (used slots _) as [e|] eqn:Eu.
  - destruct (matches e) eqn:Em; [|done]. injection Hv as <- <-. split_and!; try done; try apply Ha.
    + by intros e' [= <-].
    + intros j Hjd. apply Hpassed. by apply Hj.
  - injection Hv as <- <-. split_and!; try done; try apply Ha. intros j Hjd. apply Hpassed. by apply Hj.
Qed.

(** A vacant slot ends every walk. *)
Lemma walk_ends matches slots h q : power_of_two (size slots) → q < size slots → used slots q = None →
  is_Some (walk matches slots h).
Proof.
  intros Hp Hq Hu. unfold walk. destruct (probe_stops (visit matches slots) (size slots) Hp (N.land h (size slots - 1)) q (q, None))
    as [r Hr]; [by apply heap_home_lt|done|by rewrite visit_used, Hu|].
  unfold size in Hr at 2. rewrite Nat2N.id in Hr. by rewrite Hr.
Qed.

(** The one entry that matches is found. *)
Lemma walk_found matches slots h p e : searchable hash slots → used slots p = Some e → hash e = h → matches e = true →
  (∀ q e', used slots q = Some e' → matches e' = true → q = p) → walk matches slots h = Some (p, Some e).
Proof.
  intros [Hp Hc] Hu Hh Hm Huniq. pose proof (heap_used_lt _ _ _ Hu) as Hlt.
  destruct (Hc p e Hlt Hu) as (d & Hd & _ & Hb). rewrite Hh in Hd, Hb.
  destruct (probe_stops (visit matches slots) (size slots) Hp (N.land h (size slots - 1)) p (p, Some e))
    as [[p' r] Hr]; [by apply heap_home_lt|done|by rewrite visit_used, Hu, Hm|].
  unfold size in Hr at 2. rewrite Nat2N.id in Hr. change (walk matches slots h = Some (p', r)) in Hr. rewrite Hr.
  destruct (walk_Some _ _ _ _ _ Hp Hr) as (d' & _ & Hp' & _ & Hr' & Hm' & Hj). destruct r as [e'|].
  - assert (p' = p) as -> by (eapply Huniq; [done|auto]). congruence.
  - exfalso. destruct (Nat.lt_trichotomy d d') as [Hdd|[->|Hdd]].
    + destruct (Hj d Hdd) as (e' & He' & Hn). rewrite Hd, Hu in He'. congruence.
    + rewrite Hp', Hd in Hr'. congruence.
    + destruct (Hb d' Hdd) as [e' He']. rewrite <-Hp' in He'. congruence.
Qed.

(** Where nothing matches, a table with a vacant slot leads to one, which takes an entry in. *)
Lemma heap_used_insert slots p s q : p < size slots → used (<[N.to_nat p := s]> slots) q = if decide (q = p) then entry s else used slots q.
Proof.
  intros Hp. unfold used. case_decide as Eq.
  - subst. rewrite list_lookup_insert_eq by (unfold size in Hp; lia). done.
  - rewrite list_lookup_insert_ne by lia. done.
Qed.

Lemma walk_vacant matches slots h q : searchable hash slots → q < size slots → used slots q = None →
  (∀ p e, used slots p = Some e → matches e = false) →
  ∃ p, walk matches slots h = Some (p, None) ∧ p < size slots ∧ used slots p = None ∧
    ∀ s e, entry s = Some e → hash e = h → searchable hash (<[N.to_nat p := s]> slots).
Proof.
  intros [Hp Hc] Hq Hu Hno. destruct (walk_ends matches slots h q Hp Hq Hu) as [[p r] Hw]. exists p.
  destruct (walk_Some _ _ _ _ _ Hp Hw) as (d & Hd & -> & Hlt & Hr & Hm & Hj).
  destruct r as [e|]; [specialize (Hm e eq_refl); rewrite (Hno _ _ Hr) in Hm; done|].
  split_and!; [done..|]. intros s e He Hh.
  assert (Hs : size (<[N.to_nat (ahead (size slots) (N.land h (size slots - 1)) d) := s]> slots) = size slots).
  { unfold size. by rewrite length_insert. }
  split; rewrite Hs; [done|].
  apply (chained_insert (size slots) (λ e, N.land (hash e) (size slots - 1)) Hp (used slots) _ e d).
  - done.
  - rewrite Hh, heap_used_insert by done. by rewrite decide_True.
  - unfold size in *. lia.
  - intros q' Hq'. rewrite Hh. intros Hne. rewrite heap_used_insert by done. by rewrite decide_False.
  - intros j Hjd. rewrite Hh. destruct (Hj j Hjd) as (e' & He' & _). by rewrite He'.
Qed.

(** ** Vacant slots *)

Definition vacant_slots (slots : list S) : nat := free_slots (λ s, entry s = None) slots.

Lemma vacant_insert slots p s e : p < size slots → used slots p = None → entry s = Some e →
  (vacant_slots slots = 1 + vacant_slots (<[N.to_nat p := s]> slots))%nat.
Proof.
  intros Hp Hu He. destruct (slot_some slots p Hp) as [x Hx]. unfold used in Hu. rewrite Hx in Hu.
  apply (free_slots_insert _ _ _ x); [done|done|]. by rewrite He.
Qed.

Lemma slot_left slots : (0 < vacant_slots slots)%nat → ∃ q, q < size slots ∧ used slots q = None.
Proof.
  intros (i & x & Hi & Hx)%free_slots_pos. exists (N.of_nat i). apply lookup_lt_Some in Hi as Hlt.
  split; [unfold size; lia|]. unfold used. by rewrite Nat2N.id, Hi.
Qed.

Lemma searchable_vacant n x : power_of_two (N.of_nat n) → entry x = None → searchable hash (replicate n x).
Proof.
  intros Hp Hx. split.
  - unfold size. by rewrite length_replicate.
  - intros p e _ (s & Hs & He)%bind_Some. apply lookup_replicate in Hs as [-> _]. congruence.
Qed.

Lemma vacant_replicate n x : entry x = None → vacant_slots (replicate n x) = n.
Proof. intros. by apply free_slots_replicate. Qed.
End hash.
End tables.

End HeapTables.
