(* ===== verification/Contribution.v ===== *)
(** * Source contributions

    Models server_engine/project/builder/source_contribution.{hpp,cpp} for a full rebuild: the
    records that a Source contributes to the graph, the flat arenas they are appended to
    ([source_contribution_cache_update]) and their publication into the cache.

    The arenas of a rebuild are vectors of the heap.  Every growth of one may fail
    ([std::bad_alloc]), as [memory] says by the number of the allocation; [grown] is the
    capacity the standard library chooses.  The lookups of the cache are in
    ContributionCache, the sparse update in ContributionUpdate. *)

From S2P Require Import Prelude Probing MappedVector Construction SourceFacts RuntimeLayout Graph.

Local Open Scope N_scope.

Module Contribution.

Import SourceFacts.
Notation mapped_vector := MappedVector.mapped_vector.

(** ** Records *)

Record contribution_type_ref : Set := ContributionTypeRef {
  base_identity : N; type_modifiers : source_fact_range; base_intrinsic : N }.

Record contribution_member : Set := ContributionMember {
  contributed_type : contribution_type_ref; contributed_name : N; contributed_access : N;
  contributed_construction : Construction.construction_value }.

Record contribution_enum_value : Set := ContributionEnumValue {
  contributed_value_name : N; value_intrinsic : N; value_bits : N }.

Record contribution_object : Set := ContributionObject {
  contributed_object : N; contributed_object_type : contribution_type_ref; contributed_flags : N }.

Record contribution_link : Set := ContributionLink {
  contributed_source : source_object_endpoint_fact; contributed_target : source_object_endpoint_fact }.

Inductive contribution_type_kind : Set := record_contribution | enum_contribution.
#[export] Instance contribution_type_kind_eq_dec : EqDecision contribution_type_kind.
Proof. solve_decision. Defined.

Record contribution_type : Set := ContributionType {
  contributed_identity : N; definition_items : source_fact_range; explicit_underlying : N;
  contributed_record_kind : N; contributed_kind : contribution_type_kind; contribution_flags : N }.

Definition definition (c : contribution_type) : bool := negb (N.land (contribution_flags c) 1 =? 0).
Definition enum_scoped (c : contribution_type) : bool := negb (N.land (contribution_flags c) 2 =? 0).

Record contribution_state : Set := ContributionState {
  state_source : N; state_types : source_fact_range; state_members : source_fact_range;
  state_modifiers : source_fact_range; state_enum_values : source_fact_range;
  state_objects : source_fact_range; state_links : source_fact_range }.

(** What the declarations of one type add up to. *)
Record construction_state : Set := ConstructionState {
  declared_count : N; definition_count : N; definition_type : N;
  struct_count : N; class_count : N; union_count : N;
  scoped_count : N; unscoped_count : N; fixed_count : N;
  fixed_underlying : N; construction_kind : contribution_type_kind }.

Definition no_range : source_fact_range := FactRange 0 0.
Definition no_state : contribution_state :=
  ContributionState 0 no_range no_range no_range no_range no_range no_range.
Definition no_construction : construction_state :=
  ConstructionState 0 0 0 0 0 0 0 0 0 intrinsic_none record_contribution.

#[export] Instance contribution_state_inhabited : Inhabited contribution_state := populate no_state.
#[export] Instance construction_state_inhabited : Inhabited construction_state := populate no_construction.
#[export] Instance contribution_type_inhabited : Inhabited contribution_type :=
  populate (ContributionType 0 no_range intrinsic_none 0 record_contribution 0).
#[export] Instance contribution_member_inhabited : Inhabited contribution_member :=
  populate (ContributionMember (ContributionTypeRef 0 no_range 0) 0 0 Construction.zero_value).
#[export] Instance contribution_modifier_inhabited : Inhabited source_type_modifier := populate (TypeModifier 0 0).
#[export] Instance contribution_enum_value_inhabited : Inhabited contribution_enum_value :=
  populate (ContributionEnumValue 0 0 0).
#[export] Instance contribution_object_inhabited : Inhabited contribution_object :=
  populate (ContributionObject 0 (ContributionTypeRef 0 no_range 0) 0).
#[export] Instance contribution_link_inhabited : Inhabited contribution_link :=
  populate (ContributionLink (EndpointFact 0 0) (EndpointFact 0 0)).

Record contribution_statistics : Set := Statistics {
  source_total : N; type_total : N; member_total : N; modifier_total : N;
  enum_value_total : N; object_total : N; link_total : N }.
Definition no_statistics : contribution_statistics := Statistics 0 0 0 0 0 0 0.

Definition heap_vector := Graph.heap_vector.
Notation HeapVector := Graph.HeapVector.
Notation items := Graph.items.
Notation items_capacity := Graph.items_capacity.

(** [source_contribution_cache::storage] of a rebuild. *)
Record storage : Type := Storage {
  sources : heap_vector contribution_state; types : heap_vector contribution_type;
  members : heap_vector contribution_member; modifiers : heap_vector source_type_modifier;
  enum_values : heap_vector contribution_enum_value; objects : heap_vector contribution_object;
  links : heap_vector contribution_link; construction : heap_vector construction_state;
  statistics : contribution_statistics }.

Definition no_items {A} : heap_vector A := HeapVector [] 0.
Definition no_storage : storage :=
  Storage no_items no_items no_items no_items no_items no_items no_items no_items no_statistics.

Definition with_sources v (s : storage) := Storage v (types s) (members s) (modifiers s) (enum_values s) (objects s) (links s) (construction s) (statistics s).
Definition with_types v (s : storage) := Storage (sources s) v (members s) (modifiers s) (enum_values s) (objects s) (links s) (construction s) (statistics s).
Definition with_members v (s : storage) := Storage (sources s) (types s) v (modifiers s) (enum_values s) (objects s) (links s) (construction s) (statistics s).
Definition with_modifiers v (s : storage) := Storage (sources s) (types s) (members s) v (enum_values s) (objects s) (links s) (construction s) (statistics s).
Definition with_enum_values v (s : storage) := Storage (sources s) (types s) (members s) (modifiers s) v (objects s) (links s) (construction s) (statistics s).
Definition with_objects v (s : storage) := Storage (sources s) (types s) (members s) (modifiers s) (enum_values s) v (links s) (construction s) (statistics s).
Definition with_links v (s : storage) := Storage (sources s) (types s) (members s) (modifiers s) (enum_values s) (objects s) v (construction s) (statistics s).
Definition with_construction v (s : storage) := Storage (sources s) (types s) (members s) (modifiers s) (enum_values s) (objects s) (links s) v (statistics s).
Definition with_statistics v (s : storage) := Storage (sources s) (types s) (members s) (modifiers s) (enum_values s) (objects s) (links s) (construction s) v.

(** ** The update

    [source_contribution_cache_update] of a cache. *)

Record rebuild : Type := Rebuild {
  candidate : storage; replaced : heap_vector bool; failure : status_code; prepared : bool; published : bool }.
Definition begin_rebuild : rebuild := Rebuild no_storage no_items ok false false.

(** What is reported: a packet that is not valid, or a failed build with the status its text ends in. *)
Inductive build_diagnostic : Type :=
| invalid_facts (reported : N) (error : validation_error)
| build_failed (reported : N) (at_ : source_span) (detail : string) (code : option status_code).

(** The state of a build: the update, the diagnostics and the allocations so far. *)
Record building : Type := Building { updating : rebuild; emitted : list build_diagnostic; allocations : nat }.

Inductive outcome (A : Type) : Type :=
| Done (a : A) (s : building)
| Failed (code : status_code) (s : building)
| Thrown (s : building)                      (* std::bad_alloc *)
| Endless.                                   (* a loop without a bound goes on *)
Arguments Done {A} _ _. Arguments Failed {A} _ _. Arguments Thrown {A} _. Arguments Endless {A}.

Definition build (A : Type) : Type := building → outcome A.

#[export] Instance build_ret : MRet build := λ A a s, Done a s.
#[export] Instance build_bind : MBind build := λ A B k m s,
  match m s with Done a s => k a s | Failed code s => Failed code s | Thrown s => Thrown s | Endless => Endless end.

Definition read {A} (f : building → A) : build A := λ s, Done (f s) s.
Definition stop {A} (code : status_code) : build A := λ s, Failed code s.

Definition set_update (f : rebuild → rebuild) : build unit := λ s, Done tt (Building (f (updating s)) (emitted s) (allocations s)).
Definition set_candidate (f : storage → storage) : build unit :=
  set_update (λ u, Rebuild (f (candidate u)) (replaced u) (failure u) (prepared u) (published u)).
Definition set_replaced (v : heap_vector bool) : build unit :=
  set_update (λ u, Rebuild (candidate u) v (failure u) (prepared u) (published u)).

(** [failure = {code}; return failure;] *)
Definition fail_with {A} (code : status_code) : build A :=
  set_update (λ u, Rebuild (candidate u) (replaced u) code (prepared u) (published u));; stop code.

Fixpoint each {A} (f : A → build unit) (l : list A) : build unit :=
  match l with [] => mret tt | x :: l' => f x;; each f l' end.

Definition storing {A} (f : storage → A) : build A := read (λ s, f (candidate (updating s))).

Definition u32_max : N := two32 - 1.
Definition size_max : N := two64 - 1.

Section update.
Context (memory : nat → bool) (grown : N → N → N).

Definition allocate : build unit := λ s,
  let s' := Building (updating s) (emitted s) (S (allocations s)) in
  if memory (allocations s) then Done tt s' else Thrown s'.

(** A diagnostic for which there is no memory is lost. *)
Definition emit (d : build_diagnostic) : build unit := λ s,
  match allocate s with
  | Done _ s' => Done tt (Building (updating s') (emitted s' ++ [d]) (allocations s'))
  | Failed _ s' | Thrown s' => Done tt s'
  | Endless => Endless
  end.

(** Room for [n] values. *)
Definition room {A} (v : heap_vector A) (n : N) : build unit :=
  if items_capacity v <? n then allocate else mret tt.

Definition append {A} (v : heap_vector A) (l : list A) : heap_vector A :=
  HeapVector (items v ++ l) (let n := size (items v) + size l in
    if items_capacity v <? n then grown (items_capacity v) n else items_capacity v).
Definition resized {A} (v : heap_vector A) (n : N) (x : A) : heap_vector A :=
  HeapVector (take (N.to_nat n) (items v) ++ replicate (N.to_nat n - length (items v)) x)
    (if items_capacity v <? n then grown (items_capacity v) n else items_capacity v).
Definition reserved {A} (v : heap_vector A) (n : N) : heap_vector A :=
  HeapVector (items v) (if items_capacity v <? n then grown (items_capacity v) n else items_capacity v).

(** [values.insert(values.end(), ...)] and [values.push_back(...)]. *)
Definition insert_end {A} (get : storage → heap_vector A) (set : heap_vector A → storage → storage) (l : list A) : build unit :=
  v ← storing get;
  room v (size (items v) + size l);;
  set_candidate (λ s, set (append (get s) l) s).
Definition push {A} (get : storage → heap_vector A) (set : heap_vector A → storage → storage) (x : A) : build unit :=
  insert_end get set [x].

(** [reserve_with_headroom]: its own [try] turns a failed allocation into a status. *)
Definition reserve_headroom_size (n : N) : option N :=
  let extra := n / 16 + 64 in if size_max - extra <? n then None else Some (n + extra).
Definition reserve_with_headroom {A} (get : storage → heap_vector A) (set : heap_vector A → storage → storage) (n : N) : build unit :=
  match reserve_headroom_size n with
  | None => stop not_available
  | Some capacity => λ s,
      match (v ← storing get; room v capacity) s with
      | Done _ s' => set_candidate (λ c, set (reserved (get c) capacity) c) s'
      | Failed code s' => Failed code s'
      | Thrown s' => Failed initialization_failed s'
      | Endless => Endless
      end
  end.

(** [catch (const std::bad_alloc&) { failure = initialization_failed; } return failure;] *)
Definition catching {A} (m : build A) : build A := λ s,
  match m s with Thrown s' => fail_with initialization_failed s' | o => o end.

Definition reserve_replaced (n : N) : build unit :=
  match reserve_headroom_size n with
  | None => stop not_available
  | Some capacity => λ s,
      match (room (replaced (updating s)) capacity) s with
      | Done _ s' => set_replaced (reserved (replaced (updating s')) capacity) s'
      | Failed code s' => Failed code s'
      | Thrown s' => Failed initialization_failed s'
      | Endless => Endless
      end
  end.

(** [candidate.sources.resize(n); replaced.resize(n, 0);] *)
Definition resize_sources (n : N) : build unit :=
  v ← storing sources;
  room v n;;
  set_candidate (λ c, with_sources (resized (sources c) n no_state) c);;
  v ← read (λ s, replaced (updating s));
  room v n;;
  set_replaced (resized v n false).

Definition reserve_rebuild (max_source_id type_declarations member_count modifier_count enum_value_count
    object_count link_count : N) : build unit :=
  u ← read updating;
  if negb (status_ok (failure u)) then stop (failure u)
  else if prepared u || published u || negb (size (items (sources (candidate u))) =? 0) || negb (size (items (replaced u)) =? 0)
  then stop invalid_argument
  else if (u32_max <=? max_source_id) || (u32_max <=? type_declarations) || (u32_max <=? member_count) ||
    (u32_max <=? modifier_count) || (u32_max <=? enum_value_count) || (u32_max <=? object_count) || (u32_max <=? link_count)
  then fail_with not_available
  else catching (
    reserve_with_headroom sources with_sources (max_source_id + 1);;
    reserve_replaced (max_source_id + 1);;
    reserve_with_headroom types with_types type_declarations;;
    reserve_with_headroom members with_members member_count;;
    reserve_with_headroom modifiers with_modifiers modifier_count;;
    reserve_with_headroom enum_values with_enum_values enum_value_count;;
    reserve_with_headroom objects with_objects object_count;;
    reserve_with_headroom links with_links link_count;;
    reserve_with_headroom construction with_construction (type_declarations + 1);;
    resize_sources (max_source_id + 1)).

(** *** Replacement *)

Definition add_u32 (base relative : N) : option N :=
  if u32_max <? w64 (base + relative) then None else Some (w64 (base + relative)).

Definition contribution_ref (modifier_begin : N) (r : source_type_ref) : option contribution_type_ref :=
  modifier ← add_u32 modifier_begin (begin (ref_modifiers r));
  Some (ContributionTypeRef (ref_identity r) (FactRange modifier (count (ref_modifiers r))) (ref_intrinsic r)).

Definition append_member (modifier_begin : N) (item : source_member_fact) : build unit :=
  match contribution_ref modifier_begin (member_type item) with
  | None => fail_with not_available
  | Some r => push members with_members (ContributionMember r (member_name item) (member_visibility item) (member_construction item))
  end.

Definition append_enum_value (item : source_enum_value_fact) : build unit :=
  push enum_values with_enum_values
    (ContributionEnumValue (enum_value_name item) (enum_value_intrinsic item) (enum_value_bits item)).

Definition append_object (modifier_begin : N) (item : source_object_fact) : build unit :=
  match contribution_ref modifier_begin (object_type_ref item) with
  | None => fail_with not_available
  | Some r => push objects with_objects (ContributionObject (object_identity item) r (object_construction_flags item))
  end.

Definition append_link (item : source_link_fact) : build unit :=
  push links with_links (ContributionLink (link_source item) (link_target item)).

Definition append_record (facts : source_facts) (member_begin index : N) : build unit :=
  match records facts !! N.to_nat index with
  | None => fail_with invalid_argument
  | Some item =>
      match add_u32 member_begin (begin (record_members item)) with
      | None => fail_with not_available
      | Some b => push types with_types (ContributionType (record_identity item) (FactRange b (count (record_members item)))
          intrinsic_none (record_code item) record_contribution (if record_declared item =? kind_definition then 1 else 0))
      end
  end.

Definition append_enum (facts : source_facts) (enum_value_begin index : N) : build unit :=
  match enums facts !! N.to_nat index with
  | None => fail_with invalid_argument
  | Some item =>
      match add_u32 enum_value_begin (begin (enum_enumerators item)) with
      | None => fail_with not_available
      | Some b => push types with_types (ContributionType (enum_identity item) (FactRange b (count (enum_enumerators item)))
          (enum_explicit_underlying item) 0 enum_contribution
          (N.lor (if enum_declared item =? kind_definition then 1 else 0) (if SourceFacts.enum_scoped item then 2 else 0)))
      end
  end.

Definition append_declaration (facts : source_facts) (member_begin enum_value_begin : N) (d : source_declaration_ref) : build unit :=
  let index := declaration_index d in
  if declaration_code d =? declares_record then append_record facts member_begin index
  else if declaration_code d =? declares_enum then append_enum facts enum_value_begin index
  else if declaration_code d =? declares_object then
    (if index <? size (SourceFacts.objects facts) then mret tt else fail_with invalid_argument)
  else if declaration_code d =? declares_link then
    (if index <? size (SourceFacts.links facts) then mret tt else fail_with invalid_argument)
  else mret tt.

Definition indices {A} (l : list A) : list N := N.of_nat <$> seq 0 (length l).

Definition append_declarations (facts : source_facts) (member_begin enum_value_begin : N) : build unit :=
  match declarations facts with
  | [] =>
      each (append_record facts member_begin) (indices (records facts));;
      each (append_enum facts enum_value_begin) (indices (enums facts))
  | ds => each (append_declaration facts member_begin enum_value_begin) ds
  end.

Definition arena_sizes (c : storage) : list N :=
  [size (items (types c)); size (items (members c)); size (items (modifiers c)); size (items (enum_values c));
   size (items (objects c)); size (items (links c))].

(** The range of what was appended to an arena. *)
Definition appended {A} (get : storage → heap_vector A) (c0 c : storage) : source_fact_range :=
  let begin := size (items (get c0)) in FactRange (w32 begin) (w32 (size (items (get c)) - begin)).

Definition count_contributions (c : storage) : contribution_statistics :=
  Statistics (source_total (statistics c) + 1) (size (items (types c))) (size (items (members c))) (size (items (modifiers c)))
    (size (items (enum_values c))) (size (items (objects c))) (size (items (links c))).

Definition finish_source (source : N) (c0 : storage) : build unit :=
  c ← storing id;
  if existsb (λ p, u32_max <? p.1 - p.2) (zip (arena_sizes c) (arena_sizes c0)) then fail_with not_available
  else
    let value := ContributionState source (appended types c0 c) (appended members c0 c) (appended modifiers c0 c)
      (appended enum_values c0 c) (appended objects c0 c) (appended links c0 c) in
    set_candidate (λ c, with_sources (HeapVector (<[N.to_nat source := value]> (items (sources c))) (items_capacity (sources c))) c);;
    u ← read updating;
    set_replaced (HeapVector (<[N.to_nat source := true]> (items (replaced u))) (items_capacity (replaced u)));;
    set_candidate (λ c, with_statistics (count_contributions c) c).

Definition append_source (facts : source_facts) : build unit :=
  c ← storing id;
  (if size (items (sources c)) <=? source facts then resize_sources (source facts + 1) else mret tt);;
  u ← read updating;
  if default false (items (replaced u) !! N.to_nat (source facts)) then fail_with invalid_argument
  else if existsb (λ n, u32_max <? n) (arena_sizes (candidate u)) then fail_with not_available
  else
    let c0 := candidate u in
    insert_end modifiers with_modifiers (SourceFacts.modifiers facts);;
    each (append_member (size (items (modifiers c0)))) (SourceFacts.members facts);;
    each append_enum_value (SourceFacts.enum_values facts);;
    each (append_object (size (items (modifiers c0)))) (SourceFacts.objects facts);;
    each append_link (SourceFacts.links facts);;
    append_declarations facts (size (items (members c0))) (size (items (enum_values c0)));;
    finish_source (source facts) c0.

Definition has_bases (r : source_record_fact) : bool := negb (count (record_bases r) =? 0).

Definition replace (facts : source_facts) : build unit :=
  u ← read updating;
  if negb (status_ok (failure u)) then stop (failure u)
  else if prepared u || published u || (source facts =? 0) then stop invalid_argument
  else
    match validate_source_facts facts with
    | (ok, _) =>
        match filter (λ r, has_bases r = true) (records facts) with
        | r :: _ =>
            emit (build_failed (source facts) (record_declaration r)
              "record has base classes: inheritance is not supported by ABI/layout" None);;
            fail_with not_available
        | [] => catching (append_source facts)
        end
    | (code, error) => emit (invalid_facts (source facts) error);; fail_with code
    end.

Definition prepare_publish : build unit :=
  u ← read updating;
  if negb (status_ok (failure u)) then stop (failure u)
  else if prepared u || published u then stop invalid_argument
  else set_update (λ u, Rebuild (candidate u) (replaced u) (failure u) true (published u)).
End update.

(** ** The committed cache *)

Record cache : Type := Cache {
  baseline_backed_cache : bool;
  committed_sources : mapped_vector (T := contribution_state); committed_types : mapped_vector (T := contribution_type);
  committed_members : mapped_vector (T := contribution_member); committed_modifiers : mapped_vector (T := source_type_modifier);
  committed_enum_values : mapped_vector (T := contribution_enum_value);
  committed_objects : mapped_vector (T := contribution_object); committed_links : mapped_vector (T := contribution_link);
  committed_construction : mapped_vector (T := construction_state);
  cache_statistics : contribution_statistics; provenance_complete : bool }.

(** [publish_prepared] of a rebuild. *)
Definition publish_rebuild (k : cache) (u : rebuild) : cache * rebuild :=
  if negb (prepared u) || published u then (k, u)
  else
    let c := candidate u in
    (Cache (baseline_backed_cache k)
       (Graph.swap_in (committed_sources k) (sources c)) (Graph.swap_in (committed_types k) (types c))
       (Graph.swap_in (committed_members k) (members c)) (Graph.swap_in (committed_modifiers k) (modifiers c))
       (Graph.swap_in (committed_enum_values k) (enum_values c)) (Graph.swap_in (committed_objects k) (objects c))
       (Graph.swap_in (committed_links k) (links c)) (Graph.swap_in (committed_construction k) (construction c))
       (statistics c) true,
     Rebuild c (replaced u) (failure u) (prepared u) true).

End Contribution.
