(* ===== verification/GenerationBuilder.v ===== *)
(** * The generation builder

    Models server_engine/project/builder/generation_builder.{hpp,cpp} for a full build:
    [prepare_g0] captures the facts of every Source in a contribution rebuild, [prepare_graph]
    works out a detached graph from it, [publish_prepared] puts both in place.  Also the
    aggregation of the declarations of a type ([add_construction], [remove_construction]).

    The vectors of the detached graph are lists until the end, when room is reserved: what they
    are reserved for before is enough, so that no push of the build allocates.  The clock, the
    telemetry and the sparse update are not modelled. *)

From S2P Require Import Prelude Probing MappedVector Construction SourceFacts RuntimeLayout Graph HeapTables Contribution.

Local Open Scope N_scope.

Module GenerationBuilder.

Import SourceFacts HeapTables Contribution.
Notation type_entry := Graph.type_entry.
Notation TypeEntry := Graph.TypeEntry.
Notation DefinitionRange := Graph.DefinitionRange.
Notation canonical_type := Graph.canonical_type.
Notation CanonicalType := Graph.CanonicalType.
Notation handle_slot := Graph.handle_slot.
Notation HandleSlot := Graph.HandleSlot.
Notation handle := Graph.handle.
Notation fingerprint := Graph.fingerprint.
Notation derived_slot := Graph.derived_slot.
Notation DerivedSlot := Graph.DerivedSlot.
Notation type_ref := Graph.type_ref.
Notation dependency_edge := Graph.dependency_edge.
Notation DependencyEdge := Graph.DependencyEdge.
Notation object_entry := Graph.object_entry.
Notation link_record := Graph.link_record.
Notation fold32 := Graph.fold32.
Notation identity_hash := Graph.identity_hash.

#[local] Existing Instances Graph.canonical_type_kind_eq_dec RuntimeLayout.graph_type_kind_eq_dec Graph.object_endpoint_eq_dec.

#[export] Instance intrinsic_type_eq_dec : EqDecision RuntimeLayout.intrinsic_type.
Proof. solve_decision. Defined.

(** ** Codes *)

Definition intrinsic_types : list RuntimeLayout.intrinsic_type :=
  [RuntimeLayout.none; RuntimeLayout.void_type; RuntimeLayout.bool_type; RuntimeLayout.char_type;
   RuntimeLayout.signed_char; RuntimeLayout.unsigned_char; RuntimeLayout.wchar_type; RuntimeLayout.char8_type;
   RuntimeLayout.char16_type; RuntimeLayout.char32_type; RuntimeLayout.signed_short; RuntimeLayout.unsigned_short;
   RuntimeLayout.signed_int; RuntimeLayout.unsigned_int; RuntimeLayout.signed_long; RuntimeLayout.unsigned_long;
   RuntimeLayout.signed_long_long; RuntimeLayout.unsigned_long_long; RuntimeLayout.float_type;
   RuntimeLayout.double_type; RuntimeLayout.long_double_type; RuntimeLayout.nullptr_type].

(** The enumerators of the codes; the packets hold the codes, the graph the enumerators. *)
Definition intrinsic_of (code : N) : RuntimeLayout.intrinsic_type :=
  default RuntimeLayout.none (intrinsic_types !! N.to_nat code).
Definition record_kind_of (code : N) : RuntimeLayout.source_record_kind :=
  if code =? 1 then RuntimeLayout.class_type else if code =? 2 then RuntimeLayout.union_type else RuntimeLayout.struct_type.
Definition access_of (code : N) : Graph.source_member_access :=
  if code =? 1 then Graph.protected_access else if code =? 2 then Graph.private_access else Graph.public_access.

Definition is_union (kind : RuntimeLayout.source_record_kind) : bool :=
  match kind with RuntimeLayout.union_type => true | _ => false end.
Definition compatible_record_kind (left right : RuntimeLayout.source_record_kind) : bool :=
  Bool.eqb (is_union left) (is_union right).

(** [derived_kind]: the two enumerations list the same modifiers. *)
Definition derived_kind (code : N) : N := if code <=? 6 then code else modifier_pointer.

Definition entry_scoped (e : type_entry) : bool := negb (N.land (Graph.type_flags e) 1 =? 0).
Definition entry_fixed (e : type_entry) : bool := negb (N.land (Graph.type_flags e) 2 =? 0).

Definition checked_index_capacity (n : N) : option N :=
  if n =? 0 then Some 0
  else if size_max / 2 <? n then None
  else
    let minimum := n * 2 in
    let capacity := MappedVector.bit_ceil (if minimum <? 8 then 8 else minimum) in
    if minimum <=? capacity then Some capacity else None.

Definition headroom_capacity : N → option N := reserve_headroom_size.

(** ** Aggregation *)

Definition increment_count (value : N) : option N := if value =? u32_max then None else Some (value + 1).
Definition decrement_count (value : N) : option N := if value =? 0 then None else Some (value - 1).

(** A status, or what the operation leaves. *)
Notation result A := (status_code + A)%type.
Notation "'require' c 'else' code 'in' k" := (if c then k else inl code) (at level 200, c at level 100, code at level 100, k at level 200).
Notation "'counting' x ':=' e 'else' code 'in' k" := (match e with Some x => k | None => inl code end)
  (at level 200, x name, e at level 100, code at level 100, k at level 200).

Definition add_record (st : construction_state) (declared kind_ : N) : result construction_state :=
  let '(s, c, u) := (struct_count st, class_count st, union_count st) in
  let next := increment_count (if kind_ =? 1 then c else if kind_ =? 2 then u else s) in
  counting n := next else not_available in
  let '(s, c, u) := if kind_ =? 1 then (s, n, u) else if kind_ =? 2 then (s, c, n) else (n, c, u) in
  require (u =? 0) || ((s =? 0) && (c =? 0)) else semantic_conflict in
  inr (ConstructionState declared (definition_count st) (definition_type st) s c u (scoped_count st) (unscoped_count st)
    (fixed_count st) (fixed_underlying st) record_contribution).

Definition add_enum (st : construction_state) (declared : N) (item : contribution_type) : result construction_state :=
  let '(s, u) := (scoped_count st, unscoped_count st) in
  counting n := increment_count (if enum_scoped item then s else u) else not_available in
  let '(s, u) := if enum_scoped item then (n, u) else (s, n) in
  require (s =? 0) || (u =? 0) else semantic_conflict in
  let next fixed underlying := ConstructionState declared (definition_count st) (definition_type st) (struct_count st)
    (class_count st) (union_count st) s u fixed underlying enum_contribution in
  if explicit_underlying item =? intrinsic_none then inr (next (fixed_count st) (fixed_underlying st))
  else
    require (fixed_count st =? 0) || (fixed_underlying st =? explicit_underlying item) else semantic_conflict in
    counting n := increment_count (fixed_count st) else not_available in
    inr (next n (explicit_underlying item)).

Definition with_definition (definitions type : N) (st : construction_state) : construction_state :=
  ConstructionState (declared_count st) definitions type (struct_count st) (class_count st) (union_count st)
    (scoped_count st) (unscoped_count st) (fixed_count st) (fixed_underlying st) (construction_kind st).

Definition add_construction (st : construction_state) (item : contribution_type) (one_based : N) : result construction_state :=
  require negb ((contributed_identity item =? 0) || (one_based =? 0)) else invalid_argument in
  require (declared_count st =? 0) || bool_decide (construction_kind st = contributed_kind item) else semantic_conflict in
  counting declared := increment_count (declared_count st) else not_available in
  match (match contributed_kind item with
         | record_contribution => add_record st declared (contributed_record_kind item)
         | enum_contribution => add_enum st declared item
         end) with
  | inl code => inl code
  | inr st =>
      if definition item then
        require definition_count st =? 0 else semantic_conflict in
        inr (with_definition 1 one_based st)
      else inr st
  end.

Definition remove_record (st : construction_state) (kind_ : N) : result construction_state :=
  let '(s, c, u) := (struct_count st, class_count st, union_count st) in
  counting n := decrement_count (if kind_ =? 1 then c else if kind_ =? 2 then u else s) else invalid_argument in
  let '(s, c, u) := if kind_ =? 1 then (s, n, u) else if kind_ =? 2 then (s, c, n) else (n, c, u) in
  inr (ConstructionState (declared_count st) (definition_count st) (definition_type st) s c u (scoped_count st)
    (unscoped_count st) (fixed_count st) (fixed_underlying st) (construction_kind st)).

Definition remove_enum (st : construction_state) (item : contribution_type) : result construction_state :=
  let '(s, u) := (scoped_count st, unscoped_count st) in
  counting n := decrement_count (if enum_scoped item then s else u) else invalid_argument in
  let '(s, u) := if enum_scoped item then (n, u) else (s, n) in
  let next fixed underlying := ConstructionState (declared_count st) (definition_count st) (definition_type st) (struct_count st)
    (class_count st) (union_count st) s u fixed underlying (construction_kind st) in
  if explicit_underlying item =? intrinsic_none then inr (next (fixed_count st) (fixed_underlying st))
  else
    require negb ((fixed_count st =? 0) || negb (fixed_underlying st =? explicit_underlying item)) else invalid_argument in
    let fixed := fixed_count st - 1 in
    inr (next fixed (if fixed =? 0 then intrinsic_none else fixed_underlying st)).

Definition remove_construction (st : construction_state) (item : contribution_type) (one_based : N) : result construction_state :=
  require negb ((declared_count st =? 0) || negb (bool_decide (construction_kind st = contributed_kind item))) else invalid_argument in
  require negb (definition item) || ((definition_count st =? 1) && (definition_type st =? one_based)) else invalid_argument in
  let st := if definition item then with_definition 0 0 st else st in
  match (match contributed_kind item with
         | record_contribution => remove_record st (contributed_record_kind item)
         | enum_contribution => remove_enum st item
         end) with
  | inl code => inl code
  | inr st =>
      counting declared := decrement_count (declared_count st) else invalid_argument in
      inr (if declared =? 0 then no_construction
           else ConstructionState declared (definition_count st) (definition_type st) (struct_count st) (class_count st)
             (union_count st) (scoped_count st) (unscoped_count st) (fixed_count st) (fixed_underlying st) (construction_kind st))
  end.

(** ** The underlying type of an enumeration *)

Section abi.
Context (abi : RuntimeLayout.abi_configuration).

Definition windows : bool := match RuntimeLayout.target abi with RuntimeLayout.windows_x64 => true | _ => false end.

Definition intrinsic_width (code : N) : N :=
  match intrinsic_of code with
  | RuntimeLayout.bool_type => 1
  | RuntimeLayout.char_type | RuntimeLayout.signed_char | RuntimeLayout.unsigned_char | RuntimeLayout.char8_type => 8
  | RuntimeLayout.wchar_type => if windows then 16 else 32
  | RuntimeLayout.char16_type | RuntimeLayout.signed_short | RuntimeLayout.unsigned_short => 16
  | RuntimeLayout.char32_type | RuntimeLayout.signed_int | RuntimeLayout.unsigned_int => 32
  | RuntimeLayout.signed_long | RuntimeLayout.unsigned_long => if windows then 32 else 64
  | RuntimeLayout.signed_long_long | RuntimeLayout.unsigned_long_long => 64
  | _ => 0
  end.

Definition intrinsic_signed (code : N) : bool :=
  match intrinsic_of code with
  | RuntimeLayout.char_type | RuntimeLayout.signed_char | RuntimeLayout.wchar_type | RuntimeLayout.signed_short
  | RuntimeLayout.signed_int | RuntimeLayout.signed_long | RuntimeLayout.signed_long_long => true
  | _ => false
  end.

Definition signed_value (value : contribution_enum_value) : Z :=
  let width := intrinsic_width (value_intrinsic value) in
  if width =? 64 then int64_of_bits (value_bits value)
  else if width =? 0 then 0%Z
  else Z.shiftr (int64_of_bits (w64 (N.shiftl (value_bits value) (64 - width)))) (Z.of_N (64 - width)).

(** The least value below zero and the greatest from zero on, and whether any is negative. *)
Definition widen (range : Z * N * bool) (value : contribution_enum_value) : option (Z * N * bool) :=
  let '(minimum, maximum, negative) := range in
  if intrinsic_width (value_intrinsic value) =? 0 then None
  else if intrinsic_signed (value_intrinsic value) then
    let v := signed_value value in
    if (v <? 0)%Z then Some (if (v <? minimum)%Z then v else minimum, maximum, true)
    else Some (minimum, if maximum <? Z.to_N v then Z.to_N v else maximum, negative)
  else Some (minimum, if maximum <? value_bits value then value_bits value else maximum, negative).

Fixpoint value_range (range : Z * N * bool) (values : list contribution_enum_value) : option (Z * N * bool) :=
  match values with
  | [] => Some range
  | value :: values' => match widen range value with None => None | Some range => value_range range values' end
  end.

Definition select_enum_underlying (values : list contribution_enum_value) : result RuntimeLayout.intrinsic_type :=
  match value_range (0%Z, 0, false) values with
  | None => inl invalid_argument
  | Some (minimum, maximum, negative) =>
      if (-2147483648 <=? minimum)%Z && (maximum <=? 2147483647) then inr RuntimeLayout.signed_int
      else if negb negative && (maximum <=? u32_max) then inr RuntimeLayout.unsigned_int
      else if maximum <=? 9223372036854775807 then
        inr (if windows then RuntimeLayout.signed_long_long else RuntimeLayout.signed_long)
      else if negb negative then
        inr (if windows then RuntimeLayout.unsigned_long_long else RuntimeLayout.unsigned_long)
      else inl semantic_conflict
  end.

End abi.

(** ** The build *)

Section build.
Context (memory : nat → bool) (grown : N → N → N) (abi : RuntimeLayout.abi_configuration).

Notation allocate := (allocate memory).

(** [emit_failure]. *)
Definition emit_failure (code : status_code) (source : N) (detail : string) : build unit :=
  emit memory (build_failed source no_span detail (Some code)).
Definition fail_at {A} (source : N) (code : status_code) (detail : string) : build A :=
  emit_failure code source detail;; stop code.
Definition demand (b : bool) (source : N) (code : status_code) (detail : string) : build unit :=
  if b then mret tt else fail_at source code detail.
Definition reported {A} (source : N) (detail : string) (r : result A) : build A :=
  match r with inl code => fail_at source code detail | inr a => mret a end.

(** [reserve(n)] and [assign(n, x)] of an empty vector. *)
Definition allocate_for (n : N) : build unit := if n =? 0 then mret tt else allocate.

(** A failure is reported with a message of its own; so is what is thrown. *)
Definition explained {A} (detail : string) (m : build A) : build A := λ s,
  match m s with Failed code s' => fail_at 0 code detail s' | o => o end.
Definition rescued {A} (detail : string) (m : build A) : build A := λ s,
  match m s with Thrown s' => fail_at 0 initialization_failed detail s' | o => o end.

Fixpoint folded {A B} (f : A → B → build A) (a : A) (l : list B) : build A :=
  match l with [] => mret a | x :: l' => a ← f a x; folded f a l' end.

(** *** [local_identity_index] *)

Definition identity_slot : Set := N * N.     (* identity, handle *)
Definition taken (s : identity_slot) : option identity_slot := if s.1 =? 0 then None else Some s.

(** A failed allocation is a status here. *)
Definition initialize_index (n : N) : build (list identity_slot) :=
  match checked_index_capacity n with
  | None => stop not_available
  | Some capacity => λ s,
      match allocate_for capacity s with
      | Done _ s' => Done (replicate (N.to_nat capacity) (0, 0)) s'
      | Failed code s' => Failed code s'
      | Thrown s' => Failed initialization_failed s'
      | Endless => Endless
      end
  end.

(** The slots, the handle and whether it is new. *)
Definition insert_or_find (slots : list identity_slot) (identity proposed : N) : result (list identity_slot * N * bool) :=
  if (identity =? 0) || (proposed =? 0) || bool_decide (slots = []) then inl invalid_argument
  else
    match walk taken (λ s, s.1 =? identity) slots (mix64 identity) with
    | None => inl not_available
    | Some (p, None) => inr (<[N.to_nat p := (identity, proposed)]> slots, proposed, true)
    | Some (_, Some s) => inr (slots, s.2, false)
    end.

Definition find_handle (slots : list identity_slot) (identity : N) : N :=
  if (identity =? 0) || bool_decide (slots = []) then 0
  else match walk taken (λ s, s.1 =? identity) slots (mix64 identity) with Some (_, Some s) => s.2 | _ => 0 end.

(** *** Types *)

Record declared_types : Type := DeclaredTypes {
  index_slots : list identity_slot; declared : list type_entry; declared_identities : list N;
  aggregated : list construction_state; declaration_handles : list N; definition_seen : list bool }.

Definition blank_entry : type_entry :=
  TypeEntry (DefinitionRange 0 0) RuntimeLayout.record_kind RuntimeLayout.struct_type RuntimeLayout.none 0.

Definition first_entry (item : contribution_type) : type_entry :=
  match contributed_kind item with
  | record_contribution =>
      TypeEntry (DefinitionRange 0 0) RuntimeLayout.record_kind (record_kind_of (contributed_record_kind item)) RuntimeLayout.none 0x80
  | enum_contribution =>
      TypeEntry (DefinitionRange 0 0) RuntimeLayout.enumeration RuntimeLayout.struct_type
        (if explicit_underlying item =? intrinsic_none then RuntimeLayout.signed_int else intrinsic_of (explicit_underlying item))
        (N.lor (N.lor 0x80 (if enum_scoped item then 1 else 0)) (if explicit_underlying item =? intrinsic_none then 0 else 2))
  end.

Definition with_entry (kind : RuntimeLayout.source_record_kind) (underlying : RuntimeLayout.intrinsic_type) (flags : N) (e : type_entry) : type_entry :=
  TypeEntry (Graph.definition e) (Graph.type_kind e) kind underlying flags.

(** A declaration of a type that has one already. *)
Definition merge_entry (source : N) (e : type_entry) (item : contribution_type) : build type_entry :=
  match Graph.type_kind e, contributed_kind item with
  | RuntimeLayout.record_kind, record_contribution =>
      demand (compatible_record_kind (Graph.record_kind e) (record_kind_of (contributed_record_kind item))) source
        semantic_conflict "union/non-union redeclaration conflict";;
      mret (if definition item
        then with_entry (record_kind_of (contributed_record_kind item)) (Graph.enum_underlying e) (Graph.type_flags e) e else e)
  | RuntimeLayout.enumeration, enum_contribution =>
      demand (Bool.eqb (entry_scoped e) (enum_scoped item)) source semantic_conflict "scoped enum redeclaration conflict";;
      if explicit_underlying item =? intrinsic_none then mret e
      else
        demand (negb (entry_fixed e) || bool_decide (Graph.enum_underlying e = intrinsic_of (explicit_underlying item))) source
          semantic_conflict "enum underlying type conflict";;
        mret (with_entry (Graph.record_kind e) (intrinsic_of (explicit_underlying item)) (N.lor (Graph.type_flags e) 2) e)
  | _, _ => fail_at source semantic_conflict "record/enum identity kind conflict"
  end.

Definition declare_type (source : N) (d : declared_types) (declaration : N * contribution_type) : build declared_types :=
  let '(global_index, item) := declaration in
  '(slots, handle_value, inserted) ← reported source "identity_ref materialization failed"
    (insert_or_find (index_slots d) (contributed_identity item) (w32 (size (declared d) + 1)));
  let handles := <[N.to_nat global_index := handle_value]> (declaration_handles d) in
  let construction := default no_construction (aggregated d !! N.to_nat handle_value) in
  construction ← reported source "SourceContribution construction aggregation failed"
    (add_construction construction item (w32 (global_index + 1)));
  let constructions := <[N.to_nat handle_value := construction]> (aggregated d) in
  if (inserted : bool) then
    mret (DeclaredTypes slots (declared d ++ [first_entry item]) (declared_identities d ++ [contributed_identity item])
      constructions handles (definition_seen d ++ [false]))
  else
    let position := N.to_nat (handle_value - 1) in
    entry ← merge_entry source (default blank_entry (declared d !! position)) item;
    mret (DeclaredTypes slots (<[position := entry]> (declared d)) (declared_identities d) constructions handles (definition_seen d)).

(** The values of a range, with their positions. *)
Definition slice {A} (values : list A) (range : source_fact_range) : list (N * A) :=
  zip ((λ i, begin range + N.of_nat i) <$> seq 0 (N.to_nat (count range)))
    (take (N.to_nat (count range)) (drop (N.to_nat (begin range)) values)).
Definition range_in {A} (values : list A) (range : source_fact_range) : bool :=
  (begin range <=? size values) && (count range <=? size values - begin range).

(** The slots of the Sources behind the first that are in use. *)
Definition present_sources (c : storage) : list contribution_state :=
  filter (λ st, state_source st ≠ 0) (drop 1 (items (sources c))).

Definition declare_source (c : storage) (d : declared_types) (st : contribution_state) : build declared_types :=
  demand (range_in (items (types c)) (state_types st)) (state_source st) invalid_argument "SourceContribution type range invalid";;
  folded (declare_type (state_source st)) d (slice (items (types c)) (state_types st)).

(** *** The index of the detached graph *)

(** The two insertion loops over the keys of values.  The loops have no bound; [None] is that
    one would not end. *)
Definition occupied (s : handle_slot) : option handle_slot := if handle s =? 0 then None else Some s.
Definition insert_slot {V K} `{!EqDecision K} (key : V → K) (hash : K → N) (values : list V) (slots : list handle_slot) (k : K)
    (new_handle : N) : option (list handle_slot * bool) :=
  let matches s := (fingerprint s =? fold32 (hash k)) && (handle s <=? size values) &&
    match values !! N.to_nat (handle s - 1) with Some v => bool_decide (key v = k) | None => false end in
  match walk occupied matches slots (hash k) with
  | None => None
  | Some (p, None) => Some (<[N.to_nat p := HandleSlot (fold32 (hash k)) new_handle]> slots, true)
  | Some (_, Some _) => Some (slots, false)
  end.

Fixpoint insert_slots (hash : N → N) (identities : list N) (slots : list handle_slot) (keys : list N) (new_handle : N) :
    option (list handle_slot) :=
  match keys with
  | [] => Some slots
  | k :: keys' =>
      '(slots, _) ← insert_slot id hash identities slots k (w32 new_handle);
      insert_slots hash identities slots keys' (new_handle + 1)
  end.

Definition vacant_handle : handle_slot := HandleSlot 0 0.

Definition identity_table (capacity : N) (identities : list N) : build (list handle_slot) :=
  allocate_for capacity;;
  match insert_slots identity_hash identities (replicate (N.to_nat capacity) vacant_handle) identities 1 with
  | Some slots => mret slots
  | None => λ _, Endless
  end.

(** *** Objects *)

Record declared_objects : Type := DeclaredObjects {
  object_slots : list identity_slot; object_identities : list N; object_bases : list N }.

Definition member_base (slots : list identity_slot) (item : contribution_member) : build N :=
  let identity := base_identity (contributed_type item) in
  if identity =? 0 then mret 0
  else
    let h := find_handle slots identity in
    demand (negb (h =? 0)) 0 semantic_conflict "member identity_ref has no Project type declaration";;
    mret h.

Definition declare_object (slots : list identity_slot) (d : declared_objects) (item : contribution_object) : build declared_objects :=
  '(oslots, _, inserted) ← reported 0 "object identity_ref materialization failed"
    (insert_or_find (object_slots d) (contributed_object item) (w32 (size (object_identities d) + 1)));
  demand inserted 0 semantic_conflict "multiple Project object declarations";;
  let identity := base_identity (contributed_object_type item) in
  base ← (if identity =? 0 then mret 0
    else
      let h := find_handle slots identity in
      demand (negb (h =? 0)) 0 semantic_conflict "object identity_ref has no Project type declaration";;
      mret h);
  mret (DeclaredObjects oslots (object_identities d ++ [contributed_object item]) (object_bases d ++ [base])).

(** *** Type references *)

Record references : Type := References {
  canonical : list canonical_type; intrinsic_refs : list N; named_refs : list N;
  derived_slots : list derived_slot; derived_entries : N }.

Definition append_canonical (record : canonical_type) (r : references) : result (N * references) :=
  if u32_max <=? size (canonical r) then inl not_available
  else inr (w32 (size (canonical r)),
    References (canonical r ++ [record]) (intrinsic_refs r) (named_refs r) (derived_slots r) (derived_entries r)).

Definition get_intrinsic (code : N) (r : references) : result (N * references) :=
  match intrinsic_refs r !! N.to_nat code with
  | None => inl invalid_argument
  | Some ref =>
      if code =? intrinsic_none then inl invalid_argument
      else if negb (ref =? 0) then inr (ref, r)
      else
        match append_canonical (CanonicalType 0 0 Graph.intrinsic_kind code) r with
        | inl code => inl code
        | inr (ref, r) => inr (ref, References (canonical r) (<[N.to_nat code := ref]> (intrinsic_refs r)) (named_refs r)
            (derived_slots r) (derived_entries r))
        end
  end.

Definition get_named (h : N) (r : references) : result (N * references) :=
  match named_refs r !! N.to_nat h with
  | None => inl invalid_argument
  | Some ref =>
      if h =? 0 then inl invalid_argument
      else if negb (ref =? 0) then inr (ref, r)
      else
        match append_canonical (CanonicalType 0 h Graph.named_kind 0) r with
        | inl code => inl code
        | inr (ref, r) => inr (ref, References (canonical r) (intrinsic_refs r) (<[N.to_nat h := ref]> (named_refs r))
            (derived_slots r) (derived_entries r))
        end
  end.

Definition referring (s : derived_slot) : option derived_slot := if type_ref s =? 0 then None else Some s.

Definition same_derived (record : canonical_type) (r : references) (s : derived_slot) : bool :=
  (Graph.derived_fingerprint s =?
     fold32 (Graph.derived_hash (Graph.detail record) (Graph.child_or_handle record) (Graph.payload record))) &&
  match canonical r !! N.to_nat (type_ref s) with
  | Some c => bool_decide (Graph.canonical_kind c = Graph.derived_kind) && (Graph.detail c =? Graph.detail record) &&
      (Graph.child_or_handle c =? Graph.child_or_handle record) && (Graph.payload c =? Graph.payload record)
  | None => false
  end.

Definition get_derived (kind_ child payload : N) (r : references) : result (N * references) :=
  if (child =? 0) || bool_decide (derived_slots r = []) then inl invalid_argument
  else
    let record := CanonicalType payload child Graph.derived_kind kind_ in
    let h := Graph.derived_hash kind_ child payload in
    match walk referring (same_derived record r) (derived_slots r) h with
    | None => inl not_available
    | Some (_, Some s) => inr (type_ref s, r)
    | Some (p, None) =>
        match append_canonical record r with
        | inl code => inl code
        | inr (ref, r) => inr (ref, References (canonical r) (intrinsic_refs r) (named_refs r)
            (<[N.to_nat p := DerivedSlot (fold32 h) ref]> (derived_slots r)) (derived_entries r + 1))
        end
    end.

Definition wrap (what : string) (a : N * references) (m : source_type_modifier) : build (N * references) :=
  reported 0 what (get_derived (derived_kind (modifier_code m)) a.1 (modifier_payload m) a.2).

(** The type of a member or an object: its base, then its modifiers from the inside out. *)
Definition materialize (base_failed range_failed derived_failed : string) (modifiers : list source_type_modifier)
    (t : contribution_type_ref) (base_handle : N) (r : references) : build (N * references) :=
  a ← reported 0 base_failed (if base_identity t =? 0 then get_intrinsic (base_intrinsic t) r else get_named base_handle r);
  demand (range_in modifiers (type_modifiers t)) 0 invalid_argument range_failed;;
  folded (wrap derived_failed) a (snd <$> slice modifiers (type_modifiers t)).

Definition materialize_member (modifiers : list source_type_modifier) (a : list N * references) (m : contribution_member * N) :
    build (list N * references) :=
  '(ref, r) ← materialize "member base TypeRef materialization failed" "member modifier range invalid"
    "derived TypeRef materialization failed" modifiers (contributed_type m.1) m.2 a.2;
  mret (a.1 ++ [ref], r).

Definition materialize_object (modifiers : list source_type_modifier) (a : list object_entry * references)
    (o : contribution_object * N) : build (list object_entry * references) :=
  '(ref, r) ← materialize "object base TypeRef materialization failed" "object modifier range invalid"
    "object derived TypeRef materialization failed" modifiers (contributed_object_type o.1) o.2 a.2;
  mret (a.1 ++ [RuntimeLayout.ObjectEntry ref (N.lor 0x80000000 (contributed_flags o.1))], r).

(** *** Definitions *)

Record definitions : Type := Definitions {
  seen : list bool; entries : list type_entry; built_members : list Graph.member_record;
  built_values : list Graph.enum_value_record; dependency_heads : list N; dependency_edges : list dependency_edge }.

(** One member: its record, and the edge to the type it names. *)
Definition define_member (owner : N) (d : definitions) (m : contribution_member * N * N) : definitions :=
  let '(item, ref, base) := m in
  let built := built_members d ++ [Graph.MemberRecord (contributed_name item) ref (access_of (contributed_access item))
    (contributed_construction item)] in
  if base_identity (contributed_type item) =? 0 then
    Definitions (seen d) (entries d) built (built_values d) (dependency_heads d) (dependency_edges d)
  else
    let position := N.to_nat (base - 1) in
    let edges := dependency_edges d ++ [DependencyEdge owner (default 0 (dependency_heads d !! position)) 1] in
    Definitions (seen d) (entries d) built (built_values d) (<[position := w32 (size edges)]> (dependency_heads d)) edges.

Definition with_range (range : Graph.definition_range) (e : type_entry) : type_entry :=
  TypeEntry range (Graph.type_kind e) (Graph.record_kind e) (Graph.enum_underlying e) (Graph.type_flags e).

Definition set_entry (position : nat) (e : type_entry) (d : definitions) : definitions :=
  Definitions (seen d) (<[position := e]> (entries d)) (built_members d) (built_values d) (dependency_heads d) (dependency_edges d).

Definition define_record (source : N) (c : storage) (refs bases : list N) (handle_value : N) (d : definitions)
    (item : contribution_type) : build definitions :=
  let position := N.to_nat (handle_value - 1) in
  let entry := default blank_entry (entries d !! position) in
  let range := definition_items item in
  demand (range_in (items (members c)) range && (size (built_members d) <? u32_max) && (count range <=? u32_max)) source
    not_available "record definition range too large";;
  let d := set_entry position (with_range (DefinitionRange (w32 (size (built_members d) + 1)) (w32 (count range))) entry) d in
  mret (foldl (define_member handle_value) d
    (snd <$> slice (zip (zip (items (members c)) refs) bases) range)).

Definition enum_entry (entry : type_entry) (item : contribution_type) (values : list contribution_enum_value) :
    result type_entry :=
  if entry_fixed entry then inr entry
  else if negb (explicit_underlying item =? intrinsic_none) then
    inr (with_entry (Graph.record_kind entry) (intrinsic_of (explicit_underlying item)) (N.lor (Graph.type_flags entry) 2) entry)
  else if enum_scoped item then inr (with_entry (Graph.record_kind entry) RuntimeLayout.signed_int (Graph.type_flags entry) entry)
  else match select_enum_underlying abi values with
       | inl code => inl code
       | inr underlying => inr (with_entry (Graph.record_kind entry) underlying (Graph.type_flags entry) entry)
       end.

Definition built_value (v : contribution_enum_value) : Graph.enum_value_record :=
  Graph.EnumValueRecord (value_bits v) (contributed_value_name v) (intrinsic_of (value_intrinsic v)).

Definition define_enum (source : N) (c : storage) (handle_value : N) (d : definitions) (item : contribution_type) : build definitions :=
  let position := N.to_nat (handle_value - 1) in
  let entry := default blank_entry (entries d !! position) in
  let range := definition_items item in
  demand (range_in (items (enum_values c)) range && (size (built_values d) <? u32_max) && (count range <=? u32_max)) source
    not_available "enum definition range too large";;
  let values := snd <$> slice (items (enum_values c)) range in
  entry ← reported source "enum underlying selection failed" (enum_entry entry item values);
  let d := set_entry position (with_range (DefinitionRange (w32 (size (built_values d) + 1)) (w32 (count range))) entry) d in
  mret (Definitions (seen d) (entries d) (built_members d) (built_values d ++ (built_value <$> values)) (dependency_heads d)
    (dependency_edges d)).

Definition define_type (c : storage) (handles refs bases : list N) (source : N) (d : definitions) (declaration : N * contribution_type) :
    build definitions :=
  let '(global_index, item) := declaration in
  if negb (definition item) then mret d
  else
    let handle_value := default 0 (handles !! N.to_nat global_index) in
    let position := N.to_nat (handle_value - 1) in
    demand (negb (default false (seen d !! position))) source semantic_conflict "multiple type definitions";;
    let d := Definitions (<[position := true]> (seen d)) (entries d) (built_members d) (built_values d) (dependency_heads d)
      (dependency_edges d) in
    match contributed_kind item with
    | record_contribution => define_record source c refs bases handle_value d item
    | enum_contribution => define_enum source c handle_value d item
    end.

Definition define_source (c : storage) (handles refs bases : list N) (d : definitions) (st : contribution_state) : build definitions :=
  folded (define_type c handles refs bases (state_source st)) d (slice (items (types c)) (state_types st)).

(** *** Links *)

Definition validate_endpoint (objects : list object_entry) (canonical : list canonical_type) (types : list type_entry)
    (e : Graph.object_endpoint) : bool :=
  let object := RuntimeLayout.endpoint_object e in
  if (object =? 0) || negb (RuntimeLayout.member_valid (RuntimeLayout.endpoint_member e)) then false
  else
    match objects !! N.to_nat (object - 1) with
    | None => false
    | Some o =>
        if negb (Graph.object_live o) || (RuntimeLayout.object_type o =? 0) then false
        else
          match canonical !! N.to_nat (RuntimeLayout.object_type o) with
          | None => false
          | Some t =>
              if negb (bool_decide (Graph.canonical_kind t = Graph.named_kind)) || (Graph.child_or_handle t =? 0) then false
              else
                match types !! N.to_nat (Graph.child_or_handle t - 1) with
                | None => false
                | Some e' => Graph.type_live e' && bool_decide (Graph.type_kind e' = RuntimeLayout.record_kind) && Graph.defined e' &&
                    (RuntimeLayout.endpoint_member e <? Graph.range_length (Graph.definition e'))
                end
          end
    end.

Definition built_link (oslots : list identity_slot) (l : contribution_link) : link_record :=
  let endpoint (e : source_object_endpoint_fact) :=
    RuntimeLayout.Endpoint (find_handle oslots (endpoint_object e)) (endpoint_member e) in
  RuntimeLayout.Link (endpoint (contributed_source l)) (endpoint (contributed_target l)).

(** [false] where there is no vacant slot, or the target has a link. *)
Definition insert_link_slot (links : list link_record) (slots : list handle_slot) (target : Graph.object_endpoint) (new_handle : N) :
    option (list handle_slot) :=
  if bool_decide (slots = []) || (RuntimeLayout.endpoint_object target =? 0) ||
     negb (RuntimeLayout.member_valid (RuntimeLayout.endpoint_member target)) || (new_handle =? 0) then None
  else
    match insert_slot RuntimeLayout.link_target Graph.endpoint_hash links slots target new_handle with
    | Some (slots, true) => Some slots
    | _ => None
    end.

Definition add_link (oslots : list identity_slot) (valid : Graph.object_endpoint → bool) (source : N)
    (a : list link_record * list handle_slot) (l : contribution_link) : build (list link_record * list handle_slot) :=
  let link := built_link oslots l in
  demand (negb ((RuntimeLayout.endpoint_object (RuntimeLayout.link_source link) =? 0) ||
      (RuntimeLayout.endpoint_object (RuntimeLayout.link_target link) =? 0))) source
    semantic_conflict "link endpoint object absent from Graph";;
  demand (valid (RuntimeLayout.link_source link) && valid (RuntimeLayout.link_target link)) source semantic_conflict
    "link endpoint is not a live record member";;
  let links := a.1 ++ [link] in
  match insert_link_slot links a.2 (RuntimeLayout.link_target link) (w32 (size links)) with
  | Some slots => mret (links, slots)
  | None => fail_at source semantic_conflict "multiple links target the same endpoint"
  end.

Definition add_source_links (c : storage) (oslots : list identity_slot) (valid : Graph.object_endpoint → bool)
    (a : list link_record * list handle_slot) (st : contribution_state) : build (list link_record * list handle_slot) :=
  demand (range_in (items (links c)) (state_links st)) (state_source st) invalid_argument "SourceContribution link range invalid";;
  folded (add_link oslots valid (state_source st)) a (snd <$> slice (items (links c)) (state_links st)).

(** *** The whole *)

(** [reserve_headroom]: [n] values were reserved before. *)
Definition with_headroom {A} (n : N) (l : list A) : build (heap_vector A) :=
  let v := HeapVector l n in
  match headroom_capacity (size l) with
  | None => stop not_available
  | Some capacity => λ s,
      match room memory v capacity s with
      | Done _ s' => Done (reserved grown v capacity) s'
      | Failed code s' => Failed code s'
      | Thrown s' => Failed initialization_failed s'
      | Endless => Endless
      end
  end.

(** The capacity of an empty vector that [n] values are reserved for. *)
Definition fresh_capacity (n : N) : N := if n =? 0 then 0 else grown 0 n.
Definition table_vector {A} (l : list A) : heap_vector A := HeapVector l (fresh_capacity (size l)).

(** The checks at the end. *)
Definition check_type (d : definitions) (identities : list N) (index : N) : build unit :=
  demand (negb (default 0 (identities !! N.to_nat index) =? 0)) 0 invalid_argument "detached Graph contains null identity_ref";;
  let entry := default blank_entry (entries d !! N.to_nat index) in
  if negb (Graph.range_valid (Graph.definition entry)) then mret tt
  else
    let arena := match Graph.type_kind entry with
                 | RuntimeLayout.record_kind => size (built_members d)
                 | RuntimeLayout.enumeration => size (built_values d)
                 end in
    let first := Graph.range_first (Graph.definition entry) - 1 in
    demand ((first <=? arena) && (Graph.range_length (Graph.definition entry) <=? arena - first)) 0 invalid_argument
      "detached Graph definition range invalid".

Definition check_object (canonical_count : N) (o : N * object_entry) : build unit :=
  demand (negb (o.1 =? 0) && Graph.object_live o.2 && negb (RuntimeLayout.object_type o.2 =? 0) &&
    (RuntimeLayout.object_type o.2 <? canonical_count)) 0 invalid_argument "detached Graph object invalid".

Definition check_canonical (type_count canonical_count : N) (t : canonical_type) : build unit :=
  match Graph.canonical_kind t with
  | Graph.intrinsic_kind => mret tt
  | Graph.named_kind =>
      demand (negb (Graph.child_or_handle t =? 0) && (Graph.child_or_handle t <=? type_count)) 0 invalid_argument
        "named TypeRef handle invalid"
  | Graph.derived_kind =>
      demand (negb (Graph.child_or_handle t =? 0) && (Graph.child_or_handle t <? canonical_count)) 0 invalid_argument
        "derived TypeRef child invalid"
  end.

Definition check_graph (d : definitions) (identities oidentities : list N) (objects : list object_entry)
    (links : list link_record) (canonical : list canonical_type) : build unit :=
  demand ((size (entries d) =? size identities) && (size (entries d) =? size (seen d))) 0 invalid_argument
    "detached Graph type arrays diverged";;
  each (check_type d identities) (indices (entries d));;
  demand (size objects =? size oidentities) 0 invalid_argument "detached Graph object arrays diverged";;
  each (check_object (size canonical)) (zip oidentities objects);;
  each (λ l, demand (Graph.link_live l) 0 invalid_argument "detached Graph link invalid") links;;
  each (check_canonical (size (entries d)) (size canonical)) (drop 1 canonical).

Definition no_canonical : canonical_type := CanonicalType 0 0 Graph.intrinsic_kind 0.

(** The types that are declared, their index and the bases of the members and objects. *)
Definition declare_all : build (declared_types * list handle_slot * list N * declared_objects) :=
  c ← storing id;
  islots ← explained "Graph type identity index allocation failed" (initialize_index (size (items (types c))));
  oslots ← explained "Graph object identity index allocation failed" (initialize_index (size (items (objects c))));
  each allocate_for [size (items (types c)); size (items (types c)); size (items (members c)); size (items (enum_values c));
    size (items (objects c)); size (items (objects c)); size (items (links c));
    1 + size (items (members c)) + size (items (objects c)) + size (items (modifiers c))];;
  room memory (construction c) (size (items (types c)) + 1);;
  set_candidate (λ c, with_construction (resized grown (construction c) (size (items (types c)) + 1) no_construction) c);;
  each allocate_for [size (items (types c)); size (items (members c)); size (items (members c)); size (items (objects c));
    size (items (objects c)); size (items (types c))];;
  constructions ← storing construction;
  d ← folded (declare_source c)
    (DeclaredTypes islots [] [] (items constructions) (replicate (length (items (types c))) 0) []) (present_sources c);
  set_candidate (λ c, with_construction (resized grown (HeapVector (aggregated d) (items_capacity (construction c)))
    (size (declared d) + 1) no_construction) c);;
  capacity ← reported 0 "Generation identity index too large"
    (match checked_index_capacity (size (declared d)) with Some n => inr n | None => inl not_available end);
  table ← identity_table capacity (declared_identities d);
  bases ← folded (λ l m, base ← member_base (index_slots d) m; mret (l ++ [base])) [] (items (members c));
  o ← folded (declare_object (index_slots d)) (DeclaredObjects oslots [] []) (items (objects c));
  mret (d, table, bases, o).

(** The types of the members and the objects. *)
Definition refer_all (d : declared_types) (bases : list N) (o : declared_objects) :
    build (list N * list object_entry * references) :=
  c ← storing id;
  allocate_for (size (declared d) + 1);;
  capacity ← reported 0 "Derived TypeRef index too large"
    (if size (items (modifiers c)) =? 0 then inr 8
     else match checked_index_capacity (size (items (modifiers c))) with Some n => inr n | None => inl not_available end);
  allocate_for capacity;;
  let r := References [no_canonical] (replicate Graph.graph_intrinsic_type_count 0) (replicate (S (length (declared d))) 0)
    (replicate (N.to_nat capacity) (DerivedSlot 0 0)) 0 in
  '(refs, r) ← folded (materialize_member (items (modifiers c))) ([], r) (zip (items (members c)) bases);
  '(objects, r) ← folded (materialize_object (items (modifiers c))) ([], r) (zip (items (objects c)) (object_bases o));
  mret (refs, objects, r).

(** The definitions, and the links with their index. *)
Definition define_all (d : declared_types) (refs bases : list N) : build definitions :=
  c ← storing id;
  each allocate_for [size (declared d); size (declared d); size (items (members c))];;
  folded (define_source c (declaration_handles d) refs bases)
    (Definitions (definition_seen d) (declared d) [] [] (replicate (length (declared d)) 0) []) (present_sources c).

Definition link_all (o : declared_objects) (objects : list object_entry) (canonical : list canonical_type) (types : list type_entry) :
    build (list handle_slot * list link_record * list handle_slot) :=
  c ← storing id;
  capacity ← reported 0 "Graph object identity index too large"
    (match checked_index_capacity (size objects) with Some n => inr n | None => inl not_available end);
  otable ← identity_table (if capacity =? 0 then 8 else capacity) (object_identities o);
  capacity ← reported 0 "Graph link index too large"
    (match checked_index_capacity (size (items (links c))) with Some n => inr n | None => inl not_available end);
  let capacity := if capacity =? 0 then 8 else capacity in
  allocate_for capacity;;
  '(links, ltable) ← folded (add_source_links c (object_slots o) (validate_endpoint objects canonical types))
    ([], replicate (N.to_nat capacity) vacant_handle) (present_sources c);
  mret (otable, links, ltable).

Definition build_graph : build Graph.prepared_graph_generation :=
  '(d, table, bases, o) ← declare_all;
  '(refs, objects, r) ← refer_all d bases o;
  c ← storing id;
  f ← define_all d refs bases;
  '(otable, links, ltable) ← link_all o objects (canonical r) (entries f);
  let types_ := size (items (types c)) in
  let objects_ := size (items (Contribution.objects c)) in
  vtypes ← with_headroom (fresh_capacity types_) (entries f);
  videntities ← with_headroom (fresh_capacity types_) (declared_identities d);
  vmembers ← with_headroom (fresh_capacity (size (items (members c)))) (built_members f);
  vvalues ← with_headroom (fresh_capacity (size (items (enum_values c)))) (built_values f);
  vobjects ← with_headroom (fresh_capacity objects_) objects;
  voidentities ← with_headroom (fresh_capacity objects_) (object_identities o);
  vlinks ← with_headroom (fresh_capacity (size (items (Contribution.links c)))) links;
  vcanonical ← with_headroom (fresh_capacity (1 + size (items (members c)) + objects_ + size (items (modifiers c)))) (canonical r);
  vnamed ← with_headroom (fresh_capacity (size (named_refs r))) (named_refs r);
  vversions ← with_headroom (fresh_capacity (size (entries f))) (replicate (length (entries f)) 1);
  vheads ← with_headroom (fresh_capacity (size (entries f))) (dependency_heads f);
  vedges ← with_headroom (fresh_capacity (size (items (members c)))) (dependency_edges f);
  check_graph f (declared_identities d) (object_identities o) objects links (canonical r);;
  mret (Graph.Generation vtypes videntities vmembers vvalues vobjects voidentities vlinks vcanonical
    (table_vector table) (table_vector otable) (table_vector ltable) vnamed (table_vector (derived_slots r)) vversions vheads vedges
    (Graph.Counts (derived_entries r) (size (entries f)) (size objects) (size links) (intrinsic_refs r))).

(** [prepare_graph]: what is thrown inside becomes a status with a message. *)
Definition prepare_graph : build Graph.prepared_graph_generation :=
  c ← storing id;
  demand ((size (items (types c)) <? u32_max) && (size (items (Contribution.objects c)) <? u32_max) &&
    (size (items (Contribution.links c)) <? u32_max)) 0 not_available "Too many Graph declarations";;
  rescued "Full Graph preparation failed" build_graph.

(** *** The builder *)

(** [checked_add_size] over the Sources. *)
Fixpoint checked_sum (l : list N) (total : N) : option N :=
  match l with
  | [] => Some total
  | n :: l' => if size_max - total <? n then None else checked_sum l' (total + n)
  end.

Definition counts_of (f : source_facts) : list (list N) :=
  [[size (SourceFacts.records f); size (SourceFacts.enums f)]; [size (SourceFacts.members f)]; [size (SourceFacts.modifiers f)];
   [size (SourceFacts.enum_values f)]; [size (SourceFacts.objects f)]; [size (SourceFacts.links f)]].

(** The totals, or the Source where one overflows. *)
Fixpoint totals (sources : list source_facts) (a : list N) : N + list N :=
  match sources with
  | [] => inr a
  | f :: sources' =>
      match mapM (λ p, checked_sum p.1 p.2) (zip (counts_of f) a) with
      | None => inl (source f)
      | Some a => totals sources' a
      end
  end.

Definition max_source (sources : list source_facts) : N := foldl N.max 0 (source <$> sources).

Definition prepare_g0 (sources : list source_facts) : build Graph.prepared_graph_generation :=
  a ← (match totals sources (replicate 6 0) with
       | inl source => fail_at source not_available "G0 contribution counts overflow"
       | inr a => mret a
       end);
  let total i := default 0 (a !! i) in
  explained "SourceContribution G0 reserve failed"
    (reserve_rebuild memory grown (max_source sources) (total 0%nat) (total 1%nat) (total 2%nat) (total 3%nat) (total 4%nat) (total 5%nat));;
  each (replace memory grown) sources;;
  g ← prepare_graph;
  explained "SourceContribution prepare failed" prepare_publish;;
  mret g.
End build.

(** The builder over a cache and a graph; [none] is no build yet. *)
Record generation_builder : Type := Builder {
  contribution_cache : cache; target : Graph.graph; contributions : rebuild;
  prepared_graph : option Graph.prepared_graph_generation; builder_published : bool }.

(** What a call answers: the status, the builder and the diagnostics; [None] is that it would not end. *)
Definition builder_prepare_g0 (memory : nat → bool) (grown : N → N → N) (b : generation_builder) (sources : list source_facts)
    (abi : RuntimeLayout.abi_configuration) : option (status_code * generation_builder * list build_diagnostic) :=
  if bool_decide (is_Some (prepared_graph b)) || builder_published b || negb (RuntimeLayout.is_supported_abi_configuration abi)
  then Some (invalid_argument, b, [])
  else
    match prepare_g0 memory grown abi sources (Building begin_rebuild [] 0) with
    | Done g s => Some (ok, Builder (contribution_cache b) (target b) (updating s) (Some g) false, emitted s)
    | Failed code s => Some (code, Builder (contribution_cache b) (target b) (updating s) None false, emitted s)
    | Thrown s => Some (initialization_failed, Builder (contribution_cache b) (target b) (updating s) None false, emitted s)
    | Endless => None
    end.

(** [publish_prepared] of a rebuild. *)
Definition builder_publish (b : generation_builder) : generation_builder :=
  match prepared_graph b with
  | Some g =>
      if builder_published b then b
      else
        let '(k, u) := publish_rebuild (contribution_cache b) (contributions b) in
        Builder k (Graph.publish_generation (target b) g) u (Some g) true
  | None => b
  end.

End GenerationBuilder.
