(* ===== verification/GenerationRules.v ===== *)
(** * Rules of the build

    What the operations of a build leave where they do not fail, as rules over the code; the
    rules of the loops, and the walks of the tables of identities. *)

From S2P Require Import Prelude Probing MappedVector Construction SourceFacts RuntimeLayout Graph HeapTables Contribution GenerationBuilder.

Local Open Scope N_scope.

Module GenerationRules.

Import Probing SourceFacts HeapTables Contribution GenerationBuilder.

(** The operation ends, and what it leaves where it does not fail. *)
Definition wp {A} (m : build A) (s : building) (Q : A → building → Prop) : Prop :=
  match m s with Done a s' => Q a s' | Endless => False | _ => True end.

Lemma bwp_ret {A} (a : A) s (Q : A → building → Prop) : Q a s → wp (mret a) s Q.
Proof. done. Qed.

Lemma bwp_bind {A B} (m : build A) (k : A → build B) s Q : wp m s (λ a s', wp (k a) s' Q) → wp (m ≫= k) s Q.
Proof. unfold wp, mbind, build_bind. by destruct (m s). Qed.

Lemma bwp_mono {A} (m : build A) s (Q R : A → building → Prop) : wp m s Q → (∀ a s', Q a s' → R a s') → wp m s R.
Proof. unfold wp. destruct (m s); auto. Qed.

Lemma bwp_done {A} (m : build A) s a s' (Q : A → building → Prop) : wp m s Q → m s = Done a s' → Q a s'.
Proof. unfold wp. intros H E. by rewrite E in H. Qed.

Lemma bwp_read {A} (f : building → A) s (Q : A → building → Prop) : Q (f s) s → wp (read f) s Q.
Proof. done. Qed.

Lemma bwp_stop {A} code s (Q : A → building → Prop) : wp (stop code) s Q.
Proof. done. Qed.

Lemma bwp_update f s (Q : unit → building → Prop) :
  Q tt (Building (f (updating s)) (emitted s) (allocations s)) → wp (set_update f) s Q.
Proof. done. Qed.

Lemma bwp_updated f s (Q : unit → building → Prop) : (∀ s', updating s' = f (updating s) → Q tt s') → wp (set_update f) s Q.
Proof. intros H. by apply bwp_update, H. Qed.

Lemma bwp_fail_with {A} code s (Q : A → building → Prop) : wp (fail_with code) s Q.
Proof. done. Qed.

Lemma bwp_if {A} (b : bool) (m1 m2 : build A) s Q :
  (b = true → wp m1 s Q) → (b = false → wp m2 s Q) → wp (if b then m1 else m2) s Q.
Proof. destruct b; auto. Qed.

(** ** What leaves the update in place *)

Definition stays (s s' : building) : Prop := updating s' = updating s.

Section memory.
Context (memory : nat → bool) (grown : N → N → N).

Lemma bwp_allocate s (Q : unit → building → Prop) : (∀ s', stays s s' → Q tt s') → wp (allocate memory) s Q.
Proof. intros H. unfold wp, allocate. destruct (memory _); [by apply H|done]. Qed.

Lemma bwp_emit d s (Q : unit → building → Prop) : (∀ s', stays s s' → Q tt s') → wp (emit memory d) s Q.
Proof. intros H. unfold wp, emit, allocate. destruct (memory _); by apply H. Qed.

Lemma bwp_allocate_for n s (Q : unit → building → Prop) : (∀ s', stays s s' → Q tt s') → wp (allocate_for memory n) s Q.
Proof. intros H. unfold allocate_for. apply bwp_if; intros _; [by apply bwp_ret, H|by apply bwp_allocate]. Qed.

Lemma bwp_room {A} (v : heap_vector A) n s (Q : unit → building → Prop) : (∀ s', stays s s' → Q tt s') → wp (room memory v n) s Q.
Proof. intros H. unfold room. apply bwp_if; intros _; [by apply bwp_allocate|by apply bwp_ret, H]. Qed.

Lemma bwp_fail_at {A} source code detail s (Q : A → building → Prop) : wp (fail_at memory source code detail) s Q.
Proof. unfold fail_at. apply bwp_bind, bwp_emit. intros s' _. apply bwp_stop. Qed.

Lemma bwp_demand b source code detail s (Q : unit → building → Prop) : (b = true → Q tt s) → wp (demand memory b source code detail) s Q.
Proof. intros H. unfold demand. apply bwp_if; intros Hb; [by apply bwp_ret, H|apply bwp_fail_at]. Qed.

Lemma bwp_reported {A} source detail (r : status_code + A) s (Q : A → building → Prop) :
  (∀ a, r = inr a → Q a s) → wp (reported memory source detail r) s Q.
Proof. intros H. unfold reported. destruct r as [code|a]; [apply bwp_fail_at|by apply bwp_ret, H]. Qed.

Lemma bwp_explained {A} detail (m : build A) s (Q : A → building → Prop) : wp m s Q → wp (explained memory detail m) s Q.
Proof. unfold wp, explained. destruct (m s) as [|code s'| |]; auto. intros _. apply (bwp_fail_at 0 code detail s' Q). Qed.

Lemma bwp_rescued {A} detail (m : build A) s (Q : A → building → Prop) : wp m s Q → wp (rescued memory detail m) s Q.
Proof.
  unfold wp, rescued. destruct (m s) as [| |s'|]; auto. intros _. apply (bwp_fail_at 0 initialization_failed detail s' Q).
Qed.

Lemma bwp_catching {A} (m : build A) s (Q : A → building → Prop) : wp m s Q → wp (catching m) s Q.
Proof. unfold wp, catching. by destruct (m s). Qed.

Lemma bwp_allocations l s (Q : unit → building → Prop) : (∀ s', stays s s' → Q tt s') → wp (each (allocate_for memory) l) s Q.
Proof.
  revert s Q. induction l as [|n l IH]; intros s Q H; cbn [each]; [by apply bwp_ret, H|].
  apply bwp_bind, bwp_allocate_for. intros s1 H1. apply IH. intros s2 H2. apply H. unfold stays in *. congruence.
Qed.

Lemma bwp_headroom {A} n (l : list A) s (Q : heap_vector A → building → Prop) :
  (∀ v s', items v = l → stays s s' → Q v s') → wp (with_headroom memory grown n l) s Q.
Proof.
  intros H. unfold with_headroom. destruct (headroom_capacity (size l)) as [capacity|]; [|apply bwp_stop].
  pose proof (bwp_room (HeapVector l n) capacity s (λ _ s', stays s s') ltac:(done)) as Hr. unfold wp in *.
  destruct (room _ _ _ s) as [[] s'| | |]; [by apply H|done..].
Qed.

(** ** Loops *)

Lemma bwp_each {A} (I : list A → building → Prop) (f : A → build unit) l s (Q : unit → building → Prop) :
  I [] s →
  (∀ l1 x l2 s, l = l1 ++ x :: l2 → I l1 s → wp (f x) s (λ _ s', I (l1 ++ [x]) s')) →
  (∀ s, I l s → Q tt s) → wp (each f l) s Q.
Proof.
  intros H0 Hstep HQ. enough (H : ∀ l2 l1 s, l = l1 ++ l2 → I l1 s → wp (each f l2) s Q) by by apply (H l []).
  intros l2. induction l2 as [|x l2 IH]; intros l1 s1 E H1; cbn [each].
  - rewrite app_nil_r in E. subst. by apply bwp_ret, HQ.
  - apply bwp_bind. eapply bwp_mono; [by eapply Hstep|]. intros [] s2 H2. apply (IH (l1 ++ [x])); [by rewrite <-app_assoc|done].
Qed.

Lemma bwp_folded {A B} (I : list B → A → building → Prop) (f : A → B → build A) l a s (Q : A → building → Prop) :
  I [] a s →
  (∀ l1 x l2 a s, l = l1 ++ x :: l2 → I l1 a s → wp (f a x) s (λ a' s', I (l1 ++ [x]) a' s')) →
  (∀ a s, I l a s → Q a s) → wp (folded f a l) s Q.
Proof.
  intros H0 Hstep HQ. enough (H : ∀ l2 l1 a s, l = l1 ++ l2 → I l1 a s → wp (folded f a l2) s Q) by by apply (H l []).
  intros l2. induction l2 as [|x l2 IH]; intros l1 a1 s1 E H1; cbn [folded].
  - rewrite app_nil_r in E. subst. by apply bwp_ret, HQ.
  - apply bwp_bind. eapply bwp_mono; [by eapply Hstep|]. intros a2 s2 H2. apply (IH (l1 ++ [x])); [by rewrite <-app_assoc|done].
Qed.
End memory.

Lemma stays_refl s : stays s s.
Proof. done. Qed.
Lemma stays_trans s s' s'' : stays s s' → stays s' s'' → stays s s''.
Proof. unfold stays. congruence. Qed.
Lemma stays_candidate s s' : stays s s' → candidate (updating s') = candidate (updating s).
Proof. intros H. by rewrite H. Qed.

(** ** Tables of identities *)

Section tables.
Context {hash : N → N}.

Definition slot_hash (s : identity_slot) : N := hash s.1.

(** The table of a list of keys, each with its place from 1 on as the handle (or position). *)
Record table_of (slots : list identity_slot) (keys : list N) : Prop := IdentityTable {
  it_search : slots = [] ∨ searchable taken slot_hash slots;
  it_sound p s : used taken slots p = Some s → 1 <= s.2 ∧ keys !! N.to_nat (s.2 - 1) = Some s.1;
  it_complete i k : keys !! i = Some k → ∃ p, used taken slots p = Some (k, N.of_nat i + 1);
  it_once p q s t : used taken slots p = Some s → used taken slots q = Some t → s.1 = t.1 → p = q;
  it_nodup : NoDup keys;
  it_nonzero : Forall (λ k, k ≠ 0) keys;
  it_room : (length slots = vacant_slots taken slots + length keys)%nat }.

Lemma taken_some s e : taken s = Some e → e = s ∧ s.1 ≠ 0.
Proof. unfold taken. destruct (N.eqb_spec s.1 0); [done|]. by intros [= <-]. Qed.

Lemma table_fresh capacity : capacity = 0 ∨ power_of_two capacity →
  table_of (replicate (N.to_nat capacity) (0, 0)) [].
Proof.
  intros Hc. assert (Hu : ∀ p, used taken (replicate (N.to_nat capacity) (0, 0)) p = None).
  { intros p. unfold used. destruct (_ !! _) as [s|] eqn:E; [|done]. by apply lookup_replicate in E as [-> _]. }
  split; try (intros *; rewrite ?Hu; done).
  - destruct Hc as [->|Hp]; [by left|right]. apply searchable_vacant; [by rewrite N2Nat.id|done].
  - by apply NoDup_nil_2.
  - rewrite vacant_replicate by done. rewrite length_replicate. cbn. lia.
Qed.

Lemma find_place slots keys i k : table_of slots keys → keys !! i = Some k →
  walk taken (λ s, s.1 =? k) slots (hash k) = Some (default 0 (fst <$> walk taken (λ s, s.1 =? k) slots (hash k)), Some (k, N.of_nat i + 1)).
Proof.
  intros T Hk. destruct (it_complete _ _ T i k Hk) as [p Hp]. destruct (it_search _ _ T) as [->|Hs].
  { unfold used in Hp. by rewrite lookup_nil in Hp. }
  rewrite (walk_found taken slot_hash _ _ _ p _ Hs Hp eq_refl); [done|apply N.eqb_refl|].
  intros q e' Hq E%N.eqb_eq. by eapply (it_once _ _ T).
Qed.

Lemma not_placed slots keys k : table_of slots keys → k ∉ keys →
  ∀ p e, used taken slots p = Some e → (e.1 =? k) = false.
Proof.
  intros T Hk p e He. destruct (it_sound _ _ T _ _ He) as [_ H]. apply N.eqb_neq. intros <-. apply Hk.
  by eapply list_elem_of_lookup_2.
Qed.

(** A new key takes a vacant slot. *)
Lemma table_insert slots keys k p : table_of slots keys → k ∉ keys → k ≠ 0 → p < size slots → used taken slots p = None →
  searchable taken slot_hash (<[N.to_nat p := (k, size keys + 1)]> slots) →
  table_of (<[N.to_nat p := (k, size keys + 1)]> slots) (keys ++ [k]).
Proof.
  intros T Hk H0 Hp Hu Hs. set (new := (k, size keys + 1)) in *.
  assert (He : taken new = Some new) by (unfold taken; cbn; by destruct (N.eqb_spec k 0)).
  assert (Hused : ∀ q, used taken (<[N.to_nat p := new]> slots) q = if decide (q = p) then Some new else used taken slots q).
  { intros q. rewrite heap_used_insert by done. by rewrite He. }
  assert (Hsize : N.to_nat (size keys) = length keys) by (unfold size; lia).
  split.
  - by right.
  - intros q s. rewrite Hused. case_decide.
    + intros [= <-]. cbn. split; [lia|]. replace (size keys + 1 - 1) with (size keys) by lia. rewrite Hsize. by apply list_lookup_middle.
    + intros Hq. destruct (it_sound _ _ T _ _ Hq) as [? Hl]. split; [done|]. by apply lookup_app_l_Some.
  - intros i k' [Hi|[Hi Hk']]%lookup_app_Some.
    + destruct (it_complete _ _ T i k' Hi) as [q Hq]. exists q. rewrite Hused. case_decide; [congruence|done].
    + destruct (i - length keys)%nat eqn:E; [|done]. cbn in Hk'. injection Hk' as <-. exists p. rewrite Hused, decide_True by done.
      unfold new, size. do 2 f_equal. lia.
  - intros q1 q2 s t. rewrite !Hused. do 2 case_decide; intros Hs1 Ht1 E; simplify_eq; try done.
    + cbn in E. rewrite E in Hk. destruct (it_sound _ _ T _ _ Ht1) as [_ Hl]. destruct Hk. by eapply list_elem_of_lookup_2.
    + cbn in E. rewrite <-E in Hk. destruct (it_sound _ _ T _ _ Hs1) as [_ Hl]. destruct Hk. by eapply list_elem_of_lookup_2.
    + by eapply (it_once _ _ T).
  - apply NoDup_app. split; [apply T|]. split; [|apply NoDup_singleton]. intros x Hx Hx'%list_elem_of_singleton. by subst.
  - apply Forall_app. split; [apply T|]. by apply Forall_singleton.
  - rewrite length_insert, length_app. pose proof (vacant_insert taken slots p new new Hp Hu He). pose proof (it_room _ _ T). unfold identity_slot in *. cbn. lia.
Qed.

End tables.

(** The tables of the builder hash identities. *)
Notation identity_table_of := (table_of (hash := mix64)).

Lemma find_handle_at slots keys i k : identity_table_of slots keys → keys !! i = Some k → find_handle slots k = N.of_nat i + 1.
Proof.
  intros T Hk. unfold find_handle. pose proof (proj1 (Forall_lookup _ _) (it_nonzero _ _ T) i k Hk) as H0. cbn in H0.
  destruct (N.eqb_spec k 0); [done|]. rewrite bool_decide_eq_false_2.
  - cbn [orb]. by rewrite (find_place _ _ _ _ T Hk).
  - intros ->. destruct (it_complete _ _ T i k Hk) as [p Hp]. unfold used in Hp. by rewrite lookup_nil in Hp.
Qed.

Lemma find_handle_zero slots keys k : identity_table_of slots keys → k ∉ keys → find_handle slots k = 0.
Proof.
  intros T Hk. unfold find_handle. destruct (_ || _) eqn:E; [done|]. apply orb_false_iff in E as [_ E].
  apply bool_decide_eq_false in E. destruct (it_search _ _ T) as [->|[Hp _]]; [done|].
  destruct (walk _ _ _ _) as [[p [s|]]|] eqn:Hw; [|done..]. exfalso.
  destruct (walk_Some _ _ _ _ _ _ Hp Hw) as (d & _ & _ & _ & Hu & Hm & _). specialize (Hm s eq_refl).
  rewrite (not_placed _ _ _ T Hk _ _ Hu) in Hm. done.
Qed.

(** The handle is that of the key in the list. *)
Lemma find_handle_spec slots keys k h : identity_table_of slots keys → find_handle slots k = h → h ≠ 0 →
  keys !! N.to_nat (h - 1) = Some k.
Proof.
  intros T <- Hh. destruct (decide (k ∈ keys)) as [Hk|Hk]; [|by rewrite (find_handle_zero _ _ _ T Hk) in Hh].
  apply list_elem_of_lookup in Hk as [i Hi]. rewrite (find_handle_at _ _ _ _ T Hi). by replace (N.to_nat _) with i by lia.
Qed.

Lemma insert_known slots keys i k proposed : identity_table_of slots keys → keys !! i = Some k → proposed ≠ 0 →
  insert_or_find slots k proposed = inr (slots, N.of_nat i + 1, false).
Proof.
  intros T Hk Hp. unfold insert_or_find. pose proof (proj1 (Forall_lookup _ _) (it_nonzero _ _ T) i k Hk) as H0. cbn in H0.
  destruct (N.eqb_spec k 0); [done|]. destruct (N.eqb_spec proposed 0); [done|]. rewrite bool_decide_eq_false_2.
  - cbn [orb]. by rewrite (find_place _ _ _ _ T Hk).
  - intros ->. destruct (it_complete _ _ T i k Hk) as [p Hp']. unfold used in Hp'. by rewrite lookup_nil in Hp'.
Qed.

Lemma insert_unknown slots keys k r : identity_table_of slots keys → k ∉ keys → size keys + 1 < two32 →
  insert_or_find slots k (w32 (size keys + 1)) = inr r → (length keys < length slots)%nat →
  ∃ slots', r = (slots', size keys + 1, true) ∧ identity_table_of slots' (keys ++ [k]) ∧ length slots' = length slots ∧ k ≠ 0.
Proof.
  intros T Hk Hlt Hr Hroom. unfold insert_or_find in Hr. rewrite w32_small in Hr by done.
  destruct (_ || _) eqn:E; [done|]. apply orb_false_iff in E as [[H0 _]%orb_false_iff _]. apply N.eqb_neq in H0.
  destruct (it_search _ _ T) as [->|Hs]; [cbn in Hroom; lia|].
  destruct (slot_left taken slots) as (q & Hq & Hu). { pose proof (it_room _ _ T). lia. }
  destruct (walk_vacant taken slot_hash (λ s, s.1 =? k) slots (mix64 k) q Hs Hq Hu (not_placed _ _ _ T Hk)) as (p & Hw & Hp & Hv & Hins).
  rewrite Hw in Hr. injection Hr as <-. eexists. split; [done|]. split; [|by rewrite length_insert].
  apply table_insert; [done..|]. apply (Hins _ (k, size keys + 1)); [|done]. unfold taken. cbn. by destruct (N.eqb_spec k 0).
Qed.

Lemma checked_capacity n capacity : checked_index_capacity n = Some capacity →
  (n = 0 ∧ capacity = 0) ∨ (0 < n ∧ power_of_two capacity ∧ 2 * n <= capacity).
Proof.
  unfold checked_index_capacity. destruct (N.eqb_spec n 0) as [->|Hn]; [intros [= <-]; by left|].
  destruct (_ <? n); [done|]. destruct (N.leb_spec (n * 2) (MappedVector.bit_ceil (if n * 2 <? 8 then 8 else n * 2))) as [H|]; [|done].
  intros [= <-]. right. split; [lia|]. split; [apply MappedVector.bit_ceil_pow2|lia].
Qed.

End GenerationRules.
