(* ===== verification/GenerationTypes.v ===== *)
(** * The types of a build

    What [declare_source] makes of the declarations of the Sources: the identities in the order
    of their first declarations, and for each the entry its declarations add up to. *)

From S2P Require Import Prelude Probing MappedVector Construction SourceFacts RuntimeLayout Graph HeapTables Contribution GenerationBuilder GenerationRules.

Local Open Scope N_scope.

Module GenerationTypes.

Import SourceFacts HeapTables Contribution GenerationBuilder GenerationRules.

(** ** First occurrences *)

Definition add_first (l : list N) (x : N) : list N := if decide (x ∈ l) then l else l ++ [x].
Definition firsts (l : list N) : list N := foldl add_first [] l.

Lemma firsts_snoc l x : firsts (l ++ [x]) = add_first (firsts l) x.
Proof. unfold firsts. by rewrite foldl_app. Qed.

Lemma elem_of_firsts l x : x ∈ firsts l ↔ x ∈ l.
Proof.
  revert x. induction l as [|y l IH] using rev_ind; intros x; [done|]. rewrite firsts_snoc, elem_of_app, list_elem_of_singleton.
  unfold add_first. case_decide as Hy; rewrite ?elem_of_app, ?list_elem_of_singleton, !IH in *; [|done]. split; [tauto|].
  by intros [?| ->].
Qed.

Lemma NoDup_firsts l : NoDup (firsts l).
Proof.
  induction l as [|y l IH] using rev_ind; [by apply NoDup_nil_2|]. rewrite firsts_snoc. unfold add_first. case_decide; [done|].
  apply NoDup_app. split; [done|]. split; [|apply NoDup_singleton]. intros x Hx Hy%list_elem_of_singleton. by subst.
Qed.

(** ** Slices *)

Lemma range_slice_lookup {A} (l : list A) r i x : (i, x) ∈ slice l r → l !! N.to_nat i = Some x.
Proof.
  unfold slice. intros (k & Hk)%list_elem_of_lookup. apply lookup_zip_with_Some in Hk as (j & y & [= -> ->] & Hj & Hy).
  apply lookup_take_Some in Hy as [_ Hy]. rewrite lookup_drop in Hy. apply list_lookup_fmap_Some in Hj as (m & -> & Hm).
  apply lookup_seq in Hm as [-> _]. rewrite <-Hy. f_equal. lia.
Qed.

(** ** Entries *)

Notation declaration := (N * contribution_type)%type.

(** What a further declaration makes of an entry, and what it may not contradict. *)
Definition merge_declared (e : type_entry) (item : contribution_type) : type_entry :=
  match Graph.type_kind e, contributed_kind item with
  | RuntimeLayout.record_kind, record_contribution =>
      if definition item then with_entry (record_kind_of (contributed_record_kind item)) (Graph.enum_underlying e) (Graph.type_flags e) e else e
  | RuntimeLayout.enumeration, enum_contribution =>
      if explicit_underlying item =? intrinsic_none then e
      else with_entry (Graph.record_kind e) (intrinsic_of (explicit_underlying item)) (N.lor (Graph.type_flags e) 2) e
  | _, _ => e
  end.

Definition agrees (e : type_entry) (item : contribution_type) : Prop :=
  match Graph.type_kind e, contributed_kind item with
  | RuntimeLayout.record_kind, record_contribution =>
      is_union (Graph.record_kind e) = is_union (record_kind_of (contributed_record_kind item))
  | RuntimeLayout.enumeration, enum_contribution =>
      entry_scoped e = enum_scoped item ∧
      (explicit_underlying item ≠ intrinsic_none → entry_fixed e = true ∧ Graph.enum_underlying e = intrinsic_of (explicit_underlying item))
  | _, _ => False
  end.

(** The entry and the construction that declarations of one type add up to. *)
Definition merged (ds : list declaration) : option type_entry :=
  match ds with [] => None | d :: ds' => Some (foldl (λ e d, merge_declared e d.2) (first_entry d.2) ds') end.

Fixpoint aggregate (st : construction_state) (ds : list declaration) : status_code + construction_state :=
  match ds with
  | [] => inr st
  | (index, item) :: ds' =>
      match add_construction st item (w32 (index + 1)) with inl code => inl code | inr st => aggregate st ds' end
  end.

Definition identity_of (d : declaration) : N := contributed_identity d.2.
Definition of_identity (identity : N) (ds : list declaration) : list declaration := filter (λ d, identity_of d = identity) ds.

Lemma merged_snoc ds d e : merged ds = Some e → merged (ds ++ [d]) = Some (merge_declared e d.2).
Proof. destruct ds as [|i ds]; [done|]. cbn. intros [= <-]. by rewrite foldl_app. Qed.

Lemma aggregate_snoc ds index item : ∀ st st', aggregate st ds = inr st' →
  aggregate st (ds ++ [(index, item)]) = add_construction st' item (w32 (index + 1)).
Proof.
  induction ds as [|[i x] ds IH]; intros st st'; cbn; [intros [= ->]; by destruct (add_construction _ _ _)|].
  destruct (add_construction st x _); [done|apply IH].
Qed.

Lemma of_identity_snoc identity ds d : of_identity identity (ds ++ [d]) =
  of_identity identity ds ++ (if decide (identity_of d = identity) then [d] else []).
Proof. unfold of_identity. rewrite filter_app, filter_cons, filter_nil. by case_decide. Qed.

Lemma of_identity_none identity ds : identity ∉ identity_of <$> ds → of_identity identity ds = [].
Proof.
  intros H. destruct (of_identity identity ds) as [|d l] eqn:E; [done|]. destruct H.
  assert (Hd : d ∈ of_identity identity ds) by (rewrite E; by left).
  apply list_elem_of_filter in Hd as [<- Hd]. by apply list_elem_of_fmap_2.
Qed.

(** *** Flags *)

Lemma flag_set f : N.land (N.lor f 2) 2 ≠ 0.
Proof.
  intros H. assert (T : N.testbit (N.land (N.lor f 2) 2) 1 = false) by (rewrite H; apply N.bits_0).
  rewrite N.land_spec, N.lor_spec in T. cbn in T. by rewrite orb_true_r in T.
Qed.

Lemma flag_other f : N.land (N.lor f 2) 1 = N.land f 1.
Proof. rewrite N.land_lor_distr_l. by rewrite N.lor_0_r. Qed.

Lemma merge_live e item : Graph.type_live e = true → Graph.type_live (merge_declared e item) = true.
Proof.
  unfold merge_declared, Graph.type_live. intros H. do 2 case_match; cbn; try done; case_match; cbn; try done.
  rewrite N.land_lor_distr_l. by rewrite N.lor_0_r.
Qed.

Lemma first_live item : Graph.type_live (first_entry item) = true.
Proof. unfold first_entry, Graph.type_live. do 3 (case_match; cbn; try done). Qed.

Lemma first_agrees item : agrees (first_entry item) item.
Proof.
  unfold agrees, first_entry. destruct (contributed_kind item); cbn; [done|]. unfold entry_scoped, entry_fixed. cbn.
  destruct (enum_scoped item), (N.eqb_spec (explicit_underlying item) intrinsic_none); cbn; split; done.
Qed.

(** What the code asks of a further declaration. *)
Definition admissible (e : type_entry) (item : contribution_type) : Prop :=
  match Graph.type_kind e, contributed_kind item with
  | RuntimeLayout.record_kind, record_contribution =>
      is_union (Graph.record_kind e) = is_union (record_kind_of (contributed_record_kind item))
  | RuntimeLayout.enumeration, enum_contribution =>
      entry_scoped e = enum_scoped item ∧
      (explicit_underlying item ≠ intrinsic_none → entry_fixed e = true →
        Graph.enum_underlying e = intrinsic_of (explicit_underlying item))
  | _, _ => False
  end.

Lemma fixed_after kind underlying flags e : entry_fixed (with_entry kind underlying (N.lor flags 2) e) = true.
Proof. unfold entry_fixed. cbn. by apply negb_true_iff, N.eqb_neq, flag_set. Qed.

Lemma merge_agrees e item : admissible e item → agrees (merge_declared e item) item.
Proof.
  unfold admissible, agrees, merge_declared. destruct (Graph.type_kind e) eqn:Ek, (contributed_kind item) eqn:Ei; try done.
  - intros H. destruct (definition item); cbn; by rewrite Ek.
  - intros [Hs Hu]. destruct (N.eqb_spec (explicit_underlying item) intrinsic_none); cbn; rewrite Ek; [done|].
    rewrite fixed_after. unfold entry_scoped in *. cbn. by rewrite flag_other.
Qed.

Lemma merge_keeps e item i : admissible e item → agrees e i → agrees (merge_declared e item) i.
Proof.
  unfold admissible, agrees, merge_declared. destruct (Graph.type_kind e) eqn:Ek, (contributed_kind item) eqn:Ei; try done.
  - intros H. destruct (definition item); cbn; rewrite ?Ek; [|done]. destruct (contributed_kind i); congruence.
  - intros [Hs Hu]. destruct (N.eqb_spec (explicit_underlying item) intrinsic_none); cbn; rewrite Ek; [done|].
    destruct (contributed_kind i); [done|]. rewrite fixed_after. unfold entry_scoped in *. cbn. rewrite flag_other.
    intros [Hi Hf]. split; [done|]. intros Hn. destruct (Hf Hn) as [Hf1 <-]. split; [done|]. symmetry. auto.
Qed.

(** The merge that the code does: it is refused, or it is the one above. *)
Lemma bwp_merge memory source e item s Q :
  (admissible e item → Q (merge_declared e item) s) → wp (merge_entry memory source e item) s Q.
Proof.
  unfold merge_entry, merge_declared, admissible. intros HQ.
  destruct (Graph.type_kind e) eqn:Ek, (contributed_kind item) eqn:Ei; try apply bwp_fail_at.
  - apply bwp_bind, bwp_demand. intros Hc%eqb_prop. by apply bwp_ret, HQ.
  - apply bwp_bind, bwp_demand. intros Hc%eqb_prop. apply bwp_if; intros Hn.
    + apply bwp_ret. rewrite Hn in HQ. apply HQ. apply N.eqb_eq in Hn. by split.
    + apply bwp_bind, bwp_demand. intros Hu. apply bwp_ret. rewrite Hn in HQ. apply HQ. split; [done|]. intros _ Hf.
      rewrite Hf in Hu. by apply bool_decide_eq_true in Hu.
Qed.

(** ** The declarations so far *)

Section types.
Context (ts : list contribution_type).

(** Slot zero and those of no type are vacant. *)
Definition constructions_of (ds : list declaration) (ids : list N) (l : list construction_state) : Prop :=
  ∀ i st, l !! i = Some st → match i with
    | S j => match ids !! j with
             | Some identity => aggregate no_construction (of_identity identity ds) = inr st
             | None => st = no_construction end
    | O => st = no_construction end.

Record types_of (ds : list declaration) (d : declared_types) : Prop := TypesOf {
  to_table : identity_table_of (index_slots d) (declared_identities d);
  to_room : ts ≠ [] → (length ts < length (index_slots d))%nat;
  to_identities : declared_identities d = firsts (identity_of <$> ds);
  to_from : Forall (λ d, ts !! N.to_nat d.1 = Some d.2) ds;
  to_declared : length (declared d) = length (declared_identities d);
  to_entry i identity : declared_identities d !! i = Some identity → declared d !! i = merged (of_identity identity ds);
  to_agrees i identity e : declared_identities d !! i = Some identity → declared d !! i = Some e →
    Graph.type_live e = true ∧ Forall (λ d, agrees e d.2) (of_identity identity ds);
  to_constructions : length (aggregated d) = S (length ts);
  to_construction : constructions_of ds (declared_identities d) (aggregated d);
  to_handles : length (declaration_handles d) = length ts;
  to_handle index item : (index, item) ∈ ds →
    ∃ i, declaration_handles d !! N.to_nat index = Some (N.of_nat i + 1) ∧ declared_identities d !! i = Some (contributed_identity item);
  to_seen : definition_seen d = replicate (length (declared_identities d)) false }.

Lemma types_none slots : identity_table_of slots [] → (ts ≠ [] → (length ts < length slots)%nat) →
  types_of [] (DeclaredTypes slots [] [] (replicate (S (length ts)) no_construction) (replicate (length ts) 0) []).
Proof.
  intros T H. split; cbn; try done.
  - by rewrite length_replicate.
  - intros i st Hi. change (no_construction :: replicate (length ts) no_construction) with (replicate (S (length ts)) no_construction) in Hi.
    apply lookup_replicate in Hi as [-> _]. by destruct i.
  - by rewrite length_replicate.
  - by intros index item ?%not_elem_of_nil.
Qed.

(** There are no more types than declarations. *)
Lemma types_from ds d : types_of ds d → ∀ x, x ∈ declared_identities d → x ∈ contributed_identity <$> ts.
Proof.
  intros T x Hx. rewrite (to_identities _ _ T), elem_of_firsts in Hx. apply list_elem_of_fmap in Hx as (e & -> & He).
  pose proof (proj1 (Forall_forall _ _) (to_from _ _ T) e He) as H. apply list_elem_of_fmap. exists e.2. split; [done|].
  cbn in H. by eapply list_elem_of_lookup_2.
Qed.

Lemma nodup_bounded (l l' : list N) : NoDup l → (∀ x, x ∈ l → x ∈ l') → (length l <= length l')%nat.
Proof. intros Hn Hi. by apply submseteq_length, NoDup_submseteq. Qed.

Lemma types_nodup ds d : types_of ds d → NoDup (declared_identities d).
Proof. intros T. rewrite (to_identities _ _ T). apply NoDup_firsts. Qed.

Lemma types_bounded ds d : types_of ds d → (length (declared_identities d) <= length ts)%nat.
Proof.
  intros T. rewrite <-(length_fmap contributed_identity ts). apply nodup_bounded; [by eapply types_nodup|by eapply types_from].
Qed.

Lemma NoDup_snoc (l : list N) x : NoDup l → x ∉ l → NoDup (l ++ [x]).
Proof.
  intros Hl Hx. apply NoDup_app. split; [done|]. split; [|apply NoDup_singleton]. intros y Hy Hy'%list_elem_of_singleton. by subst.
Qed.

Lemma types_room ds d i item : types_of ds d → ts !! i = Some item → contributed_identity item ∉ declared_identities d →
  (length (declared_identities d) < length ts)%nat.
Proof.
  intros T Hi Hn. rewrite <-(length_fmap contributed_identity ts).
  assert (H : (length (declared_identities d ++ [contributed_identity item]) <= length (contributed_identity <$> ts))%nat).
  { apply nodup_bounded; [apply NoDup_snoc; [by eapply types_nodup|done]|]. intros x [Hx|Hx%list_elem_of_singleton]%elem_of_app.
    - by eapply types_from.
    - subst. apply list_elem_of_fmap_2. by eapply list_elem_of_lookup_2. }
  rewrite length_app in H. cbn in H. lia.
Qed.

(** The place of a further declaration's identity, old or new. *)
Lemma first_again l x i : firsts l !! i = Some x → firsts (l ++ [x]) = firsts l.
Proof. intros H. rewrite firsts_snoc. unfold add_first. rewrite decide_True; [done|]. by eapply list_elem_of_lookup_2. Qed.
Lemma first_new l x : x ∉ firsts l → firsts (l ++ [x]) = firsts l ++ [x].
Proof. intros H. rewrite firsts_snoc. unfold add_first. by rewrite decide_False. Qed.

(** What is filed under the declaration's own index. *)
Lemma handles_step (ds : list declaration) index item (handles ids : list N) i :
  Forall (λ d, ts !! N.to_nat d.1 = Some d.2) ds → ts !! N.to_nat index = Some item → length handles = length ts →
  (∀ j x, (j, x) ∈ ds → ∃ k, handles !! N.to_nat j = Some (N.of_nat k + 1) ∧ ids !! k = Some (contributed_identity x)) →
  ids !! i = Some (contributed_identity item) →
  ∀ j x, (j, x) ∈ ds ++ [(index, item)] → ∃ k, <[N.to_nat index := N.of_nat i + 1]> handles !! N.to_nat j = Some (N.of_nat k + 1) ∧
    ids !! k = Some (contributed_identity x).
Proof.
  intros Hf Hi Hl Hh Hid j x Hj. apply lookup_lt_Some in Hi as Hlt. destruct (decide (j = index)) as [->|Hne].
  - exists i. rewrite list_lookup_insert_eq by lia. split; [done|]. rewrite Hid. f_equal. f_equal.
    apply elem_of_app in Hj as [Hj|Hj%list_elem_of_singleton]; [|by simplify_eq].
    pose proof (proj1 (Forall_forall _ _) Hf _ Hj). cbn in *. congruence.
  - rewrite list_lookup_insert_ne by lia. apply elem_of_app in Hj as [Hj|Hj%list_elem_of_singleton]; [by apply Hh|by simplify_eq].
Qed.

Lemma entry_again (ds : list declaration) index item (ids : list N) (entries : list type_entry) i e :
  ids !! i = Some (contributed_identity item) → NoDup ids → entries !! i = Some e →
  (∀ j x, ids !! j = Some x → entries !! j = merged (of_identity x ds)) →
  ∀ j x, ids !! j = Some x → <[i := merge_declared e item]> entries !! j = merged (of_identity x (ds ++ [(index, item)])).
Proof.
  intros Hi Hn He Hall j x Hj. rewrite of_identity_snoc. unfold identity_of at 2. cbn [snd]. apply lookup_lt_Some in He as Hlt.
  destruct (decide (j = i)) as [->|Hne].
  - rewrite list_lookup_insert_eq by done. rewrite Hi in Hj. injection Hj as <-. rewrite decide_True by done.
    symmetry. apply merged_snoc. rewrite <-He. symmetry. by apply Hall.
  - rewrite list_lookup_insert_ne by done. rewrite decide_False; [rewrite app_nil_r; by apply Hall|].
    intros <-. destruct Hne. by eapply NoDup_lookup.
Qed.

Lemma entry_new (ds : list declaration) index item (ids : list N) (entries : list type_entry) :
  contributed_identity item ∉ ids → length entries = length ids → ids = firsts (identity_of <$> ds) →
  (∀ j x, ids !! j = Some x → entries !! j = merged (of_identity x ds)) →
  ∀ j x, (ids ++ [contributed_identity item]) !! j = Some x →
    (entries ++ [first_entry item]) !! j = merged (of_identity x (ds ++ [(index, item)])).
Proof.
  intros Hn Hl Hids Hall j x Hj. rewrite of_identity_snoc. unfold identity_of at 2. cbn [snd].
  apply lookup_app_Some in Hj as [Hj|[Hj Hx]].
  - rewrite lookup_app_l by (rewrite Hl; by eapply lookup_lt_Some). rewrite decide_False; [rewrite app_nil_r; by apply Hall|].
    intros <-. apply Hn. by eapply list_elem_of_lookup_2.
  - apply list_lookup_singleton_Some in Hx as [Hx <-]. rewrite decide_True by done.
    rewrite of_identity_none; [|by rewrite <-elem_of_firsts, <-Hids]. assert (j = length entries) as -> by lia. by rewrite lookup_app_r, Nat.sub_diag.
Qed.

(** What a declaration adds to the construction of its type. *)
Lemma construction_step (ds : list declaration) index item (ids ids' : list N) l i st st' :
  constructions_of ds ids l → NoDup ids' → ids' !! i = Some (contributed_identity item) → ids `prefix_of` ids' →
  (∀ j x, ids' !! j = Some x → j = i ∨ ids !! j = Some x) →
  (ids !! i = None → contributed_identity item ∉ identity_of <$> ds) →
  l !! S i = Some st → add_construction st item (w32 (index + 1)) = inr st' →
  constructions_of (ds ++ [(index, item)]) ids' (<[S i := st']> l).
Proof.
  intros Hc Hn Hi [more Hpre] Hj Hnew Hst Hadd k x Hk. destruct (decide (k = S i)) as [->|Hne].
  - rewrite list_lookup_insert_eq in Hk by (by eapply lookup_lt_Some). injection Hk as <-. rewrite Hi, of_identity_snoc.
    unfold identity_of at 2. cbn [snd]. rewrite decide_True by done. erewrite aggregate_snoc; [exact Hadd|].
    specialize (Hc _ _ Hst). cbn in Hc. destruct (ids !! i) as [y|] eqn:E.
    + assert (ids' !! i = Some y) as H by (subst ids'; by apply lookup_app_l_Some). rewrite Hi in H. by injection H as <-.
    + rewrite Hc, of_identity_none by auto. done.
  - rewrite list_lookup_insert_ne in Hk by done. specialize (Hc _ _ Hk). destruct k as [|j]; [done|].
    destruct (ids' !! j) as [y|] eqn:E.
    + destruct (Hj _ _ E) as [->|E']; [done|]. rewrite E' in Hc. rewrite of_identity_snoc. unfold identity_of at 2. cbn [snd].
      rewrite decide_False; [by rewrite app_nil_r|]. intros <-. destruct Hne. f_equal. by eapply NoDup_lookup.
    + destruct (ids !! j) as [y|] eqn:E'; [|done]. assert (ids' !! j = Some y) by (subst ids'; by apply lookup_app_l_Some). congruence.
Qed.

Lemma from_step (ds : list declaration) index item : Forall (λ d, ts !! N.to_nat d.1 = Some d.2) ds → ts !! N.to_nat index = Some item →
  Forall (λ d, ts !! N.to_nat d.1 = Some d.2) (ds ++ [(index, item)]).
Proof. intros. apply Forall_app. split; [done|]. by apply Forall_singleton. Qed.

(** A declaration of a type that has one. *)
Lemma types_known ds d index item i e st st' slots :
  types_of ds d → ts !! N.to_nat index = Some item → declared_identities d !! i = Some (contributed_identity item) →
  slots = index_slots d → declared d !! i = Some e → admissible e item →
  aggregated d !! S i = Some st → add_construction st item (w32 (index + 1)) = inr st' →
  types_of (ds ++ [(index, item)])
    (DeclaredTypes slots (<[i := merge_declared e item]> (declared d)) (declared_identities d) (<[S i := st']> (aggregated d))
      (<[N.to_nat index := N.of_nat i + 1]> (declaration_handles d)) (definition_seen d)).
Proof.
  intros T Hindex Hi -> He Ha Hst Hadd. pose proof (types_nodup _ _ T) as Hn. split; cbn.
  - apply T.
  - apply T.
  - rewrite fmap_app, (to_identities _ _ T). symmetry. apply (first_again _ _ i). by rewrite <-(to_identities _ _ T).
  - apply from_step; [apply T|done].
  - rewrite length_insert. apply T.
  - by apply entry_again; [..|apply T].
  - intros j x e' Hj He'. apply lookup_lt_Some in He as Hlt. rewrite of_identity_snoc. unfold identity_of at 2. cbn [snd].
    destruct (decide (j = i)) as [->|Hne].
    + rewrite list_lookup_insert_eq in He' by done. injection He' as <-. rewrite Hi in Hj. injection Hj as <-. rewrite decide_True by done.
      destruct (to_agrees _ _ T i _ e Hi He) as [Hl Hf]. split; [by apply merge_live|]. apply Forall_app. split.
      * eapply Forall_impl; [exact Hf|]. intros y. by apply merge_keeps.
      * apply Forall_singleton. by apply merge_agrees.
    + rewrite list_lookup_insert_ne in He' by done. rewrite decide_False; [rewrite app_nil_r; by apply (to_agrees _ _ T j)|].
      intros <-. destruct Hne. by eapply NoDup_lookup.
  - rewrite length_insert. apply T.
  - eapply construction_step; [apply T|done|done|done| |congruence|done|done]. intros j x. by right.
  - rewrite length_insert. apply T.
  - eapply handles_step; [apply T|done|apply T|apply T|done].
  - apply T.
Qed.

(** The first declaration of a type. *)
Lemma types_new ds d index item st st' slots :
  types_of ds d → ts !! N.to_nat index = Some item → contributed_identity item ∉ declared_identities d →
  identity_table_of slots (declared_identities d ++ [contributed_identity item]) → length slots = length (index_slots d) →
  aggregated d !! S (length (declared d)) = Some st → add_construction st item (w32 (index + 1)) = inr st' →
  types_of (ds ++ [(index, item)])
    (DeclaredTypes slots (declared d ++ [first_entry item]) (declared_identities d ++ [contributed_identity item])
      (<[S (length (declared d)) := st']> (aggregated d))
      (<[N.to_nat index := size (declared d) + 1]> (declaration_handles d)) (definition_seen d ++ [false])).
Proof.
  intros T Hindex Hn Ht Hlen Hst Hadd. pose proof (types_nodup _ _ T) as Hnd. pose proof (to_declared _ _ T) as Hl.
  assert (Hfirst : contributed_identity item ∉ identity_of <$> ds) by (by rewrite <-elem_of_firsts, <-(to_identities _ _ T)).
  assert (Hat : (declared_identities d ++ [contributed_identity item]) !! length (declared d) = Some (contributed_identity item)).
  { rewrite lookup_app_r, Hl, Nat.sub_diag by lia. done. }
  assert (Hnd' : NoDup (declared_identities d ++ [contributed_identity item])).
  { by apply NoDup_snoc. }
  split; cbn.
  - done.
  - rewrite Hlen. apply T.
  - rewrite fmap_app, (to_identities _ _ T). symmetry. apply first_new. by rewrite <-(to_identities _ _ T).
  - apply from_step; [apply T|done].
  - rewrite !length_app. cbn. lia.
  - by apply entry_new; [..|apply T|apply T].
  - intros j x e' Hj He'. rewrite of_identity_snoc. unfold identity_of at 2. cbn [snd]. apply lookup_app_Some in Hj as [Hj|[Hj Hx]].
    + rewrite lookup_app_l in He' by (rewrite Hl; by eapply lookup_lt_Some). rewrite decide_False.
      * rewrite app_nil_r. by apply (to_agrees _ _ T j).
      * intros <-. apply Hn. by eapply list_elem_of_lookup_2.
    + apply list_lookup_singleton_Some in Hx as [Hx <-]. rewrite decide_True by done. rewrite of_identity_none by done.
      assert (j = length (declared d)) as -> by lia. rewrite lookup_app_r, Nat.sub_diag in He' by lia. injection He' as <-.
      split; [apply first_live|]. apply Forall_singleton, first_agrees.
  - rewrite length_insert. apply T.
  - eapply construction_step; [apply T|done|done|by apply prefix_app_r| | |done|done].
    + intros j x [?|[Hj [Hx _]%list_lookup_singleton_Some]]%lookup_app_Some; [by right|left; lia].
    + done.
  - rewrite length_insert. apply T.
  - unfold size. eapply handles_step; [apply T|done|apply T| |done]. intros j x Hx. destruct (to_handle _ _ T j x Hx) as (k & H1 & H2).
    exists k. split; [done|]. by apply lookup_app_l_Some.
  - rewrite (to_seen _ _ T), length_app, replicate_add. done.
Qed.

Lemma bwp_declare_type memory source ds d index item s Q : types_of ds d → ts !! N.to_nat index = Some item →
  size ts < u32_max → (∀ d' s', stays s s' → types_of (ds ++ [(index, item)]) d' → Q d' s') →
  wp (declare_type memory source d (index, item)) s Q.
Proof.
  intros T Hi Hsize HQ. pose proof (types_bounded _ _ T) as Hb. pose proof (to_declared _ _ T) as Hl.
  assert (Hlt : size (declared d) + 1 < two32) by (unfold size, u32_max in *; lia).
  unfold declare_type. apply bwp_bind, bwp_reported. intros [[slots h] inserted] Hr.
  apply bwp_bind, bwp_reported. intros st' Hadd.
  assert (Hts : ts ≠ []) by (intros E; by rewrite E in Hi).
  destruct (decide (contributed_identity item ∈ declared_identities d)) as [Hin|Hout].
  - apply list_elem_of_lookup in Hin as [i Hid].
    rewrite (insert_known _ _ i _ _ (to_table _ _ T) Hid) in Hr by (rewrite w32_small by done; lia). injection Hr as <- <- <-.
    apply lookup_lt_Some in Hid as Hlt'. destruct (lookup_lt_is_Some_2 (declared d) i) as [e He]; [lia|].
    destruct (lookup_lt_is_Some_2 (aggregated d) (S i)) as [st Hst]; [rewrite (to_constructions _ _ T); lia|].
    replace (N.to_nat (N.of_nat i + 1)) with (S i) in * by lia. replace (N.to_nat (N.of_nat i + 1 - 1)) with i in * by lia.
    rewrite He, Hst in *. cbn [default] in *. apply bwp_bind, bwp_merge. intros Ha. apply bwp_ret, HQ; [done|]. by eapply types_known.
  - destruct (insert_unknown _ _ _ (slots, h, inserted) (to_table _ _ T) Hout) as (slots' & E & Ht & Hlen & _).
    + unfold size in *. lia.
    + unfold size in *. by rewrite <-Hl.
    + pose proof (to_room _ _ T Hts). lia.
    + injection E as -> -> ->.
      assert (Hat : N.to_nat (size (declared_identities d) + 1) = S (length (declared d))) by (unfold size; lia).
      destruct (lookup_lt_is_Some_2 (aggregated d) (S (length (declared d)))) as [st Hst].
      { rewrite (to_constructions _ _ T). pose proof (types_room _ _ _ _ T Hi Hout). lia. }
      rewrite Hat, Hst in *. apply bwp_ret, HQ; [done|].
      replace (size (declared_identities d) + 1) with (size (declared d) + 1) by (unfold size; lia).
      by eapply types_new.
Qed.

End types.

(** ** All of the declarations *)

Definition source_declarations (c : storage) (st : contribution_state) : list declaration := slice (items (types c)) (state_types st).
Definition declarations_in (c : storage) : list declaration := present_sources c ≫= source_declarations c.

Lemma bwp_declare_source memory c ds d st s Q : types_of (items (types c)) ds d → size (items (types c)) < u32_max →
  (∀ d' s', stays s s' → types_of (items (types c)) (ds ++ source_declarations c st) d' → Q d' s') →
  wp (declare_source memory c d st) s Q.
Proof.
  intros T Hs HQ. unfold declare_source. apply bwp_bind, bwp_demand. intros _.
  apply (bwp_folded (λ l d' s', stays s s' ∧ types_of (items (types c)) (ds ++ l) d')).
  - split; [done|]. by rewrite app_nil_r.
  - intros l1 [index item] l2 d1 s1 E [H1 T1]. eapply bwp_declare_type; [exact T1| |done|].
    + apply (range_slice_lookup _ (state_types st)). rewrite E. apply elem_of_app. right. by left.
    + intros d' s' H' T'. split; [by eapply stays_trans|]. by rewrite app_assoc.
  - intros d' s' [H' T']. by apply HQ.
Qed.

Lemma bwp_declare_sources memory c d s Q : types_of (items (types c)) [] d → size (items (types c)) < u32_max →
  (∀ d' s', stays s s' → types_of (items (types c)) (declarations_in c) d' → Q d' s') →
  wp (folded (declare_source memory c) d (present_sources c)) s Q.
Proof.
  intros T Hs HQ.
  apply (bwp_folded (λ l d' s', stays s s' ∧ types_of (items (types c)) (l ≫= source_declarations c) d')).
  - done.
  - intros l1 st l2 d1 s1 _ [H1 T1]. eapply bwp_declare_source; [exact T1|done|]. intros d' s' H' T'.
    split; [by eapply stays_trans|]. rewrite bind_app. cbn. by rewrite app_nil_r.
  - intros d' s' [H' T']. by apply HQ.
Qed.

End GenerationTypes.
