(* ===== verification/GenerationTables.v ===== *)
(** * The index tables of a build

    The tables that lead from the key of a value to its handle, as the build fills them: each
    insertion of a new key succeeds while there is room, and what the tables are when they are
    published: indexes in the sense of [GraphLookup]. *)

From S2P Require Import Prelude Probing MappedVector Construction SourceFacts RuntimeLayout Graph GraphLookup GraphPublication HeapTables Contribution GenerationBuilder GenerationRules.

Local Open Scope N_scope.

Module GenerationTables.

Import Probing SourceFacts HeapTables GraphLookup GraphPublication Contribution GenerationBuilder GenerationRules.
#[local] Existing Instances Graph.handle_slot_inhabited Graph.word_inhabited Graph.derived_slot_inhabited.

Section tables.
Context {V K : Type} `{!Inhabited V, !EqDecision K} (key : V → K) (hash : K → N).
Implicit Types (slots : list handle_slot) (values : list V).

(** The key that a slot leads to, hashed. *)
Definition led_to values (s : handle_slot) : N := from_option (hash ∘ key) 0 (values !! N.to_nat (handle s - 1)).

(** The table of the first [n] values. *)
Record handle_table (n : nat) slots values : Prop := HandleTable {
  ht_search : searchable occupied (led_to values) slots;
  ht_sound p s : used occupied slots p = Some s → 1 <= handle s <= N.of_nat n ∧
    ∃ v, values !! N.to_nat (handle s - 1) = Some v ∧ fingerprint s = fold32 (hash (key v));
  ht_complete i : (i < n)%nat → ∃ p s, used occupied slots p = Some s ∧ handle s = N.of_nat i + 1;
  ht_once p q s t : used occupied slots p = Some s → used occupied slots q = Some t → handle s = handle t → p = q;
  ht_room : length slots = (vacant_slots occupied slots + n)%nat }.

Lemma occupied_some s e : occupied s = Some e ↔ e = s ∧ handle s ≠ 0.
Proof. unfold occupied. destruct (N.eqb_spec (handle s) 0); naive_solver. Qed.

Lemma handles_none capacity values : power_of_two capacity → handle_table 0 (replicate (N.to_nat capacity) vacant_handle) values.
Proof.
  intros Hp. assert (Hu : ∀ p, used occupied (replicate (N.to_nat capacity) vacant_handle) p = None).
  { intros p. unfold used. destruct (_ !! _) as [s|] eqn:E; [|done]. by apply lookup_replicate in E as [-> _]. }
  split; try (intros *; rewrite ?Hu; done).
  - apply searchable_vacant; [by rewrite N2Nat.id|done].
  - lia.
  - rewrite vacant_replicate by done. rewrite length_replicate. lia.
Qed.

(** What a key matches. *)
Definition matching values (k : K) (s : handle_slot) : bool :=
  (fingerprint s =? fold32 (hash k)) && (handle s <=? size values) &&
  match values !! N.to_nat (handle s - 1) with Some v => bool_decide (key v = k) | None => false end.

Lemma matching_true values k s : matching values k s = true → ∃ v, values !! N.to_nat (handle s - 1) = Some v ∧ key v = k.
Proof.
  unfold matching. intros [_ H]%andb_true_iff. destruct (values !! _) as [v|]; [|done]. apply bool_decide_eq_true in H. eauto.
Qed.

Lemma matching_entry n slots values p s v : handle_table n slots values → (n <= length values)%nat → used occupied slots p = Some s →
  values !! N.to_nat (handle s - 1) = Some v → matching values (key v) s = true.
Proof.
  intros T Hn Hu Hv. destruct (ht_sound _ _ _ T _ _ Hu) as (Hh & w & Hw & Hf). rewrite Hv in Hw. injection Hw as <-.
  unfold matching. rewrite Hf, N.eqb_refl, Hv. cbn. rewrite bool_decide_eq_true_2 by done.
  destruct (N.leb_spec (handle s) (size values)); [done|]. unfold size in *. lia.
Qed.

(** More values behind the first. *)
Lemma handles_more n slots values more : handle_table n slots values → (n <= length values)%nat → handle_table n slots (values ++ more).
Proof.
  intros T Hn. assert (Hsame : ∀ p s, used occupied slots p = Some s → (values ++ more) !! N.to_nat (handle s - 1) = values !! N.to_nat (handle s - 1)).
  { intros p s Hs. destruct (ht_sound _ _ _ T _ _ Hs) as (Hh & _). rewrite lookup_app_l; [done|lia]. }
  split; try apply T.
  - destruct (ht_search _ _ _ T) as [Hp Hc]. split; [done|]. intros p s Hlt Hs. unfold led_to. rewrite (Hsame p s Hs). by apply (Hc p s).
  - intros p s Hs. rewrite (Hsame p s Hs). by apply (ht_sound _ _ _ T p).
Qed.

Definition fresh_key (n : nat) values (k : K) : Prop := ∀ i v, (i < n)%nat → values !! i = Some v → key v ≠ k.

(** The next value goes in if there is room, and only if its key is new. *)
Lemma insert_next n slots values v : handle_table n slots values → values !! n = Some v → N.of_nat n + 1 < two32 →
  fresh_key n values (key v) → (n < length slots)%nat →
  ∃ slots', insert_slot key hash values slots (key v) (N.of_nat n + 1) = Some (slots', true) ∧
    handle_table (S n) slots' values ∧ length slots' = length slots.
Proof.
  intros T Hv Hw Hfresh Hroom. destruct (slot_left occupied slots) as (q & Hq & Hu). { pose proof (ht_room _ _ _ T). lia. }
  assert (Hno : ∀ p e, used occupied slots p = Some e → matching values (key v) e = false).
  { intros p e He. destruct (matching values (key v) e) eqn:Em; [|done]. apply matching_true in Em as (w & Hw' & Hk).
    destruct (ht_sound _ _ _ T _ _ He) as (Hh & _). exfalso. eapply Hfresh; [|exact Hw'|exact Hk]. lia. }
  destruct (walk_vacant occupied (led_to values) (matching values (key v)) slots (hash (key v)) q (ht_search _ _ _ T) Hq Hu Hno)
    as (p & Hwalk & Hp & Hvac & Hins).
  set (new := HandleSlot (fold32 (hash (key v))) (N.of_nat n + 1)) in *.
  assert (Hnew : occupied new = Some new) by (apply occupied_some; cbn; split; [done|lia]).
  assert (Hled : values !! N.to_nat (handle new - 1) = Some v) by (cbn; by replace (N.to_nat _) with n by lia).
  exists (<[N.to_nat p := new]> slots). split; [|split; [|by rewrite length_insert]].
  { unfold insert_slot. fold (matching values (key v)). by rewrite Hwalk. }
  assert (Hused : ∀ q, used occupied (<[N.to_nat p := new]> slots) q = if decide (q = p) then Some new else used occupied slots q).
  { intros q'. rewrite heap_used_insert by done. by rewrite Hnew. }
  split.
  - apply (Hins new new Hnew). unfold led_to. by rewrite Hled.
  - intros q' s. rewrite Hused. case_decide.
    + intros [= <-]. split; [cbn; lia|]. by exists v.
    + intros Hs. destruct (ht_sound _ _ _ T _ _ Hs) as (Hh & Hx). split; [lia|done].
  - intros i Hi. destruct (decide (i = n)) as [->|Hne].
    + exists p, new. rewrite Hused, decide_True by done. by split.
    + destruct (ht_complete _ _ _ T i) as (q' & s & Hs & Hh); [lia|]. exists q', s. split; [|done]. rewrite Hused. case_decide; [congruence|done].
  - intros q1 q2 s t. rewrite !Hused. do 2 case_decide; intros Hs1 Ht1 E; simplify_eq; try done.
    + destruct (ht_sound _ _ _ T _ _ Ht1) as (Hh & _). cbn in *. lia.
    + destruct (ht_sound _ _ _ T _ _ Hs1) as (Hh & _). cbn in *. lia.
    + by eapply (ht_once _ _ _ T).
  - rewrite length_insert. pose proof (vacant_insert occupied slots p new new Hp Hvac Hnew). pose proof (ht_room _ _ _ T). lia.
Qed.

Lemma insert_room n slots values k h slots' : handle_table n slots values → insert_slot key hash values slots k h = Some (slots', true) →
  (n < length slots)%nat.
Proof.
  intros T E. unfold insert_slot in E. destruct (walk _ _ _ _) as [[p [s|]]|] eqn:Hw; [done| |done].
  destruct (walk_Some _ _ _ _ _ _ (s_power _ _ _ (ht_search _ _ _ T)) Hw) as (d & _ & _ & Hp & Hu & _).
  pose proof (vacant_insert occupied slots p (HandleSlot 0 1) (HandleSlot 0 1) Hp Hu eq_refl). pose proof (ht_room _ _ _ T). lia.
Qed.

Lemma insert_new_only n slots values k h slots' : handle_table n slots values → (n <= length values)%nat →
  (∀ i j v w, (i < n)%nat → (j < n)%nat → values !! i = Some v → values !! j = Some w → key v = key w → i = j) →
  insert_slot key hash values slots k h = Some (slots', true) → fresh_key n values k.
Proof.
  intros T Hn Hd E i v Hi Hv <-. destruct (ht_complete _ _ _ T i Hi) as (p & s & Hu & Hh).
  assert (Hv' : values !! N.to_nat (handle s - 1) = Some v) by (by replace (N.to_nat _) with i by lia).
  unfold insert_slot in E. fold (matching values (key v)) in E.
  rewrite (walk_found occupied (led_to values) _ _ _ p s (ht_search _ _ _ T) Hu) in E; [done| | |].
  - unfold led_to. by rewrite Hv'.
  - by eapply matching_entry.
  - intros q e Hq (w & Hw & Hk)%matching_true. destruct (ht_sound _ _ _ T _ _ Hq) as (Hhq & _).
    apply (ht_once _ _ _ T q p e s Hq Hu). assert (N.to_nat (handle e - 1) = i) by (eapply Hd; [| |done|done|done]; lia). lia.
Qed.

End tables.

(** ** The table of the identities *)

Notation identity_handles := (handle_table (V := N) (K := N) id identity_hash).

Lemma insert_slots_ends ids : NoDup ids → size ids < two32 → ∀ more n slots, ids = take n ids ++ more → (n <= length ids)%nat →
  identity_handles n slots ids → (length ids <= length slots)%nat →
  ∃ slots', insert_slots identity_hash ids slots more (N.of_nat n + 1) = Some slots' ∧
    identity_handles (length ids) slots' ids ∧ length slots' = length slots.
Proof.
  intros Hd Hw more. induction more as [|k more IH]; intros n slots E Hn T Hroom; cbn [insert_slots].
  - exists slots. split; [done|]. assert (n = length ids) as ->; [|done]. apply (f_equal length) in E. rewrite app_nil_r, length_take in E. lia.
  - assert (Hk : ids !! n = Some k).
    { rewrite E, lookup_app_r, length_take by (rewrite length_take; lia). by replace (n - _)%nat with 0%nat by lia. }
    apply lookup_lt_Some in Hk as Hlt. rewrite w32_small by (unfold size in Hw; lia).
    destruct (insert_next id identity_hash n slots ids k T Hk) as (slots' & E' & T' & Hl').
    + unfold size in Hw. lia.
    + intros i v Hi Hv Heq. cbn in Heq. subst v. pose proof (NoDup_lookup _ _ _ _ Hd Hv Hk). lia.
    + lia.
    + change (id k) with k in E'. rewrite E'. cbn [mbind option_bind].
      destruct (IH (S n) slots') as (slots'' & E'' & T'' & Hl''); [|lia|done|lia|].
      * rewrite (take_S_r _ _ k Hk), <-app_assoc. done.
      * exists slots''. replace (N.of_nat n + 1 + 1) with (N.of_nat (S n) + 1) by lia. split_and!; [done..|lia].
Qed.

Lemma bwp_identity_table memory capacity ids s Q : power_of_two capacity → NoDup ids → size ids < two32 → size ids <= capacity →
  (∀ slots s', stays s s' → identity_handles (length ids) slots ids → Q slots s') → wp (identity_table memory capacity ids) s Q.
Proof.
  intros Hp Hd Hw Hc HQ. unfold identity_table. apply bwp_bind, bwp_allocate_for. intros s' Hs'.
  destruct (insert_slots_ends ids Hd Hw ids 0 (replicate (N.to_nat capacity) vacant_handle)) as (slots & E & T & _); [done|lia| | |].
  - by apply handles_none.
  - rewrite length_replicate. unfold size in Hc. lia.
  - change (N.of_nat 0 + 1) with 1 in E. rewrite E. by apply bwp_ret, HQ.
Qed.

(** ** Published tables *)

Lemma published_table {V K} `{!Inhabited V, !EqDecision K} (key : V → K) (hash : K → N) slots (values : list V) (ms : MappedVector.mapped_vector) mv :
  holds ms slots → holds mv values → handle_table key hash (length values) slots values →
  indexed key hash (size values) ms mv.
Proof.
  intros Hs Hv T. assert (Hsize : MappedVector.size ms = size slots) by (rewrite (h_size _ _ Hs); done).
  assert (Hat : ∀ p, slot_at ms p = used occupied slots p).
  { intros p. unfold slot_at, used. rewrite (h_contents _ _ Hs). by destruct (slots !! _). }
  assert (Hkey : ∀ p s, used occupied slots p = Some s → ∃ v, values !! N.to_nat (handle s - 1) = Some v ∧ slot_key key mv s = key v ∧
      led_to key hash values s = hash (key v)).
  { intros p s Hu. destruct (ht_sound _ _ _ _ _ T _ _ Hu) as (_ & v & Hx & _). exists v. split; [done|]. unfold slot_key, led_to.
    by rewrite (h_contents _ _ Hv), Hx. }
  destruct (ht_search _ _ _ _ _ T) as [Hp Hc]. split; [split|].
  - apply Hs.
  - apply Hv.
  - by rewrite Hsize.
  - by eapply holds_readable.
  - by eapply holds_readable.
  - by rewrite (h_size _ _ Hv).
  - intros p s. rewrite Hat. intros Hu. destruct (ht_sound _ _ _ _ _ T _ _ Hu) as (Hh & w & Hw & Hf).
    destruct (Hkey p s Hu) as (v & Hx & -> & _). split; [unfold size; lia|]. congruence.
  - intros p q s t. rewrite !Hat. by apply (ht_once _ _ _ _ _ T).
  - intros p s Hlt. rewrite Hat, Hsize in *. intros Hu. destruct (Hc p s Hlt Hu) as (d & H1 & H2 & H3).
    destruct (Hkey p s Hu) as (v & _ & Hk & Hl). exists d. unfold home_of. rewrite Hsize, Hk, <-Hl. split_and!; [done..|].
    intros j Hj. rewrite Hat. by apply H3.
  - intros i Hi. destruct (ht_complete _ _ _ _ _ T (N.to_nat i)) as (p & s & Hu & Hh); [unfold size in Hi; lia|]. exists p, s.
    rewrite Hat. split; [done|lia].
Qed.

End GenerationTables.
