(* ===== verification/GenerationReferences.v ===== *)
(** * The type references of a build

    A type reference leads through the canonical records to a base, intrinsic or named, and the
    modifiers around it.  The build keeps every record once: equal types have equal references. *)

From S2P Require Import Prelude Probing MappedVector Construction SourceFacts RuntimeLayout Graph GraphLookup GraphPublication HeapTables Contribution GenerationBuilder GenerationRules.

Local Open Scope N_scope.

Module GenerationReferences.

Import Probing SourceFacts HeapTables GraphPublication Contribution GenerationBuilder GenerationRules.
Notation derived_fingerprint := Graph.derived_fingerprint.
#[local] Existing Instances Graph.handle_slot_inhabited Graph.word_inhabited Graph.derived_slot_inhabited Graph.canonical_type_kind_eq_dec.

(** ** What a reference denotes *)

(** The base is an intrinsic code or the handle of a type; modifiers from the inside out. *)
Inductive denotes (cs : list canonical_type) : N → N + N → list (N * N) → Prop :=
| denotes_intrinsic ref code : ref ≠ 0 → cs !! N.to_nat ref = Some (CanonicalType 0 0 Graph.intrinsic_kind code) → denotes cs ref (inl code) []
| denotes_named ref h : ref ≠ 0 → cs !! N.to_nat ref = Some (CanonicalType 0 h Graph.named_kind 0) → denotes cs ref (inr h) []
| denotes_derived ref child kind_ payload base ms : ref ≠ 0 → denotes cs child base ms →
    cs !! N.to_nat ref = Some (CanonicalType payload child Graph.derived_kind kind_) → denotes cs ref base (ms ++ [(kind_, payload)]).

Lemma denotes_some cs ref base ms : denotes cs ref base ms → ref ≠ 0 ∧ ref < size cs.
Proof. intros H. assert (Hl : ref ≠ 0 ∧ is_Some (cs !! N.to_nat ref)) by (destruct H; eauto). destruct Hl as [H0 Hl%lookup_lt_is_Some]. unfold size. lia. Qed.

Lemma denotes_more cs cs' ref base ms : cs `prefix_of` cs' → denotes cs ref base ms → denotes cs' ref base ms.
Proof. intros Hp. induction 1; econstructor; eauto using prefix_lookup_Some. Qed.

(** A reference denotes one type. *)
Lemma denotes_functional cs ref base ms base' ms' : denotes cs ref base ms → denotes cs ref base' ms' → base' = base ∧ ms' = ms.
Proof.
  intros H. revert base' ms'. induction H as [ref code H0 Hl|ref h H0 Hl|ref child k p base ms H0 H IH Hl]; intros base' ms' H'; inversion H'; simplify_eq; try done.
  destruct (IH _ _ ltac:(eassumption)) as [-> ->]. done.
Qed.

(** Where no record is there twice, a type has one reference. *)
Lemma denotes_injective cs ref ref' base ms : NoDup cs → denotes cs ref base ms → denotes cs ref' base ms → ref' = ref.
Proof.
  intros Hn H. revert ref'. induction H as [ref code H0 Hl|ref h H0 Hl|ref child k p base ms H0 H IH Hl]; intros ref' H';
    inversion H' as [r c R0 Rl|r c R0 Rl|r c k' p' b m R0 R Rl]; simplify_eq/=.
  - pose proof (NoDup_lookup _ _ _ _ Hn Hl Rl). lia.
  - by destruct m.
  - pose proof (NoDup_lookup _ _ _ _ Hn Hl Rl). lia.
  - by destruct m.
  - by destruct ms.
  - by destruct ms.
  - match goal with H : _ ++ [_] = _ ++ [_] |- _ => apply app_inj_tail in H as [-> [= -> ->]] end.
    rewrite (IH _ R) in *. pose proof (NoDup_lookup _ _ _ _ Hn Hl Rl). lia.
Qed.

(** ** The tables of references *)

Lemma lookup_snoc {A} (l : list A) x j y : (l ++ [x]) !! j = Some y ↔ l !! j = Some y ∨ j = length l ∧ y = x.
Proof.
  rewrite lookup_app_Some, list_lookup_singleton_Some. split.
  - intros [?|(? & ? & ->)]; [by left|right]. split; [lia|done].
  - intros [?|[-> ->]]; [by left|right]. split_and!; [lia|lia|done].
Qed.

Section base.
Context (kind_ : Graph.canonical_type_kind) (make : N → canonical_type) (make_kind : ∀ code, Graph.canonical_kind (make code) = kind_)
  (make_inj : ∀ code code', make code = make code' → code = code').

(** The references of the bases of one kind, by their codes. *)
Record base_table (refs : list N) (cs : list canonical_type) : Prop := BaseTable {
  bt_entry code ref : refs !! code = Some ref → ref ≠ 0 → cs !! N.to_nat ref = Some (make (N.of_nat code));
  bt_known j t : cs !! S j = Some t → Graph.canonical_kind t = kind_ →
    ∃ code, t = make (N.of_nat code) ∧ refs !! code = Some (N.of_nat (S j)) }.

Lemma base_other refs cs t : base_table refs cs → Graph.canonical_kind t ≠ kind_ → base_table refs (cs ++ [t]).
Proof.
  intros [H1 H2] Ht. split.
  - intros code ref Hc H0. apply lookup_snoc. left. by apply H1.
  - intros j x [Hx|[_ ->]]%lookup_snoc Hk; [by apply H2|done].
Qed.

Lemma base_fresh refs cs code : base_table refs cs → refs !! code = Some 0 → cs !! 0%nat ≠ Some (make (N.of_nat code)) → make (N.of_nat code) ∉ cs.
Proof.
  intros [_ H2] Hc H0 (j & Hj)%list_elem_of_lookup. destruct j as [|j]; [done|].
  destruct (H2 j _ Hj (make_kind _)) as (code' & E & Hr). apply make_inj, Nat2N.inj in E. subst. rewrite Hc in Hr. by injection Hr.
Qed.

Lemma base_new refs cs code : base_table refs cs → refs !! code = Some 0 → cs ≠ [] →
  base_table (<[code := size cs]> refs) (cs ++ [make (N.of_nat code)]).
Proof.
  intros [H1 H2] Hc H0. apply lookup_lt_Some in Hc as Hlt. unfold size. split.
  - intros code' ref. destruct (decide (code' = code)) as [->|Hne].
    + rewrite list_lookup_insert_eq by done. intros [= <-] _. rewrite Nat2N.id. apply lookup_snoc. by right.
    + rewrite list_lookup_insert_ne by done. intros Hr Hr0. apply lookup_snoc. left. by apply H1.
  - intros j t [Hj|[Hj ->]]%lookup_snoc Hk.
    + destruct (H2 j t Hj Hk) as (code' & -> & Hr). exists code'. split; [done|]. rewrite list_lookup_insert_ne; [done|]. intros ->. by rewrite Hc in Hr.
    + exists code. split; [done|]. rewrite list_lookup_insert_eq by done. by rewrite Hj.
Qed.
End base.

Definition derived_key (cs : list canonical_type) (s : derived_slot) : N := from_option record_hash 0 (cs !! N.to_nat (type_ref s)).

(** The slots of the derived records. *)
Record derived_table (cs : list canonical_type) (slots : list derived_slot) (count : N) : Prop := DerivedTable {
  dt_search : searchable referring (derived_key cs) slots;
  dt_slot p s : used referring slots p = Some s → type_ref s ≠ 0 ∧
    ∃ t, cs !! N.to_nat (type_ref s) = Some t ∧ is_derived t = true ∧ derived_fingerprint s = fold32 (record_hash t);
  dt_known j t : cs !! j = Some t → is_derived t = true →
    ∃ p, used referring slots p = Some (DerivedSlot (fold32 (record_hash t)) (N.of_nat j));
  dt_once p q s t : used referring slots p = Some s → used referring slots q = Some t → type_ref s = type_ref t → p = q;
  dt_child j t : cs !! j = Some t → is_derived t = true → 1 <= Graph.child_or_handle t < N.of_nat j;
  dt_count : count = derived_count cs }.

Lemma derived_key_more cs slots count more p s : derived_table cs slots count → used referring slots p = Some s →
  derived_key (cs ++ more) s = derived_key cs s.
Proof.
  intros T Hs. destruct (dt_slot _ _ _ T _ _ Hs) as (_ & t & Ht & _). unfold derived_key. rewrite Ht.
  by rewrite (lookup_app_l_Some _ _ _ _ Ht).
Qed.

Lemma searchable_ext (hash hash' : derived_slot → N) slots : searchable referring hash slots →
  (∀ p s, used referring slots p = Some s → hash' s = hash s) → searchable referring hash' slots.
Proof. intros [Hp Hc] H. split; [done|]. intros p s Hlt Hs. rewrite (H _ _ Hs). by apply (Hc p s). Qed.

Lemma derived_count_snoc cs t : derived_count (cs ++ [t]) = derived_count cs + if is_derived t then 1 else 0.
Proof.
  unfold derived_count, Graph.count_of. rewrite filter_app, length_app, filter_cons, filter_nil. destruct (is_derived t); [rewrite decide_True by done|rewrite decide_False by done]; cbn [length]; lia.
Qed.

Lemma derived_other cs slots count t : derived_table cs slots count → is_derived t = false → derived_table (cs ++ [t]) slots count.
Proof.
  intros T Ht. split; try apply T.
  - eapply searchable_ext; [apply T|]. intros p s. by apply (derived_key_more _ _ _ _ _ _ T).
  - intros p s Hs. destruct (dt_slot _ _ _ T _ _ Hs) as (H0 & x & Hx & H). split; [done|]. exists x. split; [|done]. apply lookup_snoc. by left.
  - intros j x [Hx|[_ ->]]%lookup_snoc Hd; [by apply (dt_known _ _ _ T)|congruence].
  - intros j x [Hx|[_ ->]]%lookup_snoc Hd; [by apply (dt_child _ _ _ T)|congruence].
  - rewrite derived_count_snoc, Ht, N.add_0_r. apply T.
Qed.

Lemma referring_some s e : referring s = Some e ↔ e = s ∧ type_ref s ≠ 0.
Proof. unfold referring. destruct (N.eqb_spec (type_ref s) 0); naive_solver. Qed.

Lemma derived_new cs slots count t p : derived_table cs slots count → is_derived t = true → 1 <= Graph.child_or_handle t < size cs →
  p < size slots → used referring slots p = None →
  searchable referring (derived_key (cs ++ [t])) (<[N.to_nat p := DerivedSlot (fold32 (record_hash t)) (size cs)]> slots) →
  derived_table (cs ++ [t]) (<[N.to_nat p := DerivedSlot (fold32 (record_hash t)) (size cs)]> slots) (count + 1).
Proof.
  intros T Ht Hchild Hp Hvac Hs. set (new := DerivedSlot _ (size cs)) in *.
  assert (Hn : referring new = Some new) by (apply referring_some; cbn; split; [done|lia]).
  assert (Hused : ∀ q, used referring (<[N.to_nat p := new]> slots) q = if decide (q = p) then Some new else used referring slots q).
  { intros q. rewrite heap_used_insert by done. by rewrite Hn. }
  assert (Hold : ∀ q s, used referring slots q = Some s → type_ref s < size cs).
  { intros q s Hq. destruct (dt_slot _ _ _ T _ _ Hq) as (_ & x & Hx & _). apply lookup_lt_Some in Hx. unfold size. lia. }
  split.
  - done.
  - intros q s. rewrite Hused. case_decide.
    + intros [= <-]. cbn. split; [lia|]. exists t. split_and!; [|done..]. apply lookup_snoc. right. unfold size. split; [lia|done].
    + intros Hq. destruct (dt_slot _ _ _ T _ _ Hq) as (H0 & x & Hx & H'). split; [done|]. exists x. split; [|done]. apply lookup_snoc. by left.
  - intros j x [Hx|[-> ->]]%lookup_snoc Hd.
    + destruct (dt_known _ _ _ T j x Hx Hd) as [q Hq]. exists q. rewrite Hused. case_decide; [congruence|done].
    + exists p. rewrite Hused, decide_True by done. done.
  - intros q1 q2 s1 s2. rewrite !Hused. do 2 case_decide; intros H1 H2 E; simplify_eq; try done.
    + pose proof (Hold _ _ H2). cbn in E. lia.
    + pose proof (Hold _ _ H1). cbn in E. lia.
    + by eapply (dt_once _ _ _ T).
  - intros j x [Hx|[-> ->]]%lookup_snoc Hd; [by apply (dt_child _ _ _ T)|done].
  - rewrite derived_count_snoc, Ht. by rewrite (dt_count _ _ _ T).
Qed.

(** ** The state *)

Definition intrinsic_record (code : N) : canonical_type := CanonicalType 0 0 Graph.intrinsic_kind code.
Definition named_record (h : N) : canonical_type := CanonicalType 0 h Graph.named_kind 0.

Record references_of (n : nat) (r : references) : Prop := ReferencesOf {
  rf_reserved : canonical r !! 0%nat = Some no_canonical;
  rf_size : size (canonical r) <= u32_max;
  rf_unique : NoDup (canonical r);
  rf_intrinsics : length (intrinsic_refs r) = Graph.graph_intrinsic_type_count;
  rf_intrinsic : base_table Graph.intrinsic_kind intrinsic_record (intrinsic_refs r) (canonical r);
  rf_names : length (named_refs r) = S n;
  rf_named : base_table Graph.named_kind named_record (named_refs r) (canonical r);
  rf_derived : derived_table (canonical r) (derived_slots r) (derived_entries r) }.

Lemma references_none n capacity : power_of_two capacity →
  references_of n (References [no_canonical] (replicate Graph.graph_intrinsic_type_count 0) (replicate (S n) 0)
    (replicate (N.to_nat capacity) (DerivedSlot 0 0)) 0).
Proof.
  intros Hp. assert (Hu : ∀ p, used referring (replicate (N.to_nat capacity) (DerivedSlot 0 0)) p = None).
  { intros p. unfold used. destruct (_ !! _) as [s|] eqn:E; [|done]. by apply lookup_replicate in E as [-> _]. }
  split; cbn [canonical intrinsic_refs named_refs derived_slots derived_entries]; try done.
  - apply NoDup_singleton.
  - split; [|done]. intros code ref [-> _]%lookup_replicate. done.
  - by rewrite length_replicate.
  - split; [|done]. intros h ref [-> _]%lookup_replicate. done.
  - split; try (intros *; rewrite ?Hu; done).
    + apply searchable_vacant; [by rewrite N2Nat.id|done].
    + intros [|j] t Ht; [by injection Ht as <-|done].
    + intros [|j] t Ht; [by injection Ht as <-|done].
Qed.

(** ** The operations *)

Lemma references_nonempty n r : references_of n r → canonical r ≠ [].
Proof. intros R E. pose proof (rf_reserved _ _ R) as H. by rewrite E in H. Qed.

Lemma append_canonical_some record r a : append_canonical record r = inr a → size (canonical r) < u32_max ∧
  a = (size (canonical r), References (canonical r ++ [record]) (intrinsic_refs r) (named_refs r) (derived_slots r) (derived_entries r)).
Proof.
  unfold append_canonical. destruct (N.leb_spec u32_max (size (canonical r))) as [|H]; [done|]. intros [= <-]. split; [done|].
  rewrite w32_small; [done|]. unfold u32_max in H. lia.
Qed.

Lemma size_snoc {A} (l : list A) x : size (l ++ [x]) = size l + 1.
Proof. unfold size. rewrite length_app. cbn. lia. Qed.

Lemma unique_snoc (cs : list canonical_type) t : NoDup cs → t ∉ cs → NoDup (cs ++ [t]).
Proof.
  intros Hl Hx. apply NoDup_app. split; [done|]. split; [|apply NoDup_singleton]. intros y Hy Hy'%list_elem_of_singleton. by subst.
Qed.

(** One more record. *)
Lemma references_more n r t intrinsics named slots count : references_of n r → t ∉ canonical r → size (canonical r) < u32_max →
  length intrinsics = Graph.graph_intrinsic_type_count → base_table Graph.intrinsic_kind intrinsic_record intrinsics (canonical r ++ [t]) →
  length named = S n → base_table Graph.named_kind named_record named (canonical r ++ [t]) →
  derived_table (canonical r ++ [t]) slots count →
  references_of n (References (canonical r ++ [t]) intrinsics named slots count) ∧ canonical r `prefix_of` canonical r ++ [t].
Proof.
  intros R Hfresh Hlt H1 H2 H3 H4 H5. split; [|by apply prefix_app_r]. split; try done; cbn [canonical].
  - apply lookup_snoc. left. apply R.
  - rewrite size_snoc. unfold u32_max in *. lia.
  - by apply unique_snoc; [apply R|].
Qed.

Lemma size_nonzero {A} (l : list A) : l ≠ [] → size l ≠ 0.
Proof. by destruct l. Qed.

Lemma lookup_last {A} (l : list A) x : (l ++ [x]) !! N.to_nat (size l) = Some x.
Proof. apply lookup_snoc. right. unfold size. split; [lia|done]. Qed.

Lemma get_intrinsic_spec n code r ref r' : references_of n r → get_intrinsic code r = inr (ref, r') →
  references_of n r' ∧ canonical r `prefix_of` canonical r' ∧ denotes (canonical r') ref (inl code) [].
Proof.
  intros R E. unfold get_intrinsic in E. destruct (intrinsic_refs r !! N.to_nat code) as [known|] eqn:Hc; [|done].
  destruct (N.eqb_spec code intrinsic_none) as [|H0]; [done|]. destruct (N.eqb_spec known 0) as [->|Hk]; cbn [negb] in E.
  - destruct (append_canonical _ r) as [|a] eqn:Ea; [done|]. apply append_canonical_some in Ea as [Hlt ->]. injection E as <- <-.
    pose proof (references_nonempty _ _ R) as Hne.
    assert (Hfresh : intrinsic_record code ∉ canonical r).
    { rewrite <-(N2Nat.id code). eapply (base_fresh Graph.intrinsic_kind intrinsic_record); [done|by intros ?? [=]|apply R|done|]. rewrite (rf_reserved _ _ R), N2Nat.id.
      unfold no_canonical, intrinsic_record. intros [=]. done. }
    destruct (references_more n r (intrinsic_record code) (<[N.to_nat code := size (canonical r)]> (intrinsic_refs r)) (named_refs r)
      (derived_slots r) (derived_entries r) R Hfresh Hlt) as [R' Hpre].
    + rewrite length_insert. apply R.
    + rewrite <-(N2Nat.id code) at 2. apply base_new; [apply R|done|done].
    + apply R.
    + apply base_other; [apply R|done].
    + apply derived_other; [apply R|done].
    + split_and!; [done|done|]. constructor; [by apply size_nonzero|apply lookup_last].
  - injection E as <- <-. split_and!; [done|done|]. constructor; [done|]. rewrite (bt_entry _ _ _ _ (rf_intrinsic _ _ R) _ _ Hc Hk). by rewrite N2Nat.id.
Qed.

Lemma get_named_spec n h r ref r' : references_of n r → get_named h r = inr (ref, r') →
  references_of n r' ∧ canonical r `prefix_of` canonical r' ∧ denotes (canonical r') ref (inr h) [].
Proof.
  intros R E. unfold get_named in E. destruct (named_refs r !! N.to_nat h) as [known|] eqn:Hc; [|done].
  destruct (N.eqb_spec h 0) as [|H0]; [done|]. destruct (N.eqb_spec known 0) as [->|Hk]; cbn [negb] in E.
  - destruct (append_canonical _ r) as [|a] eqn:Ea; [done|]. apply append_canonical_some in Ea as [Hlt ->]. injection E as <- <-.
    pose proof (references_nonempty _ _ R) as Hne.
    assert (Hfresh : named_record h ∉ canonical r).
    { rewrite <-(N2Nat.id h). eapply (base_fresh Graph.named_kind named_record); [done|by intros ?? [=]|apply R|done|]. by rewrite (rf_reserved _ _ R). }
    destruct (references_more n r (named_record h) (intrinsic_refs r) (<[N.to_nat h := size (canonical r)]> (named_refs r))
      (derived_slots r) (derived_entries r) R Hfresh Hlt) as [R' Hpre].
    + apply R.
    + apply base_other; [apply R|done].
    + rewrite length_insert. apply R.
    + rewrite <-(N2Nat.id h) at 2. apply base_new; [apply R|done|done].
    + apply derived_other; [apply R|done].
    + split_and!; [done|done|]. constructor; [by apply size_nonzero|apply lookup_last].
  - injection E as <- <-. split_and!; [done|done|]. constructor; [done|]. rewrite (bt_entry _ _ _ _ (rf_named _ _ R) _ _ Hc Hk). by rewrite N2Nat.id.
Qed.

Definition derived_record (kind_ child payload : N) : canonical_type := CanonicalType payload child Graph.derived_kind kind_.

(** A slot matches the record it refers to, if that is the one. *)
Lemma same_derived_spec n r kind_ child payload p s : references_of n r → used referring (derived_slots r) p = Some s →
  same_derived (derived_record kind_ child payload) r s = true ↔ canonical r !! N.to_nat (type_ref s) = Some (derived_record kind_ child payload).
Proof.
  intros R Hs. destruct (dt_slot _ _ _ (rf_derived _ _ R) _ _ Hs) as (_ & t & Ht & Hd & Hf). unfold same_derived. rewrite Ht, Hf. split.
  - rewrite !andb_true_iff, bool_decide_eq_true, !N.eqb_eq. intros (_ & ((Hk & H1) & H2) & H3). destruct t. cbn in *. subst. done.
  - intros [= ->]. rewrite !andb_true_iff, bool_decide_eq_true, !N.eqb_eq. by split_and!.
Qed.

Lemma derived_sound n r kind_ child payload q e : references_of n r → derived_record kind_ child payload ∉ canonical r →
  used referring (derived_slots r) q = Some e → same_derived (derived_record kind_ child payload) r e = false.
Proof.
  intros R Hfresh He. destruct (same_derived _ r e) eqn:Em; [|done]. destruct Hfresh.
  apply (same_derived_spec n r _ _ _ q _ R He) in Em. by eapply list_elem_of_lookup_2.
Qed.

(** A walk that ends at a vacant slot has not passed the record: it is new. *)
Lemma derived_fresh n r kind_ child payload p : references_of n r →
  walk referring (same_derived (derived_record kind_ child payload) r) (derived_slots r) (record_hash (derived_record kind_ child payload)) = Some (p, None) →
  derived_record kind_ child payload ∉ canonical r.
Proof.
  set (t := derived_record kind_ child payload). intros R Hw (j & Hj)%list_elem_of_lookup. pose proof (rf_derived _ _ R) as T.
  destruct (dt_known _ _ _ T j t Hj eq_refl) as [q Hq].
  assert (Hled : derived_key (canonical r) (DerivedSlot (fold32 (record_hash t)) (N.of_nat j)) = record_hash t).
  { unfold derived_key. cbn. by rewrite Nat2N.id, Hj. }
  rewrite (walk_found referring (derived_key (canonical r)) _ _ _ q _ (dt_search _ _ _ T) Hq Hled) in Hw; [done| |].
  - apply (same_derived_spec n r _ _ _ q _ R Hq). cbn. by rewrite Nat2N.id.
  - intros q' s' Hq' Hm. apply (same_derived_spec n r _ _ _ q' _ R Hq') in Hm. apply (dt_once _ _ _ T _ _ _ _ Hq' Hq). cbn.
    pose proof (NoDup_lookup _ _ _ _ (rf_unique _ _ R) Hm Hj). lia.
Qed.

(** The record goes into the slot. *)
Lemma derived_taken n r kind_ child payload p : references_of n r → 1 <= child < size (canonical r) →
  walk referring (same_derived (derived_record kind_ child payload) r) (derived_slots r) (record_hash (derived_record kind_ child payload)) = Some (p, None) →
  derived_table (canonical r ++ [derived_record kind_ child payload])
    (<[N.to_nat p := DerivedSlot (fold32 (record_hash (derived_record kind_ child payload))) (size (canonical r))]> (derived_slots r))
    (derived_entries r + 1).
Proof.
  set (t := derived_record kind_ child payload). intros R Hchild Hw. pose proof (derived_fresh n r _ _ _ p R Hw) as Hfresh.
  pose proof (rf_derived _ _ R) as T. pose proof (size_nonzero _ (references_nonempty _ _ R)).
  destruct (walk_Some _ _ _ _ _ _ (s_power _ _ _ (dt_search _ _ _ T)) Hw) as (d & _ & _ & Hp & Hu & _ & _).
  destruct (walk_vacant referring (derived_key (canonical r ++ [t])) (same_derived t r) (derived_slots r) (record_hash t) p) as (p' & Hw' & _ & _ & Hins);
    [|done|done|intros q e; by apply (derived_sound n)|].
  { eapply searchable_ext; [apply T|]. intros q e. by apply (derived_key_more _ _ _ _ _ _ T). }
  rewrite Hw in Hw'. injection Hw' as <-. apply derived_new; [done|done|cbn; lia|done|done|].
  apply (Hins _ (DerivedSlot (fold32 (record_hash t)) (size (canonical r)))).
  - apply referring_some. cbn. by split.
  - unfold derived_key. cbn. by rewrite lookup_last.
Qed.

Lemma get_derived_spec n kind_ child payload r ref r' base ms : references_of n r → denotes (canonical r) child base ms →
  get_derived kind_ child payload r = inr (ref, r') →
  references_of n r' ∧ canonical r `prefix_of` canonical r' ∧ denotes (canonical r') ref base (ms ++ [(kind_, payload)]).
Proof.
  intros R D E. destruct (denotes_some _ _ _ _ D) as [Hchild0 Hchild]. unfold get_derived in E. destruct (_ || _); [done|].
  fold (derived_record kind_ child payload) in E. set (t := derived_record kind_ child payload) in *.
  change (Graph.derived_hash kind_ child payload) with (record_hash t) in E. pose proof (rf_derived _ _ R) as T.
  destruct (walk referring (same_derived t r) (derived_slots r) (record_hash t)) as [[p [s|]]|] eqn:Hw; [| |done].
  - injection E as <- <-. destruct (walk_Some _ _ _ _ _ _ (s_power _ _ _ (dt_search _ _ _ T)) Hw) as (d & _ & _ & _ & Hu & Hm & _).
    split_and!; [done|done|]. econstructor; [|exact D|by apply (same_derived_spec n r _ _ _ p s R Hu), Hm]. by destruct (dt_slot _ _ _ T _ _ Hu).
  - destruct (append_canonical t r) as [|a] eqn:Ea; [done|]. apply append_canonical_some in Ea as [Hlt ->]. injection E as <- <-.
    destruct (references_more n r t (intrinsic_refs r) (named_refs r)
      (<[N.to_nat p := DerivedSlot (fold32 (record_hash t)) (size (canonical r))]> (derived_slots r)) (derived_entries r + 1)) as [R' Hpre];
      [done|by apply (derived_fresh n r _ _ _ p)|done|apply R|by apply base_other; [apply R|]|apply R|by apply base_other; [apply R|]|
       apply (derived_taken n); [done|lia|done]|].
    split_and!; [done|done|]. apply (denotes_derived _ _ child); [lia|by eapply denotes_more, D; apply prefix_app_r|apply lookup_last].
Qed.

(** The type of a contribution: the base, then the modifiers. *)
Definition wrapping (m : source_type_modifier) : N * N := (derived_kind (modifier_code m), modifier_payload m).
Definition wrapped (modifiers : list source_type_modifier) (t : contribution_type_ref) : list (N * N) :=
  wrapping ∘ snd <$> slice modifiers (type_modifiers t).
Definition base_of (t : contribution_type_ref) (h : N) : N + N := if base_identity t =? 0 then inl (base_intrinsic t) else inr h.

Definition refers (cs : list canonical_type) (modifiers : list source_type_modifier) (t : contribution_type_ref) (h ref : N) : Prop :=
  denotes cs ref (base_of t h) (wrapped modifiers t).

Section memory.
Context (memory : nat → bool).

Lemma bwp_materialize what1 what2 what3 modifiers t h n r s Q : references_of n r →
  (∀ ref r' s', stays s s' → references_of n r' → canonical r `prefix_of` canonical r' → refers (canonical r') modifiers t h ref → Q (ref, r') s') →
  wp (materialize memory what1 what2 what3 modifiers t h r) s Q.
Proof.
  intros R HQ. unfold materialize. apply bwp_bind, bwp_reported. intros [ref r1] E1. apply bwp_bind, bwp_demand. intros _.
  assert (H1 : references_of n r1 ∧ canonical r `prefix_of` canonical r1 ∧ denotes (canonical r1) ref (base_of t h) []).
  { unfold base_of. destruct (base_identity t =? 0); [by eapply get_intrinsic_spec|by eapply get_named_spec]. }
  apply (bwp_folded (λ l a s', stays s s' ∧ references_of n a.2 ∧ canonical r `prefix_of` canonical a.2 ∧
    denotes (canonical a.2) a.1 (base_of t h) (wrapping <$> l))).
  - done.
  - intros l1 m l2 [ref' r'] s' _ (Hs' & R' & Hp' & D'). unfold wrap. apply bwp_reported. intros [ref2 r2] E2. cbn [fst snd] in *.
    destruct (get_derived_spec _ _ _ _ _ _ _ _ _ R' D' E2) as (R2 & Hp2 & D2). split_and!; [done|done|by etrans|].
    by rewrite fmap_app.
  - intros [ref' r'] s' (Hs' & R' & Hp' & D'). apply HQ; [done..|]. unfold refers, wrapped. by rewrite list_fmap_compose.
Qed.

Definition member_refers (cs : list canonical_type) modifiers (m : contribution_member * N) (ref : N) : Prop :=
  refers cs modifiers (contributed_type m.1) m.2 ref.
Definition object_refers (cs : list canonical_type) modifiers (o : contribution_object * N) (e : object_entry) : Prop :=
  refers cs modifiers (contributed_object_type o.1) o.2 (RuntimeLayout.object_type e) ∧
  RuntimeLayout.object_flags e = N.lor 0x80000000 (contributed_flags o.1).

Lemma refers_more cs cs' modifiers t h ref : cs `prefix_of` cs' → refers cs modifiers t h ref → refers cs' modifiers t h ref.
Proof. apply denotes_more. Qed.

Lemma bwp_materialize_members modifiers ms n r s Q : references_of n r →
  (∀ refs r' s', stays s s' → references_of n r' → canonical r `prefix_of` canonical r' →
    Forall2 (member_refers (canonical r') modifiers) ms refs → Q (refs, r') s') →
  wp (folded (materialize_member memory modifiers) ([], r) ms) s Q.
Proof.
  intros R HQ. apply (bwp_folded (λ l a s', stays s s' ∧ references_of n a.2 ∧ canonical r `prefix_of` canonical a.2 ∧
    Forall2 (member_refers (canonical a.2) modifiers) l a.1)).
  - by split_and!.
  - intros l1 m l2 [refs r1] s1 _ (H1 & R1 & P1 & F1). unfold materialize_member. apply bwp_bind. cbn [fst snd] in *.
    eapply bwp_materialize; [exact R1|]. intros ref r2 s2 H2 R2 P2 D2. apply bwp_ret. cbn [fst snd]. split_and!; [by eapply stays_trans|done|by etrans|].
    apply Forall2_app; [|by repeat constructor]. eapply Forall2_impl; [exact F1|]. intros ?? . by apply refers_more.
  - intros [refs r'] s' (? & ? & ? & ?). by apply HQ.
Qed.

Lemma bwp_materialize_objects modifiers os n r s Q : references_of n r →
  (∀ entries r' s', stays s s' → references_of n r' → canonical r `prefix_of` canonical r' →
    Forall2 (object_refers (canonical r') modifiers) os entries → Q (entries, r') s') →
  wp (folded (materialize_object memory modifiers) ([], r) os) s Q.
Proof.
  intros R HQ. apply (bwp_folded (λ l a s', stays s s' ∧ references_of n a.2 ∧ canonical r `prefix_of` canonical a.2 ∧
    Forall2 (object_refers (canonical a.2) modifiers) l a.1)).
  - by split_and!.
  - intros l1 m l2 [es r1] s1 _ (H1 & R1 & P1 & F1). unfold materialize_object. apply bwp_bind. cbn [fst snd] in *.
    eapply bwp_materialize; [exact R1|]. intros ref r2 s2 H2 R2 P2 D2. apply bwp_ret. cbn [fst snd]. split_and!; [by eapply stays_trans|done|by etrans|].
    apply Forall2_app; [|by repeat constructor]. eapply Forall2_impl; [exact F1|]. intros ?? [??]. split; [by eapply refers_more|done].
  - intros [es r'] s' (? & ? & ? & ?). by apply HQ.
Qed.
End memory.

End GenerationReferences.
