(* ===== verification/GenerationDefinitions.v ===== *)
(** * The definitions of a build

    What [define_source] makes of the definitions among the declarations: the members and the
    enumeration values laid out, the entries completed, and the edges from the types of the
    members to the types that hold them. *)

From S2P Require Import Prelude Probing MappedVector Construction SourceFacts RuntimeLayout Graph GraphLookup GraphPublication HeapTables Contribution GenerationBuilder GenerationRules GenerationTypes.

Local Open Scope N_scope.

Module GenerationDefinitions.

Import SourceFacts HeapTables GraphPublication Contribution GenerationBuilder GenerationRules GenerationTypes.

(** ** Ranges of an arena *)

Definition placed {A} (r : Graph.definition_range) (arena records : list A) : Prop :=
  1 <= Graph.range_first r ∧ Graph.range_length r = size records ∧
  take (length records) (drop (N.to_nat (Graph.range_first r - 1)) arena) = records.

Lemma placed_more {A} r (arena records more : list A) : placed r arena records → placed r (arena ++ more) records.
Proof.
  intros (H1 & H2 & H3). split_and!; [done..|]. rewrite <-H3 at 2. apply (f_equal length) in H3 as Hl.
  rewrite length_take in Hl. rewrite length_drop in Hl.
  destruct (Nat.le_gt_cases (length arena) (N.to_nat (Graph.range_first r - 1))) as [Hle|Hgt].
  - rewrite !(drop_ge arena) by done. assert (length records = 0)%nat as -> by lia. done.
  - rewrite drop_app_le by lia. rewrite take_app_le; [done|]. rewrite length_drop. lia.
Qed.

Lemma placed_end {A} (arena records : list A) : placed (Graph.DefinitionRange (size arena + 1) (size records)) (arena ++ records) records.
Proof.
  split_and!; cbn; [lia|done|]. replace (N.to_nat (size arena + 1 - 1)) with (length arena) by (unfold size; lia).
  rewrite drop_app_length. apply take_ge. lia.
Qed.

Lemma length_range_slice {A} (l : list A) r : range_in l r = true → size (slice l r) = count r.
Proof.
  unfold range_in, slice, size. intros [H1%N.leb_le H2%N.leb_le]%andb_true_iff.
  rewrite length_zip_with, length_fmap, length_seq, length_take, length_drop. lia.
Qed.

(** ** Records *)

Notation field := (contribution_member * N * N)%type.

Definition built_member (f : field) : Graph.member_record :=
  Graph.MemberRecord (contributed_name f.1.1) f.1.2 (access_of (contributed_access f.1.1)) (contributed_construction f.1.1).

(** A member of a named type makes an edge from that type to the holder. *)
Definition edges_to (owner : N) (fields : list field) : list (N * N * N) :=
  fields ≫= λ f : field, if base_identity (contributed_type f.1.1) =? 0 then [] else [(f.2, owner, 1)].

Lemma define_members owner fields : ∀ f, foldl (define_member owner) f fields =
  let state := linked (dependency_heads f, dependency_edges f) (edges_to owner fields) in
  Definitions (seen f) (entries f) (built_members f ++ (built_member <$> fields)) (built_values f) state.1 state.2.
Proof.
  induction fields as [|[[item ref] base] fields IH]; intros [sn en bm bv hs es].
  - cbn. by rewrite app_nil_r.
  - cbn [foldl]. rewrite IH. unfold define_member, edges_to. cbn [mbind list_bind fst snd seen entries built_members built_values dependency_heads dependency_edges].
    destruct (base_identity (contributed_type item) =? 0); cbn; rewrite <-app_assoc; done.
Qed.

Section definitions.
Context (abi : RuntimeLayout.abi_configuration) (c : storage) (ids : list N) (declared0 : list type_entry) (handles refs bases : list N).

Definition fields_of (item : contribution_type) : list field := snd <$> slice (zip (zip (items (members c)) refs) bases) (definition_items item).
Definition values_of (item : contribution_type) : list contribution_enum_value := snd <$> slice (items (enum_values c)) (definition_items item).

(** What the definition makes of the entry that the declarations add up to. *)
Definition completed (f : definitions) (e : type_entry) (item : contribution_type) (e' : type_entry) : Prop :=
  match contributed_kind item with
  | record_contribution => ∃ range, e' = with_range range e ∧ placed range (built_members f) (built_member <$> fields_of item)
  | enum_contribution => ∃ range e1, enum_entry abi e item (values_of item) = inr e1 ∧ e' = with_range range e1 ∧
      placed range (built_values f) (built_value <$> values_of item)
  end.

Definition edges_of (d : declaration) : list (N * N * N) :=
  if definition d.2 then
    match contributed_kind d.2 with
    | record_contribution => edges_to (default 0 (handles !! N.to_nat d.1)) (fields_of d.2)
    | enum_contribution => []
    end
  else [].

Definition definitions_among (identity : N) (ds : list declaration) : list declaration :=
  filter (λ d, definition d.2 = true) (of_identity identity ds).

Record definitions_of (ds : list declaration) (f : definitions) : Prop := DefinitionsOf {
  df_seen i identity : ids !! i = Some identity → seen f !! i = Some (negb (bool_decide (definitions_among identity ds = [])));
  df_entries i identity e : ids !! i = Some identity → declared0 !! i = Some e → ∃ e', entries f !! i = Some e' ∧
    match definitions_among identity ds with
    | [] => e' = e
    | [d] => completed f e d.2 e'
    | _ => False
    end;
  df_length : length (entries f) = length ids;
  df_seen_length : length (seen f) = length ids;
  df_heads : length (dependency_heads f) = length ids;
  df_edges : (dependency_heads f, dependency_edges f) = linked (replicate (length ids) 0, []) (ds ≫= edges_of) }.

Lemma definitions_none sn : length declared0 = length ids → sn = replicate (length ids) false →
  definitions_of [] (Definitions sn declared0 [] [] (replicate (length declared0) 0) []).
Proof.
  intros Hl ->. split; cbn; rewrite ?Hl, ?length_replicate; try done.
  - intros i identity Hi. apply lookup_replicate. split; [done|by eapply lookup_lt_Some].
  - intros i identity e Hi He. by exists e.
Qed.

Lemma completed_more f f' x y e item e' : built_members f' = built_members f ++ x → built_values f' = built_values f ++ y →
  completed f e item e' → completed f' e item e'.
Proof.
  intros Hm Hv. unfold completed. rewrite Hm, Hv. destruct (contributed_kind item).
  - intros (range & H1 & H2). exists range. split; [done|by apply placed_more].
  - intros (range & e1 & H1 & H2 & H3). exists range, e1. split_and!; [done..|by apply placed_more].
Qed.

Lemma among_snoc identity ds d : definitions_among identity (ds ++ [d]) =
  definitions_among identity ds ++ (if decide (identity_of d = identity ∧ definition d.2 = true) then [d] else []).
Proof.
  unfold definitions_among. rewrite of_identity_snoc, filter_app. f_equal. destruct (decide (identity_of d = identity)).
  - rewrite filter_cons, filter_nil. destruct (decide (definition d.2 = true)), (decide (_ ∧ _)); tauto.
  - rewrite filter_nil. destruct (decide (_ ∧ _)); tauto.
Qed.

Lemma linked_app state p q : linked state (p ++ q) = linked (linked state p) q.
Proof. apply foldl_app. Qed.

Lemma linked_length p : ∀ state, length (linked state p).1 = length state.1.
Proof.
  unfold linked. induction p as [|[[t o] v] p IH]; intros [hs es]; [done|]. cbn [foldl]. rewrite IH. cbn. by rewrite length_insert.
Qed.

(** A declaration that is no definition. *)
Lemma definitions_skip ds f d : definitions_of ds f → definition d.2 = false → definitions_of (ds ++ [d]) f.
Proof.
  intros D Hd. assert (Ha : ∀ identity, definitions_among identity (ds ++ [d]) = definitions_among identity ds).
  { intros identity. rewrite among_snoc, decide_False, app_nil_r; [done|]. intros [_ ?]. congruence. }
  split; try apply D.
  - intros i identity Hi. rewrite Ha. by apply (df_seen _ _ D).
  - intros i identity e Hi He. rewrite Ha. by apply (df_entries _ _ D).
  - rewrite bind_app. cbn. unfold edges_of at 2. rewrite Hd, app_nil_r. apply D.
Qed.

(** The definition of a type that has none yet. *)
Lemma definitions_step ds f f' i index item e e' x y : NoDup ids → definitions_of ds f →
  ids !! i = Some (contributed_identity item) → definition item = true → definitions_among (contributed_identity item) ds = [] →
  declared0 !! i = Some e → completed f' e item e' →
  seen f' = <[i := true]> (seen f) → entries f' = <[i := e']> (entries f) →
  built_members f' = built_members f ++ x → built_values f' = built_values f ++ y →
  (dependency_heads f', dependency_edges f') = linked (dependency_heads f, dependency_edges f) (edges_of (index, item)) →
  definitions_of (ds ++ [(index, item)]) f'.
Proof.
  intros Hn D Hi Hdef Hnone He Hc Hs Hent Hm Hv Hl. apply lookup_lt_Some in Hi as Hlt.
  assert (Hother : ∀ j identity, ids !! j = Some identity → j ≠ i → definitions_among identity (ds ++ [(index, item)]) = definitions_among identity ds).
  { intros j identity Hj Hne. rewrite among_snoc, decide_False, app_nil_r; [done|]. intros [E _]. unfold identity_of in E. cbn in E. subst.
    destruct Hne. by eapply NoDup_lookup. }
  assert (Hown : definitions_among (contributed_identity item) (ds ++ [(index, item)]) = [(index, item)]).
  { rewrite among_snoc, Hnone, decide_True; done. }
  split.
  - intros j identity Hj. rewrite Hs. destruct (decide (j = i)) as [->|Hne].
    + rewrite Hi in Hj. injection Hj as <-. rewrite Hown, list_lookup_insert_eq; [done|]. by rewrite (df_seen_length _ _ D).
    + rewrite list_lookup_insert_ne by done. rewrite (Hother j) by done. by apply (df_seen _ _ D).
  - intros j identity e0 Hj He0. rewrite Hent. destruct (decide (j = i)) as [->|Hne].
    + rewrite Hi in Hj. injection Hj as <-. rewrite Hown, list_lookup_insert_eq by (by rewrite (df_length _ _ D)).
      exists e'. split; [done|]. cbn. congruence.
    + rewrite list_lookup_insert_ne by done. rewrite (Hother j) by done. destruct (df_entries _ _ D j identity e0 Hj He0) as (e1 & H1 & H2).
      exists e1. split; [done|]. destruct (definitions_among identity ds) as [|d [|]]; [done| |done]. by eapply completed_more.
  - rewrite Hent, length_insert. apply D.
  - rewrite Hs, length_insert. apply D.
  - apply (f_equal (λ s, length s.1)) in Hl. cbn in Hl. rewrite Hl, linked_length. apply D.
  - rewrite Hl, (df_edges _ _ D), bind_app, <-linked_app. cbn. by rewrite app_nil_r.
Qed.

Lemma fields_range item : length refs = length (items (members c)) → length bases = length (items (members c)) →
  range_in (items (members c)) (definition_items item) = true → size (fields_of item) = count (definition_items item).
Proof.
  intros H1 H2 Hr. unfold fields_of, size. rewrite length_fmap. apply length_range_slice. unfold range_in, size in *.
  rewrite !length_zip_with, H1, H2, !Nat.min_id. done.
Qed.

Lemma values_range item : range_in (items (enum_values c)) (definition_items item) = true → size (values_of item) = count (definition_items item).
Proof. intros Hr. unfold values_of, size. rewrite length_fmap. by apply length_range_slice. Qed.

(** The type [i], without a definition so far. *)
Record to_define (ds : list declaration) (f : definitions) (index : N) (item : contribution_type) (i : nat) (e : type_entry) : Prop := ToDefine {
  td_state : definitions_of ds f;
  td_handle : handles !! N.to_nat index = Some (N.of_nat i + 1);
  td_identity : ids !! i = Some (contributed_identity item);
  td_definition : definition item = true;
  td_none : definitions_among (contributed_identity item) ds = [];
  td_declared : declared0 !! i = Some e;
  td_entry : entries f !! i = Some e }.

Definition marked (i : nat) (f : definitions) : definitions :=
  Definitions (<[i := true]> (seen f)) (entries f) (built_members f) (built_values f) (dependency_heads f) (dependency_edges f).

Lemma bwp_define_record memory source ds f index item i e s Q : NoDup ids →
  length refs = length (items (members c)) → length bases = length (items (members c)) →
  to_define ds f index item i e → contributed_kind item = record_contribution →
  (∀ f' s', stays s s' → definitions_of (ds ++ [(index, item)]) f' → Q f' s') →
  wp (define_record memory source c refs bases (N.of_nat i + 1) (marked i f) item) s Q.
Proof.
  intros Hn Hr Hb [D Hh Hi Hdef Hnone He Hent] Hk HQ. unfold define_record. cbv zeta. cbn [entries built_members marked].
  replace (N.to_nat (N.of_nat i + 1 - 1)) with i by lia. rewrite Hent. cbn [from_option id].
  apply bwp_bind, bwp_demand. intros [[Hrange Hsize%N.ltb_lt]%andb_true_iff Hcount%N.leb_le]%andb_true_iff.
  apply bwp_ret, HQ; [done|]. fold (fields_of item). rewrite define_members. unfold set_entry.
  pose proof (fields_range item Hr Hb Hrange) as Hfields.
  eapply (definitions_step ds f _ i index item e _ (built_member <$> fields_of item) []); try done; cbn.
  - unfold completed. rewrite Hk. cbn. eexists. split; [done|]. rewrite !w32_small by (unfold u32_max in *; lia).
    rewrite <-Hfields. replace (size (fields_of item)) with (size (built_member <$> fields_of item)) by (unfold size; by rewrite length_fmap).
    apply placed_end.
  - by rewrite app_nil_r.
  - unfold edges_of. cbn. rewrite Hdef, Hk, Hh. cbn. by destruct (linked _ _).
Qed.

Lemma bwp_define_enum memory source ds f index item i e s Q : NoDup ids →
  to_define ds f index item i e → contributed_kind item = enum_contribution →
  (∀ f' s', stays s s' → definitions_of (ds ++ [(index, item)]) f' → Q f' s') →
  wp (define_enum memory abi source c (N.of_nat i + 1) (marked i f) item) s Q.
Proof.
  intros Hn [D Hh Hi Hdef Hnone He Hent] Hk HQ. unfold define_enum. cbv zeta. cbn [entries built_values marked].
  replace (N.to_nat (N.of_nat i + 1 - 1)) with i by lia. rewrite Hent. cbn [from_option id].
  apply bwp_bind, bwp_demand. intros [[Hrange Hsize%N.ltb_lt]%andb_true_iff Hcount%N.leb_le]%andb_true_iff.
  apply bwp_bind, bwp_reported. intros e1 He1. apply bwp_ret, HQ; [done|]. fold (values_of item) in *.
  pose proof (values_range item Hrange) as Hvalues.
  eapply (definitions_step ds f _ i index item e _ [] (built_value <$> values_of item)); try done; cbn.
  - unfold completed. rewrite Hk. cbn. eexists _, e1. split_and!; [done|done|]. rewrite !w32_small by (unfold u32_max in *; lia).
    rewrite <-Hvalues. replace (size (values_of item)) with (size (built_value <$> values_of item)) by (unfold size; by rewrite length_fmap).
    apply placed_end.
  - by rewrite app_nil_r.
  - unfold edges_of. cbn. by rewrite Hdef, Hk.
Qed.

Lemma bwp_define_type memory source ds f index item i s Q : NoDup ids → length declared0 = length ids →
  length refs = length (items (members c)) → length bases = length (items (members c)) →
  definitions_of ds f → handles !! N.to_nat index = Some (N.of_nat i + 1) → ids !! i = Some (contributed_identity item) →
  (∀ f' s', stays s s' → definitions_of (ds ++ [(index, item)]) f' → Q f' s') →
  wp (define_type memory abi c handles refs bases source f (index, item)) s Q.
Proof.
  intros Hn Hl Hr Hb D Hh Hi HQ. unfold define_type. destruct (definition item) eqn:Hdef; cbn [negb].
  2: { apply bwp_ret, HQ; [done|]. by apply definitions_skip. }
  cbv zeta. rewrite Hh. cbn [from_option id]. replace (N.to_nat (N.of_nat i + 1 - 1)) with i by lia.
  apply bwp_bind, bwp_demand. intros Hseen. rewrite (df_seen _ _ D _ _ Hi) in Hseen. cbn in Hseen.
  rewrite negb_involutive in Hseen. apply bool_decide_eq_true in Hseen.
  destruct (lookup_lt_is_Some_2 declared0 i) as [e He]; [rewrite Hl; by eapply lookup_lt_Some|].
  destruct (df_entries _ _ D i _ e Hi He) as (e' & Hent & He'). rewrite Hseen in He'. subst e'.
  assert (to_define ds f index item i e) by done.
  destruct (contributed_kind item) eqn:Hk; [by eapply bwp_define_record|by eapply bwp_define_enum].
Qed.

(** ** All of the definitions *)

Lemma bwp_define_sources memory f s Q : NoDup ids → length declared0 = length ids →
  length refs = length (items (members c)) → length bases = length (items (members c)) →
  (∀ index item, (index, item) ∈ declarations_in c →
    ∃ i, handles !! N.to_nat index = Some (N.of_nat i + 1) ∧ ids !! i = Some (contributed_identity item)) →
  definitions_of [] f → (∀ f' s', stays s s' → definitions_of (declarations_in c) f' → Q f' s') →
  wp (folded (define_source memory abi c handles refs bases) f (present_sources c)) s Q.
Proof.
  intros Hn Hl Hr Hb Hh D HQ.
  apply (bwp_folded (λ l f' s', stays s s' ∧ definitions_of (l ≫= source_declarations c) f')); [done| |intros f' s' [? ?]; by apply HQ].
  intros l1 st l2 f1 s1 E [H1 D1]. unfold define_source.
  apply (bwp_folded (λ l f' s', stays s s' ∧ definitions_of ((l1 ≫= source_declarations c) ++ l) f')).
  - split; [done|]. by rewrite app_nil_r.
  - intros m1 [index item] m2 f2 s2 E2 [H2 D2]. destruct (Hh index item) as (i & Hi1 & Hi2).
    { unfold declarations_in. rewrite E, bind_app, bind_cons. apply elem_of_app. right. apply elem_of_app. left.
      unfold source_declarations. rewrite E2. apply elem_of_app. right. by left. }
    eapply (bwp_define_type memory _ _ f2 index item i); try done. intros f' s' H' D'. split; [by eapply stays_trans|]. by rewrite app_assoc.
  - intros f' s' [H' D']. split; [done|]. rewrite bind_app. cbn. by rewrite app_nil_r.
Qed.

End definitions.

End GenerationDefinitions.
