(* ===== verification/GenerationLinks.v ===== *)
(** * The objects and the links of a build

    What [declare_object] and [add_source_links] make of the objects and links of the Sources:
    every object once, and every link between members of objects, one to a target. *)

From S2P Require Import Prelude Probing MappedVector Construction SourceFacts RuntimeLayout Graph GraphLookup GraphPublication HeapTables Contribution GenerationBuilder GenerationRules GenerationTypes GenerationTables GenerationReferences.

Local Open Scope N_scope.

Module GenerationLinks.

Import Probing SourceFacts HeapTables GraphPublication Contribution GenerationBuilder GenerationRules GenerationTypes GenerationTables GenerationReferences.
#[local] Existing Instances Graph.link_record_inhabited Graph.object_endpoint_eq_dec.

(** ** Bases *)

(** The handle of the named base of a type, zero if it is intrinsic. *)
Definition based (ids : list N) (t : contribution_type_ref) (h : N) : Prop :=
  if base_identity t =? 0 then h = 0 else ∃ i, h = N.of_nat i + 1 ∧ ids !! i = Some (base_identity t).

Lemma found_handle slots ids identity : identity_table_of slots ids → find_handle slots identity ≠ 0 →
  ∃ i, find_handle slots identity = N.of_nat i + 1 ∧ ids !! i = Some identity.
Proof.
  intros T H. exists (N.to_nat (find_handle slots identity - 1)). split; [lia|]. by apply (find_handle_spec _ _ _ _ T eq_refl).
Qed.

Section memory.
Context (memory : nat → bool).

Lemma bwp_member_base slots ids m s Q : identity_table_of slots ids →
  (∀ h, based ids (contributed_type m) h → Q h s) → wp (member_base memory slots m) s Q.
Proof.
  intros T HQ. unfold member_base, based in *. cbv zeta. destruct (base_identity (contributed_type m) =? 0); [by apply bwp_ret, HQ|].
  apply bwp_bind, bwp_demand. intros Hh%negb_true_iff%N.eqb_neq. apply bwp_ret, HQ. by eapply found_handle.
Qed.

Lemma bwp_member_bases slots ids ms s Q : identity_table_of slots ids →
  (∀ bases, Forall2 (based ids) (contributed_type <$> ms) bases → Q bases s) →
  wp (folded (λ l m, base ← member_base memory slots m; mret (l ++ [base])) [] ms) s Q.
Proof.
  intros T HQ. apply (bwp_folded (λ l a s', s' = s ∧ Forall2 (based ids) (contributed_type <$> l) a)).
  - done.
  - intros l1 m l2 a s' _ [-> H]. apply bwp_bind. eapply bwp_member_base; [done|]. intros h Hh. apply bwp_ret. split; [done|].
    rewrite fmap_app. apply Forall2_app; [done|]. by repeat constructor.
  - intros a s' [-> H]. by apply HQ.
Qed.

(** ** Objects *)

Record objects_of (ids : list N) (os : list contribution_object) (d : declared_objects) : Prop := ObjectsOf {
  ob_table : identity_table_of (object_slots d) (object_identities d);
  ob_identities : object_identities d = contributed_object <$> os;
  ob_bases : Forall2 (based ids) (contributed_object_type <$> os) (object_bases d) }.

Lemma bwp_declare_object slots ids room os d o s Q : identity_table_of slots ids → objects_of ids os d →
  length (object_slots d) = room → (length os < room)%nat → size os + 1 < two32 →
  (∀ d', objects_of ids (os ++ [o]) d' → length (object_slots d') = room → Q d' s) → wp (declare_object memory slots d o) s Q.
Proof.
  intros T O Hroom Hlt Hw HQ. assert (Hl : length (object_identities d) = length os) by (by rewrite (ob_identities _ _ _ O), length_fmap).
  unfold declare_object. apply bwp_bind, bwp_reported. intros [[oslots h] inserted] Hr. apply bwp_bind, bwp_demand. intros Hins.
  destruct (decide (contributed_object o ∈ object_identities d)) as [Hin|Hout].
  { apply list_elem_of_lookup in Hin as [i Hi]. rewrite (insert_known _ _ i _ _ (ob_table _ _ _ O) Hi) in Hr.
    - injection Hr as _ _ <-. done.
    - unfold size in *. rewrite Hl, w32_small; lia. }
  destruct (insert_unknown _ _ _ (oslots, h, inserted) (ob_table _ _ _ O) Hout) as (oslots' & E & T' & Hlen & _); [unfold size in *; lia|done|lia|].
  injection E as -> -> ->. cbv zeta. apply bwp_bind.
  assert (Hdone : ∀ base s', s' = s → based ids (contributed_object_type o) base →
    wp (mret (DeclaredObjects oslots' (object_identities d ++ [contributed_object o]) (object_bases d ++ [base]))) s' Q).
  { intros base s' -> Hb. apply bwp_ret, HQ; [|cbn; lia]. split; cbn; [done| |].
    - by rewrite fmap_app, (ob_identities _ _ _ O).
    - rewrite fmap_app. apply Forall2_app; [apply O|]. by repeat constructor. }
  unfold based in Hdone. destruct (base_identity (contributed_object_type o) =? 0); [by apply bwp_ret, Hdone|].
  apply bwp_bind, bwp_demand. intros Hh%negb_true_iff%N.eqb_neq. apply bwp_ret, Hdone; [done|]. by eapply found_handle.
Qed.

Lemma bwp_declare_objects slots ids oslots os s Q : identity_table_of slots ids → identity_table_of oslots [] →
  (os ≠ [] → (length os < length oslots)%nat) → size os < u32_max →
  (∀ d, objects_of ids os d → Q d s) → wp (folded (declare_object memory slots) (DeclaredObjects oslots [] []) os) s Q.
Proof.
  intros T To Hroom Hw HQ.
  apply (bwp_folded (λ l d s', s' = s ∧ objects_of ids l d ∧ length (object_slots d) = length oslots)).
  - split_and!; [done| |done]. by split; cbn.
  - intros l1 o l2 d s' E (-> & O & Hl). assert (Hlen : length os = (length l1 + S (length l2))%nat) by (rewrite E, length_app; done).
    eapply (bwp_declare_object slots ids (length oslots) l1); [done|done|done| | |by intros].
    + specialize (Hroom ltac:(by intros ->; destruct l1)). lia.
    + unfold size, u32_max in *. lia.
  - intros d s' (-> & O & _). by apply HQ.
Qed.

(** ** Links *)

(** The endpoint names a member of the record type of an object. *)
Definition valid_endpoint (cs : list canonical_type) (objects : list object_entry) (types : list type_entry) (e : Graph.object_endpoint) : Prop :=
  ∃ o h t, RuntimeLayout.endpoint_object e ≠ 0 ∧ objects !! N.to_nat (RuntimeLayout.endpoint_object e - 1) = Some o ∧
    denotes cs (RuntimeLayout.object_type o) (inr h) [] ∧ types !! N.to_nat (h - 1) = Some t ∧
    Graph.type_kind t = RuntimeLayout.record_kind ∧ Graph.defined t = true ∧
    RuntimeLayout.endpoint_member e < Graph.range_length (Graph.definition t).

Lemma validate_endpoint_spec n r objects types e : references_of n r → validate_endpoint objects (canonical r) types e = true →
  valid_endpoint (canonical r) objects types e.
Proof.
  intros R. unfold validate_endpoint. cbv zeta.
  destruct (N.eqb_spec (RuntimeLayout.endpoint_object e) 0) as [|H0]; cbn [orb]; [done|]. destruct (negb _); [done|].
  destruct (objects !! _) as [o|] eqn:Ho; [|done]. destruct (negb (Graph.object_live o)); cbn [orb]; [done|].
  destruct (N.eqb_spec (RuntimeLayout.object_type o) 0) as [|Ht0]; [done|].
  destruct (canonical r !! _) as [t|] eqn:Ht; [|done]. destruct (bool_decide _) eqn:Hk; cbn [negb orb]; [|done].
  apply bool_decide_eq_true in Hk. destruct (N.eqb_spec (Graph.child_or_handle t) 0) as [|Hc]; [done|].
  destruct (types !! _) as [e'|] eqn:He; [|done]. rewrite !andb_true_iff, bool_decide_eq_true, N.ltb_lt.
  intros (((_ & Hkind) & Hdef) & Hm). exists o, (Graph.child_or_handle t), e'. split_and!; try done.
  apply denotes_named; [done|]. rewrite Ht. replace (N.to_nat (RuntimeLayout.object_type o)) with (S (N.to_nat (RuntimeLayout.object_type o - 1))) in Ht by lia.
  destruct (bt_known _ _ _ _ (rf_named _ _ R) _ _ Ht Hk) as (code & -> & _). done.
Qed.

Definition same_endpoint (oids : list N) (e : source_object_endpoint_fact) (e' : Graph.object_endpoint) : Prop :=
  (∃ i, RuntimeLayout.endpoint_object e' = N.of_nat i + 1 ∧ oids !! i = Some (endpoint_object e)) ∧
  RuntimeLayout.endpoint_member e' = endpoint_member e.

Definition same_link (oids : list N) (l : contribution_link) (r : link_record) : Prop :=
  same_endpoint oids (contributed_source l) (RuntimeLayout.link_source r) ∧
  same_endpoint oids (contributed_target l) (RuntimeLayout.link_target r).

Record links_of (oids : list N) (valid : Graph.object_endpoint → bool) (ls : list contribution_link) (links : list link_record)
    (slots : list handle_slot) : Prop := LinksOf {
  li_same : Forall2 (same_link oids) ls links;
  li_valid : Forall (λ l, valid (RuntimeLayout.link_source l) = true ∧ valid (RuntimeLayout.link_target l) = true) links;
  li_unique : NoDup (link_key <$> links);
  li_size : size links < two32;
  li_table : handle_table link_key Graph.endpoint_hash (length links) slots links }.

Lemma link_inserted oids valid ls links slots l slots' : links_of oids valid ls links slots →
  insert_link_slot (links ++ [l]) slots (RuntimeLayout.link_target l) (w32 (size (links ++ [l]))) = Some slots' →
  size (links ++ [l]) < two32 ∧ link_key l ∉ link_key <$> links ∧ handle_table link_key Graph.endpoint_hash (length (links ++ [l])) slots' (links ++ [l]).
Proof.
  intros L E. pose proof (li_size _ _ _ _ _ L) as Hs. rewrite size_snoc in *. unfold insert_link_slot in E.
  destruct (_ || _) eqn:Hc; [done|]. apply orb_false_iff in Hc as [_ Hw%N.eqb_neq].
  assert (Hlt : size links + 1 < two32).
  { destruct (decide (size links + 1 = two32)) as [Heq|]; [|lia]. rewrite Heq in Hw. by vm_compute in Hw. }
  rewrite w32_small in E by done. change (RuntimeLayout.link_target l) with (link_key l) in E.
  pose proof (handles_more _ _ _ _ _ [l] (li_table _ _ _ _ _ L) ltac:(done)) as T.
  destruct (insert_slot _ _ _ _ _ _) as [[slots1 []]|] eqn:Ei; [|done..]. injection E as ->. change RuntimeLayout.link_target with link_key in Ei.
  assert (Hold : ∀ i v, (i < length links)%nat → (links ++ [l]) !! i = Some v → links !! i = Some v).
  { intros i v Hi Hv. by rewrite lookup_app_l in Hv. }
  assert (Hfresh : fresh_key link_key (length links) (links ++ [l]) (link_key l)).
  { eapply insert_new_only; [exact T|rewrite length_app; lia| |exact Ei]. intros i j v w Hi Hj Hv%Hold Hw'%Hold Hk; [|done..].
    eapply (NoDup_lookup _ _ _ _ (li_unique _ _ _ _ _ L)); rewrite list_lookup_fmap, ?Hv, ?Hw'; cbn; by rewrite ?Hk. }
  split_and!; [done| |].
  - intros (v & Hk & Hv)%list_elem_of_fmap. apply list_elem_of_lookup in Hv as [i Hi]. apply (Hfresh i v); [by eapply lookup_lt_Some| |done].
    by apply lookup_app_l_Some.
  - destruct (insert_next link_key Graph.endpoint_hash (length links) slots (links ++ [l]) l T) as (slots2 & E2 & T2 & _); try done.
    + apply lookup_snoc. by right.
    + by eapply insert_room.
    + assert (H : Some (slots', true) = Some (slots2, true)) by (etrans; [symmetry; exact Ei|exact E2]). injection H as ->.
      by rewrite length_app, Nat.add_1_r.
Qed.

Lemma built_same oslots oids l : identity_table_of oslots oids →
  RuntimeLayout.endpoint_object (RuntimeLayout.link_source (built_link oslots l)) ≠ 0 →
  RuntimeLayout.endpoint_object (RuntimeLayout.link_target (built_link oslots l)) ≠ 0 → same_link oids l (built_link oslots l).
Proof. intros T Hs Ht. split; (split; [by eapply found_handle|done]). Qed.

Lemma bwp_add_link oslots oids valid source ls links slots l s Q : identity_table_of oslots oids → links_of oids valid ls links slots →
  (∀ links' slots' s', stays s s' → links_of oids valid (ls ++ [l]) links' slots' → Q (links', slots') s') →
  wp (add_link memory oslots valid source (links, slots) l) s Q.
Proof.
  intros T L HQ. unfold add_link. cbv zeta. cbn [fst snd]. set (r := built_link oslots l).
  apply bwp_bind, bwp_demand. intros [Hs%N.eqb_neq Ht%N.eqb_neq]%negb_true_iff%orb_false_iff.
  apply bwp_bind, bwp_demand. intros [Hvs Hvt]%andb_true_iff.
  destruct (insert_link_slot _ _ _ _) as [slots'|] eqn:E; [|apply bwp_fail_at]. apply bwp_ret, HQ; [done|].
  destruct (link_inserted _ _ _ _ _ _ _ L E) as (Hw & Hfresh & Ht'). split; try done.
  - apply Forall2_app; [apply L|]. constructor; [by apply built_same|done].
  - apply Forall_app. split; [apply L|]. by apply Forall_singleton.
  - rewrite fmap_app. cbn. apply NoDup_app. split; [apply L|]. split; [|apply NoDup_singleton].
    intros x Hx Hx'%list_elem_of_singleton. by subst.
Qed.

Definition source_links (c : storage) (st : contribution_state) : list contribution_link := snd <$> slice (items (links c)) (state_links st).
Definition links_in (c : storage) : list contribution_link := present_sources c ≫= source_links c.

Lemma bwp_add_links c oslots oids valid slots s Q : identity_table_of oslots oids → links_of oids valid [] [] slots →
  (∀ links' slots' s', stays s s' → links_of oids valid (links_in c) links' slots' → Q (links', slots') s') →
  wp (folded (add_source_links memory c oslots valid) ([], slots) (present_sources c)) s Q.
Proof.
  intros T L HQ.
  apply (bwp_folded (λ l a s', stays s s' ∧ links_of oids valid (l ≫= source_links c) a.1 a.2)); [done| |intros [? ?] s' [? ?]; by apply HQ].
  intros l1 st l2 a s1 _ [H1 L1]. unfold add_source_links. apply bwp_bind, bwp_demand. intros _. fold (source_links c st).
  apply (bwp_folded (λ l a s', stays s s' ∧ links_of oids valid ((l1 ≫= source_links c) ++ l) a.1 a.2)).
  - split; [done|]. by rewrite app_nil_r.
  - intros m1 l m2 [links2 slots2] s2 _ [H2 L2]. eapply bwp_add_link; [done|exact L2|]. intros links' slots' s' H' L'.
    split; [by eapply stays_trans|]. by rewrite app_assoc.
  - intros a' s' [H' L']. split; [done|]. rewrite bind_app. cbn. by rewrite app_nil_r.
Qed.

End memory.

End GenerationLinks.
