(* ===== verification/GenerationStages.v ===== *)
(** * The stages of a build

    What the four stages of [prepare_graph] leave for the contributions [c]: the declared types
    and objects, the type references, the definitions and the links. *)

From S2P Require Import Prelude Probing MappedVector Construction SourceFacts RuntimeLayout Graph GraphLookup GraphPublication HeapTables Contribution GenerationBuilder GenerationRules GenerationTypes GenerationTables GenerationReferences GenerationDefinitions GenerationLinks.

Local Open Scope N_scope.

Module GenerationStages.

Import Probing SourceFacts HeapTables GraphPublication Contribution GenerationBuilder GenerationRules GenerationTypes GenerationTables GenerationReferences GenerationDefinitions GenerationLinks.
#[local] Existing Instances Graph.link_record_inhabited Graph.object_endpoint_eq_dec Graph.handle_slot_inhabited Graph.word_inhabited.

(** ** The contributions stay *)

(** Only the aggregation is worked on. *)
Definition facts_stay (c : storage) (s : building) : Prop := ∃ v, candidate (updating s) = with_construction v c.

Lemma facts_stays c s s' : facts_stay c s → stays s s' → facts_stay c s'.
Proof. intros [v Hv] H. exists v. by rewrite (stays_candidate _ _ H). Qed.

Lemma facts_self s : facts_stay (candidate (updating s)) s.
Proof. exists (construction (candidate (updating s))). by destruct (candidate (updating s)). Qed.

Lemma bwp_set_construction v c s (Q : unit → building → Prop) : facts_stay c s →
  (∀ s', candidate (updating s') = with_construction v c → Q tt s') → wp (set_candidate (with_construction v)) s Q.
Proof. intros [w Hw] H. unfold set_candidate. apply bwp_update, H. cbn. rewrite Hw. by destruct c. Qed.

Section memory.
Context (memory : nat → bool) (grown : N → N → N) (abi : RuntimeLayout.abi_configuration).

Lemma bwp_storing {A} (f : storage → A) s Q : Q (f (candidate (updating s))) s → wp (storing f) s Q.
Proof. done. Qed.

Lemma bwp_initialize n s Q : (∀ slots s', stays s s' → identity_table_of slots [] → (0 < n → 2 * n <= size slots) → Q slots s') →
  wp (initialize_index memory n) s Q.
Proof.
  intros HQ. unfold initialize_index. destruct (checked_index_capacity n) as [capacity|] eqn:E; [|apply bwp_stop].
  assert (Hq : identity_table_of (replicate (N.to_nat capacity) (0, 0)) [] ∧ (0 < n → 2 * n <= size (replicate (N.to_nat capacity) (0, 0)))).
  { destruct (checked_capacity _ _ E) as [[-> ->]|(H1 & H2 & H3)].
    - split; [apply table_fresh; by left|lia].
    - split; [apply table_fresh; by right|]. unfold size. rewrite length_replicate. lia. }
  pose proof (bwp_allocate_for memory capacity s (λ _ s', stays s s') ltac:(done)) as Ha. unfold wp in *.
  destruct (allocate_for memory capacity s) as [[] s'| | |]; [|done..]. destruct Hq as [Hq1 Hq2]. by apply HQ.
Qed.

(** ** Declarations *)

Record all_declared (c : storage) (d : declared_types) (table : list handle_slot) (bases : list N) (o : declared_objects) : Prop := AllDeclared {
  ad_types : types_of (items (types c)) (declarations_in c) d;
  ad_table : declared_identities d ≠ [] → handle_table (V := N) id Graph.identity_hash (length (declared_identities d)) table (declared_identities d);
  ad_bases : Forall2 (based (declared_identities d)) (contributed_type <$> items (members c)) bases;
  ad_objects : objects_of (declared_identities d) (items (objects c)) o }.

Lemma bwp_allocate_all l s (Q : unit → building → Prop) : (∀ s', stays s s' → Q tt s') → wp (each (allocate_for memory) l) s Q.
Proof. apply bwp_allocations. Qed.

(** The table of the identities. *)
Lemma bwp_identities {B} (k : list handle_slot → build B) ids s Q : NoDup ids → size ids < two32 →
  (∀ table s', stays s s' → (ids ≠ [] → handle_table (V := N) id Graph.identity_hash (length ids) table ids) → wp (k table) s' Q) →
  wp (capacity ← reported memory 0 "Generation identity index too large"
        (match checked_index_capacity (size ids) with Some n => inr n | None => inl not_available end);
      table ← identity_table memory capacity ids; k table) s Q.
Proof.
  intros Hd Hw HQ. apply bwp_bind, bwp_reported. intros capacity E. apply bwp_bind.
  destruct (checked_index_capacity (size ids)) as [n|] eqn:En; [|done]. injection E as ->.
  destruct (checked_capacity _ _ En) as [[H0 ->]|(H1 & H2 & H3)].
  - assert (ids = []) as -> by (destruct ids; [done|unfold size in H0; cbn in H0; lia]). by apply HQ.
  - eapply bwp_identity_table; [done|done|done|lia|]. intros slots s' Hs' T. by apply HQ.
Qed.

Lemma size_pos {A} (l : list A) : l ≠ [] → 0 < size l.
Proof. destruct l; [done|]. unfold size. cbn. lia. Qed.

Lemma bwp_declare_all c s Q : facts_stay c s → items (construction (candidate (updating s))) = [] →
  size (items (types c)) < u32_max → size (items (objects c)) < u32_max →
  (∀ d table bases o s', facts_stay c s' → all_declared c d table bases o → Q (d, table, bases, o) s') →
  wp (declare_all memory grown) s Q.
Proof.
  intros Hf Hempty Ht Ho HQ. destruct Hf as [v Hv]. unfold declare_all. apply bwp_bind, bwp_storing. unfold id at 1. rewrite Hv in *. cbn in Hempty.
  cbn [types objects members modifiers enum_values links construction with_construction].
  apply bwp_bind, bwp_explained, bwp_initialize. intros islots s1 H1 T1 R1.
  apply bwp_bind, bwp_explained, bwp_initialize. intros oslots s2 H2 T2 R2.
  apply bwp_bind, bwp_allocate_all. intros s3 H3. apply bwp_bind, bwp_room. intros s4 H4.
  assert (Hc4 : candidate (updating s4) = with_construction v c).
  { unfold stays in *. rewrite H4, H3, H2, H1. done. }
  apply bwp_bind, bwp_update. cbn [updating candidate]. rewrite Hc4.
  apply bwp_bind, bwp_allocate_all. intros s5 H5.
  apply bwp_bind, bwp_storing. apply (f_equal candidate) in H5. cbn in H5. rewrite H5. cbn [construction with_construction].
  unfold id in *. set (c' := with_construction v c) in *. apply bwp_bind.
  assert (T0 : types_of (items (types c')) [] (DeclaredTypes islots [] []
    (items (resized grown v (size (items (types c)) + 1) no_construction)) (replicate (length (items (types c'))) 0) [])).
  { unfold resized. cbn [items]. rewrite Hempty. replace (N.to_nat (size (items (types c)) + 1)) with (S (length (items (types c)))) by (unfold size; lia).
    apply types_none; [done|]. intros Hne. specialize (R1 (size_pos _ Hne)). pose proof (size_pos _ Hne). unfold size in *. cbn in *. lia. }
  eapply bwp_declare_sources; [exact T0|done|]. intros d s6 H6 T.
  pose proof (to_declared _ _ _ T) as Hl. pose proof (types_bounded _ _ _ T) as Hb.
  apply bwp_bind, bwp_update. cbn [updating candidate]. set (s7 := Building _ _ _).
  assert (Hf7 : facts_stay c s7).
  { unfold s7, facts_stay. cbn. rewrite (stays_candidate _ _ H6), H5. eexists. done. }
  replace (size (declared d)) with (size (declared_identities d)) by (unfold size; by rewrite Hl).
  apply bwp_identities; [by eapply types_nodup|unfold size, u32_max in *; cbn in Hb; lia|]. intros table s8 H8 Htable.
  apply bwp_bind. eapply bwp_member_bases; [apply T|]. intros bases Hbases.
  apply bwp_bind. eapply bwp_declare_objects; [apply T|done| |done|].
  { intros Hne. specialize (R2 (size_pos _ Hne)). pose proof (size_pos _ Hne). unfold size in *. cbn in *. lia. }
  intros o Ho'. apply bwp_ret, HQ; [by eapply facts_stays|]. by split.
Qed.

(** ** References *)

Record all_referred (c : storage) (d : declared_types) (bases : list N) (o : declared_objects) (refs : list N)
    (entries : list object_entry) (r : references) : Prop := AllReferred {
  ar_references : references_of (length (declared d)) r;
  ar_members : Forall2 (member_refers (canonical r) (items (modifiers c))) (zip (items (members c)) bases) refs;
  ar_objects : Forall2 (object_refers (canonical r) (items (modifiers c))) (zip (items (objects c)) (object_bases o)) entries }.

(** A capacity worked out for a table that is never empty. *)
Lemma capacity_at_least n capacity : (if n =? 0 then inr 8 else match checked_index_capacity n with Some n => inr n | None => inl not_available end)
    = inr capacity → power_of_two capacity.
Proof.
  destruct (N.eqb_spec n 0); [intros [= <-]; by exists 3|]. destruct (checked_index_capacity n) as [m|] eqn:E; [|done]. intros [= <-].
  by destruct (checked_capacity _ _ E) as [[-> _]|(_ & ? & _)].
Qed.

Lemma bwp_refer_all c d bases o s Q : facts_stay c s →
  (∀ refs entries r s', facts_stay c s' → all_referred c d bases o refs entries r → Q (refs, entries, r) s') →
  wp (refer_all memory d bases o) s Q.
Proof.
  intros Hf HQ. destruct Hf as [v Hv]. unfold refer_all. apply bwp_bind, bwp_storing. unfold id. rewrite Hv. cbn [modifiers members objects with_construction].
  apply bwp_bind, bwp_allocate_for. intros s1 H1. apply bwp_bind, bwp_reported. intros capacity Hcap%capacity_at_least.
  apply bwp_bind, bwp_allocate_for. intros s2 H2. apply bwp_bind.
  eapply bwp_materialize_members; [by apply references_none|]. intros refs r1 s3 H3 R1 _ M1.
  apply bwp_bind. eapply bwp_materialize_objects; [exact R1|]. intros entries r2 s4 H4 R2 P2 O2.
  apply bwp_ret, HQ.
  - exists v. unfold stays in *. rewrite H4, H3, H2, H1. done.
  - split; [done| |done]. eapply Forall2_impl; [exact M1|]. intros ??. by apply refers_more.
Qed.

(** ** Definitions *)

Lemma bwp_define_all c d table bases o refs s Q : facts_stay c s → all_declared c d table bases o → length refs = length (items (members c)) →
  (∀ f s', facts_stay c s' →
    definitions_of abi c (declared_identities d) (declared d) (declaration_handles d) refs bases (declarations_in c) f → Q f s') →
  wp (define_all memory abi d refs bases) s Q.
Proof.
  intros [v Hv] [T _ B _] Hrefs HQ. unfold define_all. apply bwp_bind, bwp_storing. unfold id. rewrite Hv.
  cbn [types members with_construction]. apply bwp_bind, bwp_allocate_all. intros s1 H1.
  apply (bwp_define_sources abi (with_construction v c) (declared_identities d) (declared d) (declaration_handles d) refs bases).
  - by eapply types_nodup.
  - apply T.
  - exact Hrefs.
  - apply Forall2_length in B. by rewrite length_fmap in B.
  - intros index item Hin. by apply (to_handle _ _ _ T).
  - apply definitions_none; apply T.
  - intros f s' H' [D1 D2 D3 D4 D5 D6]. apply HQ; [|split; [exact D1|exact D2|exact D3|exact D4|exact D5|exact D6]]. exists v. unfold stays in *. by rewrite H', H1.
Qed.

(** ** Links *)

Lemma links_none oids valid capacity : power_of_two capacity → links_of oids valid [] [] (replicate (N.to_nat capacity) vacant_handle).
Proof. intros Hp. split; cbn; try done; [by apply NoDup_nil_2|by apply handles_none]. Qed.

Lemma capacity_or_eight n capacity : match checked_index_capacity n with Some n => inr n | None => inl not_available end = inr capacity →
  power_of_two (if capacity =? 0 then 8 else capacity) ∧ n <= (if capacity =? 0 then 8 else capacity).
Proof.
  destruct (checked_index_capacity n) as [m|] eqn:E; [|done]. intros [= <-].
  destruct (checked_capacity _ _ E) as [[-> ->]|(H1 & H2 & H3)]; [split; [by exists 3|cbn; lia]|].
  destruct (N.eqb_spec m 0) as [->|]; [lia|]. split; [done|lia].
Qed.

Lemma bwp_link_all c d table bases o objects r types s Q : facts_stay c s → all_declared c d table bases o → references_of (length (declared d)) r →
  length objects = length (object_identities o) → size (object_identities o) < two32 →
  (∀ otable links ltable s', facts_stay c s' →
    handle_table (V := N) id Graph.identity_hash (length (object_identities o)) otable (object_identities o) →
    links_of (object_identities o) (validate_endpoint objects (canonical r) types) (links_in c) links ltable → Q (otable, links, ltable) s') →
  wp (link_all memory o objects (canonical r) types) s Q.
Proof.
  intros [v Hv] D R Hlen Hw HQ. unfold link_all. apply bwp_bind, bwp_storing. unfold id. rewrite Hv. cbn [links with_construction].
  pose proof (ob_table _ _ _ (ad_objects _ _ _ _ _ D)) as Ot.
  apply bwp_bind, bwp_reported. intros capacity [Hp1 Hc1]%capacity_or_eight. apply bwp_bind.
  eapply bwp_identity_table; [done|apply Ot|done|unfold size in *; lia|]. intros otable s1 H1 Hot.
  apply bwp_bind, bwp_reported. intros lcapacity [Hp2 _]%capacity_or_eight. cbv zeta.
  apply bwp_bind, bwp_allocate_for. intros s2 H2. apply bwp_bind.
  eapply bwp_add_links; [exact Ot|by apply links_none|]. intros links ltable s3 H3 L. apply bwp_ret, HQ; [|done|exact L].
  exists v. unfold stays in *. by rewrite H3, H2, H1.
Qed.

End memory.

End GenerationStages.
