(* ===== verification/GenerationSpec.v ===== *)
(** * What a full build is to make

    The graph that contributions describe ([described]), over the lists of [GraphPublication]:
    the types in the order of their first declarations, each with the entry its declarations add
    up to; the members and values of the definitions; the objects; the links; the type
    references; and the edges from the types of members to the types that hold them.

    Then, from the lists and tables of a prepared generation to the published graph. *)

From S2P Require Import Prelude Probing MappedVector Construction SourceFacts RuntimeLayout Graph GraphLookup GraphPublication HeapTables Contribution GenerationBuilder GenerationRules GenerationTypes GenerationTables GenerationReferences GenerationDefinitions GenerationLinks GenerationStages.

Local Open Scope N_scope.

Module GenerationSpec.

Import Probing SourceFacts HeapTables GraphLookup GraphPublication Contribution GenerationBuilder GenerationRules GenerationTypes GenerationTables GenerationReferences GenerationDefinitions GenerationLinks GenerationStages.
#[local] Existing Instances Graph.link_record_inhabited Graph.object_endpoint_eq_dec Graph.handle_slot_inhabited Graph.word_inhabited Graph.derived_slot_inhabited Graph.canonical_type_inhabited
  Graph.type_entry_inhabited Graph.member_record_inhabited Graph.enum_value_record_inhabited Graph.object_entry_inhabited Graph.dependency_edge_inhabited.

(** ** Handles *)

Definition handle_of (ids : list N) (identity : N) : N :=
  match list_find (λ x, x = identity) ids with Some (i, _) => N.of_nat i + 1 | None => 0 end.

Lemma handle_of_at ids i identity : NoDup ids → ids !! i = Some identity → handle_of ids identity = N.of_nat i + 1.
Proof.
  intros Hn Hi. unfold handle_of. destruct (list_find (λ x, x = identity) ids) as [[j x]|] eqn:E.
  - apply list_find_Some in E as (Hj & -> & _). by rewrite (NoDup_lookup _ _ _ _ Hn Hi Hj).
  - apply list_find_None in E. rewrite Forall_lookup in E. by destruct (E _ _ Hi).
Qed.

Lemma based_handle ids t h : NoDup ids → based ids t h → base_of t h = base_of t (handle_of ids (base_identity t)).
Proof.
  intros Hn. unfold based, base_of. destruct (base_identity t =? 0); [done|]. intros (i & -> & Hi). by rewrite (handle_of_at _ _ _ Hn Hi).
Qed.

(** ** The description *)

Section described.
Context (abi : RuntimeLayout.abi_configuration) (c : storage) (a : abstract_graph).

(** The reference leads to the type: its modifiers around the base, which is declared if it is named. *)
Definition typed (t : contribution_type_ref) (ref : N) : Prop :=
  denotes (a_canonical a) ref (base_of t (handle_of (a_identities a) (base_identity t))) (wrapped (items (modifiers c)) t) ∧
  (base_identity t ≠ 0 → base_identity t ∈ a_identities a).

Definition described_member (m : contribution_member) (r : Graph.member_record) : Prop :=
  Graph.member_name r = contributed_name m ∧ typed (contributed_type m) (Graph.member_type r) ∧
  Graph.access r = access_of (contributed_access m) ∧ Graph.construction r = contributed_construction m.

Definition described_object (o : contribution_object) (e : object_entry) : Prop :=
  typed (contributed_object_type o) (RuntimeLayout.object_type e) ∧ RuntimeLayout.object_flags e = N.lor 0x80000000 (contributed_flags o).

Definition member_items (item : contribution_type) : list contribution_member := snd <$> slice (items (members c)) (definition_items item).

(** The entry [e] completed by the definition [item]. *)
Definition laid_out (e : type_entry) (item : contribution_type) (e' : type_entry) : Prop :=
  match contributed_kind item with
  | record_contribution => ∃ range ms, e' = with_range range e ∧ placed range (a_members a) ms ∧ Forall2 described_member (member_items item) ms
  | enum_contribution => ∃ range e1, enum_entry abi e item (values_of c item) = inr e1 ∧ e' = with_range range e1 ∧
      placed range (a_enum_values a) (built_value <$> values_of c item)
  end.

(** The entry of a type from its declarations, of which at most one is a definition. *)
Definition described_type (identity : N) (e' : type_entry) : Prop :=
  ∃ e, merged (of_identity identity (declarations_in c)) = Some e ∧ Graph.type_live e = true ∧
    Forall (λ d, agrees e d.2) (of_identity identity (declarations_in c)) ∧
    match definitions_among identity (declarations_in c) with
    | [] => e' = e
    | [d] => laid_out e d.2 e'
    | _ => False
    end.

(** The edges from the named types of the members, in the order of the definitions. *)
Definition dependency_of (owner : N) (m : contribution_member) : list (N * N * N) :=
  if base_identity (contributed_type m) =? 0 then []
  else [(handle_of (a_identities a) (base_identity (contributed_type m)), owner, 1)].
Definition dependencies_of (d : declaration) : list (N * N * N) :=
  if definition d.2 then
    match contributed_kind d.2 with
    | record_contribution => member_items d.2 ≫= dependency_of (handle_of (a_identities a) (contributed_identity d.2))
    | enum_contribution => []
    end
  else [].

Record described : Prop := Described {
  g_identities : a_identities a = firsts (identity_of <$> declarations_in c);
  g_types : Forall2 described_type (a_identities a) (a_types a);
  g_object_identities : a_object_identities a = contributed_object <$> items (objects c);
  g_objects : Forall2 described_object (items (objects c)) (a_objects a);
  g_links : Forall2 (same_link (a_object_identities a)) (links_in c) (a_links a);
  g_endpoints : Forall (λ l, valid_endpoint (a_canonical a) (a_objects a) (a_types a) (RuntimeLayout.link_source l) ∧
    valid_endpoint (a_canonical a) (a_objects a) (a_types a) (RuntimeLayout.link_target l)) (a_links a);
  g_canonical : NoDup (a_canonical a);
  g_named : base_table Graph.named_kind named_record (a_named a) (a_canonical a);
  g_versions : a_versions a = replicate (length (a_types a)) 1;
  g_edges : (a_heads a, a_edges a) = linked (replicate (length (a_types a)) 0, []) (declarations_in c ≫= dependencies_of) }.
End described.

(** ** Publication *)

(** The generation holds the lists and the tables of them. *)
Record generation_of (g : Graph.prepared_graph_generation) (a : abstract_graph) : Prop := GenerationOf {
  go_types : items (Graph.new_generation_types g) = a_types a; go_identities : items (Graph.generation_identities g) = a_identities a;
  go_members : items (Graph.generation_members g) = a_members a; go_enum_values : items (Graph.generation_enum_values g) = a_enum_values a;
  go_objects : items (Graph.generation_objects g) = a_objects a;
  go_object_identities : items (Graph.generation_object_identities g) = a_object_identities a;
  go_links : items (Graph.generation_links g) = a_links a; go_canonical : items (Graph.generation_canonical_types g) = a_canonical a;
  go_named : items (Graph.generation_named_refs g) = a_named a; go_versions : items (Graph.generation_versions g) = a_versions a;
  go_heads : items (Graph.generation_heads g) = a_heads a; go_edges : items (Graph.generation_edges g) = a_edges a;
  go_identity_table : handle_table (V := N) id Graph.identity_hash (length (a_identities a)) (items (Graph.generation_identity_index g)) (a_identities a);
  go_object_table : handle_table (V := N) id Graph.identity_hash (length (a_object_identities a))
    (items (Graph.generation_object_identity_index g)) (a_object_identities a);
  go_link_table : handle_table link_key Graph.endpoint_hash (length (a_links a)) (items (Graph.generation_link_index g)) (a_links a);
  go_derived : ∃ count, derived_table (a_canonical a) (items (Graph.generation_derived_index g)) count }.

Lemma swapped_in {A} `{!Inhabited A} (mv : MappedVector.mapped_vector (T := A)) v l : items v = l → holds (Graph.swap_in mv v) l.
Proof. intros <-. apply swap_in_holds. Qed.

Lemma published_derived (mv : MappedVector.mapped_vector) cs slots count : holds mv slots → derived_table cs slots count → derived_found mv cs 0.
Proof.
  intros H T j t Hj Hd. destruct (dt_known _ _ _ T j t Hj Hd) as [p Hp]. destruct (dt_search _ _ _ T) as [Hpow Hc].
  assert (Hsize : MappedVector.size mv = size slots) by (rewrite (h_size _ _ H); done).
  destruct (Hc p _ (heap_used_lt _ _ _ _ Hp) Hp) as (d & Hd1 & Hd2 & Hb). unfold derived_key in Hd1, Hb. cbn in Hd1, Hb.
  rewrite Nat2N.id, Hj in Hd1, Hb. cbn in Hd1, Hb. exists d. rewrite Hsize, N.add_0_l. split_and!; [lia| |].
  - rewrite Hd1, (h_contents _ _ H). unfold used in Hp. apply bind_Some in Hp as (s & Hs & [<- _]%referring_some). done.
  - intros i Hi. destruct (Hb i Hi) as [s Hs]. unfold stops. rewrite (h_contents _ _ H). unfold used in Hs.
    apply bind_Some in Hs as (s' & -> & [-> H0]%referring_some). unfold no_type. by apply N.eqb_neq.
Qed.

Lemma generation_represents g a target : generation_of g a →
  represents (Graph.publish_generation target g) a ∧ heap_graph (Graph.publish_generation target g).
Proof.
  intros G. split; [|split; exact (proj2 (swap_in_holds _ _))].
  assert (Hi := published_table id Graph.identity_hash _ _ _ _ (swapped_in (Graph.identity_index (Graph.indexes_of target)) _ _ eq_refl)
    (swapped_in (Graph.identities (Graph.arrays_of target)) _ _ (go_identities _ _ G)) (go_identity_table _ _ G)).
  assert (Ho := published_table id Graph.identity_hash _ _ _ _ (swapped_in (Graph.object_identity_index (Graph.indexes_of target)) _ _ eq_refl)
    (swapped_in (Graph.object_identities (Graph.arrays_of target)) _ _ (go_object_identities _ _ G)) (go_object_table _ _ G)).
  assert (Hl := published_table link_key Graph.endpoint_hash _ _ _ _ (swapped_in (Graph.link_index (Graph.indexes_of target)) _ _ eq_refl)
    (swapped_in (Graph.link_records (Graph.arrays_of target)) _ _ (go_links _ _ G)) (go_link_table _ _ G)).
  destruct (go_derived _ _ G) as [count T].
  assert (Hd := published_derived _ _ _ _ (swapped_in (Graph.derived_index (Graph.indexes_of target)) _ _ eq_refl) T).
  split; try exact Hi; try exact Ho; try exact Hl; try exact Hd; try (apply swapped_in, G).
  apply (h_wf _ _ (swapped_in (Graph.derived_index (Graph.indexes_of target)) _ _ eq_refl)).
Qed.

End GenerationSpec.
