(* ===== verification/GenerationGraph.v ===== *)
(** * The graph of a build

    From what the stages leave to the description: [build_graph] ends, and what it prepares, if
    it does not fail, is a generation of a graph that its contributions describe. *)

From S2P Require Import Prelude Probing MappedVector Construction SourceFacts RuntimeLayout Graph GraphLookup GraphPublication HeapTables Contribution GenerationBuilder GenerationRules GenerationTypes GenerationTables GenerationReferences GenerationDefinitions GenerationLinks GenerationStages GenerationSpec.

Local Open Scope N_scope.

Module GenerationGraph.

Import Probing SourceFacts HeapTables GraphPublication Contribution GenerationBuilder GenerationRules GenerationTypes GenerationTables GenerationReferences GenerationDefinitions GenerationLinks GenerationStages GenerationSpec.

(** ** Slices and lists side by side *)

Lemma slice_values {A} (l : list A) r : snd <$> slice l r = take (N.to_nat (count r)) (drop (N.to_nat (begin r)) l).
Proof.
  unfold slice. rewrite snd_zip; [done|]. rewrite length_take, length_fmap, length_seq. lia.
Qed.

Lemma slice_related {A B} (R : A → B → Prop) l k r : Forall2 R l k → Forall2 R (snd <$> slice l r) (snd <$> slice k r).
Proof. intros H. rewrite !slice_values. by apply Forall2_take, Forall2_drop. Qed.

Lemma bind_related {A B C} (R : A → B → Prop) (f : A → list C) (g : B → list C) l k :
  Forall2 R l k → (∀ x y, R x y → f x = g y) → l ≫= f = k ≫= g.
Proof. intros H Hf. induction H as [|x y l k Hxy H IH]; [done|]. cbn. by rewrite (Hf _ _ Hxy), IH. Qed.

Lemma bind_ext {A B} (f g : A → list B) l : (∀ x, x ∈ l → f x = g x) → l ≫= f = l ≫= g.
Proof.
  induction l as [|x l IH]; intros H; [done|]. cbn. rewrite (H x) by (by left). f_equal. apply IH. intros y Hy. apply H. by right.
Qed.

(** ** The lists *)

Section lists.
Context (abi : RuntimeLayout.abi_configuration) (c : storage).
Context (d : declared_types) (table : list handle_slot) (bases : list N) (o : declared_objects) (refs : list N)
  (objs : list object_entry) (r : references) (f : definitions) (otable : list handle_slot) (ls : list link_record) (ltable : list handle_slot).
Context (Hd : all_declared c d table bases o) (Hr : all_referred c d bases o refs objs r).
Context (Hf : definitions_of abi c (declared_identities d) (declared d) (declaration_handles d) refs bases (declarations_in c) f).
Context (Hl : links_of (object_identities o) (validate_endpoint objs (canonical r) (entries f)) (links_in c) ls ltable).

Definition lists : abstract_graph :=
  AbstractGraph (entries f) (declared_identities d) (built_members f) (built_values f) objs (object_identities o) ls (canonical r)
    (named_refs r) (replicate (length (entries f)) 1) (dependency_heads f) (dependency_edges f).

Lemma unique_identities : NoDup (declared_identities d).
Proof. eapply types_nodup, Hd. Qed.

Lemma refers_typed t h ref : based (declared_identities d) t h → refers (canonical r) (items (modifiers c)) t h ref → typed c lists t ref.
Proof.
  intros Hb Hc. split; cbn.
  - rewrite <-(based_handle _ _ _ unique_identities Hb). exact Hc.
  - intros H0. unfold based in Hb. destruct (N.eqb_spec (base_identity t) 0); [done|]. destruct Hb as (i & _ & Hi). by eapply list_elem_of_lookup_2.
Qed.

(** The members of the contributions, with what was worked out for them. *)
Lemma fields_described : Forall2 (λ m fd, described_member c lists m (built_member fd) ∧ fd.1.1 = m ∧ based (declared_identities d) (contributed_type m) fd.2)
  (items (members c)) (zip (zip (items (members c)) refs) bases).
Proof.
  pose proof (ad_bases _ _ _ _ _ Hd) as Hb. pose proof (ar_members _ _ _ _ _ _ _ Hr) as Hm.
  pose proof (Forall2_length _ _ _ Hb) as Lb. rewrite length_fmap in Lb.
  pose proof (Forall2_length _ _ _ Hm) as Lm. rewrite length_zip_with in Lm.
  apply Forall2_same_length_lookup. split; [rewrite !length_zip_with; lia|].
  intros i m fd Hi Hfd. apply lookup_zip_with_Some in Hfd as ([m' ref] & base & -> & Hmr & Hbase).
  apply lookup_zip_with_Some in Hmr as (m'' & ref' & [= -> ->] & Hm' & Href). rewrite Hi in Hm'. injection Hm' as ->.
  assert (B : based (declared_identities d) (contributed_type m'') base).
  { eapply (Forall2_lookup_lr _ _ _ i); [exact Hb| |done]. by rewrite list_lookup_fmap, Hi. }
  assert (R : member_refers (canonical r) (items (modifiers c)) (m'', base) ref').
  { eapply (Forall2_lookup_lr _ _ _ i); [exact Hm| |done]. apply lookup_zip_with_Some. by exists m'', base. }
  split_and!; cbn; [|done|done]. split_and!; [done| |done|done]. by eapply refers_typed.
Qed.

Lemma item_fields item : Forall2 (λ m fd, described_member c lists m (built_member fd) ∧ fd.1.1 = m ∧ based (declared_identities d) (contributed_type m) fd.2)
  (member_items c item) (fields_of c refs bases item).
Proof. apply slice_related, fields_described. Qed.

(** ** Types *)

Lemma completed_laid_out e item e' : completed abi c refs bases f e item e' → laid_out abi c lists e item e'.
Proof.
  unfold completed, laid_out. destruct (contributed_kind item); [|done]. intros (range & H1 & H2).
  exists range, (built_member <$> fields_of c refs bases item). split_and!; [done|done|]. apply Forall2_fmap_r.
  eapply Forall2_impl; [apply item_fields|]. by intros ?? [? _].
Qed.

Lemma types_described : Forall2 (described_type abi c lists) (declared_identities d) (entries f).
Proof.
  pose proof (ad_types _ _ _ _ _ Hd) as T. apply Forall2_same_length_lookup. split; [by rewrite (df_length _ _ _ _ _ _ _ _ _ Hf)|].
  intros i identity e' Hi He'. destruct (lookup_lt_is_Some_2 (declared d) i) as [e He].
  { rewrite (to_declared _ _ _ T). by eapply lookup_lt_Some. }
  destruct (to_agrees _ _ _ T i identity e Hi He) as [Hlive Hagree].
  destruct (df_entries _ _ _ _ _ _ _ _ _ Hf i identity e Hi He) as (e1 & H1 & H2). rewrite He' in H1. injection H1 as <-.
  exists e. split_and!; [by rewrite <-(to_entry _ _ _ T i identity Hi)|done|done|].
  destruct (definitions_among identity (declarations_in c)) as [|x [|]]; [done|by apply completed_laid_out|done].
Qed.

(** ** Edges *)

Lemma edges_dependencies : declarations_in c ≫= edges_of c (declaration_handles d) refs bases = declarations_in c ≫= dependencies_of c lists.
Proof.
  pose proof (ad_types _ _ _ _ _ Hd) as T. apply bind_ext. intros [index item] Hin. unfold edges_of, dependencies_of. cbn [fst snd].
  destruct (definition item); [|done]. destruct (contributed_kind item); [|done].
  destruct (to_handle _ _ _ T index item Hin) as (i & Hh & Hi). rewrite Hh. cbn [from_option id a_identities lists].
  rewrite (handle_of_at _ _ _ unique_identities Hi). unfold edges_to. symmetry.
  eapply bind_related; [apply item_fields|]. intros m fd (_ & Hm & Hb). unfold dependency_of. rewrite Hm. unfold based in Hb. cbn [a_identities lists].
  destruct (base_identity (contributed_type m) =? 0); [done|]. destruct Hb as (j & -> & Hj). by rewrite (handle_of_at _ _ _ unique_identities Hj).
Qed.

(** ** Objects and links *)

Lemma objects_described : Forall2 (described_object c lists) (items (objects c)) objs.
Proof.
  pose proof (ob_bases _ _ _ (ad_objects _ _ _ _ _ Hd)) as Hb. pose proof (ar_objects _ _ _ _ _ _ _ Hr) as Ho.
  pose proof (Forall2_length _ _ _ Hb) as Lb. rewrite length_fmap in Lb.
  pose proof (Forall2_length _ _ _ Ho) as Lo. rewrite length_zip_with in Lo.
  apply Forall2_same_length_lookup. split; [lia|]. intros i x e Hi He.
  destruct (lookup_lt_is_Some_2 (object_bases o) i) as [base Hbase]; [apply lookup_lt_Some in Hi; lia|].
  assert (B : based (declared_identities d) (contributed_object_type x) base).
  { eapply (Forall2_lookup_lr _ _ _ i); [exact Hb| |done]. by rewrite list_lookup_fmap, Hi. }
  assert (R : object_refers (canonical r) (items (modifiers c)) (x, base) e).
  { eapply (Forall2_lookup_lr _ _ _ i); [exact Ho| |done]. apply lookup_zip_with_Some. by exists x, base. }
  destruct R as [R1 R2]. split; [by eapply refers_typed|done].
Qed.

Lemma endpoints_valid : Forall (λ l, valid_endpoint (canonical r) objs (entries f) (RuntimeLayout.link_source l) ∧
  valid_endpoint (canonical r) objs (entries f) (RuntimeLayout.link_target l)) ls.
Proof.
  eapply Forall_impl; [apply Hl|]. intros l [H1 H2].
  split; (eapply validate_endpoint_spec; [exact (ar_references _ _ _ _ _ _ _ Hr)|done]).
Qed.

(** ** All *)

Lemma lists_described : described abi c lists.
Proof.
  split; cbn.
  - apply Hd.
  - exact types_described.
  - apply Hd.
  - exact objects_described.
  - apply Hl.
  - exact endpoints_valid.
  - apply Hr.
  - apply Hr.
  - done.
  - rewrite (df_edges _ _ _ _ _ _ _ _ _ Hf), edges_dependencies. by rewrite (df_length _ _ _ _ _ _ _ _ _ Hf).
Qed.

Lemma lists_coherent : coherent lists.
Proof.
  pose proof (ar_references _ _ _ _ _ _ _ Hr) as R. pose proof (df_length _ _ _ _ _ _ _ _ _ Hf) as Hn.
  pose proof (to_declared _ _ _ (ad_types _ _ _ _ _ Hd)) as Hn'.
  split; cbn.
  - done.
  - rewrite (ob_identities _ _ _ (ad_objects _ _ _ _ _ Hd)), length_fmap. by apply (Forall2_length _ _ _ objects_described).
  - rewrite (rf_names _ _ R). lia.
  - apply length_replicate.
  - rewrite (df_heads _ _ _ _ _ _ _ _ _ Hf). lia.
  - pose proof (rf_reserved _ _ R) as H0. destruct (canonical r) as [|x xs]; [done|]. injection H0 as ->. by eexists _, xs.
  - exact unique_identities.
  - apply (it_nodup _ _ (ob_table _ _ _ (ad_objects _ _ _ _ _ Hd))).
  - apply Hl.
Qed.
End lists.

(** ** The whole build *)

Section memory.
Context (memory : nat → bool) (grown : N → N → N) (abi : RuntimeLayout.abi_configuration).

Lemma bwp_check_each {A} (check : A → build unit) l s (Q : unit → building → Prop) :
  (∀ x s Q, (∀ s', stays s s' → Q tt s') → wp (check x) s Q) → (∀ s', stays s s' → Q tt s') → wp (each check l) s Q.
Proof.
  intros Hc HQ. apply (bwp_each (λ _ s', stays s s')); [done| |done]. intros l1 x l2 s1 _ H1. apply Hc. intros s2 H2. by eapply stays_trans.
Qed.

Lemma bwp_check_graph f ids oids objects links cs s (Q : unit → building → Prop) : (∀ s', stays s s' → Q tt s') →
  wp (check_graph memory f ids oids objects links cs) s Q.
Proof.
  intros HQ. unfold check_graph. apply bwp_bind, bwp_demand. intros _.
  apply bwp_bind, bwp_check_each.
  { intros i s1 Q1 H1. unfold check_type. apply bwp_bind, bwp_demand. intros _. cbv zeta. apply bwp_if; intros _; [by apply bwp_ret, H1|].
    apply bwp_demand. intros _. by apply H1. }
  intros s1 H1. apply bwp_bind, bwp_demand. intros _.
  apply bwp_bind, bwp_check_each.
  { intros i s2 Q2 H2. unfold check_object. apply bwp_demand. intros _. by apply H2. }
  intros s2 H2. apply bwp_bind, bwp_check_each.
  { intros i s3 Q3 H3. apply bwp_demand. intros _. by apply H3. }
  intros s3 H3. apply bwp_check_each.
  { intros t s4 Q4 H4. unfold check_canonical. destruct (Graph.canonical_kind t); [by apply bwp_ret, H4|apply bwp_demand; intros _; by apply H4..]. }
  intros s4 H4. apply HQ. unfold stays in *. congruence.
Qed.

Lemma refs_length c d table bases o refs objs r : all_declared c d table bases o → all_referred c d bases o refs objs r →
  length refs = length (items (members c)).
Proof.
  intros D R. pose proof (Forall2_length _ _ _ (ar_members _ _ _ _ _ _ _ R)) as L. rewrite length_zip_with in L.
  pose proof (Forall2_length _ _ _ (ad_bases _ _ _ _ _ D)) as L'. rewrite length_fmap in L'. lia.
Qed.

Lemma objects_length c d table bases o refs objs r : all_declared c d table bases o → all_referred c d bases o refs objs r →
  length objs = length (object_identities o).
Proof.
  intros D R. pose proof (Forall2_length _ _ _ (ar_objects _ _ _ _ _ _ _ R)) as L. rewrite length_zip_with in L.
  pose proof (Forall2_length _ _ _ (ob_bases _ _ _ (ad_objects _ _ _ _ _ D))) as L'. rewrite length_fmap in L'.
  rewrite (ob_identities _ _ _ (ad_objects _ _ _ _ _ D)), length_fmap. lia.
Qed.

(** The graph, if a type is declared. *)
Definition built_graph (c : storage) (g : Graph.prepared_graph_generation) : Prop :=
  ∃ a, described abi c a ∧ coherent a ∧ (a_identities a ≠ [] → generation_of g a).

Lemma bwp_build_graph c s Q : facts_stay c s → items (construction (candidate (updating s))) = [] →
  size (items (types c)) < u32_max → size (items (objects c)) < u32_max →
  (∀ g s', facts_stay c s' → built_graph c g → Q g s') → wp (build_graph memory grown abi) s Q.
Proof.
  intros Hf Hempty Ht Ho HQ. unfold build_graph. apply bwp_bind. eapply bwp_declare_all; [done..|]. intros d table bases o s1 F1 D.
  apply bwp_bind. eapply bwp_refer_all; [exact F1|]. intros refs objs r s2 F2 R.
  apply bwp_bind, bwp_storing. unfold id. apply bwp_bind. eapply bwp_define_all; [exact F2|exact D|by eapply refs_length|].
  intros f s3 F3 E. pose proof (objects_length _ _ _ _ _ _ _ _ D R) as Hobjs. apply bwp_bind.
  eapply bwp_link_all; [exact F3|exact D|apply R|done| |].
  { rewrite (ob_identities _ _ _ (ad_objects _ _ _ _ _ D)). unfold size, u32_max in *. rewrite length_fmap. lia. }
  intros otable links ltable s4 F4 Hot L. cbv zeta.
  apply bwp_bind, bwp_headroom. intros v1 s5 V1 H5. apply bwp_bind, bwp_headroom. intros v2 s6 V2 H6.
  apply bwp_bind, bwp_headroom. intros v3 s7 V3 H7. apply bwp_bind, bwp_headroom. intros v4 s8 V4 H8.
  apply bwp_bind, bwp_headroom. intros v5 s9 V5 H9. apply bwp_bind, bwp_headroom. intros v6 s10 V6 H10.
  apply bwp_bind, bwp_headroom. intros v7 s11 V7 H11. apply bwp_bind, bwp_headroom. intros v8 s12 V8 H12.
  apply bwp_bind, bwp_headroom. intros v9 s13 V9 H13. apply bwp_bind, bwp_headroom. intros v10 s14 V10 H14.
  apply bwp_bind, bwp_headroom. intros v11 s15 V11 H15. apply bwp_bind, bwp_headroom. intros v12 s16 V12 H16.
  apply bwp_bind, bwp_check_graph. intros s17 H17. apply bwp_ret, HQ.
  { apply (facts_stays c s4); [done|]. unfold stays in *. congruence. }
  exists (lists d o objs r f links). split_and!; [by eapply lists_described|by eapply lists_coherent|].
  intros Hne. split; cbn; try done.
  - by apply D.
  - apply L.
  - eexists. apply R.
Qed.
End memory.

End GenerationGraph.
