(* ===== verification/ContributionCapture.v ===== *)
(** * What a rebuild captures

    The contributions that [reserve_rebuild] and [replace] leave for the packets of the Sources:
    every arena grows at its end, every range lies in its arena, and through the ranges the
    contributions are the facts of the packets ([captured]). *)

From S2P Require Import Prelude Probing MappedVector Construction SourceFacts SourceFactsTheorems RuntimeLayout Graph HeapTables Contribution GenerationBuilder GenerationRules.

Local Open Scope N_scope.

Module ContributionCapture.

Import SourceFacts SourceFactsTheorems HeapTables Contribution GenerationBuilder GenerationRules.

(** ** Slices of an arena *)

Definition arena_slice {A} (l : list A) (r : source_fact_range) (vs : list A) : Prop :=
  range_in l r = true ∧ snd <$> slice l r = vs.

Lemma slice_section {A} (l : list A) r : snd <$> slice l r = section r l.
Proof. unfold slice, section. rewrite snd_zip; [done|]. rewrite length_take, length_fmap, length_seq. lia. Qed.

Lemma arena_slice_app {A} (l more : list A) r vs : arena_slice l r vs → arena_slice (l ++ more) r vs.
Proof.
  unfold arena_slice, range_in, size. rewrite !andb_true_iff, !N.leb_le, length_app, !slice_section. intros [[H1 H2] <-].
  split; [lia|]. unfold section. rewrite drop_app_le, take_app_le; [done|rewrite length_drop; lia|lia].
Qed.

Lemma arena_slice_end {A} (l more : list A) r : valid_range r (size more) = true →
  arena_slice (l ++ more) (FactRange (size l + begin r) (count r)) (section r more).
Proof.
  unfold valid_range, arena_slice, range_in, size. rewrite !andb_true_iff, !N.leb_le, length_app, slice_section. cbn. intros [H1 H2].
  split; [lia|]. unfold section. cbn. rewrite drop_app_ge by lia. f_equal. f_equal. lia.
Qed.

Lemma section_fmap {A B} (g : A → B) (l : list A) r : section r (g <$> l) = g <$> section r l.
Proof. unfold section. by rewrite fmap_take, fmap_drop. Qed.

Lemma arena_slice_sub {A} (l : list A) r q vs : arena_slice l r vs → valid_range q (size vs) = true →
  arena_slice l (FactRange (begin r + begin q) (count q)) (section q vs).
Proof.
  unfold arena_slice, range_in, valid_range, size. rewrite !andb_true_iff, !N.leb_le, !slice_section. intros [[H1 H2] <-] [H3 H4].
  unfold section in *. rewrite length_take, length_drop in H3, H4. cbn. split; [lia|].
  rewrite skipn_firstn_comm, take_take, drop_drop. f_equal; [lia|]. f_equal. lia.
Qed.

Lemma section_all {A} (l : list A) : section (FactRange 0 (size l)) l = l.
Proof. unfold section, size. cbn. rewrite drop_0. apply take_ge. lia. Qed.

(** ** What is captured *)

(** The records and enumerations of a packet, in the order of their declarations. *)
Definition declared_type (f : source_facts) (d : source_declaration_ref) : option (source_record_fact + source_enum_fact) :=
  if declaration_code d =? declares_record then inl <$> records f !! N.to_nat (declaration_index d)
  else if declaration_code d =? declares_enum then inr <$> enums f !! N.to_nat (declaration_index d)
  else None.
Definition type_facts (f : source_facts) : list (source_record_fact + source_enum_fact) :=
  match declarations f with
  | [] => (inl <$> records f) ++ (inr <$> enums f)
  | ds => omap (declared_type f) ds
  end.

(** What the appends make, behind the [b] modifiers, members or values that are there. *)
Definition capture_ref (b : N) (r : source_type_ref) : contribution_type_ref :=
  ContributionTypeRef (ref_identity r) (FactRange (b + begin (ref_modifiers r)) (count (ref_modifiers r))) (ref_intrinsic r).
Definition capture_member (b : N) (m : source_member_fact) : contribution_member :=
  ContributionMember (capture_ref b (member_type m)) (member_name m) (member_visibility m) (member_construction m).
Definition capture_object (b : N) (o : source_object_fact) : contribution_object :=
  ContributionObject (object_identity o) (capture_ref b (object_type_ref o)) (object_construction_flags o).
Definition capture_type (mb vb : N) (x : source_record_fact + source_enum_fact) : contribution_type :=
  match x with
  | inl r => ContributionType (record_identity r) (FactRange (mb + begin (record_members r)) (count (record_members r)))
      intrinsic_none (record_code r) record_contribution (if record_declared r =? kind_definition then 1 else 0)
  | inr e => ContributionType (enum_identity e) (FactRange (vb + begin (enum_enumerators e)) (count (enum_enumerators e)))
      (enum_explicit_underlying e) 0 enum_contribution
      (N.lor (if enum_declared e =? kind_definition then 1 else 0) (if SourceFacts.enum_scoped e then 2 else 0))
  end.
Definition captured_value (v : source_enum_value_fact) : contribution_enum_value :=
  ContributionEnumValue (enum_value_name v) (enum_value_intrinsic v) (enum_value_bits v).
Definition captured_link (l : source_link_fact) : contribution_link := ContributionLink (link_source l) (link_target l).

Section captured.
Context (c : storage) (f : source_facts).

Definition captured_ref (r : source_type_ref) (t : contribution_type_ref) : Prop :=
  base_identity t = ref_identity r ∧ base_intrinsic t = ref_intrinsic r ∧
  arena_slice (items (modifiers c)) (type_modifiers t) (section (ref_modifiers r) (SourceFacts.modifiers f)).

Definition captured_member (m : source_member_fact) (x : contribution_member) : Prop :=
  captured_ref (member_type m) (contributed_type x) ∧ contributed_name x = member_name m ∧
  contributed_access x = member_visibility m ∧ contributed_construction x = member_construction m.

Definition captured_type (x : source_record_fact + source_enum_fact) (item : contribution_type) : Prop :=
  match x with
  | inl r => contributed_identity item = record_identity r ∧ contributed_kind item = record_contribution ∧
      contributed_record_kind item = record_code r ∧ definition item = (record_declared r =? kind_definition) ∧
      ∃ ms, arena_slice (items (members c)) (definition_items item) ms ∧ Forall2 captured_member (section (record_members r) (SourceFacts.members f)) ms
  | inr e => contributed_identity item = enum_identity e ∧ contributed_kind item = enum_contribution ∧
      explicit_underlying item = enum_explicit_underlying e ∧ definition item = (enum_declared e =? kind_definition) ∧
      enum_scoped item = SourceFacts.enum_scoped e ∧
      arena_slice (items (enum_values c)) (definition_items item) (captured_value <$> section (enum_enumerators e) (SourceFacts.enum_values f))
  end.

Definition captured_object (o : source_object_fact) (x : contribution_object) : Prop :=
  contributed_object x = object_identity o ∧ captured_ref (object_type_ref o) (contributed_object_type x) ∧
  contributed_flags x = object_construction_flags o.

(** The ranges of the state hold what the packet contributes, with positions in the arenas. *)
Record kept (st : contribution_state) : Prop := Kept {
  k_types : arena_slice (items (types c)) (state_types st) (capture_type (begin (state_members st)) (begin (state_enum_values st)) <$> type_facts f);
  k_members : arena_slice (items (members c)) (state_members st) (capture_member (begin (state_modifiers st)) <$> SourceFacts.members f);
  k_modifiers : arena_slice (items (modifiers c)) (state_modifiers st) (SourceFacts.modifiers f);
  k_values : arena_slice (items (enum_values c)) (state_enum_values st) (captured_value <$> SourceFacts.enum_values f);
  k_objects : arena_slice (items (objects c)) (state_objects st) (capture_object (begin (state_modifiers st)) <$> SourceFacts.objects f);
  k_links : arena_slice (items (links c)) (state_links st) (captured_link <$> SourceFacts.links f) }.

(** The state of the Source leads to its facts. *)
Record captured_source (st : contribution_state) : Prop := CapturedSource {
  cs_source : state_source st = source f; cs_kept : kept st;
  cs_types : ∃ ts, arena_slice (items (types c)) (state_types st) ts ∧ Forall2 captured_type (type_facts f) ts }.
End captured.

Record captured (fs : list source_facts) (c : storage) : Prop := Captured {
  ca_once : NoDup (source <$> fs);
  ca_source f : f ∈ fs → ∃ st, items (sources c) !! N.to_nat (source f) = Some st ∧ captured_source c f st;
  ca_vacant i st : items (sources c) !! i = Some st → state_source st = 0 ∨ (state_source st = N.of_nat i ∧ N.of_nat i ∈ source <$> fs);
  ca_objects : Forall2 (λ fo x, captured_object c fo.1 fo.2 x) (fs ≫= λ f, pair f <$> SourceFacts.objects f) (items (objects c)) }.

(** The states of the cache lead to the packets, whatever else the arenas hold. *)
Record retained (fs : list source_facts) (c : storage) : Prop := Retained {
  re_once : NoDup (source <$> fs);
  re_source f : f ∈ fs → ∃ st, items (sources c) !! N.to_nat (source f) = Some st ∧ captured_source c f st;
  re_vacant i st : items (sources c) !! i = Some st → state_source st = 0 ∨ (state_source st = N.of_nat i ∧ N.of_nat i ∈ source <$> fs) }.

Lemma captured_retained fs c : captured fs c → retained fs c.
Proof. by intros []. Qed.

(** ** Growth *)

(** Every arena is longer by what it is given. *)
Record extended (c c' : storage) (ts : list contribution_type) (ms : list contribution_member) (md : list source_type_modifier)
    (vs : list contribution_enum_value) (os : list contribution_object) (ls : list contribution_link) : Prop := Extended {
  ex_types : items (types c') = items (types c) ++ ts; ex_members : items (members c') = items (members c) ++ ms;
  ex_modifiers : items (modifiers c') = items (modifiers c) ++ md; ex_values : items (enum_values c') = items (enum_values c) ++ vs;
  ex_objects : items (objects c') = items (objects c) ++ os; ex_links : items (links c') = items (links c) ++ ls }.

Lemma extended_none c : extended c c [] [] [] [] [] [].
Proof. by split; rewrite ?app_nil_r. Qed.

Lemma extended_trans c c1 c2 ts ms md vs os ls ts' ms' md' vs' os' ls' : extended c c1 ts ms md vs os ls →
  extended c1 c2 ts' ms' md' vs' os' ls' → extended c c2 (ts ++ ts') (ms ++ ms') (md ++ md') (vs ++ vs') (os ++ os') (ls ++ ls').
Proof. intros [A1 A2 A3 A4 A5 A6] [B1 B2 B3 B4 B5 B6]. split; rewrite ?app_assoc; congruence. Qed.

Section growth.
Context (c c' : storage) (ts : list contribution_type) (ms : list contribution_member) (md : list source_type_modifier)
  (vs : list contribution_enum_value) (os : list contribution_object) (ls : list contribution_link).
Context (H : extended c c' ts ms md vs os ls) (f : source_facts).

Lemma captured_ref_more r t : captured_ref c f r t → captured_ref c' f r t.
Proof. intros (H1 & H2 & H3). split_and!; [done..|]. rewrite (ex_modifiers _ _ _ _ _ _ _ _ H). by apply arena_slice_app. Qed.

Lemma captured_member_more m x : captured_member c f m x → captured_member c' f m x.
Proof. intros (H1 & H2). split; [by apply captured_ref_more|done]. Qed.

Lemma captured_type_more x item : captured_type c f x item → captured_type c' f x item.
Proof.
  unfold captured_type. destruct x as [r|e].
  - intros (H1 & H2 & H3 & H4 & xs & H5 & H6). split_and!; [done..|]. exists xs. rewrite (ex_members _ _ _ _ _ _ _ _ H).
    split; [by apply arena_slice_app|]. eapply Forall2_impl; [done|]. apply captured_member_more.
  - intros (H1 & H2 & H3 & H4 & H5 & H6). split_and!; [done..|]. rewrite (ex_values _ _ _ _ _ _ _ _ H). by apply arena_slice_app.
Qed.

Lemma captured_object_more o x : captured_object c f o x → captured_object c' f o x.
Proof. intros (H1 & H2 & H3). split_and!; [done|by apply captured_ref_more|done]. Qed.

Lemma kept_more st : kept c f st → kept c' f st.
Proof. destruct H as [E1 E2 E3 E4 E5 E6]. intros []. split; rewrite ?E1, ?E2, ?E3, ?E4, ?E5, ?E6; by apply arena_slice_app. Qed.

Lemma captured_source_more st : captured_source c f st → captured_source c' f st.
Proof.
  intros [H1 H2 (xs & H3 & H4)]. split; [done|by apply kept_more|].
  exists xs. rewrite (ex_types _ _ _ _ _ _ _ _ H). split; [by apply arena_slice_app|]. eapply Forall2_impl; [done|]. apply captured_type_more.
Qed.
End growth.

(** ** The records of one packet *)

(** The arenas behind those of [c]. *)
Definition packet_extends (c c' : storage) (f : source_facts) : Prop :=
  extended c c' (capture_type (size (items (members c))) (size (items (enum_values c))) <$> type_facts f)
    (capture_member (size (items (modifiers c))) <$> SourceFacts.members f) (SourceFacts.modifiers f)
    (captured_value <$> SourceFacts.enum_values f) (capture_object (size (items (modifiers c))) <$> SourceFacts.objects f)
    (captured_link <$> SourceFacts.links f).

Lemma type_facts_of f x : x ∈ type_facts f → match x with inl r => r ∈ records f | inr e => e ∈ enums f end.
Proof.
  unfold type_facts. destruct (declarations f) as [|d ds].
  - intros [(r & -> & Hr)%list_elem_of_fmap|(e & -> & He)%list_elem_of_fmap]%elem_of_app; done.
  - intros (d' & _ & Hd)%list_elem_of_omap. unfold declared_type in Hd. case_match.
    + apply fmap_Some in Hd as (r & Hr & ->). by eapply list_elem_of_lookup_2.
    + case_match; [|done]. apply fmap_Some in Hd as (e & He & ->). by eapply list_elem_of_lookup_2.
Qed.

(** What is kept of a packet leads to its facts. *)
Section packet.
Context (c : storage) (f : source_facts) (st : contribution_state) (K : kept c f st) (W : well_formed f).
Notation mb := (begin (state_members st)).
Notation vb := (begin (state_enum_values st)).
Notation db := (begin (state_modifiers st)).

Lemma kept_ref r : valid_range (ref_modifiers r) (SourceFacts.size (SourceFacts.modifiers f)) = true → captured_ref c f r (capture_ref db r).
Proof. intros Hr. split_and!; [done..|]. cbn. by apply (arena_slice_sub _ _ _ _ (k_modifiers _ _ _ K)). Qed.

Lemma kept_members r : Forall2 (captured_member c f) (section r (SourceFacts.members f)) (section r (capture_member db <$> SourceFacts.members f)).
Proof.
  rewrite section_fmap. apply Forall2_fmap_r, Forall_Forall2_diag, Forall_forall. intros m Hm.
  split_and!; [|done..]. apply kept_ref. destruct (modifier_ranges_valid f _ (wf_modifiers_owned f W)) as [Hv _].
  rewrite Forall_forall in Hv. apply Hv. unfold section in Hm.
  apply list_elem_of_lookup in Hm as [i Hi]. apply lookup_take_Some in Hi as [_ Hi]. rewrite lookup_drop in Hi. by eapply list_elem_of_lookup_2.
Qed.

Lemma kept_type x : x ∈ type_facts f → captured_type c f x (capture_type mb vb x).
Proof.
  intros Hx%type_facts_of. destruct x as [r|e]; cbn.
  - pose proof (partition_valid record_members _ _ (wf_members_owned f W)) as Hv. rewrite Forall_forall in Hv. specialize (Hv r Hx).
    split_and!; [done..| |].
    { unfold definition. cbn. by destruct (record_declared r =? kind_definition). }
    eexists. split; [|by apply kept_members]. apply (arena_slice_sub _ _ _ _ (k_members _ _ _ K)).
    unfold SourceFacts.size, size in *. by rewrite length_fmap.
  - pose proof (partition_valid enum_enumerators _ _ (wf_enum_values_owned f W)) as Hv. rewrite Forall_forall in Hv. specialize (Hv e Hx).
    split_and!; [done..| | |].
    + unfold definition. cbn. by destruct (enum_declared e =? kind_definition), (SourceFacts.enum_scoped e).
    + unfold enum_scoped. cbn. by destruct (enum_declared e =? kind_definition), (SourceFacts.enum_scoped e).
    + rewrite <-section_fmap. apply (arena_slice_sub _ _ _ _ (k_values _ _ _ K)). unfold SourceFacts.size, size in *. by rewrite length_fmap.
Qed.

Lemma kept_objects : Forall2 (captured_object c f) (SourceFacts.objects f) (capture_object db <$> SourceFacts.objects f).
Proof.
  apply Forall2_fmap_r, Forall_Forall2_diag, Forall_forall. intros o Ho. split_and!; [done| |done].
  apply kept_ref. destruct (modifier_ranges_valid f _ (wf_modifiers_owned f W)) as [_ Hv]. rewrite Forall_forall in Hv. by apply Hv.
Qed.

Lemma kept_captured : state_source st = source f → captured_source c f st.
Proof.
  intros Hs. split; [done|done|]. eexists. split; [apply K|].
  apply Forall2_fmap_r, Forall_Forall2_diag, Forall_forall. apply kept_type.
Qed.
End packet.

Lemma arena_slice_whole {A} (l more : list A) n : n = size more → arena_slice (l ++ more) (FactRange (size l) n) more.
Proof.
  intros ->. assert (Hv : valid_range (FactRange 0 (size more)) (SourceFacts.size more) = true).
  { unfold valid_range, SourceFacts.size, size. cbn. apply andb_true_iff. rewrite !N.leb_le. lia. }
  pose proof (arena_slice_end l more _ Hv) as Hs. rewrite section_all in Hs. cbn in Hs. by rewrite N.add_0_r in Hs.
Qed.

(** The state that goes with the packet behind the arenas of [c]. *)
Definition state_behind (c : storage) (f : source_facts) : contribution_state :=
  ContributionState (source f) (FactRange (size (items (types c))) (size (type_facts f)))
    (FactRange (size (items (members c))) (size (SourceFacts.members f)))
    (FactRange (size (items (modifiers c))) (size (SourceFacts.modifiers f)))
    (FactRange (size (items (enum_values c))) (size (SourceFacts.enum_values f)))
    (FactRange (size (items (objects c))) (size (SourceFacts.objects f)))
    (FactRange (size (items (links c))) (size (SourceFacts.links f))).

Lemma kept_new c c' f : packet_extends c c' f → kept c' f (state_behind c f).
Proof.
  intros [E1 E2 E3 E4 E5 E6]. split; cbn; rewrite ?E1, ?E2, ?E3, ?E4, ?E5, ?E6; apply arena_slice_whole; unfold size; by rewrite ?length_fmap.
Qed.

(** ** One packet more *)

Lemma captured_none n c : items (sources c) = replicate n no_state → items (objects c) = [] → captured [] c.
Proof.
  intros Hs Ho. split; cbn.
  - by apply NoDup_nil_2.
  - by intros f ?%not_elem_of_nil.
  - intros i st. rewrite Hs. intros [-> _]%lookup_replicate. by left.
  - by rewrite Ho.
Qed.

Lemma captured_next fs c c' f : captured fs c → packet_extends c c' f → well_formed f → source f ∉ source <$> fs →
  source f < size (items (sources c)) →
  items (sources c') = <[N.to_nat (source f) := state_behind c f]> (items (sources c)) → captured (fs ++ [f]) c'.
Proof.
  intros [C1 C2 C3 C4] H W Hf Hlt Hs. pose proof (kept_new _ _ _ H) as K. pose proof (kept_captured _ _ _ K W eq_refl) as Hst. split.
  - rewrite fmap_app. cbn. apply NoDup_app. split; [done|]. split; [|apply NoDup_singleton]. intros x Hx Hx'%list_elem_of_singleton. by subst.
  - intros g [Hg|Hg%list_elem_of_singleton]%elem_of_app.
    + destruct (C2 g Hg) as (st' & Hst' & Hc). exists st'. split; [|by eapply captured_source_more].
      rewrite Hs, list_lookup_insert_ne; [done|]. intros E%N2Nat.inj. apply Hf. rewrite E. by apply list_elem_of_fmap_2.
    + subst g. exists (state_behind c f). split; [|done]. rewrite Hs. apply list_lookup_insert_eq. unfold size in Hlt. lia.
  - intros i st' Hi. rewrite Hs in Hi. rewrite fmap_app, elem_of_app. destruct (decide (i = N.to_nat (source f))) as [->|Hne].
    + rewrite list_lookup_insert_eq in Hi by (unfold size in Hlt; lia). injection Hi as <-. right. cbn. rewrite N2Nat.id. split; [done|right]. by left.
    + rewrite list_lookup_insert_ne in Hi by done. destruct (C3 i st' Hi) as [?|[? ?]]; [by left|right]. split; [done|by left].
  - rewrite bind_app, (ex_objects _ _ _ _ _ _ _ _ H). apply Forall2_app.
    + eapply Forall2_impl; [exact C4|]. intros ??. by eapply captured_object_more.
    + cbn. rewrite app_nil_r. apply Forall2_fmap_l. exact (kept_objects c' f _ K W).
Qed.

End ContributionCapture.
