(* ===== verification/ContributionRebuild.v ===== *)
(** * A rebuild captures its packets

    [reserve_rebuild] and [replace] over the packets of all Sources: they end, and where they do
    not fail the contributions are [captured] from the packets. *)

From S2P Require Import Prelude Probing MappedVector Construction SourceFacts SourceFactsTheorems RuntimeLayout Graph HeapTables Contribution GenerationBuilder GenerationRules ContributionCapture.

Local Open Scope N_scope.

Module ContributionRebuild.

Import SourceFacts SourceFactsTheorems HeapTables Contribution GenerationBuilder GenerationRules ContributionCapture.

Notation contents s := (candidate (updating s)).

(** The update apart from the arenas. *)
Record framed (s s' : building) : Prop := Framed {
  fr_replaced : items (replaced (updating s')) = items (replaced (updating s)); fr_failure : failure (updating s') = failure (updating s);
  fr_prepared : prepared (updating s') = prepared (updating s); fr_published : published (updating s') = published (updating s);
  fr_sources : items (sources (contents s')) = items (sources (contents s));
  fr_construction : items (construction (contents s')) = items (construction (contents s)) }.

Definition adds (s s' : building) ts ms md vs os ls : Prop := extended (contents s) (contents s') ts ms md vs os ls ∧ framed s s'.

Lemma adds_none s : adds s s [] [] [] [] [] [].
Proof. split; [apply extended_none|done]. Qed.

Lemma adds_trans s s1 s2 ts ms md vs os ls ts' ms' md' vs' os' ls' : adds s s1 ts ms md vs os ls → adds s1 s2 ts' ms' md' vs' os' ls' →
  adds s s2 (ts ++ ts') (ms ++ ms') (md ++ md') (vs ++ vs') (os ++ os') (ls ++ ls').
Proof. intros [A1 [F1 F2 F3 F4 F5 F6]] [B1 [G1 G2 G3 G4 G5 G6]]. split; [by eapply extended_trans|]. split; congruence. Qed.

Section memory.
Context (memory : nat → bool) (grown : N → N → N).

Lemma bwp_insert_end {A} (get : storage → heap_vector A) set l s (Q : unit → building → Prop) :
  (∀ v, items (sources (set v (contents s))) = items (sources (contents s)) ∧ items (construction (set v (contents s))) = items (construction (contents s))) →
  (∀ s', contents s' = set (append grown (get (contents s)) l) (contents s) → framed s s' → Q tt s') → wp (insert_end memory grown get set l) s Q.
Proof.
  intros Hset HQ. unfold insert_end. apply bwp_bind. unfold storing. apply bwp_read. apply bwp_bind, bwp_room. intros s1 H1.
  unfold set_candidate. apply bwp_update, HQ; cbn; unfold stays in H1; rewrite H1; [done|].
  split; cbn; try done; apply Hset.
Qed.

Lemma bwp_push_type x s Q : (∀ s', adds s s' [x] [] [] [] [] [] → Q tt s') → wp (push memory grown types with_types x) s Q.
Proof. intros HQ. apply bwp_insert_end; [done|]. intros s' Hs Hf. apply HQ. split; [|done]. rewrite Hs. split; cbn; by rewrite ?app_nil_r. Qed.
Lemma bwp_push_member x s Q : (∀ s', adds s s' [] [x] [] [] [] [] → Q tt s') → wp (push memory grown members with_members x) s Q.
Proof. intros HQ. apply bwp_insert_end; [done|]. intros s' Hs Hf. apply HQ. split; [|done]. rewrite Hs. split; cbn; by rewrite ?app_nil_r. Qed.
Lemma bwp_insert_modifiers l s Q : (∀ s', adds s s' [] [] l [] [] [] → Q tt s') → wp (insert_end memory grown modifiers with_modifiers l) s Q.
Proof. intros HQ. apply bwp_insert_end; [done|]. intros s' Hs Hf. apply HQ. split; [|done]. rewrite Hs. split; cbn; by rewrite ?app_nil_r. Qed.
Lemma bwp_push_value x s Q : (∀ s', adds s s' [] [] [] [x] [] [] → Q tt s') → wp (push memory grown enum_values with_enum_values x) s Q.
Proof. intros HQ. apply bwp_insert_end; [done|]. intros s' Hs Hf. apply HQ. split; [|done]. rewrite Hs. split; cbn; by rewrite ?app_nil_r. Qed.
Lemma bwp_push_object x s Q : (∀ s', adds s s' [] [] [] [] [x] [] → Q tt s') → wp (push memory grown objects with_objects x) s Q.
Proof. intros HQ. apply bwp_insert_end; [done|]. intros s' Hs Hf. apply HQ. split; [|done]. rewrite Hs. split; cbn; by rewrite ?app_nil_r. Qed.
Lemma bwp_push_link x s Q : (∀ s', adds s s' [] [] [] [] [] [x] → Q tt s') → wp (push memory grown links with_links x) s Q.
Proof. intros HQ. apply bwp_insert_end; [done|]. intros s' Hs Hf. apply HQ. split; [|done]. rewrite Hs. split; cbn; by rewrite ?app_nil_r. Qed.

(** ** The appends *)

Lemma add_u32_some b r n : add_u32 b r = Some n → b + r < two64 → n = b + r.
Proof. unfold add_u32. destruct (_ <? _); [done|]. intros [= <-] H. by apply w64_small. Qed.

(** The arenas are words when a packet is taken in, and its ranges lie in its vectors. *)
Definition small (f : source_facts) : Prop :=
  size (SourceFacts.members f) < two32 ∧ size (SourceFacts.modifiers f) < two32 ∧ size (SourceFacts.enum_values f) < two32.

Lemma contribution_ref_some b r t n : contribution_ref b r = Some t → b < two32 → valid_range (ref_modifiers r) n = true → n < two32 →
  t = capture_ref b r.
Proof.
  unfold contribution_ref. intros (m & Hm & [= <-])%bind_Some Hb [Hr%N.leb_le _]%andb_true_iff Hn.
  apply add_u32_some in Hm as ->; [done|]. unfold two32, two64 in *. lia.
Qed.

Lemma bwp_append_members b l n s Q : b < two32 → n < two32 → Forall (λ m, valid_range (ref_modifiers (member_type m)) n = true) l →
  (∀ s', adds s s' [] (capture_member b <$> l) [] [] [] [] → Q tt s') → wp (each (append_member memory grown b) l) s Q.
Proof.
  intros Hb Hn Hl HQ. apply (bwp_each (λ l1 s', adds s s' [] (capture_member b <$> l1) [] [] [] [])); [apply adds_none| |done].
  intros l1 m l2 s1 -> H1. apply Forall_app in Hl as [_ [Hm _]%Forall_cons]. unfold append_member.
  destruct (contribution_ref b (member_type m)) as [t|] eqn:E; [|apply bwp_fail_with].
  apply (contribution_ref_some _ _ _ n) in E as ->; [|done..]. apply bwp_push_member. intros s2 H2.
  rewrite fmap_app. exact (adds_trans _ _ _ _ _ _ _ _ _ _ _ _ _ _ _ H1 H2).
Qed.

Lemma bwp_append_objects b l n s Q : b < two32 → n < two32 → Forall (λ o, valid_range (ref_modifiers (object_type_ref o)) n = true) l →
  (∀ s', adds s s' [] [] [] [] (capture_object b <$> l) [] → Q tt s') → wp (each (append_object memory grown b) l) s Q.
Proof.
  intros Hb Hn Hl HQ. apply (bwp_each (λ l1 s', adds s s' [] [] [] [] (capture_object b <$> l1) [])); [apply adds_none| |done].
  intros l1 m l2 s1 -> H1. apply Forall_app in Hl as [_ [Hm _]%Forall_cons]. unfold append_object.
  destruct (contribution_ref b (object_type_ref m)) as [t|] eqn:E; [|apply bwp_fail_with].
  apply (contribution_ref_some _ _ _ n) in E as ->; [|done..]. apply bwp_push_object. intros s2 H2.
  rewrite fmap_app. exact (adds_trans _ _ _ _ _ _ _ _ _ _ _ _ _ _ _ H1 H2).
Qed.

Lemma bwp_append_values l s Q : (∀ s', adds s s' [] [] [] (captured_value <$> l) [] [] → Q tt s') →
  wp (each (append_enum_value memory grown) l) s Q.
Proof.
  intros HQ. apply (bwp_each (λ l1 s', adds s s' [] [] [] (captured_value <$> l1) [] [])); [apply adds_none| |done].
  intros l1 m l2 s1 -> H1. apply bwp_push_value. intros s2 H2. rewrite fmap_app. exact (adds_trans _ _ _ _ _ _ _ _ _ _ _ _ _ _ _ H1 H2).
Qed.

Lemma bwp_append_links l s Q : (∀ s', adds s s' [] [] [] [] [] (captured_link <$> l) → Q tt s') → wp (each (append_link memory grown) l) s Q.
Proof.
  intros HQ. apply (bwp_each (λ l1 s', adds s s' [] [] [] [] [] (captured_link <$> l1))); [apply adds_none| |done].
  intros l1 m l2 s1 -> H1. apply bwp_push_link. intros s2 H2. rewrite fmap_app. exact (adds_trans _ _ _ _ _ _ _ _ _ _ _ _ _ _ _ H1 H2).
Qed.

(** *** Types *)

Section types.
Context (f : source_facts) (mb vb : N) (Hm : mb < two32) (Hv : vb < two32) (W : well_formed f) (B : small f).

Definition adds_types (s s' : building) (xs : list (source_record_fact + source_enum_fact)) : Prop :=
  adds s s' (capture_type mb vb <$> xs) [] [] [] [] [].

Lemma adds_types_trans s s1 s2 xs ys : adds_types s s1 xs → adds_types s1 s2 ys → adds_types s s2 (xs ++ ys).
Proof. unfold adds_types. intros H1 H2. rewrite fmap_app. exact (adds_trans _ _ _ _ _ _ _ _ _ _ _ _ _ _ _ H1 H2). Qed.

Lemma bwp_append_record index s Q :
  (∀ r s', records f !! N.to_nat index = Some r → adds_types s s' [inl r] → Q tt s') → wp (append_record memory grown f mb index) s Q.
Proof.
  intros HQ. unfold append_record. destruct (records f !! _) as [r|] eqn:E; [|apply bwp_fail_with].
  destruct (add_u32 mb _) as [b|] eqn:Eb; [|apply bwp_fail_with]. apply bwp_push_type. intros s' H'. eapply HQ; [done|].
  pose proof (partition_valid record_members _ _ (wf_members_owned f W)) as Hr. rewrite Forall_forall in Hr.
  specialize (Hr r (list_elem_of_lookup_2 _ _ _ E)). apply andb_true_iff in Hr as [Hr%N.leb_le _]. destruct B as (B1 & _ & _).
  apply add_u32_some in Eb as ->; [done|]. unfold two32, two64, SourceFacts.size, size in *. lia.
Qed.

Lemma bwp_append_enum index s Q :
  (∀ e s', enums f !! N.to_nat index = Some e → adds_types s s' [inr e] → Q tt s') → wp (append_enum memory grown f vb index) s Q.
Proof.
  intros HQ. unfold append_enum. destruct (enums f !! _) as [e|] eqn:E; [|apply bwp_fail_with].
  destruct (add_u32 vb _) as [b|] eqn:Eb; [|apply bwp_fail_with]. apply bwp_push_type. intros s' H'. eapply HQ; [done|].
  pose proof (partition_valid enum_enumerators _ _ (wf_enum_values_owned f W)) as Hr. rewrite Forall_forall in Hr.
  specialize (Hr e (list_elem_of_lookup_2 _ _ _ E)). apply andb_true_iff in Hr as [Hr%N.leb_le _]. destruct B as (_ & _ & B1).
  apply add_u32_some in Eb as ->; [done|]. unfold two32, two64, SourceFacts.size, size in *. lia.
Qed.

Lemma indices_lookup {A} (l1 l2 : list N) (xs : list A) i : indices xs = l1 ++ i :: l2 → i = N.of_nat (length l1) ∧ (length l1 < length xs)%nat.
Proof.
  intros E. assert (H : indices xs !! length l1 = Some i) by (rewrite E; by apply list_lookup_middle).
  unfold indices in H. apply list_lookup_fmap_Some in H as (k & -> & [-> Hk]%lookup_seq). by rewrite Nat.add_0_l.
Qed.

Lemma bwp_append_indices {A} (xs : list A) (inj : A → source_record_fact + source_enum_fact) (append : N → build unit) s Q :
  (∀ i s Q, (∀ x s', xs !! N.to_nat i = Some x → adds_types s s' [inj x] → Q tt s') → wp (append i) s Q) →
  (∀ s', adds_types s s' (inj <$> xs) → Q tt s') → wp (each append (indices xs)) s Q.
Proof.
  intros Ha HQ. apply (bwp_each (λ l1 s', adds_types s s' (inj <$> take (length l1) xs))).
  - rewrite take_0. apply adds_none.
  - intros l1 i l2 s1 E H1. apply indices_lookup in E as [-> Hlt]. apply Ha. intros x s2 Hx H2. rewrite Nat2N.id in Hx.
    rewrite length_app, Nat.add_1_r, (take_S_r _ _ x Hx), fmap_app. by eapply adds_types_trans.
  - intros s' H'. apply HQ. unfold indices in H'. rewrite length_fmap, length_seq, take_ge in H' by done. done.
Qed.

Lemma bwp_append_declarations s Q : (∀ s', adds_types s s' (type_facts f) → Q tt s') → wp (append_declarations memory grown f mb vb) s Q.
Proof.
  intros HQ. unfold append_declarations, type_facts in *. destruct (declarations f) as [|d ds].
  - apply bwp_bind. apply (bwp_append_indices _ inl); [apply bwp_append_record|]. intros s1 H1.
    apply (bwp_append_indices _ inr); [apply bwp_append_enum|]. intros s2 H2. apply HQ. by eapply adds_types_trans.
  - apply (bwp_each (λ l1 s', adds_types s s' (omap (declared_type f) l1))); [apply adds_none| |done].
    intros l1 x l2 s1 _ H1. rewrite omap_app. unfold append_declaration. cbv zeta.
    assert (Hskip : declared_type f x = None → adds_types s s1 (omap (declared_type f) l1 ++ omap (declared_type f) [x])).
    { intros E. cbn. rewrite E. by rewrite app_nil_r. }
    cbn [omap list_omap] in *. unfold declared_type in Hskip |- *. apply bwp_if; intros E1; rewrite E1 in *.
    { apply bwp_append_record. intros r s2 -> H2. cbn. by eapply adds_types_trans. }
    apply bwp_if; intros E2; rewrite E2 in *.
    { apply bwp_append_enum. intros e s2 -> H2. cbn. by eapply adds_types_trans. }
    apply bwp_if; intros E3; [apply bwp_if; intros _; [by apply bwp_ret, Hskip|apply bwp_fail_with]|].
    apply bwp_if; intros E4; [apply bwp_if; intros _; [by apply bwp_ret, Hskip|apply bwp_fail_with]|]. by apply bwp_ret, Hskip.
Qed.
End types.

(** ** One packet *)

(** The update in which the packets [fs] are, over [n] slots. *)
Record rebuilding (n : N) (fs : list source_facts) (s : building) : Prop := Rebuilding {
  rb_captured : captured fs (contents s);
  rb_slots : size (items (sources (contents s))) = n;
  rb_replaced : items (replaced (updating s)) = (λ i, bool_decide (N.of_nat i ∈ source <$> fs)) <$> seq 0 (N.to_nat n);
  rb_construction : items (construction (contents s)) = [] }.

(** The arenas end as [packet_extends] says. *)
Definition packet_added (f : source_facts) (s s' : building) : Prop := packet_extends (contents s) (contents s') f ∧ framed s s'.

Lemma bwp_append_packet (k : build unit) f s Q : well_formed f → small f →
  size (items (modifiers (contents s))) <= u32_max → size (items (members (contents s))) <= u32_max → size (items (enum_values (contents s))) <= u32_max →
  (∀ s', packet_added f s s' → wp k s' Q) →
  wp (insert_end memory grown modifiers with_modifiers (SourceFacts.modifiers f);;
      each (append_member memory grown (size (items (modifiers (contents s))))) (SourceFacts.members f);;
      each (append_enum_value memory grown) (SourceFacts.enum_values f);;
      each (append_object memory grown (size (items (modifiers (contents s))))) (SourceFacts.objects f);;
      each (append_link memory grown) (SourceFacts.links f);;
      append_declarations memory grown f (size (items (members (contents s)))) (size (items (enum_values (contents s))));;
      k) s Q.
Proof.
  intros W B H1 H2 H3 HQ. destruct (modifier_ranges_valid f _ (wf_modifiers_owned f W)) as [Vm Vo].
  destruct B as (B1 & B2 & B3) eqn:EB. change SourceFacts.size with (@size source_type_modifier) in *.
  apply bwp_bind, bwp_insert_modifiers. intros s1 A1.
  apply bwp_bind. eapply bwp_append_members; [|exact B2|exact Vm|]; [unfold u32_max in *; lia|]. intros s2 A2.
  apply bwp_bind, bwp_append_values. intros s3 A3.
  apply bwp_bind. eapply bwp_append_objects; [|exact B2|exact Vo|]; [unfold u32_max in *; lia|]. intros s4 A4.
  apply bwp_bind, bwp_append_links. intros s5 A5.
  apply bwp_bind, bwp_append_declarations; [unfold u32_max in *; lia..|done|done|]. intros s6 A6. apply HQ.
  pose proof (adds_trans _ _ _ _ _ _ _ _ _ _ _ _ _ _ _ A1 A2) as T2. pose proof (adds_trans _ _ _ _ _ _ _ _ _ _ _ _ _ _ _ T2 A3) as T3.
  pose proof (adds_trans _ _ _ _ _ _ _ _ _ _ _ _ _ _ _ T3 A4) as T4. pose proof (adds_trans _ _ _ _ _ _ _ _ _ _ _ _ _ _ _ T4 A5) as T5.
  pose proof (adds_trans _ _ _ _ _ _ _ _ _ _ _ _ _ _ _ T5 A6) as T6. cbn [app] in T6. rewrite !app_nil_r in T6. exact T6.
Qed.

(** The arenas of two storages read the same. *)
Definition same_arenas (c c' : storage) : Prop := extended c c' [] [] [] [] [] [].

Lemma packet_same c c1 c2 f : packet_extends c c1 f → same_arenas c1 c2 → packet_extends c c2 f.
Proof. intros H1 H2. pose proof (extended_trans _ _ _ _ _ _ _ _ _ _ _ _ _ _ _ H1 H2) as H. by rewrite !app_nil_r in H. Qed.

Lemma replaced_next n (f : source_facts) (fs : list source_facts) : source f < n →
  <[N.to_nat (source f) := true]> ((λ i, bool_decide (N.of_nat i ∈ source <$> fs)) <$> seq 0 (N.to_nat n)) =
  (λ i, bool_decide (N.of_nat i ∈ source <$> (fs ++ [f]))) <$> seq 0 (N.to_nat n).
Proof.
  intros Hn. apply list_eq. intros i. rewrite (list_lookup_fmap _ (seq 0 (N.to_nat n)) i). destruct (decide (i = N.to_nat (source f))) as [->|Hne].
  - rewrite list_lookup_insert_eq by (rewrite length_fmap, length_seq; lia). rewrite lookup_seq_lt by lia. cbn. f_equal. symmetry.
    apply bool_decide_eq_true. rewrite N2Nat.id, fmap_app, elem_of_app. right. by left.
  - rewrite list_lookup_insert_ne, list_lookup_fmap by done. destruct (seq 0 (N.to_nat n) !! i) as [j|] eqn:Hj; [|done]. apply lookup_seq in Hj as [-> _].
    cbn. f_equal. apply bool_decide_ext. rewrite fmap_app, elem_of_app. cbn. rewrite list_elem_of_singleton. split; [by left|]. intros [?|E]; [done|]. lia.
Qed.

(** The state of the Source is filed. *)
Lemma rebuilding_next n fs f s0 s c' : rebuilding n fs s0 → packet_added f s0 s → well_formed f → source f < n → source f ∉ source <$> fs →
  same_arenas (contents s) (contents c') →
  items (sources (contents c')) = <[N.to_nat (source f) := state_behind (contents s0) f]> (items (sources (contents s))) →
  items (construction (contents c')) = items (construction (contents s)) →
  items (replaced (updating c')) = <[N.to_nat (source f) := true]> (items (replaced (updating s))) → rebuilding n (fs ++ [f]) c'.
Proof.
  intros [C1 C2 C3 C4] [E F] W Hn Hfresh Hsame Hs Hc Hr. pose proof (packet_same _ _ _ _ E Hsame) as E'.
  rewrite (fr_sources _ _ F) in Hs. rewrite (fr_replaced _ _ F) in Hr. split.
  - by eapply (captured_next fs (contents s0) (contents c') f); rewrite ?C2.
  - rewrite Hs. unfold size. rewrite length_insert. exact C2.
  - rewrite Hr, C3. by apply replaced_next.
  - rewrite Hc, (fr_construction _ _ F). done.
Qed.

Lemma appended_range {A} (get : storage → heap_vector A) c0 c l : items (get c) = items (get c0) ++ l →
  size (items (get c0)) <= u32_max → size (items (get c)) - size (items (get c0)) <= u32_max →
  appended get c0 c = FactRange (size (items (get c0))) (size l).
Proof.
  intros E H1 H2. unfold appended. assert (Hs : size (items (get c)) = size (items (get c0)) + size l) by (rewrite E; unfold size; rewrite length_app; lia).
  rewrite !w32_small by (unfold SourceFacts.size, size, u32_max, two32 in *; lia). f_equal. unfold SourceFacts.size, size in *. lia.
Qed.

Lemma bwp_finish_source n fs f s0 s Q : rebuilding n fs s0 → packet_added f s0 s → well_formed f → source f < n → source f ∉ source <$> fs →
  existsb (λ n, u32_max <? n) (arena_sizes (contents s0)) = false →
  (∀ s', rebuilding n (fs ++ [f]) s' → Q tt s') → wp (finish_source (source f) (contents s0)) s Q.
Proof.
  intros R P W Hn Hfresh Hsize HQ. unfold finish_source. apply bwp_bind. unfold storing. apply bwp_read. unfold id.
  apply bwp_if; intros Hgrow; [apply bwp_fail_with|]. cbn in Hsize, Hgrow. rewrite !orb_false_iff, !N.ltb_ge in Hsize, Hgrow.
  apply bwp_bind. apply bwp_updated. intros s1 H1. apply bwp_bind, bwp_read. apply bwp_bind, bwp_updated. intros s2 H2.
  apply bwp_updated. intros s3 H3. rewrite H2, H1 in H3. rewrite H1 in H2. apply HQ.
  destruct P as [E F] eqn:EP. destruct Hsize as (S1 & S2 & S3 & S4 & S5 & S6 & _), Hgrow as (G1 & G2 & G3 & G4 & G5 & G6 & _).
  eapply (rebuilding_next n fs f s0 s s3); try done; rewrite ?H3; try done; cbn [candidate replaced].
  - split; cbn; by rewrite app_nil_r.
  - cbn. do 2 f_equal. unfold state_behind. destruct E as [E1 E2 E3 E4 E5 E6].
    rewrite (appended_range types _ _ _ E1 S1 G1), (appended_range members _ _ _ E2 S2 G2), (appended_range modifiers _ _ _ E3 S3 G3),
      (appended_range enum_values _ _ _ E4 S4 G4), (appended_range objects _ _ _ E5 S5 G5), (appended_range links _ _ _ E6 S6 G6).
    unfold size. by rewrite !length_fmap.
Qed.

Lemma replaced_fresh n fs f s : rebuilding n fs s → source f < n →
  default false (items (replaced (updating s)) !! N.to_nat (source f)) = false → source f ∉ source <$> fs.
Proof.
  intros R Hn Hr Hin. rewrite (rb_replaced _ _ _ R), list_lookup_fmap, lookup_seq_lt in Hr by lia. cbn in Hr.
  rewrite N2Nat.id in Hr. by apply bool_decide_eq_false in Hr.
Qed.

Lemma bwp_append_source n fs f s Q : rebuilding n fs s → well_formed f → small f → source f < n →
  (∀ s', rebuilding n (fs ++ [f]) s' → Q tt s') → wp (append_source memory grown f) s Q.
Proof.
  intros R W B Hn HQ. unfold append_source. apply bwp_bind. unfold storing. apply bwp_read. unfold id.
  apply bwp_bind, bwp_if; intros Hslots.
  { apply N.leb_le in Hslots. pose proof (rb_slots _ _ _ R) as Hr. unfold SourceFacts.size, size in *. lia. }
  apply bwp_ret, bwp_bind, bwp_read. apply bwp_if; intros Hrep; [apply bwp_fail_with|].
  apply bwp_if; intros Hsize; [apply bwp_fail_with|]. cbv zeta.
  pose proof (replaced_fresh _ _ _ _ R Hn Hrep) as Hfresh.
  assert (H := Hsize). cbn in H. rewrite !orb_false_iff, !N.ltb_ge in H. destruct H as (_ & S2 & S3 & S4 & _).
  apply bwp_append_packet; [done|done|done..|]. intros s1 P. by eapply bwp_finish_source.
Qed.

(** ** All packets *)

Definition accepted (f : source_facts) : Prop := well_formed f ∧ Forall (λ r, has_bases r = false) (records f).

Lemma validated f e : validate_source_facts f = (ok, e) → well_formed f.
Proof. unfold validate_source_facts. rewrite <-(run_checks_pass f tt). by destruct (run_checks f) as [|[]]. Qed.

Lemma bwp_replace n fs f s Q : rebuilding n fs s → small f → source f < n →
  (∀ s', rebuilding n (fs ++ [f]) s' → accepted f → Q tt s') → wp (replace memory grown f) s Q.
Proof.
  intros R B Hn HQ. unfold replace. apply bwp_bind, bwp_read. apply bwp_if; intros _; [apply bwp_stop|]. apply bwp_if; intros _; [apply bwp_stop|].
  destruct (validate_source_facts f) as [code e] eqn:E. destruct code; try (apply bwp_bind, bwp_emit; intros; apply bwp_fail_with).
  destruct (filter _ _) as [|r rs] eqn:Ef; [|apply bwp_bind, bwp_emit; intros; apply bwp_fail_with].
  apply bwp_catching, (bwp_append_source n fs); [done|by eapply validated|done|done|]. intros s' R'. apply HQ; [done|].
  split; [by eapply validated|]. apply Forall_forall. intros r Hr. destruct (has_bases r) eqn:Hb; [|done].
  assert (Hin : r ∈ filter (λ r, has_bases r = true) (records f)) by by apply list_elem_of_filter. rewrite Ef in Hin. by apply not_elem_of_nil in Hin.
Qed.

Lemma bwp_replaces n fs s Q : rebuilding n [] s → Forall small fs → Forall (λ f, source f < n) fs →
  (∀ s', rebuilding n fs s' → Forall accepted fs → Q tt s') → wp (each (replace memory grown) fs) s Q.
Proof.
  intros R B Hn HQ. apply (bwp_each (λ l s', rebuilding n l s' ∧ Forall accepted l)); [done| |intros s' [? ?]; by apply HQ].
  intros l1 f l2 s1 E [R1 A1]. rewrite E in B, Hn. apply Forall_app in B as [_ [Bf _]%Forall_cons]. apply Forall_app in Hn as [_ [Hf _]%Forall_cons].
  apply (bwp_replace n l1); [done..|]. intros s2 R2 A2. split; [done|]. apply Forall_app. split; [done|by apply Forall_singleton].
Qed.

(** ** The reservation *)

Definition stays_filled (c c' : storage) : Prop :=
  same_arenas c c' ∧ items (sources c') = items (sources c) ∧ items (construction c') = items (construction c).

(** The room of a vector is reserved: its values stay. *)
Lemma bwp_reserve {A} (get : storage → heap_vector A) set m s (Q : unit → building → Prop) :
  (∀ v c, items v = items (get c) → stays_filled c (set v c)) →
  (∀ s', adds s s' [] [] [] [] [] [] → Q tt s') → wp (reserve_with_headroom memory grown get set m) s Q.
Proof.
  intros Hset HQ. unfold reserve_with_headroom. destruct (reserve_headroom_size m) as [capacity|]; [|apply bwp_stop].
  assert (Hr : wp (v ← storing get; room memory v capacity) s (λ _ s', stays s s')).
  { apply bwp_bind. unfold storing. apply bwp_read. by apply bwp_room. }
  unfold wp in *. destruct ((v ← storing get; room memory v capacity) s) as [[] s1| | |]; try done.
  destruct (Hset (reserved grown (get (contents s1)) capacity) (contents s1)) as (H1 & H2 & H3); [done|].
  unfold stays in Hr. unfold set_candidate, set_update. apply HQ. cbn. unfold adds. cbn. rewrite <-Hr. split; [exact H1|]. split; cbn; rewrite ?Hr; try done; rewrite <-Hr; done.
Qed.

Lemma bwp_reserve_replaced m s (Q : unit → building → Prop) : (∀ s', adds s s' [] [] [] [] [] [] → Q tt s') → wp (reserve_replaced memory grown m) s Q.
Proof.
  intros HQ. unfold reserve_replaced. destruct (reserve_headroom_size m) as [capacity|]; [|apply bwp_stop].
  pose proof (bwp_room memory (replaced (updating s)) capacity s (λ _ s', stays s s') ltac:(done)) as Hr.
  unfold wp in *. destruct (room memory (replaced (updating s)) capacity s) as [[] s1| | |]; try done.
  unfold stays in Hr. unfold set_replaced, set_update. apply HQ. cbn. rewrite Hr. split; [apply extended_none|]. by split.
Qed.

Lemma bwp_resize_sources n s (Q : unit → building → Prop) : items (sources (contents s)) = [] → items (replaced (updating s)) = [] →
  (∀ s', same_arenas (contents s) (contents s') → items (construction (contents s')) = items (construction (contents s)) →
    items (sources (contents s')) = replicate (N.to_nat n) no_state → items (replaced (updating s')) = replicate (N.to_nat n) false → Q tt s') →
  wp (resize_sources memory grown n) s Q.
Proof.
  intros Hs Hr HQ. unfold resize_sources. apply bwp_bind. unfold storing. apply bwp_read. apply bwp_bind, bwp_room. intros s1 H1.
  apply bwp_bind, bwp_updated. intros s2 H2. apply bwp_bind, bwp_read. apply bwp_bind, bwp_room. intros s3 H3. apply bwp_updated. intros s4 H4.
  unfold stays in *. rewrite H3, H2, H1 in H4. apply HQ; rewrite H4; cbn.
  - split; cbn; by rewrite app_nil_r.
  - done.
  - by rewrite Hs, take_nil, Nat.sub_0_r.
  - by rewrite Hr, take_nil, Nat.sub_0_r.
Qed.

Lemma adds_nothing s s1 s2 : adds s s1 [] [] [] [] [] [] → adds s1 s2 [] [] [] [] [] [] → adds s s2 [] [] [] [] [] [].
Proof. exact (adds_trans _ _ _ _ _ _ _ _ _ _ _ _ _ _ _). Qed.

(** A reservation keeps what every arena holds. *)
Ltac reserves := intros ?v ?c ?Hv; split; [split|split]; cbn in *; rewrite ?app_nil_r; done.

Lemma bwp_reserve_rebuild n tc mc dc vc oc lc s Q : contents s = no_storage → items (replaced (updating s)) = [] →
  (∀ s', rebuilding (n + 1) [] s' → items (types (contents s')) = [] → n < u32_max → tc < u32_max → mc < u32_max → dc < u32_max → vc < u32_max → Q tt s') →
  wp (reserve_rebuild memory grown n tc mc dc vc oc lc) s Q.
Proof.
  intros Hs Hr HQ. unfold reserve_rebuild. apply bwp_bind, bwp_read. apply bwp_if; intros _; [apply bwp_stop|].
  apply bwp_if; intros _; [apply bwp_stop|]. apply bwp_if; intros Hsmall; [apply bwp_fail_with|].
  rewrite !orb_false_iff, !N.leb_gt in Hsmall. destruct Hsmall as ((((((B1 & B2) & B3) & B4) & B5) & _) & _).
  apply bwp_catching, bwp_bind, bwp_reserve; [reserves|]. intros s1 A1.
  apply bwp_bind, bwp_reserve_replaced. intros s2 A2%(adds_nothing _ _ _ A1).
  apply bwp_bind, bwp_reserve; [reserves|]. intros s3 A3%(adds_nothing _ _ _ A2).
  apply bwp_bind, bwp_reserve; [reserves|]. intros s4 A4%(adds_nothing _ _ _ A3).
  apply bwp_bind, bwp_reserve; [reserves|]. intros s5 A5%(adds_nothing _ _ _ A4).
  apply bwp_bind, bwp_reserve; [reserves|]. intros s6 A6%(adds_nothing _ _ _ A5).
  apply bwp_bind, bwp_reserve; [reserves|]. intros s7 A7%(adds_nothing _ _ _ A6).
  apply bwp_bind, bwp_reserve; [reserves|]. intros s8 A8%(adds_nothing _ _ _ A7).
  apply bwp_bind, bwp_reserve; [reserves|]. intros s9 [E9 F9]%(adds_nothing _ _ _ A8).
  apply bwp_resize_sources; [by rewrite (fr_sources _ _ F9), Hs|by rewrite (fr_replaced _ _ F9)|]. intros s' E1 E2 E3 E4.
  pose proof (extended_trans _ _ _ _ _ _ _ _ _ _ _ _ _ _ _ E9 E1) as E. rewrite Hs in E.
  apply HQ; [|by rewrite (ex_types _ _ _ _ _ _ _ _ E)|lia..]. split.
  - eapply captured_none; [exact E3|]. by rewrite (ex_objects _ _ _ _ _ _ _ _ E).
  - rewrite E3. unfold size. rewrite length_replicate. lia.
  - rewrite E4. apply list_eq. intros i. rewrite list_lookup_fmap. destruct (decide (i < N.to_nat (n + 1))%nat) as [Hi|Hi].
    + rewrite lookup_seq_lt, lookup_replicate_2 by done. done.
    + rewrite lookup_seq_ge by lia. apply lookup_replicate_None. lia.
  - by rewrite E2, (fr_construction _ _ F9), Hs.
Qed.

End memory.

End ContributionRebuild.
