(* ===== verification/GenerationRefusals.v ===== *)
(** * How a build fails

    A failure of a build carries a status other than ok: the status that the calls answer tells
    whether anything was prepared. *)

From S2P Require Import Prelude Probing MappedVector Construction SourceFacts RuntimeLayout Graph HeapTables Contribution GenerationBuilder.

Local Open Scope N_scope.

Module GenerationRefusals.

Import SourceFacts HeapTables Contribution GenerationBuilder.

Definition refuses {A} (m : build A) : Prop := ∀ s code s', m s = Failed code s' → code ≠ ok.
(** A result of which no error is ok. *)
Definition sound {A} (r : status_code + A) : Prop := ∀ code, r = inl code → code ≠ ok.

Create HintDb refusal.

Lemma refuses_ret {A} (a : A) : refuses (mret a).
Proof. by intros s code s'. Qed.
Lemma refuses_read {A} (f : building → A) : refuses (read f).
Proof. by intros s code s'. Qed.
Lemma refuses_storing {A} (f : storage → A) : refuses (storing f).
Proof. by intros s code s'. Qed.
Lemma refuses_update f : refuses (set_update f).
Proof. by intros s code s'. Qed.
Lemma refuses_candidate f : refuses (set_candidate f).
Proof. by intros s code s'. Qed.
Lemma refuses_replaced v : refuses (set_replaced v).
Proof. by intros s code s'. Qed.
Lemma refuses_endless {A} : refuses (λ _, @Endless A).
Proof. by intros s code s'. Qed.
Lemma refuses_stop {A} code : code ≠ ok → refuses (A := A) (stop code).
Proof. intros H s code' s' [= <- _]. done. Qed.
Lemma refuses_bind {A B} (m : build A) (k : A → build B) : refuses m → (∀ a, refuses (k a)) → refuses (m ≫= k).
Proof.
  intros Hm Hk s code s'. unfold mbind, build_bind. destruct (m s) as [a s1|c s1|s1|] eqn:E; [by apply Hk| |done..].
  intros [= <- <-]. by eapply Hm.
Qed.
Lemma refuses_fail_with {A} code : code ≠ ok → refuses (A := A) (fail_with code).
Proof. intros H. apply refuses_bind; [apply refuses_update|]. intros _. by apply refuses_stop. Qed.
Lemma refuses_if {A} (b : bool) (m1 m2 : build A) : refuses m1 → refuses m2 → refuses (if b then m1 else m2).
Proof. by destruct b. Qed.
Lemma refuses_each {A} (f : A → build unit) l : (∀ x, refuses (f x)) → refuses (each f l).
Proof. intros H. induction l as [|x l IH]; cbn [each]; [apply refuses_ret|by apply refuses_bind]. Qed.
Lemma refuses_folded {A B} (f : A → B → build A) l : (∀ a x, refuses (f a x)) → ∀ a, refuses (folded f a l).
Proof. intros H. induction l as [|x l IH]; intros a; cbn [folded]; [apply refuses_ret|by apply refuses_bind]. Qed.

#[export] Hint Resolve refuses_ret refuses_read refuses_storing refuses_update refuses_candidate refuses_replaced refuses_endless
  refuses_stop refuses_bind refuses_fail_with refuses_if refuses_each refuses_folded : refusal.

(** Follows the code of an operation. *)
Ltac refusing :=
  repeat first
    [ progress intros
    | done
    | solve [eauto 2 with refusal]
    | apply refuses_bind | apply refuses_if | apply refuses_each | apply refuses_folded
    | match goal with
      | |- refuses (match ?x with _ => _ end) => destruct x
      | |- refuses (let '_ := ?x in _) => destruct x
      end ].

Section memory.
Context (memory : nat → bool) (grown : N → N → N) (abi : RuntimeLayout.abi_configuration).

Lemma refuses_allocate : refuses (allocate memory).
Proof. intros s code s'. unfold allocate. by destruct (memory _). Qed.
Lemma refuses_emit d : refuses (emit memory d).
Proof. intros s code s'. unfold emit, allocate. by destruct (memory _). Qed.
Lemma refuses_room {A} (v : heap_vector A) n : refuses (room memory v n).
Proof. apply refuses_if; [apply refuses_allocate|apply refuses_ret]. Qed.
Lemma refuses_allocate_for n : refuses (allocate_for memory n).
Proof. apply refuses_if; [apply refuses_ret|apply refuses_allocate]. Qed.
#[local] Hint Resolve refuses_allocate refuses_emit refuses_room refuses_allocate_for : refusal.

Lemma refuses_fail_at {A} source code detail : code ≠ ok → refuses (A := A) (fail_at memory source code detail).
Proof. intros H. unfold fail_at, emit_failure. refusing. Qed.
#[local] Hint Resolve refuses_fail_at : refusal.
Lemma refuses_demand b source code detail : code ≠ ok → refuses (demand memory b source code detail).
Proof. intros H. unfold demand. refusing. Qed.
Lemma refuses_reported {A} source detail (r : status_code + A) : sound r → refuses (reported memory source detail r).
Proof. intros H. unfold reported. destruct r; [|refusing]. apply refuses_fail_at. by apply H. Qed.
Lemma refuses_explained {A} detail (m : build A) : refuses m → refuses (explained memory detail m).
Proof.
  intros H s code s'. unfold explained. destruct (m s) as [|c s1| |] eqn:E; try done. apply refuses_fail_at. by eapply H.
Qed.
Lemma refuses_rescued {A} detail (m : build A) : refuses m → refuses (rescued memory detail m).
Proof.
  intros H s code s'. unfold rescued. destruct (m s) as [|c s1|s1|] eqn:E; try done.
  - intros [= <- _]. by eapply H.
  - by apply refuses_fail_at.
Qed.
Lemma refuses_catching {A} (m : build A) : refuses m → refuses (catching m).
Proof.
  intros H s code s'. unfold catching. destruct (m s) as [|c s1|s1|] eqn:E; try done.
  - intros [= <- _]. by eapply H.
  - by apply refuses_fail_with.
Qed.
#[local] Hint Resolve refuses_demand refuses_explained refuses_rescued refuses_catching : refusal.

(** An allocation whose failure becomes a status. *)
Lemma refuses_guarded {A B} (m : build A) (k : A → building → outcome B) : refuses m → (∀ a, refuses (k a)) →
  refuses (λ s, match m s with
    | Done a s' => k a s' | Failed code s' => Failed code s' | Thrown s' => Failed initialization_failed s' | Endless => Endless end).
Proof.
  intros Hm Hk s code s'. destruct (m s) as [a s1|c s1|s1|] eqn:E; [by apply Hk| | |done].
  - intros [= <- _]. by eapply Hm.
  - by intros [= <- _].
Qed.

(** ** Results *)

Lemma sound_inr {A} (a : A) : sound (inr a).
Proof. done. Qed.
Lemma sound_inl {A} code : code ≠ ok → sound (A := A) (inl code).
Proof. intros H code' [= <-]. done. Qed.

Ltac sounds := repeat first [ apply sound_inr | by apply sound_inl | match goal with |- sound (if ?b then _ else _) => destruct b
  | |- sound (match ?x with _ => _ end) => let E := fresh in destruct x eqn:E end ].

Lemma sound_add_construction st item i : sound (add_construction st item i).
Proof.
  unfold add_construction. destruct (negb _); [|by apply sound_inl]. destruct (_ || _); [|by apply sound_inl].
  destruct (increment_count _); [|by apply sound_inl].
  assert (H : sound (match contributed_kind item with record_contribution => add_record st n (contributed_record_kind item)
    | enum_contribution => add_enum st n item end)).
  { destruct (contributed_kind item); unfold add_record, add_enum; sounds. }
  destruct (match contributed_kind item with _ => _ end) as [code|st']; [|sounds]. apply sound_inl. by apply H.
Qed.

Lemma sound_insert_or_find slots identity proposed : sound (insert_or_find slots identity proposed).
Proof. unfold insert_or_find. sounds. Qed.

Lemma sound_append_canonical record r : sound (append_canonical record r).
Proof. unfold append_canonical. sounds. Qed.
Lemma sound_get_intrinsic code r : sound (get_intrinsic code r).
Proof.
  unfold get_intrinsic. pose proof (sound_append_canonical (CanonicalType 0 0 Graph.intrinsic_kind code) r) as H.
  destruct (_ !! _); [|sounds]. destruct (_ =? _); [sounds|]. destruct (negb _); [sounds|].
  destruct (append_canonical _ _) as [c|[]]; [|sounds]. apply sound_inl. by apply H.
Qed.
Lemma sound_get_named h r : sound (get_named h r).
Proof.
  unfold get_named. pose proof (sound_append_canonical (CanonicalType 0 h Graph.named_kind 0) r) as H.
  destruct (_ !! _); [|sounds]. destruct (_ =? _); [sounds|]. destruct (negb _); [sounds|].
  destruct (append_canonical _ _) as [c|[]]; [|sounds]. apply sound_inl. by apply H.
Qed.
Lemma sound_get_derived k child payload r : sound (get_derived k child payload r).
Proof.
  unfold get_derived. pose proof (sound_append_canonical (CanonicalType payload child Graph.derived_kind k) r) as H.
  destruct (_ || _); [sounds|]. cbv zeta. destruct (walk _ _ _ _) as [[p [s|]]|]; [sounds| |sounds].
  destruct (append_canonical _ _) as [c|[]]; [|sounds]. apply sound_inl. by apply H.
Qed.
Lemma sound_enum_entry e item values : sound (enum_entry abi e item values).
Proof.
  unfold enum_entry. assert (H : sound (select_enum_underlying abi values)).
  { unfold select_enum_underlying. destruct (value_range _ _ _) as [[[mn mx] ng]|]; sounds. }
  destruct (entry_fixed e); [sounds|]. destruct (negb _); [sounds|]. destruct (enum_scoped item); [sounds|].
  destruct (select_enum_underlying abi values); [|sounds]. apply sound_inl. by apply H.
Qed.
Lemma sound_capacity n : sound (match checked_index_capacity n with Some n => inr n | None => inl not_available end).
Proof. sounds. Qed.
#[local] Hint Resolve refuses_reported sound_inr sound_add_construction sound_insert_or_find sound_get_intrinsic sound_get_named sound_get_derived
  sound_enum_entry sound_capacity : refusal.

(** ** The contributions *)

Lemma refuses_insert_end {A} (get : storage → heap_vector A) set l : refuses (insert_end memory grown get set l).
Proof. unfold insert_end. refusing. Qed.
Lemma refuses_push {A} (get : storage → heap_vector A) set x : refuses (push memory grown get set x).
Proof. apply refuses_insert_end. Qed.
#[local] Hint Resolve refuses_insert_end refuses_push : refusal.

Lemma refuses_reserve {A} (get : storage → heap_vector A) set n : refuses (reserve_with_headroom memory grown get set n).
Proof. unfold reserve_with_headroom. destruct (reserve_headroom_size n); [|by apply refuses_stop]. apply refuses_guarded; refusing. Qed.
Lemma refuses_reserve_replaced n : refuses (reserve_replaced memory grown n).
Proof.
  unfold reserve_replaced. destruct (reserve_headroom_size n); [|by apply refuses_stop]. intros s code s'.
  pose proof (refuses_room (replaced (updating s)) n0 s) as H. destruct (room _ _ _ s) as [[] s1|c s1|s1|] eqn:E; try done.
  - intros [= <- _]. by eapply H.
  - by intros [= <- _].
Qed.
Lemma refuses_resize n : refuses (resize_sources memory grown n).
Proof. unfold resize_sources. refusing. Qed.
#[local] Hint Resolve refuses_reserve refuses_reserve_replaced refuses_resize : refusal.

(** The recorded failure is answered only where it is one. *)
Lemma refuses_recorded {A} (k : rebuild → build A) : (∀ u, refuses (k u)) →
  refuses (u ← read updating; if negb (status_ok (failure u)) then stop (failure u) else k u).
Proof.
  intros Hk. apply refuses_bind; [apply refuses_read|]. intros u. destruct (failure u) eqn:E; cbn; try (by apply refuses_stop). apply Hk.
Qed.

Lemma refuses_reserve_rebuild n tc mc dc vc oc lc : refuses (reserve_rebuild memory grown n tc mc dc vc oc lc).
Proof.
  apply refuses_recorded. intros u. refusing. apply refuses_catching. refusing.
Qed.
Lemma refuses_append_source f : refuses (append_source memory grown f).
Proof.
  unfold append_source, append_declarations, append_declaration, append_record, append_enum, append_member, append_object, append_enum_value,
    append_link, finish_source. refusing.
Qed.
Lemma refuses_replace f : refuses (replace memory grown f).
Proof.
  apply refuses_recorded. intros u. apply refuses_if; [by apply refuses_stop|]. destruct (validate_source_facts f) as [code e] eqn:E.
  unfold validate_source_facts in E. destruct (run_checks f); injection E as <- _; [refusing|].
  destruct (filter _ _); [apply refuses_catching, refuses_append_source|refusing].
Qed.
Lemma refuses_prepare_publish : refuses prepare_publish.
Proof. apply refuses_recorded. intros u. refusing. Qed.

(** ** The graph *)

Lemma refuses_initialize n : refuses (initialize_index memory n).
Proof. unfold initialize_index. destruct (checked_index_capacity n); [|by apply refuses_stop]. apply refuses_guarded; refusing. Qed.
Lemma refuses_headroom {A} n (l : list A) : refuses (with_headroom memory grown n l).
Proof. unfold with_headroom. destruct (headroom_capacity _); [|by apply refuses_stop]. apply refuses_guarded; refusing. Qed.
Lemma refuses_identity_table capacity ids : refuses (identity_table memory capacity ids).
Proof. unfold identity_table. refusing. Qed.
#[local] Hint Resolve refuses_initialize refuses_headroom refuses_identity_table : refusal.

Lemma refuses_declare_type source d x : refuses (declare_type memory source d x).
Proof. unfold declare_type, merge_entry. refusing. Qed.
Lemma refuses_declare_object slots d o : refuses (declare_object memory slots d o).
Proof. unfold declare_object. refusing. Qed.
Lemma refuses_materialize w1 w2 w3 ms t h r : refuses (materialize memory w1 w2 w3 ms t h r).
Proof. unfold materialize, wrap. refusing. apply refuses_reported. destruct (_ =? _); [apply sound_get_intrinsic|apply sound_get_named]. Qed.
Lemma refuses_define_type c handles refs bases source d x : refuses (define_type memory abi c handles refs bases source d x).
Proof. unfold define_type, define_record, define_enum. refusing. Qed.
Lemma refuses_add_link oslots valid source a l : refuses (add_link memory oslots valid source a l).
Proof. unfold add_link. refusing. Qed.
#[local] Hint Resolve refuses_declare_type refuses_declare_object refuses_materialize refuses_define_type refuses_add_link : refusal.

Lemma refuses_declare_all : refuses (declare_all memory grown).
Proof. unfold declare_all, declare_source, member_base. refusing. Qed.
Lemma refuses_refer_all d bases o : refuses (refer_all memory d bases o).
Proof. unfold refer_all, materialize_member, materialize_object. refusing. apply refuses_reported. sounds. Qed.
Lemma refuses_define_all d refs bases : refuses (define_all memory abi d refs bases).
Proof. unfold define_all, define_source. refusing. Qed.
Lemma refuses_link_all o objects canonical types : refuses (link_all memory o objects canonical types).
Proof. unfold link_all, add_source_links. refusing. Qed.
Lemma refuses_check f ids oids objects links cs : refuses (check_graph memory f ids oids objects links cs).
Proof. unfold check_graph, check_type, check_object, check_canonical. refusing. Qed.
#[local] Hint Resolve refuses_declare_all refuses_refer_all refuses_define_all refuses_link_all refuses_check : refusal.

Lemma refuses_build_graph : refuses (build_graph memory grown abi).
Proof. unfold build_graph. refusing. Qed.
#[local] Hint Resolve refuses_build_graph refuses_reserve_rebuild refuses_replace refuses_prepare_publish : refusal.

Lemma refuses_prepare_g0 fs : refuses (prepare_g0 memory grown abi fs).
Proof. unfold prepare_g0, prepare_graph. refusing; apply refuses_explained; refusing. Qed.
End memory.

End GenerationRefusals.
