(* ===== verification/GenerationTheorems.v ===== *)
(** * What a full build makes of its Sources

    [prepare_g0] followed by [publish_prepared]: the calls end, and after a preparation that
    answered ok the published graph is the one that the packets of the Sources describe. *)

From S2P Require Import Prelude Probing MappedVector Construction SourceFacts SourceFactsTheorems RuntimeLayout Graph GraphLookup GraphPublication HeapTables Contribution GenerationBuilder GenerationRules GenerationTypes GenerationTables GenerationReferences GenerationDefinitions GenerationLinks GenerationStages GenerationSpec GenerationGraph ContributionCapture ContributionRebuild GenerationRefusals.

Local Open Scope N_scope.

Module GenerationTheorems.

Import SourceFacts SourceFactsTheorems HeapTables GraphPublication Contribution GenerationBuilder GenerationRules GenerationTypes GenerationReferences GenerationStages GenerationSpec GenerationGraph ContributionCapture ContributionRebuild GenerationRefusals.

(** ** Totals *)

Lemma checked_sum_bounds l : ∀ t t', checked_sum l t = Some t' → t <= t' ∧ Forall (λ n, n <= t') l.
Proof.
  induction l as [|n l IH]; intros t t'; cbn; [by intros [= ->]|]. destruct (_ <? n); [done|]. intros [H1 H2]%IH.
  split; [lia|]. constructor; [lia|done].
Qed.

Lemma totals_bounds fs : ∀ a a', length a = 6%nat → totals fs a = inr a' → Forall2 N.le a a' ∧
  Forall (λ f, ∀ i l, counts_of f !! i = Some l → ∃ n, a' !! i = Some n ∧ Forall (λ m, m <= n) l) fs.
Proof.
  induction fs as [|f fs IH]; intros a a' Hl; cbn [totals]; [intros [= ->]; split; [|by constructor]; apply Forall_Forall2_diag, Forall_true; intros; lia|].
  destruct (mapM _ _) as [a1|] eqn:E; [|done]. apply mapM_Some in E. intros Ht.
  assert (Hc : length (counts_of f) = 6%nat) by done.
  assert (Hl1 : length a1 = 6%nat) by (rewrite <-(Forall2_length _ _ _ E), length_zip_with, Hl, Hc; done).
  destruct (IH a1 a' Hl1 Ht) as [H1 H2].
  assert (Hpoint : ∀ i l t, counts_of f !! i = Some l → a !! i = Some t → ∃ t1, a1 !! i = Some t1 ∧ t <= t1 ∧ Forall (λ n, n <= t1) l).
  { intros i l t Hi Ht'. destruct (lookup_lt_is_Some_2 a1 i) as [t1 Ht1]; [apply lookup_lt_Some in Ht'; lia|]. exists t1. split; [done|].
    apply checked_sum_bounds. apply (Forall2_lookup_lr _ _ _ i (l, t) t1 E); [|done]. apply lookup_zip_with_Some. by exists l, t. }
  split.
  - apply Forall2_same_length_lookup. split; [rewrite <-(Forall2_length _ _ _ H1); lia|]. intros i t t' Hi Hi'.
    destruct (lookup_lt_is_Some_2 (counts_of f) i) as [l Hlk]; [apply lookup_lt_Some in Hi; lia|].
    destruct (Hpoint i l t Hlk Hi) as (t1 & Ht1 & Hle & _). pose proof (Forall2_lookup_lr _ _ _ i t1 t' H1 Ht1 Hi'). cbn in *. lia.
  - constructor; [|done]. intros i l Hi. destruct (lookup_lt_is_Some_2 a i) as [t Hti]; [apply lookup_lt_Some in Hi; lia|].
    destruct (Hpoint i l t Hi Hti) as (t1 & Ht1 & _ & Hall). destruct (Forall2_lookup_l _ _ _ i t1 H1 Ht1) as (t' & Ht' & Hle).
    exists t'. split; [done|]. eapply Forall_impl; [exact Hall|]. cbn. lia.
Qed.

Lemma totals_small fs a : totals fs (replicate 6 0) = inr a → default 0 (a !! 1%nat) < u32_max → default 0 (a !! 2%nat) < u32_max →
  default 0 (a !! 3%nat) < u32_max → Forall small fs.
Proof.
  intros H H1 H2 H3. destruct (totals_bounds fs (replicate 6 0) a eq_refl H) as [_ Hf]. eapply Forall_impl; [exact Hf|]. intros f Hcounts.
  destruct (Hcounts 1%nat [_] eq_refl) as (n1 & E1 & [B1 _]%Forall_cons). destruct (Hcounts 2%nat [_] eq_refl) as (n2 & E2 & [B2 _]%Forall_cons).
  destruct (Hcounts 3%nat [_] eq_refl) as (n3 & E3 & [B3 _]%Forall_cons). rewrite E1 in H1. rewrite E2 in H2. rewrite E3 in H3. cbn in H1, H2, H3.
  unfold u32_max, two32 in *. unfold small, two32, SourceFacts.size, size in *. lia.
Qed.

Lemma max_source_bound fs : Forall (λ f, source f < max_source fs + 1) fs.
Proof.
  unfold max_source. enough (H : ∀ l m, m <= foldl N.max m l ∧ Forall (λ x, x <= foldl N.max m l) l).
  { destruct (H (source <$> fs) 0) as [_ Hf]. rewrite Forall_fmap in Hf. eapply Forall_impl; [exact Hf|]. cbn. lia. }
  intros l. induction l as [|x l IH]; intros m; cbn; [split; [lia|done]|]. destruct (IH (N.max m x)) as [H1 H2]. split; [lia|]. constructor; [lia|done].
Qed.

(** ** The preparation *)

Section prepare.
Context (memory : nat → bool) (grown : N → N → N) (abi : RuntimeLayout.abi_configuration).

(** What a preparation that does not fail leaves. *)
Definition g0_prepared (fs : list source_facts) (g : Graph.prepared_graph_generation) (s : building) : Prop :=
  ∃ c, captured fs c ∧ Forall accepted fs ∧ facts_stay c s ∧ built_graph abi c g ∧ prepared (updating s) = true ∧ published (updating s) = false.

Lemma bwp_prepare_graph c s Q : facts_stay c s → items (construction (candidate (updating s))) = [] →
  (∀ g s', facts_stay c s' → built_graph abi c g → Q g s') → wp (prepare_graph memory grown abi) s Q.
Proof.
  intros Hf He HQ. unfold prepare_graph. apply bwp_bind. unfold storing. apply bwp_read. unfold id. apply bwp_bind, bwp_demand.
  intros [[Ht%N.ltb_lt Ho%N.ltb_lt]%andb_true_iff _]%andb_true_iff. destruct Hf as [v Hv] eqn:EH. rewrite Hv in Ht, Ho. cbn in Ht, Ho.
  apply bwp_rescued, (bwp_build_graph _ _ _ c); [by exists v|done|done|done|done].
Qed.

Lemma bwp_prepare_g0 fs Q : (∀ g s', g0_prepared fs g s' → Q g s') →
  wp (prepare_g0 memory grown abi fs) (Building begin_rebuild [] 0) Q.
Proof.
  intros HQ. unfold prepare_g0. apply bwp_bind. destruct (totals fs (replicate 6 0)) as [f|a] eqn:Et; [apply bwp_fail_at|]. apply bwp_ret.
  apply bwp_bind, bwp_explained, bwp_reserve_rebuild; [done|done|]. intros s1 R1 _ _ _ B1 B2 B3.
  apply bwp_bind, (bwp_replaces _ _ (max_source fs + 1)); [done|by eapply totals_small|apply max_source_bound|]. intros s2 R2 A2.
  apply bwp_bind, (bwp_prepare_graph (candidate (updating s2))); [apply facts_self|apply R2|]. intros g s3 F3 G.
  apply bwp_bind, bwp_explained. unfold prepare_publish. apply bwp_bind, bwp_read. apply bwp_if; intros _; [apply bwp_stop|].
  apply bwp_if; intros Hp; [apply bwp_stop|]. apply orb_false_iff in Hp as [_ Hp].
  apply bwp_updated. intros s4 H4. apply bwp_ret, HQ. exists (candidate (updating s2)). destruct F3 as [v Hv].
  split_and!; [apply R2|done|exists v; by rewrite H4|done|by rewrite H4|by rewrite H4].
Qed.
End prepare.

(** A Source that declares a type makes the graph have one. *)
Lemma some_type abi fs c a : captured fs c → Forall accepted fs → described abi c a → Exists (λ f, type_facts f ≠ []) fs → a_identities a ≠ [].
Proof.
  intros C A D (f & Hf & Ht)%Exists_exists. rewrite (g_identities _ _ _ D). destruct (ca_source _ _ C f Hf) as (st & Hst & S).
  rewrite Forall_forall in A. destruct (A f Hf) as [W _]. destruct (cs_types _ _ _ S) as (ts & [_ Hs] & Hts).
  destruct (type_facts f) as [|x xs] eqn:E; [done|]. inversion Hts as [|? t ? ts' _ _]; subst.
  destruct (slice (items (types c)) (state_types st)) as [|d ds] eqn:Esl; [done|].
  assert (Hd : d ∈ declarations_in c).
  { unfold declarations_in. apply list_elem_of_bind. exists st. split; [unfold source_declarations; rewrite Esl; by left|].
    unfold present_sources. apply list_elem_of_filter. split; [rewrite (cs_source _ _ _ S); apply W|].
    apply (list_elem_of_lookup_2 _ (N.to_nat (source f) - 1)). rewrite lookup_drop. pose proof (wf_source f W).
    by replace (1 + (N.to_nat (source f) - 1))%nat with (N.to_nat (source f)) by lia. }
  intros E0. assert (Hid : identity_of d ∈ firsts (identity_of <$> declarations_in c)) by (apply elem_of_firsts; by apply list_elem_of_fmap_2).
  rewrite E0 in Hid. by apply not_elem_of_nil in Hid.
Qed.

(** ** The builder *)

(** The vector holds the list, without a baseline. *)
Definition heap_holds {A} `{!Inhabited A} (v : MappedVector.mapped_vector (T := A)) (l : list A) : Prop := holds v l ∧ on_heap v.

(** The committed cache holds the contributions. *)
Record caches (k : cache) (c : storage) : Prop := Caches {
  kc_sources : heap_holds (committed_sources k) (items (sources c)); kc_types : heap_holds (committed_types k) (items (types c));
  kc_members : heap_holds (committed_members k) (items (members c)); kc_modifiers : heap_holds (committed_modifiers k) (items (modifiers c));
  kc_values : heap_holds (committed_enum_values k) (items (enum_values c)); kc_objects : heap_holds (committed_objects k) (items (objects c));
  kc_links : heap_holds (committed_links k) (items (links c)); kc_complete : provenance_complete k = true }.

Lemma prepared_cases memory grown b fs abi code b' ds : prepared_graph b = None →
  builder_prepare_g0 memory grown b fs abi = Some (code, b', ds) →
  target b' = target b ∧ contribution_cache b' = contribution_cache b ∧
  (code ≠ ok ∧ prepared_graph b' = None ∨
   code = ok ∧ ∃ g s, prepared_graph b' = Some g ∧ contributions b' = updating s ∧ builder_published b' = false ∧ g0_prepared abi fs g s).
Proof.
  intros Hnone. unfold builder_prepare_g0. destruct (_ || _) eqn:Eg.
  { intros [= <- <- <-]. split_and!; [done|done|left]. done. }
  pose proof (bwp_prepare_g0 memory grown abi fs (g0_prepared abi fs) ltac:(done)) as Hwp.
  pose proof (refuses_prepare_g0 memory grown abi fs (Building begin_rebuild [] 0)) as Hrf. unfold wp in Hwp.
  destruct (prepare_g0 _ _ _ _ _) as [g s|c s|s|]; [| | |done]; intros [= <- <- <-]; split_and!; try done.
  - right. split; [done|]. by exists g, s.
  - left. split; [by eapply Hrf|done].
  - by left.
Qed.

Lemma published_cache k u c : facts_stay c (Building u [] 0) → prepared u = true → published u = false → caches (publish_rebuild k u).1 c.
Proof.
  intros [v Hv] Hp Hn. cbn in Hv. unfold publish_rebuild. rewrite Hp, Hn. cbn. rewrite Hv. cbn. split; try done; exact (swap_in_holds _ _).
Qed.

(** What publication after ok puts into the cache. *)
Lemma published_contributions memory grown b fs abi b' ds : prepared_graph b = None → builder_prepare_g0 memory grown b fs abi = Some (ok, b', ds) →
  ∃ c, captured fs c ∧ Forall accepted fs ∧ caches (contribution_cache (builder_publish b')) c.
Proof.
  intros Hnone Hprep. destruct (prepared_cases _ _ _ _ _ _ _ _ Hnone Hprep) as (_ & _ & [[? _]|(_ & g & s & Eg & Es & Ep & Hg)]); [done|].
  destruct Hg as (c & C & A & F & _ & Hp & Hn). exists c. split_and!; [done..|]. unfold builder_publish. rewrite Eg, Ep.
  destruct (publish_rebuild _ _) as [k u] eqn:Ek. cbn [contribution_cache].
  replace k with (publish_rebuild (contribution_cache b') (contributions b')).1 by (by rewrite Ek). rewrite Es.
  apply published_cache; [|done|done]. destruct F as [v Hv]. by exists v.
Qed.

(** C4: after a full preparation that answered ok, for Sources that declare a type, publication
    puts a graph in place that the packets of the Sources describe, on the heap, with every index
    exact, and the cache holds the contributions it was made of. *)
Theorem g0_builds_graph memory grown b fs abi b' ds : prepared_graph b = None → Exists (λ f, type_facts f ≠ []) fs →
  builder_prepare_g0 memory grown b fs abi = Some (ok, b', ds) →
  Forall accepted fs ∧ ∃ c a, captured fs c ∧ described abi c a ∧ coherent a ∧
    represents (target (builder_publish b')) a ∧ heap_graph (target (builder_publish b')) ∧
    caches (contribution_cache (builder_publish b')) c.
Proof.
  intros Hnone Htypes Hprep. destruct (prepared_cases _ _ _ _ _ _ _ _ Hnone Hprep) as (_ & _ & [[? _]|(_ & g & s & Eg & Es & Ep & Hg)]); [done|].
  destruct Hg as (c & C & A & F & (a & D & K & G) & Hp & Hn). split; [done|]. exists c, a. split_and!; [done..| | |].
  all: unfold builder_publish; rewrite Eg, Ep; destruct (publish_rebuild _ _) as [k u] eqn:Ek; cbn [target contribution_cache].
  - refine (proj1 (generation_represents _ _ _ (G _))). by eapply some_type.
  - refine (proj2 (generation_represents _ _ _ (G _))). by eapply some_type.
  - replace k with (publish_rebuild (contribution_cache b') (contributions b')).1 by (by rewrite Ek). rewrite Es.
    apply published_cache; [|done|done]. destruct F as [v Hv]. by exists v.
Qed.

(** C5: a full preparation always answers, whatever the packets and the memory; only a
    publication after ok changes the graph and the cache, and a preparation that answers anything
    else leaves nothing to publish. *)
Theorem g0_answers memory grown b fs abi : prepared_graph b = None → ∃ code b' ds,
  builder_prepare_g0 memory grown b fs abi = Some (code, b', ds) ∧ target b' = target b ∧ contribution_cache b' = contribution_cache b ∧
  (code = ok ↔ is_Some (prepared_graph b')) ∧ (code ≠ ok → builder_publish b' = b').
Proof.
  intros Hnone. destruct (builder_prepare_g0 memory grown b fs abi) as [[[code b'] ds]|] eqn:E.
  - exists code, b', ds. destruct (prepared_cases _ _ _ _ _ _ _ _ Hnone E) as (H1 & H2 & H3). split_and!; try done.
    + destruct H3 as [[H3 H4]|(H3 & g & s & H4 & _)]; rewrite H4; [|split; eauto]. split; [done|]. by intros [].
    + intros Hc. destruct H3 as [[_ H4]|[? _]]; [|done]. unfold builder_publish. by rewrite H4.
  - exfalso. unfold builder_prepare_g0 in E. destruct (_ || _); [done|].
    pose proof (bwp_prepare_g0 memory grown abi fs (λ _ _, True) ltac:(done)) as Hwp. unfold wp in Hwp. by destruct (prepare_g0 _ _ _ _ _).
Qed.

(** ** The references a build hands out *)

(** The types that [refer_all] makes references to, each with the handle of its base: those of
    the members, then those of the objects; and the references it answers, in the same order. *)
Definition asked (c : storage) (bases : list N) (o : declared_objects) : list (contribution_type_ref * N) :=
  ((λ m : contribution_member * N, (contributed_type m.1, m.2)) <$> zip (items (members c)) bases) ++
  ((λ x : contribution_object * N, (contributed_object_type x.1, x.2)) <$> zip (items (objects c)) (object_bases o)).
Definition given (refs : list N) (entries : list object_entry) : list N := refs ++ (RuntimeLayout.object_type <$> entries).

Lemma facts_stay_self s : facts_stay (candidate (updating s)) s.
Proof. exists (construction (candidate (updating s))). by destruct (candidate (updating s)). Qed.

Lemma given_denote c d bases o refs entries r : all_referred c d bases o refs entries r →
  Forall2 (λ q ref, refers (canonical r) (items (modifiers c)) q.1 q.2 ref) (asked c bases o) (given refs entries).
Proof.
  intros [_ M O]. apply Forall2_app; [by apply Forall2_fmap_l|]. apply Forall2_fmap_l, Forall2_fmap_r.
  eapply Forall2_impl; [exact O|]. by intros ?? [? _].
Qed.

(** C18: after the stage of a build that makes the type references, every reference leads through
    the canonical types to the base its contribution named, under the modifiers it had; and two
    of them are the same number exactly when base and modifiers are the same. *)
Theorem type_references_canonical memory d bases o s refs entries r s' :
  refer_all memory d bases o s = Done (refs, entries, r) s' →
  let c := candidate (updating s) in
  Forall2 (λ q ref, denotes (canonical r) ref (base_of q.1 q.2) (wrapped (items (modifiers c)) q.1)) (asked c bases o) (given refs entries) ∧
  ∀ i j q q' ref ref', asked c bases o !! i = Some q → asked c bases o !! j = Some q' →
    given refs entries !! i = Some ref → given refs entries !! j = Some ref' →
    ref = ref' ↔ base_of q.1 q.2 = base_of q'.1 q'.2 ∧ wrapped (items (modifiers c)) q.1 = wrapped (items (modifiers c)) q'.1.
Proof.
  intros E c.
  assert (A : all_referred c d bases o refs entries r).
  { pose proof (bwp_refer_all memory c d bases o s (λ a _, all_referred c d bases o a.1.1 a.1.2 a.2) (facts_stay_self s)) as Hwp.
    unfold wp in Hwp. rewrite E in Hwp. apply Hwp. intros *. done. }
  pose proof (given_denote _ _ _ _ _ _ _ A) as F. split; [exact F|]. intros i j q q' ref ref' Hq Hq' Hr Hr'.
  pose proof (Forall2_lookup_lr _ _ _ _ _ _ F Hq Hr) as D. pose proof (Forall2_lookup_lr _ _ _ _ _ _ F Hq' Hr') as D'.
  unfold refers in D, D'. split.
  - intros <-. by destruct (denotes_functional _ _ _ _ _ _ D D') as [-> ->].
  - intros [E1 E2]. rewrite <-E1, <-E2 in D'. symmetry. eapply denotes_injective; [|exact D|exact D']. apply (ar_references _ _ _ _ _ _ _ A).
Qed.

End GenerationTheorems.
