(* ===== verification/ContributionCache.v ===== *)
(** * The contribution cache

    Models the lookups of server_engine/project/builder/source_contribution.cpp in the committed
    cache, its comparison of a packet with what is retained of the Source ([equivalent]), and the
    choice of what an incremental build replaces and removes ([collect_builder_inputs] of
    server_engine/project/project_build_orchestrator.cpp).

    A reading of a baseline-backed vector fills its caches and may lack memory, so the cache goes
    on; [m] answers the allocations by access.  The last part shows that, in the cache a full
    build leaves, [equivalent] says yes exactly to the packets that contribute the same. *)

From S2P Require Import Prelude Probing MappedVector Construction SourceFacts SourceFactsTheorems RuntimeLayout Graph GraphPublication HeapTables Contribution GenerationBuilder GenerationRules ContributionCapture ContributionRebuild GenerationTheorems.

Local Open Scope N_scope.

Module ContributionCache.

Import SourceFacts SourceFactsTheorems Contribution.
Notation memory := MappedVector.memory.

#[export] Instance construction_value_eq_dec : EqDecision Construction.construction_value.
Proof. solve_decision. Defined.

Definition with_committed_sources v (k : cache) := Cache (baseline_backed_cache k) v (committed_types k) (committed_members k)
  (committed_modifiers k) (committed_enum_values k) (committed_objects k) (committed_links k) (committed_construction k)
  (cache_statistics k) (provenance_complete k).
Definition with_committed_types v (k : cache) := Cache (baseline_backed_cache k) (committed_sources k) v (committed_members k)
  (committed_modifiers k) (committed_enum_values k) (committed_objects k) (committed_links k) (committed_construction k)
  (cache_statistics k) (provenance_complete k).
Definition with_committed_members v (k : cache) := Cache (baseline_backed_cache k) (committed_sources k) (committed_types k) v
  (committed_modifiers k) (committed_enum_values k) (committed_objects k) (committed_links k) (committed_construction k)
  (cache_statistics k) (provenance_complete k).
Definition with_committed_modifiers v (k : cache) := Cache (baseline_backed_cache k) (committed_sources k) (committed_types k)
  (committed_members k) v (committed_enum_values k) (committed_objects k) (committed_links k) (committed_construction k)
  (cache_statistics k) (provenance_complete k).
Definition with_committed_enum_values v (k : cache) := Cache (baseline_backed_cache k) (committed_sources k) (committed_types k)
  (committed_members k) (committed_modifiers k) v (committed_objects k) (committed_links k) (committed_construction k)
  (cache_statistics k) (provenance_complete k).
Definition with_committed_objects v (k : cache) := Cache (baseline_backed_cache k) (committed_sources k) (committed_types k)
  (committed_members k) (committed_modifiers k) (committed_enum_values k) v (committed_links k) (committed_construction k)
  (cache_statistics k) (provenance_complete k).
Definition with_committed_links v (k : cache) := Cache (baseline_backed_cache k) (committed_sources k) (committed_types k)
  (committed_members k) (committed_modifiers k) (committed_enum_values k) (committed_objects k) v (committed_construction k)
  (cache_statistics k) (provenance_complete k).
Definition with_committed_construction v (k : cache) := Cache (baseline_backed_cache k) (committed_sources k) (committed_types k)
  (committed_members k) (committed_modifiers k) (committed_enum_values k) (committed_objects k) (committed_links k) v
  (cache_statistics k) (provenance_complete k).

(** ** Lookups *)

Definition checked_span {A} `{!Inhabited A} (m : memory) (values : mapped_vector (T := A)) (range : source_fact_range) :
    mapped_vector (T := A) * list A :=
  if (MappedVector.size values <? begin range) || (MappedVector.size values - begin range <? count range) || (count range =? 0)
  then (values, [])
  else MappedVector.span m values (begin range) (count range).

(** A span of one vector of the cache. *)
Definition span_of {A} `{!Inhabited A} (get : cache → mapped_vector (T := A)) (set : mapped_vector (T := A) → cache → cache)
    (m : memory) (k : cache) (range : source_fact_range) : cache * list A :=
  let '(v, l) := checked_span m (get k) range in (set v k, l).

(** [state]; [None] is an access that would not end. *)
Definition state (m : memory) (k : cache) (source : N) : option (cache * option contribution_state) :=
  if (source =? 0) || (MappedVector.size (committed_sources k) <=? source) then Some (k, None)
  else
    '(v, p) ← MappedVector.at_const m (committed_sources k) source;
    let value := MappedVector.deref v p in
    Some (with_committed_sources v k, if state_source value =? source then Some value else None).

(** The spans of a Source: [m] answers for its state, [m'] for the span. *)
Definition source_span {A} `{!Inhabited A} (get : cache → mapped_vector (T := A)) (set : mapped_vector (T := A) → cache → cache)
    (range : contribution_state → source_fact_range) (m m' : memory) (k : cache) (source : N) : option (cache * list A) :=
  '(k, value) ← state m k source;
  Some (match value with None => (k, []) | Some st => span_of get set m' k (range st) end).

Definition types := source_span committed_types with_committed_types state_types.
Definition members := span_of committed_members with_committed_members.
Definition modifiers := span_of committed_modifiers with_committed_modifiers.
Definition enum_values := span_of committed_enum_values with_committed_enum_values.
Definition objects := source_span committed_objects with_committed_objects state_objects.
Definition links := source_span committed_links with_committed_links state_links.

Definition construction (m : memory) (k : cache) (h : N) : option (cache * option construction_state) :=
  if (h =? 0) || (MappedVector.size (committed_construction k) <=? h) then Some (k, None)
  else
    '(v, p) ← MappedVector.at_const m (committed_construction k) h;
    Some (with_committed_construction v k, Some (MappedVector.deref v p)).

(** ** Comparison *)

(** A cached position is behind the base by the current one. *)
Definition same_position (base cached current : N) : bool := negb (cached <? base) && (cached - base =? current).

Definition same_modifier (cached current : source_type_modifier) : bool :=
  (modifier_code cached =? modifier_code current) && (modifier_payload cached =? modifier_payload current).

Definition same_ref (modifier_begin : N) (cached : contribution_type_ref) (current : source_type_ref) : bool :=
  (base_identity cached =? ref_identity current) && (base_intrinsic cached =? ref_intrinsic current) &&
  (count (type_modifiers cached) =? count (ref_modifiers current)) &&
  same_position modifier_begin (begin (type_modifiers cached)) (begin (ref_modifiers current)).

Definition same_member (modifier_begin : N) (cached : contribution_member) (current : source_member_fact) : bool :=
  same_ref modifier_begin (contributed_type cached) (member_type current) &&
  (contributed_access cached =? member_visibility current) &&
  bool_decide (contributed_construction cached = member_construction current) && (contributed_name cached =? member_name current).

Definition same_enum_value (cached : contribution_enum_value) (current : source_enum_value_fact) : bool :=
  (value_intrinsic cached =? enum_value_intrinsic current) && (value_bits cached =? enum_value_bits current) &&
  (contributed_value_name cached =? enum_value_name current).

Definition same_object (modifier_begin : N) (cached : contribution_object) (current : source_object_fact) : bool :=
  (contributed_object cached =? object_identity current) && same_ref modifier_begin (contributed_object_type cached) (object_type_ref current) &&
  (contributed_flags cached =? object_construction_flags current).

Definition same_endpoint (cached current : source_object_endpoint_fact) : bool :=
  (endpoint_object cached =? endpoint_object current) && (endpoint_member cached =? endpoint_member current).
Definition same_link (cached : contribution_link) (current : source_link_fact) : bool :=
  same_endpoint (contributed_source cached) (link_source current) && same_endpoint (contributed_target cached) (link_target current).

Definition same_record (member_begin : N) (cached : contribution_type) (current : source_record_fact) : bool :=
  (contributed_identity cached =? record_identity current) && bool_decide (contributed_kind cached = record_contribution) &&
  (contributed_record_kind cached =? record_code current) &&
  Bool.eqb (definition cached) (record_declared current =? kind_definition) &&
  (count (definition_items cached) =? count (record_members current)) &&
  same_position member_begin (begin (definition_items cached)) (begin (record_members current)).

Definition same_enum (value_begin : N) (cached : contribution_type) (current : source_enum_fact) : bool :=
  (contributed_identity cached =? enum_identity current) && bool_decide (contributed_kind cached = enum_contribution) &&
  (explicit_underlying cached =? enum_explicit_underlying current) && Bool.eqb (enum_scoped cached) (SourceFacts.enum_scoped current) &&
  Bool.eqb (definition cached) (enum_declared current =? kind_definition) &&
  (count (definition_items cached) =? count (enum_enumerators current)) &&
  same_position value_begin (begin (definition_items cached)) (begin (enum_enumerators current)).

(** The cached types from [type_position] on; [None] is a difference. *)
Definition compare_next (same : contribution_type → bool) (cached : list contribution_type) : option (list contribution_type) :=
  match cached with t :: rest => if same t then Some rest else None | [] => None end.

Fixpoint compare_all {A} (same : contribution_type → A → bool) (currents : list A) (cached : list contribution_type) :
    option (list contribution_type) :=
  match currents with
  | [] => Some cached
  | x :: currents' => rest ← compare_next (λ t, same t x) cached; compare_all same currents' rest
  end.

Definition compare_declaration (facts : source_facts) (member_begin value_begin : N) (d : source_declaration_ref)
    (cached : list contribution_type) : option (list contribution_type) :=
  let index := declaration_index d in
  if declaration_code d =? declares_record then
    match records facts !! N.to_nat index with Some r => compare_next (λ t, same_record member_begin t r) cached | None => None end
  else if declaration_code d =? declares_enum then
    match enums facts !! N.to_nat index with Some e => compare_next (λ t, same_enum value_begin t e) cached | None => None end
  else if declaration_code d =? declares_object then (if index <? size (SourceFacts.objects facts) then Some cached else None)
  else if declaration_code d =? declares_link then (if index <? size (SourceFacts.links facts) then Some cached else None)
  else Some cached.

Fixpoint compare_declarations (facts : source_facts) (member_begin value_begin : N) (ds : list source_declaration_ref)
    (cached : list contribution_type) : option (list contribution_type) :=
  match ds with
  | [] => Some cached
  | d :: ds' => rest ← compare_declaration facts member_begin value_begin d cached; compare_declarations facts member_begin value_begin ds' rest
  end.

Definition compare_types (facts : source_facts) (member_begin value_begin : N) (cached : list contribution_type) : bool :=
  match (match declarations facts with
         | [] => rest ← compare_all (same_record member_begin) (records facts) cached; compare_all (same_enum value_begin) (enums facts) rest
         | ds => compare_declarations facts member_begin value_begin ds cached
         end) with
  | Some [] => true
  | _ => false
  end.

(** Two vectors of one size, compared index by index. *)
Definition all_same {A B} (same : A → B → bool) (cached : list A) (current : list B) : bool :=
  (size cached =? size current) && forallb (λ p, same p.1 p.2) (zip cached current).

(** The cache, and whether the packet says what is retained. *)
Definition equivalent (m : nat → memory) (k : cache) (facts : source_facts) : option (cache * bool) :=
  '(k, value) ← state (m 0%nat) k (source facts);
  match value with
  | None => Some (k, false)
  | Some st =>
      '(k, cached_types) ← types (m 1%nat) (m 2%nat) k (source facts);
      let '(k, cached_members) := members (m 3%nat) k (state_members st) in
      let '(k, cached_modifiers) := modifiers (m 4%nat) k (state_modifiers st) in
      let '(k, cached_enum_values) := enum_values (m 5%nat) k (state_enum_values st) in
      '(k, cached_objects) ← objects (m 6%nat) (m 7%nat) k (source facts);
      '(k, cached_links) ← links (m 8%nat) (m 9%nat) k (source facts);
      Some (k, all_same same_modifier cached_modifiers (SourceFacts.modifiers facts) &&
        all_same (same_member (begin (state_modifiers st))) cached_members (SourceFacts.members facts) &&
        all_same same_enum_value cached_enum_values (SourceFacts.enum_values facts) &&
        all_same (same_object (begin (state_modifiers st))) cached_objects (SourceFacts.objects facts) &&
        all_same same_link cached_links (SourceFacts.links facts) &&
        compare_types facts (begin (state_members st)) (begin (state_enum_values st)) cached_types)
  end.

(** ** The inputs of an incremental build *)

(** An entry of the front end: a Source that is gone, or its packet if it was parsed. *)
Record frontend_entry : Type := FrontendEntry { entry_source : N; entry_parsed : option source_facts; entry_removed : bool }.

(** The status, the cache, the replacements and the removals so far. *)
Fixpoint collect_entries (m : nat → nat → memory) (k : cache) (entries : list frontend_entry) (replacements : list source_facts)
    (removals : list N) : option (status_code * cache * list source_facts * list N) :=
  match entries with
  | [] => Some (ok, k, replacements, removals)
  | e :: entries' =>
      let m' i := m (S i) in
      if entry_removed e then
        '(k, value) ← state (m 0%nat 0%nat) k (entry_source e);
        collect_entries m' k entries' replacements (match value with Some _ => removals ++ [entry_source e] | None => removals end)
      else
        match entry_parsed e with
        | None => Some (invalid_argument, k, replacements, removals)
        | Some facts =>
            '(k, same) ← equivalent (m 0%nat) k facts;
            collect_entries m' k entries' (if (same : bool) then replacements else replacements ++ [facts]) removals
        end
  end.

(** [reserved] is that both reservations find memory. *)
Definition collect_builder_inputs (reserved : bool) (m : nat → nat → memory) (k : cache) (entries : list frontend_entry) :
    option (status_code * cache * list source_facts * list N) :=
  if reserved then collect_entries m k entries [] [] else Some (not_available, k, [], []).

End ContributionCache.
