(* ===== verification/ContributionCacheTheorems.v ===== *)
(** * What the contribution cache answers

    In the cache a full build leaves, [equivalent] says yes exactly to the packets from which would
    be captured what was captured from their Source, and [collect_builder_inputs] chooses exactly
    the others.  Base classes are not captured, because a build refuses them: for packets that a
    build accepts this is all that they contribute, and where nothing is chosen the graph in place
    is the one the new packets describe; [added_bases_unseen] shows what happens to the others. *)

From S2P Require Import Prelude Probing MappedVector Construction SourceFacts SourceFactsTheorems RuntimeLayout Graph GraphPublication HeapTables Contribution GenerationBuilder GenerationRules ContributionCapture ContributionRebuild GenerationTheorems ContributionCache.

Local Open Scope N_scope.

Module ContributionCacheTheorems.

Import SourceFacts SourceFactsTheorems HeapTables GraphPublication Contribution GenerationBuilder ContributionCapture ContributionRebuild GenerationTheorems ContributionCache.

(** ** Reading without a baseline *)

Section heap.
Context {A : Type} `{!Inhabited A}.
Implicit Types v : MappedVector.mapped_vector (T := A).

Lemma heap_local v l : heap_holds v l → MappedVector.local v = l ∧ MappedVector.baseline_count v = 0 ∧ MappedVector.size v = size l.
Proof.
  intros [H [Hb _]]. split_and!; [|done|apply (h_size _ _ H)]. apply list_eq. intros i.
  rewrite <-(Nat2N.id i), <-(h_contents _ _ H), MappedVector.contents_local by lia. by rewrite Hb, N.sub_0_r.
Qed.

Lemma checked_span_heap m v l r vs : heap_holds v l → arena_slice l r vs → checked_span m v r = (v, vs).
Proof.
  intros (Hl & Hb & Hs)%heap_local [Hr Hv]. unfold range_in in Hr. apply andb_true_iff in Hr as [H1%N.leb_le H2%N.leb_le].
  unfold checked_span. rewrite slice_section in Hv. unfold section in Hv. unfold SourceFacts.size, size in *.
  destruct (N.eqb_spec (count r) 0) as [E|E]; [rewrite orb_true_r, <-Hv, E; done|].
  rewrite orb_false_r. unfold MappedVector.span. rewrite (proj2 (N.eqb_neq _ _) E), Hs, (proj2 (N.ltb_ge _ (begin r)) H1), (proj2 (N.ltb_ge _ (count r)) H2).
  cbn [orb]. rewrite Hb, (proj2 (N.leb_le 0 (begin r)) ltac:(lia)), Hl, N.sub_0_r. by rewrite Hv.
Qed.
End heap.

Section cache.
Context (k : cache) (c : storage) (K : caches k c).

(** The state of a Source in the arena. *)
Definition filed (source : N) : option contribution_state :=
  if source =? 0 then None
  else st ← items (sources c) !! N.to_nat source; if state_source st =? source then Some st else None.

Lemma state_heap m source : state m k source = Some (k, filed source).
Proof.
  destruct (heap_local _ _ (kc_sources _ _ K)) as (Hl & Hb & Hs). unfold state, filed. destruct (N.eqb_spec source 0) as [E|E]; [done|]. cbn [orb].
  rewrite Hs. destruct (N.leb_spec (size (items (sources c))) source) as [Hle|Hlt].
  { rewrite lookup_ge_None_2 by (unfold size in Hle; lia). done. }
  unfold MappedVector.at_const. rewrite Hb, (proj2 (N.leb_le 0 source) ltac:(lia)). cbn. rewrite N.sub_0_r, Hl.
  destruct (lookup_lt_is_Some_2 (items (sources c)) (N.to_nat source)) as [st Hst]; [unfold size in Hlt; lia|]. rewrite Hst. cbn. by destruct k.
Qed.

Lemma span_heap {A} `{!Inhabited A} (get : cache → MappedVector.mapped_vector (T := A)) set m l r vs :
  heap_holds (get k) l → set (get k) k = k → arena_slice l r vs → span_of get set m k r = (k, vs).
Proof. intros H Hs Hr. unfold span_of. rewrite (checked_span_heap _ _ _ _ _ H Hr). by rewrite Hs. Qed.

Lemma source_span_heap {A} `{!Inhabited A} (get : cache → MappedVector.mapped_vector (T := A)) set range m m' source st l vs :
  heap_holds (get k) l → set (get k) k = k → filed source = Some st → arena_slice l (range st) vs →
  source_span get set range m m' k source = Some (k, vs).
Proof. intros H Hs Hst Hr. unfold source_span. rewrite state_heap. cbn. rewrite Hst. f_equal. by eapply span_heap. Qed.
Lemma members_heap m r vs : arena_slice (items (Contribution.members c)) r vs → members m k r = (k, vs).
Proof. intros H. apply (span_heap _ _ _ _ _ _ (kc_members _ _ K)); [by destruct k|done]. Qed.
Lemma modifiers_heap m r vs : arena_slice (items (Contribution.modifiers c)) r vs → modifiers m k r = (k, vs).
Proof. intros H. apply (span_heap _ _ _ _ _ _ (kc_modifiers _ _ K)); [by destruct k|done]. Qed.
Lemma enum_values_heap m r vs : arena_slice (items (Contribution.enum_values c)) r vs → enum_values m k r = (k, vs).
Proof. intros H. apply (span_heap _ _ _ _ _ _ (kc_values _ _ K)); [by destruct k|done]. Qed.
Lemma types_heap m m' source st vs : filed source = Some st → arena_slice (items (Contribution.types c)) (state_types st) vs → types m m' k source = Some (k, vs).
Proof. intros Hs H. apply (source_span_heap _ _ _ _ _ _ st _ _ (kc_types _ _ K)); [by destruct k|done..]. Qed.
Lemma objects_heap m m' source st vs : filed source = Some st → arena_slice (items (Contribution.objects c)) (state_objects st) vs → objects m m' k source = Some (k, vs).
Proof. intros Hs H. apply (source_span_heap _ _ _ _ _ _ st _ _ (kc_objects _ _ K)); [by destruct k|done..]. Qed.
Lemma links_heap m m' source st vs : filed source = Some st → arena_slice (items (Contribution.links c)) (state_links st) vs → links m m' k source = Some (k, vs).
Proof. intros Hs H. apply (source_span_heap _ _ _ _ _ _ st _ _ (kc_links _ _ K)); [by destruct k|done..]. Qed.
End cache.

(** ** What a packet contributes *)

(** What would be captured, apart from where its ranges come to lie. *)
Definition captures (f : source_facts) : list contribution_type * list contribution_member * list source_type_modifier *
    list contribution_enum_value * list contribution_object * list contribution_link :=
  (capture_type 0 0 <$> type_facts f, capture_member 0 <$> SourceFacts.members f, SourceFacts.modifiers f,
   captured_value <$> SourceFacts.enum_values f, capture_object 0 <$> SourceFacts.objects f, captured_link <$> SourceFacts.links f).

(** What a packet says of the graph: also which records have which bases. *)
Definition contributes (f : source_facts) : (list contribution_type * list contribution_member * list source_type_modifier *
    list contribution_enum_value * list contribution_object * list contribution_link) * (list (N * source_fact_range) * list (N * N * bool)) :=
  (captures f, ((λ r, (record_identity r, record_bases r)) <$> filter (λ r, has_bases r = true) (records f), (λ b, (SourceFacts.base_identity b, base_visibility b, base_is_virtual b)) <$> SourceFacts.bases f)).

Lemma unbased_ranges f : accepted f → (λ r, (record_identity r, record_bases r)) <$> filter (λ r, has_bases r = true) (records f) = [].
Proof.
  intros [_ Hb]. induction Hb as [|r rs Hr _ IH]; [done|]. rewrite filter_cons, decide_False by (by rewrite Hr). exact IH.
Qed.

Lemma unbased_arena f : accepted f → SourceFacts.bases f = [].
Proof.
  intros [W Hb]. destruct (wf_bases_owned f W) as [_ Hn]. destruct (SourceFacts.bases f) as [|x l]; [done|].
  assert (Hz : sumN count (record_bases <$> records f) = 0).
  { clear Hn. induction Hb as [|r rs Hr _ IH]; [done|]. unfold has_bases in Hr. apply negb_false_iff, N.eqb_eq in Hr.
    cbn. rewrite Hr. exact IH. }
  rewrite Hz in Hn. unfold SourceFacts.size in Hn. cbn in Hn. lia.
Qed.

(** Packets without bases contribute what is captured. *)
Lemma accepted_contributes f g : accepted f → accepted g → contributes f = contributes g ↔ captures f = captures g.
Proof.
  intros Af Ag. unfold contributes. rewrite !unbased_ranges, !unbased_arena by done. split; [intros E; exact (f_equal fst E)|by intros ->].
Qed.

(** Both sides name the same fields. *)
Ltac same_fields := rewrite ?andb_true_iff, ?N.eqb_eq, ?bool_decide_eq_true, ?eqb_true_iff; naive_solver lia.

Lemma same_position_iff base b b' : same_position base (base + b) b' = true ↔ b = b'.
Proof. unfold same_position. rewrite andb_true_iff, negb_true_iff, N.ltb_ge, N.eqb_eq. lia. Qed.

Lemma same_modifier_iff x y : same_modifier x y = true ↔ x = y.
Proof. unfold same_modifier. destruct x, y; cbn. same_fields. Qed.

Lemma same_ref_iff b x y : same_ref b (capture_ref b x) y = true ↔ capture_ref 0 x = capture_ref 0 y.
Proof.
  unfold same_ref, capture_ref. destruct x as [i t [xb xc] xs], y as [i' t' [yb yc] ys]. cbn [base_identity base_intrinsic type_modifiers count begin
    ref_identity ref_intrinsic ref_modifiers]. rewrite !andb_true_iff, same_position_iff, !N.eqb_eq. split; [intros [[[-> ->] ->] ->]; done|intros [= -> H -> ->]; lia].
Qed.

Lemma same_member_iff b x y : same_member b (capture_member b x) y = true ↔ capture_member 0 x = capture_member 0 y.
Proof.
  unfold same_member, capture_member. cbn [contributed_type contributed_access contributed_construction contributed_name].
  rewrite !andb_true_iff, same_ref_iff, !N.eqb_eq, bool_decide_eq_true. split; [intros [[[H1 H2] H3] H4]; by f_equal|].
  intros H. split_and!; [exact (f_equal contributed_type H)|exact (f_equal contributed_access H)|exact (f_equal contributed_construction H)|exact (f_equal contributed_name H)].
Qed.

Lemma same_enum_value_iff x y : same_enum_value (captured_value x) y = true ↔ captured_value x = captured_value y.
Proof.
  unfold same_enum_value, captured_value. cbn [value_intrinsic value_bits contributed_value_name].
  rewrite !andb_true_iff, !N.eqb_eq. split; [intros [[-> ->] ->]; done|by intros [= -> -> ->]].
Qed.

Lemma same_object_iff b x y : same_object b (capture_object b x) y = true ↔ capture_object 0 x = capture_object 0 y.
Proof.
  unfold same_object, capture_object. cbn [contributed_object contributed_object_type contributed_flags].
  rewrite !andb_true_iff, same_ref_iff, !N.eqb_eq. split; [intros [[H1 H2] H3]; by f_equal|].
  intros H. split_and!; [exact (f_equal contributed_object H)|exact (f_equal contributed_object_type H)|exact (f_equal contributed_flags H)].
Qed.

Lemma same_link_iff x y : same_link (captured_link x) y = true ↔ captured_link x = captured_link y.
Proof.
  unfold same_link, same_endpoint, captured_link. destruct x as [[] [] ?], y as [[] [] ?]. cbn. rewrite !andb_true_iff, !N.eqb_eq.
  split; [intros [[-> ->] [-> ->]]; done|by intros [= -> -> -> ->]].
Qed.

Lemma all_same_cons {A B} (same : A → B → bool) x y l l' : all_same same (x :: l) (y :: l') = same x y && all_same same l l'.
Proof.
  unfold all_same. cbn [zip zip_with forallb fst snd]. rewrite andb_assoc, (andb_comm _ (same x y)), <-andb_assoc. do 2 f_equal.
  apply eq_true_iff_eq. rewrite !N.eqb_eq. unfold SourceFacts.size. cbn. lia.
Qed.

Lemma all_same_iff {A B C} (g : B → A) (g' : B → C) same (xs ys : list B) : (∀ x y, same (g x) y = true ↔ g' x = g' y) →
  all_same same (g <$> xs) ys = true ↔ g' <$> xs = g' <$> ys.
Proof.
  intros H. revert ys. induction xs as [|x xs IH]; intros [|y ys]; [done..|]. rewrite !fmap_cons, all_same_cons, andb_true_iff, H, IH.
  split; [by intros [-> ->]|by intros [= -> ->]].
Qed.

(** ** The types *)

Section types.
Context (mb vb : N).

Definition same_type (t : contribution_type) (x : source_record_fact + source_enum_fact) : bool :=
  match x with inl r => same_record mb t r | inr e => same_enum vb t e end.

Lemma flag_eq (a b : bool) : (if a then 1 else 0) = (if b then 1 else 0) ↔ a = b.
Proof. destruct a, b; naive_solver. Qed.
Lemma flags_eq (a b a' b' : bool) : N.lor (if a then 1 else 0) (if b then 2 else 0) = N.lor (if a' then 1 else 0) (if b' then 2 else 0) ↔ a = a' ∧ b = b'.
Proof. destruct a, b, a', b'; cbn; naive_solver. Qed.

Lemma same_type_iff x y : same_type (capture_type mb vb x) y = true ↔ capture_type 0 0 x = capture_type 0 0 y.
Proof.
  destruct x as [r|e], y as [r'|e']; cbn [same_type capture_type]; unfold same_record, same_enum; cbn [contributed_identity definition_items
    explicit_underlying contributed_record_kind contributed_kind begin count].
  - rewrite !andb_true_iff, same_position_iff, !N.eqb_eq, bool_decide_eq_true, eqb_true_iff.
    assert (Hd : definition (capture_type mb vb (inl r)) = (record_declared r =? kind_definition)) by (unfold definition; cbn; by destruct (record_declared r =? kind_definition)).
    cbn [capture_type] in Hd. rewrite Hd. split.
    + intros [[[[[H1 _] H3] H4] H5] H6]. by rewrite H1, H3, H4, H5, H6.
    + intros [= H1 H2 H3 H4 H5]. rewrite flag_eq in H5. split_and!; try done; lia.
  - split; [|done]. rewrite !andb_true_iff, bool_decide_eq_true. by intros [[[[[[_ ?] _] _] _] _] _].
  - split; [|done]. rewrite !andb_true_iff, bool_decide_eq_true. by intros [[[[[_ ?] _] _] _] _].
  - rewrite !andb_true_iff, same_position_iff, !N.eqb_eq, bool_decide_eq_true, !eqb_true_iff.
    set (d := enum_declared e =? kind_definition). set (d' := enum_declared e' =? kind_definition).
    assert (Hf : definition (capture_type mb vb (inr e)) = d ∧ enum_scoped (capture_type mb vb (inr e)) = SourceFacts.enum_scoped e).
    { unfold definition, enum_scoped. cbn. fold d. by destruct d, (SourceFacts.enum_scoped e). }
    cbn [capture_type] in Hf. fold d in Hf. destruct Hf as [-> ->]. split.
    + intros [[[[[[H1 _] H3] H4] H5] H6] H7]. by rewrite H1, H3, H4, H5, H6, H7.
    + intros H. pose proof (f_equal contribution_flags H) as Hf. cbn in Hf. rewrite flags_eq in Hf. destruct Hf as [Hf1 Hf2].
      injection H as H1 H2 H3 H4 _. split_and!; try done.
Qed.

(** The comparison of the types in sequence. *)
Lemma compare_all_app {A} same (l l' : list A) cached : compare_all same (l ++ l') cached = compare_all same l cached ≫= compare_all same l'.
Proof. revert cached. induction l as [|x l IH]; intros cached; cbn; [done|]. destruct (compare_next _ cached); cbn; [apply IH|done]. Qed.

Lemma compare_all_fmap {A B} (g : A → B) same l cached : compare_all same (g <$> l) cached = compare_all (λ t x, same t (g x)) l cached.
Proof. revert cached. induction l as [|x l IH]; intros cached; cbn; [done|]. destruct (compare_next _ cached); cbn; [apply IH|done]. Qed.

Lemma compare_all_iff xs ys : compare_all same_type ys (capture_type mb vb <$> xs) = Some [] ↔ capture_type 0 0 <$> xs = capture_type 0 0 <$> ys.
Proof.
  revert xs. induction ys as [|y ys IH]; intros [|x xs]; [done..|]. rewrite !fmap_cons. cbn [compare_all compare_next].
  destruct (same_type (capture_type mb vb x) y) eqn:E; cbn [mbind option_bind option.option_bind].
  - rewrite IH. apply same_type_iff in E. rewrite E. split; [by intros ->|by intros [= ->]].
  - split; [done|]. intros [= H _]. apply same_type_iff in H. by rewrite H in E.
Qed.

(** *** A packet against the cached types *)

Lemma entries_index {A} kind span_of (l : list A) ds d : SourceFactsTheorems.entries kind ds = listed span_of l → d ∈ ds → declaration_code d = kind →
  (N.to_nat (declaration_index d) < length l)%nat.
Proof.
  intros E Hd Hk. assert (Hin : (declaration_index d, declaration_span d) ∈ listed span_of l).
  { rewrite <-E. unfold SourceFactsTheorems.entries. apply (list_elem_of_fmap_2 (λ d, (declaration_index d, declaration_span d))). by apply list_elem_of_filter. }
  unfold listed in Hin. apply list_elem_of_lookup in Hin as [i Hi]. apply list_lookup_imap_Some in Hi as (x & Hx & [= E1 _]).
  apply lookup_lt_Some in Hx. rewrite E1. lia.
Qed.

Lemma index_fits {A} (l : list A) i : (N.to_nat i < length l)%nat → i <? SourceFacts.size l = true.
Proof. intros H. apply N.ltb_lt. unfold SourceFacts.size. lia. Qed.

Lemma compare_declaration_eq g d cached : declarations_ok g → d ∈ declarations g →
  compare_declaration g mb vb d cached = compare_all same_type (option_list (declared_type g d)) cached.
Proof.
  intros D Hd. unfold compare_declaration, declared_type. cbv zeta.
  pose proof (entries_index declares_object _ _ _ d (SourceFactsTheorems.declared_objects _ D) Hd) as Ho.
  pose proof (entries_index declares_link _ _ _ d (SourceFactsTheorems.declared_links _ D) Hd) as Hl.
  pose proof (entries_index declares_record _ _ _ d (SourceFactsTheorems.declared_records _ D) Hd) as Hr.
  pose proof (entries_index declares_enum _ _ _ d (SourceFactsTheorems.declared_enums _ D) Hd) as He.
  destruct (N.eqb_spec (declaration_code d) declares_record) as [E1|_].
  { destruct (lookup_lt_is_Some_2 _ _ (Hr E1)) as [r ->]. cbn. by destruct (compare_next _ cached). }
  destruct (N.eqb_spec (declaration_code d) declares_enum) as [E2|_].
  { destruct (lookup_lt_is_Some_2 _ _ (He E2)) as [e ->]. cbn. by destruct (compare_next _ cached). }
  destruct (N.eqb_spec (declaration_code d) declares_object) as [E3|_]; [by rewrite (index_fits _ _ (Ho E3))|].
  destruct (N.eqb_spec (declaration_code d) declares_link) as [E4|_]; [by rewrite (index_fits _ _ (Hl E4))|done].
Qed.

Lemma omap_option_list {A B} (g : A → option B) x l : omap g (x :: l) = option_list (g x) ++ omap g l.
Proof. cbn. by destruct (g x). Qed.

Lemma compare_declarations_eq g ds : declarations_ok g → Forall (λ d, d ∈ declarations g) ds → ∀ cached,
  compare_declarations g mb vb ds cached = compare_all same_type (omap (declared_type g) ds) cached.
Proof.
  intros D. induction 1 as [|d ds Hd _ IH]; intros cached; [done|]. rewrite omap_option_list, compare_all_app. cbn [compare_declarations].
  rewrite (compare_declaration_eq g d cached D Hd). destruct (compare_all _ _ _) as [rest|]; [apply IH|done].
Qed.

Lemma compare_types_iff g f : well_formed g → compare_types g mb vb (capture_type mb vb <$> type_facts f) = true ↔
  capture_type 0 0 <$> type_facts f = capture_type 0 0 <$> type_facts g.
Proof.
  intros W. rewrite <-compare_all_iff. unfold compare_types. set (cached := capture_type mb vb <$> type_facts f).
  assert (E : (match declarations g with
      | [] => rest ← compare_all (same_record mb) (records g) cached; compare_all (same_enum vb) (enums g) rest
      | ds => compare_declarations g mb vb ds cached end) = compare_all same_type (type_facts g) cached).
  { unfold type_facts. pose proof (wf_declarations g W) as D. destruct (declarations g) as [|d ds] eqn:Ed.
    - rewrite compare_all_app, (compare_all_fmap inl). cbn [same_type]. destruct (compare_all _ (records g) cached) as [rest|]; [|done].
      cbn. by rewrite compare_all_fmap.
    - apply compare_declarations_eq; [by apply D|]. rewrite <-Ed. by apply Forall_forall. }
  rewrite E. clear E. destruct (compare_all _ (type_facts g) cached) as [[|t l]|]; split; intros H; done || discriminate H.
Qed.
End types.

(** ** The comparison *)

#[export] Instance source_fact_range_eq_dec : EqDecision source_fact_range.
Proof. solve_decision. Defined.
#[export] Instance contribution_type_ref_eq_dec : EqDecision contribution_type_ref.
Proof. solve_decision. Defined.
#[export] Instance contribution_type_eq_dec : EqDecision contribution_type.
Proof. solve_decision. Defined.
#[export] Instance contribution_member_eq_dec : EqDecision contribution_member.
Proof. solve_decision. Defined.
#[export] Instance source_type_modifier_eq_dec : EqDecision source_type_modifier.
Proof. solve_decision. Defined.
#[export] Instance contribution_enum_value_eq_dec : EqDecision contribution_enum_value.
Proof. solve_decision. Defined.
#[export] Instance contribution_object_eq_dec : EqDecision contribution_object.
Proof. solve_decision. Defined.
#[export] Instance source_object_endpoint_fact_eq_dec : EqDecision source_object_endpoint_fact.
Proof. solve_decision. Defined.
#[export] Instance contribution_link_eq_dec : EqDecision contribution_link.
Proof. solve_decision. Defined.

Definition agrees_with (g f : source_facts) : Prop := source f = source g ∧ contributes f = contributes g.

(** Some packet of the Source contributed the same. *)
Definition unchanged (fs : list source_facts) (g : source_facts) : Prop := Exists (agrees_with g) fs.
#[export] Instance agrees_with_dec g f : Decision (agrees_with g f).
Proof. unfold agrees_with. apply _. Defined.
#[export] Instance unchanged_dec fs g : Decision (unchanged fs g).
Proof. unfold unchanged. apply _. Defined.

Lemma source_unique fs f f' : NoDup (source <$> fs) → f ∈ fs → f' ∈ fs → source f = source f' → f = f'.
Proof.
  intros Hn [i Hi]%list_elem_of_lookup [j Hj]%list_elem_of_lookup E.
  assert (i = j) as ->; [|congruence]. eapply (NoDup_lookup _ _ _ (source f) Hn); rewrite list_lookup_fmap; [by rewrite Hi|by rewrite Hj, E].
Qed.

Section compared.
Context (fs : list source_facts) (c : storage) (k : cache) (C : retained fs c) (K : caches k c) (W : Forall well_formed fs).

Lemma filed_source f : f ∈ fs → ∃ st, filed c (source f) = Some st ∧ captured_source c f st.
Proof.
  intros Hf. destruct (re_source _ _ C f Hf) as (st & Hst & S). exists st. split; [|done]. unfold filed. rewrite Hst. cbn.
  rewrite (cs_source _ _ _ S), N.eqb_refl. rewrite Forall_forall in W. by rewrite (proj2 (N.eqb_neq _ _) (wf_source f (W f Hf))).
Qed.

Lemma filed_unknown source0 : source0 ∉ source <$> fs → filed c source0 = None.
Proof.
  intros Hs. unfold filed. destruct (N.eqb_spec source0 0) as [|H0]; [done|]. destruct (items (sources c) !! _) as [st|] eqn:E; [|done]. cbn.
  destruct (N.eqb_spec (state_source st) source0) as [Es|]; [|done]. destruct (re_vacant _ _ C _ _ E) as [?|[_ Hin]]; [by rewrite Es in *|].
  by rewrite N2Nat.id in Hin.
Qed.

Lemma equivalent_filed m f g : f ∈ fs → well_formed g → source g = source f →
  ∃ b, equivalent m k g = Some (k, b) ∧ (b = true ↔ captures f = captures g).
Proof.
  intros Hf Wg Es. destruct (filed_source f Hf) as (st & Hst & S). destruct (cs_kept _ _ _ S) as [K1 K2 K3 K4 K5 K6]. rewrite <-Es in Hst.
  unfold equivalent. rewrite (state_heap k c K). cbn [mbind option_bind]. rewrite Hst.
  rewrite (types_heap k c K _ _ _ st _ Hst K1). cbn [mbind option_bind].
  rewrite (members_heap k c K _ _ _ K2), (modifiers_heap k c K _ _ _ K3), (enum_values_heap k c K _ _ _ K4).
  rewrite (objects_heap k c K _ _ _ st _ Hst K5). cbn [mbind option_bind].
  rewrite (links_heap k c K _ _ _ st _ Hst K6). cbn [mbind option_bind].
  eexists. split; [done|]. rewrite !andb_true_iff, (compare_types_iff _ _ g f Wg).
  rewrite (all_same_iff _ _ _ _ _ (same_member_iff _)), (all_same_iff _ _ _ _ _ same_enum_value_iff),
    (all_same_iff _ _ _ _ _ (same_object_iff _)), (all_same_iff _ _ _ _ _ same_link_iff).
  pose proof (all_same_iff id id same_modifier (SourceFacts.modifiers f) (SourceFacts.modifiers g) same_modifier_iff) as Hm. rewrite !list_fmap_id in Hm. rewrite Hm.
  unfold captures. split; [intros [[[[[-> ->] ->] ->] ->] ->]; done|]. intros [= -> -> -> -> -> ->]. done.
Qed.

(** The comparison does not see the bases of a packet. *)
Lemma added_bases_unseen m f g : f ∈ fs → well_formed g → source g = source f → captures f = captures g →
  equivalent m k g = Some (k, true).
Proof.
  intros Hf Wg Es E. destruct (equivalent_filed m f g Hf Wg Es) as (b & -> & Hb). by rewrite (proj2 Hb E).
Qed.

Lemma equivalent_answers m g : Forall accepted fs → accepted g → equivalent m k g = Some (k, bool_decide (unchanged fs g)).
Proof.
  intros Afs Ag. pose proof (proj1 Ag) as Wg. rewrite Forall_forall in Afs. destruct (decide (source g ∈ source <$> fs)) as [(f & Es & Hf)%list_elem_of_fmap|Hn].
  - destruct (equivalent_filed m f g Hf Wg Es) as (b & -> & Hb). do 2 f_equal. apply eq_true_iff_eq. rewrite Hb, bool_decide_eq_true, <-accepted_contributes by auto. unfold unchanged.
    rewrite Exists_exists. split; [intros E; by exists f|]. intros (f' & Hf' & Es' & E). rewrite (source_unique fs f f' (re_once _ _ C) Hf Hf'); [done|]. by rewrite Es'.
  - unfold equivalent. rewrite (state_heap k c K). cbn [mbind option_bind]. rewrite (filed_unknown _ Hn). do 2 f_equal. symmetry. apply bool_decide_eq_false.
    unfold unchanged. rewrite Exists_exists. intros (f' & Hf' & Es' & _). apply Hn. rewrite <-Es'. by apply list_elem_of_fmap_2.
Qed.
End compared.

(** ** Packets that contribute the same *)

Lemma fmap_weaker {A B C} (g : A → B) (h : A → C) (l l' : list A) : (∀ x y, g x = g y → h x = h y) → g <$> l = g <$> l' → h <$> l = h <$> l'.
Proof. intros H. revert l'. induction l as [|x l IH]; intros [|y l']; [done..|]. rewrite !fmap_cons. intros [= E1 E2]. f_equal; [by apply H|by apply IH]. Qed.

Lemma capture_ref_base b x y : capture_ref 0 x = capture_ref 0 y → capture_ref b x = capture_ref b y.
Proof. unfold capture_ref. intros [= -> E -> ->]. by rewrite !N.add_0_l in E; rewrite E. Qed.

Lemma capture_member_base b x y : capture_member 0 x = capture_member 0 y → capture_member b x = capture_member b y.
Proof.
  intros H. unfold capture_member. rewrite (capture_ref_base b _ _ (f_equal contributed_type H)).
  f_equal; [exact (f_equal contributed_name H)|exact (f_equal contributed_access H)|exact (f_equal contributed_construction H)].
Qed.

Lemma capture_object_base b x y : capture_object 0 x = capture_object 0 y → capture_object b x = capture_object b y.
Proof.
  intros H. unfold capture_object. rewrite (capture_ref_base b _ _ (f_equal contributed_object_type H)).
  f_equal; [exact (f_equal contributed_object H)|exact (f_equal contributed_flags H)].
Qed.

Lemma capture_type_base mb vb x y : capture_type 0 0 x = capture_type 0 0 y → capture_type mb vb x = capture_type mb vb y.
Proof.
  destruct x as [r|e], y as [r'|e']; unfold capture_type; [|done..|].
  - intros [= E1 E2 E3 E4 E5]. rewrite !N.add_0_l in E2. by rewrite E1, E2, E3, E4, E5.
  - intros [= E1 E2 E3 E4 E5]. rewrite !N.add_0_l in E2. by rewrite E1, E2, E3, E4, E5.
Qed.

Lemma kept_agrees c f g st : captures f = captures g → kept c f st → kept c g st.
Proof.
  unfold captures. intros E [K1 K2 K3 K4 K5 K6]. injection E as E1 E2 E3 E4 E5 E6. split.
  - by rewrite <-(fmap_weaker _ _ _ _ (capture_type_base _ _) E1).
  - by rewrite <-(fmap_weaker _ _ _ _ (capture_member_base _) E2).
  - by rewrite <-E3.
  - by rewrite <-E4.
  - by rewrite <-(fmap_weaker _ _ _ _ (capture_object_base _) E5).
  - by rewrite <-E6.
Qed.

(** The contributions of the old packets are those of the new ones. *)
Lemma retained_agrees fs gs c : source <$> fs ≡ₚ source <$> gs → Forall well_formed gs → Forall (unchanged fs) gs → retained fs c → retained gs c.
Proof.
  intros Hp Hw Hu [C1 C2 C3]. rewrite Forall_forall in Hw, Hu. split.
  - by rewrite <-Hp.
  - intros g Hg. destruct (proj1 (Exists_exists _ _) (Hu g Hg)) as (f & Hf & E1 & E2). destruct (C2 f Hf) as (st & Hst & S).
    exists st. rewrite <-E1. split; [done|]. apply kept_captured; [|by apply Hw|by rewrite (cs_source _ _ _ S)]. apply (kept_agrees _ f); [exact (f_equal fst E2)|apply S].
  - intros i st Hi. rewrite <-Hp. by apply C3.
Qed.

(** ** The inputs of an incremental build *)

(** The packets and the removed Sources among the entries, in their order. *)
Definition packets (entries : list frontend_entry) : list source_facts := omap (λ e, if entry_removed e then None else entry_parsed e) entries.
Definition removed_sources (entries : list frontend_entry) : list N := entry_source <$> filter (λ e, entry_removed e = true) entries.

(** Every Source that is not removed was parsed, to a packet that a build accepts: valid, and
    no record of it with bases. *)
Definition parsed_entry (e : frontend_entry) : Prop := entry_removed e = false → ∃ g, entry_parsed e = Some g ∧ accepted g.

Lemma accepted_all_well_formed fs : Forall accepted fs → Forall well_formed fs.
Proof. intros A. eapply Forall_impl; [exact A|]. by intros f []. Qed.

Section inputs.
Context (fs : list source_facts) (c : storage) (k : cache) (C : retained fs c) (K : caches k c) (A : Forall accepted fs).

Let W : Forall well_formed fs := accepted_all_well_formed fs A.

Lemma collect_entries_spec entries : ∀ m rs xs, Forall parsed_entry entries → collect_entries m k entries rs xs =
  Some (ok, k, rs ++ filter (λ g, ¬ unchanged fs g) (packets entries), xs ++ filter (λ s, s ∈ source <$> fs) (removed_sources entries)).
Proof.
  induction entries as [|e entries IH]; intros m rs xs; [intros _; cbn; by rewrite !app_nil_r|]. intros [He Hall]%Forall_cons. cbn [collect_entries].
  unfold packets, removed_sources. cbn [omap list_omap]. rewrite filter_cons. destruct (entry_removed e) eqn:Er.
  - rewrite (state_heap k c K). cbn [mbind option_bind]. rewrite decide_True by done. rewrite fmap_cons, filter_cons, (IH (λ i, m (S i))) by done.
    destruct (decide (entry_source e ∈ source <$> fs)) as [Hin|Hn].
    + apply list_elem_of_fmap in Hin as (f & -> & Hf). destruct (filed_source fs c C W f Hf) as (st & -> & _). by rewrite <-app_assoc.
    + by rewrite (filed_unknown fs c C _ Hn).
  - destruct (He Er) as (g & -> & Wg). rewrite (equivalent_answers fs c k C K W _ g A Wg). cbn [mbind option_bind].
    rewrite decide_False by done. rewrite filter_cons, (IH (λ i, m (S i))) by done. destruct (decide (unchanged fs g)) as [Hu|Hu].
    + rewrite bool_decide_eq_true_2 by done. by rewrite decide_False by (intros Hn; by apply Hn).
    + rewrite bool_decide_eq_false_2 by done. rewrite decide_True by done. by rewrite <-app_assoc.
Qed.

End inputs.

Lemma filter_none {A} (P : A → Prop) `{!∀ x, Decision (P x)} l : filter (λ x, ¬ P x) l = [] → Forall P l.
Proof.
  intros E. apply Forall_forall. intros x Hx. destruct (decide (P x)) as [|Hn]; [done|].
  assert (Hin : x ∈ filter (λ x, ¬ P x) l) by by apply list_elem_of_filter. rewrite E in Hin. by apply not_elem_of_nil in Hin.
Qed.

(** C6: over a cache that retains the packets of the last build, an update whose packets a build
    accepts (valid, and no record with base classes) replaces, in order, exactly the packets that no
    packet of their Source contributed the same as, bases included, and removes exactly the removed
    Sources that the build had; if the Sources are the same and nothing is replaced, what the cache
    retains is the new packets, so that the graph in place stands. *)
Theorem builder_inputs_exact fs c k m entries : retained fs c → caches k c → Forall accepted fs → Forall parsed_entry entries →
  let replacements := filter (λ g, ¬ unchanged fs g) (packets entries) in
  let removals := filter (λ s, s ∈ source <$> fs) (removed_sources entries) in
  collect_builder_inputs true m k entries = Some (ok, k, replacements, removals) ∧
  (source <$> fs ≡ₚ source <$> packets entries → replacements = [] → retained (packets entries) c).
Proof.
  intros C K A He replacements removals. split; [exact (collect_entries_spec fs c k C K A entries m [] [] He)|].
  intros Hs Hr. apply (retained_agrees fs); [done| |by apply (filter_none _ _ Hr)|done].
  apply accepted_all_well_formed.
  apply Forall_forall. intros g (e & Hin & Hg)%list_elem_of_omap. rewrite Forall_forall in He. specialize (He e Hin). unfold parsed_entry in He.
  destruct (entry_removed e); [done|]. destruct (He eq_refl) as (g' & Hg' & W'). rewrite Hg in Hg'. by injection Hg' as <-.
Qed.

End ContributionCacheTheorems.
