(* ===== verification/GenerationConstruction.v ===== *)
(** * Aggregation and underlying types

    The two calculations of the builder on their own: taking a declaration out of an aggregation
    undoes adding it, and the underlying type of an enumeration is the first that holds its values. *)

From S2P Require Import Prelude Construction SourceFacts RuntimeLayout Graph Contribution GenerationBuilder.

Local Open Scope N_scope.

Module GenerationConstruction.

Import SourceFacts Contribution GenerationBuilder.

(** ** Aggregation *)

(** What has no count has no value. *)
Record tidy (st : construction_state) : Prop := Tidy {
  ti_none : declared_count st = 0 → st = no_construction;
  ti_fixed : fixed_count st = 0 → fixed_underlying st = intrinsic_none;
  ti_definition : definition_count st = 0 → definition_type st = 0 }.

Lemma tidy_none : tidy no_construction.
Proof. done. Qed.

Lemma increment_some n m : increment_count n = Some m → m = n + 1.
Proof. unfold increment_count. destruct (_ =? _); [done|]. by intros [= <-]. Qed.
Lemma decrement_after n : decrement_count (n + 1) = Some n.
Proof. unfold decrement_count. destruct (N.eqb_spec (n + 1) 0); [lia|]. f_equal. lia. Qed.

(** The part of the state that an addition and a removal do not share is the count of declarations. *)
Definition counted (d : N) (k : contribution_type_kind) (st : construction_state) : construction_state :=
  ConstructionState d (definition_count st) (definition_type st) (struct_count st) (class_count st) (union_count st)
    (scoped_count st) (unscoped_count st) (fixed_count st) (fixed_underlying st) k.

(** What an addition leaves alone. *)
Record same_definition (st st' : construction_state) (d : N) (k : contribution_type_kind) : Prop := SameDefinition {
  sd_declared : declared_count st' = d; sd_kind : construction_kind st' = k;
  sd_count : definition_count st' = definition_count st; sd_type : definition_type st' = definition_type st }.

Lemma add_record_undone st k st' d : add_record st d k = inr st' → same_definition st st' d record_contribution ∧
  (fixed_count st' = fixed_count st ∧ fixed_underlying st' = fixed_underlying st) ∧
  ∀ n t, remove_record (with_definition n t st') k = inr (with_definition n t (counted d record_contribution st)).
Proof.
  unfold add_record. intros H. destruct (increment_count _) as [n|] eqn:En; [|done]. apply increment_some in En as ->.
  destruct (k =? 1) eqn:E1; [|destruct (k =? 2) eqn:E2]; destruct (_ || _) eqn:Eu; try done; injection H as <-;
    (split; [done|]; split; [done|]); intros m t; unfold remove_record; cbn; by rewrite ?E1, ?E2, decrement_after.
Qed.

Lemma add_enum_undone st item st' d : (fixed_count st = 0 → fixed_underlying st = intrinsic_none) → add_enum st d item = inr st' →
  same_definition st st' d enum_contribution ∧ (fixed_count st' = 0 → fixed_underlying st' = intrinsic_none) ∧
  ∀ n t, remove_enum (with_definition n t st') item = inr (with_definition n t (counted d enum_contribution st)).
Proof.
  unfold add_enum. intros Hf H. destruct (increment_count _) as [m|] eqn:Em; [|done]. apply increment_some in Em as ->.
  destruct (enum_scoped item) eqn:Es; destruct (_ || _); try done;
    (destruct (explicit_underlying item =? intrinsic_none) eqn:Eu;
      [injection H as <-; split; [done|]; split; [done|]; intros n t; unfold remove_enum; cbn; by rewrite Es, Eu, decrement_after|]);
    destruct ((fixed_count st =? 0) || (fixed_underlying st =? explicit_underlying item)) eqn:Ec; try done;
    (destruct (increment_count (fixed_count st)) as [k|] eqn:Ek; [|done]); apply increment_some in Ek as ->; injection H as <-;
    (split; [done|]); (split; [cbn; lia|]); intros n t; unfold remove_enum; cbn; rewrite Es, Eu, decrement_after;
    destruct (N.eqb_spec (fixed_count st + 1) 0); try lia; rewrite N.eqb_refl; cbn; replace (fixed_count st + 1 - 1) with (fixed_count st) by lia;
    unfold with_definition, counted; cbn; do 2 f_equal; destruct (N.eqb_spec (fixed_count st) 0) as [E0|E0]; try (by rewrite Hf);
    cbn in Ec; apply N.eqb_eq in Ec; done.
Qed.

(** C19: adding a declaration to an aggregation and taking the same one out gives the
    aggregation back, and an aggregation stays tidy. *)
Theorem aggregation_round_trip st item i st' : tidy st → add_construction st item i = inr st' →
  tidy st' ∧ remove_construction st' item i = inr st.
Proof.
  intros T H. unfold add_construction in H. destruct (negb _) eqn:Eg; [|done].
  destruct ((declared_count st =? 0) || _) eqn:Ek; [|done].
  destruct (increment_count (declared_count st)) as [d|] eqn:Ed; [|done]. apply increment_some in Ed as ->.
  assert (Hkind : declared_count st ≠ 0 → construction_kind st = contributed_kind item).
  { intros H0. apply orb_true_iff in Ek as [?%N.eqb_eq|?%bool_decide_eq_true]; done. }
  destruct (match contributed_kind item with record_contribution => add_record st (declared_count st + 1) (contributed_record_kind item)
    | enum_contribution => add_enum st (declared_count st + 1) item end) as [code|st1] eqn:E1; [done|].
  assert (H1 : same_definition st st1 (declared_count st + 1) (contributed_kind item) ∧ (fixed_count st1 = 0 → fixed_underlying st1 = intrinsic_none) ∧
    ∀ n t, match contributed_kind item with record_contribution => remove_record (with_definition n t st1) (contributed_record_kind item)
      | enum_contribution => remove_enum (with_definition n t st1) item end = inr (with_definition n t (counted (declared_count st + 1) (contributed_kind item) st))).
  { destruct (contributed_kind item); [destruct (add_record_undone _ _ _ _ E1) as (A1 & [A2 A3] & A4)|by apply add_enum_undone; [apply T|]].
    split_and!; [done| |done]. rewrite A2, A3. apply T. }
  clear E1. destruct H1 as ([S1 S2 S3 S4] & F & R).
  assert (Hback : (if declared_count st =? 0 then no_construction else counted (declared_count st) (contributed_kind item) st) = st).
  { destruct (N.eqb_spec (declared_count st) 0) as [H0|H0]; [by rewrite (ti_none _ T H0)|]. unfold counted. rewrite <-Hkind by done. by destruct st. }
  assert (Hbig : declared_count st + 1 =? 0 = false) by (apply N.eqb_neq; lia).
  destruct (definition item) eqn:Edef.
  - destruct (definition_count st1 =? 0) eqn:E0; [|by destruct (contributed_kind item)]. injection H as <-. apply N.eqb_eq in E0. split.
    + split; cbn; [rewrite S1; lia|done|done].
    + unfold remove_construction. cbn. rewrite S1, S2, Hbig, Edef, bool_decide_eq_true_2, N.eqb_refl by done. cbn.
      specialize (R 0 0). unfold with_definition in R |- *. cbn in R |- *. rewrite R. cbn. rewrite decrement_after.
      rewrite S3 in E0. f_equal. etransitivity; [|exact Hback]. destruct (declared_count st =? 0); [done|]. unfold counted.
      by rewrite E0, (ti_definition _ T E0).
  - injection H as <-. split.
    + split; [rewrite S1; lia|done|rewrite S3, S4; apply T].
    + unfold remove_construction. rewrite S1, S2, Hbig, Edef, bool_decide_eq_true_2 by done. cbn [negb orb andb].
      specialize (R (definition_count st1) (definition_type st1)). replace (with_definition _ _ st1) with st1 in R by (by destruct st1).
      rewrite R. cbn. rewrite decrement_after, S3, S4. f_equal. etransitivity; [|exact Hback]. by destruct (declared_count st =? 0).
Qed.

(** ** The underlying type of an enumeration *)

Section abi.
Context (abi : RuntimeLayout.abi_configuration).

(** The number that an enumeration value stands for. *)
Definition number (v : contribution_enum_value) : Z :=
  if intrinsic_signed (value_intrinsic v) then signed_value abi v else Z.of_N (value_bits v).

(** The types to choose from, and their ranges. *)
Definition underlying_candidates : list (RuntimeLayout.intrinsic_type * (Z * Z)) :=
  [(RuntimeLayout.signed_int, (- 2 ^ 31, 2 ^ 31 - 1)); (RuntimeLayout.unsigned_int, (0, 2 ^ 32 - 1));
   (if windows abi then RuntimeLayout.signed_long_long else RuntimeLayout.signed_long, (- 2 ^ 63, 2 ^ 63 - 1));
   (if windows abi then RuntimeLayout.unsigned_long_long else RuntimeLayout.unsigned_long, (0, 2 ^ 64 - 1))]%Z.

Definition fits (range : Z * Z) (values : list contribution_enum_value) : bool :=
  forallb (λ v, (range.1 <=? number v)%Z && (number v <=? range.2)%Z) values.

(** The first that holds every value. *)
Definition first_fitting (values : list contribution_enum_value) : status_code + RuntimeLayout.intrinsic_type :=
  match find (λ c, fits c.2 values) underlying_candidates with Some c => inr c.1 | None => inl semantic_conflict end.

Definition integral_value (v : contribution_enum_value) : Prop := intrinsic_width abi (value_intrinsic v) ≠ 0 ∧ value_bits v < two64.

Lemma int64_range b : b < two64 → (- 2 ^ 63 <= int64_of_bits b <= 2 ^ 63 - 1)%Z.
Proof. unfold int64_of_bits. intros H. destruct (N.ltb_spec b two63); unfold two63, two64 in *; lia. Qed.

Lemma signed_range v : integral_value v → (- 2 ^ 63 <= signed_value abi v <= 2 ^ 63 - 1)%Z.
Proof.
  intros [Hw Hb]. unfold signed_value. cbv zeta. destruct (_ =? 64); [by apply int64_range|].
  destruct (N.eqb_spec (intrinsic_width abi (value_intrinsic v)) 0); [done|].
  pose proof (int64_range (w64 (N.shiftl (value_bits v) (64 - intrinsic_width abi (value_intrinsic v))))) as H.
  assert (Hlt : w64 (N.shiftl (value_bits v) (64 - intrinsic_width abi (value_intrinsic v))) < two64) by apply w64_lt.
  specialize (H Hlt). rewrite Z.shiftr_div_pow2 by lia. set (x := int64_of_bits _) in *. set (k := Z.of_N _) in *.
  assert (Hk : (0 < 2 ^ k)%Z) by (apply Z.pow_pos_nonneg; lia). split.
  - apply Z.div_le_lower_bound; [done|]. nia.
  - apply Z.div_le_upper_bound; [done|]. nia.
Qed.

Lemma number_range v : integral_value v → (- 2 ^ 63 <= number v < 2 ^ 64)%Z.
Proof.
  intros H. unfold number. destruct (intrinsic_signed _); [pose proof (signed_range v H); lia|]. destruct H as [_ H]. unfold two64 in H. lia.
Qed.

(** What the accumulated range says of the numbers so far. *)
Definition ranges (r : Z * N * bool) (l : list contribution_enum_value) : Prop :=
  (∀ lo, lo <= 0 → (lo <= r.1.1 ↔ Forall (λ v, lo <= number v) l))%Z ∧
  (∀ hi, (Z.of_N r.1.2 <= Z.of_N hi ↔ Forall (λ v, number v <= Z.of_N hi) l))%Z ∧
  (r.2 = false ↔ Forall (λ v, 0 <= number v)%Z l) ∧ (r.1.1 <= 0)%Z.

Lemma widen_ranges r v l : integral_value v → ranges r l → ∃ r', widen abi r v = Some r' ∧ ranges r' (l ++ [v]).
Proof.
  intros Hv (R1 & R2 & R3 & R4). destruct r as [[mn mx] ng]. cbn in *. unfold widen. destruct (N.eqb_spec (intrinsic_width abi (value_intrinsic v)) 0); [by destruct Hv|].
  assert (Hn : number v = if intrinsic_signed (value_intrinsic v) then signed_value abi v else Z.of_N (value_bits v)) by done.
  unfold ranges. setoid_rewrite Forall_app. setoid_rewrite Forall_singleton.
  destruct (intrinsic_signed (value_intrinsic v)).
  - rewrite <-Hn. destruct (Z.ltb_spec (number v) 0).
    + eexists. split; [done|]. cbn. split_and!.
      * intros lo Hlo. rewrite <-R1 by done. destruct (Z.ltb_spec (number v) mn); lia.
      * intros hi. rewrite <-R2. lia.
      * split; [done|]. lia.
      * destruct (Z.ltb_spec (number v) mn); lia.
    + eexists. split; [done|]. cbn. split_and!.
      * intros lo Hlo. rewrite <-R1 by done. lia.
      * intros hi. rewrite <-R2. destruct (N.ltb_spec mx (Z.to_N (number v))); lia.
      * rewrite R3. split; [intros ?; split; [done|lia]|by intros []].
      * done.
  - eexists. split; [done|]. cbn. split_and!.
    + intros lo Hlo. rewrite <-R1 by done. lia.
    + intros hi. rewrite <-R2, Hn. destruct (N.ltb_spec mx (value_bits v)); lia.
    + rewrite R3. split; [intros ?; split; [done|lia]|by intros []].
    + done.
Qed.

Lemma value_ranges values : ∀ r l, Forall integral_value values → ranges r l → ∃ r', value_range abi r values = Some r' ∧ ranges r' (l ++ values).
Proof.
  induction values as [|v values IH]; intros r l Hall R; cbn [value_range]; [exists r; by rewrite app_nil_r|].
  apply Forall_cons in Hall as [Hv Hall]. destruct (widen_ranges r v l Hv R) as (r1 & -> & R1).
  destruct (IH r1 (l ++ [v]) Hall R1) as (r' & E & R'). exists r'. split; [done|]. by rewrite <-app_assoc in R'.
Qed.

Lemma fits_iff lo hi values : fits (lo, hi) values = true ↔ Forall (λ v, lo <= number v)%Z values ∧ Forall (λ v, number v <= hi)%Z values.
Proof.
  unfold fits. rewrite forallb_forall, !Forall_forall. setoid_rewrite andb_true_iff. setoid_rewrite Z.leb_le. cbn.
  setoid_rewrite <-list_elem_of_In. naive_solver.
Qed.

(** C20: an enumeration without a fixed type gets the first of [int], [unsigned int] and the
    two 64-bit types of the platform that represents all of its values, and none if there is no such
    type. *)
Theorem underlying_is_first_fitting values : Forall integral_value values →
  select_enum_underlying abi values = first_fitting values.
Proof.
  intros Hall. destruct (value_ranges values (0%Z, 0, false) [] Hall) as ([[mn mx] ng] & E & R1 & R2 & R3 & R4).
  { split_and!; [|..]; cbn; try done; intros; (split; [constructor|lia]). }
  unfold select_enum_underlying. rewrite E. cbn [app fst snd] in *. unfold first_fitting, underlying_candidates. cbn [find snd].
  assert (Hlow : Forall (λ v, - 2 ^ 63 <= number v)%Z values).
  { eapply Forall_impl; [exact Hall|]. intros v Hv%number_range. lia. }
  assert (Hhigh : Forall (λ v, number v <= 2 ^ 64 - 1)%Z values).
  { eapply Forall_impl; [exact Hall|]. intros v Hv%number_range. lia. }
  assert (F1 : fits (- 2 ^ 31, 2 ^ 31 - 1)%Z values = (-2147483648 <=? mn)%Z && (mx <=? 2147483647)).
  { apply eq_true_iff_eq. rewrite fits_iff, andb_true_iff, Z.leb_le, N.leb_le. change (2 ^ 31 - 1)%Z with (Z.of_N 2147483647).
    rewrite <-(R1 (- 2 ^ 31)%Z), <-R2 by lia. lia. }
  assert (F2 : fits (0, 2 ^ 32 - 1)%Z values = negb ng && (mx <=? u32_max)).
  { apply eq_true_iff_eq. rewrite fits_iff, andb_true_iff, negb_true_iff, N.leb_le. change (2 ^ 32 - 1)%Z with (Z.of_N u32_max). rewrite <-R3, <-R2, N2Z.inj_le. done. }
  assert (F3 : fits (- 2 ^ 63, 2 ^ 63 - 1)%Z values = (mx <=? 9223372036854775807)).
  { apply eq_true_iff_eq. rewrite fits_iff, N.leb_le. change (2 ^ 63 - 1)%Z with (Z.of_N 9223372036854775807). rewrite <-R2. intuition lia. }
  assert (F4 : fits (0, 2 ^ 64 - 1)%Z values = negb ng).
  { apply eq_true_iff_eq. rewrite fits_iff, negb_true_iff, <-R3. intuition. }
  cbn [fst snd]. rewrite F1, F2, F3, F4. destruct (_ && _); [done|]. destruct (negb ng && _); [done|]. destruct (mx <=? _); [done|]. by destruct (negb ng).
Qed.
End abi.

End GenerationConstruction.
