(* ===== verification/GenerationExamples.v ===== *)
(** * Full builds of written Sources

    The lexer, the parser and the full build on one Source, and the theorems on the build applied
    to it; a concrete description for the theorem on type references. *)

From S2P Require Import Prelude MappedVector Lexer Construction SourceFacts SourceFactsTheorems ParserState SourceParser ParserExamples RuntimeLayout Graph GraphLookup GraphPublication GraphExamples HeapTables Contribution GenerationBuilder GenerationRules GenerationTypes GenerationTables GenerationReferences GenerationDefinitions GenerationLinks GenerationStages GenerationSpec GenerationGraph ContributionCapture ContributionRebuild GenerationTheorems ContributionCache ContributionCacheTheorems GenerationConstruction.

Local Open Scope N_scope.

Module GenerationExamples.

Import SourceFacts GraphPublication Contribution GenerationBuilder GenerationTypes GenerationReferences GenerationDefinitions GenerationLinks GenerationSpec ContributionCapture ContributionRebuild.

#[local] Existing Instances ParserExamples.names_semantic ContributionCacheTheorems.unchanged_dec.

Definition all_memory (_ : nat) : bool := true.
Definition windows_abi : RuntimeLayout.abi_configuration := RuntimeLayout.Abi RuntimeLayout.windows_x64 8.

(** A cache that never held anything. *)
Definition blank_cache : cache :=
  Cache false MappedVector.mapped_vector_init MappedVector.mapped_vector_init MappedVector.mapped_vector_init MappedVector.mapped_vector_init
    MappedVector.mapped_vector_init MappedVector.mapped_vector_init MappedVector.mapped_vector_init MappedVector.mapped_vector_init no_statistics false.

Definition blank_builder : generation_builder := Builder blank_cache GraphExamples.blank_graph begin_rebuild None false.

(** The facts of Sources numbered from [source] on, which share their names. *)
Fixpoint facts_from (source : N) (x : ParserExamples.names) (ws : list string) : list source_facts :=
  match ws with
  | [] => []
  | w :: ws =>
      match SourceParser.run ParserExamples.nothing_imported ParserExamples.no_double ParserExamples.no_text
          (ParserState.bytes w) (ParserExamples.lexed_tokens (ParserState.bytes w)) (λ _, true) source x with
      | ParserState.Returned f s => f :: facts_from (source + 1) (ParserState.semantic_state s) ws
      | _ => []
      end
  end.

Definition facts_of : list string → list source_facts := facts_from 1 ParserExamples.no_names.

Definition built (ws : list string) : option (status_code * generation_builder * list build_diagnostic) :=
  builder_prepare_g0 all_memory GraphExamples.doubling blank_builder (facts_of ws) windows_abi.

Definition built_state (ws : list string) : generation_builder := match built ws with Some (_, b, _) => b | None => blank_builder end.

Definition sample : list string :=
  ["struct B; struct A { int x; const B* b; }; enum E { X, Y = 3 }; A a; A c; a.x = c.x;"; "struct B { unsigned long y[4]; };"].

(** The outcome of a build, and its messages. *)
Definition verdict (ws : list string) : option (status_code * list string) :=
  match built ws with
  | Some (code, _, ds) => Some (code, (λ d, match d with build_failed _ _ detail _ => detail | invalid_facts _ _ => EmptyString end) <$> ds)
  | None => None
  end.

(** ** A description *)

(** The lists of a prepared generation. *)
Definition lists_of (g : Graph.prepared_graph_generation) : abstract_graph :=
  AbstractGraph (Graph.items (Graph.new_generation_types g)) (Graph.items (Graph.generation_identities g)) (Graph.items (Graph.generation_members g))
    (Graph.items (Graph.generation_enum_values g)) (Graph.items (Graph.generation_objects g)) (Graph.items (Graph.generation_object_identities g))
    (Graph.items (Graph.generation_links g)) (Graph.items (Graph.generation_canonical_types g)) (Graph.items (Graph.generation_named_refs g))
    (Graph.items (Graph.generation_versions g)) (Graph.items (Graph.generation_heads g)) (Graph.items (Graph.generation_edges g)).

Definition pair_of_types : list string := ["struct B; struct A { const B* b; int x; const B* c; };"].
Definition pair_contributions : storage := Eval vm_compute in candidate (contributions (built_state pair_of_types)).
Definition pair_graph : abstract_graph :=
  Eval vm_compute in match prepared_graph (built_state pair_of_types) with Some g => lists_of g | None => GraphExamples.first_lists end.

(** The members of [A]. *)
Definition pair_member (n : nat) : contribution_type_ref :=
  default (ContributionTypeRef 0 no_range 0) (contributed_type <$> items (members pair_contributions) !! n).

Lemma pointer_to_const_b : denotes (a_canonical pair_graph) 3 (inr 1) [(0, 0); (2, 0)].
Proof.
  apply (denotes_derived _ 3 2 2 0 (inr 1) [(0, 0)]); [done| |done]. apply (denotes_derived _ 2 1 0 0 (inr 1) []); [done| |done].
  by apply denotes_named.
Qed.

Lemma pair_typed : typed pair_contributions pair_graph (pair_member 0) 3 ∧ typed pair_contributions pair_graph (pair_member 1) 4 ∧
  typed pair_contributions pair_graph (pair_member 2) 3.
Proof.
  split_and!; (split; [|try done; intros _; by left]); [exact pointer_to_const_b| |exact pointer_to_const_b]. by apply denotes_intrinsic.
Qed.

Lemma pair_described : described windows_abi pair_contributions pair_graph.
Proof.
  destruct pair_typed as (T1 & T2 & T3). split; try done; try by constructor.
  - apply Forall2_cons_2; [|apply Forall2_cons_2; [|apply Forall2_nil_2]].
    + eexists. split_and!; [done|done|by repeat constructor|done].
    + eexists. split_and!; [done|done|by repeat constructor|].
      exists (Graph.DefinitionRange 1 3), (a_members pair_graph). split_and!; [done|by split|].
      apply Forall2_cons_2; [|apply Forall2_cons_2; [|apply Forall2_cons_2; [|apply Forall2_nil_2]]]; split_and!; done.
  - repeat apply NoDup_cons_2; try apply NoDup_nil_2; rewrite ?elem_of_cons, elem_of_nil; naive_solver.
  - split.
    + intros [|[|[|code]]] ref Hc H0; try done; by injection Hc as <-.
    + intros [|[|[|[|j]]]] t Hj Hk; try done; injection Hj as <-; try done. by exists 1%nat.
Qed.

(** The stage that makes the references of [pair_of_types], over its two types. *)
Definition pair_declared : declared_types := DeclaredTypes [] (replicate 2 blank_entry) [] [] [] [].
Definition no_objects : declared_objects := DeclaredObjects [] [] [].
Definition pair_state : building := Building (contributions (built_state pair_of_types)) [] 0.

(** The first and the third member ask for the same type. *)
Lemma type_references_canonical_witness : ∃ entries r s',
  refer_all all_memory pair_declared [1; 0; 1] no_objects pair_state = Done ([3; 4; 3], entries, r) s' ∧
  (3 = 3 ↔ base_of (pair_member 0) 1 = base_of (pair_member 2) 1 ∧
    wrapped (items (modifiers (candidate (updating pair_state)))) (pair_member 0) =
    wrapped (items (modifiers (candidate (updating pair_state)))) (pair_member 2)).
Proof.
  destruct (refer_all all_memory pair_declared [1; 0; 1] no_objects pair_state) as [[[refs entries] r] s'| | |] eqn:E; [|by vm_compute in E..].
  assert (Hr : refs = [3; 4; 3]).
  { assert (H : match refer_all all_memory pair_declared [1; 0; 1] no_objects pair_state with Done a _ => a.1.1 | _ => [] end = [3; 4; 3])
      by (vm_compute; reflexivity). by rewrite E in H. }
  subst refs. exists entries, r, s'. split; [done|].
  destruct (GenerationTheorems.type_references_canonical all_memory pair_declared [1; 0; 1] no_objects pair_state _ _ _ _ E) as [_ H].
  apply (H 0%nat 2%nat (pair_member 0, 1) (pair_member 2, 1)); done.
Defined.

(** ** The theorems on one build *)

Lemma sample_built : builder_prepare_g0 all_memory GraphExamples.doubling blank_builder (facts_of sample) windows_abi = Some (ok, built_state sample, []).
Proof. by vm_compute. Qed.

Lemma sample_types : Exists (λ f, type_facts f ≠ []) (facts_of sample).
Proof. apply Exists_exists. vm_compute. eexists. by split; [left|]. Qed.

Lemma g0_builds_graph_witness :
  builder_prepare_g0 all_memory GraphExamples.doubling blank_builder (facts_of sample) windows_abi = Some (ok, built_state sample, []) ∧
  Forall accepted (facts_of sample) ∧ ∃ c a, captured (facts_of sample) c ∧ described windows_abi c a ∧ coherent a ∧
    represents (target (builder_publish (built_state sample))) a ∧ heap_graph (target (builder_publish (built_state sample))) ∧
    GenerationTheorems.caches (contribution_cache (builder_publish (built_state sample))) c.
Proof.
  split; [exact sample_built|].
  exact (GenerationTheorems.g0_builds_graph all_memory GraphExamples.doubling blank_builder (facts_of sample) windows_abi (built_state sample) []
    eq_refl sample_types sample_built).
Defined.

Definition two_kinds : list string := ["struct A;"; "union A { int y; };"].

Lemma g0_answers_witness : prepared_graph blank_builder = None ∧ ∃ code b' ds,
  builder_prepare_g0 all_memory GraphExamples.doubling blank_builder (facts_of two_kinds) windows_abi = Some (code, b', ds) ∧
  target b' = target blank_builder ∧ contribution_cache b' = contribution_cache blank_builder ∧
  (code = ok ↔ is_Some (prepared_graph b')) ∧ (code ≠ ok → builder_publish b' = b').
Proof.
  split; [exact eq_refl|]. exact (GenerationTheorems.g0_answers all_memory GraphExamples.doubling blank_builder (facts_of two_kinds) windows_abi eq_refl).
Defined.

Example two_kinds_conflict : verdict two_kinds = Some (semantic_conflict, ["SourceContribution construction aggregation failed"]).
Proof. by vm_compute. Qed.

(** ** An update of the Sources *)

(** The second Source of the sample has one member more. *)
Definition updated : list string :=
  ["struct B; struct A { int x; const B* b; }; enum E { X, Y = 3 }; A a; A c; a.x = c.x;"; "struct B { unsigned long y[4]; int z; };"].

Definition entries_of (fs : list source_facts) : list ContributionCache.frontend_entry :=
  (λ f, ContributionCache.FrontendEntry (source f) (Some f) false) <$> fs.

Definition every_access (_ _ : nat) : MappedVector.memory := MappedVector.plenty.

Definition acceptable_packet (f : source_facts) : bool :=
  status_ok (validate_source_facts f).1 && forallb (λ r, negb (has_bases r)) (records f).

Lemma acceptable_packet_accepted f : acceptable_packet f = true → accepted f.
Proof.
  unfold acceptable_packet. destruct (validate_source_facts f) as [code err] eqn:E. intros [V B]%andb_true_iff.
  cbn in V. apply bool_decide_eq_true in V as ->. split; [by apply (ContributionRebuild.validated f err)|].
  rewrite forallb_forall in B. apply Forall_forall. intros r Hr. apply negb_true_iff, B. by apply list_elem_of_In.
Qed.

Lemma valid_entries fs : forallb acceptable_packet fs = true → Forall ContributionCacheTheorems.parsed_entry (entries_of fs).
Proof.
  intros V. rewrite forallb_forall in V. apply Forall_forall. intros e He _. apply list_elem_of_fmap in He as (f & -> & Hf). exists f. split; [done|].
  apply acceptable_packet_accepted, V. by apply list_elem_of_In.
Qed.

Lemma updated_valid : forallb acceptable_packet (facts_of updated) = true.
Proof. vm_compute. reflexivity. Qed.

Lemma updated_replaced :
  filter (λ g, ¬ ContributionCacheTheorems.unchanged (facts_of sample) g) (ContributionCacheTheorems.packets (entries_of (facts_of updated))) =
  drop 1 (facts_of updated).
Proof. vm_compute. reflexivity. Qed.

Lemma builder_inputs_exact_witness : ∃ c, ContributionCapture.retained (facts_of sample) c ∧
  GenerationTheorems.caches (contribution_cache (builder_publish (built_state sample))) c ∧
  ContributionCache.collect_builder_inputs true every_access (contribution_cache (builder_publish (built_state sample))) (entries_of (facts_of updated)) =
    Some (ok, contribution_cache (builder_publish (built_state sample)), drop 1 (facts_of updated),
      filter (λ s, s ∈ source <$> facts_of sample) (ContributionCacheTheorems.removed_sources (entries_of (facts_of updated)))).
Proof.
  destruct (GenerationTheorems.published_contributions all_memory GraphExamples.doubling blank_builder (facts_of sample) windows_abi (built_state sample) []
    eq_refl sample_built) as (c & C & A & K).
  apply ContributionCapture.captured_retained in C. exists c. split; [exact C|]. split; [exact K|]. rewrite <-updated_replaced.
  exact (proj1 (ContributionCacheTheorems.builder_inputs_exact (facts_of sample) c _ every_access (entries_of (facts_of updated)) C K A (valid_entries _ updated_valid))).
Defined.

(** A Source, and the same Source with one base class more. *)
Definition unbased : list string := ["struct A { int x; }; struct B { int y; };"].
Definition based : list string := ["struct A { int x; }; struct B : A { int y; };"].

(** The gate: a full build refuses the valid packet with the base. *)
Example based_refused : forallb (λ f, status_ok (validate_source_facts f).1) (facts_of based) = true ∧
  verdict based = Some (not_available, ["record has base classes: inheritance is not supported by ABI/layout"]).
Proof. by vm_compute. Qed.

(** In an update the same packet is not refused: it compares as unchanged, so that nothing is
    replaced and the gate is never asked. *)
Theorem added_base_unrefused :
  builder_prepare_g0 all_memory GraphExamples.doubling blank_builder (facts_of unbased) windows_abi = Some (ok, built_state unbased, []) ∧
  Exists (λ f, Exists (λ r, has_bases r = true) (records f)) (facts_of based) ∧
  ContributionCache.collect_builder_inputs true every_access (contribution_cache (builder_publish (built_state unbased))) (entries_of (facts_of based)) =
    Some (ok, contribution_cache (builder_publish (built_state unbased)), [], []).
Proof.
  split; [by vm_compute|]. split; [|by vm_compute]. apply (bool_decide_unpack _). by vm_compute.
Qed.

(** ** Aggregations and enumerations *)

Definition a_class : contribution_type := ContributionType 2147483650 (FactRange 0 1) 0 1 record_contribution 1.

Lemma aggregation_round_trip_witness : ∃ st', GenerationConstruction.tidy no_construction ∧ add_construction no_construction a_class 1 = inr st' ∧
  GenerationConstruction.tidy st' ∧ remove_construction st' a_class 1 = inr no_construction.
Proof.
  assert (T : GenerationConstruction.tidy no_construction) by (by split).
  eexists. split; [exact T|]. split; [vm_compute; reflexivity|]. by apply (GenerationConstruction.aggregation_round_trip no_construction a_class 1).
Defined.

Definition some_values : list contribution_enum_value := [ContributionEnumValue 1 13 4294967295; ContributionEnumValue 2 12 18446744073709551615].

Lemma underlying_is_first_fitting_witness : Forall (GenerationConstruction.integral_value windows_abi) some_values ∧
  select_enum_underlying windows_abi some_values = inr RuntimeLayout.signed_long_long.
Proof.
  assert (H : Forall (GenerationConstruction.integral_value windows_abi) some_values) by (repeat constructor; by vm_compute).
  split; [exact H|]. rewrite (GenerationConstruction.underlying_is_first_fitting windows_abi some_values H). vm_compute. reflexivity.
Defined.

End GenerationExamples.
