(* ===== verification/ContributionUpdate.v ===== *)
(** * Sparse updates of the contributions

    Models [source_contribution_sparse_update] of
    server_engine/project/builder/source_contribution.{hpp,cpp}: the candidate of an incremental
    build.  New records go to arenas of the update, with positions behind those of the committed
    arenas; a patch per changed Source, found through an index, holds its new state; publication
    appends the arenas and stores the patches into the cache.

    The arenas, the failure and the two flags are those of a rebuild ([shared]), whose appends
    the update uses.  An update belongs to a cache ([owner] is never null). *)

From S2P Require Import Prelude Probing MappedVector Construction SourceFacts RuntimeLayout Graph HeapTables Contribution GenerationBuilder ContributionCache.

Local Open Scope N_scope.

Module ContributionUpdate.

Import SourceFacts HeapTables Contribution GenerationBuilder.
Notation mapped_vector := MappedVector.mapped_vector.

(** ** The update *)

Record source_patch : Type := SourcePatch { patched_source : N; patched_state : contribution_state; patch_present : bool }.
Record construction_patch : Type := ConstructionPatch { patched_type : N; patched_construction : construction_state }.

(** A slot: the key, zero in a vacant one, and the index of its patch plus one. *)
Definition patch_slot : Set := N * N.

(** The committed sizes when the update began. *)
Record arena_bases : Set := ArenaBases {
  type_base : N; member_base : N; modifier_base : N; enum_value_base : N; object_base : N; link_base : N }.

Record sparse_update : Type := SparseUpdate {
  shared : building; update_bases : arena_bases;
  source_patches : heap_vector source_patch; construction_patches : heap_vector construction_patch;
  source_patch_index : heap_vector patch_slot; construction_patch_index : heap_vector patch_slot;
  changed_source_ids : heap_vector N;
  prepared_statistics : contribution_statistics; prepared_source_size : N; prepared_construction_size : N }.

Definition committed_sizes (k : cache) : arena_bases :=
  ArenaBases (MappedVector.size (committed_types k)) (MappedVector.size (committed_members k)) (MappedVector.size (committed_modifiers k))
    (MappedVector.size (committed_enum_values k)) (MappedVector.size (committed_objects k)) (MappedVector.size (committed_links k)).

Definition begin_incremental (k : cache) (emitted : list build_diagnostic) (allocations : nat) : sparse_update :=
  SparseUpdate (Building begin_rebuild emitted allocations) (committed_sizes k)
    no_items no_items no_items no_items no_items no_statistics 0 0.

Definition with_shared b (u : sparse_update) := SparseUpdate b (update_bases u) (source_patches u) (construction_patches u)
  (source_patch_index u) (construction_patch_index u) (changed_source_ids u) (prepared_statistics u) (prepared_source_size u) (prepared_construction_size u).
Definition with_source_patches v i (u : sparse_update) := SparseUpdate (shared u) (update_bases u) v (construction_patches u)
  i (construction_patch_index u) (changed_source_ids u) (prepared_statistics u) (prepared_source_size u) (prepared_construction_size u).
Definition with_construction_patches v i (u : sparse_update) := SparseUpdate (shared u) (update_bases u) (source_patches u) v
  (source_patch_index u) i (changed_source_ids u) (prepared_statistics u) (prepared_source_size u) (prepared_construction_size u).
Definition with_changed_sources v (u : sparse_update) := SparseUpdate (shared u) (update_bases u) (source_patches u) (construction_patches u)
  (source_patch_index u) (construction_patch_index u) v (prepared_statistics u) (prepared_source_size u) (prepared_construction_size u).
Definition with_prepared s n m (u : sparse_update) := SparseUpdate (shared u) (update_bases u) (source_patches u) (construction_patches u)
  (source_patch_index u) (construction_patch_index u) (changed_source_ids u) s n m.

Definition update_failure (u : sparse_update) : status_code := failure (updating (shared u)).
Definition is_prepared (u : sparse_update) : bool := prepared (updating (shared u)).
Definition is_published (u : sparse_update) : bool := published (updating (shared u)).
Definition arenas (u : sparse_update) : storage := candidate (updating (shared u)).

Definition set_shared (f : rebuild → rebuild) (u : sparse_update) : sparse_update :=
  with_shared (Building (f (updating (shared u))) (emitted (shared u)) (allocations (shared u))) u.
Definition fail_update (code : status_code) : sparse_update → sparse_update :=
  set_shared (λ r, Rebuild (candidate r) (replaced r) code (prepared r) (published r)).

(** What an operation answers; [None] is one that does not return. *)
Definition answer : Type := option (status_code * sparse_update).

(** Runs a part on what is shared with a rebuild, whose exceptions are caught. *)
Definition sharing {A} (m : build A) (u : sparse_update) (next : A → sparse_update → answer) : answer :=
  match m (shared u) with
  | Done a b => next a (with_shared b u)
  | Failed code b => Some (code, with_shared b u)
  | Thrown _ | Endless => None
  end.

(** ** The index of the patches *)

Definition patch_capacity (n : N) : N :=
  if n =? 0 then 0
  else if size_max / 2 <? n then 0
  else let minimum := n * 2 in MappedVector.bit_ceil (if minimum <? 8 then 8 else minimum).

Definition patch_hash (value : N) : N :=
  let mixed := w64 (value * 0x9e3779b97f4a7c15) in
  let mixed := N.lxor mixed (N.shiftr mixed 29) in
  let mixed := w64 (mixed * 0xbf58476d1ce4e5b9) in
  N.lxor mixed (N.shiftr mixed 32).

Definition slot_taken (s : patch_slot) : option patch_slot := if s.1 =? 0 then None else Some s.

(** The place of the patch with the key. *)
Definition find_patch {A} (key : N) (index : heap_vector patch_slot) (patches : heap_vector A) : option nat :=
  if (key =? 0) || bool_decide (items index = []) then None
  else
    match walk slot_taken (λ s, s.1 =? key) (items index) (patch_hash key) with
    | Some (_, Some s) =>
        let i := N.to_nat (w32 (s.2 + two32 - 1)) in if bool_decide (i < length (items patches))%nat then Some i else None
    | _ => None
    end.

Definition find_source_patch (source : N) (u : sparse_update) : option source_patch :=
  i ← find_patch source (source_patch_index u) (source_patches u); items (source_patches u) !! i.
Definition find_construction_patch (h : N) (u : sparse_update) : option construction_patch :=
  i ← find_patch h (construction_patch_index u) (construction_patches u); items (construction_patches u) !! i.

(** The first vacant slot on the way of a key. *)
Definition vacant_slot (key : N) (index : heap_vector patch_slot) : option N :=
  fst <$> walk slot_taken (λ _, false) (items index) (patch_hash key).

Definition take_slot (p key position : N) (index : heap_vector patch_slot) : heap_vector patch_slot :=
  HeapVector (<[N.to_nat p := (key, w32 position)]> (items index)) (items_capacity index).

Section update.
Context (memory : nat → bool) (grown : N → N → N).

(** Memory for one more value: the state of the allocations after it, and whether there was any. *)
Definition room_for_one {A} (v : heap_vector A) (b : building) : building * bool :=
  match room memory v (size (items v) + 1) b with
  | Done _ b' => (b', true)
  | Failed _ b' | Thrown b' => (b', false)
  | Endless => (b, false)
  end.

(** The new patch is the last one. *)
Definition add_source_patch (source : N) (u : sparse_update) : status_code * sparse_update :=
  if (source =? 0) || bool_decide (items (source_patch_index u) = []) then (invalid_argument, u)
  else
    match find_patch source (source_patch_index u) (source_patches u) with
    | Some _ => (invalid_argument, u)
    | None =>
        match vacant_slot source (source_patch_index u) with
        | None => (not_available, u)
        | Some p =>
            let '(b, pushed) := room_for_one (source_patches u) (shared u) in
            let u := with_shared b u in
            if negb pushed then (initialization_failed, u)
            else
              let u' := with_source_patches (append grown (source_patches u) [SourcePatch 0 no_state false]) (source_patch_index u) u in
              let '(b, pushed) := room_for_one (changed_source_ids u') (shared u') in
              let u' := with_shared b u' in
              if negb pushed then (initialization_failed, u')
              else
                let patches := append grown (source_patches u) [SourcePatch source no_state false] in
                (ok, with_source_patches patches (take_slot p source (size (items patches)) (source_patch_index u))
                       (with_changed_sources (append grown (changed_source_ids u') [source]) u'))
        end
    end.

(** The place of the patch. *)
Definition add_construction_patch (h : N) (u : sparse_update) : status_code * sparse_update * nat :=
  if (h =? 0) || bool_decide (items (construction_patch_index u) = []) then (invalid_argument, u, 0%nat)
  else
    match find_patch h (construction_patch_index u) (construction_patches u) with
    | Some i => (ok, u, i)
    | None =>
        match vacant_slot h (construction_patch_index u) with
        | None => (not_available, u, 0%nat)
        | Some p =>
            let '(b, pushed) := room_for_one (construction_patches u) (shared u) in
            let u := with_shared b u in
            if negb pushed then (initialization_failed, u, 0%nat)
            else
              let patches := append grown (construction_patches u) [ConstructionPatch h no_construction] in
              (ok, with_construction_patches patches (take_slot p h (size (items patches)) (construction_patch_index u)) u,
               length (items (construction_patches u)))
        end
    end.

(** ** The reservation *)

(** [max_size] of the vectors whose lengths nothing else bounds. *)
Record length_limits : Set := LengthLimits { most_patches : N; most_constructions : N; most_ids : N; most_slots : N }.
Context (limits : length_limits).

(** What a reservation throws beyond its limit is [std::length_error]: [not_available]. *)
Definition within {A} (n limit : N) (m : build A) : build A := if limit <? n then fail_with not_available else m.

Definition reserve_arena {A} (get : storage → heap_vector A) (set : heap_vector A → storage → storage) (n : N) : build unit :=
  v ← storing get; room memory v n;; set_candidate (λ c, set (reserved grown (get c) n) c).

(** A vector outside the shared part, reserved or assigned. *)
Definition assigned {A} (v : heap_vector A) (n : N) (x : A) : heap_vector A :=
  HeapVector (replicate (N.to_nat n) x) (if items_capacity v <? n then grown (items_capacity v) n else items_capacity v).

Definition reserve_arenas (type_declarations member_count modifier_count enum_value_count object_count link_count : N) : build unit :=
  reserve_arena types with_types type_declarations;;
  reserve_arena members with_members member_count;;
  reserve_arena modifiers with_modifiers modifier_count;;
  reserve_arena enum_values with_enum_values enum_value_count;;
  reserve_arena objects with_objects object_count;;
  reserve_arena links with_links link_count.

(** A growth of [v] to [n] values, and the update with it. *)
Definition growing {A} (v : heap_vector A) (n limit : N) (set : sparse_update → sparse_update) (u : sparse_update)
    (next : sparse_update → answer) : answer :=
  sharing (catching (within n limit (room memory v n))) u (λ _ u, next (set u)).

Definition reserve_incremental (source_changes touched_types type_declarations member_count modifier_count enum_value_count
    object_count link_count : N) (u : sparse_update) : answer :=
  if negb (status_ok (update_failure u)) then Some (update_failure u, u)
  else if is_prepared u || is_published u || negb (size (items (source_patches u)) =? 0) ||
    negb (size (items (construction_patches u)) =? 0) || negb (size (items (types (arenas u))) =? 0)
  then Some (invalid_argument, u)
  else
    let bs := update_bases u in
    let left base := w64 (u32_max + two64 - base) in
    if (left (type_base bs) <? type_declarations) || (left (member_base bs) <? member_count) ||
      (left (modifier_base bs) <? modifier_count) || (left (enum_value_base bs) <? enum_value_count) ||
      (left (object_base bs) <? object_count) || (left (link_base bs) <? link_count)
    then Some (not_available, fail_update not_available u)
    else
      let source_capacity := patch_capacity source_changes in
      let construction_capacity := patch_capacity touched_types in
      if (negb (source_changes =? 0) && (source_capacity =? 0)) || (negb (touched_types =? 0) && (construction_capacity =? 0))
      then Some (not_available, fail_update not_available u)
      else
        sharing (catching (reserve_arenas type_declarations member_count modifier_count enum_value_count object_count link_count)) u (λ _ u,
        growing (source_patches u) source_changes (most_patches limits)
          (λ u, with_source_patches (reserved grown (source_patches u) source_changes) (source_patch_index u) u) u (λ u,
        growing (construction_patches u) touched_types (most_constructions limits)
          (λ u, with_construction_patches (reserved grown (construction_patches u) touched_types) (construction_patch_index u) u) u (λ u,
        growing (changed_source_ids u) source_changes (most_ids limits)
          (λ u, with_changed_sources (reserved grown (changed_source_ids u) source_changes) u) u (λ u,
        growing (source_patch_index u) source_capacity (most_slots limits)
          (λ u, with_source_patches (source_patches u) (assigned (source_patch_index u) source_capacity (0, 0)) u) u (λ u,
        growing (construction_patch_index u) construction_capacity (most_slots limits)
          (λ u, with_construction_patches (construction_patches u) (assigned (construction_patch_index u) construction_capacity (0, 0)) u) u (λ u,
        Some (ok, u))))))).

(** ** Changes *)

Definition absolute_u32 (base local : N) : option N :=
  if size_max - base <? local then None
  else let value := base + local in if u32_max <? value then None else Some value.

(** A position behind the committed arena and what the update had there. *)
Definition behind {A B} (base : N) (v : heap_vector A) (k : N → build B) : build B :=
  match absolute_u32 base (size (items v)) with None => fail_with not_available | Some b => k b end.

Definition check_packet (facts : source_facts) : build unit :=
  match validate_source_facts facts with
  | (ok, _) =>
      match filter (λ r, has_bases r = true) (records facts) with
      | r :: _ =>
          emit memory (build_failed (source facts) (record_declaration r)
            "record has base classes: inheritance is not supported by ABI/layout" None);;
          fail_with not_available
      | [] => mret tt
      end
  | (code, error) => emit memory (invalid_facts (source facts) error);; fail_with code
  end.

Definition grown_beyond (c0 c : storage) : bool := existsb (λ p, u32_max <? p.1 - p.2) (zip (arena_sizes c) (arena_sizes c0)).

Definition append_packet (bs : arena_bases) (facts : source_facts) : build contribution_state :=
  c0 ← storing id;
  insert_end memory grown modifiers with_modifiers (SourceFacts.modifiers facts);;
  each (λ item, behind (modifier_base bs) (modifiers c0) (λ b, append_member memory grown b item)) (SourceFacts.members facts);;
  each (append_enum_value memory grown) (SourceFacts.enum_values facts);;
  each (λ item, behind (modifier_base bs) (modifiers c0) (λ b, append_object memory grown b item)) (SourceFacts.objects facts);;
  each (append_link memory grown) (SourceFacts.links facts);;
  behind (member_base bs) (members c0) (λ member_begin,
  behind (enum_value_base bs) (enum_values c0) (λ enum_value_begin,
  behind (object_base bs) (objects c0) (λ object_begin,
  behind (link_base bs) (links c0) (λ link_begin,
    append_declarations memory grown facts member_begin enum_value_begin;;
    c ← storing id;
    if grown_beyond c0 c then fail_with not_available
    else
      behind (type_base bs) (types c0) (λ type_begin,
        let counted {A} (get : storage → heap_vector A) := w32 (size (items (get c)) - size (items (get c0))) in
        mret (ContributionState (source facts) (FactRange type_begin (counted types)) (FactRange member_begin (counted members))
          (FactRange (w32 (modifier_base bs + size (items (modifiers c0)))) (counted modifiers))
          (FactRange enum_value_begin (counted enum_values)) (FactRange object_begin (counted objects))
          (FactRange link_begin (counted links)))))))).

(** [patch->state = state; patch->present = true;] of the last patch. *)
Definition fill_patch (st : contribution_state) (u : sparse_update) : sparse_update :=
  let v := source_patches u in
  with_source_patches (HeapVector (alter (λ p, SourcePatch (patched_source p) st true) (pred (length (items v))) (items v)) (items_capacity v))
    (source_patch_index u) u.

Definition replace (facts : source_facts) (u : sparse_update) : answer :=
  if negb (status_ok (update_failure u)) then Some (update_failure u, u)
  else if is_prepared u || is_published u || (source facts =? 0) then Some (invalid_argument, u)
  else
    sharing (check_packet facts) u (λ _ u,
      match add_source_patch (source facts) u with
      | (ok, u) => sharing (catching (append_packet (update_bases u) facts)) u (λ st u, Some (ok, fill_patch st u))
      | (code, u) => Some (code, fail_update code u)
      end).

Definition remove (source : N) (u : sparse_update) : answer :=
  if negb (status_ok (update_failure u)) then Some (update_failure u, u)
  else if is_prepared u || is_published u || (source =? 0) then Some (invalid_argument, u)
  else
    match add_source_patch source u with
    | (ok, u) => Some (ok, u)
    | (code, u) => Some (code, fail_update code u)
    end.

Definition set_construction (h : N) (st : construction_state) (u : sparse_update) : answer :=
  if negb (status_ok (update_failure u)) then Some (update_failure u, u)
  else if is_prepared u || is_published u || (h =? 0) then Some (invalid_argument, u)
  else
    match add_construction_patch h u with
    | (ok, u, i) =>
        let v := construction_patches u in
        Some (ok, with_construction_patches (HeapVector (alter (λ p, ConstructionPatch (patched_type p) st) i (items v)) (items_capacity v))
          (construction_patch_index u) u)
    | (code, u, _) => Some (code, fail_update code u)
    end.

(** ** Capture

    The first half of [generation_builder::prepare_incremental]: what the packets need is summed,
    reserved, and the packets and removals are taken in. *)

(** The sums so far, or the status with the Source and the text that are reported. *)
Inductive sizing : Type :=
| Sized (totals : list N) (touched : N)
| Unsized (code : status_code) (report : option (N * string)).

Definition previous_types (st : option contribution_state) : list N := match st with Some st => [count (state_types st)] | None => [] end.

Fixpoint size_replacements (m : nat → MappedVector.memory) (k : cache) (replacements : list source_facts) (totals : list N) (touched : N) :
    option (cache * sizing) :=
  match replacements with
  | [] => Some (k, Sized totals touched)
  | f :: replacements' =>
      if source f =? 0 then Some (k, Unsized invalid_argument None)
      else
        match mapM (λ p, checked_sum p.1 p.2) (zip (counts_of f) totals) with
        | None => Some (k, Unsized not_available (Some (source f, "incremental contribution counts overflow"%string)))
        | Some totals =>
            '(k, previous) ← ContributionCache.state (m 0%nat) k (source f);
            match checked_sum (previous_types previous ++ [size (records f); size (enums f)]) touched with
            | None => Some (k, Unsized not_available (Some (source f, "incremental touched-type count overflow"%string)))
            | Some touched => size_replacements (λ i, m (S i)) k replacements' totals touched
            end
        end
  end.

Fixpoint size_removals (m : nat → MappedVector.memory) (k : cache) (removals : list N) (totals : list N) (touched : N) : option (cache * sizing) :=
  match removals with
  | [] => Some (k, Sized totals touched)
  | s :: removals' =>
      if s =? 0 then Some (k, Unsized invalid_argument None)
      else
        '(k, previous) ← ContributionCache.state (m 0%nat) k s;
        match checked_sum (previous_types previous) touched with
        | None => Some (k, Unsized not_available (Some (s, "incremental touched-type count overflow"%string)))
        | Some touched => size_removals (λ i, m (S i)) k removals' totals touched
        end
  end.

(** A failed step, with what the builder reports of it. *)
Definition reporting (code : status_code) (report : option (N * string)) (u : sparse_update) : answer :=
  match report with
  | None => Some (code, u)
  | Some (s, detail) => sharing (fail_at memory s code detail : build unit) u (λ _ u, Some (code, u))
  end.

Fixpoint replace_all (replacements : list source_facts) (u : sparse_update) : answer :=
  match replacements with
  | [] => Some (ok, u)
  | f :: replacements' =>
      '(code, u) ← replace f u;
      if status_ok code then replace_all replacements' u else Some (code, u)
  end.

Fixpoint remove_all (removals : list N) (u : sparse_update) : answer :=
  match removals with
  | [] => Some (ok, u)
  | s :: removals' =>
      '(code, u) ← remove s u;
      if status_ok code then remove_all removals' u
      else reporting code (Some (s, "SourceContribution removal failed"%string)) u
  end.

Definition capture_sized (replacements : list source_facts) (removals : list N) (totals : list N) (touched : N) (u : sparse_update) : answer :=
  match checked_sum [size removals] (size replacements) with
  | None => reporting not_available (Some (0, "incremental source-change count overflow"%string)) u
  | Some source_changes =>
      let total i := default 0 (totals !! i) in
      '(code, u) ← reserve_incremental source_changes touched (total 0%nat) (total 1%nat) (total 2%nat) (total 3%nat) (total 4%nat) (total 5%nat) u;
      if negb (status_ok code) then reporting code (Some (0, "SourceContribution incremental reserve failed"%string)) u
      else
        '(code, u) ← replace_all replacements u;
        if status_ok code then remove_all removals u else Some (code, u)
  end.

Definition capture_incremental (m : nat → nat → MappedVector.memory) (emitted : list build_diagnostic) (allocations : nat) (k : cache)
    (replacements : list source_facts) (removals : list N) : option (status_code * cache * sparse_update) :=
  let u := begin_incremental k emitted allocations in
  let answered k (a : answer) := '(code, u) ← a; Some (code, k, u) in
  '(k, sized) ← size_replacements (m 0%nat) k replacements (replicate 6 0) 0;
  match sized with
  | Unsized code report => answered k (reporting code report u)
  | Sized totals touched =>
      '(k, sized) ← size_removals (m 1%nat) k removals totals touched;
      match sized with
      | Unsized code report => answered k (reporting code report u)
      | Sized totals touched => answered k (capture_sized replacements removals totals touched u)
      end
  end.
End update.

(** ** Lookups *)

Definition replacement_state (u : sparse_update) (source : N) : option contribution_state :=
  p ← find_source_patch source u; if patch_present p then Some (patched_state p) else None.

(** Across the committed arena and the update's; a committed span may fill the caches of its vector. *)
Definition combined_span {A} `{!Inhabited A} (m : MappedVector.memory) (committed : mapped_vector (T := A)) (v : heap_vector A) (base : N)
    (range : source_fact_range) : mapped_vector (T := A) * list A :=
  if count range =? 0 then (committed, [])
  else if begin range <? base then
    (if (MappedVector.size committed <? begin range) || (MappedVector.size committed - begin range <? count range) ||
        (base <? begin range + count range)
     then (committed, []) else MappedVector.span m committed (begin range) (count range))
  else
    let local := begin range - base in
    if (size (items v) <? local) || (size (items v) - local <? count range) then (committed, [])
    else (committed, take (N.to_nat (count range)) (drop (N.to_nat local) (items v))).

Section lookups.
Context (m : MappedVector.memory) (k : cache) (u : sparse_update).

Definition combined {A} `{!Inhabited A} (get : cache → mapped_vector (T := A)) (set : mapped_vector (T := A) → cache → cache)
    (arena : storage → heap_vector A) (base : arena_bases → N) (range : source_fact_range) : cache * list A :=
  let '(v, l) := combined_span m (get k) (arena (arenas u)) (base (update_bases u)) range in (set v k, l).

Definition members : source_fact_range → cache * list contribution_member :=
  combined committed_members ContributionCache.with_committed_members Contribution.members member_base.
Definition modifiers : source_fact_range → cache * list source_type_modifier :=
  combined committed_modifiers ContributionCache.with_committed_modifiers Contribution.modifiers modifier_base.
Definition enum_values : source_fact_range → cache * list contribution_enum_value :=
  combined committed_enum_values ContributionCache.with_committed_enum_values Contribution.enum_values enum_value_base.

Definition replacement {A} (span : source_fact_range → cache * list A) (range : contribution_state → source_fact_range) (source : N) :
    cache * list A :=
  match replacement_state u source with None => (k, []) | Some st => span (range st) end.

Definition replacement_types : N → cache * list contribution_type :=
  replacement (combined committed_types ContributionCache.with_committed_types Contribution.types type_base) state_types.
Definition replacement_objects : N → cache * list contribution_object :=
  replacement (combined committed_objects ContributionCache.with_committed_objects Contribution.objects object_base) state_objects.
Definition replacement_links : N → cache * list contribution_link :=
  replacement (combined committed_links ContributionCache.with_committed_links Contribution.links link_base) state_links.

(** The type at an index; [None] is an access that would not end. *)
Definition type_at (index : N) : option (cache * option contribution_type) :=
  if index <? type_base (update_bases u) then
    if index <? MappedVector.size (committed_types k) then
      '(v, p) ← MappedVector.at_const m (committed_types k) index;
      Some (ContributionCache.with_committed_types v k, Some (MappedVector.deref v p))
    else Some (k, None)
  else Some (k, items (Contribution.types (arenas u)) !! N.to_nat (index - type_base (update_bases u))).

Definition construction (h : N) : option (cache * option construction_state) :=
  match find_construction_patch h u with
  | Some p => Some (k, Some (patched_construction p))
  | None => ContributionCache.construction m k h
  end.
End lookups.

(** ** Publication *)

Definition subtract_count (value decrement : N) : option N := if value <? decrement then None else Some (value - decrement).

Definition without_state (s : contribution_statistics) (st : contribution_state) : option contribution_statistics :=
  if source_total s =? 0 then None
  else
    types ← subtract_count (type_total s) (count (state_types st));
    members ← subtract_count (member_total s) (count (state_members st));
    modifiers ← subtract_count (modifier_total s) (count (state_modifiers st));
    enum_values ← subtract_count (enum_value_total s) (count (state_enum_values st));
    objects ← subtract_count (object_total s) (count (state_objects st));
    links ← subtract_count (link_total s) (count (state_links st));
    Some (Statistics (source_total s - 1) types members modifiers enum_values objects links).

Definition with_state (s : contribution_statistics) (st : contribution_state) : contribution_statistics :=
  Statistics (w64 (source_total s + 1)) (w64 (type_total s + count (state_types st))) (w64 (member_total s + count (state_members st)))
    (w64 (modifier_total s + count (state_modifiers st))) (w64 (enum_value_total s + count (state_enum_values st)))
    (w64 (object_total s + count (state_objects st))) (w64 (link_total s + count (state_links st))).

Definition last_slot {A} (v : mapped_vector (T := A)) : N := if MappedVector.size v =? 0 then 0 else MappedVector.size v - 1.

(** The statistics after the patches and the last Source, over the states of the cache. *)
Fixpoint count_patches (m : nat → MappedVector.memory) (k : cache) (s : contribution_statistics) (max_source : N) (patches : list source_patch) :
    option (cache * option (contribution_statistics * N)) :=
  match patches with
  | [] => Some (k, Some (s, max_source))
  | p :: patches' =>
      '(k, old) ← ContributionCache.state (m 0%nat) k (patched_source p);
      match (match old with Some st => without_state s st | None => Some s end) with
      | None => Some (k, None)
      | Some s => count_patches (λ i, m (S i)) k (if patch_present p then with_state s (patched_state p) else s)
                    (N.max max_source (patched_source p)) patches'
      end
  end.

Section publication.
Context (grown : N → N → N).

Definition capacity_for (capacity n : N) : N := if capacity <? n then grown capacity n else capacity.

(** The sizes of the vectors after publication. *)
Definition size_after {A} (base : N) (v : heap_vector A) : N := base + size (items v).

Definition reservations (u : sparse_update) : list (cache → cache) :=
  let reserve {A} (v : mapped_vector (T := A)) n := MappedVector.reserve capacity_for v n in
  let bs := update_bases u in let c := arenas u in
  [ (λ k, ContributionCache.with_committed_sources (reserve (committed_sources k) (prepared_source_size u)) k);
    (λ k, ContributionCache.with_committed_construction (reserve (committed_construction k) (prepared_construction_size u)) k);
    (λ k, ContributionCache.with_committed_types (reserve (committed_types k) (size_after (type_base bs) (types c))) k);
    (λ k, ContributionCache.with_committed_members (reserve (committed_members k) (size_after (member_base bs) (Contribution.members c))) k);
    (λ k, ContributionCache.with_committed_modifiers (reserve (committed_modifiers k) (size_after (modifier_base bs) (Contribution.modifiers c))) k);
    (λ k, ContributionCache.with_committed_enum_values (reserve (committed_enum_values k) (size_after (enum_value_base bs) (Contribution.enum_values c))) k);
    (λ k, ContributionCache.with_committed_objects (reserve (committed_objects k) (size_after (object_base bs) (objects c))) k);
    (λ k, ContributionCache.with_committed_links (reserve (committed_links k) (size_after (link_base bs) (links c))) k) ].

(** Brings the records of the baseline that will be stored to into the cache of the vector. *)
Fixpoint materialize {A} `{!Inhabited A} (m : nat → MappedVector.memory) (v : mapped_vector (T := A)) (indices : list N) :
    option (mapped_vector (T := A)) :=
  match indices with
  | [] => Some v
  | i :: indices' =>
      if i <? MappedVector.baseline_count v then
        '(v, _) ← MappedVector.at_mutable (m 0%nat) v i;
        materialize (λ j, m (S j)) v indices'
      else materialize m v indices'
  end.

Definition touched_sources (u : sparse_update) : list N := patched_source <$> items (source_patches u).
Definition touched_types (u : sparse_update) : list N := patched_type <$> items (construction_patches u).

(** The reservations of a cache with a baseline, of which [granted] find memory, and what publication stores to. *)
Definition prepare_baseline (m : nat → nat → MappedVector.memory) (granted : nat) (k : cache) (u : sparse_update) :
    option (status_code * cache * sparse_update) :=
  let k := foldl (λ k reserve, reserve k) k (take granted (reservations u)) in
  if bool_decide (granted < length (reservations u))%nat then Some (initialization_failed, k, fail_update initialization_failed u)
  else
    sources ← materialize (m 0%nat) (committed_sources k) (touched_sources u);
    construction ← materialize (m 1%nat) (committed_construction k) (touched_types u);
    let k := ContributionCache.with_committed_construction construction (ContributionCache.with_committed_sources sources k) in
    if negb (status_ok (MappedVector.read_failure sources)) then Some (MappedVector.read_failure sources, k, u)
    else Some (MappedVector.read_failure construction, k, u).

Definition lacks_capacity (k : cache) (u : sparse_update) : bool :=
  let bs := update_bases u in let c := arenas u in
  (MappedVector.capacity (committed_sources k) <? prepared_source_size u) ||
  (MappedVector.capacity (committed_construction k) <? prepared_construction_size u) ||
  (MappedVector.capacity (committed_types k) <? size_after (type_base bs) (types c)) ||
  (MappedVector.capacity (committed_members k) <? size_after (member_base bs) (Contribution.members c)) ||
  (MappedVector.capacity (committed_modifiers k) <? size_after (modifier_base bs) (Contribution.modifiers c)) ||
  (MappedVector.capacity (committed_enum_values k) <? size_after (enum_value_base bs) (Contribution.enum_values c)) ||
  (MappedVector.capacity (committed_objects k) <? size_after (object_base bs) (objects c)) ||
  (MappedVector.capacity (committed_links k) <? size_after (link_base bs) (links c)).

(** The statistics of a refused preparation are not kept: only publication reads them. *)
Definition prepare_publish (m : nat → nat → MappedVector.memory) (granted : nat) (k : cache) (u : sparse_update) :
    option (status_code * cache * sparse_update) :=
  if negb (status_ok (update_failure u)) then Some (update_failure u, k, u)
  else if is_prepared u || is_published u || negb (provenance_complete k) then Some (invalid_argument, k, u)
  else
    '(k, counted) ← count_patches (m 0%nat) k (cache_statistics k) (last_slot (committed_sources k)) (items (source_patches u));
    match counted with
    | None => Some (invalid_argument, k, u)
    | Some (statistics, max_source) =>
        let max_handle := foldl N.max (last_slot (committed_construction k)) (touched_types u) in
        if (u32_max <=? max_source) || (u32_max <=? max_handle) then Some (not_available, k, u)
        else
          let u := with_prepared statistics (max_source + 1) (max_handle + 1) u in
          '(code, k, u) ← (if baseline_backed_cache k then prepare_baseline (λ i, m (S i)) granted k u else Some (ok, k, u));
          if negb (status_ok code) then Some (code, k, u)
          else if lacks_capacity k u then Some (rebuild_required, k, u)
          else Some (ok, k, set_shared (λ r, Rebuild (candidate r) (replaced r) (failure r) true (published r)) u)
    end.

(** The states that publication stores. *)
Definition source_stores (u : sparse_update) : list (N * contribution_state) :=
  (λ p, (patched_source p, if patch_present p then patched_state p else no_state)) <$> items (source_patches u).
Definition construction_stores (u : sparse_update) : list (N * construction_state) :=
  (λ p, (patched_type p, patched_construction p)) <$> items (construction_patches u).

(** [None] is an exception that leaves it, or a loop that would not end. *)
Definition publish_prepared (m : nat → nat → MappedVector.memory) (k : cache) (u : sparse_update) : option (cache * sparse_update) :=
  if negb (is_prepared u) || is_published u then Some (k, u)
  else
    let c := arenas u in
    let append {A} (v : mapped_vector (T := A)) (a : heap_vector A) := Graph.append_prepared capacity_for v (items a) in
    sources ← MappedVector.resize capacity_for (committed_sources k) (prepared_source_size u);
    construction ← MappedVector.resize capacity_for (committed_construction k) (prepared_construction_size u);
    sources ← Graph.patch_all (m 0%nat) sources (source_stores u);
    construction ← Graph.patch_all (m 1%nat) construction (construction_stores u);
    Some (Cache (baseline_backed_cache k) sources (append (committed_types k) (types c)) (append (committed_members k) (Contribution.members c))
            (append (committed_modifiers k) (Contribution.modifiers c)) (append (committed_enum_values k) (Contribution.enum_values c))
            (append (committed_objects k) (objects c)) (append (committed_links k) (links c)) construction (prepared_statistics u) true,
          set_shared (λ r, Rebuild (candidate r) (replaced r) (failure r) (prepared r) true) u).
End publication.

End ContributionUpdate.
