(* ===== verification/ContributionPatches.v ===== *)
(** * The patches of a sparse update

    The index leads from a key to its patch ([found_patch], [no_patch]), and a packet that is taken
    in is [kept] by its patch across the committed arenas and those of the update ([merged]). *)

From S2P Require Import Prelude Probing MappedVector Construction SourceFacts SourceFactsTheorems RuntimeLayout Graph HeapTables Contribution GenerationBuilder GenerationRules ContributionCapture ContributionRebuild ContributionCache ContributionUpdate.

Local Open Scope N_scope.

Module ContributionPatches.

Import SourceFacts SourceFactsTheorems HeapTables Contribution GenerationBuilder GenerationRules ContributionCapture ContributionRebuild ContributionUpdate.

(** ** The index *)

Notation patch_table := (table_of (hash := patch_hash)).

Lemma patch_position n : n + 1 < two32 → w32 (n + 1 + two32 - 1) = n.
Proof.
  intros H. replace (n + 1 + two32 - 1) with (n + 1 * two32) by lia. rewrite w32_mod, N.Div0.mod_add. apply N.mod_small. lia.
Qed.

Section index.
Context {A : Type} (index : heap_vector patch_slot) (keys : list N) (T : patch_table (items index) keys) (B : size keys < two32).
Context (patches : heap_vector A) (L : length (items patches) = length keys).

Lemma found_walk i key : keys !! i = Some key →
  ∃ p, walk slot_taken (λ s, s.1 =? key) (items index) (patch_hash key) = Some (p, Some (key, N.of_nat i + 1)).
Proof. intros Hk. eexists. exact (find_place _ _ _ _ T Hk). Qed.

Lemma found_patch i key : keys !! i = Some key → find_patch key index patches = Some i.
Proof.
  intros Hk. pose proof (proj1 (Forall_lookup _ _) (it_nonzero _ _ T) i key Hk) as H0. cbn in H0. unfold find_patch.
  rewrite (proj2 (N.eqb_neq _ _) H0), bool_decide_eq_false_2.
  - cbn [orb]. destruct (found_walk i key Hk) as [p ->]. cbn [snd]. apply lookup_lt_Some in Hk as Hi.
    rewrite patch_position by (unfold size in B; lia). rewrite Nat2N.id, bool_decide_eq_true_2; [done|]. lia.
  - intros E. destruct (it_complete _ _ T i key Hk) as [p Hp]. unfold used in Hp. by rewrite E, lookup_nil in Hp.
Qed.

Lemma no_patch key : key ∉ keys → find_patch key index patches = None.
Proof.
  intros Hk. unfold find_patch. destruct (_ || _) eqn:E; [done|]. apply orb_false_iff in E as [_ E%bool_decide_eq_false].
  destruct (it_search _ _ T) as [?|[Hp _]]; [done|].
  destruct (walk _ _ _ _) as [[p [s|]]|] eqn:Hw; [|done..]. exfalso.
  destruct (walk_Some _ _ _ _ _ _ Hp Hw) as (d & _ & _ & _ & Hu & Hm & _). specialize (Hm s eq_refl).
  by rewrite (not_placed _ _ _ T Hk _ _ Hu) in Hm.
Qed.

(** A key that is not there takes the slot its walk ends in. *)
Lemma slot_taken_in key p : key ∉ keys → key ≠ 0 → items index ≠ [] → vacant_slot key index = Some p → size keys + 1 < two32 →
  patch_table (items (take_slot p key (size keys + 1) index)) (keys ++ [key]).
Proof.
  intros Hk H0 Hne Hv Hb. unfold take_slot. cbn [items]. rewrite w32_small by done.
  destruct (it_search _ _ T) as [?|Hs]; [done|]. unfold vacant_slot in Hv.
  apply fmap_Some in Hv as ([q r] & Hw & ->). cbn [fst].
  destruct (walk_Some _ _ _ _ _ _ (s_power _ _ _ Hs) Hw) as (d & _ & _ & Hlt & Hu & Hm & _).
  destruct r as [e|]; [by specialize (Hm e eq_refl)|].
  destruct (walk_vacant taken slot_hash (λ _, false) (items index) (patch_hash key) q Hs Hlt Hu ltac:(done)) as (q' & Hw' & _ & _ & Hins).
  assert (E : Some (q, None) = Some (q', None)) by (etransitivity; [symmetry; exact Hw|exact Hw']). injection E as <-. apply table_insert; [done..|].
  apply (Hins _ (key, size keys + 1)); [|done]. unfold taken. cbn. by rewrite (proj2 (N.eqb_neq _ _) H0).
Qed.
End index.

(** ** One packet *)

(** The committed arenas with those of the update behind them. *)
Definition joined {A} (committed v : heap_vector A) : heap_vector A := HeapVector (items committed ++ items v) 0.
Definition merged (c d : storage) : storage :=
  Storage (sources c) (joined (types c) (types d)) (joined (Contribution.members c) (Contribution.members d)) (joined (Contribution.modifiers c) (Contribution.modifiers d))
    (joined (Contribution.enum_values c) (Contribution.enum_values d)) (joined (objects c) (objects d)) (joined (links c) (links d)) (Contribution.construction c) (statistics c).

Definition bases_of (c : storage) : arena_bases :=
  ArenaBases (size (items (types c))) (size (items (Contribution.members c))) (size (items (Contribution.modifiers c))) (size (items (Contribution.enum_values c)))
    (size (items (objects c))) (size (items (links c))).

Lemma merged_extended c d d' ts ms md vs os ls : extended d d' ts ms md vs os ls → extended (merged c d) (merged c d') ts ms md vs os ls.
Proof. intros []. split; cbn; rewrite <-app_assoc; congruence. Qed.

Lemma size_joined {A} (v w : heap_vector A) : size (items (joined v w)) = size (items v) + size (items w).
Proof. unfold size. cbn. rewrite length_app. lia. Qed.

Lemma absolute_some base n b : absolute_u32 base n = Some b → b = base + n ∧ b <= u32_max.
Proof.
  unfold absolute_u32. destruct (_ <? n); [done|]. destruct (N.ltb_spec u32_max (base + n)); [done|]. intros [= <-]. done.
Qed.

Section packet.
Context (memory : nat → bool) (grown : N → N → N).

Lemma bwp_behind {A B} base (v : heap_vector A) (f : N → build B) s Q :
  (base + size (items v) <= u32_max → wp (f (base + size (items v))) s Q) → wp (behind base v f) s Q.
Proof.
  intros H. unfold behind. destruct (absolute_u32 _ _) as [b|] eqn:E; [|apply bwp_fail_with].
  apply absolute_some in E as [-> Hb]. by apply H.
Qed.

(** A loop whose steps each check the position. *)
Lemma bwp_each_behind {A B} base (v : heap_vector A) (f : N → B → build unit) l s (Q : unit → building → Prop) :
  (base + size (items v) <= u32_max ∨ l = [] → wp (each (f (base + size (items v))) l) s Q) →
  wp (each (λ x, behind base v (λ b, f b x)) l) s Q.
Proof.
  intros H. unfold behind. destruct (absolute_u32 base (size (items v))) as [b|] eqn:E.
  - apply absolute_some in E as [-> Hb]. apply H. by left.
  - destruct l as [|x l]; [|cbn [each]; apply bwp_bind, bwp_fail_with]. apply H. by right.
Qed.

Lemma bwp_members_behind base (v : heap_vector source_type_modifier) l n s (Q : unit → building → Prop) : n < two32 →
  Forall (λ m, valid_range (ref_modifiers (member_type m)) n = true) l →
  (∀ s', adds s s' [] (capture_member (base + size (items v)) <$> l) [] [] [] [] → (base + size (items v) <= u32_max ∨ l = []) → Q tt s') →
  wp (each (λ item, behind base v (λ b, append_member memory grown b item)) l) s Q.
Proof.
  intros Hn Hl HQ. apply (bwp_each_behind base v (append_member memory grown)). intros Hb. destruct l as [|m l].
  - apply bwp_ret, HQ; [apply adds_none|done].
  - eapply bwp_append_members; [|exact Hn|exact Hl|]; [|by intros s' A; apply HQ]. destruct Hb as [Hb|]; [|done]. unfold u32_max, two32 in *. lia.
Qed.

Lemma bwp_objects_behind base (v : heap_vector source_type_modifier) l n s (Q : unit → building → Prop) : n < two32 →
  Forall (λ o, valid_range (ref_modifiers (object_type_ref o)) n = true) l →
  (∀ s', adds s s' [] [] [] [] (capture_object (base + size (items v)) <$> l) [] → (base + size (items v) <= u32_max ∨ l = []) → Q tt s') →
  wp (each (λ item, behind base v (λ b, append_object memory grown b item)) l) s Q.
Proof.
  intros Hn Hl HQ. apply (bwp_each_behind base v (append_object memory grown)). intros Hb. destruct l as [|m l].
  - apply bwp_ret, HQ; [apply adds_none|done].
  - eapply bwp_append_objects; [|exact Hn|exact Hl|]; [|by intros s' A; apply HQ]. destruct Hb as [Hb|]; [|done]. unfold u32_max, two32 in *. lia.
Qed.

(** The state over arenas [merged] before and after the packet. *)
Definition with_state_modifiers (r : source_fact_range) (st : contribution_state) : contribution_state :=
  ContributionState (state_source st) (state_types st) (state_members st) r (state_enum_values st) (state_objects st) (state_links st).

Lemma no_modifiers f : well_formed f → SourceFacts.members f = [] → SourceFacts.objects f = [] → SourceFacts.modifiers f = [].
Proof.
  intros W Em Eo. destruct (wf_modifiers_owned f W) as [_ Hs]. pose proof (modifier_ranges_Permutation f) as Hp. rewrite Em, Eo in Hp.
  apply Permutation_nil_r in Hp. rewrite Hp in Hs. cbn in Hs. unfold SourceFacts.size in Hs. destruct (SourceFacts.modifiers f); [done|cbn in Hs; lia].
Qed.

(** Where no record refers to modifiers their range may begin anywhere. *)
Lemma kept_anywhere c f st x : kept c f st → SourceFacts.members f = [] → SourceFacts.objects f = [] → SourceFacts.modifiers f = [] →
  x <= size (items (Contribution.modifiers c)) → kept c f (with_state_modifiers (FactRange x 0) st).
Proof.
  intros [K1 K2 K3 K4 K5 K6] Em Eo Ed Hx. rewrite Em in K2. rewrite Eo in K5. split; cbn; rewrite ?Em, ?Eo, ?Ed; try done.
  split; [|done]. unfold range_in. cbn. rewrite andb_true_iff, !N.leb_le. lia.
Qed.

Lemma kept_wrapped c c' f : packet_extends c c' f → well_formed f →
  size (items (Contribution.modifiers c)) <= u32_max ∨ SourceFacts.members f = [] → size (items (Contribution.modifiers c)) <= u32_max ∨ SourceFacts.objects f = [] →
  kept c' f (with_state_modifiers (FactRange (w32 (size (items (Contribution.modifiers c)))) (size (SourceFacts.modifiers f))) (state_behind c f)).
Proof.
  intros E W Hm Ho. pose proof (kept_new c c' f E) as K. destruct (N.le_gt_cases (size (items (Contribution.modifiers c))) u32_max) as [Hb|Hb].
  { rewrite w32_small by (unfold u32_max, two32 in *; lia). exact K. }
  destruct Hm as [?|Em]; [lia|]. destruct Ho as [?|Eo]; [lia|]. pose proof (no_modifiers f W Em Eo) as Ed. rewrite Ed. apply kept_anywhere; [done..|].
  rewrite w32_mod, (ex_modifiers _ _ _ _ _ _ _ _ E), Ed, app_nil_r. apply N.Div0.mod_le.
Qed.

Lemma counted_exact {A} (v v0 : heap_vector A) l : items v = items v0 ++ l → size (items v) - size (items v0) <= u32_max →
  w32 (size (items v) - size (items v0)) = size l.
Proof.
  intros E H. assert (Hs : size (items v) = size (items v0) + size l) by (rewrite E; unfold size; rewrite length_app; lia).
  rewrite w32_small by (unfold u32_max, two32 in *; lia). lia.
Qed.

Lemma bwp_append_behind c f s (Q : contribution_state → building → Prop) : well_formed f → small f →
  (∀ st s', packet_extends (merged c (contents s)) (merged c (contents s')) f → framed s s' → state_source st = source f →
    kept (merged c (contents s')) f st → (∃ ts ms md vs os ls, extended (contents s) (contents s') ts ms md vs os ls) → Q st s') →
  wp (append_packet memory grown (bases_of c) f) s Q.
Proof.
  intros W B HQ. destruct (modifier_ranges_valid f _ (wf_modifiers_owned f W)) as [Vm Vo]. pose proof B as (_ & B2 & _).
  change SourceFacts.size with (@size source_type_modifier) in *. unfold append_packet. apply bwp_bind. unfold storing. apply bwp_read. unfold id.
  apply bwp_bind, bwp_insert_modifiers. intros s1 A1.
  apply bwp_bind. eapply bwp_members_behind; [exact B2|exact Vm|]. intros s2 A2 Bm.
  apply bwp_bind, bwp_append_values. intros s3 A3.
  apply bwp_bind. eapply bwp_objects_behind; [exact B2|exact Vo|]. intros s4 A4 Bo.
  apply bwp_bind, bwp_append_links. intros s5 A5.
  apply bwp_behind. intros H1. apply bwp_behind. intros H2. apply bwp_behind. intros H3. apply bwp_behind. intros H4.
  apply bwp_bind, bwp_append_declarations; [unfold u32_max, two32 in *; lia..|done|done|]. intros s6 A6. apply bwp_bind, bwp_read.
  apply bwp_if; intros Hgrown; [apply bwp_fail_with|]. apply bwp_behind. intros H5. apply bwp_ret.
  pose proof (adds_trans _ _ _ _ _ _ _ _ _ _ _ _ _ _ _ A1 A2) as T2. pose proof (adds_trans _ _ _ _ _ _ _ _ _ _ _ _ _ _ _ T2 A3) as T3.
  pose proof (adds_trans _ _ _ _ _ _ _ _ _ _ _ _ _ _ _ T3 A4) as T4. pose proof (adds_trans _ _ _ _ _ _ _ _ _ _ _ _ _ _ _ T4 A5) as T5.
  pose proof (adds_trans _ _ _ _ _ _ _ _ _ _ _ _ _ _ _ T5 A6) as T6. cbn [app] in T6. rewrite !app_nil_r in T6. destruct T6 as [E F]. clear T2 T3 T4 T5.
  assert (P : packet_extends (merged c (contents s)) (merged c (contents s6)) f).
  { unfold packet_extends. cbn [merged Contribution.members Contribution.modifiers Contribution.enum_values]. rewrite !size_joined. by apply merged_extended. }
  apply HQ; [done|done|done| |by do 6 eexists; exact E]. cbn in Hgrown. rewrite !orb_false_iff, !N.ltb_ge in Hgrown. destruct Hgrown as (G1 & G2 & G3 & G4 & G5 & G6 & _).
  destruct E as [E1 E2 E3 E4 E5 E6].
  rewrite (counted_exact _ _ _ E1 G1), (counted_exact _ _ _ E2 G2), (counted_exact _ _ _ E3 G3), (counted_exact _ _ _ E4 G4), (counted_exact _ _ _ E5 G5), (counted_exact _ _ _ E6 G6).
  pose proof (kept_wrapped _ _ f P W) as K. cbn [merged Contribution.modifiers] in K. rewrite size_joined in K. specialize (K Bm Bo).
  unfold with_state_modifiers, state_behind in K.
  cbn [state_source state_types state_members state_enum_values state_objects state_links merged types Contribution.members
    Contribution.enum_values objects links] in K.
  rewrite !size_joined in K. unfold size in *. rewrite ?length_fmap in *. exact K.
Qed.
End packet.

End ContributionPatches.
