(* ===== verification/ContributionUpdateTheorems.v ===== *)
(** * What a sparse update leaves

    A run of changes takes in exactly the packets and removals that it is given ([patching]); its
    publication into a cache on the heap leaves the contributions of the Sources that stay, with
    those of the new packets ([sparse_update_retains]). *)

From S2P Require Import Prelude Probing MappedVector Construction SourceFacts SourceFactsTheorems RuntimeLayout Graph GraphPublication HeapTables Contribution GenerationBuilder GenerationRules ContributionCapture ContributionRebuild GenerationRefusals GenerationTheorems ContributionCache ContributionCacheTheorems ContributionUpdate ContributionPatches.

Local Open Scope N_scope.

Module ContributionUpdateTheorems.

Import Probing SourceFacts SourceFactsTheorems HeapTables Contribution GenerationBuilder GenerationRules ContributionCapture ContributionRebuild GenerationRefusals ContributionUpdate ContributionPatches.

(** ** Changes *)

Inductive change : Type :=
| replace_change (f : source_facts)
| remove_change (source : N)
| count_change (h : N) (st : construction_state).

Definition changes_source (ch : change) : option (N * option source_facts) :=
  match ch with replace_change f => Some (source f, Some f) | remove_change s => Some (s, None) | count_change _ _ => None end.
Definition changes_type (ch : change) : option (N * construction_state) :=
  match ch with count_change h st => Some (h, st) | _ => None end.

Section run.
Context (memory : nat → bool) (grown : N → N → N).

Definition apply_change (ch : change) (u : sparse_update) : answer :=
  match ch with
  | replace_change f => replace memory grown f u
  | remove_change s => remove memory grown s u
  | count_change h st => set_construction memory grown h st u
  end.

(** The calls of a build, which stops at the first that fails. *)
Fixpoint run (changes : list change) (u : sparse_update) : answer :=
  match changes with
  | [] => Some (ok, u)
  | ch :: changes' =>
      '(code, u) ← apply_change ch u;
      if status_ok code then run changes' u else Some (code, u)
  end.
End run.

(** ** What a patch keeps *)

(** The patch of a changed Source, over the arenas. *)
Definition patches_source (c : storage) (ch : N * option source_facts) (p : source_patch) : Prop :=
  patched_source p = ch.1 ∧
  match ch.2 with
  | Some f => source f = ch.1 ∧ accepted f ∧ patch_present p = true ∧ state_source (patched_state p) = source f ∧ kept c f (patched_state p)
  | None => patch_present p = false
  end.

Notation patch_table := (table_of (hash := patch_hash)).

Record patching (c : storage) (changes : list (N * option source_facts)) (u : sparse_update) : Prop := Patching {
  pa_bases : update_bases u = bases_of c;
  pa_index : patch_table (items (source_patch_index u)) (patched_source <$> items (source_patches u));
  pa_patches : Forall2 (patches_source (merged c (arenas u))) changes (items (source_patches u)) }.

Lemma patching_keys c chs u : patching c chs u → patched_source <$> items (source_patches u) = chs.*1.
Proof. intros [_ _ H]. induction H as [|ch p chs ps [E _] _ IH]; [done|]. rewrite !fmap_cons, E. by f_equal. Qed.

(** ** Running *)

Lemma sharing_ok {A} (m : build A) u next u' : refuses m → sharing m u next = Some (ok, u') →
  ∃ a b, m (shared u) = Done a b ∧ next a (with_shared b u) = Some (ok, u').
Proof.
  intros Hm. unfold sharing. destruct (m (shared u)) as [a b|code b| |] eqn:E; [by eauto| |done..].
  intros [= Hc _]. by destruct (Hm _ _ _ E).
Qed.

Section changes.
Context (memory : nat → bool) (grown : N → N → N).

Lemma room_for_one_stays {A} (v : heap_vector A) b : stays b (room_for_one memory v b).1.
Proof.
  unfold room_for_one, room. destruct (_ <? _); [|done]. unfold allocate. by destruct (memory _).
Qed.

(** The slot of a new patch. *)
Lemma add_source_patch_ok source u u' : patch_table (items (source_patch_index u)) (patched_source <$> items (source_patches u)) →
  size (items (source_patches u)) + 1 < two32 → add_source_patch memory grown source u = (ok, u') →
  source ≠ 0 ∧ source ∉ patched_source <$> items (source_patches u) ∧
  items (source_patches u') = items (source_patches u) ++ [SourcePatch source no_state false] ∧
  patch_table (items (source_patch_index u')) ((patched_source <$> items (source_patches u)) ++ [source]) ∧
  update_bases u' = update_bases u ∧ stays (shared u) (shared u') ∧
  construction_patches u' = construction_patches u ∧ construction_patch_index u' = construction_patch_index u.
Proof.
  intros T B. unfold add_source_patch. destruct (_ || _) eqn:E0; [done|]. apply orb_false_iff in E0 as [H0%N.eqb_neq Hne%bool_decide_eq_false].
  set (keys := patched_source <$> items (source_patches u)) in *.
  assert (Hk : size keys = size (items (source_patches u))) by (unfold size, keys; by rewrite length_fmap).
  destruct (find_patch _ _ _) eqn:Ef; [done|]. assert (Hfresh : source ∉ keys).
  { intros [i Hi]%list_elem_of_lookup. rewrite (found_patch _ keys T ltac:(lia) _ ltac:(unfold keys; by rewrite length_fmap) _ _ Hi) in Ef. done. }
  destruct (vacant_slot _ _) as [p|] eqn:Ev; [|done].
  destruct (room_for_one memory (source_patches u) (shared u)) as [b1 ok1] eqn:R1. pose proof (room_for_one_stays (source_patches u) (shared u)) as S1.
  rewrite R1 in S1. cbn [fst] in S1. destruct ok1; [|done]. cbn [negb]. cbn [changed_source_ids with_source_patches with_shared shared].
  destruct (room_for_one memory (changed_source_ids u) b1) as [b2 ok2] eqn:R2. pose proof (room_for_one_stays (changed_source_ids u) b1) as S2.
  rewrite R2 in S2. cbn [fst] in S2. destruct ok2; [|done]. cbn [negb]. intros [= <-]. cbn. split_and!; try done.
  - apply (slot_taken_in _ _ T) in Ev as Hs; [|done..|lia]. unfold take_slot in Hs. rewrite Hk in Hs. cbn in Hs.
    replace (size (items (source_patches u) ++ _)) with (size (items (source_patches u)) + 1); [exact Hs|]. unfold size. rewrite length_app. cbn. lia.
  - unfold stays in *. congruence.
Qed.

Lemma alter_last {A} (f : A → A) l x : alter f (pred (length (l ++ [x]))) (l ++ [x]) = l ++ [f x].
Proof. rewrite length_app, Nat.add_1_r. cbn [pred]. by rewrite <-(Nat.add_0_r (length l)), alter_app_r. Qed.

Lemma refuses_check_packet f : refuses (check_packet memory f).
Proof.
  unfold check_packet. destruct (validate_source_facts f) as [code e] eqn:E. unfold validate_source_facts in E.
  pose proof (refuses_emit memory) as He. destruct (run_checks f); injection E as <- _; [refusing|]. destruct (filter _ _); refusing.
Qed.

Lemma bwp_check_packet f s : wp (check_packet memory f) s (λ _ s', stays s s' ∧ accepted f).
Proof.
  unfold check_packet. destruct (validate_source_facts f) as [code e] eqn:E. destruct code; try (apply bwp_bind, bwp_emit; intros; apply bwp_fail_with).
  destruct (filter _ _) as [|r rs] eqn:Ef; [|apply bwp_bind, bwp_emit; intros; apply bwp_fail_with].
  apply bwp_ret. split; [done|]. split; [by eapply validated|]. apply Forall_forall. intros r Hr. destruct (has_bases r) eqn:Hb; [|done].
  assert (Hin : r ∈ filter (λ r, has_bases r = true) (records f)) by by apply list_elem_of_filter. rewrite Ef in Hin. by apply not_elem_of_nil in Hin.
Qed.

Lemma refuses_behind {A B} base (v : heap_vector A) (k : N → build B) : (∀ b, refuses (k b)) → refuses (behind base v k).
Proof. intros H. unfold behind. destruct (absolute_u32 _ _); refusing. Qed.

Lemma refuses_append_packet bs f : refuses (append_packet memory grown bs f).
Proof.
  pose proof (@refuses_behind) as Hb. pose proof (@refuses_push memory grown) as Hp. pose proof (@refuses_insert_end memory grown) as Hi.
  unfold append_packet, append_declarations, append_declaration, append_record, append_enum, append_member, append_object, append_enum_value, append_link.
  refusing; repeat (apply refuses_behind; refusing).
Qed.

Lemma not_ok {A} (code : status_code) (x : A) y : code ≠ ok → Some (code, x) ≠ Some (ok, y).
Proof. by intros H [= E _]. Qed.

(** What is kept stays so when the arenas grow. *)
Lemma patches_more c d d' chs ps ts ms md vs os ls : extended d d' ts ms md vs os ls → Forall2 (patches_source (merged c d)) chs ps →
  Forall2 (patches_source (merged c d')) chs ps.
Proof.
  intros E H. eapply Forall2_impl; [exact H|]. intros [s o] p [H1 H2]. split; [done|]. cbn [snd] in *. destruct o as [f|]; [|done].
  destruct H2 as (? & ? & ? & ? & K). split_and!; [done..|]. eapply kept_more; [by apply merged_extended|exact K].
Qed.

Lemma replace_ok c chs f u u' : patching c chs u → small f → size chs + 1 < two32 → replace memory grown f u = Some (ok, u') →
  patching c (chs ++ [(source f, Some f)]) u' ∧ source f ∉ chs.*1 ∧
  construction_patches u' = construction_patches u ∧ construction_patch_index u' = construction_patch_index u.
Proof.
  intros P B Hn. pose proof (patching_keys _ _ _ P) as Hkeys. unfold replace. destruct (update_failure u); try done. cbn [status_ok negb].
  destruct (_ || _); [done|]. intros H. apply (sharing_ok _ _ _ _ (refuses_check_packet f)) in H as ([] & b & Hc & H).
  pose proof (bwp_done _ _ _ _ _ (bwp_check_packet f (shared u)) Hc) as [Hst Hacc].
  destruct (add_source_patch memory grown (source f) (with_shared b u)) as [code u1] eqn:Ha. destruct code; try done.
  assert (Hlen : size (items (source_patches u)) + 1 < two32).
  { pose proof (Forall2_length _ _ _ (pa_patches _ _ _ P)). unfold size in *. lia. }
  apply add_source_patch_ok in Ha as (_ & Hfresh & Hp & Ht & Hb & Hs & C1 & C2); [|apply P|exact Hlen].
  cbn [update_bases source_patches shared with_shared construction_patches construction_patch_index] in Hb, Hp, Hs, Hfresh, Ht, C1, C2.
  apply (sharing_ok _ _ _ _ (refuses_catching _ (refuses_append_packet _ f))) in H as (st & b2 & Hd & [= <-]).
  assert (Hw : wp (catching (append_packet memory grown (update_bases u1) f)) (shared u1)
    (λ st s', packet_extends (merged c (contents (shared u1))) (merged c (contents s')) f ∧ state_source st = source f ∧ kept (merged c (contents s')) f st ∧
      ∃ ts ms md vs os ls, extended (contents (shared u1)) (contents s') ts ms md vs os ls)).
  { apply bwp_catching. rewrite Hb, (pa_bases _ _ _ P). apply bwp_append_behind; [apply Hacc|done|]. done. }
  destruct (bwp_done _ _ _ _ _ Hw Hd) as (Pk & Es & K & ts & ms & md & vs & os & ls & E).
  rewrite Hkeys in Hfresh. split; [|done]. unfold stays in *. split.
  - cbn. by rewrite Hb, (pa_bases _ _ _ P).
  - cbn. rewrite Hp, alter_last, fmap_app. cbn. exact Ht.
  - cbn. rewrite Hp, alter_last. apply Forall2_app.
    + eapply patches_more; [exact E|]. rewrite Hs, Hst. apply P.
    + apply Forall2_cons. split; [|constructor]. by split_and!.
Qed.

Lemma remove_ok c chs source0 u u' : patching c chs u → size chs + 1 < two32 → remove memory grown source0 u = Some (ok, u') →
  patching c (chs ++ [(source0, None)]) u' ∧ source0 ∉ chs.*1 ∧
  construction_patches u' = construction_patches u ∧ construction_patch_index u' = construction_patch_index u.
Proof.
  intros P Hn. pose proof (patching_keys _ _ _ P) as Hkeys. unfold remove. destruct (update_failure u); try done. cbn [status_ok negb].
  destruct (_ || _); [done|]. destruct (add_source_patch memory grown source0 u) as [code u1] eqn:Ha. destruct code; try done. intros [= <-].
  assert (Hlen : size (items (source_patches u)) + 1 < two32).
  { pose proof (Forall2_length _ _ _ (pa_patches _ _ _ P)). unfold size in *. lia. }
  apply add_source_patch_ok in Ha as (_ & Hfresh & Hp & Ht & Hb & Hs & C1 & C2); [|apply P|exact Hlen].
  rewrite Hkeys in Hfresh. split; [|done]. unfold stays in Hs. split.
  - by rewrite Hb, (pa_bases _ _ _ P).
  - rewrite Hp, fmap_app. exact Ht.
  - rewrite Hp. unfold arenas. rewrite Hs. apply Forall2_app; [apply P|]. apply Forall2_cons. split; [|constructor]. by split_and!.
Qed.

(** ** The construction states *)

Definition latest (cs : list (N * construction_state)) : gmap N construction_state := list_to_map (reverse cs).

Lemma latest_snoc cs h st : latest (cs ++ [(h, st)]) = <[h := st]> (latest cs).
Proof. unfold latest. by rewrite reverse_snoc. Qed.

Record tallied (cs : list (N * construction_state)) (u : sparse_update) : Prop := Tallied {
  co_index : patch_table (items (construction_patch_index u)) (patched_type <$> items (construction_patches u));
  co_patches h st : ConstructionPatch h st ∈ items (construction_patches u) ↔ latest cs !! h = Some st;
  co_length : size (items (construction_patches u)) <= size cs }.

Lemma found_only {A} (index : heap_vector patch_slot) keys (patches : heap_vector A) h i : patch_table (items index) keys → size keys < two32 →
  length (items patches) = length keys → find_patch h index patches = Some i → keys !! i = Some h.
Proof.
  intros T B L Hf. destruct (decide (h ∈ keys)) as [[j Hj]%list_elem_of_lookup|Hn].
  - rewrite (found_patch _ keys T B _ L _ _ Hj) in Hf. by injection Hf as <-.
  - by rewrite (no_patch _ keys T _ _ Hn) in Hf.
Qed.

(** The patch of a type, new or old. *)
Lemma add_construction_patch_ok h u u' i : patch_table (items (construction_patch_index u)) (patched_type <$> items (construction_patches u)) →
  size (items (construction_patches u)) + 1 < two32 → add_construction_patch memory grown h u = (ok, u', i) →
  (∃ p, items (construction_patches u) !! i = Some p ∧ patched_type p = h ∧ u' = u) ∨
  (h ∉ patched_type <$> items (construction_patches u) ∧ i = length (items (construction_patches u)) ∧
   items (construction_patches u') = items (construction_patches u) ++ [ConstructionPatch h no_construction] ∧
   patch_table (items (construction_patch_index u')) ((patched_type <$> items (construction_patches u)) ++ [h]) ∧
   update_bases u' = update_bases u ∧ stays (shared u) (shared u') ∧
   source_patches u' = source_patches u ∧ source_patch_index u' = source_patch_index u).
Proof.
  intros T B. unfold add_construction_patch. destruct (_ || _) eqn:E0; [done|]. apply orb_false_iff in E0 as [H0%N.eqb_neq Hne%bool_decide_eq_false].
  set (keys := patched_type <$> items (construction_patches u)) in *.
  assert (Hk : size keys = size (items (construction_patches u))) by (unfold size, keys; by rewrite length_fmap).
  assert (L : length (items (construction_patches u)) = length keys) by (unfold keys; by rewrite length_fmap).
  destruct (find_patch _ _ _) as [j|] eqn:Ef.
  { intros [= <- <-]. left. apply (found_only _ keys _ _ _ T) in Ef; [|lia|done]. unfold keys in Ef. rewrite list_lookup_fmap in Ef.
    apply fmap_Some in Ef as (p & Hp & ->). by exists p. }
  assert (Hfresh : h ∉ keys).
  { intros [j Hj]%list_elem_of_lookup. by rewrite (found_patch _ keys T ltac:(lia) _ L _ _ Hj) in Ef. }
  destruct (vacant_slot _ _) as [p|] eqn:Ev; [|done].
  destruct (room_for_one memory (construction_patches u) (shared u)) as [b1 ok1] eqn:R1. pose proof (room_for_one_stays (construction_patches u) (shared u)) as S1.
  rewrite R1 in S1. cbn [fst] in S1. destruct ok1; [|done]. cbn [negb]. intros [= <- <-]. right. cbn. split_and!; try done.
  apply (slot_taken_in _ _ T) in Ev as Hs; [|done..|lia]. unfold take_slot in Hs. rewrite Hk in Hs. cbn in Hs.
  replace (size (items (construction_patches u) ++ _)) with (size (items (construction_patches u)) + 1); [exact Hs|]. unfold size. rewrite length_app. cbn. lia.
Qed.

Lemma tallied_next cs h st i p u v : tallied cs u → items (construction_patches u) !! i = Some p → patched_type p = h →
  items (construction_patches v) = alter (λ p, ConstructionPatch (patched_type p) st) i (items (construction_patches u)) →
  construction_patch_index v = construction_patch_index u → tallied (cs ++ [(h, st)]) v.
Proof.
  intros [C1 C2 C3] Hi Hh Hv Hx. set (ps := items (construction_patches u)) in *.
  assert (Hkeys : patched_type <$> items (construction_patches v) = patched_type <$> ps).
  { rewrite Hv. apply list_eq. intros j. rewrite !list_lookup_fmap. destruct (decide (j = i)) as [->|Hne]; [|by rewrite list_lookup_alter_ne].
    by rewrite list_lookup_alter_eq, Hi. }
  split.
  - by rewrite Hx, Hkeys.
  - intros h' st'. rewrite latest_snoc, Hv. split.
    + intros [j Hj]%list_elem_of_lookup. destruct (decide (j = i)) as [->|Hne].
      * rewrite list_lookup_alter_eq, Hi in Hj. injection Hj as <- <-. rewrite Hh. by rewrite lookup_insert_eq.
      * rewrite list_lookup_alter_ne in Hj by done. rewrite lookup_insert_ne; [by apply C2, (list_elem_of_lookup_2 _ j)|]. intros <-.
        destruct Hne. eapply (NoDup_lookup _ _ _ h (it_nodup _ _ C1)); rewrite list_lookup_fmap; [by rewrite Hj|by rewrite Hi, <-Hh].
    + intros [[-> ->]|[Hne Hl]]%lookup_insert_Some.
      * apply (list_elem_of_lookup_2 _ i). by rewrite list_lookup_alter_eq, Hi, <-Hh.
      * apply C2, list_elem_of_lookup in Hl as [j Hj]. apply (list_elem_of_lookup_2 _ j). rewrite list_lookup_alter_ne; [done|]. intros <-.
        assert (Some p = Some (ConstructionPatch h' st')) as [= ->] by (rewrite <-Hi; exact Hj). by cbn in Hh.
  - rewrite Hv. unfold size in *. rewrite length_alter, length_app. lia.
Qed.

Lemma tallied_new cs h u v : tallied cs u → h ∉ patched_type <$> items (construction_patches u) →
  items (construction_patches v) = items (construction_patches u) ++ [ConstructionPatch h no_construction] →
  patch_table (items (construction_patch_index v)) ((patched_type <$> items (construction_patches u)) ++ [h]) → tallied (cs ++ [(h, no_construction)]) v.
Proof.
  intros [C1 C2 C3] Hh Hv Ht. assert (Hnone : latest cs !! h = None).
  { destruct (latest cs !! h) as [st|] eqn:E; [|done]. apply C2 in E. destruct Hh. by apply (list_elem_of_fmap_2 patched_type) in E. }
  split.
  - by rewrite Hv, fmap_app.
  - intros h' st'. rewrite latest_snoc, Hv, elem_of_app, C2, list_elem_of_singleton, lookup_insert_Some. split.
    + intros [Hl|[= -> ->]]; [right|by left]. split; [|done]. intros ->. congruence.
    + intros [[-> ->]|[_ Hl]]; [by right|by left].
  - rewrite Hv. unfold size in *. rewrite !length_app. cbn. lia.
Qed.

Lemma set_construction_ok c chs cs h st u u' : patching c chs u → tallied cs u → size cs + 1 < two32 →
  set_construction memory grown h st u = Some (ok, u') → patching c chs u' ∧ tallied (cs ++ [(h, st)]) u'.
Proof.
  intros P C Hn. unfold set_construction. destruct (update_failure u); try done. cbn [status_ok negb]. destruct (_ || _); [done|].
  destruct (add_construction_patch memory grown h u) as [[code u1] i] eqn:Ha. destruct code; try done. intros [= <-]. pose proof (co_length _ _ C) as Hlen.
  apply add_construction_patch_ok in Ha as [(p & Hp & Hh & ->)|(Hh & -> & Hp & Ht & Hb & Hs & S1 & S2)]; [split|split|apply C|lia].
  - destruct P. by split.
  - by apply (tallied_next cs h st i p u _ C Hp Hh).
  - unfold stays in Hs. split; cbn; [by rewrite Hb, (pa_bases _ _ _ P)|by rewrite S1, S2; apply P|].
    rewrite S1. unfold arenas, with_construction_patches. cbn. rewrite Hs. apply P.
  - pose proof (tallied_new cs h u u1 C Hh Hp Ht) as C1. eapply (tallied_next _ h st) in C1 as [D1 D2 D3].
    + split; [exact D1| |].
      * intros h' st'. rewrite D2, !latest_snoc, insert_insert_eq. done.
      * cbn. unfold size in *. rewrite length_alter, Hp, !length_app. cbn. lia.
    + rewrite Hp. by apply list_lookup_middle.
    + done.
    + done.
    + done.
Qed.

(** ** All changes *)

Definition changed_sources (changes : list change) : list (N * option source_facts) := omap changes_source changes.
Definition counted_types (changes : list change) : list (N * construction_state) := omap changes_type changes.
Definition small_change (ch : change) : Prop := match ch with replace_change f => small f | _ => True end.

Lemma run_ok c changes : ∀ chs cs u u', patching c chs u → tallied cs u → NoDup chs.*1 → Forall small_change changes →
  size chs + size cs + size changes < two32 → run memory grown changes u = Some (ok, u') →
  patching c (chs ++ changed_sources changes) u' ∧ tallied (cs ++ counted_types changes) u' ∧ NoDup (chs ++ changed_sources changes).*1.
Proof.
  induction changes as [|ch changes IH]; intros chs cs u u' P C Hd Hsm Hn; cbn [run]; [intros [= <-]; by rewrite !app_nil_r|].
  apply Forall_cons in Hsm as [Hch Hsm]. assert (Hn' : size chs + size cs + 1 + size changes < two32) by (unfold size in *; cbn in Hn; lia). clear Hn.
  intros ([code u1] & Ha & H)%bind_Some. destruct code; try done. cbn [status_ok] in H.
  assert (Hkeys : ∀ s o, s ∉ chs.*1 → NoDup (chs ++ [(s, o)]).*1).
  { intros s o Hs. rewrite fmap_app. apply NoDup_app. split_and!; [done| |apply NoDup_singleton]. intros x Hx Hx'%list_elem_of_singleton. by subst. }
  assert (Htally : construction_patches u1 = construction_patches u → construction_patch_index u1 = construction_patch_index u → tallied cs u1).
  { intros E1 E2. destruct C. by split; rewrite ?E1, ?E2. }
  assert (Hs1 : ∀ p, size (chs ++ [p]) = size chs + 1) by (intros p; unfold size; rewrite length_app; cbn; lia).
  unfold changed_sources, counted_types in *. destruct ch as [f|s|h st]; cbn [apply_change omap list_omap changes_source changes_type] in *.
  - apply (replace_ok c chs) in Ha as (P1 & Hf & E1 & E2); [|done..|lia].
    destruct (IH _ cs u1 u' P1 (Htally E1 E2) (Hkeys _ _ Hf) Hsm ltac:(rewrite Hs1; lia) H) as (R1 & R2 & R3). by rewrite <-app_assoc in R1, R3.
  - apply (remove_ok c chs) in Ha as (P1 & Hf & E1 & E2); [|done|lia].
    destruct (IH _ cs u1 u' P1 (Htally E1 E2) (Hkeys _ _ Hf) Hsm ltac:(rewrite Hs1; lia) H) as (R1 & R2 & R3). by rewrite <-app_assoc in R1, R3.
  - apply (set_construction_ok c chs cs) in Ha as [P1 C1]; [|done..|lia].
    assert (Hs2 : size (cs ++ [(h, st)]) = size cs + 1) by (unfold size; rewrite length_app; cbn; lia).
    destruct (IH chs _ u1 u' P1 C1 Hd Hsm ltac:(rewrite Hs2; lia) H) as (R1 & R2 & R3). by rewrite <-app_assoc in R2.
Qed.

(** ** The reservation *)

Lemma patch_capacity_power n : patch_capacity n = 0 ∨ power_of_two (patch_capacity n).
Proof. unfold patch_capacity. destruct (_ =? _); [by left|]. destruct (_ <? _); [by left|]. right. apply MappedVector.bit_ceil_pow2. Qed.

Context (limits : length_limits).

Lemma refuses_within {A} n limit (m : build A) : refuses m → refuses (within n limit m).
Proof. intros H. unfold within. destruct (_ <? _); [by apply refuses_fail_with|done]. Qed.

Lemma growing_ok {A} (v : heap_vector A) n limit set u next u' : growing memory v n limit set u next = Some (ok, u') →
  ∃ b, next (set (with_shared b u)) = Some (ok, u').
Proof.
  unfold growing. intros H. apply sharing_ok in H as (a & b & _ & H); [by exists b|].
  apply refuses_catching, refuses_within, refuses_room.
Qed.

Lemma refuses_reserve_arenas tc mc dc vc oc lc : refuses (reserve_arenas memory grown tc mc dc vc oc lc).
Proof. pose proof (@refuses_room memory) as Hr. unfold reserve_arenas, reserve_arena. refusing. Qed.

Lemma reserve_incremental_ok sc tt_ tc mc dc vc oc lc c u u' : update_bases u = bases_of c →
  reserve_incremental memory grown limits sc tt_ tc mc dc vc oc lc u = Some (ok, u') → patching c [] u' ∧ tallied [] u'.
Proof.
  intros Hb. unfold reserve_incremental. destruct (update_failure u); try done. cbn [status_ok negb].
  destruct (_ || _) eqn:E; [done|]. rewrite !orb_false_iff, !negb_false_iff, !N.eqb_eq in E. destruct E as ((((_ & _) & E1) & E2) & _).
  destruct (_ || _); [done|]. destruct (_ || _); [done|].
  intros (a & b & _ & H)%(sharing_ok _ _ _ _ (refuses_catching _ (refuses_reserve_arenas _ _ _ _ _ _))).
  apply growing_ok in H as [b1 H]. apply growing_ok in H as [b2 H]. apply growing_ok in H as [b3 H]. apply growing_ok in H as [b4 H].
  apply growing_ok in H as [b5 [= <-]].
  assert (Hn1 : items (source_patches u) = []) by (destruct (items (source_patches u)); [done|unfold size in E1; cbn in E1; lia]).
  assert (Hn2 : items (construction_patches u) = []) by (destruct (items (construction_patches u)); [done|unfold size in E2; cbn in E2; lia]).
  split; split; cbn; rewrite ?Hn1, ?Hn2; try done; try (apply table_fresh, patch_capacity_power).
  intros h st. split; [by intros ?%not_elem_of_nil|done].
Qed.
End changes.

End ContributionUpdateTheorems.
