(* ===== verification/ContributionPublication.v ===== *)
(** * Publication of a sparse update

    Over a cache on the heap, a preparation that answers ok leaves the arenas as they are
    ([prepared_heap]) and publication then puts the [merged] arenas and the patched states in
    place ([published_heap]): the contributions of the Sources that stay, with those of the new
    packets ([sparse_update_retains]). *)

From S2P Require Import Prelude Probing MappedVector Construction SourceFacts SourceFactsTheorems RuntimeLayout Graph GraphPublication HeapTables Contribution GenerationBuilder GenerationRules ContributionCapture ContributionRebuild GenerationRefusals GenerationTheorems ContributionCache ContributionCacheTheorems ContributionUpdate ContributionPatches ContributionUpdateTheorems.

Local Open Scope N_scope.

Module ContributionPublication.

Import SourceFacts SourceFactsTheorems HeapTables Contribution GenerationBuilder GenerationRules GenerationRefusals ContributionCapture ContributionRebuild GenerationTheorems ContributionCacheTheorems ContributionUpdate ContributionPatches ContributionUpdateTheorems.
Notation holds := GraphPublication.holds.

(** ** Vectors on the heap *)

Section heap.
Context {A : Type} `{!Inhabited A}.
Implicit Types v : MappedVector.mapped_vector (T := A).

Lemma set_local_heap v l l' capacity : heap_holds v l → heap_holds (MappedVector.set_local v l' capacity) l'.
Proof.
  intros [[W _ _] [Hb Hr]]. assert (W' := MappedVector.wf_set_local v l' capacity W). split; [|done]. split; [done| |].
  - unfold MappedVector.size, MappedVector.local_size. cbn. rewrite Hb. unfold Graph.count_of. lia.
  - intros i. rewrite MappedVector.contents_local by (cbn; lia). cbn. by rewrite Hb, N.sub_0_r.
Qed.

Lemma reserve_heap grown v l n : heap_holds v l → heap_holds (MappedVector.reserve grown v n) l.
Proof. intros H. unfold MappedVector.reserve. destruct (heap_local v l H) as (E & _ & _). rewrite E. by apply (set_local_heap v l). Qed.

Lemma resize_heap grown v l n : heap_holds v l → size l <= n →
  ∃ v', MappedVector.resize grown v n = Some v' ∧ heap_holds v' (l ++ replicate (N.to_nat n - length l) inhabitant).
Proof.
  intros H Hn. destruct (heap_local v l H) as (E & Hb & _).
  assert (Hr : ∀ capacity, heap_holds (MappedVector.set_local v (MappedVector.resize_list (N.to_nat n) (MappedVector.local v)) capacity)
    (l ++ replicate (N.to_nat n - length l) inhabitant)).
  { intros capacity. unfold MappedVector.resize_list. rewrite E, take_ge by (unfold size in Hn; lia). by apply (set_local_heap v l). }
  unfold MappedVector.resize. rewrite Hb, N.sub_0_r. destruct (negb _); [by eexists|]. destruct (N.ltb_spec n 0); [lia|]. by eexists.
Qed.

Lemma append_holds_heap grown v l vs : heap_holds v l → heap_holds (Graph.append_prepared grown v vs) (l ++ vs).
Proof. intros [H1 H2]. split; [by apply GraphPublication.append_prepared_holds|by apply GraphPublication.append_heap]. Qed.

Lemma patch_all_holds_heap o v l ps : heap_holds v l → Forall (λ p, p.1 < size l) ps →
  ∃ v', Graph.patch_all o v ps = Some v' ∧ heap_holds v' (GraphPublication.patched ps l).
Proof.
  intros [H1 H2] Hp. destruct (GraphPublication.patch_all_spec (λ _, tt) ps o v) as (v' & E & _ & _ & _ & _ & _ & Hl).
  - apply H1.
  - by apply (GraphPublication.holds_readable v l).
  - by rewrite (GraphPublication.h_size _ _ H1).
  - done.
  - exists v'. pose proof (GraphPublication.patch_all_heap _ _ _ _ H2 E) as H3. split; [done|]. split; [|done]. apply Hl; [apply H3|done].
Qed.

Lemma materialize_heap m v l is_ : heap_holds v l → materialize m v is_ = Some v.
Proof.
  intros (_ & Hb & _)%heap_local. revert m. induction is_ as [|i is_ IH]; intros m; [done|]. cbn [materialize].
  rewrite Hb. destruct (N.ltb_spec i 0); [lia|]. apply IH.
Qed.

(** What the last store to an index leaves there. *)
Lemma patched_other (ps : list (N * A)) l i : i ∉ ps.*1 → GraphPublication.patched ps l !! N.to_nat i = l !! N.to_nat i.
Proof.
  unfold GraphPublication.patched. revert l. induction ps as [|[j x] ps IH]; intros l Hi; [done|]. cbn in Hi. apply not_elem_of_cons in Hi as [Hj Hi].
  cbn [foldl]. rewrite IH by done. apply list_lookup_insert_ne. cbn. lia.
Qed.

Lemma patched_there (ps : list (N * A)) l i x : NoDup ps.*1 → (i, x) ∈ ps → i < size l → GraphPublication.patched ps l !! N.to_nat i = Some x.
Proof.
  revert l. induction ps as [|[j y] ps IH]; intros l Hd Hi Hl; [by apply not_elem_of_nil in Hi|]. apply NoDup_cons in Hd as [Hj Hd].
  apply elem_of_cons in Hi as [[= -> ->]|Hi].
  - cbn in Hj. change (GraphPublication.patched ps (<[N.to_nat j := y]> l) !! N.to_nat j = Some y). rewrite patched_other by done.
    apply list_lookup_insert_eq. unfold size in Hl. lia.
  - apply (IH (<[N.to_nat j := y]> l)); [done..|]. unfold size. by rewrite length_insert.
Qed.
End heap.

(** ** The cache with its construction states *)

Record filled (k : cache) (c : storage) : Prop := Filled {
  fi_caches : caches k c; fi_construction : heap_holds (committed_construction k) (items (Contribution.construction c)) }.

Section prepare.
Context (grown : N → N → N).

Lemma count_patches_heap k c ps : caches k c → ∀ m s mx k' s' mx', count_patches m k s mx ps = Some (k', Some (s', mx')) →
  k' = k ∧ mx <= mx' ∧ Forall (λ p, patched_source p <= mx') ps.
Proof.
  intros K. induction ps as [|p ps IH]; intros m s mx k' s' mx'; cbn [count_patches]; [intros [= <- <- <-]; by split_and!|].
  rewrite (state_heap k c K). cbn [mbind option_bind]. destruct (filed c _) as [st|]; [destruct (without_state s st) as [s1|]; [|done]|].
  all: intros (-> & H1 & H2)%IH; split_and!; [done|lia|]; constructor; [lia|done].
Qed.

Lemma last_slot_size {A} `{!Inhabited A} (v : MappedVector.mapped_vector (T := A)) l : heap_holds v l → size l <= last_slot v + 1.
Proof. intros (_ & _ & Hs)%heap_local. unfold last_slot. rewrite Hs. destruct (N.eqb_spec (size l) 0); lia. Qed.

Lemma reservations_filled u k c : filled k c → filled (foldl (λ k reserve, reserve k) k (reservations grown u)) c.
Proof. intros [[] ?]. split; [split|]; cbn; try done; by apply reserve_heap. Qed.

Lemma reservations_kept u k : provenance_complete (foldl (λ k reserve, reserve k) k (reservations grown u)) = provenance_complete k.
Proof. done. Qed.

Lemma prepare_baseline_filled m granted k c u k1 u1 : filled k c → prepare_baseline grown m granted k u = Some (ok, k1, u1) → filled k1 c ∧ u1 = u.
Proof.
  intros F. unfold prepare_baseline. case_bool_decide as Hg; [done|]. rewrite take_ge by lia. pose proof (reservations_filled u k c F) as F'.
  set (k' := foldl _ k _) in *. rewrite (materialize_heap _ _ _ _ (kc_sources _ _ (fi_caches _ _ F'))). cbn [mbind option_bind].
  rewrite (materialize_heap _ _ _ _ (fi_construction _ _ F')). cbn [mbind option_bind].
  assert (E : ContributionCache.with_committed_construction (committed_construction k') (ContributionCache.with_committed_sources (committed_sources k') k') = k') by by destruct k'.
  rewrite E. destruct (status_ok _); intros [= _ <- <-]; done.
Qed.

(** What publication works on. *)
Record publishable (u u1 : sparse_update) : Prop := Publishable {
  pu_flags : is_prepared u1 = true ∧ is_published u1 = false;
  pu_arenas : arenas u1 = arenas u;
  pu_patches : source_patches u1 = source_patches u ∧ construction_patches u1 = construction_patches u;
  pu_sources : Forall (λ p, patched_source p < prepared_source_size u1) (items (source_patches u));
  pu_types : Forall (λ p, patched_type p < prepared_construction_size u1) (items (construction_patches u)) }.

Lemma prepared_heap m granted k c u k1 u1 : filled k c → prepare_publish grown m granted k u = Some (ok, k1, u1) →
  filled k1 c ∧ publishable u u1 ∧ size (items (sources c)) <= prepared_source_size u1 ∧ size (items (Contribution.construction c)) <= prepared_construction_size u1.
Proof.
  intros F. unfold prepare_publish. destruct (update_failure u); try done. cbn [status_ok negb]. destruct (_ || _) eqn:E; [done|].
  rewrite !orb_false_iff in E. destruct E as [[_ Hpub] _].
  destruct (count_patches _ _ _ _ _) as [[k' [[s mx]|]]|] eqn:Ec; [|done..]. cbn [mbind option_bind].
  apply (count_patches_heap _ c) in Ec as (-> & Hmx & Hps); [|apply F]. destruct (_ || _); [done|].
  set (mh := foldl N.max (last_slot (committed_construction k)) (touched_types u)). set (u0 := with_prepared s (mx + 1) (mh + 1) u).
  pose proof (last_slot_size _ _ (kc_sources _ _ (fi_caches _ _ F))) as L1. pose proof (last_slot_size _ _ (fi_construction _ _ F)) as L2.
  assert (Hmh : last_slot (committed_construction k) <= mh) by (apply foldl_max; by left).
  intros ([[code k2] u2] & Hb & H)%bind_Some. destruct code; try done. cbn [status_ok negb] in H. destruct (lacks_capacity _ _); [done|]. injection H as <- <-.
  assert (G : filled k2 c ∧ u2 = u0) by (destruct (baseline_backed_cache k); [by eapply prepare_baseline_filled|by injection Hb as <- <-]).
  destruct G as [F2 ->]. split; [done|]. split; [|unfold u0; cbn; lia]. split; try done.
  - eapply Forall_impl; [exact Hps|]. unfold u0. cbn. lia.
  - apply Forall_forall. intros p Hp. assert (patched_type p <= mh); [|unfold u0; cbn; lia]. apply foldl_max. right. by apply list_elem_of_fmap_2.
Qed.

(** The storage that is in place after publication. *)
Definition after_publication (c : storage) (u1 : sparse_update) : storage :=
  let widened {A} `{!Inhabited A} (n : N) (l : list A) := l ++ replicate (N.to_nat n - length l) inhabitant in
  let m := merged c (arenas u1) in
  Storage (HeapVector (GraphPublication.patched (source_stores u1) (widened (prepared_source_size u1) (items (sources c)))) 0)
    (types m) (Contribution.members m) (Contribution.modifiers m) (Contribution.enum_values m) (objects m) (links m)
    (HeapVector (GraphPublication.patched (construction_stores u1) (widened (prepared_construction_size u1) (items (Contribution.construction c)))) 0) (statistics c).

Lemma widened_size {A} (l : list A) n x : size l <= n → size (l ++ replicate (N.to_nat n - length l) x) = n.
Proof. unfold size. rewrite length_app, length_replicate. lia. Qed.

Lemma published_heap m k c u u1 : filled k c → publishable u u1 → size (items (sources c)) <= prepared_source_size u1 →
  size (items (Contribution.construction c)) <= prepared_construction_size u1 →
  ∃ k2 u2, publish_prepared grown m k u1 = Some (k2, u2) ∧ filled k2 (after_publication c u1).
Proof.
  intros [[K1 K2 K3 K4 K5 K6 K7 K8] K9] [[P1 P2] P3 [P4 P5] P6 P7] H1 H2. unfold publish_prepared. rewrite P1, P2. cbn [negb orb].
  destruct (resize_heap (capacity_for grown) _ _ _ K1 H1) as (v1 & -> & R1). cbn [mbind option_bind].
  destruct (resize_heap (capacity_for grown) _ _ _ K9 H2) as (v2 & -> & R2). cbn [mbind option_bind].
  destruct (patch_all_holds_heap (m 0%nat) v1 _ (source_stores u1) R1) as (w1 & -> & S1).
  { rewrite (widened_size _ _ _ H1). unfold source_stores. rewrite P4. by apply Forall_fmap. }
  destruct (patch_all_holds_heap (m 1%nat) v2 _ (construction_stores u1) R2) as (w2 & -> & S2).
  { rewrite (widened_size _ _ _ H2). unfold construction_stores. rewrite P5. by apply Forall_fmap. }
  cbn [mbind option_bind]. eexists _, _. split; [done|]. split; [split|]; cbn; try done; by apply append_holds_heap.
Qed.
End prepare.

(** ** What is retained *)

(** The packets after the changes: a changed Source has its new packet, if any. *)
Definition updated (fs : list source_facts) (chs : list (N * option source_facts)) : list source_facts :=
  filter (λ f, source f ∉ chs.*1) fs ++ omap snd chs.

Lemma packets_sources (l : list (N * option source_facts)) : (∀ s f, (s, Some f) ∈ l → source f = s) → sublist (source <$> omap snd l) l.*1.
Proof.
  induction l as [|[s [f|]] l IH]; intros H; [constructor| |]; cbn [omap list_omap snd].
  - rewrite !fmap_cons. cbn. rewrite (H s f) by (by left). constructor. apply IH. intros. apply H. by right.
  - rewrite fmap_cons. constructor. apply IH. intros. apply H. by right.
Qed.

Section retained.
Context (c : storage) (chs : list (N * option source_facts)) (u u1 : sparse_update).
Context (P : patching c chs u) (D : NoDup chs.*1) (Q : publishable u u1) (Z : size (items (sources c)) <= prepared_source_size u1).
Notation final := (after_publication c u1).

Lemma stored_keys : (source_stores u1).*1 = chs.*1.
Proof.
  rewrite <-(patching_keys _ _ _ P). unfold source_stores. rewrite (proj1 (pu_patches _ _ Q)), <-list_fmap_compose. done.
Qed.

Lemma publication_extends : extended c final (items (types (arenas u1))) (items (Contribution.members (arenas u1))) (items (Contribution.modifiers (arenas u1)))
  (items (Contribution.enum_values (arenas u1))) (items (objects (arenas u1))) (items (links (arenas u1))).
Proof. by split. Qed.

(** A state of the final storage is stored, old or vacant. *)
Lemma final_state i st : items (sources final) !! i = Some st →
  (∃ o p, (N.of_nat i, o) ∈ chs ∧ patches_source (merged c (arenas u)) (N.of_nat i, o) p ∧ st = if patch_present p then patched_state p else no_state) ∨
  (N.of_nat i ∉ chs.*1 ∧ (items (sources c) !! i = Some st ∨ st = no_state)).
Proof.
  intros Hi. cbn [sources after_publication items] in Hi. destruct (decide (N.of_nat i ∈ chs.*1)) as [Hin|Hn].
  - apply list_elem_of_fmap in Hin as ([s o] & Hs & Hin). cbn in Hs. subst s. left. assert (Hch := Hin). apply list_elem_of_lookup in Hin as [j Hj].
    destruct (Forall2_lookup_l _ _ _ _ _ (pa_patches _ _ _ P) Hj) as (p & Hp & Hps). exists o, p. split_and!; [done|done|].
    assert (Hst : (N.of_nat i, if patch_present p then patched_state p else no_state) ∈ source_stores u1).
    { unfold source_stores. rewrite (proj1 (pu_patches _ _ Q)). apply list_elem_of_fmap. exists p. split; [by rewrite (proj1 Hps)|by eapply list_elem_of_lookup_2]. }
    rewrite <-(Nat2N.id i) in Hi. rewrite (patched_there _ _ _ _ ltac:(by rewrite stored_keys) Hst) in Hi; [by injection Hi as <-|].
    rewrite (widened_size _ _ _ Z). pose proof (pu_sources _ _ Q) as Hb. rewrite Forall_forall in Hb.
    specialize (Hb p (list_elem_of_lookup_2 _ _ _ Hp)). by rewrite (proj1 Hps) in Hb.
  - right. split; [done|]. rewrite <-(Nat2N.id i), patched_other, Nat2N.id in Hi by (by rewrite stored_keys).
    apply lookup_app_Some in Hi as [Hi|[_ Hi]]; [by left|right]. by apply lookup_replicate in Hi as [-> _].
Qed.

Lemma stored_packet s f : (s, Some f) ∈ chs →
  source f = s ∧ ∃ st, items (sources final) !! N.to_nat s = Some st ∧ captured_source final f st.
Proof.
  intros Hin. assert (Hlt : (N.to_nat s < length (items (sources final)))%nat).
  { apply list_elem_of_lookup in Hin as [j Hj]. destruct (Forall2_lookup_l _ _ _ _ _ (pa_patches _ _ _ P) Hj) as (p & Hp & [Hs _]).
    pose proof (pu_sources _ _ Q) as Hb. rewrite Forall_forall in Hb. specialize (Hb p (list_elem_of_lookup_2 _ _ _ Hp)). rewrite Hs in Hb. cbn in Hb.
    cbn [sources after_publication items]. rewrite GraphPublication.length_patched. pose proof (widened_size (items (sources c)) _ inhabitant Z) as Hw. unfold size in Hw. lia. }
  apply lookup_lt_is_Some_2 in Hlt as [st Hst]. assert (Hk : s ∈ chs.*1) by (apply list_elem_of_fmap; by exists (s, Some f)).
  destruct (final_state _ _ Hst) as [(o & p & Ho & [Hp1 Hp2] & ->)|[Hn _]]; [|by rewrite N2Nat.id in Hn]. rewrite N2Nat.id in Ho, Hp1, Hp2.
  assert (o = Some f) as ->.
  { apply list_elem_of_lookup in Ho as [i Hi]. apply list_elem_of_lookup in Hin as [j Hj].
    assert (i = j) as ->; [|rewrite Hi in Hj; by injection Hj]. eapply (NoDup_lookup _ _ _ s D); rewrite list_lookup_fmap; [by rewrite Hi|by rewrite Hj]. }
  destruct Hp2 as (E & [W _] & Hpres & Hss & K). rewrite Hpres in Hst. split; [done|]. exists (patched_state p). split; [done|].
  apply kept_captured; [|done|done]. destruct K as [A1 A2 A3 A4 A5 A6]. rewrite <-(pu_arenas _ _ Q) in *. by split.
Qed.

Lemma changed_packet f : f ∈ omap snd chs → (source f, Some f) ∈ chs.
Proof. intros ([s o] & Hin & Ho)%list_elem_of_omap. cbn in Ho. subst o. by destruct (stored_packet s f Hin) as [<- _]. Qed.

Lemma updated_once fs : NoDup (source <$> fs) → NoDup (source <$> updated fs chs).
Proof.
  intros Hfs. unfold updated. rewrite fmap_app. apply NoDup_app. split_and!.
  - eapply sublist_NoDup; [exact Hfs|]. apply fmap_sublist, sublist_filter.
  - intros x (f & -> & [Hn _]%list_elem_of_filter)%list_elem_of_fmap (g & E & Hg%changed_packet)%list_elem_of_fmap.
    apply Hn. rewrite E. apply list_elem_of_fmap. by exists (source g, Some g).
  - eapply sublist_NoDup; [exact D|]. apply packets_sources. intros s f Hin. by destruct (stored_packet s f Hin).
Qed.

Lemma retained_after fs : retained fs c → retained (updated fs chs) final.
Proof.
  intros [R1 R2 R3]. split.
  - by apply updated_once.
  - intros f [[Hn Hf]%list_elem_of_filter|Hf%changed_packet]%elem_of_app; [|by apply stored_packet].
    destruct (R2 f Hf) as (st & Hst & S). exists st. split; [|by eapply captured_source_more; [exact publication_extends|]].
    cbn [sources after_publication items]. rewrite patched_other by (by rewrite stored_keys). by apply lookup_app_l_Some.
  - intros i st [(o & p & Ho & [Hp1 Hp2] & ->)|[Hn [Hi| ->]]]%final_state; [| |by left].
    + destruct o as [f|]; cbn [fst snd] in *; [|rewrite Hp2; by left]. destruct Hp2 as (E & _ & -> & Hs & _). right. split; [by rewrite Hs|].
      unfold updated. rewrite fmap_app, elem_of_app. right. apply list_elem_of_fmap. exists f. split; [done|]. apply list_elem_of_omap. by eexists.
    + destruct (R3 i st Hi) as [?|[? (f & E & Hf)%list_elem_of_fmap]]; [by left|right]. split; [done|].
      unfold updated. rewrite fmap_app, elem_of_app. left. apply list_elem_of_fmap. exists f. split; [done|]. apply list_elem_of_filter. by rewrite <-E.
Qed.
End retained.

(** The cache that a full build publishes. *)
Lemma published_filled memory grown b fs abi b' ds : prepared_graph b = None → builder_prepare_g0 memory grown b fs abi = Some (ok, b', ds) →
  ∃ c, retained fs c ∧ filled (contribution_cache (builder_publish b')) c.
Proof.
  intros Hnone Hprep. destruct (prepared_cases _ _ _ _ _ _ _ _ Hnone Hprep) as (_ & _ & [[? _]|(_ & g & s & Eg & Es & Ep & Hg)]); [done|].
  destruct Hg as (c & C & _ & [v Hv] & _ & Hp & Hn). exists (with_construction v c). split.
  { apply captured_retained in C as [C1 C2 C3]. split; [done| |done]. intros f Hf. destruct (C2 f Hf) as (st & Hst & S). exists st. split; [done|].
    eapply (captured_source_more c); [|exact S]. by split; rewrite ?app_nil_r. }
  unfold builder_publish. rewrite Eg, Ep. unfold publish_rebuild. rewrite Es, Hp, Hn. cbn. rewrite Hv.
  split; [split|]; try done; exact (GraphPublication.swap_in_holds _ _).
Qed.

(** ** Capture *)

Section capture.
Context (memory : nat → bool) (grown : N → N → N) (limits : length_limits).
Notation run := (run memory grown).

Lemma run_app a b : ∀ u u1 r, run a u = Some (ok, u1) → run b u1 = r → run (a ++ b) u = r.
Proof.
  induction a as [|ch a IH]; intros u u1 r; cbn [app ContributionUpdateTheorems.run]; [by intros [= <-]|].
  intros ([code u2] & -> & H)%bind_Some. cbn [mbind option_bind]. destruct (status_ok code) eqn:E; [by apply IH|]. destruct code; done.
Qed.

Lemma replace_all_run rs : ∀ u, replace_all memory grown rs u = run (replace_change <$> rs) u.
Proof.
  induction rs as [|f rs IH]; intros u; [done|]. cbn. destruct (replace memory grown f u) as [[code u1]|]; [|done]. cbn. by destruct (status_ok code).
Qed.

Lemma reporting_not_ok code report u u' : code ≠ ok → reporting memory code report u ≠ Some (ok, u').
Proof.
  intros Hc H. destruct report as [[s detail]|]; [|by injection H].
  apply sharing_ok in H as (a & b & _ & [= E _]); [done|by apply refuses_fail_at].
Qed.

Lemma remove_all_run xs : ∀ u u', remove_all memory grown xs u = Some (ok, u') → run (remove_change <$> xs) u = Some (ok, u').
Proof.
  induction xs as [|s xs IH]; intros u u'; [done|]. rewrite fmap_cons. cbn [remove_all ContributionUpdateTheorems.run apply_change].
  destruct (remove memory grown s u) as [[code u1]|]; [|done]. cbn [mbind option_bind].
  destruct (status_ok code) eqn:E; [apply IH|]. intros H. by apply reporting_not_ok in H; [|by destruct code].
Qed.

Lemma size_replacements_heap k c rs : caches k c → ∀ m a t k' r, size_replacements m k rs a t = Some (k', r) →
  k' = k ∧ ∀ code report, r = Unsized code report → code ≠ ok.
Proof.
  intros K. induction rs as [|f rs IH]; intros m a t k' r; cbn [size_replacements]; [by intros [= <- <-]|].
  destruct (_ =? _); [intros [= <- <-]; split; [done|by intros ? ? [= <- _]]|]. destruct (mapM _ _); [|intros [= <- <-]; split; [done|by intros ? ? [= <- _]]].
  rewrite (state_heap k c K). cbn [mbind option_bind]. destruct (checked_sum _ _); [apply IH|intros [= <- <-]; split; [done|by intros ? ? [= <- _]]].
Qed.

Lemma size_removals_heap k c xs : caches k c → ∀ m a t k' r, size_removals m k xs a t = Some (k', r) →
  k' = k ∧ ∀ code report, r = Unsized code report → code ≠ ok.
Proof.
  intros K. induction xs as [|s xs IH]; intros m a t k' r; cbn [size_removals]; [by intros [= <- <-]|].
  destruct (_ =? _); [intros [= <- <-]; split; [done|by intros ? ? [= <- _]]|].
  rewrite (state_heap k c K). cbn [mbind option_bind]. destruct (checked_sum _ _); [apply IH|intros [= <- <-]; split; [done|by intros ? ? [= <- _]]].
Qed.

(** The Sources that the inputs change. *)
Definition source_changes (rs : list source_facts) (xs : list N) : list (N * option source_facts) :=
  ((λ f, (source f, Some f)) <$> rs) ++ ((λ s, (s, None)) <$> xs).
Definition all_changes (rs : list source_facts) (xs : list N) : list change := (replace_change <$> rs) ++ (remove_change <$> xs).

Lemma changes_of_inputs rs xs : changed_sources (all_changes rs xs) = source_changes rs xs ∧ counted_types (all_changes rs xs) = [].
Proof.
  unfold changed_sources, counted_types, all_changes, source_changes. rewrite !omap_app. split.
  - f_equal; [induction rs as [|f rs IH]|induction xs as [|s xs IH]]; try done; cbn in *; by rewrite IH.
  - assert (E1 : omap changes_type (replace_change <$> rs) = []) by (induction rs; done).
    assert (E2 : omap changes_type (remove_change <$> xs) = []) by (induction xs; done). by rewrite E1, E2.
Qed.

Lemma capture_sized_run rs xs a t u u' : capture_sized memory grown limits rs xs a t u = Some (ok, u') →
  ∃ sc tc mc dc vc oc lc u0, reserve_incremental memory grown limits sc t tc mc dc vc oc lc u = Some (ok, u0) ∧ run (all_changes rs xs) u0 = Some (ok, u').
Proof.
  unfold capture_sized. destruct (checked_sum _ _) as [sc|]; [|intros H; by apply reporting_not_ok in H].
  intros ([code u0] & Hr & H)%bind_Some. destruct (status_ok code) eqn:E; cbn [negb] in H.
  2: { by apply reporting_not_ok in H; [|by destruct code]. }
  assert (code = ok) as -> by (by destruct code). apply bind_Some in H as ([code u1] & H1 & H). destruct (status_ok code) eqn:E1.
  2: { injection H as -> _. by destruct code. }
  assert (code = ok) as -> by (by destruct code). rewrite replace_all_run in H1. apply remove_all_run in H. do 8 eexists. split; [exact Hr|].
  by eapply run_app.
Qed.

Lemma capture_ok c m ds n k rs xs k' u : caches k c → Forall small rs → size rs + size xs < two32 →
  capture_incremental memory grown limits m ds n k rs xs = Some (ok, k', u) →
  k' = k ∧ patching c (source_changes rs xs) u ∧ tallied [] u ∧ NoDup (source_changes rs xs).*1.
Proof.
  intros K Hs Hn. unfold capture_incremental. intros ([k1 sized] & H1 & H)%bind_Some. apply (size_replacements_heap _ c) in H1 as [-> R1]; [|done].
  destruct sized as [a t|code report]; [|apply bind_Some in H as ([code' u'] & H & [= -> _ _]); by apply reporting_not_ok in H; [|by eapply R1]].
  apply bind_Some in H as ([k2 sized] & H2 & H). apply (size_removals_heap _ c) in H2 as [-> R2]; [|done].
  destruct sized as [a' t'|code report]; [|apply bind_Some in H as ([code' u'] & H & [= -> _ _]); by apply reporting_not_ok in H; [|by eapply R2]].
  apply bind_Some in H as ([code' u'] & H & [= -> <- <-]). split; [done|].
  apply capture_sized_run in H as (sc & tc & mc & dc & vc & oc & lc & u0 & Hr & H).
  assert (Hb : update_bases (begin_incremental k ds n) = bases_of c).
  { cbn. unfold committed_sizes, bases_of. destruct K as [K1 K2 K3 K4 K5 K6 K7 _].
    by rewrite (proj2 (proj2 (heap_local _ _ K2))), (proj2 (proj2 (heap_local _ _ K3))), (proj2 (proj2 (heap_local _ _ K4))),
      (proj2 (proj2 (heap_local _ _ K5))), (proj2 (proj2 (heap_local _ _ K6))), (proj2 (proj2 (heap_local _ _ K7))). }
  apply (reserve_incremental_ok memory grown limits _ _ _ _ _ _ _ _ c) in Hr as [P0 C0]; [|exact Hb].
  destruct (run_ok memory grown c (all_changes rs xs) [] [] u0 u' P0 C0) as (P & C & D); [apply NoDup_nil_2| | |exact H|].
  - apply Forall_app. split; apply Forall_forall; intros ch (x & -> & Hx)%list_elem_of_fmap; [|done]. rewrite Forall_forall in Hs. by apply Hs.
  - unfold all_changes, size in *. cbn. rewrite length_app, !length_fmap. lia.
  - destruct (changes_of_inputs rs xs) as [E1 E2]. rewrite E1 in P, D. rewrite E2 in C. done.
Qed.

Lemma counts_only cs : changed_sources ((λ p, count_change p.1 p.2) <$> cs) = [] ∧ counted_types ((λ p, count_change p.1 p.2) <$> cs) = cs.
Proof. unfold changed_sources, counted_types. split; induction cs as [|[h st] cs IH]; try done. cbn in *. by rewrite IH. Qed.

Lemma packets_of_inputs rs xs : omap snd (source_changes rs xs) = rs.
Proof.
  unfold source_changes. rewrite omap_app. assert (E : omap snd ((λ s, (s, @None source_facts)) <$> xs) = []) by (induction xs; done).
  rewrite E, app_nil_r. induction rs as [|f rs IH]; [done|]. cbn in *. by rewrite IH.
Qed.

Lemma input_sources rs xs : (source_changes rs xs).*1 = (source <$> rs) ++ xs.
Proof. unfold source_changes. rewrite fmap_app, <-!list_fmap_compose. f_equal. apply list_fmap_id. Qed.

Lemma taken_accepted c rs xs u : patching c (source_changes rs xs) u → Forall accepted rs.
Proof.
  intros P. apply Forall_forall. intros f Hf. assert (Hin : (source f, Some f) ∈ source_changes rs xs).
  { apply elem_of_app. left. apply list_elem_of_fmap. by exists f. }
  apply list_elem_of_lookup in Hin as [i Hi]. destruct (Forall2_lookup_l _ _ _ _ _ (pa_patches _ _ _ P) Hi) as (p & _ & _ & _ & A & _). exact A.
Qed.

(** The construction states after publication: the last ones stated, the others as before. *)
Lemma construction_after c cs u u1 : tallied cs u → publishable u u1 → size (items (Contribution.construction c)) <= prepared_construction_size u1 →
  ∀ h, match latest cs !! h with
    | Some st => items (Contribution.construction (after_publication c u1)) !! N.to_nat h = Some st
    | None => ∀ st, items (Contribution.construction c) !! N.to_nat h = Some st →
        items (Contribution.construction (after_publication c u1)) !! N.to_nat h = Some st
    end.
Proof.
  intros T Q Z h. cbn [Contribution.construction after_publication items].
  assert (Hk : (construction_stores u1).*1 = patched_type <$> items (construction_patches u)).
  { unfold construction_stores. by rewrite (proj2 (pu_patches _ _ Q)), <-list_fmap_compose. }
  destruct (latest cs !! h) as [st|] eqn:E.
  - apply (co_patches _ _ T) in E. apply patched_there.
    + rewrite Hk. apply (it_nodup _ _ (co_index _ _ T)).
    + unfold construction_stores. rewrite (proj2 (pu_patches _ _ Q)). apply list_elem_of_fmap. by exists (ConstructionPatch h st).
    + rewrite (widened_size _ _ _ Z). pose proof (pu_types _ _ Q) as Hb. rewrite Forall_forall in Hb. exact (Hb _ E).
  - intros st Hst. rewrite patched_other; [by apply lookup_app_l_Some|]. rewrite Hk. intros ([h' st'] & Eh & Hin)%list_elem_of_fmap. cbn in Eh. subst h'.
    apply (co_patches _ _ T) in Hin. congruence.
Qed.

(** C7: over a cache on the heap that retains the packets of the last build, let an incremental
    build capture the new packets and the removed Sources, state the constructions of types and be
    prepared, all with ok.  Publication returns, and the cache then retains, of the old packets,
    those of the Sources that did not change, and all the new ones, which are valid; each type has
    the construction stated last, or the one it had. *)
Theorem sparse_update_retains fs c k ma ds n rs xs k0 u cs u' mb granted k1 u1 mc : retained fs c → filled k c →
  Forall small rs → size rs + size xs + size cs < two32 →
  capture_incremental memory grown limits ma ds n k rs xs = Some (ok, k0, u) →
  run ((λ p, count_change p.1 p.2) <$> cs) u = Some (ok, u') →
  prepare_publish grown mb granted k0 u' = Some (ok, k1, u1) →
  ∃ k2 u2 c2, publish_prepared grown mc k1 u1 = Some (k2, u2) ∧ filled k2 c2 ∧ Forall accepted rs ∧
    retained (filter (λ f, source f ∉ (source <$> rs) ++ xs) fs ++ rs) c2 ∧
    ∀ h, match latest cs !! h with
      | Some st => items (Contribution.construction c2) !! N.to_nat h = Some st
      | None => ∀ st, items (Contribution.construction c) !! N.to_nat h = Some st → items (Contribution.construction c2) !! N.to_nat h = Some st
      end.
Proof.
  intros R F Hs Hn Hc Hr Hp. apply (capture_ok c) in Hc as (-> & P & T & D); [|apply F|done|lia].
  assert (Hlen : size (source_changes rs xs) = size rs + size xs) by (unfold source_changes, size; rewrite length_app, !length_fmap; lia).
  destruct (counts_only cs) as [E1 E2]. assert (Hsm : Forall small_change ((λ p, count_change p.1 p.2) <$> cs)).
  { apply Forall_forall. by intros ch (p & -> & _)%list_elem_of_fmap. }
  destruct (run_ok memory grown c _ _ _ u u' P T D Hsm) as (P' & T' & D'); [|exact Hr|].
  { rewrite Hlen. unfold size in *. rewrite length_fmap. cbn. lia. }
  rewrite E1, app_nil_r in P', D'. rewrite E2 in T'. cbn [app] in T'.
  destruct (prepared_heap grown _ _ _ c _ _ _ F Hp) as (F1 & Q & Z1 & Z2).
  destruct (published_heap grown mc k1 c u' u1 F1 Q Z1 Z2) as (k2 & u2 & Hpub & F2). exists k2, u2, (after_publication c u1).
  split_and!; [done|done|by eapply taken_accepted| |by eapply construction_after].
  pose proof (retained_after c _ u' u1 P' D' Q Z1 fs R) as G. unfold updated in G. by rewrite input_sources, packets_of_inputs in G.
Qed.
End capture.

End ContributionPublication.
