(* ===== verification/ContributionCommit.v ===== *)
(** * A prepared publication allocates nothing

    After a preparation that answers ok, whether the cache has a baseline or not, publication
    returns, answers the same whatever memory there is, and grows no storage of the cache
    ([publication_allocates_nothing]). *)

From S2P Require Import Prelude Probing MappedVector Construction SourceFacts RuntimeLayout Graph HeapTables Contribution GenerationBuilder ContributionCache ContributionUpdate.

Local Open Scope N_scope.

Module ContributionCommit.

Import HeapTables Contribution ContributionUpdate.
Notation wf := MappedVector.wf.

(** ** Vectors *)

Section vectors.
Context {A : Type} `{!Inhabited A}.
Implicit Types v : MappedVector.mapped_vector (T := A).

(** No storage of the vector grows: not the appended records, the cached ones or their index. *)
Definition steady v v' : Prop :=
  MappedVector.capacity v' = MappedVector.capacity v ∧ length (MappedVector.element_cache v') = length (MappedVector.element_cache v) ∧
  MappedVector.element_index v' = MappedVector.element_index v.

(** A store to the index needs no record of the baseline that is not cached. *)
Definition reachable v (i : N) : Prop := MappedVector.baseline_count v <= i ∨ is_Some (MappedVector.find_element v i).

Lemma steady_trans v1 v2 v3 : steady v1 v2 → steady v2 v3 → steady v1 v3.
Proof. unfold steady. intros (-> & -> & ->) (-> & -> & ->). done. Qed.

Lemma find_element_ext v v' i : MappedVector.element_index v' = MappedVector.element_index v →
  length (MappedVector.element_cache v') = length (MappedVector.element_cache v) → MappedVector.find_element v' i = MappedVector.find_element v i.
Proof. intros E L. unfold MappedVector.find_element. by rewrite E, L. Qed.

Lemma steady_reachable v v' i : steady v v' → MappedVector.baseline_count v' = MappedVector.baseline_count v → reachable v i → reachable v' i.
Proof. intros (_ & L & E) Hb [H|H]; [left; by rewrite Hb|right]. by rewrite (find_element_ext v v' i E L). Qed.

Lemma store_steady v i x : reachable v i →
  ∃ v', (∀ m, MappedVector.store m v i x = Some v') ∧ steady v v' ∧ MappedVector.baseline_count v' = MappedVector.baseline_count v.
Proof.
  intros H. destruct (N.le_gt_cases (MappedVector.baseline_count v) i) as [Hb|Hb].
  { eexists. split; [intros m; unfold MappedVector.store, MappedVector.at_mutable; by rewrite (proj2 (N.leb_le _ _) Hb)|]. by split. }
  destruct H as [?|[j Hj]]; [lia|].
  eexists. split; [|split; [split_and!|]].
  - intros m. unfold MappedVector.store, MappedVector.at_mutable. rewrite (proj2 (N.leb_gt _ _) Hb). unfold MappedVector.materialize_element.
    change (MappedVector.find_element (MappedVector.invalidate_ranges_containing v i) i) with (MappedVector.find_element v i). by rewrite Hj.
  - done.
  - cbn. by rewrite length_alter.
  - done.
  - done.
Qed.

Lemma reachable_stores {B} (f : B → N * A) (g : B → N) ps v v1 : (∀ p, (f p).1 = g p) → Forall (reachable v) (g <$> ps) → steady v v1 →
  MappedVector.baseline_count v1 = MappedVector.baseline_count v → Forall (λ q, reachable v1 q.1) (f <$> ps).
Proof.
  rewrite !Forall_forall. intros Hfg H S Hb q (p & -> & Hp)%list_elem_of_fmap. rewrite Hfg.
  eapply steady_reachable; [exact S|exact Hb|]. by apply H, list_elem_of_fmap_2.
Qed.

Lemma patch_all_steady ps : ∀ v, Forall (λ p, reachable v p.1) ps → ∃ v', (∀ o, Graph.patch_all o v ps = Some v') ∧ steady v v'.
Proof.
  induction ps as [|[i x] ps IH]; intros v H; [by exists v|]. apply Forall_cons in H as [Hi H]. cbn in Hi.
  destruct (store_steady v i x Hi) as (v1 & E1 & S1 & B1). destruct (IH v1) as (v' & E2 & S2).
  { eapply Forall_impl; [exact H|]. intros p. by apply steady_reachable. }
  exists v'. split; [|by eapply steady_trans]. intros o. cbn [Graph.patch_all]. rewrite E1. apply E2.
Qed.

Section growth.
Context (grown : N → N → N).

Lemma capacity_enough c n : n <= c → capacity_for grown c n = c.
Proof. intros H. unfold capacity_for. by rewrite (proj2 (N.ltb_ge _ _) H). Qed.

Lemma append_steady l : ∀ v, MappedVector.size v + size l <= MappedVector.capacity v → steady v (Graph.append_prepared (capacity_for grown) v l).
Proof.
  unfold Graph.append_prepared. induction l as [|x l IH]; intros v H; [done|]. cbn [foldl].
  assert (S1 : steady v (MappedVector.push_back (capacity_for grown) v x)).
  { split; [|done]. unfold MappedVector.capacity, MappedVector.push_back. cbn. rewrite capacity_enough; [done|].
    unfold MappedVector.size, MappedVector.capacity, size in H. cbn in H. lia. }
  eapply steady_trans; [exact S1|]. apply IH. destruct S1 as (-> & _). unfold MappedVector.size, MappedVector.local_size, MappedVector.push_back, size in *.
  cbn in *. rewrite length_app. cbn. lia.
Qed.

Lemma resize_steady v n : MappedVector.size v <= n → n <= MappedVector.capacity v →
  ∃ v', MappedVector.resize (capacity_for grown) v n = Some v' ∧ steady v v' ∧ MappedVector.baseline_count v' = MappedVector.baseline_count v.
Proof.
  intros H1 H2. unfold MappedVector.resize, MappedVector.size, MappedVector.capacity in *.
  assert (Hs : ∀ to, to <= MappedVector.local_capacity v → steady v (MappedVector.set_local v (MappedVector.resize_list (N.to_nat to) (MappedVector.local v))
    (capacity_for grown (MappedVector.local_capacity v) to))).
  { intros to Ht. rewrite capacity_enough by done. by split. }
  destruct (MappedVector.baseline_backed v) eqn:Hb; cbn [negb].
  - rewrite (proj2 (N.ltb_ge _ _)) by lia. eexists. split; [done|]. split; [apply Hs; lia|done].
  - eexists. split; [done|]. split; [|done]. apply Hs. unfold MappedVector.baseline_backed in Hb. apply orb_false_iff in Hb as [Hb%negb_false_iff%N.eqb_eq _]. lia.
Qed.
End growth.

(** ** Records of the baseline brought in *)

Definition cached_keys v : list N := (MappedVector.element_cache v).*1.

Lemma cached_reachable v i : wf v → i ∈ cached_keys v → reachable v i.
Proof.
  intros W (e & -> & He)%list_elem_of_fmap. right. pose proof (proj1 (Forall_forall _ _) (MappedVector.wf_bound _ W) e He) as Hb. cbn in Hb.
  rewrite MappedVector.find_element_list by done. apply list_elem_of_lookup in He as [j Hj].
  rewrite (MappedVector.list_find_keys _ j e (MappedVector.wf_keys _ W) Hj). by eexists.
Qed.

Lemma materialize_element_keys m v i v' p : MappedVector.materialize_element m v i = Some (v', p) →
  (∀ j, j ∈ cached_keys v → j ∈ cached_keys v') ∧ MappedVector.local_capacity v' = MappedVector.local_capacity v.
Proof.
  unfold MappedVector.materialize_element, cached_keys. intros H. repeat case_match; simplify_eq; try done.
  cbn. split; [|done]. intros j Hj. rewrite fmap_app. apply elem_of_app. by left.
Qed.

(** A vector that was read: the same records, at least as many of them cached. *)
Record read_more v v' : Prop := ReadMore {
  rm_wf : wf v'; rm_size : MappedVector.size v' = MappedVector.size v; rm_baseline : MappedVector.baseline_count v' = MappedVector.baseline_count v;
  rm_capacity : MappedVector.capacity v' = MappedVector.capacity v; rm_keys j : j ∈ cached_keys v → j ∈ cached_keys v';
  rm_failure : status_ok (MappedVector.read_failure v') = true → status_ok (MappedVector.read_failure v) = true }.

Lemma read_more_refl v : wf v → read_more v v.
Proof. by split. Qed.
Lemma read_more_trans v1 v2 v3 : read_more v1 v2 → read_more v2 v3 → read_more v1 v3.
Proof. intros [] []. split; try done; first [congruence|auto]. Qed.

Lemma frame_size v v' : MappedVector.same_frame v v' → MappedVector.local_capacity v' = MappedVector.local_capacity v →
  MappedVector.size v' = MappedVector.size v ∧ MappedVector.capacity v' = MappedVector.capacity v.
Proof.
  intros [E1 _ E2 _] E3. unfold MappedVector.size, MappedVector.local_size, MappedVector.capacity. by rewrite E1, E2, E3.
Qed.

Lemma at_const_more m v i v' p : wf v → MappedVector.at_const m v i = Some (v', p) → read_more v v'.
Proof.
  intros W. unfold MappedVector.at_const. destruct (N.leb_spec (MappedVector.baseline_count v) i) as [Hb|Hb]; [intros [= <- <-]; by apply read_more_refl|].
  intros H. destruct (MappedVector.materialize_element_ok m v i W Hb) as (v1 & q & E & W1 & F & _ & _). rewrite H in E. injection E as <- <-.
  destruct (materialize_element_keys _ _ _ _ _ H) as [K C]. destruct (frame_size _ _ F C). split; try done; [apply F|].
  by eapply MappedVector.materialize_element_sticky.
Qed.

Lemma at_mutable_more m v i v' p : wf v → i < MappedVector.baseline_count v → MappedVector.at_mutable m v i = Some (v', p) →
  read_more v v' ∧ (status_ok (MappedVector.read_failure v') = true → i ∈ cached_keys v').
Proof.
  intros W Hb H. destruct (MappedVector.at_mutable_ok m v i W Hb) as (v1 & q & E & W1 & F & _ & M). rewrite H in E. injection E as <- <-.
  unfold MappedVector.at_mutable in H. rewrite (proj2 (N.leb_gt _ _) Hb) in H. destruct (materialize_element_keys _ _ _ _ _ H) as [K C].
  destruct (frame_size _ _ F C). split.
  - split; try done; [apply F|]. intros Hok. by apply (MappedVector.materialize_element_sticky _ _ _ _ _ H) in Hok.
  - intros Hok. destruct p as [j| |]; [|done|].
    + destruct M as (x & Hx & _). apply list_elem_of_fmap. exists (i, x). split; [done|]. by eapply list_elem_of_lookup_2.
    + destruct M as [Hbad _]. congruence.
Qed.

Lemma materialize_more is_ : ∀ m v v', wf v → materialize m v is_ = Some v' →
  read_more v v' ∧ (status_ok (MappedVector.read_failure v') = true → Forall (reachable v') is_).
Proof.
  induction is_ as [|i is_ IH]; intros m v v' W; cbn [materialize]; [intros [= <-]; split; [by apply read_more_refl|done]|].
  destruct (N.ltb_spec i (MappedVector.baseline_count v)) as [Hb|Hb].
  - intros ([v1 p] & H1 & H)%bind_Some. destruct (at_mutable_more _ _ _ _ _ W Hb H1) as [M1 C1].
    destruct (IH _ _ _ (rm_wf _ _ M1) H) as [M2 C2]. split; [by eapply read_more_trans|]. intros Hok. constructor; [|by apply C2].
    apply cached_reachable; [apply M2|]. apply (rm_keys _ _ M2), C1. by apply (rm_failure _ _ M2).
  - intros H. destruct (IH _ _ _ W H) as [M2 C2]. split; [done|]. intros Hok. constructor; [|by apply C2].
    left. by rewrite (rm_baseline _ _ M2).
Qed.
End vectors.

(** ** The cache *)

(** A cache whose vectors are well formed; without a baseline its states are on the heap. *)
Record sound_cache (k : cache) : Prop := SoundCache {
  so_sources : wf (committed_sources k); so_construction : wf (committed_construction k);
  so_heap : baseline_backed_cache k = false →
    MappedVector.baseline_count (committed_sources k) = 0 ∧ MappedVector.baseline_count (committed_construction k) = 0 }.

(** No vector of the cache grows its storage. *)
Record steady_cache (k k' : cache) : Prop := SteadyCache {
  sc_sources : steady (committed_sources k) (committed_sources k'); sc_types : steady (committed_types k) (committed_types k');
  sc_members : steady (committed_members k) (committed_members k'); sc_modifiers : steady (committed_modifiers k) (committed_modifiers k');
  sc_values : steady (committed_enum_values k) (committed_enum_values k'); sc_objects : steady (committed_objects k) (committed_objects k');
  sc_links : steady (committed_links k) (committed_links k');
  sc_construction : steady (committed_construction k) (committed_construction k') }.

(** A cache of which only states of Sources were read. *)
Definition sources_read (k k' : cache) : Prop := ∃ v, k' = ContributionCache.with_committed_sources v k ∧ read_more (committed_sources k) v.

Lemma sources_read_refl k : wf (committed_sources k) → sources_read k k.
Proof. intros W. exists (committed_sources k). split; [by destruct k|by apply read_more_refl]. Qed.

Lemma sources_read_trans k1 k2 k3 : sources_read k1 k2 → sources_read k2 k3 → sources_read k1 k3.
Proof. intros (v & -> & H1) (w & -> & H2). exists w. split; [done|]. by eapply read_more_trans. Qed.

Lemma state_read m k s k' r : wf (committed_sources k) → ContributionCache.state m k s = Some (k', r) → sources_read k k'.
Proof.
  intros W. unfold ContributionCache.state. destruct (_ || _); [intros [= <- _]; by apply sources_read_refl|].
  intros ([v p] & Hv & [= <- _])%bind_Some. exists v. split; [done|]. by apply (at_const_more _ _ _ _ _ W Hv).
Qed.

Lemma count_patches_read ps : ∀ m k s mx k' r, wf (committed_sources k) → count_patches m k s mx ps = Some (k', r) →
  sources_read k k' ∧ ∀ s' mx', r = Some (s', mx') → mx <= mx' ∧ Forall (λ p, patched_source p <= mx') ps.
Proof.
  induction ps as [|p ps IH]; intros m k s mx k' r W; cbn [count_patches].
  { intros [= <- <-]. split; [by apply sources_read_refl|]. intros s' mx' [= _ <-]. by split. }
  intros ([k1 old] & H1 & H)%bind_Some. pose proof (state_read _ _ _ _ _ W H1) as R1. destruct R1 as (v & -> & M1) eqn:E. clear E.
  assert (W1 : wf (committed_sources (ContributionCache.with_committed_sources v k))) by apply M1.
  destruct old as [st|]; [destruct (without_state s st) as [s1|]; [|injection H as <- <-; split; [by exists v|done]]|].
  all: destruct (IH _ _ _ _ _ _ W1 H) as [R2 Hm]; split; [by eapply sources_read_trans; [exists v|exact R2]|].
  all: intros s' mx' Hr; destruct (Hm _ _ Hr) as [G1 G2]; split; [lia|]; constructor; [lia|done].
Qed.

Section commit.
Context (grown : N → N → N).

(** Where the publication of the update needs no memory. *)
Record ready (k : cache) (u : sparse_update) : Prop := Ready {
  rd_bases : update_bases u = committed_sizes k;
  rd_capacity : lacks_capacity k u = false;
  rd_sources : Forall (reachable (committed_sources k)) (touched_sources u);
  rd_construction : Forall (reachable (committed_construction k)) (touched_types u);
  rd_source_size : MappedVector.size (committed_sources k) <= prepared_source_size u;
  rd_construction_size : MappedVector.size (committed_construction k) <= prepared_construction_size u }.

Lemma publish_steady k u : ready k u → is_prepared u = true → is_published u = false →
  ∃ k2 u2, (∀ m, publish_prepared grown m k u = Some (k2, u2)) ∧ steady_cache k k2.
Proof.
  intros [B C R1 R2 Z1 Z2] H1 H2. unfold lacks_capacity in C. rewrite !orb_false_iff, !N.ltb_ge, B in C. cbn in C.
  destruct C as (((((((C1 & C2) & C3) & C4) & C5) & C6) & C7) & C8).
  destruct (resize_steady grown _ _ Z1 C1) as (v1 & E1 & S1 & B1). destruct (resize_steady grown _ _ Z2 C2) as (v2 & E2 & S2 & B2).
  destruct (patch_all_steady (source_stores u) v1) as (w1 & P1 & T1); [by eapply reachable_stores|].
  destruct (patch_all_steady (construction_stores u) v2) as (w2 & P2 & T2); [by eapply reachable_stores|].
  eexists _, _. split.
  - intros m. unfold publish_prepared. rewrite H1, H2, E1. cbn [negb orb mbind option_bind]. rewrite E2. cbn [mbind option_bind].
    rewrite P1. cbn [mbind option_bind]. rewrite P2. cbn [mbind option_bind]. done.
  - split; cbn; try (by eapply steady_trans); by apply append_steady.
Qed.

(** What a preparation leaves of a cache, its capacities apart. *)
Record same_sizes (k k' : cache) : Prop := SameSizes {
  sz_arenas : committed_sizes k' = committed_sizes k;
  sz_sources : MappedVector.size (committed_sources k') = MappedVector.size (committed_sources k);
  sz_construction : MappedVector.size (committed_construction k') = MappedVector.size (committed_construction k) }.

Lemma reservations_sound u k : sound_cache k → sound_cache (foldl (λ k reserve, reserve k) k (reservations grown u)).
Proof. intros []. split; cbn; [by apply MappedVector.wf_set_local..|done]. Qed.

Lemma reservations_sizes u k : same_sizes k (foldl (λ k reserve, reserve k) k (reservations grown u)).
Proof. by split. Qed.

Lemma states_sizes k v w : read_more (committed_sources k) v → read_more (committed_construction k) w →
  same_sizes k (ContributionCache.with_committed_construction w (ContributionCache.with_committed_sources v k)).
Proof. intros [] []. by split. Qed.

Lemma same_sizes_trans k1 k2 k3 : same_sizes k1 k2 → same_sizes k2 k3 → same_sizes k1 k3.
Proof. intros [] []. split; congruence. Qed.

Lemma prepare_baseline_ready m granted k u k1 u1 : sound_cache k → prepare_baseline grown m granted k u = Some (ok, k1, u1) →
  u1 = u ∧ same_sizes k k1 ∧ Forall (reachable (committed_sources k1)) (touched_sources u) ∧ Forall (reachable (committed_construction k1)) (touched_types u).
Proof.
  intros S. unfold prepare_baseline. case_bool_decide as Hg; [done|]. rewrite take_ge by lia.
  pose proof (reservations_sound u k S) as S'. pose proof (reservations_sizes u k) as Z.
  set (k' := foldl _ k _) in *. clearbody k'. intros (v & Hv & H)%bind_Some. apply bind_Some in H as (w & Hw & H).
  destruct (materialize_more _ _ _ _ (so_sources _ S') Hv) as [M1 C1]. destruct (materialize_more _ _ _ _ (so_construction _ S') Hw) as [M2 C2].
  destruct (MappedVector.read_failure v) eqn:E1; try done; cbn [status_ok negb] in H.
  injection H as Hf <- <-. rewrite Hf in C2. split; [done|]. split; [|split; [by apply C1|by apply C2]].
  eapply same_sizes_trans; [exact Z|by apply states_sizes].
Qed.

(** A preparation that answers ok. *)
Lemma prepare_ready m granted k u k1 u1 : sound_cache k → update_bases u = committed_sizes k →
  prepare_publish grown m granted k u = Some (ok, k1, u1) → ready k1 u1 ∧ is_prepared u1 = true ∧ is_published u1 = false.
Proof.
  intros S Hb. unfold prepare_publish. destruct (update_failure u); try done. cbn [status_ok negb]. destruct (_ || _) eqn:E; [done|].
  rewrite !orb_false_iff in E. destruct E as [[_ Hpub] _]. intros ([k' r] & Hc & H)%bind_Some.
  apply count_patches_read in Hc as [(v & -> & M) Hm]; [|apply S]. destruct r as [[s mx]|]; [|done]. destruct (Hm s mx eq_refl) as [Hmx _]. clear Hm.
  set (k' := ContributionCache.with_committed_sources v k) in *. destruct (_ || _) in H; [done|].
  set (mh := foldl N.max _ _) in H. set (u0 := with_prepared s (mx + 1) (mh + 1) u) in H.
  assert (Z1 : MappedVector.size (committed_sources k) <= mx + 1) by (unfold last_slot in Hmx; destruct (N.eqb_spec (MappedVector.size (committed_sources k)) 0); lia).
  assert (Z2 : MappedVector.size (committed_construction k) <= mh + 1).
  { assert (Hmh : last_slot (committed_construction k) <= mh) by (apply foldl_max; by left). unfold last_slot in Hmh.
    destruct (N.eqb_spec (MappedVector.size (committed_construction k)) 0); lia. }
  apply bind_Some in H as ([[code k2] u2] & Hp & H). destruct code; try done. cbn [status_ok negb] in H. destruct (lacks_capacity k2 u2) eqn:Hl; [done|].
  injection H as <- <-.
  assert (G : u2 = u0 ∧ same_sizes k' k2 ∧ Forall (reachable (committed_sources k2)) (touched_sources u0) ∧ Forall (reachable (committed_construction k2)) (touched_types u0)).
  { destruct (baseline_backed_cache k') eqn:Hk.
    - apply (prepare_baseline_ready _ _ _ _ _ _) in Hp; [done|]. split; [apply M|apply S|]. intros Hn. congruence.
    - injection Hp as <- <-. destruct (so_heap _ S Hk) as [B1 B2]. split_and!; try done; apply Forall_forall; intros i _; left; cbn; [rewrite (rm_baseline _ _ M)|]; lia. }
  destruct G as (-> & [G1 G2 G3] & G4 & G5). split; [|split; [done|exact Hpub]]. split; try done.
  - by rewrite G1.
  - rewrite G2. cbn. by rewrite (rm_size _ _ M).
  - by rewrite G3.
Qed.

(** C8: after a preparation of an update that answers ok, publication returns, answers the same
    whatever memory the accesses find, and no vector of the cache grows its storage. *)
Theorem publication_allocates_nothing m granted k u k1 u1 : sound_cache k → update_bases u = committed_sizes k →
  prepare_publish grown m granted k u = Some (ok, k1, u1) →
  ∃ k2 u2, (∀ m', publish_prepared grown m' k1 u1 = Some (k2, u2)) ∧ steady_cache k1 k2.
Proof. intros S Hb Hp. destruct (prepare_ready _ _ _ _ _ _ S Hb Hp) as (R & H1 & H2). by apply publish_steady. Qed.
End commit.

End ContributionCommit.
