(* ===== verification/ContributionStorage.v ===== *)
(** * The storage of the contribution cache

    The rest of server_engine/project/builder/source_contribution.cpp: a cache over a persisted
    image, the storage it uses, and the hand-over of the vectors of a full build.

    The image is a record of what the cache reads of it ([image_view]); its format is not
    modelled.  The sizes of the records are those that build_cache_image.cpp asserts, and the
    natural layout for enumerators. *)

From S2P Require Import Prelude Probing MappedVector Construction SourceFacts RuntimeLayout Graph HeapTables Contribution GenerationBuilder GenerationTheorems ContributionCache ContributionCacheTheorems ContributionUpdate ContributionCommit ContributionPublication.

Local Open Scope N_scope.

Module ContributionStorage.

Import SourceFacts HeapTables Contribution GenerationTheorems.
Notation mapped_vector := MappedVector.mapped_vector.

(** ** A cache over an image *)

Record image_view : Type := ImageView {
  source_count : N; contribution_type_count : N; contribution_member_count : N; contribution_modifier_count : N;
  contribution_enum_value_count : N; contribution_object_count : N; contribution_link_count : N; construction_slot_count : N;
  image_state : N → status_code * contribution_state; image_type : N → status_code * contribution_type;
  image_member : N → status_code * contribution_member; image_modifier : N → status_code * source_type_modifier;
  image_enum_value : N → status_code * contribution_enum_value; image_object : N → status_code * contribution_object;
  image_link : N → status_code * contribution_link; image_construction : N → status_code * construction_state;
  image_statistics : contribution_statistics; contributions_complete : bool }.

(** The reader of the states: nothing at slot zero, and no index past 32 bits. *)
Definition read_state (v : image_view) (index : N) : status_code * contribution_state :=
  if index =? 0 then (ok, no_state)
  else if u32_max <? index then (artifact_corrupt, no_state)
  else image_state v index.

Definition bound {A} `{!Inhabited A} (count : N) (reader : N → status_code * A) : mapped_vector (T := A) :=
  MappedVector.bind_baseline MappedVector.mapped_vector_init count (Some reader).

Definition bound_cache (v : image_view) : cache :=
  Cache true (bound (source_count v + 1) (read_state v)) (bound (contribution_type_count v) (image_type v))
    (bound (contribution_member_count v) (image_member v)) (bound (contribution_modifier_count v) (image_modifier v))
    (bound (contribution_enum_value_count v) (image_enum_value v)) (bound (contribution_object_count v) (image_object v))
    (bound (contribution_link_count v) (image_link v)) (bound (construction_slot_count v + 1) (image_construction v))
    (image_statistics v) (contributions_complete v).

(** ** Storage use *)

Definition slots_of {A} (v : mapped_vector (T := A)) : N := ContributionUpdate.last_slot v.

(** Retained, reserve and stale bytes, and the construction slots. *)
Definition storage_usage (k : cache) : N * N * N * N :=
  let used := Graph.add_vector (committed_construction k) 40 (Graph.add_vector (committed_links k) 16 (Graph.add_vector (committed_objects k) 24
    (Graph.add_vector (committed_enum_values k) 24 (Graph.add_vector (committed_modifiers k) 16 (Graph.add_vector (committed_members k) 40
    (Graph.add_vector (committed_types k) 16 (Graph.add_vector (committed_sources k) 56 (0, 0)))))))) in
  let s := cache_statistics k in
  let stale :=
    Graph.stale_count (slots_of (committed_sources k)) (source_total s) * 56 +
    Graph.stale_count (MappedVector.size (committed_types k)) (type_total s) * 16 +
    Graph.stale_count (MappedVector.size (committed_members k)) (member_total s) * 40 +
    Graph.stale_count (MappedVector.size (committed_modifiers k)) (modifier_total s) * 16 +
    Graph.stale_count (MappedVector.size (committed_enum_values k)) (enum_value_total s) * 24 +
    Graph.stale_count (MappedVector.size (committed_objects k)) (object_total s) * 24 +
    Graph.stale_count (MappedVector.size (committed_links k)) (link_total s) * 16 in
  (used.1, used.2, stale, slots_of (committed_construction k)).

(** ** The hand-over of a full build *)

(** [source_contribution_generation_storage]. *)
Record generation_storage : Type := GenerationStorage {
  storage_sources : list contribution_state; storage_types : list contribution_type; storage_members : list contribution_member;
  storage_modifiers : list source_type_modifier; storage_enum_values : list contribution_enum_value;
  storage_objects : list contribution_object; storage_links : list contribution_link;
  storage_construction : list construction_state; storage_complete : bool }.
Definition no_generation_storage : generation_storage := GenerationStorage [] [] [] [] [] [] [] [] false.

Definition valid (t : generation_storage) : bool :=
  storage_complete t && negb (bool_decide (storage_sources t = [])) && negb (bool_decide (storage_construction t = [])).

Definition storage_bytes (t : generation_storage) : N :=
  size (storage_sources t) * 56 + size (storage_types t) * 16 + size (storage_members t) * 40 + size (storage_modifiers t) * 16 +
  size (storage_enum_values t) * 24 + size (storage_objects t) * 24 + size (storage_links t) * 16 + size (storage_construction t) * 40.

Definition release_native_generation_storage (k : cache) : status_code * cache * generation_storage :=
  if baseline_backed_cache k || negb (provenance_complete k) then (invalid_state, k, no_generation_storage)
  else if bool_decide (MappedVector.local (committed_sources k) = []) || bool_decide (MappedVector.local (committed_construction k) = [])
  then (initialization_failed, k, no_generation_storage)
  else
    let '(sources, s) := MappedVector.release_local_values (committed_sources k) in
    let '(types, t) := MappedVector.release_local_values (committed_types k) in
    let '(members, m) := MappedVector.release_local_values (committed_members k) in
    let '(modifiers, d) := MappedVector.release_local_values (committed_modifiers k) in
    let '(enum_values, e) := MappedVector.release_local_values (committed_enum_values k) in
    let '(objects, o) := MappedVector.release_local_values (committed_objects k) in
    let '(links, l) := MappedVector.release_local_values (committed_links k) in
    let '(construction, c) := MappedVector.release_local_values (committed_construction k) in
    let output := GenerationStorage s t m d e o l c true in
    let released statistics complete :=
      Cache (baseline_backed_cache k) sources types members modifiers enum_values objects links construction statistics complete in
    if valid output then (ok, released no_statistics false, output)
    else (initialization_failed, released (cache_statistics k) (provenance_complete k), output).

(** ** What holds of them *)

Lemma bound_sound v : source_count v + 1 < two64 → construction_slot_count v + 1 < two64 → ContributionCommit.sound_cache (bound_cache v).
Proof. intros H1 H2. split; [by apply MappedVector.wf_bind|by apply MappedVector.wf_bind|done]. Qed.

(** The state of a Source is what the image says, where it can be read. *)
Lemma bound_state v m s k' r : source_count v + 1 < two64 → ContributionCache.state m (bound_cache v) s = Some (k', r) →
  status_ok (MappedVector.read_failure (committed_sources k')) = true →
  r = if (s =? 0) || (source_count v <? s) || (u32_max <? s) then None
      else match image_state v s with (ok, st) => if state_source st =? s then Some st else None | _ => None end.
Proof.
  intros Hn. unfold ContributionCache.state. destruct (N.eqb_spec s 0) as [|H0]; [by intros [= _ <-]|]. cbn [orb].
  assert (Hsize : MappedVector.size (committed_sources (bound_cache v)) = source_count v + 1) by apply N.add_0_r.
  rewrite Hsize. destruct (N.leb_spec (source_count v + 1) s) as [Hle|Hlt].
  { intros [= _ <-] _. by rewrite (proj2 (N.ltb_lt _ _)) by lia. }
  rewrite (proj2 (N.ltb_ge _ _)) by lia. cbn [orb].
  assert (W : MappedVector.wf (committed_sources (bound_cache v))) by by apply MappedVector.wf_bind.
  destruct (MappedVector.at_const_reaches m (committed_sources (bound_cache v)) s W ltac:(by rewrite Hsize)) as (mv & p & -> & R).
  cbn [mbind option_bind]. intros [= <- <-] Hok. cbn [committed_sources ContributionCache.with_committed_sources] in Hok.
  pose proof (MappedVector.re_value _ _ _ _ R) as Hv. case_decide; [destruct Hv as (_ & Hbad & _); congruence|].
  rewrite MappedVector.contents_baseline in Hv by (cbn; lia). cbn in Hv. unfold read_state in Hv. rewrite (proj2 (N.eqb_neq _ _) H0) in Hv.
  destruct (u32_max <? s) eqn:Hu; [done|]. destruct (image_state v s) as [code st]. destruct code; try done. by injection Hv as <-.
Qed.

(** A full build hands over what its vectors hold, once. *)
Lemma released_once k c : ContributionPublication.filled k c → baseline_backed_cache k = false →
  MappedVector.reader (committed_sources k) = None ∧ MappedVector.reader (committed_construction k) = None →
  items (sources c) ≠ [] → items (Contribution.construction c) ≠ [] →
  ∃ k' t, release_native_generation_storage k = (ok, k', t) ∧ storage_sources t = items (sources c) ∧
    storage_construction t = items (Contribution.construction c) ∧
    release_native_generation_storage k' = (invalid_state, k', no_generation_storage).
Proof.
  intros [K C] Hb [Hr1 Hr2] Hs Hc. unfold release_native_generation_storage. rewrite Hb, (kc_complete _ _ K). cbn [negb orb].
  destruct (ContributionCacheTheorems.heap_local _ _ (kc_sources _ _ K)) as (E1 & B1 & _).
  destruct (ContributionCacheTheorems.heap_local _ _ C) as (E2 & B2 & _).
  rewrite E1, E2, !bool_decide_eq_false_2 by done. cbn [orb].
  assert (R1 : MappedVector.release_local_values (committed_sources k) =
    (MappedVector.MappedVector 0 None ok [] [] [] (MappedVector.failure_value (committed_sources k)) [] 0, items (sources c))).
  { unfold MappedVector.release_local_values, MappedVector.baseline_backed. by rewrite B1, Hr1, E1. }
  assert (R2 : MappedVector.release_local_values (committed_construction k) =
    (MappedVector.MappedVector 0 None ok [] [] [] (MappedVector.failure_value (committed_construction k)) [] 0, items (Contribution.construction c))).
  { unfold MappedVector.release_local_values, MappedVector.baseline_backed. by rewrite B2, Hr2, E2. }
  rewrite R1, R2. destruct (MappedVector.release_local_values (committed_types k)), (MappedVector.release_local_values (committed_members k)),
    (MappedVector.release_local_values (committed_modifiers k)), (MappedVector.release_local_values (committed_enum_values k)),
    (MappedVector.release_local_values (committed_objects k)), (MappedVector.release_local_values (committed_links k)).
  unfold valid. cbn [storage_complete storage_sources storage_construction]. rewrite !bool_decide_eq_false_2 by done. cbn [andb negb].
  eexists _, _. split; [done|]. split_and!; [done|done|]. done.
Qed.

End ContributionStorage.
