(* ===== verification/ContributionExamples.v ===== *)
(** * An incremental update of a build

    The contributions of the sample build of GenerationExamples, over which its second Source is
    replaced and its first one removed. *)

From S2P Require Import Prelude MappedVector Construction SourceFacts RuntimeLayout Graph GraphExamples HeapTables Contribution GenerationBuilder ContributionCapture ContributionRebuild GenerationTheorems ContributionUpdate ContributionUpdateTheorems ContributionCommit ContributionPublication GenerationExamples.

Local Open Scope N_scope.

Module ContributionExamples.

Import SourceFacts HeapTables Contribution GenerationBuilder ContributionCapture ContributionRebuild ContributionUpdate ContributionUpdateTheorems GenerationExamples.

Notation sample_cache := (contribution_cache (builder_publish (built_state sample))).
Definition no_limits : length_limits := LengthLimits size_max size_max size_max size_max.
Definition replacements : list source_facts := drop 1 (facts_of updated).
Definition counted : list (N * construction_state) := [(2, no_construction)].

Definition captured_update : sparse_update :=
  match capture_incremental all_memory GraphExamples.doubling no_limits every_access [] 0 sample_cache replacements [1] with
  | Some (_, _, u) => u
  | None => begin_incremental sample_cache [] 0
  end.
Definition counted_update : sparse_update :=
  match run all_memory GraphExamples.doubling ((λ p, count_change p.1 p.2) <$> counted) captured_update with
  | Some (_, u) => u
  | None => captured_update
  end.
Definition prepared_update : cache * sparse_update :=
  match prepare_publish GraphExamples.doubling every_access 0 sample_cache counted_update with
  | Some (_, k, u) => (k, u)
  | None => (sample_cache, counted_update)
  end.

Lemma capture_answers :
  capture_incremental all_memory GraphExamples.doubling no_limits every_access [] 0 sample_cache replacements [1] = Some (ok, sample_cache, captured_update).
Proof. vm_compute. reflexivity. Qed.

Lemma count_answers : run all_memory GraphExamples.doubling ((λ p, count_change p.1 p.2) <$> counted) captured_update = Some (ok, counted_update).
Proof. vm_compute. reflexivity. Qed.

Lemma prepare_answers : prepare_publish GraphExamples.doubling every_access 0 sample_cache counted_update = Some (ok, prepared_update.1, prepared_update.2).
Proof. vm_compute. reflexivity. Qed.

Lemma sample_filled : ∃ c, retained (facts_of sample) c ∧ ContributionPublication.filled sample_cache c.
Proof.
  pose proof (ContributionPublication.published_filled all_memory GraphExamples.doubling blank_builder (facts_of sample) windows_abi (built_state sample) []
    eq_refl sample_built) as H. exact H.
Qed.

Lemma replacements_few : forallb (λ f, (size (SourceFacts.members f) <? two32) && (size (SourceFacts.modifiers f) <? two32) &&
  (size (SourceFacts.enum_values f) <? two32)) replacements = true.
Proof. vm_compute. reflexivity. Qed.

Lemma replacements_small : Forall small replacements.
Proof.
  apply Forall_forall. intros f Hf. pose proof replacements_few as E. rewrite forallb_forall in E.
  specialize (E f (proj1 (list_elem_of_In _ _) Hf)). rewrite !andb_true_iff, !N.ltb_lt in E. by destruct E as [[? ?] ?].
Qed.

Lemma few_changes : size replacements + size [1] + size counted < two32.
Proof. vm_compute. reflexivity. Qed.

Lemma sparse_update_retains_witness : ∃ c, retained (facts_of sample) c ∧ ContributionPublication.filled sample_cache c ∧ Forall small replacements ∧
  ∃ k2 u2 c2, publish_prepared GraphExamples.doubling every_access prepared_update.1 prepared_update.2 = Some (k2, u2) ∧
    ContributionPublication.filled k2 c2 ∧ Forall accepted replacements ∧
    retained (filter (λ f, source f ∉ (source <$> replacements) ++ [1]) (facts_of sample) ++ replacements) c2 ∧
    ∀ h, match latest counted !! h with
      | Some st => items (Contribution.construction c2) !! N.to_nat h = Some st
      | None => ∀ st, items (Contribution.construction c) !! N.to_nat h = Some st → items (Contribution.construction c2) !! N.to_nat h = Some st
      end.
Proof.
  destruct sample_filled as (c & R & F). exists c. split; [exact R|]. split; [exact F|]. split; [exact replacements_small|].
  exact (ContributionPublication.sparse_update_retains all_memory GraphExamples.doubling no_limits (facts_of sample) c sample_cache every_access [] 0
    replacements [1] sample_cache captured_update counted counted_update every_access 0 prepared_update.1 prepared_update.2 every_access
    R F replacements_small few_changes capture_answers count_answers prepare_answers).
Defined.

Lemma sample_sound : ContributionCommit.sound_cache sample_cache.
Proof.
  destruct sample_filled as (c & _ & [K C]). split.
  - apply (GenerationTheorems.kc_sources _ _ K).
  - apply C.
  - intros _. destruct (GenerationTheorems.kc_sources _ _ K) as [_ [B1 _]]. destruct C as [_ [B2 _]]. split; [exact B1|exact B2].
Qed.

Lemma sample_bases : update_bases counted_update = committed_sizes sample_cache.
Proof. vm_compute. reflexivity. Qed.

Lemma publication_allocates_nothing_witness : ContributionCommit.sound_cache sample_cache ∧ update_bases counted_update = committed_sizes sample_cache ∧
  ∃ k2 u2, (∀ m', publish_prepared GraphExamples.doubling m' prepared_update.1 prepared_update.2 = Some (k2, u2)) ∧
    ContributionCommit.steady_cache prepared_update.1 k2.
Proof.
  split; [exact sample_sound|]. split; [exact sample_bases|].
  exact (ContributionCommit.publication_allocates_nothing GraphExamples.doubling every_access 0 sample_cache counted_update prepared_update.1 prepared_update.2
    sample_sound sample_bases prepare_answers).
Defined.

End ContributionExamples.
